(* ===== verification/_CoqProject ===== *)
-Q . S2P
Prelude.v
Js.v
Json.v
Heap.v
Redaction.v
Types.v
Num.v
Collections.v
UCurve.v
Rails.v
Sanitizer.v
Retry.v
Breaker.v
ResilientModel.v
Cascade.v
ToolArgs.v
Reducers.v
Schema.v
SchemaSound.v
HashChain.v
Structured.v
Executor.v
ExecutorRules.v
ExecutorBudget.v
ExecutorProtocol.v
ExecutorStream.v
AuditTrail.v
Approvals.v
JsonText.v
ScopeKey.v
LocalTool.v
RateLimit.v
Policies.v
StateStore.v
LocalToolGuard.v
LocalToolTerms.v
ApprovalService.v
ApprovalSafety.v
Runner.v
RunnerPersistence.v
Orchestration.v
Delegation.v
Consensus.v
Parallel.v
FanOut.v
Sop.v
Refinement.v
Debate.v
Retrieval.v
HybridStore.v
HybridSearch.v
KnowledgeGraph.v
RagStrategies.v
RagPipeline.v
Memory.v
MemoryScoring.v
Procedural.v
Experience.v
RagGraph.v
ParentChild.v
EmbeddingCache.v
Jev.v
JevGates.v
Ranking.v
RetrievalBenchmark.v
AgentMetrics.v
Benchmark.v
PairwiseJudge.v
OpenAiMappers.v
OpenAiSchema.v
OpenAiAdapter.v
McpClient.v
McpTransport.v
McpTools.v
Regexp.v
ErrorRedaction.v
BuiltInPatterns.v
AstSplitter.v
RagStages.v
RedisStores.v
