(* ===== verification/Prelude.v ===== *)
(** * nestjs-agentic: a verification library (root)

    nestjs-agentic is a NestJS framework for governed AI agents.  A turn of an
    agent is a loop of model calls and tool calls; every tool call passes policies,
    may be withheld until people approve it, and is recorded on an audit trail.
    This library models the core package (packages/core/src), the orchestration of
    several agents (packages/orchestration/src), retrieval (packages/rag/src), what
    agents remember (packages/memory/src), judged gates (packages/jev/src), the
    evaluation of agents and retrievers (packages/evaluation/src), the OpenAI adapter
    (packages/model-openai/src) and the tools of remote servers (packages/mcp/src), and
    proves what makes them safe to run.  File names below are relative to
    packages/core/src where no package is named.

    ** The program, and how the library follows it

    A component of the program is a Module of one file; a class method is a
    definition with the method's name, whose guards and calls are in the order of
    the code.  What the code calls outside itself (a model, a tool's method, a
    store's server, an authorizer, a clock, an abort signal, a random id) is an
    arbitrary function of an abstract world [W]: theorems hold for every such
    function unless they name a law it must keep.  A method is a computation in the
    monad [M] of this file: it threads the world, records the calls it makes across
    its boundary as events, in order, and ends in a value, a thrown error or
    [Diverge].

    - Prelude.v (this file): the monad, its program logic [wp] and tactics, lemmas on
      lists and options.
    - Js.v, Json.v: the JavaScript the program relies on: strings, decimal numbers,
      values, objects in insertion order, [JSON.stringify] and [JSON.parse], which
      JsonText.v proves to be inverse.  Num.v: arithmetic of numbers, with its meaning as
      rationals.  Collections.v: the stable sort and ordered maps.  Heap.v: graphs of
      objects with sharing and cycles.  Regexp.v: regular expressions as syntax with the
      backtracking match; BuiltInPatterns.v: those of the policies and of the cascade.
    - Types.v: the shared interfaces (interfaces/*.ts) and the errors (errors.ts).
    - ToolArgs.v: utils/tool-args.validator.ts.  Schema.v: utils/json-schema.validator.ts;
      SchemaSound.v shows that validation ends and what passing it means.
      Structured.v: utils/structured-output.ts.  ScopeKey.v: utils/scope-key.ts.
    - Reducers.v: utils/session-history.ts, reducers/validate-reduction.ts (the gate
      every context projection passes) and reducers/bounded-tool-history.reducer.ts.
    - Retry.v: utils/retry.ts.  Breaker.v: utils/circuit-breaker.ts, one call at a
      time and interleaved.  ResilientModel.v: adapters/resilient-model.adapter.ts.
      Cascade.v: cascading/*.ts.
    - Executor.v: services/agent-executor.service.ts.  Its state is [ExecutionState];
      execute, stream, resume, resumeStream, resumeCheckpoint and
      resumeCheckpointStream are the six entry points over the two loops
      [runToCompletion] and [streamToCompletion].  ExecutorRules.v states what each
      step does, once, in the program logic, holds the concrete turn ([Demo]) on which
      witnesses run, and proves what reaches a tool ([Tools]); ExecutorBudget.v,
      ExecutorProtocol.v and ExecutorStream.v prove the other theorems from the rules.
    - LocalTool.v: providers/local-tool.provider.ts, the guarded call of a tool:
      policy chain, approval requests, idempotency, output rails.  LocalToolGuard.v
      characterizes its runs, LocalToolTerms.v proves the rest of its promises and
      holds the in-memory idempotency store.
    - Approvals.v: the pending approval, the interface [ApprovalStore] with its
      atomicity as the laws [LawfulApprovalStore], and the in-memory store that
      implements them (interfaces/approval.interface.ts, stores/approval-records.ts,
      stores/in-memory/in-memory-approval.store.ts).
    - ApprovalService.v: services/approval.service.ts, against that interface.
      ApprovalSafety.v characterizes its runs ([Safety]), proves the governance
      theorems and runs the service on the in-memory store ([Governance]).
    - RedisStores.v: stores/redis/*.ts and stores/approval-records.ts, the same
      contracts over the texts kept by a server, a class with the laws of its commands.
    - AuditTrail.v: services/audit-trail.service.ts and interfaces/audit.interface.ts.
      HashChain.v: audit/hash-chain-audit.sink.ts.
    - The built-in policies: RateLimit.v (rate-limit, distributed-rate-limit),
      Policies.v (cost-limit, idempotency, logging), Rails.v (secret-redaction,
      pii-redaction, canary-detection) over Redaction.v
      (utils/redaction-traversal.ts), and Sanitizer.v (prompt injection: policy and
      utils/prompt-injection-sanitizer.ts).
    - ErrorRedaction.v: observers/error-redaction.ts, and in [Observers] the notifier
      and the in-memory observer (observers/{observer-notifier,in-memory.observer}.ts).
    - UCurve.v: utils/u-curve-context.formatter.ts.  StateStore.v:
      stores/in-memory/in-memory-state.store.ts and utils/deferred-write-queue.ts.
    - Runner.v: services/agent-runner.service.ts, which joins executor, tools,
      approvals and session store.  RunnerPersistence.v: what it keeps between turns,
      the queued writes of asynchronous durability ([AsyncWrites]), and a streamed turn
      against a run one ([RunnerStream]).
    - packages/orchestration/src: Orchestration.v (interfaces and errors),
      Delegation.v (delegator/sub-agent.delegator.ts), Consensus.v and Parallel.v
      (one worker of runners/parallel-subagent.runner.ts and its score), FanOut.v
      (all workers, interleaved), Sop.v (runners/sop.runner.ts), Refinement.v
      (runners/refinement-loop.runner.ts) and Debate.v (runners/debate.runner.ts).
    - packages/rag/src: Retrieval.v (interfaces and utils), HybridStore.v
      (stores/hybrid-vector.store.ts) with HybridSearch.v for its theorems,
      KnowledgeGraph.v (graph/in-memory-graph.provider.ts), RagStrategies.v
      (strategies/*.ts), RagGraph.v (strategies/graph-{rag,dependency}.strategy.ts),
      ParentChild.v and AstSplitter.v (splitters/{parent-child,ast-codebase}.splitter.ts),
      RagStages.v (the semantic splitter, query expansion, hierarchical context, late
      chunking, the scores of rerank services), EmbeddingCache.v
      (providers/cached-embedding.provider.ts) and RagPipeline.v (engines/*.ts),
      which is proved against the class [FilteringStore] of the stores that honour
      metadata filters.
    - packages/memory/src: Memory.v (the stores of one session's messages, the
      composite memory and the summarizer, over the class [SessionScoped]),
      MemoryScoring.v (scoring/*.ts and the generative store), Procedural.v
      (playbooks and the conditions that select them) and Experience.v (reflection
      on a finished task and the lessons kept from it).
    - packages/jev/src: Jev.v (a bounded judgment, its circuit, the gates and the
      judges), JevGates.v (its theorems).
    - packages/evaluation/src: Ranking.v (metrics/retrieval: the ranking and its metrics),
      RetrievalBenchmark.v (runner/retrieval-benchmark.runner.ts, the faithfulness
      metric), AgentMetrics.v (metrics/*.ts), Benchmark.v (runner/benchmark.runner.ts,
      reporter/eval-reporter.ts) and PairwiseJudge.v (judge/pairwise-debiased-judge.ts).
    - packages/model-openai/src: OpenAiMappers.v (mappers.ts), OpenAiSchema.v (the schema
      that is sent and the answer that is unwrapped) and OpenAiAdapter.v (requests,
      answers, streams, errors).
    - packages/mcp/src: McpClient.v (types, errors, and the requests in flight as a state
      machine), McpTransport.v (transports/*.ts) and McpTools.v (the handshake and the
      calls, schema conversion, the provider with its policies, the service).

    ** What the theorems show

    - The agent loop: a turn never exceeds its budgets of model calls and tool
      executions ([turn_within_budgets]) and ends when what it calls ends
      ([turn_settles]); from a well-formed history, what it sends, checkpoints and
      persists obeys the providers' tool protocol, with a reducer that keeps its
      contract or without one, and a suspension is cut at the withheld call
      ([turn_keeps_protocol]); tools run only on validated arguments; a suspension is
      checkpointed before anyone can learn of it; streaming a turn that needs no
      approval does what running it does, for adapters whose streams deliver what they
      answer ([stream_agrees_with_run]).
    - Governed tools: the method of a tool runs only after every policy allowed the
      call on the same arguments ([method_needs_every_policy]); a refusal wins;
      approvals are requested on the strictest terms; output rails decide what the
      model sees; a repeated keyed call does not run again.
    - Approvals: the withheld tool runs only once the record was taken and then found
      unexpired, sufficiently signed, and permitted by governance, except for a refusal
      without text, which goes unnoticed ([settlement_is_governed]); a record taken is
      handed to the runner once, saved back once, whether the store takes it or not, or
      reported expired ([taken_is_accounted]);
      however callers interleave at the store, a record is handed out at most once
      per save and completed only by different people.  The script of the Redis store
      signs by the same rule as the memory ([script_follows_the_rule], [in_memory_rule]),
      and what it keeps reads back ([saved_approval_reads_back]).
    - Audit: events reach every sink with arguments masked; the hash chain the sink
      writes verifies, and an anchored head pins down the history.
    - Resilience: retries follow one schedule to the millisecond, from the settings, the
      failures and the abort signal ([retry_follows_schedule]); a circuit is closed
      exactly while its threshold of failures in a row was not met since it last closed,
      however calls interleave ([trips_on_consecutive_failures]), fails fast, and
      recovers ([circuit_recovers]); a stream counts once against the breaker and is
      never replayed; a cascade answers with the first confident tier and bills all.
    - Policies: rate limits hold in every window; the personal-data rail lets out no
      string value its redaction did not produce, whatever is shared or cyclic, while
      the names of properties stay as they are ([pii_rail_lets_out_no_raw_string]); canaries are found wherever they are
      reachable; wrapped content cannot leave its boundary.
    - Observers: what leaves of an error is masked and bounded, whatever its causes
      ([nothing_unmasked_leaves], [redacted_error_is_bounded]); no observer fails a turn
      or keeps it waiting beyond its timeout ([observers_are_isolated]).  The matcher the
      expressions run on is the denotation of their syntax ([match_is_denotation]).
    - State: the in-memory store refines the map of its live entries, a claim excludes
      others while it lasts, deferred writes run in order.
    - Sessions and keys: scope keys do not collide, histories of tenants are apart
      and survive the round trip, a suspended turn resumes from its approval alone.
      With queued writes a turn loads what the ones before it wrote
      ([loads_follow_queued_writes]).
    - Data: argument validation, the reduction gate and history trimming meet their
      reference descriptions; JSON Schema validation ends for every schema
      ([schema_issues_bounded]) and an object that passes conforms
      ([valid_object_conforms]); a serializable value survives its text
      ([parse_stringify]).
    - Orchestration: down a chain of delegations tenants, rights and tools only narrow
      ([descendants_are_contained]); a fan-out gives each task to one worker and keeps
      the order of its results however workers interleave
      ([fan_out_keeps_task_order]), settles, and starts nothing after an abort; a
      workflow advances on passed phases and resumes where it stopped; a refinement
      judges each round by its threshold, keeps its sums and ends for the reason it
      reports ([refinement_is_bounded]); debates keep their bounds.
    - Retrieval: the incremental index scores as the corpus would
      ([index_matches_corpus]), a search stays within its filter
      ([search_stays_within_filter]), everything the pipeline retrieves is admitted
      and labelled external ([retrieval_is_contained]); ingestion embeds in batches;
      a graph traversal finds exactly the nodes of the ball it names and reports the
      edges at them once per text ([subgraph_is_ball]).
      Parent and child chunks hold the whole document ([splitting_loses_no_text]); a
      cached embedding is the provider's own ([cache_is_transparent]).  Splitters lose no
      declaration and no sentence ([no_declaration_is_lost], [no_sentence_is_lost]), the
      hierarchical tree holds every chunk ([tree_holds_every_chunk]), and the scores of a
      service are accepted exactly when they are an assignment
      ([accepted_scores_are_an_assignment]).
    - Memory: a window of messages slides, whole and in order ([windows_slide]);
      recalling by score marks what it returns and changes nothing else
      ([recall_only_marks]); a playbook is offered only where its conditions hold
      ([matches_are_permitted]); lessons stay with the tenant that learned them
      ([lessons_stay_with_their_tenant]).
    - Judged gates: an action gate asks at most once, without a usable judgment decides
      by its fallback, and throws only when it is cancelled or a callback of its
      configuration throws ([action_gate_fails_closed]); a call counts once for the
      circuit, however it ends ([call_counts_once_unless_cancelled]).
    - Evaluation: a ranking is by relevance and its metrics are shares that agree with
      their definitions ([metrics_agree]); a benchmark accounts for every item and trial
      ([run_accounts_for_its_dataset], [benchmark_accounts_for_its_dataset]); the verdict
      on two candidates does not depend on their order ([verdict_is_symmetric]).
    - OpenAI: a conversation is sent as far as the wire format carries it
      ([conversation_is_sent_whole]); the fragments of
      tool calls may interleave ([fragments_interleave]); a streamed answer is the complete
      one ([openai_stream_agrees_with_generate]); the references the rewriting of a
      wrapped schema reaches keep their meaning ([wrapped_references_resolve]) and its
      answers are unwrapped ([answer_is_unwrapped]).
    - MCP: an answer settles the request that asked, and nothing else but a request of
      the server with its number is taken for one ([answers_reach_their_request]); every
      request settles and leaves nothing behind ([every_request_settles],
      [requests_leak_nothing]); messages arrive however they are cut into chunks
      ([stdout_messages_arrive], [stream_events_arrive]); the model's call of a remote
      tool is made only after the check of its arguments and the policies of the
      provider, an approved one without either ([remote_call_needs_every_check]), and
      what that check accepts is spelled out ([checked_arguments_are_typed]).
    - Some theorems state behaviour the code's own comments rule out, so that a
      change of it is noticed: [empty_reason_refusal_settles],
      [resume_sends_unanswered_sibling], [bounded_reducer_fails_resumed_sibling],
      [stream_persists_made_up_answer], [cached_call_skips_policies],
      [late_version_check], [stale_success_admits_second_probe],
      [stream_misroutes_and_underbills], [forbidden_key_lets_delimiter_out]; likewise the lemmas [truncated_chain_verifies],
      [redact_misses_arrays] and [sessionKey_collides].

    ** Bounds and fuel

    The loop of the executor has fuel [loop_fuel], the iterations its limits leave
    plus one; [turn_settles] shows it never runs out.  The JSON parser and the schema
    walk have fuel from the size of their input; SchemaSound.v shows that of the
    walk is never exhausted.  A repetition of a regular expression has a unit per
    character left, and the scan of source code one per line: [repeat_fuel] and
    [no_declaration_is_lost] show that they suffice.  The signing script is proved for
    thresholds up to 999.  The pool of a fan-out takes at most [total_steps]; the
    graph traversal has fuel [work], the edges at the entities it can meet, and the
    batches of an ingestion the number of chunks; both are shown to be enough.  The eviction of lessons has the lessons kept as
    fuel; one round of it suffices.
    Attempts, iterations, phases and rounds are structural.  [drain] of a resilient stream has the length of the
    stream as fuel.  Traversals of object graphs recurse on the levels left before
    [maxDepth].  The other recursions are structural.

    ** What is not modelled

    - Values are trees, except where objects are walked by identity (Heap.v): a callee that changes an argument it was given is not
      represented, except for reducers, whose edits of their input are modelled.
      Strings are bytes, numbers exact decimals (see Js.v).
    - Concurrency inside one service object: calls interleave at the stores, whose
      operations are atomic by their interface.
    - In orchestration: delegations abandoned by a timeout run on in the background.
    - Scores are rationals and [sqrt], [log], [exp], [pow] and [log2] are parameters;
      chunks are values, what a caller does to a chunk it handed over is not followed.
    - Digests, reflection of decorators and dependency injection are parameters; so are
      the regular expressions of JSON Schema patterns and those compiled from words of a
      query or of a configuration.
    - In rag: the embedding requests in flight that concurrent callers join, and the HTTP
      requests of the embedding and rerank providers.  In jev: the numbering of unnamed
      gates.  In model-openai: the client of the SDK.  In mcp: spawning processes and
      HTTP; their effects and the timers are parameters or steps of the environment.
    - The claim of a Redis client that has neither GETDEL nor scripts, which is not
      atomic; the Lua script of the distributed rate limit.
    - The Postgres stores and the Postgres sink, which are SQL run by a server; the
      telemetry exporters, which hand events to other libraries; discovery, decorators
      and the modules of NestJS; mock adapters and test suites; applications, examples
      and documentation. *)

From Stdlib Require Export ZArith Lia.
From stdpp Require Export base option gmap fin_maps strings list.

#[export] Set Default Proof Using "Type".
#[global] Open Scope Z_scope.

(** ** Effects

    Every asynchronous method of the program is modelled in one monad.  A
    computation reads and changes an abstract external world [W] (stores,
    clocks, abort signals, providers), emits events [E] (one for each call the
    code makes across a boundary, in call order) and ends with a value, a thrown
    error, or by running out of fuel ([Diverge]), which the termination theorems
    exclude. *)

(** The thrown values of the program: an [AgenticError] keeps its class and
    payload in [X], any other [Error] its class name and message, anything else
    its [String()] rendering. *)
Inductive js_error (X : Type) : Type :=
| AgenticErr (e : X)
| NativeErr (name message : string)
| NonError (repr : string).
Arguments AgenticErr {X} _.
Arguments NativeErr {X} _ _.
Arguments NonError {X} _.

Inductive outcome (Err A : Type) : Type :=
| Ret (a : A)
| Throw (e : Err)
| Diverge.
Arguments Ret {Err A} _.
Arguments Throw {Err A} _.
Arguments Diverge {Err A}.

Declare Scope eff_scope.
Delimit Scope eff_scope with eff.

Section Effects.
Context {Err E W : Type}.

Definition M (A : Type) : Type := W -> outcome Err A * W * list E.

Definition ret {A} (a : A) : M A := fun w => (Ret a, w, []).
Definition throw {A} (e : Err) : M A := fun w => (Throw e, w, []).
Definition diverge {A} : M A := fun w => (Diverge, w, []).

Definition bind {A B} (m : M A) (k : A -> M B) : M B :=
  fun w =>
    match m w with
    | (Ret a, w1, l1) => let '(o, w2, l2) := k a w1 in (o, w2, l1 ++ l2)
    | (Throw e, w1, l1) => (Throw e, w1, l1)
    | (Diverge, w1, l1) => (Diverge, w1, l1)
    end.

(** [try m catch h]: running out of fuel is not an exception. *)
Definition catch {A} (m : M A) (h : Err -> M A) : M A :=
  fun w =>
    match m w with
    | (Throw e, w1, l1) => let '(o, w2, l2) := h e w1 in (o, w2, l1 ++ l2)
    | r => r
    end.

(** The result of [m] as a value, thrown or returned. *)
Definition tried {A} (m : M A) : M (A + Err) :=
  fun w =>
    match m w with
    | (Ret a, w1, l1) => (Ret (inl a), w1, l1)
    | (Throw e, w1, l1) => (Ret (inr e), w1, l1)
    | (Diverge, w1, l1) => (Diverge, w1, l1)
    end.

Definition emit (e : E) : M unit := fun w => (Ret tt, w, [e]).
Definition ask {A} (f : W -> A) : M A := fun w => (Ret (f w), w, []).
Definition modify (f : W -> W) : M unit := fun w => (Ret tt, f w, []).
(** A call to code outside the model: it may change the world, return or
    throw; it emits nothing itself (the caller records the call). *)
Definition lift {A} (f : W -> outcome Err A * W) : M A :=
  fun w => let '(o, w') := f w in (o, w', []).

Definition when (b : bool) (m : M unit) : M unit := if b then m else ret tt.
End Effects.
Arguments M : clear implicits.

Notation "x <- m ;; k" := (bind m (fun x => k))
  (at level 100, m at next level, right associativity) : eff_scope.
Notation "'let*' p := m 'in' k" := (bind m (fun x => match x with p => k end))
  (at level 100, p pattern, m at level 99, k at level 100, right associativity) : eff_scope.
Notation "m ;; k" := (bind m (fun _ => k))
  (at level 100, right associativity) : eff_scope.

(** ** A program logic for [M]

    [wp m w Q]: from world [w], [m] ends in an outcome, a world and emitted
    events satisfying [Q]. *)
Section Logic.
Context {Err E W : Type}.
Implicit Types w : W.

Definition wp {A} (m : M Err E W A) w (Q : outcome Err A -> W -> list E -> Prop) : Prop :=
  let '(o, w', l) := m w in Q o w' l.

Lemma wp_mono {A} (m : M Err E W A) w (P Q : outcome Err A -> W -> list E -> Prop) :
  wp m w P -> (forall o w' l, P o w' l -> Q o w' l) -> wp m w Q.
Proof. unfold wp. destruct (m w) as [[o w'] l]. auto. Qed.

Lemma wp_and {A} (m : M Err E W A) w (P Q : outcome Err A -> W -> list E -> Prop) :
  wp m w P -> wp m w Q -> wp m w (fun o w' l => P o w' l /\ Q o w' l).
Proof. unfold wp. destruct (m w) as [[o w'] l]. auto. Qed.

Lemma wp_ret {A} (a : A) w (Q : outcome Err A -> W -> list E -> Prop) :
  Q (Ret a) w [] -> wp (ret a) w Q.
Proof. auto. Qed.

Lemma wp_throw {A} e w (Q : outcome Err A -> W -> list E -> Prop) :
  Q (Throw e) w [] -> wp (throw e) w Q.
Proof. auto. Qed.

Lemma wp_emit (e : E) w (Q : outcome Err unit -> W -> list E -> Prop) :
  Q (Ret tt) w [e] -> wp (emit e) w Q.
Proof. auto. Qed.

Lemma wp_ask {A} (f : W -> A) w (Q : outcome Err A -> W -> list E -> Prop) :
  Q (Ret (f w)) w [] -> wp (ask f) w Q.
Proof. auto. Qed.

Lemma wp_modify (f : W -> W) w (Q : outcome Err unit -> W -> list E -> Prop) :
  Q (Ret tt) (f w) [] -> wp (modify f) w Q.
Proof. auto. Qed.

Lemma wp_lift {A} (f : W -> outcome Err A * W) w (Q : outcome Err A -> W -> list E -> Prop) :
  (forall o w', f w = (o, w') -> Q o w' []) -> wp (lift f) w Q.
Proof. unfold wp, lift. destruct (f w) as [o w'] eqn:H. eauto. Qed.

(** The continuation of a sequence, with the events already emitted in front. *)
Definition wp_cont {A B} (k : A -> M Err E W B)
    (Q : outcome Err B -> W -> list E -> Prop) (o : outcome Err A) w (l : list E) : Prop :=
  match o with
  | Ret a => wp (k a) w (fun o' w' l' => Q o' w' (l ++ l'))
  | Throw e => Q (Throw e) w l
  | Diverge => Q Diverge w l
  end.

Lemma wp_bind {A B} (m : M Err E W A) (k : A -> M Err E W B) w Q :
  wp m w (wp_cont k Q) -> wp (bind m k) w Q.
Proof.
  unfold wp, bind, wp_cont, wp. destruct (m w) as [[[a|e|] w1] l1]; auto.
  destruct (k a w1) as [[o w2] l2]. auto.
Qed.

Lemma wp_catch {A} (m : M Err E W A) (h : Err -> M Err E W A) w Q :
  wp m w (fun o w' l =>
    match o with
    | Throw e => wp (h e) w' (fun o' w'' l' => Q o' w'' (l ++ l'))
    | _ => Q o w' l
    end) ->
  wp (catch m h) w Q.
Proof.
  unfold wp, catch. destruct (m w) as [[[a|e|] w1] l1]; auto.
  destruct (h e w1) as [[o w2] l2]. auto.
Qed.

Lemma wp_tried {A} (m : M Err E W A) w (Q : outcome Err (A + Err) -> W -> list E -> Prop) :
  wp m w (fun o w' l =>
    match o with
    | Ret a => Q (Ret (inl a)) w' l
    | Throw e => Q (Ret (inr e)) w' l
    | Diverge => Q Diverge w' l
    end) ->
  wp (tried m) w Q.
Proof. unfold wp, tried. destruct (m w) as [[[a|e|] w1] l1]; auto. Qed.

Lemma wp_if {A} (b : bool) (m1 m2 : M Err E W A) w Q :
  (b = true -> wp m1 w Q) -> (b = false -> wp m2 w Q) -> wp (if b then m1 else m2) w Q.
Proof. destruct b; auto. Qed.

(** From the logic back to a run. *)
Lemma wp_run {A} (m : M Err E W A) w Q o w' l :
  wp m w Q -> m w = (o, w', l) -> Q o w' l.
Proof. unfold wp. intros H Hm. by rewrite Hm in H. Qed.

Lemma run_wp {A} (m : M Err E W A) w Q :
  (forall o w' l, m w = (o, w', l) -> Q o w' l) -> wp m w Q.
Proof. unfold wp. destruct (m w) as [[o w'] l]. eauto. Qed.
End Logic.

(** The laws of the monad, as equations between computations on every world. *)
Section Laws.
Context {Err E W : Type}.

Lemma bind_ret_l {A B} (a : A) (k : A -> M Err E W B) w : bind (ret a) k w = k a w.
Proof. unfold bind, ret. by destruct (k a w) as [[o w'] l]. Qed.

Lemma bind_ret_r {A} (m : M Err E W A) w : bind m ret w = m w.
Proof.
  unfold bind, ret. destruct (m w) as [[[a|e|] w'] l]; try done.
  by rewrite app_nil_r.
Qed.

Lemma bind_assoc {A B C} (m : M Err E W A) (f : A -> M Err E W B) (g : B -> M Err E W C) w :
  bind (bind m f) g w = bind m (fun a => bind (f a) g) w.
Proof.
  unfold bind. destruct (m w) as [[[a|e|] w1] l1]; try done.
  destruct (f a w1) as [[[b|e|] w2] l2]; try done.
  destruct (g b w2) as [[o w3] l3]. by rewrite app_assoc.
Qed.

Lemma bind_ext {A B} (m : M Err E W A) (f g : A -> M Err E W B) w :
  (forall a w', f a w' = g a w') -> bind m f w = bind m g w.
Proof.
  intros H. unfold bind. destruct (m w) as [[[a|e|] w1] l1]; try done.
  by rewrite H.
Qed.

(** Inversion of a sequence that ended. *)
Lemma bind_inv {A B} (m : M Err E W A) (k : A -> M Err E W B) w o w' l :
  bind m k w = (o, w', l) ->
  (exists a w1 l1 l2, m w = (Ret a, w1, l1) /\ k a w1 = (o, w', l2) /\ l = l1 ++ l2) \/
  (exists e, m w = (Throw e, w', l) /\ o = Throw e) \/
  (m w = (Diverge, w', l) /\ o = Diverge).
Proof.
  unfold bind. destruct (m w) as [[[a|e|] w1] l1].
  - destruct (k a w1) as [[o2 w2] l2] eqn:Hk. intros [= <- <- <-].
    left. by exists a, w1, l1, l2.
  - intros [= <- <- <-]. right; left. eauto.
  - intros [= <- <- <-]. by right; right.
Qed.
End Laws.

(** ** Computations that keep a predicate of the world

    [keeps I P m]: from a world satisfying [I], [m] ends in one, and all it emits
    satisfies [P].  The rules follow the structure of a computation. *)
Section Keeps.
Context {Err E W : Type} (I : W -> Prop) (P : E -> Prop).

Definition keeps {A} (m : M Err E W A) : Prop :=
  forall w, I w -> wp m w (fun _ w' l => I w' /\ Forall P l).

Lemma keeps_ret {A} (a : A) : keeps (ret a).
Proof. by intros w Hw. Qed.

Lemma keeps_throw {A} e : keeps (A := A) (throw e).
Proof. by intros w Hw. Qed.

Lemma keeps_diverge {A} : keeps (A := A) diverge.
Proof. by intros w Hw. Qed.

Lemma keeps_ask {A} (f : W -> A) : keeps (ask f).
Proof. by intros w Hw. Qed.

Lemma keeps_emit e : P e -> keeps (emit e).
Proof. intros He w Hw. split; [done|]. by constructor. Qed.

Lemma keeps_modify f : (forall w, I w -> I (f w)) -> keeps (modify f).
Proof. intros Hf w Hw. split; [by apply Hf|constructor]. Qed.

Lemma keeps_lift {A} (f : W -> outcome Err A * W) : (forall w, I w -> I (f w).2) -> keeps (lift f).
Proof. intros Hf w Hw. apply wp_lift. intros o w' Hr. specialize (Hf w Hw). by rewrite Hr in Hf. Qed.

Lemma keeps_bind {A B} (m : M Err E W A) (k : A -> M Err E W B) :
  keeps m -> (forall a, keeps (k a)) -> keeps (bind m k).
Proof.
  intros Hm Hk w Hw. apply wp_bind. eapply wp_mono; [by apply Hm|]. intros o w1 l1 [Hw1 Hl1].
  destruct o as [a|e|]; simpl; [|done..].
  eapply wp_mono; [by apply Hk|]. intros o w2 l2 [Hw2 Hl2]. rewrite Forall_app. auto.
Qed.

Lemma keeps_tried {A} (m : M Err E W A) : keeps m -> keeps (tried m).
Proof.
  intros Hm w Hw. apply wp_tried. eapply wp_mono; [by apply Hm|]. by intros [] w1 l1 H.
Qed.

Lemma keeps_catch {A} (m : M Err E W A) h : keeps m -> (forall e, keeps (h e)) -> keeps (catch m h).
Proof.
  intros Hm Hh w Hw. apply wp_catch. eapply wp_mono; [by apply Hm|]. intros o w1 l1 [Hw1 Hl1].
  destruct o as [a|e|]; [done| |done].
  eapply wp_mono; [by apply Hh|]. intros o w2 l2 [Hw2 Hl2]. rewrite Forall_app. auto.
Qed.

Lemma keeps_if {A} (b : bool) (m1 m2 : M Err E W A) : keeps m1 -> keeps m2 -> keeps (if b then m1 else m2).
Proof. by destruct b. Qed.
End Keeps.

(** The structure of a computation. *)
Ltac keeps_step :=
  lazymatch goal with
  | |- keeps _ _ (bind _ _) => apply keeps_bind; [|intros ?]
  | |- keeps _ _ (ret _) => apply keeps_ret
  | |- keeps _ _ (throw _) => apply keeps_throw
  | |- keeps _ _ diverge => apply keeps_diverge
  | |- keeps _ _ (ask _) => apply keeps_ask
  | |- keeps _ _ (emit _) => apply keeps_emit
  | |- keeps _ _ (modify _) => apply keeps_modify
  | |- keeps _ _ (lift _) => apply keeps_lift
  | |- keeps _ _ (tried _) => apply keeps_tried
  | |- keeps _ _ (catch _ _) => apply keeps_catch; [|intros ?]
  | |- keeps _ _ (match ?x with _ => _ end) => destruct x eqn:?
  end.

Create HintDb eff.
#[export] Hint Resolve wp_ret wp_throw wp_emit wp_ask wp_modify : eff.

(** One step of symbolic execution under [wp]. *)
Ltac wp_step :=
  lazymatch goal with
  | |- wp (bind _ _) _ _ => apply wp_bind
  | |- wp (ret _) _ _ => apply wp_ret
  | |- wp (throw _) _ _ => apply wp_throw
  | |- wp (emit _) _ _ => apply wp_emit
  | |- wp (ask _) _ _ => apply wp_ask
  | |- wp (modify _) _ _ => apply wp_modify
  | |- wp (catch _ _) _ _ => apply wp_catch
  | |- wp (tried _) _ _ => apply wp_tried
  | |- wp (lift _) _ _ => let Hx := fresh "Hext" in apply wp_lift; intros ? ? Hx
  end; cbn [wp_cont app].
Ltac wp_steps := repeat wp_step.

(** Case analysis on the scrutinee of the first match of the goal. *)
Ltac case_goal :=
  match goal with
  | |- context [match ?x with _ => _ end] => let H := fresh "Hc" in destruct x eqn:H
  end.

(** ** Lists and options *)

(** The first element satisfying a test, as [Array.prototype.find]. *)
Fixpoint find_first {A} (p : A -> bool) (l : list A) : option A :=
  match l with
  | [] => None
  | x :: l' => if p x then Some x else find_first p l'
  end.

(** The index of the first such element, as [findIndex] ([None] is -1). *)
Fixpoint find_index {A} (p : A -> bool) (l : list A) : option nat :=
  match l with
  | [] => None
  | x :: l' => if p x then Some O else S <$> find_index p l'
  end.

(** [??] on an optional value. *)
Definition coalesce {A} (o : option A) (d : A) : A := default d o.
(** [??] between two optional values. *)
Definition orelse {A} (o1 o2 : option A) : option A :=
  match o1 with Some _ => o1 | None => o2 end.

Definition is_some {A} (o : option A) : bool := match o with Some _ => true | None => false end.
Definition count {A} (p : A -> bool) (l : list A) : nat := length (List.filter p l).

Lemma find_first_Some {A} (p : A -> bool) l x :
  find_first p l = Some x -> x ∈ l /\ p x = true.
Proof.
  induction l as [|y l IH]; simpl; [done|].
  destruct (p y) eqn:Hy; intros H.
  - injection H as <-. split; [constructor | done].
  - destruct (IH H). split; [by constructor | done].
Qed.

Lemma find_first_None {A} (p : A -> bool) l :
  find_first p l = None <-> Forall (fun x => p x = false) l.
Proof.
  induction l as [|y l IH]; simpl; [by split|].
  destruct (p y) eqn:Hy.
  - split; [done|]. intros H. inversion H; congruence.
  - rewrite IH. split; intros H; [by constructor | by inversion H].
Qed.

Lemma find_index_Some {A} (p : A -> bool) l i :
  find_index p l = Some i ->
  exists x, l !! i = Some x /\ p x = true /\ Forall (fun y => p y = false) (take i l).
Proof.
  revert i. induction l as [|y l IH]; simpl; [done|]. intros i.
  destruct (p y) eqn:Hy; intros H.
  - injection H as <-. exists y. split_and!; by auto.
  - destruct (find_index p l) as [j|]; simplify_eq/=.
    destruct (IH j eq_refl) as (x & ? & ? & ?). exists x. split_and!; try done. by constructor.
Qed.

Lemma find_index_None {A} (p : A -> bool) l :
  find_index p l = None <-> Forall (fun x => p x = false) l.
Proof.
  induction l as [|y l IH]; simpl; [by split|].
  destruct (p y) eqn:Hy.
  - split; [done|]. intros H. inversion H; congruence.
  - rewrite fmap_None, IH. split; intros H; [by constructor | by inversion H].
Qed.

Lemma count_app {A} (p : A -> bool) l1 l2 : count p (l1 ++ l2) = (count p l1 + count p l2)%nat.
Proof. unfold count. by rewrite List.filter_app, length_app. Qed.

Lemma count_nil {A} (p : A -> bool) : count p [] = O.
Proof. done. Qed.

Lemma count_cons {A} (p : A -> bool) x l :
  count p (x :: l) = ((if p x then 1 else 0) + count p l)%nat.
Proof. unfold count; simpl. by destruct (p x). Qed.

Lemma count_zero {A} (p : A -> bool) l : Forall (fun x => p x = false) l -> count p l = O.
Proof. induction 1 as [|x l Hx _ IH]; [done|]. by rewrite count_cons, Hx, IH. Qed.

Create Rewrite HintDb count.
#[export] Hint Rewrite @count_app @count_nil @count_cons : count.
