(* ===== verification/Js.v ===== *)
(** * The part of JavaScript the program relies on

    Values, numbers, strings and [JSON.stringify].  Strings are UTF-8 byte
    sequences: lengths and slices count bytes, so they agree with JavaScript's
    code units on ASCII text, and [trim] knows the ASCII white space.  Numbers are exact decimals [m * 10^e], NaN and the
    infinities: the rounding of doubles is not modelled, so a statement about a
    number is about values that doubles represent exactly.  Negative zero is
    zero.  Object values are trees: they carry no sharing and no cycles. *)

From Stdlib Require Import Ascii String.
From stdpp Require Import pretty.
From S2P Require Export Prelude.

#[local] Open Scope string_scope.
#[local] Open Scope list_scope.
#[local] Open Scope Z_scope.

(** ** Strings *)

Notation chars s := (list_ascii_of_string s).
Notation of_chars l := (string_of_list_ascii l).

Lemma chars_inj s1 s2 : chars s1 = chars s2 -> s1 = s2.
Proof.
  intros H. rewrite <- (String.string_of_list_ascii_of_string s1), H.
  apply String.string_of_list_ascii_of_string.
Qed.
Lemma chars_app s1 s2 : chars (s1 +:+ s2) = chars s1 ++ chars s2.
Proof. induction s1 as [|c s1 IH]; simpl; [done|]. by rewrite IH. Qed.

Definition dq_char : ascii := "034"%char.
(** The string of one double quote. *)
Definition dq : string := String dq_char EmptyString.
(** [`"${s}"`] *)
Definition in_quotes (s : string) : string := dq +:+ s +:+ dq.

Definition nl : string := String "010"%char EmptyString.

Definition str_length (s : string) : Z := Z.of_nat (String.length s).

Lemma str_length_chars s : str_length s = Z.of_nat (length (chars s)).
Proof. unfold str_length. f_equal. induction s as [|c s IH]; simpl; congruence. Qed.

Lemma chars_of_chars l : chars (of_chars l) = l.
Proof. apply list_ascii_of_string_of_list_ascii. Qed.

Lemma length_of_chars l : str_length (of_chars l) = Z.of_nat (length l).
Proof. by rewrite str_length_chars, chars_of_chars. Qed.

Lemma str_length_app a b : str_length (a +:+ b) = str_length a + str_length b.
Proof. rewrite !str_length_chars, chars_app, length_app. lia. Qed.

Definition str_is_empty (s : string) : bool := match s with EmptyString => true | _ => false end.
(** Truthiness of a string. *)
Definition truthy (s : string) : bool := negb (str_is_empty s).
(** Truthiness of an optional string. *)
Definition truthy_opt (o : option string) : bool :=
  match o with Some s => truthy s | None => false end.

(** [s.slice(0, n)] *)
Definition slice_to (s : string) (n : nat) : string := of_chars (take n (chars s)).
(** [s.slice(a, b)] for [0 <= a]. *)
Definition slice (s : string) (a b : nat) : string := of_chars (take (b - a) (drop a (chars s))).

(** [s.includes(sub)] *)
Definition includes (sub s : string) : bool := match String.index 0 sub s with Some _ => true | None => false end.

Definition join (sep : string) (l : list string) : string := String.concat sep l.
Definition starts_with (p s : string) : bool := String.prefix p s.

(** The ASCII white space of [String.prototype.trim]. *)
Definition is_space (c : ascii) : bool :=
  let n := nat_of_ascii c in
  ((9 <=? n) && (n <=? 13) || (n =? 32))%nat.

Fixpoint drop_while {A} (p : A -> bool) (l : list A) : list A :=
  match l with
  | [] => []
  | x :: l' => if p x then drop_while p l' else l
  end.

Definition trim (s : string) : string :=
  of_chars (rev (drop_while is_space (rev (drop_while is_space (chars s))))).

(** ** Numbers *)

Inductive num : Type :=
| NDec (m e : Z)
| NNaN
| NInf (neg : bool).

(** Decimal mantissas are kept without trailing zeros, integers with exponent 0. *)
Fixpoint strip_zeros (fuel : nat) (m e : Z) : Z * Z :=
  match fuel with
  | O => (m, e)
  | S fuel' =>
      if (e <? 0) && (m mod 10 =? 0) then strip_zeros fuel' (m / 10) (e + 1) else (m, e)
  end.

(** Values of at least 2^1024 overflow to infinity. *)
Definition overflows (m e : Z) : bool :=
  if 0 <=? e then (400 <? e) || (2 ^ 1024 <=? Z.abs m * 10 ^ e)
  else 2 ^ 1024 * 10 ^ (- e) <=? Z.abs m.

Definition mk_num (m e : Z) : num :=
  if m =? 0 then NDec 0 0
  else if overflows m e then NInf (m <? 0)
  else if 0 <=? e then NDec (m * 10 ^ e) 0
  else let '(m', e') := strip_zeros (Z.to_nat (- e)) m e in NDec m' e'.

Definition num_of_Z (z : Z) : num := NDec z 0.

Definition is_finite (n : num) : bool := match n with NDec _ _ => true | _ => false end.

(** [Number.isInteger] on normal forms. *)
Definition is_integer (n : num) : bool := match n with NDec _ e => 0 <=? e | _ => false end.

(** [a <= b]; any comparison with NaN is false. *)
Definition num_le (a b : num) : bool :=
  match a, b with
  | NDec m1 e1, NDec m2 e2 =>
      let e := Z.min e1 e2 in m1 * 10 ^ (e1 - e) <=? m2 * 10 ^ (e2 - e)
  | NNaN, _ | _, NNaN => false
  | NInf true, _ | _, NInf false => true
  | _, _ => false
  end.

#[export] Instance num_eq_dec : EqDecision num.
Proof. solve_decision. Defined.

Definition zeros (n : Z) : string := of_chars (repeat "0"%char (Z.to_nat n)).

(** Decimal digits of a natural number; the empty fuel case is not reached when
    the fuel is the number of digits. *)
Definition digits (m : Z) : string := pretty (Z.to_N m).

(** The significant digits of a positive mantissa and their scale. *)
Fixpoint significand (fuel : nat) (m e : Z) : Z * Z :=
  match fuel with
  | O => (m, e)
  | S fuel' => if m mod 10 =? 0 then significand fuel' (m / 10) (e + 1) else (m, e)
  end.

(** Number::toString for a positive decimal. *)
Definition pos_to_string (m e : Z) : string :=
  let '(s, e') := significand (String.length (digits m)) m e in
  let d := digits s in
  let k := str_length d in
  let n := k + e' in
  if (k <=? n) && (n <=? 21) then d +:+ zeros (n - k)
  else if (0 <? n) && (n <=? 21) then
    slice_to d (Z.to_nat n) +:+ "." +:+ slice d (Z.to_nat n) (String.length d)
  else if (-6 <? n) && (n <=? 0) then "0." +:+ zeros (- n) +:+ d
  else
    let x := n - 1 in
    let ex := (if x <? 0 then "e-" else "e+") +:+ digits (Z.abs x) in
    if k =? 1 then d +:+ ex
    else slice_to d 1 +:+ "." +:+ slice d 1 (String.length d) +:+ ex.

(** [String(n)] *)
Definition num_to_string (n : num) : string :=
  match n with
  | NNaN => "NaN"
  | NInf b => if b then "-Infinity" else "Infinity"
  | NDec m e =>
      if m =? 0 then "0"
      else if m <? 0 then "-" +:+ pos_to_string (- m) e
      else pos_to_string m e
  end.

(** [n.toFixed(f)]: the nearest multiple of [10^-f], halves away from zero. *)
Definition to_fixed (f : Z) (n : num) : string :=
  match n with
  | NDec m e =>
      let a := Z.abs m in
      let x := if 0 <=? e + f then a * 10 ^ (e + f)
               else (2 * a + 10 ^ (- (e + f))) / (2 * 10 ^ (- (e + f))) in
      let s := digits x in
      let padded := zeros (f + 1 - str_length s) +:+ s in
      let cut := (String.length padded - Z.to_nat f)%nat in
      (if m <? 0 then "-" else EmptyString) +:+
      (if f =? 0 then s else slice_to padded cut +:+ "." +:+ slice padded cut (String.length padded))
  | _ => num_to_string n
  end.

(** [String(z)] for an integer (a safe integer prints as its digits). *)
Definition Z_to_string (z : Z) : string := num_to_string (num_of_Z z).

Definition digit_of (c : ascii) : option Z :=
  let n := Z.of_nat (nat_of_ascii c) in
  if (48 <=? n) && (n <=? 57) then Some (n - 48) else None.

(** A maximal run of decimal digits: value, length, rest. *)
Fixpoint take_digits (l : list ascii) (acc : Z) (k : nat) : Z * nat * list ascii :=
  match l with
  | c :: l' =>
      match digit_of c with
      | Some d => take_digits l' (acc * 10 + d) (S k)
      | None => (acc, k, l)
      end
  | [] => (acc, k, [])
  end.

(** Digits of a hexadecimal, octal or binary literal. *)
Definition radix_digit (r : Z) (c : ascii) : option Z :=
  let n := Z.of_nat (nat_of_ascii c) in
  let v := if (48 <=? n) && (n <=? 57) then n - 48
           else if (97 <=? n) && (n <=? 122) then n - 87
           else if (65 <=? n) && (n <=? 90) then n - 55 else 99 in
  if v <? r then Some v else None.

Fixpoint radix_value (r : Z) (l : list ascii) (acc : Z) : option Z :=
  match l with
  | [] => Some acc
  | c :: l' => d ← radix_digit r c; radix_value r l' (acc * r + d)
  end.

(** The exponent part of a decimal literal, [Some 0] when absent. *)
Definition exponent_part (l : list ascii) : option Z :=
  match l with
  | [] => Some 0
  | c :: l' =>
      if bool_decide (c = "e"%char \/ c = "E"%char) then
        let '(neg, l2) := match l' with
                          | "-"%char :: r => (true, r)
                          | "+"%char :: r => (false, r)
                          | _ => (false, l')
                          end in
        match take_digits l2 0 0 with
        | (v, S _, []) => Some (if neg : bool then - v else v)
        | _ => None
        end
      else None
  end.

(** An unsigned decimal literal or [Infinity]. *)
Definition unsigned_number (l : list ascii) (neg : bool) : num :=
  if bool_decide (of_chars l = "Infinity") then NInf neg
  else
    let '(ip, ki, r1) := take_digits l 0 0 in
    let '(fp, kf, r2) :=
      match r1 with
      | "."%char :: r => take_digits r 0 0
      | _ => (0, O, r1)
      end in
    if (ki + kf =? 0)%nat then NNaN
    else match exponent_part r2 with
         | Some x =>
             let m := ip * 10 ^ Z.of_nat kf + fp in
             mk_num (if neg then - m else m) (x - Z.of_nat kf)
         | None => NNaN
         end.

(** [Number(s)] on a string. *)
Definition str_to_num (s : string) : num :=
  let radix r l := match l with
                   | [] => NNaN
                   | _ => match radix_value r l 0 with Some v => mk_num v 0 | None => NNaN end
                   end in
  match chars (trim s) with
  | [] => NDec 0 0
  | "0"%char :: ("x"%char | "X"%char) :: l => radix 16 l
  | "0"%char :: ("o"%char | "O"%char) :: l => radix 8 l
  | "0"%char :: ("b"%char | "B"%char) :: l => radix 2 l
  | "-"%char :: l => unsigned_number l true
  | "+"%char :: l => unsigned_number l false
  | l => unsigned_number l false
  end.

(** ** Values *)

(** A JavaScript value.  Objects keep their own enumerable string keys in
    insertion order.  [VDate None] is an invalid date, [VFun] a function or a
    symbol. *)
Inductive value : Type :=
| VUndef
| VNull
| VBool (b : bool)
| VNum (n : num)
| VStr (s : string)
| VArr (items : list value)
| VObj (fields : list (string * value))
| VDate (time : option Z)
| VMap (entries : list (value * value))
| VSet (members : list value)
| VFun.

(** Induction through the items of arrays and the fields of objects. *)
Fixpoint value_nested_ind (P : value -> Prop)
    (Harr : forall l, Forall P l -> P (VArr l)) (Hobj : forall fs, Forall (fun f => P f.2) fs -> P (VObj fs))
    (Hrest : forall v, (forall l, v <> VArr l) -> (forall fs, v <> VObj fs) -> P v) (v : value) : P v :=
  let rec := value_nested_ind P Harr Hobj Hrest in
  match v return P v with
  | VArr l => Harr l ((fix go l : Forall P l :=
                         match l return Forall P l with
                         | [] => Forall_nil_2 P
                         | x :: l' => Forall_cons_2 P x l' (rec x) (go l')
                         end) l)
  | VObj fs => Hobj fs ((fix go fs : Forall (fun f => P f.2) fs :=
                           match fs return Forall (fun f => P f.2) fs with
                           | [] => Forall_nil_2 _
                           | f :: fs' => Forall_cons_2 (fun f => P f.2) f fs'
                                           (match f return P f.2 with (k, x) => rec x end) (go fs')
                           end) fs)
  | VUndef => Hrest VUndef ltac:(done) ltac:(done)
  | VNull => Hrest VNull ltac:(done) ltac:(done)
  | VBool b => Hrest (VBool b) ltac:(done) ltac:(done)
  | VNum n => Hrest (VNum n) ltac:(done) ltac:(done)
  | VStr s => Hrest (VStr s) ltac:(done) ltac:(done)
  | VDate t => Hrest (VDate t) ltac:(done) ltac:(done)
  | VMap es => Hrest (VMap es) ltac:(done) ltac:(done)
  | VSet ms => Hrest (VSet ms) ltac:(done) ltac:(done)
  | VFun => Hrest VFun ltac:(done) ltac:(done)
  end.

Notation obj := (list (string * value)).

(** Own property lookup ([undefined] when absent is [None]). *)
Fixpoint obj_get (o : obj) (k : string) : option value :=
  match o with
  | [] => None
  | (k', v) :: o' => if bool_decide (k' = k) then Some v else obj_get o' k
  end.

(** [o[k] = v]: an existing key keeps its position. *)
Fixpoint obj_set (o : obj) (k : string) (v : value) : obj :=
  match o with
  | [] => [(k, v)]
  | (k', v') :: o' => if bool_decide (k' = k) then (k, v) :: o' else (k', v') :: obj_set o' k v
  end.

Definition obj_keys (o : obj) : list string := map fst o.

(** [typeof v] *)
Definition typeof (v : value) : string :=
  match v with
  | VUndef => "undefined"
  | VBool _ => "boolean"
  | VNum _ => "number"
  | VStr _ => "string"
  | VFun => "function"
  | _ => "object"
  end.

(** ** [JSON.stringify] *)

Definition hex_digit (n : nat) : ascii :=
  nth n (chars "0123456789abcdef") "0"%char.

Definition escape_char (c : ascii) : list ascii :=
  let n := nat_of_ascii c in
  if (n =? 34)%nat then chars "\" ++ [c]
  else if (n =? 92)%nat then chars "\\"
  else if (n =? 8)%nat then chars "\b"
  else if (n =? 12)%nat then chars "\f"
  else if (n =? 10)%nat then chars "\n"
  else if (n =? 13)%nat then chars "\r"
  else if (n =? 9)%nat then chars "\t"
  else if (n <? 32)%nat then chars "\u00" ++ [hex_digit (n / 16); hex_digit (n mod 16)]
  else [c].

(** [JSON.stringify] of a string. *)
Definition json_quote (s : string) : string :=
  of_chars (dq_char :: concat (map escape_char (chars s)) ++ [dq_char]).

Fixpoint filter_map {A B} (f : A -> option B) (l : list A) : list B :=
  match l with
  | [] => []
  | x :: l' => match f x with Some y => y :: filter_map f l' | None => filter_map f l' end
  end.

Lemma filter_map_app {A B} (f : A -> option B) (l1 l2 : list A) :
  filter_map f (l1 ++ l2) = filter_map f l1 ++ filter_map f l2.
Proof. induction l1 as [|x l1 IH]; simpl; [done|]. destruct (f x); simpl; by rewrite IH. Qed.

Lemma elem_of_filter_map {A B} (f : A -> option B) l y : y ∈ filter_map f l <-> exists x, x ∈ l /\ f x = Some y.
Proof.
  induction l as [|x l IH]; simpl.
  - split; [intros H; by apply elem_of_nil in H|intros (x & H & _); by apply elem_of_nil in H].
  - destruct (f x) as [z|] eqn:Hx; rewrite ?elem_of_cons, IH; split.
    + intros [->|(x' & H & Hf)]; [exists x|exists x']; (split; [|done]); [by left|by right].
    + intros (x' & [->|H]%elem_of_cons & Hf); [left; congruence|right; eauto].
    + intros (x' & H & Hf). exists x'. split; [by right|done].
    + intros (x' & [->|H]%elem_of_cons & Hf); [congruence|eauto].
Qed.

(** *** Dates *)

Definition pad (width : nat) (n : Z) : string :=
  let d := digits n in zeros (Z.of_nat width - str_length d) +:+ d.

(** The proleptic Gregorian date of a day number (day 0 is 1970-01-01). *)
Definition civil_of_days (z0 : Z) : Z * Z * Z :=
  let z := z0 + 719468 in
  let era := z / 146097 in
  let doe := z mod 146097 in
  let yoe := (doe - doe / 1460 + doe / 36524 - doe / 146096) / 365 in
  let doy := doe - (365 * yoe + yoe / 4 - yoe / 100) in
  let mp := (5 * doy + 2) / 153 in
  let d := doy - (153 * mp + 2) / 5 + 1 in
  let m := if mp <? 10 then mp + 3 else mp - 9 in
  let y := yoe + era * 400 + (if m <=? 2 then 1 else 0) in
  (y, m, d).

(** [Date.prototype.toISOString] of a time in milliseconds. *)
Definition iso_string (t : Z) : string :=
  let '(y, m, d) := civil_of_days (t / 86400000) in
  let ms := t mod 86400000 in
  let ys := if (0 <=? y) && (y <=? 9999) then pad 4 y
            else (if y <? 0 then "-" else "+") +:+ pad 6 (Z.abs y) in
  ys +:+ "-" +:+ pad 2 m +:+ "-" +:+ pad 2 d +:+ "T" +:+
  pad 2 (ms / 3600000) +:+ ":" +:+ pad 2 (ms / 60000 mod 60) +:+ ":" +:+
  pad 2 (ms / 1000 mod 60) +:+ "." +:+ pad 3 (ms mod 1000) +:+ "Z".

(** [JSON.stringify v]; [None] is [undefined]. *)
Fixpoint stringify (v : value) : option string :=
  match v with
  | VUndef | VFun => None
  | VNull => Some "null"
  | VBool b => Some (if b then "true" else "false")
  | VNum n => Some (if is_finite n then num_to_string n else "null")
  | VStr s => Some (json_quote s)
  | VDate (Some t) => Some (json_quote (iso_string t))
  | VDate None => Some "null"
  | VArr l => Some ("[" +:+ join "," (map (fun x => default "null" (stringify x)) l) +:+ "]")
  | VObj fs =>
      Some ("{" +:+
            join "," (filter_map (fun f => match f with
                                           | (k, x) => match stringify x with
                                                       | Some s => Some (json_quote k +:+ ":" +:+ s)
                                                       | None => None
                                                       end
                                           end) fs) +:+ "}")
  | VMap _ | VSet _ => Some "{}"
  end.

(** [JSON.stringify] of a value known to be serializable. *)
Definition json (v : value) : string := default "undefined" (stringify v).

(** [VStr] when present, for optional string fields. *)
Definition opt_str (o : option string) : value := match o with Some s => VStr s | None => VUndef end.

(** ** Objects *)

Lemma obj_get_set o k v k' :
  obj_get (obj_set o k v) k' = if bool_decide (k = k') then Some v else obj_get o k'.
Proof.
  induction o as [|[k1 v1] o IH]; simpl; [done|].
  repeat (case_bool_decide; simpl; simplify_eq/=; try done).
Qed.
