(* ===== verification/Json.v ===== *)
(** * [JSON.parse]

    A recursive-descent parser of the JSON grammar over byte strings.  The fuel
    is the length of the text: every recursive call consumes at least one
    character, so it is never what makes a text fail. Below it, decimal numerals. *)

From Stdlib Require Import Ascii.
From S2P Require Export Js.
From stdpp Require Import pretty.

#[local] Open Scope string_scope.
#[local] Open Scope list_scope.
#[local] Open Scope Z_scope.

Definition is_json_space (c : ascii) : bool :=
  let n := nat_of_ascii c in ((n =? 32) || (n =? 9) || (n =? 10) || (n =? 13))%nat.

Definition skip_space (l : list ascii) : list ascii := drop_while is_json_space l.

Definition ascii_of_Z (z : Z) : ascii := ascii_of_nat (Z.to_nat z).

(** The UTF-8 bytes of a code unit. *)
Definition utf8 (u : Z) : list ascii :=
  if u <? 128 then [ascii_of_Z u]
  else if u <? 2048 then [ascii_of_Z (192 + u / 64); ascii_of_Z (128 + u mod 64)]
  else [ascii_of_Z (224 + u / 4096); ascii_of_Z (128 + u / 64 mod 64); ascii_of_Z (128 + u mod 64)].

(** The rest of a string literal after its opening quote: content and remaining
    text. *)
Fixpoint parse_chars (l acc : list ascii) : option (list ascii * list ascii) :=
  match l with
  | [] => None
  | c :: l' =>
      if bool_decide (c = dq_char) then Some (rev acc, l')
      else if bool_decide (c = "\"%char) then
        match l' with
        | "b"%char :: r => parse_chars r ("008"%char :: acc)
        | "f"%char :: r => parse_chars r ("012"%char :: acc)
        | "n"%char :: r => parse_chars r ("010"%char :: acc)
        | "r"%char :: r => parse_chars r ("013"%char :: acc)
        | "t"%char :: r => parse_chars r ("009"%char :: acc)
        | "u"%char :: a :: b :: c' :: d :: r =>
            match radix_digit 16 a, radix_digit 16 b, radix_digit 16 c', radix_digit 16 d with
            | Some a', Some b', Some c'', Some d' =>
                parse_chars r (rev (utf8 (a' * 4096 + b' * 256 + c'' * 16 + d')) ++ acc)
            | _, _, _, _ => None
            end
        | e :: r =>
            if bool_decide (e = dq_char \/ e = "\"%char \/ e = "/"%char)
            then parse_chars r (e :: acc) else None
        | [] => None
        end
      else if (nat_of_ascii c <? 32)%nat then None
      else parse_chars l' (c :: acc)
  end.

(** A JSON number: no leading zeros, digits on both sides of the point. *)
Definition parse_number (l : list ascii) : option (num * list ascii) :=
  let '(neg, l1) := match l with "-"%char :: r => (true, r) | _ => (false, l) end in
  let '(ip, ki, r1) := take_digits l1 0 0 in
  let leading_zero := match l1 with "0"%char :: _ => (1 <? ki)%nat | _ => false end in
  if (ki =? 0)%nat || leading_zero then None
  else
    let frac := match r1 with
                | "."%char :: r =>
                    match take_digits r 0 0 with
                    | (_, O, _) => None
                    | (fp, kf, r2) => Some (fp, kf, r2)
                    end
                | _ => Some (0, O, r1)
                end in
    match frac with
    | None => None
    | Some (fp, kf, r2) =>
        let expo := match r2 with
                    | ("e"%char | "E"%char) :: r =>
                        let '(eneg, r') := match r with
                                           | "-"%char :: q => (true, q)
                                           | "+"%char :: q => (false, q)
                                           | _ => (false, r)
                                           end in
                        match take_digits r' 0 0 with
                        | (_, O, _) => None
                        | (v, _, r3) => Some (if eneg : bool then - v else v, r3)
                        end
                    | _ => Some (0, r2)
                    end in
        match expo with
        | None => None
        | Some (x, r3) =>
            let m := ip * 10 ^ Z.of_nat kf + fp in
            Some (mk_num (if neg : bool then - m else m) (x - Z.of_nat kf), r3)
        end
    end.

Fixpoint strip_prefix (p l : list ascii) : option (list ascii) :=
  match p, l with
  | [], _ => Some l
  | x :: p', y :: l' => if bool_decide (x = y) then strip_prefix p' l' else None
  | _, [] => None
  end.

Definition parse_literal (word : string) (v : value) (l : list ascii) : option (value * list ascii) :=
  r ← strip_prefix (chars word) l; Some (v, r).

(** A value, the rest of an array after its first item position, the rest of an
    object after its first member position.  [parse_chars] of a duplicate key
    keeps the last member. *)
Fixpoint parse_value (fuel : nat) (l0 : list ascii) {struct fuel} : option (value * list ascii) :=
  match fuel with
  | O => None
  | S fuel' =>
      let l := skip_space l0 in
      match l with
      | "["%char :: r =>
          match skip_space r with
          | "]"%char :: r' => Some (VArr [], r')
          | _ => parse_items fuel' r []
          end
      | "{"%char :: r =>
          match skip_space r with
          | "}"%char :: r' => Some (VObj [], r')
          | _ => parse_members fuel' r []
          end
      | "t"%char :: _ => parse_literal "true" (VBool true) l
      | "f"%char :: _ => parse_literal "false" (VBool false) l
      | "n"%char :: _ => parse_literal "null" VNull l
      | c :: r =>
          if bool_decide (c = dq_char) then
            '(s, r') ← parse_chars r []; Some (VStr (of_chars s), r')
          else '(n, r') ← parse_number l; Some (VNum n, r')
      | [] => None
      end
  end
with parse_items (fuel : nat) (l : list ascii) (acc : list value) {struct fuel}
    : option (value * list ascii) :=
  match fuel with
  | O => None
  | S fuel' =>
      match parse_value fuel' l with
      | None => None
      | Some (v, r) =>
          match skip_space r with
          | ","%char :: r' => parse_items fuel' r' (acc ++ [v])
          | "]"%char :: r' => Some (VArr (acc ++ [v]), r')
          | _ => None
          end
      end
  end
with parse_members (fuel : nat) (l : list ascii) (acc : obj) {struct fuel}
    : option (value * list ascii) :=
  match fuel with
  | O => None
  | S fuel' =>
      match skip_space l with
      | c :: r =>
          if bool_decide (c = dq_char) then
            match parse_chars r [] with
            | None => None
            | Some (k, r1) =>
                match skip_space r1 with
                | ":"%char :: r2 =>
                    match parse_value fuel' r2 with
                    | None => None
                    | Some (v, r3) =>
                        match skip_space r3 with
                        | ","%char :: r4 => parse_members fuel' r4 (obj_set acc (of_chars k) v)
                        | "}"%char :: r4 => Some (VObj (obj_set acc (of_chars k) v), r4)
                        | _ => None
                        end
                    end
                | _ => None
                end
            end
          else None
      | [] => None
      end
  end.

(** [JSON.parse text]; [None] is a [SyntaxError]. *)
Definition json_parse (text : string) : option value :=
  let l := chars text in
  match parse_value (S (S (length l))) l with
  | Some (v, r) => match skip_space r with [] => Some v | _ => None end
  | None => None
  end.

(** * Decimal numerals

    The digits a number prints as: their characters, their length, and when the
    text of a number can be cut off from what follows it. *)

#[local] Open Scope string_scope.
#[local] Open Scope list_scope.
#[local] Open Scope Z_scope.

Module Numerals.

(** ** The text of a counting number *)

Lemma append_assoc (a b c : string) : (a +:+ b) +:+ c = a +:+ (b +:+ c).
Proof. apply chars_inj. by rewrite !chars_app, app_assoc. Qed.

Lemma append_nil_r (a : string) : a +:+ "" = a.
Proof. apply chars_inj. by rewrite chars_app, app_nil_r. Qed.

Lemma length_chars (s : string) : String.length s = length (chars s).
Proof. induction s as [|c s IH]; simpl; [done|]. by rewrite IH. Qed.

Lemma length_append (a b : string) : String.length (a +:+ b) = (String.length a + String.length b)%nat.
Proof. by rewrite !length_chars, chars_app, length_app. Qed.

Lemma go_app x s : pretty_N_go x s = pretty_N_go x "" +:+ s.
Proof.
  revert s. induction (N.lt_wf_0 x) as [x _ IH]; intros s.
  destruct (decide (x = 0)%N) as [->|Hx]; [by rewrite !pretty_N_go_0|].
  rewrite !(pretty_N_go_step x) by lia. pose proof (IH (x `div` 10)%N ltac:(apply N.div_lt; lia)) as Hd.
  rewrite (Hd (String _ s)), (Hd (String _ "")). by rewrite append_assoc.
Qed.

Lemma digits_positive z : 0 < z -> digits z = pretty_N_go (Z.to_N z) "".
Proof. intros Hz. unfold digits, pretty, pretty_N. destruct (decide _); [lia|done]. Qed.

Lemma digits_times_ten z : 0 < z -> digits (z * 10) = digits z +:+ "0".
Proof.
  intros Hz. rewrite !digits_positive by lia. rewrite (pretty_N_go_step (Z.to_N (z * 10))) by lia.
  replace (Z.to_N (z * 10)) with (Z.to_N z * 10)%N by lia.
  rewrite N.Div0.mod_mul, N.div_mul by done. apply go_app.
Qed.

Lemma digits_scaled z k : 0 < z -> 0 <= k -> digits (z * 10 ^ k) = digits z +:+ zeros k.
Proof.
  intros Hz Hk. revert k Hk. apply natlike_ind; [by rewrite Z.mul_1_r, append_nil_r|].
  intros k Hk IH. rewrite Z.pow_succ_r, (Z.mul_comm 10), Z.mul_assoc, digits_times_ten by nia.
  rewrite IH, append_assoc. f_equal. unfold zeros. rewrite Z2Nat.inj_succ by done. simpl.
  generalize (Z.to_nat k) as n. intros n. induction n as [|n IHn]; [done|].
  exact (f_equal (String "0"%char) IHn).
Qed.

Lemma significand_spec fuel m e :
  0 < m -> let '(s, e') := significand fuel m e in 0 < s /\ e <= e' /\ s * 10 ^ (e' - e) = m.
Proof.
  revert m e. induction fuel as [|fuel IH]; intros m e Hm; simpl; [rewrite Z.sub_diag; lia|].
  destruct (Z.eqb_spec (m mod 10) 0) as [Hd|Hd]; [|rewrite Z.sub_diag; lia].
  pose proof (Z.div_mod m 10 ltac:(lia)) as Hq. specialize (IH (m / 10) (e + 1) ltac:(lia)).
  destruct (significand fuel (m / 10) (e + 1)) as [s e']. destruct IH as (Hs & He & Hv). split_and!; [done|lia|].
  replace (e' - e) with (Z.succ (e' - (e + 1))) by lia. rewrite Z.pow_succ_r by lia. nia.
Qed.

Lemma go_length x k : (x < 10 ^ N.of_nat k)%N -> (String.length (pretty_N_go x "") <= k)%nat.
Proof.
  revert x. induction k as [|k IH]; intros x Hx; destruct (decide (x = 0)%N) as [->|Hn]; try (simpl; lia).
  rewrite pretty_N_go_step, go_app, length_append by lia. simpl.
  assert (x `div` 10 < 10 ^ N.of_nat k)%N as Hq.
  { apply N.Div0.div_lt_upper_bound. by rewrite Nat2N.inj_succ, N.pow_succ_r' in Hx. }
  specialize (IH _ Hq). lia.
Qed.

(** The numbers a scope key or an iteration is counted with. *)
Definition counting (n : num) : Prop := exists z, n = num_of_Z z /\ 0 < z < 10 ^ 21.

Lemma counting_text z : 0 < z < 10 ^ 21 -> num_to_string (num_of_Z z) = digits z.
Proof.
  intros Hz. unfold num_to_string, num_of_Z.
  destruct (Z.eqb_spec z 0), (Z.ltb_spec z 0); try lia. unfold pos_to_string.
  pose proof (significand_spec (String.length (digits z)) z 0 ltac:(lia)) as Hs.
  destruct (significand _ z 0) as [s e]. destruct Hs as (Hs & He & Hv). rewrite Z.sub_0_r in Hv.
  assert (digits z = digits s +:+ zeros e) as Ht by (rewrite <- Hv; by apply digits_scaled).
  assert (str_length (digits s) + e <= 21) as Hl.
  { replace (str_length (digits s) + e) with (str_length (digits z)).
    - unfold str_length. rewrite digits_positive by lia.
      pose proof (go_length (Z.to_N z) 21 ltac:(lia)). lia.
    - rewrite Ht. unfold str_length. rewrite length_append. unfold zeros.
      rewrite (length_chars (of_chars _)), String.list_ascii_of_string_of_list_ascii, List.repeat_length. lia. }
  destruct (Z.leb_spec (str_length (digits s)) (str_length (digits s) + e)); [|lia].
  destruct (Z.leb_spec (str_length (digits s) + e) 21); [|lia]. simpl.
  replace (str_length (digits s) + e - str_length (digits s)) with e by lia. done.
Qed.

Definition is_digit (c : ascii) : bool := match digit_of c with Some _ => true | None => false end.

Lemma digit_char x : is_digit (pretty_N_char x) = true.
Proof. unfold pretty_N_char. by repeat case_match. Qed.

Lemma go_digits x : Forall (fun c => is_digit c = true) (chars (pretty_N_go x "")).
Proof.
  induction (N.lt_wf_0 x) as [x _ IH]. destruct (decide (x = 0)%N) as [->|Hx]; [constructor|].
  rewrite pretty_N_go_step, go_app, chars_app by lia. apply Forall_app.
  split; [apply IH; apply N.div_lt; lia|]. constructor; [apply digit_char|constructor].
Qed.

Lemma digits_cancel l1 l2 r1 r2 :
  Forall (fun c => is_digit c = true) l1 -> Forall (fun c => is_digit c = true) l2 ->
  (forall c r, r1 = c :: r -> is_digit c = false) -> (forall c r, r2 = c :: r -> is_digit c = false) ->
  l1 ++ r1 = l2 ++ r2 -> l1 = l2 /\ r1 = r2.
Proof.
  intros H1. revert l2. induction H1 as [|c l1 Hc H1 IH]; intros l2 H2 Hr1 Hr2 He; destruct H2 as [|d l2 Hd H2].
  - done.
  - simpl in He. by rewrite (Hr1 d (l2 ++ r2)) in Hd.
  - simpl in He. by rewrite (Hr2 c (l1 ++ r1)) in Hc.
  - simpl in He. injection He as -> He. by destruct (IH l2 H2 Hr1 Hr2 He) as [-> ->].
Qed.

End Numerals.
