(* ===== verification/Heap.v ===== *)
(** * Object graphs: shared and cyclic data

    The output rails and the canary trap walk objects by identity, so they are
    modelled on a heap: values refer to objects, which may be shared and form cycles.
    An object that is not a plain record, an array, a map or a set is an instance,
    with its fields, its other own data properties and the [toJSON] it inherits;
    [ODate] stands for dates and regular expressions.  Accessor properties are not
    represented. *)

From S2P Require Export Js.

#[local] Open Scope string_scope.
#[local] Open Scope list_scope.

Module Heap.

Inductive jv : Type :=
| JUndef
| JNull
| JBool (b : bool)
| JNum (n : num)
| JStr (s : string)
| JFun (f : positive)
| JRef (l : positive).
#[global] Instance jv_eq_dec : EqDecision jv.
Proof. solve_decision. Defined.

Inductive hobj : Type :=
| OArr (items : list jv)
| OMap (entries : list (jv * jv))
| OSet (members : list jv)
| ODate
| ORec (fields : list (string * jv)) (hidden : list jv)
| OInst (inherited : option positive) (fields : list (string * jv)) (hidden : list jv).

Notation heap := (gmap positive hobj).

Fixpoint get_field (fs : list (string * jv)) (k : string) : option jv :=
  match fs with
  | [] => None
  | (k', v) :: fs' => if bool_decide (k' = k) then Some v else get_field fs' k
  end.

(** [o.toJSON] when it is a function. *)
Definition to_json (o : hobj) : option positive :=
  match o with
  | ORec fs _ => match get_field fs "toJSON" with Some (JFun f) => Some f | _ => None end
  | OInst m fs _ => match get_field fs "toJSON" with Some (JFun f) => Some f | Some _ => None | None => m end
  | _ => None
  end.

Definition entry_values (es : list (jv * jv)) : list jv := es ≫= (fun e => [e.1; e.2]).

Section Graph.
(** What the functions of the host return as [toJSON] ([None]: undefined, or they
    throw), the same object at each call. *)
Context (calls : positive -> option jv).

(** What the object serializes to, unless that is the object itself. *)
Definition serialized (l : positive) (o : hobj) : list jv :=
  match to_json o ≫= calls with
  | Some v => if bool_decide (v = JRef l) then [] else [v]
  | None => []
  end.

(** What readers of an object, [JSON.stringify] among them, reach in one step. *)
Definition shown (l : positive) (o : hobj) : list jv :=
  match o with
  | OArr items => items
  | OMap es => entry_values es
  | OSet ms => ms
  | ODate => []
  | ORec fs _ | OInst _ fs _ => serialized l o ++ fs.*2
  end.

Definition children (h : heap) (l : positive) : list jv :=
  match h !! l with Some o => shown l o | None => [] end.
End Graph.

(** ** Reachability along a relation between objects and values *)

Inductive reach (E : positive -> list jv) : jv -> jv -> Prop :=
| reach_refl v : reach E v v
| reach_step l u w : u ∈ E l -> reach E u w -> reach E (JRef l) w.

Lemma reach_mono (E E' : positive -> list jv) v w :
  (forall l u, u ∈ E l -> u ∈ E' l) -> reach E v w -> reach E' v w.
Proof. intros Hsub. induction 1; [constructor|econstructor; eauto]. Qed.

(** A set of values closed under the edges holds all they reach. *)
Lemma reach_closed (E : positive -> list jv) (P : jv -> Prop) v w :
  (forall l u, P (JRef l) -> u ∈ E l -> P u) -> reach E v w -> P v -> P w.
Proof. intros Hstep. induction 1; eauto. Qed.

(** ** Depth-first search

    The search shared by the inspections of the policies: strings are tested,
    objects are entered once, down to a number of levels; below it nothing is
    looked at.  The state is the objects seen and whether that limit was met. *)

Notation seen_state := (gset positive * bool)%type.

Section Any.
Context (f : jv -> seen_state -> bool * seen_state).
(** [values.some(f)] *)
Fixpoint any_of (vs : list jv) (st : seen_state) : bool * seen_state :=
  match vs with
  | [] => (false, st)
  | v :: rest => let '(found, st') := f v st in if found then (true, st') else any_of rest st'
  end.
End Any.

Section Search.
Context (E : positive -> list jv) (test : string -> bool).

Fixpoint search (left : nat) (v : jv) (st : seen_state) : bool * seen_state :=
  match left with
  | O => (false, (st.1, true))
  | S left' =>
      match v with
      | JStr s => (test s, st)
      | JRef l => if decide (l ∈ st.1) then (false, st)
                  else any_of (search left') (E l) ({[ l ]} ∪ st.1, st.2)
      | _ => (false, st)
      end
  end.

(** *** What is found is there *)

Lemma search_found left v st : (search left v st).1 = true -> exists s, reach E v (JStr s) /\ test s = true.
Proof.
  revert v st. induction left as [|left IH]; intros v st; [done|]. simpl.
  destruct v as [| | | |s| |l]; try done; [intros Ht; exists s; by split; [constructor|]|].
  destruct (decide _) as [|_]; [done|]. generalize ({[ l ]} ∪ st.1, st.2).
  assert (forall vs, (forall u, u ∈ vs -> u ∈ E l) -> forall st', (any_of (search left) vs st').1 = true ->
            exists s, reach E (JRef l) (JStr s) /\ test s = true) as Hany; [|by apply Hany].
  induction vs as [|u vs IHvs]; intros Hin st'; [done|]. simpl.
  destruct (search left u st') as [[] st1] eqn:Hu; simpl.
  - intros _. destruct (IH u st') as (s & Hr & Ht); [by rewrite Hu|].
    exists s. split; [|done]. econstructor; [apply Hin; constructor|done].
  - apply IHvs. intros u' Hu'. apply Hin. by constructor.
Qed.

(** *** What is not found is not there, unless the limit was met *)

(** Nothing to report at a value: a string that passes, or an object seen. *)
Definition quiet (seen : gset positive) (v : jv) : Prop :=
  match v with JStr s => test s = false | JRef l => l ∈ seen | _ => True end.

Lemma quiet_mono s1 s2 v : s1 ⊆ s2 -> quiet s1 v -> quiet s2 v.
Proof. intros Hsub. destruct v; simpl; auto. Qed.

(** From one state to a later one: more is seen, a met limit stays met, and if it
    was not met the objects seen since have only quiet values below. *)
Definition explored (st st' : seen_state) : Prop :=
  st.1 ⊆ st'.1 /\ (st.2 = true -> st'.2 = true) /\
  (st'.2 = false -> forall l, l ∈ st'.1 -> l ∉ st.1 -> Forall (quiet st'.1) (E l)).

Lemma explored_refl st : explored st st.
Proof. split_and!; [done|done|]. intros _ l Hin Hout. done. Qed.

Lemma explored_trans st1 st2 st3 : explored st1 st2 -> explored st2 st3 -> explored st1 st3.
Proof.
  intros (H1 & H2 & H3) (H4 & H5 & H6). split_and!; [set_solver|auto|].
  intros Hcut l Hin Hout. destruct (decide (l ∈ st2.1)) as [H|H]; [|by apply H6].
  eapply Forall_impl; [apply H3; [|done|done]|intros v; by apply quiet_mono].
  destruct st2 as [s2 []]; [|done]. rewrite H5 in Hcut by done. done.
Qed.

Lemma search_quiet left v st :
  let '(found, st') := search left v st in
  found = false -> explored st st' /\ (st'.2 = false -> quiet st'.1 v).
Proof.
  revert v st. induction left as [|left IH]; intros v st.
  - simpl. intros _. split; [|done]. split_and!; [done|done|]. intros; done.
  - simpl. destruct v as [| | | |s| |l]; try (intros _; split; [apply explored_refl|done]).
    + intros Ht. split; [apply explored_refl|done].
    + destruct (decide _) as [Hl|Hl]; [intros _; split; [apply explored_refl|done]|].
      set (st0 := ({[ l ]} ∪ st.1, st.2)).
      assert (forall vs st1, let '(found, st') := any_of (search left) vs st1 in
                found = false -> explored st1 st' /\ (st'.2 = false -> Forall (quiet st'.1) vs)) as Hany.
      { induction vs as [|u vs IHvs]; intros st1; simpl; [intros _; split; [apply explored_refl|by constructor]|].
        specialize (IH u st1). destruct (search left u st1) as [[] st2]; [done|].
        destruct (IH eq_refl) as [He Hq]. specialize (IHvs st2).
        destruct (any_of (search left) vs st2) as [found st3]. intros Hf. destruct (IHvs Hf) as [He2 Hq2].
        split; [by eapply explored_trans|]. intros Hcut. constructor; [|by apply Hq2].
        destruct He2 as (Hsub & Hc & _). eapply quiet_mono; [exact Hsub|apply Hq].
        destruct st2 as [s2 []]; [|done]. by rewrite Hc in Hcut. }
      specialize (Hany (E l) st0). destruct (any_of (search left) (E l) st0) as [found st'].
      intros Hf. destruct (Hany Hf) as [(Hsub & Hc & Hnew) Hq]. subst st0. simpl in *.
      split; [|intros _; set_solver]. split_and!; [set_solver|done|].
      intros Hcut k Hin Hout. destruct (decide (k = l)) as [->|Hk]; [by apply Hq|].
      apply Hnew; [done|done|]. set_solver.
Qed.

Lemma search_complete left v :
  let '(found, st') := search left v (∅, false) in
  found = false -> st'.2 = false -> forall s, reach E v (JStr s) -> test s = false.
Proof.
  pose proof (search_quiet left v (∅, false)) as Hs. destruct (search left v (∅, false)) as [found st'].
  intros Hf Hcut s Hr. destruct (Hs Hf) as [(_ & _ & Hnew) Hq].
  change (quiet st'.1 (JStr s)). eapply (reach_closed _ (quiet st'.1)); [|exact Hr|by apply Hq].
  intros l u Hl Hu. specialize (Hnew Hcut l Hl ltac:(set_solver)).
  by apply (proj1 (Forall_forall _ _) Hnew).
Qed.

(** *** A limit above the number of objects is not met *)

Lemma search_uncut (dom : gset positive) left v st :
  (forall l u, l ∈ dom -> u ∈ E l -> forall k, u = JRef k -> k ∈ dom) ->
  (forall k, v = JRef k -> k ∈ dom) -> st.1 ⊆ dom -> st.2 = false ->
  (size dom < left + size st.1)%nat ->
  let '(found, st') := search left v st in st'.2 = false /\ st.1 ⊆ st'.1 /\ st'.1 ⊆ dom.
Proof.
  intros Hdom. revert v st. induction left as [|left IH]; intros v st Hv Hst Hcut Hsize.
  - pose proof (subseteq_size _ _ Hst). lia.
  - simpl. destruct v as [| | | |s| |l]; try done. destruct (decide _) as [Hl|Hl]; [done|].
    specialize (Hv l eq_refl).
    assert (forall vs st1, (forall u, u ∈ vs -> u ∈ E l) -> st1.1 ⊆ dom -> st1.2 = false ->
      (size dom < left + size st1.1)%nat ->
      let '(found, st') := any_of (search left) vs st1 in
      st'.2 = false /\ st1.1 ⊆ st'.1 /\ st'.1 ⊆ dom) as Hany.
    { induction vs as [|u vs IHvs]; intros st1 Hin Hst1 Hc Hs; [done|]. simpl.
      specialize (IH u st1). destruct (search left u st1) as [found st2].
      destruct IH as (H1 & H2 & H3); try done.
      { intros k ->. eapply Hdom; [exact Hv|apply Hin; constructor|done]. }
      destruct found; [done|]. specialize (IHvs st2). destruct (any_of (search left) vs st2) as [found st3].
      destruct IHvs as (H4 & H5 & H6); try done.
      - intros u' Hu'. apply Hin. by constructor.
      - pose proof (subseteq_size _ _ H2). lia.
      - split_and!; [done|set_solver|done]. }
    specialize (Hany (E l) ({[ l ]} ∪ st.1, st.2)). simpl in Hany.
    destruct (any_of (search left) (E l) ({[ l ]} ∪ st.1, st.2)) as [found st'].
    destruct Hany as (H1 & H2 & H3); try done; [set_solver| |].
    + rewrite size_union, size_singleton by set_solver. lia.
    + split_and!; [done|set_solver|done].
Qed.
End Search.

(** ** Graphs without dangling references *)

Definition refs_in (h : heap) (v : jv) : Prop := forall l, v = JRef l -> is_Some (h !! l).

(** Everything the objects hold is in the heap. *)
Definition held (o : hobj) : list jv :=
  match o with
  | OArr items => items
  | OMap es => entry_values es
  | OSet ms => ms
  | ODate => []
  | ORec fs hidden | OInst _ fs hidden => fs.*2 ++ hidden
  end.

Definition closed_heap (calls : positive -> option jv) (h : heap) : Prop :=
  (forall l o, h !! l = Some o -> Forall (refs_in h) (held o)) /\ (forall f v, calls f = Some v -> refs_in h v).

Lemma refs_in_mono (h h' : heap) v : h ⊆ h' -> refs_in h v -> refs_in h' v.
Proof. intros Hsub Hv l Hl. destruct (Hv l Hl) as [o Ho]. exists o. by eapply lookup_weaken. Qed.

End Heap.
