(* ===== verification/Redaction.v ===== *)
(** * Redacting object graphs (utils/redaction-traversal.ts)

    [traverseAndRedact] clones a graph of plain data, transforming its strings, and
    reports what it could not inspect or rewrite.  Objects and clones live on one
    heap; the traversal recurses on the levels left before [maxDepth]. Below it, the invariant of
    the redacted graph. *)

From S2P Require Export Heap.

#[local] Open Scope string_scope.
#[local] Open Scope list_scope.

Module Redaction.
Export Heap.

Definition FORBIDDEN_KEYS : list string := ["__proto__"; "prototype"; "constructor"].
Definition is_forbidden (k : string) : bool := bool_decide (k ∈ FORBIDDEN_KEYS).

Inductive DepthExceededBehavior : Type := Passthrough | Deny.

Record RedactionTraversalOptions : Type := {
  (** The levels inspected: [maxDepth + 1], none below zero. *)
  maxDepth : nat;
  transformString : string -> string;
  handleKey : option (string -> jv -> option jv);
  onDepthExceeded : option DepthExceededBehavior;
  skipForbiddenKeys : option bool;
}.

(** The closure's variables and the heap. *)
Record tstate : Type := {
  hp : heap;
  seenMap : gmap positive positive;
  modified : bool;
  depthExceeded : bool;
  keyCollision : bool;
  unredactable : bool;
}.

Definition initial (h : heap) : tstate := {|
  hp := h; seenMap := ∅; modified := false; depthExceeded := false; keyCollision := false;
  unredactable := false |}.

Definition with_heap (f : heap -> heap) (st : tstate) : tstate := {|
  hp := f (hp st); seenMap := seenMap st; modified := modified st; depthExceeded := depthExceeded st;
  keyCollision := keyCollision st; unredactable := unredactable st |}.

(** Raising flags. *)
Definition raise (m d k u : bool) (st : tstate) : tstate := {|
  hp := hp st; seenMap := seenMap st; modified := modified st || m;
  depthExceeded := depthExceeded st || d; keyCollision := keyCollision st || k;
  unredactable := unredactable st || u |}.
Definition set_modified (b : bool) : tstate -> tstate := raise b false false false.
Definition set_depthExceeded (b : bool) : tstate -> tstate := raise false b false false.
Definition set_keyCollision (b : bool) : tstate -> tstate := raise false false b false.
Definition set_unredactable (b : bool) : tstate -> tstate := raise false false false b.

(** A new clone of the object at [l]. *)
Definition open_clone (l : positive) (o : hobj) (st : tstate) : positive * tstate :=
  let c := fresh (dom (hp st)) in
  (c, {| hp := <[c := o]> (hp st); seenMap := <[l := c]> (seenMap st); modified := modified st;
         depthExceeded := depthExceeded st; keyCollision := keyCollision st; unredactable := unredactable st |}).

(** *** Filling a clone *)

Definition push (c : positive) (v : jv) : tstate -> tstate :=
  with_heap (alter (fun o => match o with OArr l => OArr (l ++ [v]) | _ => o end) c).

Fixpoint assoc_set {K} `{!EqDecision K} (es : list (K * jv)) (k : K) (v : jv) : list (K * jv) :=
  match es with
  | [] => [(k, v)]
  | (k', v') :: es' => if bool_decide (k' = k) then (k', v) :: es' else (k', v') :: assoc_set es' k v
  end.

Definition map_set (c : positive) (k v : jv) : tstate -> tstate :=
  with_heap (alter (fun o => match o with OMap es => OMap (assoc_set es k v) | _ => o end) c).
Definition map_has (c : positive) (k : jv) (st : tstate) : bool :=
  match hp st !! c with Some (OMap es) => bool_decide (k ∈ es.*1) | _ => false end.

Definition set_add (c : positive) (v : jv) : tstate -> tstate :=
  with_heap (alter (fun o => match o with
                             | OSet ms => OSet (if bool_decide (v ∈ ms) then ms else ms ++ [v])
                             | _ => o
                             end) c).
Definition set_has (c : positive) (v : jv) (st : tstate) : bool :=
  match hp st !! c with Some (OSet ms) => bool_decide (v ∈ ms) | _ => false end.

Definition rec_set (c : positive) (k : string) (v : jv) : tstate -> tstate :=
  with_heap (alter (fun o => match o with ORec fs hidden => ORec (assoc_set fs k v) hidden | _ => o end) c).

Section Traversal.
Context (calls : positive -> option jv) (options : RedactionTraversalOptions).

Definition denies : bool :=
  match default Passthrough (onDepthExceeded options) with Deny => true | Passthrough => false end.
Definition skips : bool := default true (skipForbiddenKeys options).

(** [transformString(s) !== s] *)
Definition changes (s : string) : bool := negb (bool_decide (transformString options s = s)).

(** What [containsSensitive] looks at below an object, in order. *)
Definition inspected (h : heap) (l : positive) : list jv :=
  match h !! l with
  | None | Some ODate => []
  | Some o => serialized calls l o ++ held o
  end.

Definition containsSensitive (left : nat) (v : jv) (st : tstate) : bool * tstate :=
  let '(found, (_, cut)) := search (inspected (hp st)) changes left v (∅, false) in
  (found, set_depthExceeded (cut && denies) st).

Section Containers.
Context (walk : jv -> tstate -> jv * tstate) (sensitive : jv -> tstate -> bool * tstate).

Fixpoint walk_items (c : positive) (items : list jv) (st : tstate) : tstate :=
  match items with
  | [] => st
  | v :: rest => let '(v', st') := walk v st in walk_items c rest (push c v' st')
  end.

(** A string key is redacted, another is kept and inspected. *)
Definition walk_key (k : jv) (st : tstate) : jv * tstate :=
  match k with
  | JStr s => (JStr (transformString options s), set_modified (changes s) st)
  | _ => let '(found, st') := sensitive k st in (k, set_unredactable found st')
  end.

Fixpoint walk_entries (c : positive) (es : list (jv * jv)) (st : tstate) : tstate :=
  match es with
  | [] => st
  | (k, v) :: rest =>
      let '(newKey, st1) := walk_key k st in
      let st2 := set_keyCollision (map_has c newKey st1) st1 in
      let '(v', st3) := walk v st2 in
      walk_entries c rest (map_set c newKey v' st3)
  end.

Fixpoint walk_members (c : positive) (ms : list jv) (st : tstate) : tstate :=
  match ms with
  | [] => st
  | v :: rest =>
      let '(v', st1) := walk v st in
      walk_members c rest (set_add c v' (set_keyCollision (set_has c v' st1) st1))
  end.

Fixpoint walk_fields (c : positive) (fs : list (string * jv)) (st : tstate) : tstate :=
  match fs with
  | [] => st
  | (k, v) :: rest =>
      if skips && is_forbidden k then walk_fields c rest (set_modified true st)
      else
        match handleKey options ≫= (fun f => f k v) with
        | Some v' => walk_fields c rest (rec_set c k v' (set_modified (negb (bool_decide (v' = v))) st))
        | None => let '(v', st') := walk v st in walk_fields c rest (rec_set c k v' st')
        end
  end.
End Containers.

(** [left] levels may still be inspected: none when [depth > maxDepth]. *)
Fixpoint walk (left : nat) (v : jv) (st : tstate) : jv * tstate :=
  match left with
  | O => (v, set_depthExceeded denies st)
  | S left' =>
      match v with
      | JStr s => (JStr (transformString options s), set_modified (changes s) st)
      | JRef l =>
          match seenMap st !! l with
          | Some c => (JRef c, st)
          | None =>
              match hp st !! l with
              | None | Some ODate => (v, st)
              | Some (OArr items) =>
                  let '(c, st1) := open_clone l (OArr []) st in
                  (JRef c, walk_items (walk left') c items st1)
              | Some (OMap es) =>
                  let '(c, st1) := open_clone l (OMap []) st in
                  (JRef c, walk_entries (walk left') (containsSensitive left') c es st1)
              | Some (OSet ms) =>
                  let '(c, st1) := open_clone l (OSet []) st in
                  (JRef c, walk_members (walk left') c ms st1)
              | Some (OInst _ _ _) =>
                  let '(found, st1) := containsSensitive left v st in
                  (v, set_unredactable found st1)
              | Some (ORec fs _) =>
                  let '(c, st1) := open_clone l (ORec [] []) st in
                  (JRef c, walk_fields (walk left') c fs st1)
              end
          end
      | _ => (v, st)
      end
  end.

Definition traverseAndRedact (h : heap) (root : jv) : jv * tstate :=
  walk (S (maxDepth options)) root (initial h).
End Traversal.

End Redaction.

(** * What a redacted graph holds

    The invariant of the traversal: clones that are complete hold only strings the
    redaction produced, and references to clones or to objects it verified. *)

#[local] Open Scope string_scope.
#[local] Open Scope list_scope.

Module RedactionSound.
Export Redaction.

Section Sound.
Context (calls : positive -> option jv) (options : RedactionTraversalOptions) (h0 : heap).

(** A string the redaction may leave in its result. *)
Definition clean (s : string) : Prop :=
  (exists s0, s = transformString options s0) \/
  (exists f k v, handleKey options = Some f /\ f k v = Some (JStr s)).

(** Nothing reachable would be changed. *)
Definition verified (v : jv) : Prop :=
  exists S : gset positive, S ⊆ dom h0 /\ quiet (changes options) S v /\
    forall l, l ∈ S -> Forall (quiet (changes options) S) (inspected calls h0 l).

(** What a clone may hold, and what an original holds when nothing was modified. *)
Definition ok_clone (st : tstate) (v : jv) : Prop :=
  match v with
  | JStr s => clean s
  | JRef c => (exists l, seenMap st !! l = Some c) \/ verified v
  | _ => True
  end.
Definition ok_original (st : tstate) (v : jv) : Prop :=
  match v with
  | JStr s => clean s
  | JRef l => is_Some (seenMap st !! l) \/ verified v
  | _ => True
  end.

Definition clean_object (st : tstate) (o : hobj) : Prop := Forall (ok_clone st) (held o) /\ to_json o = None.

Definition clean_at (st : tstate) (c : positive) : Prop :=
  exists o, hp st !! c = Some o /\ clean_object st o.
Definition kept_at (st : tstate) (l : positive) : Prop :=
  exists o, h0 !! l = Some o /\ Forall (ok_original st) (shown calls l o).

Definition good (st : tstate) : Prop := depthExceeded st = false /\ unredactable st = false.

Record inv (st : tstate) : Prop := {
  i_heap : h0 ⊆ hp st;
  i_seen : forall l c, seenMap st !! l = Some c -> is_Some (h0 !! l) /\ h0 !! c = None /\ is_Some (hp st !! c);
}.

(** Between two states of a traversal; the clones of [D] are being filled. *)
Record ext (D : gset positive) (st st' : tstate) : Prop := {
  e_heap : forall c o, c ∉ D -> hp st !! c = Some o -> hp st' !! c = Some o;
  e_dom : dom (hp st) ⊆ dom (hp st');
  e_seen : seenMap st ⊆ seenMap st';
  e_fresh : forall l c, seenMap st' !! l = Some c -> seenMap st !! l = None -> hp st !! c = None;
  e_good : good st' -> good st;
  e_modified : modified st' = false -> modified st = false;
  e_closed : good st' -> forall l c, seenMap st' !! l = Some c -> seenMap st !! l = None -> c ∉ D ->
             clean_at st' c /\ (modified st' = false -> kept_at st' l);
}.

(** ** Monotonicity *)

Lemma ok_clone_mono st st' v : seenMap st ⊆ seenMap st' -> ok_clone st v -> ok_clone st' v.
Proof.
  intros Hs. destruct v; simpl; try done. intros [(o & Ho)|Hv]; [left|by right].
  exists o. by eapply lookup_weaken.
Qed.

Lemma ok_original_mono st st' v : seenMap st ⊆ seenMap st' -> ok_original st v -> ok_original st' v.
Proof.
  intros Hs. destruct v; simpl; try done. intros [(o & Ho)|Hv]; [left|by right].
  exists o. by eapply lookup_weaken.
Qed.

Lemma clean_at_mono D st st' c : ext D st st' -> c ∉ D -> clean_at st c -> clean_at st' c.
Proof.
  intros He Hc (o & Ho & Hf & Hj). exists o. split; [by apply (e_heap D st st')|].
  split; [|done]. eapply Forall_impl; [exact Hf|intros v]. apply ok_clone_mono, (e_seen D st st' He).
Qed.

Lemma kept_at_mono st st' l : seenMap st ⊆ seenMap st' -> kept_at st l -> kept_at st' l.
Proof.
  intros Hs (o & Ho & Hf). exists o. split; [done|].
  eapply Forall_impl; [exact Hf|intros v]. by apply ok_original_mono.
Qed.

Lemma ext_refl D st : ext D st st.
Proof. split; try done. - intros l c H1 H2. congruence. - intros _ l c H1 H2. congruence. Qed.

Lemma ext_trans D st1 st2 st3 : inv st2 -> ext D st1 st2 -> ext D st2 st3 -> ext D st1 st3.
Proof.
  intros Hi H1 H2. pose proof (e_seen D _ _ H1) as Hs1. pose proof (e_seen D _ _ H2) as Hs2. split.
  - intros c o Hc Ho. by apply (e_heap D _ _ H2), (e_heap D _ _ H1).
  - pose proof (e_dom D _ _ H1). pose proof (e_dom D _ _ H2). set_solver.
  - by transitivity (seenMap st2).
  - intros l c Hl Hn. destruct (seenMap st2 !! l) as [c'|] eqn:Hm.
    + rewrite (lookup_weaken _ _ _ _ Hm Hs2) in Hl. injection Hl as <-. by eapply (e_fresh D _ _ H1).
    + apply not_elem_of_dom. intros Hd%(e_dom D _ _ H1). apply (e_fresh D _ _ H2 l c) in Hl; [|done].
      by apply not_elem_of_dom in Hl.
  - intros Hg. by apply (e_good D _ _ H1), (e_good D _ _ H2).
  - intros Hm. by apply (e_modified D _ _ H1), (e_modified D _ _ H2).
  - intros Hg l c Hl Hn Hc. destruct (seenMap st2 !! l) as [c'|] eqn:Hm.
    + rewrite (lookup_weaken _ _ _ _ Hm Hs2) in Hl. injection Hl as <-.
      destruct (e_closed D _ _ H1 (e_good D _ _ H2 Hg) l c' Hm Hn Hc) as [Hcl Hk].
      split; [by eapply clean_at_mono|]. intros Hmod. apply (kept_at_mono st2); [done|].
      by apply Hk, (e_modified D _ _ H2).
    + by apply (e_closed D _ _ H2).
Qed.

Lemma ext_weaken D st st' : ext ∅ st st' -> ext D st st'.
Proof.
  intros H. split; intros.
  - by apply (e_heap _ _ _ H).
  - by apply (e_dom _ _ _ H).
  - by apply (e_seen _ _ _ H).
  - by eapply (e_fresh _ _ _ H).
  - by apply (e_good _ _ _ H).
  - by apply (e_modified _ _ _ H).
  - by apply (e_closed _ _ _ H).
Qed.

Lemma ext_raise D st m d k u : ext D st (raise m d k u st).
Proof.
  split; simpl; try done.
  - intros l c H1 H2. congruence.
  - unfold good. simpl. intros [[]%orb_false_elim []%orb_false_elim]. done.
  - by intros []%orb_false_elim.
  - intros _ l c H1 H2. congruence.
Qed.

Lemma inv_raise st m d k u : inv st -> inv (raise m d k u st).
Proof. intros [H1 H2]. by split. Qed.

Lemma ext_fill st c f : ext {[ c ]} st (with_heap (alter f c) st).
Proof.
  split; simpl; try done.
  - intros c' o Hc Ho. rewrite lookup_alter_ne by set_solver. done.
  - by rewrite dom_alter_L.
  - intros l c' H1 H2. congruence.
  - intros _ l c' H1 H2. congruence.
Qed.

Lemma inv_fill st c f : inv st -> h0 !! c = None -> inv (with_heap (alter f c) st).
Proof.
  intros [H1 H2] Hc. split; simpl.
  - apply map_subseteq_spec. intros l o Ho. rewrite lookup_alter_ne by congruence. by eapply lookup_weaken.
  - intros l c' Hl. destruct (H2 l c' Hl) as (? & ? & [o Ho]). split_and!; [done|done|].
    destruct (decide (c = c')) as [->|]; [rewrite lookup_alter_eq, Ho|rewrite lookup_alter_ne, Ho by done]; eauto.
Qed.

(** Filling a clone with what it may hold keeps it clean. *)
Lemma clean_fill st c f :
  (forall o, clean_object st o -> clean_object st (f o)) -> clean_at st c -> clean_at (with_heap (alter f c) st) c.
Proof.
  intros Hf (o & Ho & Hc). exists (f o). simpl. rewrite lookup_alter_eq, Ho. split; [done|].
  apply Hf. done.
Qed.

(** ** Inspections verify *)

Context (Hclosed : closed_heap calls h0) (Hdeny : denies options = true).
#[local] Set Default Proof Using "All".

Lemma inspected_refs l : Forall (refs_in h0) (inspected calls h0 l).
Proof.
  unfold inspected. destruct (h0 !! l) as [o|] eqn:Ho; [|done]. destruct Hclosed as [Hh Hf].
  assert (Forall (refs_in h0) (serialized calls l o ++ held o)) as HF; [|by destruct o].
  apply Forall_app_2; [|by eapply Hh]. unfold serialized. destruct (to_json o ≫= calls) as [v|] eqn:Hv; [|done].
  case_bool_decide; [done|]. apply Forall_singleton. apply bind_Some in Hv as (f & _ & Hv). by eapply Hf.
Qed.

Lemma quiet_within S v : refs_in h0 v -> quiet (changes options) S v -> quiet (changes options) (S ∩ dom h0) v.
Proof.
  intros Hr. destruct v; simpl; try done. intros Hl. specialize (Hr _ eq_refl).
  apply elem_of_dom in Hr. set_solver.
Qed.

Lemma inspected_kept st l : inv st -> l ∈ dom h0 -> inspected calls (hp st) l = inspected calls h0 l.
Proof.
  intros Hi [o Ho]%elem_of_dom. unfold inspected. by rewrite (lookup_weaken _ _ _ _ Ho (i_heap st Hi)), Ho.
Qed.

Lemma containsSensitive_spec left v st :
  inv st -> refs_in h0 v ->
  let '(found, st1) := containsSensitive calls options left v st in
  ext ∅ st (set_unredactable found st1) /\ inv (set_unredactable found st1) /\
  (good (set_unredactable found st1) -> verified v).
Proof.
  intros Hi Hv. unfold containsSensitive. pose proof (search_quiet (inspected calls (hp st)) (changes options) left v (∅, false)) as Hs.
  destruct (search _ _ _ _ _) as [found [S cut]]. split_and!.
  - eapply ext_trans; [|apply ext_raise|apply ext_raise]. by apply inv_raise.
  - by apply inv_raise, inv_raise.
  - unfold good. simpl. rewrite Hdeny, andb_true_r, !orb_false_r. intros [[_ Hcut]%orb_false_elim [_ Hf]%orb_false_elim].
    destruct (Hs Hf) as [(_ & _ & Hnew) Hq]. simpl in *. exists (S ∩ dom h0). split_and!.
    + set_solver.
    + apply quiet_within; [done|]. by apply Hq.
    + intros l [Hl Hd]%elem_of_intersection. specialize (Hnew Hcut l Hl ltac:(set_solver)).
      rewrite inspected_kept in Hnew by done. pose proof (inspected_refs l) as Hr.
      eapply Forall_impl; [apply Forall_and; split; [exact Hr|exact Hnew]|].
      intros u [Hu1 Hu2]. by apply quiet_within.
Qed.

(** ** Filling keeps clones clean *)

Lemma held_assoc_set {K} `{!EqDecision K} (es : list (K * jv)) k v :
  forall u, u ∈ (assoc_set es k v).*2 -> u = v \/ u ∈ es.*2.
Proof.
  induction es as [|[k' v'] es IH]; simpl; intros u.
  - rewrite elem_of_cons, elem_of_nil. intros [?|?]; auto.
  - case_bool_decide; simpl; rewrite !elem_of_cons; [naive_solver|]. intros [->|Hu]; [auto|].
    destruct (IH u Hu); auto.
Qed.

Lemma entry_values_app es1 es2 : entry_values (es1 ++ es2) = entry_values es1 ++ entry_values es2.
Proof. apply bind_app. Qed.

Lemma entries_assoc_set es k v :
  forall u, u ∈ entry_values (assoc_set es k v) -> u = k \/ u = v \/ u ∈ entry_values es.
Proof.
  unfold entry_values. induction es as [|[k' v'] es IH]; simpl; intros u.
  - rewrite !elem_of_cons, elem_of_nil. naive_solver.
  - case_bool_decide; simpl; rewrite !elem_of_cons; [naive_solver|]. intros [->|[->|Hu]]; auto.
    destruct (IH u Hu) as [?|[?|?]]; auto.
Qed.

Lemma clean_push st v o :
  ok_clone st v -> clean_object st o -> clean_object st (match o with OArr l => OArr (l ++ [v]) | _ => o end).
Proof.
  intros Hv [Hf Hj]. destruct o; try done. split; [|done]. simpl in *.
  apply Forall_app_2; [done|by apply Forall_singleton].
Qed.

Lemma clean_map_set st k v o :
  ok_clone st k -> ok_clone st v -> clean_object st o ->
  clean_object st (match o with OMap es => OMap (assoc_set es k v) | _ => o end).
Proof.
  intros Hk Hv [Hf Hj]. destruct o; try done. split; [|done]. simpl in *. apply Forall_forall. intros u Hu.
  apply entries_assoc_set in Hu as [->|[->|Hu]]; [done|done|]. by eapply Forall_forall.
Qed.

Lemma clean_set_add st v o :
  ok_clone st v -> clean_object st o ->
  clean_object st (match o with OSet ms => OSet (if bool_decide (v ∈ ms) then ms else ms ++ [v]) | _ => o end).
Proof.
  intros Hv [Hf Hj]. destruct o; try done. split; [|done]. simpl in *. case_bool_decide; [done|].
  apply Forall_app_2; [done|by apply Forall_singleton].
Qed.

Lemma get_field_set fs k v k' :
  get_field (assoc_set fs k v) k' = if bool_decide (k = k') then Some v else get_field fs k'.
Proof.
  induction fs as [|[k2 v2] fs IH]; simpl; [done|].
  destruct (bool_decide_reflect (k2 = k)) as [->|Hk]; simpl.
  - by case_bool_decide.
  - rewrite IH. repeat case_bool_decide; congruence.
Qed.

Definition is_fun (v : jv) : bool := match v with JFun _ => true | _ => false end.

Lemma clean_rec_set st k v o :
  ok_clone st v -> (k = "toJSON" -> is_fun v = false) -> clean_object st o ->
  clean_object st (match o with ORec fs hidden => ORec (assoc_set fs k v) hidden | _ => o end).
Proof.
  intros Hv Hk [Hf Hj]. destruct o as [| | | |fs hidden|]; try done. split; simpl in *.
  - apply Forall_app in Hf as [Hfs Hh]. apply Forall_app_2; [|done]. apply Forall_forall. intros u Hu.
    apply held_assoc_set in Hu as [->|Hu]; [done|]. by apply (proj1 (Forall_forall _ _) Hfs).
  - rewrite get_field_set. case_bool_decide as Hkt; [|done]. specialize (Hk Hkt). by destruct v.
Qed.
(** ** Filling a clone from the walks of the parts of an object *)

(** [c] is filled between the states and stays clean. *)
Definition filled (c : positive) (st st' : tstate) : Prop :=
  ext {[ c ]} st st' /\ inv st' /\ (good st' -> clean_at st c -> clean_at st' c).

Lemma filled_refl c st : inv st -> filled c st st.
Proof. intros Hi. split_and!; [apply ext_refl|done|done]. Qed.

Lemma filled_trans c st1 st2 st3 : filled c st1 st2 -> filled c st2 st3 -> filled c st1 st3.
Proof.
  intros (He1 & Hi1 & Hc1) (He2 & Hi2 & Hc2). split_and!; [by apply (ext_trans _ _ st2)|done|].
  intros Hg Hc. apply Hc2, Hc1; [done| |done]. by apply (e_good _ _ _ He2).
Qed.

Lemma filled_ext c st st' : ext ∅ st st' -> inv st' -> filled c st st'.
Proof.
  intros He Hi. split_and!; [by apply ext_weaken|done|]. intros _ Hc. eapply clean_at_mono; [exact He|set_solver|done].
Qed.

Lemma filled_raise c st m d k u : inv st -> filled c st (raise m d k u st).
Proof. intros Hi. apply filled_ext; [apply ext_raise|by apply inv_raise]. Qed.

Lemma filled_fill c st f :
  inv st -> h0 !! c = None -> (good st -> forall o, clean_object st o -> clean_object st (f o)) ->
  filled c st (with_heap (alter f c) st).
Proof.
  intros Hi Hc Hf. split_and!; [apply ext_fill|by apply inv_fill|]. intros Hg. apply clean_fill, Hf, Hg.
Qed.

(** What the walk of a value promises. *)
Definition walked (v : jv) (st : tstate) (v' : jv) (st' : tstate) : Prop :=
  ext ∅ st st' /\ inv st' /\
  (good st' -> ok_clone st' v' /\ (modified st' = false -> ok_original st' v)) /\
  (is_fun v = false -> is_fun v' = false).

Definition walk_ok (f : jv -> tstate -> jv * tstate) : Prop :=
  forall v st, inv st -> refs_in h0 v -> let '(v', st') := f v st in walked v st v' st'.

Lemma walked_raise v st v' st1 m d k u : walked v st v' st1 -> walked v st v' (raise m d k u st1).
Proof.
  intros (He & Hi & Hok & Hfun). pose proof (ext_raise ∅ st1 m d k u) as Hr. split_and!; [|by apply inv_raise| |done].
  - by apply (ext_trans _ _ st1).
  - intros Hg. destruct (Hok (e_good _ _ _ Hr Hg)) as [H1 H2]. split; [done|].
    intros Hm. by apply H2, (e_modified _ _ _ Hr).
Qed.

(** One part walked, then the rest. *)
Lemma filled_skip c st v v' st1 st' vs :
  walked v st v' st1 ->
  filled c st1 st' /\ (good st' -> modified st' = false -> Forall (ok_original st') vs) ->
  filled c st st' /\ (good st' -> modified st' = false -> Forall (ok_original st') (v :: vs)).
Proof.
  intros (He & Hi1 & Hok & _) [Hf1 Hrest].
  split; [by eapply filled_trans; [apply filled_ext|]|].
  intros Hgood Hm. destruct Hf1 as (He1 & _ & _). constructor; [|by apply Hrest].
  eapply ok_original_mono; [by apply (e_seen _ _ _ He1)|].
  apply Hok; [by apply (e_good _ _ _ He1)|by apply (e_modified _ _ _ He1)].
Qed.

(** One part walked and written to the clone, then the rest. *)
Lemma filled_part c st v v' st1 g st' vs :
  h0 !! c = None -> walked v st v' st1 ->
  (good st1 -> ok_clone st1 v' -> forall o, clean_object st1 o -> clean_object st1 (g o)) ->
  filled c (with_heap (alter g c) st1) st' /\ (good st' -> modified st' = false -> Forall (ok_original st') vs) ->
  filled c st st' /\ (good st' -> modified st' = false -> Forall (ok_original st') (v :: vs)).
Proof.
  intros Hc Hw Hg [Hfill Hrest]. eapply filled_skip; [exact Hw|]. split; [|done].
  destruct Hw as (_ & Hi1 & Hok & _). eapply filled_trans; [|exact Hfill]. apply filled_fill; [done|done|].
  intros Hgood. apply Hg; [done|]. by apply Hok.
Qed.

Lemma walked_string s st :
  inv st -> walked (JStr s) st (JStr (transformString options s)) (set_modified (changes options s) st).
Proof.
  intros Hi. split_and!; [apply ext_raise|by apply inv_raise| |done].
  intros _. split; [left; eauto|]. simpl. intros [_ Hc]%orb_false_elim. left. exists s.
  by apply negb_false_iff, bool_decide_eq_true in Hc.
Qed.

Section Parts.
Context (f : jv -> tstate -> jv * tstate) (Hf : walk_ok f).

Lemma walk_items_ok c items st :
  inv st -> h0 !! c = None -> Forall (refs_in h0) items ->
  let st' := walk_items f c items st in
  filled c st st' /\ (good st' -> modified st' = false -> Forall (ok_original st') items).
Proof.
  intros Hi Hc Hr. revert st Hi. induction Hr as [|v items Hv _ IH]; intros st Hi; simpl.
  - split; [by apply filled_refl|by constructor].
  - pose proof (Hf v st Hi Hv) as Hw. destruct (f v st) as [v' st1].
    eapply filled_part; [done|exact Hw|intros _ Hok o; by apply clean_push|].
    apply IH, inv_fill; [apply Hw|done].
Qed.

Lemma walk_members_ok c ms st :
  inv st -> h0 !! c = None -> Forall (refs_in h0) ms ->
  let st' := walk_members f c ms st in
  filled c st st' /\ (good st' -> modified st' = false -> Forall (ok_original st') ms).
Proof.
  intros Hi Hc Hr. revert st Hi. induction Hr as [|v ms Hv _ IH]; intros st Hi; simpl.
  - split; [by apply filled_refl|by constructor].
  - pose proof (Hf v st Hi Hv) as Hw. destruct (f v st) as [v' st1].
    set (st2 := set_keyCollision (set_has c v' st1) st1).
    assert (walked v st v' st2) as Hw2 by by apply walked_raise.
    eapply filled_part; [done|exact Hw2|intros _ Hok o; by apply clean_set_add|].
    apply IH, inv_fill; [apply Hw2|done].
Qed.

Context (sensitive : jv -> tstate -> bool * tstate).
Context (Hsens : forall v st, inv st -> refs_in h0 v ->
  let '(found, st1) := sensitive v st in
  ext ∅ st (set_unredactable found st1) /\ inv (set_unredactable found st1) /\
  (good (set_unredactable found st1) -> verified v)).

Lemma walk_key_ok k st :
  inv st -> refs_in h0 k -> let '(k', st') := walk_key options sensitive k st in walked k st k' st'.
Proof.
  intros Hi Hk. assert ((exists s, k = JStr s) \/ forall s, k <> JStr s) as [[s ->]|Hs] by (destruct k; naive_solver).
  - by apply walked_string.
  - assert (walk_key options sensitive k st =
            let '(found, st') := sensitive k st in (k, set_unredactable found st')) as -> by (destruct k; naive_solver).
    specialize (Hsens k st Hi Hk). destruct (sensitive k st) as [found st1]. destruct Hsens as (He & Hi1 & Hv).
    split_and!; [done|done| |done]. intros Hg%Hv. split; [|intros _]; destruct k; try done; [naive_solver|by right|naive_solver|by right].
Qed.

Lemma walk_entries_ok c es st :
  inv st -> h0 !! c = None -> Forall (refs_in h0) (entry_values es) ->
  let st' := walk_entries options f sensitive c es st in
  filled c st st' /\ (good st' -> modified st' = false -> Forall (ok_original st') (entry_values es)).
Proof.
  intros Hi Hc. revert st Hi. induction es as [|[k v] es IH]; intros st Hi; simpl.
  - intros _. split; [by apply filled_refl|by constructor].
  - intros [Hk [Hv Hr]%Forall_cons]%Forall_cons. pose proof (walk_key_ok k st Hi Hk) as Hwk.
    destruct (walk_key _ _ _ _) as [newKey st1].
    set (st2 := set_keyCollision (map_has c newKey st1) st1).
    assert (walked k st newKey st2) as Hwk2 by by apply walked_raise.
    assert (inv st2) as Hi2 by apply Hwk2. pose proof (Hf v st2 Hi2 Hv) as Hw.
    destruct (f v st2) as [v' st3]. eapply filled_skip; [exact Hwk2|].
    eapply filled_part; [done|exact Hw| |apply IH; [apply inv_fill; [apply Hw|done]|done]].
    intros Hg Hok o. apply clean_map_set; [|done]. destruct Hw as (He & _).
    apply (ok_clone_mono st2); [apply (e_seen _ _ _ He)|]. by apply Hwk2, (e_good _ _ _ He).
Qed.

Context (Hmask : forall g k v v', handleKey options = Some g -> g k v = Some v' -> exists s, v' = JStr s).

Lemma walk_fields_ok c fs st :
  inv st -> h0 !! c = None -> Forall (refs_in h0) fs.*2 -> (forall g, ("toJSON", JFun g) ∉ fs) ->
  let st' := walk_fields options f c fs st in
  filled c st st' /\ (good st' -> modified st' = false -> Forall (ok_original st') fs.*2).
Proof.
  intros Hi Hc. revert st Hi. induction fs as [|[k v] fs IH]; intros st Hi; simpl.
  - intros _ _. split; [by apply filled_refl|by constructor].
  - intros [Hv Hr]%Forall_cons Hown. assert (forall g, ("toJSON", JFun g) ∉ fs) as Hown' by set_solver.
    destruct (_ && _).
    { destruct (IH (set_modified true st)) as [Hfill _]; try done; [by apply inv_raise|].
      split; [eapply filled_trans; [|exact Hfill]; by apply filled_raise|].
      intros _ Hm. destruct Hfill as (He & _). apply (e_modified _ _ _ He) in Hm. simpl in Hm.
      by rewrite orb_true_r in Hm. }
    assert (forall v' st1, walked v st v' st1 -> filled c st (walk_fields options f c fs (rec_set c k v' st1)) /\
      (good (walk_fields options f c fs (rec_set c k v' st1)) ->
       modified (walk_fields options f c fs (rec_set c k v' st1)) = false ->
       Forall (ok_original (walk_fields options f c fs (rec_set c k v' st1))) (v :: fs.*2))) as Hpart.
    { intros v' st1 Hw. eapply filled_part; [done|exact Hw| |apply IH; [apply inv_fill; [apply Hw|done]|done|done]].
      intros _ Hok o. apply clean_rec_set; [done|]. intros ->. apply Hw. destruct v; try done.
      exfalso. apply (Hown f0). constructor. }
    destruct (handleKey options ≫= (fun g => g k v)) as [v'|] eqn:Hh.
    + apply Hpart. apply bind_Some in Hh as (g & Hg & Hgv). destruct (Hmask _ _ _ _ Hg Hgv) as [s ->].
      split_and!; [apply ext_raise|by apply inv_raise| |done].
      intros _. split; [simpl; right; eauto|]. simpl. intros [_ Hm]%orb_false_elim.
      apply negb_false_iff, bool_decide_eq_true in Hm as <-. right. eauto.
    + pose proof (Hf v st Hi Hv) as Hw. destruct (f v st) as [v' st1]. by apply Hpart.
Qed.
End Parts.

(** ** The walk *)

Context (Hmask : forall g k v v', handleKey options = Some g -> g k v = Some v' -> exists s, v' = JStr s).
(** No plain record has a [toJSON] method of its own. *)
Context (Hown : forall l fs hidden g, h0 !! l = Some (ORec fs hidden) -> ("toJSON", JFun g) ∉ fs).

Lemma get_field_in fs k v : get_field fs k = Some v -> (k, v) ∈ fs.
Proof.
  induction fs as [|[k' v'] fs IH]; simpl; [done|]. case_bool_decide; [intros [= ->]; subst; constructor|].
  intros Hg. constructor. auto.
Qed.

Lemma own_serialized l fs hidden : h0 !! l = Some (ORec fs hidden) -> serialized calls l (ORec fs hidden) = [].
Proof.
  intros Hl. unfold serialized. simpl. destruct (get_field fs "toJSON") as [[]|] eqn:Hg; try done.
  apply get_field_in in Hg. by apply Hown with (1 := Hl) in Hg.
Qed.

Lemma open_inv l o st : inv st -> is_Some (h0 !! l) -> inv (open_clone l o st).2.
Proof.
  intros [H1 H2] Hl. assert (hp st !! fresh (dom (hp st)) = None) as Hn by apply not_elem_of_dom, is_fresh. split; simpl.
  - apply map_subseteq_spec. intros k x Hk. rewrite lookup_insert_ne; [by eapply lookup_weaken|].
    intros <-. by rewrite (lookup_weaken _ _ _ _ Hk H1) in Hn.
  - intros l' c'. destruct (decide (l' = l)) as [->|Hne].
    + rewrite lookup_insert_eq. intros [= <-]. split_and!; [done| |rewrite lookup_insert_eq; eauto].
      by eapply lookup_weaken_None.
    + rewrite lookup_insert_ne by done. intros (Ha & Hb & [x Hx])%H2. split_and!; [done|done|].
      rewrite lookup_insert_ne; [eauto|congruence].
Qed.

(** A clone opened and then filled from the parts of its original. *)
Lemma walked_clone l o o0 st st2 :
  inv st -> h0 !! l = Some o0 -> seenMap st !! l = None -> held o = [] -> to_json o = None ->
  filled (open_clone l o st).1 (open_clone l o st).2 st2 /\
    (good st2 -> modified st2 = false -> Forall (ok_original st2) (shown calls l o0)) ->
  walked (JRef l) st (JRef (open_clone l o st).1) st2.
Proof.
  intros Hi Hl Hs Hh Hj [(He & Hi2 & Hclean) Hk].
  set (c := (open_clone l o st).1) in *. set (st1 := (open_clone l o st).2) in *.
  assert (hp st !! c = None) as Hc by apply not_elem_of_dom, is_fresh.
  assert (hp st1 !! c = Some o) as Hc1 by apply lookup_insert_eq.
  assert (forall c' x, hp st !! c' = Some x -> hp st1 !! c' = Some x) as Hold.
  { intros c' x Hx. rewrite <- Hx. apply lookup_insert_ne. change (c <> c'). congruence. }
  assert (seenMap st2 !! l = Some c) as Hl2 by (eapply lookup_weaken; [apply lookup_insert_eq|apply (e_seen _ _ _ He)]).
  assert (forall l', l' <> l -> seenMap st1 !! l' = seenMap st !! l') as Hs1 by (intros l' Hne; by apply lookup_insert_ne).
  split_and!; [|done|intros _; split; [left; eauto|intros _; left; eauto]|done].
  split.
  - intros c' x _ Hx. apply (e_heap _ _ _ He); [|by apply Hold]. apply not_elem_of_singleton. congruence.
  - pose proof (e_dom _ _ _ He) as Hd. simpl in Hd. rewrite dom_insert_L in Hd. set_solver.
  - transitivity (seenMap st1); [|apply (e_seen _ _ _ He)]. by apply insert_subseteq.
  - intros l' c' Hl' Hn. destruct (decide (l' = l)) as [->|Hne]; [congruence|].
    pose proof (e_fresh _ _ _ He l' c' Hl' ltac:(by rewrite Hs1)) as Hf.
    destruct (hp st !! c') as [x|] eqn:Hx; [|done]. by rewrite (Hold _ _ Hx) in Hf.
  - intros Hg. exact (e_good _ _ _ He Hg).
  - intros Hm. exact (e_modified _ _ _ He Hm).
  - intros Hg l' c' Hl' Hn _. destruct (decide (l' = l)) as [->|Hne].
    + rewrite Hl2 in Hl'. injection Hl' as <-. split.
      * apply Hclean; [done|]. exists o. split; [done|]. split; [by rewrite Hh|done].
      * intros Hm. exists o0. split; [done|]. by apply Hk.
    + apply (e_closed _ _ _ He); [done|done|by rewrite Hs1|]. apply not_elem_of_singleton. intros ->.
      pose proof (e_fresh _ _ _ He l' c Hl' ltac:(by rewrite Hs1)). congruence.
Qed.

Lemma walked_verified v st : inv st -> verified v -> walked v st v st.
Proof.
  intros Hi Hv. split_and!; [apply ext_refl|done| |done]. intros _.
  assert (forall s, v = JStr s -> clean s) as Hs.
  { intros s ->. destruct Hv as (S & _ & Hq & _). left. exists s. simpl in Hq.
    by apply negb_false_iff, bool_decide_eq_true in Hq. }
  split; [|intros _]; destruct v; try done; [by apply Hs|by right|by apply Hs|by right].
Qed.

Lemma fresh_notin l o st : inv st -> h0 !! (open_clone l o st).1 = None.
Proof. intros Hi. eapply lookup_weaken_None; [apply not_elem_of_dom, is_fresh|apply (i_heap st Hi)]. Qed.

Lemma walk_redacts left : walk_ok (walk calls options left).
Proof.
  induction left as [|left IH]; intros v st Hi Hv.
  - simpl. split_and!; [apply ext_raise|by apply inv_raise| |done]. unfold good. simpl. rewrite Hdeny, orb_true_r.
    by intros [].
  - destruct v as [| | | |s|g|l]; try (apply walked_verified; [done|]; exists ∅; split_and!; set_solver).
    { by apply walked_string. }
    destruct (Hv l eq_refl) as [o0 Ho0]. pose proof (proj1 Hclosed l o0 Ho0) as Hheld. simpl.
    destruct (seenMap st !! l) as [c|] eqn:Hs.
    { split_and!; [apply ext_refl|done| |done]. intros _. split; [left; eauto|intros _; left; eauto]. }
    rewrite (lookup_weaken _ _ _ _ Ho0 (i_heap st Hi)).
    destruct o0 as [items|es|ms| |fs hidden|m fs hidden].
    + apply (walked_clone l (OArr []) (OArr items)); try done.
      apply walk_items_ok; [done|by apply open_inv|exact (fresh_notin l ODate st Hi)|done].
    + apply (walked_clone l (OMap []) (OMap es)); try done.
      apply walk_entries_ok; [done| |by apply open_inv|exact (fresh_notin l ODate st Hi)|done].
      intros v' st'. apply containsSensitive_spec.
    + apply (walked_clone l (OSet []) (OSet ms)); try done.
      apply walk_members_ok; [done|by apply open_inv|exact (fresh_notin l ODate st Hi)|done].
    + apply walked_verified; [done|]. exists {[ l ]}. split_and!.
      * apply singleton_subseteq_l, elem_of_dom. eauto.
      * simpl. set_solver.
      * intros l' ->%elem_of_singleton. unfold inspected. by rewrite Ho0.
    + apply (walked_clone l (ORec [] []) (ORec fs hidden)); try done. simpl in Hheld |- *. rewrite (own_serialized l fs hidden Ho0).
      apply (walk_fields_ok _ IH (containsSensitive calls options left)); [apply containsSensitive_spec|done|by apply open_inv|exact (fresh_notin l ODate st Hi)| |].
      * by apply Forall_app in Hheld as [].
      * intros g. by apply (Hown l fs hidden).
    + pose proof (containsSensitive_spec (S left) (JRef l) st Hi Hv) as Hc.
      destruct (containsSensitive _ _ _ _ _) as [found st1]. destruct Hc as (He & Hi1 & Hver).
      split_and!; [done|done| |done]. intros Hg. by destruct (walked_verified (JRef l) (set_unredactable found st1) Hi1 (Hver Hg)) as (_ & _ & Hok & _); apply Hok.
Qed.

(** ** The result *)

Lemma shown_inspected l o u : h0 !! l = Some o -> u ∈ shown calls l o -> u ∈ inspected calls h0 l.
Proof.
  intros Ho. unfold inspected. rewrite Ho.
  destruct o; simpl; rewrite ?elem_of_app; try done; intros Hu; naive_solver.
Qed.

Lemma verified_step h l u : h0 ⊆ h -> verified (JRef l) -> u ∈ children calls h l -> verified u.
Proof.
  intros Hh (S & Hsub & Hl & HS) Hu. simpl in Hl. exists S. split_and!; [done| |done].
  pose proof (Hsub l Hl) as [o Ho]%elem_of_dom. unfold children in Hu.
  rewrite (lookup_weaken _ _ _ _ Ho Hh) in Hu. apply (proj1 (Forall_forall _ _) (HS l Hl)).
  by apply (shown_inspected l o).
Qed.

Lemma verified_clone st u : verified u -> ok_clone st u.
Proof.
  intros Hv. destruct u; try done; [|by right]. destruct Hv as (S & _ & Hq & _). left. exists s. simpl in Hq.
  by apply negb_false_iff, bool_decide_eq_true in Hq.
Qed.

Lemma traverse_spec root :
  refs_in h0 root ->
  let '(v, st) := traverseAndRedact calls options h0 root in
  walked root (initial h0) v st.
Proof.
  intros Hr. apply walk_redacts; [|done]. split; [done|]. intros l c. simpl. by rewrite lookup_empty.
Qed.

Lemma result_clean root v st :
  refs_in h0 root -> traverseAndRedact calls options h0 root = (v, st) -> good st ->
  forall s, reach (children calls (hp st)) v (JStr s) -> clean s.
Proof.
  intros Hr Ht Hg s Hs. pose proof (traverse_spec root Hr) as Hw. rewrite Ht in Hw.
  destruct Hw as (He & Hi & Hok & _). change (ok_clone st (JStr s)).
  eapply (reach_closed _ (ok_clone st)); [|exact Hs|by apply Hok].
  intros l u [(l' & Hl')|Hv] Hu.
  - destruct (e_closed _ _ _ He Hg l' l Hl' (lookup_empty _)) as [(o & Ho & Hheld & Hj) _]; [set_solver|].
    unfold children in Hu. rewrite Ho in Hu. apply (proj1 (Forall_forall _ _) Hheld).
    destruct o; simpl in *; unfold serialized in Hu; simpl in Hu; rewrite ?Hj in Hu; simpl in Hu; try done;
      apply elem_of_app; by left.
  - apply verified_clone. eapply verified_step; [apply (i_heap st Hi)|exact Hv|exact Hu].
Qed.

Lemma unmodified_clean root v st :
  refs_in h0 root -> traverseAndRedact calls options h0 root = (v, st) -> good st -> modified st = false ->
  forall s, reach (children calls h0) root (JStr s) -> clean s.
Proof.
  intros Hr Ht Hg Hm s Hs. pose proof (traverse_spec root Hr) as Hw. rewrite Ht in Hw.
  destruct Hw as (He & Hi & Hok & _). change (ok_original st (JStr s)).
  eapply (reach_closed _ (ok_original st)); [|exact Hs|by apply Hok].
  intros l u [[c Hc]|Hv] Hu.
  - destruct (e_closed _ _ _ He Hg l c Hc (lookup_empty _)) as [_ Hk]; [set_solver|].
    destruct (Hk Hm) as (o & Ho & Hall). unfold children in Hu. rewrite Ho in Hu.
    by apply (proj1 (Forall_forall _ _) Hall).
  - assert (verified u) as Hu' by (eapply verified_step; [done|exact Hv|exact Hu]).
    pose proof (verified_clone st u Hu') as Hcl. destruct u; try done. by right.
Qed.
End Sound.

(** ** Refusing at the depth limit only raises a flag *)

Definition strict (options : RedactionTraversalOptions) : RedactionTraversalOptions := {|
  maxDepth := maxDepth options; transformString := transformString options; handleKey := handleKey options;
  onDepthExceeded := Some Deny; skipForbiddenKeys := skipForbiddenKeys options |}.

Record alike (st st' : tstate) : Prop := {
  a_hp : hp st = hp st'; a_seen : seenMap st = seenMap st'; a_mod : modified st = modified st';
  a_key : keyCollision st = keyCollision st'; a_un : unredactable st = unredactable st' }.

Definition alike2 {A} (r r' : A * tstate) : Prop := r.1 = r'.1 /\ alike r.2 r'.2.

Section Strict.
Context (calls : positive -> option jv) (options : RedactionTraversalOptions).

Lemma alike_raise st st' m d d' k u : alike st st' -> alike (raise m d k u st) (raise m d' k u st').
Proof. intros []. split; simpl; congruence. Qed.
Lemma alike_heap st st' f : alike st st' -> alike (with_heap f st) (with_heap f st').
Proof. intros []. split; simpl; congruence. Qed.
Lemma alike_open l o st st' : alike st st' -> alike2 (open_clone l o st) (open_clone l o st').
Proof. intros []. split; [|split]; simpl; congruence. Qed.

Lemma alike_sensitive left v st st' :
  alike st st' -> alike2 (containsSensitive calls options left v st) (containsSensitive calls (strict options) left v st').
Proof.
  intros Ha. unfold containsSensitive, changes. simpl. rewrite (a_hp _ _ Ha).
  destruct (search _ _ _ _ _) as [found [S cut]]. split; [done|]. by apply alike_raise.
Qed.

Definition walk_alike (f f' : jv -> tstate -> jv * tstate) : Prop :=
  forall v st st', alike st st' -> alike2 (f v st) (f' v st').

Section Parts.
Context (f f' : jv -> tstate -> jv * tstate) (Hf : walk_alike f f').
#[local] Set Default Proof Using "All".

(** Walk a part on both sides and go on. *)
Ltac part v st st' Ha :=
  let Hp := fresh in pose proof (Hf v st st' Ha) as Hp;
  destruct (f v st) as [? ?], (f' v st') as [? ?]; destruct Hp as [Hv Ha']; simpl in Hv, Ha'; subst.

Lemma alike_items c items st st' : alike st st' -> alike (walk_items f c items st) (walk_items f' c items st').
Proof.
  revert st st'. induction items as [|v items IH]; intros st st' Ha; simpl; [done|].
  part v st st' Ha. apply IH. by apply alike_heap.
Qed.

Lemma alike_members c ms st st' : alike st st' -> alike (walk_members f c ms st) (walk_members f' c ms st').
Proof.
  revert st st'. induction ms as [|v ms IH]; intros st st' Ha; simpl; [done|].
  part v st st' Ha. apply IH, alike_heap. unfold set_has. rewrite (a_hp _ _ Ha'). by apply alike_raise.
Qed.

Lemma alike_entries left c es st st' :
  alike st st' ->
  alike (walk_entries options f (containsSensitive calls options left) c es st)
        (walk_entries (strict options) f' (containsSensitive calls (strict options) left) c es st').
Proof.
  revert st st'. induction es as [|[k v] es IH]; intros st st' Ha; simpl; [done|].
  assert (alike2 (walk_key options (containsSensitive calls options left) k st)
                 (walk_key (strict options) (containsSensitive calls (strict options) left) k st')) as Hk.
  { pose proof (alike_sensitive left k st st' Ha) as Hs. unfold walk_key.
    destruct (containsSensitive calls options left k st) as [found st1],
      (containsSensitive calls (strict options) left k st') as [found' st1'].
    destruct Hs as [Hs1 Hs2]. simpl in Hs1, Hs2. subst found'. destruct k; (split; [done|by apply alike_raise]). }
  destruct (walk_key _ _ k st) as [k1 st1], (walk_key _ _ k st') as [k1' st1'].
  destruct Hk as [Hk1 Ha1]. simpl in Hk1, Ha1. subst k1'.
  assert (alike (set_keyCollision (map_has c k1 st1) st1) (set_keyCollision (map_has c k1 st1') st1')) as Ha2.
  { unfold map_has. rewrite (a_hp _ _ Ha1). by apply alike_raise. }
  part v (set_keyCollision (map_has c k1 st1) st1) (set_keyCollision (map_has c k1 st1') st1') Ha2.
  apply IH. by apply alike_heap.
Qed.

Lemma alike_fields c fs st st' :
  alike st st' -> alike (walk_fields options f c fs st) (walk_fields (strict options) f' c fs st').
Proof.
  revert st st'. induction fs as [|[k v] fs IH]; intros st st' Ha; [done|]. cbn.
  change (skips (strict options)) with (skips options).
  destruct (_ && _); [by apply IH, alike_raise|]. destruct (handleKey options ≫= _) as [v'|].
  - apply IH, alike_heap. by apply alike_raise.
  - part v st st' Ha. by apply IH, alike_heap.
Qed.
End Parts.

Lemma walk_strict left : walk_alike (walk calls options left) (walk calls (strict options) left).
Proof.
  induction left as [|left IH]; intros v st st' Ha; [split; [done|by apply alike_raise]|].
  destruct v as [| | | |s|g|l]; try (by split). { split; [done|by apply alike_raise]. }
  cbn -[containsSensitive open_clone]. rewrite (a_seen _ _ Ha), (a_hp _ _ Ha).
  destruct (seenMap st' !! l) as [c|]; [by split|].
  destruct (hp st' !! l) as [[items|es|ms| |fs hidden|m fs hidden]|]; try (by split);
    [pose proof (alike_open l (OArr []) st st' Ha) as Ho|pose proof (alike_open l (OMap []) st st' Ha) as Ho|
     pose proof (alike_open l (OSet []) st st' Ha) as Ho|pose proof (alike_open l (ORec [] []) st st' Ha) as Ho|
     pose proof (alike_sensitive (S left) (JRef l) st st' Ha) as Ho];
    repeat match goal with |- context [let '(_, _) := ?e in _] => destruct e as [? ?] end;
    destruct Ho as [Ho1 Ho2]; simpl in Ho1, Ho2; subst; (split; [done|]); simpl;
    eauto using alike_items, alike_members, alike_entries, alike_fields, alike_raise.
Qed.
End Strict.

(** ** What a traversal guarantees *)

(** Data a tool may return: no dangling reference, and no plain record with a
    [toJSON] function of its own. *)
Record plain_data (calls : positive -> option jv) (h : heap) (root : jv) : Prop := {
  pd_closed : closed_heap calls h;
  pd_root : refs_in h root;
  pd_own : forall l fs hidden g, h !! l = Some (ORec fs hidden) -> ("toJSON", JFun g) ∉ fs;
}.

(** The overrides of keys are strings. *)
Definition masks_strings (options : RedactionTraversalOptions) : Prop :=
  forall g k v v', handleKey options = Some g -> g k v = Some v' -> exists s, v' = JStr s.

(** Nothing is nested deeper than the limit. *)
Definition within_depth (calls : positive -> option jv) (options : RedactionTraversalOptions) (h : heap) (root : jv) : Prop :=
  depthExceeded (traverseAndRedact calls (strict options) h root).2 = false.

(** Whatever is shared or cyclic in the data, a traversal that reports nothing
    unredactable leaves no string that the redaction did not produce: not in the graph
    it returns, and, when it reports nothing modified, not in the original, which the
    caller then forwards. *)
Theorem redaction_reaches_everything calls options h root v st :
  plain_data calls h root -> masks_strings options -> within_depth calls options h root ->
  traverseAndRedact calls options h root = (v, st) -> unredactable st = false ->
  (forall s, reach (children calls (hp st)) v (JStr s) -> clean options s) /\
  (modified st = false -> forall s, reach (children calls h) root (JStr s) -> clean options s).
Proof.
  intros [Hc Hr Ho] Hm Hd Ht Hu. unfold within_depth in Hd.
  pose proof (walk_strict calls options (S (maxDepth options)) root (initial h) (initial h) ltac:(done)) as [Hv Ha].
  change (walk calls options _ root _) with (traverseAndRedact calls options h root) in Hv, Ha.
  change (walk calls (strict options) _ root _) with (traverseAndRedact calls (strict options) h root) in Hv, Ha.
  rewrite Ht in Hv, Ha. destruct (traverseAndRedact calls (strict options) h root) as [v' st'] eqn:Hs.
  simpl in Hv, Ha, Hd. subst v'.
  assert (good st') as Hg by (split; [done|by rewrite <- (a_un _ _ Ha)]).
  rewrite (a_hp _ _ Ha), (a_mod _ _ Ha). split.
  - by eapply (result_clean calls (strict options) h Hc).
  - intros Hmod. by eapply (unmodified_clean calls (strict options) h Hc).
Qed.

(** ** Concrete graphs *)

Module RedactionDemo.

(** Two records that hold each other, with a secret, and a shared list. *)
Definition graph : heap := {[
  1%positive := ORec [("name", JStr "ada"); ("peer", JRef 2); ("tags", JRef 3)] [];
  2%positive := ORec [("token", JStr "sk-1"); ("peer", JRef 1); ("tags", JRef 3)] [];
  3%positive := OArr [JStr "a"; JStr "sk-2"] ]}.

Definition no_calls (f : positive) : option jv := None.

Definition hide (s : string) : string := if starts_with "sk-" s then "[secret]" else s.
Definition opts (d : nat) (b : DepthExceededBehavior) : RedactionTraversalOptions := {|
  maxDepth := d; transformString := hide;
  handleKey := Some (fun k v => if bool_decide (k = "token") then Some (JStr "[key]") else None);
  onDepthExceeded := Some b; skipForbiddenKeys := None |}.

Example demo_walk :
  let '(v, st) := traverseAndRedact no_calls (opts 9 Deny) graph (JRef 1) in
  exists c1 c2 c3, v = JRef c1 /\ modified st = true /\ depthExceeded st = false /\
  hp st !! c1 = Some (ORec [("name", JStr "ada"); ("peer", JRef c2); ("tags", JRef c3)] []) /\
  hp st !! c2 = Some (ORec [("token", JStr "[key]"); ("peer", JRef c1); ("tags", JRef c3)] []) /\
  hp st !! c3 = Some (OArr [JStr "a"; JStr "[secret]"]).
Proof. vm_compute. eauto 15. Qed.

Lemma graph_plain : plain_data no_calls graph (JRef 1).
Proof.
  assert (forall l o, graph !! l = Some o -> l ∈ [1; 2; 3]%positive) as Hdom.
  { intros l o. unfold graph. intros Hl. apply elem_of_dom_2 in Hl. set_solver. }
  split.
  - split; [|done]. intros l o Hl. pose proof (Hdom l o Hl) as Hin. set_unfold in Hin.
    destruct Hin as [ ->| [ ->| [ ->| [] ] ] ]; vm_compute in Hl; injection Hl as <-; simpl;
      repeat constructor; intros k Hk; simplify_eq; vm_compute; eauto.
  - intros l [= <-]. vm_compute. eauto.
  - intros l fs hidden g Hl. pose proof (Hdom l _ Hl) as Hin. set_unfold in Hin.
    destruct Hin as [ ->| [ ->| [ ->| [] ] ] ]; vm_compute in Hl; try discriminate Hl; injection Hl as <- <-; set_solver.
Qed.

Lemma redaction_reaches_everything_witness :
  exists v st, traverseAndRedact no_calls (opts 9 Deny) graph (JRef 1) = (v, st) /\
    forall s, reach (children no_calls (hp st)) v (JStr s) -> clean (opts 9 Deny) s.
Proof.
  destruct (traverseAndRedact no_calls (opts 9 Deny) graph (JRef 1)) as [v st] eqn:Ht.
  exists v, st. split; [done|].
  refine (proj1 (redaction_reaches_everything no_calls (opts 9 Deny) graph (JRef 1) v st graph_plain _ _ Ht _)).
  - intros g k u u' [= <-]. case_bool_decide; [intros [= <-]; eauto|done].
  - unfold within_depth. by vm_compute.
  - vm_compute in Ht. by injection Ht as _ <-.
Defined.

(** A value shared by a path that meets the depth limit and by a shallow one. *)
Definition shared : heap := {[
  1%positive := OArr [JRef 2; JRef 4];
  2%positive := OArr [JRef 4];
  4%positive := OArr [JStr "sk-2"] ]}.

(** Passing through at the limit, the clone made on the deep path is reused on the
    shallow one: the secret two levels down is not redacted. *)
Example passthrough_shares_unredacted :
  let '(v, st) := traverseAndRedact no_calls (opts 2 Passthrough) shared (JRef 1) in
  exists c1 c2 c4, v = JRef c1 /\ hp st !! c1 = Some (OArr [JRef c2; JRef c4]) /\
    hp st !! c4 = Some (OArr [JStr "sk-2"]) /\ modified st = false.
Proof. vm_compute. eauto 10. Qed.

(** A plain record's own [toJSON] is cloned with it: what the record serializes to is
    not inspected. *)
Example own_toJSON_not_inspected :
  let calls := fun f => if bool_decide (f = 7%positive) then Some (JStr "sk-9") else None in
  let h := {[ 1%positive := ORec [("toJSON", JFun 7)] [] ]} in
  let '(v, st) := traverseAndRedact calls (opts 9 Deny) h (JRef 1) in
  depthExceeded st = false /\ unredactable st = false /\ modified st = false /\
  children calls h 1 = [JStr "sk-9"; JFun 7].
Proof. by vm_compute. Qed.
End RedactionDemo.
End RedactionSound.
