(* ===== verification/Types.v ===== *)
(** * The shared data of the core package

    The interfaces of packages/core/src/interfaces and the error classes of
    packages/core/src/errors.ts.  A TypeScript union is an inductive type with
    one constructor per alternative, an optional field an [option], a
    [Record<string, unknown>] an object. *)

From S2P Require Export Js.

#[local] Open Scope string_scope.
#[local] Open Scope list_scope.
#[local] Open Scope Z_scope.

(** ** Provenance (provenance.interface.ts) *)

Inductive ProvenanceSource : Type := SrcModel | SrcTool | SrcExternal | SrcUser.

Record Provenance : Type := { prov_source : ProvenanceSource; prov_origin : option string }.

(** The label every governed tool output carries. *)
Definition tool_provenance (toolName : string) : Provenance :=
  {| prov_source := SrcTool; prov_origin := Some toolName |}.

Definition source_name (s : ProvenanceSource) : string :=
  match s with
  | SrcModel => "model" | SrcTool => "tool" | SrcExternal => "external" | SrcUser => "user"
  end.

Definition provenance_value (p : Provenance) : value :=
  VObj [("source", VStr (source_name (prov_source p))); ("origin", opt_str (prov_origin p))].

(** ** Context (agent-context.interface.ts)

    [ctx_signal] says whether the context is linked to the caller's live abort
    signal; [deadline] is in milliseconds. *)

Record AgentSecurityContext : Type := {
  userId : option string;
  tenantId : option string;
  roles : option (list string);
  permissions : option (list string);
}.

Record AgentContext : Type := {
  security : AgentSecurityContext;
  ctx_sessionId : string;
  ctx_traceId : string;
  ctx_parentTraceId : option string;
  ctx_rootTraceId : option string;
  ctx_data : option obj;
  ctx_signal : bool;
  deadline : option Z;
}.

(** ** Tools (tool.interface.ts) *)

Inductive ParamType : Type := PString | PNumber | PBoolean | PObject | PArray.

Record ToolParamSchema : Type := {
  param_name : string;
  param_description : option string;
  param_type : ParamType;
  param_required : bool;
}.

Inductive ToolExecutionResult : Type :=
| ToolSuccess (data : value) (provenance : option Provenance)
| ToolDenied (reason : string) (provenance : option Provenance)
| ToolPending (reason approvalId : string) (requiredApprovals signatures : option Z)
    (provenance : option Provenance).

Definition result_success (r : ToolExecutionResult) : bool :=
  match r with ToolSuccess _ _ => true | _ => false end.

Definition result_provenance (r : ToolExecutionResult) : option Provenance :=
  match r with ToolSuccess _ p | ToolDenied _ p | ToolPending _ _ _ _ p => p end.

Definition opt_num (o : option Z) : value :=
  match o with Some z => VNum (num_of_Z z) | None => VUndef end.
Definition opt_provenance (o : option Provenance) : value :=
  match o with Some p => provenance_value p | None => VUndef end.

(** The object a tool result is, its fields in the order the code writes them. *)
Definition result_value (r : ToolExecutionResult) : value :=
  match r with
  | ToolSuccess d p =>
      VObj [("success", VBool true); ("data", d); ("provenance", opt_provenance p)]
  | ToolDenied rs p =>
      VObj [("success", VBool false); ("status", VStr "denied"); ("reason", VStr rs);
            ("provenance", opt_provenance p)]
  | ToolPending rs id req sg p =>
      VObj [("success", VBool false); ("status", VStr "pending_approval"); ("reason", VStr rs);
            ("approvalId", VStr id); ("requiredApprovals", opt_num req);
            ("signatures", opt_num sg); ("provenance", opt_provenance p)]
  end.

(** ** Model messages (model.interface.ts) *)

Record ModelToolSchema : Type := {
  schema_name : string;
  schema_description : string;
  schema_parameters : list ToolParamSchema;
}.

Record ModelToolCall : Type := { call_id : string; call_name : string; call_args : obj }.

Inductive ModelMessage : Type :=
| SystemMsg (content : string)
| UserMsg (content : string)
| AssistantMsg (content : string) (toolCalls : option (list ModelToolCall))
| ToolMsg (toolCallId toolName content : string) (provenance : option Provenance).

Inductive Role : Type := RSystem | RUser | RAssistant | RTool.
#[export] Instance role_eq_dec : EqDecision Role.
Proof. solve_decision. Defined.

Definition role (m : ModelMessage) : Role :=
  match m with
  | SystemMsg _ => RSystem | UserMsg _ => RUser
  | AssistantMsg _ _ => RAssistant | ToolMsg _ _ _ _ => RTool
  end.

Definition msg_content (m : ModelMessage) : string :=
  match m with SystemMsg c | UserMsg c | AssistantMsg c _ | ToolMsg _ _ c _ => c end.

(** [message.toolCalls ?? []] of an assistant message, [] of any other. *)
Definition tool_calls (m : ModelMessage) : list ModelToolCall :=
  match m with AssistantMsg _ (Some cs) => cs | _ => [] end.

Record ModelUsage : Type := {
  inputTokens : option Z;
  outputTokens : option Z;
  totalTokens : option Z;
}.

Definition no_usage : ModelUsage := {| inputTokens := None; outputTokens := None; totalTokens := None |}.

Inductive ModelFinishReason : Type :=
| FinishStop | FinishToolCalls | FinishLength | FinishContentFilter | FinishUnknown.

Record ModelRequestMetadata : Type := {
  meta_sessionId : string;
  meta_traceId : string;
  meta_executionId : string;
  meta_iteration : Z;
}.

Record ModelOutputFormat : Type := {
  format_name : string;
  format_schema : obj;
  format_description : option string;
  format_strict : bool;
}.

Record ModelConfig : Type := { provider : option string; model_name : string; model_options : obj }.

Record ModelRequest : Type := {
  req_model : ModelConfig;
  req_messages : list ModelMessage;
  req_tools : list ModelToolSchema;
  req_outputFormat : option ModelOutputFormat;
  req_metadata : ModelRequestMetadata;
}.

(** [resp_extra] holds the provider-specific fields of the index signature. *)
Record ModelResponse : Type := {
  resp_content : string;
  resp_toolCalls : option (list ModelToolCall);
  resp_usage : option ModelUsage;
  resp_finishReason : option ModelFinishReason;
  resp_refusal : option string;
  resp_extra : obj;
}.

Inductive ModelStreamChunk : Type :=
| TokenChunk (text : string)
| ResponseChunk (response : ModelResponse).

(** ** Errors (errors.ts) *)

Inductive ExecutionLimitKind : Type := LMaxIterations | LMaxToolCalls | LTimeout | LMaxTotalTokens.

Definition limit_kind_name (k : ExecutionLimitKind) : string :=
  match k with
  | LMaxIterations => "max_iterations" | LMaxToolCalls => "max_tool_calls"
  | LTimeout => "timeout" | LMaxTotalTokens => "max_total_tokens"
  end.

(** The subclasses of [AgenticError], with the fields they keep. *)
Inductive agentic_error : Type :=
| ToolValidationError (toolName : string) (issues : list string)
| ExecutionLimitExceededError (kind : ExecutionLimitKind) (limit : Z)
| ExecutionCancelledError (reason : option string)
| PolicyNotRegisteredError (policyName : string)
| RuntimeNotConfiguredError
| ApprovalNotFoundError (approvalId : string)
| ApprovalExpiredError (approvalId : string) (expiredAt : Z)
| ApprovalNotAuthorizedError (approvalId reason : string)
| ApprovalToolNotFoundError (toolName : string)
| ApprovalSignaturesUnsupportedError (approvalId : string)
| ApprovalTranscriptMissingError (toolCallId : string)
| ApprovalCheckpointVersionError (approvalId : string) (found supported : Z)
| InFlightCheckpointVersionError (executionId : string) (found supported : Z)
| CheckpointNotFoundError (identifier : string)
| MessageReducerContractError (reason : string)
| CascadeExhaustedError (tiersAttempted : Z) (lastConfidence threshold : num) (lastModelName : string)
| CascadeConfigurationError (reason : string)
| StructuredOutputError (output : string) (issues : list string) (attempts : Z) (refusal : option string)
| StructuredOutputNotSupportedError (agentName : string)
| InvalidOutputSchemaError (problems : list string).

Notation error := (js_error agentic_error).

Definition agentic_message (e : agentic_error) : string :=
  match e with
  | ToolValidationError n iss =>
      "Invalid arguments for tool " +:+ in_quotes n +:+ ": " +:+ join "; " iss
  | ExecutionLimitExceededError k l =>
      "Execution stopped: " +:+ limit_kind_name k +:+ " limit of " +:+ Z_to_string l +:+ " was reached."
  | ExecutionCancelledError r =>
      match r with
      | Some s => if truthy s then "Execution cancelled: " +:+ s else "Execution cancelled."
      | None => "Execution cancelled."
      end
  | PolicyNotRegisteredError n =>
      "Policy " +:+ in_quotes n +:+ " is not registered. " +:+
      "Add it to AgenticModule.forFeature({ policies: [" +:+ n +:+ "] })."
  | RuntimeNotConfiguredError =>
      "No runtime is configured. Register a ModelAdapter with the MODEL_ADAPTER token " +:+
      "to use the built-in agent runtime, or a RuntimeAdapter with RUNTIME_ADAPTER " +:+
      "to delegate execution to an external runtime."
  | ApprovalNotFoundError id =>
      "Approval " +:+ in_quotes id +:+ " not found or has already been processed."
  | ApprovalExpiredError id t =>
      "Approval " +:+ in_quotes id +:+ " expired at " +:+ iso_string t +:+
      " and can no longer be resolved."
  | ApprovalNotAuthorizedError id r =>
      "Not authorized to settle approval " +:+ in_quotes id +:+ ": " +:+ r
  | ApprovalToolNotFoundError n =>
      "Tool " +:+ in_quotes n +:+ " was not found while resuming a pending approval."
  | ApprovalSignaturesUnsupportedError id =>
      "Approval " +:+ in_quotes id +:+ " requires multiple approvers, but the configured ApprovalStore " +:+
      "does not implement addSignature()."
  | ApprovalTranscriptMissingError id =>
      "Could not resume: no suspended tool call " +:+ in_quotes id +:+ " was found in the " +:+
      "approval checkpoint or the conversation history. The session may have " +:+
      "been cleared or trimmed."
  | ApprovalCheckpointVersionError id f s =>
      "Approval " +:+ in_quotes id +:+ " has a checkpoint of version " +:+ Z_to_string f +:+ ", but this " +:+
      "release supports version " +:+ Z_to_string s +:+ ". The approval cannot be resumed safely."
  | InFlightCheckpointVersionError id f s =>
      "Execution checkpoint " +:+ in_quotes id +:+ " has version " +:+ Z_to_string f +:+ ", but this " +:+
      "release supports version " +:+ Z_to_string s +:+ ". The checkpoint cannot be resumed safely."
  | CheckpointNotFoundError id =>
      "Execution checkpoint " +:+ in_quotes id +:+ " was not found or has expired."
  | MessageReducerContractError r => "Message reducer produced an invalid projection: " +:+ r
  | CascadeExhaustedError n c t m =>
      "Model cascade exhausted: Attempted " +:+ Z_to_string n +:+ " tiers. Final model " +:+ in_quotes m +:+
      " achieved confidence " +:+ to_fixed 2 c +:+ ", below required threshold " +:+ to_fixed 2 t +:+ "."
  | CascadeConfigurationError r => "Invalid Model Cascade configuration: " +:+ r
  | StructuredOutputError _ iss n _ =>
      "The final answer did not match the output schema after " +:+ Z_to_string n +:+
      " repair attempt(s): " +:+ join "; " (take 3 iss)
  | StructuredOutputNotSupportedError n =>
      "Agent " +:+ in_quotes n +:+ " requests an outputSchema, which needs the built-in runtime. " +:+
      "Register a ModelAdapter, or remove the outputSchema."
  | InvalidOutputSchemaError ps => "The outputSchema is invalid: " +:+ join "; " ps
  end.

(** [err instanceof Error ? err.message : String(err)] *)
Definition error_text (e : error) : string :=
  match e with
  | AgenticErr a => agentic_message a
  | NativeErr _ m => m
  | NonError r => r
  end.

(** ** Execution (execution.interface.ts) *)

Record ExecutionLimits : Type := {
  maxIterations : option Z;
  maxToolCalls : option Z;
  timeoutMs : option Z;
  maxTotalTokens : option Z;
}.

Definition DEFAULT_MAX_ITERATIONS : Z := 10.
Definition DEFAULT_MAX_TOOL_CALLS : Z := 32.

Inductive ToolErrorHandling : Type := Report | ThrowErrors.
#[export] Instance teh_eq_dec : EqDecision ToolErrorHandling.
Proof. solve_decision. Defined.
Definition DEFAULT_TOOL_ERROR_HANDLING : ToolErrorHandling := Report.

Definition INFLIGHT_CHECKPOINT_VERSION : Z := 1.
Definition DEFAULT_CHECKPOINT_TTL_SECONDS : Z := 86400.

(** ** Structured output (structured-output.interface.ts) *)

Record StoredStructuredOutput : Type := {
  so_schema : obj;
  so_name : option string;
  so_description : option string;
  so_strict : option bool;
  so_maxRepairAttempts : option num;
}.

Inductive StructuredOutputValidation : Type :=
| Valid (v : value)
| Invalid (issues : list string).

Record InFlightCheckpoint : Type := {
  cp_version : Z;
  cp_executionId : string;
  cp_sessionId : string;
  cp_iteration : Z;
  cp_messages : list ModelMessage;
  cp_usage : ModelUsage;
  cp_toolCallCount : Z;
  cp_updatedAt : Z;
  cp_structuredOutput : option StoredStructuredOutput;
  cp_repairAttempts : option Z;
  cp_repair : option (list ModelMessage);
}.

(** ** Results and stream events (runtime.interface.ts, agent-stream.interface.ts) *)

(** Payload reported to the model when a tool throws (agent-executor.service.ts). *)
Record ToolFailurePayload : Type := { failure_error : string; failure_provenance : option Provenance }.

(** A recorded result is a tool's result or the payload of its failure, which have
    a [success] field, or, in a record of another runtime, a value without one. *)
Inductive RecordedResult : Type :=
| RResult (r : ToolExecutionResult)
| RFailure (f : ToolFailurePayload)
| RValue (v : value).

Record ToolCallRecord : Type := { rec_toolName : string; rec_args : obj; rec_result : RecordedResult }.

Record AgentResult : Type := {
  res_sessionId : string;
  res_output : string;
  res_toolCalls : list ToolCallRecord;
  res_usage : option ModelUsage;
  res_durationMs : option Z;
  res_structured : option value;
}.

Inductive AgentStreamEvent : Type :=
| EvThought (thought : string)
| EvActionCall (id : string) (toolName : string) (args : obj)
| EvActionObservation (id : string) (toolName : string) (result : RecordedResult)
| EvFinalAnswer (sessionId output : string) (usage : option ModelUsage) (structured : option value)
| EvOutputRejected (attempt : Z) (issues : list string)
| EvToken (text : string)
| EvApprovalRequired (id toolName approvalId reason : string)
| EvToolStart (id : string) (toolName : string) (args : obj)
| EvToolResult (id : string) (toolName : string) (result : RecordedResult)
| EvToolError (id : string) (toolName : string) (err : string)
| EvComplete (sessionId output : string).
