(* ===== verification/Num.v ===== *)
(** * Arithmetic on JavaScript numbers

    The arithmetic operators and the functions of [Math] the program uses, on the
    exact decimals of Js.v, with their meaning as rationals. *)

From Stdlib Require Export QArith Qminmax Qpower Lqa.
From S2P Require Export Js.

#[local] Open Scope Z_scope.

(** [a < b] *)
Definition num_ltb (a b : num) : bool := num_le a b && negb (num_le b a).

(** The two mantissas at the smaller exponent. *)
Definition aligned (f : Z -> Z -> Z) (m1 e1 m2 e2 : Z) : num :=
  let e := Z.min e1 e2 in mk_num (f (m1 * 10 ^ (e1 - e)) (m2 * 10 ^ (e2 - e))) e.

Definition num_opp (a : num) : num :=
  match a with NDec m e => NDec (- m) e | NNaN => NNaN | NInf b => NInf (negb b) end.

Definition num_add (a b : num) : num :=
  match a, b with
  | NDec m1 e1, NDec m2 e2 => aligned Z.add m1 e1 m2 e2
  | NNaN, _ | _, NNaN => NNaN
  | NInf x, NInf y => if Bool.eqb x y then NInf x else NNaN
  | NInf x, _ | _, NInf x => NInf x
  end.

Definition num_sub (a b : num) : num := num_add a (num_opp b).

Definition num_sign (a : num) : Z :=
  match a with NDec m _ => Z.sgn m | NInf true => -1 | NInf false => 1 | NNaN => 0 end.

Definition num_mul (a b : num) : num :=
  match a, b with
  | NDec m1 e1, NDec m2 e2 => mk_num (m1 * m2) (e1 + e2)
  | NNaN, _ | _, NNaN => NNaN
  | _, _ => let s := num_sign a * num_sign b in
            if s =? 0 then NNaN else NInf (s <? 0)
  end.

(** [Math.min(a, b)] and [Math.max(a, b)]: NaN when either is. *)
Definition num_min (a b : num) : num :=
  match a, b with
  | NNaN, _ | _, NNaN => NNaN
  | _, _ => if num_le a b then a else b
  end.
Definition num_max (a b : num) : num :=
  match a, b with
  | NNaN, _ | _, NNaN => NNaN
  | _, _ => if num_le a b then b else a
  end.

(** The largest integer not above a decimal. *)
Definition dec_floor (m e : Z) : Z := if 0 <=? e then m * 10 ^ e else m / 10 ^ (- e).

Definition num_floor (a : num) : num :=
  match a with NDec m e => num_of_Z (dec_floor m e) | _ => a end.
Definition num_ceil (a : num) : num :=
  match a with NDec m e => num_of_Z (- dec_floor (- m) e) | _ => a end.
(** [Math.round]: halves go up. *)
Definition num_round (a : num) : num :=
  match a with
  | NDec m e =>
      if 0 <=? e then a else num_of_Z ((2 * m + 10 ^ (- e)) / (2 * 10 ^ (- e)))
  | _ => a
  end.

(** An integer-valued number. *)
Definition num_to_Z (a : num) : option Z :=
  match a with
  | NDec m e => if 0 <=? e then Some (m * 10 ^ e) else None
  | _ => None
  end.

(** [Number.isInteger(n) && n >= 1] *)
Definition positive_integer (n : num) : option Z :=
  match num_to_Z n with
  | Some z => if 1 <=? z then Some z else None
  | None => None
  end.

(** ** Meaning as rationals *)

#[local] Open Scope Q_scope.

Definition dec_Q (m e : Z) : Q := inject_Z m * inject_Z 10 ^ e.
Definition num_Q (a : num) : option Q := match a with NDec m e => Some (dec_Q m e) | _ => None end.

Lemma ten_nonzero : ~ inject_Z 10 == 0.
Proof. done. Qed.

Lemma ten_pos e : 0 < inject_Z 10 ^ e.
Proof. apply Qpower_0_lt. done. Qed.

Lemma ten_Z e : (0 <= e)%Z -> inject_Z (10 ^ e) == inject_Z 10 ^ e.
Proof. intros H. by rewrite <- Zpower_Qpower. Qed.

(** Scaling the mantissa down to a smaller exponent keeps the value. *)
Lemma dec_Q_scale m e e' : (e' <= e)%Z -> dec_Q (m * 10 ^ (e - e')) e' == dec_Q m e.
Proof.
  intros H. unfold dec_Q. rewrite inject_Z_mult, ten_Z by lia.
  rewrite <- Qmult_assoc, <- Qpower_plus by apply ten_nonzero.
  by replace (e - e' + e')%Z with e by lia.
Qed.

Lemma num_le_Q m1 e1 m2 e2 :
  num_le (NDec m1 e1) (NDec m2 e2) = true <-> dec_Q m1 e1 <= dec_Q m2 e2.
Proof.
  simpl. rewrite Z.leb_le.
  rewrite <- (dec_Q_scale m1 e1 (Z.min e1 e2)), <- (dec_Q_scale m2 e2 (Z.min e1 e2)) by lia.
  unfold dec_Q. rewrite Qmult_le_r by apply ten_pos. by rewrite <- Zle_Qle.
Qed.

Lemma strip_zeros_Q fuel m e : let '(m', e') := strip_zeros fuel m e in dec_Q m' e' == dec_Q m e.
Proof.
  revert m e. induction fuel as [|fuel IH]; intros m e; simpl; [done|].
  destruct ((e <? 0)%Z && (m mod 10 =? 0)%Z) eqn:H; [|done].
  apply andb_prop in H as [_ Hm%Z.eqb_eq].
  specialize (IH (m / 10)%Z (e + 1)%Z). destruct (strip_zeros _ _ _) as [m' e'].
  rewrite IH, <- (dec_Q_scale _ (e + 1) e) by lia.
  replace (e + 1 - e)%Z with 1%Z by lia. change (10 ^ 1)%Z with 10%Z.
  by replace (m / 10 * 10)%Z with m by (pose proof (Z.div_mod m 10 ltac:(lia)); lia).
Qed.

(** A number built from a mantissa and an exponent has their value, unless it
    overflows. *)
Lemma mk_num_Q m e a : mk_num m e = a -> num_Q a = None \/ exists q, num_Q a = Some q /\ q == dec_Q m e.
Proof.
  unfold mk_num. destruct (Z.eqb_spec m 0) as [->|_].
  - intros <-. right. eexists. split; [done|]. unfold dec_Q. by rewrite !Qmult_0_l.
  - destruct (overflows m e); [intros <-; by left|].
    destruct (Z.leb_spec 0 e) as [He|He].
    + intros <-. right. eexists. split; [done|].
      rewrite <- (dec_Q_scale m e 0) by done. by rewrite Z.sub_0_r.
    + pose proof (strip_zeros_Q (Z.to_nat (- e)) m e) as H. destruct (strip_zeros _ _ _) as [m' e'].
      intros <-. right. by eexists.
Qed.

Lemma dec_Q_opp m e : dec_Q (- m) e == - dec_Q m e.
Proof. unfold dec_Q. rewrite inject_Z_opp. ring. Qed.

Lemma dec_Q_mul m1 e1 m2 e2 : dec_Q (m1 * m2) (e1 + e2) == dec_Q m1 e1 * dec_Q m2 e2.
Proof. unfold dec_Q. rewrite inject_Z_mult, Qpower_plus by apply ten_nonzero. ring. Qed.

Lemma dec_Q_add m1 e1 m2 e2 :
  dec_Q (m1 * 10 ^ (e1 - Z.min e1 e2) + m2 * 10 ^ (e2 - Z.min e1 e2)) (Z.min e1 e2) ==
  dec_Q m1 e1 + dec_Q m2 e2.
Proof.
  rewrite <- (dec_Q_scale m1 e1 (Z.min e1 e2)), <- (dec_Q_scale m2 e2 (Z.min e1 e2)) by lia.
  unfold dec_Q. rewrite inject_Z_plus. ring.
Qed.

(** ** Finite arithmetic *)

(** [a] is finite with a value satisfying [P]. *)
Definition finite_in (P : Q -> Prop) (a : num) : Prop := exists q, num_Q a = Some q /\ P q.

Lemma finite_mono (P P' : Q -> Prop) a : (forall q, P q -> P' q) -> finite_in P a -> finite_in P' a.
Proof. intros H (q & Hq & HP). exists q. auto. Qed.

Lemma num_of_Z_Q z : num_Q (num_of_Z z) = Some (dec_Q z 0).
Proof. done. Qed.

Lemma dec_Q_int z : dec_Q z 0 == inject_Z z.
Proof. unfold dec_Q. simpl. ring. Qed.

Lemma num_le_finite a b p q : num_Q a = Some p -> num_Q b = Some q -> num_le a b = true <-> p <= q.
Proof. destruct a, b; try done. intros [= <-] [= <-]. apply num_le_Q. Qed.

Lemma mul_finite a b p q c r :
  num_Q a = Some p -> num_Q b = Some q -> num_mul a b = c -> num_Q c = Some r -> r == p * q.
Proof.
  destruct a as [m1 e1| |], b as [m2 e2| |]; try done. intros [= <-] [= <-] Hc Hr. simpl in Hc.
  apply mk_num_Q in Hc as [Hc|(s & Hs & Heq)]; [congruence|]. rewrite Hr in Hs. injection Hs as <-.
  by rewrite Heq, dec_Q_mul.
Qed.

(** [Math.min] of finite numbers is their minimum. *)
Lemma num_min_Q a b p q : num_Q a = Some p -> num_Q b = Some q -> finite_in (fun r => r == Qmin p q) (num_min a b).
Proof.
  intros Ha Hb.
  assert (num_min a b = if num_le a b then a else b) as -> by (by destruct a, b).
  destruct (num_le a b) eqn:Hle.
  - exists p. split; [done|]. apply (num_le_finite a b p q Ha Hb) in Hle. by rewrite Q.min_l.
  - exists q. split; [done|]. rewrite Q.min_r; [done|]. apply Qlt_le_weak, Qnot_le_lt. intros H.
    by rewrite (proj2 (num_le_finite a b p q Ha Hb) H) in Hle.
Qed.

Lemma num_max_Q a b p q : num_Q a = Some p -> num_Q b = Some q -> finite_in (fun r => r == Qmax p q) (num_max a b).
Proof.
  intros Ha Hb.
  assert (num_max a b = if num_le a b then b else a) as -> by (by destruct a, b).
  destruct (num_le a b) eqn:Hle.
  - exists q. split; [done|]. apply (num_le_finite a b p q Ha Hb) in Hle. by rewrite Q.max_r.
  - exists p. split; [done|]. rewrite Q.max_l; [done|]. apply Qlt_le_weak, Qnot_le_lt. intros H.
    by rewrite (proj2 (num_le_finite a b p q Ha Hb) H) in Hle.
Qed.

(** [Math.round] of a finite number is an integer within a half of it. *)
Lemma num_round_Q m e :
  exists z, finite_in (fun q => q == inject_Z z) (num_round (NDec m e)) /\
    inject_Z z - (1 # 2) <= dec_Q m e < inject_Z z + (1 # 2).
Proof.
  simpl. destruct (Z.leb_spec 0 e) as [He|He].
  - exists (m * 10 ^ e)%Z.
    assert (dec_Q m e == inject_Z (m * 10 ^ e)) as H
      by (rewrite <- (dec_Q_scale m e 0), Z.sub_0_r, dec_Q_int by done; done).
    split; [by eexists|]. rewrite H. lra.
  - eexists. split; [eexists; split; [done|apply dec_Q_int]|].
    set (d := (10 ^ (- e))%Z). assert (0 < d)%Z as Hd by (apply Z.pow_pos_nonneg; lia).
    set (k := ((2 * m + d) / (2 * d))%Z).
    assert (dec_Q m e * inject_Z d == inject_Z m) as Hm.
    { unfold dec_Q, d. rewrite ten_Z by lia. rewrite <- Qmult_assoc, <- Qpower_plus by apply ten_nonzero.
      rewrite Z.add_opp_diag_r. simpl. ring. }
    assert (2 * d * k <= 2 * m + d < 2 * d * k + 2 * d)%Z as [H1 H2].
    { pose proof (Z.div_mod (2 * m + d) (2 * d) ltac:(lia)).
      pose proof (Z.mod_pos_bound (2 * m + d) (2 * d) ltac:(lia)). fold k in H. lia. }
    rewrite Zle_Qle in H1. rewrite Zlt_Qlt in H2.
    change (inject_Z 2) with 2 in *.
    assert (0 < inject_Z d) as Hd' by (by rewrite <- (Zlt_Qlt 0)).
    assert (inject_Z (2 * d * k) == 2 * (inject_Z k * inject_Z d)) as E1
      by (rewrite !inject_Z_mult; change (inject_Z 2) with 2; ring).
    assert (inject_Z (2 * m + d) == 2 * (dec_Q m e * inject_Z d) + inject_Z d) as E2
      by (rewrite inject_Z_plus, inject_Z_mult, Hm; by change (inject_Z 2) with 2).
    assert (inject_Z (2 * d * k + 2 * d) == 2 * (inject_Z k * inject_Z d) + 2 * inject_Z d) as E3
      by (rewrite inject_Z_plus, !inject_Z_mult; change (inject_Z 2) with 2; ring).
    rewrite E1, E2 in H1. rewrite E2, E3 in H2.
    set (x := dec_Q m e) in *. set (D := inject_Z d) in *. set (K := inject_Z k) in *. clearbody x D K.
    clear E1 E2 E3 Hm.
    split; [apply (proj1 (Qmult_le_r _ _ D Hd'))|apply (proj1 (Qmult_lt_r _ _ D Hd'))];
      rewrite ?Qmult_minus_distr_r, ?Qmult_plus_distr_l; lra.
Qed.

(** ** No overflow below [2 ** 1024] *)

(** Doubles are below this value. *)
Definition double_limit : Z := 2 ^ 1024.

Definition is_double (a : num) : Prop :=
  finite_in (fun q => - inject_Z double_limit < q < inject_Z double_limit) a.

Lemma double_limit_ten : (double_limit < 10 ^ 400)%Z.
Proof. by vm_compute. Qed.

Lemma overflows_large m e :
  m <> 0%Z -> overflows m e = true -> inject_Z double_limit <= dec_Q (Z.abs m) e.
Proof.
  intros Hm. unfold overflows. fold double_limit. destruct (Z.leb_spec 0 e) as [He|He].
  - intros H. rewrite <- (dec_Q_scale (Z.abs m) e 0), Z.sub_0_r, dec_Q_int, <- Zle_Qle by done.
    apply orb_prop in H as [H%Z.ltb_lt|H%Z.leb_le]; [|done].
    pose proof (Z.pow_le_mono_r 10 400 e ltac:(lia) ltac:(lia)). pose proof double_limit_ten.
    assert (1 <= Z.abs m)%Z by lia. nia.
  - intros H%Z.leb_le.
    assert (inject_Z (10 ^ (- e)) * inject_Z 10 ^ e == 1) as Hinv.
    { rewrite ten_Z by lia. rewrite <- Qpower_plus by apply ten_nonzero.
      by replace (- e + e)%Z with 0%Z by lia. }
    unfold dec_Q. rewrite <- (Qmult_1_r (inject_Z double_limit)), <- Hinv, Qmult_assoc.
    apply Qmult_le_compat_r; [|apply Qlt_le_weak, ten_pos].
    by rewrite <- inject_Z_mult, <- Zle_Qle.
Qed.

Lemma dec_Q_abs m e : dec_Q (Z.abs m) e == dec_Q m e \/ dec_Q (Z.abs m) e == - dec_Q m e.
Proof.
  destruct (Z.abs_spec m) as [[_ ->]|[_ ->]]; [by left|right]. apply dec_Q_opp.
Qed.

Lemma mk_num_finite m e :
  - inject_Z double_limit < dec_Q m e < inject_Z double_limit ->
  finite_in (fun q => q == dec_Q m e) (mk_num m e).
Proof.
  intros [Hlo Hhi]. destruct (mk_num_Q m e _ eq_refl) as [Hn|(q & Hq & He)]; [|by exists q].
  exfalso. revert Hn. unfold mk_num. destruct (Z.eqb_spec m 0) as [->|Hm]; [done|].
  destruct (overflows m e) eqn:Ho.
  - apply overflows_large in Ho; [|done]. destruct (dec_Q_abs m e) as [Ha|Ha]; lra.
  - destruct (0 <=? e)%Z; [done|]. by destruct (strip_zeros _ _ _).
Qed.

Lemma num_mul_finite a b p q :
  num_Q a = Some p -> num_Q b = Some q -> - inject_Z double_limit < p * q < inject_Z double_limit ->
  finite_in (fun r => r == p * q) (num_mul a b).
Proof.
  destruct a as [m1 e1| |], b as [m2 e2| |]; try done. intros [= <-] [= <-] H. rewrite <- dec_Q_mul in H.
  apply mk_num_finite in H. eapply finite_mono; [|exact H]. intros r ->. apply dec_Q_mul.
Qed.

Lemma num_add_finite a b p q :
  num_Q a = Some p -> num_Q b = Some q -> - inject_Z double_limit < p + q < inject_Z double_limit ->
  finite_in (fun r => r == p + q) (num_add a b).
Proof.
  destruct a as [m1 e1| |], b as [m2 e2| |]; try done. intros [= <-] [= <-] H. rewrite <- dec_Q_add in H.
  apply mk_num_finite in H. eapply finite_mono; [|exact H]. intros r ->. apply dec_Q_add.
Qed.

Lemma num_opp_Q a p : num_Q a = Some p -> finite_in (fun r => r == - p) (num_opp a).
Proof. destruct a as [m e| |]; try done. intros [= <-]. eexists. split; [done|]. apply dec_Q_opp. Qed.

Lemma num_sub_finite a b p q :
  num_Q a = Some p -> num_Q b = Some q -> - inject_Z double_limit < p - q < inject_Z double_limit ->
  finite_in (fun r => r == p - q) (num_sub a b).
Proof.
  intros Ha Hb Hr. destruct (num_opp_Q b q Hb) as (r & Ho & He).
  eapply finite_mono; [|apply (num_add_finite a _ p r Ha Ho)].
  - intros x Hx. simpl in Hx. rewrite Hx, He. ring.
  - rewrite He. exact Hr.
Qed.

Lemma double_limit_big : 2 < inject_Z double_limit.
Proof. change 2 with (inject_Z 2). rewrite <- Zlt_Qlt. by vm_compute. Qed.

Lemma mk_num_number m e : mk_num m e <> NNaN.
Proof.
  unfold mk_num. destruct (m =? 0)%Z; [done|]. destruct (overflows m e); [done|].
  destruct (0 <=? e)%Z; [done|]. by destruct (strip_zeros _ _ _).
Qed.

(** A finite number that is not negative, or positive infinity. *)
Definition nonneg (a : num) : Prop := a = NInf false \/ finite_in (fun q => 0 <= q) a.

Lemma dec_Q_nonneg m e : 0 <= dec_Q m e <-> (0 <= m)%Z.
Proof.
  unfold dec_Q. rewrite <- (Qmult_0_l (inject_Z 10 ^ e)), Qmult_le_r by apply ten_pos.
  by rewrite (Zle_Qle 0).
Qed.

Lemma mk_num_nonneg m e : (0 <= m)%Z -> nonneg (mk_num m e).
Proof.
  intros Hm. destruct (mk_num_Q m e _ eq_refl) as [Hn|(q & Hq & He)].
  - left. revert Hn. unfold mk_num. destruct (m =? 0)%Z; [done|]. destruct (overflows m e).
    + by destruct (Z.ltb_spec m 0); [lia|].
    + destruct (0 <=? e)%Z; [done|]. by destruct (strip_zeros _ _ _).
  - right. exists q. split; [done|]. rewrite He. by apply dec_Q_nonneg.
Qed.

Lemma num_mul_nonneg a b p q :
  num_Q a = Some p -> num_Q b = Some q -> 0 <= p -> 0 <= q -> nonneg (num_mul a b).
Proof.
  destruct a as [m1 e1| |], b as [m2 e2| |]; try done. intros [= <-] [= <-] H1%dec_Q_nonneg H2%dec_Q_nonneg.
  apply mk_num_nonneg. lia.
Qed.

Lemma num_min_nonneg a b top :
  nonneg a -> num_Q b = Some top -> 0 <= top -> finite_in (fun q => 0 <= q <= top) (num_min a b).
Proof.
  intros [->|(p & Hp & H0)] Hb Ht.
  - exists top. split; [by destruct b|]. split; [done|apply Qle_refl].
  - eapply finite_mono; [|apply (num_min_Q a b p top Hp Hb)]. intros q Hq. simpl in Hq. rewrite Hq.
    split; [by apply Q.min_glb|apply Q.le_min_r].
Qed.

Lemma num_max_nonneg a : a <> NNaN -> nonneg (num_max (num_of_Z 0) a).
Proof.
  destruct a as [m e| |[]]; try done; [|by right; eexists|by left].
  intros _. right. eapply finite_mono; [|by apply num_max_Q].
  intros q Hq. simpl in Hq. rewrite Hq. eapply Qle_trans; [|apply Q.le_max_l].
  unfold dec_Q. by rewrite Qmult_0_l.
Qed.

#[global] Opaque double_limit.

(** ** Order *)

Lemma num_le_refl a : a <> NNaN -> num_le a a = true.
Proof. destruct a as [m e| |[]]; try done. intros _. apply num_le_Q. lra. Qed.

Lemma num_le_total a b : a <> NNaN -> b <> NNaN -> num_le a b = true \/ num_le b a = true.
Proof.
  destruct a as [m1 e1| |[]], b as [m2 e2| |[]]; try done; auto. intros _ _. rewrite !num_le_Q.
  destruct (Qlt_le_dec (dec_Q m2 e2) (dec_Q m1 e1)); [right; lra|by left].
Qed.

Lemma num_le_trans a b c : num_le a b = true -> num_le b c = true -> num_le a c = true.
Proof.
  destruct a as [m1 e1| |[]], b as [m2 e2| |[]], c as [m3 e3| |[]]; try done. rewrite !num_le_Q. lra.
Qed.

(** [(a, b) => a - b] as a comparator says [a] may stand before [b]: ties and NaN
    included. *)
Definition num_order (a b : num) : bool := negb (num_ltb b a).

Lemma num_order_le a b : a <> NNaN -> b <> NNaN -> num_order a b = num_le a b.
Proof.
  intros Ha Hb. unfold num_order, num_ltb. destruct (num_le a b) eqn:H1; [by rewrite andb_false_r|].
  destruct (num_le_total a b Ha Hb) as [H|H]; [congruence|]. by rewrite H.
Qed.

Lemma num_order_total a b : a <> NNaN -> b <> NNaN -> num_order a b = true \/ num_order b a = true.
Proof. intros Ha Hb. rewrite !num_order_le by done. by apply num_le_total. Qed.

Lemma num_order_trans a b c :
  a <> NNaN -> b <> NNaN -> c <> NNaN -> num_order a b = true -> num_order b c = true -> num_order a c = true.
Proof. intros Ha Hb Hc. rewrite !num_order_le by done. apply num_le_trans. Qed.
