(* ===== verification/Collections.v ===== *)
(** * Stable sorting

    [Array.prototype.sort] is stable, so a comparator that is a total preorder
    determines its result: the one of insertion from the right. Below it, the ordered maps of JavaScript
    ([JsMap]). *)

From S2P Require Export Prelude.

#[local] Open Scope list_scope.

Section Sort.
Context {A : Type} (leb : A -> A -> bool).

Fixpoint insert (x : A) (l : list A) : list A :=
  match l with
  | [] => [x]
  | y :: l' => if leb x y then x :: l else y :: insert x l'
  end.

Fixpoint stable_sort (l : list A) : list A :=
  match l with
  | [] => []
  | x :: l' => insert x (stable_sort l')
  end.

Lemma insert_permutation x l : insert x l ≡ₚ x :: l.
Proof. induction l as [|y l IH]; simpl; [done|]. destruct (leb x y); [done|]. rewrite IH. apply perm_swap. Qed.

Lemma stable_sort_permutation l : stable_sort l ≡ₚ l.
Proof. induction l as [|x l IH]; simpl; [done|]. by rewrite insert_permutation, IH. Qed.

Lemma stable_sort_length l : length (stable_sort l) = length l.
Proof. by rewrite stable_sort_permutation. Qed.

(** In order: each element before those that follow. *)
Fixpoint ordered (l : list A) : Prop :=
  match l with
  | [] => True
  | x :: l' => Forall (fun y => leb x y = true) l' /\ ordered l'
  end.

(** On elements that compare as a total preorder. *)
Context (P : A -> Prop).
Context (Htotal : forall x y, P x -> P y -> leb x y = true \/ leb y x = true).
Context (Htrans : forall x y z, P x -> P y -> P z -> leb x y = true -> leb y z = true -> leb x z = true).

Lemma insert_ordered x l : P x -> Forall P l -> ordered l -> ordered (insert x l).
Proof using Htotal Htrans.
  intros Hx Hl. induction Hl as [|y l Hy Hl IH]; simpl; [by repeat constructor|]. intros [Hyl Ho].
  destruct (leb x y) eqn:Hxy; simpl.
  - split; [|done]. constructor; [done|]. apply Forall_forall. intros z Hz.
    rewrite Forall_forall in Hl, Hyl. eapply (Htrans x y z); auto.
  - split; [|by apply IH]. rewrite insert_permutation. constructor; [|done].
    destruct (Htotal x y); congruence.
Qed.

Lemma stable_sort_ordered l : Forall P l -> ordered (stable_sort l).
Proof using Htotal Htrans.
  induction 1 as [|x l Hx Hl IH]; [done|]. simpl. apply insert_ordered; [done| |done].
  by rewrite stable_sort_permutation.
Qed.

(** Elements that compare equal keep their order: sorting again the elements of a
    class leaves them as they stood. *)
Lemma insert_filter (p : A -> bool) x l :
  (forall y, p x = true -> p y = true -> leb x y = true) ->
  List.filter p (insert x l) = List.filter p (x :: l).
Proof.
  intros Hp. induction l as [|y l IH]; [done|]. simpl. destruct (leb x y) eqn:Hxy; [done|].
  simpl. rewrite IH. simpl. destruct (p x) eqn:Hx, (p y) eqn:Hy; try done.
  rewrite Hp in Hxy; done.
Qed.

Lemma stable_sort_stable (p : A -> bool) l :
  (forall x y, p x = true -> p y = true -> leb x y = true) ->
  List.filter p (stable_sort l) = List.filter p l.
Proof.
  intros Hp. induction l as [|x l IH]; [done|]. simpl stable_sort. rewrite insert_filter by auto.
  simpl. by rewrite IH.
Qed.
End Sort.

Lemma ordered_app {A} (leb : A -> A -> bool) l1 l2 :
  ordered leb (l1 ++ l2) <-> ordered leb l1 /\ ordered leb l2 /\ Forall (fun x => Forall (fun y => leb x y = true) l2) l1.
Proof.
  induction l1 as [|x l1 IH]; simpl; [naive_solver|]. rewrite Forall_app, IH, Forall_cons. naive_solver.
Qed.

Lemma ordered_rev {A} (leb : A -> A -> bool) l : ordered leb (rev l) <-> ordered (fun x y => leb y x) l.
Proof.
  induction l as [|x l IH]; simpl; [done|]. rewrite ordered_app, IH. simpl.
  assert (Forall (fun y => Forall (fun z => leb y z = true) [x]) (rev l) <-> Forall (fun y => leb y x = true) l) as ->.
  { rewrite !Forall_forall. setoid_rewrite list_elem_of_In. setoid_rewrite <- in_rev.
    setoid_rewrite Forall_singleton. done. }
  naive_solver.
Qed.

Lemma Forall_sublist_of {A} (P : A -> Prop) l1 l2 : l1 `sublist_of` l2 -> Forall P l2 -> Forall P l1.
Proof. induction 1; intros Hf; [done|inversion Hf; subst; constructor; auto|inversion Hf; auto]. Qed.

Lemma ordered_sublist {A} (leb : A -> A -> bool) l1 l2 : l1 `sublist_of` l2 -> ordered leb l2 -> ordered leb l1.
Proof.
  induction 1 as [|x l1 l2 Hs IH|x l1 l2 Hs IH]; simpl; [done| |naive_solver].
  intros [Hx Hl]. split; [|auto]. by eapply Forall_sublist_of.
Qed.

(** * JavaScript maps

    A [Map] keeps its entries in insertion order, and setting an existing key keeps
    its place: an association list without repeated keys. *)

#[local] Open Scope list_scope.

Section JsMap.
Context {K V : Type} `{!EqDecision K}.
Implicit Types m : list (K * V).

Fixpoint js_get m (k : K) : option V :=
  match m with
  | [] => None
  | (k', v) :: m' => if bool_decide (k' = k) then Some v else js_get m' k
  end.

Definition js_has m (k : K) : bool := is_some (js_get m k).

Fixpoint js_set m (k : K) (v : V) : list (K * V) :=
  match m with
  | [] => [(k, v)]
  | (k', v') :: m' => if bool_decide (k' = k) then (k, v) :: m' else (k', v') :: js_set m' k v
  end.

Fixpoint js_delete m (k : K) : list (K * V) :=
  match m with
  | [] => []
  | (k', v') :: m' => if bool_decide (k' = k) then m' else (k', v') :: js_delete m' k
  end.

Definition js_keys m : list K := m.*1.
Definition js_values m : list V := m.*2.

(** The entries of a map: no key twice. *)
Definition unique_keys m : Prop := NoDup m.*1.

Lemma js_get_elem m k v : js_get m k = Some v -> (k, v) ∈ m.
Proof.
  induction m as [|[k' v'] m IH]; simpl; [done|]. case_bool_decide as Hk; [intros [= ->]; subst; left|].
  intros H. right. by apply IH.
Qed.

Lemma elem_js_get m k v : unique_keys m -> (k, v) ∈ m -> js_get m k = Some v.
Proof.
  unfold unique_keys. induction m as [|[k' v'] m IH]; simpl; [by intros _ ?%elem_of_nil|].
  intros [Hk Hm]%NoDup_cons [[= -> ->]|Hin]%elem_of_cons; [by rewrite bool_decide_eq_true_2|].
  rewrite bool_decide_eq_false_2; [by apply IH|]. intros ->. apply Hk. by apply (list_elem_of_fmap_2 fst _ (k, v)).
Qed.

Lemma js_get_None m k : js_get m k = None <-> k ∉ m.*1.
Proof.
  induction m as [|[k' v'] m IH]; simpl; [set_solver|]. rewrite not_elem_of_cons, <- IH.
  case_bool_decide as Hk; subst; naive_solver.
Qed.

Lemma js_get_set m k v k' : js_get (js_set m k v) k' = if bool_decide (k = k') then Some v else js_get m k'.
Proof.
  induction m as [|[k1 v1] m IH]; [done|]. cbn [js_set js_get].
  destruct (decide (k1 = k)) as [->|Hk]; [rewrite (bool_decide_eq_true_2 (k = k)) by done; cbn [js_get]|].
  - by case_bool_decide.
  - rewrite (bool_decide_eq_false_2 (k1 = k)) by done. cbn [js_get]. rewrite IH. repeat case_bool_decide; congruence.
Qed.

Lemma js_delete_absent m k : js_get m k = None -> js_delete m k = m.
Proof.
  induction m as [|[k' v'] m IH]; simpl; [done|]. case_bool_decide; [done|]. intros Hg. by rewrite IH.
Qed.

Lemma js_delete_perm m k v : js_get m k = Some v -> m ≡ₚ (k, v) :: js_delete m k.
Proof.
  induction m as [|[k' v'] m IH]; simpl; [done|]. case_bool_decide as Hk; [by intros [= ->]; subst|].
  intros H. rewrite (IH H) at 1. apply perm_swap.
Qed.

Lemma js_set_perm m k v : js_set m k v ≡ₚ (k, v) :: js_delete m k.
Proof.
  induction m as [|[k' v'] m IH]; simpl; [done|]. case_bool_decide as Hk; [done|].
  rewrite IH. apply perm_swap.
Qed.

Lemma js_delete_sublist m k : js_delete m k `sublist_of` m.
Proof. induction m as [|[k' v'] m IH]; simpl; [done|]. case_bool_decide; by constructor. Qed.

Lemma unique_keys_delete m k : unique_keys m -> unique_keys (js_delete m k).
Proof. unfold unique_keys. intros H. eapply sublist_NoDup; [exact H|]. eapply fmap_sublist, js_delete_sublist. Qed.

Lemma js_get_delete m k k' :
  unique_keys m -> js_get (js_delete m k) k' = if bool_decide (k = k') then None else js_get m k'.
Proof.
  unfold unique_keys. induction m as [|[k1 v1] m IH]; [by case_bool_decide|]. cbn [fmap list_fmap fst js_delete js_get].
  intros [H1 Hm]%NoDup_cons. destruct (decide (k1 = k)) as [->|Hk].
  - rewrite (bool_decide_eq_true_2 (k = k)) by done. case_bool_decide as Hk; [|done]. subst. by apply js_get_None.
  - rewrite (bool_decide_eq_false_2 (k1 = k)) by done. cbn [js_get]. rewrite IH by done.
    repeat case_bool_decide; congruence.
Qed.

Lemma unique_keys_set m k v : unique_keys m -> unique_keys (js_set m k v).
Proof.
  intros H. unfold unique_keys. rewrite js_set_perm. simpl. apply NoDup_cons. split; [|by apply unique_keys_delete].
  apply js_get_None. rewrite js_get_delete by done. by rewrite bool_decide_eq_true_2.
Qed.

Lemma unique_keys_nil : unique_keys [].
Proof. apply NoDup_nil_2. Qed.

Lemma js_set_values m k v : js_values (js_set m k v) ≡ₚ v :: js_values (js_delete m k).
Proof. unfold js_values. by rewrite js_set_perm. Qed.

Lemma js_delete_values m k v : js_get m k = Some v -> js_values m ≡ₚ v :: js_values (js_delete m k).
Proof. intros H. unfold js_values. by rewrite (js_delete_perm _ _ _ H) at 1. Qed.

Lemma js_set_length m k v :
  length (js_set m k v) = (if js_has m k then length m else S (length m))%nat.
Proof.
  unfold js_has. induction m as [|[k' v'] m IH]; simpl; [done|]. case_bool_decide; simpl; [done|].
  rewrite IH. by destruct (is_some _).
Qed.

(** The order of the entries: a new key goes last, an old one stays. *)
Lemma js_set_keys m k v : js_keys (js_set m k v) = if js_has m k then js_keys m else js_keys m ++ [k].
Proof.
  unfold js_has, js_keys. induction m as [|[k' v'] m IH]; [done|].
  cbn [js_set js_get fmap list_fmap fst]. case_bool_decide as Hk; cbn [fmap list_fmap fst is_some]; [by subst|].
  rewrite IH.
  by destruct (is_some _).
Qed.
End JsMap.

#[export] Hint Resolve unique_keys_nil unique_keys_set unique_keys_delete : core.

(** [new Map(entries)] *)
Definition js_of_entries {K V} `{!EqDecision K} (es : list (K * V)) : list (K * V) :=
  fold_left (fun m e => js_set m e.1 e.2) es [].

(** A [Set] of strings, in insertion order. *)
Definition set_add {K} `{!EqDecision K} (s : list K) (x : K) : list K :=
  if bool_decide (x ∈ s) then s else s ++ [x].

Lemma elem_of_set_add {K} `{!EqDecision K} (s : list K) x y : y ∈ set_add s x <-> y ∈ s \/ y = x.
Proof. unfold set_add. case_bool_decide; set_solver. Qed.

Lemma set_add_NoDup {K} `{!EqDecision K} (s : list K) x : NoDup s -> NoDup (set_add s x).
Proof. unfold set_add. case_bool_decide; [done|]. intros Hs. apply NoDup_app. set_solver by eauto using NoDup_singleton. Qed.

Lemma fold_set_add {K} `{!EqDecision K} (l acc : list K) x : x ∈ fold_left set_add l acc <-> x ∈ acc \/ x ∈ l.
Proof. revert acc. induction l as [|y l IH]; intros acc; simpl; [set_solver|]. rewrite IH, elem_of_set_add. set_solver. Qed.

Lemma fold_set_add_NoDup {K} `{!EqDecision K} (l acc : list K) : NoDup acc -> NoDup (fold_left set_add l acc).
Proof. revert acc. induction l; simpl; auto using set_add_NoDup. Qed.

(** [new Set(l)]: the members in the order they first occur. *)
Definition set_of {K} `{!EqDecision K} (l : list K) : list K := fold_left set_add l [].

Lemma elem_of_set_of {K} `{!EqDecision K} (l : list K) x : x ∈ set_of l <-> x ∈ l.
Proof. unfold set_of. rewrite fold_set_add. set_solver. Qed.

Lemma set_of_NoDup {K} `{!EqDecision K} (l : list K) : NoDup (set_of l).
Proof. apply fold_set_add_NoDup, NoDup_nil_2. Qed.
