(* ===== verification/UCurve.v ===== *)
(** * U-shaped prompts (utils/u-curve-context.formatter.ts)

    Prompt sections in the order of their attention tiers, and items of a list laid
    out with the best at both ends.  A sort with a comparator that may answer NaN is
    left to the engine by the language: theorems on order ask for scores that are
    numbers. *)

From S2P Require Export Collections Num.

#[local] Open Scope string_scope.
#[local] Open Scope list_scope.

Module UCurve.

Inductive UCurvePriority : Type := CriticalPrimacy | High | MediumReference | CriticalRecency.
#[global] Instance UCurvePriority_eq_dec : EqDecision UCurvePriority.
Proof. solve_decision. Defined.

Definition PRIORITY_ORDER (p : UCurvePriority) : nat :=
  match p with CriticalPrimacy => 0 | High => 1 | MediumReference => 2 | CriticalRecency => 3 end.

Record UCurvePromptSection : Type := {
  section_id : option string;
  title : option string;
  content : string;
  priority : UCurvePriority;
  order : option num;
}.

Record UCurveFormatOptions : Type := {
  sectionSeparator : option string;
  renderTitles : option bool;
  globalHeader : option string;
  globalFooter : option string;
}.

Definition order_of (s : UCurvePromptSection) : num := default (num_of_Z 0) (order s).

Definition valid_section (s : UCurvePromptSection) : bool := truthy (trim (content s)).

Definition grouped (sections : list UCurvePromptSection) (p : UCurvePriority) : list UCurvePromptSection :=
  stable_sort (fun a b => num_order (order_of a) (order_of b))
    (List.filter (fun s => bool_decide (priority s = p)) sections).

Definition orderedSections (sections : list UCurvePromptSection) : list UCurvePromptSection :=
  let valid := List.filter valid_section sections in
  grouped valid CriticalPrimacy ++ grouped valid High ++ grouped valid MediumReference ++ grouped valid CriticalRecency.

Definition format_section (titles : bool) (sec : UCurvePromptSection) : string :=
  let text := trim (content sec) in
  match title sec with
  | Some t => if titles && truthy t then "### " +:+ trim t +:+ nl +:+ text else text
  | None => text
  end.

Definition trimmed (o : option string) : list string :=
  match o with Some s => if truthy s then [trim s] else [] | None => [] end.

Definition assemblePrompt (sections : list UCurvePromptSection) (options : UCurveFormatOptions) : string :=
  match sections with
  | [] => EmptyString
  | _ =>
      join (default (nl +:+ nl) (sectionSeparator options))
        (trimmed (globalHeader options) ++
         map (format_section (default true (renderTitles options))) (orderedSections sections) ++
         trimmed (globalFooter options))
  end.

(** ** Reordering a list *)

Inductive Placement : Type := PrimacyFirst | RecencyFirst.

Section Reorder.
Context {T : Type} (scoreExtractor : T -> num).

(** The loop that fills [result] from both ends; [to_left] says which end is next. *)
Fixpoint fill (sorted : list T) (to_left : bool) (left right : nat) (result : list (option T)) : list (option T) :=
  match sorted with
  | [] => result
  | x :: rest =>
      if to_left then fill rest false (S left) right (<[left := Some x]> result)
      else fill rest true left (pred right) (<[right := Some x]> result)
  end.

Definition by_score (items : list T) : list T :=
  stable_sort (fun a b => num_order (scoreExtractor b) (scoreExtractor a)) items.

(** [None] is an element never written. *)
Definition reorderToUCurve (items : list T) (placementStrategy : Placement) : list (option T) :=
  match items with
  | [] | [_] => map Some items
  | _ =>
      let sorted := by_score items in
      let n := length sorted in
      let first_left := match placementStrategy with PrimacyFirst => true | RecencyFirst => false end in
      fill sorted first_left 0 (n - 1) (replicate n None)
  end.

(** *** What the loop leaves *)

(** Every other element, from the first or the second. *)
Fixpoint every_other (take_it : bool) (l : list T) : list T :=
  match l with
  | [] => []
  | x :: l' => if take_it then x :: every_other false l' else every_other true l'
  end.

Lemma every_other_sublist b l : every_other b l `sublist_of` l.
Proof. revert b. induction l as [|x l IH]; intros [|]; simpl; constructor; apply IH. Qed.

Lemma every_other_permutation b l : every_other b l ++ every_other (negb b) l ≡ₚ l.
Proof.
  revert b. induction l as [|x l IH]; intros [|]; simpl; [done|done| |].
  - by rewrite (IH false).
  - rewrite <- Permutation_middle. by rewrite (IH true).
Qed.

Lemma every_other_length b l : (length (every_other b l) <= length (every_other (negb b) l) + 1)%nat.
Proof.
  assert (length (every_other true l) = length (every_other false l) \/
          length (every_other true l) = S (length (every_other false l)))%nat as H.
  { induction l as [|x l IH]; simpl; lia. }
  destruct b; simpl; lia.
Qed.

Lemma fill_spec sorted to_left front back :
  fill sorted to_left (length front) (length front + length sorted - 1)
    (map Some front ++ replicate (length sorted) None ++ map Some back) =
  map Some (front ++ every_other to_left sorted ++ rev (every_other (negb to_left) sorted) ++ back).
Proof.
  revert to_left front back. induction sorted as [|x rest IH]; intros to_left front back.
  - simpl. by rewrite map_app.
  - destruct to_left; cbn [fill every_other negb length].
    + specialize (IH false (front ++ [x]) back). rewrite length_app in IH. cbn [length negb] in IH.
      replace (length front + 1)%nat with (S (length front)) in IH by lia.
      replace (S (length front) + length rest - 1)%nat with (length front + S (length rest) - 1)%nat in IH by lia.
      rewrite <- app_assoc in IH. cbn [app] in IH |- *. rewrite <- IH. f_equal.
      rewrite map_app, <- app_assoc. cbn [map app replicate].
      rewrite insert_app_r_alt by (rewrite length_map; lia). rewrite length_map, Nat.sub_diag. done.
    + specialize (IH true front (x :: back)). cbn [negb] in IH. cbn [rev].
      rewrite <- !app_assoc. cbn [app]. rewrite <- IH. f_equal; [lia|].
      rewrite !insert_app_r_alt by (rewrite length_map; lia). rewrite length_map. f_equal.
      replace (length front + S (length rest) - 1 - length front)%nat with (length rest) by lia.
      rewrite replicate_S_end, <- app_assoc.
      rewrite insert_app_r_alt by (rewrite length_replicate; lia). rewrite length_replicate, Nat.sub_diag. done.
Qed.

Lemma reorder_spec items placement :
  reorderToUCurve items placement =
  map Some (let b := match placement with PrimacyFirst => true | RecencyFirst => false end in
            every_other b (by_score items) ++ rev (every_other (negb b) (by_score items))).
Proof.
  destruct items as [|x [|y items]]; [by destruct placement|by destruct placement|].
  unfold reorderToUCurve. set (sorted := by_score (x :: y :: items)). cbv zeta.
  set (b := match placement with PrimacyFirst => true | RecencyFirst => false end).
  pose proof (fill_spec sorted b [] []) as Hf. simpl in Hf. by rewrite !app_nil_r in Hf.
Qed.

(** [scoreExtractor x >= scoreExtractor y] *)
Definition at_least (x y : T) : bool := num_order (scoreExtractor y) (scoreExtractor x).

(** Reordering loses and repeats nothing, and lays the items out in a U: scores
    do not rise along the first part and do not fall along the second, so the best
    items are at the two ends and the worst between them. *)
Theorem reorder_is_u_shaped items placement :
  Forall (fun x => scoreExtractor x <> NNaN) items ->
  exists front back,
    reorderToUCurve items placement = map Some (front ++ back) /\ front ++ back ≡ₚ items /\
    ordered at_least front /\ ordered (fun x y => at_least y x) back /\
    (length front <= length back + 1)%nat /\ (length back <= length front + 1)%nat.
Proof.
  intros Hn. set (b := match placement with PrimacyFirst => true | RecencyFirst => false end).
  exists (every_other b (by_score items)), (rev (every_other (negb b) (by_score items))).
  assert (ordered at_least (by_score items)) as Hs.
  { apply (stable_sort_ordered at_least (fun x => scoreExtractor x <> NNaN)); [| |done]; unfold at_least.
    - intros x y Hx Hy. by apply num_order_total.
    - intros x y z Hx Hy Hz H1 H2. by apply (num_order_trans _ (scoreExtractor y)). }
  split_and!.
  - apply reorder_spec.
  - rewrite <- Permutation_rev, every_other_permutation. apply stable_sort_permutation.
  - by eapply ordered_sublist; [apply every_other_sublist|].
  - apply ordered_rev. by eapply ordered_sublist; [apply every_other_sublist|].
  - rewrite length_rev. apply every_other_length.
  - rewrite length_rev. pose proof (every_other_length (negb b) (by_score items)) as Hl.
    by rewrite negb_involutive in Hl.
Qed.
End Reorder.

(** ** Assembled prompts *)

(** The rank of the tier, then the order within it. *)
Definition section_before (a b : UCurvePromptSection) : bool :=
  (PRIORITY_ORDER (priority a) <? PRIORITY_ORDER (priority b))%nat ||
  ((PRIORITY_ORDER (priority a) =? PRIORITY_ORDER (priority b))%nat && num_order (order_of a) (order_of b)).

Lemma grouped_permutation sections p :
  grouped sections p ≡ₚ List.filter (fun s => bool_decide (priority s = p)) sections.
Proof. apply stable_sort_permutation. Qed.

Lemma grouped_priority sections p : Forall (fun s => priority s = p) (grouped sections p).
Proof.
  rewrite grouped_permutation. apply Forall_forall. intros s Hs%list_elem_of_In%filter_In.
  by destruct Hs as [_ Hs%bool_decide_eq_true].
Qed.

Lemma grouped_ordered sections p :
  Forall (fun s => order_of s <> NNaN) sections -> ordered section_before (grouped sections p).
Proof.
  intros Hn. pose proof (grouped_priority sections p) as Hp.
  assert (Forall (fun s => order_of s <> NNaN) (grouped sections p)) as Hg.
  { rewrite grouped_permutation. apply Forall_forall. intros s Hs%list_elem_of_In%filter_In.
    apply (proj1 (Forall_forall _ _) Hn), list_elem_of_In, Hs. }
  assert (Forall (fun s => order_of s <> NNaN) (List.filter (fun s => bool_decide (priority s = p)) sections)) as Hl
    by by rewrite <- grouped_permutation.
  unfold grouped in *. set (l := List.filter _ _) in *.
  clear Hn. pose proof (stable_sort_ordered (fun a b => num_order (order_of a) (order_of b)) (fun s => order_of s <> NNaN)
    (fun x y Hx Hy => num_order_total _ _ Hx Hy) (fun x y z Hx Hy Hz => num_order_trans _ _ _ Hx Hy Hz) l Hl) as Ho.
  clearbody l. clear Hl Hg. induction (stable_sort _ l) as [|x k IH]; [done|].
  destruct Ho as [Hx Ho]. inversion Hp as [|? ? Hpx Hpk]; subst. split; [|by apply IH].
  apply Forall_forall. intros y Hy. unfold section_before.
  rewrite (proj1 (Forall_forall _ _) Hpk y Hy), Nat.ltb_irrefl, Nat.eqb_refl. simpl.
  by apply (proj1 (Forall_forall _ _) Hx).
Qed.

Lemma priority_cases (sections : list UCurvePromptSection) :
  List.filter (fun s => bool_decide (priority s = CriticalPrimacy)) sections ++
  List.filter (fun s => bool_decide (priority s = High)) sections ++
  List.filter (fun s => bool_decide (priority s = MediumReference)) sections ++
  List.filter (fun s => bool_decide (priority s = CriticalRecency)) sections ≡ₚ sections.
Proof.
  induction sections as [|s l IH]; [done|]. simpl.
  destruct (priority s); simpl; rewrite <- ?Permutation_middle; by rewrite IH.
Qed.

Lemma Forall_app_right {A} (f : A -> A -> Prop) (l1 l2 l3 : list A) :
  Forall (fun x => Forall (f x) l2) l1 -> Forall (fun x => Forall (f x) l3) l1 ->
  Forall (fun x => Forall (f x) (l2 ++ l3)) l1.
Proof. rewrite !Forall_forall. intros H2 H3 x Hx. apply Forall_app_2; auto. Qed.

(** The sections of a prompt are those that are not blank, each once, in the order
    of their tiers and within a tier in their own order. *)
Theorem sections_in_u_order sections :
  Forall (fun s => order_of s <> NNaN) sections ->
  orderedSections sections ≡ₚ List.filter valid_section sections /\
  ordered section_before (orderedSections sections).
Proof.
  intros Hn. unfold orderedSections. set (valid := List.filter valid_section sections).
  assert (Forall (fun s => order_of s <> NNaN) valid) as Hv.
  { apply Forall_forall. intros s Hs%list_elem_of_In%filter_In. apply (proj1 (Forall_forall _ _) Hn), list_elem_of_In, Hs. }
  split; [rewrite !grouped_permutation; apply priority_cases|].
  assert (forall p q, (PRIORITY_ORDER p < PRIORITY_ORDER q)%nat ->
    Forall (fun x => Forall (fun y => section_before x y = true) (grouped valid q)) (grouped valid p)) as Hlt.
  { intros p q Hpq. eapply Forall_impl; [apply grouped_priority|]. intros x Hx.
    eapply Forall_impl; [apply grouped_priority|]. intros y Hy. unfold section_before.
    by rewrite Hx, Hy, (proj2 (Nat.ltb_lt _ _) Hpq). }
  rewrite !ordered_app. pose proof (fun p => grouped_ordered valid p Hv) as Ho.
  split_and!; try done; repeat apply Forall_app_right; apply Hlt; simpl; lia.
Qed.

(** ** Concrete lists *)

Definition section (p : UCurvePriority) (text : string) (n : option num) : UCurvePromptSection :=
  {| section_id := None; title := Some "T"; content := text; priority := p; order := n |}.
Definition prompt : list UCurvePromptSection :=
  [section CriticalRecency "task" None; section High "b" (Some (num_of_Z 2)); section High " " None;
   section High "a" (Some (num_of_Z 1)); section CriticalPrimacy "rules" None].

Example demo_prompt :
  assemblePrompt prompt {| sectionSeparator := Some "; "; renderTitles := Some false;
                           globalHeader := None; globalFooter := Some " end " |} =
  "rules; a; b; task; end".
Proof. by vm_compute. Qed.

Lemma sections_in_u_order_witness :
  orderedSections prompt ≡ₚ List.filter valid_section prompt /\ ordered section_before (orderedSections prompt).
Proof. apply (sections_in_u_order prompt). repeat constructor; done. Defined.

Example demo_reorder : reorderToUCurve num_of_Z [3; 9; 5; 7; 1]%Z PrimacyFirst = map Some [9; 5; 1; 3; 7]%Z.
Proof. by vm_compute. Qed.

Lemma reorder_is_u_shaped_witness :
  exists front back, reorderToUCurve num_of_Z [3; 9; 5; 7; 1]%Z PrimacyFirst = map Some (front ++ back) /\
    front ++ back ≡ₚ [3; 9; 5; 7; 1]%Z.
Proof.
  destruct (reorder_is_u_shaped num_of_Z [3; 9; 5; 7; 1]%Z PrimacyFirst ltac:(by repeat constructor))
    as (front & back & H1 & H2 & _).
  exists front, back. by split.
Defined.
End UCurve.
