(* ===== verification/Rails.v ===== *)
(** * Output rails and the canary trap (policies/*-redaction.policy.ts, policies/canary-detection.policy.ts)

    The policies that look into a tool's data.  Regular expressions are the host's:
    an expression is given by how it replaces in a text. *)

From Stdlib Require Import Ascii String.
From S2P Require Export Redaction Num.

#[local] Open Scope string_scope.
#[local] Open Scope list_scope.

Module Rails.
Export RedactionSound.

(** [text.replace(regex, template)] and [text.replace(regex, callback)] with a global
    expression. *)
Record Regex : Type := {
  replace : string -> string -> string;
  replace_by : (string -> string) -> string -> string;
}.

(** What an output rail decides; sanitized data come with their heap. *)
Inductive RailResult : Type :=
| RailAllow
| RailDeny (reason : string)
| RailSanitize (result : jv) (h : heap).

Definition is_nullish (v : jv) : bool := match v with JUndef | JNull => true | _ => false end.

Definition sensitive_key (keys : list string) (k : string) : bool := bool_decide (k ∈ keys).

(** ** Secrets *)

Module Secret.

Record SecretRedactionPolicy : Type := {
  patterns : list Regex;
  sensitiveKeys : list string;
  maskPlaceholder : string;
  maxDepth : nat;
}.

Definition DEFAULT_SENSITIVE_KEYS : list string :=
  ["password"; "pass"; "secret"; "token"; "apiKey"; "apikey"; "api_key"; "authorization"; "privateKey";
   "private_key"; "accessToken"; "access_token"].

Definition mk_policy (DEFAULT_PATTERNS : list Regex) (customPatterns : option (list Regex))
    (keys : option (list string)) (mask : option string) (depth : option nat) : SecretRedactionPolicy := {|
  patterns := DEFAULT_PATTERNS ++ default [] customPatterns;
  sensitiveKeys := default DEFAULT_SENSITIVE_KEYS keys;
  maskPlaceholder := default "[REDACTED_SECRET]" mask;
  maxDepth := default 50%nat depth |}.

Definition redactString (self : SecretRedactionPolicy) (text : string) : string :=
  fold_left (fun sanitized pattern => replace pattern (maskPlaceholder self) sanitized) (patterns self) text.

Definition options (self : SecretRedactionPolicy) : RedactionTraversalOptions := {|
  Redaction.maxDepth := maxDepth self;
  transformString := redactString self;
  handleKey := Some (fun key keyValue =>
    match keyValue with
    | JStr _ => if sensitive_key (sensitiveKeys self) key then Some (JStr (maskPlaceholder self)) else None
    | _ => None
    end);
  onDepthExceeded := None;
  skipForbiddenKeys := None |}.

Definition collision_reason : string :=
  "Redacting secrets produced a Map key / Set member collision; refusing to return output that would silently drop an entry.".
Definition unredactable_reason : string :=
  "A secret was found inside a class instance or built-in object that cannot be safely redacted; refusing to return it. Return plain JSON-compatible data from this tool to allow redaction.".

Definition evaluateOutput (calls : positive -> option jv) (self : SecretRedactionPolicy) (h : heap) (result : jv)
    : RailResult :=
  if is_nullish result then RailAllow
  else
    let '(value, st) := traverseAndRedact calls (options self) h result in
    if keyCollision st then RailDeny collision_reason
    else if unredactable st then RailDeny unredactable_reason
    else if modified st then RailSanitize value (hp st)
    else RailAllow.
End Secret.

(** ** Personal data *)

Module Pii.

(** [isValidLuhn], over the digits from the last. *)
Fixpoint luhn_loop (rev_digits : list ascii) (double : bool) (sum : Z) : Z :=
  match rev_digits with
  | [] => sum
  | c :: rest =>
      let n := (Z.of_nat (nat_of_ascii c) - 48)%Z in
      let n := if double then (let m := 2 * n in if 9 <? m then m - 9 else m)%Z else n in
      luhn_loop rest (negb double) (sum + n)
  end.
Definition isValidLuhn (digits : string) : bool := (luhn_loop (rev (chars digits)) false 0 mod 10 =? 0)%Z.

(** The expressions of the file. *)
Record Patterns : Type := {
  EMAIL_PATTERN : Regex;
  SSN_PATTERN : Regex;
  NANP_PHONE_PATTERN : Regex;
  INTL_PHONE_PATTERN : Regex;
  CREDIT_CARD_CANDIDATE_PATTERN : Regex;
}.

Record PiiRedactionPolicy : Type := {
  redactEmail : bool;
  redactPhone : bool;
  redactCreditCard : bool;
  redactSsn : bool;
  customPatterns : list Regex;
  sensitiveKeys : list string;
  maskPlaceholder : option string;
  maxDepth : nat;
}.

Record PiiRedactionPolicyOptions : Type := {
  o_redactEmail : option bool;
  o_redactPhone : option bool;
  o_redactCreditCard : option bool;
  o_redactSsn : option bool;
  o_customPatterns : option (list Regex);
  o_sensitiveKeys : option (list string);
  o_maskPlaceholder : option string;
  o_maxDepth : option num;
}.

(** The depth must be a non-negative integer. *)
Definition depth_of (maxDepth : num) : nat + string :=
  match num_to_Z maxDepth with
  | Some d => if (0 <=? d)%Z then inl (Z.to_nat d)
              else inr ("PiiRedactionPolicy: maxDepth must be a non-negative integer, received " +:+
                        num_to_string maxDepth +:+ ".")
  | None => inr ("PiiRedactionPolicy: maxDepth must be a non-negative integer, received " +:+
                 num_to_string maxDepth +:+ ".")
  end.

Definition mk_policy (o : PiiRedactionPolicyOptions) : PiiRedactionPolicy + string :=
  match depth_of (default (num_of_Z 50) (o_maxDepth o)) with
  | inl d => inl {|
      redactEmail := default true (o_redactEmail o);
      redactPhone := default true (o_redactPhone o);
      redactCreditCard := default true (o_redactCreditCard o);
      redactSsn := default true (o_redactSsn o);
      customPatterns := default [] (o_customPatterns o);
      sensitiveKeys := default [] (o_sensitiveKeys o);
      maskPlaceholder := o_maskPlaceholder o;
      maxDepth := d |}
  | inr message => inr message
  end.

(** [match.replace(/[ -]/g, '')] *)
Definition strip_separators (s : string) : string :=
  of_chars (List.filter (fun c => negb (bool_decide (c = " "%char \/ c = "-"%char))) (chars s)).

Definition card_mask (mask : string) (candidate : string) : string :=
  let digits := strip_separators candidate in
  if (str_length digits <? 13)%Z || (19 <? str_length digits)%Z || negb (isValidLuhn digits) then candidate else mask.

Definition redactString (p : Patterns) (self : PiiRedactionPolicy) (text : string) : string :=
  let mask d := default d (maskPlaceholder self) in
  let s1 := if redactEmail self then replace (EMAIL_PATTERN p) (mask "[REDACTED_EMAIL]") text else text in
  let s2 := if redactCreditCard self
            then replace_by (CREDIT_CARD_CANDIDATE_PATTERN p) (card_mask (mask "[REDACTED_CREDIT_CARD]")) s1
            else s1 in
  let s3 := if redactSsn self then replace (SSN_PATTERN p) (mask "[REDACTED_SSN]") s2 else s2 in
  let s4 := if redactPhone self
            then replace (NANP_PHONE_PATTERN p) (mask "[REDACTED_PHONE]")
                   (replace (INTL_PHONE_PATTERN p) (mask "[REDACTED_PHONE]") s3)
            else s3 in
  fold_left (fun sanitized regex => replace regex (mask "[REDACTED_PII]") sanitized) (customPatterns self) s4.

Definition options (p : Patterns) (self : PiiRedactionPolicy) : RedactionTraversalOptions := {|
  Redaction.maxDepth := maxDepth self;
  transformString := redactString p self;
  handleKey := Some (fun key _ =>
    if sensitive_key (sensitiveKeys self) key
    then Some (JStr (default "[REDACTED_PII]" (maskPlaceholder self))) else None);
  onDepthExceeded := Some Deny;
  skipForbiddenKeys := None |}.

Definition depth_reason (self : PiiRedactionPolicy) : string :=
  "Tool output exceeds maximum PII-scanning depth (" +:+ Z_to_string (Z.of_nat (maxDepth self)) +:+
  "); unable to fully inspect for personal data.".
Definition collision_reason : string :=
  "Redacting PII produced a Map key / Set member collision; refusing to return output that would silently drop an entry.".
Definition unredactable_reason : string :=
  "Personal data was found inside a class instance or built-in object that cannot be safely redacted; refusing to return it. Return plain JSON-compatible data from this tool to allow redaction.".

Definition evaluateOutput (calls : positive -> option jv) (p : Patterns) (self : PiiRedactionPolicy)
    (h : heap) (result : jv) : RailResult :=
  if is_nullish result then RailAllow
  else
    let '(value, st) := traverseAndRedact calls (options p self) h result in
    if depthExceeded st then RailDeny (depth_reason self)
    else if keyCollision st then RailDeny collision_reason
    else if unredactable st then RailDeny unredactable_reason
    else if modified st then RailSanitize value (hp st)
    else RailAllow.
End Pii.

(** ** Canary tokens *)

Module Canary.

Record CanaryDetectionPolicy : Type := {
  canaryTokens : list string;
  denyReason : string;
  maxDepth : nat;
}.

Definition mk_policy (tokens : option (list string)) (reason : option string) (depth : option nat)
    : CanaryDetectionPolicy := {|
  canaryTokens := default [] tokens;
  denyReason := default "Canary token leakage detected: Potential prompt exfiltration attack blocked." reason;
  maxDepth := default 50%nat depth |}.

Definition holds_token (self : CanaryDetectionPolicy) (s : string) : bool :=
  existsb (fun token => includes token s) (canaryTokens self).

(** The items of an array, the values of an object's own properties. *)
Definition values (h : heap) (l : positive) : list jv :=
  match h !! l with
  | Some (OArr items) => items
  | Some (ORec fs _) | Some (OInst _ fs _) => fs.*2
  | _ => []
  end.

(** With a new [seen], at depth 0. *)
Definition containsCanary (self : CanaryDetectionPolicy) (h : heap) (v : jv) : bool :=
  (search (values h) (holds_token self) (S (maxDepth self)) v (∅, false)).1.

Definition args_reason : string :=
  "Canary token exfiltration blocked: Attempt to leak prompt canary token in tool arguments.".

Definition evaluate (self : CanaryDetectionPolicy) (h : heap) (args : jv) : RailResult :=
  match canaryTokens self with
  | [] => RailAllow
  | _ => if containsCanary self h args then RailDeny args_reason else RailAllow
  end.

Definition evaluateOutput (self : CanaryDetectionPolicy) (h : heap) (result : jv) : RailResult :=
  match canaryTokens self with
  | [] => RailAllow
  | _ => if is_nullish result then RailAllow
         else if containsCanary self h result then RailDeny (denyReason self) else RailAllow
  end.
End Canary.

(** ** What the rails let out *)

Definition reaches (calls : positive -> option jv) (h : heap) (v : jv) (s : string) : Prop :=
  reach (children calls h) v (JStr s).

Lemma nullish_reaches calls h v s : is_nullish v = true -> ~ reaches calls h v s.
Proof. intros Hn Hr. inversion Hr; subst; done. Qed.

Lemma secret_masks self : masks_strings (Secret.options self).
Proof.
  intros g k v v' [= <-]. destruct v; try done. destruct (sensitive_key _ _); [|done].
  intros [= <-]. eauto.
Qed.

Lemma pii_masks p self : masks_strings (Pii.options p self).
Proof. intros g k v v' [= <-]. destruct (sensitive_key _ _); [|done]. intros [= <-]. eauto. Qed.

(** The strings the personal-data rail may let out. *)
Definition pii_free (p : Pii.Patterns) (self : Pii.PiiRedactionPolicy) (s : string) : Prop :=
  (exists text, s = Pii.redactString p self text) \/ s = default "[REDACTED_PII]" (Pii.maskPlaceholder self).
Definition secret_free (self : Secret.SecretRedactionPolicy) (s : string) : Prop :=
  (exists text, s = Secret.redactString self text) \/ s = Secret.maskPlaceholder self.

Lemma pii_clean p self s : clean (Pii.options p self) s -> pii_free p self s.
Proof.
  intros [Hs|(g & k & v & [= <-] & Hg)]; [by left|right]. by destruct (sensitive_key _ _); simplify_eq.
Qed.

Lemma secret_clean self s : clean (Secret.options self) s -> secret_free self s.
Proof.
  intros [Hs|(g & k & v & [= <-] & Hg)]; [by left|right].
  destruct v; try done. by destruct (sensitive_key _ _); simplify_eq.
Qed.

(** The data a rail lets out, when it does. *)
Definition lets_out (r : RailResult) (h : heap) (result : jv) : option (jv * heap) :=
  match r with
  | RailAllow => Some (result, h)
  | RailDeny _ => None
  | RailSanitize v h' => Some (v, h')
  end.

(** C18. For data in which no plain record has a [toJSON] function of its own, the
    personal-data rail refuses or lets out a graph in which every string that is a
    value (of a property, an item, a member or a map's entry, or a map's key, or what
    an object serializes to) is its own redaction's output or its mask, however the
    data are nested, shared or cyclic, and whether it passes the original or a
    sanitized copy.  The names of properties are no values: the rail leaves them as
    they are ([property_name_let_out]). *)
Theorem pii_rail_lets_out_no_raw_string calls p self h result v h' s :
  plain_data calls h result ->
  lets_out (Pii.evaluateOutput calls p self h result) h result = Some (v, h') ->
  reaches calls h' v s -> pii_free p self s.
Proof.
  intros Hp Hout Hs. unfold Pii.evaluateOutput in Hout.
  destruct (is_nullish result) eqn:Hn.
  { injection Hout as <- <-. by apply nullish_reaches in Hs. }
  destruct (traverseAndRedact calls (Pii.options p self) h result) as [v1 st] eqn:Ht.
  destruct (depthExceeded st) eqn:Hd; [done|]. destruct (keyCollision st); [done|].
  destruct (unredactable st) eqn:Hu; [done|].
  assert (within_depth calls (Pii.options p self) h result) as Hw 
    by (unfold within_depth; change (strict (Pii.options p self)) with (Pii.options p self); by rewrite Ht).
  destruct (redaction_reaches_everything calls _ h result v1 st Hp (pii_masks p self) Hw Ht Hu) as [Hc Ho].
  apply pii_clean. destruct (modified st) eqn:Hm; injection Hout as <- <-; [by apply Hc|by apply Ho].
Qed.

(** The secrets rail does the same when nothing is nested deeper than its limit;
    below the limit it lets data through as they are. *)
Theorem secret_rail_lets_out_no_raw_string calls self h result v h' s :
  plain_data calls h result -> within_depth calls (Secret.options self) h result ->
  lets_out (Secret.evaluateOutput calls self h result) h result = Some (v, h') ->
  reaches calls h' v s -> secret_free self s.
Proof.
  intros Hp Hw Hout Hs. unfold Secret.evaluateOutput in Hout.
  destruct (is_nullish result) eqn:Hn.
  { injection Hout as <- <-. by apply nullish_reaches in Hs. }
  destruct (traverseAndRedact calls (Secret.options self) h result) as [v1 st] eqn:Ht.
  destruct (keyCollision st); [done|]. destruct (unredactable st) eqn:Hu; [done|].
  destruct (redaction_reaches_everything calls _ h result v1 st Hp (secret_masks self) Hw Ht Hu) as [Hc Ho].
  apply secret_clean. destruct (modified st) eqn:Hm; injection Hout as <- <-; [by apply Hc|by apply Ho].
Qed.

(** *** Canary tokens *)

Definition object_count (h : heap) : nat := size (dom h).

Lemma values_held h l o u : h !! l = Some o -> u ∈ Canary.values h l -> u ∈ held o.
Proof. unfold Canary.values. intros ->. destruct o; simpl; rewrite ?elem_of_app; try done; auto; intros Hu; by apply elem_of_nil in Hu. Qed.

(** The canary trap refuses exactly the calls whose arguments reach, through
    arrays and object values, a string that holds a token, when there are no more
    objects than its depth limit: sharing and cycles hide nothing from it. *)
Theorem canary_refuses_exactly_leaks calls self h args :
  closed_heap calls h -> refs_in h args -> (object_count h <= Canary.maxDepth self)%nat ->
  (Canary.evaluate self h args = RailDeny Canary.args_reason <->
   exists s token, reach (Canary.values h) args (JStr s) /\ token ∈ Canary.canaryTokens self /\ includes token s = true).
Proof.
  intros [Hc _] Hr Hn. unfold Canary.evaluate.
  assert (Canary.containsCanary self h args = true <->
    exists s, reach (Canary.values h) args (JStr s) /\ Canary.holds_token self s = true) as Hiff.
  { unfold Canary.containsCanary. split; [apply search_found|]. intros (s & Hs & Ht).
    pose proof (search_uncut (Canary.values h) (Canary.holds_token self) (dom h) (S (Canary.maxDepth self)) args (∅, false)) as Hu.
    pose proof (search_complete (Canary.values h) (Canary.holds_token self) (S (Canary.maxDepth self)) args) as Hcm.
    destruct (search _ _ _ args _) as [[] st']; [done|]. destruct Hu as (Hcut & _ & _); try done.
    - intros l u [o Ho]%elem_of_dom Hu k ->. apply elem_of_dom.
      pose proof (Hc l o Ho) as Hf. apply (proj1 (Forall_forall _ _) Hf (JRef k)); [by eapply values_held|done].
    - intros k ->. by apply elem_of_dom, Hr.
    - unfold object_count in Hn. cbn -[size dom]. lia.
    - by rewrite (Hcm eq_refl Hcut s Hs) in Ht. }
  assert ((exists s, reach (Canary.values h) args (JStr s) /\ Canary.holds_token self s = true) <->
    exists s token, reach (Canary.values h) args (JStr s) /\ token ∈ Canary.canaryTokens self /\ includes token s = true) as Hex.
  { unfold Canary.holds_token. setoid_rewrite existsb_exists. setoid_rewrite <- list_elem_of_In. naive_solver. }
  rewrite <- Hex, <- Hiff. destruct (Canary.canaryTokens self) eqn:Ht.
  - split; [done|]. rewrite Hiff. unfold Canary.holds_token. rewrite Ht. naive_solver.
  - by destruct (Canary.containsCanary self h args).
Qed.

(** ** Concrete data *)

Module Demo.
Import RedactionDemo.

(** An expression that matches a whole text of a kind. *)
Definition whole (p : string -> bool) : Regex := {|
  replace := fun mask s => if p s then mask else s;
  replace_by := fun f s => if p s then f s else s |}.
Definition never : Regex := whole (fun _ => false).

Definition pii_patterns : Pii.Patterns := {|
  Pii.EMAIL_PATTERN := whole (includes "@"); Pii.SSN_PATTERN := never; Pii.NANP_PHONE_PATTERN := never;
  Pii.INTL_PHONE_PATTERN := never; Pii.CREDIT_CARD_CANDIDATE_PATTERN := whole (starts_with "4") |}.

Definition pii_policy : Pii.PiiRedactionPolicy := {|
  Pii.redactEmail := true; Pii.redactPhone := true; Pii.redactCreditCard := true; Pii.redactSsn := true;
  Pii.customPatterns := []; Pii.sensitiveKeys := ["token"]; Pii.maskPlaceholder := None; Pii.maxDepth := 50 |}.

Definition secrets : Secret.SecretRedactionPolicy :=
  Secret.mk_policy [whole (starts_with "sk-")] None None None None.

Example demo_card : Pii.redactString pii_patterns pii_policy "4111 1111 1111 1111" = "[REDACTED_CREDIT_CARD]" /\
  Pii.redactString pii_patterns pii_policy "4111 1111 1111 1112" = "4111 1111 1111 1112".
Proof. by vm_compute. Qed.

Lemma pii_rail_lets_out_no_raw_string_witness :
  exists v h', lets_out (Pii.evaluateOutput no_calls pii_patterns pii_policy graph (JRef 1)) graph (JRef 1) = Some (v, h') /\
    forall s, reaches no_calls h' v s -> pii_free pii_patterns pii_policy s.
Proof.
  destruct (lets_out (Pii.evaluateOutput no_calls pii_patterns pii_policy graph (JRef 1)) graph (JRef 1))
    as [[v h']|] eqn:Hout; [|by vm_compute in Hout].
  exists v, h'. split; [done|]. intros s.
  exact (pii_rail_lets_out_no_raw_string no_calls pii_patterns pii_policy graph (JRef 1) v h' s graph_plain Hout).
Defined.

Lemma secret_rail_lets_out_no_raw_string_witness :
  exists v h', lets_out (Secret.evaluateOutput no_calls secrets graph (JRef 1)) graph (JRef 1) = Some (v, h') /\
    forall s, reaches no_calls h' v s -> secret_free secrets s.
Proof.
  destruct (lets_out (Secret.evaluateOutput no_calls secrets graph (JRef 1)) graph (JRef 1))
    as [[v h']|] eqn:Hout; [|by vm_compute in Hout].
  exists v, h'. split; [done|]. intros s.
  refine (secret_rail_lets_out_no_raw_string no_calls secrets graph (JRef 1) v h' s graph_plain _ Hout).
  unfold within_depth. by vm_compute.
Defined.

(** Personal data in the name of a property go through. *)
Example property_name_let_out :
  Pii.redactString pii_patterns pii_policy "ann@x.org" = "[REDACTED_EMAIL]" /\
  Pii.evaluateOutput no_calls pii_patterns pii_policy {[ 1%positive := ORec [("ann@x.org", JStr "ok")] [] ]} (JRef 1) = RailAllow.
Proof. by vm_compute. Qed.

(** A secret below the depth limit of the secrets rail goes through. *)
Example deep_secret_let_out :
  let self := Secret.mk_policy [whole (starts_with "sk-")] None None None (Some 1%nat) in
  Secret.evaluateOutput no_calls self shared (JRef 1) = RailAllow.
Proof. by vm_compute. Qed.

Definition trap : Canary.CanaryDetectionPolicy := Canary.mk_policy (Some ["sk-2"]) None None.

Lemma canary_refuses_exactly_leaks_witness :
  (object_count graph <= Canary.maxDepth trap)%nat /\
  (Canary.evaluate trap graph (JRef 1) = RailDeny Canary.args_reason <->
   exists s token, reach (Canary.values graph) (JRef 1) (JStr s) /\ token ∈ Canary.canaryTokens trap /\ includes token s = true).
Proof.
  assert (object_count graph <= Canary.maxDepth trap)%nat as Hn by (vm_compute; lia). split; [exact Hn|].
  exact (canary_refuses_exactly_leaks no_calls trap graph (JRef 1) (pd_closed _ _ _ graph_plain) (pd_root _ _ _ graph_plain) Hn).
Defined.

(** Met first at the depth limit, a shared list is not looked into again. *)
Example shared_canary_missed :
  Canary.evaluate (Canary.mk_policy (Some ["sk-2"]) None (Some 2%nat)) shared (JRef 1) = RailAllow.
Proof. by vm_compute. Qed.
End Demo.

End Rails.
