(* ===== verification/Sanitizer.v ===== *)
(** * Prompt-injection sanitizing (utils/prompt-injection-sanitizer.ts, policies/prompt-injection-sanitization.policy.ts)

    The built-in expressions and the boundary expression are executable matchers, on
    ASCII text; expressions supplied by the developer are functions of the text. *)

From Stdlib Require Import Ascii String.
From S2P Require Export Rails.

#[local] Open Scope string_scope.
#[local] Open Scope list_scope.

Module Sanitizer.
Export Rails.

(** ** Matching and replacing *)

(** The length of a match at a position, given the character before it. *)
Definition matcher : Type := option ascii -> list ascii -> option nat.

Definition lower (c : ascii) : ascii :=
  let n := nat_of_ascii c in if ((65 <=? n) && (n <=? 90))%nat then ascii_of_nat (n + 32) else c.

(** A literal, whatever the case: what follows it. *)
Fixpoint strip_ci (p l : list ascii) : option (list ascii) :=
  match p, l with
  | [], _ => Some l
  | c :: p', d :: l' => if bool_decide (lower c = lower d) then strip_ci p' l' else None
  | _ :: _, [] => None
  end.

Definition matched (l : list ascii) (rest : option (list ascii)) : option nat :=
  (fun r => (length l - length r)%nat) <$> rest.

(** [/p/gi] *)
Definition literal (p : string) : matcher := fun _ l => matched l (strip_ci (chars p) l).

(** [/?] *)
Definition skip_slash (l : list ascii) : list ascii :=
  match l with c :: l' => if bool_decide (c = "/"%char) then l' else l | [] => l end.

(** [/<\/?name>/gi] *)
Definition tag_literal (name : string) : matcher := fun _ l =>
  matched l (match l with
             | c :: l' => if bool_decide (c = "<"%char) then strip_ci (chars (name +:+ ">")) (skip_slash l') else None
             | [] => None
             end).

Definition is_line_end (c : ascii) : bool := let n := nat_of_ascii c in ((n =? 10) || (n =? 13))%nat.

(** [/^\s*name:/gim] *)
Definition line_label (name : string) : matcher := fun prev l =>
  if match prev with None => true | Some c => is_line_end c end
  then matched l (strip_ci (chars (name +:+ ":")) (drop_while is_space l))
  else None.

(** What [String.prototype.replace] makes of a replacement text: the dollar sign, the
    match and the texts around it, written [$$], [$&], [$`] and [$'].  The expressions
    have no groups, so anything else after a dollar sign stays as it is. *)
Fixpoint expand (template before found after : list ascii) : list ascii :=
  match template with
  | "$"%char :: (c :: rest) as tail =>
      if bool_decide (c = "$"%char) then c :: expand rest before found after
      else if bool_decide (c = "&"%char) then found ++ expand rest before found after
      else if bool_decide (c = "`"%char) then before ++ expand rest before found after
      else if bool_decide (c = "'"%char) then after ++ expand rest before found after
      else "$"%char :: expand tail before found after
  | c :: rest => c :: expand rest before found after
  | [] => []
  end.

(** [text.replace(regex, placeholder)]; [before] is the text already passed, backwards. *)
Fixpoint gsub (m : matcher) (placeholder : list ascii) (fuel : nat) (before l : list ascii) : list ascii :=
  match fuel, l with
  | S fuel', c :: l' =>
      match m (head before) l with
      | Some n => expand placeholder (rev before) (take n l) (drop n l) ++
                  gsub m placeholder fuel' (rev (take n l) ++ before) (drop n l)
      | None => c :: gsub m placeholder fuel' (c :: before) l'
      end
  | _, _ => l
  end.

Definition replace_all (m : matcher) (placeholder text : string) : string :=
  of_chars (gsub m (chars placeholder) (String.length text) [] (chars text)).

(** ** The sanitizer *)

Definition DEFAULT_PATTERNS : list matcher :=
  [tag_literal "system"; literal "<|im_start|>"; literal "<|im_end|>"; literal "[INST]"; literal "[/INST]";
   literal "<<SYS>>"; literal "</SYS>"; line_label "Human"; line_label "Assistant"; line_label "System"].

Definition DEFAULT_PLACEHOLDER : string := "[REDACTED_DELIMITER]".
Definition MAX_INPUT_LENGTH : Z := 1000000.

Record PromptInjectionSanitizerOptions : Type := {
  (** Each given as [replace(regex, placeholder)]. *)
  patterns : option (list (string -> string -> string));
  placeholder : option string;
}.

Definition sanitize (rawText : string) (options : option PromptInjectionSanitizerOptions) : string :=
  if str_is_empty rawText then EmptyString
  else
    let custom := default [] (options ≫= patterns) in
    let ph := default DEFAULT_PLACEHOLDER (options ≫= placeholder) in
    let text := if (MAX_INPUT_LENGTH <? str_length rawText)%Z
                then slice_to rawText (Z.to_nat MAX_INPUT_LENGTH) else rawText in
    fold_left (fun s replace => replace ph s) (map replace_all DEFAULT_PATTERNS ++ custom) text.

(** *** Boundaries *)

Definition is_letter (c : ascii) : bool :=
  let n := nat_of_ascii (lower c) in ((97 <=? n) && (n <=? 122))%nat.
Definition is_digit (c : ascii) : bool := let n := nat_of_ascii c in ((48 <=? n) && (n <=? 57))%nat.
Definition tag_start (c : ascii) : bool := is_letter c || bool_decide (c = "_"%char).
Definition tag_char (c : ascii) : bool :=
  tag_start c || is_digit c || bool_decide (c = "."%char) || bool_decide (c = "-"%char).

(** [VALID_TAG] *)
Definition valid_tag (tag : string) : bool :=
  match chars tag with c :: l => tag_start c && forallb tag_char l | [] => false end.

(** The tag as a part of an expression: its dots match any character of a line. *)
Definition tag_matches (p c : ascii) : bool :=
  if bool_decide (p = "."%char) then negb (is_line_end c) else bool_decide (lower p = lower c).
Fixpoint strip_tag (tag l : list ascii) : option (list ascii) :=
  match tag, l with
  | [], _ => Some l
  | p :: tag', c :: l' => if tag_matches p c then strip_tag tag' l' else None
  | _ :: _, [] => None
  end.

(** [new RegExp(`</?\\s*${tag}\\s*>`, 'gi')] *)
Definition boundary_regex (tag : string) : matcher := fun _ l =>
  matched l (match l with
             | c :: l' =>
                 if bool_decide (c = "<"%char) then
                   match strip_tag (chars tag) (drop_while is_space (skip_slash l')) with
                   | Some l2 => match drop_while is_space l2 with
                                | d :: l3 => if bool_decide (d = ">"%char) then Some l3 else None
                                | [] => None
                                end
                   | None => None
                   end
                 else None
             | [] => None
             end).

Definition escapeBoundary (tag content : string) : string :=
  replace_all (boundary_regex tag) DEFAULT_PLACEHOLDER content.

Definition wrapWithBoundary (tag content : string) (options : option PromptInjectionSanitizerOptions)
    : string + string :=
  if negb (valid_tag tag) then
    inr ("PromptInjectionSanitizer.wrapWithBoundary: invalid boundary tag " +:+ in_quotes tag +:+
         "; expected an XML-name-like identifier.")
  else
    let escaped := escapeBoundary tag (sanitize content options) in
    inl ("<" +:+ tag +:+ ">" +:+ nl +:+ escaped +:+ nl +:+ "</" +:+ tag +:+ ">").

(** ** The output rail *)

Record PromptInjectionSanitizationPolicy : Type := {
  options : option PromptInjectionSanitizerOptions;
  maxDepth : nat;
}.

Definition mk_policy (o : option PromptInjectionSanitizerOptions) (depth : option nat) : PromptInjectionSanitizationPolicy :=
  {| options := o; maxDepth := default 50%nat depth |}.

Section Rail.
Context (self : PromptInjectionSanitizationPolicy).

Section Fields.
Context (walk : jv -> tstate -> jv * tstate).
Fixpoint sanitize_fields (c : positive) (fs : list (string * jv)) (st : tstate) : tstate :=
  match fs with
  | [] => st
  | (k, v) :: rest =>
      if is_forbidden k then sanitize_fields c rest st
      else let '(v', st') := walk v st in sanitize_fields c rest (rec_set c k v' st')
  end.
End Fields.

(** [left] is [maxDepth - depth]: containers are not entered at 0. *)
Fixpoint sanitizeUnknown (left : nat) (v : jv) (st : tstate) : jv * tstate :=
  match v with
  | JStr s => let t := sanitize s (options self) in (JStr t, set_modified (negb (bool_decide (t = s))) st)
  | JRef l =>
      match hp st !! l with
      | Some (OArr items) =>
          match left with
          | O => (v, set_depthExceeded true st)
          | S left' =>
              match seenMap st !! l with
              | Some c => (JRef c, st)
              | None => let '(c, st1) := open_clone l (OArr []) st in
                        (JRef c, walk_items (sanitizeUnknown left') c items st1)
              end
          end
      | Some (ORec fs _) =>
          match left with
          | O => (v, set_depthExceeded true st)
          | S left' =>
              match seenMap st !! l with
              | Some c => (JRef c, st)
              | None => let '(c, st1) := open_clone l (ORec [] []) st in
                        (JRef c, sanitize_fields (sanitizeUnknown left') c fs st1)
              end
          end
      | _ => (v, st)
      end
  | _ => (v, st)
  end.

Definition depth_reason : string :=
  "Tool output exceeds maximum sanitization depth (" +:+ Z_to_string (Z.of_nat (maxDepth self)) +:+
  "); unable to fully inspect for prompt-injection delimiters.".

Definition evaluateOutput (h : heap) (result : jv) : RailResult :=
  if is_nullish result then RailAllow
  else
    let '(sanitized, st) := sanitizeUnknown (maxDepth self) result (initial h) in
    if depthExceeded st then RailDeny depth_reason
    else if modified st then RailSanitize sanitized (hp st)
    else RailAllow.
End Rail.

(** ** Untrusted content stays inside its boundary *)

(** An opening or closing tag as a reader of the prompt may take it: any case, spaces
    around the name. *)
Definition boundary_word (tag : string) (w : list ascii) : Prop :=
  exists slash s1 t s2,
    w = "<"%char :: slash ++ s1 ++ t ++ s2 ++ [">"%char] /\ (slash = [] \/ slash = ["/"%char]) /\
    Forall (fun c => is_space c = true) s1 /\ Forall2 (fun c d => lower c = lower d) (chars tag) t /\
    Forall (fun c => is_space c = true) s2.

(** Case analysis on all characters. *)
Ltac every_char c := destruct c as [[] [] [] [] [] [] [] []]; vm_compute; try done.

Lemma tag_char_lower c : tag_char (lower c) = tag_char c.
Proof. every_char c. Qed.
Lemma tag_start_lower c : tag_start (lower c) = tag_start c.
Proof. every_char c. Qed.
Lemma tag_start_char c : tag_start c = true -> is_space c = false /\ c <> "/"%char.
Proof. every_char c. Qed.
Lemma tag_char_plain c : tag_char c = true -> c <> "<"%char /\ c <> "["%char /\ c <> ">"%char /\ is_space c = false.
Proof. every_char c. Qed.
Lemma space_plain c : is_space c = true -> c <> "<"%char /\ c <> "["%char /\ c <> ">"%char /\ c <> "/"%char.
Proof. every_char c. Qed.
Lemma lower_dot c : lower c = "."%char -> is_line_end c = false.
Proof. every_char c. Qed.

Lemma ci_tag_char p c : lower p = lower c -> tag_char p = true -> tag_char c = true.
Proof. intros Hl Hp. by rewrite <- tag_char_lower, <- Hl, tag_char_lower. Qed.
Lemma ci_tag_start p c : lower p = lower c -> tag_start p = true -> tag_start c = true.
Proof. intros Hl Hp. by rewrite <- tag_start_lower, <- Hl, tag_start_lower. Qed.

(** The characters of a tag, and its first. *)
Lemma valid_tag_chars tag :
  valid_tag tag = true -> exists c l, chars tag = c :: l /\ tag_start c = true /\ Forall (fun c => tag_char c = true) (c :: l).
Proof.
  unfold valid_tag. destruct (chars tag) as [|c l]; [done|]. intros [Hc Hl]%andb_prop. exists c, l. split_and!; [done|done|].
  constructor; [unfold tag_char; by rewrite Hc|]. apply Forall_forall. intros x Hx%list_elem_of_In.
  by apply (proj1 (forallb_forall _ _) Hl).
Qed.

Lemma ci_tag_chars ps t :
  Forall2 (fun c d => lower c = lower d) ps t -> Forall (fun c => tag_char c = true) ps -> Forall (fun c => tag_char c = true) t.
Proof. induction 1 as [|p c ps t Hl _ IH]; intros Hf; inversion Hf; subst; constructor; eauto using ci_tag_char. Qed.

Lemma strip_tag_ci ps t l :
  Forall2 (fun c d => lower c = lower d) ps t -> strip_tag ps (t ++ l) = Some l.
Proof.
  induction 1 as [|p c ps t Hl _ IH]; [done|]. cbn [strip_tag app]. unfold tag_matches. case_bool_decide as Hp.
  - subst. rewrite lower_dot by done. done.
  - by rewrite bool_decide_true.
Qed.

Lemma drop_spaces s c l :
  Forall (fun c => is_space c = true) s -> is_space c = false -> drop_while is_space (s ++ c :: l) = c :: l.
Proof. intros Hs Hc. induction Hs as [|x s Hx _ IH]; simpl; [by rewrite Hc|by rewrite Hx]. Qed.

Lemma skip_slash_word slash s1 c l :
  slash = [] \/ slash = ["/"%char] -> Forall (fun c => is_space c = true) s1 -> c <> "/"%char ->
  skip_slash (slash ++ s1 ++ c :: l) = s1 ++ c :: l.
Proof.
  intros [->| ->] Hs Hc; [|done]. unfold skip_slash. simpl. destruct s1 as [|x s1]; simpl.
  - by rewrite bool_decide_false.
  - inversion Hs; subst. rewrite bool_decide_false; [done|]. by apply space_plain.
Qed.

(** The expression matches every such word. *)
Lemma regex_matches_word tag w prev r :
  valid_tag tag = true -> boundary_word tag w -> boundary_regex tag prev (w ++ r) = Some (length w).
Proof.
  intros (c & l & Htag & Hc & Hall)%valid_tag_chars (slash & s1 & t & s2 & -> & Hslash & Hs1 & Ht & Hs2).
  rewrite Htag in Ht. inversion Ht as [|? d ? t' Hd Ht']; subst. unfold boundary_regex. cbn [app].
  destruct (tag_start_char d) as [Hsp Hsl]; [by eapply ci_tag_start|].
  rewrite <- !app_assoc. cbn [app]. rewrite bool_decide_true, skip_slash_word, drop_spaces by done.
  rewrite <- (app_assoc t'), (app_comm_cons t'), Htag, (strip_tag_ci (c :: l) (d :: t')) by done.
  rewrite <- app_assoc. cbn [app]. rewrite drop_spaces by done. rewrite bool_decide_true by done.
  unfold matched. simpl. f_equal. repeat (rewrite !length_app; simpl). lia.
Qed.

(** No character of the word but its first opens a tag or a placeholder. *)
Lemma word_chars tag w :
  valid_tag tag = true -> boundary_word tag w ->
  exists w', w = "<"%char :: w' /\ "<"%char ∉ w' /\ "["%char ∉ w' /\ last w' = Some ">"%char.
Proof.
  intros (c & l & Htag & _ & Hall)%valid_tag_chars (slash & s1 & t & s2 & -> & Hslash & Hs1 & Ht & Hs2).
  rewrite Htag in Ht. apply ci_tag_chars in Ht; [|done]. eexists. split; [done|].
  assert (forall x, x = "<"%char \/ x = "["%char -> x ∉ slash ++ s1 ++ t ++ s2 ++ [">"%char]) as Hn.
  { intros x Hx. rewrite !elem_of_app. rewrite Forall_forall in Hs1, Ht, Hs2.
    intros [Hi|[Hi|[Hi|[Hi|Hi]]]].
    - destruct Hslash as [->| ->]; set_unfold; naive_solver.
    - apply Hs1, space_plain in Hi. naive_solver.
    - apply Ht, tag_char_plain in Hi. naive_solver.
    - apply Hs2, space_plain in Hi. naive_solver.
    - set_unfold. naive_solver. }
  split_and!; [by apply Hn; left|by apply Hn; right|]. by rewrite !app_assoc, last_snoc.
Qed.

(** A match takes at least one character. *)
Lemma skip_slash_length l : (length (skip_slash l) <= length l)%nat.
Proof. destruct l as [|c l]; [done|]. simpl. case_bool_decide; simpl; lia. Qed.
Lemma drop_while_length {A} (p : A -> bool) l : (length (drop_while p l) <= length l)%nat.
Proof. induction l as [|c l IH]; [done|]. simpl. destruct (p c); simpl; lia. Qed.
Lemma strip_tag_length ps l r : strip_tag ps l = Some r -> (length r <= length l)%nat.
Proof.
  revert l. induction ps as [|p ps IH]; intros l; simpl; [intros [= ->]; lia|].
  destruct l as [|c l]; [done|]. destruct (tag_matches p c); [|done]. intros Hs%IH. simpl. lia.
Qed.

Lemma boundary_regex_progress tag prev l n : boundary_regex tag prev l = Some n -> (1 <= n)%nat.
Proof.
  unfold boundary_regex, matched. destruct l as [|c l]; [done|]. case_bool_decide; [|done].
  destruct (strip_tag _ _) as [l2|] eqn:H2; [|done]. apply strip_tag_length in H2.
  pose proof (drop_while_length is_space l2) as H3. destruct (drop_while is_space l2) as [|d l3]; [done|].
  case_bool_decide; [|done]. intros [= <-]. pose proof (drop_while_length is_space (skip_slash l)).
  pose proof (skip_slash_length l). simpl in *. lia.
Qed.

(** A replacement text without a dollar sign is inserted as it is. *)
Lemma expand_plain template before found after :
  "$"%char ∉ template -> expand template before found after = template.
Proof.
  induction template as [|c rest IH]; [done|]. intros H. apply not_elem_of_cons in H as [Hc Hr].
  specialize (IH Hr). assert (expand (c :: rest) before found after = c :: expand rest before found after) as ->; [|by rewrite IH].
  destruct c as [[] [] [] [] [] [] [] []]; simpl; try done.
Qed.

Lemma default_plain : "$"%char ∉ chars DEFAULT_PLACEHOLDER.
Proof. vm_compute. set_unfold. naive_solver. Qed.

(** Up to the first replacement the text is the original's. *)
Lemma gsub_prefix m ph fuel before l :
  "$"%char ∉ ph ->
  (length l <= fuel)%nat -> (forall prev l n, m prev l = Some n -> (1 <= n)%nat) ->
  exists u x y, gsub m ph fuel before l = u ++ x /\ l = u ++ y /\ ((x = [] /\ y = []) \/ exists x', x = ph ++ x').
Proof.
  intros Hph Hfuel Hm. revert before l Hfuel. induction fuel as [|fuel IH]; intros before l Hfuel.
  - destruct l; [|simpl in Hfuel; lia]. exists [], [], []. auto.
  - destruct l as [|c l]; simpl in *; [exists [], [], []; auto|]. destruct (m (head before) (c :: l)) as [n|].
    + rewrite expand_plain by done. eexists [], _, _. split_and!; [done|done|right; eauto].
    + destruct (IH (c :: before) l ltac:(lia)) as (u & x & y & -> & -> & Hx). exists (c :: u), x, y. auto.
Qed.

Lemma gsub_no_word tag fuel before l a w b :
  valid_tag tag = true -> (length l <= fuel)%nat -> boundary_word tag w ->
  gsub (boundary_regex tag) (chars DEFAULT_PLACEHOLDER) fuel before l <> a ++ w ++ b.
Proof.
  intros Hv Hfuel Hw. destruct (word_chars tag w Hv Hw) as (w' & Hw' & Hlt & Hbr & _).
  revert before l Hfuel a. induction fuel as [|fuel IH]; intros before l Hfuel a Hg.
  - destruct l; [|simpl in Hfuel; lia]. simpl in Hg. rewrite Hw' in Hg. by destruct a.
  - destruct l as [|c l]; [rewrite Hw' in Hg; by destruct a|]. simpl in Hfuel. cbn [gsub] in Hg.
    destruct (boundary_regex tag (head before) (c :: l)) as [n|] eqn:Hm.
    + rewrite (expand_plain _ _ _ _ default_plain) in Hg. pose proof (boundary_regex_progress _ _ _ _ Hm) as Hn.
      assert (length (drop n (c :: l)) <= fuel)%nat as Hd by (rewrite length_drop; simpl; lia).
      apply app_eq_inv in Hg as [(k & Ha & Hk)|(k & Ha & Hk)].
      * destruct k as [|z k].
        { exact (IH _ _ Hd [] (eq_sym Hk)). }
        assert ("<"%char ∈ chars DEFAULT_PLACEHOLDER) as Hin.
        { rewrite Hw' in Hk. simpl in Hk. injection Hk as <- _. rewrite Ha. set_solver. }
        vm_compute in Hin. set_unfold in Hin. naive_solver.
      * exact (IH _ _ Hd k Hk).
    + destruct a as [|z a].
      * rewrite Hw' in Hg. cbn [app] in Hg. injection Hg as -> Hg.
        destruct (gsub_prefix (boundary_regex tag) (chars DEFAULT_PLACEHOLDER) fuel ("<"%char :: before) l
                    default_plain ltac:(lia) (boundary_regex_progress tag)) as (u & x & y & Hgu & -> & Hx).
        assert (u ++ x = w' ++ b) as Hg' by (rewrite <- Hgu; exact Hg). apply app_eq_inv in Hg' as [(k & Hu & Hk)|(k & Hu & Hk)].
        -- subst u. rewrite <- app_assoc in Hm. change ("<"%char :: w' ++ k ++ y) with (("<"%char :: w') ++ k ++ y) in Hm.
           rewrite <- Hw', (regex_matches_word tag w) in Hm by done. done.
        -- destruct k as [|z k].
           { rewrite app_nil_r in Hu. subst w'. change ("<"%char :: u ++ y) with (("<"%char :: u) ++ y) in Hm.
             by rewrite <- Hw', (regex_matches_word tag w) in Hm by done. }
           destruct Hx as [[-> _]|[x' ->]]; [done|]. injection Hk as <- _. apply Hbr. rewrite Hu. set_solver.
      * injection Hg as -> Hg. exact (IH (z :: before) l ltac:(lia) a Hg).
Qed.

Lemma escaped_no_word tag content a w b :
  valid_tag tag = true -> boundary_word tag w -> chars (escapeBoundary tag content) <> a ++ w ++ b.
Proof.
  intros Hv Hw. unfold escapeBoundary, replace_all. rewrite list_ascii_of_string_of_list_ascii.
  apply gsub_no_word; [done| |done]. apply Nat.eq_le_incl. clear. induction content; simpl; congruence.
Qed.

(** The closing tag, from the line end before it, holds no boundary but itself. *)
Lemma trailer_word tag w k b :
  valid_tag tag = true -> boundary_word tag w ->
  "010"%char :: "<"%char :: "/"%char :: chars tag ++ [">"%char] = k ++ w ++ b -> b = [].
Proof.
  intros Hv Hw Ht. destruct (word_chars tag w Hv Hw) as (w' & -> & _ & _ & Hlast).
  destruct (valid_tag_chars tag Hv) as (c & l & Htag & _ & Hall). rewrite <- Htag, Forall_forall in Hall.
  destruct k as [|z k]; [done|]. injection Ht as <- Ht. destruct k as [|z k].
  - injection Ht as Ht. destruct b as [|x b _] using rev_ind; [done|]. exfalso.
    rewrite app_comm_cons, app_assoc in Ht. apply app_inj_tail in Ht as [Ht _].
    assert (">"%char ∈ w') as Hin by (apply last_Some_elem_of; done).
    assert (">"%char ∈ "/"%char :: chars tag) as [?|Hin2]%elem_of_cons by (rewrite Ht; set_solver); [done|].
    apply Hall, tag_char_plain in Hin2. naive_solver.
  - exfalso. injection Ht as <- Ht. assert ("<"%char ∈ "/"%char :: chars tag ++ [">"%char]) as Hin by (rewrite Ht; set_solver).
    apply elem_of_cons in Hin as [?|[Hin|Hin]%elem_of_app]; [done| |set_unfold; naive_solver].
    apply Hall, tag_char_plain in Hin. naive_solver.
Qed.

(** A word in the content and the closing tag is the closing tag. *)
Lemma wrapped_tail tag w b k content :
  valid_tag tag = true -> boundary_word tag w ->
  chars (escapeBoundary tag content) ++ ["010"%char; "<"%char; "/"%char] ++ chars tag ++ [">"%char] = k ++ w ++ b -> b = [].
Proof.
  intros Hv Hw Hk. destruct (word_chars tag w Hv Hw) as (w' & Hw' & Hlt & _ & Hlast).
  apply app_eq_inv in Hk as [(k2 & Hb & Hk)|(k2 & -> & Hk)]; [|by eapply trailer_word].
  apply app_eq_inv in Hk as [(k3 & Hw2 & Hk)|(k3 & -> & Hk)].
  - destruct k3 as [|z k3].
    + rewrite app_nil_r in Hw2. subst k2. exfalso. apply (escaped_no_word tag content k w [] Hv Hw). by rewrite app_nil_r.
    + exfalso. injection Hk as <- Hk. rewrite Hw' in Hw2. destruct k2 as [|y k2]; [done|]. injection Hw2 as <- Hw2.
      destruct k3 as [|x k3].
      * rewrite Hw2, last_snoc in Hlast. done.
      * injection Hk as <- _. apply Hlt. rewrite Hw2. set_solver.
  - exfalso. by apply (escaped_no_word tag content k w k3 Hv Hw).
Qed.

(** C38. Wrapped content cannot leave its boundary: whatever the content, the only
    opening or closing tags of that name in the result, in any case and with any
    spaces around the name, are the one it starts with and the one it ends with. *)
Theorem wrapped_content_stays_inside tag content options out a w b :
  wrapWithBoundary tag content options = inl out ->
  chars out = a ++ w ++ b -> boundary_word tag w -> a = [] \/ b = [].
Proof.
  unfold wrapWithBoundary. destruct (valid_tag tag) eqn:Hv; [|done]. simpl. intros [= <-].
  rewrite !chars_app. set (body := chars (escapeBoundary tag _)).
  intros Hout Hw. destruct (word_chars tag w Hv Hw) as (w' & Hw' & Hlt & _ & Hlast).
  destruct (valid_tag_chars tag Hv) as (c & l & Htag & _ & Hall). rewrite <- Htag, Forall_forall in Hall.
  destruct a as [|z a]; [by left|right]. simpl in Hout. injection Hout as <- Hout.
  assert (("<"%char ∉ chars tag ++ [">"%char; "010"%char])) as Hhead.
  { intros [Hin|Hin]%elem_of_app; [apply Hall, tag_char_plain in Hin; naive_solver|set_unfold; naive_solver]. }
  change ((chars tag ++ [">"%char; "010"%char] ++ body ++ ["010"%char; "<"%char; "/"%char] ++ chars tag ++ [">"%char])
          = a ++ w ++ b) in Hout.
  rewrite (app_assoc (chars tag)) in Hout. apply app_eq_inv in Hout as [(k & Ha & Hk)|(k & Ha & Hk)].
  - destruct k as [|z k].
    + simpl in Hk. rewrite app_nil_r in Ha. symmetry in Hk. apply (wrapped_tail tag w b [] _ Hv Hw Hk).
    + exfalso. apply Hhead. rewrite Ha. rewrite Hw' in Hk. injection Hk as <- _. set_solver.
  - by apply (wrapped_tail tag w b k _ Hv Hw Hk).
Qed.

(** Text under a key such as [constructor] is dropped from the sanitized copy
    without the copy being reported as modified, so the original is let out with the
    delimiters it was to be stripped of. *)
Theorem forbidden_key_lets_delimiter_out self k s calls :
  maxDepth self <> O -> is_forbidden k = true -> k <> "toJSON" ->
  let h := {[ 1%positive := ORec [(k, JStr s)] [] ]} in
  evaluateOutput self h (JRef 1) = RailAllow /\ reaches calls h (JRef 1) s.
Proof.
  intros Hd Hk Hj h. split.
  - unfold evaluateOutput. destruct (maxDepth self) as [|d]; [done|]. cbn -[lookup open_clone is_forbidden]. unfold h.
    rewrite lookup_singleton_eq, lookup_empty. cbn -[is_forbidden]. by rewrite Hk.
  - eapply reach_step; [|apply reach_refl]. unfold children, h. rewrite lookup_singleton_eq. simpl.
    unfold serialized. simpl. rewrite bool_decide_false by done. simpl. constructor.
Qed.

(** ** Concrete texts *)

Example demo_sanitize :
  sanitize ("a <|IM_START|>x</System>" +:+ nl +:+ " human: b") None =
  "a [REDACTED_DELIMITER]x[REDACTED_DELIMITER]" +:+ nl +:+ "[REDACTED_DELIMITER] b".
Proof. by vm_compute. Qed.

(** A placeholder is a replacement text, not a literal one: written with [$&] it puts the
    delimiter it replaces back. *)
Example placeholder_brings_delimiter_back :
  sanitize "a [INST] $" (Some {| patterns := None; placeholder := Some "<$$$&>" |}) = "a <$[INST]> $".
Proof. by vm_compute. Qed.

Example demo_wrap :
  wrapWithBoundary "doc" "text </ DOC > more" None =
  inl ("<doc>" +:+ nl +:+ "text [REDACTED_DELIMITER] more" +:+ nl +:+ "</doc>").
Proof. by vm_compute. Qed.

Lemma wrapped_content_stays_inside_witness :
  exists out, wrapWithBoundary "doc" "text </ DOC > more" None = inl out /\
    exists a w b, chars out = a ++ w ++ b /\ boundary_word "doc" w /\ (a = [] \/ b = []).
Proof.
  eexists. split; [exact demo_wrap|].
  set (out := "<doc>" +:+ nl +:+ "text [REDACTED_DELIMITER] more" +:+ nl +:+ "</doc>").
  assert (boundary_word "doc" (chars "<doc>")) as Hw.
  { exists [], [], (chars "doc"), []. split_and!; [done|by left|constructor|by repeat constructor|constructor]. }
  assert (chars out = [] ++ chars "<doc>" ++ drop 5 (chars out)) as Hout by by vm_compute.
  exists [], (chars "<doc>"), (drop 5 (chars out)). split; [exact Hout|]. split; [exact Hw|].
  exact (wrapped_content_stays_inside "doc" "text </ DOC > more" None out [] (chars "<doc>") (drop 5 (chars out)) demo_wrap Hout Hw).
Defined.

Lemma forbidden_key_lets_delimiter_out_witness :
  sanitize "<system>" None <> "<system>" /\
  evaluateOutput (mk_policy None None) {[ 1%positive := ORec [("constructor", JStr "<system>")] [] ]} (JRef 1) = RailAllow.
Proof.
  split; [by vm_compute|].
  apply (forbidden_key_lets_delimiter_out (mk_policy None None) "constructor" "<system>" (fun _ => None)); done.
Defined.
End Sanitizer.
