(* ===== verification/Retry.v ===== *)
(** * Retry with backoff (packages/core/src/utils/retry.ts)

    The operation is any computation over the caller's world; the clock's timer,
    the random source, the abort signal and the two hooks are functions of that
    world.  Every call of the operation, its failure, every notification and every
    wait is an event. *)

From S2P Require Export Num Types.

#[local] Open Scope string_scope.
#[local] Open Scope list_scope.
#[local] Open Scope Z_scope.

Module Retry.

(** What the code can see of a thrown value: an instance of [AgenticError], another
    object with its properties and its [cause], or a primitive. *)
Inductive thrown : Type :=
| ThrownAgentic
| ThrownObject (fields : obj) (cause : option thrown)
| ThrownPrimitive (v : value).

(** The errors of a program: their view, and how the code makes its own. *)
Class Errors (Err : Type) := {
  view : Err -> thrown;
  native : string -> string -> Err;
}.

#[global] Instance js_errors : Errors error := {
  view e := match e with
            | AgenticErr _ => ThrownAgentic
            | NativeErr name message => ThrownObject [("name", VStr name); ("message", VStr message)] None
            | NonError r => ThrownPrimitive (VStr r)
            end;
  native := NativeErr;
}.

Definition field (fs : obj) (k : string) : value := default VUndef (obj_get fs k).

(** ** Which failures are transient *)

Definition TRANSPORT_CODES : list string :=
  ["ECONNRESET"; "ECONNREFUSED"; "ECONNABORTED"; "ETIMEDOUT"; "ESOCKETTIMEDOUT"; "ENOTFOUND";
   "EAI_AGAIN"; "EPIPE"; "EHOSTUNREACH"; "ENETUNREACH"; "ENETRESET"; "UND_ERR_CONNECT_TIMEOUT";
   "UND_ERR_HEADERS_TIMEOUT"; "UND_ERR_BODY_TIMEOUT"; "UND_ERR_SOCKET"].

Definition TRANSPORT_NAMES : list string :=
  ["APIConnectionError"; "APIConnectionTimeoutError"; "ConnectTimeoutError"; "FetchError"; "TimeoutError"].

Definition is_member (names : list string) (v : value) : bool :=
  match v with VStr s => existsb (String.eqb s) names | _ => false end.

Definition isAbortError (err : thrown) : bool :=
  match err with
  | ThrownObject fs _ => match field fs "name" with VStr s => String.eqb s "AbortError" | _ => false end
  | _ => false
  end.

(** [carrier.status ?? carrier.statusCode], when a finite number. *)
Definition readStatus (err : thrown) : option num :=
  match err with
  | ThrownObject fs _ =>
      match (match field fs "status" with VUndef | VNull => field fs "statusCode" | v => v end) with
      | VNum n => if is_finite n then Some n else None
      | _ => None
      end
  | _ => None
  end.

Fixpoint isTransportError (err : thrown) (depth : Z) {struct err} : bool :=
  match err with
  | ThrownPrimitive _ => false
  | ThrownAgentic => false
  | ThrownObject fs cause =>
      if 3 <? depth then false
      else if isAbortError err then false
      else if is_member TRANSPORT_CODES (field fs "code") then true
      else if is_member TRANSPORT_NAMES (field fs "name") then true
      else match cause with
           | Some c => isTransportError c (depth + 1)
           | None => false
           end
  end.

Definition isRetryableModelError (err : thrown) : bool :=
  match err with
  | ThrownAgentic => false
  | _ =>
      if isAbortError err then false
      else match readStatus err with
           | Some status => bool_decide (status = num_of_Z 429) || num_le (num_of_Z 500) status
           | None => isTransportError err 0
           end
  end.

(** A finite number, in milliseconds and not negative. *)
Definition hint_ms (to_ms : num -> num) (v : value) : option num :=
  match v with
  | VNum n => if is_finite n then Some (num_max (num_of_Z 0) (to_ms n)) else None
  | _ => None
  end.

Definition seconds (n : num) : num := num_mul n (num_of_Z 1000).

Definition readRetryAfterMs (err : thrown) : option num :=
  match err with
  | ThrownObject fs _ =>
      match hint_ms (fun n => n) (field fs "retryAfterMs") with
      | Some ms => Some ms
      | None =>
          match hint_ms seconds (field fs "retryAfterSeconds") with
          | Some ms => Some ms
          | None =>
              hint_ms seconds (match field fs "retryAfter" with
                            | VStr s => VNum (str_to_num s)
                            | v => v
                            end)
          end
      end
  | _ => None
  end.

(** ** The loop *)

Section Retry.
Context {Err E W T : Type} `{!Errors Err}.
Notation M := (M Err E W).

Record RetryAttemptEvent : Type := {
  attempt_number : Z;
  attempt_max : Z;
  delayMs : num;
  attempt_error : Err;
}.

(** [sleep] is the caller's, when given; [signal] says whether a signal was. *)
Record RetryOptions : Type := {
  opt_maxAttempts : option num;
  opt_initialDelayMs : option num;
  opt_maxDelayMs : option num;
  opt_jitter : option num;
  opt_isRetryable : option (Err -> bool);
  opt_onRetry : option (RetryAttemptEvent -> W -> outcome Err unit * W);
  opt_sleep : option (num -> W -> outcome Err unit * W);
  opt_signal : bool;
}.

Inductive retry_event : Type :=
| Attempt (n : Z)
| Failed (n : Z) (err : Err)
| Retried (event : RetryAttemptEvent)
| Slept (ms : num).

(** What the host provides: the state of the signal, [Math.random], and a timer
    that an abort cuts short. *)
Record RetryHost : Type := {
  aborted : W -> bool;
  random : W -> num * W;
  timer : num -> W -> W;
}.

Context (inject : retry_event -> E) (host : RetryHost) (options : RetryOptions) (operation : M T).

Definition is_aborted (w : W) : bool := opt_signal options && aborted host w.

Definition defaultSleep (ms : num) : M unit :=
  (a <- ask is_aborted ;;
   if num_le ms (num_of_Z 0) || a then ret tt else modify (timer host ms))%eff.

Definition sleep (ms : num) : M unit :=
  match opt_sleep options with
  | Some f => lift (f ms)
  | None => defaultSleep ms
  end.

Definition isRetryable (e : Err) : bool :=
  match opt_isRetryable options with
  | Some f => f e
  | None => isRetryableModelError (view e)
  end.

Definition computeDelayMs (attempt : Z) (initialDelayMs maxDelayMs jitter : num) (e : Err) : M num :=
  match readRetryAfterMs (view e) with
  | Some hinted => ret (num_min hinted maxDelayMs)
  | None =>
      let exponential := num_min (num_mul initialDelayMs (mk_num (2 ^ (attempt - 1)) 0)) maxDelayMs in
      (r <- lift (fun w => let '(r, w') := random host w in (Ret r, w')) ;;
       ret (num_max (num_of_Z 0)
              (num_round (num_mul exponential (num_sub (num_of_Z 1) (num_mul jitter r))))))%eff
  end.

(** [onRetry]: a hook that fails is ignored. *)
Definition notify (event : RetryAttemptEvent) : M unit :=
  match opt_onRetry options with
  | Some f => (emit (inject (Retried event)) ;; catch (lift (f event)) (fun _ => ret tt))%eff
  | None => ret tt
  end.

Fixpoint retry_loop (left : nat) (attempt maxAttempts : Z) (initialDelayMs maxDelayMs jitter : num)
    (lastError : Err) {struct left} : M T :=
  (match left with
   | O => throw lastError
   | S left' =>
       a <- ask is_aborted ;;
       if a : bool then throw lastError
       else
         emit (inject (Attempt attempt)) ;;
         r <- tried operation ;;
         match r with
         | inl v => ret v
         | inr err =>
             emit (inject (Failed attempt err)) ;;
             if (attempt =? maxAttempts) || negb (isRetryable err) then throw err
             else
               delay <- computeDelayMs attempt initialDelayMs maxDelayMs jitter err ;;
               notify {| attempt_number := attempt; attempt_max := maxAttempts;
                         delayMs := delay; attempt_error := err |} ;;
               a1 <- ask is_aborted ;;
               if a1 : bool then throw err
               else
                 emit (inject (Slept delay)) ;;
                 sleep delay ;;
                 a2 <- ask is_aborted ;;
                 if a2 : bool then throw err
                 else retry_loop left' (attempt + 1) maxAttempts initialDelayMs maxDelayMs jitter err
         end
   end)%eff.

Definition type_error (message : string) : M T := throw (native "TypeError" message).

(** [Number.isFinite(value) && value >= 0] *)
Definition finite_delay (n : num) : bool := is_finite n && num_le (num_of_Z 0) n.

Definition abortError : Err := native "AbortError" "Retry aborted before any attempt was made.".

Definition retryWithBackoff : M T :=
  let maxAttempts := default (num_of_Z 3) (opt_maxAttempts options) in
  let initialDelayMs := default (num_of_Z 250) (opt_initialDelayMs options) in
  let maxDelayMs := default (num_of_Z 10000) (opt_maxDelayMs options) in
  let jitter := default (NDec 5 (-1)) (opt_jitter options) in
  match positive_integer maxAttempts with
  | None =>
      type_error ("retryWithBackoff: maxAttempts must be a positive integer, received " +:+
                  num_to_string maxAttempts +:+ ".")
  | Some max =>
      if negb (num_le (num_of_Z 0) jitter && num_le jitter (num_of_Z 1)) then
        type_error ("retryWithBackoff: jitter must be between 0 and 1, received " +:+
                    num_to_string jitter +:+ ".")
      else if negb (finite_delay initialDelayMs) then
        type_error ("retryWithBackoff: initialDelayMs must be a finite non-negative number, received " +:+
                    num_to_string initialDelayMs +:+ ".")
      else if negb (finite_delay maxDelayMs) then
        type_error ("retryWithBackoff: maxDelayMs must be a finite non-negative number, received " +:+
                    num_to_string maxDelayMs +:+ ".")
      else retry_loop (Z.to_nat max) 1 max initialDelayMs maxDelayMs jitter abortError
  end.

(** ** What a run keeps *)

Section Keeps.
Context (I : W -> Prop) (P : E -> Prop).
Context (HP : forall e, P (inject e)).
Context (Hop : keeps I P operation).
Context (Hrandom : forall w, I w -> I (random host w).2) (Htimer : forall ms w, I w -> I (timer host ms w)).
Context (Hhook : forall f e w, opt_onRetry options = Some f -> I w -> I (f e w).2).
Context (Hsleep : forall f ms w, opt_sleep options = Some f -> I w -> I (f ms w).2).

Lemma notify_keeps ev : keeps I P (notify ev).
Proof using HP Hhook. unfold notify. repeat keeps_step; eauto. Qed.

Lemma sleep_keeps ms : keeps I P (sleep ms).
Proof using Htimer Hsleep. unfold sleep, defaultSleep. repeat keeps_step; eauto. Qed.

Lemma computeDelay_keeps n initial top j e : keeps I P (computeDelayMs n initial top j e).
Proof using Hrandom.
  unfold computeDelayMs. repeat keeps_step. intros w Hw. specialize (Hrandom w Hw).
  by destruct (random host w).
Qed.

Lemma retry_loop_keeps left n m initial top j last : keeps I P (retry_loop left n m initial top j last).
Proof using Type*.
  revert n last. induction left as [|left IH]; intros n last; simpl retry_loop;
    repeat first [keeps_step | apply computeDelay_keeps | apply notify_keeps | apply sleep_keeps | apply IH];
    auto.
Qed.

(** What every part of a retried call keeps, the whole keeps. *)
Lemma retry_keeps : keeps I P retryWithBackoff.
Proof using Type*.
  unfold retryWithBackoff, type_error. cbv zeta. repeat keeps_step. apply retry_loop_keeps.
Qed.
End Keeps.

(** ** What a run looks like

    The settings in force, the wait that is due, and the runs of the loop: which calls
    it makes in which world, and how it ends. *)

Definition settings_max : Z := default 3 (positive_integer (default (num_of_Z 3) (opt_maxAttempts options))).
Definition settings_initial : num := default (num_of_Z 250) (opt_initialDelayMs options).
Definition settings_maxDelay : num := default (num_of_Z 10000) (opt_maxDelayMs options).
Definition settings_jitter : num := default (NDec 5 (-1)) (opt_jitter options).

(** The settings the code accepts. *)
Definition settings_valid : bool :=
  is_some (positive_integer (default (num_of_Z 3) (opt_maxAttempts options))) &&
  (num_le (num_of_Z 0) settings_jitter && num_le settings_jitter (num_of_Z 1)) &&
  finite_delay settings_initial && finite_delay settings_maxDelay.

(** The backoff after attempt [n], for the number [u] that was drawn: the initial delay
    doubled with every attempt and capped, less a share of at most [jitter], to the
    nearest millisecond. *)
Definition backoff (n : Z) (u : num) (d : num) : Prop :=
  exists i j top x z, num_Q settings_initial = Some i /\ num_Q settings_jitter = Some j /\
    num_Q settings_maxDelay = Some top /\ num_Q u = Some x /\
    finite_in (fun q => q == inject_Z z)%Q d /\
    let due := (Qmin (i * inject_Z (2 ^ (n - 1))) top * (1 - j * x))%Q in
    (inject_Z z - (1 # 2) <= due < inject_Z z + (1 # 2))%Q.

(** The wait after attempt [n] failed with [e]: the hint of the error, capped, or the
    backoff. *)
Definition due (n : Z) (e : Err) (w : W) (d : num) (w' : W) : Prop :=
  match readRetryAfterMs (view e) with
  | Some hinted => d = num_min hinted settings_maxDelay /\ w' = w
  | None => exists u, random host w = (u, w') /\ backoff n u d
  end.

(** A wait is finite, not negative, and within every whole number of
    milliseconds that bounds [maxDelayMs]. *)
Definition delay_ok (d : num) : Prop :=
  finite_in (fun q => (0 <= q)%Q /\ forall z top, num_Q settings_maxDelay = Some top ->
    (top <= inject_Z z)%Q -> (q <= inject_Z z)%Q) d.

Definition noted (event : RetryAttemptEvent) : list retry_event :=
  if is_some (opt_onRetry options) then [Retried event] else [].

Definition event_of (n : Z) (d : num) (e : Err) : RetryAttemptEvent :=
  {| attempt_number := n; attempt_max := settings_max; delayMs := d; attempt_error := e |}.

(** The calls that leave the loop: what they end in, and in which world. *)
Definition operates (w : W) (o : outcome Err T) (w' : W) : Prop := exists l, operation w = (o, w', l).

Definition told (event : RetryAttemptEvent) (w : W) (o : outcome Err unit) (w' : W) : Prop :=
  match opt_onRetry options with
  | Some f => exists o', f event w = (o', w') /\ o = match o' with Diverge => Diverge | _ => Ret tt end
  | None => o = Ret tt /\ w' = w
  end.

Definition waited (d : num) (w : W) (o : outcome Err unit) (w' : W) : Prop :=
  match opt_sleep options with
  | Some f => f d w = (o, w')
  | None => o = Ret tt /\ w' = if num_le d (num_of_Z 0) || is_aborted w then w else timer host d w
  end.

(** Attempt [n] failed with [e], is worth another, and the wait [d] is due. *)
Record failed (n : Z) (w : W) (e : Err) (d : num) (w' : W) : Prop := {
  not_aborted : is_aborted w = false;
  not_last : n < settings_max;
  transient : isRetryable e = true;
  bounded_wait : delay_ok d;
  failure : exists w1, operates w (Throw e) w1 /\ due n e w1 d w';
}.

(** [schedule n last w l o w']: from attempt [n] on, with [last] the latest failure and
    in world [w], the events are [l] and the loop ends in [o] and [w'].  It gives up
    between attempts only in a world where the signal is aborted. *)
Inductive schedule : Z -> Err -> W -> list retry_event -> outcome Err T -> W -> Prop :=
| sched_aborted n last w : is_aborted w = true -> schedule n last w [] (Throw last) w
| sched_ended n last w o w1 :
    is_aborted w = false -> n <= settings_max -> operates w o w1 -> (forall e, o <> Throw e) ->
    schedule n last w [Attempt n] o w1
| sched_final n last w e w1 :
    is_aborted w = false -> operates w (Throw e) w1 ->
    n = settings_max \/ n < settings_max /\ isRetryable e = false ->
    schedule n last w [Attempt n; Failed n e] (Throw e) w1
| sched_hook_diverged n last w e d w2 w3 :
    failed n w e d w2 -> told (event_of n d e) w2 Diverge w3 ->
    schedule n last w ([Attempt n; Failed n e] ++ noted (event_of n d e)) Diverge w3
| sched_stopped n last w e d w2 w3 :
    failed n w e d w2 -> told (event_of n d e) w2 (Ret tt) w3 -> is_aborted w3 = true ->
    schedule n last w ([Attempt n; Failed n e] ++ noted (event_of n d e)) (Throw e) w3
| sched_wait_failed n last w e d w2 w3 o w4 :
    failed n w e d w2 -> told (event_of n d e) w2 (Ret tt) w3 -> is_aborted w3 = false ->
    waited d w3 o w4 -> o <> Ret tt ->
    schedule n last w ([Attempt n; Failed n e] ++ noted (event_of n d e) ++ [Slept d])
      (match o with Throw e' => Throw e' | _ => Diverge end) w4
| sched_stopped_waiting n last w e d w2 w3 w4 :
    failed n w e d w2 -> told (event_of n d e) w2 (Ret tt) w3 -> is_aborted w3 = false ->
    waited d w3 (Ret tt) w4 -> is_aborted w4 = true ->
    schedule n last w ([Attempt n; Failed n e] ++ noted (event_of n d e) ++ [Slept d]) (Throw e) w4
| sched_again n last w e d w2 w3 w4 l o w' :
    failed n w e d w2 -> told (event_of n d e) w2 (Ret tt) w3 -> is_aborted w3 = false ->
    waited d w3 (Ret tt) w4 -> is_aborted w4 = false -> schedule (n + 1) e w4 l o w' ->
    schedule n last w ([Attempt n; Failed n e] ++ noted (event_of n d e) ++ Slept d :: l) o w'.

(** ** The wait that is due *)

Context (Hrandom : forall w, finite_in (fun q => 0 <= q < 1)%Q (random host w).1).
Context (Hmax : settings_max <= 1024) (Hdouble : is_double settings_maxDelay).

Lemma power_of_two k : 0 <= k < 1024 -> finite_in (fun q => q == inject_Z (2 ^ k) /\ 0 <= q)%Q (mk_num (2 ^ k) 0).
Proof.
  intros Hk. assert (0 <= 2 ^ k < 2 ^ 1024) as [Hlo Hhi]
    by (split; [apply Z.pow_nonneg; lia|apply Z.pow_lt_mono_r; lia]).
  eapply finite_mono; [|apply mk_num_finite]; rewrite ?dec_Q_int.
  - intros q Hq. simpl in Hq. rewrite Hq, dec_Q_int. split; [done|]. by rewrite <- (Zle_Qle 0).
  - rewrite <- inject_Z_opp, <- !Zlt_Qlt. change double_limit with (2 ^ 1024). lia.
Qed.

(** A product that is capped: when it overflows, the cap is smaller. *)
Lemma capped_product a b c p q top :
  num_Q a = Some p -> num_Q b = Some q -> num_Q c = Some top ->
  (0 <= p)%Q -> (0 <= q)%Q -> (top < inject_Z double_limit)%Q ->
  finite_in (fun r => r == Qmin (p * q) top)%Q (num_min (num_mul a b) c).
Proof.
  intros Ha Hb Hc Hp Hq Ht. destruct (num_mul_nonneg _ _ _ _ Ha Hb Hp Hq) as [Hi|(r & Hr & _)].
  - rewrite Hi. exists top. split; [by destruct c|]. rewrite Q.min_r; [done|].
    destruct (Qlt_le_dec (p * q) (inject_Z double_limit)) as [Hlt|]; [|lra].
    destruct (num_mul_finite a b p q Ha Hb) as (r & Hr & _); [|by rewrite Hi in Hr].
    split; [|done]. pose proof double_limit_big. nra.
  - pose proof (mul_finite _ _ _ _ _ _ Ha Hb eq_refl Hr) as He.
    eapply finite_mono; [|by apply (num_min_Q _ _ r top)]. intros x Hx. simpl in Hx. by rewrite Hx, He.
Qed.

(** The whole number nearest to one that is not negative is not negative. *)
Lemma rounded_nonneg z s : (0 <= s)%Q -> (s < inject_Z z + (1 # 2))%Q -> (0 <= inject_Z z)%Q.
Proof.
  intros H1 H2. change 0%Q with (inject_Z 0). rewrite <- Zle_Qle.
  destruct (Z.le_gt_cases 0 z) as [|Hneg]; [done|]. exfalso.
  assert (inject_Z z <= inject_Z (-1))%Q as H by (rewrite <- Zle_Qle; lia).
  change (inject_Z (-1)) with (-1)%Q in H. lra.
Qed.

(** A share of [x] rounded to the nearest whole number. *)
Lemma rounded_share x y p q top :
  num_Q x = Some p -> num_Q y = Some q -> (0 <= p <= top)%Q -> (0 <= q <= 1)%Q ->
  (top < inject_Z double_limit)%Q ->
  exists z, finite_in (fun r => r == inject_Z z)%Q (num_max (num_of_Z 0) (num_round (num_mul x y))) /\
    (inject_Z z - (1 # 2) <= p * q < inject_Z z + (1 # 2))%Q.
Proof.
  intros Hx Hy [Hp0 Hp] [Hq0 Hq] Ht.
  assert (0 <= p * q)%Q as Hlo by nra. assert (p * q <= top)%Q as Hhi by nra.
  destruct (num_mul_finite x y p q Hx Hy) as (r & Hr & He); [split; lra|].
  destruct (num_mul x y) as [m e| |]; try done. injection Hr as Hr.
  destruct (num_round_Q m e) as (k & (i & Hi & Hik) & Hb). rewrite Hr, He in Hb. exists k. split; [|done].
  eapply finite_mono; [|apply (num_max_Q _ _ _ _ (num_of_Z_Q 0) Hi)].
  intros s Hs. simpl in Hs. rewrite dec_Q_int, Hik in Hs. rewrite Hs. apply Q.max_r.
  apply (rounded_nonneg k (p * q)); [done|apply Hb].
Qed.

(** A whole number within a half of what is below a whole number is not above it. *)
Lemma nearest_below z s t : (inject_Z z - (1 # 2) <= s)%Q -> (s <= inject_Z t)%Q -> (inject_Z z <= inject_Z t)%Q.
Proof.
  intros H1 H2. rewrite <- Zle_Qle. destruct (Z.le_gt_cases z t) as [|Hgt]; [done|]. exfalso.
  assert (inject_Z t + 1 <= inject_Z z)%Q; [|lra].
  change 1%Q with (inject_Z 1). rewrite <- inject_Z_plus, <- Zle_Qle. lia.
Qed.

(** The retry's own events, among those of the operation. *)
Context (project : E -> option retry_event) (Hproject : forall e, project (inject e) = Some e).
Context (Hquiet : forall w, wp operation w (fun _ _ l => filter_map project l = [])).

Section Loop.
Context (Hinitial : finite_delay settings_initial = true) (HmaxDelay : finite_delay settings_maxDelay = true).
Context (Hjitter : num_le (num_of_Z 0) settings_jitter && num_le settings_jitter (num_of_Z 1) = true).

Lemma finite_delay_Q n : finite_delay n = true -> finite_in (fun q => 0 <= q)%Q n.
Proof.
  unfold finite_delay. intros [Hf Hle]%andb_prop. destruct n as [m e| |]; try done.
  eexists. split; [done|]. apply num_le_Q in Hle. by rewrite dec_Q_int in Hle.
Qed.

Lemma jitter_Q : finite_in (fun q => 0 <= q <= 1)%Q settings_jitter.
Proof using Hjitter.
  apply andb_prop in Hjitter as [H0 H1]. destruct settings_jitter as [m e| |[]]; try done.
  eexists. split; [done|]. apply num_le_Q in H0, H1. rewrite dec_Q_int in H0, H1. by split.
Qed.

(** [1 - jitter * random()] is between 0 and 1. *)
Lemma share_in_unit r j x :
  num_Q settings_jitter = Some j -> num_Q r = Some x -> (0 <= j <= 1)%Q -> (0 <= x < 1)%Q ->
  finite_in (fun q => q == 1 - j * x /\ 0 <= q <= 1)%Q (num_sub (num_of_Z 1) (num_mul settings_jitter r)).
Proof.
  intros Hj Hx [Hj0 Hj1] [Hx0 Hx1].
  assert (0 <= j * x)%Q as Hlo by nra. assert (j * x <= 1)%Q as Hhi by nra.
  pose proof double_limit_big as Hbig.
  destruct (num_mul_finite _ _ _ _ Hj Hx) as (y & Hy & He); [split; lra|].
  assert (num_Q (num_of_Z 1) = Some (dec_Q 1 0)) as H1 by done.
  eapply finite_mono; [|apply (num_sub_finite _ _ _ _ H1 Hy)]; rewrite ?dec_Q_int; change (inject_Z 1) with 1%Q.
  - intros q Hq. simpl in Hq. rewrite Hq, dec_Q_int, He. change (inject_Z 1) with 1%Q. split; [done|lra].
  - rewrite He. split; lra.
Qed.

(** Hints are never negative. *)
Lemma hint_ms_nonneg f v h : (forall n, is_finite n = true -> f n <> NNaN) -> hint_ms f v = Some h -> nonneg h.
Proof.
  intros Hf. destruct v; try done. simpl. destruct (is_finite n) eqn:Hn; [|done]. intros [= <-].
  by apply num_max_nonneg, Hf.
Qed.

Lemma hint_nonneg (t : thrown) h : readRetryAfterMs t = Some h -> nonneg h.
Proof.
  assert (forall n, is_finite n = true -> seconds n <> NNaN) as Hs.
  { intros [m e| |] Hn; try done. unfold seconds. simpl. by apply mk_num_number. }
  destruct t as [|fs c|v]; try done. simpl.
  destruct (hint_ms (fun n => n) _) as [x|] eqn:H1; [intros [= <-]; eapply hint_ms_nonneg, H1; by intros []|].
  destruct (hint_ms seconds (field fs "retryAfterSeconds")) as [x|] eqn:H2;
    [intros [= <-]; by eapply hint_ms_nonneg, H2|].
  by apply hint_ms_nonneg.
Qed.

(** The computed backoff is the one that is due. *)
Lemma backoff_due n u :
  1 <= n < settings_max -> finite_in (fun q => 0 <= q < 1)%Q u ->
  let d := num_max (num_of_Z 0) (num_round (num_mul
             (num_min (num_mul settings_initial (mk_num (2 ^ (n - 1)) 0)) settings_maxDelay)
             (num_sub (num_of_Z 1) (num_mul settings_jitter u)))) in
  backoff n u d /\ delay_ok d.
Proof using Hmax Hdouble Hinitial HmaxDelay Hjitter.
  intros Hn (x & Hx & Hx01) d. destruct (finite_delay_Q _ Hinitial) as (i & Hi & Hi0).
  destruct Hdouble as (top & Htop & [_ Hlim]). destruct (finite_delay_Q _ HmaxDelay) as (t & Ht & Ht0).
  assert (t = top) as -> by congruence. destruct jitter_Q as (j & Hj & Hj01).
  destruct (power_of_two (n - 1)) as (k & Hk & Hke & Hk0); [lia|].
  destruct (capped_product _ _ _ _ _ _ Hi Hk Htop Hi0 Hk0 Hlim) as (c & Hc & Hce).
  destruct (share_in_unit u j x Hj Hx Hj01 Hx01) as (y & Hy & Hye & Hy01).
  assert (0 <= c <= top)%Q as Hc0. { rewrite Hce. split; [apply Q.min_glb; [nra|done]|apply Q.le_min_r]. }
  destruct (rounded_share _ _ _ _ top Hc Hy Hc0 Hy01 Hlim) as (z & Hz & Hb). fold d in Hz.
  split.
  - exists i, j, top, x, z. split_and!; try done; cbv zeta; rewrite <- Hke, <- Hce, <- Hye; apply Hb.
  - destruct Hz as (q & Hq & Hqz). exists q. split; [done|]. split.
    + rewrite Hqz. apply rounded_nonneg with (s := (c * y)%Q); [nra|apply Hb].
    + intros b t Hbt Hle. assert (t = top) as -> by congruence. rewrite Hqz.
      apply (nearest_below z (c * y)); [apply Hb|]. destruct Hc0, Hy01. nra.
Qed.

Lemma computeDelayMs_wp n e w :
  1 <= n < settings_max ->
  wp (computeDelayMs n settings_initial settings_maxDelay settings_jitter e) w
    (fun o w' l => l = [] /\ exists d, o = Ret d /\ due n e w d w' /\ delay_ok d).
Proof using Type*.
  intros Hn. destruct (finite_delay_Q _ HmaxDelay) as (top & Htop & H0).
  unfold computeDelayMs, due. destruct (readRetryAfterMs (view e)) as [h|] eqn:Hh.
  - wp_step. split; [done|]. eexists. split; [done|]. split; [done|].
    apply hint_nonneg in Hh.
    eapply finite_mono; [|by apply (num_min_nonneg h _ top)].
    intros q [Hq Hqt]. simpl in *. split; [done|]. intros z t Ht Hz. assert (t = top) as -> by congruence. lra.
  - wp_steps. specialize (Hrandom w). destruct (random host w) as [r w1] eqn:Hr. simplify_eq. split; [done|].
    eexists. split; [done|]. destruct (backoff_due n r Hn Hrandom) as [Hb Hd]. split; [by exists r|exact Hd].
Qed.

(** ** Every run follows the schedule *)

Lemma notify_wp ev w :
  wp (notify ev) w (fun o w' l =>
    (o = Ret tt \/ o = Diverge) /\ told ev w o w' /\ filter_map project l = noted ev).
Proof using Hproject.
  unfold notify, noted, told. destruct (opt_onRetry options) as [f|]; [|wp_steps; auto].
  wp_steps. destruct o as [[]|e|]; wp_steps; simpl; rewrite ?Hproject; split_and!; eauto.
Qed.

Lemma sleep_wp d w : wp (sleep d) w (fun o w' l => l = [] /\ waited d w o w').
Proof.
  unfold sleep, defaultSleep, waited. destruct (opt_sleep options) as [f|]; wp_steps; [auto|].
  destruct (_ || _); wp_steps; auto.
Qed.

Lemma operation_wp w : wp operation w (fun o w' l => operates w o w' /\ filter_map project l = []).
Proof using Hquiet.
  apply run_wp. intros o w' l Hr. split; [by exists l|]. by apply (wp_run _ _ _ _ _ _ (Hquiet w) Hr).
Qed.

(** The retry's events of a concatenation. *)
Ltac events := repeat first
  [ rewrite filter_map_app | rewrite app_nil_r | rewrite Hproject | progress cbn [filter_map app]
  | match goal with H : filter_map project ?l = _ |- context [filter_map project ?l] => rewrite H end ].

Lemma retry_loop_wp left n last w :
  left = Z.to_nat (settings_max - n + 1) -> 1 <= n <= settings_max ->
  wp (retry_loop left n settings_max settings_initial settings_maxDelay settings_jitter last) w
    (fun o w' l => schedule n last w (filter_map project l) o w').
Proof using Type*.
  revert n last w. induction left as [|left IH]; intros n last w Hleft Hn; simpl retry_loop; [lia|].
  wp_steps. destruct (is_aborted w) eqn:Ha; [wp_steps; by constructor|].
  wp_steps. eapply wp_mono; [apply operation_wp|]. intros o w1 l1 [Hop Hl1].
  destruct o as [v|err|]; wp_steps; [events; by constructor; [|lia|..]| |events; by constructor; [|lia|..]].
  wp_steps. destruct (Z.eqb_spec n settings_max) as [->|Hne]; cbn [orb].
  { wp_steps. events. by apply sched_final; [..|left]. }
  destruct (isRetryable err) eqn:Hr; cbn [negb]; cbv iota;
    [|wp_steps; events; by apply sched_final; [..|right; split; [lia|]]].
  wp_steps. eapply wp_mono; [apply computeDelayMs_wp; lia|]. intros o w2 l2 [-> (d & -> & Hdue & Hd)].
  assert (failed n w err d w2) as Hf by (split; [done|lia|done|done|by exists w1]).
  cbn [wp_cont app]. wp_steps. eapply wp_mono; [apply notify_wp|].
  intros o w3 l3 ([->| ->] & Ht & Hl3); cbn [wp_cont app]; wp_steps; [|events; by eapply sched_hook_diverged].
  destruct (is_aborted w3) eqn:Ha3; [wp_steps; events; by eapply sched_stopped|].
  wp_steps. eapply wp_mono; [apply sleep_wp|]. intros o w4 l4 [-> Hs].
  destruct o as [[]|e'|]; cbn [wp_cont app]; wp_steps.
  - destruct (is_aborted w4) eqn:Ha4; [wp_steps; events; by eapply sched_stopped_waiting|].
    eapply wp_mono; [apply IH; lia|]. intros o w5 l5 Hrest. events. by eapply sched_again.
  - events. by eapply (sched_wait_failed _ _ _ _ _ _ _ (Throw e')).
  - events. by eapply (sched_wait_failed _ _ _ _ _ _ _ Diverge).
Qed.
End Loop.

(** ** What the schedule implies *)

Definition is_attempt (e : retry_event) : bool := match e with Attempt _ => true | _ => false end.

Lemma schedule_attempts n last w l o w' :
  schedule n last w l o w' -> 1 <= n <= settings_max -> Z.of_nat (count is_attempt l) <= settings_max - n + 1.
Proof.
  assert (forall ev, count is_attempt (noted ev) = O) as Hnoted
    by (intros ev; unfold noted; by destruct (opt_onRetry options)).
  induction 1; intros Hn; autorewrite with count; rewrite ?Hnoted; simpl; try lia.
  match goal with H : failed _ _ _ _ _ |- _ => destruct H end. lia.
Qed.

(** Where no signal is aborted and nobody replaced the timer, a failure is final: the
    last attempt's, or one that is not transient. *)
Definition given_up (l : list retry_event) (e : Err) : Prop :=
  exists l' n, l = l' ++ [Attempt n; Failed n e] /\ (n = settings_max \/ isRetryable e = false).

Lemma schedule_persists n last w l o w' :
  schedule n last w l o w' -> (forall w, is_aborted w = false) -> opt_sleep options = None ->
  forall e, o = Throw e -> given_up l e.
Proof.
  intros Hs Ha Hn. induction Hs as [| | | | |? ? ? ? ? ? ? ? ? ? ? ? Hw|?|? ? ? e1 d ? ? ? l' ? ? ? ? ? ? ? ? IH]; intros e' He; try congruence;
    try match goal with H : is_aborted ?w = true |- _ => by rewrite Ha in H end.
  - injection He as <-. exists [], n. split; [done|]. naive_solver.
  - unfold waited in Hw. rewrite Hn in Hw. destruct Hw as [-> _]. done.
  - destruct (IH e' He) as (l0 & m & -> & Hm). exists ([Attempt n; Failed n e1] ++ noted (event_of n d e1) ++ Slept d :: l0), m.
    split; [|exact Hm]. cbn [app]. by rewrite <- app_assoc.
Qed.

End Retry.
Arguments retry_event : clear implicits.
Arguments RetryAttemptEvent : clear implicits.
Arguments RetryOptions : clear implicits.
Arguments RetryHost : clear implicits.

(** ** A provider that recovers on the third attempt *)

Module Demo.

Definition overloaded : error := NativeErr "APIConnectionError" "connection reset".

(** The world counts the calls. *)
Definition flaky (w : nat) : outcome error string * nat * list (retry_event error) :=
  (if (w <? 2)%nat then Throw overloaded else Ret "done", S w, []).

Definition host : RetryHost nat := {|
  aborted _ := false;
  random w := (NDec 5 (-1), w);
  timer _ w := w;
|}.

Definition patient : RetryOptions error nat := {|
  opt_maxAttempts := Some (num_of_Z 5); opt_initialDelayMs := None; opt_maxDelayMs := None;
  opt_jitter := None; opt_isRetryable := None; opt_onRetry := None; opt_sleep := None; opt_signal := false |}.

Example demo_retries :
  retryWithBackoff id host patient flaky O =
  (Ret "done", 3%nat,
   [Attempt 1; Failed 1 overloaded; Slept (num_of_Z 188);
    Attempt 2; Failed 2 overloaded; Slept (num_of_Z 375); Attempt 3]).
Proof. by vm_compute. Qed.

(** A ceiling below one millisecond is rounded up. *)
Example fractional_ceiling :
  (computeDelayMs host 1 (num_of_Z 250) (NDec 5 (-1)) (num_of_Z 0) overloaded O : _ * nat * list nat).1.1 =
  Ret (num_of_Z 1).
Proof. by vm_compute. Qed.


End Demo.

End Retry.
