(* ===== verification/Breaker.v ===== *)
(** * The circuit breaker (packages/core/src/utils/circuit-breaker.ts)

    A breaker's methods run without yielding; between the two halves of
    [execute] other calls may run.  So the world is the breaker's state with the
    rest, an operation is a computation that may change both, and the section
    Interleaving takes the halves as the steps of a transition system. *)

From S2P Require Export Retry.

#[local] Open Scope string_scope.
#[local] Open Scope list_scope.
#[local] Open Scope Z_scope.

Module Breaker.

Inductive CircuitState : Type := Closed | Open | HalfOpen.
#[global] Instance circuit_state_eq_dec : EqDecision CircuitState.
Proof. solve_decision. Defined.

(** The mutable fields of a [CircuitBreaker]. *)
Record Circuit : Type := {
  state : CircuitState;
  failures : Z;
  successes : Z;
  openedAt : Z;
  probeInFlight : bool;
}.

(** Its configuration, validated. *)
Record CircuitBreaker : Type := {
  circuit_name : string;
  failureThreshold : Z;
  cooldownMs : Z;
  successThreshold : Z;
}.

Record CircuitBreakerOptions : Type := {
  opt_failureThreshold : option num;
  opt_cooldownMs : option num;
  opt_successThreshold : option num;
}.

Record CircuitStateChangeEvent : Type := {
  change_name : string;
  change_from : CircuitState;
  change_to : CircuitState;
  change_failures : Z;
  change_reason : string;
  change_at : Z;
}.

Definition fresh : Circuit :=
  {| state := Closed; failures := 0; successes := 0; openedAt := 0; probeInFlight := false |}.

(** [assertPositiveInteger] *)
Definition positive_field (field : string) (n : num) : Z + string :=
  match positive_integer n with
  | Some z => inl z
  | None => inr ("CircuitBreaker: " +:+ field +:+ " must be a positive integer, received " +:+
                 num_to_string n +:+ ".")
  end.

(** The constructor: a configuration, or the message of its [TypeError]. *)
Definition mk_breaker (name : string) (options : CircuitBreakerOptions) : CircuitBreaker + string :=
  match positive_field "failureThreshold" (default (num_of_Z 5) (opt_failureThreshold options)) with
  | inr m => inr m
  | inl ft =>
      match positive_field "cooldownMs" (default (num_of_Z 30000) (opt_cooldownMs options)) with
      | inr m => inr m
      | inl cd =>
          match positive_field "successThreshold" (default (num_of_Z 1) (opt_successThreshold options)) with
          | inr m => inr m
          | inl st => inl {| circuit_name := name; failureThreshold := ft; cooldownMs := cd;
                             successThreshold := st |}
          end
      end
  end.

(** [Math.ceil(ms / 1000)] *)
Definition ceil_seconds (ms : Z) : Z := - ((- ms) / 1000).

Definition circuit_open_message (name : string) (retryAfterMs : Z) : string :=
  "Circuit " +:+ in_quotes name +:+ " is open after repeated failures; not dispatching. " +:+
  "Retrying is allowed in " +:+ Z_to_string (ceil_seconds retryAfterMs) +:+ "s.".

(** [err instanceof Error ? err.message : String(err)] *)
Class Described (Err : Type) := describeError : Err -> string.
#[global] Instance described_error : Described error := error_text.

Inductive breaker_event : Type :=
| Dispatched
| Changed (event : CircuitStateChangeEvent).

Section Breaker.
Context {Err E W : Type} `{!Retry.Errors Err} `{!Described Err}.
Notation World := (Circuit * W)%type.
Notation M := (M Err E World).

(** The clock may advance at every reading; the listener may throw. *)
Context (inject : breaker_event -> E) (now : W -> Z * W).
Context (onStateChange : option (CircuitStateChangeEvent -> W -> (unit + Err) * W)).
Context (self : CircuitBreaker).

Definition clock : M Z := fun w => let '(t, x) := now w.2 in (Ret t, (w.1, x), []).
Definition get : M Circuit := ask fst.
Definition put (c : Circuit) : M unit := modify (fun w => (c, w.2)).

Definition CircuitOpenError (retryAfterMs : Z) : Err :=
  Retry.native "CircuitOpenError" (circuit_open_message (circuit_name self) retryAfterMs).

Definition remainingCooldownMs : M Z :=
  (c <- get ;;
   t <- clock ;;
   ret (Z.max 0 (openedAt c + cooldownMs self - t)))%eff.

(** The listener of a transition; what it throws is dropped. *)
Definition announce (from to : CircuitState) (reason : string) : M unit :=
  match onStateChange with
  | None => ret tt
  | Some f =>
      (c <- get ;;
       t <- clock ;;
       let event := {| change_name := circuit_name self; change_from := from; change_to := to;
                       change_failures := failures c; change_reason := reason; change_at := t |} in
       emit (inject (Changed event)) ;;
       modify (fun w => (w.1, (f event w.2).2)))%eff
  end.

Definition transition (to : CircuitState) (reason : string) : M unit :=
  (c <- get ;;
   let from := state c in
   if decide (from = to) then ret tt
   else
     put {| state := to; failures := failures c; successes := successes c;
            openedAt := openedAt c; probeInFlight := probeInFlight c |} ;;
     match to with
     | Open =>
         t <- clock ;;
         put {| state := to; failures := failures c; successes := 0;
                openedAt := t; probeInFlight := probeInFlight c |}
     | Closed =>
         put {| state := to; failures := 0; successes := 0;
                openedAt := openedAt c; probeInFlight := probeInFlight c |}
     | HalfOpen =>
         put {| state := to; failures := failures c; successes := 0;
                openedAt := openedAt c; probeInFlight := probeInFlight c |}
     end ;;
     announce from to reason)%eff.

Definition promoteIfCooledDown : M unit :=
  (c <- get ;;
   match state c with
   | Open =>
       r <- remainingCooldownMs ;;
       if r =? 0 then transition HalfOpen "cooldown elapsed, probing" else ret tt
   | _ => ret tt
   end)%eff.

Definition currentState : M CircuitState := (promoteIfCooledDown ;; c <- get ;; ret (state c))%eff.

Definition failureCount : M Z := (c <- get ;; ret (failures c))%eff.

Definition set_probe (b : bool) : M unit :=
  (c <- get ;;
   put {| state := state c; failures := failures c; successes := successes c;
          openedAt := openedAt c; probeInFlight := b |})%eff.

Definition recordSuccess : M unit :=
  (set_probe false ;;
   c <- get ;;
   match state c with
   | HalfOpen =>
       put {| state := state c; failures := failures c; successes := successes c + 1;
              openedAt := openedAt c; probeInFlight := probeInFlight c |} ;;
       if successThreshold self <=? successes c + 1 then transition Closed "probe succeeded" else ret tt
   | _ =>
       put {| state := state c; failures := 0; successes := successes c;
              openedAt := openedAt c; probeInFlight := probeInFlight c |}
   end)%eff.

Definition recordFailure (reason : string) : M unit :=
  (set_probe false ;;
   c <- get ;;
   put {| state := state c; failures := failures c + 1; successes := successes c;
          openedAt := openedAt c; probeInFlight := probeInFlight c |} ;;
   match state c with
   | HalfOpen => transition Open ("probe failed: " +:+ reason)
   | _ =>
       if failureThreshold self <=? failures c + 1 then
         transition Open (Z_to_string (failures c + 1) +:+ " consecutive failures: " +:+ reason)
       else ret tt
   end)%eff.

(** [execute] up to the call of the operation. *)
Definition admit_call : M unit :=
  (promoteIfCooledDown ;;
   c <- get ;;
   match state c with
   | Open => r <- remainingCooldownMs ;; throw (CircuitOpenError r)
   | HalfOpen =>
       if probeInFlight c then r <- remainingCooldownMs ;; throw (CircuitOpenError r)
       else set_probe true
   | Closed => ret tt
   end)%eff.

(** What follows the operation. *)
Definition settle_call {T} (deferSuccess : bool) (r : T + Err) : M T :=
  (match r with
   | inl result => (if deferSuccess then ret tt else recordSuccess) ;; ret result
   | inr err => recordFailure (describeError err) ;; throw err
   end)%eff.

Definition execute {T} (operation : M T) (deferSuccess : bool) : M T :=
  (admit_call ;;
   emit (inject Dispatched) ;;
   r <- tried operation ;;
   settle_call deferSuccess r)%eff.

(** ** What the methods emit *)

Section Emits.
Context (P : E -> Prop) (HP : forall e, P (inject e)).
Notation emits := (keeps (fun _ => True) P).

Lemma clock_emits : emits clock.
Proof. intros w _. unfold wp, clock. by destruct (now w.2). Qed.

Lemma transition_emits to reason : emits (transition to reason).
Proof using HP.
  unfold transition, announce, get, put.
  repeat first [keeps_step | apply clock_emits | progress cbv zeta]; eauto.
Qed.

Lemma remaining_emits : emits remainingCooldownMs.
Proof. unfold remainingCooldownMs, get. repeat first [keeps_step | apply clock_emits]; auto. Qed.

Lemma recordSuccess_emits : emits recordSuccess.
Proof using HP.
  unfold recordSuccess, set_probe, get, put. repeat first [keeps_step | apply transition_emits]; auto.
Qed.

Lemma recordFailure_emits reason : emits (recordFailure reason).
Proof using HP.
  unfold recordFailure, set_probe, get, put. repeat first [keeps_step | apply transition_emits]; auto.
Qed.

Lemma execute_emits {T} (operation : M T) deferSuccess : emits operation -> emits (execute operation deferSuccess).
Proof using HP.
  intros Hop. unfold execute, admit_call, promoteIfCooledDown, settle_call, set_probe, get, put.
  repeat first [exact Hop | keeps_step | apply remaining_emits | apply transition_emits | apply recordSuccess_emits
    | apply recordFailure_emits]; auto.
Qed.
End Emits.

(** ** What the methods do to the state *)

Definition moved (to : CircuitState) (t : Z) (c : Circuit) : Circuit :=
  if decide (state c = to) then c else
  {| state := to;
     failures := match to with Closed => 0 | _ => failures c end;
     successes := 0;
     openedAt := match to with Open => t | _ => openedAt c end;
     probeInFlight := probeInFlight c |}.

Definition with_probe (b : bool) (c : Circuit) : Circuit :=
  {| state := state c; failures := failures c; successes := successes c;
     openedAt := openedAt c; probeInFlight := b |}.

Definition with_failures (n : Z) (c : Circuit) : Circuit :=
  {| state := state c; failures := n; successes := successes c;
     openedAt := openedAt c; probeInFlight := probeInFlight c |}.

Definition with_successes (n : Z) (c : Circuit) : Circuit :=
  {| state := state c; failures := failures c; successes := n;
     openedAt := openedAt c; probeInFlight := probeInFlight c |}.

(** The state after a completion, [t] being the time it is recorded at. *)
Definition succeeded (c : Circuit) : Circuit :=
  let c1 := with_probe false c in
  match state c with
  | HalfOpen =>
      let c2 := with_successes (successes c + 1) c1 in
      if successThreshold self <=? successes c + 1 then moved Closed 0 c2 else c2
  | _ => with_failures 0 c1
  end.

Definition failed (t : Z) (c : Circuit) : Circuit :=
  let c1 := with_failures (failures c + 1) (with_probe false c) in
  match state c with
  | HalfOpen => moved Open t c1
  | _ => if failureThreshold self <=? failures c + 1 then moved Open t c1 else c1
  end.

(** The state after a look at the clock at time [t]. *)
Definition promoted (t : Z) (c : Circuit) : Circuit :=
  match state c with
  | Open => if openedAt c + cooldownMs self <=? t then moved HalfOpen 0 c else c
  | _ => c
  end.

Lemma announce_wp from to reason w (Q : outcome Err unit -> World -> list E -> Prop) :
  (forall x l, Q (Ret tt) (w.1, x) l) -> wp (announce from to reason) w Q.
Proof.
  intros HQ. destruct w as [c w]. unfold announce, get, clock. destruct onStateChange as [f|]; [|by wp_steps].
  wp_steps. unfold wp. simpl. destruct (now w) as [t x]. simpl. wp_steps. apply HQ.
Qed.

Lemma transition_wp to reason w (Q : outcome Err unit -> World -> list E -> Prop) :
  (forall t x l, Q (Ret tt) (moved to t w.1, x) l) -> wp (transition to reason) w Q.
Proof.
  intros HQ. destruct w as [c w]. unfold transition, get, put. wp_steps. unfold moved in HQ. cbn in HQ |- *.
  case_decide; [wp_steps; apply (HQ 0)|]. wp_steps. destruct to; wp_steps.
  - apply announce_wp. intros x l. apply (HQ 0).
  - unfold wp at 1, clock. simpl. destruct (now w) as [t x]. wp_steps. apply announce_wp. intros y l. apply (HQ t).
  - apply announce_wp. intros x l. apply (HQ 0).
Qed.

Lemma recordSuccess_wp w (Q : outcome Err unit -> World -> list E -> Prop) :
  (forall x l, Q (Ret tt) (succeeded w.1, x) l) -> wp recordSuccess w Q.
Proof.
  intros HQ. destruct w as [[st f s o p] w]. unfold recordSuccess, set_probe, get, put.
  unfold succeeded in HQ. destruct st; wp_steps; simpl in HQ |- *; try apply HQ.
  destruct (_ <=? _); wp_steps; [|apply HQ].
  apply transition_wp. intros t x l. apply HQ.
Qed.

Lemma recordFailure_wp reason w (Q : outcome Err unit -> World -> list E -> Prop) :
  (forall t x l, Q (Ret tt) (failed t w.1, x) l) -> wp (recordFailure reason) w Q.
Proof.
  intros HQ. destruct w as [[st f s o p] w]. unfold recordFailure, set_probe, get, put.
  unfold failed in HQ. destruct st; wp_steps; simpl in HQ |- *;
    try (destruct (_ <=? _); wp_steps; [|apply (HQ 0)]); apply transition_wp; intros t x l; apply (HQ t).
Qed.

Lemma remaining_wp w (Q : outcome Err Z -> World -> list E -> Prop) :
  (forall t x, now w.2 = (t, x) -> Q (Ret (Z.max 0 (openedAt w.1 + cooldownMs self - t))) (w.1, x) []) ->
  wp remainingCooldownMs w Q.
Proof.
  intros HQ. destruct w as [c w]. unfold remainingCooldownMs, get, clock. wp_steps.
  unfold wp. simpl. destruct (now w) as [t x] eqn:Ht. simpl. by apply HQ.
Qed.

Lemma promote_wp w (Q : outcome Err unit -> World -> list E -> Prop) :
  (forall t x l, (state w.1 = Open -> t = (now w.2).1) -> Q (Ret tt) (promoted t w.1, x) l) ->
  wp promoteIfCooledDown w Q.
Proof.
  intros HQ. destruct w as [c w]. unfold promoteIfCooledDown, get. wp_steps. unfold promoted in HQ. simpl in HQ |- *.
  destruct (state c) eqn:Hst; [wp_steps; by apply (HQ 0)| |wp_steps; by apply (HQ 0)].
  wp_steps. apply remaining_wp. intros t x Ht. simpl in *. cbn [wp_cont].
  specialize (HQ t). rewrite Ht in HQ.
  destruct (Z.leb_spec (openedAt c + cooldownMs self) t), (Z.eqb_spec (Z.max 0 (openedAt c + cooldownMs self - t)) 0);
    try lia; [|wp_steps; by apply HQ].
  apply transition_wp. intros t' y l. by apply HQ.
Qed.

(** Who is let through, from a state already promoted. *)
Definition admits (c : Circuit) : bool :=
  match state c with Closed => true | Open => false | HalfOpen => negb (probeInFlight c) end.

Definition admitted_state (c : Circuit) : Circuit :=
  match state c with HalfOpen => with_probe true c | _ => c end.

Lemma admit_wp w (Q : outcome Err unit -> World -> list E -> Prop) :
  (forall t x l, (state w.1 = Open -> t = (now w.2).1) ->
     let c := promoted t w.1 in
     if admits c then Q (Ret tt) (admitted_state c, x) l
     else forall r, Q (Throw (CircuitOpenError r)) (c, x) l) ->
  wp admit_call w Q.
Proof.
  intros HQ. unfold admit_call, get. wp_steps. apply promote_wp. intros t x l Ht. cbn [wp_cont].
  specialize (HQ t). unfold admits, admitted_state in HQ. wp_steps.
  destruct (state (promoted t w.1)) eqn:Hst; simpl; rewrite ?Hst.
  - wp_steps. rewrite app_nil_r. by apply HQ.
  - wp_steps. apply remaining_wp. intros r y Hr. cbn [wp_cont]. wp_steps. rewrite app_nil_r. by apply HQ.
  - destruct (probeInFlight _) eqn:Hp; simpl in HQ.
    + wp_steps. apply remaining_wp. intros r y Hr. cbn [wp_cont]. wp_steps. rewrite app_nil_r. by apply HQ.
    + unfold set_probe, get, put. wp_steps. rewrite app_nil_r. by apply HQ.
Qed.

(** ** Interleaved calls *)

(** Calls in flight, each with the state of the circuit when it was admitted. *)
Notation config := (World * list (nat * CircuitState))%type.

(** The steps of concurrent callers: a call begins or is refused, the world moves,
    or ([done]) a call in flight completes. *)
Inductive tau : config -> config -> Prop :=
| tau_begin w fl i w' l :
    i ∉ fl.*1 -> admit_call w = (Ret tt, w', l) -> tau (w, fl) (w', (i, state w'.1) :: fl)
| tau_refuse w fl e w' l : admit_call w = (Throw e, w', l) -> tau (w, fl) (w', fl)
| tau_world c x x' fl : tau ((c, x), fl) ((c, x'), fl).

Inductive done : bool -> config -> config -> Prop :=
| done_success w fl1 call fl2 w' l :
    recordSuccess w = (Ret tt, w', l) -> done true (w, fl1 ++ call :: fl2) (w', fl1 ++ fl2)
| done_failure w fl1 call fl2 reason w' l :
    recordFailure reason w = (Ret tt, w', l) -> done false (w, fl1 ++ call :: fl2) (w', fl1 ++ fl2).

(** The runs from a new breaker, with the completions in order. *)
Inductive run : list bool -> config -> Prop :=
| run_start x : run [] ((fresh, x), [])
| run_tau os cf cf' : run os cf -> tau cf cf' -> run os cf'
| run_done os ok cf cf' : run os cf -> done ok cf cf' -> run (os ++ [ok]) cf'.

Definition circuit_of (cf : config) : Circuit := cf.1.1.

(** How many of the last completions failed in a row. *)
Definition streak (os : list bool) : Z := fold_left (fun n (ok : bool) => if ok then 0 else n + 1) os 0.

Lemma streak_snoc os ok : streak (os ++ [ok]) = if ok then 0 else streak os + 1.
Proof. unfold streak. by rewrite fold_left_app. Qed.

(** *** Steps on the state *)

Lemma admit_run w o w' l :
  admit_call w = (o, w', l) ->
  exists t, let c := promoted t w.1 in
    if admits c then o = Ret tt /\ w'.1 = admitted_state c else w'.1 = c /\ exists e, o = Throw e.
Proof.
  intros Hr. enough (wp admit_call w (fun o w' _ => exists t, let c := promoted t w.1 in
    if admits c then o = Ret tt /\ w'.1 = admitted_state c else w'.1 = c /\ exists e, o = Throw e)) as Hw
    by exact (wp_run _ _ _ _ _ _ Hw Hr).
  apply admit_wp. intros t x l' _. simpl. destruct (admits _) eqn:Ha; [|intros r]; exists t; simpl; rewrite Ha; eauto.
Qed.

Lemma admitted_same_state c : state (admitted_state c) = state c.
Proof. by destruct c as [[]]. Qed.

Lemma tau_circuit cf cf' :
  tau cf cf' ->
  (exists t, circuit_of cf' = promoted t (circuit_of cf) /\ cf'.2 = cf.2) \/
  (exists t i, let c := promoted t (circuit_of cf) in
     admits c = true /\ circuit_of cf' = admitted_state c /\ cf'.2 = (i, state c) :: cf.2) \/
  (circuit_of cf' = circuit_of cf /\ cf'.2 = cf.2).
Proof.
  unfold circuit_of. destruct 1 as [w fl i w' l _ Hr|w fl e w' l Hr|]; [| |by right; right];
    apply admit_run in Hr as (t & Hr); simpl in Hr; destruct (admits _) eqn:Ha.
  - destruct Hr as [_ Hr]. right; left. exists t, i. simpl. rewrite Ha. split_and!; [done..|]. by rewrite Hr, admitted_same_state.
  - by destruct Hr as (_ & e & [=]).
  - by destruct Hr as ([=] & _).
  - left. exists t. destruct Hr as [Hr _]. simpl. by rewrite Hr.
Qed.

Lemma done_circuit ok cf cf' :
  done ok cf cf' ->
  exists t fl1 call fl2, cf.2 = fl1 ++ call :: fl2 /\ cf'.2 = fl1 ++ fl2 /\
    circuit_of cf' = if ok then succeeded (circuit_of cf) else failed t (circuit_of cf).
Proof.
  unfold circuit_of. destruct 1 as [w fl1 call fl2 w' l Hr|w fl1 call fl2 reason w' l Hr].
  - exists 0, fl1, call, fl2. split_and!; try reflexivity. simpl.
    enough (wp recordSuccess w (fun _ w' _ => w'.1 = succeeded w.1)) as Hw by exact (wp_run _ _ _ _ _ _ Hw Hr).
    by apply recordSuccess_wp.
  - enough (wp (recordFailure reason) w (fun _ w' _ => exists t, w'.1 = failed t w.1)) as Hw.
    { destruct (wp_run _ _ _ _ _ _ Hw Hr) as [t Ht]. by exists t, fl1, call, fl2. }
    apply recordFailure_wp. intros t x l'. by exists t.
Qed.

(** ** The state is well formed *)

Record well_formed (c : Circuit) : Prop := {
  wf_failures : 0 <= failures c;
  wf_closed : state c = Closed -> failures c < failureThreshold self;
  wf_half : state c = HalfOpen -> 0 <= successes c < successThreshold self;
  wf_rest : state c <> HalfOpen -> successes c = 0;
  wf_probe : probeInFlight c = true -> state c = HalfOpen;
}.

Context (Hft : 1 <= failureThreshold self) (Hst : 1 <= successThreshold self).

(** Case analysis on the state and its facts. *)
Ltac circuit_cases :=
  repeat match goal with
         | H : ?a = ?a -> _ |- _ => specialize (H eq_refl)
         | H : ?a <> ?b -> _ |- _ => specialize (H ltac:(discriminate))
         end;
  split; simpl; intros; try done; try lia; auto.

Lemma promoted_wf t c : well_formed c -> well_formed (promoted t c).
Proof using Hst.
  intros [Hf Hc Hh Hr Hp]. unfold promoted. destruct c as [[] f s o p]; simpl in *; try by split.
  destruct (_ <=? t); [circuit_cases|by split].
Qed.

Lemma admitted_wf c : well_formed c -> well_formed (admitted_state c).
Proof. intros [Hf Hc Hh Hr Hp]. by destruct c as [[] f s o p]; split. Qed.

Lemma succeeded_wf c : well_formed c -> well_formed (succeeded c).
Proof using Hft.
  intros [Hf Hc Hh Hr Hp]. unfold succeeded. destruct c as [[] f s o p]; simpl in *; [circuit_cases..|].
  destruct (Z.leb_spec (successThreshold self) (s + 1)); circuit_cases.
Qed.

Lemma failed_wf t c : well_formed c -> well_formed (failed t c).
Proof using Hft.
  intros [Hf Hc Hh Hr Hp]. unfold failed. destruct c as [[] f s o p]; simpl in *;
    try destruct (Z.leb_spec (failureThreshold self) (f + 1)); circuit_cases.
Qed.

Lemma fresh_wf : well_formed fresh.
Proof using Hft. circuit_cases. Qed.

Lemma run_wf os cf : run os cf -> well_formed (circuit_of cf).
Proof using Hft Hst.
  induction 1 as [x|os cf cf' _ IH Ht|os ok cf cf' _ IH Hd].
  - apply fresh_wf.
  - apply tau_circuit in Ht as [(t & -> & _)|[(t & i & _ & -> & _)|[-> _]]]; [| |done];
      [|apply admitted_wf]; by apply promoted_wf.
  - apply done_circuit in Hd as (t & fl1 & call & fl2 & _ & _ & ->).
    destruct ok; [by apply succeeded_wf|by apply failed_wf].
Qed.

(** ** The circuit trips on consecutive failures *)

(** No [failureThreshold] completions in a row failed. *)
Definition calm (os : list bool) : Prop :=
  forall os1 os2, os = os1 ++ os2 -> streak os1 < failureThreshold self.

Lemma calm_snoc os ok : calm (os ++ [ok]) -> calm os /\ streak (os ++ [ok]) < failureThreshold self.
Proof.
  intros Hc. split; [|by apply (Hc _ []); rewrite app_nil_r].
  intros os1 os2 ->. apply (Hc os1 (os2 ++ [ok])). by rewrite app_assoc.
Qed.

Lemma promoted_closed t c : state c = Closed -> promoted t c = c.
Proof. unfold promoted. by intros ->. Qed.

Lemma tau_closed cf cf' : tau cf cf' -> state (circuit_of cf) = Closed -> circuit_of cf' = circuit_of cf.
Proof.
  intros Ht Hc. apply tau_circuit in Ht as [(t & -> & _)|[(t & i & _ & -> & _)|[-> _]]]; [| |done];
    rewrite promoted_closed by done; [done|]. unfold admitted_state. by rewrite Hc.
Qed.

Lemma promoted_not_closed t c : state c <> Closed -> state (promoted t c) <> Closed.
Proof.
  intros Hc. unfold promoted, moved. destruct (state c) eqn:Hs; [done| |by rewrite Hs].
  destruct (_ <=? t); [by case_decide; simplify_eq/=|by rewrite Hs].
Qed.

Lemma tau_not_closed cf cf' : tau cf cf' -> state (circuit_of cf) <> Closed -> state (circuit_of cf') <> Closed.
Proof.
  intros Ht Hc. apply tau_circuit in Ht as [(t & -> & _)|[(t & i & _ & -> & _)|[-> _]]]; [| |done];
    rewrite ?admitted_same_state; by apply promoted_not_closed.
Qed.

Lemma calm_grow os ok : calm os -> streak (os ++ [ok]) < failureThreshold self -> calm (os ++ [ok]).
Proof.
  intros Hc Hs os1 os2 He. destruct os2 as [|o os2 _] using rev_ind; [by rewrite app_nil_r in He; subst|].
  rewrite app_assoc in He. apply app_inj_tail in He as [-> _]. by eapply Hc.
Qed.

Lemma calm_nil : calm [].
Proof using Hft. intros [|? ?] os2 He; [unfold streak; simpl; lia|done]. Qed.

(** The runs again, with the completions since the circuit last closed, or since it was
    new: a completion that closes it starts the list afresh. *)
Definition closes (cf cf' : config) : bool :=
  bool_decide (state (circuit_of cf) <> Closed) && bool_decide (state (circuit_of cf') = Closed).

Inductive era : list bool -> config -> Prop :=
| era_start x : era [] ((fresh, x), [])
| era_tau since cf cf' : era since cf -> tau cf cf' -> era since cf'
| era_done since ok cf cf' :
    era since cf -> done ok cf cf' -> era (if closes cf cf' then [] else since ++ [ok]) cf'.

Lemma era_done_as since since' ok cf cf' :
  era since cf -> done ok cf cf' -> (if closes cf cf' then [] else since ++ [ok]) = since' -> era since' cf'.
Proof. intros ? ? <-. by econstructor. Qed.

(** Every run is one of these. *)
Lemma run_era os cf : run os cf -> exists since, era since cf.
Proof. induction 1 as [x|? ? ? _ [s IH] ?|? ? ? ? _ [s IH] ?]; eexists; econstructor; done. Qed.

Lemma done_closed ok cf cf' :
  done ok cf cf' -> state (circuit_of cf) = Closed ->
  let n := if ok then 0 else failures (circuit_of cf) + 1 in
  failures (circuit_of cf') = n /\
  state (circuit_of cf') = if failureThreshold self <=? n then Open else Closed.
Proof using Hft.
  intros Hd Hc. apply done_circuit in Hd as (t & fl1 & call & fl2 & _ & _ & ->).
  destruct ok; unfold succeeded, failed; rewrite Hc; simpl.
  - split; [done|]. by destruct (Z.leb_spec (failureThreshold self) 0); [lia|].
  - destruct (_ <=? _); [|done]. unfold moved. simpl. by rewrite Hc.
Qed.

Lemma done_unclosed ok cf cf' :
  done ok cf cf' -> state (circuit_of cf) <> Closed -> state (circuit_of cf') = Closed -> failures (circuit_of cf') = 0.
Proof.
  intros Hd Hc. apply done_circuit in Hd as (t & fl1 & call & fl2 & _ & _ & ->).
  destruct ok; unfold succeeded, failed, moved; destruct (circuit_of cf) as [[] f s o pr]; simpl in *; try done;
    destruct (_ <=? _); done.
Qed.

(** C37. Whatever calls overlap, and however often the circuit has opened and closed
    before: it is closed exactly while, among the completions since it last closed (or
    since it was new), no [failureThreshold] in a row failed; and while it is closed its
    counter is the number of failures in a row at the end of them. *)
Theorem trips_on_consecutive_failures since cf :
  era since cf ->
  (state (circuit_of cf) = Closed <-> calm since) /\
  (state (circuit_of cf) = Closed -> failures (circuit_of cf) = streak since).
Proof using Hft.
  induction 1 as [x|since cf cf' _ [IH1 IH2] Ht|since ok cf cf' _ [IH1 IH2] Hd].
  - split; [|done]. split; [intros _; apply calm_nil|done].
  - destruct (decide (state (circuit_of cf) = Closed)) as [Hc|Hc].
    + by rewrite (tau_closed _ _ Ht Hc).
    + pose proof (tau_not_closed _ _ Ht Hc). naive_solver.
  - unfold closes. destruct (decide (state (circuit_of cf) = Closed)) as [Hc|Hc].
    + rewrite bool_decide_eq_false_2 by naive_solver. simpl. destruct (done_closed _ _ _ Hd Hc) as [Hf Hs].
      rewrite (IH2 Hc), <- streak_snoc in Hf, Hs. rewrite Hf, Hs. apply IH1 in Hc.
      destruct (Z.leb_spec (failureThreshold self) (streak (since ++ [ok]))) as [Hle|Hlt]; split; try done.
      * split; [done|]. intros [_ Hx]%calm_snoc. lia.
      * split; [|done]. intros _. by apply calm_grow.
    + rewrite bool_decide_eq_true_2 by done. simpl. case_bool_decide as Hc'.
      * split; [split; [intros _; apply calm_nil|done]|]. intros _. by eapply done_unclosed.
      * split; [|done]. split; [done|]. intros [Hcalm _]%calm_snoc. naive_solver.
Qed.

(** ** Failing fast *)

(** An open circuit whose cooldown has not elapsed refuses at once, with the
    time left, and runs nothing: the result is the same for every operation. *)
Theorem open_circuit_fails_fast {T} (operation : M T) (deferSuccess : bool) (c : Circuit) w :
  state c = Open -> (now w).1 < openedAt c + cooldownMs self ->
  let w1 := (now w).2 in
  execute operation deferSuccess (c, w) =
  (Throw (CircuitOpenError (Z.max 0 (openedAt c + cooldownMs self - (now w1).1))), (c, (now w1).2), []).
Proof.
  intros Hs Ht. unfold execute, admit_call, promoteIfCooledDown, remainingCooldownMs, get, clock.
  unfold bind, ask, ret, throw. cbn -[Z.max]. rewrite Hs. cbn -[Z.max].
  destruct (now w) as [t x]. cbn -[Z.max] in *.
  destruct (Z.eqb_spec (Z.max 0 (openedAt c + cooldownMs self - t)) 0); [lia|].
  cbn -[Z.max]. rewrite Hs. cbn -[Z.max]. by destruct (now x) as [t2 x2].
Qed.

(** ** Recovering *)

(** [n] calls in a row. *)
Fixpoint times {A} (n : nat) (m : M A) : M unit :=
  match n with O => ret tt | S n' => (m ;; times n' m)%eff end.

Section Recovery.
Context {T : Type} (operation : M T).
Context (Hop : forall c x, wp operation (c, x) (fun o w' _ => exists v, o = Ret v /\ w'.1 = c)).

(** The state a call finds after its look at the clock. *)
Definition ready (c : Circuit) (x : W) (c' : Circuit) : Prop :=
  (forall t, (state c = Open -> t = (now x).1) -> promoted t c = c') /\
  state c' = HalfOpen /\ probeInFlight c' = false.

Lemma probe_wp c x c' (Q : outcome Err T -> World -> list E -> Prop) :
  ready c x c' -> (forall v x l, Q (Ret v) (succeeded c', x) l) -> wp (execute operation false) (c, x) Q.
Proof using Hop.
  intros (Hpr & Hs & Hp) HQ. unfold execute. wp_steps. apply admit_wp. intros t y l Ht. cbv zeta.
  simpl in Ht |- *. rewrite (Hpr t Ht).
  unfold admits, admitted_state. rewrite Hs, Hp. simpl. cbn [wp_cont]. wp_steps.
  eapply wp_mono; [apply Hop|]. intros o w' l' (v & -> & Hw). cbn. unfold settle_call. wp_steps.
  apply recordSuccess_wp. intros z l2. cbn [wp_cont]. wp_steps.
  replace (succeeded w'.1) with (succeeded c'); [apply HQ|]. rewrite Hw.
  unfold succeeded. simpl. by rewrite Hs.
Qed.

Lemma probes_close n c x c' :
  ready c x c' -> Z.of_nat n = successThreshold self - successes c' -> (0 < n)%nat ->
  wp (times n (execute operation false)) (c, x) (fun o w' _ => o = Ret tt /\ state w'.1 = Closed /\ failures w'.1 = 0).
Proof using Hop.
  revert c x c'. induction n as [|n IH]; intros c x c' Hready Hn Hpos; [lia|]. simpl times. wp_steps.
  eapply probe_wp; [exact Hready|]. destruct Hready as (_ & Hs & Hp). intros v y l. cbn [wp_cont].
  unfold succeeded. rewrite Hs. destruct (Z.leb_spec (successThreshold self) (successes c' + 1)) as [Hle|Hlt].
  - assert (n = O) as -> by lia. simpl times. wp_steps. unfold moved. simpl. by rewrite Hs.
  - eapply wp_mono; [eapply IH; [split_and!; [intros t _; unfold promoted; simpl; by rewrite Hs|done|done]|..];
      simpl; lia|]. done.
Qed.

(** A circuit recovers: once its cooldown has elapsed, [successThreshold]
    successful calls in a row, none refused, close it and clear its failures. *)
Theorem circuit_recovers c x :
  well_formed c -> state c = Open -> openedAt c + cooldownMs self <= (now x).1 ->
  wp (times (Z.to_nat (successThreshold self)) (execute operation false)) (c, x)
    (fun o w' _ => o = Ret tt /\ state w'.1 = Closed /\ failures w'.1 = 0).
Proof using Hop Hst.
  intros Hwf Hs Ht. apply (probes_close _ c x (moved HalfOpen 0 c)).
  - split_and!.
    + intros t Hread. unfold promoted. rewrite Hs, (Hread Hs). by destruct (Z.leb_spec (openedAt c + cooldownMs self) (now x).1); [|lia].
    + unfold moved. by case_decide.
    + unfold moved. case_decide; [congruence|]. simpl. destruct (probeInFlight c) eqn:Hp; [|done].
      apply (wf_probe c Hwf) in Hp. congruence.
  - unfold moved. case_decide; simpl; [congruence|lia].
  - lia.
Qed.
End Recovery.

(** ** One probe at a time *)

(** Steps that leave the circuit open or half-open. *)
Inductive unclosed (start : config) : config -> Prop :=
| unclosed_start : unclosed start start
| unclosed_tau cf cf' : unclosed start cf -> tau cf cf' -> unclosed start cf'
| unclosed_done ok cf cf' :
    unclosed start cf -> done ok cf cf' -> state (circuit_of cf') <> Closed -> unclosed start cf'.

Definition single (cf : config) : Prop :=
  state (circuit_of cf) <> Closed /\
  (cf.2 = [] \/ exists call, cf.2 = [call] /\ state (circuit_of cf) = HalfOpen /\ probeInFlight (circuit_of cf) = true).

Lemma single_tau cf cf' : tau cf cf' -> single cf -> single cf'.
Proof.
  intros Ht [Hc Hfl]. split; [by eapply tau_not_closed|].
  apply tau_circuit in Ht as [(t & -> & ->)|[(t & i & Ha & -> & ->)|[-> ->]]]; [| |done].
  - destruct Hfl as [->|(call & -> & Hs & Hp)]; [by left|right].
    exists call. unfold promoted. by rewrite Hs.
  - destruct Hfl as [->|(call & -> & Hs & Hp)].
    + right. eexists. split; [done|]. rewrite admitted_same_state.
      pose proof (promoted_not_closed t _ Hc) as Hpc. unfold admits in Ha.
      unfold admitted_state. by destruct (state (promoted t (circuit_of cf))).
    + unfold admits, promoted in Ha. rewrite Hs in Ha. simpl in Ha. by rewrite Hs, Hp in Ha.
Qed.

(** While the circuit is not closed, and no call admitted earlier is still in
    flight, at most one call runs at a time: the probe. *)
Theorem one_probe_at_a_time c x cf :
  state c <> Closed -> probeInFlight c = false -> unclosed ((c, x), []) cf -> (length cf.2 <= 1)%nat.
Proof.
  intros Hc Hp Hr. enough (single cf) as [_ [->|(call & -> & _)]] by (simpl; lia).
  induction Hr as [|cf cf' _ IH Ht|ok cf cf' _ IH Hd Hn]; [by split; [|left]|by eapply single_tau|].
  split; [done|]. left. destruct IH as [_ Hfl].
  apply done_circuit in Hd as (t & fl1 & call & fl2 & H1 & -> & _). rewrite H1 in Hfl.
  destruct Hfl as [Hfl|(call' & Hfl & _)]; [by destruct fl1|]. destruct fl1 as [|? []]; simplify_eq/=; done.
Qed.
End Breaker.

(** ** Concrete runs *)

Module Demo.

(** The world is a clock. *)
Definition tick (w : Z) : Z * Z := (w, w).
Definition two_of : CircuitBreaker :=
  {| circuit_name := "model"; failureThreshold := 1; cooldownMs := 10; successThreshold := 2 |}.

Definition one_of : CircuitBreaker :=
  {| circuit_name := "model"; failureThreshold := 1; cooldownMs := 10; successThreshold := 1 |}.

Definition ok_call (w : Circuit * Z) : outcome error Z * (Circuit * Z) * list breaker_event := (Ret 7, w, []).
Definition bad_call (w : Circuit * Z) : outcome error Z * (Circuit * Z) * list breaker_event :=
  (Throw (NativeErr "Error" "down"), w, []).

Definition opened : Circuit :=
  {| state := Open; failures := 1; successes := 0; openedAt := 5; probeInFlight := false |}.

Example demo_trip : execute id tick None two_of bad_call false (fresh, 5) =
  (Throw (NativeErr "Error" "down"), (opened, 5), [Dispatched]).
Proof. by vm_compute. Qed.

Lemma open_circuit_fails_fast_witness :
  (tick 8).1 < openedAt opened + cooldownMs two_of /\
  execute id tick None two_of ok_call false (opened, 8) =
  (Throw (CircuitOpenError two_of 7), (opened, 8), []).
Proof. split; [by vm_compute|]. by apply (open_circuit_fails_fast id tick None two_of ok_call false opened 8). Defined.

Lemma opened_wf : well_formed two_of opened.
Proof. by split. Qed.

Lemma circuit_recovers_witness :
  openedAt opened + cooldownMs two_of <= (tick 15).1 /\
  wp (times (Z.to_nat (successThreshold two_of)) (execute id tick None two_of ok_call false)) (opened, 15)
    (fun o w' _ => o = Ret tt /\ state w'.1 = Closed /\ failures w'.1 = 0).
Proof.
  split; [by vm_compute|].
  apply (circuit_recovers id tick None two_of ltac:(by vm_compute) ok_call).
  - intros c x. by exists 7.
  - apply opened_wf.
  - done.
  - by vm_compute.
Defined.

Definition probing : Circuit :=
  {| state := HalfOpen; failures := 1; successes := 0; openedAt := 5; probeInFlight := true |}.

Lemma one_probe_at_a_time_witness :
  unclosed (Err := error) id tick None two_of ((opened, 5%Z), []) ((probing, 15%Z), [(1%nat, HalfOpen)]) /\
  (length ((((probing, 15%Z), [(1%nat, HalfOpen)]) : (Circuit * Z) * list (nat * CircuitState)).2) <= 1)%nat.
Proof.
  assert (unclosed (Err := error) id tick None two_of ((opened, 5%Z), []) ((probing, 15%Z), [(1%nat, HalfOpen)])) as Hu.
  { eapply unclosed_tau; [eapply unclosed_tau; [constructor|apply (tau_world _ _ _ _ _ _ 15)]|].
    eapply (tau_begin _ _ _ _ _ [] 1%nat); [set_solver|by vm_compute]. }
  split; [exact Hu|].
  by apply (one_probe_at_a_time (Err := error) id tick None two_of opened 5 ((probing, 15%Z), [(1%nat, HalfOpen)])).
Defined.

(** Trips at 5, is probed twice at 15, and trips again. *)
Lemma demo_era :
  era (Err := error) id tick None one_of [false]
    (({| state := Open; failures := 1; successes := 0; openedAt := 20; probeInFlight := false |}, 20), []).
Proof.
  pose (opened_at t := {| state := Open; failures := 1; successes := 0; openedAt := t; probeInFlight := false |}).
  assert (era (Err := error) id tick None one_of [false] ((opened_at 5, 15), [])) as H1.
  { eapply era_tau; [|apply (tau_world _ _ _ _ _ 5 15)].
    eapply (era_done_as _ _ _ _ [] _ false).
    - eapply era_tau; [apply (era_start _ _ _ _ 5)|]. eapply (tau_begin _ _ _ _ _ [] 1%nat); [set_solver|by vm_compute].
    - eapply (done_failure _ _ _ _ _ [] (1%nat, Closed) [] "down"). by vm_compute.
    - by vm_compute. }
  assert (era (Err := error) id tick None one_of []
    (({| state := Closed; failures := 0; successes := 0; openedAt := 5; probeInFlight := false |}, 20), [])) as H2.
  { eapply era_tau; [|apply (tau_world _ _ _ _ _ 15 20)].
    eapply (era_done_as _ _ _ _ [false] _ true).
    - eapply era_tau; [exact H1|]. eapply (tau_begin _ _ _ _ _ [] 2%nat); [set_solver|by vm_compute].
    - eapply (done_success _ _ _ _ _ [] (2%nat, HalfOpen) []). by vm_compute.
    - by vm_compute. }
  eapply (era_done_as _ _ _ _ [] _ false).
  - eapply era_tau; [exact H2|]. eapply (tau_begin _ _ _ _ _ [] 3%nat); [set_solver|by vm_compute].
  - eapply (done_failure _ _ _ _ _ [] (3%nat, Closed) [] "down"). by vm_compute.
  - by vm_compute.
Qed.

Lemma trips_on_consecutive_failures_witness :
  Open <> Closed /\ (Open = Closed <-> calm one_of [false]).
Proof.
  split; [done|]. exact (proj1 (trips_on_consecutive_failures (Err := error) id tick None one_of ltac:(by vm_compute) _ _ demo_era)).
Defined.

(** A call admitted before the circuit opened and completing while a probe is in
    flight lets a second probe in: half-open does not admit exactly one. *)
Theorem stale_success_admits_second_probe :
  exists cf, run (Err := error) id tick None two_of [false; true] cf /\
    state (circuit_of cf) = HalfOpen /\ cf.2.*2 = [HalfOpen; HalfOpen].
Proof.
  eexists. split.
  - eapply run_tau; [eapply (run_done _ _ _ _ [false]); [eapply run_tau; [eapply run_tau;
      [eapply (run_done _ _ _ _ []); [eapply run_tau; [eapply run_tau; [apply (run_start _ _ _ _ 5)|]|]|]|]|]|]|].
    + eapply (tau_begin _ _ _ _ _ [] 1%nat); [set_solver|by vm_compute].
    + eapply (tau_begin _ _ _ _ _ _ 2%nat); [simpl; set_solver|by vm_compute].
    + eapply (done_failure _ _ _ _ _ [(2%nat, Closed)] (1%nat, Closed) [] "down"). by vm_compute.
    + eapply (tau_world _ _ _ _ _ _ 15).
    + eapply (tau_begin _ _ _ _ _ _ 3%nat); [simpl; set_solver|by vm_compute].
    + eapply (done_success _ _ _ _ _ [(3%nat, HalfOpen)] (2%nat, Closed) []). by vm_compute.
    + eapply (tau_begin _ _ _ _ _ _ 4%nat); [simpl; set_solver|by vm_compute].
  - by vm_compute.
Qed.

End Demo.

End Breaker.
