(* ===== verification/ResilientModel.v ===== *)
(** * The resilient model adapter (packages/core/src/adapters/resilient-model.adapter.ts)

    Retry inside, circuit breaker outside.  The wrapped adapter's calls are
    functions of the world, which holds the breaker's state: other callers may run
    while one is awaited. *)

From S2P Require Export Breaker.

#[local] Open Scope string_scope.
#[local] Open Scope list_scope.
#[local] Open Scope Z_scope.

Module Resilient.
Import Breaker.

Section Resilient.
Context {W : Type}.
Notation World := (Circuit * W)%type.

(** The calls of the wrapped adapter: one answer; and for streams, opening one and
    pulling its first chunk, pulling the next ([None] when done), closing it. *)
Record ModelAdapter : Type := {
  adapter_generate : ModelRequest -> World -> outcome error ModelResponse * World;
  adapter_open : option (ModelRequest -> World -> outcome error (option ModelStreamChunk) * World);
  adapter_next : World -> outcome error (option ModelStreamChunk) * World;
  adapter_return : World -> outcome error unit * World;
}.

Record ModelResilienceHooks : Type := {
  hook_onRetry : option (Retry.RetryAttemptEvent error -> World -> outcome error unit * World);
  hook_onCircuitStateChange : option (CircuitStateChangeEvent -> W -> (unit + error) * W);
}.

(** [retry] without [onRetry] and [signal], which the adapter sets. *)
Record ResilientModelAdapter : Type := {
  inner : ModelAdapter;
  retryOptions : option (Retry.RetryOptions error World);
  breaker : option CircuitBreaker;
  breaker_listener : option (CircuitStateChangeEvent -> W -> (unit + error) * W);
  hooks : ModelResilienceHooks;
}.

Inductive event : Type :=
| OnRetry (e : Retry.retry_event error)
| OnBreaker (e : breaker_event)
| Yield (chunk : ModelStreamChunk)
| Returned.

Notation M := (M error event World).

(** The host's clock; whether the request has a signal; what a consumer does with a
    chunk: go on ([true]) or leave the loop. *)
Context (now : W -> Z * W) (host : Retry.RetryHost World).
Context (self : ResilientModelAdapter) (signal : bool).
Context (consumer : ModelStreamChunk -> World -> bool * World).

Definition circuitState : M (option CircuitState) :=
  match breaker self with
  | Some b => (s <- currentState OnBreaker now (breaker_listener self) b ;; ret (Some s))%eff
  | None => ret None
  end.

Definition guard {T} (operation : M T) (deferSuccess : bool) : M T :=
  match breaker self with
  | Some b => execute OnBreaker now (breaker_listener self) b operation deferSuccess
  | None => operation
  end.

(** The hook handed to the retry: it ignores what the caller's hook throws. *)
Definition onRetry (e : Retry.RetryAttemptEvent error) (w : World) : outcome error unit * World :=
  match hook_onRetry (hooks self) with
  | None => (Ret tt, w)
  | Some f => match f e w with
              | (Throw _, w') => (Ret tt, w')
              | r => r
              end
  end.

Definition with_hooks (o : Retry.RetryOptions error World) : Retry.RetryOptions error World := {|
  Retry.opt_maxAttempts := Retry.opt_maxAttempts o;
  Retry.opt_initialDelayMs := Retry.opt_initialDelayMs o;
  Retry.opt_maxDelayMs := Retry.opt_maxDelayMs o;
  Retry.opt_jitter := Retry.opt_jitter o;
  Retry.opt_isRetryable := Retry.opt_isRetryable o;
  Retry.opt_onRetry := Some onRetry;
  Retry.opt_sleep := Retry.opt_sleep o;
  Retry.opt_signal := signal;
|}.

Definition withRetry {T} (operation : M T) : M T :=
  match retryOptions self with
  | None => operation
  | Some o => Retry.retryWithBackoff OnRetry host (with_hooks o) operation
  end.

Definition generate (request : ModelRequest) : M ModelResponse :=
  guard (withRetry (lift (adapter_generate (inner self) request))) false.

(** ** Streaming *)

Definition record_success : M unit :=
  match breaker self with
  | Some b => recordSuccess OnBreaker now (breaker_listener self) b
  | None => ret tt
  end.

Definition record_failure (reason : string) : M unit :=
  match breaker self with
  | Some b => recordFailure OnBreaker now (breaker_listener self) b reason
  | None => ret tt
  end.

(** [yield chunk]: whether the consumer asks for more. *)
Definition yield_chunk (chunk : ModelStreamChunk) : M bool :=
  (emit (Yield chunk) ;;
   lift (fun w => let '(b, w') := consumer chunk w in (Ret b, w')))%eff.

(** The consumer left the loop. *)
Definition abandon : M unit :=
  (record_success ;; emit Returned ;; lift (adapter_return (inner self)))%eff.

(** The body of the stream from a chunk on, for at most [fuel] chunks. *)
Fixpoint drain (fuel : nat) (chunk : ModelStreamChunk) : M unit :=
  match fuel with
  | O => diverge
  | S fuel' =>
      (more <- yield_chunk chunk ;;
       if negb more then abandon
       else
         r <- tried (lift (adapter_next (inner self))) ;;
         match r with
         | inl None => record_success
         | inl (Some c) => drain fuel' c
         | inr err => record_failure (error_text err) ;; throw err
         end)%eff
  end.

(** [None] when the wrapped adapter has no [stream]. *)
Definition stream (fuel : nat) (request : ModelRequest) : option (M unit) :=
  match adapter_open (inner self) with
  | None => None
  | Some open =>
      Some (first <- guard (withRetry (lift (open request))) true ;;
            match first with
            | None => record_success
            | Some c => drain fuel c
            end)%eff
  end.

(** ** One outcome per call

    Nothing else touches the breaker while a call of this adapter runs. *)

Record undisturbed : Prop := {
  und_generate : forall r w, (adapter_generate (inner self) r w).2.1 = w.1;
  und_open : forall f r w, adapter_open (inner self) = Some f -> (f r w).2.1 = w.1;
  und_next : forall w, (adapter_next (inner self) w).2.1 = w.1;
  und_return : forall w, (adapter_return (inner self) w).2.1 = w.1;
  und_consumer : forall c w, (consumer c w).2.1 = w.1;
  und_hook : forall f e w, hook_onRetry (hooks self) = Some f -> (f e w).2.1 = w.1;
  und_sleep : forall o f ms w, retryOptions self = Some o -> Retry.opt_sleep o = Some f -> (f ms w).2.1 = w.1;
  und_random : forall w, (Retry.random host w).2.1 = w.1;
  und_timer : forall ms w, (Retry.timer host ms w).1 = w.1;
}.
Context (Hund : undisturbed).

Definition no_yield (e : event) : Prop := match e with Yield _ => False | _ => True end.
Definition no_retry (e : event) : Prop := match e with OnRetry _ => False | _ => True end.

(** A call through the retry leaves the breaker alone and yields nothing. *)
Lemma withRetry_keeps {T} (f : World -> outcome error T * World) c :
  (forall w, (f w).2.1 = w.1) -> keeps (fun w => w.1 = c) no_yield (withRetry (lift f)).
Proof using Hund.
  intros Hf. unfold withRetry. destruct (retryOptions self) as [o|] eqn:Ho;
    [|apply keeps_lift; intros w <-; apply Hf].
  apply Retry.retry_keeps; simpl; try done.
  - apply keeps_lift. intros w <-. apply Hf.
  - intros w <-. by apply und_random.
  - intros ms w <-. by apply und_timer.
  - intros g e w [= <-] <-. unfold onRetry. destruct (hook_onRetry (hooks self)) as [h|] eqn:Hh; [|done].
    pose proof (und_hook Hund h e w Hh) as Hk. by destruct (h e w) as [[] w'].
  - intros g ms w Hg <-. by eapply und_sleep.
Qed.

Lemma withRetry_emits {T} (f : World -> outcome error T * World) :
  keeps (fun _ => True) no_yield (withRetry (lift f)).
Proof.
  unfold withRetry. destruct (retryOptions self) as [o|]; [|by apply keeps_lift].
  by apply Retry.retry_keeps; [|apply keeps_lift|..].
Qed.

Lemma guard_emits {T} (m : M T) deferSuccess :
  keeps (fun _ => True) no_yield m -> keeps (fun _ => True) no_yield (guard m deferSuccess).
Proof. unfold guard. destruct (breaker self); [by apply execute_emits|done]. Qed.

(** The breaker of the adapter, and a closed circuit. *)
Context (b : CircuitBreaker) (Hb : breaker self = Some b) (c : Circuit) (Hc : state c = Closed).

(** The circuit after a call: one success or one failure. *)
Definition settled_as {A} (o : outcome error A) (c' : Circuit) : Prop :=
  match o with
  | Ret _ => c' = succeeded b c
  | Throw _ => exists t, c' = failed b t c
  | Diverge => True
  end.

Lemma guard_wp {T} (m : M T) deferSuccess x :
  keeps (fun w => w.1 = c) no_yield m ->
  wp (guard m deferSuccess) (c, x) (fun o w' _ =>
    match o with
    | Ret _ => w'.1 = if deferSuccess then c else succeeded b c
    | _ => settled_as o w'.1
    end).
Proof using Hb Hc.
  intros Hm. unfold guard. rewrite Hb. unfold execute. wp_steps. apply admit_wp. intros t y l _.
  simpl. rewrite promoted_closed by done. unfold admits, admitted_state. rewrite Hc. cbn [wp_cont]. wp_steps.
  eapply wp_mono; [by apply Hm|]. intros o w1 l1 [Hw1 _].
  destruct o as [v|e|]; simpl; unfold settle_call; [destruct deferSuccess| |done]; wp_steps.
  - done.
  - apply recordSuccess_wp. intros z l2. cbn [wp_cont]. wp_steps. by rewrite Hw1.
  - apply recordFailure_wp. intros t' z l2. cbn [wp_cont]. wp_steps. exists t'. by rewrite Hw1.
Qed.

(** A call counts once against the circuit, however many attempts it made. *)
Theorem generate_counts_once request x :
  wp (generate request) (c, x) (fun o w' _ => settled_as o w'.1).
Proof using Hb Hc Hund.
  eapply wp_mono; [apply guard_wp, withRetry_keeps; intros w; by apply und_generate|].
  intros o w' l. by destruct o.
Qed.

Lemma record_success_wp w (Q : outcome error unit -> World -> list event -> Prop) :
  w.1 = c -> (forall y l, Forall no_retry l -> Q (Ret tt) (succeeded b c, y) l) -> wp record_success w Q.
Proof using Hb.
  intros Hw HQ. unfold record_success. rewrite Hb.
  eapply wp_mono; [apply wp_and;
    [by apply (recordSuccess_emits OnBreaker now (breaker_listener self) b no_retry (fun _ => I))
    |by apply (recordSuccess_wp _ _ _ _ _ (fun o w' _ => o = Ret tt /\ w'.1 = succeeded b w.1))]|].
  intros o [c' y] l [[_ Hl] [-> Hs]]. simpl in Hs. subst c'. rewrite Hw. by apply HQ.
Qed.

Lemma record_failure_wp reason w (Q : outcome error unit -> World -> list event -> Prop) :
  w.1 = c -> (forall t y l, Forall no_retry l -> Q (Ret tt) (failed b t c, y) l) -> wp (record_failure reason) w Q.
Proof using Hb.
  intros Hw HQ. unfold record_failure. rewrite Hb.
  eapply wp_mono; [apply wp_and;
    [by apply (recordFailure_emits OnBreaker now (breaker_listener self) b no_retry (fun _ => I))
    |by apply (recordFailure_wp _ _ _ _ reason _ (fun o w' _ => o = Ret tt /\ exists t, w'.1 = failed b t w.1)); eauto]|].
  intros o [c' y] l [[_ Hl] (-> & t & Hs)]. simpl in Hs. subst c'. rewrite Hw. by apply HQ.
Qed.

(** A stream ends as a success when it was drained or abandoned (even if closing the
    abandoned iterator throws), else as a failure. *)
Definition stream_settled (o : outcome error unit) (c' : Circuit) (l : list event) : Prop :=
  settled_as o c' \/ c' = succeeded b c /\ Returned ∈ l.

Lemma drain_wp fuel chunk w :
  w.1 = c ->
  wp (drain fuel chunk) w (fun o w' l => stream_settled o w'.1 l /\ Forall no_retry l).
Proof using Hb Hund.
  revert chunk w. induction fuel as [|fuel IH]; intros chunk w Hw; simpl drain.
  { unfold wp, diverge. split; [by left|constructor]. }
  unfold yield_chunk. wp_steps. destruct (consumer chunk w) as [more w1] eqn:Hcon. injection Hext as <- <-.
  pose proof (und_consumer Hund chunk w) as Hw1. rewrite Hcon in Hw1. simpl in Hw1.
  cbn [wp_cont]. destruct more; cbn [negb]; cbv iota.
  - wp_steps. pose proof (und_next Hund w1) as Hw2. rewrite Hext in Hw2. simpl in Hw2.
    destruct o as [[nxt|]|err|]; simpl.
    + eapply wp_mono; [by apply IH; rewrite Hw2, Hw1|]. intros o w3 l [Hs Hl].
      split; [|by constructor]. destruct Hs as [Hs|[Hs Hin]]; [by left|right]. split; [done|by right].
    + apply record_success_wp; [by rewrite Hw2, Hw1|]. intros y l Hl. split; [by left|by constructor].
    + wp_steps. apply record_failure_wp; [by rewrite Hw2, Hw1|]. intros t y l Hl. cbn [wp_cont]. wp_steps.
      rewrite app_nil_r. split; [left; by exists t|by constructor].
    + split; [by left|by repeat constructor].
  - unfold abandon. wp_steps. apply record_success_wp; [by rewrite Hw1|]. intros y l Hl. cbn [wp_cont]. wp_steps.
    pose proof (und_return Hund (succeeded b c, y)) as Hr. rewrite Hext in Hr. simpl in Hr.
    split; [right; split; [done|]|].
    + rewrite elem_of_cons, elem_of_app, elem_of_cons. auto.
    + constructor; [done|]. apply Forall_app. split; [done|by repeat constructor].
Qed.

(** A streamed call counts once too, and is never retried once a chunk was
    yielded. *)
Theorem stream_counts_once_and_never_replays fuel request m x :
  stream fuel request = Some m ->
  wp m (c, x) (fun o w' l =>
    stream_settled o w'.1 l /\
    exists l1 l2, l = l1 ++ l2 /\ Forall no_yield l1 /\ Forall no_retry l2).
Proof using Hb Hc Hund.
  unfold stream. destruct (adapter_open (inner self)) as [open|] eqn:Ho; [|done]. intros [= <-].
  wp_steps. eapply wp_mono; [apply wp_and; [apply guard_wp, withRetry_keeps; intros w; by eapply und_open|
    by apply (guard_emits (withRetry (lift (open request))) true (withRetry_emits _))]|].
  intros o w l [Hs [_ Hl]]. destruct o as [[chunk|]|e|]; cbn [wp_cont].
  - eapply wp_mono; [by apply drain_wp|]. intros o w' l' [Hs' Hl']. split; [|by exists l, l'].
    destruct Hs' as [Hs'|[Hs' Hin]]; [by left|right]. split; [done|]. rewrite elem_of_app. by right.
  - apply record_success_wp; [done|]. intros y l' Hl'. split; [by left|by exists l, l'].
  - split; [by left|]. exists l, []. by rewrite app_nil_r.
  - split; [by left|]. exists l, []. by rewrite app_nil_r.
Qed.
End Resilient.
Arguments ResilientModelAdapter : clear implicits.
Arguments ModelAdapter : clear implicits.
Arguments ModelResilienceHooks : clear implicits.

(** ** A provider that is down *)

Module Demo.

Definition down : error := NativeErr "APIConnectionError" "refused".
Definition request : ModelRequest := {|
  req_model := {| provider := None; model_name := "m"; model_options := [] |};
  req_messages := []; req_tools := []; req_outputFormat := None;
  req_metadata := {| meta_sessionId := "s"; meta_traceId := "t"; meta_executionId := "e"; meta_iteration := 1 |};
|}.

(** It answers no request, but its streams give one token and break. *)
Definition dead : ModelAdapter Z := {|
  adapter_generate _ w := (Throw down, w);
  adapter_open := Some (fun _ w => (Ret (Some (TokenChunk "a")), w));
  adapter_next w := (Throw down, w);
  adapter_return w := (Ret tt, w);
|}.

Definition two_fails : CircuitBreaker :=
  {| circuit_name := "m"; failureThreshold := 2; cooldownMs := 10; successThreshold := 1 |}.

Definition thrice : Retry.RetryOptions error (Circuit * Z) := {|
  Retry.opt_maxAttempts := Some (num_of_Z 3); Retry.opt_initialDelayMs := None; Retry.opt_maxDelayMs := None;
  Retry.opt_jitter := None; Retry.opt_isRetryable := None; Retry.opt_onRetry := None;
  Retry.opt_sleep := None; Retry.opt_signal := false |}.

Definition adapter : ResilientModelAdapter Z := {|
  inner := dead; retryOptions := Some thrice; breaker := Some two_fails; breaker_listener := None;
  hooks := {| hook_onRetry := None; hook_onCircuitStateChange := None |};
|}.

Definition host : Retry.RetryHost (Circuit * Z) :=
  {| Retry.aborted _ := false; Retry.random w := (num_of_Z 0, w); Retry.timer _ w := w |}.

Definition eager (c : ModelStreamChunk) (w : Circuit * Z) : bool * (Circuit * Z) := (true, w).

(** Three attempts, one failure counted. *)
Example demo_generate :
  let '(o, w, l) := generate Breaker.Demo.tick host adapter false request (fresh, 0) in
  o = Throw down /\ failures w.1 = 1 /\
  count (fun e => match e with OnRetry e => Retry.is_attempt e | _ => false end) l = 3%nat.
Proof. by vm_compute. Qed.

Lemma adapter_undisturbed : undisturbed host adapter eager.
Proof. split; simpl; try done; intros; by simplify_eq/=. Qed.

Lemma generate_counts_once_witness :
  state fresh = Closed /\
  wp (generate Breaker.Demo.tick host adapter false request) (fresh, 0)
    (fun o w' _ => settled_as two_fails fresh o w'.1).
Proof.
  split; [done|]. by apply (generate_counts_once Breaker.Demo.tick host adapter false eager adapter_undisturbed two_fails).
Defined.

Lemma stream_counts_once_and_never_replays_witness :
  exists m, stream Breaker.Demo.tick host adapter false eager 5 request = Some m /\
  wp m (fresh, 0) (fun o w' l => stream_settled two_fails fresh o w'.1 l /\
    exists l1 l2, l = l1 ++ l2 /\ Forall no_yield l1 /\ Forall no_retry l2).
Proof.
  eexists. split; [reflexivity|].
  by apply (stream_counts_once_and_never_replays Breaker.Demo.tick host adapter false eager adapter_undisturbed
    two_fails eq_refl fresh eq_refl 5 request).
Defined.

End Demo.

End Resilient.
