(* ===== verification/Cascade.v ===== *)
(** * The model cascade (packages/core/src/cascading, interfaces/cascade.interface.ts)

    Tiers are asked in order until one answers with enough confidence.  Regular
    expressions are parameters: what they match in a text, with their groups; so is
    the division of doubles, which decimals cannot represent. *)

From S2P Require Export Num Types.

#[local] Open Scope string_scope.
#[local] Open Scope list_scope.
#[local] Open Scope Z_scope.

(** ** Confidence (confidence-extractors.ts) *)

Module Confidence.

Definition one : num := num_of_Z 1.
Definition zero : num := num_of_Z 0.
(** [Math.min(1.0, Math.max(0.0, n))] *)
Definition clamp (n : num) : num := num_min one (num_max zero n).
(** [n / 100], exact on decimals. *)
Definition percent (n : num) : num := num_mul n (NDec 1 (-2)).

Record HeuristicConfidenceOptions : Type := {
  baselineScore : option num;
  toolCallScore : option num;
  uncertaintyPenalty : option num;
  structureBonus : option num;
  shortResponseScore : option num;
  minLength : option num;
  additionalHedgePatterns : list (string -> bool);
}.

Definition no_options : HeuristicConfidenceOptions := {|
  baselineScore := None; toolCallScore := None; uncertaintyPenalty := None; structureBonus := None;
  shortResponseScore := None; minLength := None; additionalHedgePatterns := [] |}.

(** The expressions of the file: the groups of the first match of the decimal, the
    two percentage and the ratio patterns, the tests of the hedges and of the two
    list markers; and the quotient of doubles. *)
Record Patterns : Type := {
  decimal_match : string -> option string;
  percentage_match : string -> option string;
  percentage_match_after : string -> option string;
  ratio_match : string -> option (string * string);
  UNCERTAINTY_HEDGES : list (string -> bool);
  bullet_test : string -> bool;
  numbered_test : string -> bool;
  quotient : num -> num -> num;
}.

Section Confidence.
Context (p : Patterns).

(** [match[1]] when it is truthy. *)
Definition group (m : option string) : option string :=
  match m with Some g => if truthy g then Some g else None | None => None end.

Definition between (lo v hi : num) : bool := num_le lo v && num_le v hi.

(** The score of the decimal pattern; [None] falls through. *)
Definition decimal_score (content : string) : option num :=
  match group (decimal_match p content) with
  | Some g =>
      let val := str_to_num g in
      if between zero val one then Some val
      else if num_ltb one val && num_le val (num_of_Z 100) then Some (percent val)
      else None
  | None => None
  end.

Definition percentage_score (content : string) : option num :=
  match group (orelse (percentage_match p content) (percentage_match_after p content)) with
  | Some g =>
      let val := str_to_num g in
      if between zero val (num_of_Z 100) then Some (clamp (percent val)) else None
  | None => None
  end.

Definition ratio_score (content : string) : option num :=
  match ratio_match p content with
  | Some (g1, g2) =>
      if truthy g1 && truthy g2 then
        let n := str_to_num g1 in
        let d := str_to_num g2 in
        match n, d with
        | NNaN, _ | _, NNaN => None
        | _, _ => if num_ltb zero d then Some (clamp (quotient p n d)) else None
        end
      else None
  | None => None
  end.

Definition extractVerbalizedConfidence (content : string) : option num :=
  if negb (truthy content) then None
  else orelse (decimal_score content) (orelse (percentage_score content) (ratio_score content)).

Definition fence : string := "```".

(** [s.length] counts UTF-16 units; texts here are ASCII where it matters. *)
Definition text_length (s : string) : num := num_of_Z (str_length s).

Definition extractHeuristicConfidence (content : string) (response : ModelResponse)
    (options : HeuristicConfidenceOptions) : num :=
  let toolScore := default (NDec 92 (-2)) (toolCallScore options) in
  let baseline := default (NDec 8 (-1)) (baselineScore options) in
  let penalty := default (NDec 3 (-1)) (uncertaintyPenalty options) in
  let bonus := default (NDec 1 (-1)) (structureBonus options) in
  let shortScore := default (NDec 35 (-2)) (shortResponseScore options) in
  let minLen := default (num_of_Z 15) (minLength options) in
  match resp_toolCalls response with
  | Some (_ :: _) => toolScore
  | _ =>
      let trimmed := trim content in
      if str_is_empty trimmed then zero
      else if num_ltb (text_length trimmed) minLen then shortScore
      else
        let hedged := fold_left (fun (score : num) (test : string -> bool) =>
                                   if test trimmed then num_sub score penalty else score)
                        (UNCERTAINTY_HEDGES p ++ additionalHedgePatterns options) baseline in
        let score := if includes fence trimmed || bullet_test p trimmed || numbered_test p trimmed
                     then num_add hedged bonus else hedged in
        num_min one (num_max zero (percent (num_round (num_mul score (num_of_Z 100)))))
  end.

Definition defaultConfidenceExtractor (content : string) (response : ModelResponse)
    (options : HeuristicConfidenceOptions) : num :=
  match extractVerbalizedConfidence content with
  | Some v => v
  | None => extractHeuristicConfidence content response options
  end.

(** ** Scores are normalized *)

Definition unit_score (n : num) : Prop := finite_in (fun q => 0 <= q <= 1)%Q n.

Lemma clamp_unit n : n <> NNaN -> unit_score (clamp n).
Proof.
  intros Hn. unfold clamp. destruct (num_max_nonneg n Hn) as [Hi|(q & Hq & H0)].
  - unfold zero. rewrite Hi. eexists. split; [reflexivity|]. by split.
  - eapply finite_mono; [|apply (num_min_Q one (num_max zero n) (dec_Q 1 0) q eq_refl Hq)].
    intros r Hr. simpl in Hr. rewrite Hr, dec_Q_int. change (inject_Z 1) with 1%Q.
    split; [apply Q.min_glb; [lra|done]|apply Q.le_min_l].
Qed.

Lemma between_Q lo v hi a c :
  between lo v hi = true -> num_Q lo = Some a -> num_Q hi = Some c -> finite_in (fun q => a <= q <= c)%Q v.
Proof.
  intros [H1 H2]%andb_prop Ha Hc. destruct v as [m e| |[]]; [|by destruct lo|by destruct lo|by destruct hi].
  eexists. split; [reflexivity|]. split; [exact (proj1 (num_le_finite lo (NDec m e) a (dec_Q m e) Ha eq_refl) H1)
    |exact (proj1 (num_le_finite (NDec m e) hi (dec_Q m e) c eq_refl Hc) H2)].
Qed.

Lemma verbalized_unit content v :
  (forall n d, is_finite n = true -> d <> NNaN -> num_ltb zero d = true -> quotient p n d <> NNaN) ->
  (forall g1 g2, ratio_match p content = Some (g1, g2) -> is_finite (str_to_num g1) = true) ->
  extractVerbalizedConfidence content = Some v -> unit_score v.
Proof.
  intros Hq Hr. unfold extractVerbalizedConfidence. destruct (negb _); [done|].
  destruct (decimal_score content) as [d|] eqn:Hd; simpl; [intros [= <-]|].
  { unfold decimal_score in Hd. destruct (group _) as [g|]; [|done]. cbv zeta in Hd.
    destruct (between zero _ one) eqn:Hb; [simplify_eq|].
    - eapply finite_mono; [|by eapply between_Q]. simpl. intros q. rewrite !dec_Q_int. done.
    - destruct (num_ltb _ _ && _) eqn:Hl; [|done]. simplify_eq.
      apply andb_prop in Hl as [[Hl _]%andb_prop Hh].
      destruct (between_Q one (str_to_num g) (num_of_Z 100) (dec_Q 1 0) (dec_Q 100 0)) as (q & Hqv & H1 & H2);
        [by unfold between; rewrite Hl, Hh|done..|].
      rewrite dec_Q_int in H1, H2. change (inject_Z 1) with 1%Q in H1. change (inject_Z 100) with 100%Q in H2.
      pose proof double_limit_big.
      eapply finite_mono; [|apply (num_mul_finite _ _ _ _ Hqv (eq_refl : num_Q (NDec 1 (-2)) = Some (dec_Q 1 (-2))))];
        change (dec_Q 1 (-2)) with (1 * (1 # 100))%Q; [|split; lra].
      intros r He. simpl in He. rewrite He. split; lra. }
  destruct (percentage_score content) as [d|] eqn:Hp; simpl; [intros [= <-]|].
  { unfold percentage_score in Hp. destruct (group _) as [g|]; [|done]. cbv zeta in Hp.
    destruct (between zero _ _) eqn:Hb; [|done]. simplify_eq. apply clamp_unit.
    unfold percent, num_mul. destruct (str_to_num g) as [m e| |[]]; try done. apply mk_num_number. }
  unfold ratio_score. destruct (ratio_match p content) as [[g1 g2]|] eqn:Hm; [|done].
  specialize (Hr g1 g2 eq_refl). destruct (truthy g1 && truthy g2); [|done]. cbv zeta.
  destruct (str_to_num g1) as [m e| |] eqn:H1; try done.
  destruct (str_to_num g2) as [m' e'| |] eqn:H2; try done;
    (destruct (num_ltb _ _) eqn:Hlt; [|done]); intros [= <-]; by apply clamp_unit, Hq.
Qed.

(** Scores given as numbers of the unit interval, adjustments as finite numbers. *)
Record sane (o : HeuristicConfidenceOptions) : Prop := {
  sane_tool : forall n, toolCallScore o = Some n -> unit_score n;
  sane_short : forall n, shortResponseScore o = Some n -> unit_score n;
  sane_baseline : forall n, baselineScore o = Some n -> is_finite n = true;
  sane_penalty : forall n, uncertaintyPenalty o = Some n -> is_finite n = true;
  sane_bonus : forall n, structureBonus o = Some n -> is_finite n = true;
}.

Lemma num_add_number a b : a <> NNaN -> is_finite b = true -> num_add a b <> NNaN.
Proof. destruct a as [m e| |], b as [m' e'| |]; try done. intros _ _. apply mk_num_number. Qed.

Lemma num_sub_number a b : a <> NNaN -> is_finite b = true -> num_sub a b <> NNaN.
Proof. intros Ha Hb. apply num_add_number; [done|]. by destruct b. Qed.

Lemma num_scale_number a m e : a <> NNaN -> (0 < m)%Z -> num_mul a (NDec m e) <> NNaN.
Proof.
  intros Ha Hm. destruct a as [m1 e1| |s]; [apply mk_num_number|done|]. simpl.
  rewrite (Z.sgn_pos m) by done. by destruct s.
Qed.

Lemma num_round_number a : a <> NNaN -> num_round a <> NNaN.
Proof. destruct a as [m e| |]; simpl; [by destruct (0 <=? e)%Z|done..]. Qed.

Lemma heuristic_unit content response options :
  sane options -> unit_score (extractHeuristicConfidence content response options).
Proof.
  intros Hs. unfold extractHeuristicConfidence. cbv zeta.
  assert (forall o d, unit_score d -> (forall n, o = Some n -> unit_score n) -> unit_score (default d o)) as Hd
    by (intros [n|] d H1 H2; simpl; auto).
  assert (forall m e, (0 <= dec_Q m e <= 1)%Q -> unit_score (NDec m e)) as Hdec by (intros; by eexists).
  assert (unit_score (default (NDec 92 (-2)) (toolCallScore options))) as Htool
    by (apply Hd; [by apply Hdec|apply Hs]).
  assert (unit_score (default (NDec 35 (-2)) (shortResponseScore options))) as Hshort
    by (apply Hd; [by apply Hdec|apply Hs]).
  set (rest := if str_is_empty _ then _ else _).
  enough (unit_score rest) as Hrest by (destruct (resp_toolCalls response) as [[|]|]; [exact Hrest|exact Htool|exact Hrest]).
  unfold rest. destruct (str_is_empty _); [by apply Hdec|]. destruct (num_ltb _ _); [done|].
  apply clamp_unit, num_scale_number; [|done]. apply num_round_number, num_scale_number; [|done].
  assert (forall o d, is_finite d = true -> (forall n, o = Some n -> is_finite n = true) ->
    is_finite (default d o) = true) as Hfin by (intros [n|] d H1 H2; simpl; auto).
  match goal with |- context [fold_left ?f ?l ?b] => set (tests := l); assert (fold_left f tests b <> NNaN) as Hfold end.
  { assert (default (NDec 8 (-1)) (baselineScore options) <> NNaN) as Hb
      by (intros Heq; specialize (Hfin (baselineScore options) (NDec 8 (-1)) eq_refl (sane_baseline _ Hs));
          by rewrite Heq in Hfin).
    revert Hb. generalize (default (NDec 8 (-1)) (baselineScore options)).
    induction tests as [|t tests IH]; intros b Hb; simpl; [done|]. apply IH. destruct (t _); [|done].
    apply num_sub_number; [done|]. apply Hfin; [done|apply Hs]. }
  destruct (_ || _); [|done]. apply num_add_number; [done|]. apply Hfin; [done|apply Hs].
Qed.

(** The default extractor's score is a number of the unit interval, whatever the
    answer says and whatever the expressions match. *)
Theorem confidence_normalized content response options
    (Hq : forall n d, is_finite n = true -> d <> NNaN -> num_ltb zero d = true -> quotient p n d <> NNaN)
    (Hr : forall g1 g2, ratio_match p content = Some (g1, g2) -> is_finite (str_to_num g1) = true)
    (Hs : sane options) :
  unit_score (defaultConfidenceExtractor content response options).
Proof.
  unfold defaultConfidenceExtractor. destruct (extractVerbalizedConfidence content) as [v|] eqn:Hv.
  - by eapply verbalized_unit.
  - by apply heuristic_unit.
Qed.
End Confidence.

End Confidence.

(** ** The cascade (model-cascade.adapter.ts) *)

Module Cascade.

Section Cascade.
Context {W : Type}.

Definition extractor : Type := string -> ModelResponse -> ModelRequest -> W -> outcome error num * W.

Record CascadeTier : Type := {
  tier_model : ModelConfig;
  tier_threshold : option num;
  tier_extractor : option extractor;
  tier_timeoutMs : option num;
}.

Record CascadeEscalationEvent : Type := {
  esc_fromTier : Z;
  esc_toTier : Z;
  esc_fromModel : string;
  esc_toModel : string;
  esc_confidence : num;
  esc_threshold : num;
  esc_reason : string;
}.

Record CascadeMetadata : Type := {
  tiersAttempted : Z;
  finalTierIndex : Z;
  finalModel : string;
  confidenceScore : num;
  cumulativeUsage : ModelUsage;
  escalated : bool;
}.

Record CascadedModelResponse : Type := {
  cascaded : ModelResponse;
  cascadeMetadata : CascadeMetadata;
}.

Inductive FallbackStrategy : Type := AcceptLast | ThrowExhausted.

(** [CascadeConfig | CascadeOptions]: a key that may be absent is an [option], whose
    value may be [undefined]. *)
Record CascadeConfig : Type := {
  cfg_tiers : option (list CascadeTier);
  cfg_fastModel : option ModelConfig;
  cfg_reasoningModel : option ModelConfig;
  cfg_confidenceThreshold : option num;
  cfg_defaultConfidenceThreshold : option (option num);
  cfg_extractorFn : option extractor;
  cfg_fallbackStrategy : option FallbackStrategy;
  cfg_onEscalate : option (CascadeEscalationEvent -> W -> outcome error unit * W);
}.

Record ModelCascadeAdapter : Type := {
  tiers : list CascadeTier;
  defaultThreshold : num;
  fallbackStrategy : FallbackStrategy;
  onEscalate : option (CascadeEscalationEvent -> W -> outcome error unit * W);
}.

Definition default_threshold : num := NDec 85 (-2).

(** The constructor. *)
Definition mk_cascade (config : CascadeConfig) : error + ModelCascadeAdapter :=
  let fallback := default AcceptLast (cfg_fallbackStrategy config) in
  match cfg_tiers config with
  | Some (t :: ts) =>
      let explicit := match cfg_defaultConfidenceThreshold config with
                      | Some v => v
                      | None => cfg_confidenceThreshold config
                      end in
      inr {| tiers := t :: ts; defaultThreshold := default default_threshold explicit;
             fallbackStrategy := fallback; onEscalate := cfg_onEscalate config |}
  | _ =>
      match cfg_fastModel config, cfg_reasoningModel config with
      | Some fast, Some reasoning =>
          let tau := default default_threshold (cfg_confidenceThreshold config) in
          inr {| tiers := [ {| tier_model := fast; tier_threshold := Some tau;
                               tier_extractor := cfg_extractorFn config; tier_timeoutMs := None |};
                            {| tier_model := reasoning; tier_threshold := Some (num_of_Z 0);
                               tier_extractor := cfg_extractorFn config; tier_timeoutMs := None |} ];
                 defaultThreshold := tau; fallbackStrategy := fallback;
                 onEscalate := cfg_onEscalate config |}
      | _, _ =>
          inl (AgenticErr (CascadeConfigurationError
            ("Must provide either a non-empty " +:+ in_quotes "tiers" +:+ " array or both " +:+
             in_quotes "fastModel" +:+ " and " +:+ in_quotes "reasoningModel" +:+ ".")))
      end
  end.

Inductive event : Type :=
| Asked (tier : Z) (request : ModelRequest)
| Broke (tier : Z) (err : error)
| Scored (tier : Z) (response : ModelResponse) (confidence : num)
| Escalated (e : CascadeEscalationEvent)
| Streamed (request : ModelRequest)
| YieldToken (text : string)
| YieldResponse (response : CascadedModelResponse).

Notation M := (M error event W).

(** The wrapped adapter, with the timeout of a tier when it has one (the adapter is
    told to abort by a signal of its own); its stream, when it has one, as the
    chunks it gives and how it ends; and the state of the caller's signal with its
    reason. *)
Record Underlying : Type := {
  generate_with : option num -> ModelRequest -> W -> outcome error ModelResponse * W;
  stream_with : option (ModelRequest -> W -> list ModelStreamChunk * outcome error unit * W);
  aborted : W -> bool;
  abort_reason : W -> option error;
}.

Context (patterns : Confidence.Patterns) (underlying : Underlying) (self : ModelCascadeAdapter).

Definition execution_aborted : error := NativeErr "Error" "Execution aborted.".

(** [throw request.signal.reason ?? d] when aborted. *)
Definition check_abort (d : error) : M unit :=
  (a <- ask (aborted underlying) ;;
   if a : bool then r <- ask (abort_reason underlying) ;; throw (default d r) else ret tt)%eff.

(** [executeWithTimeout]; the timer and the listener are the signal given. *)
Definition executeWithTimeout (request : ModelRequest) (timeoutMs : num) : M ModelResponse :=
  (check_abort execution_aborted ;;
   lift (generate_with underlying (Some timeoutMs) request))%eff.

Definition ask_tier (request : ModelRequest) (tier : CascadeTier) : M ModelResponse :=
  match tier_timeoutMs tier with
  | Some ms => if num_ltb (num_of_Z 0) ms then executeWithTimeout request ms
               else lift (generate_with underlying None request)
  | None => lift (generate_with underlying None request)
  end.

Definition plus (a b : option Z) : option Z := Some (default 0 a + default 0 b).

Definition add_usage (total : ModelUsage) (usage : option ModelUsage) : ModelUsage :=
  match usage with
  | None => total
  | Some u => {| inputTokens := plus (inputTokens total) (inputTokens u);
                 outputTokens := plus (outputTokens total) (outputTokens u);
                 totalTokens := plus (totalTokens total) (totalTokens u) |}
  end.

Definition no_tokens : ModelUsage :=
  {| inputTokens := Some 0; outputTokens := Some 0; totalTokens := Some 0 |}.

Definition with_model (request : ModelRequest) (m : ModelConfig) : ModelRequest := {|
  req_model := m; req_messages := req_messages request; req_tools := req_tools request;
  req_outputFormat := req_outputFormat request; req_metadata := req_metadata request |}.

Definition with_usage (r : ModelResponse) (u : ModelUsage) : ModelResponse := {|
  resp_content := resp_content r; resp_toolCalls := resp_toolCalls r; resp_usage := Some u;
  resp_finishReason := resp_finishReason r; resp_refusal := resp_refusal r; resp_extra := resp_extra r |}.

Definition escalate (e : CascadeEscalationEvent) : M unit :=
  match onEscalate self with
  | Some f => (emit (Escalated e) ;; lift (f e))%eff
  | None => ret tt
  end.

(** [(err as Error).message] *)
Definition message_of (e : error) : string :=
  match e with NonError _ => "undefined" | _ => error_text e end.

Definition threshold_of (tier : CascadeTier) (final : bool) : num :=
  default (if final then num_of_Z 0 else defaultThreshold self) (tier_threshold tier).

Definition confidence_of (tier : CascadeTier) (request : ModelRequest) (r : ModelResponse) : M num :=
  match tier_extractor tier with
  | Some f => lift (f (resp_content r) r request)
  | None => ret (Confidence.defaultConfidenceExtractor patterns (resp_content r) r Confidence.no_options)
  end.

Definition accepted (tier : CascadeTier) (attempted i : Z) (r : ModelResponse) (c : num) (u : ModelUsage)
    : CascadedModelResponse := {|
  cascaded := with_usage r u;
  cascadeMetadata := {|
    tiersAttempted := attempted; finalTierIndex := i; finalModel := model_name (tier_model tier);
    confidenceScore := c; cumulativeUsage := u; escalated := 0 <? i |} |}.

Definition escalation (i : Z) (tier next : CascadeTier) (confidence threshold : num) (reason : string)
    : CascadeEscalationEvent := {|
  esc_fromTier := i; esc_toTier := i + 1;
  esc_fromModel := model_name (tier_model tier); esc_toModel := model_name (tier_model next);
  esc_confidence := confidence; esc_threshold := threshold; esc_reason := reason |}.

(** The loop from tier [i] on. *)
Fixpoint cascade_loop (request : ModelRequest) (i : Z) (rest : list CascadeTier) (total : ModelUsage)
    {struct rest} : M CascadedModelResponse :=
  (match rest with
   | [] => throw (AgenticErr (CascadeConfigurationError
             "Cascade execution completed without resolving a model tier."))
   | tier :: rest' =>
       check_abort execution_aborted ;;
       let final := match rest' with [] => true | _ => false end in
       let threshold := threshold_of tier final in
       let tierRequest := with_model request (tier_model tier) in
       emit (Asked i tierRequest) ;;
       answer <- tried (ask_tier tierRequest tier) ;;
       match answer with
       | inr err =>
           emit (Broke i err) ;;
           check_abort err ;;
           match rest' with
           | [] => throw err
           | next :: _ =>
               escalate (escalation i tier next (num_of_Z 0) threshold
                           ("Tier execution failed: " +:+ message_of err)) ;;
               cascade_loop request (i + 1) rest' total
           end
       | inl response =>
           let total' := add_usage total (resp_usage response) in
           confidence <- confidence_of tier tierRequest response ;;
           emit (Scored i response confidence) ;;
           if num_le threshold confidence then
             ret (accepted tier (i + 1) i response confidence total')
           else
             match rest' with
             | [] =>
                 match fallbackStrategy self with
                 | ThrowExhausted =>
                     throw (AgenticErr (CascadeExhaustedError (Z.of_nat (length (tiers self))) confidence
                              threshold (model_name (tier_model tier))))
                 | AcceptLast =>
                     ret (accepted tier (Z.of_nat (length (tiers self))) i response confidence total')
                 end
             | next :: _ =>
                 escalate (escalation i tier next confidence threshold
                   ("Confidence " +:+ to_fixed 2 confidence +:+ " < threshold " +:+ to_fixed 2 threshold)) ;;
                 cascade_loop request (i + 1) rest' total'
             end
       end
   end)%eff.

Definition generate (request : ModelRequest) : M CascadedModelResponse :=
  (check_abort execution_aborted ;;
   cascade_loop request 0 (tiers self) no_tokens)%eff.

(** ** Streaming *)

(** The request of the stream: only the model's name is the tier's. *)
Definition targetRequest (request : ModelRequest) (resolved : CascadedModelResponse) : ModelRequest :=
  with_model request {|
    provider := provider (req_model request);
    model_name := finalModel (cascadeMetadata resolved);
    model_options := model_options (req_model request) |}.

(** The chunks up to the first response; [true] when one was given. *)
Fixpoint forward (resolved : CascadedModelResponse) (chunks : list ModelStreamChunk) : M bool :=
  match chunks with
  | [] => ret false
  | TokenChunk t :: rest => (emit (YieldToken t) ;; forward resolved rest)%eff
  | ResponseChunk r :: _ =>
      (emit (YieldResponse {|
          cascaded := with_usage r (cumulativeUsage (cascadeMetadata resolved));
          cascadeMetadata := cascadeMetadata resolved |}) ;;
       ret true)%eff
  end.

Definition stream (request : ModelRequest) : M unit :=
  match stream_with underlying with
  | None => (res <- generate request ;; emit (YieldResponse res))%eff
  | Some open =>
      (resolved <- generate request ;;
       let target := targetRequest request resolved in
       emit (Streamed target) ;;
       r <- lift (fun w => let '(chunks, ending, w') := open target w in (Ret (chunks, ending), w')) ;;
       let '(chunks, ending) := r in
       finished <- forward resolved chunks ;;
       if finished : bool then ret tt
       else lift (fun w => (ending, w)) ;; emit (YieldResponse resolved))%eff
  end.

(** ** What a resolved cascade did *)

Definition asked (l : list event) : list Z :=
  filter_map (fun e => match e with Asked i _ => Some i | _ => None end) l.
Definition scored (l : list event) : list (Z * ModelResponse * num) :=
  filter_map (fun e => match e with Scored i r c => Some (i, r, c) | _ => None end) l.

(** The usage of all answers, on top of [total]. *)
Definition billed (total : ModelUsage) (l : list event) : ModelUsage :=
  fold_left add_usage (map (fun s => resp_usage s.1.2) (scored l)) total.

(** Tier [t] was too unsure. *)
Definition unsure (t : CascadeTier) (c : num) : Prop := num_le (threshold_of t false) c = false.

(** From tier [i] on, with [total] used so far, the events [l] led to [res]: tiers
    asked in order up to the one accepted, its answer returned with the usage of
    all answers, the answers before it unsure. *)
Record resolved_as (i : Z) (rest : list CascadeTier) (total : ModelUsage) (l : list event)
    (res : CascadedModelResponse) : Prop := {
  ra_asked : asked l = map (fun j => i + Z.of_nat j) (seq 0 (Z.to_nat (finalTierIndex (cascadeMetadata res) - i + 1)));
  ra_index : i <= finalTierIndex (cascadeMetadata res);
  ra_usage : cumulativeUsage (cascadeMetadata res) = billed total l;
  ra_answer : exists before r c, scored l = before ++ [(finalTierIndex (cascadeMetadata res), r, c)] /\
    cascaded res = with_usage r (cumulativeUsage (cascadeMetadata res)) /\
    confidenceScore (cascadeMetadata res) = c /\
    (forall j r' c', (j, r', c') ∈ before ->
       exists t, rest !! Z.to_nat (j - i) = Some t /\ unsure t c' /\ i <= j < finalTierIndex (cascadeMetadata res)) /\
    exists t, rest !! Z.to_nat (finalTierIndex (cascadeMetadata res) - i) = Some t /\
      finalModel (cascadeMetadata res) = model_name (tier_model t) /\
      let last := bool_decide (Z.to_nat (finalTierIndex (cascadeMetadata res) - i) = (length rest - 1)%nat) in
      (num_le (threshold_of t last) c = true \/ last = true /\ fallbackStrategy self = AcceptLast);
}.

Definition silent (e : event) : Prop := match e with Asked _ _ | Scored _ _ _ => False | _ => True end.

Lemma silent_asked l l' : Forall silent l -> asked (l ++ l') = asked l'.
Proof. unfold asked. rewrite filter_map_app. induction 1 as [|e l He _ IH]; [done|]. by destruct e. Qed.

Lemma silent_scored l l' : Forall silent l -> scored (l ++ l') = scored l'.
Proof. unfold scored. rewrite filter_map_app. induction 1 as [|e l He _ IH]; [done|]. by destruct e. Qed.

Lemma resolved_ext i rest total l l' res :
  asked l = asked l' -> scored l = scored l' -> resolved_as i rest total l res -> resolved_as i rest total l' res.
Proof. intros Ha Hs [H1 H2 H3 H4]. unfold billed in *. split; unfold billed; by rewrite <- ?Ha, <- ?Hs. Qed.

Lemma seq_map_shift i n :
  i :: map (fun j => i + 1 + Z.of_nat j) (seq 0 n) = map (fun j => i + Z.of_nat j) (seq 0 (S n)).
Proof.
  simpl. f_equal; [lia|]. rewrite <- seq_shift, map_map. apply map_ext. intros j. lia.
Qed.

(** One more tier in front: it broke, or its answer was too unsure. *)
Lemma resolved_after i t rest total (answer : option (ModelResponse * num)) l res q :
  (forall r c, answer = Some (r, c) -> unsure t c) ->
  resolved_as (i + 1) rest (default total ((fun a => add_usage total (resp_usage a.1)) <$> answer)) l res ->
  resolved_as i (t :: rest) total
    (Asked i q :: match answer with Some (r, c) => [Scored i r c] | None => [] end ++ l) res.
Proof.
  intros Hun [Ha Hi Hu (before & r & c & Hs & Hc & Hconf & Hb & t' & Ht & Hm & Hacc)].
  set (f := finalTierIndex (cascadeMetadata res)) in *. split.
  - fold f. replace (Z.to_nat (f - i + 1)) with (S (Z.to_nat (f - (i + 1) + 1))) by lia.
    rewrite <- seq_map_shift, <- Ha. by destruct answer as [[]|].
  - fold f. lia.
  - rewrite Hu. by destruct answer as [[]|].
  - exists (match answer with Some (r1, c1) => (i, r1, c1) :: before | None => before end), r, c. fold f. split_and!; try done.
    + rewrite app_comm_cons. destruct answer as [[]|]; unfold scored in *; simpl; by rewrite Hs.
    + intros j r' c' Hin.
      assert ((j, r', c') ∈ before \/ j = i /\ answer = Some (r', c')) as [Hbefore|[-> Hans]]
        by (destruct answer as [[]|]; [apply elem_of_cons in Hin as [Hin|]; [simplify_eq; by right|by left]|by left]).
      * destruct (Hb j r' c' Hbefore) as (t0 & Ht0 & Hu0 & Hj). exists t0.
        replace (Z.to_nat (j - i)) with (S (Z.to_nat (j - (i + 1)))) by lia. split_and!; [done|done|lia|lia].
      * exists t. rewrite Z.sub_diag. split_and!; [done|by eapply Hun|lia|lia].
    + exists t'. replace (Z.to_nat (f - i)) with (S (Z.to_nat (f - (i + 1)))) by lia. split_and!; try done.
      simpl length. revert Hacc. cbv zeta.
      assert (Z.to_nat (f - (i + 1)) < length rest)%nat as Hlen by (by apply lookup_lt_Some in Ht).
      by rewrite (bool_decide_ext (S (Z.to_nat (f - (i + 1))) = (S (length rest) - 1)%nat)
        (Z.to_nat (f - (i + 1)) = (length rest - 1)%nat)) by lia.
Qed.

(** The tier that is accepted. *)
Lemma resolved_here i t rest total r c attempted q last :
  last = match rest with [] => true | _ => false end ->
  num_le (threshold_of t last) c = true \/ last = true /\ fallbackStrategy self = AcceptLast ->
  resolved_as i (t :: rest) total [Asked i q; Scored i r c]
    (accepted t attempted i r c (add_usage total (resp_usage r))).
Proof.
  intros Hlast Hacc. split; simpl.
  - replace (i - i + 1) with 1 by lia. change (Z.to_nat 1) with 1%nat. unfold asked. simpl. by rewrite Z.add_0_r.
  - lia.
  - done.
  - exists [], r, c. split_and!; try done; [by intros j r' c' Hin%elem_of_nil|].
    exists t. rewrite Z.sub_diag. split_and!; try done. cbv zeta.
    assert (bool_decide (Z.to_nat 0 = (length rest - 0)%nat) = last) as ->; [|done].
    destruct rest; subst last; [by rewrite bool_decide_true|by rewrite bool_decide_false].
Qed.

(** A continuation whose events before it are silent. *)
Lemma check_abort_silent d : keeps (fun _ => True) silent (check_abort d).
Proof. unfold check_abort. repeat keeps_step. Qed.

Lemma escalate_silent e : keeps (fun _ => True) silent (escalate e).
Proof. unfold escalate. repeat keeps_step; done. Qed.

Lemma ask_tier_silent q t : keeps (fun _ => True) silent (ask_tier q t).
Proof. unfold ask_tier, executeWithTimeout. repeat first [keeps_step | apply check_abort_silent]; done. Qed.

Lemma confidence_silent t q r : keeps (fun _ => True) silent (confidence_of t q r).
Proof. unfold confidence_of. repeat keeps_step; done. Qed.

Definition resolves (i : Z) (rest : list CascadeTier) (total : ModelUsage)
    (o : outcome error CascadedModelResponse) (l : list event) : Prop :=
  forall res, o = Ret res -> resolved_as i rest total l res.

(** A property of outcomes and events that silent events do not change and that says
    nothing of failures. *)
Definition about_results (Q : outcome error CascadedModelResponse -> list event -> Prop) : Prop :=
  (forall o l l', Forall silent l' -> Q o l -> Q o (l' ++ l)) /\
  (forall o l, (forall res, o <> Ret res) -> Q o l).

Lemma resolves_about i rest total : about_results (resolves i rest total).
Proof.
  split; [|intros o l Hn res ->; by destruct (Hn res)].
  intros o l l' Hl HQ res Hres. apply (resolved_ext i rest total l); [by rewrite silent_asked|by rewrite silent_scored|auto].
Qed.

Lemma pending_about i rest total q :
  about_results (fun o l => resolves i rest total o (Asked i q :: l)).
Proof.
  split; [|intros o l Hn res ->; by destruct (Hn res)].
  intros o l l' Hl HQ res Hres. apply (resolved_ext i rest total (Asked i q :: l)); [| |auto].
  - unfold asked. simpl. f_equal. symmetry. apply (silent_asked l' l Hl).
  - symmetry. apply (silent_scored l' l Hl).
Qed.

Lemma scored_about i rest total q r c :
  about_results (fun o l => resolves i rest total o (Asked i q :: Scored i r c :: l)).
Proof.
  split; [|intros o l Hn res ->; by destruct (Hn res)].
  intros o l l' Hl HQ res Hres. apply (resolved_ext i rest total (Asked i q :: Scored i r c :: l)); [| |auto].
  - unfold asked. simpl. f_equal. symmetry. apply (silent_asked l' l Hl).
  - unfold scored. simpl. f_equal. symmetry. apply (silent_scored l' l Hl).
Qed.

(** A silent step in front. *)
Lemma silent_bind {A} (m : M A) (k : A -> M CascadedModelResponse) w Q :
  about_results Q -> keeps (fun _ => True) silent m ->
  (forall a w', wp (k a) w' (fun o _ l => Q o l)) -> wp (bind m k) w (fun o _ l => Q o l).
Proof.
  intros [Hs Hn] Hm Hk. wp_steps. eapply wp_mono; [by apply Hm|]. intros [a|e|] w' l' [_ Hl']; simpl.
  - eapply wp_mono; [apply Hk|]. intros o w2 l HQ. by apply Hs.
  - by apply Hn.
  - by apply Hn.
Qed.

Lemma cascade_loop_wp request i rest total w :
  wp (cascade_loop request i rest total) w (fun o _ l => resolves i rest total o l).
Proof.
  revert i total w. induction rest as [|t rest IH]; intros i total w; simpl cascade_loop; [by wp_steps|].
  apply silent_bind; [apply resolves_about|apply check_abort_silent|]. intros _ w1. cbv zeta. do 2 wp_step.
  set (q := with_model request (tier_model t)).
  apply (silent_bind _ _ _ _ (pending_about i (t :: rest) total q)); [apply keeps_tried, ask_tier_silent|].
  intros [r|err] w2.
  - apply (silent_bind _ _ _ _ (pending_about i (t :: rest) total q)); [apply confidence_silent|]. intros c w3.
    wp_steps. destruct (num_le _ c) eqn:Hc.
    { wp_steps. intros res [= <-]. eapply resolved_here; [reflexivity|by left]. }
    destruct rest as [|next rest].
    + destruct (fallbackStrategy self) eqn:Hf; wp_steps; [|done].
      intros res [= <-]. by eapply resolved_here; [reflexivity|right].
    + apply (silent_bind _ _ _ _ (scored_about i (t :: next :: rest) total q r c)); [apply escalate_silent|].
      intros _ w4. eapply wp_mono; [apply IH|]. intros o w5 l Hr res Hres.
      apply (resolved_after i t (next :: rest) total (Some (r, c))); [by intros ?? [= <- <-]|by apply Hr].
  - apply (silent_bind _ _ _ _ (pending_about i (t :: rest) total q)); [by apply keeps_emit|]. intros _ w3.
    apply (silent_bind _ _ _ _ (pending_about i (t :: rest) total q)); [apply check_abort_silent|]. intros _ w4.
    destruct rest as [|next rest]; [by wp_steps|].
    apply (silent_bind _ _ _ _ (pending_about i (t :: next :: rest) total q)); [apply escalate_silent|].
    intros _ w5. eapply wp_mono; [apply IH|]. intros o w6 l Hr res Hres.
    by apply (resolved_after i t (next :: rest) total None), Hr.
Qed.

(** A cascade that returns asked its tiers in order, each once, up to the one it
    accepts; every answer before that was below its tier's threshold; the accepted
    answer met its own, or was the last with [accept_last]; and the usage returned
    is that of all answers together. *)
Theorem cascade_accepts_first_confident_tier request w :
  wp (generate request) w (fun o _ l => resolves 0 (tiers self) no_tokens o l).
Proof.
  unfold generate. apply silent_bind; [apply resolves_about|apply check_abort_silent|].
  intros _ w'. apply cascade_loop_wp.
Qed.
End Cascade.
Arguments CascadeTier : clear implicits.
Arguments CascadeConfig : clear implicits.
Arguments ModelCascadeAdapter : clear implicits.
Arguments Underlying : clear implicits.

End Cascade.

(** ** The router (model-cascade.router.ts) *)

Module Router.
Import Cascade.

Section Router.
Context {W : Type} (patterns : Confidence.Patterns) (underlying : Underlying W).
Context (defaultOptions : option (CascadeConfig W)).

Definition createAdapter (config : CascadeConfig W) : error + ModelCascadeAdapter W := mk_cascade config.

Definition route (request : ModelRequest) (customConfig : option (CascadeConfig W))
    : M error event W CascadedModelResponse :=
  match orelse customConfig defaultOptions with
  | None => throw (NativeErr "Error" "No cascade configuration provided to ModelCascadeRouter.")
  | Some config =>
      match createAdapter config with
      | inl e => throw e
      | inr adapter => generate patterns underlying adapter request
      end
  end.
End Router.

Inductive Complexity : Type := Simple | Moderate | Complex.

Definition estimateComplexity (prompt : string) (classifierFn : option (string -> Complexity)) : Complexity :=
  match classifierFn with
  | Some f => f prompt
  | None =>
      let len := str_length prompt in
      if includes Confidence.fence prompt ||
         (includes "{" prompt && includes "}" prompt && (300 <? len)) then
        if 800 <? len then Complex else Moderate
      else if 1200 <? len then Complex
      else if 250 <? len then Moderate
      else Simple
  end.

(** A text is never judged simpler for being longer, when it has no structure. *)
Lemma estimate_plain prompt :
  includes Confidence.fence prompt = false -> includes "{" prompt = false ->
  estimateComplexity prompt None =
  (if 1200 <? str_length prompt then Complex else if 250 <? str_length prompt then Moderate else Simple).
Proof. intros H1 H2. unfold estimateComplexity. by rewrite H1, H2. Qed.
End Router.

(** ** Two tiers *)

Module CascadeDemo.
Import Cascade.

(** A text that hedges with "maybe"; no other expression matches. *)
Definition patterns : Confidence.Patterns := {|
  Confidence.decimal_match _ := None; Confidence.percentage_match _ := None;
  Confidence.percentage_match_after _ := None; Confidence.ratio_match _ := None;
  Confidence.UNCERTAINTY_HEDGES := [includes "maybe"]; Confidence.bullet_test _ := false;
  Confidence.numbered_test _ := false; Confidence.quotient _ _ := num_of_Z 1 |}.

Definition model (p name : string) : ModelConfig :=
  {| provider := Some p; model_name := name; model_options := [] |}.

Definition answer (text : string) (tokens : Z) : ModelResponse := {|
  resp_content := text; resp_toolCalls := None;
  resp_usage := Some {| inputTokens := Some 0; outputTokens := Some tokens; totalTokens := Some tokens |};
  resp_finishReason := None; resp_refusal := None; resp_extra := [] |}.

(** The small model hedges; every model streams one token and a response. *)
Definition underlying : Underlying unit := {|
  generate_with _ q w :=
    (Ret (if bool_decide (model_name (req_model q) = "small") then answer "maybe it is forty-two" 10
          else answer "it is certainly forty-two" 20), w);
  stream_with := Some (fun q w => ([TokenChunk "it"; ResponseChunk (answer "it is certainly forty-two" 20)], Ret tt, w));
  aborted _ := false; abort_reason _ := None |}.

Definition config : CascadeConfig unit := {|
  cfg_tiers := None; cfg_fastModel := Some (model "fastco" "small");
  cfg_reasoningModel := Some (model "bigco" "large"); cfg_confidenceThreshold := Some (NDec 75 (-2));
  cfg_defaultConfidenceThreshold := None; cfg_extractorFn := None; cfg_fallbackStrategy := None;
  cfg_onEscalate := None |}.

Definition adapter : ModelCascadeAdapter unit :=
  match mk_cascade config with
  | inr a => a
  | inl _ => {| tiers := []; defaultThreshold := num_of_Z 0; fallbackStrategy := AcceptLast; onEscalate := None |}
  end.

Definition request : ModelRequest := {|
  req_model := model "fastco" "small"; req_messages := []; req_tools := []; req_outputFormat := None;
  req_metadata := {| meta_sessionId := "s"; meta_traceId := "t"; meta_executionId := "e"; meta_iteration := 1 |} |}.

(** The cascade escalates, and bills both answers. *)
Example demo_escalation :
  match generate patterns underlying adapter request tt with
  | (Ret res, _, l) =>
      finalModel (cascadeMetadata res) = "large" /\ resp_content (cascaded res) = "it is certainly forty-two" /\
      outputTokens (cumulativeUsage (cascadeMetadata res)) = Some 30 /\ asked l = [0; 1]
  | _ => False
  end.
Proof. by vm_compute. Qed.

(** Streaming runs the accepted tier a second time, asks the provider of the
    request for the model of the tier, and reports the usage of the first runs only:
    here three model calls of 50 tokens, 30 of them reported, and a model of one
    provider asked of another. *)
Theorem stream_misroutes_and_underbills :
  match stream patterns underlying adapter request tt with
  | (_, _, l) =>
      asked l = [0; 1] /\
      filter_map (fun e => match e with Streamed q => Some (req_model q) | _ => None end) l =
        [model "fastco" "large"] /\
      filter_map (fun e => match e with
                           | YieldResponse r => Some (outputTokens (cumulativeUsage (cascadeMetadata r)))
                           | _ => None end) l = [Some 30]
  end.
Proof. by vm_compute. Qed.

Lemma confidence_normalized_witness :
  Confidence.sane Confidence.no_options /\
  Confidence.unit_score (Confidence.defaultConfidenceExtractor patterns "maybe it is forty-two"
    (answer "maybe it is forty-two" 10) Confidence.no_options).
Proof.
  assert (Confidence.sane Confidence.no_options) as Hs by done.
  split; [exact Hs|]. by apply (Confidence.confidence_normalized patterns).
Defined.

End CascadeDemo.
