(* ===== verification/ToolArgs.v ===== *)
(** * Tool argument validation (packages/core/src/utils/tool-args.validator.ts)

    Validation and coercion of the arguments a model supplies, before a tool or
    a policy sees them: only declared parameters survive, each with a value of
    its declared type, and validating twice is validating once. *)

From S2P Require Export Types.

#[local] Open Scope string_scope.
#[local] Open Scope list_scope.
#[local] Open Scope Z_scope.

Module ToolArgs.

Record ToolArgsValidationResult : Type := { valid : bool; args : obj; issues : list string }.

Definition describeType (v : value) : string :=
  match v with
  | VNull => "null"
  | VArr _ => "array"
  | _ => typeof v
  end.

Definition type_name (t : ParamType) : string :=
  match t with
  | PString => "string" | PNumber => "number" | PBoolean => "boolean"
  | PObject => "object" | PArray => "array"
  end.

(** [value !== null && typeof value === 'object' && !Array.isArray(value)] *)
Definition is_plain_object (v : value) : bool :=
  match v with VObj _ | VDate _ | VMap _ | VSet _ => true | _ => false end.

(** The value kept for a parameter, or [None] when none of the cases accepts it. *)
Definition coerce_value (t : ParamType) (v : value) : option value :=
  match t, v with
  | PString, VStr _ => Some v
  | PString, VNum n => Some (VStr (num_to_string n))
  | PString, VBool b => Some (VStr (if b then "true" else "false"))
  | PNumber, VNum n => if is_finite n then Some v else None
  | PNumber, VStr s =>
      if truthy (trim s) then
        let parsed := str_to_num s in
        if is_finite parsed then Some (VNum parsed) else None
      else None
  | PBoolean, VBool _ => Some v
  | PBoolean, VStr s =>
      if bool_decide (s = "true") then Some (VBool true)
      else if bool_decide (s = "false") then Some (VBool false) else None
  | PArray, VArr _ => Some v
  | PObject, _ => if is_plain_object v then Some v else None
  | _, _ => None
  end.

Definition coerce (p : ToolParamSchema) (v : value) : value + string :=
  match coerce_value (param_type p) v with
  | Some v' => inl v'
  | None =>
      inr ("parameter " +:+ in_quotes (param_name p) +:+ " expected " +:+
           type_name (param_type p) +:+ " but received " +:+ describeType v)
  end.

(** The provided value of a parameter, when it is neither absent, [undefined]
    nor [null]. *)
Definition provided_value (provided : obj) (name : string) : option value :=
  match obj_get provided name with
  | Some VUndef | Some VNull | None => None
  | v => v
  end.

(** One iteration of the loop over the declared parameters. *)
Definition validate_param (provided : obj) (acc : obj * list string) (p : ToolParamSchema)
    : obj * list string :=
  let '(a, iss) := acc in
  match provided_value provided (param_name p) with
  | None =>
      if param_required p
      then (a, iss ++ ["missing required parameter " +:+ in_quotes (param_name p)])
      else (a, iss)
  | Some v =>
      match coerce p v with
      | inl v' => (obj_set a (param_name p) v', iss)
      | inr issue => (a, iss ++ [issue])
      end
  end.

Definition validateToolArgs (parameters : list ToolParamSchema) (rawArgs : option obj)
    : ToolArgsValidationResult :=
  let provided := default [] rawArgs in
  let '(a, iss) := fold_left (validate_param provided) parameters ([], []) in
  {| valid := match iss with [] => true | _ => false end; args := a; issues := iss |}.

(** ** Properties *)

(** A value of the declared type. *)
Definition has_type (t : ParamType) (v : value) : bool :=
  match t, v with
  | PString, VStr _ => true
  | PNumber, VNum n => is_finite n
  | PBoolean, VBool _ => true
  | PArray, VArr _ => true
  | PObject, _ => is_plain_object v
  | _, _ => false
  end.

Lemma coerce_value_typed t v v' : coerce_value t v = Some v' -> has_type t v' = true.
Proof.
  destruct t, v; simpl; intros H; repeat case_match; simplify_eq/=; auto.
Qed.

Lemma coerce_value_id t v : has_type t v = true -> coerce_value t v = Some v.
Proof. destruct t, v; simpl; intros H; simplify_eq; try done; by rewrite H. Qed.

Lemma coerce_inl p v v' : coerce p v = inl v' <-> coerce_value (param_type p) v = Some v'.
Proof. unfold coerce. destruct (coerce_value _ _); naive_solver. Qed.

Lemma has_type_provided t v : has_type t v = true -> v <> VUndef /\ v <> VNull.
Proof. destruct t, v; done. Qed.

Lemma obj_set_keys o k v k' : k' ∈ obj_keys (obj_set o k v) <-> k' = k \/ k' ∈ obj_keys o.
Proof.
  induction o as [|[k1 v1] o IH]; simpl.
  - rewrite list_elem_of_singleton. set_solver.
  - case_bool_decide; simpl; subst; set_solver.
Qed.

(** What the loop keeps: every key was declared, with a value of its type. *)
Definition typed_by (ps : list ToolParamSchema) (a : obj) : Prop :=
  forall k v, obj_get a k = Some v ->
    exists p, p ∈ ps /\ param_name p = k /\ has_type (param_type p) v = true.

Lemma typed_by_mono ps ps' a : (forall p, p ∈ ps -> p ∈ ps') -> typed_by ps a -> typed_by ps' a.
Proof. intros Hs H k v Hk. destruct (H k v Hk) as (p & ? & ? & ?). exists p; auto. Qed.

#[local] Arguments validate_param : simpl never.

Lemma validate_loop_typed provided todo ps done_ps a iss :
  ps = done_ps ++ todo -> typed_by done_ps a ->
  typed_by ps (fold_left (validate_param provided) todo (a, iss)).1.
Proof.
  revert done_ps a iss. induction todo as [|p todo IH]; intros dn a iss ->; simpl.
  - by rewrite app_nil_r.
  - intros Hty. destruct (validate_param provided (a, iss) p) as [a' iss'] eqn:Hv.
    apply (IH (dn ++ [p])); [by rewrite <- app_assoc|].
    assert (Hw : typed_by (dn ++ [p]) a)
      by (eapply typed_by_mono, Hty; set_solver).
    revert Hv. unfold validate_param. destruct (provided_value provided (param_name p)) as [v|];
      [|by repeat case_match; intros; simplify_eq].
    destruct (coerce p v) as [v'|] eqn:Hc; intros; simplify_eq; [|done].
    intros k w. rewrite obj_get_set. case_bool_decide; [|by apply Hw].
    intros [= <-]. exists p. split_and!; [set_solver|done|].
    by eapply coerce_value_typed, coerce_inl.
Qed.

Lemma validated_typed ps raw : typed_by ps (args (validateToolArgs ps raw)).
Proof.
  unfold validateToolArgs.
  pose proof (validate_loop_typed (default [] raw) ps ps [] [] [] eq_refl) as H.
  destruct (fold_left _ ps _) as [a iss]; simpl in *. apply H. by intros ??.
Qed.

(** Whatever the model supplies, the arguments handed on hold only declared
    parameters, each with a value of its declared type: undeclared keys are
    dropped and no ill-typed value gets through. *)
Theorem validate_args_typed (ps : list ToolParamSchema) (raw : option obj) k v :
  obj_get (args (validateToolArgs ps raw)) k = Some v ->
  exists p, p ∈ ps /\ param_name p = k /\ has_type (param_type p) v = true.
Proof. apply validated_typed. Qed.

Definition demo_params : list ToolParamSchema :=
  [ {| param_name := "orderId"; param_description := None; param_type := PString; param_required := true |};
    {| param_name := "amount"; param_description := None; param_type := PNumber; param_required := true |} ].
Definition demo_raw : obj :=
  [("orderId", VNum (num_of_Z 42)); ("amount", VStr "600"); ("hallucinated", VBool true)].

Lemma validate_args_typed_witness :
  exists p, p ∈ demo_params /\ param_name p = "amount" /\
            has_type (param_type p) (VNum (num_of_Z 600)) = true.
Proof.
  apply (validate_args_typed demo_params (Some demo_raw) "amount" (VNum (num_of_Z 600))).
  vm_compute. reflexivity.
Defined.

(** The value the loop keeps for one parameter. *)
Definition kept (provided : obj) (p : ToolParamSchema) : option value :=
  match provided_value provided (param_name p) with
  | Some v => coerce_value (param_type p) v
  | None => None
  end.

(** Whether a parameter raises no issue. *)
Definition param_ok (provided : obj) (p : ToolParamSchema) : bool :=
  match provided_value provided (param_name p) with
  | Some v => is_some (coerce_value (param_type p) v)
  | None => negb (param_required p)
  end.

Definition keep (provided : obj) (a : obj) (p : ToolParamSchema) : obj :=
  match kept provided p with Some v => obj_set a (param_name p) v | None => a end.

Lemma validate_param_spec provided a iss p :
  exists more, validate_param provided (a, iss) p = (keep provided a p, iss ++ more) /\
               (more = [] <-> param_ok provided p = true).
Proof.
  unfold validate_param, keep, kept, param_ok, coerce.
  destruct (provided_value provided (param_name p)) as [v|].
  - destruct (coerce_value (param_type p) v); eexists; (split; [reflexivity || by rewrite app_nil_r|]); done.
  - destruct (param_required p); eexists; (split; [reflexivity || by rewrite app_nil_r|]); done.
Qed.

Lemma validate_loop_spec provided ps a iss :
  exists more, fold_left (validate_param provided) ps (a, iss)
               = (fold_left (keep provided) ps a, iss ++ more) /\
               (more = [] <-> forallb (param_ok provided) ps = true).
Proof.
  revert a iss. induction ps as [|p ps IH]; intros a iss; simpl.
  - exists []. by rewrite app_nil_r.
  - destruct (validate_param_spec provided a iss p) as (m1 & -> & H1).
    destruct (IH (keep provided a p) (iss ++ m1)) as (m2 & -> & H2).
    exists (m1 ++ m2). rewrite app_assoc, andb_true_iff, <- H1, <- H2.
    split; [done|]. split; [apply app_eq_nil | by intros [-> ->]].
Qed.

Lemma validate_spec ps raw :
  let provided := default [] raw in
  valid (validateToolArgs ps raw) = forallb (param_ok provided) ps /\
  args (validateToolArgs ps raw) = fold_left (keep provided) ps [] /\
  (valid (validateToolArgs ps raw) = true -> issues (validateToolArgs ps raw) = []).
Proof.
  unfold validateToolArgs. simpl.
  destruct (validate_loop_spec (default [] raw) ps [] []) as (more & -> & Hm). simpl.
  destruct more; simpl; (split_and!; [|done|done]); symmetry; [by apply Hm|].
  apply not_true_iff_false. intros H. by apply Hm in H.
Qed.

Lemma keep_loop_get provided ps a k :
  (forall p, p ∈ ps -> param_name p <> k) ->
  obj_get (fold_left (keep provided) ps a) k = obj_get a k.
Proof.
  revert a. induction ps as [|p ps IH]; intros a Hk; simpl; [done|].
  rewrite IH by (intros q Hq; apply Hk; by constructor).
  unfold keep. destruct (kept provided p); [|done].
  rewrite obj_get_set, bool_decide_eq_false_2; [done|]. apply Hk. constructor.
Qed.

Lemma keep_loop_lookup provided ps a p :
  NoDup (map param_name ps) -> p ∈ ps -> obj_get a (param_name p) = None ->
  obj_get (fold_left (keep provided) ps a) (param_name p) = kept provided p.
Proof.
  revert a. induction ps as [|q ps IH]; simpl; intros a Hnd Hin Ha; [by inversion Hin|].
  apply NoDup_cons in Hnd as [Hq Hnd]. apply elem_of_cons in Hin as [->|Hin].
  - rewrite keep_loop_get.
    + unfold keep. destruct (kept provided q); [|done].
      by rewrite obj_get_set, bool_decide_eq_true_2.
    + intros r Hr Heq. apply Hq. rewrite <- Heq. by apply list_elem_of_In, in_map, list_elem_of_In.
  - apply IH; [done..|]. unfold keep. destruct (kept provided q); [|done].
    rewrite obj_get_set, bool_decide_eq_false_2; [done|].
    intros Heq. apply Hq. rewrite Heq. by apply list_elem_of_In, in_map, list_elem_of_In.
Qed.

Lemma keep_loop_ext pr1 pr2 ps a :
  (forall p, p ∈ ps -> kept pr1 p = kept pr2 p) ->
  fold_left (keep pr1) ps a = fold_left (keep pr2) ps a.
Proof.
  revert a. induction ps as [|p ps IH]; intros a H; simpl; [done|].
  rewrite IH by (intros q Hq; apply H; by constructor).
  f_equal. unfold keep. by rewrite (H p) by constructor.
Qed.

Lemma kept_again provided p o :
  obj_get o (param_name p) = kept provided p ->
  kept o p = kept provided p /\ (param_ok provided p = true -> param_ok o p = true).
Proof.
  intros Ho. unfold kept at 1, param_ok at 2, provided_value. rewrite Ho.
  destruct (kept provided p) as [v|] eqn:Hk.
  - assert (has_type (param_type p) v = true) as Ht.
    { unfold kept in Hk. destruct (provided_value _ _); [|done]. by eapply coerce_value_typed. }
    destruct (has_type_provided _ _ Ht). destruct v; try done; by rewrite (coerce_value_id _ _ Ht).
  - split; [done|]. unfold param_ok. unfold kept in Hk.
    destruct (provided_value provided (param_name p)); [by rewrite Hk|done].
Qed.

(** Accepted arguments are a fixed point: validating them again accepts them
    unchanged, so a second validation (a resumed or re-dispatched call) cannot
    alter what a policy already judged. *)
Theorem validate_idempotent (ps : list ToolParamSchema) (raw : option obj) :
  NoDup (map param_name ps) ->
  valid (validateToolArgs ps raw) = true ->
  validateToolArgs ps (Some (args (validateToolArgs ps raw))) = validateToolArgs ps raw.
Proof.
  intros Hnd Hv. destruct (validate_spec ps raw) as (Hval & Hargs & Hiss).
  rewrite Hval in Hv. simpl in *. set (pr := default [] raw) in *.
  set (o := fold_left (keep pr) ps []) in *.
  assert (forall p, p ∈ ps -> kept o p = kept pr p /\ (param_ok pr p = true -> param_ok o p = true))
    as Hag by (intros p Hp; apply kept_again, keep_loop_lookup; done).
  destruct (validate_spec ps (Some (args (validateToolArgs ps raw)))) as (Hval' & Hargs' & Hiss').
  simpl in *. rewrite Hargs in *. fold o in Hval', Hargs', Hiss' |- *.
  assert (forallb (param_ok o) ps = true) as Hok.
  { rewrite forallb_forall in Hv |- *. intros p Hp. apply Hag; [by apply list_elem_of_In | by apply Hv]. }
  assert (fold_left (keep o) ps [] = o) as Hfix.
  { apply keep_loop_ext. intros p Hp. by apply Hag. }
  rewrite Hok in Hval'. rewrite Hv in Hval. rewrite Hfix in Hargs'.
  specialize (Hiss Hval). specialize (Hiss' Hval').
  destruct (validateToolArgs ps raw), (validateToolArgs ps (Some o)). simpl in *. by subst.
Qed.

Lemma validate_idempotent_witness :
  validateToolArgs demo_params (Some (args (validateToolArgs demo_params (Some demo_raw))))
  = validateToolArgs demo_params (Some demo_raw).
Proof.
  apply (validate_idempotent demo_params (Some demo_raw)).
  - repeat constructor; set_solver.
  - vm_compute. reflexivity.
Defined.

(** Validation accepts exactly the calls in which every required parameter
    is present and every provided one has, or coerces to, its declared type. *)
Theorem validate_accepts_iff (ps : list ToolParamSchema) (raw : option obj) :
  valid (validateToolArgs ps raw) = true <->
  Forall (fun p => match provided_value (default [] raw) (param_name p) with
                   | None => param_required p = false
                   | Some v => exists v', coerce p v = inl v'
                   end) ps.
Proof.
  destruct (validate_spec ps raw) as (-> & _). simpl. rewrite forallb_forall, Forall_forall.
  setoid_rewrite list_elem_of_In. apply forall_proper. intros p.
  unfold param_ok. destruct (provided_value _ _) as [v|].
  - setoid_rewrite coerce_inl. destruct (coerce_value _ _); simpl; naive_solver.
  - by rewrite negb_true_iff.
Qed.

End ToolArgs.
