(* ===== verification/Reducers.v ===== *)
(** * Conversation history (packages/core/src/utils/session-history.ts)

    The tool protocol providers enforce on a transcript, and the trimming that
    keeps a stored history within its bound without breaking that protocol.
    Below it, the message reducers: the gate ([Validate]) and the bounded reducer
    ([Bounded]). *)

From S2P Require Export Types.
From Stdlib Require Import Ascii.

#[local] Open Scope string_scope.
#[local] Open Scope list_scope.
#[local] Open Scope Z_scope.

(** ** The tool protocol

    The specification, independent of the code: every assistant message with
    tool calls is directly followed by the results of exactly those calls. *)

Definition is_tool (m : ModelMessage) : bool :=
  match m with ToolMsg _ _ _ _ => true | _ => false end.

Definition tool_id (m : ModelMessage) : string :=
  match m with ToolMsg i _ _ _ => i | _ => EmptyString end.

(** An assistant message that requests at least one tool call. *)
Definition opens_group (m : ModelMessage) : bool :=
  match tool_calls m with [] => false | _ => true end.

(** A message outside any tool group. *)
Definition is_plain (m : ModelMessage) : bool := negb (is_tool m) && negb (opens_group m).

Definition call_ids (m : ModelMessage) : list string := map call_id (tool_calls m).

(** Results [rs] answer the calls of [m], in order. *)
Definition answers (m : ModelMessage) (rs : list ModelMessage) : Prop :=
  Forall (fun r => is_tool r = true) rs /\ map tool_id rs = call_ids m.

Inductive complete : list ModelMessage -> Prop :=
| complete_nil : complete []
| complete_plain m ms : is_plain m = true -> complete ms -> complete (m :: ms)
| complete_group m rs ms :
    opens_group m = true -> answers m rs -> complete ms -> complete (m :: rs ++ ms).

Lemma plain_not_tool m : is_plain m = true -> is_tool m = false.
Proof. unfold is_plain. by destruct (is_tool m). Qed.
Lemma plain_not_opens m : is_plain m = true -> opens_group m = false.
Proof. unfold is_plain. by destruct (is_tool m), (opens_group m). Qed.
Lemma opens_not_tool m : opens_group m = true -> is_tool m = false.
Proof. by destruct m. Qed.

Lemma complete_app ms1 ms2 : complete ms1 -> complete ms2 -> complete (ms1 ++ ms2).
Proof.
  induction 1; intros H2; simpl; [done|constructor; auto|].
  rewrite <- app_assoc. apply complete_group; auto.
Qed.

Lemma complete_snoc_plain ms m : complete ms -> is_plain m = true -> complete (ms ++ [m]).
Proof. intros. apply complete_app; [done|]. constructor; [done|constructor]. Qed.

Lemma complete_plains ms : Forall (fun m => is_plain m = true) ms -> complete ms.
Proof. induction 1; constructor; done. Qed.

(** Dropping a prefix up to a plain message cuts between groups. *)
Lemma complete_suffix pre m ms :
  complete (pre ++ m :: ms) -> is_plain m = true -> complete (m :: ms).
Proof.
  intros H Hm. remember (pre ++ m :: ms) as all eqn:Heq. revert pre Heq.
  induction H as [|x xs Hx Hxs IH|x rs xs Hx Hans Hxs IH]; intros pre Heq.
  - by destruct pre.
  - destruct pre as [|y pre]; simplify_eq/=; [by constructor|]. by eapply IH.
  - destruct pre as [|y pre]; simpl in Heq; injection Heq as -> Heq.
    + exfalso. apply plain_not_opens in Hm. congruence.
    + destruct Hans as [Htool _]. clear Hx Hxs.
      revert pre Heq. induction Htool as [|r rs Hr _ IH2]; intros pre Heq; simpl in *; [by eapply IH|].
      destruct pre as [|z pre]; simpl in Heq; injection Heq as -> Heq.
      * apply plain_not_tool in Hm. congruence.
      * by eapply IH2.
Qed.

(** ** Trimming *)

Definition opensCleanly (m : ModelMessage) : bool :=
  match role m with
  | RTool => false
  | RAssistant => match tool_calls m with [] => true | _ => false end
  | _ => true
  end.

(** The loop moves the start forward to the first message that opens cleanly. *)
Definition trimHistory (messages : list ModelMessage) (maxMessages : Z) : list ModelMessage :=
  if maxMessages <=? 0 then []
  else
    let len := Z.of_nat (length messages) in
    let recent := if maxMessages <? len then drop (Z.to_nat (len - maxMessages)) messages
                  else messages in
    drop_while (fun m => negb (opensCleanly m)) recent.

(** System messages are re-applied from the agent's instructions each turn. *)
Definition withoutSystemMessages (messages : list ModelMessage) : list ModelMessage :=
  List.filter (fun m => negb (bool_decide (role m = RSystem))) messages.

Lemma opensCleanly_plain m : opensCleanly m = is_plain m.
Proof. destruct m as [| |c [[|]|]|]; done. Qed.

Lemma drop_while_split {A} (p : A -> bool) l :
  exists pre, l = pre ++ drop_while p l /\ Forall (fun x => p x = true) pre /\
              match drop_while p l with [] => True | x :: _ => p x = false end.
Proof.
  induction l as [|x l (pre & Heq & Hpre & Hhd)]; simpl; [by exists []|].
  destruct (p x) eqn:Hx.
  - exists (x :: pre). split_and!; [simpl; congruence|by constructor|done].
  - by exists [].
Qed.

Lemma trimHistory_suffix ms n : exists pre, ms = pre ++ trimHistory ms n.
Proof.
  unfold trimHistory. destruct (n <=? 0); [by exists ms; rewrite app_nil_r|].
  set (recent := if n <? _ then _ else _).
  assert (exists pre, ms = pre ++ recent) as [pre Hpre].
  { unfold recent. destruct (n <? _); [|by exists []].
    eexists. symmetry. apply take_drop. }
  destruct (drop_while_split (fun m => negb (opensCleanly m)) recent) as (pre2 & Heq & _).
  exists (pre ++ pre2). by rewrite <- app_assoc, <- Heq, <- Hpre.
Qed.

Lemma trimHistory_length ms n : 0 <= n -> Z.of_nat (length (trimHistory ms n)) <= n.
Proof.
  intros Hn. unfold trimHistory. destruct (n <=? 0) eqn:H0; [simpl; lia|].
  set (recent := if n <? _ then _ else _).
  assert (Z.of_nat (length recent) <= n).
  { unfold recent. destruct (Z.ltb_spec n (Z.of_nat (length ms))); [|lia].
    rewrite length_drop. lia. }
  destruct (drop_while_split (fun m => negb (opensCleanly m)) recent) as (pre2 & Heq & _).
  apply (f_equal length) in Heq. rewrite length_app in Heq. lia.
Qed.

Lemma trimHistory_opens ms n :
  match trimHistory ms n with [] => True | m :: _ => is_plain m = true end.
Proof.
  unfold trimHistory. destruct (n <=? 0); [done|].
  set (recent := if n <? _ then _ else _).
  destruct (drop_while_split (fun m => negb (opensCleanly m)) recent) as (_ & _ & _ & Hhd).
  destruct (drop_while _ recent) as [|m ?]; [done|].
  rewrite <- opensCleanly_plain. by apply negb_false_iff.
Qed.

(** Trimming keeps the most recent messages within the bound and never
    leaves a dangling tool exchange: a protocol-complete transcript stays
    protocol-complete, and what is kept is a suffix of what was stored. *)
Theorem trimHistory_sound (ms : list ModelMessage) (n : Z) :
  complete ms ->
  complete (trimHistory ms n) /\ (exists dropped, ms = dropped ++ trimHistory ms n) /\
  (0 <= n -> Z.of_nat (length (trimHistory ms n)) <= n).
Proof.
  intros Hc. destruct (trimHistory_suffix ms n) as [pre Hpre].
  pose proof (trimHistory_opens ms n) as Hop. split_and!; [|by exists pre|apply trimHistory_length].
  destruct (trimHistory ms n) as [|m rest]; [constructor|].
  eapply complete_suffix; [|done]. by rewrite <- Hpre.
Qed.

Definition demo_call : ModelToolCall := {| call_id := "c1"; call_name := "refund"; call_args := [] |}.
Definition demo_history : list ModelMessage :=
  [ UserMsg "refund it"; AssistantMsg EmptyString (Some [demo_call]);
    ToolMsg "c1" "refund" "done" None; AssistantMsg "refunded" None; UserMsg "thanks" ].

Lemma demo_history_complete : complete demo_history.
Proof.
  constructor; [done|].
  apply (complete_group _ [ToolMsg "c1" "refund" "done" None]); [done|split; [by repeat constructor|done]|].
  repeat (constructor; [done|]). constructor.
Qed.

Lemma trimHistory_sound_witness :
  complete (trimHistory demo_history 3) /\
  (exists dropped, demo_history = dropped ++ trimHistory demo_history 3) /\
  (0 <= 3 -> Z.of_nat (length (trimHistory demo_history 3)) <= 3).
Proof. apply (trimHistory_sound demo_history 3). apply demo_history_complete. Defined.

Lemma withoutSystem_complete ms : complete ms -> complete (withoutSystemMessages ms).
Proof.
  induction 1 as [|m ms Hm _ IH|m rs ms Hm [Ht Hids] _ IH]; unfold withoutSystemMessages in *; simpl.
  - constructor.
  - destruct (bool_decide _); simpl; [done|]. by constructor.
  - rewrite bool_decide_eq_false_2 by (by destruct m). simpl.
    rewrite List.filter_app. rewrite (forallb_filter_id _ rs); [by apply complete_group|].
    rewrite forallb_forall. intros r Hr. rewrite Forall_forall in Ht.
    specialize (Ht r). rewrite list_elem_of_In in Ht. by destruct r; auto.
Qed.

(** Trimming again with the same bound changes nothing. *)
Lemma trimHistory_idem ms n : trimHistory (trimHistory ms n) n = trimHistory ms n.
Proof.
  pose proof (trimHistory_opens ms n) as Ho. destruct (Z.leb_spec n 0) as [Hn|Hn].
  { unfold trimHistory. by rewrite (proj2 (Z.leb_le n 0) Hn). }
  pose proof (trimHistory_length ms n ltac:(lia)) as Hl.
  generalize dependent (trimHistory ms n). intros t Ho Hl. unfold trimHistory.
  rewrite (proj2 (Z.leb_gt n 0)), (proj2 (Z.ltb_ge n (Z.of_nat (length t)))) by lia.
  destruct t as [|m t]; simpl; [done|]. by rewrite opensCleanly_plain, Ho.
Qed.

(** * Message reducers (packages/core/src/reducers)

    [validateReduction] is the gate every reduced transcript passes before it
    reaches a provider, modelled with its early exits; [BoundedToolHistoryReducer]
    is the projection the framework ships. *)

#[local] Open Scope string_scope.
#[local] Open Scope list_scope.
#[local] Open Scope Z_scope.

(** The context handed to a reducer (message-reducer.interface.ts). *)
Record AgentMessageReductionContext : Type := {
  rc_executionId : string;
  rc_sessionId : string;
  rc_iteration : Z;
  rc_agentName : option string;
  rc_pendingApprovalToolCallId : option string;
}.

Module Validate.

(** ** The fingerprint *)

Definition shapeOf (m : ModelMessage) : value :=
  match m with
  | AssistantMsg c _ =>
      VArr [VStr "a"; VStr c;
            VArr (map (fun tc => VArr [VStr (call_id tc); VStr (call_name tc); VObj (call_args tc)])
                      (tool_calls m))]
  | ToolMsg i n c _ => VArr [VStr "t"; VStr i; VStr n; VStr c]
  | SystemMsg c => VArr [VStr "s"; VStr c]
  | UserMsg c => VArr [VStr "u"; VStr c]
  end.

Definition fingerprintTranscript (ms : list ModelMessage) : string :=
  json (VArr (map shapeOf ms)).

(** ** The sequential walk *)

Record walk : Type := {
  seenCallIds : list string;
  declaredCallIds : list string;
  openGroup : option (list string);
  openGroupHoldsApproval : bool;
}.

Definition walk0 : walk :=
  {| seenCallIds := []; declaredCallIds := []; openGroup := None; openGroupHoldsApproval := false |}.

Definition set_has (x : string) (l : list string) : bool := bool_decide (x ∈ l).
Definition set_add (x : string) (l : list string) : list string :=
  if set_has x l then l else l ++ [x].
Definition set_delete (x : string) (l : list string) : list string :=
  List.filter (fun y => negb (bool_decide (y = x))) l.

Definition contract_error (reason : string) : string + walk := inl reason.

Definition closeGroupOrThrow (st : walk) (isFinal : bool) : string + walk :=
  let closed := {| seenCallIds := seenCallIds st; declaredCallIds := declaredCallIds st;
                   openGroup := None; openGroupHoldsApproval := openGroupHoldsApproval st |} in
  match openGroup st with
  | Some (_ :: _ as missing) =>
      if isFinal && openGroupHoldsApproval st then inr closed
      else contract_error
             ("assistant tool-call group is missing results for: " +:+ join ", " missing +:+
              "; a tool-call group must be kept or dropped whole, and its results must directly follow it.")
  | _ => inr closed
  end.

Definition declare_call (pending : option string) (st : walk) (call : ModelToolCall) : string + walk :=
  let id := call_id call in
  if set_has id (seenCallIds st) then
    contract_error ("tool-call id " +:+ in_quotes id +:+
                    " appears more than once; each tool call must be unique.")
  else
    inr {| seenCallIds := set_add id (seenCallIds st);
           declaredCallIds := set_add id (declaredCallIds st);
           openGroup := Some (set_add id (default [] (openGroup st)));
           openGroupHoldsApproval :=
             openGroupHoldsApproval st || bool_decide (pending = Some id) |}.

Fixpoint declare_calls (pending : option string) (st : walk) (calls : list ModelToolCall)
    : string + walk :=
  match calls with
  | [] => inr st
  | c :: cs => match declare_call pending st c with
               | inl e => inl e
               | inr st' => declare_calls pending st' cs
               end
  end.

(** The body of the loop over the reduced messages. *)
Definition walk_message (pending : option string) (st : walk) (m : ModelMessage) : string + walk :=
  if opens_group m then
    match closeGroupOrThrow st false with
    | inl e => inl e
    | inr st' =>
        declare_calls pending
          {| seenCallIds := seenCallIds st'; declaredCallIds := declaredCallIds st';
             openGroup := Some []; openGroupHoldsApproval := false |} (tool_calls m)
    end
  else
    match m with
    | ToolMsg id name _ _ =>
        match openGroup st with
        | Some g =>
            if set_has id g then
              inr {| seenCallIds := seenCallIds st; declaredCallIds := declaredCallIds st;
                     openGroup := Some (set_delete id g);
                     openGroupHoldsApproval := openGroupHoldsApproval st |}
            else contract_error
                   ("tool result " +:+ in_quotes id +:+ " (" +:+ name +:+
                    ") does not directly follow the assistant tool-call that requested it; " +:+
                    "an orphan or out-of-order tool result is rejected by providers.")
        | None => contract_error
                   ("tool result " +:+ in_quotes id +:+ " (" +:+ name +:+
                    ") does not directly follow the assistant tool-call that requested it; " +:+
                    "an orphan or out-of-order tool result is rejected by providers.")
        end
    | _ => closeGroupOrThrow st false
    end.

Fixpoint walk_messages (pending : option string) (st : walk) (ms : list ModelMessage)
    : string + walk :=
  match ms with
  | [] => closeGroupOrThrow st true
  | m :: ms' => match walk_message pending st m with
                | inl e => inl e
                | inr st' => walk_messages pending st' ms'
                end
  end.

(** [validateReduction]: [same] says the reducer returned its input array itself;
    [original] is that array's content after the reducer ran. *)
Definition validateReduction (reduced : list ModelMessage) (same : bool)
    (original : list ModelMessage) (originalFingerprint : string)
    (pendingApprovalToolCallId : option string) : option agentic_error :=
  if negb (bool_decide (fingerprintTranscript original = originalFingerprint)) then
    Some (MessageReducerContractError
            ("the reducer mutated the input transcript in place; it must return a new array and " +:+
             "leave the messages it was given unchanged."))
  else if same then None
  else
    match walk_messages pendingApprovalToolCallId walk0 reduced with
    | inl reason => Some (MessageReducerContractError reason)
    | inr st =>
        match pendingApprovalToolCallId with
        | Some id =>
            if truthy id && negb (set_has id (declaredCallIds st)) then
              Some (MessageReducerContractError
                      ("the pending-approval group " +:+ in_quotes id +:+ " was dropped; the active " +:+
                       "approval group and its toolCallId must be preserved so the turn can resume."))
            else None
        | None => None
        end
    end.

(** ** The specification

    Groups with their results in any order; only a trailing group that holds the
    pending approval may be partly answered. *)

Inductive well_grouped (pending : option string) : list ModelMessage -> Prop :=
| wg_nil : well_grouped pending []
| wg_plain m ms : is_plain m = true -> well_grouped pending ms -> well_grouped pending (m :: ms)
| wg_group m rs ms :
    opens_group m = true -> Forall (fun r => is_tool r = true) rs ->
    map tool_id rs ≡ₚ call_ids m -> well_grouped pending ms ->
    well_grouped pending (m :: rs ++ ms)
| wg_suspended m rs id :
    opens_group m = true -> Forall (fun r => is_tool r = true) rs ->
    map tool_id rs ⊆+ call_ids m -> pending = Some id -> id ∈ call_ids m ->
    well_grouped pending (m :: rs).

(** Every call id requested in a transcript, in order. *)
Definition all_call_ids (ms : list ModelMessage) : list string := concat (map call_ids ms).

Definition valid_projection (pending : option string) (ms : list ModelMessage) : Prop :=
  well_grouped pending ms /\ NoDup (all_call_ids ms) /\
  (forall id, pending = Some id -> truthy id = true -> id ∈ all_call_ids ms).

(** What remains to be walked from a state with an open group. *)
Definition grouped_from (pending : option string) (g : option (list string)) (holds : bool)
    (ms : list ModelMessage) : Prop :=
  match g with
  | None => well_grouped pending ms
  | Some ids =>
      exists rs ms', ms = rs ++ ms' /\ Forall (fun r => is_tool r = true) rs /\
        ((map tool_id rs ≡ₚ ids /\ well_grouped pending ms') \/
         (holds = true /\ ms' = [] /\ map tool_id rs ⊆+ ids))
  end.

Lemma set_has_spec x l : set_has x l = true <-> x ∈ l.
Proof. unfold set_has. by rewrite bool_decide_eq_true. Qed.

Lemma set_has_false x l : set_has x l = false <-> x ∉ l.
Proof. unfold set_has. by rewrite bool_decide_eq_false. Qed.

Lemma set_add_new x l : x ∉ l -> set_add x l = l ++ [x].
Proof. intros H. unfold set_add, set_has. by rewrite bool_decide_eq_false_2. Qed.

Lemma set_delete_perm x l : NoDup l -> x ∈ l -> l ≡ₚ x :: set_delete x l.
Proof.
  induction l as [|y l IH]; intros Hnd Hin; [by inversion Hin|].
  apply NoDup_cons in Hnd as [Hy Hnd]. unfold set_delete; simpl.
  case_bool_decide as Heq; subst; simpl.
  - constructor. symmetry. apply reflexive_eq, forallb_filter_id, forallb_forall.
    intros z Hz%list_elem_of_In. apply negb_true_iff, bool_decide_eq_false. by intros ->.
  - apply elem_of_cons in Hin as [->|Hin]; [done|].
    rewrite (IH Hnd Hin) at 1. apply perm_swap.
Qed.

Lemma set_delete_nodup x l : NoDup l -> NoDup (set_delete x l).
Proof.
  intros H. unfold set_delete. induction l as [|y l IH]; simpl; [done|].
  apply NoDup_cons in H as [Hy Hnd]. destruct (negb _); [|by apply IH].
  apply NoDup_cons. split; [|by apply IH]. intros Hin%list_elem_of_In%filter_In.
  destruct Hin as [?%list_elem_of_In _]. done.
Qed.

(** The two id sets of the walk coincide, and an open group is part of them. *)
Definition walk_inv (st : walk) : Prop :=
  declaredCallIds st = seenCallIds st /\
  (forall g, openGroup st = Some g -> NoDup g /\ (forall i, i ∈ g -> i ∈ seenCallIds st)).

Definition fresh_ids (st : walk) (ids : list string) : Prop :=
  NoDup ids /\ (forall i, i ∈ ids -> i ∉ seenCallIds st).

(** Whether a group with these ids holds the pending approval. *)
Definition holds_pending (pending : option string) (ids : list string) : bool :=
  match pending with Some id => set_has id ids | None => false end.

Lemma holds_pending_nil pending : holds_pending pending [] = false.
Proof. by destruct pending. Qed.

Lemma holds_pending_cons pending i ids :
  holds_pending pending (i :: ids) = bool_decide (pending = Some i) || holds_pending pending ids.
Proof.
  destruct pending as [id|]; [|done]. simpl. apply eq_iff_eq_true.
  rewrite orb_true_iff, bool_decide_eq_true, !set_has_spec, elem_of_cons. naive_solver.
Qed.

Lemma holds_pending_spec pending ids :
  holds_pending pending ids = true <-> exists id, pending = Some id /\ id ∈ ids.
Proof. destruct pending as [id|]; simpl; [rewrite set_has_spec|]; naive_solver. Qed.

Lemma declare_calls_ok pending st calls g :
  walk_inv st -> openGroup st = Some g -> fresh_ids st (map call_id calls) ->
  exists st', declare_calls pending st calls = inr st' /\ walk_inv st' /\
    seenCallIds st' = seenCallIds st ++ map call_id calls /\
    openGroup st' = Some (g ++ map call_id calls) /\
    openGroupHoldsApproval st' = openGroupHoldsApproval st || holds_pending pending (map call_id calls).
Proof.
  revert st g. induction calls as [|c calls IH]; intros st g Hinv Hg [Hnd Hfr]; simpl.
  - exists st. by rewrite !app_nil_r, holds_pending_nil, orb_false_r.
  - apply NoDup_cons in Hnd as [Hc Hnd].
    assert (call_id c ∉ seenCallIds st) as Hcs by (apply Hfr; constructor).
    unfold declare_call. rewrite (proj2 (set_has_false _ _) Hcs).
    destruct Hinv as [Hdecl Hgr]. destruct (Hgr g Hg) as [Hgnd Hgs].
    rewrite Hdecl, Hg. simpl. rewrite !set_add_new by auto.
    match goal with |- context [declare_calls pending ?s calls] =>
      destruct (IH s (g ++ [call_id c])) as (st' & Hst' & Hinv' & Hs' & Ho' & Hh') end.
    + split; [done|]. simpl. intros g' [= <-]. split; [|set_solver].
      apply NoDup_app. split_and!; [done|set_solver|apply NoDup_singleton].
    + done.
    + split; [done|]. simpl. set_solver.
    + exists st'. rewrite Hst'. simpl in *.
      split_and!; [done|done|by rewrite Hs', <- app_assoc|by rewrite Ho', <- app_assoc|].
      by rewrite Hh', holds_pending_cons, orb_assoc.
Qed.

Lemma declare_calls_fresh pending st calls st' :
  declare_calls pending st calls = inr st' -> fresh_ids st (map call_id calls).
Proof.
  revert st. induction calls as [|c calls IH]; intros st; simpl.
  - intros _. split; [constructor|]. intros i Hi. by inversion Hi.
  - unfold declare_call. destruct (set_has (call_id c) (seenCallIds st)) eqn:Hh; [done|].
    assert (call_id c ∉ seenCallIds st) as Hc by (by rewrite <- set_has_spec, Hh).
    intros H. destruct (IH _ H) as [Hnd Hfr]. simpl in *.
    rewrite (set_add_new _ _ Hc) in Hfr. split; [|set_solver].
    apply NoDup_cons. split; [|done]. intros Hin. specialize (Hfr _ Hin). set_solver.
Qed.

Lemma grouped_from_nil pending g h :
  grouped_from pending g h [] <-> match g with Some (_ :: _) => h = true | _ => True end.
Proof.
  destruct g as [[|i g]|]; simpl.
  - split; [done|]. intros _. exists [], []. split_and!; try done. left. split; [done|constructor].
  - split.
    + intros (rs & ms' & Heq & _ & Hd). symmetry in Heq. apply app_eq_nil in Heq as [-> ->].
      destruct Hd as [[Hp _]|(? & _)]; [|done]. by apply Permutation_nil_cons in Hp.
    + intros ->. exists [], []. split_and!; try done. right. split_and!; [done..|]. apply submseteq_nil_l.
  - split; [done|constructor].
Qed.

(** A message outside the open group closes it, which needs it fully answered. *)
Lemma grouped_from_close pending g h m ms :
  is_tool m = false ->
  grouped_from pending g h (m :: ms) <->
  match g with Some (_ :: _) => False | _ => True end /\ well_grouped pending (m :: ms).
Proof.
  intros Hm. destruct g as [ids|]; simpl; [|naive_solver]. split.
  - intros (rs & ms' & Heq & Ht & Hd).
    destruct rs as [|r rs]; simplify_eq/=; [|inversion Ht; congruence].
    destruct Hd as [[Hp%Permutation_nil_l Hw]|(_ & ? & _)]; [by rewrite <- Hp|done].
  - destruct ids as [|]; [|by intros [? _]]. intros [_ Hw]. exists [], (m :: ms).
    split_and!; try done. by left.
Qed.

Lemma well_grouped_plain pending m ms :
  is_plain m = true -> well_grouped pending (m :: ms) <-> well_grouped pending ms.
Proof.
  intros Hm. split; [|by constructor]. pose proof (plain_not_opens _ Hm).
  inversion 1; congruence.
Qed.

Lemma well_grouped_opens pending m ms :
  opens_group m = true ->
  well_grouped pending (m :: ms) <->
  grouped_from pending (Some (call_ids m)) (holds_pending pending (call_ids m)) ms.
Proof.
  intros Hm. simpl. split.
  - inversion 1 as [|? ? Hp|? rs ms' ? Ht Hp Hw|? rs id ? Ht Hs Hid Hin]; subst.
    + apply plain_not_opens in Hp. congruence.
    + exists rs, ms'. split_and!; [done..|]. by left.
    + exists ms, []. rewrite app_nil_r. split_and!; [done..|]. right.
      split_and!; [|done..]. apply holds_pending_spec. eauto.
  - intros (rs & ms' & -> & Ht & [[Hp Hw]|(Hh & -> & Hs)]).
    + by apply wg_group.
    + apply holds_pending_spec in Hh as (id & Hid & Hin). rewrite app_nil_r. by eapply wg_suspended.
Qed.

Lemma grouped_from_tool pending g h m ms :
  is_tool m = true ->
  grouped_from pending g h (m :: ms) <->
  exists ids, g = Some ids /\ exists rest, ids ≡ₚ tool_id m :: rest /\
              grouped_from pending (Some rest) h ms.
Proof.
  intros Hm. destruct g as [ids|]; simpl.
  - split.
    + intros (rs & ms' & Heq & Ht & Hd). exists ids. split; [done|].
      destruct rs as [|r rs]; simplify_eq/=.
      { destruct Hd as [[_ Hw]|(_ & ? & _)]; [|done]. exfalso.
        inversion Hw as [|? ? Hp|? ? ? Hp|? ? ? Hp]; subst;
          [apply plain_not_tool in Hp|apply opens_not_tool in Hp..]; congruence. }
      inversion Ht; subst. destruct Hd as [[Hp Hw]|(Hh & -> & Hs)].
      * exists (map tool_id rs). split; [by symmetry|]. exists rs, ms'. split_and!; [done..|]. by left.
      * apply submseteq_cons_l in Hs as (rest & Hp & Hs). exists rest. split; [done|].
        exists rs, []. split_and!; [done..|]. by right.
    + intros (? & [= <-] & rest & Hp & rs & ms' & -> & Ht & Hd).
      exists (m :: rs), ms'. split_and!; [done|by constructor|]. simpl.
      destruct Hd as [[Hp2 Hw]|(Hh & -> & Hs)]; [left|right].
      * split; [|done]. by rewrite Hp, Hp2.
      * split_and!; [done..|]. rewrite Hp. by apply submseteq_skip.
  - split; [|by intros (? & ? & _)]. intros Hw. exfalso.
    inversion Hw as [|? ? Hp|? ? ? Hp|? ? ? Hp]; subst;
      [apply plain_not_tool in Hp|apply opens_not_tool in Hp..]; congruence.
Qed.

Lemma grouped_from_perm pending ids ids' h ms :
  ids ≡ₚ ids' -> grouped_from pending (Some ids) h ms -> grouped_from pending (Some ids') h ms.
Proof.
  intros Hp (rs & ms' & -> & Ht & Hd). exists rs, ms'. split_and!; [done..|].
  by destruct Hd as [[Hp2 Hw]|(Hh & -> & Hs)]; [left|right]; split_and!; rewrite <- ?Hp.
Qed.

(** The walk accepts exactly the transcripts of the specification. *)
Definition walk_accepts (pending : option string) (st : walk) (ms : list ModelMessage) : Prop :=
  grouped_from pending (openGroup st) (openGroupHoldsApproval st) ms /\
  fresh_ids st (all_call_ids ms).

Lemma close_group_false st :
  closeGroupOrThrow st false =
  match openGroup st with
  | Some (_ :: _) => closeGroupOrThrow st false
  | _ => inr {| seenCallIds := seenCallIds st; declaredCallIds := declaredCallIds st;
                openGroup := None; openGroupHoldsApproval := openGroupHoldsApproval st |}
  end.
Proof. unfold closeGroupOrThrow. by destruct (openGroup st) as [[|]|]. Qed.

Lemma close_group_final st :
  (exists st', closeGroupOrThrow st true = inr st') <->
  grouped_from None (openGroup st) (openGroupHoldsApproval st) [].
Proof.
  rewrite grouped_from_nil. unfold closeGroupOrThrow.
  destruct (openGroup st) as [[|]|]; [naive_solver| |naive_solver].
  destruct (openGroupHoldsApproval st); simpl; naive_solver.
Qed.

Definition walk_correct (pending : option string) (ms : list ModelMessage) : Prop :=
  forall st, walk_inv st ->
  (forall st', walk_messages pending st ms = inr st' ->
     walk_accepts pending st ms /\ declaredCallIds st' = declaredCallIds st ++ all_call_ids ms) /\
  (walk_accepts pending st ms -> exists st', walk_messages pending st ms = inr st').

Lemma walk_nil_case pending : walk_correct pending [].
Proof.
  intros st Hinv. unfold walk_accepts, all_call_ids, fresh_ids; simpl. split.
  - intros st' H. split.
    + split; [|split; [constructor|intros i Hi; by inversion Hi]].
      apply grouped_from_nil. rewrite <- (grouped_from_nil None). apply close_group_final. eauto.
    + unfold closeGroupOrThrow in H. rewrite app_nil_r.
      destruct (openGroup st) as [[|]|]; [by simplify_eq| |by simplify_eq].
      destruct (_ && _); by simplify_eq.
  - intros [Hg _]. apply close_group_final, grouped_from_nil. by rewrite <- (grouped_from_nil pending).
Qed.

Lemma fresh_ids_app st st' ids1 ids2 :
  seenCallIds st' = seenCallIds st ++ ids1 ->
  fresh_ids st (ids1 ++ ids2) <-> fresh_ids st ids1 /\ fresh_ids st' ids2.
Proof. intros Hs. unfold fresh_ids. rewrite Hs, NoDup_app. set_solver. Qed.

Lemma walk_open_case pending m ms :
  opens_group m = true -> walk_correct pending ms -> walk_correct pending (m :: ms).
Proof.
  intros Hop IH st Hinv. cbn [walk_messages]. unfold walk_message. rewrite Hop.
  unfold walk_accepts. setoid_rewrite (grouped_from_close pending _ _ _ _ (opens_not_tool _ Hop)).
  rewrite close_group_false.
  set (st1 := {| seenCallIds := seenCallIds st; declaredCallIds := declaredCallIds st;
                 openGroup := Some []; openGroupHoldsApproval := false |}).
  assert (walk_inv st1) as Hinv1.
  { split; [apply Hinv|]. intros g [= <-]. split; [constructor|]. intros i Hi. by inversion Hi. }
  change (all_call_ids (m :: ms)) with (call_ids m ++ all_call_ids ms).
  assert ((forall st', match declare_calls pending st1 (tool_calls m) with
                       | inl e => inl e
                       | inr st2 => walk_messages pending st2 ms
                       end = inr st' ->
             (well_grouped pending (m :: ms) /\ fresh_ids st (call_ids m ++ all_call_ids ms)) /\
             declaredCallIds st' = declaredCallIds st ++ call_ids m ++ all_call_ids ms) /\
          (well_grouped pending (m :: ms) /\ fresh_ids st (call_ids m ++ all_call_ids ms) ->
             exists st', match declare_calls pending st1 (tool_calls m) with
                         | inl e => inl e
                         | inr st2 => walk_messages pending st2 ms
                         end = inr st')) as Hmain.
  { split.
    - destruct (declare_calls pending st1 (tool_calls m)) as [e|st2] eqn:Hd; [done|].
      intros st' Hw. pose proof (declare_calls_fresh _ _ _ _ Hd) as Hfr.
      destruct (declare_calls_ok pending st1 (tool_calls m) [] Hinv1 eq_refl Hfr)
        as (st2' & Hd' & Hinv2 & Hs2 & Ho2 & Hh2). rewrite Hd in Hd'. simplify_eq.
      destruct (IH st2' Hinv2) as [IH1 _]. destruct (IH1 _ Hw) as [[Hg Hf] Hdecl].
      rewrite Ho2, Hh2 in Hg. simpl in *. split; [split|]; [by apply (well_grouped_opens pending m ms Hop)| |].
      + by apply (fresh_ids_app st st2').
      + destruct Hinv2 as [Hd2 _]. destruct Hinv as [Hd0 _]. rewrite Hdecl, Hd2, Hs2, Hd0.
        by rewrite app_assoc.
    - intros [Hg%(well_grouped_opens pending m ms Hop) Hf].
      assert (fresh_ids st1 (call_ids m)) as Hfr.
      { destruct Hf as [[? _]%NoDup_app Hf]. split; [done|]. simpl. set_solver. }
      destruct (declare_calls_ok pending st1 (tool_calls m) [] Hinv1 eq_refl Hfr)
        as (st2 & Hd & Hinv2 & Hs2 & Ho2 & Hh2). rewrite Hd.
      apply (IH st2 Hinv2). split; [by rewrite Ho2, Hh2|].
      by apply (fresh_ids_app st st2) in Hf as [_ ?]. }
  destruct Hmain as [H1 H2].
  unfold closeGroupOrThrow. destruct (openGroup st) as [[|i0 g0]|]; simpl; split;
    try done; try (intros st' H; by destruct (H1 st' H) as [[? ?] ?]); by intros [[? ?] ?]; auto.
Qed.

Lemma walk_plain_case pending m ms :
  is_plain m = true -> walk_correct pending ms -> walk_correct pending (m :: ms).
Proof.
  intros Hpl IH st Hinv. cbn [walk_messages]. unfold walk_message.
  pose proof (plain_not_tool _ Hpl) as Ht. pose proof (plain_not_opens _ Hpl) as Hop. rewrite Hop.
  unfold walk_accepts. setoid_rewrite (grouped_from_close pending _ _ _ _ Ht).
  setoid_rewrite (well_grouped_plain pending _ ms Hpl).
  assert (all_call_ids (m :: ms) = all_call_ids ms) as ->.
  { unfold all_call_ids, call_ids. simpl. unfold opens_group in Hop. by destruct (tool_calls m). }
  set (st1 := {| seenCallIds := seenCallIds st; declaredCallIds := declaredCallIds st;
                 openGroup := None; openGroupHoldsApproval := openGroupHoldsApproval st |}).
  assert (walk_inv st1) as Hinv1 by (split; [apply Hinv|done]).
  destruct (IH st1 Hinv1) as [IH1 IH2].
  assert (walk_message pending st m = closeGroupOrThrow st false) as Hwm
    by (unfold walk_message; rewrite Hop; destruct m; simpl in *; congruence || done).
  unfold walk_message in Hwm. rewrite Hop in Hwm. rewrite Hwm.
  unfold closeGroupOrThrow, walk_accepts in *.
  destruct (openGroup st) as [[|i0 g0]|]; simpl in *; split;
    try done; try (intros st' H; by destruct (IH1 st' H) as [[? ?] ?]); by intros [[? ?] ?]; auto.
Qed.

Lemma walk_tool_case pending m ms :
  is_tool m = true -> walk_correct pending ms -> walk_correct pending (m :: ms).
Proof.
  intros Ht IH st Hinv. destruct m as [| | |id name c pv]; try done. unfold walk_accepts.
  setoid_rewrite (grouped_from_tool pending _ _ _ _ Ht).
  cbn [walk_messages]. unfold walk_message. simpl.
  change (all_call_ids (ToolMsg id name c pv :: ms)) with (all_call_ids ms).
  destruct (openGroup st) as [g|] eqn:Ho.
  2:{ split; [done|]. by intros [(? & ? & _) _]. }
  destruct Hinv as [Hd Hgr]. destruct (Hgr g Ho) as [Hnd Hsub].
  destruct (set_has id g) eqn:Hh.
  - apply set_has_spec in Hh. pose proof (set_delete_perm id g Hnd Hh) as Hp.
    match goal with |- context [walk_messages pending ?s ms] => destruct (IH s) as [IH1 IH2] end.
    { split; [done|]. simpl. intros g' [= <-]. split; [by apply set_delete_nodup|].
      intros i Hi. apply Hsub. rewrite Hp. by constructor. }
    split.
    + intros st' Hw. destruct (IH1 _ Hw) as [[Hg Hf] Hdecl]. simpl in *.
      split; [split|]; [|done..]. exists g. split; [done|]. by exists (set_delete id g).
    + intros [(? & [= <-] & rest & Hp2 & Hg) Hf]. apply IH2. split; [|done].
      simpl. eapply grouped_from_perm, Hg.
      apply (Permutation_cons_inv (a := id)). by rewrite <- Hp2.
  - apply set_has_false in Hh. split; [done|].
    intros [(? & [= <-] & rest & Hp2 & _) _]. exfalso. apply Hh. rewrite Hp2. constructor.
Qed.

Lemma walk_spec pending ms : walk_correct pending ms.
Proof.
  induction ms as [|m ms IH]; [apply walk_nil_case|].
  destruct (is_tool m) eqn:Ht; [by apply walk_tool_case|].
  destruct (opens_group m) eqn:Hop; [by apply walk_open_case|].
  apply walk_plain_case; [|done]. unfold is_plain. by rewrite Ht, Hop.
Qed.

(** [validateReduction] accepts a reduced transcript exactly when it honours
    the tool protocol: groups kept whole with their results directly after them,
    no id declared twice, only a trailing group that holds the pending approval
    left partly answered, and that approval's group kept. *)
Theorem validateReduction_iff (reduced original : list ModelMessage) (pending : option string) :
  validateReduction reduced false original (fingerprintTranscript original) pending = None <->
  valid_projection pending reduced.
Proof.
  unfold validateReduction. rewrite bool_decide_eq_true_2 by done. simpl.
  assert (walk_inv walk0) as Hinv by (split; done).
  destruct (walk_spec pending reduced walk0 Hinv) as [H1 H2]. unfold walk_accepts in *. simpl in *.
  assert (fresh_ids walk0 (all_call_ids reduced) <-> NoDup (all_call_ids reduced)) as Hfr.
  { unfold fresh_ids; simpl. set_solver. }
  unfold valid_projection. destruct (walk_messages pending walk0 reduced) as [e|st'] eqn:Hw.
  - split; [done|]. intros (Hg & Hnd & _). destruct H2 as [? ?]; [by rewrite Hfr|done].
  - destruct (H1 st' eq_refl) as [[Hg Hf] Hdecl]. rewrite Hdecl, Hfr in *.
    destruct pending as [id|]; [|split; [intros _; split_and!; done|done]].
    destruct (truthy id) eqn:Htr; simpl;
      [|split; [intros _; split_and!; try done; congruence|done]].
    destruct (set_has id (all_call_ids reduced)) eqn:Hh; simpl.
    + apply set_has_spec in Hh. split; [|done]. intros _. split_and!; try done. by intros ? [= <-].
    + apply set_has_false in Hh. split; [done|]. intros (_ & _ & Hp). by destruct Hh; apply Hp.
Qed.

End Validate.

(** ** The bounded tool-history reducer *)
Module Bounded.
Import Validate.

Inductive SummaryRole : Type := SummaryUser | SummarySystem.

Record BoundedToolHistoryReducer : Type := { keepLast : Z; summaryRole : SummaryRole }.

(** The constructor: a non-integer or negative retention is a [TypeError]. *)
Definition mk_reducer (keepLastToolGroups : option num) (role : option SummaryRole)
    : error + BoundedToolHistoryReducer :=
  let keep := default (num_of_Z 1) keepLastToolGroups in
  match keep with
  | NDec m 0 =>
      if m <? 0 then
        inl (NativeErr "TypeError"
               ("BoundedToolHistoryReducer: keepLastToolGroups must be a non-negative integer, received " +:+
                num_to_string keep +:+ "."))
      else inr {| keepLast := m; summaryRole := default SummaryUser role |}
  | _ =>
      inl (NativeErr "TypeError"
             ("BoundedToolHistoryReducer: keepLastToolGroups must be a non-negative integer, received " +:+
              num_to_string keep +:+ "."))
  end.

Record ToolGroup : Type := {
  start : nat;
  end_ : nat;
  toolNames : list string;
  toolCallIds : list string;
}.

Fixpoint take_while {A} (p : A -> bool) (l : list A) : list A :=
  match l with
  | x :: l' => if p x then x :: take_while p l' else []
  | [] => []
  end.

(** [findToolGroups], from index [i] on. *)
Fixpoint findToolGroups (i : nat) (ms : list ModelMessage) : list ToolGroup :=
  match ms with
  | [] => []
  | m :: rest =>
      if opens_group m then
        {| start := i; end_ := i + 1 + length (take_while is_tool rest);
           toolNames := map call_name (tool_calls m); toolCallIds := call_ids m |}
        :: findToolGroups (S i) rest
      else findToolGroups (S i) rest
  end.

Definition is_control (c : ascii) : bool :=
  let n := nat_of_ascii c in (n <? 32)%nat || (n =? 127)%nat.

(** [name.replace(/[\u0000-\u001f\u007f]+/g, ' ')]: one space per run. *)
Fixpoint replace_controls (in_run : bool) (l : list ascii) : list ascii :=
  match l with
  | [] => []
  | c :: l' =>
      if is_control c then
        if in_run then replace_controls true l' else " "%char :: replace_controls true l'
      else c :: replace_controls false l'
  end.

Definition safeToolName (name : string) : string :=
  let cleaned := trim (of_chars (replace_controls false (chars name))) in
  let capped := if 64 <? str_length cleaned then slice_to cleaned 64 +:+ "…" else cleaned in
  json_quote capped.

Definition summarize (g : ToolGroup) : string :=
  "[Earlier tool activity folded to bound context. Full results remain in the durable " +:+
  "transcript.] ran " +:+ Z_to_string (Z.of_nat (length (toolCallIds g))) +:+ " tool call(s): " +:+
  join ", " (map safeToolName (toolNames g)).

Definition summary_message (r : BoundedToolHistoryReducer) (g : ToolGroup) : ModelMessage :=
  match summaryRole r with
  | SummaryUser => UserMsg (summarize g)
  | SummarySystem => SystemMsg (summarize g)
  end.

(** The walk over the transcript: [skip] counts the messages of the folded group
    still to pass over. *)
Fixpoint fold_walk (r : BoundedToolHistoryReducer) (foldStarts : list ToolGroup)
    (i skip : nat) (ms : list ModelMessage) : list ModelMessage :=
  match ms with
  | [] => []
  | m :: rest =>
      match skip with
      | S k => fold_walk r foldStarts (S i) k rest
      | O =>
          match find_first (fun g => (start g =? i)%nat) foldStarts with
          | Some g => summary_message r g :: fold_walk r foldStarts (S i) (end_ g - i - 1) rest
          | None => m :: fold_walk r foldStarts (S i) O rest
          end
      end
  end.

Definition isApprovalGroup (pending : option string) (g : ToolGroup) : bool :=
  match pending with Some id => bool_decide (id ∈ toolCallIds g) | None => false end.

(** The groups folded: older than the window and not the pending approval's. *)
Definition foldGroups (r : BoundedToolHistoryReducer) (pending : option string)
    (groups : list ToolGroup) : list ToolGroup :=
  let cutoff := Z.of_nat (length groups) - keepLast r in
  List.filter (fun g => negb (isApprovalGroup pending g)) (take (Z.to_nat cutoff) groups).

(** The reduced messages, and whether they are the input array itself. *)
Definition reduce (r : BoundedToolHistoryReducer) (messages : list ModelMessage)
    (ctx : AgentMessageReductionContext) : list ModelMessage * bool :=
  let groups := findToolGroups O messages in
  if Z.of_nat (length groups) <=? keepLast r then (messages, true)
  else
    match foldGroups r (rc_pendingApprovalToolCallId ctx) groups with
    | [] => (messages, true)
    | foldStarts => (fold_walk r foldStarts O O messages, false)
    end.

(** ** Folding preserves the protocol *)

(** [out] is [ms] with some whole groups, never the pending one, each replaced
    by one plain message. *)
Inductive folds (pending : option string) : list ModelMessage -> list ModelMessage -> Prop :=
| folds_nil : folds pending [] []
| folds_keep m ms out : folds pending ms out -> folds pending (m :: ms) (m :: out)
| folds_fold m rs ms s out :
    opens_group m = true -> holds_pending pending (call_ids m) = false ->
    rs = take_while is_tool (rs ++ ms) -> is_plain s = true ->
    folds pending ms out -> folds pending (m :: rs ++ ms) (s :: out).

Lemma take_while_app {A} (p : A -> bool) l1 l2 :
  Forall (fun x => p x = true) l1 -> take_while p (l1 ++ l2) = l1 ++ take_while p l2.
Proof. induction 1 as [|x l Hx _ IH]; simpl; [done|]. by rewrite Hx, IH. Qed.

Lemma take_while_all {A} (p : A -> bool) l : Forall (fun x => p x = true) (take_while p l).
Proof. induction l as [|x l IH]; simpl; [done|]. destruct (p x) eqn:Hx; by constructor. Qed.

Lemma take_while_split {A} (p : A -> bool) l : l = take_while p l ++ drop_while p l.
Proof. induction l as [|x l IH]; simpl; [done|]. destruct (p x); simpl; congruence. Qed.

(** A well-grouped transcript does not begin with a result. *)
Lemma well_grouped_no_tool pending ms : well_grouped pending ms -> take_while is_tool ms = [].
Proof.
  destruct 1 as [|m ms Hm _|m rs ms Hm _ _ _|m rs id Hm _ _ _ _]; simpl; [done|..];
    [by rewrite (plain_not_tool _ Hm)|by rewrite (opens_not_tool _ Hm)..].
Qed.

Lemma folds_tools pending rs ms out :
  Forall (fun r => is_tool r = true) rs -> folds pending (rs ++ ms) out ->
  exists out', out = rs ++ out' /\ folds pending ms out'.
Proof.
  intros Hrs. revert out. induction Hrs as [|r rs Hr _ IH]; simpl; intros out H; [by exists out|].
  inversion H as [|? ? out1 H1|? ? ? ? ? Hop]; subst.
  - destruct (IH _ H1) as (out' & -> & ?). by exists out'.
  - apply opens_not_tool in Hop. congruence.
Qed.

Lemma folds_well_grouped pending ms out :
  well_grouped pending ms -> folds pending ms out -> well_grouped pending out.
Proof.
  intros Hw. revert out. induction Hw as [|m ms Hm _ IH|m rs ms Hm Ht Hp Hw IH|m rs id Hm Ht Hs Hid Hin];
    intros out Hf.
  - inversion Hf. constructor.
  - inversion Hf as [|? ? out1 H1|? ? ? ? ? Hop]; subst; [constructor; auto|].
    apply plain_not_opens in Hm. congruence.
  - inversion Hf as [|? ? out1 H1|? rs1 ms1 s out1 Hop Hnp Hrs Hs H1]; subst.
    + destruct (folds_tools _ _ _ _ Ht H1) as (out' & -> & ?). apply wg_group; auto.
    + apply wg_plain; [done|].
      match goal with H : rs1 ++ ms1 = rs ++ ms |- _ => rename H into Heq end.
      assert (rs1 = rs /\ ms1 = ms) as [-> ->].
      { apply app_inj_1; [|done]. rewrite Hrs, Heq, (take_while_app _ _ _ Ht).
        by rewrite (well_grouped_no_tool _ _ Hw), app_nil_r. }
      auto.
  - inversion Hf as [|? ? out1 H1|? rs1 ms1 s out1 Hop Hnp Hrs Hs' H1]; subst.
    + rewrite <- (app_nil_r rs) in H1. destruct (folds_tools _ _ _ _ Ht H1) as (out' & -> & Hn).
      inversion Hn. rewrite app_nil_r. by eapply wg_suspended.
    + exfalso. simpl in Hnp. by apply set_has_false in Hnp.
Qed.

Lemma tools_no_ids rs : Forall (fun r => is_tool r = true) rs -> all_call_ids rs = [].
Proof. induction 1 as [|r rs Hr _ IH]; [done|]. by destruct r. Qed.

Lemma plain_no_ids s : is_plain s = true -> call_ids s = [].
Proof.
  intros H%plain_not_opens. unfold opens_group, call_ids in *. by destruct (tool_calls s).
Qed.

Lemma all_call_ids_app l1 l2 : all_call_ids (l1 ++ l2) = all_call_ids l1 ++ all_call_ids l2.
Proof. unfold all_call_ids. by rewrite map_app, concat_app. Qed.

Lemma folds_ids pending ms out :
  folds pending ms out ->
  sublist (all_call_ids out) (all_call_ids ms) /\
  (forall id, pending = Some id -> id ∈ all_call_ids ms -> id ∈ all_call_ids out).
Proof.
  induction 1 as [|m ms out _ [IH1 IH2]|m rs ms s out Hop Hnp Hrs Hs _ [IH1 IH2]].
  - split; [done|set_solver].
  - change (all_call_ids (m :: ?x)) with (call_ids m ++ all_call_ids x).
    split; [by apply sublist_app|]. set_solver.
  - change (all_call_ids (m :: rs ++ ms)) with (call_ids m ++ all_call_ids (rs ++ ms)).
    change (all_call_ids (s :: out)) with (call_ids s ++ all_call_ids out).
    rewrite all_call_ids_app, (tools_no_ids rs), (plain_no_ids s) by
      (done || rewrite Hrs; apply take_while_all). simpl.
    split; [by apply sublist_inserts_l|].
    intros id -> [Hin|Hin]%elem_of_app; [|by apply IH2].
    simpl in Hnp. by apply set_has_false in Hnp.
Qed.

Lemma folds_valid pending ms out :
  valid_projection pending ms -> folds pending ms out -> valid_projection pending out.
Proof.
  intros (Hw & Hnd & Hp) Hf. destruct (folds_ids _ _ _ Hf) as [Hsub Hkeep]. split_and!.
  - by eapply folds_well_grouped.
  - by eapply sublist_NoDup.
  - eauto.
Qed.

(** ** The walk folds *)

Lemma fold_walk_skip r fs i rs ms :
  fold_walk r fs i (length rs) (rs ++ ms) = fold_walk r fs (i + length rs) O ms.
Proof.
  revert i. induction rs as [|m rs IH]; intros i; simpl; [by rewrite Nat.add_0_r|].
  rewrite IH. f_equal. lia.
Qed.

Lemma findToolGroups_start i ms g : g ∈ findToolGroups i ms -> (i <= start g)%nat.
Proof.
  revert i. induction ms as [|m ms IH]; intros i; simpl; [by inversion 1|].
  destruct (opens_group m).
  - intros [->|Hg]%elem_of_cons; [done|]. apply IH in Hg. lia.
  - intros Hg. apply IH in Hg. lia.
Qed.

Lemma findToolGroups_app i rs ms :
  Forall (fun r => is_tool r = true) rs ->
  findToolGroups i (rs ++ ms) = findToolGroups (i + length rs) ms.
Proof.
  intros H. revert i. induction H as [|r rs Hr _ IH]; intros i; simpl; [by rewrite Nat.add_0_r|].
  destruct (opens_group r) eqn:Ho; [apply opens_not_tool in Ho; congruence|].
  rewrite IH. f_equal. lia.
Qed.

Lemma summary_plain r g : is_plain (summary_message r g) = true.
Proof. unfold summary_message. by destruct (summaryRole r). Qed.

Lemma fold_walk_folds r pending fs ms :
  (forall g, g ∈ fs -> isApprovalGroup pending g = false) ->
  forall i, (forall g, g ∈ fs -> (i <= start g)%nat -> g ∈ findToolGroups i ms) ->
  folds pending ms (fold_walk r fs i O ms).
Proof.
  intros Hna. remember (length ms) as n eqn:Hn. revert ms Hn.
  induction (lt_wf n) as [n _ IH]. intros ms -> i Hin.
  destruct ms as [|m ms]; cbn [fold_walk]; [constructor|].
  destruct (find_first _ fs) as [g|] eqn:Hg.
  - apply find_first_Some in Hg as [Hg Hs]. apply Nat.eqb_eq in Hs.
    pose proof (Hin g Hg ltac:(lia)) as Hf. simpl in Hf.
    destruct (opens_group m) eqn:Hop; [|apply findToolGroups_start in Hf; lia].
    apply elem_of_cons in Hf as [Heq|Hf]; [|apply findToolGroups_start in Hf; lia].
    set (rs := take_while is_tool ms) in *.
    assert (end_ g - i - 1 = length rs)%nat as -> by (rewrite Heq; simpl; lia).
    rewrite (take_while_split is_tool ms). fold rs.
    rewrite fold_walk_skip.
    apply folds_fold; [done| | |apply summary_plain|].
    + pose proof (Hna g Hg) as Ha. rewrite Heq in Ha. unfold isApprovalGroup in Ha. simpl in Ha.
      unfold holds_pending, set_has. by destruct pending.
    + unfold rs. by rewrite <- take_while_split.
    + eapply IH; [|done|].
      * simpl. pose proof (f_equal length (take_while_split is_tool ms)) as Hl.
        rewrite length_app in Hl. lia.
      * intros g' Hg' Hst. pose proof (Hin g' Hg' ltac:(lia)) as Hf. simpl in Hf. rewrite Hop in Hf.
        apply elem_of_cons in Hf as [->|Hf]; [simpl in Hst; lia|].
        rewrite (take_while_split is_tool ms), findToolGroups_app in Hf by apply take_while_all.
        done.
  - constructor. eapply IH; [|done|].
    + simpl. lia.
    + intros g' Hg' Hst. pose proof (Hin g' Hg' ltac:(lia)) as Hf. simpl in Hf.
      destruct (opens_group m); [|done]. apply elem_of_cons in Hf as [->|Hf]; [simpl in Hst; lia|done].
Qed.

Lemma reduce_folds r ms ctx out :
  reduce r ms ctx = (out, false) -> folds (rc_pendingApprovalToolCallId ctx) ms out.
Proof.
  unfold reduce. destruct (_ <=? _); [done|].
  destruct (foldGroups _ _ _) as [|g gs] eqn:Hf; [done|]. intros [= <-].
  rewrite <- Hf. apply fold_walk_folds; unfold foldGroups.
  - intros g' [_ Hn]%list_elem_of_In%filter_In. by apply negb_true_iff.
  - intros g' [Hg' _]%list_elem_of_In%filter_In _. apply list_elem_of_In in Hg'.
    by eapply elem_of_take in Hg' as (i & Hi & _); apply list_elem_of_lookup_2 in Hi.
Qed.

(** On a transcript that honours the tool protocol, whatever the retention
    window, the projection of [BoundedToolHistoryReducer] passes
    [validateReduction]: the reducer the framework ships never fails a turn
    whose transcript is itself valid. *)
Theorem bounded_reducer_accepted (r : BoundedToolHistoryReducer) (ms : list ModelMessage)
    (ctx : AgentMessageReductionContext) :
  valid_projection (rc_pendingApprovalToolCallId ctx) ms ->
  validateReduction (reduce r ms ctx).1 (reduce r ms ctx).2 ms (fingerprintTranscript ms)
    (rc_pendingApprovalToolCallId ctx) = None.
Proof.
  intros Hv. destruct (reduce r ms ctx) as [out same] eqn:Hr. simpl. destruct same.
  - unfold validateReduction. by rewrite bool_decide_eq_true_2.
  - apply validateReduction_iff. eapply folds_valid; [done|]. by eapply reduce_folds.
Qed.

Definition demo_ctx (pending : option string) : AgentMessageReductionContext :=
  {| rc_executionId := "e"; rc_sessionId := "s"; rc_iteration := 3; rc_agentName := None;
     rc_pendingApprovalToolCallId := pending |}.
Definition demo_reducer : BoundedToolHistoryReducer := {| keepLast := 1; summaryRole := SummaryUser |}.

Definition demo_tc (id : string) : ModelToolCall :=
  {| call_id := id; call_name := "lookup"; call_args := [] |}.
Definition demo_two_groups : list ModelMessage :=
  [ UserMsg "go"; AssistantMsg EmptyString (Some [demo_tc "a"]); ToolMsg "a" "lookup" "1" None;
    AssistantMsg EmptyString (Some [demo_tc "b"]); ToolMsg "b" "lookup" "2" None ].

Lemma bounded_reducer_accepted_witness :
  (reduce demo_reducer demo_two_groups (demo_ctx None)).2 = false /\
  validateReduction (reduce demo_reducer demo_two_groups (demo_ctx None)).1
    (reduce demo_reducer demo_two_groups (demo_ctx None)).2 demo_two_groups
    (fingerprintTranscript demo_two_groups) None = None.
Proof.
  split; [vm_compute; reflexivity|].
  apply (bounded_reducer_accepted demo_reducer demo_two_groups (demo_ctx None)).
  split_and!; [|repeat constructor; set_solver|done].
  constructor; [done|].
  apply (wg_group None _ [ToolMsg "a" "lookup" "1" None]); [done|by repeat constructor|done|].
  apply (wg_group None _ [ToolMsg "b" "lookup" "2" None]); [done|by repeat constructor|done|constructor].
Defined.

(** A turn resumed after two parallel calls of which the first was withheld:
    the second was never run and has no result, and the model has since called
    two more tools. *)
Definition resumed_with_sibling : list ModelMessage :=
  [ UserMsg "go"; AssistantMsg EmptyString (Some [demo_tc "a"; demo_tc "skipped"]);
    ToolMsg "a" "lookup" "approved" None;
    AssistantMsg EmptyString (Some [demo_tc "b"]); ToolMsg "b" "lookup" "1" None;
    AssistantMsg EmptyString (Some [demo_tc "c"]); ToolMsg "c" "lookup" "2" None ].

(** The shipped reducer does fail a resumed turn whose suspended call had a
    sibling in the same assistant message: the sibling never gets a result, its
    group is no longer the trailing one, and folding a later group makes
    [validateReduction] refuse the projection. *)
Theorem bounded_reducer_fails_resumed_sibling :
  exists reason,
    validateReduction (reduce demo_reducer resumed_with_sibling (demo_ctx (Some "a"))).1
      (reduce demo_reducer resumed_with_sibling (demo_ctx (Some "a"))).2 resumed_with_sibling
      (fingerprintTranscript resumed_with_sibling) (Some "a")
    = Some (MessageReducerContractError reason).
Proof. vm_compute. eauto. Qed.

End Bounded.
