(* ===== verification/Schema.v ===== *)
(** * The JSON Schema validator (packages/core/src/utils/json-schema.validator.ts)

    Regular expressions are the host's: [regex p] is the test of the compiled
    pattern, [None] when the pattern does not compile.  A schema node is an object
    or a boolean; references are JSON pointers without malformed percent
    escapes, resolved through own properties. *)

From Stdlib Require Import Ascii.
From S2P Require Export Json.

#[local] Open Scope string_scope.
#[local] Open Scope list_scope.
#[local] Open Scope Z_scope.

Module Schema.

Record JsonSchemaValidationResult : Type := { valid : bool; issues : list string }.

Definition MAX_REF_CHAIN : Z := 32.
Definition MAX_VALUE_DEPTH : Z := 256.
Definition DEFAULT_MAX_ISSUES : Z := 20.

Definition typeOf (v : value) : string :=
  match v with
  | VNull => "null"
  | VArr _ => "array"
  | VNum n => if is_integer n then "integer" else "number"
  | _ => typeof v
  end.

Definition matchesType (v : value) (type : string) : bool :=
  let actual := typeOf v in
  if bool_decide (type = "number") then bool_decide (actual = "number") || bool_decide (actual = "integer")
  else bool_decide (actual = type).

(** [a === b] on primitives. *)
Definition strict_equal (a b : value) : bool :=
  match a, b with
  | VUndef, VUndef | VNull, VNull => true
  | VBool x, VBool y => Bool.eqb x y
  | VNum NNaN, _ | _, VNum NNaN => false
  | VNum x, VNum y => bool_decide (x = y)
  | VStr x, VStr y => bool_decide (x = y)
  | _, _ => false
  end.

(** Deep equality of JSON values; object keys in any order. *)
Fixpoint deepEqual (a b : value) {struct a} : bool :=
  match a, b with
  | VArr la, VArr lb =>
      (fix go (la lb : list value) {struct la} : bool :=
         match la, lb with
         | [], [] => true
         | x :: la', y :: lb' => deepEqual x y && go la' lb'
         | _, _ => false
         end) la lb
  | VObj fa, VObj fb =>
      (length fa =? length fb)%nat &&
      forallb (fun f => match f with
                        | (k, x) => match obj_get fb k with
                                    | Some y => deepEqual x y
                                    | None => false
                                    end
                        end) fa
  | _, _ => strict_equal a b
  end.

Definition is_ident_start (c : ascii) : bool :=
  let n := nat_of_ascii c in
  ((65 <=? n) && (n <=? 90) || (97 <=? n) && (n <=? 122) || (n =? 95) || (n =? 36))%nat.
Definition is_ident_char (c : ascii) : bool :=
  let n := nat_of_ascii c in is_ident_start c || ((48 <=? n) && (n <=? 57))%nat.

Definition is_identifier (s : string) : bool :=
  match chars s with
  | c :: l => is_ident_start c && forallb is_ident_char l
  | [] => false
  end.

Definition childPathIndex (path : string) (i : nat) : string :=
  path +:+ "[" +:+ Z_to_string (Z.of_nat i) +:+ "]".
Definition childPathKey (path key : string) : string :=
  if is_identifier key then path +:+ "." +:+ key else path +:+ "[" +:+ json_quote key +:+ "]".

(** ** References *)

(** [s.split('/')] *)
Fixpoint split_on (sep : ascii) (l cur : list ascii) : list (list ascii) :=
  match l with
  | [] => [rev cur]
  | c :: l' => if bool_decide (c = sep) then rev cur :: split_on sep l' []
               else split_on sep l' (c :: cur)
  end.

(** [decodeURIComponent] on well-formed percent escapes. *)
Fixpoint percent_decode (l : list ascii) : list ascii :=
  match l with
  | "%"%char :: (a :: b :: l') as r =>
      match radix_digit 16 a, radix_digit 16 b with
      | Some x, Some y => ascii_of_Z (x * 16 + y) :: percent_decode l'
      | _, _ => "%"%char :: percent_decode r
      end
  | c :: l' => c :: percent_decode l'
  | [] => []
  end.

(** [s.replace(/~d/g, by)] for a digit [d]. *)
Fixpoint unescape_tilde (d by_ : ascii) (l : list ascii) : list ascii :=
  match l with
  | "~"%char :: ((c :: l') as r) =>
      if bool_decide (c = d) then by_ :: unescape_tilde d by_ l' else "~"%char :: unescape_tilde d by_ r
  | c :: l' => c :: unescape_tilde d by_ l'
  | [] => []
  end.

Definition pointer_segment (raw : list ascii) : string :=
  of_chars (unescape_tilde "0" "~" (unescape_tilde "1" "/" (percent_decode raw))).

(** [node[segment]] when [segment in node]. *)
Definition child_of (node : value) (segment : string) : option value :=
  match node with
  | VObj fs => obj_get fs segment
  | VArr items =>
      find_first (fun _ => true)
        (filter_map (fun p => if bool_decide (Z_to_string (Z.of_nat p.1) = segment) then Some p.2 else None)
                    (combine (seq 0 (length items)) items))
  | _ => None
  end.

Fixpoint follow (node : value) (segments : list (list ascii)) : option value :=
  match segments with
  | [] => Some node
  | raw :: rest => match child_of node (pointer_segment raw) with
                   | Some n => follow n rest
                   | None => None
                   end
  end.

Definition is_node (v : value) : bool :=
  match v with VBool _ | VObj _ | VArr _ => true | _ => false end.

Definition resolveRef (root : value) (ref : string) : option value :=
  if bool_decide (ref = "#") then Some root
  else if starts_with "#/" ref then
    match follow root (split_on "/" (drop 2 (chars ref)) []) with
    | Some n => if is_node n then Some n else None
    | None => None
    end
  else None.

Section Validator.
Context (regex : string -> option (string -> bool)).

Definition compilePattern (pattern : string) : option (string -> bool) := regex pattern.

(** ** Problems of the schema itself *)

Definition data_keyword (k : string) : bool :=
  bool_decide (k = "const") || bool_decide (k = "enum") ||
  bool_decide (k = "default") || bool_decide (k = "examples").

Definition at_or_root (at_ : string) : string := if truthy at_ then at_ else "/".

(** The problems of one node's own keywords. *)
Definition node_problems (root : value) (s : obj) (at_ : string) : list string :=
  match obj_get s "pattern" with
  | Some (VStr p) =>
      if is_some (compilePattern p) then []
      else [at_or_root at_ +:+ ": pattern " +:+ json_quote p +:+ " is not a valid regular expression"]
  | _ => []
  end ++
  match obj_get s "$ref" with
  | Some (VStr r) =>
      if is_some (resolveRef root r) then []
      else [at_or_root at_ +:+ ": $ref " +:+ in_quotes r +:+ " does not resolve within the schema"]
  | _ => []
  end ++
  match obj_get s "patternProperties" with
  | Some (VObj ps) =>
      filter_map (fun k => if is_some (compilePattern k) then None
                           else Some (at_or_root at_ +:+ ": patternProperties key " +:+ json_quote k +:+
                                      " is not a valid regular expression")) (obj_keys ps)
  | _ => []
  end.

Fixpoint visit (root : value) (node : value) (at_ : string) {struct node} : list string :=
  match node with
  | VArr items =>
      (fix go (i : nat) (l : list value) {struct l} : list string :=
         match l with
         | [] => []
         | x :: l' => visit root x (at_ +:+ "/" +:+ Z_to_string (Z.of_nat i)) ++ go (S i) l'
         end) O items
  | VObj s =>
      node_problems root s at_ ++
      concat (map (fun f => match f with
                            | (k, x) => if data_keyword k then [] else visit root x (at_ +:+ "/" +:+ k)
                            end) s)
  | _ => []
  end.

Definition findSchemaProblems (schema : obj) : list string := visit (VObj schema) (VObj schema) EmptyString.

(** ** Validation *)

Context (maxIssues : Z).

(** [issues.length >= maxIssues] *)
Definition full (iss : list string) : bool := maxIssues <=? Z.of_nat (length iss).

Definition report (path message : string) (iss : list string) : list string :=
  if full iss then iss else iss ++ [path +:+ ": " +:+ message].

Definition report_all (path : string) (messages : list string) (iss : list string) : list string :=
  fold_left (fun acc m => report path m acc) messages iss.

Definition get_num (s : obj) (k : string) : option num :=
  match obj_get s k with Some (VNum n) => Some n | _ => None end.

Definition num_lt (a b : num) : bool := num_le a b && negb (num_le b a).

Definition guard_msg (o : option num) (bad : num -> bool) (msg : num -> string) : list string :=
  match o with Some n => if bad n then [msg n] else [] | None => [] end.

(** Code points of a UTF-8 string. *)
Definition code_points (s : string) : Z :=
  Z.of_nat (count (fun c => negb ((128 <=? nat_of_ascii c) && (nat_of_ascii c <=? 191))%nat) (chars s)).

Definition string_issues (s : obj) (v : value) : list string :=
  match v with
  | VStr str =>
      let len := num_of_Z (code_points str) in
      guard_msg (get_num s "minLength") (num_lt len)
        (fun n => "must be at least " +:+ num_to_string n +:+ " characters") ++
      guard_msg (get_num s "maxLength") (fun n => num_lt n len)
        (fun n => "must be at most " +:+ num_to_string n +:+ " characters") ++
      match obj_get s "pattern" with
      | Some (VStr p) =>
          match compilePattern p with
          | Some test => if test str then [] else ["must match pattern " +:+ json_quote p]
          | None => []
          end
      | _ => []
      end
  | _ => []
  end.

(** [Math.abs(q - Math.round(q)) > 1e-9] for [q = a / b], [b > 0]. *)
Definition not_multiple (a b : num) : bool :=
  match a, b with
  | NDec m1 e1, NDec m2 e2 =>
      let e := Z.min e1 e2 in
      let x := m1 * 10 ^ (e1 - e) in
      let y := m2 * 10 ^ (e2 - e) in
      let r := x mod y in
      y <? Z.min r (y - r) * 1000000000
  | _, _ => false
  end.

Definition number_issues (s : obj) (v : value) : list string :=
  match v with
  | VNum x =>
      guard_msg (get_num s "minimum") (num_lt x) (fun n => "must be >= " +:+ num_to_string n) ++
      guard_msg (get_num s "maximum") (fun n => num_lt n x) (fun n => "must be <= " +:+ num_to_string n) ++
      guard_msg (get_num s "exclusiveMinimum") (num_le x) (fun n => "must be > " +:+ num_to_string n) ++
      guard_msg (get_num s "exclusiveMaximum") (fun n => num_le n x)
        (fun n => "must be < " +:+ num_to_string n) ++
      guard_msg (get_num s "multipleOf") (fun n => num_lt (num_of_Z 0) n && not_multiple x n)
        (fun n => "must be a multiple of " +:+ num_to_string n)
  | _ => []
  end.

Definition enum_issues (s : obj) (v : value) : list string :=
  match obj_get s "enum" with
  | Some (VArr opts) =>
      if existsb (fun o => deepEqual o v) opts then [] else ["must be one of " +:+ json (VArr opts)]
  | _ => []
  end ++
  match obj_get s "const" with
  | Some c => if deepEqual c v then [] else ["must equal " +:+ json c]
  | None => []
  end.

(** The index of the first item equal to an earlier one. *)
Definition first_duplicate (items : list value) : option nat :=
  find_index (fun p => negb (bool_decide (find_index (fun other => deepEqual p.2 other) items = Some p.1)))
             (combine (seq 0 (length items)) items).

Definition types_of (t : value) : list string :=
  match t with
  | VArr l => map (fun x => match x with VStr s => s | _ => json x end) l
  | VStr s => [s]
  | _ => [json t]
  end.

Definition summarize (branches : list (list string)) : string :=
  join "; " (map (fun p => "#" +:+ Z_to_string (Z.of_nat p.1) +:+ ": " +:+
                           match p.2 with m :: _ => m | [] => "ok" end)
                 (combine (seq 0 (length branches)) branches)).

Definition node_list (o : option value) : option (list value) :=
  match o with Some (VArr l) => Some l | _ => None end.
Definition node_obj (o : option value) : obj := match o with Some (VObj fs) => fs | _ => [] end.
Definition node_fields (node : value) : obj := match node with VObj fs => fs | _ => [] end.

(** The items of an array: positional schemas and the schema of the rest. *)
Definition item_schemas (s : obj) : list value * option value :=
  match node_list (obj_get s "prefixItems") with
  | Some tuple => (tuple, obj_get s "items")
  | None => match node_list (obj_get s "items") with
            | Some tuple => (tuple, obj_get s "additionalItems")
            | None => ([], obj_get s "items")
            end
  end.

(** Statements run one after the other on the shared list of issues; [None]
    is out of fuel. *)
Fixpoint run_all {A} (f : A -> list string -> option (list string)) (l : list A) (iss : list string)
    : option (list string) :=
  match l with
  | [] => Some iss
  | x :: l' => match f x iss with Some iss' => run_all f l' iss' | None => None end
  end.

Section Walk.
Context (root : value).
Context (rec : value -> value -> string -> Z -> Z -> list string -> option (list string)).

(** [probe]: the issues of one branch, in a list of its own. *)
Definition probe (v node : value) (path : string) (depth refChain : Z) : option (list string) :=
  rec v node path depth refChain [].

Fixpoint probes (v : value) (path : string) (depth refChain : Z) (subs : list value)
    : option (list (list string)) :=
  match subs with
  | [] => Some []
  | sub :: subs' =>
      match probe v sub path depth refChain with
      | Some found => match probes v path depth refChain subs' with
                      | Some rest => Some (found :: rest)
                      | None => None
                      end
      | None => None
      end
  end.

Definition is_nil {A} (l : list A) : bool := match l with [] => true | _ => false end.

Definition array_step (s : obj) (v : value) (path : string) (depth : Z) (iss : list string)
    : option (list string) :=
  match v with
  | VArr items =>
      let len := num_of_Z (Z.of_nat (length items)) in
      let iss1 := report_all path
        (guard_msg (get_num s "minItems") (num_lt len)
           (fun n => "must have at least " +:+ num_to_string n +:+ " items") ++
         guard_msg (get_num s "maxItems") (fun n => num_lt n len)
           (fun n => "must have at most " +:+ num_to_string n +:+ " items")) iss in
      let iss2 := match obj_get s "uniqueItems", first_duplicate items with
                  | Some (VBool true), Some i =>
                      report (childPathIndex path i) "duplicates an earlier item" iss1
                  | _, _ => iss1
                  end in
      let '(tuple, rest) := item_schemas s in
      run_all (fun p acc =>
                 match nth_error tuple p.1, rest with
                 | Some sub, _ => rec p.2 sub (childPathIndex path p.1) (depth + 1) 0 acc
                 | None, Some sub => rec p.2 sub (childPathIndex path p.1) (depth + 1) 0 acc
                 | None, None => Some acc
                 end) (combine (seq 0 (length items)) items) iss2
  | _ => Some iss
  end.

(** One key of an object against the schemas that apply to it. *)
Definition property_step (s : obj) (path : string) (depth : Z) (field : string * value)
    (iss : list string) : option (list string) :=
  let '(key, child) := field in
  let at_ := childPathKey path key in
  let declared := obj_get (node_obj (obj_get s "properties")) key in
  let matching := filter_map (fun ps => match compilePattern ps.1 with
                                        | Some test => if test key then Some ps.2 else None
                                        | None => None
                                        end) (node_obj (obj_get s "patternProperties")) in
  let subs := match declared with Some sub => sub :: matching | None => matching end in
  match subs with
  | [] =>
      match obj_get s "additionalProperties" with
      | Some (VBool false) => Some (report at_ "is not an allowed property" iss)
      | Some (VObj sub) => rec child (VObj sub) at_ (depth + 1) 0 iss
      | _ => Some iss
      end
  | _ => run_all (fun sub acc => rec child sub at_ (depth + 1) 0 acc) subs iss
  end.

Definition object_step (s : obj) (v : value) (path : string) (depth : Z) (iss : list string)
    : option (list string) :=
  match v with
  | VObj fields =>
      let iss1 := match obj_get s "required" with
                  | Some (VArr ks) =>
                      fold_left (fun acc k => match k with
                                              | VStr key => if is_some (obj_get fields key) then acc
                                                            else report (childPathKey path key) "is required" acc
                                              | _ => acc
                                              end) ks iss
                  | _ => iss
                  end in
      let len := num_of_Z (Z.of_nat (length fields)) in
      let iss2 := report_all path
        (guard_msg (get_num s "minProperties") (num_lt len)
           (fun n => "must have at least " +:+ num_to_string n +:+ " properties") ++
         guard_msg (get_num s "maxProperties") (fun n => num_lt n len)
           (fun n => "must have at most " +:+ num_to_string n +:+ " properties")) iss1 in
      run_all (property_step s path depth) fields iss2
  | _ => Some iss
  end.

Definition allOf_step (s : obj) (v : value) (path : string) (depth refChain : Z) (iss : list string)
    : option (list string) :=
  match node_list (obj_get s "allOf") with
  | Some subs => run_all (fun sub acc => rec v sub path depth refChain acc) subs iss
  | None => Some iss
  end.

Definition anyOf_step (s : obj) (v : value) (path : string) (depth refChain : Z) (iss : list string)
    : option (list string) :=
  match node_list (obj_get s "anyOf") with
  | Some subs =>
      branches ← probes v path depth refChain subs;
      Some (if existsb is_nil branches then iss
            else report path ("must match at least one schema in anyOf (" +:+
                              summarize branches +:+ ")") iss)
  | None => Some iss
  end.

Definition oneOf_step (s : obj) (v : value) (path : string) (depth refChain : Z) (iss : list string)
    : option (list string) :=
  match node_list (obj_get s "oneOf") with
  | Some subs =>
      branches ← probes v path depth refChain subs;
      let matched := count is_nil branches in
      Some (if (matched =? 1)%nat then iss
            else report path
              (if (matched =? 0)%nat
               then "must match exactly one schema in oneOf (" +:+ summarize branches +:+ ")"
               else "must match exactly one schema in oneOf, but matched " +:+
                    Z_to_string (Z.of_nat matched)) iss)
  | None => Some iss
  end.

Definition not_step (s : obj) (v : value) (path : string) (depth refChain : Z) (iss : list string)
    : option (list string) :=
  match obj_get s "not" with
  | Some sub =>
      found ← probe v sub path depth refChain;
      Some (if is_nil found then report path
              ("must not match the schema in " +:+ in_quotes "not") iss else iss)
  | None => Some iss
  end.

Definition combinator_step (s : obj) (v : value) (path : string) (depth refChain : Z)
    (iss : list string) : option (list string) :=
  iss1 ← allOf_step s v path depth refChain iss;
  iss2 ← anyOf_step s v path depth refChain iss1;
  iss3 ← oneOf_step s v path depth refChain iss2;
  not_step s v path depth refChain iss3.

(** The keywords after [$ref]. *)
Definition keyword_steps (s : obj) (v : value) (path : string) (depth refChain : Z)
    (iss : list string) : option (list string) :=
  let nullable := match v, obj_get s "nullable" with VNull, Some (VBool true) => true | _, _ => false end in
  if nullable then Some iss
  else
    let wrong_type := match obj_get s "type" with
                      | Some t => if existsb (matchesType v) (types_of t) then None else Some (types_of t)
                      | None => None
                      end in
    match wrong_type with
    | Some ts => Some (report path ("expected " +:+ join " or " ts +:+ ", received " +:+ typeOf v) iss)
    | None =>
        let iss1 := report_all path (enum_issues s v ++ string_issues s v ++ number_issues s v) iss in
        iss2 ← array_step s v path depth iss1;
        iss3 ← object_step s v path depth iss2;
        combinator_step s v path depth refChain iss3
    end.

Definition walk_node (v node : value) (path : string) (depth refChain : Z) (iss : list string)
    : option (list string) :=
  if full iss then Some iss
  else if MAX_VALUE_DEPTH <? depth then
    Some (report path ("the value is nested more than " +:+ Z_to_string MAX_VALUE_DEPTH +:+
                       " levels deep") iss)
  else
    match node with
    | VBool true => Some iss
    | VBool false => Some (report path "no value is allowed here" iss)
    | _ =>
        let s := node_fields node in
        match obj_get s "$ref" with
        | Some (VStr ref) =>
            match resolveRef root ref with
            | None => Some (report path ("unresolvable $ref " +:+ in_quotes ref) iss)
            | Some target =>
                if MAX_REF_CHAIN <=? refChain then
                  Some (report path ("$ref " +:+ in_quotes ref +:+ " loops without matching any value") iss)
                else
                  iss1 ← rec v target path depth (refChain + 1) iss;
                  keyword_steps s v path depth refChain iss1
            end
        | _ => keyword_steps s v path depth refChain iss
        end
    end.
End Walk.

Fixpoint walk (fuel : nat) (root v node : value) (path : string) (depth refChain : Z)
    (iss : list string) : option (list string) :=
  match fuel with
  | O => None
  | S fuel' => walk_node root (walk fuel' root) v node path depth refChain iss
  end.

(** The number of nodes of a schema. *)
Fixpoint vsize (v : value) : nat :=
  match v with
  | VArr l => S (list_sum (map vsize l))
  | VObj fs => S (list_sum (map (fun f => match f with (_, x) => vsize x end) fs))
  | _ => 1%nat
  end.

(** Fuel that always suffices: per level of the value at most 33 references in
    a row, each followed by a descent through the schema. *)
Definition walk_fuel (schema : obj) : nat :=
  (258 * 34 * S (vsize (VObj schema)) + 1)%nat.

Definition validate_with (v : value) (schema : obj) : option (list string) :=
  walk (walk_fuel schema) (VObj schema) v (VObj schema) "$" 0 0 [].

Definition validateJsonSchema (v : value) (schema : obj) : JsonSchemaValidationResult :=
  let iss := default ["fuel"] (validate_with v schema) in
  {| valid := is_nil iss; issues := iss |}.
End Validator.

End Schema.
