(* ===== verification/SchemaSound.v ===== *)
(** * JSON Schema validation ends

    The walk of [Schema] follows references, so it is not structural: it ends
    because references that match no value are cut off after [MAX_REF_CHAIN] and
    values deeper than [MAX_VALUE_DEPTH] are refused.  The measure below pays for
    every nested call, whatever the schema refers to, loops included.
    Below it, what a passed validation guarantees. *)

From S2P Require Export Schema.

#[local] Open Scope list_scope.
#[local] Open Scope Z_scope.

Module SchemaTotal.
Import Schema.

(** ** Parts of a schema are smaller *)

Lemma vsize_pos v : (1 <= vsize v)%nat.
Proof. destruct v; simpl; lia. Qed.

Lemma sum_elem {A} (f : A -> nat) l x : x ∈ l -> (f x <= list_sum (map f l))%nat.
Proof. induction 1 as [x l|x y l _ IH]; simpl; lia. Qed.

Lemma vsize_item l x : x ∈ l -> (vsize x < vsize (VArr l))%nat.
Proof. intros H. simpl. pose proof (sum_elem vsize l x H). lia. Qed.

Lemma vsize_fields fs : vsize (VObj fs) = S (list_sum (map (fun f => vsize f.2) fs)).
Proof. simpl. do 2 f_equal. apply map_ext. by intros [k x]. Qed.

Lemma vsize_field fs k x : (k, x) ∈ fs -> (vsize x < vsize (VObj fs))%nat.
Proof. intros H. rewrite vsize_fields. pose proof (sum_elem (fun f => vsize f.2) fs (k, x) H). simpl in *. lia. Qed.

Lemma obj_get_elem fs k x : obj_get fs k = Some x -> (k, x) ∈ fs.
Proof.
  induction fs as [|[k' y] fs IH]; simpl; [done|]. case_bool_decide; [|intros; right; auto].
  intros [= ->]. subst. by left.
Qed.

Lemma vsize_get fs k x : obj_get fs k = Some x -> (vsize x < vsize (VObj fs))%nat.
Proof. intros H. eapply vsize_field, obj_get_elem, H. Qed.

(** A keyword of a node. *)
Lemma vsize_keyword node k x : obj_get (node_fields node) k = Some x -> (vsize x < vsize node)%nat.
Proof. destruct node; simpl node_fields; try done. apply vsize_get. Qed.

Lemma vsize_subs node k subs sub :
  node_list (obj_get (node_fields node) k) = Some subs -> sub ∈ subs -> (vsize sub < vsize node)%nat.
Proof.
  intros Hs Hin. destruct (obj_get _ k) as [x|] eqn:Hk; [|done]. destruct x; simplify_eq/=.
  apply vsize_keyword in Hk. apply vsize_item in Hin. lia.
Qed.

Lemma vsize_node_obj node k name sub :
  (name, sub) ∈ node_obj (obj_get (node_fields node) k) -> (vsize sub < vsize node)%nat.
Proof.
  destruct (obj_get _ k) as [x|] eqn:Hk; simpl; [|intros H; by apply elem_of_nil in H].
  intros Hin. apply vsize_keyword in Hk. destruct x; try (by apply elem_of_nil in Hin).
  apply vsize_field in Hin. lia.
Qed.

Lemma elem_of_combine_r {A B} (l : list A) (l' : list B) x y : (x, y) ∈ combine l l' -> y ∈ l'.
Proof. rewrite !list_elem_of_In. apply in_combine_r. Qed.

(** ** What a reference resolves to is part of the schema *)

Lemma vsize_child node seg n : child_of node seg = Some n -> (vsize n < vsize node)%nat.
Proof.
  destruct node; try done; simpl child_of; [|apply vsize_get].
  intros [Hin _]%find_first_Some. apply vsize_item.
  apply elem_of_filter_map in Hin as ([i x] & Hin & Hx). case_bool_decide; simplify_eq/=.
  by eapply elem_of_combine_r.
Qed.

Lemma vsize_follow segs node n : follow node segs = Some n -> (vsize n <= vsize node)%nat.
Proof.
  revert node. induction segs as [|g segs IH]; simpl; [by intros node [= ->]|].
  intros node H. destruct (child_of node _) as [c|] eqn:Hc; [|done].
  apply vsize_child in Hc. apply IH in H. lia.
Qed.

(** Splitting yields at least one piece. *)
Lemma split_on_nonempty sep l cur : split_on sep l cur <> [].
Proof. revert cur. induction l as [|c l IH]; intros cur; simpl; [done|]. by case_bool_decide. Qed.

Lemma vsize_resolved root ref n : resolveRef root ref = Some n -> (vsize n <= vsize root)%nat.
Proof.
  unfold resolveRef. case_bool_decide; [by intros [= ->]|]. destruct (starts_with _ _); [|done].
  destruct (follow _ _) as [m|] eqn:Hm; [|done]. destruct (is_node m); [|done]. intros [= ->].
  by eapply vsize_follow.
Qed.

(** The schemas of an array's items. *)
Lemma vsize_item_schemas node tuple rest :
  item_schemas (node_fields node) = (tuple, rest) ->
  (forall sub, sub ∈ tuple -> (vsize sub < vsize node)%nat) /\
  (forall sub, rest = Some sub -> (vsize sub < vsize node)%nat).
Proof.
  unfold item_schemas. intros H.
  destruct (node_list (obj_get _ "prefixItems")) as [t|] eqn:Ht;
    [|destruct (node_list (obj_get _ "items")) as [t'|] eqn:Ht']; simplify_eq;
    (split; [intros sub Hin|intros sub Hs; by eapply vsize_keyword]);
    try (by eapply vsize_subs); by apply elem_of_nil in Hin.
Qed.

(** ** Every step returns, when the nested calls do *)

Lemma run_all_total {A} (f : A -> list string -> option (list string)) l iss :
  (forall x acc, x ∈ l -> is_Some (f x acc)) -> is_Some (run_all f l iss).
Proof.
  revert iss. induction l as [|x l IH]; intros iss H; simpl; [done|].
  destruct (H x iss) as [acc ->]; [by left|]. apply IH. intros y acc' Hy. apply H. by right.
Qed.

Section Steps.
Context (regex : string -> option (string -> bool)) (maxIssues : Z) (root : value).
Context (rec : value -> value -> string -> Z -> Z -> list string -> option (list string)).
Context (node : value) (depth refChain : Z).

(** A call one level down the value, one at the same level on a part of the
    schema, and one through a reference. *)
Context (Hnode : (vsize node <= vsize root)%nat).
Context (Hdeeper : forall v sub path iss,
  (vsize sub <= vsize root)%nat -> is_Some (rec v sub path (depth + 1) 0 iss)).
Context (Hsame : forall v sub path iss,
  (vsize sub < vsize node)%nat -> is_Some (rec v sub path depth refChain iss)).
Context (Href : forall v target path iss,
  (vsize target <= vsize root)%nat -> refChain < MAX_REF_CHAIN ->
  is_Some (rec v target path depth (refChain + 1) iss)).

Lemma deeper_part v sub path iss : (vsize sub < vsize node)%nat -> is_Some (rec v sub path (depth + 1) 0 iss).
Proof using Hdeeper Hnode. intros H. apply Hdeeper. lia. Qed.

Lemma probes_total v path subs :
  (forall sub, sub ∈ subs -> (vsize sub < vsize node)%nat) -> is_Some (probes rec v path depth refChain subs).
Proof using Hsame.
  induction subs as [|sub subs IH]; intros H; simpl; [done|].
  destruct (Hsame v sub path []) as [found Hf]; [apply H; by left|]. unfold probe. rewrite Hf.
  destruct IH as [rest ->]; [intros x Hx; apply H; by right|done].
Qed.

Lemma array_step_total v path iss :
  is_Some (array_step maxIssues rec (node_fields node) v path depth iss).
Proof using Hdeeper Hnode.
  destruct v as [| | | | |items| | | | |]; try done. unfold array_step. cbv zeta.
  destruct (item_schemas (node_fields node)) as [tuple rest] eqn:Hs.
  apply vsize_item_schemas in Hs as [Ht Hr]. apply run_all_total. intros [i x] acc _. simpl.
  destruct (nth_error tuple i) as [sub|] eqn:Hn.
  - apply deeper_part, Ht, list_elem_of_In. by eapply nth_error_In.
  - destruct rest as [sub|]; [|done]. by apply deeper_part, Hr.
Qed.

Lemma property_step_total path field iss :
  is_Some (property_step regex maxIssues rec (node_fields node) path depth field iss).
Proof using Hdeeper Hnode.
  destruct field as [key child]. unfold property_step. cbv zeta.
  match goal with |- is_Some (match ?subs with _ => _ end) =>
    assert (Hsubs : forall sub, sub ∈ subs -> (vsize sub < vsize node)%nat); [|destruct subs as [|x l]] end.
  - assert (Hm : forall sub, sub ∈ filter_map (fun ps => match compilePattern regex ps.1 with
                   | Some test => if test key then Some ps.2 else None
                   | None => None end) (node_obj (obj_get (node_fields node) "patternProperties")) ->
                 (vsize sub < vsize node)%nat).
    { intros sub ([n y] & Hin & Hy)%elem_of_filter_map. simpl in Hy.
      destruct (compilePattern regex n) as [test|]; [|done]. destruct (test key); [|done].
      simplify_eq. by eapply vsize_node_obj. }
    destruct (obj_get (node_obj _) key) as [d|] eqn:Hd; [|exact Hm].
    intros sub [->|Hin]%elem_of_cons; [|by apply Hm].
    eapply vsize_node_obj, obj_get_elem, Hd.
  - destruct (obj_get _ "additionalProperties") as [a|] eqn:Ha; [|done].
    apply vsize_keyword in Ha. destruct a as [| |[]| | | | | | | |]; try done. by apply deeper_part.
  - apply run_all_total. intros sub acc Hin. by apply deeper_part, Hsubs.
Qed.

Lemma object_step_total v path iss :
  is_Some (object_step regex maxIssues rec (node_fields node) v path depth iss).
Proof using Hdeeper Hnode.
  destruct v; try done. apply run_all_total. intros field acc _. apply property_step_total.
Qed.

(** A keyword that holds a list of schemas for the same value. *)
Lemma keyword_list_total {A} k (f : list value -> option A) (z : option A) :
  is_Some z ->
  (forall subs, (forall sub, sub ∈ subs -> (vsize sub < vsize node)%nat) -> is_Some (f subs)) ->
  is_Some (match node_list (obj_get (node_fields node) k) with Some subs => f subs | None => z end).
Proof.
  intros Hz Hf. destruct (node_list _) as [subs|] eqn:Hs; [|done].
  apply Hf. intros sub. by eapply vsize_subs.
Qed.

Lemma bind_total {A B} (o : option A) (f : A -> option B) :
  is_Some o -> (forall x, is_Some (f x)) -> is_Some (o ≫= f).
Proof. intros [x ->] H. apply H. Qed.

Lemma combinator_step_total v path iss :
  is_Some (combinator_step maxIssues rec (node_fields node) v path depth refChain iss).
Proof using Hsame.
  apply bind_total; [|intros iss1; apply bind_total; [|intros iss2; apply bind_total; [|intros iss3]]];
    unfold allOf_step, anyOf_step, oneOf_step, not_step.
  - apply keyword_list_total; [done|]. intros subs H. apply run_all_total. intros sub acc Hin. by apply Hsame, H.
  - apply keyword_list_total; [done|]. intros subs H. apply bind_total; [by apply probes_total|done].
  - apply keyword_list_total; [done|]. intros subs H. apply bind_total; [by apply probes_total|done].
  - destruct (obj_get _ "not") as [sub|] eqn:Hn; [|done]. apply vsize_keyword in Hn.
    apply bind_total; [by apply Hsame|done].
Qed.

Lemma keyword_steps_total v path iss :
  is_Some (keyword_steps regex maxIssues rec (node_fields node) v path depth refChain iss).
Proof using Hdeeper Hnode Hsame.
  unfold keyword_steps. cbv zeta.
  match goal with |- is_Some (if ?b then _ else _) => destruct b end; [done|].
  match goal with |- is_Some (match ?o with _ => _ end) => destruct o end; [done|].
  apply bind_total; [apply array_step_total|]. intros iss2.
  apply bind_total; [apply object_step_total|]. intros iss3. apply combinator_step_total.
Qed.

Lemma walk_node_total v path iss :
  is_Some (walk_node regex maxIssues root rec v node path depth refChain iss).
Proof using Hdeeper Hnode Hsame Href.
  unfold walk_node. destruct (full _ _); [done|]. destruct (_ <? depth); [done|].
  assert (Hs : is_Some (match obj_get (node_fields node) "$ref" with
    | Some (VStr ref) => match resolveRef root ref with
        | None => Some (report maxIssues path ("unresolvable $ref " +:+ in_quotes ref) iss)
        | Some target => if MAX_REF_CHAIN <=? refChain then
              Some (report maxIssues path ("$ref " +:+ in_quotes ref +:+ " loops without matching any value") iss)
            else iss1 ← rec v target path depth (refChain + 1) iss;
                 keyword_steps regex maxIssues rec (node_fields node) v path depth refChain iss1 end
    | _ => keyword_steps regex maxIssues rec (node_fields node) v path depth refChain iss end)).
  { destruct (obj_get _ "$ref") as [[]|]; try apply keyword_steps_total.
    destruct (resolveRef root s) as [target|] eqn:Ht; [|done].
    destruct (Z.leb_spec MAX_REF_CHAIN refChain); [done|].
    apply bind_total; [|intros; apply keyword_steps_total]. by eapply Href; [eapply vsize_resolved|]. }
  destruct node as [| |[]| | | | | | | |]; done.
Qed.
End Steps.

(** ** The measure *)

(** What is left to do at a node of size [n] of a schema of size [N]. *)
Definition measure (N : nat) (depth refChain : Z) (n : nat) : nat :=
  (Z.to_nat (257 - depth) * (34 * S N) + Z.to_nat (33 - refChain) * S N + n)%nat.

Lemma measure_deeper N depth refChain n n' :
  depth <= 256 -> (n <= N)%nat -> (measure N (depth + 1) 0 n < measure N depth refChain n')%nat.
Proof.
  unfold measure. intros Hd Hn.
  replace (Z.to_nat (257 - depth)) with (S (Z.to_nat (257 - (depth + 1)))) by lia.
  change (Z.to_nat (33 - 0)) with 33%nat. nia.
Qed.

Lemma measure_ref N depth refChain n n' :
  refChain <= 32 -> (n <= N)%nat -> (measure N depth (refChain + 1) n < measure N depth refChain n')%nat.
Proof.
  unfold measure. intros Hr Hn.
  replace (Z.to_nat (33 - refChain)) with (S (Z.to_nat (33 - (refChain + 1)))) by lia. nia.
Qed.

Lemma walk_total regex maxIssues root fuel v node path depth refChain iss :
  (vsize node <= vsize root)%nat -> (measure (vsize root) depth refChain (vsize node) < fuel)%nat ->
  is_Some (walk regex maxIssues fuel root v node path depth refChain iss).
Proof.
  revert v node path depth refChain iss.
  induction fuel as [|fuel IH]; intros v node path depth refChain iss Hn Hm; [lia|]. simpl walk.
  destruct (Z.leb_spec depth 256) as [Hd|Hd].
  - apply walk_node_total; [done| | |].
    + intros v' sub path' iss' Hs. apply IH; [done|].
      pose proof (measure_deeper (vsize root) depth refChain (vsize sub) (vsize node) Hd Hs). lia.
    + intros v' sub path' iss' Hs. apply IH; [lia|]. unfold measure in *. lia.
    + intros v' t path' iss' Ht Hr. unfold MAX_REF_CHAIN in Hr. apply IH; [done|].
      pose proof (measure_ref (vsize root) depth refChain (vsize t) (vsize node) ltac:(lia) Ht). lia.
  - unfold walk_node. destruct (full _ _); [done|]. unfold MAX_VALUE_DEPTH.
    by destruct (Z.ltb_spec 256 depth); [|lia].
Qed.

(** Validation returns a list of issues for every value and every schema,
    reference loops included: the fuel is never the reason of an answer. *)
Theorem schema_validation_terminates regex maxIssues v schema :
  validate_with regex maxIssues v schema <> None.
Proof.
  unfold validate_with. apply not_eq_None_Some, walk_total; [done|].
  unfold measure, walk_fuel. change (Z.to_nat (257 - 0)) with 257%nat.
  change (Z.to_nat (33 - 0)) with 33%nat. nia.
Qed.

End SchemaTotal.

(** * What a passed JSON Schema validation guarantees

    Whatever preorder [report] respects, the whole walk respects: the issues only
    grow, and never past [maxIssues].  So a validation without issues had none at
    any step, which gives the keywords' meaning for objects: types, required keys,
    declared properties, refused additional properties. *)

#[local] Open Scope list_scope.
#[local] Open Scope Z_scope.

Module SchemaSound.
Import Schema.

(** ** Steps respect what [report] respects *)

Section Respect.
Context (regex : string -> option (string -> bool)) (maxIssues : Z).
Context (R : list string -> list string -> Prop) `{!PreOrder R}.
Context (Hreport : forall path m iss, R iss (report maxIssues path m iss)).

(** A statement run on the issues. *)
Definition respects (f : list string -> option (list string)) : Prop :=
  forall iss iss', f iss = Some iss' -> R iss iss'.

Lemma respects_ret (f : list string -> list string) : (forall iss, R iss (f iss)) -> respects (fun iss => Some (f iss)).
Proof. intros H iss iss' [= <-]. apply H. Qed.

Lemma respects_bind (f g : list string -> option (list string)) :
  respects f -> respects g -> respects (fun iss => f iss ≫= g).
Proof using PreOrder0.
  intros Hf Hg iss iss'. simpl. destruct (f iss) as [acc|] eqn:Hs; [|done].
  intros H. etransitivity; [by apply Hf|by apply Hg].
Qed.

(** A statement that reads something else first. *)
Lemma respects_read {A} (o : option A) (g : A -> list string -> option (list string)) :
  (forall x, respects (g x)) -> respects (fun iss => o ≫= fun x => g x iss).
Proof. intros H iss iss'. destruct o as [x|]; [apply H|done]. Qed.

Lemma respects_pre (h : list string -> list string) (g : list string -> option (list string)) :
  (forall iss, R iss (h iss)) -> respects g -> respects (fun iss => g (h iss)).
Proof using PreOrder0. intros Hh Hg iss iss' H. etransitivity; [apply Hh|by apply Hg]. Qed.

Lemma report_all_respects path ms iss : R iss (report_all maxIssues path ms iss).
Proof using Type*.
  revert iss. induction ms as [|m ms IH]; intros iss; [reflexivity|]. simpl.
  etransitivity; [apply Hreport|apply IH].
Qed.

Lemma run_all_respects {A} (f : A -> list string -> option (list string)) l :
  (forall x, x ∈ l -> respects (f x)) -> respects (run_all f l).
Proof using PreOrder0.
  induction l as [|x l IH]; intros H iss iss'; simpl; [intros [= ->]; reflexivity|].
  destruct (f x iss) as [acc|] eqn:Hx; [|done]. intros Hr.
  etransitivity; [eapply H; [by left|exact Hx]|]. eapply IH; [|exact Hr]. intros y Hy. apply H. by right.
Qed.

Section Steps.
Context (root : value).
Context (rec : value -> value -> string -> Z -> Z -> list string -> option (list string)).
Context (Hrec : forall v node path depth refChain, respects (rec v node path depth refChain)).

Lemma array_step_respects s v path depth : respects (array_step maxIssues rec s v path depth).
Proof using Type*.
  destruct v as [| | | | |items| | | | |]; try (apply respects_ret; reflexivity).
  unfold array_step. cbv zeta. destruct (item_schemas s) as [tuple rest].
  apply (respects_pre (fun iss => match obj_get s "uniqueItems", first_duplicate items with
    | Some (VBool true), Some i => report maxIssues (childPathIndex path i) "duplicates an earlier item"
                                     (report_all maxIssues path _ iss)
    | _, _ => report_all maxIssues path _ iss end)).
  - intros iss. destruct (obj_get s "uniqueItems") as [[| |[]| | | | | | | |]|], (first_duplicate items);
      try apply report_all_respects. etransitivity; [apply report_all_respects|apply Hreport].
  - apply run_all_respects. intros [i x] _. simpl.
    destruct (nth_error tuple i); [|destruct rest]; [apply Hrec..|apply respects_ret; reflexivity].
Qed.

Lemma property_step_respects s path depth field :
  respects (property_step regex maxIssues rec s path depth field).
Proof using Type*.
  destruct field as [key child]. unfold property_step. cbv zeta.
  match goal with |- respects (fun iss => match ?subs with _ => _ end) => destruct subs end.
  - destruct (obj_get s "additionalProperties") as [[| |[]| | | | | | | |]|];
      try (apply respects_ret; intros; (reflexivity || apply Hreport)). apply Hrec.
  - apply run_all_respects. intros sub _. apply Hrec.
Qed.

(** The report of the missing required keys. *)
Definition require_keys (fields : obj) (path : string) (ks : list value) (iss : list string) : list string :=
  fold_left (fun acc k => match k with
                          | VStr key => if is_some (obj_get fields key) then acc
                                        else report maxIssues (childPathKey path key) "is required" acc
                          | _ => acc
                          end) ks iss.

Lemma require_keys_respects fields path ks iss : R iss (require_keys fields path ks iss).
Proof using Type*.
  revert iss. induction ks as [|k ks IH]; intros iss; [reflexivity|].
  etransitivity; [|apply IH]. destruct k; try reflexivity. destruct (is_some _); [reflexivity|apply Hreport].
Qed.

Lemma object_step_respects s v path depth : respects (object_step regex maxIssues rec s v path depth).
Proof using Type*.
  destruct v as [| | | | | |fields| | | |]; try (apply respects_ret; reflexivity).
  unfold object_step. cbv zeta.
  apply (respects_pre (fun iss => report_all maxIssues path _ (match obj_get s "required" with
    | Some (VArr ks) => require_keys fields path ks iss | _ => iss end))).
  - intros iss. etransitivity; [|apply report_all_respects].
    destruct (obj_get s "required") as [[]|]; try reflexivity. apply require_keys_respects.
  - apply run_all_respects. intros field _. apply property_step_respects.
Qed.

Lemma allOf_respects s v path depth refChain : respects (allOf_step rec s v path depth refChain).
Proof using PreOrder0 Hrec.
  unfold allOf_step. destruct (node_list _); [|apply respects_ret; reflexivity].
  apply run_all_respects. intros sub _. apply Hrec.
Qed.

Lemma anyOf_respects s v path depth refChain : respects (anyOf_step maxIssues rec s v path depth refChain).
Proof using PreOrder0 Hreport.
  unfold anyOf_step. destruct (node_list _); [|apply respects_ret; reflexivity].
  apply respects_read. intros branches. apply respects_ret. intros iss.
  destruct (existsb _ _); [reflexivity|apply Hreport].
Qed.

Lemma oneOf_respects s v path depth refChain : respects (oneOf_step maxIssues rec s v path depth refChain).
Proof using PreOrder0 Hreport.
  unfold oneOf_step. destruct (node_list _); [|apply respects_ret; reflexivity].
  apply respects_read. intros branches. apply respects_ret. intros iss.
  destruct (_ =? _)%nat; [reflexivity|apply Hreport].
Qed.

Lemma not_respects s v path depth refChain : respects (not_step maxIssues rec s v path depth refChain).
Proof using PreOrder0 Hreport.
  unfold not_step. destruct (obj_get s "not"); [|apply respects_ret; reflexivity].
  apply respects_read. intros found. apply respects_ret. intros iss.
  destruct (is_nil found); [apply Hreport|reflexivity].
Qed.

Lemma combinator_step_respects s v path depth refChain :
  respects (combinator_step maxIssues rec s v path depth refChain).
Proof using PreOrder0 Hreport Hrec.
  repeat (apply respects_bind; [first [apply allOf_respects | apply anyOf_respects | apply oneOf_respects]|]).
  apply not_respects.
Qed.

Lemma keyword_steps_respects s v path depth refChain :
  respects (keyword_steps regex maxIssues rec s v path depth refChain).
Proof using Type*.
  unfold keyword_steps. cbv zeta.
  match goal with |- respects (fun iss => if ?b then _ else _) => destruct b end;
    [apply respects_ret; reflexivity|].
  match goal with |- respects (fun iss => match ?o with _ => _ end) => destruct o end;
    [apply respects_ret; intros; apply Hreport|].
  apply (respects_pre (report_all maxIssues path _) (fun iss => array_step maxIssues rec s v path depth iss
    ≫= fun iss2 => object_step regex maxIssues rec s v path depth iss2
    ≫= fun iss3 => combinator_step maxIssues rec s v path depth refChain iss3));
    [intros; apply report_all_respects|].
  apply respects_bind; [apply array_step_respects|].
  apply respects_bind; [apply object_step_respects|apply combinator_step_respects].
Qed.

Lemma walk_node_respects v node path depth refChain :
  respects (walk_node regex maxIssues root rec v node path depth refChain).
Proof using Type*.
  intros iss iss'. unfold walk_node. destruct (full _ _); [intros [= ->]; reflexivity|].
  destruct (_ <? depth); [intros [= <-]; apply Hreport|].
  assert (Hs : respects (fun iss => match obj_get (node_fields node) "$ref" with
    | Some (VStr ref) => match resolveRef root ref with
        | None => Some (report maxIssues path ("unresolvable $ref " +:+ in_quotes ref) iss)
        | Some target => if MAX_REF_CHAIN <=? refChain then
              Some (report maxIssues path ("$ref " +:+ in_quotes ref +:+ " loops without matching any value") iss)
            else iss1 ← rec v target path depth (refChain + 1) iss;
                 keyword_steps regex maxIssues rec (node_fields node) v path depth refChain iss1 end
    | _ => keyword_steps regex maxIssues rec (node_fields node) v path depth refChain iss end)).
  { destruct (obj_get _ "$ref") as [[]|]; try apply keyword_steps_respects.
    destruct (resolveRef root s) as [target|]; [|apply respects_ret; intros; apply Hreport].
    destruct (_ <=? refChain); [apply respects_ret; intros; apply Hreport|].
    apply respects_bind; [apply Hrec|apply keyword_steps_respects]. }
  destruct node as [| |[]| | | | | | | |]; try apply Hs; intros [= <-]; [reflexivity|apply Hreport].
Qed.
End Steps.

Lemma walk_respects root fuel v node path depth refChain :
  respects (walk regex maxIssues fuel root v node path depth refChain).
Proof using Type*.
  revert v node path depth refChain. induction fuel as [|fuel IH]; intros v node path depth refChain; [done|].
  apply walk_node_respects, IH.
Qed.
End Respect.

(** ** The issues only grow, and never past the limit *)

Lemma report_grows maxIssues path m iss : iss `prefix_of` report maxIssues path m iss.
Proof. unfold report. destruct (full _ _); [done|]. by eexists. Qed.

Definition within (maxIssues : Z) (iss iss' : list string) : Prop :=
  Z.of_nat (length iss) <= maxIssues -> Z.of_nat (length iss') <= maxIssues.

#[export] Instance within_preorder maxIssues : PreOrder (within maxIssues).
Proof. split; unfold within; [by intros ?|intros x y z Hxy Hyz Hx; auto]. Qed.

Lemma report_within maxIssues path m iss : within maxIssues iss (report maxIssues path m iss).
Proof.
  unfold within, report, full. destruct (Z.leb_spec maxIssues (Z.of_nat (length iss))); [done|].
  intros _. rewrite length_app. simpl. lia.
Qed.

(** Validation ends for every value and every schema, reference loops
    included, with at most [maxIssues] issues. *)
Theorem schema_issues_bounded regex maxIssues v schema (H : 0 <= maxIssues) :
  exists iss, validate_with regex maxIssues v schema = Some iss /\ Z.of_nat (length iss) <= maxIssues.
Proof.
  destruct (validate_with regex maxIssues v schema) as [iss|] eqn:Hv;
    [|by apply SchemaTotal.schema_validation_terminates in Hv].
  exists iss. split; [done|].
  apply (walk_respects regex maxIssues (within maxIssues) (report_within maxIssues)) in Hv. by apply Hv.
Qed.

(** ** An object without issues *)

Section Sound.
Context (regex : string -> option (string -> bool)) (maxIssues : Z).
Context (Hmax : 0 < maxIssues).

Notation grows := (respects prefix).

Lemma walk_grows root fuel v node path depth refChain : grows (walk regex maxIssues fuel root v node path depth refChain).
Proof. apply walk_respects; [apply _|apply report_grows]. Qed.

(** The first of two statements had no issues when both had none. *)
Lemma first_silent (f g : list string -> option (list string)) iss :
  grows g -> f iss ≫= g = Some [] -> f iss = Some [] /\ g [] = Some [].
Proof.
  intros Hg H. destruct (f iss) as [acc|] eqn:Hf; [|done]. simpl in H.
  pose proof (Hg _ _ H) as Hp. apply prefix_nil_inv in Hp as ->. done.
Qed.

Lemma report_speaks path m iss : report maxIssues path m iss <> [].
Proof using Hmax.
  unfold report, full. destruct (Z.leb_spec maxIssues (Z.of_nat (length iss))); [|by destruct iss].
  destruct iss; simpl in *; [lia|done].
Qed.

Lemma report_all_silent path ms iss : report_all maxIssues path ms iss = [] -> ms = [] /\ iss = [].
Proof using Hmax.
  destruct ms as [|m ms]; [done|]. intros H. exfalso. apply (report_speaks path m iss).
  apply prefix_nil_inv. rewrite <- H. 
  exact (report_all_respects maxIssues prefix (report_grows maxIssues) path ms (report maxIssues path m iss)).
Qed.

Lemma run_all_silent {A} (f : A -> list string -> option (list string)) l :
  (forall x, grows (f x)) -> run_all f l [] = Some [] -> Forall (fun x => f x [] = Some []) l.
Proof.
  intros Hf. induction l as [|x l IH]; [constructor|]. simpl. intros H.
  destruct (f x []) as [acc|] eqn:Hx; [|done].
  assert (acc = []) as ->.
  { apply prefix_nil_inv. eapply (run_all_respects prefix f l); [intros; apply Hf|exact H]. }
  constructor; auto.
Qed.

Lemma require_keys_silent fields path ks iss :
  require_keys maxIssues fields path ks iss = [] ->
  iss = [] /\ forall key, VStr key ∈ ks -> is_Some (obj_get fields key).
Proof using Hmax.
  revert iss. induction ks as [|k ks IH]; intros iss; [split; [done|]; by intros key Hk%elem_of_nil|].
  intros H. apply IH in H as [Hi Hks].
  assert (Hk : iss = [] /\ forall key, k = VStr key -> is_Some (obj_get fields key)).
  { destruct k; try (split; [exact Hi|by intros]). simpl in Hi.
    destruct (obj_get fields s) as [x|] eqn:Hx; simpl in Hi.
    - split; [done|]. intros key [= <-]. by eexists.
    - exfalso. by eapply report_speaks. }
  destruct Hk as [-> Hk]. split; [done|]. intros key [Heq|Hin]%elem_of_cons; auto.
Qed.

Section Node.
Context (rec : value -> value -> string -> Z -> Z -> list string -> option (list string)).
Context (Hrec : forall v node path depth refChain, grows (rec v node path depth refChain)).

(** A key that passed: its declared schema accepts it, and it is declared or
    matches a pattern when additional properties are refused. *)
Lemma property_step_silent s path depth key child :
  property_step regex maxIssues rec s path depth (key, child) [] = Some [] ->
  (forall sub, obj_get (node_obj (obj_get s "properties")) key = Some sub ->
     rec child sub (childPathKey path key) (depth + 1) 0 [] = Some []) /\
  (obj_get s "additionalProperties" = Some (VBool false) ->
     is_Some (obj_get (node_obj (obj_get s "properties")) key) \/
     exists pattern sub test, (pattern, sub) ∈ node_obj (obj_get s "patternProperties") /\
       compilePattern regex pattern = Some test /\ test key = true).
Proof using Hmax Hrec.
  unfold property_step. cbv zeta. destruct (obj_get (node_obj _) key) as [d|] eqn:Hd.
  - intros H%run_all_silent; [|intros sub; apply Hrec]. apply Forall_cons in H as [H _].
    split; [by intros sub [= <-]|]. intros _. left. done.
  - intros H. split; [done|]. intros Ha. right.
    destruct (filter_map _ _) as [|x l] eqn:Hm.
    + rewrite Ha in H. exfalso. simplify_eq. by eapply report_speaks.
    + assert (Hx : x ∈ x :: l) by left. rewrite <- Hm in Hx.
      apply elem_of_filter_map in Hx as ([p sub] & Hin & Hx). simpl in Hx.
      destruct (compilePattern regex p) as [test|] eqn:Hp; [|done].
      destruct (test key) eqn:Ht; [|done]. by exists p, sub, test.
Qed.

Lemma object_step_silent s fields path depth iss :
  object_step regex maxIssues rec s (VObj fields) path depth iss = Some [] ->
  (forall ks key, obj_get s "required" = Some (VArr ks) -> VStr key ∈ ks -> is_Some (obj_get fields key)) /\
  (forall field, field ∈ fields -> property_step regex maxIssues rec s path depth field [] = Some []).
Proof using Hmax Hrec.
  unfold object_step. cbv zeta. intros H.
  assert (Hp : forall f, grows (property_step regex maxIssues rec s path depth f))
    by (intros f; apply property_step_respects; [apply _|apply report_grows|apply Hrec]).
  match type of H with run_all _ _ ?acc = _ => assert (Hacc : acc = []) end.
  { apply prefix_nil_inv. eapply run_all_respects; [apply _|intros; apply Hp|exact H]. }
  rewrite Hacc in H. split; [|by apply Forall_forall, run_all_silent].
  intros ks key Hk Hin. rewrite Hk in Hacc. apply report_all_silent in Hacc as [_ Hacc].
  by eapply (require_keys_silent fields path ks iss).
Qed.

(** The branches of a combinator, and which of them accepted the value. *)
Lemma probes_accepting v path depth refChain subs branches :
  probes rec v path depth refChain subs = Some branches ->
  count is_nil branches = length (filter (fun sub => rec v sub path depth refChain [] = Some []) subs).
Proof.
  revert branches. induction subs as [|sub subs IH]; intros branches; simpl; [by intros [= <-]|].
  unfold probe. destruct (rec v sub path depth refChain []) as [found|] eqn:Hf; [|done].
  destruct (probes rec v path depth refChain subs) as [rest|] eqn:Hr; [|done]. intros [= <-].
  specialize (IH rest eq_refl). rewrite filter_cons, count_cons, Hf, IH.
  case_decide; destruct found; by simplify_eq/=.
Qed.

Lemma count_existsb {A} (p : A -> bool) l : existsb p l = true -> (0 < count p l)%nat.
Proof. induction l as [|x l IH]; simpl; [done|]. rewrite count_cons. destruct (p x); simpl; [lia|auto]. Qed.

(** The combinators, for the schemas that accept the value here. *)
Record combined (s : obj) (accepts : value -> Prop) `{!forall sub, Decision (accepts sub)} : Prop := {
  all_of : forall subs, node_list (obj_get s "allOf") = Some subs -> Forall accepts subs;
  any_of : forall subs, node_list (obj_get s "anyOf") = Some subs -> exists sub, sub ∈ subs /\ accepts sub;
  one_of : forall subs, node_list (obj_get s "oneOf") = Some subs -> exists sub, filter accepts subs = [sub];
  not_of : forall sub, obj_get s "not" = Some sub -> ~ accepts sub;
}.

Lemma combinator_parts s v path depth refChain :
  combinator_step maxIssues rec s v path depth refChain [] = Some [] ->
  allOf_step rec s v path depth refChain [] = Some [] /\
  anyOf_step maxIssues rec s v path depth refChain [] = Some [] /\
  oneOf_step maxIssues rec s v path depth refChain [] = Some [] /\
  not_step maxIssues rec s v path depth refChain [] = Some [].
Proof using Hrec.
  intros H.
  apply (first_silent (allOf_step rec s v path depth refChain)
    (fun iss1 => anyOf_step maxIssues rec s v path depth refChain iss1 ≫= fun iss2 =>
       oneOf_step maxIssues rec s v path depth refChain iss2 ≫= not_step maxIssues rec s v path depth refChain))
    in H as [Hall H].
  - apply (first_silent (anyOf_step maxIssues rec s v path depth refChain)
      (fun iss2 => oneOf_step maxIssues rec s v path depth refChain iss2
         ≫= not_step maxIssues rec s v path depth refChain)) in H as [Hany H].
    + by apply first_silent in H as [Hone H];
        [|apply not_respects; [apply _|apply report_grows]].
    + apply respects_bind; [apply _|apply oneOf_respects|apply not_respects]; first [apply _|apply report_grows].
  - repeat (apply respects_bind; [apply _|first [apply anyOf_respects|apply oneOf_respects];
      first [apply _|apply report_grows]|]).
    apply not_respects; [apply _|apply report_grows].
Qed.

Lemma combinator_step_silent s v path depth refChain :
  combinator_step maxIssues rec s v path depth refChain [] = Some [] ->
  combined s (fun sub => rec v sub path depth refChain [] = Some []).
Proof using Hmax Hrec.
  intros H.
  set (accepts := fun sub => rec v sub path depth refChain [] = Some []).
  apply combinator_parts in H as (Hall & Hany & Hone & H).
  - split.
    + intros subs Hs. unfold allOf_step in Hall. rewrite Hs in Hall. by apply run_all_silent in Hall; [|intros; apply Hrec].
    + intros subs Hs. unfold anyOf_step in Hany. rewrite Hs in Hany.
      destruct (probes rec v path depth refChain subs) as [branches|] eqn:Hb; [|done]. simpl in Hany.
      destruct (existsb is_nil branches) eqn:He; [|exfalso; simplify_eq; by eapply report_speaks].
      apply count_existsb in He. rewrite (probes_accepting _ _ _ _ _ _ Hb) in He.
      destruct (filter accepts subs) as [|sub l] eqn:Hf; [by unfold accepts in Hf; rewrite Hf in He; simpl in He; lia|].
      exists sub. assert (Hin : sub ∈ filter accepts subs) by (rewrite Hf; left).
      by apply list_elem_of_filter in Hin as [? ?].
    + intros subs Hs. unfold oneOf_step in Hone. rewrite Hs in Hone.
      destruct (probes rec v path depth refChain subs) as [branches|] eqn:Hb; [|done]. simpl in Hone.
      destruct (Nat.eqb_spec (count is_nil branches) 1) as [He|He]; [|exfalso; simplify_eq; by eapply report_speaks].
      rewrite (probes_accepting _ _ _ _ _ _ Hb) in He. fold accepts in He.
      destruct (filter accepts subs) as [|sub [|]] eqn:Hf; simpl in He; try lia. by exists sub.
    + intros sub Hs Hacc. unfold not_step in H. rewrite Hs in H. unfold probe in H. rewrite Hacc in H. simpl in H.
      simplify_eq. by eapply report_speaks.
Qed.

(** What silent keywords say of an object. *)
Record object_accepted (fields s : obj) (path : string) (depth refChain : Z) : Prop := {
  oa_type : forall t, obj_get s "type" = Some t -> "object"%string ∈ types_of t;
  oa_enum : forall opts, obj_get s "enum" = Some (VArr opts) -> exists o, o ∈ opts /\ deepEqual o (VObj fields) = true;
  oa_const : forall c, obj_get s "const" = Some c -> deepEqual c (VObj fields) = true;
  oa_required : forall ks key, obj_get s "required" = Some (VArr ks) -> VStr key ∈ ks -> is_Some (obj_get fields key);
  oa_properties : forall key child sub, (key, child) ∈ fields ->
    obj_get (node_obj (obj_get s "properties")) key = Some sub ->
    rec child sub (childPathKey path key) (depth + 1) 0 [] = Some [];
  oa_additional : forall key child, (key, child) ∈ fields ->
    obj_get s "additionalProperties" = Some (VBool false) ->
    is_Some (obj_get (node_obj (obj_get s "properties")) key) \/
    exists pattern sub test, (pattern, sub) ∈ node_obj (obj_get s "patternProperties") /\
      compilePattern regex pattern = Some test /\ test key = true;
  oa_combined : combined s (fun sub => rec (VObj fields) sub path depth refChain [] = Some []);
}.

Lemma enum_silent s v : enum_issues s v = [] ->
  (forall opts, obj_get s "enum" = Some (VArr opts) -> exists o, o ∈ opts /\ deepEqual o v = true) /\
  (forall c, obj_get s "const" = Some c -> deepEqual c v = true).
Proof.
  unfold enum_issues. intros [He Hc]%app_eq_nil. split.
  - intros opts Ho. rewrite Ho in He. destruct (existsb _ opts) eqn:Hx; [|done].
    apply existsb_exists in Hx as (o & Hin & Heq). exists o. by rewrite list_elem_of_In.
  - intros c Hs. rewrite Hs in Hc. by destruct (deepEqual c v).
Qed.

Lemma keyword_steps_silent s fields path depth refChain :
  keyword_steps regex maxIssues rec s (VObj fields) path depth refChain [] = Some [] ->
  object_accepted fields s path depth refChain.
Proof using Hmax Hrec.
  unfold keyword_steps. cbv zeta. intros H.
  match type of H with match ?o with _ => _ end = _ => destruct o eqn:Ht end;
    [exfalso; simplify_eq; by eapply report_speaks|].
  set (msgs := _ ++ _) in H. simpl array_step in H. simpl mbind in H.
  apply (first_silent (fun acc => object_step regex maxIssues rec s (VObj fields) path depth acc)
    (fun iss3 => combinator_step maxIssues rec s (VObj fields) path depth refChain iss3)) in H as [Ho Hc];
    [|apply combinator_step_respects; first [apply _|apply report_grows|apply Hrec]].
  assert (Hm : report_all maxIssues path msgs [] = []).
  { apply prefix_nil_inv. eapply object_step_respects; [apply _|apply report_grows|apply Hrec|exact Ho]. }
  apply report_all_silent in Hm as [[He _]%app_eq_nil _]. apply enum_silent in He as [He Hco].
  apply object_step_silent in Ho as [Hr Hp].
  split; try done.
  - intros t Hty. rewrite Hty in Ht. destruct (existsb _ _) eqn:Hx; [|done].
    apply existsb_exists in Hx as (ty & Hin & Heq). unfold matchesType in Heq. simpl in Heq.
    apply list_elem_of_In. by repeat case_bool_decide; simplify_eq/=.
  - intros key child sub Hin. by apply (property_step_silent s path depth key child), Hp.
  - intros key child Hin. by apply (property_step_silent s path depth key child), Hp.
  - by apply combinator_step_silent.
Qed.
End Node.

(** A schema accepts a value at a place: its walk reports nothing. *)
Definition passes (schema : obj) : value -> value -> string -> Z -> Z -> list string -> option (list string) :=
  walk regex maxIssues (pred (walk_fuel schema)) (VObj schema).

(** An object that passes validation conforms to the schema: it has the type,
    the required keys and the enumerated values the schema asks for, every
    declared property passes its own schema, refused additional properties are
    absent, the combinators hold of the object, and so does the schema a
    reference at the root names. *)
Theorem valid_object_conforms fields schema
    (H : valid (validateJsonSchema regex maxIssues (VObj fields) schema) = true) :
  object_accepted (passes schema) fields schema "$" 0 0 /\
  forall ref, obj_get schema "$ref" = Some (VStr ref) ->
    exists target, resolveRef (VObj schema) ref = Some target /\
      passes schema (VObj fields) target "$" 0 1 [] = Some [].
Proof using Hmax.
  unfold validateJsonSchema in H. cbv zeta in H. simpl valid in H.
  destruct (validate_with _ _ _ _) as [iss|] eqn:Hv; [|done]. destruct iss; [clear H|done].
  unfold validate_with in Hv. replace (walk_fuel schema) with (S (pred (walk_fuel schema))) in Hv
    by (unfold walk_fuel; lia).
  change (walk_node regex maxIssues (VObj schema) (passes schema) (VObj fields) (VObj schema) "$" 0 0 []
          = Some []) in Hv.
  assert (Hrec : forall v node path depth refChain, grows (passes schema v node path depth refChain))
    by (intros; apply walk_grows).
  unfold walk_node, full in Hv. simpl length in Hv. destruct (Z.leb_spec maxIssues (Z.of_nat 0)); [lia|].
  change (MAX_VALUE_DEPTH <? 0) with false in Hv. cbv iota in Hv. simpl node_fields in Hv.
  destruct (obj_get schema "$ref") as [[]|] eqn:Href;
    try (split; [by apply keyword_steps_silent|by intros ref [=]]).
  destruct (resolveRef (VObj schema) s) as [target|] eqn:Ht; [|exfalso; simplify_eq; by eapply report_speaks].
  change (MAX_REF_CHAIN <=? 0) with false in Hv. cbv iota in Hv.
  apply (first_silent (passes schema (VObj fields) target "$" 0 1)
    (fun iss1 => keyword_steps regex maxIssues (passes schema) schema (VObj fields) "$" 0 0 iss1)) in Hv as [Hp Hk];
    [|apply keyword_steps_respects; first [apply _|apply report_grows|apply Hrec]].
  split; [by apply keyword_steps_silent|]. intros ref [= <-]. by exists target.
Qed.
End Sound.

(** ** Concrete validations *)

Definition no_pattern (p : string) : option (string -> bool) := None.
Definition loop_schema : obj := [("allOf", VArr [VObj [("$ref", VStr "#")]])]%string.

Definition city_schema : obj :=
  [("type", VStr "object"); ("required", VArr [VStr "city"]);
   ("properties", VObj [("city", VObj [("type", VStr "string")])]);
   ("additionalProperties", VBool false)]%string.

Lemma valid_object_conforms_witness :
  valid (validateJsonSchema no_pattern 20 (VObj [("city", VStr "Oslo")]) city_schema) = true /\
  object_accepted no_pattern (passes no_pattern 20 city_schema) [("city", VStr "Oslo")] city_schema "$" 0 0.
Proof.
  split; [by vm_compute|].
  apply (valid_object_conforms no_pattern 20 ltac:(lia) [("city", VStr "Oslo")] city_schema). by vm_compute.
Defined.

Example city_missing :
  issues (validateJsonSchema no_pattern 20 (VObj [("town", VStr "Oslo")]) city_schema) =
  ["$.city: is required"; "$.town: is not an allowed property"]%string.
Proof. by vm_compute. Qed.

Lemma schema_issues_bounded_witness :
  0 <= 20 /\ exists iss, validate_with no_pattern 20 (VStr "x") loop_schema = Some iss /\
    Z.of_nat (length iss) <= 20.
Proof. split; [lia|]. apply (schema_issues_bounded no_pattern 20 (VStr "x") loop_schema). lia. Defined.

(** A reference that loops is reported, once per way back to it. *)
Example loop_reported :
  issues (validateJsonSchema no_pattern 1 (VStr "x") loop_schema) =
  ["$: $ref " +:+ in_quotes "#" +:+ " loops without matching any value"]%string.
Proof. by vm_compute. Qed.

End SchemaSound.
