(* ===== verification/HashChain.v ===== *)
(** * The hash-chained audit sink (packages/core/src/audit/hash-chain-audit.sink.ts)

    The canonical serialization of audit events, the chaining sink and the
    verifier of a stored chain.  The hash function is a parameter: [H algorithm
    text] is the hexadecimal digest of [text]; a destination is an arbitrary
    function of the world.  Events are the values the audit trail prepares. *)

From Stdlib Require Import Ascii String Sorting.Permutation.
From S2P Require Export Types.

#[local] Open Scope string_scope.
#[local] Open Scope list_scope.
#[local] Open Scope Z_scope.

Module Canonical.

(** ** Sorting

    [Array.prototype.sort] is stable; on UTF-8 text the order of bytes is the
    order of code points, which is that of code units outside surrogates. *)

Definition str_le (a b : string) : bool := String.leb a b.

Fixpoint insert {A} (key : A -> string) (x : A) (l : list A) : list A :=
  match l with
  | [] => [x]
  | y :: l' => if str_le (key x) (key y) then x :: l else y :: insert key x l'
  end.

Definition sort_by {A} (key : A -> string) (l : list A) : list A := fold_right (insert key) [] l.

(** ** [canonicalize] *)

Definition is_undefined (v : value) : bool := match v with VUndef => true | _ => false end.

Fixpoint canonicalize (v : value) : string :=
  match v with
  | VNull | VUndef | VFun => "null"
  | VStr s => json_quote s
  | VNum n => if is_finite n then num_to_string n else "null"
  | VBool b => if b then "true" else "false"
  | VDate None => "null"
  | VDate (Some t) => json_quote (iso_string t)
  | VArr l => "[" +:+ join "," (map canonicalize l) +:+ "]"
  | VMap es =>
      "{" +:+ join "," (map (fun p => p.1 +:+ ":" +:+ p.2)
                            (sort_by fst (map (fun e => match e with
                                                        | (k, x) => (canonicalize k, canonicalize x)
                                                        end) es))) +:+ "}"
  | VSet l => "[" +:+ join "," (sort_by id (map canonicalize l)) +:+ "]"
  | VObj fs =>
      let entries := filter_map (fun f => match f with
                                          | (k, x) => if is_undefined x then None
                                                      else Some (k, canonicalize x)
                                          end) fs in
      "{" +:+ join "," (map (fun p => json_quote p.1 +:+ ":" +:+ p.2) (sort_by fst entries)) +:+ "}"
  end.

(** The fields of an object that carry content. *)
Definition content (fs : obj) : obj := List.filter (fun f => negb (is_undefined f.2)) fs.

(** *** Sorting by distinct keys forgets the order of insertion *)

Lemma str_le_total a b : str_le a b = true \/ str_le b a = true.
Proof.
  unfold str_le. destruct (String.leb_total a b); auto.
Qed.

Lemma ascii_cmp_lt a b : Ascii.compare a b = Lt <-> (N_of_ascii a < N_of_ascii b)%N.
Proof. apply N.compare_lt_iff. Qed.

Lemma ascii_cmp_eq a b : Ascii.compare a b = Eq -> a = b.
Proof. apply Ascii.compare_eq_iff. Qed.

Lemma ascii_cmp_refl a : Ascii.compare a a = Eq.
Proof. apply N.compare_refl. Qed.

Lemma str_cmp_trans a b c :
  String.compare a b <> Gt -> String.compare b c <> Gt -> String.compare a c <> Gt.
Proof.
  revert b c. induction a as [|x a IH]; intros [|y b] [|z c]; simpl; try done.
  destruct (Ascii.compare x y) eqn:Hxy; [|..|done].
  - apply ascii_cmp_eq in Hxy as ->. destruct (Ascii.compare y z); naive_solver.
  - destruct (Ascii.compare y z) eqn:Hyz; [..|done]; intros _ _.
    + apply ascii_cmp_eq in Hyz as ->. by rewrite Hxy.
    + apply ascii_cmp_lt in Hxy, Hyz. 
      assert (Ascii.compare x z = Lt) as -> by (apply ascii_cmp_lt; etransitivity; eassumption). done.
Qed.

Lemma str_le_cmp a b : str_le a b = true <-> String.compare a b <> Gt.
Proof. unfold str_le, String.leb. destruct (String.compare a b); naive_solver. Qed.

Lemma str_le_trans a b c : str_le a b = true -> str_le b c = true -> str_le a c = true.
Proof. rewrite !str_le_cmp. apply str_cmp_trans. Qed.

Lemma str_le_antisym a b : str_le a b = true -> str_le b a = true -> a = b.
Proof.
  unfold str_le. intros H1 H2. by apply String.leb_antisym.
Qed.

Lemma insert_swap {A} (key : A -> string) x y l :
  key x <> key y -> insert key x (insert key y l) = insert key y (insert key x l).
Proof.
  intros Hne. induction l as [|z l IH]; simpl.
  - destruct (str_le (key x) (key y)) eqn:H1, (str_le (key y) (key x)) eqn:H2; try done.
    + by pose proof (str_le_antisym _ _ H1 H2).
    + by destruct (str_le_total (key x) (key y)); congruence.
  - destruct (str_le (key y) (key z)) eqn:Hy, (str_le (key x) (key z)) eqn:Hx; simpl;
      rewrite ?Hx, ?Hy; try (by rewrite IH).
    + destruct (str_le (key x) (key y)) eqn:H1, (str_le (key y) (key x)) eqn:H2; try done.
      * by pose proof (str_le_antisym _ _ H1 H2).
      * by destruct (str_le_total (key x) (key y)); congruence.
    + destruct (str_le (key x) (key y)) eqn:H1; [|done].
      by rewrite (str_le_trans _ _ _ H1 Hy) in Hx.
    + destruct (str_le (key y) (key x)) eqn:H1; [|done].
      by rewrite (str_le_trans _ _ _ H1 Hx) in Hy.
Qed.

Lemma sort_by_perm {A} (key : A -> string) l1 l2 :
  l1 ≡ₚ l2 -> NoDup (map key l1) -> sort_by key l1 = sort_by key l2.
Proof.
  induction 1 as [|x l1 l2 _ IH|x y l|l1 l2 l3 H1 IH1 H2 IH2]; simpl; [done|..].
  - intros [_ Hnd]%NoDup_cons. by rewrite IH.
  - intros Hnd. apply insert_swap. apply NoDup_cons in Hnd as [Hin _]. set_solver.
  - intros Hnd. rewrite IH1 by done. apply IH2. by rewrite <- H1.
Qed.

Definition canonical_entry (f : string * value) : option (string * string) :=
  if is_undefined f.2 then None else Some (f.1, canonicalize f.2).

Lemma canonicalize_obj fs :
  canonicalize (VObj fs) =
  "{" +:+ join "," (map (fun p => json_quote p.1 +:+ ":" +:+ p.2)
                        (sort_by fst (map (fun f => (f.1, canonicalize f.2)) (content fs)))) +:+ "}".
Proof.
  simpl. do 4 f_equal. induction fs as [|[k x] fs IH]; simpl; [done|].
  unfold content in *; simpl. destruct (is_undefined x); simpl; by rewrite IH.
Qed.

(** Two objects with the same content have the same canonical form: the
    order in which fields were inserted and fields holding [undefined] do not
    matter, so they never change the hash of an audit entry. *)
Theorem canonicalize_content (fs1 fs2 : obj) :
  NoDup (obj_keys (content fs1)) -> content fs1 ≡ₚ content fs2 ->
  canonicalize (VObj fs1) = canonicalize (VObj fs2).
Proof.
  intros Hnd Hp. rewrite !canonicalize_obj. do 4 f_equal. apply sort_by_perm.
  - by rewrite Hp.
  - rewrite map_map. done.
Qed.

Lemma canonicalize_content_witness :
  canonicalize (VObj [("type", VStr "x"); ("actor", VBool true); ("note", VUndef)]) =
  canonicalize (VObj [("actor", VBool true); ("type", VStr "x")]).
Proof.
  apply canonicalize_content; [|simpl; apply perm_swap].
  apply (bool_decide_unpack _). vm_compute. exact I.
Defined.

End Canonical.

Module Chain.

Record ChainedAuditEntry : Type := {
  entry_sequence : Z;
  entry_event : value;
  entry_previousHash : string;
  entry_hash : string;
}.

Definition AUDIT_CHAIN_GENESIS_HASH : string := of_chars (repeat "0"%char 64).

Record HashChainAuditSinkOptions : Type := {
  opt_previousHash : option string;
  opt_startSequence : option num;
  opt_algorithm : option string;
}.

Record HashChainAuditSink : Type := { algorithm : string; previousHash : string; sequence : Z }.

(** The constructor; a number that is not a non-negative integer is a [TypeError]. *)
Definition mk_sink (options : HashChainAuditSinkOptions) : error + HashChainAuditSink :=
  let start := coalesce (opt_startSequence options) (num_of_Z 0) in
  let mk z := inr {| algorithm := coalesce (opt_algorithm options) "sha256";
                     previousHash := coalesce (opt_previousHash options) AUDIT_CHAIN_GENESIS_HASH;
                     sequence := z |} in
  let bad := inl (NativeErr "TypeError"
                    ("HashChainAuditSink: startSequence must be a non-negative integer, received " +:+
                     num_to_string start +:+ ".")) in
  match start with
  | NDec m e => if (0 <=? e) && (0 <=? m) then mk (m * 10 ^ e) else bad
  | _ => bad
  end.

(** A write handed to the destination, and a link the sink advanced over. *)
Inductive chain_event : Type :=
| Forwarded (e : ChainedAuditEntry)
| Advanced (e : ChainedAuditEntry).

Record AuditChainVerification : Type := {
  ver_valid : bool;
  ver_brokenAt : option Z;
  ver_reason : option string;
  ver_verified : Z;
}.

Section Chain.
Context (H : string -> string -> string).

(** [createHash(algorithm).update(..).digest('hex')]: a digest of the pieces in
    sequence is the digest of their concatenation. *)
Definition computeEntryHash (prev : string) (event : value) (alg : string) : string :=
  H alg (prev +:+ String "000"%char EmptyString +:+ Canonical.canonicalize event).

(** *** The sink *)

Section Sink.
Context {W : Type} (destination : ChainedAuditEntry -> W -> outcome error unit * W).

Local Open Scope eff_scope.

(** The body of the serialized task of one [record] call. *)
Definition record (event : value) : M error chain_event (HashChainAuditSink * W) unit :=
  s <- ask fst ;;
  let seq := sequence s + 1 in
  let hash := computeEntryHash (previousHash s) event (algorithm s) in
  let e := {| entry_sequence := seq; entry_event := event;
              entry_previousHash := previousHash s; entry_hash := hash |} in
  emit (Forwarded e) ;;
  lift (fun w => let '(o, d) := destination e w.2 in (o, (w.1, d))) ;;
  emit (Advanced e) ;;
  modify (fun w => ({| algorithm := algorithm s; previousHash := hash; sequence := seq |}, w.2)).

(** Calls run one after the other in arrival order; a failed one does not stop
    the next ([this.tail = chained.catch(() => undefined)]). *)
Fixpoint record_all (events : list value) : M error chain_event (HashChainAuditSink * W) unit :=
  match events with
  | [] => ret tt
  | ev :: rest => catch (record ev) (fun _ => ret tt) ;; record_all rest
  end.
End Sink.

(** [InMemoryChainedAuditSink] *)
Definition in_memory_record (e : ChainedAuditEntry) (entries : list ChainedAuditEntry)
    : outcome error unit * list ChainedAuditEntry := (Ret tt, entries ++ [e]).

(** *** The verifier *)

Definition broken (e : ChainedAuditEntry) (reason : string) (verified : Z) : AuditChainVerification :=
  {| ver_valid := false; ver_brokenAt := Some (entry_sequence e); ver_reason := Some reason;
     ver_verified := verified |}.

Fixpoint verify_loop (alg prev : string) (seq verified : Z) (es : list ChainedAuditEntry)
    : AuditChainVerification :=
  match es with
  | [] => {| ver_valid := true; ver_brokenAt := None; ver_reason := None; ver_verified := verified |}
  | e :: rest =>
      if negb (entry_sequence e =? seq) then
        broken e ("sequence gap: expected " +:+ Z_to_string seq +:+ ", found " +:+
                  Z_to_string (entry_sequence e) +:+ " (an entry was deleted or reordered)") verified
      else if negb (bool_decide (entry_previousHash e = prev)) then
        broken e "previousHash does not match the preceding entry (the chain was re-linked)" verified
      else if negb (bool_decide (computeEntryHash (entry_previousHash e) (entry_event e) alg = entry_hash e))
      then broken e "hash does not match the recorded event (the entry was altered)" verified
      else verify_loop alg (entry_hash e) (seq + 1) (verified + 1) rest
  end.

Definition verifyAuditChain (es : list ChainedAuditEntry) (prev : option string)
    (startSequence : option Z) (alg : option string) : AuditChainVerification :=
  verify_loop (coalesce alg "sha256") (coalesce prev AUDIT_CHAIN_GENESIS_HASH)
    (coalesce startSequence 0 + 1) 0 es.

(** *** The specification: a chain is a path of links *)

Inductive linked (alg : string) : string -> Z -> list ChainedAuditEntry -> string -> Z -> Prop :=
| linked_nil prev seq : linked alg prev seq [] prev seq
| linked_cons prev seq e es last n :
    entry_sequence e = seq + 1 -> entry_previousHash e = prev ->
    entry_hash e = computeEntryHash prev (entry_event e) alg ->
    linked alg (entry_hash e) (seq + 1) es last n ->
    linked alg prev seq (e :: es) last n.

Lemma linked_app alg prev seq es1 mid k es2 last n :
  linked alg prev seq es1 mid k -> linked alg mid k es2 last n ->
  linked alg prev seq (es1 ++ es2) last n.
Proof. induction 1; simpl; [done|]. intros. by constructor; auto. Qed.

Lemma verify_loop_spec alg prev seq es n :
  ver_valid (verify_loop alg prev (seq + 1) n es) = true <->
  exists last k, linked alg prev seq es last k.
Proof.
  revert prev seq n. induction es as [|e es IH]; intros prev seq n; simpl.
  { split; [|done]. intros _. exists prev, seq. constructor. }
  destruct (Z.eqb_spec (entry_sequence e) (seq + 1)); simpl; cycle 1.
  { split; [done|]. intros (? & ? & Hl). by inversion Hl. }
  case_bool_decide; simpl; cycle 1.
  { split; [done|]. intros (? & ? & Hl). by inversion Hl. }
  case_bool_decide; simpl; cycle 1.
  { split; [done|]. intros (? & ? & Hl). inversion Hl. congruence. }
  rewrite IH. split; intros (last & k & Hl); exists last, k.
  - constructor; congruence.
  - by inversion Hl.
Qed.

Lemma verify_loop_count alg prev seq es n :
  ver_valid (verify_loop alg prev seq n es) = true ->
  ver_verified (verify_loop alg prev seq n es) = n + Z.of_nat (length es).
Proof.
  revert prev seq n. induction es as [|e es IH]; intros prev seq n; simpl; [lia|].
  repeat case_match; simpl; try done. intros Hv. rewrite IH by done. lia.
Qed.

(** The verifier accepts exactly the lists that are a chain of links from the
    expected starting hash and sequence number, and then counts every entry. *)
Theorem verifyAuditChain_iff (es : list ChainedAuditEntry) prev start alg :
  (ver_valid (verifyAuditChain es prev start alg) = true <->
   exists last n, linked (coalesce alg "sha256") (coalesce prev AUDIT_CHAIN_GENESIS_HASH)
                    (coalesce start 0) es last n) /\
  (ver_valid (verifyAuditChain es prev start alg) = true ->
   ver_verified (verifyAuditChain es prev start alg) = Z.of_nat (length es)).
Proof.
  split; [apply verify_loop_spec|]. intros Hv%verify_loop_count. done.
Qed.

(** *** What the sink writes is a chain *)

Definition advanced (l : list chain_event) : list ChainedAuditEntry :=
  filter_map (fun x => match x with Advanced e => Some e | Forwarded _ => None end) l.

Lemma advanced_app l1 l2 : advanced (l1 ++ l2) = advanced l1 ++ advanced l2.
Proof. apply filter_map_app. Qed.

(** Chain progress of one run from sink state [s]. *)
Definition progress (s s' : HashChainAuditSink) (l : list chain_event) : Prop :=
  algorithm s' = algorithm s /\
  linked (algorithm s) (previousHash s) (sequence s) (advanced l) (previousHash s') (sequence s').

Lemma progress_app s s1 s2 l1 l2 : progress s s1 l1 -> progress s1 s2 l2 -> progress s s2 (l1 ++ l2).
Proof.
  intros [Ha H1] [Hb H2]. split; [congruence|]. rewrite advanced_app. rewrite Ha in H2.
  by eapply linked_app.
Qed.

Lemma record_progress {W} (dest : ChainedAuditEntry -> W -> outcome error unit * W) ev s d :
  wp (record dest ev) (s, d) (fun o w' l =>
    progress s w'.1 l /\ match o with Ret _ => True | _ => w'.1 = s /\ advanced l = [] end).
Proof.
  unfold record. wp_steps. simpl in Hext. destruct (dest _ d) as [o1 d1]. injection Hext as <- <-.
  destruct o1; simpl; unfold wp, progress, advanced; simpl.
  - split; [|done]. split; [done|]. by repeat (constructor; simpl).
  - split; [|done]. split; [done|]. constructor.
  - split; [|done]. split; [done|]. constructor.
Qed.

Lemma record_all_progress {W} (dest : ChainedAuditEntry -> W -> outcome error unit * W) evs s d :
  wp (record_all dest evs) (s, d) (fun _ w' l => progress s w'.1 l).
Proof.
  revert s d. induction evs as [|ev evs IH]; intros s d; simpl.
  { wp_step. split; [done|constructor]. }
  wp_step. wp_step. eapply wp_mono; [apply record_progress|].
  intros [a|e|] [s1 d1] l [Hp Ho]; simpl in *.
  - eapply wp_mono; [apply IH|]. intros. by eapply progress_app.
  - wp_step. rewrite app_nil_r. eapply wp_mono; [apply IH|]. intros. by eapply progress_app.
  - done.
Qed.

(** Whatever fails at the destination and in whatever order records arrive,
    the entries the sink advanced over verify as one chain from its starting
    state, and the head it keeps is that chain's end, ready to resume from. *)
Theorem record_all_verifies {W} (dest : ChainedAuditEntry -> W -> outcome error unit * W)
    (evs : list value) (s : HashChainAuditSink) (d : W) :
  wp (record_all dest evs) (s, d) (fun _ w' l =>
    ver_valid (verifyAuditChain (advanced l) (Some (previousHash s)) (Some (sequence s))
                 (Some (algorithm s))) = true /\
    linked (algorithm s) (previousHash s) (sequence s) (advanced l)
      (previousHash w'.1) (sequence w'.1)).
Proof.
  eapply wp_mono; [apply record_all_progress|]. intros _ [s' d'] l [_ Hl].
  split; [|done]. apply verify_loop_spec. eauto.
Qed.

(** *** Tamper evidence *)

Lemma cancel_nul (p1 p2 c1 c2 : list ascii) :
  "000"%char ∉ p1 -> "000"%char ∉ p2 ->
  p1 ++ "000"%char :: c1 = p2 ++ "000"%char :: c2 -> p1 = p2 /\ c1 = c2.
Proof.
  revert p2. induction p1 as [|x p1 IH]; intros [|y p2]; simpl; intros H1 H2 Heq; simplify_eq.
  - done.
  - exfalso. apply H2. by constructor.
  - exfalso. apply H1. by constructor.
  - destruct (IH p2) as [-> ->]; [..|done|done].
    + intros Hin. apply H1. by constructor.
    + intros Hin. apply H2. by constructor.
Qed.

(** The hash of an entry determines what it commits to, when digests do not
    collide and contain no NUL. *)
Definition nul_free (s : string) : Prop := "000"%char ∉ chars s.
Definition collision_free (alg : string) : Prop := forall a b, H alg a = H alg b -> a = b.

Lemma computeEntryHash_inj alg p1 e1 p2 e2 :
  collision_free alg -> nul_free p1 -> nul_free p2 ->
  computeEntryHash p1 e1 alg = computeEntryHash p2 e2 alg ->
  p1 = p2 /\ Canonical.canonicalize e1 = Canonical.canonicalize e2.
Proof.
  intros Hc H1 H2 Heq%Hc. apply (f_equal (fun s => chars s)) in Heq.
  rewrite !chars_app in Heq. simpl in Heq.
  destruct (cancel_nul _ _ _ _ H1 H2 Heq) as [Hp He]. by split; apply chars_inj.
Qed.

Lemma linked_nul_free alg prev seq es last n :
  (forall a, nul_free (H alg a)) -> nul_free prev -> linked alg prev seq es last n -> nul_free last.
Proof.
  intros Hh Hp Hl. induction Hl as [|? ? e ? ? ? _ _ He _ IH]; [done|].
  apply IH. rewrite He. apply Hh.
Qed.

Lemma linked_snoc_inv alg prev seq es e last n :
  linked alg prev seq (es ++ [e]) last n ->
  exists mid, linked alg prev seq es mid (n - 1) /\ last = computeEntryHash mid (entry_event e) alg /\
    entry_hash e = last /\ entry_previousHash e = mid /\ entry_sequence e = n.
Proof.
  revert prev seq. induction es as [|x es IH]; intros prev seq; simpl; intros Hl.
  - inversion Hl as [|? ? ? ? ? ? Hs Hp Hh Hr]; subst. inversion Hr; subst.
    exists (entry_previousHash e). split_and!; try done. replace (seq + 1 - 1) with seq by lia. constructor.
  - inversion Hl as [|? ? ? ? ? ? Hs Hp Hh Hr]; subst.
    destruct (IH _ _ Hr) as (mid & Hm & Hlast & ?). exists mid. split; [by constructor|done].
Qed.

(** An anchored head pins down the whole history: two chains of equal length
    from the same start that verify up to the same head hash record, entry by
    entry, events with the same canonical form and the same hashes.  Altering,
    inserting or reordering any earlier entry changes the head. *)
Theorem anchored_head_determines_chain alg start es1 es2 last n1 n2 :
  collision_free alg -> (forall a, nul_free (H alg a)) -> nul_free start ->
  length es1 = length es2 ->
  linked alg start 0 es1 last n1 -> linked alg start 0 es2 last n2 ->
  map (fun e => Canonical.canonicalize (entry_event e)) es1 =
  map (fun e => Canonical.canonicalize (entry_event e)) es2 /\ map entry_hash es1 = map entry_hash es2.
Proof.
  intros Hc Hh Hs. revert es2 last n1 n2.
  induction es1 as [|e1 es1 IH] using rev_ind; intros es2 last n1 n2 Hlen H1 H2.
  { destruct es2; [done|]. rewrite length_nil in Hlen. done. }
  destruct es2 as [|e2 es2' _] using rev_ind.
  { rewrite length_app in Hlen. simpl in Hlen. lia. }
  rewrite !length_app in Hlen. simpl in Hlen.
  apply linked_snoc_inv in H1 as (m1 & L1 & E1 & Eh1 & _), H2 as (m2 & L2 & E2 & Eh2 & _).
  rewrite E1 in E2.
  apply computeEntryHash_inj in E2 as [<- Hev]; [|done|by eapply linked_nul_free..].
  destruct (IH es2' m1 _ _ ltac:(lia) L1 L2) as [Hmap Hmap2].
  rewrite !map_app, Hmap, Hmap2. simpl. split; congruence.
Qed.
Lemma linked_take alg prev seq es last n k :
  linked alg prev seq es last n -> exists last' n', linked alg prev seq (take k es) last' n'.
Proof.
  intros Hl. revert k. induction Hl as [prev seq|prev seq e es last n Hs Hp Hh _ IH]; intros [|k]; simpl.
  1-3: by eexists _, _; constructor.
  destruct (IH k) as (l' & n' & Hl'). exists l', n'. by constructor.
Qed.

(** Deleting entries from the end of a chain goes unnoticed: every prefix of
    a chain that verifies verifies too.  Only an anchored head (the previous
    theorem) or the expected length exposes the deletion. *)
Theorem truncated_chain_verifies (es : list ChainedAuditEntry) prev start alg (k : nat) :
  ver_valid (verifyAuditChain es prev start alg) = true ->
  ver_valid (verifyAuditChain (take k es) prev start alg) = true.
Proof.
  intros Hv. apply verify_loop_spec in Hv as (last & n & Hl).
  apply verify_loop_spec. eapply linked_take, Hl.
Qed.
End Chain.

(** A digest without collisions and without NUL bytes, for the witnesses: every
    byte written as two hexadecimal digits. *)
Definition hex_pair (c : ascii) : list ascii :=
  [hex_digit (nat_of_ascii c / 16); hex_digit (nat_of_ascii c mod 16)].
Definition hex_encode (alg s : string) : string := of_chars (concat (map hex_pair (chars s))).

Definition unhex_pair (a b : ascii) : option Z :=
  x ← radix_digit 16 a; y ← radix_digit 16 b; Some (x * 16 + y).

Lemma unhex_hex c : exists a b, hex_pair c = [a; b] /\ unhex_pair a b = Some (Z.of_nat (nat_of_ascii c)) /\
  a <> "000"%char /\ b <> "000"%char.
Proof. eexists _, _. split; [done|]. by destruct c as [[] [] [] [] [] [] [] []]. Qed.

Lemma hex_pairs_inj l1 l2 : concat (map hex_pair l1) = concat (map hex_pair l2) -> l1 = l2.
Proof.
  revert l2. induction l1 as [|c1 l1 IH]; intros [|c2 l2]; try done.
  cbn [map concat].
  destruct (unhex_hex c1) as (a & b & -> & Hc & _), (unhex_hex c2) as (a' & b' & -> & Hc' & _).
  cbn [app]. intros [= -> -> Heq]. rewrite Hc in Hc'. injection Hc' as Hn%Nat2Z.inj.
  f_equal; [|by apply IH].
  rewrite <- (ascii_nat_embedding c1), <- (ascii_nat_embedding c2). by rewrite Hn.
Qed.

Lemma hex_encode_collision_free alg : collision_free hex_encode alg.
Proof.
  intros a b Heq%(f_equal (fun s => chars s)). unfold hex_encode in Heq.
  rewrite !list_ascii_of_string_of_list_ascii in Heq. by apply chars_inj, hex_pairs_inj.
Qed.

Lemma hex_encode_nul_free alg s : nul_free (hex_encode alg s).
Proof.
  unfold nul_free, hex_encode. rewrite list_ascii_of_string_of_list_ascii.
  induction (chars s) as [|c l IH]; cbn [map concat]; [by intros H%elem_of_nil|].
  destruct (unhex_hex c) as (a & b & -> & _ & Ha & Hb). cbn [app].
  rewrite !elem_of_cons. naive_solver.
Qed.

Definition demo_sink : HashChainAuditSink :=
  {| algorithm := "sha256"; previousHash := AUDIT_CHAIN_GENESIS_HASH; sequence := 0 |}.

Definition demo_events : list value :=
  [VObj [("type", VStr "a")]; VObj [("type", VStr "b")]; VObj [("type", VStr "c")]].

Definition demo_chain : list ChainedAuditEntry :=
  snd (fst (record_all hex_encode in_memory_record demo_events (demo_sink, []))).2.

Lemma demo_chain_linked : exists last n,
  linked hex_encode "sha256" AUDIT_CHAIN_GENESIS_HASH 0 demo_chain last n.
Proof. apply (verify_loop_spec hex_encode _ _ 0 _ 0). vm_compute. reflexivity. Qed.

Lemma anchored_head_determines_chain_witness : exists last n,
  map entry_hash demo_chain = map entry_hash demo_chain /\
  linked hex_encode "sha256" AUDIT_CHAIN_GENESIS_HASH 0 demo_chain last n.
Proof.
  destruct demo_chain_linked as (last & n & Hl). exists last, n. split; [|exact Hl].
  refine (proj2 (anchored_head_determines_chain hex_encode "sha256" AUDIT_CHAIN_GENESIS_HASH
                   demo_chain demo_chain last n n _ _ _ eq_refl Hl Hl)).
  - apply hex_encode_collision_free.
  - apply hex_encode_nul_free.
  - apply (bool_decide_unpack _). vm_compute. exact I.
Defined.

Lemma truncated_chain_verifies_witness :
  ver_valid (verifyAuditChain hex_encode demo_chain None None None) = true /\
  ver_valid (verifyAuditChain hex_encode (take 2 demo_chain) None None None) = true.
Proof.
  split; [vm_compute; reflexivity|]. apply truncated_chain_verifies. vm_compute. reflexivity.
Defined.

End Chain.
