(* ===== verification/Structured.v ===== *)
(** * Structured output (packages/core/src/utils/structured-output.ts)

    Resolving an [outputSchema] with its options, extracting JSON from a model's
    answer, checking it, and the prompts that ask for a repair.  A custom
    validator is an arbitrary function of the value and the world; the regular
    expressions and the text of a [SyntaxError] are the host's. *)

From Stdlib Require Import Ascii String.
From S2P Require Export Schema HashChain.

#[local] Open Scope string_scope.
#[local] Open Scope list_scope.
#[local] Open Scope Z_scope.

Module Structured.

Definition DEFAULT_NAME : string := "response".
Definition DEFAULT_MAX_REPAIR_ATTEMPTS : Z := 2.
Definition MAX_REPAIR_ISSUES : nat := 10.
Definition MAX_EXTRACTION_ATTEMPTS : nat := 20.

(** The verdict of a custom validator; its issues need not be an array. *)
Inductive CustomVerdict : Type :=
| Accepts (v : value)
| Rejects (issues : option (list string)).

(** ** Specs *)

Section Specs.
Context {W : Type}.

Definition Validator : Type := value -> W -> outcome error CustomVerdict * W.

Record StructuredOutputOptions : Type := {
  o_name : option string;
  o_description : option string;
  o_strict : option bool;
  o_maxRepairAttempts : option num;
  o_validate : option Validator;
}.

Record StructuredOutputSpec : Type := { spec_schema : obj; spec_options : StructuredOutputOptions }.

Definition no_options : StructuredOutputOptions :=
  {| o_name := None; o_description := None; o_strict := None; o_maxRepairAttempts := None;
     o_validate := None |}.

(** [{ ...a, ...b }] (a property set to [undefined] counts as absent). *)
Definition merge_options (a b : StructuredOutputOptions) : StructuredOutputOptions :=
  {| o_name := orelse (o_name b) (o_name a);
     o_description := orelse (o_description b) (o_description a);
     o_strict := orelse (o_strict b) (o_strict a);
     o_maxRepairAttempts := orelse (o_maxRepairAttempts b) (o_maxRepairAttempts a);
     o_validate := orelse (o_validate b) (o_validate a) |}.

Record Layer : Type := {
  l_outputSchema : option value;
  l_structuredOutput : option StructuredOutputOptions;
}.

Definition apply_layer (acc : option value * StructuredOutputOptions) (layer : option Layer)
    : option value * StructuredOutputOptions :=
  match layer with
  | None => acc
  | Some l =>
      match l_outputSchema l with
      | Some s => (Some s, coalesce (l_structuredOutput l) no_options)
      | None => match l_structuredOutput l with
                | Some o => (acc.1, merge_options acc.2 o)
                | None => acc
                end
      end
  end.

(** The own fields of an object that is not an array. *)
Definition schema_object (v : value) : option obj :=
  match v with
  | VObj fs => Some fs
  | VDate _ | VMap _ | VSet _ => Some []
  | _ => None
  end.

Section Resolve.
Context (regex : string -> option (string -> bool)).

(** The set of schemas already checked only skips a repeated check. *)
Definition resolveStructuredOutput (layers : list (option Layer)) : error + option StructuredOutputSpec :=
  let '(schema, options) := fold_left apply_layer layers (None, no_options) in
  match schema with
  | None => inr None
  | Some s =>
      match schema_object s with
      | None => inl (NativeErr "TypeError" "outputSchema must be a JSON Schema object.")
      | Some fields =>
          match Schema.findSchemaProblems regex fields with
          | (_ :: _) as problems => inl (AgenticErr (InvalidOutputSchemaError problems))
          | [] =>
              let attempts := coalesce (o_maxRepairAttempts options) (num_of_Z DEFAULT_MAX_REPAIR_ATTEMPTS) in
              if is_integer attempts && num_le (num_of_Z 0) attempts then
                inr (Some {| spec_schema := fields;
                             spec_options := {| o_name := o_name options;
                                                o_description := o_description options;
                                                o_strict := o_strict options;
                                                o_maxRepairAttempts := Some attempts;
                                                o_validate := o_validate options |} |})
              else inl (NativeErr "TypeError"
                          ("structuredOutput.maxRepairAttempts must be a non-negative integer, received " +:+
                           num_to_string attempts +:+ "."))
          end
      end
  end.
End Resolve.

Definition maxRepairAttemptsOf (spec : StructuredOutputSpec) : num :=
  coalesce (o_maxRepairAttempts (spec_options spec)) (num_of_Z DEFAULT_MAX_REPAIR_ATTEMPTS).

Definition toOutputFormat (spec : StructuredOutputSpec) : ModelOutputFormat :=
  {| format_name := coalesce (o_name (spec_options spec)) DEFAULT_NAME;
     format_schema := spec_schema spec;
     format_description := o_description (spec_options spec);
     format_strict := coalesce (o_strict (spec_options spec)) false |}.

Definition structuredOutputInstruction (spec : StructuredOutputSpec) : string :=
  join nl
    ["When you give your final answer, reply with only a JSON value that conforms to the JSON Schema below, with no other text.";
     json (VObj (spec_schema spec))].

Definition toStoredStructuredOutput (spec : StructuredOutputSpec) : StoredStructuredOutput :=
  let o := spec_options spec in
  {| so_schema := spec_schema spec; so_name := o_name o; so_description := o_description o;
     so_strict := o_strict o; so_maxRepairAttempts := o_maxRepairAttempts o |}.

Definition fromStored (s : StoredStructuredOutput) : StructuredOutputSpec :=
  {| spec_schema := so_schema s;
     spec_options := {| o_name := so_name s; o_description := so_description s;
                        o_strict := so_strict s; o_maxRepairAttempts := so_maxRepairAttempts s;
                        o_validate := None |} |}.

Definition restoreStructuredOutput (stored : option StoredStructuredOutput)
    (agentSpec : option StructuredOutputSpec) : option StructuredOutputSpec :=
  match stored with
  | None => agentSpec
  | Some st =>
      match agentSpec with
      | Some a =>
          if bool_decide (Canonical.canonicalize (VObj (spec_schema a)) =
                          Canonical.canonicalize (VObj (so_schema st)))
          then Some a else Some (fromStored st)
      | None => Some (fromStored st)
      end
  end.
End Specs.
Arguments Validator : clear implicits.
Arguments StructuredOutputOptions : clear implicits.
Arguments StructuredOutputSpec : clear implicits.
Arguments Layer : clear implicits.

Definition repairPrompt (issues : list string) : string :=
  let listed := map (fun i => "- " +:+ i) (take MAX_REPAIR_ISSUES issues) in
  let more := if (MAX_REPAIR_ISSUES <? length issues)%nat
              then ["- …and " +:+ Z_to_string (Z.of_nat (length issues - MAX_REPAIR_ISSUES)) +:+ " more"]
              else [] in
  join nl ("Your previous answer did not match the required JSON Schema:" :: listed ++ more ++
           ["Reply again with only a JSON value that satisfies the schema, with no other text."]).

(** ** Extracting JSON from an answer *)

Definition closer (ch : ascii) : ascii := if bool_decide (ch = "{"%char) then "}"%char else "]"%char.

(** Scans from an opening; the result is the number of characters up to and
    including the one that closes it. *)
Fixpoint balanced_scan (l : list ascii) (i : nat) (inString : bool) (stack : list ascii) : option nat :=
  match l with
  | [] => None
  | ch :: l' =>
      if inString then
        if bool_decide (ch = "\"%char) then
          match l' with
          | _ :: l'' => balanced_scan l'' (S (S i)) true stack
          | [] => None
          end
        else balanced_scan l' (S i) (negb (bool_decide (ch = dq_char))) stack
      else if bool_decide (ch = dq_char) then balanced_scan l' (S i) true stack
      else if bool_decide (ch = "{"%char) || bool_decide (ch = "["%char) then
        balanced_scan l' (S i) false (closer ch :: stack)
      else if bool_decide (ch = "}"%char) || bool_decide (ch = "]"%char) then
        match stack with
        | top :: stack' =>
            if bool_decide (top = ch) then
              match stack' with
              | [] => Some (S i)
              | _ => balanced_scan l' (S i) false stack'
              end
            else None
        | [] => None
        end
      else balanced_scan l' (S i) false stack
  end.

Definition balancedAt (text : list ascii) (start : nat) : option (list ascii) :=
  n ← balanced_scan (drop start text) 0 false []; Some (take n (drop start text)).

(** The text after the first occurrence of [sep], with what precedes it. *)
Fixpoint split_first (sep : list ascii) (l before : list ascii) : option (list ascii * list ascii) :=
  if bool_decide (take (length sep) l = sep) then Some (rev before, drop (length sep) l)
  else match l with
       | [] => None
       | c :: l' => split_first sep l' (c :: before)
       end.

Definition fence : list ascii := chars "```".

(** [/```(?:json|JSON)?\s*\n?([\s\S]*?)```/.exec(trimmed)], its group trimmed. *)
Definition fenced_block (trimmed : list ascii) : option string :=
  '(_, rest) ← split_first fence trimmed [];
  let body := if bool_decide (take 4 rest = chars "json") || bool_decide (take 4 rest = chars "JSON")
              then drop 4 rest else rest in
  '(inner, _) ← split_first fence (drop_while is_space body) [];
  Some (trim (of_chars inner)).

(** The candidates found at the first openings, at most [attempts] of them. *)
Fixpoint bracket_candidates (l : list ascii) (attempts : nat) : list string :=
  match attempts, l with
  | S attempts', c :: l' =>
      if bool_decide (c = "{"%char) || bool_decide (c = "["%char) then
        match balancedAt l 0 with
        | Some cand => [of_chars cand]
        | None => []
        end ++ bracket_candidates l' attempts'
      else bracket_candidates l' attempts
  | _, _ => []
  end.

Definition candidates (answer : string) : list string :=
  let trimmed := trim answer in
  [trimmed] ++ match fenced_block (chars trimmed) with Some f => [f] | None => [] end ++
  bracket_candidates (chars trimmed) MAX_EXTRACTION_ATTEMPTS.

Section Check.
Context (regex : string -> option (string -> bool)) (parse_message : string -> string).

(** The loop over the candidates, with the message of the last failure. *)
Fixpoint first_parse (cands : list string) (lastError : string) : value + string :=
  match cands with
  | [] => inr ("$: the answer is not valid JSON (" +:+ lastError +:+ ")")
  | c :: rest =>
      if truthy c then
        match json_parse c with
        | Some v => inl v
        | None => first_parse rest (parse_message c)
        end
      else first_parse rest lastError
  end.

Definition parseJsonAnswer (answer : string) : value + string :=
  first_parse (candidates answer) "the answer is empty".

Definition checkStructuredOutput {E W} (spec : StructuredOutputSpec W) (answer : string)
    : M error E W StructuredOutputValidation :=
  match parseJsonAnswer answer with
  | inr issue => ret (Invalid [issue])
  | inl v =>
      match o_validate (spec_options spec) with
      | Some validate =>
          bind (lift (validate v)) (fun verdict =>
            ret match verdict with
                | Accepts v' => Valid v'
                | Rejects (Some ((_ :: _) as iss)) => Invalid iss
                | Rejects _ => Invalid ["$: rejected by the custom validator"]
                end)
      | None =>
          let result := Schema.validateJsonSchema regex Schema.DEFAULT_MAX_ISSUES v (spec_schema spec) in
          ret (if Schema.valid result then Valid v else Invalid (Schema.issues result))
      end
  end.
End Check.

End Structured.
