(* ===== verification/Executor.v ===== *)
(** * The agent loop (packages/core/src/services/agent-executor.service.ts)

    [AgentExecutor] drives model rounds and tool calls within its budgets.  A
    class method is a definition over an explicit [ExecutionState]; what the loop
    calls across its boundary (model adapter, tools, reducer, observers,
    callbacks, timers) is an arbitrary function of the world [W], and each such
    call is recorded as an event.  Limits are integers; timestamps and durations
    of notifications are left out; the consumer of a stream reads it to its end. *)

From Stdlib Require Import Ascii.
From S2P Require Export ToolArgs Reducers Structured.

#[local] Open Scope string_scope.
#[local] Open Scope list_scope.
#[local] Open Scope Z_scope.
#[local] Open Scope eff_scope.

Module Executor.

(** ** The boundary *)

Inductive NotificationPayload : Type :=
| NotifyModelRequest (model : ModelConfig) (roundIndex : Z) (messages : list ModelMessage)
| NotifyModelResponse (model : ModelConfig) (roundIndex : Z) (response : ModelResponse)
| NotifyToolCall (toolName toolCallId : string) (args : obj)
| NotifyToolResult (toolName toolCallId : string) (result : RecordedResult).

Record Notification : Type := {
  n_agentName : string;
  n_sessionId : string;
  n_traceId : string;
  n_parentTraceId : option string;
  n_rootTraceId : option string;
  n_payload : NotificationPayload;
}.

(** What a suspended turn hands over besides its transcript. *)
Definition SuspendExtras : Type := option StoredStructuredOutput.

Inductive event : Type :=
| Generate (request : ModelRequest)
| OpenStream (request : ModelRequest)
| Execute (toolName toolCallId : string) (args : obj)
| Sanitize (toolName : string)
| Notify (n : Notification)
| Reduce (iteration : Z)
| Checkpoint (c : InFlightCheckpoint)
| Suspend (approvalId : string) (messages : list ModelMessage) (extras : SuspendExtras)
| Transcript (messages : list ModelMessage)
| Yield (e : AgentStreamEvent).

Record ExecutionState : Type := {
  executionId : string;
  messages : list ModelMessage;
  toolCalls : list ToolCallRecord;
  usage : ModelUsage;
  toolCallCount : Z;
  iteration : Z;
  suspended : bool;
  suspendedApprovalId : option string;
  repair : list ModelMessage;
  repairAttempts : Z;
  structured : option value;
}.

Definition fresh_state (id : string) (ms : list ModelMessage) (records : list ToolCallRecord)
    : ExecutionState :=
  {| executionId := id; messages := ms; toolCalls := records; usage := no_usage;
     toolCallCount := 0; iteration := 0; suspended := false; suspendedApprovalId := None;
     repair := []; repairAttempts := 0; structured := None |}.

(** Field updates, one per field the loop assigns. *)
Definition set_messages (f : list ModelMessage -> list ModelMessage) (s : ExecutionState) : ExecutionState :=
  {| executionId := executionId s; messages := f (messages s); toolCalls := toolCalls s; usage := usage s;
     toolCallCount := toolCallCount s; iteration := iteration s; suspended := suspended s;
     suspendedApprovalId := suspendedApprovalId s; repair := repair s;
     repairAttempts := repairAttempts s; structured := structured s |}.
Definition push_record (r : ToolCallRecord) (s : ExecutionState) : ExecutionState :=
  {| executionId := executionId s; messages := messages s; toolCalls := toolCalls s ++ [r];
     usage := usage s; toolCallCount := toolCallCount s; iteration := iteration s;
     suspended := suspended s; suspendedApprovalId := suspendedApprovalId s; repair := repair s;
     repairAttempts := repairAttempts s; structured := structured s |}.
Definition set_usage (u : ModelUsage) (s : ExecutionState) : ExecutionState :=
  {| executionId := executionId s; messages := messages s; toolCalls := toolCalls s; usage := u;
     toolCallCount := toolCallCount s; iteration := iteration s; suspended := suspended s;
     suspendedApprovalId := suspendedApprovalId s; repair := repair s;
     repairAttempts := repairAttempts s; structured := structured s |}.
Definition incr_toolCallCount (s : ExecutionState) : ExecutionState :=
  {| executionId := executionId s; messages := messages s; toolCalls := toolCalls s; usage := usage s;
     toolCallCount := toolCallCount s + 1; iteration := iteration s; suspended := suspended s;
     suspendedApprovalId := suspendedApprovalId s; repair := repair s;
     repairAttempts := repairAttempts s; structured := structured s |}.
Definition incr_iteration (s : ExecutionState) : ExecutionState :=
  {| executionId := executionId s; messages := messages s; toolCalls := toolCalls s; usage := usage s;
     toolCallCount := toolCallCount s; iteration := iteration s + 1; suspended := suspended s;
     suspendedApprovalId := suspendedApprovalId s; repair := repair s;
     repairAttempts := repairAttempts s; structured := structured s |}.
Definition set_suspended (id : string) (s : ExecutionState) : ExecutionState :=
  {| executionId := executionId s; messages := messages s; toolCalls := toolCalls s; usage := usage s;
     toolCallCount := toolCallCount s; iteration := iteration s; suspended := true;
     suspendedApprovalId := Some id; repair := repair s;
     repairAttempts := repairAttempts s; structured := structured s |}.
Definition set_repair (ms : list ModelMessage) (attempts : Z) (s : ExecutionState) : ExecutionState :=
  {| executionId := executionId s; messages := messages s; toolCalls := toolCalls s; usage := usage s;
     toolCallCount := toolCallCount s; iteration := iteration s; suspended := suspended s;
     suspendedApprovalId := suspendedApprovalId s; repair := ms; repairAttempts := attempts;
     structured := structured s |}.
Definition set_structured (v : value) (s : ExecutionState) : ExecutionState :=
  {| executionId := executionId s; messages := messages s; toolCalls := toolCalls s; usage := usage s;
     toolCallCount := toolCallCount s; iteration := iteration s; suspended := suspended s;
     suspendedApprovalId := suspendedApprovalId s; repair := repair s;
     repairAttempts := repairAttempts s; structured := Some v |}.

Section Executor.
Context {W : Type}.

Notation M := (M error event W).

(** A call to code outside the executor. *)
Definition Ext (A : Type) : Type := W -> outcome error A * W.

Record ResolvedTool : Type := {
  tool_name : string;
  tool_description : string;
  tool_parameters : list ToolParamSchema;
  tool_execute : obj -> string -> Ext ToolExecutionResult;
  tool_sanitizeErrorMessage : option (string -> obj -> Ext string);
}.

(** A streaming adapter produces its chunks and then ends or fails. *)
Record ModelAdapter : Type := {
  supportsStructuredOutput : bool;
  adapter_generate : ModelRequest -> Ext ModelResponse;
  adapter_stream : option (ModelRequest -> W -> list ModelStreamChunk * outcome error unit * W);
}.

(** What a reducer leaves behind: its result, whether that is the input array
    itself, and the content of the input array after it ran. *)
Record Reduction : Type := {
  reduced : list ModelMessage;
  same_array : bool;
  input_after : list ModelMessage;
}.

Record Callbacks : Type := {
  onTranscript : option (list ModelMessage -> Ext unit);
  onSuspend : option (string -> list ModelMessage -> SuspendExtras -> Ext unit);
  onCheckpoint : option (InFlightCheckpoint -> Ext unit);
}.

(** The fields shared by the three kinds of input. *)
Record ExecutorInput : Type := {
  in_sessionId : string;
  in_model : ModelConfig;
  in_cascade : option (ModelAdapter -> ModelAdapter);
  in_tools : list ResolvedTool;
  in_agentName : option string;
  in_traceId : option string;
  in_parentTraceId : option string;
  in_rootTraceId : option string;
  in_signal : bool;
  in_observerNotifier : option (Notification -> W -> W);
  in_messageReducer :
    option (list ModelMessage -> AgentMessageReductionContext -> Ext Reduction);
  in_structuredOutput : option (Structured.StructuredOutputSpec W);
  in_instructions : option string;
  in_limits : option ExecutionLimits;
  in_toolErrorHandling : option ToolErrorHandling;
  in_callbacks : Callbacks;
}.

Record AgentExecutionInput : Type := {
  ex_input : ExecutorInput;
  ex_message : string;
  ex_history : option (list ModelMessage);
}.

Record AgentResumeInput : Type := {
  rs_input : ExecutorInput;
  rs_history : list ModelMessage;
  rs_toolCallId : string;
  rs_toolName : string;
  rs_args : obj;
  rs_outcome : ToolExecutionResult;
}.

Record AgentResumeCheckpointInput : Type := {
  rk_input : ExecutorInput;
  rk_checkpoint : InFlightCheckpoint;
}.

Record ExecutorRequestContext : Type := {
  rc_input : ExecutorInput;
  rc_pendingToolCallId : option string;
}.

(** The executor's own dependencies and the host's services. *)
Record AgentExecutor : Type := {
  modelAdapter : option ModelAdapter;
  withResilience : option (Notification -> W -> W) -> ModelAdapter -> ModelAdapter;
}.

Record Host : Type := {
  caller_aborted : W -> bool;
  timer_fired : W -> Z -> W -> bool;
  now : W -> Z;
  randomUUID : Ext string;
  regex : string -> option (string -> bool);
  parse_message : string -> string;
}.

Context (self : AgentExecutor) (host : Host).

Definition isAvailable : bool := is_some (modelAdapter self).

Definition requireAdapter : M ModelAdapter :=
  match modelAdapter self with
  | Some a => ret a
  | None => throw (AgenticErr RuntimeNotConfiguredError)
  end.

Definition resolveEffectiveAdapter (cascade : option (ModelAdapter -> ModelAdapter))
    (notifier : option (Notification -> W -> W)) : M ModelAdapter :=
  a <- requireAdapter ;;
  let base := withResilience self notifier a in
  ret match cascade with Some c => c base | None => base end.

Definition createRequestContext (input : ExecutorInput) (toolCallId : option string)
    : ExecutorRequestContext :=
  {| rc_input := input; rc_pendingToolCallId := toolCallId |}.

Definition resolveLimits (limits : option ExecutionLimits) : ExecutionLimits :=
  let get f := match limits with Some l => f l | None => None end in
  {| maxIterations := Some (coalesce (get maxIterations) DEFAULT_MAX_ITERATIONS);
     maxToolCalls := Some (coalesce (get maxToolCalls) DEFAULT_MAX_TOOL_CALLS);
     timeoutMs := get timeoutMs;
     maxTotalTokens := get maxTotalTokens |}.

(** ** Cancellation and budgets *)

(** The world in which the scope was created, for its timer. *)
Record Scope : Type := { scope_signal : bool; scope_timeoutMs : option Z; scope_start : W }.

Definition createScope (signal : bool) (timeoutMs : option Z) : M Scope :=
  ask (fun w => {| scope_signal := signal; scope_timeoutMs := timeoutMs; scope_start := w |}).

Definition timedOut (scope : Scope) (w : W) : bool :=
  match scope_timeoutMs scope with
  | Some ms => (0 <? ms) && timer_fired host (scope_start scope) ms w
  | None => false
  end.

Definition aborted (scope : Scope) (w : W) : bool :=
  scope_signal scope && caller_aborted host w || timedOut scope w.

Definition assertNotAborted (scope : Scope) (limits : ExecutionLimits) : M unit :=
  st <- ask (fun w => (aborted scope w, timedOut scope w)) ;;
  if negb st.1 then ret tt
  else if st.2 then
    throw (AgenticErr (ExecutionLimitExceededError LTimeout (coalesce (timeoutMs limits) 0)))
  else throw (AgenticErr (ExecutionCancelledError None)).

Definition assertWithinBudget (st : ExecutionState) (limits : ExecutionLimits) (scope : Scope) : M unit :=
  assertNotAborted scope limits ;;
  match maxIterations limits with
  | Some n => if n <=? iteration st then
                throw (AgenticErr (ExecutionLimitExceededError LMaxIterations n)) else ret tt
  | None => ret tt
  end ;;
  match maxTotalTokens limits with
  | Some n => if n <=? coalesce (totalTokens (usage st)) 0 then
                throw (AgenticErr (ExecutionLimitExceededError LMaxTotalTokens n)) else ret tt
  | None => ret tt
  end.

(** ** Observers *)

Definition traceIdOf (ctx : ExecutorRequestContext) (st : ExecutionState) : string :=
  coalesce (in_traceId (rc_input ctx)) (executionId st).

(** Observer failures never reach the loop: a notification only acts on the world. *)
Definition notify (ctx : ExecutorRequestContext) (st : ExecutionState) (p : NotificationPayload) : M unit :=
  match in_observerNotifier (rc_input ctx) with
  | None => ret tt
  | Some f =>
      let n := {| n_agentName := coalesce (in_agentName (rc_input ctx)) "agent";
                  n_sessionId := in_sessionId (rc_input ctx);
                  n_traceId := traceIdOf ctx st;
                  n_parentTraceId := in_parentTraceId (rc_input ctx);
                  n_rootTraceId := in_rootTraceId (rc_input ctx);
                  n_payload := p |} in
      emit (Notify n) ;; modify (f n)
  end.

(** ** Building a request *)

(** The transcript the model receives; a reducer's in-place edits of its input
    are edits of the state's own array. *)
Definition projectMessages (ctx : ExecutorRequestContext) (st : ExecutionState)
    : M (list ModelMessage * ExecutionState) :=
  match in_messageReducer (rc_input ctx) with
  | None => ret (messages st, st)
  | Some reduce =>
      let fingerprint := Validate.fingerprintTranscript (messages st) in
      emit (Reduce (iteration st)) ;;
      r <- lift (reduce (messages st)
                   {| rc_executionId := executionId st;
                      rc_sessionId := in_sessionId (rc_input ctx);
                      rc_iteration := iteration st;
                      rc_agentName := in_agentName (rc_input ctx);
                      rc_pendingApprovalToolCallId := rc_pendingToolCallId ctx |}) ;;
      match Validate.validateReduction (reduced r) (same_array r) (input_after r) fingerprint
              (rc_pendingToolCallId ctx) with
      | Some e => throw (AgenticErr e)
      | None => ret (if same_array r then input_after r else reduced r,
                     set_messages (fun _ => input_after r) st)
      end
  end.

Definition withSystemInstruction (ms : list ModelMessage) (instruction : string) : list ModelMessage :=
  match ms with
  | SystemMsg c :: rest => SystemMsg (c +:+ nl +:+ nl +:+ instruction) :: rest
  | _ => SystemMsg instruction :: ms
  end.

Definition toToolSchemas (tools : list ResolvedTool) : list ModelToolSchema :=
  map (fun t => {| schema_name := tool_name t; schema_description := tool_description t;
                   schema_parameters := tool_parameters t |}) tools.

Definition native_structured : bool :=
  match modelAdapter self with Some a => supportsStructuredOutput a | None => false end.

Definition buildRequest (ctx : ExecutorRequestContext) (st : ExecutionState)
    : M (ModelRequest * ExecutionState) :=
  let input := rc_input ctx in
  let* (projected, st') := projectMessages ctx st in
  let ms := projected ++ repair st' in
  let ms' := match in_structuredOutput input with
             | Some spec => if native_structured then ms
                            else withSystemInstruction ms (Structured.structuredOutputInstruction spec)
             | None => ms
             end in
  ret ({| req_model := in_model input;
          req_messages := ms';
          req_tools := toToolSchemas (in_tools input);
          req_outputFormat := Structured.toOutputFormat <$> in_structuredOutput input;
          req_metadata := {| meta_sessionId := in_sessionId input;
                             meta_traceId := traceIdOf ctx st';
                             meta_executionId := executionId st';
                             meta_iteration := iteration st' |} |}, st').

(** ** One model round *)

Definition add_count (current next : option Z) : option Z :=
  match next with None => current | Some n => Some (coalesce current 0 + n) end.

Definition accumulateUsage (u : ModelUsage) (next : option ModelUsage) : ModelUsage :=
  match next with
  | None => u
  | Some n =>
      {| inputTokens := add_count (inputTokens u) (inputTokens n);
         outputTokens := add_count (outputTokens u) (outputTokens n);
         totalTokens := add_count (totalTokens u)
                          (orelse (totalTokens n) (add_count (inputTokens n) (outputTokens n))) |}
  end.

Definition MAX_TOOL_ERROR_LENGTH : Z := 500.
Definition TOOL_ERROR_SANITIZATION_FAILED_MESSAGE : string :=
  "Tool execution failed and the error could not be safely sanitized.".

Definition truncate_error (s : string) : string :=
  if MAX_TOOL_ERROR_LENGTH <? str_length s
  then slice_to s (Z.to_nat MAX_TOOL_ERROR_LENGTH) +:+ "..." else s.

Definition toFailurePayload (err : error) (tool : ResolvedTool) (args : obj) : M ToolFailurePayload :=
  let raw := error_text err in
  sanitized <- match tool_sanitizeErrorMessage tool with
               | None => ret raw
               | Some f => emit (Sanitize (tool_name tool)) ;;
                           catch (lift (f raw args))
                             (fun _ => ret TOOL_ERROR_SANITIZATION_FAILED_MESSAGE)
               end ;;
  let message := truncate_error sanitized in
  ret {| failure_error := if truthy message then message else "Tool execution failed.";
         failure_provenance := Some (tool_provenance (tool_name tool)) |}.

(** The payloads written into tool messages. *)
Inductive ToolPayload : Type :=
| PayloadRecorded (r : RecordedResult)
| PayloadError (message : string).

Definition payload_value (p : ToolPayload) : value :=
  match p with
  | PayloadRecorded (RResult r) => result_value r
  | PayloadRecorded (RFailure f) =>
      VObj [("success", VBool false); ("status", VStr "error"); ("error", VStr (failure_error f));
            ("provenance", opt_provenance (failure_provenance f))]
  | PayloadRecorded (RValue v) => v
  | PayloadError m => VObj [("error", VStr m)]
  end.

Definition payload_provenance (p : ToolPayload) : option Provenance :=
  match p with
  | PayloadRecorded (RResult r) => result_provenance r
  | PayloadRecorded (RFailure f) => failure_provenance f
  | PayloadRecorded (RValue _) => None
  | PayloadError _ => None
  end.

Definition tool_message (call : ModelToolCall) (p : ToolPayload) : ModelMessage :=
  ToolMsg (call_id call) (call_name call) (json (payload_value p)) (payload_provenance p).

Definition pushToolMessage (st : ExecutionState) (call : ModelToolCall) (p : ToolPayload) : ExecutionState :=
  set_messages (fun ms => ms ++ [tool_message call p]) st.

(** How the handling of one call leaves the loop over the requested calls. *)
Inductive call_flow : Type := NextCall | SuspendTurn.

Definition unknown_tool (tools : list ResolvedTool) (name : string) : string :=
  "Unknown tool " +:+ in_quotes name +:+ ". Available tools: " +:+ join ", " (map tool_name tools).

(** The tool threw: framework errors and, under ['throw'], every error reach the
    caller; otherwise the failure is recorded and described to the model. *)
Definition handle_tool_error (ctx : ExecutorRequestContext) (limits : ExecutionLimits) (scope : Scope)
    (handling : ToolErrorHandling) (tool : ResolvedTool) (call : ModelToolCall) (args : obj)
    (st : ExecutionState) (evs : list AgentStreamEvent) (err : error)
    : M (call_flow * ExecutionState * list AgentStreamEvent) :=
  match err with
  | AgenticErr _ => throw err
  | _ =>
      assertNotAborted scope limits ;;
      if decide (handling = ThrowErrors) then throw err
      else
        failure <- toFailurePayload err tool args ;;
        let rec := {| rec_toolName := tool_name tool; rec_args := args; rec_result := RFailure failure |} in
        let st' := pushToolMessage (push_record rec st) call (PayloadRecorded (RFailure failure)) in
        notify ctx st' (NotifyToolResult (tool_name tool) (call_id call) (RFailure failure)) ;;
        ret (NextCall, st',
             evs ++ [EvToolError (call_id call) (tool_name tool) (failure_error failure)])
  end.

(** The tool returned. *)
Definition handle_tool_result (ctx : ExecutorRequestContext) (tool : ResolvedTool) (call : ModelToolCall)
    (args : obj) (st : ExecutionState) (evs : list AgentStreamEvent) (result : ToolExecutionResult)
    : M (call_flow * ExecutionState * list AgentStreamEvent) :=
  let rec := {| rec_toolName := tool_name tool; rec_args := args; rec_result := RResult result |} in
  let st' := pushToolMessage (push_record rec st) call (PayloadRecorded (RResult result)) in
  notify ctx st' (NotifyToolResult (tool_name tool) (call_id call) (RResult result)) ;;
  match result with
  | ToolPending reason approvalId _ _ _ =>
      ret (SuspendTurn, set_suspended approvalId st',
           evs ++ [EvApprovalRequired (call_id call) (tool_name tool) approvalId reason])
  | _ =>
      ret (NextCall, st',
           evs ++ [EvToolResult (call_id call) (tool_name tool) (RResult result);
                   EvActionObservation (call_id call) (tool_name tool) (RResult result)])
  end.

(** The body of the loop over the requested calls. *)
Definition handle_call (ctx : ExecutorRequestContext) (limits : ExecutionLimits) (scope : Scope)
    (handling : ToolErrorHandling) (st0 : ExecutionState) (evs : list AgentStreamEvent)
    (call : ModelToolCall) : M (call_flow * ExecutionState * list AgentStreamEvent) :=
  let tools := in_tools (rc_input ctx) in
  assertNotAborted scope limits ;;
  match maxToolCalls limits with
  | Some n => if n <=? toolCallCount st0 then
                throw (AgenticErr (ExecutionLimitExceededError LMaxToolCalls n)) else ret tt
  | None => ret tt
  end ;;
  let st := incr_toolCallCount st0 in
  match find_first (fun t => bool_decide (tool_name t = call_name call)) tools with
  | None =>
      ret (NextCall, pushToolMessage st call (PayloadError (unknown_tool tools (call_name call))), evs)
  | Some tool =>
      let validation := ToolArgs.validateToolArgs (tool_parameters tool) (Some (call_args call)) in
      if negb (ToolArgs.valid validation) then
        ret (NextCall,
             pushToolMessage st call
               (PayloadError (agentic_message (ToolValidationError (tool_name tool)
                                                 (ToolArgs.issues validation)))), evs)
      else
        let args := ToolArgs.args validation in
        let evs' := evs ++ [EvToolStart (call_id call) (tool_name tool) args;
                            EvActionCall (call_id call) (tool_name tool) args] in
        notify ctx st (NotifyToolCall (tool_name tool) (call_id call) args) ;;
        emit (Execute (tool_name tool) (call_id call) args) ;;
        (* the try block holds only the call of the tool *)
        r <- catch (x <- lift (tool_execute tool args (call_id call)) ;; ret (inl x))
                   (fun err => ret (inr err)) ;;
        match r with
        | inr err => handle_tool_error ctx limits scope handling tool call args st evs' err
        | inl result => handle_tool_result ctx tool call args st evs' result
        end
  end.

(** The loop; [true] when a call suspended the turn. *)
Fixpoint handle_calls (ctx : ExecutorRequestContext) (limits : ExecutionLimits) (scope : Scope)
    (handling : ToolErrorHandling) (st : ExecutionState) (evs : list AgentStreamEvent)
    (calls : list ModelToolCall) : M (bool * ExecutionState * list AgentStreamEvent) :=
  match calls with
  | [] => ret (false, st, evs)
  | call :: rest =>
      let* (flow, st', evs') := handle_call ctx limits scope handling st evs call in
      match flow with
      | SuspendTurn => ret (true, st', evs')
      | NextCall => handle_calls ctx limits scope handling st' evs' rest
      end
  end.

(** Rejected answers and their repair prompts join the transcript when the model
    answers a repair prompt with tool calls. *)
Definition commit_repair (st : ExecutionState) : ExecutionState :=
  match repair st with
  | [] => st
  | r => set_repair [] (repairAttempts st) (set_messages (fun ms => ms ++ r) st)
  end.

Definition applyModelRound (ctx : ExecutorRequestContext) (st : ExecutionState) (response : ModelResponse)
    (limits : ExecutionLimits) (scope : Scope) (handling : ToolErrorHandling)
    : M (bool * ExecutionState * list AgentStreamEvent) :=
  let st1 := incr_iteration st in
  let st2 := set_usage (accumulateUsage (usage st1) (resp_usage response)) st1 in
  match coalesce (resp_toolCalls response) [] with
  | [] => ret (true, st2, [])
  | calls =>
      let st3 := set_messages (fun ms => ms ++ [AssistantMsg (resp_content response) (Some calls)])
                   (commit_repair st2) in
      handle_calls ctx limits scope handling st3 [] calls
  end.

(** ** Publishing *)

Definition storedOf (ctx : ExecutorRequestContext) : option StoredStructuredOutput :=
  Structured.toStoredStructuredOutput <$> in_structuredOutput (rc_input ctx).

(** Nothing happens unless the turn suspended on an approval with a truthy id. *)
Definition publishCheckpoint (ctx : ExecutorRequestContext) (st : ExecutionState) : M unit :=
  match onSuspend (in_callbacks (rc_input ctx)), suspendedApprovalId st with
  | Some f, Some id =>
      if suspended st && truthy id then
        emit (Suspend id (messages st) (storedOf ctx)) ;;
        lift (f id (messages st) (storedOf ctx))
      else ret tt
  | _, _ => ret tt
  end.

Definition with_answer (ms : list ModelMessage) (output : string) : list ModelMessage :=
  if truthy output then ms ++ [AssistantMsg output None] else ms.

Definition publishTranscript (ctx : ExecutorRequestContext) (st : ExecutionState) (output : string) : M unit :=
  match onTranscript (in_callbacks (rc_input ctx)) with
  | None => ret tt
  | Some f =>
      let ms := with_answer (messages st) output in
      emit (Transcript ms) ;; lift (f ms)
  end.

Definition inFlightCheckpoint (ctx : ExecutorRequestContext) (st : ExecutionState) (at_ : Z)
    : InFlightCheckpoint :=
  {| cp_version := INFLIGHT_CHECKPOINT_VERSION;
     cp_executionId := executionId st;
     cp_sessionId := in_sessionId (rc_input ctx);
     cp_iteration := iteration st;
     cp_messages := messages st;
     cp_usage := usage st;
     cp_toolCallCount := toolCallCount st;
     cp_updatedAt := at_;
     cp_structuredOutput := storedOf ctx;
     cp_repairAttempts := if 0 <? repairAttempts st then Some (repairAttempts st) else None;
     cp_repair := if 0 <? repairAttempts st then Some (repair st) else None |}.

Definition publishInFlightCheckpoint (ctx : ExecutorRequestContext) (st : ExecutionState) : M unit :=
  match onCheckpoint (in_callbacks (rc_input ctx)) with
  | None => ret tt
  | Some f =>
      at_ <- ask (now host) ;;
      let c := inFlightCheckpoint ctx st at_ in
      emit (Checkpoint c) ;; lift (f c)
  end.

(** ** The end of a round *)

(** The answer shown for a suspended turn the model gave no text for. *)
Definition approval_sentence (toolName approvalId reason : string) : string :=
  "Tool " +:+ in_quotes toolName +:+ " requires approval (" +:+ approvalId +:+ "): " +:+ reason.

Definition resolveOutput (st : ExecutionState) (content : string) : string :=
  if negb (suspended st) || truthy content then content
  else match last (toolCalls st) with
       | Some r => match rec_result r with
                   | RResult (ToolPending reason approvalId _ _ _) =>
                       approval_sentence (rec_toolName r) approvalId reason
                   | _ => content
                   end
       | None => content
       end.

Definition toResult (ctx : ExecutorRequestContext) (st : ExecutionState) (content : string) : AgentResult :=
  {| res_sessionId := in_sessionId (rc_input ctx); res_output := resolveOutput st content;
     res_toolCalls := toolCalls st; res_usage := Some (usage st); res_durationMs := None; res_structured := structured st |}.

Definition refusal_of (response : ModelResponse) : option string :=
  match resp_refusal response with
  | Some r => if truthy r then Some r else None
  | None => None
  end.

Definition queue_repair (st : ExecutionState) (content : string) (issues : list string) : ExecutionState :=
  let answer := if truthy (trim content) then [AssistantMsg content None] else [] in
  set_repair (repair st ++ answer ++ [UserMsg (Structured.repairPrompt issues)]) (repairAttempts st + 1) st.

Definition rejectOutput (ctx : ExecutorRequestContext) (st : ExecutionState) (response : ModelResponse)
    : M (option (list string) * ExecutionState) :=
  match in_structuredOutput (rc_input ctx) with
  | None => ret (None, st)
  | Some spec =>
      if suspended st then ret (None, st)
      else
        let content := resp_content response in
        let refusal := refusal_of response in
        verdict <- match refusal with
                   | Some r => ret (Invalid ["$: the model refused to answer: " +:+ r])
                   | None => Structured.checkStructuredOutput (regex host) (parse_message host) spec content
                   end ;;
        match verdict with
        | Valid v => ret (None, set_structured v st)
        | Invalid issues =>
            if is_some refusal ||
               num_le (Structured.maxRepairAttemptsOf spec) (num_of_Z (repairAttempts st)) then
              publishTranscript ctx st content ;;
              throw (AgenticErr (StructuredOutputError content issues (repairAttempts st) refusal))
            else ret (Some issues, queue_repair st content issues)
        end
  end.

(** ** The loops *)

(** Where one round leaves a turn. *)
Inductive round_result (A : Type) : Type := Again (st : ExecutionState) | Done (a : A).
Arguments Again {A} _.
Arguments Done {A} _.

(** How [runToCompletion] ends a round. *)
Definition finish_run (ctx : ExecutorRequestContext) (response : ModelResponse) (finished : bool)
    (st1 : ExecutionState) : M (round_result AgentResult) :=
  if finished then
    let* (rejected, st2) := rejectOutput ctx st1 response in
    match rejected with
    | Some _ => publishInFlightCheckpoint ctx st2 ;; ret (Again st2)
    | None =>
        let result := toResult ctx st2 (resp_content response) in
        publishCheckpoint ctx st2 ;;
        publishTranscript ctx st2 (resp_content response) ;;
        ret (Done result)
    end
  else publishInFlightCheckpoint ctx st1 ;; ret (Again st1).

(** The body of the loop of [runToCompletion]. *)
Definition run_round (adapter : ModelAdapter) (ctx : ExecutorRequestContext) (limits : ExecutionLimits)
    (scope : Scope) (handling : ToolErrorHandling) (st0 : ExecutionState) : M (round_result AgentResult) :=
  assertWithinBudget st0 limits scope ;;
  let* (request, st) := buildRequest ctx st0 in
  notify ctx st (NotifyModelRequest (in_model (rc_input ctx)) (iteration st) (req_messages request)) ;;
  emit (Generate request) ;;
  response <- lift (adapter_generate adapter request) ;;
  notify ctx st (NotifyModelResponse (in_model (rc_input ctx)) (iteration st) response) ;;
  let* (finished, st1, _) := applyModelRound ctx st response limits scope handling in
  finish_run ctx response finished st1.

(** [while (true)], on fuel. *)
Fixpoint loop {A} (round : ExecutionState -> M (round_result A)) (fuel : nat) (st : ExecutionState) : M A :=
  match fuel with
  | O => diverge
  | S fuel' =>
      r <- round st ;;
      match r with
      | Again st' => loop round fuel' st'
      | Done a => ret a
      end
  end.

(** One round per iteration left, and the check that ends the turn. *)
Definition loop_fuel (limits : ExecutionLimits) (st : ExecutionState) : nat :=
  S (Z.to_nat (coalesce (maxIterations limits) 0 - iteration st)).

Definition runToCompletion (adapter : ModelAdapter) (ctx : ExecutorRequestContext) (st : ExecutionState)
    (limits : ExecutionLimits) (handling : ToolErrorHandling) : M AgentResult :=
  scope <- createScope (in_signal (rc_input ctx)) (timeoutMs limits) ;;
  loop (run_round adapter ctx limits scope handling) (loop_fuel limits st) st.

(** *** Streaming *)

Definition yield (e : AgentStreamEvent) : M unit := emit (Yield e).

Fixpoint yield_all (es : list AgentStreamEvent) : M unit :=
  match es with
  | [] => ret tt
  | e :: rest => yield e ;; yield_all rest
  end.

(** The chunks of a stream: tokens are yielded, the last response is kept. *)
Fixpoint read_chunks (chunks : list ModelStreamChunk) (response : option ModelResponse)
    : M (option ModelResponse) :=
  match chunks with
  | [] => ret response
  | TokenChunk text :: rest =>
      when (truthy text) (yield (EvToken text)) ;; read_chunks rest response
  | ResponseChunk r :: rest => read_chunks rest (Some r)
  end.

Definition streamed_response (adapter : ModelAdapter) (request : ModelRequest) : M ModelResponse :=
  match adapter_stream adapter with
  | Some stream =>
      emit (OpenStream request) ;;
      let* (chunks, ending) := lift (fun w => let '(c, e, w') := stream request w in (Ret (c, e), w')) in
      response <- read_chunks chunks None ;;
      lift (fun w => (ending, w)) ;;
      match response with
      | Some r => ret r
      | None => throw (NativeErr "Error"
                         ("ModelAdapter.stream() completed without emitting a final " +:+
                          in_quotes "response" +:+ " chunk."))
      end
  | None =>
      emit (Generate request) ;;
      response <- lift (adapter_generate adapter request) ;;
      when (truthy (resp_content response)) (yield (EvToken (resp_content response))) ;;
      ret response
  end.

(** How [streamToCompletion] ends a round. *)
Definition finish_stream (ctx : ExecutorRequestContext) (response : ModelResponse) (finished : bool)
    (st1 : ExecutionState) : M (round_result unit) :=
  if finished then
    let* (rejected, st2) := rejectOutput ctx st1 response in
    match rejected with
    | Some issues =>
        publishInFlightCheckpoint ctx st2 ;;
        yield (EvOutputRejected (repairAttempts st2) issues) ;;
        ret (Again st2)
    | None =>
        let output := resolveOutput st2 (resp_content response) in
        publishCheckpoint ctx st2 ;;
        publishTranscript ctx st2 output ;;
        yield (EvFinalAnswer (in_sessionId (rc_input ctx)) output (Some (usage st2)) (structured st2)) ;;
        yield (EvComplete (in_sessionId (rc_input ctx)) output) ;;
        ret (Done tt)
    end
  else publishInFlightCheckpoint ctx st1 ;; ret (Again st1).

(** The body of the loop of [streamToCompletion]. *)
Definition stream_round (adapter : ModelAdapter) (ctx : ExecutorRequestContext) (limits : ExecutionLimits)
    (scope : Scope) (handling : ToolErrorHandling) (st0 : ExecutionState) : M (round_result unit) :=
  assertWithinBudget st0 limits scope ;;
  let* (request, st) := buildRequest ctx st0 in
  notify ctx st (NotifyModelRequest (in_model (rc_input ctx)) (iteration st) (req_messages request)) ;;
  response <- streamed_response adapter request ;;
  notify ctx st (NotifyModelResponse (in_model (rc_input ctx)) (iteration st) response) ;;
  let* (finished, st1, pendingEvents) := applyModelRound ctx st response limits scope handling in
  yield_all pendingEvents ;;
  finish_stream ctx response finished st1.

Definition streamToCompletion (adapter : ModelAdapter) (ctx : ExecutorRequestContext) (st : ExecutionState)
    (limits : ExecutionLimits) (handling : ToolErrorHandling) : M unit :=
  scope <- createScope (in_signal (rc_input ctx)) (timeoutMs limits) ;;
  loop (stream_round adapter ctx limits scope handling) (loop_fuel limits st) st.

(** ** Initial states *)

Definition system_prefix (instructions : option string) : list ModelMessage :=
  match instructions with
  | Some i => if truthy i then [SystemMsg i] else []
  | None => []
  end.

Definition createState (input : AgentExecutionInput) : M ExecutionState :=
  id <- lift (randomUUID host) ;;
  ret (fresh_state id
         (system_prefix (in_instructions (ex_input input)) ++ coalesce (ex_history input) [] ++
          [UserMsg (ex_message input)]) []).

Definition is_withheld (toolCallId : string) (m : ModelMessage) : bool :=
  match m with ToolMsg i _ _ _ => bool_decide (i = toolCallId) | _ => false end.

(** The withheld message with the decision in place of its payload. *)
Definition resolve_message (outcome : ToolExecutionResult) (m : ModelMessage) : ModelMessage :=
  match m with
  | ToolMsg i n _ _ => ToolMsg i n (json (result_value outcome)) (result_provenance outcome)
  | _ => m
  end.

Definition createResumedState (input : AgentResumeInput) : M ExecutionState :=
  let ms := system_prefix (in_instructions (rs_input input)) ++ rs_history input in
  match find_index (is_withheld (rs_toolCallId input)) ms with
  | None => throw (AgenticErr (ApprovalTranscriptMissingError (rs_toolCallId input)))
  | Some index =>
      id <- lift (randomUUID host) ;;
      ret (fresh_state id (alter (resolve_message (rs_outcome input)) index ms)
             [{| rec_toolName := rs_toolName input; rec_args := rs_args input;
                 rec_result := RResult (rs_outcome input) |}])
  end.

Definition createCheckpointState (input : AgentResumeCheckpointInput) : M ExecutionState :=
  let c := rk_checkpoint input in
  if negb (cp_version c =? INFLIGHT_CHECKPOINT_VERSION) then
    throw (AgenticErr (InFlightCheckpointVersionError (cp_executionId c) (cp_version c)
                         INFLIGHT_CHECKPOINT_VERSION))
  else
    ret {| executionId := cp_executionId c; messages := cp_messages c; toolCalls := [];
           usage := cp_usage c; toolCallCount := cp_toolCallCount c; iteration := cp_iteration c;
           suspended := false; suspendedApprovalId := None; repair := coalesce (cp_repair c) [];
           repairAttempts := coalesce (cp_repairAttempts c) 0; structured := None |}.

(** ** The methods *)

(** What the six entry points share once their state is made. *)
Definition start {A} (complete_ : ModelAdapter -> ExecutorRequestContext -> ExecutionState ->
                                  ExecutionLimits -> ToolErrorHandling -> M A)
    (input : ExecutorInput) (toolCallId : option string) (state : M ExecutionState) : M A :=
  let limits := resolveLimits (in_limits input) in
  let handling := coalesce (in_toolErrorHandling input) DEFAULT_TOOL_ERROR_HANDLING in
  st <- state ;;
  let ctx := createRequestContext input toolCallId in
  adapter <- resolveEffectiveAdapter (in_cascade input) (in_observerNotifier input) ;;
  complete_ adapter ctx st limits handling.

Definition execute (input : AgentExecutionInput) : M AgentResult :=
  start runToCompletion (ex_input input) None (createState input).
Definition stream (input : AgentExecutionInput) : M unit :=
  start streamToCompletion (ex_input input) None (createState input).
Definition resume (input : AgentResumeInput) : M AgentResult :=
  start runToCompletion (rs_input input) (Some (rs_toolCallId input)) (createResumedState input).
Definition resumeStream (input : AgentResumeInput) : M unit :=
  start streamToCompletion (rs_input input) (Some (rs_toolCallId input)) (createResumedState input).
Definition resumeCheckpoint (input : AgentResumeCheckpointInput) : M AgentResult :=
  start runToCompletion (rk_input input) None (createCheckpointState input).
Definition resumeCheckpointStream (input : AgentResumeCheckpointInput) : M unit :=
  start streamToCompletion (rk_input input) None (createCheckpointState input).

End Executor.
Arguments Again {A} _.
Arguments Done {A} _.
End Executor.
