(* ===== verification/ExecutorRules.v ===== *)
(** * Proof rules for the agent loop

    A rule per operation of [Executor]: which events it may emit and how it
    changes the state.  The theorem files apply them instead of unfolding the
    operations.  Then a concrete turn ([Demo]) and what reaches a tool ([Tools]). *)

From S2P Require Export Executor.

#[local] Open Scope string_scope.
#[local] Open Scope list_scope.
#[local] Open Scope Z_scope.

Module Rules.
Import Executor.

(** ** Kinds of events *)

Definition is_model_call (e : event) : bool :=
  match e with Generate _ | OpenStream _ => true | _ => false end.
Definition is_execute (e : event) : bool := match e with Execute _ _ _ => true | _ => false end.
Definition is_notify (e : event) : bool := match e with Notify _ => true | _ => false end.
Definition is_reduce (e : event) : bool := match e with Reduce _ => true | _ => false end.
Definition is_yield (e : event) : bool := match e with Yield _ => true | _ => false end.
Definition is_checkpoint (e : event) : bool := match e with Checkpoint _ => true | _ => false end.
Definition is_suspend (e : event) : bool := match e with Suspend _ _ _ => true | _ => false end.
Definition is_transcript (e : event) : bool := match e with Transcript _ => true | _ => false end.

(** The kinds a tool phase may emit. *)
Definition is_tool_phase (e : event) : bool :=
  match e with Execute _ _ _ | Sanitize _ | Notify _ => true | _ => false end.

Definition all (p : event -> bool) (l : list event) : Prop := Forall (fun e => p e = true) l.

Lemma all_nil p : all p [].
Proof. constructor. Qed.
Lemma all_cons p e l : p e = true -> all p l -> all p (e :: l).
Proof. by constructor. Qed.
Lemma all_app p l1 l2 : all p l1 -> all p l2 -> all p (l1 ++ l2).
Proof. intros. by apply Forall_app. Qed.

(** A list of one kind holds no event of a disjoint kind. *)
Lemma all_count p q l : all p l -> (forall e, p e = true -> q e = false) -> count q l = O.
Proof. intros H Hd. apply count_zero. eapply Forall_impl; [exact H|]. intros e He; simpl in He. by apply Hd. Qed.

Lemma all_impl p q l : all p l -> (forall e, p e = true -> q e = true) -> all q l.
Proof. intros H Hd. eapply Forall_impl; [exact H|]. intros e He. by apply Hd. Qed.

#[export] Hint Resolve all_nil all_cons all_app : eff.

(** A limit that is not reached yet. *)
Definition below (limit : option Z) (x : Z) : Prop :=
  match limit with Some n => x < n | None => True end.

(** What a tool phase leaves unchanged. *)
Definition frame (s s' : ExecutionState) : Prop :=
  executionId s' = executionId s /\ usage s' = usage s /\ iteration s' = iteration s /\
  repair s' = repair s /\ repairAttempts s' = repairAttempts s /\ structured s' = structured s.

#[export] Instance frame_preorder : PreOrder frame.
Proof. split; unfold frame; [intros ?; by split_and!|intros ? ? ? ? ?; intuition congruence]. Qed.

(** A tool message that says its call awaits an approval. *)
Definition asks_approval (m : ModelMessage) (id : string) : Prop :=
  exists call reason required signed p,
    m = tool_message call (PayloadRecorded (RResult (ToolPending reason id required signed p))).

(** A suspended turn ends with the message of the call it withheld. *)
Definition withheld_last (s : ExecutionState) : Prop :=
  exists id m, suspendedApprovalId s = Some id /\ last (messages s) = Some m /\ asks_approval m id.

Section Rules.
Context {W : Type} (self : AgentExecutor (W:=W)) (host : Host (W:=W)).
Implicit Types (ctx : ExecutorRequestContext (W:=W)) (st : ExecutionState) (w : W).

Lemma wp_notify ctx st p w Q :
  (forall w' l, all is_notify l -> Q (Ret tt) w' l) -> wp (notify ctx st p) w Q.
Proof.
  intros H. unfold notify. destruct (in_observerNotifier _); [|apply H; constructor].
  wp_steps. apply H. by repeat constructor.
Qed.

Lemma wp_assertNotAborted scope limits w Q :
  (aborted host scope w = false -> Q (Ret tt) w []) ->
  (forall e, aborted host scope w = true ->
     e = ExecutionCancelledError None \/ (exists n, e = ExecutionLimitExceededError LTimeout n) ->
     Q (Throw (AgenticErr e)) w []) ->
  wp (assertNotAborted host scope limits) w Q.
Proof.
  intros H1 H2. unfold assertNotAborted. wp_steps. simpl.
  destruct (aborted host scope w); simpl; [|by apply H1].
  destruct (timedOut host scope w); apply H2; eauto.
Qed.

(** A limit check, as the loop writes it. *)
Lemma wp_limit (limit : option Z) (x : Z) (e : Z -> error) w Q :
  (below limit x -> Q (Ret tt) w []) -> (forall n, Q (Throw (e n)) w []) ->
  wp (match limit with
      | Some n => if n <=? x then throw (e n) else ret tt
      | None => ret tt
      end : M error event W unit) w Q.
Proof.
  intros H1 H2. destruct limit as [n|]; simpl; [|by apply wp_ret, H1].
  destruct (Z.leb_spec n x); [apply wp_throw, H2|by apply wp_ret, H1].
Qed.

Lemma wp_assertWithinBudget st limits scope w Q :
  (aborted host scope w = false -> below (maxIterations limits) (iteration st) ->
   below (maxTotalTokens limits) (coalesce (totalTokens (usage st)) 0) -> Q (Ret tt) w []) ->
  (forall e, Q (Throw (AgenticErr e)) w []) ->
  wp (assertWithinBudget host st limits scope) w Q.
Proof.
  intros H1 H2. unfold assertWithinBudget. wp_step.
  apply wp_assertNotAborted; [intros Ha; cbn [wp_cont]|intros; simpl; apply H2].
  wp_step. apply wp_limit; [intros Hi; cbn [wp_cont app]|intros; simpl; apply H2].
  apply wp_limit; [intros Ht; by apply H1|intros; apply H2].
Qed.

(** What a reduction may send: the transcript itself, or an accepted projection. *)
Definition projection_of ctx (before : list ModelMessage) (projected after : list ModelMessage) : Prop :=
  match in_messageReducer (rc_input ctx) with
  | None => projected = before /\ after = before
  | Some reduce =>
      exists r c w w', reduce before c w = (Ret r, w') /\ after = input_after r /\ projected = (if same_array r then input_after r else reduced r) /\
        Validate.validateReduction (reduced r) (same_array r) (input_after r)
          (Validate.fingerprintTranscript before) (rc_pendingToolCallId ctx) = None
  end.

Lemma wp_projectMessages ctx st w Q :
  (forall o w' l, all is_reduce l ->
     match o with
     | Ret (ms, st') => exists after, st' = set_messages (fun _ => after) st /\
                                      projection_of ctx (messages st) ms after
     | _ => True
     end -> Q o w' l) ->
  wp (projectMessages ctx st) w Q.
Proof.
  intros H. unfold projectMessages, projection_of in *. destruct (in_messageReducer _) as [red|].
  - wp_steps. destruct o as [r|e|]; simpl.
    + destruct (Validate.validateReduction _ _ _ _ _) eqn:Hv; wp_step; apply H.
      * by repeat constructor.
      * done.
      * by repeat constructor.
      * exists (input_after r). split; [done|]. by eexists _, _, _, _.
    + apply H; [by repeat constructor|done].
    + apply H; [by repeat constructor|done].
  - wp_step. apply H; [constructor|]. exists (messages st). split; [by destruct st|done].
Qed.

(** The messages of a request, given what was projected. *)
Definition request_messages ctx (projected repair_ : list ModelMessage) : list ModelMessage :=
  match in_structuredOutput (rc_input ctx) with
  | Some spec => if native_structured self then projected ++ repair_
                 else withSystemInstruction (projected ++ repair_)
                        (Structured.structuredOutputInstruction spec)
  | None => projected ++ repair_
  end.

Lemma wp_buildRequest ctx st w Q :
  (forall o w' l, all is_reduce l ->
     match o with
     | Ret (req, st') => exists projected after, st' = set_messages (fun _ => after) st /\
         projection_of ctx (messages st) projected after /\
         req_messages req = request_messages ctx projected (repair st)
     | _ => True
     end -> Q o w' l) ->
  wp (buildRequest self ctx st) w Q.
Proof.
  intros H. unfold buildRequest. wp_step. apply wp_projectMessages.
  intros [[ms st']|e|] w' l Hl Ho; simpl; [|by apply H..].
  destruct Ho as (after & -> & Hp). wp_step. rewrite app_nil_r. apply H; [done|].
  by exists ms, after.
Qed.

(** ** Tool calls *)

(** The message a call's result is, whatever its payload. *)
Definition answers_call (call : ModelToolCall) (m : ModelMessage) : Prop :=
  is_tool m = true /\ tool_id m = call_id call.

Lemma tool_message_answers call p : answers_call call (tool_message call p).
Proof. done. Qed.

Definition call_post limits (call : ModelToolCall) st
    (o : outcome error (call_flow * ExecutionState * list AgentStreamEvent)) (l : list event) : Prop :=
  all is_tool_phase l /\ (count is_execute l <= 1)%nat /\
  (count is_execute l <> O -> below (maxToolCalls limits) (toolCallCount st)) /\
  match o with
  | Ret (flow, st', _) =>
      frame st st' /\ toolCallCount st' = toolCallCount st + 1 /\
      below (maxToolCalls limits) (toolCallCount st) /\
      (exists m, messages st' = messages st ++ [m] /\ answers_call call m) /\
      match flow with
      | NextCall => suspended st' = suspended st /\ suspendedApprovalId st' = suspendedApprovalId st
      | SuspendTurn => suspended st' = true /\ withheld_last st'
      end
  | _ => True
  end.

Lemma notify_phase l : all is_notify l -> all is_tool_phase l.
Proof. intros H. eapply all_impl; [exact H|]. by intros []. Qed.

Lemma notify_no_execute l : all is_notify l -> count is_execute l = O.
Proof. intros H. eapply all_count; [exact H|]. by intros []. Qed.

Lemma wp_toFailurePayload err tool args w Q :
  (forall o w' l, all is_tool_phase l -> count is_execute l = O -> Q o w' l) ->
  wp (toFailurePayload err tool args) w Q.
Proof.
  intros H. unfold toFailurePayload. wp_step. destruct (tool_sanitizeErrorMessage tool).
  - wp_steps. destruct o as [s|e'|]; simpl; wp_steps;
      apply H; by repeat constructor.
  - wp_steps. apply H; by repeat constructor.
Qed.

Lemma wp_handle_tool_error ctx limits scope handling tool call args st evs err w Q :
  (forall o w' l, all is_tool_phase l -> count is_execute l = O ->
     match o with
     | Ret (flow, st', _) =>
         flow = NextCall /\ frame st st' /\ toolCallCount st' = toolCallCount st /\
         suspended st' = suspended st /\ suspendedApprovalId st' = suspendedApprovalId st /\
         (exists m, messages st' = messages st ++ [m] /\ answers_call call m)
     | _ => True
     end -> Q o w' l) ->
  wp (handle_tool_error host ctx limits scope handling tool call args st evs err) w Q.
Proof.
  intros H. unfold handle_tool_error.
  destruct err as [e|n m|r]; [wp_step; apply H; by repeat constructor|..].
  all: wp_step; apply wp_assertNotAborted; [intros _|intros; apply H; by repeat constructor].
  all: cbn; destruct (decide _); [wp_step; apply H; by repeat constructor|].
  all: wp_step; apply wp_toFailurePayload; intros [f|e|] w1 l1 Hl1 Hc1; simpl; [|by apply H..].
  all: wp_step; apply wp_notify; intros w2 l2 Hl2; simpl; wp_step; rewrite app_nil_r; apply H.
  1,4: apply all_app; [done|by apply notify_phase].
  1,3: by rewrite count_app, Hc1, (notify_no_execute _ Hl2).
  all: split_and!; try done; by eexists.
Qed.

Lemma wp_handle_tool_result ctx tool call args st evs result w Q :
  (forall w' l flow st' evs', all is_notify l ->
     frame st st' -> toolCallCount st' = toolCallCount st ->
     (exists m, messages st' = messages st ++ [m] /\ answers_call call m) ->
     match flow with
     | NextCall => suspended st' = suspended st /\ suspendedApprovalId st' = suspendedApprovalId st
     | SuspendTurn => suspended st' = true /\ withheld_last st'
     end -> Q (Ret (flow, st', evs')) w' l) ->
  wp (handle_tool_result ctx tool call args st evs result) w Q.
Proof.
  intros H. unfold handle_tool_result. wp_step. apply wp_notify. intros w1 l1 Hl1. simpl.
  destruct result; simpl; wp_step; rewrite app_nil_r; apply H; try done; try (by eexists).
  split; [done|]. eexists _, _. split; [done|]. split; [apply last_snoc|]. by eexists _, _, _, _, _.
Qed.

(** A call that is answered without running a tool. *)
Lemma call_post_answered limits call st p evs :
  below (maxToolCalls limits) (toolCallCount st) ->
  call_post limits call st (Ret (NextCall, pushToolMessage (incr_toolCallCount st) call p, evs)) [].
Proof.
  intros Hb. split; [constructor|]. split; [rewrite count_nil; lia|]. split; [done|]. split; [done|].
  split; [done|]. split; [done|]. split; [by eexists|done].
Qed.

Lemma call_post_stopped limits call st e l :
  all is_tool_phase l -> count is_execute l = O ->
  call_post limits call st (Throw e) l.
Proof. intros Hl Hc. split; [done|]. rewrite Hc. split; [lia|]. by split. Qed.

Lemma wp_handle_call ctx limits scope handling st evs call w Q :
  (forall o w' l, call_post limits call st o l -> Q o w' l) ->
  wp (handle_call host ctx limits scope handling st evs call) w Q.
Proof.
  intros H. unfold handle_call. wp_step.
  apply wp_assertNotAborted; [intros _; cbn [wp_cont]|intros; by apply H, call_post_stopped; [constructor|]].
  wp_step. apply wp_limit; [intros Hb; cbn [wp_cont app]|intros; by apply H, call_post_stopped; [constructor|]].
  destruct (find_first _ _) as [tool|]; cbn [negb]; [|wp_step; by apply H, call_post_answered].
  destruct (ToolArgs.valid _) eqn:Hv; cbn [negb]; cycle 1.
  { wp_step. by apply H, call_post_answered. }
  wp_step. apply wp_notify. intros w1 l1 Hl1. cbn [wp_cont].
  wp_steps. set (e := Execute _ _ _). assert (forall l2, all is_tool_phase l2 -> all is_tool_phase (l1 ++ e :: l2)) as Hp.
  { intros l2 H2. apply all_app; [by apply notify_phase|]. by constructor. }
  assert (forall l2, count is_execute l2 = O -> count is_execute (l1 ++ e :: l2) = 1%nat) as Hc.
  { intros l2 H2. rewrite count_app, count_cons, H2, (notify_no_execute _ Hl1). done. }
  destruct o as [result|err|]; cbn; wp_steps.
  - apply wp_handle_tool_result. intros w2 l2 flow st' evs' Hl2 Hf Htc Hm Hs. apply H.
    split; [by apply Hp, notify_phase|]. split; [rewrite Hc by (by apply notify_no_execute); lia|].
    split; [done|]. by split_and!.
  - apply wp_handle_tool_error. intros o2 w2 l2 Hl2 Hc2 Ho. apply H.
    split; [by apply Hp|]. split; [by rewrite Hc|]. split; [done|]. destruct o2 as [[[flow st'] evs']|e2|]; [|done..].
    destruct Ho as (-> & Hf & Htc & Hs & Hsa & Hm). by split_and!.
  - apply H. split; [by apply Hp, all_nil|]. split; [by rewrite Hc|]. by split.
Qed.

(** The tool executions a budget still allows. *)
Definition exec_budget (limit : option Z) (used : Z) (l : list event) : Prop :=
  match limit with Some n => Z.of_nat (count is_execute l) <= Z.max 0 (n - used) | None => True end.

(** Answers to the first of the requested calls, in order. *)
Definition answers_calls (calls : list ModelToolCall) (rs : list ModelMessage) : Prop :=
  Forall2 answers_call (take (length rs) calls) rs.

Definition calls_post limits (calls : list ModelToolCall) st
    (o : outcome error (bool * ExecutionState * list AgentStreamEvent)) (l : list event) : Prop :=
  all is_tool_phase l /\ exec_budget (maxToolCalls limits) (toolCallCount st) l /\
  match o with
  | Ret (finished, st', _) =>
      frame st st' /\
      toolCallCount st + Z.of_nat (count is_execute l) <= toolCallCount st' /\
      (toolCallCount st' = toolCallCount st \/ below (maxToolCalls limits) (toolCallCount st' - 1)) /\
      exists rs, messages st' = messages st ++ rs /\ answers_calls calls rs /\
        if finished : bool then
          rs <> [] /\ suspended st' = true /\ withheld_last st'
        else length rs = length calls /\ suspended st' = suspended st /\
             suspendedApprovalId st' = suspendedApprovalId st
  | _ => True
  end.

Lemma call_post_budget limits call st o l :
  call_post limits call st o l -> exec_budget (maxToolCalls limits) (toolCallCount st) l.
Proof.
  intros (_ & H1 & H2 & _). unfold exec_budget, below in *. destruct (maxToolCalls limits) as [n|]; [|done].
  destruct (count is_execute l) as [|[|]] eqn:Hc; [lia| |lia]. specialize (H2 ltac:(lia)). lia.
Qed.

Lemma wp_handle_calls ctx limits scope handling calls st evs w Q :
  (forall o w' l, calls_post limits calls st o l -> Q o w' l) ->
  wp (handle_calls host ctx limits scope handling st evs calls) w Q.
Proof.
  revert st evs w Q. induction calls as [|call calls IH]; intros st evs w Q H; simpl.
  { wp_step. apply H. split_and!; [constructor|unfold exec_budget; destruct (maxToolCalls _); rewrite ?count_nil; simpl; lia|done|rewrite count_nil; simpl; lia|by left|].
    exists []. rewrite app_nil_r. by repeat constructor. }
  wp_step. apply wp_handle_call. intros o1 w1 l1 Hc. pose proof (call_post_budget _ _ _ _ _ Hc) as Hbud.
  destruct Hc as (Hl1 & Hn1 & _ & Ho). destruct o1 as [[[flow st1] evs1]|e|]; simpl; [|by apply H..].
  destruct Ho as (Hf1 & Htc1 & Hb1 & (m & Hm1 & Ham) & Hflow). destruct flow; cycle 1.
  { wp_step. rewrite app_nil_r. apply H. split_and!; [done|done|done|lia|right; by rewrite Htc1, Z.add_simpl_r|].
    exists [m]. split; [done|]. split; [|by destruct Hflow]. unfold answers_calls. simpl.
    rewrite take_0. by constructor. }
  apply IH. intros o2 w2 l2 (Hl2 & Hbud2 & Ho2). apply H.
  split_and!; [by apply all_app| |].
  { unfold exec_budget in *. destruct (maxToolCalls limits); [|done]. simpl in Hb1.
    rewrite count_app. lia. }
  destruct o2 as [[[fin st2] evs2]|e2|]; [|done..].
  destruct Ho2 as (Hf2 & Htc2 & Hb2 & rs & Hm2 & Ha2 & Hfin).
  split_and!; [by etransitivity|rewrite count_app; lia| |].
  { right. destruct Hb2 as [->|Hb2]; [by rewrite Htc1, Z.add_simpl_r|done]. }
  exists (m :: rs). rewrite Hm2, Hm1, <- app_assoc. split_and!; [done|by constructor|].
  destruct Hflow as [Hs1 Hs2]. destruct fin; [by destruct Hfin as (? & ? & ?)|].
  simpl. destruct Hfin as (? & ? & ?). split_and!; congruence.
Qed.

(** ** A model round *)

(** The state after a round recorded its response, before its calls. *)
Definition recorded st (response : ModelResponse) : ExecutionState :=
  set_usage (accumulateUsage (usage st) (resp_usage response)) (incr_iteration st).

Definition round_post limits (response : ModelResponse) st
    (o : outcome error (bool * ExecutionState * list AgentStreamEvent)) (l : list event) : Prop :=
  all is_tool_phase l /\ exec_budget (maxToolCalls limits) (toolCallCount st) l /\
  match o with
  | Ret (finished, st', _) =>
      executionId st' = executionId st /\ iteration st' = iteration st + 1 /\
      usage st' = accumulateUsage (usage st) (resp_usage response) /\
      repairAttempts st' = repairAttempts st /\ structured st' = structured st /\
      toolCallCount st + Z.of_nat (count is_execute l) <= toolCallCount st' /\
      (toolCallCount st' = toolCallCount st \/ below (maxToolCalls limits) (toolCallCount st' - 1)) /\
      match coalesce (resp_toolCalls response) [] with
      | [] => finished = true /\ messages st' = messages st /\ repair st' = repair st /\
              suspended st' = suspended st /\ suspendedApprovalId st' = suspendedApprovalId st /\ l = []
      | calls =>
          repair st' = [] /\
          exists rs, messages st' = messages st ++ repair st ++
                                    AssistantMsg (resp_content response) (Some calls) :: rs /\
            answers_calls calls rs /\
            if finished : bool then
              rs <> [] /\ suspended st' = true /\ withheld_last st'
            else length rs = length calls /\ suspended st' = suspended st /\
                 suspendedApprovalId st' = suspendedApprovalId st
      end
  | _ => True
  end.

Lemma commit_repair_spec st :
  executionId (commit_repair st) = executionId st /\ usage (commit_repair st) = usage st /\
  iteration (commit_repair st) = iteration st /\ repairAttempts (commit_repair st) = repairAttempts st /\
  structured (commit_repair st) = structured st /\ toolCallCount (commit_repair st) = toolCallCount st /\
  suspended (commit_repair st) = suspended st /\
  suspendedApprovalId (commit_repair st) = suspendedApprovalId st /\
  repair (commit_repair st) = [] /\ messages (commit_repair st) = messages st ++ repair st.
Proof.
  unfold commit_repair. destruct (repair st) eqn:Hr; simpl; split_and!; try done. by rewrite app_nil_r.
Qed.

Lemma wp_applyModelRound ctx st response limits scope handling w Q :
  (forall o w' l, round_post limits response st o l -> Q o w' l) ->
  wp (applyModelRound host ctx st response limits scope handling) w Q.
Proof.
  intros H. unfold applyModelRound.
  destruct (coalesce (resp_toolCalls response) []) as [|call calls] eqn:Hcalls.
  { wp_step. apply H. split_and!; [constructor|unfold exec_budget; destruct (maxToolCalls _); rewrite ?count_nil; simpl; lia|done|done|done|done|done|rewrite count_nil; simpl; lia|by left|].
    rewrite Hcalls. by split_and!. }
  pose proof (commit_repair_spec (recorded st response)) as Hspec. cbv zeta.
  change (set_usage _ _) with (recorded st response).
  generalize dependent (commit_repair (recorded st response)).
  intros c (Ei & Eu & Eit & Era & Est & Etc & Es & Esa & Er & Em).
  apply wp_handle_calls. intros o w' l (Hl & Hb & Ho). simpl in Hb, Ho. rewrite Etc in Hb, Ho.
  apply H. split_and!; [done|done|].
  destruct o as [[[fin st'] evs']|e|]; [|done..].
  destruct Ho as ((Fi & Fu & Fit & Fr & Fra & Fst) & Ht1 & Ht2 & rs & Hm & Ha & Hf).
  simpl in *. rewrite Hcalls.
  split_and!; [congruence|by rewrite Fit, Eit|by rewrite Fu, Eu|congruence|congruence|done|done|congruence|].
  exists rs. rewrite Hm, Em. simpl. rewrite <- !app_assoc. simpl. split_and!; [done|done|].
  destruct fin; [done|]. by rewrite Es, Esa in Hf.
Qed.
(** ** Publishing *)

Definition transcript_events ctx st (output : string) : list event :=
  if is_some (onTranscript (in_callbacks (rc_input ctx)))
  then [Transcript (with_answer (messages st) output)] else [].

Lemma wp_publishTranscript ctx st output w Q :
  (forall o w', Q o w' (transcript_events ctx st output)) -> wp (publishTranscript ctx st output) w Q.
Proof.
  intros H. unfold publishTranscript, transcript_events in *.
  destruct (onTranscript _); wp_steps; apply H.
Qed.

Definition suspend_events ctx st : list event :=
  match suspendedApprovalId st with
  | Some id =>
      if is_some (onSuspend (in_callbacks (rc_input ctx))) && suspended st && truthy id
      then [Suspend id (messages st) (storedOf ctx)] else []
  | None => []
  end.

Lemma wp_publishCheckpoint ctx st w Q :
  (forall o w', Q o w' (suspend_events ctx st)) -> wp (publishCheckpoint ctx st) w Q.
Proof.
  intros H. unfold publishCheckpoint, suspend_events in *.
  destruct (onSuspend _), (suspendedApprovalId st); simpl in *; try (by wp_steps; apply H).
  destruct (suspended st && truthy s); wp_steps; apply H.
Qed.

Lemma wp_publishInFlightCheckpoint ctx st w Q :
  (forall o w' l,
     (l = [] /\ onCheckpoint (in_callbacks (rc_input ctx)) = None /\ o = Ret tt \/
      exists t, l = [Checkpoint (inFlightCheckpoint ctx st t)]) -> Q o w' l) ->
  wp (publishInFlightCheckpoint host ctx st) w Q.
Proof.
  intros H. unfold publishInFlightCheckpoint. destruct (onCheckpoint _).
  - wp_steps; apply H; right; by eexists.
  - wp_step. apply H. by left.
Qed.

Lemma wp_checkStructuredOutput regex parse spec (answer : string) w Q :
  (forall o w', Q o w' []) ->
  wp (Structured.checkStructuredOutput (E:=event) (W:=W) regex parse spec answer) w Q.
Proof.
  intros H. unfold Structured.checkStructuredOutput.
  destruct (Structured.parseJsonAnswer _ _); [|by wp_step; apply H].
  destruct (Structured.o_validate _); [|by wp_step; apply H].
  wp_step. wp_step. destruct o; simpl; [wp_step; apply H|apply H..].
Qed.

Definition reject_post ctx st (response : ModelResponse)
    (o : outcome error (option (list string) * ExecutionState)) (l : list event) : Prop :=
  match o with
  | Ret (None, st') => l = [] /\ (st' = st \/ exists v, suspended st = false /\ st' = set_structured v st)
  | Ret (Some issues, st') =>
      l = [] /\ suspended st = false /\ st' = queue_repair st (resp_content response) issues /\
      exists spec, in_structuredOutput (rc_input ctx) = Some spec /\
        num_le (Structured.maxRepairAttemptsOf spec) (num_of_Z (repairAttempts st)) = false
  | Throw _ | Diverge =>
      (l = [] \/ l = transcript_events ctx st (resp_content response) /\
                 (forall e, o = Throw e -> suspended st = false))
  end.

Lemma wp_rejectOutput ctx st response w Q :
  (forall o w' l, reject_post ctx st response o l -> Q o w' l) ->
  wp (rejectOutput host ctx st response) w Q.
Proof.
  intros H. unfold rejectOutput.
  destruct (in_structuredOutput _) as [spec|] eqn:Hspec; [|by wp_step; apply H; split; [|left]].
  destruct (suspended st) eqn:Hs; [by wp_step; apply H; split; [|left]|].
  wp_step. cut (forall verdict w0, wp (match verdict with
    | Valid v => ret (None, set_structured v st)
    | Invalid issues =>
        if is_some (refusal_of response) ||
           num_le (Structured.maxRepairAttemptsOf spec) (num_of_Z (repairAttempts st)) then
          bind (publishTranscript ctx st (resp_content response)) (fun _ =>
          throw (AgenticErr (StructuredOutputError (resp_content response) issues (repairAttempts st)
                               (refusal_of response))))
        else ret (Some issues, queue_repair st (resp_content response) issues)
    end) w0 (fun o w' l => Q o w' l)).
  { intros Hcut. destruct (refusal_of response) eqn:Hr.
    - wp_step. apply (Hcut (Invalid _)).
    - apply wp_checkStructuredOutput. intros o w'.
      destruct o as [v|e|]; cbn [wp_cont app]; [apply Hcut|..]; apply H; by left. }
  intros [v|issues] w0.
  - wp_step. apply H. split; [done|]. right. by eexists.
  - destruct (is_some _); simpl; cycle 1.
    + destruct (num_le _ _) eqn:Hn; [|wp_step; apply H; split_and!; try done; by eexists].
      wp_step. apply wp_publishTranscript. intros o w'. destruct o; cbn [wp_cont app];
        [wp_step; rewrite app_nil_r|..]; apply H; by right.
    + wp_step. apply wp_publishTranscript. intros o w'. destruct o; cbn [wp_cont app];
        [wp_step; rewrite app_nil_r|..]; apply H; by right.
Qed.

(** ** Streaming *)

Lemma wp_yield_all es w Q :
  (all is_yield (map Yield es) -> Q (Ret tt) w (map Yield es)) -> wp (yield_all es) w Q.
Proof.
  revert Q. induction es as [|e es IH]; intros Q H; simpl; [wp_step; apply H; constructor|].
  unfold yield. wp_steps. apply IH. intros Hes. apply H. by constructor.
Qed.

(** The events of reading a stream are the non-empty tokens. *)
Definition token_events (chunks : list ModelStreamChunk) : list event :=
  filter_map (fun c => match c with
                       | TokenChunk text => if truthy text then Some (Yield (EvToken text)) else None
                       | ResponseChunk _ => None
                       end) chunks.

Fixpoint last_response (chunks : list ModelStreamChunk) (acc : option ModelResponse) : option ModelResponse :=
  match chunks with
  | [] => acc
  | TokenChunk _ :: rest => last_response rest acc
  | ResponseChunk r :: rest => last_response rest (Some r)
  end.

Lemma token_events_yield chunks : all is_yield (token_events chunks).
Proof.
  unfold token_events. induction chunks as [|[text|r] chunks IH]; simpl; [constructor| |done].
  destruct (truthy text); [by constructor|done].
Qed.

Lemma read_chunks_run chunks acc w :
  read_chunks (W:=W) chunks acc w = (Ret (last_response chunks acc), w, token_events chunks).
Proof.
  revert acc. induction chunks as [|[text|r] chunks IH]; intros acc; simpl; [done| |apply IH].
  unfold bind, when, yield, token_events in *. simpl. destruct (truthy text); simpl; by rewrite IH.
Qed.

(** A streamed response: one call of the adapter, then tokens. *)
Lemma wp_streamed_response adapter request w Q :
  (forall o w' e l, e = Generate request \/ e = OpenStream request -> all is_yield l -> Q o w' (e :: l)) ->
  wp (streamed_response (W:=W) adapter request) w Q.
Proof.
  intros H. unfold streamed_response. destruct (adapter_stream adapter) as [stream|].
  - wp_steps. destruct (stream request w) as [[chunks ending] w1]. injection Hext as <- <-. simpl.
    wp_step. unfold wp at 1. rewrite read_chunks_run. cbn [wp_cont]. wp_steps.
    injection Hext as <- <-. pose proof (token_events_yield chunks).
    destruct ending as [[]|e|]; cbn [wp_cont]; rewrite ?app_nil_r; [|by apply H; [right|]..].
    destruct (last_response chunks None); wp_step; rewrite ?app_nil_r; by apply H; [right|].
  - wp_steps. destruct o as [r|e|]; cbn [wp_cont app]; [|by apply H; [left|constructor]..].
    wp_step. unfold when, yield. destruct (truthy _); wp_steps;
      (apply H; [by left|by repeat constructor]).
Qed.

(** ** Loops *)

(** An invariant over the state and everything emitted so far. *)
Lemma wp_loop {A} (round : ExecutionState -> M error event W (round_result A))
    (Inv : ExecutionState -> list event -> Prop) (Post : outcome error A -> list event -> Prop) fuel st w l0 :
  (forall st w l, Inv st l ->
     wp (round st) w (fun o _ l' =>
       match o with
       | Ret (Again st') => Inv st' (l ++ l')
       | Ret (Done a) => Post (Ret a) (l ++ l')
       | Throw e => Post (Throw e) (l ++ l')
       | Diverge => Post Diverge (l ++ l')
       end)) ->
  (forall st l, Inv st l -> Post Diverge l) ->
  Inv st l0 -> wp (loop round fuel st) w (fun o _ l => Post o (l0 ++ l)).
Proof.
  intros Hround Hfuel. revert st w l0. induction fuel as [|fuel IH]; intros st w l0 Hinv; simpl.
  { unfold wp, diverge. rewrite app_nil_r. by eapply Hfuel. }
  wp_step. eapply wp_mono; [by apply Hround|].
  intros [[st'|a]|e|] w' l' Ho; simpl; [|wp_step; by rewrite app_nil_r|done..].
  eapply wp_mono; [by apply IH|]. intros o w'' l'' Hp. by rewrite app_assoc.
Qed.
End Rules.
End Rules.

(** * A concrete turn

    A scripted model, two tools and an executor on which the theorems about the
    agent loop are instantiated.  The world counts the model calls made. *)

#[local] Open Scope string_scope.
#[local] Open Scope list_scope.
#[local] Open Scope Z_scope.

Module Demo.
Import Executor Rules.

Definition World : Type := nat.

Definition response (content : string) (calls : list ModelToolCall) : ModelResponse :=
  {| resp_content := content; resp_toolCalls := Some calls;
     resp_usage := Some {| inputTokens := Some 3; outputTokens := Some 4; totalTokens := None |};
     resp_finishReason := None; resp_refusal := None; resp_extra := [] |}.

(** The model answers its n-th call with the n-th line of the script. *)
Definition scripted (script : list ModelResponse) : ModelAdapter (W:=World) :=
  {| supportsStructuredOutput := false;
     adapter_generate := fun _ n => (Ret (nth n script (response "done" [])), S n);
     adapter_stream := None |}.

Definition call (id name : string) : ModelToolCall :=
  {| call_id := id; call_name := name; call_args := [("order", VStr "42"); ("extra", VNull)] |}.

Definition order_param : ToolParamSchema :=
  {| param_name := "order"; param_description := None; param_type := PNumber; param_required := true |}.

(** A tool that looks an order up, and one that needs an approval. *)
Definition lookup : ResolvedTool (W:=World) :=
  {| tool_name := "lookup"; tool_description := "Look an order up";
     tool_parameters := [order_param];
     tool_execute := fun args _ w => (Ret (ToolSuccess (VObj args) (Some (tool_provenance "lookup"))), w);
     tool_sanitizeErrorMessage := None |}.

Definition refund : ResolvedTool (W:=World) :=
  {| tool_name := "refund"; tool_description := "Refund an order";
     tool_parameters := [order_param];
     tool_execute := fun args id w => (Ret (ToolPending "needs a manager" ("approval-" +:+ id) None None None), w);
     tool_sanitizeErrorMessage := None |}.

(** A tool that fails with a message holding a secret, behind a broken sanitizer. *)
Definition leaky : ResolvedTool (W:=World) :=
  {| tool_name := "leaky"; tool_description := "Fails";
     tool_parameters := [];
     tool_execute := fun args id w => (Throw (NativeErr "Error" "token sk-123"), w);
     tool_sanitizeErrorMessage := Some (fun _ _ w => (Throw (NativeErr "Error" "broken rail"), w)) |}.

Definition callbacks : Callbacks (W:=World) :=
  {| onTranscript := Some (fun _ w => (Ret tt, w));
     onSuspend := Some (fun _ _ _ w => (Ret tt, w));
     onCheckpoint := Some (fun _ w => (Ret tt, w)) |}.

Definition input : ExecutorInput (W:=World) :=
  {| in_sessionId := "s1"; in_model := {| provider := None; model_name := "m"; model_options := [] |};
     in_cascade := None; in_tools := [lookup; refund; leaky]; in_agentName := Some "demo";
     in_traceId := None; in_parentTraceId := None; in_rootTraceId := None; in_signal := false;
     in_observerNotifier := None; in_messageReducer := None; in_structuredOutput := None;
     in_instructions := Some "Be brief."; in_limits := None; in_toolErrorHandling := None;
     in_callbacks := callbacks |}.

Definition host : Host (W:=World) :=
  {| caller_aborted := fun _ => false; timer_fired := fun _ _ _ => false; now := fun _ => 0;
     randomUUID := fun w => (Ret "exec-1", w); regex := fun _ => None;
     parse_message := fun _ => "Unexpected token" |}.

Definition executor (script : list ModelResponse) : AgentExecutor (W:=World) :=
  {| modelAdapter := Some (scripted script); withResilience := fun _ a => a |}.

Definition fresh (history : option (list ModelMessage)) : AgentExecutionInput (W:=World) :=
  {| ex_input := input; ex_message := "refund order 42"; ex_history := history |}.

(** The events of a run. *)
Definition events {A} (m : M error event World A) : list event := (m O).2.
Definition outcome_of {A} (m : M error event World A) : outcome error A := (m O).1.1.

Example demo_run :
  outcome_of (execute (executor [response EmptyString [call "c1" "lookup"]]) host (fresh None)) =
  Ret {| res_sessionId := "s1"; res_output := "done";
         res_toolCalls := [{| rec_toolName := "lookup"; rec_args := [("order", VNum (NDec 42 0))];
                              rec_result := RResult (ToolSuccess (VObj [("order", VNum (NDec 42 0))])
                                                       (Some (tool_provenance "lookup"))) |}];
         res_usage := Some {| inputTokens := Some 6; outputTokens := Some 8; totalTokens := Some 14 |};
         res_durationMs := None; res_structured := None |}.
Proof. vm_compute. reflexivity. Qed.

(** *** A suspension with a sibling call *)

Definition two_calls : list ModelResponse := [response EmptyString [call "c1" "refund"; call "c2" "lookup"]].

(** The transcript handed to [onSuspend]. *)
Definition suspended_messages (l : list event) : list ModelMessage :=
  match find_first is_suspend l with Some (Suspend _ ms _) => ms | _ => [] end.

Definition suspension : list ModelMessage :=
  suspended_messages (events (execute (executor two_calls) host (fresh None))).

(** Resuming it as the runner does, with the history of the checkpoint. *)
Definition resumption (history : list ModelMessage) : AgentResumeInput (W:=World) :=
  {| rs_input := input; rs_history := withoutSystemMessages history; rs_toolCallId := "c1";
     rs_toolName := "refund"; rs_args := [("order", VNum (NDec 42 0))];
     rs_outcome := ToolSuccess (VStr "refunded") (Some (tool_provenance "refund")) |}.

Definition requests (l : list event) : list ModelRequest :=
  filter_map (fun e => match e with Generate r | OpenStream r => Some r | _ => None end) l.

End Demo.

(** * Tool calls in the agent loop

    What reaches a tool, what a failing tool leaves behind, and in which order a
    suspension is published. *)

#[local] Open Scope string_scope.
#[local] Open Scope list_scope.
#[local] Open Scope Z_scope.

Module Tools.
Import Executor Rules.

Section Tools.
Context {W : Type} (host : Host (W:=W)).

(** ** What reaches a tool *)

(** An execution of a declared tool, requested by one of the calls, on arguments
    of the declared types. *)
Definition execution_ok (tools : list (ResolvedTool (W:=W))) (calls : list ModelToolCall) (e : event) : Prop :=
  match e with
  | Execute name id args =>
      exists tool call, tool ∈ tools /\ call ∈ calls /\ tool_name tool = name /\ call_name call = name /\
        call_id call = id /\ ToolArgs.typed_by (tool_parameters tool) args /\
        ToolArgs.valid (ToolArgs.validateToolArgs (tool_parameters tool) (Some (call_args call))) = true
  | _ => True
  end.

Lemma phase_execution_ok tools calls l :
  all is_tool_phase l -> count is_execute l = O -> Forall (execution_ok tools calls) l.
Proof.
  intros _ H. induction l as [|e l IH]; [constructor|]. rewrite count_cons in H.
  destruct (is_execute e) eqn:He; [lia|]. constructor; [by destruct e|by apply IH].
Qed.

Lemma notify_execution_ok tools calls l : all is_notify l -> Forall (execution_ok tools calls) l.
Proof. intros H. eapply Forall_impl; [exact H|]. by intros []. Qed.

Lemma execution_ok_mono tools calls calls' l :
  (forall c, c ∈ calls -> c ∈ calls') -> Forall (execution_ok tools calls) l ->
  Forall (execution_ok tools calls') l.
Proof.
  intros Hs H. eapply Forall_impl; [exact H|]. intros [] He; try done.
  destruct He as (t & c & ? & ? & ?). exists t, c. auto.
Qed.

Lemma handle_call_executions ctx limits scope handling st evs call w :
  wp (handle_call host ctx limits scope handling st evs call) w
    (fun _ _ l => Forall (execution_ok (in_tools (rc_input ctx)) [call]) l).
Proof.
  unfold handle_call. wp_step. apply wp_assertNotAborted; [intros _; cbn [wp_cont]|intros; constructor].
  wp_step. apply wp_limit; [intros _; cbn [wp_cont app]|intros; constructor].
  destruct (find_first _ _) as [tool|] eqn:Hf; [|wp_step; constructor].
  apply find_first_Some in Hf as [Hin Hname%bool_decide_eq_true]. cbv zeta.
  destruct (ToolArgs.valid _) eqn:Hv; cbn [negb]; [|wp_step; constructor].
  wp_step. apply wp_notify. intros w1 l1 Hl1. cbn [wp_cont]. wp_steps.
  set (tools := in_tools (rc_input ctx)) in *.
  assert (forall l2, Forall (execution_ok tools [call]) l2 ->
    Forall (execution_ok tools [call]) (l1 ++ Execute (tool_name tool) (call_id call)
       (ToolArgs.args (ToolArgs.validateToolArgs (tool_parameters tool) (Some (call_args call)))) :: l2)) as Hall.
  { intros l2 H2. apply Forall_app. split; [by apply notify_execution_ok|]. constructor; [|done].
    exists tool, call. split_and!; try done; [constructor|apply ToolArgs.validated_typed]. }
  destruct o as [result|err|]; cbn; wp_steps.
  - apply wp_handle_tool_result. intros. by apply Hall, notify_execution_ok.
  - apply wp_handle_tool_error. intros. by apply Hall, phase_execution_ok.
  - by apply Hall.
Qed.

Lemma handle_calls_executions ctx limits scope handling calls st evs w :
  wp (handle_calls host ctx limits scope handling st evs calls) w
    (fun _ _ l => Forall (execution_ok (in_tools (rc_input ctx)) calls) l).
Proof.
  revert st evs w. induction calls as [|call calls IH]; intros st evs w; simpl; [wp_step; constructor|].
  wp_step. eapply wp_mono; [apply handle_call_executions|]. intros o w1 l1 H1.
  assert (Forall (execution_ok (in_tools (rc_input ctx)) (call :: calls)) l1) as H1'.
  { eapply execution_ok_mono, H1. intros c. rewrite list_elem_of_singleton. intros ->. constructor. }
  destruct o as [[[[|] st1] evs1]|e|]; cbn [wp_cont]; [..|done|done].
  - eapply wp_mono; [apply IH|]. intros o2 w2 l2 H2. apply Forall_app. split; [done|].
    eapply execution_ok_mono, H2. intros c Hc. by constructor.
  - wp_step. by rewrite app_nil_r.
Qed.


(** ** Failing tools *)

Lemma truncate_error_length s : str_length (truncate_error s) <= MAX_TOOL_ERROR_LENGTH + 3.
Proof.
  unfold truncate_error, MAX_TOOL_ERROR_LENGTH. destruct (Z.ltb_spec 500 (str_length s)); [|lia].
  rewrite str_length_app. unfold slice_to.
  rewrite str_length_chars, chars_of_chars, length_take. change (str_length "...") with 3. lia.
Qed.

(** What a tool's sanitizer lets through. *)
Definition sanitized_text (tool : ResolvedTool (W:=W)) (err : error) (args : obj) (w : W) (s : string) : Prop :=
  match tool_sanitizeErrorMessage tool with
  | None => s = error_text err
  | Some f => match (f (error_text err) args w).1 with
              | Ret s' => s = s'
              | _ => s = TOOL_ERROR_SANITIZATION_FAILED_MESSAGE
              end
  end.

(** The text reported for a failed tool is what its sanitizer returned, or a
    fixed sentence when the sanitizer itself failed, never the raw message; it
    is at most 503 bytes long, never empty, and labelled as coming from the tool. *)
Theorem failure_payload_sanitized err tool args w :
  wp (toFailurePayload err tool args) w (fun o _ _ =>
    match o with
    | Ret f => exists s, sanitized_text tool err args w s /\
        failure_error f = (if truthy (truncate_error s) then truncate_error s else "Tool execution failed.") /\
        str_length (failure_error f) <= 503 /\ truthy (failure_error f) = true /\
        failure_provenance f = Some (tool_provenance (tool_name tool))
    | Throw _ => False
    | Diverge => exists f, tool_sanitizeErrorMessage tool = Some f /\ (f (error_text err) args w).1 = Diverge
    end).
Proof.
  assert (forall s, str_length (if truthy (truncate_error s) then truncate_error s
                                else "Tool execution failed.") <= 503 /\
                    truthy (if truthy (truncate_error s) then truncate_error s
                            else "Tool execution failed.") = true) as Hb.
  { intros s. pose proof (truncate_error_length s) as Hl. unfold MAX_TOOL_ERROR_LENGTH in Hl.
    destruct (truthy (truncate_error s)) eqn:Ht; [split; [lia|done]|done]. }
  unfold toFailurePayload, sanitized_text. wp_step. destruct (tool_sanitizeErrorMessage tool) as [f|] eqn:Hs.
  - wp_steps. rewrite Hext. destruct o as [s|e|]; cbn [fst wp_cont]; wp_steps.
    + exists s. destruct (Hb s). by split_and!.
    + eexists. destruct (Hb TOOL_ERROR_SANITIZATION_FAILED_MESSAGE). by split_and!.
    + exists f. by rewrite Hext.
  - wp_steps. eexists. destruct (Hb (error_text err)). by split_and!.
Qed.

Lemma failure_total err tool args w :
  wp (toFailurePayload (W:=W) err tool args) w (fun o _ _ => match o with Throw _ => False | _ => True end).
Proof.
  unfold toFailurePayload. wp_step. destruct (tool_sanitizeErrorMessage tool); wp_steps; [|done].
  destruct o; cbn [wp_cont]; wp_steps; done.
Qed.

(** Under ['report'] a failing tool never fails the turn: unless the failure is
    a framework error or the turn was aborted, the loop goes on to the next call
    with exactly one tool message added, which answers the failed call and
    carries the failure's description. *)
Theorem reported_failure_continues ctx limits scope tool call args st evs err w :
  aborted host scope w = false -> (forall e, err <> AgenticErr e) ->
  wp (handle_tool_error host ctx limits scope Report tool call args st evs err) w (fun o _ _ =>
    match o with
    | Ret (flow, st', _) =>
        exists f, flow = NextCall /\ suspended st' = suspended st /\
          messages st' = messages st ++ [tool_message call (PayloadRecorded (RFailure f))] /\
          toolCalls st' = toolCalls st ++
            [{| rec_toolName := tool_name tool; rec_args := args; rec_result := RFailure f |}]
    | Throw _ => False
    | Diverge => True
    end).
Proof.
  intros Ha He. unfold handle_tool_error. destruct err as [e|n m|r]; [by destruct (He e)|..].
  all: wp_step; apply wp_assertNotAborted; [intros _; cbn [wp_cont app]|congruence].
  all: rewrite decide_False by done; wp_step.
  all: eapply wp_mono; [apply failure_total|]; intros [f|e|] w1 l1 Hf; [|done|done].
  all: cbn [wp_cont]; wp_step; apply wp_notify; intros; cbn [wp_cont]; wp_step; by exists f.
Qed.
End Tools.

Lemma reported_failure_continues_witness :
  let scope := {| scope_signal := false; scope_timeoutMs := None; scope_start := O |} in
  let st := fresh_state "e" [UserMsg "hi"] [] in
  let ctx := createRequestContext Demo.input None in
  wp (handle_tool_error Demo.host ctx (resolveLimits None) scope Report Demo.leaky (Demo.call "c1" "leaky") []
        st [] (NativeErr "Error" "token sk-123")) O (fun o _ _ =>
    match o with
    | Ret (flow, st', _) =>
        exists f, flow = NextCall /\ suspended st' = suspended st /\
          messages st' = messages st ++
            [tool_message (Demo.call "c1" "leaky") (PayloadRecorded (RFailure f))] /\
          toolCalls st' = toolCalls st ++
            [{| rec_toolName := "leaky"; rec_args := []; rec_result := RFailure f |}]
    | Throw _ => False
    | Diverge => True
    end).
Proof. intros scope st ctx. apply reported_failure_continues; [reflexivity|discriminate]. Defined.

Example leaky_never_leaks :
  map msg_content (match Demo.outcome_of
    (toFailurePayload (NativeErr "Error" "token sk-123") Demo.leaky []) with
    | Ret f => [tool_message (Demo.call "c1" "leaky") (PayloadRecorded (RFailure f))]
    | _ => []
    end) =
  [json (payload_value (PayloadRecorded (RFailure
     {| failure_error := TOOL_ERROR_SANITIZATION_FAILED_MESSAGE;
        failure_provenance := Some (tool_provenance "leaky") |})))].
Proof. vm_compute. reflexivity. Qed.

End Tools.
