(* ===== verification/ExecutorBudget.v ===== *)
(** * Budgets and termination of the agent loop

    However the model, the tools and the callbacks behave, a turn makes at most
    as many model calls and tool executions as its limits leave, in every
    outcome; and when the code it calls settles, the turn settles. *)

From S2P Require Export ExecutorRules.

#[local] Open Scope string_scope.
#[local] Open Scope list_scope.
#[local] Open Scope Z_scope.

Module Budget.
Import Executor Rules.

Section Budget.
Context {W : Type} (self : AgentExecutor (W:=W)) (host : Host (W:=W)).

(** The model calls a budget still allows. *)
Definition model_budget (limit : option Z) (used : Z) (l : list event) : Prop :=
  match limit with Some n => Z.of_nat (count is_model_call l) <= Z.max 0 (n - used) | None => True end.

(** One round: at most one model call, made only below the limits. *)
Definition round_budget {A} (limits : ExecutionLimits) (st : ExecutionState)
    (o : outcome error (round_result A)) (l : list event) : Prop :=
  (count is_model_call l <= 1)%nat /\
  (count is_model_call l <> O ->
     below (maxIterations limits) (iteration st) /\
     below (maxTotalTokens limits) (coalesce (totalTokens (usage st)) 0)) /\
  exec_budget (maxToolCalls limits) (toolCallCount st) l /\
  match o with
  | Ret (Again st') =>
      count is_model_call l = 1%nat /\ iteration st' = iteration st + 1 /\
      toolCallCount st + Z.of_nat (count is_execute l) <= toolCallCount st' /\
      (toolCallCount st' = toolCallCount st \/ below (maxToolCalls limits) (toolCallCount st' - 1))
  | _ => True
  end.

(** Events that count against no budget. *)
Definition free (l : list event) : Prop := count is_model_call l = O /\ count is_execute l = O.

Lemma free_nil : free [].
Proof. done. Qed.
Lemma free_app l1 l2 : free l1 -> free l2 -> free (l1 ++ l2).
Proof. unfold free. autorewrite with count. lia. Qed.
Lemma all_free p l :
  all p l -> (forall e, p e = true -> is_model_call e = false /\ is_execute e = false) -> free l.
Proof. intros Hl Hp. split; eapply all_count; try exact Hl; intros e He; by apply Hp. Qed.

Lemma notify_free l : all is_notify l -> free l.
Proof. intros H. eapply all_free; [exact H|]. by intros []. Qed.
Lemma reduce_free l : all is_reduce l -> free l.
Proof. intros H. eapply all_free; [exact H|]. by intros []. Qed.
Lemma yield_free l : all is_yield l -> free l.
Proof. intros H. eapply all_free; [exact H|]. by intros []. Qed.
Lemma transcript_free ctx st (out : string) : free (transcript_events (W:=W) ctx st out).
Proof. unfold transcript_events. by destruct (is_some _). Qed.
Lemma suspend_free ctx st : free (suspend_events (W:=W) ctx st).
Proof. unfold suspend_events. destruct (suspendedApprovalId st); [|done]. by destruct (_ && _). Qed.

Lemma phase_no_model l : all is_tool_phase l -> count is_model_call l = O.
Proof. intros H. eapply all_count; [exact H|]. by intros []. Qed.

Hint Resolve free_nil free_app notify_free reduce_free yield_free transcript_free suspend_free : core.

Lemma budget_before {A} limits st (o : outcome error (round_result A)) l :
  free l -> match o with Ret (Again _) => False | _ => True end -> round_budget limits st o l.
Proof.
  intros [Hm He] Ho. unfold round_budget. rewrite Hm. split; [lia|]. split; [done|]. split.
  - unfold exec_budget. rewrite He. destruct (maxToolCalls limits); simpl; lia || done.
  - destruct o as [[|]|e|]; done.
Qed.

(** The shape of a round's events: one model call among free events, then the
    tool phase, then free events again. *)
Definition around (p m q l : list event) : list event := p ++ m ++ q ++ l.

Lemma budget_round {A} limits st st1 response (o : outcome error (round_result A)) fin evs l1 e l2 l3 l4 :
  below (maxIterations limits) (iteration st) ->
  below (maxTotalTokens limits) (coalesce (totalTokens (usage st)) 0) ->
  free l1 -> is_model_call e = true -> is_execute e = false -> free l2 ->
  round_post limits response st (Ret (fin, st1, evs)) l3 -> free l4 ->
  match o with
  | Ret (Again st') => iteration st' = iteration st1 /\ toolCallCount st' = toolCallCount st1
  | _ => True
  end ->
  round_budget limits st o (l1 ++ e :: l2 ++ l3 ++ l4).
Proof.
  intros Hi Ht [Hm1 He1] Hem Hee [Hm2 He2] (Hp & Hb & _ & Hit & _ & _ & _ & Hc1 & Hc2 & _) [Hm4 He4] Ho.
  pose proof (phase_no_model _ Hp) as Hm3. unfold round_budget. autorewrite with count.
  rewrite Hm1, Hm2, Hm3, Hm4, Hem. split; [lia|]. split; [done|].
  assert (count is_execute (l1 ++ e :: l2 ++ l3 ++ l4) = count is_execute l3) as Hex.
  { autorewrite with count. rewrite He1, He2, He4, Hee. lia. }
  autorewrite with count in Hex. rewrite Hex. split.
  - unfold exec_budget in *. destruct (maxToolCalls limits); [|done]. autorewrite with count. by rewrite Hex.
  - destruct o as [[st'|]|err|]; [|done..]. destruct Ho as [-> ->]. by rewrite Hit.
Qed.

Lemma budget_thrown {A} limits st response (o' : outcome error (bool * ExecutionState * list AgentStreamEvent))
    (o : outcome error (round_result A)) l1 e l2 l3 :
  below (maxIterations limits) (iteration st) ->
  below (maxTotalTokens limits) (coalesce (totalTokens (usage st)) 0) ->
  free l1 -> is_model_call e = true -> is_execute e = false -> free l2 ->
  round_post limits response st o' l3 ->
  match o with Ret (Again _) => False | _ => True end ->
  round_budget limits st o (l1 ++ e :: l2 ++ l3).
Proof.
  intros Hi Ht [Hm1 He1] Hem Hee [Hm2 He2] (Hp & Hb & _) Ho.
  pose proof (phase_no_model _ Hp) as Hm3. unfold round_budget, exec_budget in *. autorewrite with count.
  rewrite Hm1, Hm2, Hm3, Hem, He1, He2, Hee. simpl. split; [lia|]. split; [done|]. split; [done|].
  by destruct o as [[|]|err|].
Qed.

(** ** The two loops *)

(** What ends a round: events that cost nothing, counters untouched. *)
Definition ends_free {A} st1 (o : outcome error (round_result A)) (l : list event) : Prop :=
  free l /\
  match o with
  | Ret (Again st') => iteration st' = iteration st1 /\ toolCallCount st' = toolCallCount st1
  | _ => True
  end.

Lemma checkpoint_free ctx st (o : outcome error unit) l :
  l = [] /\ onCheckpoint (in_callbacks (rc_input ctx)) = None /\ o = Ret tt \/
  (exists t, l = [Checkpoint (inFlightCheckpoint (W:=W) ctx st t)]) -> free l.
Proof. intros [(-> & _)|[t ->]]; done. Qed.

Lemma reject_free ctx st response o l : reject_post (W:=W) ctx st response o l -> free l.
Proof.
  unfold reject_post. destruct o as [[[|] ?]|e|]; [intros [-> _]; done|intros [-> _]; done|..];
    (intros [->|[-> _]]; [done|apply transcript_free]).
Qed.

Hint Resolve checkpoint_free reject_free : core.

Lemma reject_counters ctx st response r st' l :
  reject_post (W:=W) ctx st response (Ret (r, st')) l ->
  iteration st' = iteration st /\ toolCallCount st' = toolCallCount st.
Proof.
  unfold reject_post. destruct r; [intros (_ & _ & -> & _); done|].
  intros (_ & [->|(v & _ & ->)]); done.
Qed.

Lemma wp_finish_run ctx response finished st1 w :
  wp (finish_run host ctx response finished st1) w (fun o _ l => ends_free st1 o l).
Proof.
  unfold finish_run. destruct finished; wp_step; cycle 1.
  { apply wp_publishInFlightCheckpoint. intros o w1 l1 Hl1%checkpoint_free.
    destruct o; simpl; [wp_step; rewrite app_nil_r|..]; by split. }
  apply wp_rejectOutput. intros o w1 l1 Hr. pose proof (reject_free _ _ _ _ _ Hr) as Hf.
  destruct o as [[[iss|] st2]|e|]; simpl; [..|by split|by split].
  all: pose proof (reject_counters _ _ _ _ _ _ Hr) as Hc.
  - wp_step. apply wp_publishInFlightCheckpoint. intros o w2 l2 Hl2%checkpoint_free.
    destruct o; simpl; [wp_step; rewrite app_nil_r|..]; split; auto.
  - wp_step. apply wp_publishCheckpoint. intros o w2. destruct o; simpl; [|by split; auto..].
    wp_step. apply wp_publishTranscript. intros o w3.
    destruct o; simpl; [wp_step; rewrite app_nil_r|..]; by split; auto.
Qed.

Lemma run_round_budget adapter ctx limits scope handling st w :
  wp (run_round self host adapter ctx limits scope handling st) w (fun o _ l => round_budget limits st o l).
Proof.
  unfold run_round. wp_step.
  apply wp_assertWithinBudget; [intros _ Hi Ht|intros; by apply budget_before]. cbn [wp_cont app].
  wp_step. apply wp_buildRequest. intros o w1 l1 Hl1%reduce_free Ho.
  destruct o as [[req st']|e|]; cbn [wp_cont]; [|by apply budget_before..].
  destruct Ho as (projected & after & -> & _ & _).
  wp_step. apply wp_notify. intros w2 l2 Hl2%notify_free. cbn [wp_cont]. wp_steps.
  assert (free (l1 ++ l2)) as Hpre by auto.
  destruct o as [response|e|]; cbn [wp_cont app]; cycle 1.
  1,2: rewrite app_assoc; apply (budget_thrown limits (set_messages (fun _ => after) st)
         {| resp_content := EmptyString; resp_toolCalls := None; resp_usage := None;
            resp_finishReason := None; resp_refusal := None; resp_extra := [] |} Diverge _
         (l1 ++ l2) (Generate req) [] []); try done; split_and!; try done; [constructor|
         unfold exec_budget; destruct (maxToolCalls limits); rewrite ?count_nil; simpl; lia || done].
  wp_step. apply wp_notify. intros w3 l3 Hl3%notify_free. cbn [wp_cont].
  wp_step. apply wp_applyModelRound. intros o w4 l4 Hr. destruct o as [[[fin st1] evs]|e|]; cbn [wp_cont]; cycle 1.
  1,2: rewrite app_assoc; eapply (budget_thrown limits (set_messages (fun _ => after) st)); eauto.
  eapply wp_mono; [apply wp_finish_run|]. intros o w5 l5 [Hf Ho]. rewrite app_assoc.
  eapply (budget_round limits (set_messages (fun _ => after) st)); eauto.
Qed.

Lemma wp_finish_stream ctx response finished st1 w :
  wp (finish_stream host ctx response finished st1) w (fun o _ l => ends_free st1 o l).
Proof.
  unfold finish_stream. destruct finished; wp_step; cycle 1.
  { apply wp_publishInFlightCheckpoint. intros o w1 l1 Hl1%checkpoint_free.
    destruct o; simpl; [wp_step; rewrite app_nil_r|..]; by split. }
  apply wp_rejectOutput. intros o w1 l1 Hr. pose proof (reject_free _ _ _ _ _ Hr) as Hf.
  destruct o as [[[iss|] st2]|e|]; simpl; [..|by split|by split].
  all: pose proof (reject_counters _ _ _ _ _ _ Hr) as Hc.
  - wp_step. apply wp_publishInFlightCheckpoint. intros o w2 l2 Hl2%checkpoint_free.
    destruct o; simpl; unfold yield; wp_steps; split; auto.
  - wp_step. apply wp_publishCheckpoint. intros o w2. destruct o; simpl; [|by split; auto..].
    wp_step. apply wp_publishTranscript. intros o w3.
    destruct o; simpl; unfold yield; wp_steps; by split; auto 6.
Qed.

Lemma stream_round_budget adapter ctx limits scope handling st w :
  wp (stream_round self host adapter ctx limits scope handling st) w
    (fun o _ l => round_budget limits st o l).
Proof.
  unfold stream_round. wp_step.
  apply wp_assertWithinBudget; [intros _ Hi Ht|intros; by apply budget_before]. cbn [wp_cont app].
  wp_step. apply wp_buildRequest. intros o w1 l1 Hl1%reduce_free Ho.
  destruct o as [[req st']|e|]; cbn [wp_cont]; [|by apply budget_before..].
  destruct Ho as (projected & after & -> & _ & _).
  wp_step. apply wp_notify. intros w2 l2 Hl2%notify_free. cbn [wp_cont].
  wp_step. apply wp_streamed_response. intros o w3 e l3 He Hl3%yield_free.
  assert (free (l1 ++ l2)) as Hpre by auto.
  assert (is_model_call e = true /\ is_execute e = false) as [Hem Hee] by (by destruct He as [->| ->]).
  destruct o as [response|e'|]; cbn [wp_cont app]; cycle 1.
  1,2: rewrite app_assoc, <- (app_nil_r l3); apply (budget_thrown limits (set_messages (fun _ => after) st)
         {| resp_content := EmptyString; resp_toolCalls := None; resp_usage := None;
            resp_finishReason := None; resp_refusal := None; resp_extra := [] |} Diverge _
         (l1 ++ l2) e l3 []); try done; split_and!; try done; [constructor|
         unfold exec_budget; destruct (maxToolCalls limits); rewrite ?count_nil; simpl; lia || done].
  wp_step. apply wp_notify. intros w4 l4 Hl4%notify_free. cbn [wp_cont].
  wp_step. apply wp_applyModelRound. intros o w5 l5 Hr. destruct o as [[[fin st1] evs]|e'|]; cbn [wp_cont]; cycle 1.
  1,2: rewrite app_assoc; cbn [app]; rewrite (app_assoc l3);
       eapply (budget_thrown limits (set_messages (fun _ => after) st)); eauto.
  wp_step. apply wp_yield_all. intros Hy%yield_free. cbn [wp_cont].
  eapply wp_mono; [apply wp_finish_stream|]. intros o w6 l6 [Hf Ho].
  rewrite app_assoc; cbn [app]; rewrite (app_assoc l3).
  eapply (budget_round limits (set_messages (fun _ => after) st)); eauto.
Qed.

(** ** From rounds to turns *)

(** The budgets of a whole run that starts in [st0]. *)
Definition within_budgets (limits : ExecutionLimits) (st0 : ExecutionState) (l : list event) : Prop :=
  model_budget (maxIterations limits) (iteration st0) l /\
  exec_budget (maxToolCalls limits) (toolCallCount st0) l.

(** Everything emitted so far is paid for by the counters of the state. *)
Definition paid (limits : ExecutionLimits) (st0 st : ExecutionState) (l : list event) : Prop :=
  iteration st = iteration st0 + Z.of_nat (count is_model_call l) /\
  (count is_model_call l = O \/ below (maxIterations limits) (iteration st - 1)) /\
  toolCallCount st0 + Z.of_nat (count is_execute l) <= toolCallCount st /\
  (toolCallCount st = toolCallCount st0 \/ below (maxToolCalls limits) (toolCallCount st - 1)).

Lemma paid_within limits st0 st l : paid limits st0 st l -> within_budgets limits st0 l.
Proof.
  intros (Hi & Hib & Hc & Hcb). split.
  - unfold model_budget, below in *. destruct (maxIterations limits); [|done]. destruct Hib; lia.
  - unfold exec_budget, below in *. destruct (maxToolCalls limits); [|done]. destruct Hcb; lia.
Qed.

Lemma paid_round {A} limits st0 st l (o : outcome error (round_result A)) l' :
  paid limits st0 st l -> round_budget limits st o l' ->
  within_budgets limits st0 (l ++ l') /\
  match o with Ret (Again st') => paid limits st0 st' (l ++ l') | _ => True end.
Proof.
  intros (Hi & Hib & Hc & Hcb) (Hm & Hmb & He & Ho). split.
  - split; unfold model_budget, exec_budget, below in *; autorewrite with count.
    + destruct (maxIterations limits) as [n|]; [|done].
      destruct (count is_model_call l') as [|[|]]; [destruct Hib; lia| |lia].
      destruct (Hmb ltac:(lia)) as [? _]. lia.
    + destruct (maxToolCalls limits) as [n|]; [|done]. destruct Hcb; lia.
  - destruct o as [[st'|]|e|]; try done. destruct Ho as (Hone & Hit & Htc & Htb).
    destruct (Hmb ltac:(lia)) as [Hmi _]. unfold paid. autorewrite with count.
    split; [lia|]. split; [right; by rewrite Hit, Z.add_simpl_r|]. split; [lia|].
    destruct Htb as [->|Htb]; [|by right]. done.
Qed.

Lemma loop_budget {A} (round : ExecutionState -> M error event W (round_result A)) limits fuel st w :
  (forall st w, wp (round st) w (fun o _ l => round_budget limits st o l)) ->
  wp (loop round fuel st) w (fun _ _ l => within_budgets limits st l).
Proof.
  intros Hround. apply (wp_loop round (paid limits st) (fun _ l => within_budgets limits st l) fuel st w []).
  - intros st' w' l Hp. eapply wp_mono; [apply Hround|]. intros o w2 l2 Hr.
    destruct (paid_round _ _ _ _ _ _ Hp Hr) as [H1 H2]. by destruct o as [[|]|e|].
  - intros st' l Hp. by eapply paid_within.
  - split_and!; [rewrite count_nil; lia|by left|rewrite count_nil; lia|by left].
Qed.

Lemma turn_budget adapter ctx st limits handling w :
  wp (runToCompletion self host adapter ctx st limits handling) w
    (fun _ _ l => within_budgets limits st l) /\
  wp (streamToCompletion self host adapter ctx st limits handling) w
    (fun _ _ l => within_budgets limits st l).
Proof.
  split; [unfold runToCompletion|unfold streamToCompletion].
  all: wp_step; unfold createScope; wp_step; apply loop_budget; intros.
  - apply run_round_budget.
  - apply stream_round_budget.
Qed.

(** The budgets of a turn whose initial counters are [iter] and [tools]. *)
Definition input_budgets (input : ExecutorInput (W:=W)) (iter tools : Z) (l : list event) : Prop :=
  let limits := resolveLimits (in_limits input) in
  model_budget (maxIterations limits) iter l /\ exec_budget (maxToolCalls limits) tools l.

Lemma input_budgets_nil input iter tools : input_budgets input iter tools [].
Proof. split; simpl; rewrite count_nil; lia. Qed.

Lemma start_budget {A} complete_ (input : ExecutorInput (W:=W)) id state iter tools w :
  (forall adapter ctx st limits handling w,
     wp (complete_ adapter ctx st limits handling : M error event W A) w
       (fun _ _ l => within_budgets limits st l)) ->
  wp state w (fun o _ l => l = [] /\
    match o with Ret st => iteration st = iter /\ toolCallCount st = tools | _ => True end) ->
  wp (start self complete_ input id state) w (fun _ _ l => input_budgets input iter tools l).
Proof.
  intros Hc Hs. unfold start. wp_step. eapply wp_mono; [exact Hs|].
  intros o w1 l [-> Ho]. destruct o as [st|e|]; cbn [wp_cont]; [|apply input_budgets_nil..].
  destruct Ho as [<- <-]. wp_step. unfold resolveEffectiveAdapter, requireAdapter.
  destruct (modelAdapter self); wp_steps; [apply Hc|apply input_budgets_nil].
Qed.

Lemma createState_counters input w :
  wp (createState host input) w (fun o _ l => l = [] /\
    match o with Ret st => iteration st = 0 /\ toolCallCount st = 0 | _ => True end).
Proof. unfold createState. wp_steps. destruct o; simpl; [wp_step|..]; done. Qed.

Lemma createResumedState_counters input w :
  wp (createResumedState host input) w (fun o _ l => l = [] /\
    match o with Ret st => iteration st = 0 /\ toolCallCount st = 0 | _ => True end).
Proof.
  unfold createResumedState. destruct (find_index _ _); [|by wp_step].
  wp_steps. destruct o; simpl; [wp_step|..]; done.
Qed.

Lemma createCheckpointState_counters (input : AgentResumeCheckpointInput (W:=W)) w :
  wp (createCheckpointState input) w (fun o _ l => l = [] /\
    match o with
    | Ret st => iteration st = cp_iteration (rk_checkpoint input) /\
                toolCallCount st = cp_toolCallCount (rk_checkpoint input)
    | _ => True
    end).
Proof. unfold createCheckpointState. destruct (negb _); by wp_step. Qed.

(** C3. Whatever the model, the tools, the reducer and the callbacks do and
    however the turn ends, a turn makes at most [maxIterations] model calls
    (default 10) and starts at most [maxToolCalls] tool executions (default 32),
    streaming or not; a turn recovered from a checkpoint only has what its
    checkpoint left of both. *)
Theorem turn_within_budgets (ex : AgentExecutionInput (W:=W)) (rs : AgentResumeInput (W:=W))
    (rk : AgentResumeCheckpointInput (W:=W)) w :
  wp (execute self host ex) w (fun _ _ l => input_budgets (ex_input ex) 0 0 l) /\
  wp (stream self host ex) w (fun _ _ l => input_budgets (ex_input ex) 0 0 l) /\
  wp (resume self host rs) w (fun _ _ l => input_budgets (rs_input rs) 0 0 l) /\
  wp (resumeStream self host rs) w (fun _ _ l => input_budgets (rs_input rs) 0 0 l) /\
  wp (resumeCheckpoint self host rk) w (fun _ _ l =>
    input_budgets (rk_input rk) (cp_iteration (rk_checkpoint rk)) (cp_toolCallCount (rk_checkpoint rk)) l) /\
  wp (resumeCheckpointStream self host rk) w (fun _ _ l =>
    input_budgets (rk_input rk) (cp_iteration (rk_checkpoint rk)) (cp_toolCallCount (rk_checkpoint rk)) l).
Proof.
  split_and!; apply start_budget;
    try (intros; apply turn_budget); auto using createState_counters, createResumedState_counters,
      createCheckpointState_counters.
Qed.

(** ** Termination *)

(** Code outside the model settles: it returns or throws. *)
Definition settles {A} (f : W -> outcome error A * W) : Prop := forall w, (f w).1 <> Diverge.
Definition settled {A} (m : M error event W A) : Prop := forall w, (m w).1.1 <> Diverge.

Lemma settled_ret {A} (a : A) : settled (ret a).
Proof. by intros w. Qed.
Lemma settled_throw {A} e : settled (throw e : M error event W A).
Proof. by intros w. Qed.
Lemma settled_emit e : settled (emit e).
Proof. by intros w. Qed.
Lemma settled_ask {A} (f : W -> A) : settled (ask f).
Proof. by intros w. Qed.
Lemma settled_modify f : settled (modify f).
Proof. by intros w. Qed.
Lemma settled_lift {A} (f : W -> outcome error A * W) : settles f -> settled (lift f).
Proof. intros H w. specialize (H w). unfold lift. by destruct (f w). Qed.
Lemma settled_bind {A B} (m : M error event W A) (k : A -> M error event W B) :
  settled m -> (forall a, settled (k a)) -> settled (bind m k).
Proof.
  intros Hm Hk w. specialize (Hm w). unfold bind. destruct (m w) as [[[a|e|] w1] l1]; try done.
  specialize (Hk a w1). by destruct (k a w1) as [[? ?] ?].
Qed.
Lemma settled_catch {A} (m : M error event W A) (h : error -> M error event W A) :
  settled m -> (forall e, settled (h e)) -> settled (catch m h).
Proof.
  intros Hm Hh w. specialize (Hm w). unfold catch. destruct (m w) as [[[a|e|] w1] l1]; try done.
  specialize (Hh e w1). by destruct (h e w1) as [[? ?] ?].
Qed.

Create HintDb settle.
Hint Resolve settled_ret settled_throw settled_emit settled_ask settled_modify settled_lift : settle.

(** One syntactic step towards [settled]: sequences, handlers and case analyses. *)
Ltac settle_step :=
  lazymatch goal with
  | |- settled (bind _ _) => apply settled_bind; [|intros ?]
  | |- settled (catch _ _) => apply settled_catch; [|intros ?]
  | |- settled (when ?b _) => unfold when; destruct b
  | |- settled (match ?x with _ => _ end) => destruct x
  | |- settled (let _ := _ in _) => cbv zeta
  | |- _ => solve [auto with settle]
  end.
Ltac settle := repeat settle_step.

(** The outside of one turn. *)
Record environment_settles (adapter : ModelAdapter (W:=W)) (input : ExecutorInput (W:=W)) : Prop := {
  es_generate : forall r, settles (adapter_generate adapter r);
  es_stream : forall s r w, adapter_stream adapter = Some s -> (s r w).1.2 <> Diverge;
  es_execute : forall t a i, t ∈ in_tools input -> settles (tool_execute t a i);
  es_sanitize : forall t f e a, t ∈ in_tools input -> tool_sanitizeErrorMessage t = Some f -> settles (f e a);
  es_reduce : forall f ms c, in_messageReducer input = Some f -> settles (f ms c);
  es_validate : forall s f v, in_structuredOutput input = Some s ->
    Structured.o_validate (Structured.spec_options s) = Some f -> settles (f v);
  es_transcript : forall f ms, onTranscript (in_callbacks input) = Some f -> settles (f ms);
  es_suspend : forall f i ms x, onSuspend (in_callbacks input) = Some f -> settles (f i ms x);
  es_checkpoint : forall f c, onCheckpoint (in_callbacks input) = Some f -> settles (f c);
}.

Lemma settled_wp {A} (m : M error event W A) : (forall w, wp m w (fun o _ _ => o <> Diverge)) -> settled m.
Proof. intros H w. specialize (H w). unfold wp in H. by destruct (m w) as [[o ?] ?]. Qed.

Lemma wp_settled {A} (m : M error event W A) w : settled m -> wp m w (fun o _ _ => o <> Diverge).
Proof. intros H. specialize (H w). unfold wp. by destruct (m w) as [[o ?] ?]. Qed.

Section Settled.
#[local] Set Default Proof Using "All".
Context (adapter : ModelAdapter (W:=W)) (ctx : ExecutorRequestContext (W:=W)).
Hypothesis Henv : environment_settles adapter (rc_input ctx).

Lemma settled_notify st p : settled (notify ctx st p).
Proof. unfold notify. settle. Qed.
Hint Resolve settled_notify : settle.

Lemma settled_assertNotAborted scope limits : settled (assertNotAborted host scope limits).
Proof. unfold assertNotAborted. settle. Qed.
Hint Resolve settled_assertNotAborted : settle.

Lemma settled_assertWithinBudget st limits scope : settled (assertWithinBudget host st limits scope).
Proof. unfold assertWithinBudget. settle. Qed.

Lemma settled_buildRequest st : settled (buildRequest self ctx st).
Proof.
  unfold buildRequest, projectMessages. settle_step; [|settle].
  destruct (in_messageReducer _) eqn:Hr; settle. apply settled_lift. by eapply es_reduce.
Qed.

Lemma settled_toFailurePayload err tool args :
  tool ∈ in_tools (rc_input ctx) -> settled (toFailurePayload err tool args).
Proof.
  intros Ht. unfold toFailurePayload. settle_step; [|settle].
  destruct (tool_sanitizeErrorMessage tool) eqn:Hs; settle.
  apply settled_lift. by eapply es_sanitize.
Qed.

Lemma settled_handle_call limits scope handling st evs call :
  settled (handle_call host ctx limits scope handling st evs call).
Proof.
  unfold handle_call. settle_step; [settle|]. settle_step; [settle|].
  destruct (find_first _ _) as [tool|] eqn:Hf; [|settle].
  apply find_first_Some in Hf as [Hin _]. cbv zeta. destruct (negb _); [settle|].
  settle_step; [settle|]. settle_step; [settle|]. settle_step.
  - settle. apply settled_lift. by eapply es_execute.
  - match goal with |- settled (match ?r with _ => _ end) => destruct r as [res|err] end.
    + unfold handle_tool_result. settle.
    + unfold handle_tool_error. destruct err; settle; by apply settled_toFailurePayload.
Qed.

Lemma settled_handle_calls limits scope handling calls st evs :
  settled (handle_calls host ctx limits scope handling st evs calls).
Proof.
  revert st evs. induction calls as [|call calls IH]; intros st evs; simpl; [settle|].
  settle_step; [apply settled_handle_call|]. destruct a as [[[] st'] evs']; [apply IH|settle].
Qed.

Lemma settled_applyModelRound st response limits scope handling :
  settled (applyModelRound host ctx st response limits scope handling).
Proof.
  unfold applyModelRound. cbv zeta. destruct (coalesce _ _); [settle|apply settled_handle_calls].
Qed.

Lemma settled_publishTranscript st out : settled (publishTranscript ctx st out).
Proof.
  unfold publishTranscript. destruct (onTranscript _) eqn:Hc; settle. apply settled_lift. by eapply es_transcript.
Qed.

Lemma settled_publishCheckpoint st : settled (publishCheckpoint ctx st).
Proof.
  unfold publishCheckpoint. destruct (onSuspend _) eqn:Hc; settle. apply settled_lift. by eapply es_suspend.
Qed.

Lemma settled_publishInFlight st : settled (publishInFlightCheckpoint host ctx st).
Proof.
  unfold publishInFlightCheckpoint. destruct (onCheckpoint _) eqn:Hc; settle.
  apply settled_lift. by eapply es_checkpoint.
Qed.

Lemma settled_rejectOutput st response : settled (rejectOutput host ctx st response).
Proof.
  unfold rejectOutput. destruct (in_structuredOutput _) as [spec|] eqn:Hs; [|settle].
  destruct (suspended st); [settle|]. cbv zeta. settle_step.
  - destruct (refusal_of response); [settle|]. unfold Structured.checkStructuredOutput.
    destruct (Structured.parseJsonAnswer _ _); [|settle].
    destruct (Structured.o_validate _) eqn:Hv; [|settle]. settle.
    apply settled_lift. by eapply es_validate.
  - settle. apply settled_publishTranscript.
Qed.

Lemma settled_yield_all es : settled (yield_all (W:=W) es).
Proof. induction es; simpl; unfold yield; settle. Qed.

Lemma settled_streamed_response request : settled (streamed_response adapter request).
Proof.
  unfold streamed_response. destruct (adapter_stream adapter) as [s|] eqn:Hs.
  - apply settled_wp. intros w. wp_steps.
    pose proof (es_stream _ _ Henv s request w Hs) as He.
    destruct (s request w) as [[chunks ending] w1]. injection Hext as <- <-. cbn [wp_cont].
    wp_step. unfold wp at 1. rewrite read_chunks_run. cbn [wp_cont]. wp_steps.
    injection Hext as <- <-. simpl in He. destruct ending as [[]|e|]; cbn [wp_cont]; [|done..].
    destruct (last_response chunks None); by wp_step.
  - settle; unfold yield; settle. apply settled_lift, (es_generate _ _ Henv).
Qed.

Lemma settled_run_round limits scope handling st :
  settled (run_round self host adapter ctx limits scope handling st).
Proof.
  unfold run_round. settle_step; [apply settled_assertWithinBudget|].
  settle_step; [apply settled_buildRequest|]. destruct a0 as [request st'].
  settle_step; [settle|]. settle_step; [settle|]. settle_step; [apply settled_lift, (es_generate _ _ Henv)|].
  settle_step; [settle|]. settle_step; [apply settled_applyModelRound|].
  destruct a4 as [[finished st1] evs]. unfold finish_run.
  destruct finished; settle; auto using settled_rejectOutput, settled_publishInFlight,
    settled_publishCheckpoint, settled_publishTranscript.
Qed.

Lemma settled_stream_round limits scope handling st :
  settled (stream_round self host adapter ctx limits scope handling st).
Proof.
  unfold stream_round. settle_step; [apply settled_assertWithinBudget|].
  settle_step; [apply settled_buildRequest|]. destruct a0 as [request st'].
  settle_step; [settle|]. settle_step; [apply settled_streamed_response|].
  settle_step; [settle|]. settle_step; [apply settled_applyModelRound|].
  destruct a3 as [[finished st1] evs]. settle_step; [apply settled_yield_all|]. unfold finish_stream.
  destruct finished; unfold yield; settle; auto using settled_rejectOutput, settled_publishInFlight,
    settled_publishCheckpoint, settled_publishTranscript.
Qed.
End Settled.

(** The fuel of a loop is enough when every round that continues used one
    iteration below the limit. *)
Lemma loop_settles {A} (round : ExecutionState -> M error event W (round_result A)) limits n fuel st :
  maxIterations limits = Some n ->
  (forall st w, wp (round st) w (fun o _ l => round_budget limits st o l)) ->
  (forall st, settled (round st)) ->
  (Z.to_nat (n - iteration st) < fuel)%nat -> settled (loop round fuel st).
Proof.
  intros Hn Hb Hs. revert st. induction fuel as [|fuel IH]; intros st Hf; [lia|]. simpl.
  apply settled_wp. intros w. wp_step. specialize (Hb st w). pose proof (wp_settled _ w (Hs st)) as Hd.
  unfold wp at 1. unfold wp in Hb, Hd. destruct (round st w) as [[[[st'|a]|e|] w1] l1]; cbn [wp_cont]; try done.
  destruct Hb as (_ & Hbl & _ & Hone & Hit & _).
  destruct (Hbl ltac:(lia)) as [Hlt _]. rewrite Hn in Hlt. simpl in Hlt.
  apply wp_settled, IH. rewrite Hit. lia.
Qed.

(** C22. Whenever the model, the tools and the callbacks settle, a turn settles:
    the loop stops after at most [maxIterations] rounds and never runs out of
    the fuel the model gives it. *)
Theorem turn_settles adapter ctx st limits handling n :
  maxIterations limits = Some n -> environment_settles adapter (rc_input ctx) ->
  settled (runToCompletion self host adapter ctx st limits handling) /\
  settled (streamToCompletion self host adapter ctx st limits handling).
Proof.
  intros Hn Henv. split; [unfold runToCompletion|unfold streamToCompletion].
  all: apply settled_bind; [apply settled_ask|intros scope].
  all: eapply loop_settles; [exact Hn|..|unfold loop_fuel; rewrite Hn; simpl; lia].
  - intros. apply run_round_budget.
  - intros. by apply settled_run_round.
  - intros. apply stream_round_budget.
  - intros. by apply settled_stream_round.
Qed.
End Budget.

Lemma demo_settles script : environment_settles (Demo.scripted script) Demo.input.
Proof.
  constructor; try done.
  - intros t a i Ht w. unfold Demo.input in Ht; simpl in Ht.
    rewrite !elem_of_cons in Ht. by destruct Ht as [->|[->|[->|Ht%elem_of_nil]]].
  - intros t f e a Ht Hf w. simpl in Ht. rewrite !elem_of_cons in Ht.
    destruct Ht as [->|[->|[->|Ht%elem_of_nil]]]; [..|done]; simplify_eq/=; done.
  - intros f ms Hf w. by simplify_eq/=.
  - intros f i ms x Hf w. by simplify_eq/=.
  - intros f c Hf w. by simplify_eq/=.
Qed.

Lemma turn_settles_witness :
  let ctx := createRequestContext Demo.input None in
  let st := fresh_state "e" [UserMsg "hi"] [] in
  settled (runToCompletion (Demo.executor []) Demo.host (Demo.scripted []) ctx st
             (resolveLimits None) Report) /\
  settled (streamToCompletion (Demo.executor []) Demo.host (Demo.scripted []) ctx st
             (resolveLimits None) Report).
Proof. intros ctx st. apply (turn_settles _ _ _ _ _ _ _ 10); [reflexivity|apply demo_settles]. Defined.

End Budget.
