(* ===== verification/ExecutorProtocol.v ===== *)
(** * The tool protocol across the agent loop

    Whatever the model answers and the tools do, every checkpoint a fresh or
    recovered turn writes, and without a reducer every request it sends, is a
    transcript providers accept: each group of tool calls is directly followed by
    exactly its results, in order.  With a reducer that leaves its input alone, the
    requests keep groups whole, except a last group holding the pending approval.
    A suspended turn leaves a transcript whose last group is answered up to the
    withheld call. *)

From Stdlib Require Import Ascii.
From S2P Require Export ExecutorBudget.

#[local] Open Scope string_scope.
#[local] Open Scope list_scope.
#[local] Open Scope Z_scope.

Module Protocol.
Import Executor Rules.

(** ** Specification *)

Definition plain_list (ms : list ModelMessage) : Prop := Forall (fun m => is_plain m = true) ms.

(** A transcript whose last group is answered up to a withheld call, whose message
    says that it awaits an approval; possibly followed by text. *)
Definition suspended_transcript (ms : list ModelMessage) : Prop :=
  exists pre m rs r id text, ms = pre ++ m :: rs ++ text /\ complete pre /\ opens_group m = true /\
    Forall (fun r => is_tool r = true) rs /\ last rs = Some r /\ asks_approval r id /\
    map tool_id rs = take (length rs) (call_ids m) /\ plain_list text.

(** What a reducer may have made of a transcript: whole groups, their results in
    any order, the last one possibly cut if it holds the pending approval; then
    text. *)
Definition reduced_transcript (pending : option string) (ms : list ModelMessage) : Prop :=
  exists body text, ms = body ++ text /\ Validate.well_grouped pending body /\ plain_list text.

(** What a turn may send, publish and persist, with a reducer or without. *)
Definition protocol_ok (reduces : bool) (pending : option string) (e : event) : Prop :=
  match e with
  | Generate r | OpenStream r =>
      if reduces then reduced_transcript pending (req_messages r) else complete (req_messages r)
  | Checkpoint c => complete (cp_messages c ++ coalesce (cp_repair c) [])
  | Suspend _ ms _ => suspended_transcript ms
  | Transcript ms => complete ms \/ suspended_transcript ms
  | _ => True
  end.

(** A state the loop may start a round from. *)
Definition coherent (st : ExecutionState) : Prop :=
  complete (messages st) /\ plain_list (repair st) /\ suspended st = false.

(** ** Messages *)

Lemma plain_list_app a b : plain_list a -> plain_list b -> plain_list (a ++ b).
Proof. intros. by apply Forall_app. Qed.

Lemma complete_plain_app ms extra : complete ms -> plain_list extra -> complete (ms ++ extra).
Proof. intros. apply complete_app; [done|by apply complete_plains]. Qed.

Lemma answers_calls_ids calls rs :
  answers_calls calls rs ->
  Forall (fun r => is_tool r = true) rs /\ map tool_id rs = take (length rs) (map call_id calls).
Proof.
  unfold answers_calls. rewrite firstn_map. generalize (take (length rs) calls).
  induction 1 as [|c m cs rs' [Ht Hi] _ [IH1 IH2]]; [done|]. simpl.
  split; [by constructor|by f_equal].
Qed.

Lemma complete_answered ms extra content call calls rs :
  complete ms -> plain_list extra -> answers_calls (call :: calls) rs ->
  length rs = length (call :: calls) ->
  complete (ms ++ extra ++ AssistantMsg content (Some (call :: calls)) :: rs).
Proof.
  intros Hc Hp Ha Hl. rewrite app_assoc. apply complete_app; [by apply complete_plain_app|].
  rewrite <- (app_nil_r rs). apply complete_group; [done| |constructor].
  apply answers_calls_ids in Ha as [Ht Hi]. split; [done|].
  rewrite Hi, Hl, <- (length_map call_id). apply firstn_all.
Qed.

Lemma suspended_answered ms extra content call calls rs text :
  complete ms -> plain_list extra -> answers_calls (call :: calls) rs -> rs <> [] -> plain_list text ->
  (exists r id, last (ms ++ extra ++ AssistantMsg content (Some (call :: calls)) :: rs) = Some r /\
                asks_approval r id) ->
  suspended_transcript ((ms ++ extra ++ AssistantMsg content (Some (call :: calls)) :: rs) ++ text).
Proof.
  intros Hc Hp Ha Hne Htx (r & id & Hl & Hr). apply answers_calls_ids in Ha as [Ht Hi].
  exists (ms ++ extra), (AssistantMsg content (Some (call :: calls))), rs, r, id, text.
  split_and!; try done; [by rewrite <- !app_assoc|by apply complete_plain_app|].
  destruct rs as [|r0 rs] using rev_ind; [done|].
  rewrite app_comm_cons, !app_assoc, last_snoc in Hl. by rewrite last_snoc.
Qed.

Lemma withSystemInstruction_complete ms i : complete ms -> complete (withSystemInstruction ms i).
Proof.
  intros H. unfold withSystemInstruction.
  destruct ms as [|[c|c|c t|a b c d] ms]; try (by constructor).
  constructor; [done|]. inversion H as [|? ? Hp|? ? ? Ho]; [done|]. done.
Qed.

Lemma complete_grouped pending ms : complete ms -> Validate.well_grouped pending ms.
Proof.
  induction 1 as [|m ms Hm _ IH|m rs ms Hm [Ht Hi] _ IH]; [constructor|by constructor|].
  apply Validate.wg_group; [done|done|by rewrite Hi|done].
Qed.

Lemma withSystemInstruction_reduced pending ms i :
  reduced_transcript pending ms -> reduced_transcript pending (withSystemInstruction ms i).
Proof.
  intros (body & text & -> & Hb & Ht). unfold withSystemInstruction.
  assert (reduced_transcript pending (SystemMsg i :: body ++ text)) as Hnew.
  { exists (SystemMsg i :: body), text. split; [done|]. split; [by constructor|done]. }
  destruct body as [|m body]; simpl in *.
  - destruct text as [|[c|c|c t|a b c d] text]; try done.
    exists [], (SystemMsg (c +:+ nl +:+ nl +:+ i) :: text).
    inversion Ht; subst. split; [done|]. split; [constructor|by constructor].
  - destruct m as [c|c|c t|a b c d]; try done. exists (SystemMsg (c +:+ nl +:+ nl +:+ i) :: body), text.
    split; [done|]. split; [|done]. constructor; [done|].
    by inversion Hb as [|? ? _ Hg|? ? ? Ho|? ? ? Ho].
Qed.

Lemma plain_with_answer (output : string) : plain_list (if truthy output then [AssistantMsg output None] else []).
Proof. destruct (truthy output); by repeat constructor. Qed.

Lemma with_answer_app ms output :
  with_answer ms output = ms ++ if truthy output then [AssistantMsg output None] else [].
Proof. unfold with_answer. destruct (truthy output); [done|by rewrite app_nil_r]. Qed.

Lemma queue_repair_plain st content issues :
  plain_list (repair st) -> plain_list (repair (queue_repair st content issues)).
Proof.
  intros H. unfold queue_repair. simpl. apply plain_list_app; [done|].
  apply plain_list_app; [destruct (truthy _)|]; by repeat constructor.
Qed.

Section Protocol.
Context {W : Type} (self : AgentExecutor (W:=W)) (host : Host (W:=W)).

(** The contract of a reducer (message-reducer.interface.ts): it does not mutate the
    transcript it is given. *)
Definition keeps_input (input : ExecutorInput (W:=W)) : Prop :=
  forall f ms c w r w', in_messageReducer input = Some f -> f ms c w = (Ret r, w') -> input_after r = ms.

Context (reduces : bool) (pending : option string).

Definition events_ok (l : list event) : Prop := Forall (protocol_ok reduces pending) l.

(** The turns this section is about. *)
Definition of_kind (ctx : ExecutorRequestContext (W:=W)) : Prop :=
  is_some (in_messageReducer (rc_input ctx)) = reduces /\ rc_pendingToolCallId ctx = pending /\
  keeps_input (rc_input ctx).

Lemma events_ok_app l1 l2 : events_ok l1 -> events_ok l2 -> events_ok (l1 ++ l2).
Proof. intros. by apply Forall_app. Qed.

Lemma all_ok p l : all p l -> (forall e, p e = true -> protocol_ok reduces pending e) -> events_ok l.
Proof. intros H Hp. eapply Forall_impl; [exact H|]. intros e He. by apply Hp. Qed.

Lemma notify_ok l : all is_notify l -> events_ok l.
Proof. intros H. eapply all_ok; [exact H|]. by intros []. Qed.
Lemma reduce_ok l : all is_reduce l -> events_ok l.
Proof. intros H. eapply all_ok; [exact H|]. by intros []. Qed.
Lemma yield_ok l : all is_yield l -> events_ok l.
Proof. intros H. eapply all_ok; [exact H|]. by intros []. Qed.
Lemma phase_ok l : all is_tool_phase l -> events_ok l.
Proof. intros H. eapply all_ok; [exact H|]. by intros []. Qed.

Hint Resolve events_ok_app notify_ok reduce_ok yield_ok phase_ok : core.

(** The state a round leaves: coherent, or suspended at a withheld call. *)
Definition after_round (finished : bool) (st : ExecutionState) : Prop :=
  coherent st \/
  finished = true /\ suspended st = true /\
  (forall text, plain_list text -> suspended_transcript (messages st ++ text)).

Lemma round_coherent limits response st fin st1 evs l :
  coherent st -> round_post limits response st (Ret (fin, st1, evs)) l -> after_round fin st1.
Proof.
  intros (Hc & Hp & Hs) (_ & _ & _ & _ & _ & _ & _ & _ & _ & Hm). unfold after_round.
  destruct (coalesce (resp_toolCalls response) []) as [|call calls].
  - destruct Hm as (-> & Hm & Hr & Hs' & _). left. unfold coherent. by rewrite Hm, Hr, Hs'.
  - destruct Hm as (Hr & rs & Hm & Ha & Hf). destruct fin.
    + right. destruct Hf as (Hne & Hs' & id & r' & _ & Hl & Hr'). split_and!; [done|done|].
      intros text Ht. rewrite Hm in Hl |- *. apply suspended_answered; eauto.
    + left. destruct Hf as (Hl & Hs' & _). unfold coherent.
      split_and!; [|rewrite Hr; constructor|congruence]. rewrite Hm. by apply complete_answered.
Qed.

Lemma transcript_ok ctx st (out : string) fin :
  after_round fin st -> events_ok (transcript_events (W:=W) ctx st out).
Proof.
  intros H. unfold transcript_events. destruct (is_some _); [|constructor].
  constructor; [|constructor]. simpl. rewrite with_answer_app. destruct H as [(Hc & _)|(_ & _ & Hs)].
  - left. apply complete_plain_app; [done|apply plain_with_answer].
  - right. apply Hs, plain_with_answer.
Qed.

Lemma suspend_ok ctx st fin : after_round fin st -> events_ok (suspend_events (W:=W) ctx st).
Proof.
  intros H. unfold suspend_events. destruct (suspendedApprovalId st) as [id|]; [|constructor].
  destruct (is_some _ && suspended st && truthy id) eqn:Hb; [|constructor].
  constructor; [|constructor]. simpl. destruct H as [(_ & _ & Hs)|(_ & _ & Hs)].
  - rewrite Hs, andb_false_r in Hb. done.
  - rewrite <- (app_nil_r (messages st)). apply Hs. constructor.
Qed.

Lemma checkpoint_ok ctx st (o : outcome error unit) l :
  coherent st ->
  l = [] /\ onCheckpoint (in_callbacks (rc_input ctx)) = None /\ o = Ret tt \/
  (exists t, l = [Checkpoint (inFlightCheckpoint (W:=W) ctx st t)]) -> events_ok l.
Proof.
  intros (Hc & Hp & _) [(-> & _)|[t ->]]; [constructor|]. constructor; [|constructor]. simpl.
  apply complete_plain_app; [done|]. destruct (0 <? repairAttempts st); [done|constructor].
Qed.

Lemma reject_ok ctx st response o l :
  after_round true st -> reject_post (W:=W) ctx st response o l ->
  events_ok l /\
  match o with
  | Ret (Some _, st') => coherent st'
  | Ret (None, st') => after_round true st'
  | _ => True
  end.
Proof.
  intros H Hr. unfold reject_post in Hr. destruct o as [[[iss|] st']|e|].
  - destruct Hr as (-> & Hs & -> & _). split; [constructor|].
    destruct H as [(Hc & Hp & _)|(_ & Hs' & _)]; [|congruence].
    split_and!; [done|by apply queue_repair_plain|done].
  - destruct Hr as (-> & [->|(v & Hs & ->)]); (split; [constructor|done]).
  - split; [|done]. destruct Hr as [->|[-> _]]; [constructor|by eapply transcript_ok].
  - split; [|done]. destruct Hr as [->|[-> _]]; [constructor|by eapply transcript_ok].
Qed.

(** What a round's tail guarantees. *)
Definition round_ok {A} (o : outcome error (round_result A)) (l : list event) : Prop :=
  events_ok l /\ match o with Ret (Again st') => coherent st' | _ => True end.

Lemma finish_run_ok ctx response fin st1 w :
  (fin = false -> coherent st1) -> after_round fin st1 ->
  wp (finish_run host ctx response fin st1) w (fun o _ l => round_ok o l).
Proof.
  intros Hco Hs. unfold finish_run. destruct fin; wp_step; cycle 1.
  { apply wp_publishInFlightCheckpoint. intros o w1 l1 Hl1%checkpoint_ok; [|by apply Hco].
    destruct o; simpl; [wp_step; rewrite app_nil_r|..]; split; auto. }
  apply wp_rejectOutput. intros o w1 l1 Hr%reject_ok; [|done].
  destruct o as [[[iss|] st2]|e|]; simpl; destruct Hr as [Hl1 Ho]; [..|by split|by split].
  - wp_step. apply wp_publishInFlightCheckpoint. intros o w2 l2 Hl2%checkpoint_ok; [|done].
    destruct o; simpl; [wp_step; rewrite app_nil_r|..]; split; auto.
  - wp_step. apply wp_publishCheckpoint. intros o w2. pose proof (suspend_ok ctx _ _ Ho).
    destruct o; simpl; [|by split; auto..].
    wp_step. apply wp_publishTranscript. intros o w3.
    pose proof (transcript_ok ctx _ (resp_content response) _ Ho).
    destruct o; simpl; [wp_step; rewrite app_nil_r|..]; split; auto.
Qed.

Lemma finish_stream_ok ctx response fin st1 w :
  (fin = false -> coherent st1) -> after_round fin st1 ->
  wp (finish_stream host ctx response fin st1) w (fun o _ l => round_ok o l).
Proof.
  intros Hco Hs. unfold finish_stream. destruct fin; wp_step; cycle 1.
  { apply wp_publishInFlightCheckpoint. intros o w1 l1 Hl1%checkpoint_ok; [|by apply Hco].
    destruct o; simpl; [wp_step; rewrite app_nil_r|..]; split; auto. }
  apply wp_rejectOutput. intros o w1 l1 Hr%reject_ok; [|done].
  destruct o as [[[iss|] st2]|e|]; simpl; destruct Hr as [Hl1 Ho]; [..|by split|by split].
  - wp_step. apply wp_publishInFlightCheckpoint. intros o w2 l2 Hl2%checkpoint_ok; [|done].
    assert (forall e, events_ok [Yield e]) by (by repeat constructor).
    destruct o; simpl; unfold yield; wp_steps; split; auto.
  - wp_step. apply wp_publishCheckpoint. intros o w2. pose proof (suspend_ok ctx _ _ Ho).
    destruct o; simpl; [|by split; auto..].
    wp_step. apply wp_publishTranscript. intros o w3.
    match goal with |- context [transcript_events ctx st2 ?out] =>
      pose proof (transcript_ok ctx _ out _ Ho) end.
    assert (forall e e', events_ok [Yield e; Yield e']) by (by repeat constructor).
    destruct o; simpl; unfold yield; wp_steps; split; auto.
Qed.

(** ** Rounds and turns *)

(** What a round sends, as [protocol_ok] asks. *)
Definition sendable (ms : list ModelMessage) : Prop :=
  if reduces then reduced_transcript pending ms else complete ms.

Lemma sendable_request ctx projected extra :
  (if reduces then Validate.well_grouped pending projected else complete projected) -> plain_list extra ->
  sendable (request_messages self ctx projected extra).
Proof.
  intros Hp He. assert (sendable (projected ++ extra)) as Hs.
  { unfold sendable in *. destruct reduces; [by exists projected, extra|by apply complete_plain_app]. }
  unfold request_messages. destruct (in_structuredOutput _); [|done]. destruct (native_structured _); [done|].
  unfold sendable in *. destruct reduces; [by apply withSystemInstruction_reduced|by apply withSystemInstruction_complete].
Qed.

Lemma request_ok ctx st req projected after :
  of_kind ctx -> coherent st ->
  projection_of (W:=W) ctx (messages st) projected after ->
  req_messages req = request_messages self ctx projected (repair st) ->
  after = messages st /\ sendable (req_messages req).
Proof.
  intros (Hk & Hid & Hr) (Hc & Hp & _) Hpr Hreq. rewrite Hreq. unfold projection_of in Hpr.
  destruct (in_messageReducer _) as [f|] eqn:Hf; simpl in Hk.
  - destruct Hpr as (r & c & w & w' & Hrun & Ha & Hproj & Hv).
    pose proof (Hr _ _ _ _ _ _ Hf Hrun) as Hin. rewrite Hin in Ha, Hproj, Hv. subst after projected.
    split; [done|]. apply sendable_request; [|done]. rewrite <- Hk.
    destruct (same_array r); [by apply complete_grouped|].
    rewrite Hid in Hv. by apply Validate.validateReduction_iff in Hv as (Hg & _).
  - destruct Hpr as [-> ->]. split; [done|]. apply sendable_request; [by rewrite <- Hk|done].
Qed.

Lemma set_messages_same st : set_messages (fun _ => messages st) st = st.
Proof. by destruct st. Qed.

Lemma events_ok_nil : events_ok [].
Proof. constructor. Qed.
Hint Resolve events_ok_nil : core.

Lemma run_round_ok adapter ctx limits scope handling st w :
  of_kind ctx -> coherent st ->
  wp (run_round self host adapter ctx limits scope handling st) w (fun o _ l => round_ok o l).
Proof.
  intros Hn Hco. unfold run_round. wp_step.
  apply wp_assertWithinBudget; [intros _ _ _|intros; by split]. cbn [wp_cont app].
  wp_step. apply wp_buildRequest. intros o w1 l1 Hl1%reduce_ok Ho.
  destruct o as [[req st']|e|]; cbn [wp_cont]; [|by split..].
  destruct Ho as (projected & after & -> & Hpr & Hreq).
  destruct (request_ok _ _ _ _ _ Hn Hco Hpr Hreq) as [-> Hq]. rewrite set_messages_same.
  wp_step. apply wp_notify. intros w2 l2 Hl2%notify_ok. cbn [wp_cont]. wp_steps.
  assert (events_ok [Generate req]) as Hg by (by constructor; [exact Hq|constructor]).
  destruct o as [response|e|]; cbn [wp_cont app]; [|by split; auto..].
  wp_step. apply wp_notify. intros w3 l3 Hl3%notify_ok. cbn [wp_cont].
  wp_step. apply wp_applyModelRound. intros o w4 l4 Hr.
  assert (events_ok l4) as Hl4 by (destruct Hr as [? _]; auto).
  assert (forall l, events_ok l -> events_ok (l1 ++ l2 ++ Generate req :: l3 ++ l4 ++ l)) as Hall.
  { intros l Hl. change (Generate req :: l3 ++ l4 ++ l) with ([Generate req] ++ l3 ++ l4 ++ l). auto 7. }
  destruct o as [[[fin st1] evs]|e|]; cbn [wp_cont];
    [|split; [|done]; rewrite <- (app_nil_r l4); by apply Hall..].
  pose proof (round_coherent _ _ _ _ _ _ _ Hco Hr) as Ha.
  eapply wp_mono; [apply finish_run_ok; [|done]|].
  { intros ->. by destruct Ha as [?|(? & _)]. }
  intros o w5 l5 [Hl5 Ho]. split; [by apply Hall|done].
Qed.

Lemma stream_round_ok adapter ctx limits scope handling st w :
  of_kind ctx -> coherent st ->
  wp (stream_round self host adapter ctx limits scope handling st) w (fun o _ l => round_ok o l).
Proof.
  intros Hn Hco. unfold stream_round. wp_step.
  apply wp_assertWithinBudget; [intros _ _ _|intros; by split]. cbn [wp_cont app].
  wp_step. apply wp_buildRequest. intros o w1 l1 Hl1%reduce_ok Ho.
  destruct o as [[req st']|e|]; cbn [wp_cont]; [|by split..].
  destruct Ho as (projected & after & -> & Hpr & Hreq).
  destruct (request_ok _ _ _ _ _ Hn Hco Hpr Hreq) as [-> Hq]. rewrite set_messages_same.
  wp_step. apply wp_notify. intros w2 l2 Hl2%notify_ok. cbn [wp_cont].
  wp_step. apply wp_streamed_response. intros o w3 e l3 He Hl3%yield_ok.
  assert (events_ok (e :: l3)) as Hg by (constructor; [by destruct He as [->| ->]|done]).
  destruct o as [response|e'|]; cbn [wp_cont app]; [|by split; auto..].
  wp_step. apply wp_notify. intros w4 l4 Hl4%notify_ok. cbn [wp_cont].
  wp_step. apply wp_applyModelRound. intros o w5 l5 Hr.
  assert (events_ok l5) as Hl5 by (destruct Hr as [? _]; auto).
  assert (forall l, events_ok l -> events_ok (l1 ++ l2 ++ (e :: l3) ++ l4 ++ l5 ++ l)) as Hall by auto 8.
  destruct o as [[[fin st1] evs]|e'|]; cbn [wp_cont];
    [|split; [|done]; rewrite <- (app_nil_r l5); by apply Hall..].
  pose proof (round_coherent _ _ _ _ _ _ _ Hco Hr) as Ha.
  wp_step. apply wp_yield_all. intros Hy%yield_ok. cbn [wp_cont].
  eapply wp_mono; [apply finish_stream_ok; [|done]|].
  { intros ->. by destruct Ha as [?|(? & _)]. }
  intros o w6 l6 [Hl6 Ho]. split; [apply Hall; auto|done].
Qed.

Lemma loop_ok {A} (round : ExecutionState -> M error event W (round_result A)) fuel st w :
  (forall st w, coherent st -> wp (round st) w (fun o _ l => round_ok o l)) ->
  coherent st -> wp (loop round fuel st) w (fun _ _ l => events_ok l).
Proof.
  intros Hround Hco.
  apply (wp_loop round (fun st l => coherent st /\ events_ok l) (fun _ l => events_ok l) fuel st w []).
  - intros st' w' l [Hc Hl]. eapply wp_mono; [by apply Hround|]. intros o w2 l2 [Hl2 Ho].
    destruct o as [[st''|a]|e|]; auto.
  - intros st' l [_ Hl]. done.
  - done.
Qed.

Lemma turn_ok {A} complete_ (input : ExecutorInput (W:=W)) id state w :
  (forall adapter ctx st limits handling w,
     of_kind ctx -> coherent st ->
     wp (complete_ adapter ctx st limits handling : M error event W A) w (fun _ _ l => events_ok l)) ->
  of_kind (createRequestContext input id) ->
  wp state w (fun o _ l => l = [] /\ match o with Ret st => coherent st | _ => True end) ->
  wp (start self complete_ input id state) w (fun _ _ l => events_ok l).
Proof.
  intros Hc Hn Hs. unfold start. wp_step. eapply wp_mono; [exact Hs|].
  intros o w1 l [-> Ho]. destruct o as [st|e|]; cbn [wp_cont]; [|done..].
  wp_step. unfold resolveEffectiveAdapter, requireAdapter.
  destruct (modelAdapter self); wp_steps; [by apply Hc|done].
Qed.

Lemma run_ok adapter ctx st limits handling w :
  of_kind ctx -> coherent st ->
  wp (runToCompletion self host adapter ctx st limits handling) w (fun _ _ l => events_ok l).
Proof.
  intros Hn Hc. unfold runToCompletion, createScope. wp_steps. apply loop_ok; [|done].
  intros. by apply run_round_ok.
Qed.

Lemma streamed_ok adapter ctx st limits handling w :
  of_kind ctx -> coherent st ->
  wp (streamToCompletion self host adapter ctx st limits handling) w (fun _ _ l => events_ok l).
Proof.
  intros Hn Hc. unfold streamToCompletion, createScope. wp_steps. apply loop_ok; [|done].
  intros. by apply stream_round_ok.
Qed.

Lemma system_prefix_plain instructions : plain_list (system_prefix instructions).
Proof. unfold system_prefix. destruct instructions as [i|]; [destruct (truthy i)|]; by repeat constructor. Qed.

Lemma createState_coherent input w :
  complete (coalesce (ex_history input) []) ->
  wp (createState host input) w (fun o _ l => l = [] /\ match o with Ret st => coherent st | _ => True end).
Proof.
  intros Hh. unfold createState. wp_steps. destruct o; simpl; [|done..]. wp_step. split; [done|].
  split_and!; [|constructor|done]. simpl.
  apply complete_app; [apply complete_plains, system_prefix_plain|].
  by apply complete_snoc_plain.
Qed.

(** *** Resumed turns *)

Lemma complete_same_shape ms1 ms2 :
  Forall2 (fun a b => is_tool a = is_tool b /\ tool_id a = tool_id b /\ (is_tool a = false -> a = b)) ms1 ms2 ->
  complete ms1 -> complete ms2.
Proof.
  intros H2 Hc. revert ms2 H2. induction Hc as [|m ms Hm _ IH|m rs ms Hm [Ht Hi] _ IH]; intros ms2 H2.
  - inversion H2. constructor.
  - inversion H2 as [|? m' ? ms' (H & _ & He) Hr]; subst.
    rewrite <- He by (by apply plain_not_tool). constructor; [done|by apply IH].
  - inversion H2 as [|? m' ? ms' (H & _ & He) Hr]; subst.
    rewrite <- He by (by apply opens_not_tool).
    apply Forall2_app_inv_l in Hr as (rs' & ms'' & Hrs & Hms & ->).
    apply complete_group; [done| |by apply IH]. unfold answers. rewrite <- Hi. clear Hi He H IH H2 Hms.
    induction Hrs as [|r r' rs rs' (Hx & Hy & _) _ IHr]; [done|]. inversion Ht; subst.
    destruct IHr as [? ?]; [done|]. split; [constructor; [congruence|done]|simpl; congruence].
Qed.

Lemma resolve_same_shape outcome i ms :
  Forall2 (fun a b => is_tool a = is_tool b /\ tool_id a = tool_id b /\ (is_tool a = false -> a = b))
    ms (alter (resolve_message outcome) i ms).
Proof.
  revert i. induction ms as [|m ms IH]; intros i; [constructor|].
  destruct i; simpl.
  - constructor; [by destruct m|]. clear. induction ms; by constructor.
  - by constructor; [|apply IH].
Qed.

Lemma createResumedState_coherent input w :
  complete (rs_history input) ->
  wp (createResumedState host input) w
    (fun o _ l => l = [] /\ match o with Ret st => coherent st | _ => True end).
Proof.
  intros Hh. unfold createResumedState. destruct (find_index _ _); [|by wp_step].
  wp_steps. destruct o; simpl; [|done..]. wp_step. split; [done|].
  split_and!; [|constructor|done]. simpl. eapply complete_same_shape; [apply resolve_same_shape|].
  apply complete_app; [apply complete_plains, system_prefix_plain|done].
Qed.

Lemma createCheckpointState_coherent (input : AgentResumeCheckpointInput (W:=W)) w :
  complete (cp_messages (rk_checkpoint input)) -> plain_list (coalesce (cp_repair (rk_checkpoint input)) []) ->
  wp (createCheckpointState input) w
    (fun o _ l => l = [] /\ match o with Ret st => coherent st | _ => True end).
Proof. intros Hc Hp. unfold createCheckpointState. destruct (negb _); by wp_step. Qed.

End Protocol.

(** The turns of an input, resumed at a withheld call or not. *)
Definition turn_protocol {W} (input : ExecutorInput (W:=W)) (pending : option string) (l : list event) : Prop :=
  events_ok (is_some (in_messageReducer input)) pending l.

Section Turns.
Context {W : Type} (self : AgentExecutor (W:=W)) (host : Host (W:=W)).

(** C4. A turn over a well-formed history (a fresh one, one resumed from a history
    in which every call is answered, or one recovered from a checkpoint), with no
    reducer or one that keeps to its contract of leaving its input alone, streaming
    or not, ending in any way: writes only well-formed checkpoints; hands a
    suspension the transcript cut at the withheld call, whose message says that it
    awaits an approval; persists that, with the text of the answer, or a well-formed
    transcript; and sends the model only well-formed transcripts, where through a
    reducer the results of a group may be in any order and, in a resumed turn, the
    last group may be cut if it holds the resumed call. *)
Theorem turn_keeps_protocol (ex : AgentExecutionInput (W:=W)) (rs : AgentResumeInput (W:=W))
    (rk : AgentResumeCheckpointInput (W:=W)) w :
  keeps_input (ex_input ex) -> complete (coalesce (ex_history ex) []) ->
  keeps_input (rs_input rs) -> complete (rs_history rs) ->
  keeps_input (rk_input rk) -> complete (cp_messages (rk_checkpoint rk)) ->
  plain_list (coalesce (cp_repair (rk_checkpoint rk)) []) ->
  wp (execute self host ex) w (fun _ _ l => turn_protocol (ex_input ex) None l) /\
  wp (stream self host ex) w (fun _ _ l => turn_protocol (ex_input ex) None l) /\
  wp (resume self host rs) w (fun _ _ l => turn_protocol (rs_input rs) (Some (rs_toolCallId rs)) l) /\
  wp (resumeStream self host rs) w (fun _ _ l => turn_protocol (rs_input rs) (Some (rs_toolCallId rs)) l) /\
  wp (resumeCheckpoint self host rk) w (fun _ _ l => turn_protocol (rk_input rk) None l) /\
  wp (resumeCheckpointStream self host rk) w (fun _ _ l => turn_protocol (rk_input rk) None l).
Proof.
  intros H1 H2 H3 H4 H5 H6 H7.
  split_and!; (apply turn_ok; [auto using run_ok, streamed_ok|by split_and!|]);
    auto using createState_coherent, createResumedState_coherent, createCheckpointState_coherent.
Qed.
End Turns.

(** ** Concrete turns *)

(** A turn whose requests go through the reducer the framework ships. *)
Definition reducing : ExecutorInput (W:=Demo.World) :=
  {| in_sessionId := "s1"; in_model := in_model Demo.input; in_cascade := None;
     in_tools := in_tools Demo.input; in_agentName := Some "demo";
     in_traceId := None; in_parentTraceId := None; in_rootTraceId := None; in_signal := false;
     in_observerNotifier := None;
     in_messageReducer := Some (fun ms c w =>
       (Ret {| reduced := (Bounded.reduce Bounded.demo_reducer ms c).1;
               same_array := (Bounded.reduce Bounded.demo_reducer ms c).2; input_after := ms |}, w));
     in_structuredOutput := None; in_instructions := Some "Be brief."; in_limits := None;
     in_toolErrorHandling := None; in_callbacks := Demo.callbacks |}.

Lemma reducing_keeps_input : keeps_input reducing.
Proof.
  intros f ms c w r w' [= <-] Hr. by injection Hr as <- _.
Qed.

Lemma turn_keeps_protocol_witness :
  let ex := {| ex_input := reducing; ex_message := "refund order 42"; ex_history := Some demo_history |} in
  let rs := Demo.resumption demo_history in
  let rk := {| rk_input := Demo.input;
               rk_checkpoint := {| cp_version := 1; cp_executionId := "e"; cp_sessionId := "s1";
                                   cp_iteration := 1; cp_messages := demo_history; cp_usage := no_usage;
                                   cp_toolCallCount := 1; cp_updatedAt := 0; cp_structuredOutput := None;
                                   cp_repairAttempts := None; cp_repair := None |} |} in
  wp (execute (Demo.executor Demo.two_calls) Demo.host ex) O (fun _ _ l => turn_protocol reducing None l) /\
  wp (resume (Demo.executor Demo.two_calls) Demo.host rs) O
    (fun _ _ l => turn_protocol (rs_input rs) (Some (rs_toolCallId rs)) l) /\
  wp (resumeCheckpoint (Demo.executor Demo.two_calls) Demo.host rk) O
    (fun _ _ l => turn_protocol Demo.input None l).
Proof.
  intros ex rs rk.
  destruct (turn_keeps_protocol (Demo.executor Demo.two_calls) Demo.host ex rs rk O)
    as (H1 & _ & H3 & _ & H5 & _).
  - apply reducing_keeps_input.
  - apply demo_history_complete.
  - by intros f ms c w r w' [=].
  - apply withoutSystem_complete, demo_history_complete.
  - by intros f ms c w r w' [=].
  - apply demo_history_complete.
  - constructor.
  - split; [exact H1|split; [exact H3|exact H5]].
Defined.

(** In a well-formed transcript the results are the requested calls, in order. *)
Lemma complete_ids ms : complete ms -> concat (map call_ids ms) = map tool_id (List.filter is_tool ms).
Proof.
  induction 1 as [|m ms Hm _ IH|m rs ms Hm [Ht Hi] _ IH]; [done|..]; simpl.
  - rewrite (plain_not_tool _ Hm), <- IH. apply plain_not_opens in Hm.
    unfold opens_group, call_ids in *. by destruct (tool_calls m).
  - rewrite (opens_not_tool _ Hm), List.filter_app, !map_app, concat_app, IH, <- Hi.
    assert (concat (map call_ids rs) = []) as ->.
    { clear Hi. induction Ht as [|r rs Hr _ IHr]; [done|]. simpl. by destruct r. }
    rewrite (forallb_filter_id _ rs); [done|].
    rewrite forallb_forall. intros r Hr. rewrite Forall_forall in Ht. by apply Ht, list_elem_of_In.
Qed.

(** The protocol is broken when a suspended round requested further calls:
    they are neither executed nor answered, so the resumed turn (here of a model
    that asked for a refund needing approval and a lookup) sends the model a tool
    group with a missing result, which providers reject. *)
Theorem resume_sends_unanswered_sibling :
  exists r rest,
    Demo.requests (Demo.events (resume (Demo.executor []) Demo.host (Demo.resumption Demo.suspension))) =
      r :: rest /\ ~ complete (req_messages r).
Proof.
  eexists _, _. split; [vm_compute; reflexivity|]. intros H%complete_ids. vm_compute in H. discriminate H.
Qed.

End Protocol.
