(* ===== verification/ExecutorStream.v ===== *)
(** * Publication and streaming

    A turn publishes its transcript once, as its last act, and a suspension
    before it; streaming a turn does exactly what running it does, with its
    progress yielded in between. *)

From S2P Require Export ExecutorBudget.

#[local] Open Scope string_scope.
#[local] Open Scope list_scope.
#[local] Open Scope Z_scope.

Module Stream.
Import Executor Rules.

Section Stream.
Context {W : Type} (self : AgentExecutor (W:=W)) (host : Host (W:=W)).

(** ** Publication *)

(** A suspended turn has no final answer to validate yet. *)
Lemma rejectOutput_suspended ctx response st w :
  suspended st = true ->
  wp (rejectOutput host ctx st response) w (fun o w' l => o = Ret (None, st) /\ w' = w /\ l = []).
Proof.
  intros Hs. unfold rejectOutput. destruct (in_structuredOutput _); [rewrite Hs|]; by wp_step.
Qed.

(** When a turn ends suspended, its checkpoint is handed over before its
    transcript, both before the result is returned; nothing else happens in
    between, and a failing callback leaves the later ones out. *)
Theorem suspension_published_before_return ctx response st w :
  suspended st = true ->
  wp (finish_run host ctx response true st) w (fun o _ l =>
    match o with
    | Ret (Done r) =>
        r = toResult ctx st (resp_content response) /\
        l = suspend_events ctx st ++ transcript_events ctx st (resp_content response)
    | Ret (Again _) => False
    | _ => l = suspend_events ctx st \/
           l = suspend_events ctx st ++ transcript_events ctx st (resp_content response)
    end).
Proof.
  intros Hs. unfold finish_run. wp_step.
  eapply wp_mono; [by apply rejectOutput_suspended|]. intros o w1 l (-> & -> & ->). cbn [wp_cont app].
  wp_step. apply wp_publishCheckpoint. intros o w2. destruct o; cbn [wp_cont]; [|by left..].
  wp_step. apply wp_publishTranscript. intros o w3.
  destruct o; cbn [wp_cont]; [wp_step; by rewrite app_nil_r|by right..].
Qed.

(** No transcript yet, or one as the very last event. *)
Definition unpublished (l : list event) : Prop := count is_transcript l = O.
Definition published_last (l : list event) : Prop :=
  exists pre ms, l = pre ++ [Transcript ms] /\ unpublished pre.

Lemma unpublished_app l1 l2 : unpublished l1 -> unpublished l2 -> unpublished (l1 ++ l2).
Proof. unfold unpublished. autorewrite with count. lia. Qed.

Lemma published_app l1 l2 : unpublished l1 -> published_last l2 -> published_last (l1 ++ l2).
Proof.
  intros H1 (pre & ms & -> & Hp). exists (l1 ++ pre), ms.
  split; [by rewrite app_assoc|by apply unpublished_app].
Qed.

Lemma all_unpublished p l : all p l -> (forall e, p e = true -> is_transcript e = false) -> unpublished l.
Proof. apply all_count. Qed.

Lemma notify_unpublished l : all is_notify l -> unpublished l.
Proof. intros H. eapply all_unpublished; [exact H|]. by intros []. Qed.
Lemma reduce_unpublished l : all is_reduce l -> unpublished l.
Proof. intros H. eapply all_unpublished; [exact H|]. by intros []. Qed.
Lemma phase_unpublished l : all is_tool_phase l -> unpublished l.
Proof. intros H. eapply all_unpublished; [exact H|]. by intros []. Qed.
Lemma suspend_unpublished ctx st : unpublished (suspend_events (W:=W) ctx st).
Proof. unfold suspend_events. destruct (suspendedApprovalId st); [|done]. by destruct (_ && _). Qed.
Lemma checkpoint_unpublished ctx st (o : outcome error unit) l :
  l = [] /\ onCheckpoint (in_callbacks (rc_input ctx)) = None /\ o = Ret tt \/
  (exists t, l = [Checkpoint (inFlightCheckpoint (W:=W) ctx st t)]) -> unpublished l.
Proof. intros [(-> & _)|[t ->]]; done. Qed.

Hint Resolve unpublished_app published_app notify_unpublished reduce_unpublished phase_unpublished
  suspend_unpublished checkpoint_unpublished : core.

Lemma transcript_published ctx st (out : string) :
  (is_some (onTranscript (in_callbacks (rc_input ctx))) = true ->
   published_last (transcript_events (W:=W) ctx st out)) /\
  (is_some (onTranscript (in_callbacks (rc_input ctx))) = false ->
   transcript_events ctx st out = []).
Proof.
  unfold transcript_events. destruct (is_some _); split; try done. intros _.
  by exists [], (with_answer (messages st) out).
Qed.

(** What a run may have published, by outcome. *)
Definition publication {A} ctx (o : outcome error A) (l : list event) : Prop :=
  match o with
  | Ret _ => if is_some (onTranscript (in_callbacks (rc_input (W:=W) ctx)))
             then published_last l else unpublished l
  | _ => unpublished l \/ published_last l
  end.

Definition round_publication {A} ctx (o : outcome error (round_result A)) (l : list event) : Prop :=
  match o with
  | Ret (Again _) => unpublished l
  | Ret (Done a) => publication ctx (Ret a) l
  | Throw e => publication (A:=A) ctx (Throw e) l
  | Diverge => publication (A:=A) ctx Diverge l
  end.

Lemma round_publication_app {A} ctx (o : outcome error (round_result A)) l1 l2 :
  unpublished l1 -> round_publication ctx o l2 -> round_publication ctx o (l1 ++ l2).
Proof.
  intros H1. unfold round_publication, publication.
  destruct o as [[st|a]|e|]; [by apply unpublished_app|destruct (is_some _)|..]; naive_solver auto.
Qed.

Lemma finish_run_publication ctx response fin st1 w :
  wp (finish_run host ctx response fin st1) w (fun o _ l => round_publication ctx o l).
Proof.
  unfold finish_run. destruct fin; wp_step; cycle 1.
  { apply wp_publishInFlightCheckpoint. intros o w1 l1 Hl1%checkpoint_unpublished.
    destruct o; simpl; [wp_step; by rewrite app_nil_r|by left..]. }
  assert (forall st out, unpublished (transcript_events (W:=W) ctx st out) \/
                         published_last (transcript_events ctx st out)) as Hor.
  { intros st out. destruct (transcript_published ctx st out) as [H1 H2].
    destruct (is_some _); [right; auto|left; by rewrite H2]. }
  apply wp_rejectOutput. intros o w1 l1 Hr. destruct o as [[[iss|] st2]|e|]; simpl in Hr |- *.
  - destruct Hr as (-> & _). wp_step. apply wp_publishInFlightCheckpoint.
    intros o w2 l2 Hl2%checkpoint_unpublished. destruct o; simpl; [wp_step; by rewrite app_nil_r|by left..].
  - destruct Hr as (-> & _). wp_step. apply wp_publishCheckpoint. intros o w2.
    pose proof (suspend_unpublished ctx st2). destruct o; simpl; [|by left..].
    wp_step. apply wp_publishTranscript. intros o w3.
    destruct (transcript_published ctx st2 (resp_content response)) as [H1 H2].
    destruct (Hor st2 (resp_content response)) as [Hu|Hu].
    + destruct o; simpl; [wp_step|left; auto..]. rewrite app_nil_r. simpl.
      destruct (is_some _); [|auto]. specialize (H1 eq_refl). auto.
    + destruct o; simpl; [wp_step|right; auto..]. rewrite app_nil_r. simpl.
      destruct (is_some _); [auto|]. rewrite H2 in Hu by done. destruct Hu as ([] & ms & Hu & _); done.
  - destruct Hr as [->|[-> _]]; [by left|apply Hor].
  - destruct Hr as [->|[-> _]]; [by left|apply Hor].
Qed.

Lemma run_round_publication adapter ctx limits scope handling st w :
  wp (run_round self host adapter ctx limits scope handling st) w (fun o _ l => round_publication ctx o l).
Proof.
  unfold run_round. wp_step.
  apply wp_assertWithinBudget; [intros _ _ _|intros; by left]. cbn [wp_cont app].
  wp_step. apply wp_buildRequest. intros o w1 l1 Hl1%reduce_unpublished Ho.
  destruct o as [[req st']|e|]; cbn [wp_cont]; [|by left..]. clear Ho.
  wp_step. apply wp_notify. intros w2 l2 Hl2%notify_unpublished. cbn [wp_cont]. wp_steps.
  assert (unpublished (l1 ++ l2 ++ [Generate req])) as Hpre by (repeat apply unpublished_app; done).
  rewrite app_assoc in Hpre.
  destruct o as [response|e|]; cbn [wp_cont app]; [|left; by rewrite app_assoc..].
  wp_step. apply wp_notify. intros w3 l3 Hl3%notify_unpublished. cbn [wp_cont].
  wp_step. apply wp_applyModelRound. intros o w4 l4 [Hl4%phase_unpublished _].
  assert (forall l, l1 ++ l2 ++ Generate req :: l3 ++ l4 ++ l =
                    (((l1 ++ l2) ++ [Generate req]) ++ l3 ++ l4) ++ l) as Heq
    by (intros l; by rewrite <- !app_assoc).
  destruct o as [[[fin st1] evs]|e|]; cbn [wp_cont];
    [|rewrite <- (app_nil_r l4), Heq, app_nil_r; left; auto..].
  eapply wp_mono; [apply finish_run_publication|]. intros o w5 l5 Ho. rewrite Heq.
  apply round_publication_app; auto.
Qed.

(** A turn that returns has published its transcript exactly once, as its very
    last act; a turn that fails published none, or failed in that last act (the
    callback itself threw, or the answer was rejected for good and the
    conversation kept). *)
Theorem transcript_published_once adapter ctx st limits handling w :
  wp (runToCompletion self host adapter ctx st limits handling) w (fun o _ l => publication ctx o l).
Proof.
  unfold runToCompletion, createScope. wp_steps.
  apply (wp_loop _ (fun _ l => unpublished l) (fun o l => publication ctx o l) _ st w []); [|by left|done].
  intros st' w' l Hl. eapply wp_mono; [apply run_round_publication|]. intros o w2 l2 Hr.
  apply (round_publication_app ctx o l l2 Hl) in Hr. by destruct o as [[st''|a]|e|].
Qed.

(** ** Streaming against running

    [agree R m1 m2]: from every world, either the streamed computation [m2]
    reports that an approval is required, or both end in the same world, emit the
    same events up to the yielded ones, a request being one whether the model was
    asked to generate or to stream, and relate by [R]. *)

(** The event a run emits for one of a streamed turn. *)
Definition asked (e : event) : event := match e with OpenStream r => Generate r | _ => e end.

Definition erase (l : list event) : list event := map asked (List.filter (fun e => negb (is_yield e)) l).

(** An adapter that answers a request by streaming as it does at once: its stream, if
    it has one, ends where [generate] ends, in success with its response as the last
    one of the chunks, and in failure with the same error.  The tokens are free. *)
Definition streams_what_it_generates (adapter : ModelAdapter (W:=W)) : Prop :=
  forall stream request w, adapter_stream adapter = Some stream ->
    let '(chunks, ending, w1) := stream request w in
    let '(o, w2) := adapter_generate adapter request w in
    w1 = w2 /\
    match ending with
    | Ret _ => exists r, last_response chunks None = Some r /\ o = Ret r
    | Throw e => o = Throw e
    | Diverge => o = Diverge
    end.

Definition is_approval (e : event) : bool :=
  match e with Yield (EvApprovalRequired _ _ _ _) => true | _ => false end.
Definition approval (l : list event) : Prop := exists e, e ∈ l /\ is_approval e = true.

Definition agree {A B} (R : outcome error A -> outcome error B -> list event -> Prop)
    (m1 : M error event W A) (m2 : M error event W B) : Prop :=
  forall w, let '(o1, w1, l1) := m1 w in let '(o2, w2, l2) := m2 w in
    approval l2 \/ (w1 = w2 /\ l1 = erase l2 /\ R o1 o2 l2).

Definition same {A} (o1 o2 : outcome error A) (_ : list event) : Prop := o1 = o2.

(** Relations that a preceding part of the run does not disturb. *)
Record stable {A B} (R : outcome error A -> outcome error B -> list event -> Prop) : Prop := {
  stable_app : forall o1 o2 l l', R o1 o2 l' -> R o1 o2 (l ++ l');
  stable_throw : forall e l, R (Throw e) (Throw e) l;
  stable_diverge : forall l, R Diverge Diverge l;
}.

Lemma same_stable {A} : stable (same (A:=A)).
Proof. by split. Qed.

Lemma erase_app l1 l2 : erase (l1 ++ l2) = erase l1 ++ erase l2.
Proof. unfold erase. by rewrite List.filter_app, map_app. Qed.

Lemma approval_app_l l1 l2 : approval l1 -> approval (l1 ++ l2).
Proof. intros (e & He & Ha). exists e. split; [set_solver|done]. Qed.
Lemma approval_app_r l1 l2 : approval l2 -> approval (l1 ++ l2).
Proof. intros (e & He & Ha). exists e. split; [set_solver|done]. Qed.

Lemma agree_bind_on {A B C} (P : A -> Prop) (R : outcome error B -> outcome error C -> list event -> Prop)
    (m1 m2 : M error event W A) k1 k2 :
  stable R -> agree same m1 m2 -> (forall w, wp m2 w (fun o _ _ => match o with Ret a => P a | _ => True end)) ->
  (forall a, P a -> agree R (k1 a) (k2 a)) -> agree R (bind m1 k1) (bind m2 k2).
Proof.
  intros HR Hm HP Hk w. specialize (Hm w). specialize (HP w). unfold bind. unfold wp in HP.
  destruct (m1 w) as [[o1 w1] l1], (m2 w) as [[o2 w2] l2].
  unfold same in Hm. destruct Hm as [Hm|(<- & -> & <-)].
  { destruct o1 as [a1|e1|]; [destruct (k1 a1 w1) as [[? ?] ?]|..];
      (destruct o2 as [a2|e2|]; [destruct (k2 a2 w2) as [[? ?] ?]|..]); left; auto using approval_app_l. }
  destruct o1 as [a|e|]; [|right; split_and!; try done; by apply HR..].
  specialize (Hk a HP w1). destruct (k1 a w1) as [[o3 w3] l3], (k2 a w1) as [[o4 w4] l4].
  destruct Hk as [Hk|(<- & -> & Hk)]; [left; by apply approval_app_r|right].
  split_and!; [done|by rewrite erase_app|by apply HR].
Qed.

Lemma agree_bind {A B C} (R : outcome error B -> outcome error C -> list event -> Prop)
    (m1 m2 : M error event W A) k1 k2 :
  stable R -> agree same m1 m2 -> (forall a, agree R (k1 a) (k2 a)) -> agree R (bind m1 k1) (bind m2 k2).
Proof.
  intros HR Hm Hk. apply (agree_bind_on (fun _ => True)); auto.
  intros w. apply run_wp. by intros [].
Qed.

(** A computation that yields nothing and opens no stream agrees with itself. *)
Definition run_only (e : event) : bool := match e with Yield _ | OpenStream _ => false | _ => true end.

Definition silent {A} (m : M error event W A) : Prop := forall w, wp m w (fun _ _ l => all run_only l).

Lemma erase_silent l : all run_only l -> erase l = l.
Proof.
  unfold erase. induction 1 as [|e l He _ IH]; [done|]. simpl.
  destruct e; simpl in *; try done; by rewrite IH.
Qed.

Lemma agree_silent {A} (m : M error event W A) : silent m -> agree same m m.
Proof.
  intros H w. specialize (H w). unfold wp in H. destruct (m w) as [[o w'] l].
  right. split_and!; [done|by rewrite erase_silent|done].
Qed.

(** Yielding what was made of a value. *)
Lemma yield_all_run {B} (m2 : M error event W B) es w :
  bind (yield_all es) (fun _ => m2) w = let '(o2, w2, l2) := m2 w in (o2, w2, map Yield es ++ l2).
Proof.
  revert w. induction es as [|e es IH]; intros w; simpl.
  - unfold bind, ret. by destruct (m2 w) as [[? ?] ?].
  - rewrite bind_assoc. unfold yield. unfold bind at 1, emit. rewrite IH.
    by destruct (m2 w) as [[? ?] ?].
Qed.

Lemma agree_yields {A B} R (m1 : M error event W A) (m2 : M error event W B) (es : list AgentStreamEvent) :
  stable R -> agree R m1 m2 -> agree R m1 (bind (yield_all es) (fun _ => m2)).
Proof.
  intros HR Hm w. specialize (Hm w). rewrite yield_all_run. destruct (m1 w) as [[o1 w1] l1].
  destruct (m2 w) as [[o2 w2] l2]. destruct Hm as [Hm|(<- & -> & Hm)]; [left; by apply approval_app_r|right].
  split_and!; [done| |by apply HR]. rewrite erase_app.
  assert (erase (map Yield es) = []) as ->; [|done]. unfold erase. by induction es.
Qed.

Lemma silent_of {A} (m : M error event W A) (p : event -> bool) :
  (forall e, p e = true -> run_only e = true) -> (forall w, wp m w (fun _ _ l => all p l)) -> silent m.
Proof. intros Hp Hm w. eapply wp_mono; [apply Hm|]. intros o1 w1 l Hl. eapply all_impl; [exact Hl|exact Hp]. Qed.

Lemma silent_notify ctx st p : silent (notify ctx st p).
Proof. apply (silent_of _ is_notify); [by intros []|]. intros w. by apply wp_notify. Qed.

Lemma silent_budget st limits scope : silent (assertWithinBudget host st limits scope).
Proof. intros w. apply wp_assertWithinBudget; intros; constructor. Qed.

Lemma silent_request ctx st : silent (buildRequest self ctx st).
Proof. apply (silent_of _ is_reduce); [by intros []|]. intros w. by apply wp_buildRequest. Qed.

Lemma silent_round ctx st response limits scope handling :
  silent (applyModelRound host ctx st response limits scope handling).
Proof.
  apply (silent_of _ is_tool_phase); [by intros []|]. intros w. apply wp_applyModelRound. by intros o w' l [Hl _].
Qed.

Lemma silent_transcript ctx st (out : string) : silent (publishTranscript ctx st out).
Proof.
  intros w. apply wp_publishTranscript. intros o w'. unfold transcript_events.
  destruct (is_some _); by repeat constructor.
Qed.

Lemma silent_suspend ctx st : silent (publishCheckpoint ctx st).
Proof.
  intros w. apply wp_publishCheckpoint. intros o w'. unfold suspend_events.
  destruct (suspendedApprovalId st); [destruct (_ && _)|]; by repeat constructor.
Qed.

Lemma silent_checkpoint ctx st : silent (publishInFlightCheckpoint host ctx st).
Proof.
  intros w. apply wp_publishInFlightCheckpoint. intros o w' l [(-> & _)|[t ->]]; by repeat constructor.
Qed.

Lemma silent_reject ctx st response : silent (rejectOutput host ctx st response).
Proof.
  intros w. apply wp_rejectOutput. intros o w' l Hr.
  assert (all run_only (transcript_events ctx st (resp_content response))) as Ht.
  { unfold transcript_events. destruct (is_some _); by repeat constructor. }
  unfold reject_post in Hr. destruct o as [[[iss|] st']|e|].
  - destruct Hr as (-> & _). constructor.
  - destruct Hr as (-> & _). constructor.
  - destruct Hr as [->|[-> _]]; [constructor|done].
  - destruct Hr as [->|[-> _]]; [constructor|done].
Qed.

Lemma silent_generate request (adapter : ModelAdapter (W:=W)) :
  silent (bind (emit (Generate request)) (fun _ => lift (adapter_generate adapter request))).
Proof. intros w. wp_steps. by repeat constructor. Qed.

(** *** Suspensions are announced *)

Definition announces (evs : list AgentStreamEvent) : Prop :=
  exists e, e ∈ evs /\ is_approval (Yield e) = true.

Definition announced st (r : bool * ExecutionState * list AgentStreamEvent) : Prop :=
  suspended r.1.2 = suspended st \/ announces r.2.

Lemma announces_app evs more : announces evs -> announces (evs ++ more).
Proof. intros (e & He & Ha). exists e. split; [set_solver|done]. Qed.

Lemma announces_last evs e : is_approval (Yield e) = true -> announces (evs ++ [e]).
Proof. intros Ha. exists e. split; [set_solver|done]. Qed.

Lemma handle_call_announced ctx limits scope handling st evs call w :
  wp (handle_call host ctx limits scope handling st evs call) w (fun o _ _ =>
    match o with
    | Ret (flow, st', evs') => (announces evs -> announces evs') /\
        match flow with NextCall => suspended st' = suspended st | SuspendTurn => announces evs' end
    | _ => True
    end).
Proof.
  unfold handle_call. wp_step. apply wp_assertNotAborted; [intros _; cbn [wp_cont]|done].
  wp_step. apply wp_limit; [intros _; cbn [wp_cont app]|done].
  destruct (find_first _ _) as [tool|]; [|by wp_step]. cbv zeta.
  destruct (negb _); [by wp_step|]. wp_step. apply wp_notify. intros w1 l1 _. cbn [wp_cont]. wp_steps.
  destruct o as [result|err|]; cbn; wp_steps; [..|done].
  - unfold handle_tool_result. cbv zeta. wp_step. apply wp_notify. intros w2 l2 _. cbn [wp_cont].
    destruct result; wp_step; (split; [auto using announces_app|]); try done.
    by apply announces_last.
  - unfold handle_tool_error. destruct err as [e|n m|r]; [by wp_step|..].
    all: wp_step; apply wp_assertNotAborted; [intros _; cbn [wp_cont app]|done].
    all: destruct (decide _); [by wp_step|].
    all: wp_step; apply wp_toFailurePayload; intros [f|e|] w2 l2 _ _; cbn [wp_cont]; [|done|done].
    all: wp_step; apply wp_notify; intros w3 l3 _; cbn [wp_cont]; wp_step.
    all: split; [intros; by do 2 apply announces_app|done].
Qed.

Lemma handle_calls_announced ctx limits scope handling calls st evs w :
  wp (handle_calls host ctx limits scope handling st evs calls) w (fun o _ _ =>
    match o with
    | Ret r => (announces evs -> announces r.2) /\ announced st r
    | _ => True
    end).
Proof.
  revert st evs w. induction calls as [|call calls IH]; intros st evs w; simpl.
  { wp_step. split; [done|by left]. }
  wp_step. eapply wp_mono; [apply handle_call_announced|].
  intros [[[flow st1] evs1]|e|] w1 l1 Ho; cbn [wp_cont]; [|done..]. destruct Ho as [Hm Hf], flow.
  - eapply wp_mono; [apply IH|]. intros [r|e|] w2 l2 Hr; [|done..]. destruct Hr as [Hm2 Ha].
    split; [auto|]. unfold announced in *. by rewrite <- Hf.
  - wp_step. split; [done|by right].
Qed.

Lemma round_announced ctx st response limits scope handling w :
  wp (applyModelRound host ctx st response limits scope handling) w (fun o _ _ =>
    match o with Ret r => announced st r | _ => True end).
Proof.
  unfold applyModelRound. cbv zeta. destruct (coalesce _ _); [wp_step; by left|].
  eapply wp_mono; [apply handle_calls_announced|]. intros [r|e|] w1 l1 Hr; [|done..].
  destruct Hr as [_ [Hr|Hr]]; [left|by right]. rewrite Hr.
  apply (commit_repair_spec (recorded st response)).
Qed.

(** *** The rounds *)

Lemma agree_ext {A B} R (m1 m1' : M error event W A) (m2 m2' : M error event W B) :
  (forall w, m1 w = m1' w) -> (forall w, m2 w = m2' w) -> agree R m1' m2' -> agree R m1 m2.
Proof. intros H1 H2 H w. rewrite H1, H2. apply H. Qed.

Lemma agree_announced {A B} R (m1 : M error event W A) (m2 : M error event W B) es :
  announces es -> agree R m1 (bind (yield_all es) (fun _ => m2)).
Proof.
  intros (e & He & Ha) w. rewrite yield_all_run. destruct (m1 w) as [[? ?] ?], (m2 w) as [[o2 w2] l2].
  left. apply approval_app_l. exists (Yield e). split; [|done]. by apply list_elem_of_fmap_2.
Qed.

(** The events that close a stream carry the result of the turn. *)
Definition closes (r : AgentResult) (l : list event) : Prop :=
  exists pre,
    l = pre ++ [Yield (EvFinalAnswer (res_sessionId r) (res_output r) (res_usage r) (res_structured r));
                Yield (EvComplete (res_sessionId r) (res_output r))].

Definition turn_agrees (o1 : outcome error AgentResult) (o2 : outcome error unit) (l : list event) : Prop :=
  match o1, o2 with
  | Ret r, Ret _ => closes r l
  | Throw e, Throw e' => e = e'
  | Diverge, Diverge => True
  | _, _ => False
  end.

Definition round_agrees (o1 : outcome error (round_result AgentResult))
    (o2 : outcome error (round_result unit)) (l : list event) : Prop :=
  match o1, o2 with
  | Ret (Again s), Ret (Again s') => s = s' /\ suspended s = false
  | Ret (Done r), Ret (Done _) => closes r l
  | Throw e, Throw e' => e = e'
  | Diverge, Diverge => True
  | _, _ => False
  end.

Lemma closes_app r l1 l2 : closes r l2 -> closes r (l1 ++ l2).
Proof. intros (pre & ->). exists (l1 ++ pre). by rewrite <- app_assoc. Qed.

Lemma turn_agrees_stable : stable turn_agrees.
Proof. split; [|done..]. intros [r|e|] [u|e'|] l l'; try done. apply closes_app. Qed.

Lemma round_agrees_stable : stable round_agrees.
Proof. split; [|done..]. intros [[s|r]|e|] [[s'|u]|e'|] l l'; try done. apply closes_app. Qed.

#[local] Hint Resolve agree_silent silent_notify silent_budget silent_request silent_round silent_transcript
  silent_suspend silent_checkpoint silent_reject same_stable turn_agrees_stable round_agrees_stable : core.

Lemma agree_again st : suspended st = false -> agree round_agrees (ret (Again st)) (ret (Again st)).
Proof. intros Hs w. right. by split_and!. Qed.

Lemma finish_agrees ctx response fin st1 :
  suspended st1 = false ->
  agree round_agrees (finish_run host ctx response fin st1) (finish_stream host ctx response fin st1).
Proof.
  intros Hs. unfold finish_run, finish_stream. destruct fin.
  2: { apply agree_bind; auto. intros _. by apply agree_again. }
  apply (agree_bind_on (fun r => suspended r.2 = false)); auto.
  { intros w. apply wp_rejectOutput. intros o w' l Hr. destruct o as [[[iss|] st2]|e|]; [..|done|done]; simpl in *.
    - by destruct Hr as (_ & _ & -> & _).
    - by destruct Hr as (_ & [->|(v & _ & ->)]). }
  intros [[iss|] st2] Hs2; simpl in Hs2.
  - apply agree_bind; auto. intros _. intros w. right. by split_and!.
  - assert (resolveOutput st2 (resp_content response) = resp_content response) as Hout
      by (unfold resolveOutput; by rewrite Hs2).
    rewrite Hout. apply agree_bind; auto. intros _. apply agree_bind; auto. intros _ w. right.
    split_and!; [done|done|]. exists []. unfold toResult. simpl. by rewrite Hout.
Qed.

Lemma erase_yields l : all is_yield l -> erase l = [].
Proof. induction 1 as [|e l He _ IH]; [done|]. unfold erase in *. simpl. by rewrite He. Qed.

Lemma native_response_agrees (adapter : ModelAdapter (W:=W)) stream request :
  streams_what_it_generates adapter -> adapter_stream adapter = Some stream ->
  agree same (bind (emit (Generate request)) (fun _ => lift (adapter_generate adapter request)))
    (streamed_response adapter request).
Proof.
  intros Hlaw Hs w. specialize (Hlaw stream request w Hs). unfold streamed_response. rewrite Hs.
  unfold bind, emit, lift. destruct (stream request w) as [[chunks ending] w1].
  destruct (adapter_generate adapter request w) as [o w2]. destruct Hlaw as [<- He].
  rewrite read_chunks_run. pose proof (erase_yields _ (token_events_yield chunks)) as Hel.
  assert (forall rest, erase (OpenStream request :: token_events chunks ++ rest) = Generate request :: erase rest) as Her.
  { intros rest. change (OpenStream request :: token_events chunks ++ rest) with ([OpenStream request] ++ token_events chunks ++ rest).
    rewrite !erase_app, Hel. done. }
  destruct ending as [[]|e|]; [destruct He as (r & -> & ->)|subst o..]; unfold ret; simpl.
  all: right; split_and!; [done| |done]; rewrite ?app_nil_r; rewrite <- (app_nil_r (token_events chunks)); by rewrite Her.
Qed.

Lemma response_agrees (adapter : ModelAdapter (W:=W)) request :
  streams_what_it_generates adapter ->
  agree same (bind (emit (Generate request)) (fun _ => lift (adapter_generate adapter request)))
    (streamed_response adapter request).
Proof.
  intros Hlaw. destruct (adapter_stream adapter) as [stream|] eqn:Hn; [by eapply native_response_agrees|].
  unfold streamed_response. rewrite Hn. apply agree_bind; [auto| |].
  { intros w. right. by split_and!. }
  intros _. apply (agree_ext _ _ (bind (lift (adapter_generate adapter request)) ret) _
    (bind (lift (adapter_generate adapter request)) (fun r =>
       bind (yield_all (if truthy (resp_content r) then [EvToken (resp_content r)] else [])) (fun _ => ret r)))).
  - intros w. by rewrite bind_ret_r.
  - intros w. apply bind_ext. intros r w'. unfold when. destruct (truthy _); [|done]. simpl.
    by rewrite bind_assoc.
  - apply agree_bind; [auto| |].
    + intros w. destruct (lift (adapter_generate adapter request) w) as [[o w'] l] eqn:Hl. right.
      unfold lift in Hl. destruct (adapter_generate adapter request w). injection Hl as <- <- <-. by split_and!.
    + intros r. apply agree_yields; [auto|]. intros w. right. by split_and!.
Qed.

Lemma round_agrees_with adapter ctx limits scope handling st :
  streams_what_it_generates adapter -> suspended st = false ->
  agree round_agrees (run_round self host adapter ctx limits scope handling st)
    (stream_round self host adapter ctx limits scope handling st).
Proof.
  intros Hn Hs. unfold run_round, stream_round. apply agree_bind; auto. intros _.
  apply (agree_bind_on (fun r => suspended r.2 = false)); auto.
  { intros w. apply wp_buildRequest. intros o w' l _ Ho. destruct o as [[req st']|e|]; [|done..].
    by destruct Ho as (? & ? & -> & _). }
  intros [request st'] Hs'. simpl in Hs'. apply agree_bind; auto. intros _.
  eapply agree_ext; [intros w; symmetry; apply bind_assoc|done|].
  apply agree_bind; [auto|by apply response_agrees|]. intros response.
  apply agree_bind; auto. intros _.
  apply (agree_bind_on (announced st')); auto.
  { intros w. apply round_announced. }
  intros [[fin st1] evs] [Ha|Ha]; simpl in Ha.
  - apply agree_yields; [auto|]. apply finish_agrees. congruence.
  - by apply agree_announced.
Qed.

Lemma loop_agrees round1 round2 fuel st :
  (forall st, suspended st = false -> agree round_agrees (round1 st) (round2 st)) ->
  suspended st = false -> agree turn_agrees (loop round1 fuel st) (loop round2 fuel st).
Proof.
  intros Hr. revert st. induction fuel as [|fuel IH]; intros st Hs; simpl.
  { intros w. right. by split_and!. }
  intros w. specialize (Hr st Hs w). unfold bind.
  destruct (round1 st w) as [[o1 w1] l1], (round2 st w) as [[o2 w2] l2].
  destruct Hr as [Ha|(<- & -> & Ho)].
  { destruct o1 as [[s1|r1]|e1|]; simpl; try destruct (loop round1 fuel s1 w1) as [[? ?] ?];
    (destruct o2 as [[s2|r2]|e2|]; simpl; try destruct (loop round2 fuel s2 w2) as [[? ?] ?]);
    left; auto using approval_app_l. }
  destruct o1 as [[s1|r1]|e1|], o2 as [[s2|r2]|e2|]; try done; simpl in Ho.
  - destruct Ho as [<- Hs1]. specialize (IH s1 Hs1 w1).
    destruct (loop round1 fuel s1 w1) as [[o3 w3] l3], (loop round2 fuel s1 w1) as [[o4 w4] l4].
    destruct IH as [Ha|(<- & -> & Ho)]; [left; by apply approval_app_r|right].
    split_and!; [done|by rewrite erase_app|by apply turn_agrees_stable].
  - right. simpl. rewrite !app_nil_r. by split_and!.
  - right. by split_and!.
  - right. by split_and!.
Qed.

Lemma completions_agree adapter ctx st limits handling :
  streams_what_it_generates adapter -> suspended st = false ->
  agree turn_agrees (runToCompletion self host adapter ctx st limits handling)
    (streamToCompletion self host adapter ctx st limits handling).
Proof.
  intros Hn Hs. unfold runToCompletion, streamToCompletion. apply agree_bind; auto.
  { intros w. right. by split_and!. }
  intros scope. apply loop_agrees; [|done]. intros. by apply round_agrees_with.
Qed.
(** C11. Streaming is running, whether the adapter streams natively or not, as long as
    a native stream delivers what [generate] answers
    ([streams_what_it_generates]): a streamed turn either announces that an approval is
    required, or ends in the same world as the run turn after exactly the same calls in
    the same order (the yielded events left aside, and a stream opened for a request
    where the run generates), fails with the same error, and closes with the final
    answer and completion events of the run's result.  (Once an approval is required
    the two differ: [stream_persists_made_up_answer].) *)
Theorem stream_agrees_with_run adapter ctx st limits handling :
  streams_what_it_generates adapter -> suspended st = false ->
  agree turn_agrees (runToCompletion self host adapter ctx st limits handling)
    (streamToCompletion self host adapter ctx st limits handling).
Proof. apply completions_agree. Qed.

(** The entry points agree when the adapter they resolve to keeps that law. *)
Lemma entries_agree input :
  (forall w, wp (resolveEffectiveAdapter self (in_cascade (ex_input input)) (in_observerNotifier (ex_input input))
                 : M error event W _) w (fun o _ _ =>
     match o with Ret a => streams_what_it_generates a | _ => True end)) ->
  agree turn_agrees (execute self host input) (stream self host input).
Proof.
  intros Hn. unfold execute, stream, start. cbv zeta.
  apply (agree_bind_on (fun st => suspended st = false)); [apply turn_agrees_stable| | |].
  - apply agree_silent. intros w. unfold wp, createState, bind, lift, ret. destruct (randomUUID host w) as [[| |] ?]; constructor.
  - intros w. unfold wp, createState, bind, lift, ret. by destruct (randomUUID host w) as [[| |] ?].
  - intros st Hs. apply (agree_bind_on streams_what_it_generates); [apply turn_agrees_stable| |done|].
    + apply agree_silent. intros w. unfold resolveEffectiveAdapter, requireAdapter. unfold wp, bind, ret, throw.
      destruct (modelAdapter self); constructor.
    + intros adapter Ha. by apply completions_agree.
Qed.

End Stream.

(** ** Concrete turns *)

Definition suspended_state : ExecutionState :=
  set_suspended "approval-c1" (fresh_state "e" Demo.suspension []).

Lemma suspension_published_before_return_witness :
  let ctx := createRequestContext Demo.input None in
  let r := Demo.response EmptyString [] in
  wp (finish_run Demo.host ctx r true suspended_state) O (fun o _ l =>
    match o with
    | Ret (Done res) =>
        res = toResult ctx suspended_state EmptyString /\
        l = suspend_events ctx suspended_state ++ transcript_events ctx suspended_state EmptyString
    | Ret (Again _) => False
    | _ => l = suspend_events ctx suspended_state \/
           l = suspend_events ctx suspended_state ++ transcript_events ctx suspended_state EmptyString
    end).
Proof. intros ctx r. apply (suspension_published_before_return Demo.host ctx r). reflexivity. Defined.

(** An adapter that streams the answers of the script, in two tokens. *)
Definition streaming (script : list ModelResponse) : ModelAdapter (W:=Demo.World) :=
  {| supportsStructuredOutput := false;
     adapter_generate := adapter_generate (Demo.scripted script);
     adapter_stream := Some (fun request n =>
       let r := nth n script (Demo.response "done" []) in
       ([TokenChunk "do"; TokenChunk "ne"; ResponseChunk r], Ret tt, S n)) |}.

Lemma streaming_lawful script : streams_what_it_generates (streaming script).
Proof. intros st request w [= <-]. simpl. split; [done|]. by eexists. Qed.

Lemma stream_agrees_with_run_witness :
  let ctx := createRequestContext Demo.input None in
  let st := fresh_state "e" [UserMsg "hi"] [] in
  let script := [Demo.response EmptyString [Demo.call "c1" "lookup"]] in
  agree turn_agrees
    (runToCompletion (Demo.executor script) Demo.host (streaming script) ctx st (resolveLimits None) Report)
    (streamToCompletion (Demo.executor script) Demo.host (streaming script) ctx st (resolveLimits None) Report).
Proof.
  intros ctx st script. apply stream_agrees_with_run; [apply streaming_lawful|reflexivity].
Defined.

(** The transcripts a run published. *)
Definition transcripts (l : list event) : list (list ModelMessage) :=
  filter_map (fun e => match e with Transcript ms => Some ms | _ => None end) l.

(** The two loops do differ on a suspended turn: the run persists the
    transcript as it is, the stream appends to it the sentence made up for the
    caller, as if the model had said it. *)
Theorem stream_persists_made_up_answer :
  let script := [Demo.response EmptyString [Demo.call "c1" "refund"]] in
  let run := execute (Demo.executor script) Demo.host (Demo.fresh None) in
  let streamed := stream (Demo.executor script) Demo.host (Demo.fresh None) in
  exists ms, transcripts (Demo.events run) = [ms] /\
    transcripts (Demo.events streamed) =
      [ms ++ [AssistantMsg (approval_sentence "refund" "approval-c1" "needs a manager") None]].
Proof. eexists. split; vm_compute; reflexivity. Qed.

End Stream.
