(* ===== verification/AuditTrail.v ===== *)
(** * The audit trail (packages/core/src/services/audit-trail.service.ts,
      packages/core/src/interfaces/audit.interface.ts)

    The events of the governance boundary, the filtering and redaction applied
    before they reach a sink, and the isolation of failing sinks. *)

From S2P Require Export Types.

#[local] Open Scope string_scope.
#[local] Open Scope list_scope.
#[local] Open Scope Z_scope.

Module Audit.

(** ** Events *)

Record AuditActor : Type := {
  actor_userId : option string;
  actor_tenantId : option string;
  actor_roles : option (list string);
  actor_label : option string;
}.

Record AuditEventBase : Type := {
  ev_at : Z;
  ev_sessionId : string;
  ev_traceId : string;
  ev_tenantId : option string;
}.

Inductive PolicyDecision : Type := DAllow | DDeny | DRequireApproval.
Inductive OutputDecision : Type := OAllow | ODeny | OSanitize.
Inductive SettlementOutcome : Type := Approved | Rejected.

Inductive AuditEventBody : Type :=
| ToolPolicyDecision (agentName toolName policyName : string) (decision : PolicyDecision)
    (reason approvalId : option string) (retryAfterSeconds : option num) (args : option obj)
| ToolOutputPolicyDecision (agentName toolName policyName : string) (decision : OutputDecision)
    (reason : option string) (args : option obj)
| ApprovalRequested (approvalId agentName toolName reason : string) (expiresAt : option Z)
    (requiredApprovals : option num) (args : option obj)
| ApprovalSigned (approvalId agentName toolName : string) (actor : AuditActor)
    (signatures : Z) (requiredApprovals : num)
| ApprovalSettled (approvalId agentName toolName : string) (outcome : SettlementOutcome)
    (actor : option AuditActor) (signatures : option (list AuditActor)) (reason : option string)
    (args : option obj)
| ApprovalExpired (approvalId agentName toolName : string) (expiredAt : Z) (actor : option AuditActor)
| ApprovalSettlementFailed (approvalId agentName toolName : string) (outcome : SettlementOutcome)
    (err : string) (actor : option AuditActor)
| ApprovalSettlementDenied (approvalId agentName toolName : string) (outcome : SettlementOutcome)
    (reason : string) (actor : option AuditActor).

Record AuditEvent : Type := { ev_base : AuditEventBase; ev_body : AuditEventBody }.

(** [auditEnvelope] at a given time. *)
Definition auditEnvelope (now : Z) (context : AgentContext) : AuditEventBase :=
  {| ev_at := now; ev_sessionId := ctx_sessionId context; ev_traceId := ctx_traceId context;
     ev_tenantId := tenantId (security context) |}.

Definition event_args (b : AuditEventBody) : option obj :=
  match b with
  | ToolPolicyDecision _ _ _ _ _ _ _ a | ToolOutputPolicyDecision _ _ _ _ _ a
  | ApprovalRequested _ _ _ _ _ _ a | ApprovalSettled _ _ _ _ _ _ _ a => a
  | _ => None
  end.

Definition with_args (b : AuditEventBody) (a : option obj) : AuditEventBody :=
  match b with
  | ToolPolicyDecision x y p d r i s _ => ToolPolicyDecision x y p d r i s a
  | ToolOutputPolicyDecision x y p d r _ => ToolOutputPolicyDecision x y p d r a
  | ApprovalRequested i x y r e n _ => ApprovalRequested i x y r e n a
  | ApprovalSettled i x y o c s r _ => ApprovalSettled i x y o c s r a
  | _ => b
  end.

(** ** Options *)

Record AuditOptions : Type := {
  includeArgs : bool;
  sensitiveFields : option (list string);
  includeAllowDecisions : bool;
}.

Definition REDACTED : string := "***REDACTED***".

Definition is_sensitive (sensitive : list string) (k : string) : bool := bool_decide (k ∈ sensitive).

(** [redact], as it applies to a field's value: an object that is not an array is
    rebuilt from its own entries. *)
Fixpoint redact_value (sensitive : list string) (v : value) : value :=
  match v with
  | VObj fs => VObj (map (fun f => match f with
                                   | (k, x) => (k, if is_sensitive sensitive k then VStr REDACTED
                                                   else redact_value sensitive x)
                                   end) fs)
  | VDate _ | VMap _ | VSet _ => VObj []
  | _ => v
  end.

Definition redact (args : obj) (sensitive : list string) : obj :=
  map (fun f => (f.1, if is_sensitive sensitive f.1 then VStr REDACTED
                      else redact_value sensitive f.2)) args.

Definition prepare (options : AuditOptions) (event : AuditEvent) : AuditEvent :=
  match event_args (ev_body event) with
  | None => event
  | Some a =>
      if negb (includeArgs options) then
        {| ev_base := ev_base event; ev_body := with_args (ev_body event) None |}
      else
        match sensitiveFields options with
        | None | Some [] => event
        | Some s => {| ev_base := ev_base event; ev_body := with_args (ev_body event) (Some (redact a s)) |}
        end
  end.

(** Whether [record] leaves an event out. *)
Definition filtered (options : AuditOptions) (event : AuditEvent) : bool :=
  match ev_body event with
  | ToolPolicyDecision _ _ _ DAllow _ _ _ _ => negb (includeAllowDecisions options)
  | _ => false
  end.

Section Trail.
Context {W : Type}.

Definition AuditSink : Type := AuditEvent -> W -> outcome error unit * W.

Record AuditTrail : Type := { sinks : list AuditSink; options : AuditOptions }.

Definition isEnabled (trail : AuditTrail) : bool := negb (length (sinks trail) =? 0)%nat.

(** An event reaching the sink at an index. *)
Record delivery : Type := { d_sink : nat; d_event : AuditEvent }.

Local Open Scope eff_scope.

(** A failing sink does not stop the others. *)
Fixpoint deliver (i : nat) (ss : list AuditSink) (ev : AuditEvent) : M error delivery W unit :=
  match ss with
  | [] => ret tt
  | s :: rest =>
      catch (emit {| d_sink := i; d_event := ev |} ;; lift (s ev)) (fun _ => ret tt) ;;
      deliver (S i) rest ev
  end.

Definition record (trail : AuditTrail) (event : AuditEvent) : M error delivery W unit :=
  if negb (isEnabled trail) then ret tt
  else if filtered (options trail) event then ret tt
  else deliver 0 (sinks trail) (prepare (options trail) event).

(** [await this.audit?.record(event)], as the services call it. *)
Definition record_optional (trail : option AuditTrail) (event : AuditEvent) (w : W)
    : outcome error unit * W :=
  match trail with
  | None => (Ret tt, w)
  | Some t => let '(o, w', _) := record t event w in (o, w')
  end.
End Trail.
Arguments AuditSink : clear implicits.
Arguments AuditTrail : clear implicits.

(** ** Properties *)

(** Following a path of keys through nested objects. *)
Fixpoint at_path (v : value) (path : list string) : option value :=
  match path with
  | [] => Some v
  | k :: rest => match v with
                 | VObj fs => match obj_get fs k with Some x => at_path x rest | None => None end
                 | _ => None
                 end
  end.

Lemma redact_value_obj s fs : redact_value s (VObj fs) = VObj (redact fs s).
Proof. simpl. f_equal. unfold redact. apply map_ext. by intros [k v]. Qed.

Lemma redact_get s fs k :
  obj_get (redact fs s) k =
  (fun x => if is_sensitive s k then VStr REDACTED else redact_value s x) <$> obj_get fs k.
Proof.
  unfold redact. induction fs as [|[k' x] fs IH]; simpl; [done|].
  case_bool_decide as Hk; [by subst|done].
Qed.

(** Masking reaches every depth of nested objects: whatever value a path of
    keys leads to in the recorded arguments, a sensitive key on the path can only
    be its last one and leads to the mask; and a path without sensitive keys
    leads to what it led to before, when that was not an object to rebuild. *)
Theorem redact_masks (args : obj) (s path : list string) (v : value) :
  (at_path (VObj (redact args s)) path = Some v -> forall pre k post,
     path = pre ++ k :: post -> k ∈ s -> post = [] /\ v = VStr REDACTED) /\
  (at_path (VObj args) path = Some v -> Forall (fun k => k ∉ s) path ->
   at_path (VObj (redact args s)) path = Some (redact_value s v)).
Proof.
  rewrite <- redact_value_obj. generalize (VObj args). clear args. split.
  - revert v0. induction path as [|k path IH]; intros u H pre k' post Hp Hk; [by destruct pre|].
    destruct u; try done. rewrite redact_value_obj in H. simpl in H. rewrite redact_get in H.
    destruct (obj_get fields k) as [x|]; simpl in H; [|done].
    destruct pre as [|k1 pre]; simplify_eq/=.
    + unfold is_sensitive in H. rewrite bool_decide_eq_true_2 in H by done.
      destruct post; simplify_eq/=. done.
    + destruct (is_sensitive s k1).
      * destruct pre; simpl in H; done.
      * by eapply IH.
  - revert v0. induction path as [|k path IH]; intros u H Hp; simpl in *; [by simplify_eq|].
    apply Forall_cons in Hp as [Hk Hp]. destruct u; try done. rewrite redact_value_obj.
    rewrite redact_get. destruct (obj_get fields k) as [x|]; simpl; [|done].
    unfold is_sensitive. rewrite bool_decide_eq_false_2 by done. by apply IH.
Qed.

Lemma redact_masks_witness :
  let args := [("user", VObj [("password", VStr "p"); ("name", VStr "n")])] in
  at_path (VObj (redact args ["password"])) ["user"; "name"] = Some (VStr "n").
Proof.
  intros args. refine (proj2 (redact_masks args ["password"] ["user"; "name"] (VStr "n")) eq_refl _).
  apply (bool_decide_unpack _). vm_compute. exact I.
Defined.

(** Masking stops at arrays: a sensitive field of an object held in an array is
    recorded in clear, although sensitive fields are documented to be masked
    recursively. *)
Theorem redact_misses_arrays (k : string) (secret : value) (s : list string) (field : string) :
  field ∉ s ->
  redact [(field, VArr [VObj [(k, secret)]])] s = [(field, VArr [VObj [(k, secret)]])].
Proof. intros Hf. unfold redact, is_sensitive. simpl. by rewrite bool_decide_eq_false_2. Qed.

Lemma redact_misses_arrays_witness :
  redact [("users", VArr [VObj [("password", VStr "p")]])] ["password"] =
  [("users", VArr [VObj [("password", VStr "p")]])].
Proof. apply redact_misses_arrays. apply (bool_decide_unpack _). vm_compute. exact I. Defined.

(** What the options let through of an event's arguments. *)
Definition visible_args (options : AuditOptions) (a : option obj) : option obj :=
  match a with
  | None => None
  | Some a => if includeArgs options then
                match sensitiveFields options with
                | None | Some [] => Some a
                | Some s => Some (redact a s)
                end
              else None
  end.

Lemma prepare_args options event :
  event_args (ev_body (prepare options event)) = visible_args options (event_args (ev_body event)).
Proof.
  unfold prepare, visible_args. destruct event as [b body]. simpl.
  destruct (event_args body) as [a|] eqn:Ha; [|done].
  destruct (includeArgs options); simpl; [|by destruct body].
  destruct (sensitiveFields options) as [[|? ?]|]; simpl; [done|by destruct body; simplify_eq|done].
Qed.

Lemma deliver_run {W} (ss : list (AuditSink W)) ev w :
  (forall s w, s ∈ ss -> (s ev w).1 <> Diverge) ->
  forall i, wp (deliver i ss ev) w (fun o _ l =>
    o = Ret tt /\ l = map (fun j => {| d_sink := j; d_event := ev |}) (seq i (length ss))).
Proof.
  intros Hs. revert w. induction ss as [|s ss IH]; intros w i; simpl; [by wp_step|].
  wp_steps. pose proof (Hs s w ltac:(constructor)) as Hd. rewrite Hext in Hd. simpl in Hd.
  destruct o as [[]|e|]; [..|done]; cbn; wp_steps.
  all: eapply wp_mono; [apply IH; intros; apply Hs; by constructor|].
  all: intros o w2 l [-> ->]; done.
Qed.

(** A recording that ends never throws, whatever the sinks do. *)
Lemma record_no_throw {W} (trail : AuditTrail W) event w :
  wp (record trail event) w (fun o _ _ => o = Ret tt \/ o = Diverge).
Proof.
  unfold record. destruct (negb _); [by wp_step; left|]. destruct (filtered _ _); [by wp_step; left|].
  generalize (prepare (options trail) event) as ev, (sinks trail) as ss, O as i. clear. intros ev ss.
  revert w. induction ss as [|s ss IH]; intros w i; simpl; [wp_step; by left|].
  wp_steps. destruct o as [[]|e|]; cbn; wp_steps; [apply IH..|by right].
Qed.

Lemma record_optional_no_throw {W} (trail : option (AuditTrail W)) event w o w' :
  record_optional trail event w = (o, w') -> o = Ret tt \/ o = Diverge.
Proof.
  destruct trail as [t|]; simpl; [|intros [= <- <-]; by left].
  pose proof (record_no_throw t event w) as H. unfold wp in H.
  destruct (record t event w) as [[o1 w1] l1]. by intros [= <- <-].
Qed.

(** Recording never fails: as long as sinks settle, every registered sink
    receives the event, in order and whichever of them throw, unless it is an
    [allow] decision left out by default; and what a sink receives carries the
    tool's arguments only if they are enabled, with the sensitive fields masked. *)
Theorem record_reaches_every_sink {W} (trail : AuditTrail W) (event : AuditEvent) (w : W) :
  (forall s e w, s ∈ sinks trail -> (s e w).1 <> Diverge) ->
  wp (record trail event) w (fun o _ l =>
    o = Ret tt /\
    map d_sink l = (if filtered (options trail) event then [] else seq 0 (length (sinks trail))) /\
    Forall (fun d => ev_base (d_event d) = ev_base event /\
                     event_args (ev_body (d_event d)) =
                       visible_args (options trail) (event_args (ev_body event))) l).
Proof.
  intros Hs. unfold record, isEnabled.
  destruct (length (sinks trail)) as [|n] eqn:Hn; simpl.
  { wp_step. by destruct (filtered _ _). }
  destruct (filtered (options trail) event); [by wp_step|].
  eapply wp_mono; [apply deliver_run; intros; by apply Hs|]. rewrite Hn.
  intros o w' l [-> ->]. split; [done|]. split; [by rewrite map_map, map_id|].
  apply Forall_map, Forall_true. intros j. simpl. split; [|apply prepare_args].
  unfold prepare. destruct (event_args _); [|done]. destruct (negb _); [done|].
  by destruct (sensitiveFields _) as [[|]|].
Qed.

Definition demo_event : AuditEvent :=
  {| ev_base := {| ev_at := 0; ev_sessionId := "s"; ev_traceId := "t"; ev_tenantId := None |};
     ev_body := ToolPolicyDecision "agent" "refund" "Policy" DDeny (Some "no") None None
                  (Some [("password", VStr "p")]) |}.

(** Two sinks, the first of which fails. *)
Definition demo_trail : AuditTrail nat :=
  {| sinks := [(fun _ w => (Throw (NativeErr "Error" "down"), S w)); (fun _ w => (Ret tt, S w))];
     options := {| includeArgs := true; sensitiveFields := Some ["password"];
                   includeAllowDecisions := false |} |}.

Lemma record_reaches_every_sink_witness :
  wp (record demo_trail demo_event) O (fun o _ l =>
    o = Ret tt /\ map d_sink l = [0; 1]%nat /\
    Forall (fun d => ev_base (d_event d) = ev_base demo_event /\
                     event_args (ev_body (d_event d)) = Some [("password", VStr REDACTED)]) l).
Proof.
  apply (record_reaches_every_sink demo_trail demo_event O).
  intros s e w Hs. simpl in Hs. rewrite !elem_of_cons in Hs.
  destruct Hs as [->|[->|Hs%elem_of_nil]]; done.
Defined.

End Audit.
