(* ===== verification/Approvals.v ===== *)
(** * Pending approvals and their store (packages/core/src/interfaces/approval.interface.ts,
      packages/core/src/stores/approval-records.ts,
      packages/core/src/stores/in-memory/in-memory-approval.store.ts)

    The record of a withheld tool call, the interface of the stores that hold
    it with the laws the services rely on, and the in-memory store, which keeps
    a JSON snapshot of each record. *)

From stdpp Require Import fin_maps gmap.
From S2P Require Export AuditTrail.

#[local] Open Scope string_scope.
#[local] Open Scope list_scope.
#[local] Open Scope Z_scope.

Module Approvals.
Import Audit.

(** ** Records *)

Definition APPROVAL_CHECKPOINT_VERSION : Z := 1.

Record ApprovalCheckpoint : Type := {
  ck_version : Z;
  ck_messages : list ModelMessage;
  ck_structuredOutput : option StoredStructuredOutput;
}.

Record ApprovalSignature : Type := {
  sig_actor : AuditActor;
  signedAt : Z;
  approvalVersion_of : option string;
}.

Record PendingApproval : Type := {
  ap_id : string;
  ap_agentName : string;
  ap_toolName : string;
  ap_args : obj;
  ap_context : AgentContext;
  ap_reason : string;
  ap_createdAt : Z;
  ap_expiresAt : option Z;
  ap_toolCallId : option string;
  ap_checkpoint : option ApprovalCheckpoint;
  ap_requestedBy : option AuditActor;
  ap_requiredApprovals : option Z;
  ap_signatures : option (list ApprovalSignature);
}.

Definition set_signatures (s : option (list ApprovalSignature)) (a : PendingApproval) : PendingApproval :=
  {| ap_id := ap_id a; ap_agentName := ap_agentName a; ap_toolName := ap_toolName a; ap_args := ap_args a;
     ap_context := ap_context a; ap_reason := ap_reason a; ap_createdAt := ap_createdAt a;
     ap_expiresAt := ap_expiresAt a; ap_toolCallId := ap_toolCallId a; ap_checkpoint := ap_checkpoint a;
     ap_requestedBy := ap_requestedBy a; ap_requiredApprovals := ap_requiredApprovals a;
     ap_signatures := s |}.

Inductive ApprovalSignatureResult : Type :=
| SigPending (approval : PendingApproval)
| SigComplete (approval : PendingApproval)
| SigDuplicate (approval : PendingApproval).

Definition requiredApprovalsOf (a : PendingApproval) : Z := coalesce (ap_requiredApprovals a) 1.

Definition signatureCount (a : PendingApproval) : Z :=
  match ap_signatures a with Some l => Z.of_nat (length l) | None => 0 end.

Definition hasSigned (a : PendingApproval) (userId : string) : bool :=
  match ap_signatures a with
  | Some l => existsb (fun s => bool_decide (actor_userId (sig_actor s) = Some userId)) l
  | None => false
  end.

Inductive ApprovalDecision : Type := DecideApprove | DecideReject (reason : option string).

(** ** The store interface

    Each operation may fail; [view] is what the store holds.  A failed operation
    changes nothing. *)

Class ApprovalStore (W : Type) : Type := {
  store_save : PendingApproval -> W -> outcome error unit * W;
  store_get : string -> W -> outcome error (option PendingApproval) * W;
  store_delete : string -> W -> outcome error unit * W;
  store_claim : string -> W -> outcome error (option PendingApproval) * W;
  store_addSignature :
    option (string -> ApprovalSignature -> W -> outcome error (option ApprovalSignatureResult) * W);
}.

(** The signers of a record, and whether they are distinct and identified. *)
Definition signers (a : PendingApproval) : list (option string) :=
  map (fun s => actor_userId (sig_actor s)) (default [] (ap_signatures a)).
Definition distinct_signers (a : PendingApproval) : Prop := NoDup (signers a) /\ Forall is_Some (signers a).

(** ** JSON snapshots *)

(** [JSON.parse(JSON.stringify(v))]; [None] is [undefined]. *)
Fixpoint jsonify (v : value) : option value :=
  match v with
  | VUndef | VFun => None
  | VNum n => Some (if is_finite n then VNum n else VNull)
  | VDate (Some t) => Some (VStr (iso_string t))
  | VDate None => Some VNull
  | VArr l => Some (VArr (map (fun x => default VNull (jsonify x)) l))
  | VObj fs => Some (VObj (filter_map (fun f => match f with
                                                | (k, x) => match jsonify x with
                                                            | Some y => Some (k, y)
                                                            | None => None
                                                            end
                                                end) fs))
  | VMap _ | VSet _ => Some (VObj [])
  | _ => Some v
  end.

Definition jsonify_obj (o : obj) : obj :=
  filter_map (fun f => match jsonify f.2 with Some y => Some (f.1, y) | None => None end) o.

Definition snapshot_call (c : ModelToolCall) : ModelToolCall :=
  {| call_id := call_id c; call_name := call_name c; call_args := jsonify_obj (call_args c) |}.
Definition snapshot_message (m : ModelMessage) : ModelMessage :=
  match m with
  | AssistantMsg c (Some calls) => AssistantMsg c (Some (map snapshot_call calls))
  | _ => m
  end.

(** A live abort signal does not survive serialization. *)
Definition snapshot_context (c : AgentContext) : AgentContext :=
  {| security := security c; ctx_sessionId := ctx_sessionId c; ctx_traceId := ctx_traceId c;
     ctx_parentTraceId := ctx_parentTraceId c; ctx_rootTraceId := ctx_rootTraceId c;
     ctx_data := jsonify_obj <$> ctx_data c; ctx_signal := false; deadline := deadline c |}.

Definition snapshot_checkpoint (c : ApprovalCheckpoint) : ApprovalCheckpoint :=
  {| ck_version := ck_version c; ck_messages := map snapshot_message (ck_messages c);
     ck_structuredOutput :=
       (fun s => {| so_schema := jsonify_obj (so_schema s); so_name := so_name s;
                    so_description := so_description s; so_strict := so_strict s;
                    so_maxRepairAttempts := so_maxRepairAttempts s |}) <$> ck_structuredOutput c |}.

(** [reviveApproval(JSON.parse(JSON.stringify(a)))]: dates are restored. *)
Definition snapshot (a : PendingApproval) : PendingApproval :=
  {| ap_id := ap_id a; ap_agentName := ap_agentName a; ap_toolName := ap_toolName a;
     ap_args := jsonify_obj (ap_args a); ap_context := snapshot_context (ap_context a);
     ap_reason := ap_reason a; ap_createdAt := ap_createdAt a; ap_expiresAt := ap_expiresAt a;
     ap_toolCallId := ap_toolCallId a; ap_checkpoint := snapshot_checkpoint <$> ap_checkpoint a;
     ap_requestedBy := ap_requestedBy a; ap_requiredApprovals := ap_requiredApprovals a;
     ap_signatures := ap_signatures a |}.

(** ** The laws of the store

    The atomicity the interface demands of implementations, which keep a record as
    a JSON snapshot. *)
Class LawfulApprovalStore {W : Type} (store : ApprovalStore W) : Type := {
  view : W -> gmap string PendingApproval;
  law_get : forall id w o w', store_get id w = (o, w') ->
    view w' = view w /\ (forall r, o = Ret r -> r = view w !! id);
  law_claim : forall id w o w', store_claim id w = (o, w') ->
    match o with
    | Ret r => r = view w !! id /\ view w' = delete id (view w)
    | _ => view w' = view w
    end;
  law_sign : forall f id s w o w', store_addSignature = Some f -> f id s w = (o, w') ->
    match o with
    | Ret None => view w !! id = None /\ view w' = view w
    | Ret (Some (SigDuplicate a)) => view w' = view w /\ is_Some (view w !! id)
    | Ret (Some (SigPending a)) => view w' = <[id := a]> (view w) /\ is_Some (view w !! id)
    | Ret (Some (SigComplete a)) =>
        is_Some (view w !! id) /\ view w' = delete id (view w) /\ requiredApprovalsOf a <= signatureCount a
    | _ => view w' = view w
    end;
  law_save : forall a w o w', store_save a w = (o, w') ->
    match o with
    | Ret _ => view w' = <[ap_id a := snapshot a]> (view w)
    | _ => view w' = view w
    end;
}.

(** ** The in-memory store *)

Module InMemory.

Notation state := (gmap string PendingApproval) (only parsing).

Definition save (a : PendingApproval) (m : state) : state := <[ap_id a := snapshot a]> m.
Definition get (id : string) (m : state) : option PendingApproval := snapshot <$> m !! id.
Definition delete_ (id : string) (m : state) : state := delete id m.
Definition claim (id : string) (m : state) : option PendingApproval * state :=
  match m !! id with
  | None => (None, m)
  | Some raw => (Some (snapshot raw), delete id m)
  end.

Definition addSignature (id : string) (s : ApprovalSignature) (m : state)
    : option ApprovalSignatureResult * state :=
  match m !! id with
  | None => (None, m)
  | Some raw =>
      let approval := snapshot raw in
      let required := requiredApprovalsOf approval in
      if required <=? signatureCount approval then (Some (SigComplete approval), delete id m)
      else if match actor_userId (sig_actor s) with Some u => hasSigned approval u | None => false end
      then (Some (SigDuplicate approval), m)
      else
        let updated := snapshot (set_signatures (Some (default [] (ap_signatures approval) ++ [s])) approval) in
        if required <=? signatureCount updated then (Some (SigComplete updated), delete id m)
        else (Some (SigPending updated), <[id := updated]> m)
  end.

End InMemory.

(** *** Snapshots are stable *)

Lemma jsonify_idem v w : jsonify v = Some w -> jsonify w = Some w.
Proof.
  revert w. induction v as [l IH|fs IH|v Ha Ho] using value_nested_ind; intros w Hw.
  - simpl in Hw. injection Hw as <-. simpl. do 2 f_equal. rewrite map_map.
    induction IH as [|x l Hx _ IHl]; simpl; [done|]. f_equal; [|done].
    destruct (jsonify x) eqn:Hj; simpl; [by rewrite (Hx _ eq_refl)|done].
  - simpl in Hw. injection Hw as <-. simpl. do 2 f_equal.
    induction IH as [|[k x] fs Hx _ IHl]; simpl; [done|]. simpl in Hx.
    destruct (jsonify x) eqn:Hj; simpl; [|done]. by rewrite (Hx _ eq_refl), IHl.
  - destruct v; simplify_eq/=; try done.
    + by destruct (is_finite n) eqn:Hn; simpl; rewrite ?Hn.
    + by destruct (Ha items).
    + by destruct (Ho fields).
    + by destruct time; simplify_eq.
Qed.

Lemma jsonify_obj_idem o : jsonify_obj (jsonify_obj o) = jsonify_obj o.
Proof.
  unfold jsonify_obj. induction o as [|[k x] o IH]; simpl; [done|].
  destruct (jsonify x) as [y|] eqn:Hx; simpl; [|done]. by rewrite (jsonify_idem _ _ Hx), IH.
Qed.

Lemma snapshot_idem a : snapshot (snapshot a) = snapshot a.
Proof.
  unfold snapshot. simpl. f_equal.
  - apply jsonify_obj_idem.
  - unfold snapshot_context. simpl. f_equal. destruct (ctx_data _); simpl; [by rewrite jsonify_obj_idem|done].
  - destruct (ap_checkpoint a) as [c|]; simpl; [|done]. unfold snapshot_checkpoint. simpl. do 2 f_equal.
    + rewrite map_map. apply map_ext. intros [| |x [cs|]|]; simpl; try done. do 2 f_equal.
      rewrite map_map. apply map_ext. intros tc. unfold snapshot_call. simpl. by rewrite jsonify_obj_idem.
    + destruct (ck_structuredOutput c); simpl; [by rewrite jsonify_obj_idem|done].
Qed.

Lemma snapshot_id a : ap_id (snapshot a) = ap_id a.
Proof. done. Qed.
Lemma snapshot_signers a : signers (snapshot a) = signers a.
Proof. done. Qed.
Lemma snapshot_required a : requiredApprovalsOf (snapshot a) = requiredApprovalsOf a.
Proof. done. Qed.
Lemma snapshot_count a : signatureCount (snapshot a) = signatureCount a.
Proof. done. Qed.

(** ** The in-memory store implements the interface *)

#[export] Instance in_memory_store : ApprovalStore InMemory.state := {
  store_save := fun a m => (Ret tt, InMemory.save a m);
  store_get := fun id m => (Ret (InMemory.get id m), m);
  store_delete := fun id m => (Ret tt, InMemory.delete_ id m);
  store_claim := fun id m => let '(r, m') := InMemory.claim id m in (Ret r, m');
  store_addSignature :=
    Some (fun id s m => let '(r, m') := InMemory.addSignature id s m in (Ret r, m'));
}.

(** What the store holds, as its reader sees it. *)
Definition contents (m : InMemory.state) : gmap string PendingApproval := snapshot <$> m.

Lemma contents_lookup m id : contents m !! id = snapshot <$> m !! id.
Proof. apply lookup_fmap. Qed.

Lemma contents_delete m id : contents (delete id m) = delete id (contents m).
Proof. apply fmap_delete. Qed.
Lemma contents_insert m id a : contents (<[id := a]> m) = <[id := snapshot a]> (contents m).
Proof. apply fmap_insert. Qed.

Lemma contents_is_Some m id : is_Some (m !! id) -> is_Some (contents m !! id).
Proof. rewrite contents_lookup. intros [x ->]. by eexists. Qed.

Lemma addSignature_spec id s m o m' :
  InMemory.addSignature id s m = (o, m') ->
  match o with
  | None => m !! id = None /\ m' = m
  | Some (SigDuplicate a) => m' = m /\ is_Some (m !! id)
  | Some (SigPending a) =>
      m' = <[id := a]> m /\ snapshot a = a /\ signatureCount a < requiredApprovalsOf a /\
      exists raw, m !! id = Some raw /\ hasSigned raw (default EmptyString (actor_userId (sig_actor s))) = false \/
                  m !! id = Some raw /\ actor_userId (sig_actor s) = None
  | Some (SigComplete a) =>
      m' = delete id m /\ is_Some (m !! id) /\ requiredApprovalsOf a <= signatureCount a
  end.
Proof.
  unfold InMemory.addSignature. destruct (m !! id) as [raw|] eqn:Hm; cbv zeta; [|by intros [= <- <-]].
  destruct (Z.leb_spec (requiredApprovalsOf (snapshot raw)) (signatureCount (snapshot raw))).
  { intros [= <- <-]. by split_and!; [|eexists|]. }
  destruct (match actor_userId (sig_actor s) with Some u => hasSigned (snapshot raw) u | None => false end) eqn:Hd.
  { intros [= <- <-]. by split; [|eexists]. }
  set (u := snapshot (set_signatures _ _)).
  change (requiredApprovalsOf (snapshot raw)) with (requiredApprovalsOf u).
  destruct (Z.leb_spec (requiredApprovalsOf u) (signatureCount u)); intros [= <- <-].
  - by split_and!; [|eexists|].
  - split_and!; [done|apply snapshot_idem|done|]. exists raw.
    destruct (actor_userId (sig_actor s)) as [x|]; [by left|by right].
Qed.

#[export] Instance in_memory_lawful : LawfulApprovalStore in_memory_store.
Proof.
  refine {| view := contents |}.
  - intros id m o m' [= <- <-]. split; [done|]. intros r [= <-]. by rewrite contents_lookup.
  - intros id m o m'. simpl. unfold InMemory.claim.
    destruct (m !! id) as [raw|] eqn:Hm; intros [= <- <-]; rewrite contents_lookup, Hm; simpl.
    + split; [done|]. apply contents_delete.
    + split; [done|]. symmetry. apply delete_id. by rewrite contents_lookup, Hm.
  - intros f id s m o m' [= <-]. destruct (InMemory.addSignature id s m) as [r m2] eqn:Ha.
    intros [= <- <-]. apply addSignature_spec in Ha. destruct r as [[a|a|a]|].
    + destruct Ha as (-> & Hs & _ & raw & Hr). split.
      * by rewrite contents_insert, Hs.
      * apply contents_is_Some. exists raw. by destruct Hr as [[? _]|[? _]].
    + destruct Ha as (-> & Hm & Hc). split_and!; [by apply contents_is_Some|apply contents_delete|done].
    + destruct Ha as [-> Hm]. split; [done|by apply contents_is_Some].
    + destruct Ha as [Hm ->]. by rewrite contents_lookup, Hm.
  - intros a m o m' [= <- <-]. unfold InMemory.save. by rewrite contents_insert, snapshot_idem.
Defined.

(** ** Interleaved use of the store

    The operations are atomic, so concurrent callers amount to an arbitrary
    sequence of them. *)

Inductive store_op : Type :=
| OpSave (a : PendingApproval)
| OpGet (id : string)
| OpDelete (id : string)
| OpClaim (id : string)
| OpSign (id : string) (s : ApprovalSignature).

(** The record an operation takes out of the store for its caller to settle. *)
Definition run_op (op : store_op) (m : InMemory.state) : option PendingApproval * InMemory.state :=
  match op with
  | OpSave a => (None, InMemory.save a m)
  | OpGet id => (None, m)
  | OpDelete id => (None, InMemory.delete_ id m)
  | OpClaim id => InMemory.claim id m
  | OpSign id s =>
      let '(r, m') := InMemory.addSignature id s m in
      (match r with Some (SigComplete a) => Some a | _ => None end, m')
  end.

Definition op_id (op : store_op) : string :=
  match op with OpSave a => ap_id a | OpGet id | OpDelete id | OpClaim id | OpSign id _ => id end.

(** The records taken by a sequence of operations, with the id they were under. *)
Fixpoint taken (ops : list store_op) (m : InMemory.state) : list (string * PendingApproval) * InMemory.state :=
  match ops with
  | [] => ([], m)
  | op :: rest =>
      let '(r, m1) := run_op op m in
      let '(l, m2) := taken rest m1 in
      (match r with Some a => (op_id op, a) :: l | None => l end, m2)
  end.

Definition saves_of (id : string) (op : store_op) : bool :=
  match op with OpSave a => bool_decide (ap_id a = id) | _ => false end.
Definition held (id : string) (m : InMemory.state) : nat := if is_some (m !! id) then 1 else 0.

Lemma held_insert id k a m : held id (<[k := a]> m) = if bool_decide (k = id) then 1%nat else held id m.
Proof.
  unfold held. case_bool_decide as Hk; [subst; by rewrite lookup_insert_eq|by rewrite lookup_insert_ne].
Qed.
Lemma held_delete id k m : held id (delete k m) = if bool_decide (k = id) then 0%nat else held id m.
Proof.
  unfold held. case_bool_decide as Hk; [subst; by rewrite lookup_delete_eq|by rewrite lookup_delete_ne].
Qed.
Lemma held_Some id m : is_Some (m !! id) -> held id m = 1%nat.
Proof. unfold held. by intros [x ->]. Qed.
Lemma held_le id m : (held id m <= 1)%nat.
Proof. unfold held. destruct (is_some _); lia. Qed.

Lemma run_op_held id op m r m' :
  run_op op m = (r, m') ->
  ((if is_some r && bool_decide (op_id op = id) then 1 else 0) + held id m' <=
   (if saves_of id op then 1 else 0) + held id m)%nat.
Proof.
  destruct op as [a|k|k|k|k s]; simpl.
  - intros [= <- <-]. unfold InMemory.save. rewrite held_insert. simpl. case_bool_decide; lia.
  - intros [= <- <-]. done.
  - intros [= <- <-]. unfold InMemory.delete_. rewrite held_delete. simpl. case_bool_decide; lia.
  - unfold InMemory.claim. destruct (m !! k) as [raw|] eqn:Hm; intros [= <- <-]; simpl; [|lia].
    rewrite held_delete. case_bool_decide; subst; [|lia]. rewrite (held_Some id m); [lia|by eexists].
  - destruct (InMemory.addSignature k s m) as [o m2] eqn:Ha. intros [= <- <-].
    apply addSignature_spec in Ha. destruct o as [[a|a|a]|]; simpl.
    + destruct Ha as (-> & _ & _ & raw & Hr). rewrite held_insert. case_bool_decide; subst; [|lia].
      rewrite (held_Some id m); [lia|]. exists raw. by destruct Hr as [[? _]|[? _]].
    + destruct Ha as (-> & Hm & _). rewrite held_delete. case_bool_decide; subst; [|lia].
      rewrite (held_Some id m); [lia|done].
    + by destruct Ha as [-> _].
    + by destruct Ha as [_ ->].
Qed.

(** Exactly-once settlement: however the calls of concurrent reviewers interleave
    at the store, an approval is handed out for settlement, by a claim or by a
    completing signature, at most once for each time it was saved. *)
Theorem taken_at_most_once_per_save (ops : list store_op) (m : InMemory.state) (id : string) :
  let '(l, m') := taken ops m in
  (count (fun p => bool_decide (p.1 = id)) l + held id m' <= count (saves_of id) ops + held id m)%nat.
Proof.
  revert m. induction ops as [|op ops IH]; intros m; simpl; [done|].
  destruct (run_op op m) as [r m1] eqn:Hr. pose proof (run_op_held id _ _ _ _ Hr) as Hop.
  specialize (IH m1). destruct (taken ops m1) as [l m2]. rewrite count_cons.
  destruct r as [a|]; simpl in *; rewrite ?count_cons; simpl; [|lia].
  case_bool_decide; simpl in *; lia.
Qed.

(** *** Dual control *)

(** The callers keep to the interface: what they save has distinct signers, and
    they only sign with an identity. *)
Definition op_ok (op : store_op) : Prop :=
  match op with
  | OpSave a => distinct_signers a
  | OpSign _ s => is_Some (actor_userId (sig_actor s))
  | _ => True
  end.

Definition store_ok (m : InMemory.state) : Prop := map_Forall (fun _ a => distinct_signers a) m.

Lemma hasSigned_signers a u : hasSigned a u = false <-> Some u ∉ signers a.
Proof.
  unfold hasSigned, signers. destruct (ap_signatures a) as [l|]; simpl.
  - rewrite <- not_true_iff_false, existsb_exists. apply not_iff_compat.
    rewrite list_elem_of_fmap. split.
    + intros (x & Hx & Hu%bool_decide_eq_true). exists x. split; [done|by apply list_elem_of_In].
    + intros (x & Hu & Hx). exists x. split; [by apply list_elem_of_In|by apply bool_decide_eq_true].
  - split; [|done]. intros _ H. by apply elem_of_nil in H.
Qed.

Lemma sign_distinct a s u :
  distinct_signers a -> actor_userId (sig_actor s) = Some u -> hasSigned a u = false ->
  distinct_signers (set_signatures (Some (default [] (ap_signatures a) ++ [s])) a).
Proof.
  intros [Hnd Hs] Hu Hh%hasSigned_signers. unfold distinct_signers, signers in *. simpl.
  rewrite map_app. simpl. rewrite Hu. split.
  - apply NoDup_app. split_and!; [done| |apply NoDup_singleton].
    intros x Hx Hxu%list_elem_of_singleton. by subst.
  - apply Forall_app. split; [done|]. constructor; [by eexists|constructor].
Qed.

Lemma run_op_distinct op m r m' :
  run_op op m = (r, m') -> op_ok op -> store_ok m ->
  store_ok m' /\ (forall a, r = Some a -> distinct_signers a) /\
  (forall a id s, op = OpSign id s -> r = Some a -> requiredApprovalsOf a <= signatureCount a).
Proof.
  destruct op as [a|k|k|k|k s]; simpl; intros Hr Hok Hm.
  - injection Hr as <- <-. split; [by apply map_Forall_insert_2|]. split; [done|done].
  - by injection Hr as <- <-.
  - injection Hr as <- <-. split; [by apply map_Forall_delete|done].
  - unfold InMemory.claim in Hr. destruct (m !! k) as [raw|] eqn:Hk; injection Hr as <- <-; [|done].
    split; [by apply map_Forall_delete|]. split; [|done]. intros a [= <-].
    apply (map_Forall_lookup_1 _ _ _ _ Hm Hk).
  - destruct (InMemory.addSignature k s m) as [o m2] eqn:Ha. injection Hr as <- <-.
    pose proof (addSignature_spec _ _ _ _ _ Ha) as Hspec. destruct Hok as [u Hu].
    unfold InMemory.addSignature in Ha. destruct (m !! k) as [raw|] eqn:Hk; [|by injection Ha as <- <-].
    pose proof (map_Forall_lookup_1 _ _ _ _ Hm Hk) as Hraw. cbv zeta in Ha. rewrite Hu in Ha.
    destruct (_ <=? _); [injection Ha as <- <-|destruct (hasSigned _ u) eqn:Hs; [by injection Ha as <- <-|]].
    + destruct Hspec as (_ & _ & Hc). split; [by apply map_Forall_delete|].
      split; [intros a [= <-]; done|]. by intros a id s' _ [= <-].
    + pose proof (sign_distinct (snapshot raw) s u Hraw Hu Hs) as Hd.
      destruct (_ <=? _); injection Ha as <- <-.
      * destruct Hspec as (_ & _ & Hc). split; [by apply map_Forall_delete|].
        split; [intros a [= <-]; done|]. by intros a id s' _ [= <-].
      * split; [by apply map_Forall_insert_2|done].
Qed.

(** Dual control at the store: whatever interleaving of saves, claims and
    signatures, a record only comes out completed by a signature when it holds at
    least the required number of signatures, all of them by different identified
    people. *)
Theorem completed_by_distinct_signers (before : list store_op) (id : string) (s : ApprovalSignature)
    (a : PendingApproval) (m' : InMemory.state) :
  Forall op_ok before -> is_Some (actor_userId (sig_actor s)) ->
  run_op (OpSign id s) (taken before ∅).2 = (Some a, m') ->
  NoDup (signers a) /\ Forall is_Some (signers a) /\ requiredApprovalsOf a <= Z.of_nat (length (signers a)).
Proof.
  intros Hops Hs Hrun. assert (store_ok (taken before ∅).2) as Hm.
  { assert (store_ok ∅) as H0 by apply map_Forall_empty. revert H0. generalize (∅ : InMemory.state). clear -Hops.
    induction Hops as [|op ops Hop _ IH]; intros m Hm; simpl; [done|].
    destruct (run_op op m) as [r m1] eqn:Hr. destruct (run_op_distinct _ _ _ _ Hr Hop Hm) as [H1 _].
    specialize (IH m1 H1). by destruct (taken ops m1). }
  destruct (run_op_distinct _ _ _ _ Hrun Hs Hm) as (_ & Hd & Hc).
  destruct (Hd a eq_refl) as [Hnd Hall]. split_and!; [done|done|].
  specialize (Hc a id s eq_refl eq_refl). unfold signatureCount, signers in *. rewrite length_map.
  by destruct (ap_signatures a).
Qed.

Definition demo_context : AgentContext :=
  {| security := {| userId := Some "alice"; tenantId := Some "acme"; roles := None; permissions := None |};
     ctx_sessionId := "s1"; ctx_traceId := "t1"; ctx_parentTraceId := None; ctx_rootTraceId := None;
     ctx_data := None; ctx_signal := false; deadline := None |}.

Definition demo_approval (required : option Z) : PendingApproval :=
  {| ap_id := "a1"; ap_agentName := "agent"; ap_toolName := "refund"; ap_args := [("order", VNum (num_of_Z 42))];
     ap_context := demo_context; ap_reason := "needs a manager"; ap_createdAt := 0; ap_expiresAt := None;
     ap_toolCallId := Some "c1"; ap_checkpoint := None; ap_requestedBy := None;
     ap_requiredApprovals := required; ap_signatures := None |}.

Definition demo_actor (user : string) : AuditActor :=
  {| actor_userId := Some user; actor_tenantId := Some "acme"; actor_roles := None; actor_label := None |}.
Definition demo_signature (user : string) : ApprovalSignature :=
  {| sig_actor := demo_actor user; signedAt := 1; approvalVersion_of := None |}.

Lemma completed_by_distinct_signers_witness : exists a m',
  run_op (OpSign "a1" (demo_signature "carol"))
    (taken [OpSave (demo_approval (Some 2)); OpSign "a1" (demo_signature "bob");
            OpSign "a1" (demo_signature "bob")] ∅).2 = (Some a, m') /\
  NoDup (signers a) /\ Forall is_Some (signers a) /\ requiredApprovalsOf a <= Z.of_nat (length (signers a)).
Proof.
  eexists _, _. split; [vm_compute; reflexivity|].
  eapply (completed_by_distinct_signers
            [OpSave (demo_approval (Some 2)); OpSign "a1" (demo_signature "bob");
             OpSign "a1" (demo_signature "bob")] "a1" (demo_signature "carol")).
  - repeat constructor; by eexists.
  - by eexists.
  - vm_compute. reflexivity.
Defined.

End Approvals.
