(* ===== verification/JsonText.v ===== *)
(** * [JSON.parse] undoes [JSON.stringify]

    The text of a value made of JSON parts, with the numbers printed as decimals or
    with an exponent, is read back as the value.  Components that send values as text
    (tool-call arguments, stored records, cached answers) rely on it. *)

From Stdlib Require Import Ascii.
From stdpp Require Import pretty.
From S2P Require Export Json.

#[local] Open Scope string_scope.
#[local] Open Scope list_scope.
#[local] Open Scope Z_scope.

Module JsonText.

Import Numerals.

(** ** Digits *)

Definition digit_val (c : ascii) : Z := default 0 (digit_of c).

(** The number a list of digits reads as, after the number [acc]. *)
Definition read_digits (acc : Z) (l : list ascii) : Z := fold_left (fun a c => a * 10 + digit_val c) l acc.

(** What cannot follow a numeral. *)
Definition ends_number (r : list ascii) : Prop :=
  match r with [] => True | c :: _ => is_digit c = false /\ c <> "."%char /\ c <> "e"%char /\ c <> "E"%char end.

Definition no_digit (r : list ascii) : Prop := match r with [] => True | c :: _ => is_digit c = false end.

Lemma ends_no_digit r : ends_number r -> no_digit r.
Proof. destruct r; simpl; [done|by intros []]. Qed.

Notation all_digits l := (Forall (fun c => is_digit c = true) l).

Lemma take_digits_spec l r acc k :
  all_digits l -> no_digit r -> take_digits (l ++ r) acc k = (read_digits acc l, (k + length l)%nat, r).
Proof.
  intros Hl Hr. revert acc k. induction Hl as [|c l Hc Hl IH]; intros acc k; simpl.
  - rewrite Nat.add_0_r. destruct r as [|c r]; [done|]. simpl in *. unfold is_digit in Hr. by destruct (digit_of c).
  - unfold is_digit in Hc. destruct (digit_of c) as [d|] eqn:Hd; [|done].
    rewrite IH. unfold read_digits at 2. simpl. unfold digit_val. rewrite Hd. simpl.
    f_equal. f_equal. lia.
Qed.

Lemma read_digits_cons acc c l : read_digits acc (c :: l) = read_digits (acc * 10 + digit_val c) l.
Proof. done. Qed.

Lemma read_digits_shift acc l : read_digits acc l = acc * 10 ^ Z.of_nat (length l) + read_digits 0 l.
Proof.
  revert acc. induction l as [|c l IH]; intros acc; [unfold read_digits; simpl; lia|].
  rewrite !read_digits_cons, IH, (IH (0 * 10 + _)). cbn [length]. rewrite Nat2Z.inj_succ, Z.pow_succ_r by lia. lia.
Qed.

Lemma read_digits_app l1 l2 : read_digits 0 (l1 ++ l2) = read_digits 0 l1 * 10 ^ Z.of_nat (length l2) + read_digits 0 l2.
Proof. unfold read_digits at 1. rewrite fold_left_app. apply read_digits_shift. Qed.

Lemma read_zeros n : read_digits 0 (chars (zeros n)) = 0.
Proof.
  unfold zeros. rewrite chars_of_chars. induction (Z.to_nat n) as [|k IH]; [done|]. exact IH.
Qed.

Lemma zeros_digits n : all_digits (chars (zeros n)).
Proof. unfold zeros. rewrite chars_of_chars. induction (Z.to_nat n) as [|k IH]; simpl; by constructor. Qed.

Lemma zeros_length n : length (chars (zeros n)) = Z.to_nat n.
Proof. unfold zeros. by rewrite chars_of_chars, List.repeat_length. Qed.

Lemma digit_char_val x : (x < 10)%N -> digit_val (pretty_N_char x) = Z.of_N x.
Proof. intros H. assert (x = 0 \/ x = 1 \/ x = 2 \/ x = 3 \/ x = 4 \/ x = 5 \/ x = 6 \/ x = 7 \/ x = 8 \/ x = 9)%N as Hx by lia.
  repeat (destruct Hx as [->|Hx]; [done|]). by subst. Qed.

Lemma read_go x : read_digits 0 (chars (pretty_N_go x "")) = Z.of_N x.
Proof.
  induction (N.lt_wf_0 x) as [x _ IH]. destruct (decide (x = 0)%N) as [->|Hx]; [done|].
  rewrite pretty_N_go_step, go_app, chars_app, read_digits_app by lia. rewrite IH by (apply N.div_lt; lia).
  change (10 ^ Z.of_nat _) with 10. change (read_digits 0 (chars (String (pretty_N_char (x `mod` 10)) EmptyString))) with (0 * 10 + digit_val (pretty_N_char (x `mod` 10))).
  rewrite digit_char_val by (apply N.mod_lt; lia). pose proof (N.div_mod x 10 ltac:(lia)). lia.
Qed.

(** The digits of a positive number: they read as it, and do not start with 0. *)
Lemma digits_read m : 0 < m -> read_digits 0 (chars (digits m)) = m.
Proof. intros Hm. rewrite digits_positive, read_go by done. lia. Qed.

Lemma digits_all m : 0 < m -> all_digits (chars (digits m)).
Proof. intros Hm. rewrite digits_positive by done. apply go_digits. Qed.

Lemma go_head x : (0 < x)%N -> exists c l, chars (pretty_N_go x "") = c :: l /\ c <> "0"%char.
Proof.
  induction (N.lt_wf_0 x) as [x _ IH]. intros Hx. rewrite pretty_N_go_step, go_app, chars_app by done.
  destruct (decide (x `div` 10 = 0)%N) as [Hz|Hz].
  - rewrite Hz. exists (pretty_N_char (x `mod` 10)), []. split; [done|]. apply N.div_small_iff in Hz; [|done].
    rewrite N.mod_small by done. assert (x = 1 \/ x = 2 \/ x = 3 \/ x = 4 \/ x = 5 \/ x = 6 \/ x = 7 \/ x = 8 \/ x = 9)%N as H9 by lia.
    repeat (destruct H9 as [->|H9]; [done|]). by subst.
  - destruct (IH (x `div` 10)%N) as (c & l & -> & Hc); [apply N.div_lt; lia|by apply N.neq_0_lt_0|].
    by exists c, (l ++ [pretty_N_char (x `mod` 10)%N]).
Qed.

Lemma digits_head m : 0 < m -> exists c l, chars (digits m) = c :: l /\ c <> "0"%char.
Proof. intros Hm. rewrite digits_positive by done. apply go_head. lia. Qed.

(** ** Numerals *)

(** The parts of a numeral: its fraction digits, and the sign and digits of its exponent. *)
Definition frac_text (f : option (list ascii)) : list ascii := match f with Some l => "."%char :: l | None => [] end.
Definition exp_text (x : option (bool * list ascii)) : list ascii :=
  match x with Some (neg, l) => "e"%char :: (if neg : bool then "-"%char else "+"%char) :: l | None => [] end.

Definition frac_digits (f : option (list ascii)) : list ascii := default [] f.
Definition exp_value (x : option (bool * list ascii)) : Z :=
  match x with Some (neg, l) => if neg : bool then - read_digits 0 l else read_digits 0 l | None => 0 end.

(** A well-formed numeral. *)
Record numeral (ip : list ascii) (f : option (list ascii)) (x : option (bool * list ascii)) : Prop := {
  int_digits : all_digits ip;
  int_start : exists c l, ip = c :: l /\ (l = [] \/ c <> "0"%char);
  frac_ok : forall l, f = Some l -> all_digits l /\ l <> [];
  exp_ok : forall neg l, x = Some (neg, l) -> all_digits l /\ l <> [];
}.

Definition mantissa (ip : list ascii) (f : option (list ascii)) : Z :=
  read_digits 0 ip * 10 ^ Z.of_nat (length (frac_digits f)) + read_digits 0 (frac_digits f).

Ltac bits c := destruct c as [[] [] [] [] [] [] [] []].

Lemma digit_no_sign {A} c (x y : A) : is_digit c = true -> match c with "-"%char => x | _ => y end = y.
Proof. by bits c. Qed.

Lemma not_zero {A} c (x y : A) : c <> "0"%char -> match c with "0"%char => x | _ => y end = y.
Proof. by bits c. Qed.

Lemma not_dot {A} c (x y : A) : c <> "."%char -> match c with "."%char => x | _ => y end = y.
Proof. by bits c. Qed.

Lemma not_exp {A} c (x y : A) : c <> "e"%char -> c <> "E"%char -> match c with "e"%char | "E"%char => x | _ => y end = y.
Proof. by bits c. Qed.

Lemma exp_ends x r : ends_number r -> no_digit (exp_text x ++ r).
Proof. destruct x as [[]|]; simpl; [done|]. apply ends_no_digit. Qed.

Lemma frac_ends f x r : ends_number r -> no_digit (frac_text f ++ exp_text x ++ r).
Proof. destruct f; simpl; [done|]. apply exp_ends. Qed.

Lemma parse_fraction f x r : (forall l, f = Some l -> all_digits l /\ l <> []) -> ends_number r ->
  match frac_text f ++ exp_text x ++ r with
  | "."%char :: r => match take_digits r 0 0 with (_, O, _) => None | (fp, kf, r2) => Some (fp, kf, r2) end
  | _ => Some (0, O, frac_text f ++ exp_text x ++ r)
  end = Some (read_digits 0 (frac_digits f), length (frac_digits f), exp_text x ++ r).
Proof.
  intros Hf Hr. destruct f as [l|]; simpl.
  - destruct (Hf l eq_refl) as [Hl Hn]. rewrite take_digits_spec by (done || by apply exp_ends). by destruct l.
  - destruct x as [[]|]; simpl; [done|]. destruct r as [|c r]; [done|]. apply not_dot. by destruct Hr as (_ & H & _).
Qed.

Lemma parse_exponent x r : (forall neg l, x = Some (neg, l) -> all_digits l /\ l <> []) -> ends_number r ->
  match exp_text x ++ r with
  | ("e"%char | "E"%char) :: r =>
      let '(eneg, r') := match r with "-"%char :: q => (true, q) | "+"%char :: q => (false, q) | _ => (false, r) end in
      match take_digits r' 0 0 with (_, O, _) => None | (v, _, r3) => Some (if eneg : bool then - v else v, r3) end
  | _ => Some (0, exp_text x ++ r)
  end = Some (exp_value x, r).
Proof.
  intros Hx Hr. destruct x as [[neg l]|]; simpl.
  - destruct (Hx neg l eq_refl) as [Hl Hn].
    destruct neg; rewrite take_digits_spec by (done || by apply ends_no_digit); by destruct l.
  - destruct r as [|c r]; [done|]. destruct Hr as (_ & _ & H1 & H2). by apply not_exp.
Qed.

Lemma parse_numeral (neg : bool) ip f x r : numeral ip f x -> ends_number r ->
  parse_number ((if neg then ["-"%char] else []) ++ ip ++ frac_text f ++ exp_text x ++ r) =
  Some (mk_num (if neg then - mantissa ip f else mantissa ip f) (exp_value x - Z.of_nat (length (frac_digits f))), r).
Proof.
  intros [Hip (c & l & -> & Hc) Hf Hx] Hr. unfold parse_number.
  assert (match (if neg then ["-"%char] else []) ++ (c :: l) ++ frac_text f ++ exp_text x ++ r with
          | "-"%char :: r => (true, r) | _ => (false, (if neg then ["-"%char] else []) ++ (c :: l) ++ frac_text f ++ exp_text x ++ r) end
          = (neg, (c :: l) ++ frac_text f ++ exp_text x ++ r)) as Hs.
  { destruct neg; [done|]. apply digit_no_sign. by inversion Hip. }
  rewrite Hs, take_digits_spec by (done || by apply frac_ends).
  assert (match (c :: l) ++ frac_text f ++ exp_text x ++ r with
          | "0"%char :: _ => (1 <? 0 + length (c :: l))%nat | _ => false end = false) as Hz.
  { destruct Hc as [->|Hc]; [simpl; by bits c|]. by apply not_zero. }
  rewrite Hz. change ((0 + length (c :: l) =? 0)%nat || false) with false. cbv iota.
  by rewrite parse_fraction, parse_exponent.
Qed.

(** ** Numbers in normal form *)

Definition canonical (n : num) : bool := match n with NDec m e => bool_decide (mk_num m e = n) | _ => false end.

Lemma strip_zeros_grows fuel m e : e <= (strip_zeros fuel m e).2.
Proof. revert m e. induction fuel as [|fuel IH]; intros m e; simpl; [lia|]. case_match; [|simpl; lia]. pose proof (IH (m / 10) (e + 1)). lia. Qed.

Lemma strip_zeros_opp fuel m e : strip_zeros fuel (- m) e = let '(a, b) := strip_zeros fuel m e in (- a, b).
Proof.
  revert m e. induction fuel as [|fuel IH]; intros m e; simpl; [done|].
  destruct (Z.eqb_spec (m mod 10) 0) as [H|H].
  - rewrite (Z_mod_zero_opp_full m 10 H), Z.eqb_refl. destruct (e <? 0); simpl; [|done].
    by rewrite (Z_div_zero_opp_full m 10 H), IH.
  - destruct (Z.eqb_spec (- m mod 10) 0) as [H'|H']; [|by rewrite !andb_false_r].
    apply Z_mod_zero_opp_full in H'. by rewrite Z.opp_involutive in H'.
Qed.

Lemma mk_num_opp m e a b : m <> 0 -> mk_num m e = NDec a b -> mk_num (- m) e = NDec (- a) b.
Proof.
  intros Hm. unfold mk_num. destruct (Z.eqb_spec m 0), (Z.eqb_spec (- m) 0); try lia.
  unfold overflows. rewrite Z.abs_opp. case_match; [done|]. case_match; [intros [= <- <-]; f_equal; lia|].
  rewrite strip_zeros_opp. destruct (strip_zeros _ m e). by intros [= <- <-].
Qed.

(** A positive normal form is an integer, or a decimal without trailing zeros. *)
Lemma canonical_cases m e : 0 < m -> mk_num m e = NDec m e ->
  (e = 0 /\ m < 2 ^ 1024) \/ (e < 0 /\ m mod 10 <> 0).
Proof.
  intros Hm. unfold mk_num. destruct (Z.eqb_spec m 0); [lia|]. destruct (overflows m e) eqn:Ho; [done|].
  destruct (Z.leb_spec 0 e) as [He|He].
  - intros [= H <-]. left. split; [done|]. unfold overflows in Ho. simpl in Ho. apply Z.leb_gt in Ho. lia.
  - destruct (Z.to_nat (- e)) as [|k] eqn:Hk; [lia|]. simpl. destruct (Z.ltb_spec e 0); [|lia]. simpl.
    destruct (Z.eqb_spec (m mod 10) 0) as [Hd|Hd]; [|by right].
    pose proof (strip_zeros_grows k (m / 10) (e + 1)) as Hg. destruct (strip_zeros k _ _). simpl in Hg.
    intros [= -> ->]. lia.
Qed.

Lemma scale_bound s e : 0 < s -> 0 <= e -> s * 10 ^ e < 2 ^ 1024 -> e <= 400.
Proof.
  intros Hs He H. destruct (Z.leb_spec e 400) as [|Hl]; [done|]. exfalso.
  assert (10 ^ 401 <= 10 ^ e) by (apply Z.pow_le_mono_r; lia).
  assert (2 ^ 1024 < 10 ^ 401) by (apply Z.ltb_lt; by vm_compute). generalize dependent (10 ^ 401). generalize dependent (2 ^ 1024).
  intros. nia.
Qed.

(** The significant digits and scale of a normal form stand for it. *)
Lemma significand_canonical fuel m e : 0 < m -> mk_num m e = NDec m e ->
  let '(s, e') := significand fuel m e in
  0 < s /\ mk_num s e' = NDec m e /\ (0 <= e' -> mk_num (s * 10 ^ e') 0 = NDec m e).
Proof.
  intros Hm Hc. pose proof (significand_spec fuel m e Hm) as Hs. pose proof (canonical_cases m e Hm Hc) as [[-> Hb]|[He Hd]].
  - destruct (significand fuel m 0) as [s e']. destruct Hs as (Hs & He & Hv). rewrite Z.sub_0_r in Hv.
    split_and!; [done| |by rewrite Hv]. unfold mk_num. destruct (Z.eqb_spec s 0); [lia|].
    pose proof (scale_bound s e' Hs He ltac:(lia)) as Hl. unfold overflows.
    destruct (Z.leb_spec 0 e'); [|lia]. destruct (Z.ltb_spec 400 e'); [lia|].
    rewrite (Z.abs_eq s), Hv by lia. by destruct (Z.leb_spec (2 ^ 1024) m); [lia|].
  - destruct fuel as [|fuel]; simpl; [|destruct (Z.eqb_spec (m mod 10) 0); [done|]]; (split_and!; [done|done|lia]).
Qed.

Lemma all_digits_read_split l n : read_digits 0 (take n l) * 10 ^ Z.of_nat (length (drop n l)) + read_digits 0 (drop n l) = read_digits 0 l.
Proof. by rewrite <- read_digits_app, take_drop. Qed.

Lemma digits_numeral m f x : 0 < m -> (forall l, f = Some l -> all_digits l /\ l <> []) ->
  (forall neg l, x = Some (neg, l) -> all_digits l /\ l <> []) -> numeral (chars (digits m)) f x.
Proof.
  intros Hm Hf Hx. split; [by apply digits_all| |done|done].
  destruct (digits_head m Hm) as (c & l & -> & Hc). exists c, l. split; [done|by right].
Qed.

Lemma exponent_ok x b : 0 < x -> forall neg l, Some (b : bool, chars (digits x)) = Some (neg, l) -> all_digits l /\ l <> [].
Proof.
  intros Hx neg l [= <- <-]. split; [by apply digits_all|]. destruct (digits_head x Hx) as (c & r & -> & _). done.
Qed.

Lemma slice_of_text s a b : chars (slice s a b) = take (b - a) (drop a (chars s)).
Proof. apply chars_of_chars. Qed.

Lemma slice_to_chars s n : chars (slice_to s n) = take n (chars s).
Proof. apply chars_of_chars. Qed.

(** Digits cut in two around a point. *)
Lemma split_numeral m n x : 0 < m -> (0 < n < length (chars (digits m)))%nat ->
  (forall neg l, x = Some (neg, l) -> all_digits l /\ l <> []) ->
  numeral (take n (chars (digits m))) (Some (drop n (chars (digits m)))) x /\
  mantissa (take n (chars (digits m))) (Some (drop n (chars (digits m)))) = m.
Proof.
  intros Hm Hn Hx. pose proof (digits_all m Hm) as Had. destruct (digits_head m Hm) as (c & l & Hcl & Hc). split; [split|].
  - by apply Forall_take.
  - rewrite Hcl. destruct n as [|n]; [lia|]. exists c, (take n l). split; [done|by right].
  - intros ? [= <-]. split; [by apply Forall_drop|]. intros He. apply (f_equal length) in He.
    rewrite length_drop in He. simpl in He. lia.
  - done.
  - unfold mantissa. simpl. rewrite all_digits_read_split. by apply digits_read.
Qed.

(** The text of a positive normal form is a numeral that stands for it. *)
Lemma pos_text m e : 0 < m -> mk_num m e = NDec m e ->
  exists ip f x, numeral ip f x /\ chars (pos_to_string m e) = ip ++ frac_text f ++ exp_text x /\ mantissa ip f <> 0 /\
  mk_num (mantissa ip f) (exp_value x - Z.of_nat (length (frac_digits f))) = NDec m e.
Proof.
  intros Hm Hc. unfold pos_to_string.
  pose proof (significand_canonical (String.length (digits m)) m e Hm Hc) as Hs.
  destruct (significand _ m e) as [s e']. destruct Hs as (Hs & Hv & Hz).
  pose proof (digits_all s Hs) as Had. pose proof (digits_read s Hs) as Hrd. destruct (digits_head s Hs) as (c & l & Hcl & Hc0).
  rewrite str_length_chars, (length_chars (digits s)). set (d := digits s) in *. remember (length (chars d)) as k eqn:Hk.
  assert (1 <= k)%nat as Hk1 by (rewrite Hk, Hcl; simpl; lia).
  case_match eqn:HA; [|case_match eqn:HB; [|case_match eqn:HC; [|case_match eqn:HD]]].
  - exists (chars (d +:+ zeros e')), None, None. rewrite chars_app. unfold mantissa. simpl.
    rewrite read_digits_app, read_zeros, Hrd, zeros_length, Z2Nat.id, !Z.add_0_r, Z.mul_1_r by lia. split_and!.
    + split; [apply Forall_app; split; [done|apply zeros_digits]| |done|done].
      rewrite Hcl. exists c, (l ++ chars (zeros e')). split; [done|by right].
    + rewrite app_nil_r, <- chars_app. do 3 f_equal. lia.
    + assert (0 < 10 ^ e') by (apply Z.pow_pos_nonneg; lia). nia.
    + apply Hz. lia.
  - destruct (split_numeral s (Z.to_nat (Z.of_nat k + e')) None Hs ltac:(fold d; lia) ltac:(done)) as [Hn Hm'].
    eexists _, _, None. rewrite Hm'. split_and!; [exact Hn| |lia|].
    + fold d. rewrite !chars_app, slice_of_text, slice_to_chars. simpl. rewrite app_nil_r. do 2 f_equal.
      apply take_ge. rewrite length_drop. lia.
    + fold d. simpl. rewrite length_drop, <- Hk. rewrite <- Hv. f_equal. lia.
  - exists ["0"%char], (Some (chars (zeros (- (Z.of_nat k + e')) +:+ d))), None. rewrite !chars_app. unfold mantissa. simpl.
    rewrite read_digits_app, read_zeros, Hrd, length_app, zeros_length.
    change (read_digits 0 ["0"%char]) with 0. rewrite !Z.mul_0_l, !Z.add_0_l. split_and!; [|by rewrite app_nil_r|..].
    + split; [by repeat constructor|exists "0"%char, []; split; [done|by left]| |done].
      intros ? [= <-]. split; [apply Forall_app; split; [apply zeros_digits|done]|]. rewrite Hcl. by destruct (chars (zeros _)).
    + lia.
    + rewrite <- Hk, <- Hv. f_equal. lia.
  - assert (k = 1%nat) as -> by lia.
    exists (chars d), None, (Some (Z.of_nat 1 + e' - 1 <? 0, chars (digits (Z.abs (Z.of_nat 1 + e' - 1))))). split_and!.
    + apply digits_numeral; [done|done|]. apply exponent_ok. lia.
    + rewrite !chars_app. fold d. simpl. by destruct (_ <? 0).
    + unfold mantissa. simpl. fold d. rewrite Hrd. lia.
    + unfold mantissa. simpl. fold d. rewrite Hrd, Z.mul_1_r, Z.add_0_r, digits_read by lia. rewrite <- Hv. f_equal.
      case_match; lia.
  - destruct (split_numeral s 1 (Some (Z.of_nat k + e' - 1 <? 0, chars (digits (Z.abs (Z.of_nat k + e' - 1))))) Hs
      ltac:(fold d; lia) ltac:(apply exponent_ok; lia)) as [Hn Hm'].
    eexists _, _, _. rewrite Hm'. split_and!; [exact Hn| |lia|].
    + fold d. rewrite !chars_app, slice_of_text, slice_to_chars. simpl. do 2 f_equal. rewrite (take_ge (drop 1 _)).
      * by destruct (_ <? 0).
      * rewrite length_drop. lia.
    + fold d. simpl. rewrite length_drop, <- Hk, digits_read by lia. rewrite <- Hv. f_equal. case_match; lia.
Qed.

(** A printed number is read back. *)
Lemma parse_printed n r : canonical n -> ends_number r -> parse_number (chars (num_to_string n) ++ r) = Some (n, r).
Proof.
  destruct n as [m e| |]; [|done|done]. simpl. intros Hc%bool_decide_unpack Hr.
  destruct (Z.eqb_spec m 0) as [->|Hm0].
  - unfold mk_num in Hc. simpl in Hc. injection Hc as <-.
    apply (parse_numeral false ["0"%char] None None r); [|done].
    split; [by repeat constructor|exists "0"%char, []; split; [done|by left]|done|done].
  - destruct (Z.ltb_spec m 0) as [Hneg|Hpos].
    + destruct (pos_text (- m) e ltac:(lia)) as (ip & f & x & Hn & Ht & Hm & Hv); [by apply mk_num_opp|].
      rewrite chars_app, Ht. simpl. rewrite <- !app_assoc. pose proof (parse_numeral true ip f x r Hn Hr) as Hp. simpl in Hp.
      rewrite Hp, (mk_num_opp _ _ _ _ Hm Hv), Z.opp_involutive. done.
    + destruct (pos_text m e ltac:(lia) Hc) as (ip & f & x & Hn & Ht & Hm & Hv).
      rewrite Ht, <- !app_assoc. pose proof (parse_numeral false ip f x r Hn Hr) as Hp. simpl in Hp. by rewrite Hp, Hv.
Qed.

(** It starts with a digit or a minus. *)
Lemma printed_head n : canonical n -> exists c l, chars (num_to_string n) = c :: l /\ (is_digit c = true \/ c = "-"%char).
Proof.
  destruct n as [m e| |]; [|done|done]. simpl. intros Hc%bool_decide_unpack.
  destruct (Z.eqb_spec m 0) as [->|Hm0]; [eexists _, _; split; [reflexivity|by left]|].
  destruct (Z.ltb_spec m 0) as [Hneg|Hpos]; [eexists _, _; split; [reflexivity|by right]|].
  destruct (pos_text m e ltac:(lia) Hc) as (ip & f & x & [Hd (c & l & -> & _) _ _] & Ht & _).
  rewrite Ht. eexists _, _. split; [reflexivity|left]. by inversion Hd.
Qed.

(** ** Strings *)

Lemma parse_escaped c r acc : parse_chars (escape_char c ++ r) acc = parse_chars r (c :: acc).
Proof. by bits c. Qed.

Lemma parse_quoted l r acc :
  parse_chars (concat (map escape_char l) ++ dq_char :: r) acc = Some (rev acc ++ l, r).
Proof.
  revert acc. induction l as [|c l IH]; intros acc; simpl; [by rewrite app_nil_r|].
  rewrite <- app_assoc, parse_escaped, IH. simpl. by rewrite <- app_assoc.
Qed.

Lemma parse_string s r : parse_chars (concat (map escape_char (chars s)) ++ dq_char :: r) [] = Some (chars s, r).
Proof. apply parse_quoted. Qed.

Lemma quote_chars s : chars (json_quote s) = dq_char :: concat (map escape_char (chars s)) ++ [dq_char].
Proof. unfold json_quote. by rewrite chars_of_chars. Qed.

(** ** Values *)

(** Values made of JSON parts, with their numbers in normal form and the keys of an
    object distinct. *)
Fixpoint serial (v : value) : bool :=
  match v with
  | VNull | VBool _ | VStr _ => true
  | VNum n => canonical n
  | VArr l => forallb serial l
  | VObj fs => bool_decide (NoDup fs.*1) && forallb (fun f => serial f.2) fs
  | _ => false
  end.

Definition text (v : value) : list ascii := chars (json v).

Definition member_text (f : string * value) : list ascii := chars (json_quote f.1) ++ ":"%char :: text f.2.

(** Texts with a comma between. *)
Fixpoint commas (l : list (list ascii)) : list ascii :=
  match l with
  | [] => []
  | [x] => x
  | x :: l' => x ++ ","%char :: commas l'
  end.

Lemma join_chars l : chars (join "," l) = commas (map (fun s => chars s) l).
Proof.
  unfold join. induction l as [|x [|y l] IH]; [done|done|].
  change (String.concat "," (x :: y :: l)) with (x +:+ "," +:+ String.concat "," (y :: l)).
  rewrite chars_app, chars_app. simpl map. simpl map in IH. cbn [commas]. by rewrite IH.
Qed.

Lemma serial_prints v : serial v -> exists s, stringify v = Some s.
Proof. destruct v; simpl; try done; eauto. Qed.

Definition json_item (x : value) : string := default "null" (stringify x).

Definition json_member (f : string * value) : option string :=
  match f with
  | (k, x) => match stringify x with Some s => Some (json_quote k +:+ ":" +:+ s) | None => None end
  end.

Lemma text_arr l : forallb serial l -> text (VArr l) = "["%char :: commas (map text l) ++ ["]"%char].
Proof.
  intros Hl. change (text (VArr l)) with (chars ("[" +:+ join "," (map json_item l) +:+ "]")).
  rewrite !chars_app, join_chars, map_map. cbn [chars app]. do 3 f_equal.
  induction l as [|v l IH]; [done|]. simpl in *. apply andb_True in Hl as [Hv Hl]. rewrite (IH Hl). f_equal.
  unfold json_item, text, json. by destruct (serial_prints v Hv) as [s ->].
Qed.

Lemma text_obj fs : forallb (fun f => serial f.2) fs -> text (VObj fs) = "{"%char :: commas (map member_text fs) ++ ["}"%char].
Proof.
  intros Hl. change (text (VObj fs)) with (chars ("{" +:+ join "," (filter_map json_member fs) +:+ "}")).
  rewrite !chars_app, join_chars. cbn [chars app]. do 3 f_equal.
  induction fs as [|[k v] fs IH]; [done|]. simpl in Hl. apply andb_True in Hl as [Hv Hl].
  simpl. destruct (serial_prints v Hv) as [s Hs]. rewrite Hs. simpl. rewrite IH by done. f_equal.
  unfold member_text, text, json. simpl. by rewrite Hs, !chars_app.
Qed.

(** How a value starts: neither space nor the end of a list. *)
Definition starts (c : ascii) : bool :=
  negb (is_json_space c) && negb (bool_decide (c = "]"%char)) && negb (bool_decide (c = "}"%char)).

Lemma text_head v : serial v -> exists c l, text v = c :: l /\ starts c.
Proof.
  destruct v as [| |[]|n|s|l|fs| | | |]; try done; intros H.
  - by eexists _, _.
  - by eexists _, _.
  - by eexists _, _.
  - simpl in H. destruct (printed_head n H) as (c & l & Hc & Hd). exists c, l. split.
    + unfold text, json. simpl. destruct n; done.
    + destruct Hd as [Hd| ->]; [|done]. by bits c.
  - unfold text, json. simpl. rewrite chars_of_chars. by eexists _, _.
  - rewrite text_arr by done. by eexists _, _.
  - simpl in H. apply andb_True in H as [_ H]. rewrite text_obj by done. by eexists _, _.
Qed.

Lemma skip_start c l : starts c -> skip_space (c :: l) = c :: l.
Proof. unfold starts, skip_space. simpl. by destruct (is_json_space c). Qed.

Lemma skip_text v r : serial v -> skip_space (text v ++ r) = text v ++ r.
Proof. intros H. destruct (text_head v H) as (c & l & -> & Hc). by apply skip_start. Qed.

Definition ends_value (r : list ascii) : Prop :=
  match r with [] => True | c :: _ => c = ","%char \/ c = "]"%char \/ c = "}"%char end.

Lemma ends_value_number r : ends_value r -> ends_number r.
Proof. destruct r; [done|]. by intros [-> | [-> | ->]]. Qed.

Lemma number_branch fuel c l : is_digit c = true \/ c = "-"%char ->
  parse_value (S fuel) (c :: l) = ('(n, r') ← parse_number (c :: l); Some (VNum n, r')).
Proof. intros [H| ->]; [|done]. by bits c. Qed.

Lemma string_branch fuel l :
  parse_value (S fuel) (dq_char :: l) = ('(s, r') ← parse_chars l []; Some (VStr (of_chars s), r')).
Proof. done. Qed.

Lemma items_branch fuel c l : starts c -> parse_value (S fuel) ("["%char :: c :: l) = parse_items fuel (c :: l) [].
Proof.
  intros Hc. change (parse_value (S fuel) ("["%char :: c :: l)) with
    (match skip_space (c :: l) with "]"%char :: r' => Some (VArr [], r') | _ => parse_items fuel (c :: l) [] end).
  rewrite skip_start by done. by bits c.
Qed.

Lemma items_step fuel l acc v r : parse_value fuel l = Some (v, r) ->
  parse_items (S fuel) l acc =
  match skip_space r with
  | ","%char :: r' => parse_items fuel r' (acc ++ [v]) | "]"%char :: r' => Some (VArr (acc ++ [v]), r') | _ => None
  end.
Proof. intros H. simpl. by rewrite H. Qed.

(** A value whose text is read back. *)
Definition read_back (v : value) : Prop :=
  serial v -> forall fuel r, (length (text v) < fuel)%nat -> ends_value r -> parse_value fuel (text v ++ r) = Some (v, r).

Lemma commas_cons x l : l <> [] -> commas (x :: l) = x ++ ","%char :: commas l.
Proof. by destruct l. Qed.

Lemma parse_items_text l r acc fuel : Forall read_back l -> forallb serial l -> l <> [] ->
  (S (length (commas (map text l))) < fuel)%nat ->
  parse_items fuel (commas (map text l) ++ "]"%char :: r) acc = Some (VArr (acc ++ l), r).
Proof.
  intros Hr. revert acc fuel. induction Hr as [|x l Hx Hr IH]; intros acc fuel Hs Hn Hf; [done|].
  apply andb_True in Hs as [Hsx Hs]. destruct fuel as [|fuel]; [lia|]. destruct l as [|y l].
  - cbn [commas map] in *. by rewrite (items_step fuel _ _ x ("]"%char :: r)) by (apply Hx; [done|lia|by right; left]).
  - rewrite map_cons, commas_cons in Hf |- * by done. rewrite <- app_assoc. rewrite length_app in Hf. cbn [length] in Hf.
    rewrite (items_step fuel _ _ x (","%char :: commas (map text (y :: l)) ++ "]"%char :: r)).
    + change (skip_space (","%char :: ?z)) with (","%char :: z). cbv iota. rewrite IH by (done || lia). by rewrite <- app_assoc.
    + apply Hx; [done|lia|by left].
Qed.

Lemma members_step fuel k l acc v r : parse_value fuel l = Some (v, r) ->
  parse_members (S fuel) (chars (json_quote k) ++ ":"%char :: l) acc =
  match skip_space r with
  | ","%char :: r' => parse_members fuel r' (obj_set acc k v) | "}"%char :: r' => Some (VObj (obj_set acc k v), r') | _ => None
  end.
Proof.
  intros H. rewrite quote_chars, <- app_comm_cons, <- app_assoc. cbn [app parse_members].
  change (skip_space (dq_char :: ?z)) with (dq_char :: z). cbv iota. rewrite bool_decide_true by done.
  rewrite parse_string. change (skip_space (":"%char :: ?z)) with (":"%char :: z). cbv iota. rewrite H.
  by rewrite String.string_of_list_ascii_of_string.
Qed.

Lemma obj_set_new o k v : k ∉ o.*1 -> obj_set o k v = o ++ [(k, v)].
Proof.
  induction o as [|[k' v'] o IH]; simpl; [done|]. intros [Hk Ho]%not_elem_of_cons.
  rewrite bool_decide_false by congruence. by rewrite IH.
Qed.

Lemma parse_members_text fs r acc fuel : Forall (fun f => read_back f.2) fs -> forallb (fun f => serial f.2) fs -> fs <> [] ->
  NoDup (acc ++ fs).*1 -> (S (length (commas (map member_text fs))) < fuel)%nat ->
  parse_members fuel (commas (map member_text fs) ++ "}"%char :: r) acc = Some (VObj (acc ++ fs), r).
Proof.
  intros Hr. revert acc fuel. induction Hr as [|[k v] fs Hx Hr IH]; intros acc fuel Hs Hn Hd Hf; [done|].
  apply andb_True in Hs as [Hsx Hs]. destruct fuel as [|fuel]; [lia|].
  assert (obj_set acc k v = acc ++ [(k, v)]) as Hset.
  { apply obj_set_new. rewrite fmap_app in Hd. apply NoDup_app in Hd as (_ & Hd & _). intros Hin. apply (Hd k Hin). by left. }
  assert (length (text v) <= length (member_text (k, v)))%nat as Hlt by (unfold member_text; rewrite length_app; simpl; lia).
  cbn [snd] in Hx, Hsx. destruct fs as [|f fs].
  - cbn [commas map] in *. unfold member_text at 1. cbn [fst snd]. rewrite <- app_assoc, <- app_comm_cons.
    rewrite (members_step fuel _ _ _ v ("}"%char :: r)) by (apply Hx; [done|lia|by right; right]). by rewrite Hset.
  - rewrite map_cons, commas_cons in Hf |- * by done. unfold member_text at 1. cbn [fst snd]. rewrite <- !app_assoc, <- !app_comm_cons.
    rewrite length_app in Hf. cbn [length] in Hf.
    rewrite (members_step fuel _ _ _ v (","%char :: commas (map member_text (f :: fs)) ++ "}"%char :: r)).
    + change (skip_space (","%char :: ?z)) with (","%char :: z). cbv iota. rewrite Hset.
      rewrite IH; [by rewrite <- app_assoc|done|done|by rewrite <- app_assoc|lia].
    + apply Hx; [done|lia|by left].
Qed.

Lemma parse_text v : read_back v.
Proof.
  induction v as [l IH|fs IH|v Harr Hobj] using value_nested_ind; intros Hs fuel r Hf Hr; destruct fuel as [|fuel]; try lia.
  - destruct l as [|x l]; [done|]. rewrite text_arr in * by done. cbn [length] in Hf. rewrite length_app in Hf. cbn [length] in Hf.
    rewrite <- app_comm_cons, <- app_assoc. cbn [app].
    pose proof (parse_items_text (x :: l) r [] fuel IH Hs ltac:(done) ltac:(lia)) as Hp.
    destruct (text_head x) as (c & t & Ht & Hc); [by apply andb_True in Hs as [? _]|].
    assert (exists t', commas (map text (x :: l)) = c :: t') as [t' Ht'].
    { simpl map. rewrite Ht. destruct (map text l); by eexists. }
    rewrite Ht' in *. rewrite <- app_comm_cons in *. rewrite items_branch by done. exact Hp.
  - simpl in Hs. apply andb_True in Hs as [Hd Hs]. apply bool_decide_unpack in Hd. destruct fs as [|[k v] fs]; [done|].
    rewrite text_obj in * by done. cbn [length] in Hf. rewrite length_app in Hf. cbn [length] in Hf.
    rewrite <- app_comm_cons, <- app_assoc. cbn [app].
    pose proof (parse_members_text ((k, v) :: fs) r [] fuel IH Hs ltac:(done) Hd ltac:(lia)) as Hp.
    assert (exists t', commas (map member_text ((k, v) :: fs)) = dq_char :: t') as [t' Ht'].
    { simpl map. unfold member_text at 1. rewrite quote_chars. destruct (map member_text fs); by eexists. }
    rewrite Ht' in *. rewrite <- app_comm_cons in *. exact Hp.
  - destruct v as [| |[]|n|s|l|fs| | | |]; try done; [| |by destruct (Harr l)|by destruct (Hobj fs)].
    + simpl in Hs. assert (text (VNum n) = chars (num_to_string n)) as Ht by (unfold text, json; simpl; by destruct n).
      rewrite Ht. pose proof (parse_printed n r Hs (ends_value_number r Hr)) as Hp.
      destruct (printed_head n Hs) as (c & l & Hc & Hd). rewrite Hc in *. cbn [app] in *.
      rewrite number_branch by done. by rewrite Hp.
    + assert (text (VStr s) = chars (json_quote s)) as -> by done. rewrite quote_chars, <- app_comm_cons, <- app_assoc.
      cbn [app]. rewrite string_branch, parse_string. simpl. by rewrite String.string_of_list_ascii_of_string.
Qed.

Theorem parse_stringify v : serial v -> json_parse (json v) = Some v.
Proof.
  intros Hs. unfold json_parse. change (chars (json v)) with (text v).
  pose proof (parse_text v Hs (S (S (length (text v)))) [] ltac:(lia) I) as Hp. rewrite app_nil_r in Hp. by rewrite Hp.
Qed.

(** ** The characters around and inside a text *)

Definition numeric (c : ascii) : bool := is_digit c || bool_decide (c ∈ ["."%char; "e"%char; "+"%char; "-"%char]).

Lemma digits_numeric m : Forall (fun c => numeric c = true) (chars (digits m)).
Proof.
  unfold digits, pretty, pretty_N. destruct (decide _); [by repeat constructor|].
  eapply Forall_impl; [apply go_digits|]. unfold numeric. by intros c ->.
Qed.

Lemma num_text_numeric m e : Forall (fun c => numeric c = true) (chars (num_to_string (NDec m e))).
Proof.
  assert (forall m e, Forall (fun c => numeric c = true) (chars (pos_to_string m e))) as Hpos.
  { clear m e. intros m e. unfold pos_to_string. destruct (significand _ m e) as [s e']. pose proof (digits_numeric s) as Hd.
    assert (forall n, Forall (fun c => numeric c = true) (chars (zeros n))) as Hz.
    { intros n. eapply Forall_impl; [apply zeros_digits|]. unfold numeric. by intros c ->. }
    repeat case_match; rewrite ?chars_app, ?slice_of_text, ?slice_to_chars, ?Forall_app; split_and!;
      try done; try apply digits_numeric; try (by apply Forall_take); try (by apply Forall_take, Forall_drop); by repeat constructor. }
  unfold num_to_string. repeat case_match; [by repeat constructor| |done].
  rewrite chars_app. apply Forall_app. split; [by repeat constructor|done].
Qed.

Lemma numeral_numeric z : Forall (fun c => numeric c = true) (chars (Z_to_string z)).
Proof. apply num_text_numeric. Qed.

Lemma drop_none {A} (p : A -> bool) x l : p x = false -> drop_while p (x :: l) = x :: l.
Proof. intros H. simpl. by rewrite H. Qed.

(** A text that neither starts nor ends with a space is trimmed to itself. *)
Lemma trim_tight s c l c' l' : chars s = c :: l -> chars s = l' ++ [c'] -> is_space c = false -> is_space c' = false -> trim s = s.
Proof.
  intros H1 H2 Hc Hc'. apply chars_inj. unfold trim. rewrite chars_of_chars, H1, drop_none by done. rewrite <- H1, H2, rev_app_distr.
  simpl rev at 2. cbn [app]. rewrite drop_none by done. simpl. by rewrite rev_involutive.
Qed.

Lemma numeral_space c : numeric c = true -> is_space c = false.
Proof. by bits c. Qed.

Lemma last_split {A} (l : list A) : l <> [] -> exists l' x, l = l' ++ [x].
Proof. intros H. destruct l as [|x l _] using rev_ind; [done|]. by exists l, x. Qed.

(** The text of a JSON value has no space around it. *)
Lemma text_tight v : serial v -> trim (json v) = json v.
Proof.
  intros Hs. change (chars (json v)) with (text v). destruct v as [| |[]|[m e| |]|s|l|fs| | | |]; try done.
  - destruct (printed_head _ Hs) as (c & l & Hc & _). pose proof (num_text_numeric m e) as Hn.
    destruct (last_split (c :: l) ltac:(done)) as (l' & c' & Hl).
    change (trim (num_to_string (NDec m e)) = num_to_string (NDec m e)).
    eapply trim_tight; [exact Hc|by rewrite Hc|..]; rewrite Hc in Hn.
    + inversion Hn; subst. by apply numeral_space.
    + rewrite Hl in Hn. apply Forall_app in Hn as [_ Hn]. inversion Hn; subst. by apply numeral_space.
  - eapply (trim_tight _ dq_char _ dq_char (dq_char :: concat (map escape_char (chars s)))); [|by apply quote_chars|done|done].
    apply quote_chars.
  - pose proof (text_arr l Hs) as Ht.
    by eapply (trim_tight _ "["%char _ "]"%char ("["%char :: commas (map text l))); [exact Ht|exact Ht|..].
  - simpl in Hs. apply andb_True in Hs as [_ Hs]. pose proof (text_obj fs Hs) as Ht.
    by eapply (trim_tight _ "{"%char _ "}"%char ("{"%char :: commas (map member_text fs))); [exact Ht|exact Ht|..].
Qed.

Definition newline : ascii := "010"%char.

(** The text of a value is one line. *)
Lemma escaped_line c : Forall (fun x => x <> newline) (escape_char c).
Proof. by bits c; repeat constructor. Qed.

Lemma quoted_line s : Forall (fun x => x <> newline) (chars (json_quote s)).
Proof.
  rewrite quote_chars. constructor; [done|]. apply Forall_app. split; [|by repeat constructor].
  induction (chars s) as [|c l IH]; [constructor|]. simpl. apply Forall_app. split; [apply escaped_line|done].
Qed.

Lemma commas_line l : Forall (Forall (fun x => x <> newline)) l -> Forall (fun x => x <> newline) (commas l).
Proof.
  induction 1 as [|x l Hx Hl IH]; [constructor|]. destruct l as [|y l]; [done|].
  change (commas (x :: y :: l)) with (x ++ ","%char :: commas (y :: l)). apply Forall_app. split; [done|by constructor].
Qed.

Lemma numeric_line c : numeric c = true -> c <> newline.
Proof. by bits c. Qed.

Lemma text_line v : serial v -> Forall (fun x => x <> newline) (text v).
Proof.
  induction v as [l IH|fs IH|v Harr Hobj] using value_nested_ind; intros Hs.
  - rewrite text_arr by done. constructor; [done|]. apply Forall_app. split; [|by repeat constructor]. apply commas_line, Forall_map.
    simpl in Hs. induction IH as [|x l Hx _ IHl]; [constructor|]. simpl in Hs. apply andb_True in Hs as [? ?]. constructor; auto.
  - simpl in Hs. apply andb_True in Hs as [_ Hs]. rewrite text_obj by done. constructor; [done|]. apply Forall_app.
    split; [|by repeat constructor]. apply commas_line, Forall_map.
    induction IH as [|[k x] fs Hx _ IHl]; [constructor|]. simpl in Hs. apply andb_True in Hs as [? ?]. constructor; [|auto].
    unfold member_text. apply Forall_app. split; [apply quoted_line|]. constructor; [done|]. by apply Hx.
  - destruct v as [| |[]|[m e| |]|s|l|fs| | | |]; try done; [by repeat constructor..| | |by destruct (Harr l)|by destruct (Hobj fs)].
    + change (text (VNum (NDec m e))) with (chars (num_to_string (NDec m e))). eapply Forall_impl; [apply num_text_numeric|]. apply numeric_line.
    + apply quoted_line.
Qed.

End JsonText.
