(* ===== verification/ScopeKey.v ===== *)
(** * Composite keys (packages/core/src/utils/scope-key.ts)

    The key built from scope segments such as a tenant and a session id, and why
    two different lists of segments never share one. *)

From Stdlib Require Import Ascii.
From stdpp Require Import pretty.
From S2P Require Export Js Json.

#[local] Open Scope string_scope.
#[local] Open Scope list_scope.
#[local] Open Scope Z_scope.

Module ScopeKey.

Import Numerals.

Inductive scope_part : Type :=
| PartStr (s : string)
| PartNum (n : num)
| PartUndef.

(** [p ?? null] *)
Definition part_value (p : scope_part) : value :=
  match p with PartStr s => VStr s | PartNum n => VNum n | PartUndef => VNull end.

Definition scopeKey (parts : list scope_part) : string := json (VArr (map part_value parts)).

(** An optional string segment. *)
Definition opt_part (o : option string) : scope_part :=
  match o with Some s => PartStr s | None => PartUndef end.

(** ** Reading a quoted string back *)

Definition unhex (c : ascii) : nat :=
  let n := nat_of_ascii c in if (n <? 58)%nat then n - 48 else n - 87.

(** One character off the front of an escaped text. *)
Definition unescape (l : list ascii) : option (ascii * list ascii) :=
  match l with
  | [] => None
  | c :: r =>
      if negb (nat_of_ascii c =? 92)%nat then Some (c, r) else
      match r with
      | [] => None
      | d :: r' =>
          match nat_of_ascii d with
          | 98 => Some ("008"%char, r')
          | 102 => Some ("012"%char, r')
          | 110 => Some ("010"%char, r')
          | 114 => Some ("013"%char, r')
          | 116 => Some ("009"%char, r')
          | 117 => match r' with
                   | _ :: _ :: a :: b :: r'' => Some (ascii_of_nat (unhex a * 16 + unhex b), r'')
                   | _ => None
                   end
          | _ => Some (d, r')
          end
      end
  end%nat.

Lemma unescape_escape c r : unescape (escape_char c ++ r) = Some (c, r).
Proof. destruct c as [[] [] [] [] [] [] [] []]; reflexivity. Qed.

Lemma escape_no_quote c : exists d l, escape_char c = d :: l /\ d <> dq_char.
Proof. destruct c as [[] [] [] [] [] [] [] []]; do 2 eexists; (split; [reflexivity|done]). Qed.

Lemma escape_cancel c d r1 r2 : escape_char c ++ r1 = escape_char d ++ r2 -> c = d /\ r1 = r2.
Proof.
  intros H. pose proof (unescape_escape c r1) as Hc. rewrite H, unescape_escape in Hc. by simplify_eq.
Qed.

Lemma escaped_cancel l1 l2 r1 r2 :
  concat (map escape_char l1) ++ dq_char :: r1 = concat (map escape_char l2) ++ dq_char :: r2 ->
  l1 = l2 /\ r1 = r2.
Proof.
  revert l2. induction l1 as [|c l1 IH]; intros [|d l2]; simpl; intros H.
  - by simplify_eq.
  - destruct (escape_no_quote d) as (x & l & Hd & Hx). rewrite Hd in H. by simplify_eq/=.
  - destruct (escape_no_quote c) as (x & l & Hc & Hx). rewrite Hc in H. by simplify_eq/=.
  - rewrite <- !app_assoc in H. apply escape_cancel in H as [-> H]. by apply IH in H as [-> ->].
Qed.

Lemma quote_cancel s1 s2 r1 r2 :
  chars (json_quote s1) ++ r1 = chars (json_quote s2) ++ r2 -> s1 = s2 /\ r1 = r2.
Proof.
  unfold json_quote. rewrite !String.list_ascii_of_string_of_list_ascii. simpl. intros [= H].
  rewrite <- !app_assoc in H. apply escaped_cancel in H as [H ->]. split; [|done]. by apply chars_inj.
Qed.

(** ** Keys do not collide *)

(** Segments that are text, absent or counting numbers. *)
Definition textual (p : scope_part) : Prop := match p with PartNum n => counting n | _ => True end.

Definition part_text (p : scope_part) : string := default "null" (stringify (part_value p)).

(** What follows a segment in a key. *)
Definition separated (r : list ascii) : Prop := exists r', r = ","%char :: r' \/ r = "]"%char :: r'.

Lemma separated_digit r : separated r -> forall c r', r = c :: r' -> is_digit c = false.
Proof. by intros (r0 & [-> | ->]) c r' [= <- <-]. Qed.

Lemma counting_chars n : counting n ->
  exists c l, chars (num_to_string n) = c :: l /\ Forall (fun c => is_digit c = true) (c :: l).
Proof.
  intros (z & -> & Hz). rewrite counting_text, digits_positive by lia. pose proof (go_digits (Z.to_N z)) as Hd.
  destruct (chars (pretty_N_go (Z.to_N z) "")) as [|c l] eqn:Hc; [|by exists c, l]. exfalso.
  rewrite pretty_N_go_step, go_app, chars_app in Hc by lia. by destruct (chars (pretty_N_go _ _)).
Qed.

Lemma counting_finite n : counting n -> is_finite n = true.
Proof. by intros (z & -> & _). Qed.

Lemma counting_inj n m : counting n -> counting m -> num_to_string n = num_to_string m -> n = m.
Proof.
  intros (z & -> & Hz) (y & -> & Hy). rewrite !counting_text by done. intros H%pretty_N_inj.
  f_equal. lia.
Qed.

Lemma part_num_text n : counting n -> part_text (PartNum n) = num_to_string n.
Proof. intros Hn. unfold part_text. simpl. by rewrite counting_finite. Qed.

Lemma part_cancel p q r1 r2 :
  textual p -> textual q -> separated r1 -> separated r2 ->
  chars (part_text p) ++ r1 = chars (part_text q) ++ r2 -> p = q /\ r1 = r2.
Proof.
  intros Hp Hq Hr1 Hr2. destruct p as [s|n|], q as [t|m|]; simpl in Hp, Hq;
    rewrite ?part_num_text by done.
  - intros H. cbn [part_text part_value stringify default] in H. by apply quote_cancel in H as [-> ->].
  - destruct (counting_chars m Hq) as (c & l & -> & Hc). intros H. apply Forall_cons in Hc as [Hc _]. by simplify_eq/=.
  - done.
  - destruct (counting_chars n Hp) as (c & l & -> & Hc). intros H. apply Forall_cons in Hc as [Hc _]. by simplify_eq/=.
  - intros H. apply digits_cancel in H as [H ->].
    + split; [|done]. f_equal. apply counting_inj; [done..|]. by apply chars_inj.
    + by destruct (counting_chars n Hp) as (c & l & -> & Hc).
    + by destruct (counting_chars m Hq) as (c & l & -> & Hc).
    + by apply separated_digit.
    + by apply separated_digit.
  - destruct (counting_chars n Hp) as (c & l & -> & Hc). intros H. apply Forall_cons in Hc as [Hc _]. by simplify_eq/=.
  - done.
  - destruct (counting_chars m Hq) as (c & l & -> & Hc). intros H. apply Forall_cons in Hc as [Hc _]. by simplify_eq/=.
  - simpl. by intros [= ->].
Qed.

(** The text of the array, as a list of characters. *)
Fixpoint parts_chars (ps : list scope_part) : list ascii :=
  match ps with
  | [] => []
  | [p] => chars (part_text p)
  | p :: ps' => chars (part_text p) ++ ","%char :: parts_chars ps'
  end.

Lemma scopeKey_chars ps : chars (scopeKey ps) = "["%char :: parts_chars ps ++ ["]"%char].
Proof.
  change (scopeKey ps) with
    ("[" +:+ (join "," (map (fun x => default "null" (stringify x)) (map part_value ps)) +:+ "]")).
  rewrite chars_app. simpl. f_equal. rewrite chars_app.
  f_equal. rewrite map_map. unfold join. induction ps as [|p [|q ps] IH]; [done|done|].
  change (chars (part_text p +:+ "," +:+ String.concat "," (map part_text (q :: ps))) =
          chars (part_text p) ++ ","%char :: parts_chars (q :: ps)).
  rewrite !chars_app, <- IH. done.
Qed.

Lemma part_text_head p : textual p -> exists c l, chars (part_text p) = c :: l /\ c <> "]"%char.
Proof.
  destruct p as [s|n|]; intros Hp; [by do 2 eexists| |by do 2 eexists]. rewrite part_num_text by done.
  destruct (counting_chars n Hp) as (c & l & -> & Hc). apply Forall_cons in Hc as [Hc _].
  exists c, l. split; [done|]. by intros ->.
Qed.

Lemma parts_cancel ps qs :
  Forall textual ps -> Forall textual qs ->
  parts_chars ps ++ ["]"%char] = parts_chars qs ++ ["]"%char] -> ps = qs.
Proof.
  intros Hp. revert qs. induction Hp as [|p ps Hp Hps IH]; intros qs Hqs H.
  - destruct Hqs as [|q qs Hq Hqs]; [done|]. exfalso.
    destruct (part_text_head q Hq) as (c & l & Ht & Hn).
    destruct qs; simpl in H; rewrite Ht in H; simplify_eq/=.
  - destruct Hqs as [|q qs Hq Hqs].
    + exfalso. destruct (part_text_head p Hp) as (c & l & Ht & Hn).
      destruct ps; simpl in H; rewrite Ht in H; simplify_eq/=.
    + assert (exists r1 r2, chars (part_text p) ++ r1 = chars (part_text q) ++ r2 /\
                separated r1 /\ separated r2 /\ (r1 = r2 -> ps = qs)) as (r1 & r2 & He & Hs1 & Hs2 & Hr).
      { destruct ps as [|p2 ps], qs as [|q2 qs]; simpl in H.
        - exists ["]"%char], ["]"%char]. split_and!; [done|by eexists; right..|done].
        - rewrite <- app_assoc in H. eexists _, _. split_and!; [exact H|by eexists; right|by eexists; left|done].
        - rewrite <- app_assoc in H. eexists _, _. split_and!; [exact H|by eexists; left|by eexists; right|done].
        - rewrite <- !app_assoc in H. eexists _, _. split_and!; [exact H|by eexists; left..|].
          intros [= He]. by apply IH. }
      apply part_cancel in He as [-> He]; [|done..]. f_equal. by apply Hr.
Qed.

Lemma scope_inj (ps qs : list scope_part) :
  Forall textual ps -> Forall textual qs -> scopeKey ps = scopeKey qs -> ps = qs.
Proof.
  intros Hp Hq H. apply (f_equal (fun s => chars s)) in H. rewrite !scopeKey_chars in H.
  apply parts_cancel; [done..|]. by simplify_eq.
Qed.

(** Keys do not collide: two lists of string, absent or counting-number segments, of
    any lengths and whatever quotes, delimiters or control characters the segments
    contain, have the same key only if they are the same list; in particular an
    absent tenant never shares a key with any tenant's name, nor the number 1 with
    the text of it. *)
Theorem scopeKey_injective (ps qs : list scope_part) :
  Forall textual ps -> Forall textual qs -> scopeKey ps = scopeKey qs -> ps = qs.
Proof. apply scope_inj. Qed.

Lemma scopeKey_injective_witness :
  Forall textual [PartStr "a"; PartUndef; PartNum (num_of_Z 1)] /\
  (scopeKey [PartStr "a"; PartUndef; PartNum (num_of_Z 1)] = scopeKey [PartStr "a"; PartUndef; PartNum (num_of_Z 1)] ->
   [PartStr "a"; PartUndef; PartNum (num_of_Z 1)] = [PartStr "a"; PartUndef; PartNum (num_of_Z 1)]).
Proof.
  assert (Forall textual [PartStr "a"; PartUndef; PartNum (num_of_Z 1)]) as H.
  { repeat constructor. exists 1. split; [reflexivity|]. split; reflexivity. }
  split; [exact H|]. apply scopeKey_injective; exact H.
Defined.

End ScopeKey.
