(* ===== verification/LocalTool.v ===== *)
(** * Governed tools (packages/core/src/providers/local-tool.provider.ts,
      packages/core/src/interfaces/policy.interface.ts,
      packages/core/src/interfaces/idempotency.interface.ts)

    [LocalToolProvider] wraps a method of a tool set in its chain of policies,
    idempotency, output rails and approval requests.  Policies, stores, the
    dependency container and the tool's own method are arbitrary functions of
    the world; a policy answers about the arguments it is given and does not
    change them.  The reflection of decorators ([ToolDiscoveryService]) is a
    parameter. *)

From S2P Require Export Approvals ScopeKey Executor.

#[local] Open Scope string_scope.
#[local] Open Scope list_scope.
#[local] Open Scope Z_scope.
#[local] Open Scope eff_scope.

Module LocalTool.
Import Audit Approvals ScopeKey.

(** ** Policies and idempotency records *)

Inductive PolicyResult : Type :=
| PAllow (reason : option string)
| PDeny (reason : string) (retryAfterSeconds : option num)
| PRequireApproval (reason : string) (ttlSeconds : option Z) (requiredApprovals : option num).

Inductive PolicyOutputResult : Type :=
| OutAllow (reason : option string)
| OutDeny (reason : string)
| OutSanitize (sanitizedResult : value).

(** A policy class: its identity and its name. *)
Record PolicyConstructor : Type := { pc_id : positive; pc_name : string }.
#[export] Instance PolicyConstructor_eq_dec : EqDecision PolicyConstructor.
Proof. solve_decision. Defined.

Record IdempotencyRecord : Type := {
  ir_key : string;
  ir_toolName : option string;
  ir_result : ToolExecutionResult;
  ir_createdAt : Z;
  ir_expiresAt : option Z;
}.

(** One policy's request for approval, before requests are combined. *)
Record ApprovalRequest : Type := {
  rq_policyName : string;
  rq_reason : string;
  rq_requiredApprovals : Z;
  rq_ttlSeconds : option Z;
}.

(** ** Discovered tools *)

Record DiscoveredParam : Type := {
  dp_index : nat;
  dp_name : string;
  dp_description : option string;
  dp_type : ParamType;
  dp_required : bool;
}.

(** What a tool method receives at a position. *)
Inductive method_arg : Type := ArgValue (v : value) | ArgContext (c : AgentContext).

(** [a[i] = x] on an array: assigning past the end leaves holes, read as [undefined]. *)
Fixpoint assign (l : list method_arg) (i : nat) (x : method_arg) : list method_arg :=
  match i, l with
  | O, [] => [x]
  | O, _ :: l' => x :: l'
  | S i', [] => ArgValue VUndef :: assign [] i' x
  | S i', y :: l' => y :: assign l' i' x
  end.

Definition num_to_Z (n : num) : Z := match n with NDec m e => m * 10 ^ e | _ => 0 end.

(** [[...new Set(l)]] *)
Fixpoint dedupe (seen l : list string) : list string :=
  match l with
  | [] => []
  | x :: l' => if bool_decide (x ∈ seen) then dedupe seen l' else x :: dedupe (x :: seen) l'
  end.
Definition unique (l : list string) : list string := dedupe [] l.

Definition max_list (l : list Z) : Z := match l with [] => 0 | x :: l' => fold_left Z.max l' x end.
Definition min_list (l : list Z) : Z := match l with [] => 0 | x :: l' => fold_left Z.min l' x end.

(** [String(v)]; dates and functions print as the host prints them. *)
Fixpoint to_js_string (host_string : value -> string) (v : value) : string :=
  match v with
  | VUndef => "undefined"
  | VNull => "null"
  | VBool b => if b then "true" else "false"
  | VNum n => num_to_string n
  | VStr s => s
  | VArr l => join "," (map (fun x => match x with
                                      | VUndef | VNull => EmptyString
                                      | _ => to_js_string host_string x
                                      end) l)
  | VObj _ => "[object Object]"
  | VMap _ => "[object Map]"
  | VSet _ => "[object Set]"
  | VDate _ | VFun => host_string v
  end.

(** [isErrorWrapper], with the wrapped value. *)
Definition isErrorWrapper (v : value) : option value :=
  match v with VObj fs => obj_get fs "error" | _ => None end.

Definition requesterFrom (context : AgentContext) : option AuditActor :=
  let s := security context in
  match userId s, tenantId s, roles s with
  | None, None, None => None
  | u, t, r => Some {| actor_userId := u; actor_tenantId := t; actor_roles := r; actor_label := None |}
  end.

Definition scopedIdempotencyKey (agentContext : AgentContext) (idempotencyKey : string) : string :=
  scopeKey [opt_part (tenantId (security agentContext)); PartStr idempotencyKey].

Definition resolveIdempotencyKey (args : obj) (agentContext : AgentContext) : option string :=
  let fromArgs := obj_get args "idempotencyKey" in
  let fromContext := match ctx_data agentContext with Some d => obj_get d "idempotencyKey" | None => None end in
  let raw := match fromArgs with
             | Some (VStr s) => if truthy s then fromArgs else fromContext
             | _ => fromContext
             end in
  match raw with
  | Some (VStr s) => if truthy s then Some (scopedIdempotencyKey agentContext s) else None
  | _ => None
  end.

(** Why an approval cannot be requested on these terms. *)
Definition misconfiguration (policyName : string) (required : option num) (has_addSignature : bool)
    : option string :=
  let n := coalesce required (num_of_Z 1) in
  if negb (is_integer n && num_le (num_of_Z 1) n) then
    Some (policyName +:+ " requested an invalid requiredApprovals (" +:+
          match required with Some r => num_to_string r | None => "undefined" end +:+
          "); it must be a positive integer")
  else if negb (num_le n (num_of_Z 1)) && negb has_addSignature then
    Some (policyName +:+ " requires " +:+ num_to_string n +:+
          " approvers, but the configured ApprovalStore does not implement addSignature()")
  else None.

Section Provider.
Context {W I T : Type} `{!EqDecision I}.

Definition Ext (A : Type) : Type := W -> outcome error A * W.

Record ToolPolicy : Type := {
  tp_constructor : PolicyConstructor;
  evaluate : AgentContext -> string -> obj -> Ext PolicyResult;
  evaluateOutput : option (AgentContext -> string -> value -> option Provenance -> Ext PolicyOutputResult);
}.

Record DiscoveredTool : Type := {
  methodName : string;
  toolName : string;
  dt_description : string;
  params : list DiscoveredParam;
  contextParamIndex : option nat;
  policyConstructors : list PolicyConstructor;
  exemptFromDefaultPolicies : bool;
  instance : I;
}.

Record DiscoveredToolSet : Type := {
  classPolicyConstructors : list PolicyConstructor;
  ts_tools : list DiscoveredTool;
}.

Record IdempotencyStore : Type := {
  idem_get : string -> Ext (option IdempotencyRecord);
  idem_save : IdempotencyRecord -> Ext unit;
}.

(** A tool set is given as an instance or as a class token. *)
Inductive tool_source : Type := FromInstance (i : I) | FromToken (t : T).

(** The host, the container and the decorators. *)
Record ProviderHost : Type := {
  ph_aborted : W -> bool;
  ph_now : W -> Z;
  ph_randomUUID : Ext string;
  ph_string : value -> string;
  moduleRef_get_tools : T -> option I;
  construct : T -> option I;
  moduleRef_get_policies : option (list ToolPolicy);
  moduleRef_get_policy : PolicyConstructor -> option ToolPolicy;
  discover : I -> option DiscoveredToolSet;
  call_method : I -> string -> list method_arg -> Ext value;
  warned : W -> list (I * string);
  set_warned : list (I * string) -> W -> W;
}.

Record LocalToolProvider : Type := {
  policyInstances : list ToolPolicy;
  approvalStore : ApprovalStore W;
  audit : option (AuditTrail W);
  idempotencyStore : option IdempotencyStore;
  defaultPolicies : option (list PolicyConstructor);
}.

(** The calls across the boundary, in order; an answer is recorded with its call. *)
Inductive event : Type :=
| Evaluated (c : PolicyConstructor) (args : obj) (r : PolicyResult)
| EvaluatedOutput (c : PolicyConstructor) (data : value) (r : PolicyOutputResult)
| Invoked (method : string) (args : list method_arg)
| Saved (a : PendingApproval)
| CacheRead (key : string) (hit : option IdempotencyRecord)
| CacheWritten (r : IdempotencyRecord)
| AuditRecorded (e : AuditEvent)
| Warned (i : I) (method : string).

Notation M := (M error event W).

Context (self : LocalToolProvider) (host : ProviderHost).

(** *** Policies *)

Definition defaultPolicyConstructors (exempt : bool) : list PolicyConstructor :=
  if exempt then [] else coalesce (defaultPolicies self) [].

(** Warns once per instance and method. *)
Definition warnIfExemptWithNoPolicies (tool : DiscoveredTool) (all : list PolicyConstructor) : M unit :=
  if negb (exemptFromDefaultPolicies tool) || (0 <? length all)%nat then ret tt
  else
    ws <- ask (warned host) ;;
    if bool_decide ((instance tool, methodName tool) ∈ ws) then ret tt
    else modify (set_warned host ((instance tool, methodName tool) :: ws)) ;;
         emit (Warned (instance tool) (methodName tool)).

(** The map of policies by class and by class name, later entries replacing
    earlier ones, as its list of instances in that order. *)
Definition getPolicyMap : list ToolPolicy :=
  match policyInstances self with
  | [] => match moduleRef_get_policies host with Some l => l | None => [] end
  | l => l
  end.

Definition map_get (by_key : PolicyConstructor -> bool) (policyMap : list ToolPolicy) : option ToolPolicy :=
  find_first (fun p => by_key (tp_constructor p)) (rev policyMap).

Definition resolvePolicy (c : PolicyConstructor) (policyMap : list ToolPolicy) : option ToolPolicy :=
  let existing := orelse (map_get (fun k => bool_decide (pc_id k = pc_id c)) policyMap)
                         (map_get (fun k => bool_decide (pc_name k = pc_name c)) policyMap) in
  match existing with
  | Some p => Some p
  | None => moduleRef_get_policy host c
  end.

(** *** Audit *)

Definition record_audit (at_ : Z) (context : AgentContext) (body : AuditEventBody) : M unit :=
  let ev := {| ev_base := auditEnvelope at_ context; ev_body := body |} in
  match audit self with
  | None => ret tt
  | Some _ => emit (AuditRecorded ev) ;; lift (record_optional (audit self) ev)
  end.

Definition record_now (context : AgentContext) (body : AuditEventBody) : M unit :=
  t <- ask (ph_now host) ;;
  record_audit t context body.

(** *** The method itself *)

Definition assign_params (ps : list DiscoveredParam) (args : obj) : list method_arg :=
  fold_left (fun l p => assign l (dp_index p) (ArgValue (default VUndef (obj_get args (dp_name p))))) ps [].

Definition method_args (tool : DiscoveredTool) (args : obj) (context : AgentContext) : list method_arg :=
  match contextParamIndex tool with
  | Some i => assign (assign_params (params tool) args) i (ArgContext context)
  | None => assign_params (params tool) args
  end.

Definition invokeMethod (tool : DiscoveredTool) (args : obj) (context : AgentContext)
    : M ToolExecutionResult :=
  let margs := method_args tool args context in
  emit (Invoked (methodName tool) margs) ;;
  data <- lift (call_method host (instance tool) (methodName tool) margs) ;;
  ret (ToolSuccess data (Some (tool_provenance (toolName tool)))).

(** *** Output rails *)

(** The loop over the policies of a successful result. *)
Fixpoint output_rails (cs : list PolicyConstructor) (policyMap : list ToolPolicy) (data : value)
    (provenance : option Provenance) (context : AgentContext) (agentName tool : string) (args : obj)
    : M ToolExecutionResult :=
  match cs with
  | [] => ret (ToolSuccess data provenance)
  | c :: rest =>
      match (p ← resolvePolicy c policyMap; evaluateOutput p) with
      | None => output_rails rest policyMap data provenance context agentName tool args
      | Some f =>
          r <- lift (f context tool data provenance) ;;
          emit (EvaluatedOutput c data r) ;;
          match r with
          | OutDeny reason =>
              record_now context (ToolOutputPolicyDecision agentName tool (pc_name c) ODeny (Some reason) (Some args)) ;;
              ret (ToolDenied reason provenance)
          | OutSanitize sanitized =>
              record_now context (ToolOutputPolicyDecision agentName tool (pc_name c) OSanitize
                                    (Some "Output sanitized by policy") (Some args)) ;;
              output_rails rest policyMap sanitized provenance context agentName tool args
          | OutAllow reason =>
              record_now context (ToolOutputPolicyDecision agentName tool (pc_name c) OAllow reason (Some args)) ;;
              output_rails rest policyMap data provenance context agentName tool args
          end
      end
  end.

Definition runOutputRails (executionResult : ToolExecutionResult) (all : list PolicyConstructor)
    (context : AgentContext) (agentName tool : string) (args : obj) : M ToolExecutionResult :=
  match executionResult with
  | ToolSuccess data provenance =>
      output_rails all getPolicyMap data provenance context agentName tool args
  | r => ret r
  end.

Definition error_message_of (sanitized : value) : string :=
  match isErrorWrapper sanitized with
  | Some e => to_js_string (ph_string host) e
  | None => to_js_string (ph_string host) sanitized
  end.

Fixpoint sanitize_loop (cs : list PolicyConstructor) (policyMap : list ToolPolicy) (message : string)
    (context : AgentContext) (agentName tool : string) (args : obj) : M string :=
  match cs with
  | [] => ret message
  | c :: rest =>
      match (p ← resolvePolicy c policyMap; evaluateOutput p) with
      | None => sanitize_loop rest policyMap message context agentName tool args
      | Some f =>
          let data := VObj [("error", VStr message)] in
          r <- lift (f context tool data (Some (tool_provenance tool))) ;;
          emit (EvaluatedOutput c data r) ;;
          match r with
          | OutDeny reason =>
              record_now context (ToolOutputPolicyDecision agentName tool (pc_name c) ODeny (Some reason) (Some args)) ;;
              sanitize_loop rest policyMap reason context agentName tool args
          | OutSanitize sanitized =>
              record_now context (ToolOutputPolicyDecision agentName tool (pc_name c) OSanitize
                                    (Some "Tool error message sanitized by policy") (Some args)) ;;
              sanitize_loop rest policyMap (error_message_of sanitized) context agentName tool args
          | OutAllow _ => sanitize_loop rest policyMap message context agentName tool args
          end
      end
  end.

Definition sanitizeErrorMessage (rawMessage : string) (all : list PolicyConstructor)
    (context : AgentContext) (agentName tool : string) (args : obj) : M string :=
  sanitize_loop all getPolicyMap rawMessage context agentName tool args.

(** *** Approval requests *)

Record approval_call : Type := {
  ac_context : AgentContext;
  ac_agentName : string;
  ac_toolName : string;
  ac_args : obj;
  ac_toolCallId : option string;
  ac_defaultTtlSeconds : option Z;
}.

Definition strictest_required (requests : list ApprovalRequest) : Z :=
  max_list (map rq_requiredApprovals requests).
Definition strictest_ttl (requests : list ApprovalRequest) (default_ttl : option Z) : option Z :=
  match filter_map (fun r => orelse (rq_ttlSeconds r) default_ttl) requests with
  | [] => None
  | ttls => Some (min_list ttls)
  end.
Definition combined_reason (requests : list ApprovalRequest) : string :=
  join " " (unique (map rq_reason requests)).

Fixpoint record_requests (requests : list ApprovalRequest) (at_ : Z) (call : approval_call) (id : string)
    : M unit :=
  match requests with
  | [] => ret tt
  | r :: rest =>
      record_audit at_ (ac_context call)
        (ToolPolicyDecision (ac_agentName call) (ac_toolName call) (rq_policyName r) DRequireApproval
           (Some (rq_reason r)) (Some id) None (Some (ac_args call))) ;;
      record_requests rest at_ call id
  end.

(** The approval the request saves. *)
Definition approval_record (requests : list ApprovalRequest) (call : approval_call) (approvalId : string)
    (createdAt : Z) : PendingApproval :=
  let requiredApprovals := strictest_required requests in
  {| ap_id := approvalId; ap_agentName := ac_agentName call; ap_toolName := ac_toolName call;
     ap_args := ac_args call; ap_context := ac_context call; ap_reason := combined_reason requests;
     ap_createdAt := createdAt;
     ap_expiresAt := (fun ttl => createdAt + ttl * 1000) <$> strictest_ttl requests (ac_defaultTtlSeconds call);
     ap_toolCallId := ac_toolCallId call; ap_checkpoint := None;
     ap_requestedBy := requesterFrom (ac_context call);
     ap_requiredApprovals := if 1 <? requiredApprovals then Some requiredApprovals else None;
     ap_signatures := None |}.

(** What the model is told of it. *)
Definition pending_result (a : PendingApproval) : ToolExecutionResult :=
  ToolPending (ap_reason a) (ap_id a) (ap_requiredApprovals a)
    (match ap_requiredApprovals a with Some _ => Some 0 | None => None end) None.

Definition requestApproval (requests : list ApprovalRequest) (call : approval_call)
    : M ToolExecutionResult :=
  approvalId <- lift (ph_randomUUID host) ;;
  createdAt <- ask (ph_now host) ;;
  let a := approval_record requests call approvalId createdAt in
  lift (store_save (ApprovalStore := approvalStore self) a) ;;
  emit (Saved a) ;;
  (if match audit self with Some t => isEnabled t | None => false end then
     at_ <- ask (ph_now host) ;;
     record_requests requests at_ call approvalId ;;
     record_audit at_ (ac_context call)
       (ApprovalRequested approvalId (ac_agentName call) (ac_toolName call) (ap_reason a) (ap_expiresAt a)
          (num_of_Z <$> ap_requiredApprovals a) (Some (ac_args call)))
   else ret tt) ;;
  ret (pending_result a).

(** *** The guarded call *)

Definition isDeadlineExceeded (deadline : option Z) (now : Z) : bool :=
  match deadline with Some d => d <? now | None => false end.

Definition assert_live (context : AgentContext) : M unit :=
  a <- ask (ph_aborted host) ;;
  if ctx_signal context && a then throw (AgenticErr (ExecutionCancelledError None))
  else
    now <- ask (ph_now host) ;;
    if isDeadlineExceeded (deadline context) now
    then throw (AgenticErr (ExecutionLimitExceededError LTimeout 0))
    else ret tt.

(** The policy chain, up to the first refusal: a result, or the approval requests. *)
Fixpoint policy_chain (cs : list PolicyConstructor) (policyMap : list ToolPolicy)
    (requests : list ApprovalRequest) (context : AgentContext) (agentName tool : string) (args : obj)
    : M (ToolExecutionResult + list ApprovalRequest) :=
  match cs with
  | [] => ret (inr requests)
  | c :: rest =>
      match resolvePolicy c policyMap with
      | None => throw (AgenticErr (PolicyNotRegisteredError (pc_name c)))
      | Some p =>
          r <- lift (evaluate p context tool args) ;;
          emit (Evaluated c args r) ;;
          match r with
          | PDeny reason retryAfterSeconds =>
              record_now context (ToolPolicyDecision agentName tool (pc_name c) DDeny (Some reason) None
                                    retryAfterSeconds (Some args)) ;;
              ret (inl (ToolDenied reason None))
          | PRequireApproval reason ttlSeconds required =>
              match misconfiguration (pc_name c) required
                      (is_some (store_addSignature (ApprovalStore := approvalStore self))) with
              | Some m =>
                  let why := "Approval cannot be requested: " +:+ m +:+ "." in
                  record_now context (ToolPolicyDecision agentName tool (pc_name c) DDeny (Some why) None
                                        None (Some args)) ;;
                  ret (inl (ToolDenied why None))
              | None =>
                  policy_chain rest policyMap
                    (requests ++ [{| rq_policyName := pc_name c; rq_reason := reason;
                                     rq_requiredApprovals := num_to_Z (coalesce required (num_of_Z 1));
                                     rq_ttlSeconds := ttlSeconds |}])
                    context agentName tool args
              end
          | PAllow reason =>
              record_now context (ToolPolicyDecision agentName tool (pc_name c) DAllow reason None None
                                    (Some args)) ;;
              policy_chain rest policyMap requests context agentName tool args
          end
      end
  end.

Definition read_cache (key : option string) : M (option IdempotencyRecord) :=
  match key, idempotencyStore self with
  | Some k, Some store =>
      cached <- lift (idem_get store k) ;;
      emit (CacheRead k cached) ;;
      ret cached
  | _, _ => ret None
  end.

Definition write_cache (key : option string) (tool : string) (r : ToolExecutionResult) : M unit :=
  match key, idempotencyStore self with
  | Some k, Some store =>
      if result_success r then
        t <- ask (ph_now host) ;;
        let rec := {| ir_key := k; ir_toolName := Some tool; ir_result := r; ir_createdAt := t;
                      ir_expiresAt := None |} in
        lift (idem_save store rec) ;; emit (CacheWritten rec)
      else ret tt
  | _, _ => ret tt
  end.

(** Running the method, its output rails, and remembering a success. *)
Definition run_tool (tool : DiscoveredTool) (name : string) (all : list PolicyConstructor) (key : option string)
    (context : AgentContext) (agentName : string) (args : obj) : M ToolExecutionResult :=
  executionResult <- invokeMethod tool args context ;;
  finalResult <- runOutputRails executionResult all context agentName (toolName tool) args ;;
  write_cache key name finalResult ;;
  ret finalResult.

(** The [execute] of a built tool. *)
Definition execute (tool : DiscoveredTool) (all : list PolicyConstructor) (context : AgentContext)
    (agentName : string) (defaultApprovalTtlSeconds : option Z) (args : obj) (toolCallId : option string)
    : M ToolExecutionResult :=
  assert_live context ;;
  let key := resolveIdempotencyKey args context in
  cached <- read_cache key ;;
  match cached with
  | Some c => ret (ir_result c)
  | None =>
      v <- policy_chain all getPolicyMap [] context agentName (toolName tool) args ;;
      match v with
      | inl refused => ret refused
      | inr [] => run_tool tool (toolName tool) all key context agentName args
      | inr requests =>
          requestApproval requests
            {| ac_context := context; ac_agentName := agentName; ac_toolName := toolName tool;
               ac_args := args; ac_toolCallId := toolCallId;
               ac_defaultTtlSeconds := defaultApprovalTtlSeconds |}
      end
  end.

(** What a computation does to the world, for callers outside the provider. *)
Definition as_ext {A} (m : M A) : Ext A := fun w => let '(o, w', _) := m w in (o, w').

Definition buildResolvedTool (tool : DiscoveredTool) (upstream : list PolicyConstructor)
    (context : AgentContext) (agentName : string) (defaultApprovalTtlSeconds : option Z)
    : Executor.ResolvedTool :=
  let all := upstream ++ policyConstructors tool in
  {| Executor.tool_name := toolName tool;
     Executor.tool_description := dt_description tool;
     Executor.tool_parameters :=
       map (fun p => {| param_name := dp_name p; param_description := dp_description p;
                        param_type := dp_type p; param_required := dp_required p |}) (params tool);
     Executor.tool_execute := fun args toolCallId =>
       as_ext (execute tool all context agentName defaultApprovalTtlSeconds args (Some toolCallId));
     Executor.tool_sanitizeErrorMessage := Some (fun rawMessage args =>
       as_ext (sanitizeErrorMessage rawMessage all context agentName (toolName tool) args)) |}.

Definition resolveInstance (s : tool_source) : option I :=
  match s with
  | FromInstance i => Some i
  | FromToken t => orelse (moduleRef_get_tools host t) (construct host t)
  end.

Definition upstream_of (ts : DiscoveredToolSet) (tool : DiscoveredTool) : list PolicyConstructor :=
  defaultPolicyConstructors (exemptFromDefaultPolicies tool) ++ classPolicyConstructors ts.

Fixpoint build_set (ts : DiscoveredToolSet) (tools : list DiscoveredTool) (context : AgentContext)
    (agentName : string) (ttl : option Z) : M (list Executor.ResolvedTool) :=
  match tools with
  | [] => ret []
  | tool :: rest =>
      warnIfExemptWithNoPolicies tool (upstream_of ts tool ++ policyConstructors tool) ;;
      built <- build_set ts rest context agentName ttl ;;
      ret (buildResolvedTool tool (upstream_of ts tool) context agentName ttl :: built)
  end.

Fixpoint buildTools (sources : list tool_source) (context : AgentContext) (agentName : string)
    (ttl : option Z) : M (list Executor.ResolvedTool) :=
  match sources with
  | [] => ret []
  | s :: rest =>
      here <- match (i ← resolveInstance s; discover host i) with
              | Some ts => build_set ts (ts_tools ts) context agentName ttl
              | None => ret []
              end ;;
      others <- buildTools rest context agentName ttl ;;
      ret (here ++ others)
  end.

(** *** Approved calls *)

Fixpoint find_tool (sources : list tool_source) (name : string)
    : option (DiscoveredTool * list PolicyConstructor) :=
  match sources with
  | [] => None
  | s :: rest =>
      match (i ← resolveInstance s; discover host i) with
      | Some ts =>
          match find_first (fun t => bool_decide (toolName t = name)) (ts_tools ts) with
          | Some t => Some (t, upstream_of ts t ++ policyConstructors t)
          | None => find_tool rest name
          end
      | None => find_tool rest name
      end
  end.

Definition discoverToolByName (sources : list tool_source) (name : string)
    : M (option (DiscoveredTool * list PolicyConstructor)) :=
  match find_tool sources name with
  | Some (t, all) => warnIfExemptWithNoPolicies t all ;; ret (Some (t, all))
  | None => ret None
  end.

Definition invokeApprovedTool (sources : list tool_source) (name : string) (args : obj)
    (context : AgentContext) (agentName : string) : M ToolExecutionResult :=
  assert_live context ;;
  discovered <- discoverToolByName sources name ;;
  match discovered with
  | None => throw (AgenticErr (ApprovalToolNotFoundError name))
  | Some (tool, all) =>
      let key := resolveIdempotencyKey args context in
      cached <- read_cache key ;;
      match cached with
      | Some c => ret (ir_result c)
      | None => run_tool tool name all key context agentName args
      end
  end.

End Provider.
End LocalTool.
