(* ===== verification/RateLimit.v ===== *)
(** * Rate limits (policies/rate-limit.policy.ts, policies/distributed-rate-limit.policy.ts)

    The sliding window kept in the process: a map shared by every instance of the
    policy, from the key of tenant, user and tool to the times of the calls let
    through.  [evaluate] runs without yielding, so calls are a sequence. *)

From S2P Require Export LocalTool Num.

#[local] Open Scope string_scope.
#[local] Open Scope list_scope.
#[local] Open Scope Z_scope.

Module RateLimit.
Import LocalTool ScopeKey.

Definition windowMs : Z := 60000.

(** An instance: its limit and how often it sweeps. *)
Record RateLimitPolicy : Type := { maxCalls : num; sweepIntervalMs : num }.

Definition mk_policy (maxCallsPerMinute sweepInterval : option num) : RateLimitPolicy := {|
  maxCalls := default (num_of_Z 10) maxCallsPerMinute;
  sweepIntervalMs := default (num_of_Z 300000) sweepInterval |}.

(** The static members of the class. *)
Record Shared : Type := { history : gmap string (list Z); lastSweepAt : Z }.
Definition initial : Shared := {| history := ∅; lastSweepAt := 0 |}.

Definition fresh (now ts : Z) : bool := now - ts <? windowMs.

(** Calls still in the window ([timestamps.filter]). *)
Definition in_window (now : Z) (timestamps : list Z) : list Z := List.filter (fresh now) timestamps.

Definition sweepExpiredEntries (self : RateLimitPolicy) (now : Z) (s : Shared) : Shared :=
  if num_ltb (num_of_Z (now - lastSweepAt s)) (sweepIntervalMs self) then s
  else {| history := omap (fun timestamps => match in_window now timestamps with
                                             | [] => None
                                             | l => Some l
                                             end) (history s);
          lastSweepAt := now |}.

Definition rate_key (ctx : AgentContext) (toolName : string) : string :=
  scopeKey [opt_part (tenantId (security ctx)); opt_part (userId (security ctx)); PartStr toolName].

(** [Math.max(1, Math.ceil(ms / 1000))] *)
Definition retry_seconds (ms : Z) : Z := Z.max 1 (- ((- ms) / 1000)).

Definition denial (self : RateLimitPolicy) (toolName : string) (retryAfterSeconds : Z) : PolicyResult :=
  PDeny ("Rate limit exceeded for tool " +:+ in_quotes toolName +:+ ". Max allowed: " +:+
         num_to_string (maxCalls self) +:+ " calls per minute. Retry after " +:+
         Z_to_string retryAfterSeconds +:+ "s.") (Some (num_of_Z retryAfterSeconds)).

Definition evaluate (self : RateLimitPolicy) (ctx : AgentContext) (toolName : string) (now : Z) (s : Shared)
    : PolicyResult * Shared :=
  let key := rate_key ctx toolName in
  let s1 := sweepExpiredEntries self now s in
  let timestamps := in_window now (default [] (history s1 !! key)) in
  if num_le (maxCalls self) (num_of_Z (Z.of_nat (length timestamps))) then
    let oldest := match timestamps with t :: _ => t | [] => now end in
    (denial self toolName (retry_seconds (oldest + windowMs - now)),
     {| history := <[key := timestamps]> (history s1); lastSweepAt := lastSweepAt s1 |})
  else
    (PAllow None,
     {| history := <[key := timestamps ++ [now]]> (history s1); lastSweepAt := lastSweepAt s1 |}).

(** ** Sequences of calls *)

Record Call : Type := { c_policy : RateLimitPolicy; c_ctx : AgentContext; c_tool : string; c_now : Z }.

Definition call_key (c : Call) : string := rate_key (c_ctx c) (c_tool c).

Definition is_allow (r : PolicyResult) : bool := match r with PAllow _ => true | _ => false end.

(** The state after the calls, and the times of those let through, per key. *)
Fixpoint run (calls : list Call) (s : Shared) (log : string -> list Z) : Shared * (string -> list Z) :=
  match calls with
  | [] => (s, log)
  | c :: rest =>
      let '(r, s') := evaluate (c_policy c) (c_ctx c) (c_tool c) (c_now c) s in
      run rest s' (if is_allow r
                   then fun k => if bool_decide (k = call_key c) then log k ++ [c_now c] else log k
                   else log)
  end.

(** ** The window is enforced *)

Lemma in_window_app now l1 l2 : in_window now (l1 ++ l2) = in_window now l1 ++ in_window now l2.
Proof. apply List.filter_app. Qed.

(** What has left the window stays out of it. *)
Lemma in_window_later now later l : now <= later -> in_window later (in_window now l) = in_window later l.
Proof.
  intros H. induction l as [|t l IH]; [done|]. unfold in_window in *. simpl.
  destruct (fresh now t) eqn:Hn; simpl; destruct (fresh later t) eqn:Hl; rewrite ?IH; try done.
  unfold fresh in *. apply Z.ltb_lt in Hl. apply Z.ltb_ge in Hn. lia.
Qed.

(** The map and the log agree on the calls still in the window at [now]. *)
Definition tracks (now : Z) (s : Shared) (log : string -> list Z) : Prop :=
  forall k, in_window now (default [] (history s !! k)) = in_window now (log k).

Lemma tracks_later now later s log : now <= later -> tracks now s log -> tracks later s log.
Proof. intros H Ht k. by rewrite <- (in_window_later now later), Ht, in_window_later. Qed.

Lemma sweep_tracks self now s log : tracks now s log -> tracks now (sweepExpiredEntries self now s) log.
Proof.
  intros Ht k. rewrite <- Ht. unfold sweepExpiredEntries. destruct (num_ltb _ _); [done|]. simpl.
  rewrite lookup_omap. destruct (history s !! k) as [l|]; simpl; [|done].
  destruct (in_window now l) as [|t l'] eqn:Hl; [done|]. simpl default. rewrite <- Hl. by apply in_window_later.
Qed.

Lemma evaluate_spec self ctx tool now s log :
  tracks now s log ->
  let k := rate_key ctx tool in
  let n := Z.of_nat (length (in_window now (log k))) in
  let '(r, s') := evaluate self ctx tool now s in
  if num_le (maxCalls self) (num_of_Z n)
  then is_allow r = false /\ tracks now s' log
  else is_allow r = true /\
       tracks now s' (fun k' => if bool_decide (k' = k) then log k' ++ [now] else log k').
Proof.
  intros Ht. cbv zeta. unfold evaluate. cbv zeta.
  pose proof (sweep_tracks self now s log Ht) as Hs. rewrite (Hs (rate_key ctx tool)).
  destruct (num_le _ _); (split; [done|]); intros k'; simpl.
  - destruct (decide (k' = rate_key ctx tool)) as [->|Hne].
    + rewrite lookup_insert_eq. simpl. by rewrite in_window_later.
    + by rewrite lookup_insert_ne.
  - destruct (decide (k' = rate_key ctx tool)) as [->|Hne].
    + rewrite lookup_insert_eq, bool_decide_true by done. simpl.
      by rewrite !in_window_app, in_window_later.
    + rewrite lookup_insert_ne, bool_decide_false by done. apply Hs.
Qed.

(** At most [n] of the times lie in the window that starts at [from]. *)
Definition during (from : Z) (t : Z) : bool := (from <=? t) && (t <? from + windowMs).
Definition bounded (n : Z) (log : list Z) : Prop := forall from, Z.of_nat (count (during from) log) <= n.

Lemma count_during_fresh from now log :
  now < from + windowMs -> (count (during from) log <= length (in_window now log))%nat.
Proof.
  intros H. induction log as [|t log IH]; [done|]. rewrite count_cons. unfold in_window. simpl.
  destruct (during from t) eqn:Hd; simpl.
  - assert (fresh now t = true) as ->
      by (unfold fresh; apply andb_prop in Hd as [Hd%Z.leb_le _]; apply Z.ltb_lt; unfold windowMs in *; lia).
    simpl. unfold in_window in IH. lia.
  - destruct (fresh now t); simpl; unfold in_window in IH; lia.
Qed.

Lemma bounded_snoc n log now :
  bounded n log -> Z.of_nat (length (in_window now log)) < n -> bounded n (log ++ [now]).
Proof.
  intros Hb Hn from. rewrite count_app, count_cons, count_nil.
  destruct (during from now) eqn:Hd; [|specialize (Hb from); lia].
  apply andb_prop in Hd as [_ Hd%Z.ltb_lt]. pose proof (count_during_fresh from now log Hd). lia.
Qed.

(** Times never go back, from [now] on. *)
Fixpoint in_order (now : Z) (calls : list Call) : Prop :=
  match calls with
  | [] => True
  | c :: rest => now <= c_now c /\ in_order (c_now c) rest
  end.

Lemma num_le_Z a b : num_le (num_of_Z a) (num_of_Z b) = (a <=? b).
Proof. unfold num_le, num_of_Z. simpl. by rewrite !Z.mul_1_r. Qed.

Lemma run_bounded n calls now s log :
  in_order now calls -> tracks now s log -> (forall k, bounded n (log k)) ->
  Forall (fun c => exists m, maxCalls (c_policy c) = num_of_Z m /\ m <= n) calls ->
  forall k, bounded n ((run calls s log).2 k).
Proof.
  revert now s log. induction calls as [|c calls IH]; intros now s log Ho Ht Hb Hm; [done|].
  destruct Ho as [Hnow Ho]. apply Forall_cons in Hm as [(m & Hmax & Hle) Hm].
  apply (tracks_later _ _ _ _ Hnow) in Ht.
  pose proof (evaluate_spec (c_policy c) (c_ctx c) (c_tool c) (c_now c) s log Ht) as He. simpl.
  destruct (evaluate _ _ _ _ _) as [r s']. cbv zeta in He. rewrite Hmax, num_le_Z in He.
  destruct (Z.leb_spec m (Z.of_nat (length (in_window (c_now c) (log (rate_key (c_ctx c) (c_tool c))))))) as [Hd|Ha].
  - destruct He as [-> He]. by apply (IH (c_now c)).
  - destruct He as [-> He]. apply (IH (c_now c)); try done.
    intros k. case_bool_decide as Hk; [|done]. apply bounded_snoc; [done|]. subst k. unfold call_key. lia.
Qed.

(** C39. Whatever instances, users and tools call, in whatever order, at most [n] calls
    with one tenant, user and tool are let through in any minute, when no instance
    allows more than [n]; sweeping the map never changes that. *)
Theorem rate_limit_holds (n : Z) (calls : list Call) (start : Z) (k : string) (from : Z) :
  0 <= n -> in_order start calls ->
  Forall (fun c => exists m, maxCalls (c_policy c) = num_of_Z m /\ m <= n) calls ->
  Z.of_nat (count (during from) ((run calls initial (fun _ => [])).2 k)) <= n.
Proof.
  intros Hn Ho Hm. eapply run_bounded; try done.
  by intros k' from'.
Qed.

(** ** The hint is enough *)

Lemma retry_seconds_enough ms : ms <= retry_seconds ms * 1000.
Proof.
  unfold retry_seconds. pose proof (Z.div_mod (- ms) 1000 ltac:(lia)).
  pose proof (Z.mod_pos_bound (- ms) 1000 ltac:(lia)). lia.
Qed.

Lemma in_window_length now l : (length (in_window now l) <= length l)%nat.
Proof. apply List.filter_length_le. Qed.

(** Two sweeps and filters in a row. *)
Lemma swept_window self later s l k :
  history s !! k = Some l ->
  in_window later (default [] (history (sweepExpiredEntries self later s) !! k)) = in_window later l.
Proof.
  intros Hl. pose proof (sweep_tracks self later s (fun k => default [] (history s !! k))) as Ht.
  rewrite Ht by done. by rewrite Hl.
Qed.

(** Waiting as long as a denial says is enough: the next call of the same key,
    by the same instance with nothing in between, is let through, unless instances
    with larger limits filled the window beyond this one's. *)
Theorem retry_hint_is_enough self ctx tool now s n secs reason s1 :
  maxCalls self = num_of_Z n -> 1 <= n ->
  Z.of_nat (length (in_window now (default [] (history s !! rate_key ctx tool)))) <= n ->
  evaluate self ctx tool now s = (PDeny reason (Some (num_of_Z secs)), s1) ->
  is_allow (evaluate self ctx tool (now + secs * 1000) s1).1 = true.
Proof.
  intros Hmax Hn Hlen. set (k := rate_key ctx tool) in *.
  unfold evaluate at 1. fold k. cbv zeta.
  pose proof (sweep_tracks self now s (fun k => default [] (history s !! k)) (fun _ => eq_refl) k) as Hw.
  rewrite Hw. set (w := in_window now (default [] (history s !! k))) in *.
  destruct (num_le _ _) eqn:Hfull; [|done]. unfold denial. intros [= _ <- <-].
  rewrite Hmax, num_le_Z in Hfull. apply Z.leb_le in Hfull.
  destruct w as [|t l] eqn:Hwl; [simpl in Hfull; lia|].
  set (later := now + _). unfold evaluate. fold k. cbv zeta.
  rewrite (swept_window self later _ (t :: l)) by (simpl; apply lookup_insert_eq).
  assert (length (in_window later (t :: l)) <= length l)%nat as Hdrop.
  { unfold in_window. simpl. assert (fresh later t = false) as ->.
    - unfold fresh. apply Z.ltb_ge. pose proof (retry_seconds_enough (t + windowMs - now)). lia.
    - apply in_window_length. }
  rewrite Hmax, num_le_Z. destruct (Z.leb_spec n (Z.of_nat (length (in_window later (t :: l))))) as [H|H]; [|done].
  simpl in Hlen. lia.
Qed.

(** ** Concrete calls *)

Definition caller : AgentContext := {|
  security := {| userId := Some "u"; tenantId := Some "t"; roles := None; permissions := None |};
  ctx_sessionId := "s"; ctx_traceId := "x"; ctx_parentTraceId := None; ctx_rootTraceId := None;
  ctx_data := None; ctx_signal := false; deadline := None |}.

Definition two_a_minute : RateLimitPolicy := mk_policy (Some (num_of_Z 2)) None.

Definition calls : list Call :=
  map (fun t => {| c_policy := two_a_minute; c_ctx := caller; c_tool := "pay"; c_now := t |})
    [1000; 2000; 3000; 61500].

Example demo_window : (run calls initial (fun _ => [])).2 (rate_key caller "pay") = [1000; 2000; 61500].
Proof. by vm_compute. Qed.

Lemma rate_limit_holds_witness :
  in_order 0 calls /\
  Z.of_nat (count (during 1000) ((run calls initial (fun _ => [])).2 (rate_key caller "pay"))) <= 2.
Proof.
  assert (in_order 0 calls) as Ho by (simpl; lia). split; [exact Ho|].
  apply (rate_limit_holds 2 calls 0 (rate_key caller "pay") 1000); [lia|exact Ho|].
  unfold calls. repeat constructor; exists 2; done.
Defined.

Definition full : Shared := {| history := {[ rate_key caller "pay" := [1000; 2000] ]}; lastSweepAt := 0 |}.

Lemma retry_hint_is_enough_witness :
  exists reason s1, evaluate two_a_minute caller "pay" 3000 full = (PDeny reason (Some (num_of_Z 58)), s1) /\
  is_allow (evaluate two_a_minute caller "pay" (3000 + 58 * 1000) s1).1 = true.
Proof.
  eexists. eexists. split; [reflexivity|].
  eapply (retry_hint_is_enough two_a_minute caller "pay" 3000 full 2); [reflexivity|lia|by vm_compute|reflexivity].
Defined.

End RateLimit.

(** ** The limit shared through Redis (policies/distributed-rate-limit.policy.ts)

    The script runs on the server: its evaluation is a parameter, and its answer is
    whatever value comes back. *)

Module DistributedRateLimit.
Import LocalTool ScopeKey RateLimit.

Record DistributedRateLimitOptions : Type := {
  has_eval : bool;
  maxCallsPerWindow : option num;
  o_windowMs : option num;
  o_keyPrefix : option string;
}.

Record DistributedRateLimitPolicy : Type := { maxCalls : num; windowMs : num; keyPrefix : string }.

Definition must_be_positive (field : string) (n : num) : string :=
  "DistributedRateLimitPolicy: " +:+ field +:+ " must be a positive integer, received " +:+ num_to_string n +:+ ".".

Definition no_eval_message : string :=
  "DistributedRateLimitPolicy requires a Redis client exposing eval(), or an evalFn adapter. Without a server-side script the check-then-admit step is not atomic, so the limit would leak across concurrent callers — use RateLimitPolicy if a per-process limit is enough. For node-redis v4, pass evalFn: (script, keys, args) => client.eval(script, { keys, arguments: args.map(String) }).".

(** The constructor; [inr] is the message of the TypeError it throws. *)
Definition mk_policy (o : DistributedRateLimitOptions) : DistributedRateLimitPolicy + string :=
  if negb (has_eval o) then inr no_eval_message
  else
    let calls := default (num_of_Z 10) (maxCallsPerWindow o) in
    let window := default (num_of_Z 60000) (o_windowMs o) in
    match positive_integer calls, positive_integer window with
    | None, _ => inr (must_be_positive "maxCallsPerWindow" calls)
    | _, None => inr (must_be_positive "windowMs" window)
    | Some _, Some _ => inl {| maxCalls := calls; windowMs := window;
                               keyPrefix := default "agentic:ratelimit:" (o_keyPrefix o) |}
    end.

Definition redis_key (self : DistributedRateLimitPolicy) (ctx : AgentContext) (toolName : string) : string :=
  keyPrefix self +:+ scopeKey [opt_part (tenantId (security ctx)); opt_part (userId (security ctx)); PartStr toolName].

(** [Number(v)] on what Lua sends back: numbers and strings. *)
Definition lua_number (v : value) : num :=
  match v with VNum n => n | VStr s => str_to_num s | VNull => num_of_Z 0 | _ => NNaN end.

Definition item (l : list value) (i : nat) : value := default VUndef (l !! i).

(** [normalizeScriptResult]; [inr] is the message of its TypeError. *)
Definition normalizeScriptResult (raw : value) : (bool * num) + string :=
  match raw with
  | VArr l =>
      let retryAfterMs := lua_number (item l 1) in
      inl (bool_decide (lua_number (item l 0) = num_of_Z 1), if is_finite retryAfterMs then retryAfterMs else num_of_Z 0)
  | _ => inr ("DistributedRateLimitPolicy: expected the rate-limit script to return an array, received " +:+
              typeof raw +:+ ".")
  end.

Definition retry_seconds (retryAfterMs : num) : num :=
  num_max (num_of_Z 1) (num_ceil (num_mul retryAfterMs (NDec 1 (-3)))).

(** What the policy decides on the script's answer. *)
Definition decide_on (self : DistributedRateLimitPolicy) (toolName : string) (raw : value) : PolicyResult + string :=
  match normalizeScriptResult raw with
  | inr message => inr message
  | inl (true, _) => inl (PAllow None)
  | inl (false, retryAfterMs) =>
      let seconds := retry_seconds retryAfterMs in
      inl (PDeny ("Rate limit exceeded for tool " +:+ in_quotes toolName +:+ ". Max allowed: " +:+
                  num_to_string (maxCalls self) +:+ " calls per " +:+
                  num_to_string (num_round (num_mul (windowMs self) (NDec 1 (-3)))) +:+ "s. Retry after " +:+
                  num_to_string seconds +:+ "s.") (Some seconds))
  end.

Section Evaluate.
Context {W E : Type}.
(** Running the script with its keys and arguments, the member's id included. *)
Context (evalFn : string -> list num -> W -> outcome error value * W).
Local Open Scope eff_scope.

Definition evaluate (self : DistributedRateLimitPolicy) (ctx : AgentContext) (toolName : string)
    : M error E W PolicyResult :=
  raw <- lift (evalFn (redis_key self ctx toolName) [windowMs self; maxCalls self]) ;;
  match decide_on self toolName raw with
  | inl r => ret r
  | inr message => throw (NativeErr "TypeError" message)
  end.
End Evaluate.

Lemma retry_seconds_at_least ms : (exists m e, ms = NDec m e) -> num_le (num_of_Z 1) (retry_seconds ms) = true.
Proof.
  intros (m & e & ->). unfold retry_seconds, num_mul. pose proof (mk_num_number (m * 1) (e + -3)) as Hn.
  destruct (mk_num _ _) as [m2 e2| |[]]; [|done|done|done]. unfold num_ceil, num_max. cbn [num_of_Z].
  destruct (num_le (NDec 1 0) (num_of_Z (- dec_floor (- m2) e2))) eqn:Hle; unfold num_of_Z in *; by rewrite ?Hle.
Qed.

(** Only the answer [1] lets a call through; any other answer denies it with a wait of
    at least a second, and an answer that is no array is an error: the policy never
    fails open. *)
Theorem only_an_admission_allows self toolName raw r :
  decide_on self toolName raw = inl r ->
  (is_allow r = true <-> exists l, raw = VArr l /\ lua_number (item l 0) = num_of_Z 1) /\
  (forall reason secs, r = PDeny reason (Some secs) -> num_le (num_of_Z 1) secs = true).
Proof.
  unfold decide_on. destruct raw; simpl; try done. case_bool_decide as Ha; intros [= <-].
  - split; [split; [by eauto|done]|done].
  - split; [split; [done|by intros (l & [= <-] & Hl)]|]. intros reason secs [= _ <-].
    apply retry_seconds_at_least. destruct (is_finite (lua_number (item items 1))) eqn:Hf; [|by exists 0, 0].
    destruct (lua_number (item items 1)); try done. eauto.
Qed.
End DistributedRateLimit.
