(* ===== verification/Policies.v ===== *)
(** * Built-in policies on calls (policies/cost-limit, idempotency and logging .policy.ts)

    What three policies decide from the arguments of a call.  Arguments are the trees
    that argument validation lets through. *)

From S2P Require Export LocalTool Num.

#[local] Open Scope string_scope.
#[local] Open Scope list_scope.
#[local] Open Scope Z_scope.

(** ** Cost limits *)

Module CostLimit.
Import LocalTool.

(** *** [Number(v)] *)

(** Converting an array to a string throws when it meets an object that hides
    [toString]; arguments hold no functions. *)
Fixpoint string_throws (v : value) : bool :=
  match v with
  | VArr l => existsb string_throws l
  | VObj fs => is_some (obj_get fs "toString")
  | _ => false
  end.

(** [Number(String(v))] of an item, [null] and [undefined] being blank in an array. *)
Fixpoint item_number (v : value) : num :=
  match v with
  | VUndef | VNull => num_of_Z 0
  | VNum n => str_to_num (num_to_string n)
  | VStr s => str_to_num s
  | VArr [] => num_of_Z 0
  | VArr [x] => item_number x
  | _ => NNaN
  end.

(** [None] when the conversion throws a TypeError.  Two items make a text with a
    comma. *)
Definition to_number (v : value) : option num :=
  match v with
  | VUndef | VFun => Some NNaN
  | VNull => Some (num_of_Z 0)
  | VBool b => Some (num_of_Z (if b then 1 else 0))
  | VNum n => Some n
  | VStr s => Some (str_to_num s)
  | VDate t => Some (match t with Some t => num_of_Z t | None => NNaN end)
  | VArr l => if string_throws v then None else Some (item_number v)
  | VObj _ => if string_throws v then None else Some NNaN
  | VMap _ | VSet _ => Some NNaN
  end.

(** [n || 0] *)
Definition or_zero (n : num) : num := match n with NNaN => num_of_Z 0 | _ => n end.

Definition amount_of (rawVal : value) : option num :=
  match rawVal with
  | VNum n => Some n
  | _ => or_zero <$> to_number rawVal
  end.

Record CostLimitPolicy : Type := { paramName : string; autoAllowLimit : num; approvalLimit : num }.

Definition mk_policy (name : option string) (auto approval : option num) : CostLimitPolicy := {|
  paramName := default "amount" name;
  autoAllowLimit := default (num_of_Z 1000) auto;
  approvalLimit := default (num_of_Z 10000) approval |}.

Definition approval_reason (self : CostLimitPolicy) (toolName : string) (amount : num) : string :=
  "Transaction amount $" +:+ num_to_string amount +:+ " on tool " +:+ in_quotes toolName +:+
  " exceeds auto-allow limit ($" +:+ num_to_string (autoAllowLimit self) +:+ ") and requires human approval.".
Definition deny_reason (self : CostLimitPolicy) (toolName : string) (amount : num) : string :=
  "Transaction amount $" +:+ num_to_string amount +:+ " on tool " +:+ in_quotes toolName +:+
  " exceeds maximum safety limit ($" +:+ num_to_string (approvalLimit self) +:+ ").".

(** [None] when reading the amount throws. *)
Definition evaluate (self : CostLimitPolicy) (toolName : string) (args : obj) : option PolicyResult :=
  amount ← amount_of (default VUndef (obj_get args (paramName self)));
  Some (if num_le amount (autoAllowLimit self) then PAllow None
        else if num_le amount (approvalLimit self)
        then PRequireApproval (approval_reason self toolName amount) None None
        else PDeny (deny_reason self toolName amount) None).

(** How strict an outcome is; a throw stops the call. *)
Definition strictness (r : option PolicyResult) : nat :=
  match r with
  | Some (PAllow _) => 0
  | Some (PRequireApproval _ _ _) => 1
  | Some (PDeny _ _) => 2
  | None => 3
  end.

Definition with_amount (self : CostLimitPolicy) (n : num) (rest : obj) : obj := (paramName self, VNum n) :: rest.

Lemma evaluate_number self toolName n rest :
  strictness (evaluate self toolName (with_amount self n rest)) =
  (if num_le n (autoAllowLimit self) then 0 else if num_le n (approvalLimit self) then 1 else 2)%nat.
Proof.
  unfold evaluate, with_amount. simpl. rewrite bool_decide_true by done. simpl.
  by destruct (num_le n _), (num_le n (approvalLimit self)).
Qed.

(** Splitting hairs never helps: of two amounts the larger is never treated more
    leniently, an amount that is not a number is denied, and each amount is allowed,
    sent to approval or denied exactly by where it lies between the two limits. *)
Theorem cost_limit_is_monotone self toolName a b rest :
  num_le a b = true ->
  (strictness (evaluate self toolName (with_amount self a rest)) <=
   strictness (evaluate self toolName (with_amount self b rest)))%nat /\
  strictness (evaluate self toolName (with_amount self NNaN rest)) = 2%nat /\
  (strictness (evaluate self toolName (with_amount self b rest)) = 0%nat <-> num_le b (autoAllowLimit self) = true).
Proof.
  intros Hab. rewrite !evaluate_number. split_and!; [|by destruct (autoAllowLimit self), (approvalLimit self)|].
  - pose proof (num_le_trans a b (autoAllowLimit self) Hab) as H1.
    pose proof (num_le_trans a b (approvalLimit self) Hab) as H2.
    destruct (num_le b (autoAllowLimit self)); [by rewrite H1|].
    destruct (num_le b (approvalLimit self)); [rewrite H2 by done|];
      destruct (num_le a (autoAllowLimit self)); try lia; destruct (num_le a (approvalLimit self)); lia.
  - destruct (num_le b (autoAllowLimit self)); [done|]. by destruct (num_le b (approvalLimit self)).
Qed.

Definition standard : CostLimitPolicy := mk_policy None None None.

Lemma cost_limit_is_monotone_witness :
  strictness (evaluate standard "pay" (with_amount standard (num_of_Z 500) [])) = 0%nat /\
  (strictness (evaluate standard "pay" (with_amount standard (num_of_Z 500) [])) <=
   strictness (evaluate standard "pay" (with_amount standard (num_of_Z 5000) [])))%nat.
Proof.
  split; [by vm_compute|].
  apply (cost_limit_is_monotone standard "pay" (num_of_Z 500) (num_of_Z 5000) []). by vm_compute.
Defined.

(** An amount no one can read counts as nothing. *)
Example unreadable_amount_allowed :
  evaluate standard "pay" [("amount", VStr "50,000")] = Some (PAllow None) /\
  evaluate standard "pay" [("amount", VStr "50000")] =
    Some (PDeny (deny_reason standard "pay" (num_of_Z 50000)) None).
Proof. by vm_compute. Qed.
End CostLimit.

(** ** Required idempotency keys *)

Module IdempotencyPolicy.
Import LocalTool.

Record IdempotencyPolicy : Type := {
  keyGenerator : option (AgentContext -> string -> obj -> option value);
  required : bool;
}.

Definition mk_policy (generator : option (AgentContext -> string -> obj -> option value)) (req : option bool)
    : IdempotencyPolicy := {| keyGenerator := generator; required := default true req |}.

(** Truthiness of a value read as a key. *)
Definition truthy_value (v : option value) : bool :=
  match v with
  | None | Some VUndef | Some VNull | Some (VBool false) => false
  | Some (VStr s) => truthy s
  | Some (VNum n) => negb (bool_decide (n = num_of_Z 0) || bool_decide (n = NNaN))
  | _ => true
  end.

(** [a || b] *)
Definition or_value (a b : option value) : option value := if truthy_value a then a else b.

Definition key_of (self : IdempotencyPolicy) (ctx : AgentContext) (toolName : string) (args : option obj) : option value :=
  let safeArgs := default [] args in
  match keyGenerator self with
  | Some f => f ctx toolName safeArgs
  | None => or_value (obj_get safeArgs "idempotencyKey") (ctx_data ctx ≫= (fun d => obj_get d "idempotencyKey"))
  end.

Definition evaluate (self : IdempotencyPolicy) (ctx : AgentContext) (toolName : string) (args : option obj)
    : PolicyResult :=
  if required self && negb (truthy_value (key_of self ctx toolName args))
  then PDeny ("Idempotency key required for tool " +:+ in_quotes toolName +:+ " but was not provided.") None
  else PAllow None.

End IdempotencyPolicy.

(** ** Logging *)

Module Logging.
Import Audit LocalTool.

Record LoggingPolicy : Type := {
  includeArgs : bool;
  includeContext : bool;
  sensitiveFields : list string;
}.

Definition mk_policy (args context : option bool) (fields : option (list string)) : LoggingPolicy := {|
  includeArgs := default true args;
  includeContext := default true context;
  sensitiveFields := default [] fields |}.

(** [sanitizeArgs] masks like the audit trail: records are rebuilt, arrays kept. *)
Definition sanitizeArgs (self : LoggingPolicy) (args : obj) : obj :=
  match sensitiveFields self with [] => args | s => redact args s end.

Definition opt_strs (o : option (list string)) : value :=
  match o with Some l => VArr (map VStr l) | None => VUndef end.

(** The entry handed to the logger at a time. *)
Definition logData (self : LoggingPolicy) (ctx : AgentContext) (toolName : string) (args : option obj) (now : Z) : obj :=
  [("type", VStr "tool_execution"); ("toolName", VStr toolName); ("sessionId", VStr (ctx_sessionId ctx));
   ("traceId", VStr (ctx_traceId ctx)); ("timestamp", VStr (iso_string now))] ++
  (if includeContext self
   then [("userId", opt_str (userId (security ctx))); ("tenantId", opt_str (tenantId (security ctx)));
         ("roles", opt_strs (roles (security ctx)))]
   else []) ++
  (if includeArgs self then match args with Some a => [("args", VObj (sanitizeArgs self a))] | None => [] end else []).

Section Evaluate.
Context {W : Type}.
(** The logger, which may throw. *)
Context (logger : string -> obj -> W -> outcome error unit * W) (clock : W -> Z).
Local Open Scope eff_scope.

Definition evaluate (self : LoggingPolicy) (ctx : AgentContext) (toolName : string) (args : option obj)
    : M error (string * obj) W PolicyResult :=
  now <- ask clock ;;
  let message := "[Tool Execution] " +:+ toolName in
  let data := logData self ctx toolName args now in
  emit (message, data) ;; lift (logger message data) ;; ret (PAllow None).
End Evaluate.
End Logging.
