(* ===== verification/StateStore.v ===== *)
(** * State in memory and deferred writes (stores/in-memory/in-memory-state.store.ts, utils/deferred-write-queue.ts)

    The key-value store with expiry, refined to a map of what is live at a time, and
    the queue that runs persistence writes behind the caller's back. *)

From S2P Require Export Js.

#[local] Open Scope string_scope.
#[local] Open Scope list_scope.
#[local] Open Scope Z_scope.

Module StateStore.

(** Times are milliseconds, lifetimes whole seconds. *)
Record entry : Type := { e_value : value; expiresAt : option Z }.
Notation storage := (gmap string entry).

(** [entry.expiresAt && Date.now() > entry.expiresAt] *)
Definition expired (now : Z) (e : entry) : bool :=
  match expiresAt e with Some x => negb (x =? 0) && (x <? now) | None => false end.

(** [ttlSeconds ? Date.now() + ttlSeconds * 1000 : undefined] *)
Definition expiry (now : Z) (ttlSeconds : option Z) : option Z :=
  match ttlSeconds with Some t => if t =? 0 then None else Some (now + t * 1000) | None => None end.

(** [None] is [null]. *)
Definition get (key : string) (now : Z) (s : storage) : option value * storage :=
  match s !! key with
  | None => (None, s)
  | Some e => if expired now e then (None, delete key s) else (Some (e_value e), s)
  end.

Definition set (key : string) (v : value) (ttlSeconds : option Z) (now : Z) (s : storage) : storage :=
  <[key := {| e_value := v; expiresAt := expiry now ttlSeconds |}]> s.

Definition setIfNotExists (key : string) (v : value) (ttlSeconds : option Z) (now : Z) (s : storage) : bool * storage :=
  match s !! key with
  | Some e => if negb (expired now e) then (false, s) else (true, set key v ttlSeconds now s)
  | None => (true, set key v ttlSeconds now s)
  end.

Definition delete_ (key : string) (s : storage) : storage := delete key s.

Definition clear (prefix : option string) (s : storage) : storage :=
  if truthy_opt prefix then filter (fun kv => starts_with (default EmptyString prefix) kv.1 = false) s else ∅.

(** ** What is live *)

Definition live (now : Z) (s : storage) : gmap string value :=
  omap (fun e => if expired now e then None else Some (e_value e)) s.

Lemma lookup_live now s k :
  live now s !! k = match s !! k with Some e => if expired now e then None else Some (e_value e) | None => None end.
Proof. unfold live. rewrite lookup_omap. by destruct (s !! k). Qed.

Lemma live_dead now s k : live now s !! k = None -> delete k (live now s) = live now s.
Proof. apply delete_id. Qed.

Lemma live_delete now s k : live now (delete k s) = delete k (live now s).
Proof.
  apply map_eq. intros k'. rewrite lookup_live. destruct (decide (k = k')) as [->|Hne].
  - by rewrite !lookup_delete_eq.
  - by rewrite !lookup_delete_ne, lookup_live.
Qed.

Lemma expired_later now later e : now <= later -> expired now e = true -> expired later e = true.
Proof.
  unfold expired. destruct (expiresAt e) as [x|]; [|done]. intros Hle [Hx Ht]%andb_prop.
  rewrite Hx. simpl. apply Z.ltb_lt in Ht. apply Z.ltb_lt. lia.
Qed.

(** The store behaves as the map of its live entries: reading looks up there and
    changes nothing anyone can see then or later, writing with a lifetime of zero or
    none, or a positive one, inserts, [setIfNotExists] inserts exactly when the key is
    not live and says so, deleting and clearing remove, and time only removes. *)
Theorem store_is_its_live_map key v ttl now s :
  (get key now s).1 = live now s !! key /\
  (forall later, now <= later -> live later (get key now s).2 = live later s) /\
  (default 0 ttl >= 0 -> now > 0 -> live now (set key v ttl now s) = <[key := v]> (live now s)) /\
  ((setIfNotExists key v ttl now s).1 = true <-> live now s !! key = None) /\
  (setIfNotExists key v ttl now s).2 = (if (setIfNotExists key v ttl now s).1 then set key v ttl now s else s) /\
  live now (delete_ key s) = delete key (live now s) /\
  live now (clear None s) = ∅ /\
  (forall later, now <= later -> live later s ⊆ live now s).
Proof.
  split_and!.
  - unfold get. rewrite lookup_live. destruct (s !! key) as [e|]; [|done]. by destruct (expired now e).
  - intros later Hle. unfold get. destruct (s !! key) as [e|] eqn:Hk; [|done].
    destruct (expired now e) eqn:He; [|done]. simpl. rewrite live_delete. apply live_dead.
    by rewrite lookup_live, Hk, (expired_later now later).
  - intros Ht Hn. apply map_eq. intros k. rewrite lookup_live. unfold set. destruct (decide (key = k)) as [->|Hne].
    + rewrite !lookup_insert_eq. unfold expired, expiry. destruct ttl as [t|]; [|done].
      destruct (Z.eqb_spec t 0); [done|]. simpl in *. destruct (Z.ltb_spec (now + t * 1000) now); [lia|].
      by rewrite andb_false_r.
    + by rewrite !lookup_insert_ne, lookup_live by done.
  - rewrite lookup_live. unfold setIfNotExists. destruct (s !! key) as [e|]; [|done]. by destruct (expired now e).
  - unfold setIfNotExists. destruct (s !! key) as [e|]; [|done]. by destruct (expired now e).
  - apply live_delete.
  - done.
  - intros later Hle. apply map_subseteq_spec. intros k x. rewrite !lookup_live. destruct (s !! k) as [e|]; [|done].
    destruct (expired now e) eqn:He; [by rewrite (expired_later now later)|]. by destruct (expired later e).
Qed.

(** ** One winner at a time *)

Inductive op : Type :=
| OGet (key : string)
| OSet (key : string) (v : value) (ttl : option Z)
| OSetIfNotExists (key : string) (v : value) (ttl : option Z)
| ODelete (key : string)
| OClear (prefix : option string).

Definition step (o : op) (now : Z) (s : storage) : storage :=
  match o with
  | OGet k => (get k now s).2
  | OSet k v ttl => set k v ttl now s
  | OSetIfNotExists k v ttl => (setIfNotExists k v ttl now s).2
  | ODelete k => delete_ k s
  | OClear p => clear p s
  end.

(** Operations that leave a claim on a key alone. *)
Definition leaves (key : string) (o : op) : bool :=
  match o with
  | OGet _ | OSetIfNotExists _ _ _ => true
  | OSet k _ _ | ODelete k => negb (bool_decide (k = key))
  | OClear p => truthy_opt p && negb (starts_with (default EmptyString p) key)
  end.

Fixpoint steps (ops : list (op * Z)) (s : storage) : storage :=
  match ops with [] => s | (o, now) :: rest => steps rest (step o now s) end.

Fixpoint in_order (now : Z) (ops : list (op * Z)) (last : Z) : Prop :=
  match ops with [] => now <= last | (_, t) :: rest => now <= t /\ in_order t rest last end.

(** A claim that ends at [e] ([None]: never) still holds the key at a time. *)
Definition holds (e : option Z) (t : Z) : Prop :=
  match e with None => True | Some x => x = 0 \/ t <= x end.

Lemma holds_earlier e t t' : t <= t' -> holds e t' -> holds e t.
Proof. destruct e; simpl; lia. Qed.

Lemma holds_unexpired en t : expired t en = false <-> holds (expiresAt en) t.
Proof.
  unfold expired, holds. destruct (expiresAt en) as [x|]; [|done].
  destruct (Z.eqb_spec x 0), (Z.ltb_spec x t); simpl; split; try done; lia.
Qed.

Lemma step_keeps o t s key en :
  leaves key o = true -> s !! key = Some en -> holds (expiresAt en) t -> step o t s !! key = Some en.
Proof.
  intros Hl Hk Hh. apply holds_unexpired in Hh.
  destruct o as [k|k v ttl|k v ttl|k|p]; simpl in *.
  - unfold get. destruct (s !! k) as [e|] eqn:He; [|done]. destruct (decide (k = key)) as [->|Hne].
    + rewrite Hk in He. injection He as <-. by rewrite Hh.
    + destruct (expired t e); [|done]. simpl. by rewrite lookup_delete_ne.
  - unfold set. apply negb_true_iff, bool_decide_eq_false in Hl. by rewrite lookup_insert_ne.
  - unfold setIfNotExists, set. destruct (decide (k = key)) as [->|Hne]; [by rewrite Hk, Hh|].
    destruct (s !! k) as [e|]; [destruct (expired t e)|]; simpl; by rewrite ?lookup_insert_ne.
  - apply negb_true_iff, bool_decide_eq_false in Hl. unfold delete_. by rewrite lookup_delete_ne.
  - apply andb_prop in Hl as [Hp Hl]. unfold clear. rewrite Hp. apply negb_true_iff in Hl.
    by apply map_lookup_filter_Some.
Qed.

(** [setIfNotExists] is a lock: after a claim that won, and as long as nobody
    writes, deletes or clears the key, every further claim loses until the claim's
    lifetime is over, whatever is read or claimed in between; a claim without a
    lifetime is never lost. *)
Theorem claim_excludes_others key v ttl t0 s ops v' ttl' t :
  (setIfNotExists key v ttl t0 s).1 = true ->
  Forall (fun o => leaves key o.1 = true) ops -> in_order t0 ops t -> holds (expiry t0 ttl) t ->
  (setIfNotExists key v' ttl' t (steps ops (setIfNotExists key v ttl t0 s).2)).1 = false.
Proof.
  intros Hwin Hl Ho Hh.
  assert ((setIfNotExists key v ttl t0 s).2 !! key = Some {| e_value := v; expiresAt := expiry t0 ttl |}) as Hk.
  { unfold setIfNotExists in *. destruct (s !! key) as [e|]; [destruct (expired t0 e); [|done]|];
      simpl; apply lookup_insert_eq. }
  set (en := {| e_value := v; expiresAt := expiry t0 ttl |}) in *.
  assert (forall now s, in_order now ops t -> s !! key = Some en ->
            (setIfNotExists key v' ttl' t (steps ops s)).1 = false) as Hgen; [|by apply (Hgen t0)].
  clear Ho Hk Hwin s. induction Hl as [|[o t1] ops Ho _ IH]; intros now s; simpl.
  - intros _ Hk. unfold setIfNotExists. rewrite Hk. by rewrite (proj2 (holds_unexpired en t)).
  - intros [_ Hord] Hk. apply (IH t1); [done|]. apply step_keeps; [done|done|].
    eapply holds_earlier; [|exact Hh]. clear -Hord. revert t1 Hord. induction ops as [|[o t2] ops IH]; intros t1; simpl; [done|].
    intros [Hle Hord%IH]. lia.
Qed.

Example demo_lock :
  let '(won, s) := setIfNotExists "job" (VStr "a") (Some 10) 1000 ∅ in
  won = true /\ (setIfNotExists "job" (VStr "b") (Some 10) 11000 s).1 = false /\
  (setIfNotExists "job" (VStr "b") (Some 10) 11001 s).1 = true.
Proof. by vm_compute. Qed.

Lemma claim_excludes_others_witness :
  (setIfNotExists "job" (VStr "a") (Some 10) 1000 ∅).1 = true /\
  (setIfNotExists "job" (VStr "b") None 9000
     (steps [(OGet "job", 2000); (ODelete "x", 3000)] (setIfNotExists "job" (VStr "a") (Some 10) 1000 ∅).2)).1 = false.
Proof.
  assert ((setIfNotExists "job" (VStr "a") (Some 10) 1000 ∅).1 = true) as Hw by by vm_compute.
  split; [exact Hw|]. apply (claim_excludes_others "job" (VStr "a") (Some 10) 1000 ∅ _ (VStr "b") None 9000 Hw).
  - by repeat constructor.
  - simpl. lia.
  - right. by vm_compute.
Defined.

Lemma store_is_its_live_map_witness :
  1000 <= 5000 /\ live 5000 (get "job" 1000 (set "job" (VStr "a") (Some 2) 1000 ∅)).2 =
                  live 5000 (set "job" (VStr "a") (Some 2) 1000 ∅).
Proof.
  split; [lia|].
  by apply (store_is_its_live_map "job" VNull None 1000 (set "job" (VStr "a") (Some 2) 1000 ∅)).
Defined.

End StateStore.

(** ** Deferred writes

    Writes are settled by the program's event loop: a run of the queue is a sequence
    of events, and [tail] is the chain of writes not settled yet. *)

Module DeferredWrites.

Section Queue.
Context {Err : Type}.

(** [waiting] and [running] are the links of [tail]; [flushes] the calls of [flush]
    waiting for the writes queued before them. *)
Record queue : Type := {
  waiting : list nat;
  running : option nat;
  failure : option Err;
  settled : nat;
}.

(** A queue over writes queued behind those of a previous turn. *)
Definition new_queue : queue := {| waiting := []; running := None; failure := None; settled := 0 |}.

Inductive event : Type :=
| Enqueued (w : nat)
| Started (w : nat)
| Settled (w : nat) (e : option Err)
| Flushed (e : option Err).

(** [this.failure ??= { error }] *)
Definition keep_first (f : option Err) (e : option Err) : option Err := orelse f e.

Inductive qstep : queue -> event -> queue -> Prop :=
| step_enqueue q w :
    qstep q (Enqueued w) {| waiting := waiting q ++ [w]; running := running q; failure := failure q; settled := settled q |}
| step_start q w rest :
    running q = None -> waiting q = w :: rest ->
    qstep q (Started w) {| waiting := rest; running := Some w; failure := failure q; settled := settled q |}
| step_settle q w e :
    running q = Some w ->
    qstep q (Settled w e) {| waiting := waiting q; running := None; failure := keep_first (failure q) e;
                             settled := S (settled q) |}
(** [flush] resumes when the writes queued before it have settled. *)
| step_flush q :
    running q = None -> waiting q = [] ->
    qstep q (Flushed (failure q)) {| waiting := waiting q; running := running q; failure := None; settled := settled q |}.

Inductive qrun : list event -> queue -> Prop :=
| qrun_start : qrun [] new_queue
| qrun_step l q e q' : qrun l q -> qstep q e q' -> qrun (l ++ [e]) q'.

Definition enqueued (l : list event) : list nat := filter_map (fun e => match e with Enqueued w => Some w | _ => None end) l.
Definition started (l : list event) : list nat := filter_map (fun e => match e with Started w => Some w | _ => None end) l.
Definition done_writes (l : list event) : list nat := filter_map (fun e => match e with Settled w _ => Some w | _ => None end) l.

(** The first error since the last flush. *)
Definition pending_error (l : list event) : option Err :=
  fold_left (fun f e => match e with Settled _ e => keep_first f e | Flushed _ => None | _ => f end) l None.

(** Deferred writes run in the order they were queued and one at a time: at any
    point those started are the first ones queued, all settled but perhaps the last;
    a failed write stops no later one; and a flush that finds all settled reports the
    first failure since the previous flush. *)
Theorem writes_run_in_order l q :
  qrun l q ->
  enqueued l = started l ++ waiting q /\
  started l = done_writes l ++ match running q with Some w => [w] | None => [] end /\
  failure q = pending_error l /\
  (forall r q', qstep q (Flushed r) q' -> r = pending_error l /\ enqueued l = done_writes l).
Proof.
  intros Hr.
  assert (enqueued l = started l ++ waiting q /\
          started l = done_writes l ++ match running q with Some w => [w] | None => [] end /\
          failure q = pending_error l) as (H1 & H2 & H3).
  { induction Hr as [|l q e q' _ (H1 & H2 & H3) Hs]; [done|].
    unfold enqueued, started, done_writes, pending_error in *. rewrite !filter_map_app, fold_left_app. simpl.
    destruct Hs as [q w|q w rest Hn Hw|q w e Hn|q Hn Hw]; simpl; rewrite ?app_nil_r.
    - split_and!; [by rewrite H1, app_assoc|done|done].
    - rewrite Hw in H1. rewrite Hn in H2. split_and!; [by rewrite H1, <- app_assoc|by rewrite H2, app_nil_r|done].
    - rewrite Hn in H2. split_and!; [done|done|by rewrite H3].
    - rewrite Hn, app_nil_r in H2. split_and!; [done|by rewrite Hn, app_nil_r|done]. }
  split_and!; [done|done|done|]. intros r q' Hs. inversion Hs as [| | |? Hn Hw]; subst.
  split; [done|]. by rewrite H1, H2, Hn, Hw, !app_nil_r.
Qed.

(** Whatever is queued, the queue can always go on until everything has settled. *)
Lemma queue_drains l q : qrun l q -> exists l' q', qrun (l ++ l') q' /\ waiting q' = [] /\ running q' = None.
Proof.
  intros Hr. remember (length (waiting q)) as n eqn:Hn. revert l q Hr Hn. induction n as [|n IH]; intros l q Hr Hn.
  - assert (waiting q = []) as Hw by by apply nil_length_inv. destruct (running q) as [w|] eqn:Hrun.
    + eexists [Settled w None], _. split; [eapply qrun_step; [exact Hr|by apply step_settle]|]. done.
    + exists [], q. by rewrite app_nil_r.
  - destruct (waiting q) as [|w rest] eqn:Hw; [done|].
    assert (exists l1 q1, qrun (l ++ l1) q1 /\ waiting q1 = w :: rest /\ running q1 = None) as (l1 & q1 & Hr1 & Hw1 & Hrun1).
    { destruct (running q) as [w0|] eqn:Hrun; [|exists [], q; by rewrite app_nil_r].
      eexists [Settled w0 None], _. split; [eapply qrun_step; [exact Hr|by apply step_settle]|done]. }
    edestruct (IH ((l ++ l1) ++ [Started w])) as (l2 & q2 & Hr2 & H2).
    + eapply qrun_step; [exact Hr1|]. by apply step_start.
    + simpl in *. lia.
    + exists (l1 ++ [Started w] ++ l2), q2. by rewrite !app_assoc.
Qed.
End Queue.
Arguments queue : clear implicits.
Arguments event : clear implicits.

Lemma writes_run_in_order_witness :
  exists q : queue string,
    qrun [Enqueued 1; Enqueued 2; Started 1; Settled 1 (Some "down"); Started 2; Settled 2 (Some "late")] q /\
    failure q = Some "down".
Proof.
  eexists. assert (qrun [Enqueued 1; Enqueued 2; Started 1; Settled 1 (Some "down"); Started 2; Settled 2 (Some "late")]
    {| waiting := []; running := None; failure := Some "down"; settled := 2 |}) as Hr.
  { pose proof (qrun_step _ _ _ _ (qrun_start (Err := string)) (step_enqueue _ 1)) as H1.
    pose proof (qrun_step _ _ _ _ H1 (step_enqueue _ 2)) as H2.
    pose proof (qrun_step _ _ _ _ H2 ltac:(by eapply (step_start _ 1%nat [2%nat]))) as H3.
    pose proof (qrun_step _ _ _ _ H3 ltac:(by eapply (step_settle _ 1%nat (Some "down")))) as H4.
    pose proof (qrun_step _ _ _ _ H4 ltac:(by eapply (step_start _ 2%nat []))) as H5.
    pose proof (qrun_step _ _ _ _ H5 ltac:(by eapply (step_settle _ 2%nat (Some "late")))) as H6. exact H6. }
  split; [exact Hr|]. by apply (writes_run_in_order _ _ Hr).
Defined.

End DeferredWrites.
