(* ===== verification/LocalToolGuard.v ===== *)
(** * The policy chain guards the method

    What a run of [LocalTool.execute] can do, over every policy, store and method. *)

From S2P Require Export LocalTool.

#[local] Open Scope string_scope.
#[local] Open Scope list_scope.
#[local] Open Scope Z_scope.
#[local] Open Scope eff_scope.

Module Guard.
Import Audit Approvals ScopeKey LocalTool.

(** ** Reading a run *)

Section Events.
Context {I : Type}.
Implicit Types l : list (@event I).

Definition evaluation (e : @event I) : option (PolicyConstructor * PolicyResult) :=
  match e with Evaluated c _ r => Some (c, r) | _ => None end.
Definition evaluations l : list (PolicyConstructor * PolicyResult) := filter_map evaluation l.

Definition is_invoked (e : @event I) : bool := match e with Invoked _ _ => true | _ => false end.
Definition is_saved (e : @event I) : bool := match e with Saved _ => true | _ => false end.
Definition is_evaluated (e : @event I) : bool := is_some (evaluation e).

(** Events of the audit trail only. *)
Definition quiet (e : @event I) : Prop := match e with AuditRecorded _ => True | _ => False end.
(** Events of a policy chain on some arguments. *)
Definition of_chain (args : obj) (e : @event I) : Prop :=
  match e with AuditRecorded _ => True | Evaluated _ a _ => a = args | _ => False end.
(** Events that decide nothing and run nothing. *)
Definition of_rails (e : @event I) : Prop :=
  match e with AuditRecorded _ | EvaluatedOutput _ _ _ | CacheWritten _ => True | _ => False end.

Lemma evaluations_app l1 l2 : evaluations (l1 ++ l2) = evaluations l1 ++ evaluations l2.
Proof. apply filter_map_app. Qed.

Lemma evaluations_cons c a r l : evaluations (Evaluated c a r :: l) = (c, r) :: evaluations l.
Proof. done. Qed.

Lemma evaluations_nil l : Forall (fun e => evaluation e = None) l -> evaluations l = [].
Proof. unfold evaluations. induction 1 as [|e l He _ IH]; simpl; [done|]. by rewrite He. Qed.

Lemma quiet_evaluations l : Forall quiet l -> evaluations l = [].
Proof. intros H. apply evaluations_nil. eapply Forall_impl; [exact H|]. by intros []. Qed.
Lemma rails_evaluations l : Forall of_rails l -> evaluations l = [].
Proof. intros H. apply evaluations_nil. eapply Forall_impl; [exact H|]. by intros []. Qed.
Lemma quiet_chain args l : Forall quiet l -> Forall (of_chain args) l.
Proof. intros H. eapply Forall_impl; [exact H|]. by intros []. Qed.
Lemma quiet_rails l : Forall quiet l -> Forall of_rails l.
Proof. intros H. eapply Forall_impl; [exact H|]. by intros []. Qed.
Lemma chain_count (p : @event I -> bool) args l :
  (forall e, of_chain args e -> p e = false) -> Forall (of_chain args) l -> count p l = O.
Proof. intros Hp H. apply count_zero. eapply Forall_impl; [exact H|done]. Qed.
Lemma rails_count (p : @event I -> bool) l :
  (forall e, of_rails e -> p e = false) -> Forall of_rails l -> count p l = O.
Proof. intros Hp H. apply count_zero. eapply Forall_impl; [exact H|done]. Qed.

Lemma evaluations_elem c a r l : Evaluated c a r ∈ l -> (c, r) ∈ evaluations l.
Proof.
  intros H. unfold evaluations. induction l as [|e l IH]; [by apply elem_of_nil in H|].
  apply elem_of_cons in H as [<-|H]; simpl; [by left|]. destruct (evaluation e); [right|]; auto.
Qed.
End Events.

(** ** Reference: what a chain of answers amounts to *)

Section Answers.
Variable has_addSignature : bool.

(** Why an answer refuses the call: a denial, or approval terms that cannot be kept. *)
Definition refusal (c : PolicyConstructor) (r : PolicyResult) : option string :=
  match r with
  | PDeny reason _ => Some reason
  | PRequireApproval _ _ required =>
      (fun m => "Approval cannot be requested: " +:+ m +:+ ".") <$>
        misconfiguration (pc_name c) required has_addSignature
  | PAllow _ => None
  end.

Definition request_of (x : PolicyConstructor * PolicyResult) : option ApprovalRequest :=
  match x.2 with
  | PRequireApproval reason ttl required =>
      Some {| rq_policyName := pc_name x.1; rq_reason := reason;
              rq_requiredApprovals := num_to_Z (coalesce required (num_of_Z 1)); rq_ttlSeconds := ttl |}
  | _ => None
  end.
Definition requests_of (answers : list (PolicyConstructor * PolicyResult)) : list ApprovalRequest :=
  filter_map request_of answers.

Definition granted (x : PolicyConstructor * PolicyResult) : Prop := refusal x.1 x.2 = None.
Definition allows (x : PolicyConstructor * PolicyResult) : Prop :=
  match x.2 with PAllow _ => True | _ => False end.

Lemma granted_no_request answers :
  Forall granted answers -> requests_of answers = [] -> Forall allows answers.
Proof.
  unfold requests_of. induction 1 as [|[c r] l Hg _ IH]; simpl; [constructor|].
  destruct r; simpl; [intros H; constructor; [done|auto]|done|done].
Qed.
End Answers.

Section Rules.
Context {W I T : Type} `{!EqDecision I}.
Context (self : @LocalToolProvider W) (host : @ProviderHost W I T).

Notation M := (M error (@event I) W).
Notation has_sign := (is_some (store_addSignature (ApprovalStore := approvalStore self))).

Lemma record_audit_wp t ctx body w :
  wp (record_audit self t ctx body : M unit) w (fun o _ l =>
    Forall quiet l /\ (o = Ret tt \/ o = Diverge)).
Proof.
  unfold record_audit. destruct (audit self) eqn:Ha; [|wp_step; split; [constructor|by left]].
  wp_steps. split; [by repeat constructor|]. by eapply record_optional_no_throw.
Qed.

Lemma record_now_wp ctx body w :
  wp (record_now self host ctx body : M unit) w (fun o _ l =>
    Forall quiet l /\ (o = Ret tt \/ o = Diverge)).
Proof. unfold record_now. wp_steps. apply record_audit_wp. Qed.

(** Recording, then going on. *)
Lemma record_now_then {A} ctx body (k : M A) w (Q : outcome error A -> W -> list (@event I) -> Prop) :
  (forall l w', Forall quiet l -> wp k w' (fun o w'' l' => Q o w'' (l ++ l'))) ->
  (forall l w', Forall quiet l -> Q Diverge w' l) ->
  wp (record_now self host ctx body ;; k) w Q.
Proof.
  intros Hk Hd. wp_step. eapply wp_mono; [apply record_now_wp|].
  intros o w' l [Hl [->| ->]]; simpl; auto.
Qed.

(** *** The chain *)

Definition chain_post (cs : list PolicyConstructor) (requests : list ApprovalRequest) (args : obj)
    (o : outcome error (ToolExecutionResult + list ApprovalRequest)) (l : list (@event I)) : Prop :=
  Forall (of_chain args) l /\
  match o with
  | Ret (inr requests') =>
      map fst (evaluations l) = cs /\ Forall (granted has_sign) (evaluations l) /\
      requests' = requests ++ requests_of (evaluations l)
  | Ret (inl r) =>
      exists pre c answer why, evaluations l = pre ++ [(c, answer)] /\ Forall (granted has_sign) pre /\
        refusal has_sign c answer = Some why /\ r = ToolDenied why None
  | Throw _ => Forall (granted has_sign) (evaluations l)
  | Diverge => True
  end.

(** An evaluated policy in front of the rest of the chain. *)
Lemma chain_post_cons c r cs requests args o lq l :
  Forall quiet lq -> granted has_sign (c, r) ->
  chain_post cs (requests ++ match request_of (c, r) with Some q => [q] | None => [] end) args o l ->
  chain_post (c :: cs) requests args o (Evaluated c args r :: lq ++ l).
Proof.
  intros Hq Hg [Hl Ho]. split.
  { constructor; [done|]. apply Forall_app. split; [by apply quiet_chain|done]. }
  assert (evaluations (Evaluated c args r :: lq ++ l) = (c, r) :: evaluations l) as He.
  { by rewrite evaluations_cons, evaluations_app, (quiet_evaluations lq). }
  rewrite He. destruct o as [[res|reqs]|e|]; [| |by constructor|done].
  - destruct Ho as (pre & c' & a & why & -> & Hp & Hw & ->).
    exists ((c, r) :: pre), c', a, why. split; [done|]. split; [by constructor|done].
  - destruct Ho as (<- & Hg' & ->). split; [done|]. split; [by constructor|].
    rewrite <- app_assoc. f_equal. unfold requests_of. simpl. by destruct (request_of (c, r)).
Qed.

Lemma policy_chain_wp cs pm requests ctx agentName tool args w :
  wp (policy_chain self host cs pm requests ctx agentName tool args : M _) w (fun o _ l =>
    chain_post cs requests args o l).
Proof.
  revert requests w. induction cs as [|c cs IH]; intros requests w; simpl.
  { wp_step. split; [constructor|]. split; [done|]. split; [constructor|by rewrite app_nil_r]. }
  destruct (resolvePolicy host c pm) as [p|]; [|wp_step; by repeat constructor].
  wp_steps. destruct o as [r|e|]; cbn; [|by repeat constructor|by repeat constructor].
  wp_steps. destruct r as [reason|reason retry|reason ttl required].
  - apply record_now_then; [|intros l w1 Hl; split; [|done]; constructor; [done|by apply quiet_chain]].
    intros l w1 Hl. eapply wp_mono; [apply IH|]. intros o w2 l' Hp.
    apply chain_post_cons; [done|done|]. simpl. by rewrite app_nil_r.
  - apply record_now_then; [|intros l w1 Hl; split; [|done]; constructor; [done|by apply quiet_chain]].
    intros l w1 Hl. wp_step. rewrite app_nil_r. split; [constructor; [done|by apply quiet_chain]|].
    exists [], c, (PDeny reason retry), reason. by rewrite evaluations_cons, quiet_evaluations.
  - destruct (misconfiguration (pc_name c) required has_sign) as [m|] eqn:Hm.
    + apply record_now_then; [|intros l w1 Hl; split; [|done]; constructor; [done|by apply quiet_chain]].
      intros l w1 Hl. wp_step. rewrite app_nil_r. split; [constructor; [done|by apply quiet_chain]|].
      eexists [], c, _, _. rewrite evaluations_cons, quiet_evaluations by done. split; [done|]. split; [constructor|].
      simpl. by rewrite Hm.
    + eapply wp_mono; [apply IH|]. intros o w2 l' Hp.
      apply (chain_post_cons c _ cs requests args o []); [constructor| |done].
      unfold granted. simpl. by rewrite Hm.
Qed.

(** *** What follows the chain *)

Lemma output_rails_wp cs pm data prov ctx agentName tool args w :
  wp (output_rails self host cs pm data prov ctx agentName tool args : M _) w (fun _ _ l => Forall of_rails l).
Proof.
  revert data w. induction cs as [|c cs IH]; intros data w; simpl; [wp_step; constructor|].
  destruct (_ ≫= _) as [f|]; [|apply IH].
  wp_steps. destruct o as [r|e|]; cbn; [|constructor|constructor]. wp_steps.
  destruct r; (apply record_now_then; intros l w1 Hl;
    [|constructor; [done|by apply quiet_rails]]).
  2: wp_step; constructor; [done|]; rewrite app_nil_r; by apply quiet_rails.
  all: eapply wp_mono; [apply IH|]; intros ? ? ? H; constructor; [done|].
  all: apply Forall_app; split; [by apply quiet_rails|done].
Qed.

Lemma write_cache_wp key name r w :
  wp (write_cache self host key name r : M _) w (fun _ _ l => Forall of_rails l).
Proof.
  unfold write_cache. destruct key, (idempotencyStore self); try (wp_step; constructor).
  destruct (result_success r); [|wp_step; constructor]. wp_steps.
  destruct o; cbn; by repeat constructor.
Qed.

Lemma run_tool_wp tool name all key ctx agentName args w :
  wp (run_tool self host tool name all key ctx agentName args : M _) w (fun _ _ l =>
    exists l', l = Invoked (methodName tool) (method_args tool args ctx) :: l' /\ Forall of_rails l').
Proof.
  unfold run_tool, invokeMethod. wp_steps. destruct o as [data|e|]; cbn.
  2,3: eexists; split; [done|constructor].
  wp_steps. eapply wp_mono; [apply output_rails_wp|]. intros o w1 l1 H1.
  destruct o as [r|e|]; cbn; [|by exists l1..]. wp_steps.
  eapply wp_mono; [apply write_cache_wp|]. intros o w2 l2 H2.
  destruct o; cbn; wp_steps.
  all: eexists; split; [done|]; rewrite ?app_nil_r; by apply Forall_app.
Qed.

Lemma record_requests_wp reqs t call id w :
  wp (record_requests self reqs t call id : M _) w (fun o _ l => Forall quiet l /\ (o = Ret tt \/ o = Diverge)).
Proof.
  revert w. induction reqs as [|r reqs IH]; intros w; simpl; [wp_step; split; [constructor|by left]|].
  wp_step. eapply wp_mono; [apply record_audit_wp|]. intros o w1 l1 [H1 [->| ->]]; simpl.
  - eapply wp_mono; [apply IH|]. intros o w2 l2 [H2 Ho]. split; [by apply Forall_app|done].
  - split; [done|by right].
Qed.
Lemma assert_live_wp ctx w :
  wp (assert_live host ctx : M unit) w (fun o _ l => l = [] /\ o <> Diverge).
Proof.
  unfold assert_live. wp_steps. destruct (ctx_signal ctx && ph_aborted host w); wp_steps; [done|].
  by destruct (isDeadlineExceeded _ _); wp_step.
Qed.

Lemma read_cache_wp key w :
  wp (read_cache self key : M _) w (fun o _ l =>
    (forall c, o = Ret (Some c) -> exists k, l = [CacheRead k (Some c)]) /\
    (l = [] \/ exists k c, l = [CacheRead k c] /\ o = Ret c)).
Proof.
  unfold read_cache. destruct key as [k|]; [|wp_step; split; [done|by left]].
  destruct (idempotencyStore self); [|wp_step; split; [done|by left]].
  wp_steps. destruct o as [c|e|]; cbn; [|split; [done|by left]..]. wp_steps. split; [intros c' [= ->]; eauto|].
  right. eauto.
Qed.

(** *** The approval *)

Lemma requestApproval_wp reqs call w :
  wp (requestApproval self host reqs call : M _) w (fun o _ l =>
    (l = [] /\ forall r, o <> Ret r) \/
    exists id now lq, l = Saved (approval_record reqs call id now) :: lq /\ Forall quiet lq /\
      (o = Ret (pending_result (approval_record reqs call id now)) \/ o = Diverge)).
Proof.
  unfold requestApproval. wp_steps. destruct o as [id|e|]; cbn [wp_cont]; [|by left..].
  wp_steps. set (a := approval_record _ _ _ _). destruct o as [[]|e|]; cbn [wp_cont]; [|by left..].
  wp_step. apply wp_emit. cbn [wp_cont]. wp_step.
  eapply wp_mono with (P := fun o _ l => Forall quiet l /\ (o = Ret tt \/ o = Diverge)).
  - destruct (match audit self with Some t => isEnabled t | None => false end);
      [|wp_step; split; [constructor|by left]].
    wp_steps. eapply wp_mono; [apply record_requests_wp|]. intros o w2 l [Hl [->| ->]]; cbn [wp_cont].
    + eapply wp_mono; [apply record_audit_wp|]. intros o w3 l' [Hl' Ho]. split; [by apply Forall_app|done].
    + split; [done|by right].
  - intros o w2 l [Hl [->| ->]]; cbn [wp_cont]; wp_steps; right; eexists _, _, _.
    + rewrite app_nil_r. split; [reflexivity|]. split; [done|by left].
    + split; [reflexivity|]. split; [done|by right].
Qed.

(** *** Every run of a guarded call *)

Section Runs.
Context (tool : @DiscoveredTool I) (all : list PolicyConstructor) (ctx : AgentContext) (agentName : string)
  (ttl : option Z) (args : obj) (toolCallId : option string).

Definition call_of : approval_call :=
  {| ac_context := ctx; ac_agentName := agentName; ac_toolName := toolName tool; ac_args := args;
     ac_toolCallId := toolCallId; ac_defaultTtlSeconds := ttl |}.

Definition cache_miss (e : @event I) : Prop := match e with CacheRead _ None => True | _ => False end.

Inductive execute_run : outcome error ToolExecutionResult -> list (@event I) -> Prop :=
| RunDead o pre : Forall cache_miss pre -> (forall r, o <> Ret r) -> execute_run o pre
| RunCached k c : execute_run (Ret (ir_result c)) [CacheRead k (Some c)]
| RunRefused r pre lc : Forall cache_miss pre -> chain_post all [] args (Ret (inl r)) lc ->
    execute_run (Ret r) (pre ++ lc)
| RunFailed o pre lc : Forall cache_miss pre -> chain_post all [] args o lc -> (forall r, o <> Ret r) ->
    execute_run (match o with Throw e => Throw e | _ => Diverge end) (pre ++ lc)
| RunInvoked o pre lc lr : Forall cache_miss pre -> chain_post all [] args (Ret (inr [])) lc ->
    Forall of_rails lr ->
    execute_run o (pre ++ lc ++ Invoked (methodName tool) (method_args tool args ctx) :: lr)
| RunUnsaved o pre lc reqs : Forall cache_miss pre -> chain_post all [] args (Ret (inr reqs)) lc ->
    (forall r, o <> Ret r) -> execute_run o (pre ++ lc)
| RunSaved o pre lc reqs id now lq : Forall cache_miss pre -> chain_post all [] args (Ret (inr reqs)) lc ->
    reqs <> [] -> Forall quiet lq ->
    o = Ret (pending_result (approval_record reqs call_of id now)) \/ o = Diverge ->
    execute_run o (pre ++ lc ++ Saved (approval_record reqs call_of id now) :: lq).

Lemma execute_wp w :
  wp (execute self host tool all ctx agentName ttl args toolCallId : M _) w (fun o _ l => execute_run o l).
Proof.
  unfold execute. wp_step. eapply wp_mono; [apply assert_live_wp|]. intros o w1 l [-> Ho].
  destruct o as [[]|e|]; cbn [wp_cont]; [|by apply RunDead|done].
  wp_step. eapply wp_mono; [apply read_cache_wp|]. intros o w2 pre [Hh Hpre].
  assert (forall c, o = Ret (Some c) -> execute_run (Ret (ir_result c)) pre) as Hhit.
  { intros c Hc. destruct (Hh c Hc) as [k ->]. apply RunCached. }
  assert ((forall c, o <> Ret (Some c)) -> Forall cache_miss pre) as Hmiss.
  { intros Hn. destruct Hpre as [->|(k & c & -> & ->)]; [constructor|].
    destruct c as [c|]; [by destruct (Hn c)|by repeat constructor]. }
  destruct o as [[c|]|e|]; cbn [wp_cont]; [| |by apply RunDead; [apply Hmiss|]..].
  { apply wp_ret. rewrite app_nil_r. by apply Hhit. }
  specialize (Hmiss ltac:(done)). clear Hh Hhit Hpre.
  wp_step. eapply wp_mono; [apply policy_chain_wp|]. intros o w3 lc Hc.
  destruct o as [[r|[|q reqs]]|e|]; cbn [wp_cont].
  - apply wp_ret. rewrite app_nil_r. by apply RunRefused.
  - eapply wp_mono; [apply run_tool_wp|]. intros o w4 l (lr & -> & Hr). by apply RunInvoked.
  - eapply wp_mono; [apply requestApproval_wp|]. intros o w4 l [[-> Ho']|(id & now & lq & -> & Hq & Ho')].
    + rewrite app_nil_r. by eapply RunUnsaved.
    + by eapply RunSaved.
  - by apply (RunFailed (Throw e)).
  - by apply (RunFailed Diverge).
Qed.

Lemma misses_evaluations pre : Forall cache_miss pre -> evaluations pre = [].
Proof. intros H. apply evaluations_nil. eapply Forall_impl; [exact H|]. by intros []. Qed.

Lemma misses_count (p : @event I -> bool) pre :
  (forall e, cache_miss e -> p e = false) -> Forall cache_miss pre -> count p pre = O.
Proof. intros Hp H. apply count_zero. eapply Forall_impl; [exact H|done]. Qed.

(** How many times a run invokes and saves. *)
Lemma execute_run_counts o l :
  execute_run o l -> (count is_invoked l + count is_saved l <= 1)%nat.
Proof.
  intros Hr. destruct Hr as [o pre Hp _| |r pre lc Hp [Hc _]|o pre lc Hp [Hc _]|o pre lc lr Hp [Hc _] Hr
                            |o pre lc reqs Hp [Hc _]|o pre lc reqs id now lq Hp [Hc _] _ Hq _].
  all: autorewrite with count; try (by compute; lia).
  all: rewrite ?(misses_count is_invoked pre), ?(misses_count is_saved pre) by (done || by intros []).
  all: rewrite ?(chain_count is_invoked args lc), ?(chain_count is_saved args lc) by (done || by intros []).
  all: try (simpl; lia).
  - rewrite ?(rails_count is_invoked lr), ?(rails_count is_saved lr) by (done || by intros []). simpl. lia.
  - apply quiet_rails in Hq.
    rewrite ?(rails_count is_invoked lq), ?(rails_count is_saved lq) by (done || by intros []). simpl. lia.
Qed.

Lemma invoked_in_run o l m margs :
  execute_run o l -> Invoked m margs ∈ l ->
  exists pre lc lr, l = pre ++ lc ++ Invoked (methodName tool) (method_args tool args ctx) :: lr /\
    Forall cache_miss pre /\ chain_post all [] args (Ret (inr [])) lc /\ Forall of_rails lr.
Proof.
  intros Hr Hin. assert (forall l' : list (@event I), (count is_invoked l' = 0)%nat -> Invoked m margs ∉ l') as Hno.
  { intros l' H Hx. apply list_elem_of_split in Hx as (l1 & l2 & ->).
    rewrite count_app, count_cons in H. simpl in H. lia. }
  destruct Hr as [o pre Hp _| |r pre lc Hp [Hc _]|o pre lc Hp [Hc _]|o pre lc lr Hp Hc Hr
                 |o pre lc reqs Hp [Hc _]|o pre lc reqs id now lq Hp [Hc _] _ Hq _].
  5: by exists pre, lc, lr.
  all: exfalso; eapply Hno; [|exact Hin]; autorewrite with count; try done.
  all: rewrite (misses_count is_invoked pre) by (done || by intros []); try done.
  all: rewrite (chain_count is_invoked args lc) by (done || by intros []); try done.
  apply quiet_rails in Hq. by rewrite (rails_count is_invoked lq) by (done || by intros []).
Qed.
End Runs.

(** C1. The policy chain guards the method: if a guarded call runs its tool's method
    at all, then before that every policy of the tool was asked, in order and about
    the very arguments the method runs on, and each of them allowed the call; the
    method runs once, is given the declared arguments, and no policy is asked and
    no approval is created afterwards.  This holds in every outcome, errors
    included. *)
Theorem method_needs_every_policy (tool : @DiscoveredTool I) all ctx agentName ttl args toolCallId w o w' l m margs :
  execute self host tool all ctx agentName ttl args toolCallId w = (o, w', l) ->
  Invoked m margs ∈ l ->
  m = methodName tool /\ margs = method_args tool args ctx /\
  exists l1 l2, l = l1 ++ Invoked m margs :: l2 /\
    map fst (evaluations l1) = all /\ Forall allows (evaluations l1) /\
    (forall c a r, Evaluated c a r ∈ l1 -> a = args) /\
    evaluations l2 = [] /\ count is_invoked (l1 ++ l2) = O /\ count is_saved (l1 ++ l2) = O.
Proof.
  intros Hrun Hin. pose proof (wp_run _ _ _ _ _ _ (execute_wp tool all ctx agentName ttl args toolCallId w) Hrun) as Hr.
  pose proof (execute_run_counts _ _ _ _ _ _ _ _ _ Hr) as Hcount.
  destruct (invoked_in_run _ _ _ _ _ _ _ _ _ _ _ Hr Hin) as (pre & lc & lr & -> & Hp & (Hlc & Hall & Hg & Hq) & Hlr).
  assert (m = methodName tool /\ margs = method_args tool args ctx) as [-> ->].
  { rewrite !elem_of_app, elem_of_cons in Hin. destruct Hin as [Hx|[Hx|[Hx|Hx]]]; [exfalso|exfalso|by simplify_eq|exfalso].
    - by apply (proj1 (Forall_forall _ _) Hp) in Hx.
    - by apply (proj1 (Forall_forall _ _) Hlc) in Hx.
    - by apply (proj1 (Forall_forall _ _) Hlr) in Hx. }
  split; [done|]. split; [done|]. exists (pre ++ lc), lr. rewrite <- app_assoc. split; [done|].
  rewrite evaluations_app, (misses_evaluations pre) by done. split; [done|].
  split. { eapply granted_no_request; [exact Hg|]. by simpl in Hq. }
  split. { intros c a r Hx. rewrite elem_of_app in Hx. destruct Hx as [Hx|Hx].
    - by apply (proj1 (Forall_forall _ _) Hp) in Hx.
    - by apply (proj1 (Forall_forall _ _) Hlc) in Hx. }
  split; [by apply rails_evaluations|]. autorewrite with count in *. simpl in *. lia.
Qed.

(** C34. A refusal wins: once a policy denies the call, or asks for an approval on
    terms the store cannot keep, the call ends in that refusal, its reason is what
    the model is told, the remaining policies are not asked, the method never runs
    and no approval is created, whatever the earlier policies answered. *)
Theorem refusal_wins (tool : @DiscoveredTool I) all ctx agentName ttl args toolCallId w o w' l c a r why :
  execute self host tool all ctx agentName ttl args toolCallId w = (o, w', l) ->
  Evaluated c a r ∈ l -> refusal has_sign c r = Some why -> o <> Diverge ->
  o = Ret (ToolDenied why None) /\ (exists pre, evaluations l = pre ++ [(c, r)]) /\
  count is_invoked l = O /\ count is_saved l = O.
Proof.
  intros Hrun Hin Hw Ho.
  pose proof (wp_run _ _ _ _ _ _ (execute_wp tool all ctx agentName ttl args toolCallId w) Hrun) as Hr.
  apply evaluations_elem in Hin.
  assert (forall es, Forall (granted has_sign) es -> (c, r) ∉ es) as Hng.
  { intros es Hg Hx. apply (proj1 (Forall_forall _ _) Hg) in Hx. unfold granted in Hx. simpl in Hx. congruence. }
  destruct Hr as [o pre Hp _|k c'|res pre lc Hp [Hc Hs]|o pre lc Hp [Hc Hs] Hn|o pre lc lr Hp (Hc & _ & Hg & _) Hr
                 |o pre lc reqs Hp (Hc & _ & Hg & _)|o pre lc reqs id now lq Hp (Hc & _ & Hg & _) _ Hq _].
  all: try rewrite !evaluations_app, (misses_evaluations pre) in Hin by done.
  - rewrite misses_evaluations in Hin by done. by apply elem_of_nil in Hin.
  - by apply elem_of_nil in Hin.
  - destruct Hs as (es & c1 & r1 & why1 & He & Hg & Hw1 & ->). simpl in Hin. rewrite He in Hin.
    rewrite elem_of_app in Hin. destruct Hin as [Hin|Hin]; [by apply Hng in Hin|].
    apply list_elem_of_singleton in Hin. simplify_eq. split; [done|].
    rewrite evaluations_app, (misses_evaluations pre), He by done. split; [by exists es|].
    autorewrite with count.
    rewrite !(misses_count _ pre), !(chain_count _ args lc) by (done || by intros []). done.
  - destruct o as [x|e|]; [by destruct (Hn x)| |done]. by apply Hng in Hin.
  - simpl in Hin. rewrite (evaluations_nil (_ :: lr)), app_nil_r in Hin by (constructor; [done|]; eapply Forall_impl; [exact Hr|]; by intros []).
    by apply Hng in Hin.
  - by apply Hng in Hin.
  - simpl in Hin. rewrite (evaluations_nil (_ :: lq)), app_nil_r in Hin
      by (constructor; [done|]; eapply Forall_impl; [exact Hq|]; by intros []).
    by apply Hng in Hin.
Qed.
End Rules.
End Guard.
