(* ===== verification/LocalToolTerms.v ===== *)
(** * Approval terms, output rails and idempotency of guarded calls

    The rest of what [LocalTool] promises: the approvals it requests, what it
    reveals of a tool's output, and what a repeated call does. Below it, a
    governed tool set at work. *)

From S2P Require Export LocalToolGuard.

#[local] Open Scope string_scope.
#[local] Open Scope list_scope.
#[local] Open Scope Z_scope.
#[local] Open Scope eff_scope.

Module Terms.
Import Audit Approvals ScopeKey LocalTool Guard.

(** ** Extrema *)

Lemma fold_max_spec l x : x <= fold_left Z.max l x /\ Forall (fun y => y <= fold_left Z.max l x) l /\
  (fold_left Z.max l x = x \/ fold_left Z.max l x ∈ l).
Proof.
  revert x. induction l as [|y l IH]; intros x; simpl; [split; [lia|]; split; [constructor|by left]|].
  destruct (IH (Z.max x y)) as (H1 & H2 & H3). split; [lia|]. split; [constructor; [lia|done]|].
  destruct H3 as [H3|H3]; [|right; by right]. rewrite H3.
  destruct (Z.max_spec x y) as [[_ ->]|[_ ->]]; [right; by left|by left].
Qed.

Lemma fold_min_spec l x : fold_left Z.min l x <= x /\ Forall (fun y => fold_left Z.min l x <= y) l /\
  (fold_left Z.min l x = x \/ fold_left Z.min l x ∈ l).
Proof.
  revert x. induction l as [|y l IH]; intros x; simpl; [split; [lia|]; split; [constructor|by left]|].
  destruct (IH (Z.min x y)) as (H1 & H2 & H3). split; [lia|]. split; [constructor; [lia|done]|].
  destruct H3 as [H3|H3]; [|right; by right]. rewrite H3.
  destruct (Z.min_spec x y) as [[_ ->]|[_ ->]]; [by left|right; by left].
Qed.

Lemma max_list_spec l : l <> [] -> max_list l ∈ l /\ Forall (fun y => y <= max_list l) l.
Proof.
  destruct l as [|x l]; [done|]. intros _. simpl. destruct (fold_max_spec l x) as (H1 & H2 & H3).
  split; [|by constructor]. destruct H3 as [->|H3]; [by left|by right].
Qed.

Lemma min_list_spec l : l <> [] -> min_list l ∈ l /\ Forall (fun y => min_list l <= y) l.
Proof.
  destruct l as [|x l]; [done|]. intros _. simpl. destruct (fold_min_spec l x) as (H1 & H2 & H3).
  split; [|by constructor]. destruct H3 as [->|H3]; [by left|by right].
Qed.

(** Granted approval requests ask for a positive number of approvers. *)
Lemma granted_required_pos has_sign c reason ttl required :
  granted has_sign (c, PRequireApproval reason ttl required) ->
  1 <= num_to_Z (coalesce required (num_of_Z 1)).
Proof.
  unfold granted, refusal, misconfiguration. simpl. intros H. apply fmap_None in H.
  destruct (negb _) eqn:Hn in H; [done|]. apply negb_false_iff, andb_true_iff in Hn as [Hi Hl].
  destruct (coalesce required (num_of_Z 1)) as [| |m e]; try done. cbn in Hi, Hl.
  apply Z.leb_le in Hi, Hl. rewrite Z.min_l, Z.sub_0_r in Hl by done. simpl. lia.
Qed.

(** ** The approval that is saved *)

Section Saved.
Context (call : approval_call) (requests : list ApprovalRequest).

Lemma approval_required id now :
  requests <> [] -> Forall (fun q => 1 <= rq_requiredApprovals q) requests ->
  requiredApprovalsOf (approval_record requests call id now) = strictest_required requests.
Proof.
  intros Hn Hpos. unfold requiredApprovalsOf. simpl. unfold strictest_required.
  destruct (max_list_spec (map rq_requiredApprovals requests)) as [Hin _]; [by destruct requests|].
  apply list_elem_of_fmap in Hin as (q & Hq & Hin). apply (proj1 (Forall_forall _ _) Hpos) in Hin.
  destruct (1 <? _) eqn:H1; simpl; [done|]. apply Z.ltb_ge in H1. rewrite Hq in *. simpl in *. lia.
Qed.

Lemma strictest_ttl_le q t :
  q ∈ requests -> orelse (rq_ttlSeconds q) (ac_defaultTtlSeconds call) = Some t ->
  exists m, strictest_ttl requests (ac_defaultTtlSeconds call) = Some m /\ m <= t.
Proof.
  intros Hq Ht. unfold strictest_ttl.
  assert (t ∈ filter_map (fun r => orelse (rq_ttlSeconds r) (ac_defaultTtlSeconds call)) requests) as Hin
    by (apply elem_of_filter_map; eauto).
  destruct (filter_map _ requests) as [|x l] eqn:Hf; [by apply elem_of_nil in Hin|].
  eexists. split; [done|]. destruct (min_list_spec (x :: l)) as [_ Hall]; [done|].
  by apply (proj1 (Forall_forall _ _) Hall) in Hin.
Qed.

Lemma strictest_ttl_attained m :
  strictest_ttl requests (ac_defaultTtlSeconds call) = Some m ->
  exists q, q ∈ requests /\ orelse (rq_ttlSeconds q) (ac_defaultTtlSeconds call) = Some m.
Proof.
  unfold strictest_ttl. destruct (filter_map _ requests) as [|x l] eqn:Hf; [done|]. intros [= <-].
  destruct (min_list_spec (x :: l)) as [Hin _]; [done|]. simpl in Hin. rewrite <- Hf in Hin.
  by apply elem_of_filter_map in Hin as (q & Hq & Ht); eauto.
Qed.
End Saved.

Section Rules.
Context {W I T : Type} `{!EqDecision I}.
Context (self : @LocalToolProvider W) (host : @ProviderHost W I T).

Notation M := (M error (@event I) W).
Notation has_sign := (is_some (store_addSignature (ApprovalStore := approvalStore self))).

Lemma requests_positive es :
  Forall (granted has_sign) es -> Forall (fun q => 1 <= rq_requiredApprovals q) (requests_of es).
Proof.
  unfold requests_of. induction 1 as [|[c r] es Hg _ IH]; simpl; [constructor|].
  destruct r; simpl; [done|done|]. constructor; [|done]. simpl. by eapply granted_required_pos.
Qed.

Lemma saved_in_run tool all ctx agentName ttl args toolCallId o (l : list (@event I)) a :
  execute_run self tool all ctx agentName ttl args toolCallId o l -> Saved a ∈ l ->
  exists pre lc id now lq reqs,
    l = pre ++ lc ++ Saved a :: lq /\ Forall cache_miss pre /\
    chain_post self all [] args (Ret (inr reqs)) lc /\ reqs <> [] /\ Forall quiet lq /\
    a = approval_record reqs (call_of tool ctx agentName ttl args toolCallId) id now /\
    (o = Ret (pending_result a) \/ o = Diverge).
Proof.
  intros Hr Hin.
  assert (forall (P : @event I -> Prop) (l' : list (@event I)), (forall e, P e -> is_saved e = false) -> Forall P l' -> Saved a ∉ l') as Hno.
  { intros P l' HP Hl' Hx. apply (proj1 (Forall_forall _ _) Hl'), HP in Hx. done. }
  destruct Hr as [o pre Hp _|k c'|res pre lc Hp [Hc Hs]|o pre lc Hp [Hc Hs] Hn|o pre lc lr Hp [Hc _] Hr
                 |o pre lc reqs Hp [Hc _]|o pre lc reqs id now lq Hp Hc Hne Hq Ho].
  7: { rewrite !elem_of_app, elem_of_cons in Hin. destruct Hin as [Hx|[Hx|[Hx|Hx]]].
       - exfalso. by eapply (Hno cache_miss); [|exact Hp|exact Hx]; intros [].
       - exfalso. eapply (Hno (of_chain args)); [|apply Hc|exact Hx]. by intros [].
       - injection Hx as ->. by exists pre, lc, id, now, lq, reqs.
       - exfalso. eapply (Hno quiet); [|exact Hq|exact Hx]. by intros []. }
  all: exfalso; rewrite ?elem_of_app, ?elem_of_cons in Hin.
  2: destruct Hin as [Hx|Hx]; [done|by apply elem_of_nil in Hx].
  all: repeat match goal with H : _ \/ _ |- _ => destruct H as [Hin|Hin] end; try done.
  all: first [ eapply (Hno cache_miss); [|exact Hp|exact Hin]; by intros []
             | eapply (Hno (of_chain args)); [|exact Hc|exact Hin]; by intros []
             | eapply (Hno of_rails); [|exact Hr|exact Hin]; by intros [] ].
Qed.

(** C19. One approval on the strictest terms: when a guarded call saves an approval,
    every policy was asked and none refused, and the method did not run; the
    approval is for this very call, needs the most approvers any of the policies
    asked for, carries no signature yet, and expires at the earliest of the
    lifetimes the policies asked for (the module default standing in where one
    named none); the model is told it is pending. *)
Theorem approval_on_strictest_terms (tool : @DiscoveredTool I) all ctx agentName ttl args toolCallId w o w' l a :
  execute self host tool all ctx agentName ttl args toolCallId w = (o, w', l) -> Saved a ∈ l ->
  let requests := requests_of (evaluations l) in
  let lifetime q := orelse (rq_ttlSeconds q) ttl in
  map fst (evaluations l) = all /\ Forall (granted has_sign) (evaluations l) /\ count is_invoked l = O /\
  (ap_toolName a = toolName tool /\ ap_args a = args /\ ap_context a = ctx /\ ap_signatures a = None) /\
  (Exists (fun q => rq_requiredApprovals q = requiredApprovalsOf a) requests /\
   Forall (fun q => rq_requiredApprovals q <= requiredApprovalsOf a) requests) /\
  (forall q t, q ∈ requests -> lifetime q = Some t ->
     exists e, ap_expiresAt a = Some e /\ e <= ap_createdAt a + t * 1000) /\
  (forall e, ap_expiresAt a = Some e ->
     exists q t, q ∈ requests /\ lifetime q = Some t /\ e = ap_createdAt a + t * 1000) /\
  (o = Ret (pending_result a) \/ o = Diverge).
Proof.
  intros Hrun Hin requests lifetime.
  pose proof (wp_run _ _ _ _ _ _ (execute_wp self host tool all ctx agentName ttl args toolCallId w) Hrun) as Hr.
  pose proof (execute_run_counts _ _ _ _ _ _ _ _ _ _ Hr) as Hc.
  destruct (saved_in_run _ _ _ _ _ _ _ _ _ _ Hr Hin)
    as (pre & lc & id & now & lq & reqs & -> & Hp & (Hlc & Hall & Hg & Hq) & Hne & Hlq & Ha & Ho).
  assert (evaluations (pre ++ lc ++ Saved a :: lq) = evaluations lc) as He.
  { rewrite !evaluations_app, (misses_evaluations pre) by done. simpl.
    rewrite (evaluations_nil (_ :: lq)), app_nil_r; [done|]. constructor; [done|].
    eapply Forall_impl; [exact Hlq|]. by intros []. }
  unfold requests. rewrite He. simpl in Hq. rewrite <- Hq. clear He.
  assert (Forall (fun q => 1 <= rq_requiredApprovals q) reqs) as Hpos
    by (rewrite Hq; by apply requests_positive).
  split; [done|]. split; [done|]. split; [autorewrite with count in Hc; simpl in Hc; autorewrite with count; simpl; lia|].
  split; [by rewrite Ha|]. rewrite Ha. rewrite approval_required by done.
  destruct (max_list_spec (map rq_requiredApprovals reqs)) as [Hm1 Hm2]; [by destruct reqs|].
  split. { apply list_elem_of_fmap in Hm1 as (q & Hq1 & Hq2). split.
           - apply Exists_exists. by exists q.
           - apply (proj1 (Forall_map rq_requiredApprovals (fun y => y <= _) reqs)) in Hm2. exact Hm2. }
  split. { intros q t Hq1 Ht. destruct (strictest_ttl_le (call_of tool ctx agentName ttl args toolCallId)
             reqs q t Hq1 Ht) as (m & Hm & Hle).
           exists (now + m * 1000). simpl. unfold call_of in Hm; simpl in Hm. rewrite Hm. split; [done|]. lia. }
  split; [|by rewrite <- Ha]. simpl. intros e He. apply fmap_Some in He as (m & Hm & ->).
  destruct (strictest_ttl_attained (call_of tool ctx agentName ttl args toolCallId) reqs m Hm) as (q & Hq1 & Hq2).
  by exists q, m.
Qed.

(** ** Output rails *)

Definition output_answer (e : @event I) : option (PolicyConstructor * value * PolicyOutputResult) :=
  match e with EvaluatedOutput c d r => Some (c, d, r) | _ => None end.
Definition outputs (l : list (@event I)) := filter_map output_answer l.

Lemma outputs_app l1 l2 : outputs (l1 ++ l2) = outputs l1 ++ outputs l2.
Proof. apply filter_map_app. Qed.
Lemma outputs_quiet l : Forall quiet l -> outputs l = [].
Proof. unfold outputs. induction 1 as [|e l He _ IH]; simpl; [done|]. by destruct e. Qed.
Lemma outputs_cons c d r lq l :
  Forall quiet lq -> outputs (EvaluatedOutput c d r :: lq ++ l) = (c, d, r) :: outputs l.
Proof. intros Hq. change (outputs (EvaluatedOutput c d r :: lq ++ l)) with ((c, d, r) :: outputs (lq ++ l)).
  by rewrite outputs_app, outputs_quiet. Qed.

(** What the answers of the rails make of a tool's data. *)
Fixpoint rails_result (data : value) (p : option Provenance) (answers : list PolicyOutputResult)
    : ToolExecutionResult :=
  match answers with
  | [] => ToolSuccess data p
  | OutDeny reason :: _ => ToolDenied reason p
  | OutSanitize d :: rest => rails_result d p rest
  | OutAllow _ :: rest => rails_result data p rest
  end.

(** Each rail was shown the data as its predecessors left it, up to a denial. *)
Fixpoint seen (data : value) (outs : list (PolicyConstructor * value * PolicyOutputResult)) : Prop :=
  match outs with
  | [] => True
  | (_, d, r) :: rest =>
      d = data /\ match r with
                  | OutDeny _ => rest = []
                  | OutSanitize d' => seen d' rest
                  | OutAllow _ => seen data rest
                  end
  end.

Definition has_rail (pm : list ToolPolicy) (c : PolicyConstructor) : bool :=
  is_some (p ← resolvePolicy host c pm; evaluateOutput p).

Lemma output_rails_result cs pm data prov ctx agentName tool args w :
  wp (output_rails self host cs pm data prov ctx agentName tool args : M _) w (fun o _ l => forall r, o = Ret r ->
    seen data (outputs l) /\ r = rails_result data prov (map snd (outputs l)) /\
    (result_success r = true -> map (fun x => x.1.1) (outputs l) = List.filter (has_rail pm) cs)).
Proof.
  revert data w. induction cs as [|c cs IH]; intros data w; simpl; [by wp_step; intros r [= <-]|].
  unfold has_rail at 1. destruct (_ ≫= _) as [f|]; [|apply IH]. simpl.
  wp_steps. destruct o as [r|e|]; cbn [wp_cont]; [|done|done]. wp_step. apply wp_emit. cbn [wp_cont].
  destruct r as [reason|reason|d']; (apply record_now_then; intros l w1 Hl; [|done]).
  - eapply wp_mono; [apply IH|]. intros o w2 l' Hp r Hr. cbn [app]. rewrite outputs_cons by done.
    destruct (Hp r Hr) as (H1 & H2 & H3). simpl. split; [done|]. split; [done|]. intros Hs. by rewrite H3.
  - wp_step. intros r [= <-]. cbn [app]. rewrite outputs_cons by done. simpl. done.
  - eapply wp_mono; [apply IH|]. intros o w2 l' Hp r Hr. cbn [app]. rewrite outputs_cons by done.
    destruct (Hp r Hr) as (H1 & H2 & H3). simpl. split; [done|]. split; [done|]. intros Hs. by rewrite H3.
Qed.

Lemma write_cache_outputs key name r w :
  wp (write_cache self host key name r : M _) w (fun _ _ l => outputs l = []).
Proof.
  unfold write_cache. destruct key, (idempotencyStore self); try (by wp_step).
  destruct (result_success r); [|by wp_step]. wp_steps. by destruct o.
Qed.

(** Output rails stand between a tool and the model, for first-time and for
    approved calls alike: when running a tool returns, the result is the method's
    data as the rails' answers transformed it.  Every rail is shown what its
    predecessors left, a sanitized value replaces the data, the first denial ends
    in its reason without the data, and a success has passed every policy of the
    tool that has a rail, in order.  The result carries the tool's provenance. *)
Theorem rails_filter_output tool name all key ctx agentName args w r w' l :
  run_tool self host tool name all key ctx agentName args w = (Ret r, w', l) ->
  exists data w1,
    call_method host (instance tool) (methodName tool) (method_args tool args ctx) w = (Ret data, w1) /\
    seen data (outputs l) /\
    r = rails_result data (Some (tool_provenance (toolName tool))) (map snd (outputs l)) /\
    (result_success r = true ->
       map (fun x => x.1.1) (outputs l) = List.filter (has_rail (getPolicyMap self host)) all).
Proof.
  intros Hrun. enough (wp (run_tool self host tool name all key ctx agentName args : M _) w (fun o _ l =>
    forall r, o = Ret r -> exists data w1,
      call_method host (instance tool) (methodName tool) (method_args tool args ctx) w = (Ret data, w1) /\
      seen data (outputs l) /\
      r = rails_result data (Some (tool_provenance (toolName tool))) (map snd (outputs l)) /\
      (result_success r = true ->
         map (fun x => x.1.1) (outputs l) = List.filter (has_rail (getPolicyMap self host)) all))) as Hwp
    by by apply (wp_run _ _ _ _ _ _ Hwp Hrun).
  unfold run_tool, invokeMethod. wp_steps. destruct o as [data|e|]; cbn [wp_cont]; [|done|done].
  wp_steps. eapply wp_mono; [apply output_rails_result|]. intros o w2 l1 Hl.
  destruct o as [r1|e|]; cbn [wp_cont]; [|done|done]. destruct (Hl r1 eq_refl) as (H1 & H2 & H3).
  wp_step. eapply wp_mono; [apply write_cache_outputs|]. intros o w3 l2 H4.
  destruct o as [[]|e|]; cbn [wp_cont]; [|done|done]. wp_step. intros r2 [= <-]. exists data, w'0.
  split; [done|]. rewrite app_nil_r.
  assert (outputs (Invoked (methodName tool) (method_args tool args ctx) :: l1 ++ l2) = outputs l1) as ->
    by (change (outputs (l1 ++ l2) = outputs l1); by rewrite outputs_app, H4, app_nil_r).
  done.
Qed.

(** ** Idempotency *)

Lemma run_tool_saves tool name all k store ctx agentName args w :
  idempotencyStore self = Some store ->
  wp (run_tool self host tool name all (Some k) ctx agentName args : M _) w (fun o w' _ => forall r,
    o = Ret r -> result_success r = true ->
    exists rec w0, ir_key rec = k /\ ir_result rec = r /\ idem_save store rec w0 = (Ret tt, w')).
Proof.
  intros Hs. unfold run_tool. wp_step. apply run_wp. intros o w1 l1 _. destruct o as [r1|e|]; cbn [wp_cont]; [|done|done].
  wp_step. apply run_wp. intros o w2 l2 _. destruct o as [r2|e|]; cbn [wp_cont]; [|done|done].
  unfold write_cache. rewrite Hs. wp_step. destruct (result_success r2) eqn:Hr2.
  - wp_steps. destruct o as [[]|e|]; cbn [wp_cont]; [|done|done]. wp_steps. intros r [= <-] _. eexists _, _. split; [|split]; [| |exact Hext]; reflexivity.
  - wp_steps. intros r [= <-]. congruence.
Qed.

(** A cached call is answered from the store alone: with a live context and a
    record under the call's key, the result is the recorded one, and neither the
    policies nor the method of the tool that is called are consulted.  The key is
    the caller's, scoped by tenant only, so the record may be another tool's. *)
Theorem cached_call_skips_policies (tool : @DiscoveredTool I) all ctx agentName ttl args toolCallId w store k rec w1 :
  idempotencyStore self = Some store -> resolveIdempotencyKey args ctx = Some k ->
  ctx_signal ctx && ph_aborted host w = false -> isDeadlineExceeded (deadline ctx) (ph_now host w) = false ->
  idem_get store k w = (Ret (Some rec), w1) ->
  execute self host tool all ctx agentName ttl args toolCallId w =
    (Ret (ir_result rec), w1, [CacheRead k (Some rec)]).
Proof.
  intros Hs Hk Ha Hd Hg. unfold execute, assert_live, read_cache.
  rewrite Hk, Hs. unfold bind, ask, ret, lift, emit. rewrite Ha, Hd, Hg. done.
Qed.

(** Retrying is idempotent: when a call with an idempotency key ran its method
    and succeeded, the same call repeated gives the recorded result, as the store
    serializes it, without running the method or asking a policy again, provided
    the store returns what was saved under a key and the context is still live. *)
Theorem retry_is_idempotent (tool : @DiscoveredTool I) all ctx agentName ttl args toolCallId w store k r w1 l1 id2 o w2 l2
    (snap : ToolExecutionResult -> ToolExecutionResult) :
  idempotencyStore self = Some store -> resolveIdempotencyKey args ctx = Some k ->
  (forall rec w w', idem_save store rec w = (Ret tt, w') ->
     exists rec' w'', idem_get store (ir_key rec) w' = (Ret (Some rec'), w'') /\
                      ir_result rec' = snap (ir_result rec)) ->
  execute self host tool all ctx agentName ttl args toolCallId w = (Ret r, w1, l1) ->
  result_success r = true -> count is_invoked l1 = 1%nat ->
  ctx_signal ctx && ph_aborted host w1 = false -> isDeadlineExceeded (deadline ctx) (ph_now host w1) = false ->
  execute self host tool all ctx agentName ttl args id2 w1 = (o, w2, l2) ->
  o = Ret (snap r) /\ evaluations l2 = [] /\ count is_invoked l2 = O.
Proof.
  intros Hs Hk Hlaw Hrun Hok Hinv Ha Hd Hrun2.
  assert (exists rec w0, ir_key rec = k /\ ir_result rec = r /\ idem_save store rec w0 = (Ret tt, w1)) as Hsaved.
  { enough (wp (execute self host tool all ctx agentName ttl args toolCallId : M _) w (fun o w' l => forall r,
      o = Ret r -> result_success r = true -> count is_invoked l = 1%nat ->
      exists rec w0, ir_key rec = k /\ ir_result rec = r /\ idem_save store rec w0 = (Ret tt, w'))) as Hwp
      by by apply (wp_run _ _ _ _ _ _ Hwp Hrun).
    clear -Hs Hk. unfold execute. wp_step. eapply wp_mono; [apply assert_live_wp|]. intros o w1 l [-> _].
    destruct o as [[]|e|]; cbn [wp_cont]; [|done|done]. wp_step. eapply wp_mono; [apply read_cache_wp|].
    intros o w2 pre [_ Hpre]. assert (count is_invoked pre = O) as Hpre0 by
      (destruct Hpre as [->|(k' & c & -> & _)]; done).
    destruct o as [[c|]|e|]; cbn [wp_cont]; [| |done|done].
    { wp_step. intros r _ _. rewrite app_nil_r, Hpre0. done. }
    wp_step. eapply wp_mono; [apply policy_chain_wp|]. intros o w3 lc [Hc _].
    destruct o as [[r|[|q reqs]]|e|]; cbn [wp_cont]; [| | |done|done].
    - wp_step. intros r' _ _. rewrite app_nil_r. autorewrite with count. rewrite Hpre0.
      by rewrite (chain_count is_invoked args lc) by (done || by intros []).
    - rewrite Hk. eapply wp_mono; [by apply run_tool_saves|]. eauto.
    - eapply wp_mono; [apply requestApproval_wp|]. intros o w4 l [[_ Hn]|(id & now & lq & -> & Hq & Ho)] r Hr.
      + by destruct (Hn r).
      + destruct Ho as [->| ->]; [|done]. injection Hr as <-. done. }
  destruct Hsaved as (rec & w0 & Hk1 & Hr1 & Hsv). destruct (Hlaw _ _ _ Hsv) as (rec' & w3 & Hg & Hsn). rewrite Hk1 in Hg.
  unfold execute, assert_live, read_cache in Hrun2.
  rewrite Hk, Hs in Hrun2. unfold bind, ask, ret, lift, emit in Hrun2. rewrite Ha, Hd, Hg in Hrun2.
  injection Hrun2 as <- <- <-. by rewrite Hsn, Hr1.
Qed.
End Rules.
End Terms.

(** * A governed tool set at work

    The in-memory idempotency store
    (packages/core/src/stores/in-memory/in-memory-idempotency.store.ts), a small
    host with in-memory stores, and the theorems on guarded calls applied to
    concrete runs of it. *)

#[local] Open Scope string_scope.
#[local] Open Scope list_scope.
#[local] Open Scope Z_scope.
#[local] Open Scope eff_scope.

Module InMemoryIdempotency.
Import Approvals LocalTool.

(** A record is kept as a JSON snapshot: its data loses what JSON cannot carry. *)
Definition snapshot_result (r : ToolExecutionResult) : ToolExecutionResult :=
  match r with ToolSuccess d p => ToolSuccess (default VUndef (jsonify d)) p | _ => r end.
Definition deserialize (r : IdempotencyRecord) : IdempotencyRecord :=
  {| ir_key := ir_key r; ir_toolName := ir_toolName r; ir_result := snapshot_result (ir_result r);
     ir_createdAt := ir_createdAt r; ir_expiresAt := ir_expiresAt r |}.

Notation state := (gmap string IdempotencyRecord) (only parsing).
Definition get (key : string) (m : state) : option IdempotencyRecord := deserialize <$> m !! key.
Definition save (r : IdempotencyRecord) (m : state) : state := <[ir_key r := r]> m.
Definition delete_ (key : string) (m : state) : state := delete key m.

(** What is saved under a key is what a later read of it returns, up to JSON,
    until it is saved over or deleted; expiry plays no part. *)
Theorem get_after_save (r : IdempotencyRecord) (k : string) (m : gmap string IdempotencyRecord) :
  get k (save r m) = (if bool_decide (ir_key r = k) then Some (deserialize r) else get k m) /\
  get k (delete_ (ir_key r) m) = (if bool_decide (ir_key r = k) then None else get k m).
Proof.
  unfold get, save, delete_. case_bool_decide as Hk.
  - subst. by rewrite lookup_insert_eq, lookup_delete_eq.
  - by rewrite lookup_insert_ne, lookup_delete_ne by done.
Qed.
End InMemoryIdempotency.

Module Demo.
Import Audit Approvals ScopeKey LocalTool Guard Terms.

(** The stores of the demo, side by side. *)
Definition world : Type := gmap string PendingApproval * gmap string IdempotencyRecord.

Definition store : ApprovalStore world := {|
  store_save := fun a w => (Ret tt, (InMemory.save a w.1, w.2));
  store_get := fun id w => (Ret (InMemory.get id w.1), w);
  store_delete := fun id w => (Ret tt, (InMemory.delete_ id w.1, w.2));
  store_claim := fun id w => let '(r, m) := InMemory.claim id w.1 in (Ret r, (m, w.2));
  store_addSignature :=
    Some (fun id s w => let '(r, m) := InMemory.addSignature id s w.1 in (Ret r, (m, w.2)));
|}.

Definition cache : @IdempotencyStore world := {|
  idem_get := fun k w => (Ret (InMemoryIdempotency.get k w.2), w);
  idem_save := fun r w => (Ret tt, (w.1, InMemoryIdempotency.save r w.2));
|}.

Definition class (id : positive) (name : string) : PolicyConstructor := {| pc_id := id; pc_name := name |}.
Definition policy (c : PolicyConstructor) (r : PolicyResult) (out : option PolicyOutputResult) : @ToolPolicy world := {|
  tp_constructor := c;
  evaluate := fun _ _ _ w => (Ret r, w);
  evaluateOutput := (fun o => fun _ _ _ _ w => (Ret o, w)) <$> out;
|}.

Definition Allow : PolicyConstructor := class 1 "Allow".
Definition Two : PolicyConstructor := class 2 "TwoApprovers".
Definition Short : PolicyConstructor := class 3 "ShortLived".
Definition Forbid : PolicyConstructor := class 4 "Forbid".
Definition Mask : PolicyConstructor := class 5 "Mask".

Definition provider : @LocalToolProvider world := {|
  policyInstances :=
    [policy Allow (PAllow None) None;
     policy Two (PRequireApproval "needs two" None (Some (num_of_Z 2))) None;
     policy Short (PRequireApproval "needs one" (Some 60) None) None;
     policy Forbid (PDeny "forbidden" None) None;
     policy Mask (PAllow None) (Some (OutSanitize (VStr "masked")))];
  approvalStore := store;
  audit := None;
  idempotencyStore := Some cache;
  defaultPolicies := None;
|}.

Definition host : @ProviderHost world unit unit := {|
  ph_aborted := fun _ => false;
  ph_now := fun _ => 1000;
  ph_randomUUID := fun w => (Ret "a1", w);
  ph_string := fun _ => EmptyString;
  moduleRef_get_tools := fun _ => None;
  construct := fun _ => None;
  moduleRef_get_policies := None;
  moduleRef_get_policy := fun _ => None;
  discover := fun _ => None;
  call_method := fun _ _ _ w => (Ret (VStr "secret"), w);
  warned := fun _ => [];
  set_warned := fun _ w => w;
|}.

Definition tool (policies : list PolicyConstructor) : @DiscoveredTool unit := {|
  methodName := "refund"; toolName := "refund"; dt_description := "refunds an order";
  params := [{| dp_index := 0; dp_name := "order"; dp_description := None; dp_type := PNumber; dp_required := true |}];
  contextParamIndex := Some 1%nat; policyConstructors := policies; exemptFromDefaultPolicies := false;
  instance := tt;
|}.

Definition args : obj := [("order", VNum (num_of_Z 42))].
Definition keyed : obj := [("idempotencyKey", VStr "k")].

Definition call (policies : list PolicyConstructor) (a : obj) (w : world) :=
  execute provider host (tool policies) policies demo_context "agent" (Some 3600) a (Some "c1") w.

Definition empty : world := (∅, ∅).

(** ** Witnesses *)

Lemma method_needs_every_policy_witness : exists o w l l1 l2 margs,
  call [Allow; Mask] args empty = (o, w, l) /\ l = l1 ++ Invoked "refund" margs :: l2 /\
  map fst (evaluations l1) = [Allow; Mask] /\ Forall allows (evaluations l1).
Proof.
  eexists _, _, _.
  edestruct (method_needs_every_policy provider host (tool [Allow; Mask]) [Allow; Mask] demo_context "agent"
    (Some 3600) args (Some "c1") empty) as (_ & _ & l1 & l2 & H1 & H2 & H3 & _);
    [vm_compute; reflexivity|right; right; left|].
  exists l1, l2. eexists. split; [vm_compute; reflexivity|]. split; [exact H1|]. split; [exact H2|exact H3].
Defined.

Lemma refusal_wins_witness : exists w l,
  call [Two; Forbid; Allow] args empty = (Ret (ToolDenied "forbidden" None), w, l) /\ count is_saved l = O.
Proof.
  eexists _, _. split; [vm_compute; reflexivity|].
  eapply (refusal_wins provider host (tool [Two; Forbid; Allow]) [Two; Forbid; Allow] demo_context "agent"
    (Some 3600) args (Some "c1") empty _ _ _ Forbid args (PDeny "forbidden" None) "forbidden");
    [vm_compute; reflexivity|right; left|reflexivity|done].
Defined.

(** Two policies ask for approval: the strictest terms of both apply. *)
Lemma approval_on_strictest_terms_witness : exists o w l a,
  call [Two; Short] args empty = (o, w, l) /\ requiredApprovalsOf a = 2 /\ ap_expiresAt a = Some 61000 /\
  Forall (fun q => rq_requiredApprovals q <= requiredApprovalsOf a) (requests_of (evaluations l)).
Proof.
  eexists _, _, _, _.
  edestruct (approval_on_strictest_terms provider host (tool [Two; Short]) [Two; Short] demo_context "agent"
    (Some 3600) args (Some "c1") empty) as (_ & _ & _ & _ & (_ & Hall) & _);
    [vm_compute; reflexivity|right; right; left|].
  split; [vm_compute; reflexivity|]. split; [|split; [|exact Hall]]; vm_compute; reflexivity.
Defined.

Lemma rails_filter_output_witness : exists w l,
  run_tool provider host (tool []) "refund" [Allow; Mask] None demo_context "agent" args empty =
    (Ret (ToolSuccess (VStr "masked") (Some (tool_provenance "refund"))), w, l) /\
  map (fun x => x.1.1) (outputs l) = [Mask].
Proof.
  eexists _, _. split; [vm_compute; reflexivity|].
  edestruct (rails_filter_output provider host (tool []) "refund" [Allow; Mask] None demo_context "agent" args empty)
    as (data & w1 & _ & _ & _ & Hr); [vm_compute; reflexivity|]. exact (Hr eq_refl).
Defined.

(** A record of another tool answers a call that a policy forbids. *)
Definition other_record : IdempotencyRecord :=
  {| ir_key := scopedIdempotencyKey demo_context "k"; ir_toolName := Some "lookup";
     ir_result := ToolSuccess (VStr "looked up") None; ir_createdAt := 0; ir_expiresAt := None |}.

Lemma cached_call_skips_policies_witness : exists w l,
  call [Forbid] keyed (∅, InMemoryIdempotency.save other_record ∅) =
    (Ret (ToolSuccess (VStr "looked up") None), w, l) /\ evaluations l = [].
Proof.
  eexists _, _. split.
  - eapply (cached_call_skips_policies provider host (tool [Forbid]) [Forbid] demo_context "agent" (Some 3600)
      keyed (Some "c1") (∅, InMemoryIdempotency.save other_record ∅) cache
      (scopedIdempotencyKey demo_context "k") (InMemoryIdempotency.deserialize other_record));
      [reflexivity|reflexivity|reflexivity|reflexivity|vm_compute; reflexivity].
  - reflexivity.
Defined.

Definition first_call := call [Allow; Mask] keyed empty.
Definition second_call := call [Allow; Mask] keyed first_call.1.2.

Lemma retry_is_idempotent_witness :
  second_call.1.1 = Ret (ToolSuccess (VStr "masked") (Some (tool_provenance "refund"))) /\
  evaluations second_call.2 = [] /\ count is_invoked second_call.2 = O.
Proof.
  eapply (retry_is_idempotent provider host (tool [Allow; Mask]) [Allow; Mask] demo_context "agent" (Some 3600)
    keyed (Some "c1") empty cache (scopedIdempotencyKey demo_context "k")
    (ToolSuccess (VStr "masked") (Some (tool_provenance "refund"))) first_call.1.2 first_call.2 (Some "c1")
    second_call.1.1 second_call.1.2 second_call.2 InMemoryIdempotency.snapshot_result);
    [reflexivity|reflexivity| |vm_compute; reflexivity|reflexivity|vm_compute; reflexivity|reflexivity|reflexivity|].
  - intros rec w w' [= <-]. exists (InMemoryIdempotency.deserialize rec). eexists. split; [|reflexivity].
    simpl. unfold InMemoryIdempotency.get, InMemoryIdempotency.save. by rewrite lookup_insert_eq.
  - unfold second_call, call. destruct (execute _ _ _ _ _ _ _ _ _ _) as [[o w] l]. reflexivity.
Defined.

End Demo.
