(* ===== verification/ApprovalService.v ===== *)
(** * Settling approvals (packages/core/src/services/approval.service.ts)

    [ApprovalService] decides who may settle a pending approval, collects the
    signatures of dual control, claims the record exactly once and hands it to the
    runner.  The store is any implementation of the interface of [Approvals]; the
    authorizer, the runner and the digest are parameters. *)

From S2P Require Export Approvals HashChain.

#[local] Open Scope string_scope.
#[local] Open Scope list_scope.
#[local] Open Scope Z_scope.
#[local] Open Scope eff_scope.

Module Service.
Import Audit Approvals.

(** ** The version of a record *)

Definition opt_list (o : option (list string)) : value :=
  match o with Some l => VArr (map VStr l) | None => VUndef end.
Definition opt_date (o : option Z) : value := match o with Some t => VDate (Some t) | None => VUndef end.

Definition security_value (s : AgentSecurityContext) : value :=
  VObj [("userId", opt_str (userId s)); ("tenantId", opt_str (tenantId s)); ("roles", opt_list (roles s));
        ("permissions", opt_list (permissions s))].

(** The live abort signal carries no content. *)
Definition context_value (c : AgentContext) : value :=
  VObj [("security", security_value (security c)); ("sessionId", VStr (ctx_sessionId c));
        ("traceId", VStr (ctx_traceId c)); ("parentTraceId", opt_str (ctx_parentTraceId c));
        ("rootTraceId", opt_str (ctx_rootTraceId c));
        ("data", match ctx_data c with Some d => VObj d | None => VUndef end);
        ("deadline", opt_date (deadline c))].

Definition actor_value (a : AuditActor) : value :=
  VObj [("userId", opt_str (actor_userId a)); ("tenantId", opt_str (actor_tenantId a));
        ("roles", opt_list (actor_roles a)); ("label", opt_str (actor_label a))].

Definition call_value (c : ModelToolCall) : value :=
  VObj [("id", VStr (call_id c)); ("name", VStr (call_name c)); ("args", VObj (call_args c))].

Definition message_value (m : ModelMessage) : value :=
  match m with
  | SystemMsg c => VObj [("role", VStr "system"); ("content", VStr c)]
  | UserMsg c => VObj [("role", VStr "user"); ("content", VStr c)]
  | AssistantMsg c calls =>
      VObj [("role", VStr "assistant"); ("content", VStr c);
            ("toolCalls", match calls with Some l => VArr (map call_value l) | None => VUndef end)]
  | ToolMsg id name c p =>
      VObj [("role", VStr "tool"); ("toolCallId", VStr id); ("toolName", VStr name); ("content", VStr c);
            ("provenance", opt_provenance p)]
  end.

Definition stored_structured_value (s : StoredStructuredOutput) : value :=
  VObj [("schema", VObj (so_schema s)); ("name", opt_str (so_name s));
        ("description", opt_str (so_description s));
        ("strict", match so_strict s with Some b => VBool b | None => VUndef end);
        ("maxRepairAttempts", match so_maxRepairAttempts s with Some n => VNum n | None => VUndef end)].

Definition checkpoint_value (c : ApprovalCheckpoint) : value :=
  VObj [("version", VNum (num_of_Z (ck_version c))); ("messages", VArr (map message_value (ck_messages c)));
        ("structuredOutput", match ck_structuredOutput c with
                             | Some s => stored_structured_value s
                             | None => VUndef
                             end)].

(** The fields of a record other than its signatures and its checkpoint. *)
Definition decided_fields (a : PendingApproval) : obj :=
  [("id", VStr (ap_id a)); ("agentName", VStr (ap_agentName a)); ("toolName", VStr (ap_toolName a));
   ("args", VObj (ap_args a)); ("context", context_value (ap_context a)); ("reason", VStr (ap_reason a));
   ("createdAt", VDate (Some (ap_createdAt a))); ("expiresAt", opt_date (ap_expiresAt a));
   ("toolCallId", opt_str (ap_toolCallId a));
   ("requestedBy", match ap_requestedBy a with Some r => actor_value r | None => VUndef end);
   ("requiredApprovals", opt_num (ap_requiredApprovals a))].

Definition fingerprint (a : PendingApproval) : string :=
  Canonical.canonicalize
    (VObj (decided_fields a ++
           [("checkpoint", match ap_checkpoint a with Some c => checkpoint_value c | None => VUndef end)])).

Definition isExpired (a : PendingApproval) (now : Z) : bool :=
  match ap_expiresAt a with Some e => e <? now | None => false end.

(** ** The service *)

Record ApprovalGovernanceOptions : Type := {
  enforceSeparationOfDuties : bool;
  enforceTenantIsolation : bool;
  requireAuthorizer : bool;
}.

(** [boolean | ApprovalAuthorizationDecision] *)
Inductive Verdict : Type := VerdictBool (b : bool) | VerdictAllowed | VerdictRefused (reason : option string).

Record SettleApprovalOptions : Type := { so_actor : option AuditActor; so_signal : bool }.

Inductive Settlement : Type :=
| SettledTurn (r : AgentResult)
| SettledTool (r : ToolExecutionResult).

Record Guards : Type := { authorizedFingerprint : option string; g_restore : PendingApproval }.

Definition outcome_of (d : ApprovalDecision) : SettlementOutcome :=
  match d with DecideApprove => Approved | DecideReject _ => Rejected end.
Definition approves (d : ApprovalDecision) : bool :=
  match d with DecideApprove => true | DecideReject _ => false end.

(** Whether a refusal from [checkAuthorization] counts: [if (refusal)]. *)
Definition refuses (o : option string) : bool := truthy_opt o.

Fixpoint remove_first {A} (p : A -> bool) (l : list A) : list A :=
  match l with [] => [] | x :: l' => if p x then l' else x :: remove_first p l' end.

Definition DUAL_CONTROL_IDENTITY : string :=
  "dual control: every approver must be identified by actor.userId so signatures can be told apart".
Definition CHANGED_AFTER_SIGNING : string :=
  "the approval changed after some approvers signed, so their signatures do not apply to it".
Definition CHANGED_BEFORE_CLAIM : string :=
  "the approval changed between authorization and claim, so the decision no longer applies to it".
Definition REFUSED_BY_AUTHORIZER : string := "refused by the registered ApprovalAuthorizer".

(** Tenant isolation and separation of duties: the reason of a refusal. *)
Definition tenantIsolation (a : PendingApproval) (actor : option AuditActor) : option string :=
  match tenantId (security (ap_context a)) with
  | None => Some "tenant isolation: approval carries no tenant, so the approver cannot be shown to belong to it"
  | Some t =>
      match actor ≫= actor_tenantId with
      | None => Some ("tenant isolation: approval belongs to tenant " +:+ in_quotes t +:+
                      " and the approver supplied no tenant")
      | Some t' =>
          if bool_decide (t' = t) then None
          else Some ("tenant isolation: approval belongs to tenant " +:+ in_quotes t +:+ ", not " +:+ in_quotes t')
      end
  end.

(** The identity the action is attributed to. *)
Definition requester (a : PendingApproval) : option string * option string :=
  match ap_requestedBy a with
  | Some r => (actor_userId r, actor_tenantId r)
  | None => (userId (security (ap_context a)), tenantId (security (ap_context a)))
  end.

Definition separationOfDuties (a : PendingApproval) (actor : option AuditActor) : option string :=
  let requesterTenant := orelse (requester a).2 (tenantId (security (ap_context a))) in
  let differentTenant := match requesterTenant, actor ≫= actor_tenantId with
                         | Some t, Some t' => negb (bool_decide (t = t'))
                         | _, _ => false
                         end in
  match (requester a).1, actor ≫= actor_userId with
  | Some u, Some u' =>
      if bool_decide (u = u') && negb differentTenant then
        Some ("separation of duties: " +:+ in_quotes u' +:+ " requested this action and cannot also approve it")
      else None
  | _, _ => None
  end.

Section Service.
Context {W : Type}.

Definition Ext (A : Type) : Type := W -> outcome error A * W.

Record ApprovalService : Type := {
  store : ApprovalStore W;
  settleApproval : PendingApproval -> ApprovalDecision -> SettleApprovalOptions -> Ext Settlement;
  s_audit : option (AuditTrail W);
  authorizer : option (PendingApproval -> option AuditActor -> Ext Verdict);
  governance : ApprovalGovernanceOptions;
}.

Record ServiceHost : Type := { s_aborted : W -> bool; s_now : W -> Z; sha256 : string -> string }.

Inductive event : Type :=
| StoreRead (id : string) (r : option PendingApproval)
| Claimed (id : string) (r : option PendingApproval)
| SignatureAdded (id : string) (s : ApprovalSignature) (r : option ApprovalSignatureResult)
| Saved (a : PendingApproval) (accepted : bool)
| ExpiryChecked (a : PendingApproval) (now : Z)
| AuthorizerAsked (a : PendingApproval) (actor : option AuditActor) (v : Verdict)
| RunnerCalled (a : PendingApproval) (d : ApprovalDecision)
| AuditRecorded (e : AuditEvent).

Notation M := (M error event W).

Context (self : ApprovalService) (host : ServiceHost).

Definition approvalVersion (a : PendingApproval) : string :=
  sha256 host (Canonical.canonicalize (VObj (decided_fields a))).

Definition throwIfAborted (signal : bool) : M unit :=
  a <- ask (s_aborted host) ;;
  if signal && a then throw (AgenticErr (ExecutionCancelledError None)) else ret tt.

Definition record_audit (a : PendingApproval) (body : AuditEventBody) : M unit :=
  match s_audit self with
  | None => ret tt
  | Some _ =>
      t <- ask (s_now host) ;;
      let ev := {| ev_base := auditEnvelope t (ap_context a); ev_body := body |} in
      emit (AuditRecorded ev) ;; lift (record_optional (s_audit self) ev)
  end.

Definition recordRefusal (a : PendingApproval) (o : SettlementOutcome) (reason : string)
    (actor : option AuditActor) : M unit :=
  record_audit a (ApprovalSettlementDenied (ap_id a) (ap_agentName a) (ap_toolName a) o reason actor).

(** Puts an approval back into the store, best effort: whether the store took it. *)
Definition restore (a : PendingApproval) : M bool :=
  accepted <- catch (lift (store_save (ApprovalStore := store self) a) ;; ret true) (fun _ => ret false) ;;
  emit (Saved a accepted) ;;
  ret accepted.

(** [isExpired(a)], against the clock of that moment. *)
Definition checkExpired (a : PendingApproval) : M bool :=
  now <- ask (s_now host) ;;
  emit (ExpiryChecked a now) ;;
  ret (isExpired a now).

Definition unauthorized {A} (id reason : string) : M A :=
  throw (AgenticErr (ApprovalNotAuthorizedError id reason)).

Definition unrestored (restored : bool) (reason : string) : string :=
  if restored then reason else reason +:+ " (and could not be restored to the store)".

Definition refuseClaimed {A} (claimed to_restore : PendingApproval) (o : SettlementOutcome) (reason : string)
    (actor : option AuditActor) : M A :=
  restored <- restore to_restore ;;
  recordRefusal claimed o (unrestored restored reason) actor ;;
  unauthorized (ap_id claimed) reason.

Definition recordSettled (claimed : PendingApproval) (d : ApprovalDecision) (actor : option AuditActor) : M unit :=
  record_audit claimed
    (ApprovalSettled (ap_id claimed) (ap_agentName claimed) (ap_toolName claimed) (outcome_of d) actor
       (match ap_signatures claimed with
        | None | Some [] => None
        | Some l => Some (map sig_actor l)
        end)
       (Some match d with DecideReject (Some r) => r | _ => ap_reason claimed end)
       (Some (ap_args claimed))).

Definition checkAuthorization (a : PendingApproval) (actor : option AuditActor) : M (option string) :=
  match (if enforceTenantIsolation (governance self) then tenantIsolation a actor else None) with
  | Some r => ret (Some r)
  | None =>
      match (if enforceSeparationOfDuties (governance self) then separationOfDuties a actor else None) with
      | Some r => ret (Some r)
      | None =>
          match authorizer self with
          | None => ret (if requireAuthorizer (governance self)
                         then Some "no ApprovalAuthorizer is registered and approvals.requireAuthorizer is enabled"
                         else None)
          | Some f =>
              v <- lift (f a actor) ;;
              emit (AuthorizerAsked a actor v) ;;
              ret match v with
                  | VerdictBool true | VerdictAllowed => None
                  | VerdictBool false => Some REFUSED_BY_AUTHORIZER
                  | VerdictRefused reason => Some (coalesce reason REFUSED_BY_AUTHORIZER)
                  end
          end
      end
  end.

Definition governed : bool :=
  is_some (authorizer self) || enforceSeparationOfDuties (governance self) ||
  enforceTenantIsolation (governance self) || requireAuthorizer (governance self).

(** Claims an approval; if the caller cancelled meanwhile, puts it back. *)
Definition claimOrCancel (id : string) (signal : bool) : M PendingApproval :=
  throwIfAborted signal ;;
  claimed <- lift (store_claim (ApprovalStore := store self) id) ;;
  emit (Claimed id claimed) ;;
  match claimed with
  | None => throw (AgenticErr (ApprovalNotFoundError id))
  | Some c =>
      a <- ask (s_aborted host) ;;
      if signal && a then restore c ;; throw (AgenticErr (ExecutionCancelledError None)) else ret c
  end.

(** The runner's failure, after the approval was consumed. *)
Definition settlement_failed (claimed : PendingApproval) (d : ApprovalDecision) (actor : option AuditActor)
    (err : error) : M Settlement :=
  match err with
  | AgenticErr (StructuredOutputError _ _ _ _) => recordSettled claimed d actor ;; throw err
  | _ =>
      record_audit claimed (ApprovalSettlementFailed (ap_id claimed) (ap_agentName claimed) (ap_toolName claimed)
                              (outcome_of d) (error_text err) actor) ;;
      throw err
  end.

Definition run_settlement (claimed : PendingApproval) (d : ApprovalDecision) (options : SettleApprovalOptions)
    : M Settlement :=
  emit (RunnerCalled claimed d) ;;
  r <- catch (x <- lift (settleApproval self claimed d options) ;; ret (inl x)) (fun e => ret (inr e)) ;;
  match r with
  | inl x => recordSettled claimed d (so_actor options) ;; ret x
  | inr e => settlement_failed claimed d (so_actor options) e
  end.

Definition too_few_signatures (claimed : PendingApproval) : string :=
  "dual control: the approval requires " +:+ Z_to_string (requiredApprovalsOf claimed) +:+ " approvers and " +:+
  Z_to_string (signatureCount claimed) +:+ " have signed".

(** Every path that settles an approval goes through here. *)
Definition applyClaimed (claimed : PendingApproval) (d : ApprovalDecision) (options : SettleApprovalOptions)
    (guards : Guards) (onAuthorized : M unit) : M Settlement :=
  if match authorizedFingerprint guards with
     | Some f => negb (bool_decide (fingerprint claimed = f))
     | None => false
     end
  then refuseClaimed claimed (g_restore guards) (outcome_of d) CHANGED_BEFORE_CLAIM (so_actor options)
  else
    expired <- checkExpired claimed ;;
    if expired then
      let expiredAt := coalesce (ap_expiresAt claimed) 0 in
      record_audit claimed (ApprovalExpired (ap_id claimed) (ap_agentName claimed) (ap_toolName claimed)
                              expiredAt (so_actor options)) ;;
      throw (AgenticErr (ApprovalExpiredError (ap_id claimed) expiredAt))
    else if approves d && (1 <? requiredApprovalsOf claimed) &&
            (signatureCount claimed <? requiredApprovalsOf claimed)
    then refuseClaimed claimed (g_restore guards) (outcome_of d) (too_few_signatures claimed) (so_actor options)
    else
      onAuthorized ;;
      run_settlement claimed d options.

(** The signature just appended, told apart by signer and time. *)
Definition is_appended (u : string) (at_ : Z) (s : ApprovalSignature) : bool :=
  bool_decide (actor_userId (sig_actor s) = Some u) && (signedAt s =? at_).

Definition recordSigned (id : string) (a : PendingApproval) (actor : AuditActor) (appended : bool) (required : Z)
    : M unit :=
  if negb appended then ret tt
  else record_audit a (ApprovalSigned id (ap_agentName a) (ap_toolName a) actor (signatureCount a)
                         (num_of_Z required)).

(** The signature that met the threshold is the claim. *)
Definition settle_signed (id : string) (result : PendingApproval) (u : string) (at_ : Z) (actor : AuditActor)
    (required : Z) (options : SettleApprovalOptions) : M Settlement :=
  let signatures := default [] (ap_signatures result) in
  let appended := existsb (is_appended u at_) signatures in
  let others := remove_first (is_appended u at_) signatures in
  let withoutThisSignature := set_signatures (Some others) result in
  ab <- ask (s_aborted host) ;;
  if so_signal options && ab then
    restore withoutThisSignature ;; throw (AgenticErr (ExecutionCancelledError None))
  else
    let version := approvalVersion result in
    let current s := bool_decide (approvalVersion_of s = Some version) in
    if negb (forallb current signatures) then
      restored <- restore (set_signatures (Some (List.filter current others)) result) ;;
      recordRefusal result Approved (unrestored restored CHANGED_AFTER_SIGNING) (Some actor) ;;
      unauthorized id CHANGED_AFTER_SIGNING
    else
      applyClaimed result DecideApprove options
        {| authorizedFingerprint := None; g_restore := withoutThisSignature |}
        (recordSigned id result actor appended required).

Definition sign (pending : PendingApproval) (options : SettleApprovalOptions) : M Settlement :=
  let id := ap_id pending in
  let required := requiredApprovalsOf pending in
  match store_addSignature (ApprovalStore := store self) with
  | None => throw (AgenticErr (ApprovalSignaturesUnsupportedError id))
  | Some addSignature =>
      match so_actor options with
      | Some actor =>
          match actor_userId actor with
          | Some u =>
              if negb (truthy u) then
                recordRefusal pending Approved DUAL_CONTROL_IDENTITY (Some actor) ;;
                unauthorized id DUAL_CONTROL_IDENTITY
              else
                refusal <- checkAuthorization pending (Some actor) ;;
                if refuses refusal then
                  let reason := coalesce refusal EmptyString in
                  recordRefusal pending Approved reason (Some actor) ;;
                  unauthorized id reason
                else
                  expired <- checkExpired pending ;;
                  if expired then
                    claimed <- claimOrCancel id (so_signal options) ;;
                    applyClaimed claimed DecideApprove options
                      {| authorizedFingerprint := None; g_restore := claimed |} (ret tt)
                  else
                    at_ <- ask (s_now host) ;;
                    let signature := {| sig_actor := actor; signedAt := at_;
                                        approvalVersion_of := Some (approvalVersion pending) |} in
                    throwIfAborted (so_signal options) ;;
                    result <- lift (addSignature id signature) ;;
                    emit (SignatureAdded id signature result) ;;
                    match result with
                    | None => throw (AgenticErr (ApprovalNotFoundError id))
                    | Some (SigDuplicate _) =>
                        let reason := "dual control: " +:+ in_quotes u +:+
                                      " has already signed this approval and cannot be counted twice" in
                        recordRefusal pending Approved reason (Some actor) ;;
                        unauthorized id reason
                    | Some (SigPending a) =>
                        recordSigned id a actor (existsb (is_appended u at_) (default [] (ap_signatures a))) required ;;
                        ret (SettledTool (ToolPending (ap_reason a) id (Some required) (Some (signatureCount a)) None))
                    | Some (SigComplete a) => settle_signed id a u at_ actor required options
                    end
          | None =>
              recordRefusal pending Approved DUAL_CONTROL_IDENTITY (Some actor) ;;
              unauthorized id DUAL_CONTROL_IDENTITY
          end
      | None =>
          recordRefusal pending Approved DUAL_CONTROL_IDENTITY None ;;
          unauthorized id DUAL_CONTROL_IDENTITY
      end
  end.

Definition claim_and_apply (id : string) (d : ApprovalDecision) (options : SettleApprovalOptions)
    (fp : option string) : M Settlement :=
  claimed <- claimOrCancel id (so_signal options) ;;
  applyClaimed claimed d options {| authorizedFingerprint := fp; g_restore := claimed |} (ret tt).

Definition settle (id : string) (d : ApprovalDecision) (options : SettleApprovalOptions) : M Settlement :=
  throwIfAborted (so_signal options) ;;
  if governed || approves d then
    pending <- lift (store_get (ApprovalStore := store self) id) ;;
    emit (StoreRead id pending) ;;
    match pending with
    | None => throw (AgenticErr (ApprovalNotFoundError id))
    | Some p =>
        if approves d && (1 <? requiredApprovalsOf p) then sign p options
        else if governed then
          refusal <- checkAuthorization p (so_actor options) ;;
          if refuses refusal then
            let reason := coalesce refusal EmptyString in
            recordRefusal p (outcome_of d) reason (so_actor options) ;;
            unauthorized id reason
          else claim_and_apply id d options (Some (fingerprint p))
        else claim_and_apply id d options None
    end
  else claim_and_apply id d options None.

Definition approve (id : string) (options : SettleApprovalOptions) : M Settlement :=
  settle id DecideApprove options.
Definition reject (id : string) (reason : option string) (options : SettleApprovalOptions) : M Settlement :=
  settle id (DecideReject reason) options.

End Service.
End Service.
