(* ===== verification/ApprovalSafety.v ===== *)
(** * What settling an approval can do

    Every run of [Service.settle], for any store, authorizer, runner, audit trail
    and clock: the tool runs only under governance, and a record taken out of the
    store is run, put back, or reported expired, unless the store refuses it. Below it, who may settle ([Governance]). *)

From S2P Require Export ApprovalService.

#[local] Open Scope string_scope.
#[local] Open Scope list_scope.
#[local] Open Scope Z_scope.
#[local] Open Scope eff_scope.

Module Safety.
Import Audit Approvals Service.

(** ** Reading a run *)

Definition quiet (e : event) : Prop := match e with AuditRecorded _ | ExpiryChecked _ _ => True | _ => False end.

(** The record an event takes out of the store. *)
Definition taken_by (e : event) : option PendingApproval :=
  match e with Claimed _ r => r | SignatureAdded _ _ (Some (SigComplete a)) => Some a | _ => None end.
Definition is_runner_call (e : event) : bool := match e with RunnerCalled _ _ => true | _ => false end.
Definition is_save (e : event) : bool := match e with Saved _ _ => true | _ => false end.

(** Events that neither take a record, put one back nor run anything. *)
Definition idle (e : event) : Prop :=
  match e with
  | RunnerCalled _ _ | Saved _ _ => False
  | _ => taken_by e = None
  end.

Lemma quiet_idle l : Forall quiet l -> Forall idle l.
Proof. intros H. eapply Forall_impl; [exact H|]. by intros []. Qed.

Lemma idle_counts l : Forall idle l -> count is_runner_call l = O /\ count is_save l = O.
Proof.
  intros H. split; apply count_zero; (eapply Forall_impl; [exact H|]); by intros [].
Qed.

(** A run that hung before it could call the runner. *)
Lemma idle_then pre e : Forall idle pre -> is_runner_call e = false -> count is_runner_call (pre ++ [e]) = O.
Proof. intros Hp He. destruct (idle_counts _ Hp) as [Hc _]. by rewrite count_app, count_cons, Hc, He. Qed.

Lemma idle_then_once pre e lf : Forall idle pre -> is_runner_call e = false ->
  count is_runner_call lf = 1%nat -> count is_runner_call (pre ++ e :: lf) = 1%nat.
Proof. intros Hp He Hn. destruct (idle_counts _ Hp) as [Hc _]. by rewrite count_app, count_cons, Hc, He, Hn. Qed.

Lemma not_called l e : count is_runner_call l = O -> e ∈ l -> is_runner_call e = false.
Proof.
  intros Hl He. induction He as [e l|e x l _ IH]; rewrite count_cons in Hl.
  - by destruct (is_runner_call e).
  - apply IH. lia.
Qed.

(** The answers of an authorizer that permit a settlement. *)
Definition permits (v : Verdict) : Prop := v = VerdictBool true \/ v = VerdictAllowed.

(** A refusal whose reason is the empty string, which the service does not notice. *)
Definition unnoticed : Verdict := VerdictRefused (Some EmptyString).

Section Rules.
Context {W : Type}.
Context (self : @ApprovalService W) (host : @ServiceHost W).

Notation M := (M error event W).

Definition cleared (a : PendingApproval) (actor : option AuditActor) (l : list event) : Prop :=
  (enforceTenantIsolation (governance self) = true -> tenantIsolation a actor = None) /\
  (enforceSeparationOfDuties (governance self) = true -> separationOfDuties a actor = None) /\
  match authorizer self with
  | None => requireAuthorizer (governance self) = false
  | Some _ => exists v, AuthorizerAsked a actor v ∈ l /\ (v <> unnoticed -> permits v)
  end.

Lemma service_audit_wp a body w :
  wp (record_audit self host a body : M unit) w (fun o _ l => Forall quiet l /\ (o = Ret tt \/ o = Diverge)).
Proof.
  unfold record_audit. destruct (s_audit self) eqn:Ha; [|wp_step; split; [constructor|by left]].
  wp_steps. split; [by repeat constructor|]. by eapply record_optional_no_throw.
Qed.

(** Recording, then failing. *)
Lemma audit_throw {A} a body e w :
  wp (record_audit self host a body ;; throw e : M A) w (fun o _ l => Forall quiet l /\ (o = Throw e \/ o = Diverge)).
Proof.
  wp_step. eapply wp_mono; [apply service_audit_wp|]. intros o w' l [Hl [->| ->]]; cbn [wp_cont].
  - wp_step. rewrite app_nil_r. split; [done|by left].
  - split; [done|by right].
Qed.

Lemma restore_wp a w :
  wp (restore self a : M bool) w (fun o _ l =>
    l = [] /\ o = Diverge \/ exists b, l = [Saved a b] /\ o = Ret b).
Proof.
  unfold restore. wp_steps. destruct o as [[]|e|]; cbn [wp_cont]; wp_steps; eauto.
Qed.

Lemma checkExpired_wp a w :
  wp (checkExpired host a : M bool) w (fun o _ l =>
    exists t, l = [ExpiryChecked a t] /\ o = Ret (isExpired a t)).
Proof. unfold checkExpired. wp_steps. eauto. Qed.

Lemma refuseClaimed_wp {A} c rst so reason actor w :
  wp (refuseClaimed self host c rst so reason actor : M A) w (fun o _ l =>
    l = [] /\ o = Diverge \/
    exists b lq, l = Saved rst b :: lq /\ Forall quiet lq /\
      (o = Throw (AgenticErr (ApprovalNotAuthorizedError (ap_id c) reason)) \/ o = Diverge)).
Proof.
  unfold refuseClaimed. wp_step. eapply wp_mono; [apply restore_wp|].
  intros o w' l [[-> ->]|(b & -> & ->)]; cbn [wp_cont]; [by left|].
  eapply wp_mono; [apply audit_throw|]. intros o w2 l [Hl Ho]. right. by exists b, l.
Qed.

(** *** Authorization *)

Lemma quoted_truthy (p s : string) : truthy p = true -> truthy (p +:+ s) = true.
Proof. by destruct p. Qed.

Lemma tenantIsolation_truthy a actor r : tenantIsolation a actor = Some r -> truthy r = true.
Proof.
  unfold tenantIsolation. destruct (tenantId _); [|by intros [= <-]].
  destruct (actor ≫= _); [|intros [= <-]; by apply quoted_truthy].
  case_bool_decide; [done|]. intros [= <-]. by apply quoted_truthy.
Qed.

Lemma separationOfDuties_truthy a actor r : separationOfDuties a actor = Some r -> truthy r = true.
Proof.
  unfold separationOfDuties. destruct (requester a).1, (actor ≫= actor_userId); try done. cbv zeta.
  destruct (_ && _); [|done]. intros [= <-]. by apply quoted_truthy.
Qed.

Lemma checkAuthorization_wp a actor w :
  wp (checkAuthorization self a actor : M _) w (fun o _ l =>
    Forall idle l /\ forall r, o = Ret r -> refuses r = false -> cleared a actor l).
Proof.
  unfold checkAuthorization, cleared.
  destruct (if enforceTenantIsolation _ then _ else _) as [r|] eqn:Ht.
  { wp_step. split; [constructor|]. intros r' [= <-] Hr. destruct (enforceTenantIsolation _); [|done].
    apply tenantIsolation_truthy in Ht. unfold refuses, truthy_opt in Hr. congruence. }
  destruct (if enforceSeparationOfDuties _ then _ else _) as [r|] eqn:Hs.
  { wp_step. split; [constructor|]. intros r' [= <-] Hr. destruct (enforceSeparationOfDuties _); [|done].
    apply separationOfDuties_truthy in Hs. unfold refuses, truthy_opt in Hr. congruence. }
  destruct (authorizer self) as [f|].
  - wp_steps. destruct o as [v|e|]; cbn [wp_cont]; [|by split; [constructor|]..].
    wp_steps. split; [by repeat constructor|]. intros r [= <-] Hr.
    split; [by intros He; rewrite He in Ht|]. split; [by intros He; rewrite He in Hs|].
    exists v. split; [by left|]. unfold permits, unnoticed. intros Hv.
    destruct v as [[]| |[r|]]; simpl in Hr; try done; auto. by destruct r.
  - wp_step. split; [constructor|]. intros r [= <-] Hr.
    split; [by intros He; rewrite He in Ht|]. split; [by intros He; rewrite He in Hs|].
    by destruct (requireAuthorizer _).
Qed.

(** *** After the claim *)

Inductive fate (a rst : PendingApproval) (d : ApprovalDecision) (fp : option string)
    : outcome error Settlement -> list event -> Prop :=
| FateSettled o l1 l2 t : Forall quiet l1 -> Forall quiet l2 -> isExpired a t = false ->
    (approves d = true -> 1 < requiredApprovalsOf a -> requiredApprovalsOf a <= signatureCount a) ->
    (forall f, fp = Some f -> fingerprint a = f) ->
    fate a rst d fp o (ExpiryChecked a t :: l1 ++ RunnerCalled a d :: l2)
| FateExpired o l e t : Forall quiet l -> isExpired a t = true ->
    o = Throw (AgenticErr (ApprovalExpiredError (ap_id a) e)) \/ o = Diverge ->
    fate a rst d fp o (ExpiryChecked a t :: l)
| FateRefused o l1 b l2 reason : Forall quiet l1 -> Forall quiet l2 ->
    o = Throw (AgenticErr (ApprovalNotAuthorizedError (ap_id a) reason)) \/ o = Diverge ->
    fate a rst d fp o (l1 ++ Saved rst b :: l2)
| FateHung l : Forall quiet l -> fate a rst d fp Diverge l.

Lemma settlement_end_wp a d options (r : Settlement + error) w :
  wp (match r with
      | inl x => recordSettled self host a d (so_actor options) ;; ret x
      | inr e => settlement_failed self host a d (so_actor options) e
      end : M Settlement) w (fun _ _ l => Forall quiet l).
Proof.
  destruct r as [x|e].
  - wp_step. eapply wp_mono; [apply service_audit_wp|]. intros o w' l [Hl [->| ->]]; cbn [wp_cont]; [|done].
    wp_step. by rewrite app_nil_r.
  - unfold settlement_failed. repeat case_goal; (eapply wp_mono; [apply audit_throw|]); by intros ? ? ? [? _].
Qed.

Lemma run_settlement_wp a d options w :
  wp (run_settlement self host a d options : M _) w (fun _ _ l =>
    exists l2, l = RunnerCalled a d :: l2 /\ Forall quiet l2).
Proof.
  unfold run_settlement. wp_step. apply wp_emit. cbn [wp_cont]. wp_step.
  apply wp_catch, wp_bind, wp_lift. intros o w' _. destruct o as [x|e|]; cbn [wp_cont].
  - wp_step. eapply wp_mono; [apply (settlement_end_wp a d options (inl x))|]. intros o w2 l Hl. by exists l.
  - wp_step. eapply wp_mono; [apply (settlement_end_wp a d options (inr e))|]. intros o w2 l Hl. by exists l.
  - by exists [].
Qed.

Lemma applyClaimed_wp a d options g (on : M unit) w :
  (forall w, wp on w (fun o _ l => Forall quiet l /\ (o = Ret tt \/ o = Diverge))) ->
  wp (applyClaimed self host a d options g on : M _) w (fun o _ l =>
    fate a (g_restore g) d (authorizedFingerprint g) o l).
Proof.
  intros Hon. unfold applyClaimed.
  destruct (match authorizedFingerprint g with Some f => _ | None => false end) eqn:Hf.
  { eapply wp_mono; [apply refuseClaimed_wp|]. intros o w' l [[-> ->]|(b & lq & -> & Hq & Ho)]; [by apply FateHung|].
    by eapply (FateRefused _ _ _ _ _ []). }
  wp_step. eapply wp_mono; [apply checkExpired_wp|]. intros o w' l (t & -> & ->). cbn [wp_cont].
  destruct (isExpired a t) eqn:He.
  { eapply wp_mono; [apply audit_throw|]. intros o w2 l [Hl Ho]. by eapply FateExpired. }
  destruct (approves d && (1 <? requiredApprovalsOf a) && _) eqn:Hs.
  { eapply wp_mono; [apply refuseClaimed_wp|]. intros o w2 l [[-> ->]|(b & lq & -> & Hq & Ho)].
    - apply FateHung. by repeat constructor.
    - eapply (FateRefused _ _ _ _ _ [ExpiryChecked a t]); [by repeat constructor|done|exact Ho]. }
  wp_step. eapply wp_mono; [apply Hon|]. intros o w1 l1 [Hl [->| ->]]; cbn [wp_cont].
  2: { apply FateHung. by constructor. }
  eapply wp_mono; [apply run_settlement_wp|]. intros o w2 l (l2 & -> & Hl2).
  eapply FateSettled; [done|done|exact He| |].
  - intros Hd Hr. rewrite Hd in Hs. apply Z.ltb_lt in Hr. rewrite Hr in Hs. simpl in Hs. by apply Z.ltb_ge in Hs.
  - intros f Hf'. rewrite Hf' in Hf. apply negb_false_iff in Hf. by apply bool_decide_eq_true in Hf.
Qed.

Lemma claimOrCancel_wp id signal w :
  wp (claimOrCancel self host id signal : M _) w (fun o _ l =>
    (Forall idle l /\ forall c, o <> Ret c) \/
    (exists c, l = [Claimed id (Some c)] /\ o = Ret c) \/
    (exists c, l = [Claimed id (Some c)] /\ o = Diverge) \/
    (exists c b, l = [Claimed id (Some c); Saved c b] /\ forall x, o <> Ret x)).
Proof.
  unfold claimOrCancel, throwIfAborted. wp_steps.
  destruct (signal && s_aborted host w); wp_steps; [left; by split; [constructor|]|].
  destruct o as [[c|]|e|]; cbn [wp_cont]; [| |left; by split; [constructor|]..].
  - wp_steps. destruct (signal && s_aborted host _); [|wp_step; right; left; by exists c].
    wp_step. eapply wp_mono; [apply restore_wp|]. intros o w2 l [[-> ->]|(b & -> & ->)]; cbn [wp_cont].
    + right; right; left. by exists c.
    + wp_step. right; right; right. by exists c, b.
  - wp_steps. left. by split; [repeat constructor|].
Qed.
(** *** Every run *)

Section Runs.
Context (id : string) (d : ApprovalDecision) (options : SettleApprovalOptions).
Notation actor := (so_actor options).

Definition vetted (p : PendingApproval) (l : list event) : Prop :=
  StoreRead id (Some p) ∈ l /\ cleared p actor l.

(** Dual control only counts identified approvers. *)
Definition identified : Prop := exists a u, actor = Some a /\ actor_userId a = Some u /\ truthy u = true.

Definition current (a : PendingApproval) (s : ApprovalSignature) : Prop :=
  approvalVersion_of s = Some (approvalVersion host a).

(** The record as it was read had expired, by the clock of the check. *)
Definition read_expired (p : PendingApproval) (l : list event) : Prop :=
  exists t, ExpiryChecked p t ∈ l /\ isExpired p t = true.

Inductive settle_run : outcome error Settlement -> list event -> Prop :=
| RunIdle o l : Forall idle l ->
    (forall x, o = Ret x -> d = DecideApprove /\
       exists reason i required n, x = SettledTool (ToolPending reason i (Some required) (Some n) None)) ->
    settle_run o l
| RunClaimed o pre i c fp lf : Forall idle pre ->
    (governed self = true -> exists p, vetted p pre /\
       (fp = Some (fingerprint p) \/ identified /\ read_expired p pre)) ->
    fate c c d fp o lf -> settle_run o (pre ++ Claimed i (Some c) :: lf)
| RunCancelled o pre i c b : Forall idle pre -> (forall x, o <> Ret x) ->
    settle_run o (pre ++ [Claimed i (Some c); Saved c b])
| RunSigned o pre i s a p rest lf : d = DecideApprove -> Forall idle pre -> vetted p pre -> identified ->
    Forall (current a) (default [] (ap_signatures a)) ->
    fate a (set_signatures (Some rest) a) d None o lf ->
    settle_run o (pre ++ SignatureAdded i s (Some (SigComplete a)) :: lf)
| RunUnsigned o pre i s a rest b lq : Forall idle pre -> Forall quiet lq -> (forall x, o <> Ret x) ->
    settle_run o (pre ++ SignatureAdded i s (Some (SigComplete a)) :: Saved (set_signatures (Some rest) a) b :: lq)
| RunHung l : count is_runner_call l = O -> settle_run Diverge l.

Lemma idle_throw {A} a body e w :
  wp (record_audit self host a body ;; throw e : M A) w (fun o _ l => Forall idle l /\ forall x, o <> Ret x).
Proof.
  eapply wp_mono; [apply audit_throw|]. intros o w' l [Hl Ho]. split; [by apply quiet_idle|].
  by destruct Ho as [->| ->].
Qed.

Lemma settle_idle o l : Forall idle l -> (forall x, o <> Ret x) -> settle_run o l.
Proof. intros Hl Ho. apply RunIdle; [done|]. intros x ->. by destruct (Ho x). Qed.

Lemma recordSigned_wp i a ac b required w :
  wp (recordSigned self host i a ac b required : M unit) w (fun o _ l =>
    Forall quiet l /\ (o = Ret tt \/ o = Diverge)).
Proof.
  unfold recordSigned. destruct (negb b); [|apply service_audit_wp]. wp_step. split; [constructor|by left].
Qed.

Lemma settle_signed_wp i a u at_ ac required w pre s p :
  d = DecideApprove -> Forall idle pre -> vetted p pre -> identified ->
  wp (settle_signed self host i a u at_ ac required options : M _) w (fun o _ l =>
    settle_run o (pre ++ SignatureAdded i s (Some (SigComplete a)) :: l)).
Proof.
  intros Hd Hpre Hv Hi. unfold settle_signed. cbv zeta. wp_steps.
  destruct (so_signal options && s_aborted host w).
  { wp_step. eapply wp_mono; [apply restore_wp|]. intros o w' l [[-> ->]|(b & -> & ->)]; cbn [wp_cont].
    - by apply RunHung, idle_then.
    - wp_step. by apply RunUnsigned. }
  destruct (negb (forallb _ _)) eqn:Hc.
  { wp_step. eapply wp_mono; [apply restore_wp|]. intros o w' l [[-> ->]|(b & -> & ->)]; cbn [wp_cont].
    - by apply RunHung, idle_then.
    - eapply wp_mono; [apply audit_throw|]. intros o w2 l [Hl Ho]. apply RunUnsigned; [done|done|].
      by destruct Ho as [->| ->]. }
  apply negb_false_iff in Hc. rewrite forallb_forall in Hc.
  eapply wp_mono; [apply applyClaimed_wp; intros; apply recordSigned_wp|]. intros o w' l Hf. simpl in Hf.
  eapply RunSigned; [done|done|done|done| |by rewrite Hd].
  apply Forall_forall. intros sg Hsg. unfold current.
  apply list_elem_of_In in Hsg. by apply Hc, bool_decide_eq_true in Hsg.
Qed.

Lemma vetted_app p l0 l : StoreRead id (Some p) ∈ l0 -> cleared p actor l -> vetted p (l0 ++ l).
Proof.
  intros Hr (Ht & Hs & Ha). split; [set_solver|]. split; [done|]. split; [done|].
  destruct (authorizer self); [|done]. destruct Ha as (v & Hv & Hp). exists v. split; [set_solver|done].
Qed.

Lemma vetted_more p l l' : vetted p l -> vetted p (l ++ l').
Proof.
  intros [Hr (Ht & Hs & Ha)]. split; [set_solver|]. split; [done|]. split; [done|].
  destruct (authorizer self); [|done]. destruct Ha as (v & Hv & Hp). exists v. split; [set_solver|done].
Qed.

Lemma claim_and_apply_wp fp w l0 :
  Forall idle l0 ->
  (governed self = true -> exists p, vetted p l0 /\ fp = Some (fingerprint p)) ->
  wp (claim_and_apply self host id d options fp : M _) w (fun o _ l => settle_run o (l0 ++ l)).
Proof.
  intros Hl0 Hg. unfold claim_and_apply. wp_step. eapply wp_mono; [apply claimOrCancel_wp|].
  intros o w' l [[Hl Ho]|[(c & -> & ->)|[(c & -> & ->)|(c & b & -> & Ho)]]].
  - destruct o as [c|e|]; [by destruct (Ho c)|..]; cbn [wp_cont]; (apply settle_idle; [by apply Forall_app|done]).
  - cbn [wp_cont]. eapply wp_mono; [apply applyClaimed_wp|].
    + intros w2. wp_step. split; [constructor|by left].
    + intros o w2 lf Hf. simpl in Hf. eapply RunClaimed; [done| |exact Hf].
      intros H. destruct (Hg H) as (p & Hp & ->). exists p. split; [done|by left].
  - cbn [wp_cont]. by apply RunHung, idle_then.
  - destruct o as [x|e|]; [by destruct (Ho x)|..]; cbn [wp_cont]; by apply RunCancelled.
Qed.

Lemma sign_wp p w l0 :
  d = DecideApprove -> Forall idle l0 -> StoreRead id (Some p) ∈ l0 ->
  wp (sign self host p options : M _) w (fun o _ l => settle_run o (l0 ++ l)).
Proof.
  intros Hd Hl0 Hr. unfold sign, recordRefusal, unauthorized. cbv zeta.
  assert (forall (x : outcome error Settlement) l, Forall idle l /\ (forall y, x <> Ret y) ->
            settle_run x (l0 ++ l)) as Hidle.
  { intros x l [Hl Hx]. apply settle_idle; [by apply Forall_app|done]. }
  destruct store_addSignature as [add|]; [|wp_step; apply Hidle; by split; [constructor|]].
  destruct actor as [ac|] eqn:Hac; [|eapply wp_mono; [apply idle_throw|]; auto].
  destruct (actor_userId ac) as [u|] eqn:Hu; [|eapply wp_mono; [apply idle_throw|]; auto].
  destruct (negb (truthy u)) eqn:Htu; [eapply wp_mono; [apply idle_throw|]; auto|].
  apply negb_false_iff in Htu. assert identified as Hid by (by exists ac, u).
  wp_step. eapply wp_mono; [apply checkAuthorization_wp|]. intros o w1 l1 [Hl1 Hcl].
  destruct o as [refusal|e|]; cbn [wp_cont]; [|by apply Hidle..].
  destruct (refuses refusal) eqn:Href.
  { eapply wp_mono; [apply idle_throw|]. intros o w2 l [Hl Ho]. apply Hidle. by split; [apply Forall_app|]. }
  specialize (Hcl _ eq_refl Href). rewrite <- Hac in Hcl.
  pose proof (vetted_app _ _ _ Hr Hcl) as Hv.
  wp_step. eapply wp_mono; [apply checkExpired_wp|]. intros o wc lc (t & -> & ->). cbn [wp_cont].
  set (pre := l0 ++ l1 ++ [ExpiryChecked p t]).
  assert (Forall idle pre) as Hl01 by (unfold pre; rewrite !Forall_app; by repeat constructor).
  apply (vetted_more _ _ [ExpiryChecked p t]) in Hv. rewrite <- app_assoc in Hv. fold pre in Hv.
  apply (wp_mono _ _ (fun o _ l => settle_run o (pre ++ l)));
    [|intros o w' l Hr'; by unfold pre in Hr'; rewrite <- !app_assoc in Hr'].
  assert (forall (x : outcome error Settlement) l, Forall idle l /\ (forall y, x <> Ret y) ->
            settle_run x (pre ++ l)) as Hidle'.
  { intros x l [Hl Hx]. apply settle_idle; [by apply Forall_app|done]. }
  destruct (isExpired p t) eqn:Hexp.
  { wp_step. eapply wp_mono; [apply claimOrCancel_wp|].
    intros o w' l [[Hl Ho]|[(c & -> & ->)|[(c & -> & ->)|(c & b & -> & Ho)]]].
    - destruct o as [c|e|]; [by destruct (Ho c)|..]; cbn [wp_cont]; apply Hidle'; by split.
    - cbn [wp_cont]. eapply wp_mono; [apply applyClaimed_wp|].
      + intros w2. wp_step. split; [constructor|by left].
      + intros o w2 lf Hf. simpl in Hf. eapply RunClaimed; [done| |by rewrite Hd].
        intros _. exists p. split; [done|]. right. split; [done|]. exists t. split; [unfold pre; set_solver|done].
    - cbn [wp_cont]. by apply RunHung, idle_then.
    - destruct o as [x|e|]; [by destruct (Ho x)|..]; cbn [wp_cont]; by apply RunCancelled. }
  wp_steps. unfold throwIfAborted. wp_steps.
  destruct (so_signal options && s_aborted host wc); wp_steps.
  { by apply Hidle'. }
  destruct o as [result|e|]; cbn [wp_cont]; [|by apply Hidle'..].
  wp_steps. destruct result as [[a|a|a]|].
  - wp_step. eapply wp_mono; [apply recordSigned_wp|]. intros o w2 l [Hl Ho].
    assert (Forall idle (SignatureAdded (ap_id p) {| sig_actor := ac; signedAt := s_now host wc;
              approvalVersion_of := Some (approvalVersion host p) |} (Some (SigPending a)) :: l)) as Hl2
      by (constructor; [done|by apply quiet_idle]).
    destruct Ho as [->| ->]; cbn [wp_cont]; wp_steps.
    + rewrite app_nil_r. apply RunIdle; [by apply Forall_app|]. intros x [= <-]. split; [done|]. eauto.
    + by apply Hidle'.
  - eapply wp_mono; [eapply settle_signed_wp; [done|exact Hl01|exact Hv|done]|].
    intros o w2 l Hrun. exact Hrun.
  - eapply wp_mono; [apply idle_throw|]. intros o w2 l [Hl Ho]. apply Hidle'. split; [by constructor|done].
  - wp_step. apply Hidle'. split; [by repeat constructor|done].
Qed.

Lemma settle_wp w : wp (settle self host id d options : M _) w (fun o _ l => settle_run o l).
Proof.
  unfold settle, throwIfAborted. wp_steps. destruct (so_signal options && s_aborted host w); wp_steps.
  { by apply settle_idle. }
  destruct (governed self || approves d) eqn:Hga.
  2: { apply orb_false_iff in Hga as [Hg _]. eapply wp_mono; [apply (claim_and_apply_wp None _ [])|]; [done|congruence|done]. }
  wp_steps. destruct o as [[p|]|e|]; cbn [wp_cont]; [| |by apply settle_idle..].
  2: { wp_steps. apply settle_idle; [by repeat constructor|done]. }
  wp_steps. assert (Forall idle [StoreRead id (Some p)]) as Hl0 by by repeat constructor.
  destruct (approves d && (1 <? requiredApprovalsOf p)) eqn:Hap.
  { apply andb_true_iff in Hap as [Hd _].
    eapply wp_mono; [apply (sign_wp p _ [StoreRead id (Some p)])|]; [by destruct d|done|by left|done]. }
  destruct (governed self) eqn:Hg.
  - unfold recordRefusal, unauthorized. wp_step. eapply wp_mono; [apply checkAuthorization_wp|].
    intros o w1 l1 [Hl1 Hcl].
    assert (Forall idle (StoreRead id (Some p) :: l1)) as Hl2 by by constructor.
    destruct o as [refusal|e|]; cbn [wp_cont]; [|by apply settle_idle..].
    destruct (refuses refusal) eqn:Href.
    + eapply wp_mono; [apply idle_throw|]. intros o w2 l [Hl Ho]. apply settle_idle; [|done].
      apply (Forall_app _ (_ :: _)). by split.
    + eapply wp_mono; [apply (claim_and_apply_wp _ _ (StoreRead id (Some p) :: l1)); [done|]|done].
      intros _. exists p. split; [|done]. apply (vetted_app p [StoreRead id (Some p)]); [by left|]. by eapply Hcl.
  - eapply wp_mono; [apply (claim_and_apply_wp None _ [StoreRead id (Some p)])|]; [done|congruence|done].
Qed.
End Runs.

(** *** What the runs have in common *)

(** What became of a record once taken: the runner was called with it; or the one
    save that put it back was made, and the store took it or refused it; or a check
    of its expiry found it expired, and the settlement says so. *)
Definition dealt_with (a : PendingApproval) (d : ApprovalDecision) (o : outcome error Settlement) (l : list event) : Prop :=
  (RunnerCalled a d ∈ l /\ count is_runner_call l = 1%nat /\ count is_save l = O) \/
  (exists a' accepted, Saved a' accepted ∈ l /\ set_signatures None a' = set_signatures None a /\
     count is_save l = 1%nat /\ count is_runner_call l = O /\ forall x, o <> Ret x) \/
  (count is_save l = O /\ count is_runner_call l = O /\
     exists t e, ExpiryChecked a t ∈ l /\ isExpired a t = true /\
       o = Throw (AgenticErr (ApprovalExpiredError (ap_id a) e))).

Lemma fate_dealt a rst d fp o pre e lf :
  fate a rst d fp o lf -> Forall idle pre -> is_runner_call e = false -> is_save e = false ->
  set_signatures None rst = set_signatures None a -> o <> Diverge -> dealt_with a d o (pre ++ e :: lf).
Proof.
  intros Hf Hpre He1 He2 Hr Hnd. destruct (idle_counts _ Hpre) as [Hp1 Hp2]. unfold dealt_with.
  rewrite !count_app, !count_cons, Hp1, Hp2, He1, He2.
  destruct Hf as [o l1 l2 t H1 H2 _ _ _|o l x t Hl Hx Ho|o l1 b l2 rs H1 H2 Ho|l Hl]; [..|done].
  - destruct (idle_counts _ (quiet_idle _ H1)) as [A1 A2], (idle_counts _ (quiet_idle _ H2)) as [B1 B2].
    left. split; [set_solver|]. rewrite !count_cons, !count_app, !count_cons, A1, A2, B1, B2. done.
  - destruct (idle_counts _ (quiet_idle _ Hl)) as [A1 A2]. right; right. rewrite !count_cons, A1, A2.
    split; [done|]. split; [done|]. destruct Ho as [->|Ho]; [|done]. exists t, x. split; [set_solver|done].
  - destruct (idle_counts _ (quiet_idle _ H1)) as [A1 A2], (idle_counts _ (quiet_idle _ H2)) as [B1 B2].
    right; left. exists rst, b. rewrite !count_app, !count_cons, A1, A2, B1, B2. split; [set_solver|].
    split; [done|]. split; [done|]. split; [done|]. by destruct Ho as [->| ->].
Qed.

Lemma idle_taken l e : Forall idle l -> e ∈ l -> taken_by e = None.
Proof. intros H He. apply (proj1 (Forall_forall _ _) H) in He. by destruct e. Qed.

(** Taken events of a run that took one record. *)
Lemma taken_unique pre e lf e' a :
  Forall idle pre -> taken_by e = Some a -> Forall (fun x => taken_by x = None) lf ->
  e' ∈ pre ++ e :: lf -> forall b, taken_by e' = Some b -> b = a.
Proof.
  intros Hp He Hl Hin b Hb. rewrite elem_of_app, elem_of_cons in Hin. destruct Hin as [H|[->|H]]; [|congruence|].
  - rewrite (idle_taken _ _ Hp H) in Hb. done.
  - apply (proj1 (Forall_forall _ _) Hl) in H. congruence.
Qed.

Lemma quiet_untaken l : Forall quiet l -> Forall (fun x => taken_by x = None) l.
Proof. intros H. eapply Forall_impl; [exact H|]. by intros []. Qed.

Lemma fate_untaken a rst d fp o lf : fate a rst d fp o lf -> Forall (fun x => taken_by x = None) lf.
Proof.
  assert (forall e l, taken_by e = None -> Forall quiet l -> Forall (fun x => taken_by x = None) (e :: l)) as Hcons.
  { intros e l He Hl. constructor; [done|by apply quiet_untaken]. }
  intros [o' l1 l2 t H1 H2 _ _ _|o' l x t Hl _ _|o' l1 b l2 rs H1 H2 _|l Hl]; [|by apply Hcons| |by apply quiet_untaken].
  - constructor; [done|]. apply Forall_app. split; [by apply quiet_untaken|by apply Hcons].
  - apply Forall_app. split; [by apply quiet_untaken|by apply Hcons].
Qed.

(** C9. An approval taken for settlement is accounted for: whatever the store, the
    runner, the authorizer and the clock do, once a record has been taken out of
    the store, by a claim or by the signature that met its threshold, a settlement
    that ends has done exactly one of three things: called the runner with it, once,
    and not saved it; failed, without the runner, after exactly one save of the same
    record, signatures apart, which the store accepted or refused; or failed with
    neither, reporting as expired a record that a check of this run found expired.
    So a record is gone without having been handed to the runner or reported expired
    only when the store itself refuses to take it back. *)
Theorem taken_is_accounted id d options w o w' l e a :
  settle self host id d options w = (o, w', l) -> e ∈ l -> taken_by e = Some a -> o <> Diverge ->
  dealt_with a d o l.
Proof.
  intros Hrun Hin Ht Ho. pose proof (wp_run _ _ _ _ _ _ (settle_wp id d options w) Hrun) as Hr.
  destruct Hr as [o l Hl _|o pre i c fp lf Hp _ Hf|o pre i c b Hp Hx|o pre i s c p rest lf Hd Hp _ _ _ Hf
                 |o pre i s c rest b lq Hp Hq Hx|l Hc]; [..|done].
  - by rewrite (idle_taken _ _ Hl Hin) in Ht.
  - rewrite (taken_unique pre (Claimed i (Some c)) lf e c Hp eq_refl (fate_untaken _ _ _ _ _ _ Hf) Hin a Ht).
    by eapply fate_dealt.
  - assert (a = c) as -> by (eapply (taken_unique pre (Claimed i (Some c)) [Saved c b]);
      [done|done|by repeat constructor|exact Hin|done]).
    destruct (idle_counts _ Hp) as [A1 A2]. right; left. exists c, b.
    rewrite !count_app, !count_cons, A1, A2. split; [set_solver|done].
  - rewrite (taken_unique pre (SignatureAdded i s (Some (SigComplete c))) lf e c Hp eq_refl (fate_untaken _ _ _ _ _ _ Hf) Hin a Ht).
    by eapply fate_dealt.
  - assert (a = c) as -> by (eapply (taken_unique pre (SignatureAdded i s (Some (SigComplete c))));
      [done|done| |exact Hin|done]; constructor; [done|by apply quiet_untaken]).
    destruct (idle_counts _ Hp) as [A1 A2], (idle_counts _ (quiet_idle _ Hq)) as [B1 B2].
    right; left. eexists _, _. rewrite !count_app, !count_cons, A1, A2, B1, B2.
    split; [apply elem_of_app; right; right; left|done].
Qed.

(** *** What governance proves *)

(** The approver is shown to belong to another tenant than the requester. *)
Definition provably_other_tenant (p : PendingApproval) (actor : option AuditActor) : Prop :=
  exists t t', orelse (requester p).2 (tenantId (security (ap_context p))) = Some t /\
               actor ≫= actor_tenantId = Some t' /\ t <> t'.

Lemma tenantIsolation_None p actor :
  tenantIsolation p actor = None <->
  exists t, tenantId (security (ap_context p)) = Some t /\ actor ≫= actor_tenantId = Some t.
Proof.
  unfold tenantIsolation. destruct (tenantId _) as [t|]; [|split; [done|by intros (t & ? & _)]].
  destruct (actor ≫= actor_tenantId) as [t'|]; [|split; [done|by intros (x & _ & ?)]].
  case_bool_decide as Ht; split; [intros _; exists t; by subst|done|done|]. intros (x & ? & ?). by simplify_eq.
Qed.

Lemma separationOfDuties_None p actor :
  separationOfDuties p actor = None <->
  forall u, (requester p).1 = Some u -> actor ≫= actor_userId = Some u -> provably_other_tenant p actor.
Proof.
  unfold separationOfDuties, provably_other_tenant.
  destruct (requester p).1 as [u|]; [|done]. destruct (actor ≫= actor_userId) as [u'|]; [|by split].
  cbv zeta. case_bool_decide as Hu; simpl; [subst|by split; [intros _ v [= <-] [= ->]|]].
  destruct (orelse _ _) as [t|], (actor ≫= actor_tenantId) as [t'|]; simpl.
  1: case_bool_decide as Ht; simpl.
  all: split; [try done; intros _ v _ _; by exists t, t'|]; intros H.
  all: destruct (H u' eq_refl eq_refl) as (x & y & ? & ? & ?); by simplify_eq.
Qed.
End Rules.
End Safety.

(** * Who may settle an approval

    The governance theorems on [Service.settle], the case they leave open, and the
    service at work on the in-memory store. *)

#[local] Open Scope string_scope.
#[local] Open Scope list_scope.
#[local] Open Scope Z_scope.
#[local] Open Scope eff_scope.

Module Governance.
Import Audit Approvals Service Safety.

Section Rules.
Context {W : Type}.
Context (self : @ApprovalService W) (host : @ServiceHost W).

Notation M := (M error event W).

(** What governance established about an approver of a record, during a run. *)
Definition governs (p : PendingApproval) (actor : option AuditActor) (l : list event) : Prop :=
  (enforceTenantIsolation (governance self) = true ->
     exists t, tenantId (security (ap_context p)) = Some t /\ actor ≫= actor_tenantId = Some t) /\
  (enforceSeparationOfDuties (governance self) = true ->
     forall u, (requester p).1 = Some u -> actor ≫= actor_userId = Some u -> provably_other_tenant p actor) /\
  (requireAuthorizer (governance self) = true -> is_Some (authorizer self)) /\
  (is_Some (authorizer self) -> exists v, AuthorizerAsked p actor v ∈ l /\ (v <> unnoticed -> permits v)).

Lemma cleared_governs p actor l l' : cleared self p actor l -> l ⊆ l' -> governs p actor l'.
Proof.
  intros (Ht & Hs & Ha) Hl. split; [intros H; by apply tenantIsolation_None, Ht|].
  split; [intros H; by apply separationOfDuties_None, Hs|].
  destruct (authorizer self); [|by split; [congruence|intros [? [=]]]]. split; [by eexists|].
  intros _. destruct Ha as (v & Hv & Hp). exists v. split; [by apply Hl|done].
Qed.

(** The settled record is the one that was read. *)
Definition settled_version (p a : PendingApproval) (options : SettleApprovalOptions) (l : list event) : Prop :=
  fingerprint a = fingerprint p \/
  Forall (current host a) (default [] (ap_signatures a)) \/
  identified options /\ read_expired p l.

(** A run up to the call of the runner: [pre], then the event that takes the record,
    then the check of its expiry, then the call. *)
Definition runs_governed (id : string) (d : ApprovalDecision) (options : SettleApprovalOptions)
    (a : PendingApproval) (l : list event) : Prop :=
  exists pre e t mid post,
    l = pre ++ e :: ExpiryChecked a t :: mid ++ RunnerCalled a d :: post /\
    count is_runner_call l = 1%nat /\ taken_by e = Some a /\ isExpired a t = false /\
    (governed self = true -> exists p, StoreRead id (Some p) ∈ pre /\ governs p (so_actor options) pre /\
                                       settled_version p a options pre).

Lemma runner_in_fate a rst d fp o lf a' d' :
  fate a rst d fp o lf -> RunnerCalled a' d' ∈ lf ->
  a' = a /\ d' = d /\
  (exists t mid post, lf = ExpiryChecked a t :: mid ++ RunnerCalled a d :: post /\ isExpired a t = false) /\
  count is_runner_call lf = 1%nat /\
  (approves d = true -> 1 < requiredApprovalsOf a -> requiredApprovalsOf a <= signatureCount a) /\
  (forall f, fp = Some f -> fingerprint a = f).
Proof.
  assert (forall l, Forall quiet l -> RunnerCalled a' d' ∉ l) as Hq.
  { intros l Hl Hx. by apply (proj1 (Forall_forall _ _) Hl) in Hx. }
  intros [o' l1 l2 t H1 H2 He Hs Hf|o' l x t Hl _ _|o' l1 b l2 rs H1 H2 _|l Hl] Hin.
  - apply elem_of_cons in Hin as [H|Hin]; [done|].
    rewrite elem_of_app, elem_of_cons in Hin. destruct Hin as [H|[H|H]]; [by apply Hq in H| |by apply Hq in H].
    injection H as -> ->. split; [done|]. split; [done|]. split; [by exists t, l1, l2|].
    destruct (idle_counts _ (quiet_idle _ H1)) as [A _], (idle_counts _ (quiet_idle _ H2)) as [B _].
    rewrite count_cons, count_app, count_cons, A, B. done.
  - apply elem_of_cons in Hin as [H|H]; [done|by apply Hq in H].
  - rewrite elem_of_app, elem_of_cons in Hin. destruct Hin as [H|[H|H]]; [by apply Hq in H|done|by apply Hq in H].
  - by apply Hq in Hin.
Qed.

(** C2. The withheld tool only runs under governance.  Whenever a settlement hands
    a record to the runner, in any outcome: it is the decision that was asked for,
    and it is handed over once; the record was taken out of the store by this very
    run, then checked by the clock and found not expired, and only then handed over;
    approving it takes as many signatures as it requires; and if any governance is
    configured, a record was read before the taking and the checks passed on it for
    this approver: same tenant under tenant isolation, not the requester under
    separation of duties unless provably of another tenant, an authorizer present
    where one is required, and where there is one, it was asked and permitted the
    settlement, unless its answer was a refusal with an empty reason, which the code
    does not notice ([empty_reason_refusal_settles]).  What was read is what is
    settled: the two have the same content, or every signature was given for the
    settled version, or an identified approver's reading was checked and had
    expired. *)
Theorem settlement_is_governed id d options w o w' l a d' :
  settle self host id d options w = (o, w', l) -> RunnerCalled a d' ∈ l ->
  d' = d /\ runs_governed id d options a l /\
  (approves d = true -> 1 < requiredApprovalsOf a -> requiredApprovalsOf a <= signatureCount a).
Proof.
  intros Hrun Hin. pose proof (wp_run _ _ _ _ _ _ (settle_wp self host id d options w) Hrun) as Hr.
  assert (forall l, Forall idle l -> RunnerCalled a d' ∉ l) as Hidle.
  { intros l' Hl Hx. by apply (proj1 (Forall_forall _ _) Hl) in Hx. }
  destruct Hr as [o l Hl _|o pre i c fp lf Hp Hg Hf|o pre i c b Hp Hx|o pre i s c p rest lf Hd Hp [Hv Hc] Hi Hcur Hf
                 |o pre i s c rest b lq Hp Hq Hx|l Hn].
  - by apply Hidle in Hin.
  - rewrite elem_of_app, elem_of_cons in Hin. destruct Hin as [H|[H|H]]; [by apply Hidle in H|done|].
    destruct (runner_in_fate _ _ _ _ _ _ _ _ Hf H) as (-> & -> & (t & mid & post & -> & He) & Hn & Hs & Hfp).
    split; [done|]. split; [|done]. exists pre, (Claimed i (Some c)), t, mid, post.
    split; [done|]. split; [by apply idle_then_once|]. split; [done|]. split; [done|].
    intros Hgov. destruct (Hg Hgov) as (p & [Hv Hc] & Hver). exists p. split; [done|].
    split; [by eapply cleared_governs|]. destruct Hver as [Hver|Hver]; [left; by apply Hfp|by right; right].
  - rewrite elem_of_app in Hin. destruct Hin as [H|H]; [by apply Hidle in H|].
    apply elem_of_cons in H as [H|H]; [done|]. by apply list_elem_of_singleton in H.
  - rewrite elem_of_app, elem_of_cons in Hin. destruct Hin as [H|[H|H]]; [by apply Hidle in H|done|].
    destruct (runner_in_fate _ _ _ _ _ _ _ _ Hf H) as (-> & -> & (t & mid & post & -> & He) & Hn & Hs & Hfp).
    split; [done|]. split; [|done]. exists pre, (SignatureAdded i s (Some (SigComplete c))), t, mid, post.
    split; [done|]. split; [by apply idle_then_once|]. split; [done|]. split; [done|].
    intros _. exists p. split; [done|]. split; [by eapply cleared_governs|]. by right; left.
  - rewrite elem_of_app, !elem_of_cons in Hin. destruct Hin as [H|[H|[H|H]]]; [by apply Hidle in H|done|done|].
    by apply (proj1 (Forall_forall _ _) Hq) in H.
  - by pose proof (not_called _ _ Hn Hin).
Qed.

(** What is not in the store cannot be settled: over any store that keeps to the
    interface, approving or rejecting an id the store does not hold (unknown,
    already settled, or taken by a concurrent caller) never calls the runner and
    never returns; unless the caller had cancelled or the store itself failed, it
    reports that the approval was not found. *)
Theorem absent_approval_is_not_settled `{law : !LawfulApprovalStore (store self)} id d options w o w' l :
  @view W (store self) law w !! id = None -> settle self host id d options w = (o, w', l) ->
  count is_runner_call l = O /\ (forall x, o <> Ret x) /\
  (o = Throw (AgenticErr (ApprovalNotFoundError id)) \/
   o = Throw (AgenticErr (ExecutionCancelledError None)) \/ l = []).
Proof.
  intros Hv Hrun. enough (wp (settle self host id d options : M _) w (fun o _ l =>
    count is_runner_call l = O /\ (forall x, o <> Ret x) /\
    (o = Throw (AgenticErr (ApprovalNotFoundError id)) \/
     o = Throw (AgenticErr (ExecutionCancelledError None)) \/ l = []))) as Hwp
    by apply (wp_run _ _ _ _ _ _ Hwp Hrun).
  assert (forall fp, wp (claim_and_apply self host id d options fp : M _) w (fun o _ l =>
    count is_runner_call l = O /\ (forall x, o <> Ret x) /\
    (o = Throw (AgenticErr (ApprovalNotFoundError id)) \/
     o = Throw (AgenticErr (ExecutionCancelledError None)) \/ l = []))) as Hclaim.
  { intros fp. unfold claim_and_apply, claimOrCancel, throwIfAborted. wp_steps.
    destruct (so_signal options && s_aborted host w); wp_steps; [by auto|].
    destruct o0 as [r|e|]; cbn [wp_cont]; [|by auto..].
    pose proof (law_claim _ _ _ _ Hext) as [-> _]. rewrite Hv. wp_steps. by auto. }
  unfold settle, throwIfAborted. wp_steps. destruct (so_signal options && s_aborted host w); wp_steps; [by auto|].
  destruct (governed self || approves d); [|apply Hclaim].
  wp_steps. destruct o0 as [r|e|]; cbn [wp_cont]; [|by auto..].
  destruct (law_get _ _ _ _ Hext) as [_ Hr]. rewrite (Hr r eq_refl), Hv. wp_steps. by auto.
Qed.
End Rules.

(** ** The service at work *)

Definition demo_audit : option (AuditTrail InMemory.state) := None.

Definition demo_options : ApprovalGovernanceOptions :=
  {| enforceSeparationOfDuties := true; enforceTenantIsolation := true; requireAuthorizer := false |}.

Definition demo_service (g : ApprovalGovernanceOptions) (v : option Verdict) : @ApprovalService InMemory.state := {|
  store := in_memory_store;
  settleApproval := fun _ _ _ m => (Ret (SettledTool (ToolSuccess (VStr "refunded") None)), m);
  s_audit := demo_audit;
  authorizer := (fun v => fun _ _ m => (Ret v, m)) <$> v;
  governance := g;
|}.

Definition demo_host : @ServiceHost InMemory.state :=
  {| s_aborted := fun _ => false; s_now := fun _ => 5; sha256 := fun s => s |}.

Definition options_of (user : string) : SettleApprovalOptions :=
  {| so_actor := Some (demo_actor user); so_signal := false |}.

(** One approval by alice's action, pending; and the same under dual control with
    bob's signature on it. *)
Definition pending_one : InMemory.state := InMemory.save (demo_approval None) ∅.
Definition pending_two : InMemory.state :=
  (approve (demo_service demo_options None) demo_host "a1" (options_of "bob")
     (InMemory.save (demo_approval (Some 2)) ∅)).1.2.

Definition second_signature :=
  settle (demo_service demo_options None) demo_host "a1" DecideApprove (options_of "carol") pending_two.

Definition settled_record : option PendingApproval :=
  head (filter_map (fun e => match e with RunnerCalled a _ => Some a | _ => None end) second_signature.2).

Lemma settlement_is_governed_witness :
  match settled_record with
  | Some a => requiredApprovalsOf a <= signatureCount a /\ requiredApprovalsOf a = 2
  | None => False
  end.
Proof.
  assert (exists a, settled_record = Some a /\ RunnerCalled a DecideApprove ∈ second_signature.2 /\
            requiredApprovalsOf a = 2) as (a & -> & Hin & Hr).
  { eexists. split; [vm_compute; reflexivity|]. split; [|reflexivity]. vm_compute. right; right; right; right; left. }
  split; [|exact Hr].
  destruct (settlement_is_governed (demo_service demo_options None) demo_host "a1" DecideApprove (options_of "carol")
    pending_two second_signature.1.1 second_signature.1.2 second_signature.2 a DecideApprove)
    as (_ & _ & Hs); [|exact Hin|].
  - unfold second_signature. destruct (settle _ _ _ _ _ _) as [[o w] l]. reflexivity.
  - apply Hs; [reflexivity|]. rewrite Hr. reflexivity.
Defined.

Definition refused := settle (demo_service demo_options None) demo_host "a1" DecideApprove (options_of "carol") ∅.

Lemma absent_approval_is_not_settled_witness :
  count is_runner_call refused.2 = O /\ refused.1.1 = Throw (AgenticErr (ApprovalNotFoundError "a1")).
Proof.
  destruct (absent_approval_is_not_settled (demo_service demo_options None) demo_host (law := in_memory_lawful)
    "a1" DecideApprove (options_of "carol") ∅ refused.1.1 refused.1.2 refused.2) as (Hc & _ & _).
  - reflexivity.
  - unfold refused. destruct (settle _ _ _ _ _ _) as [[o w] l]. reflexivity.
  - split; [exact Hc|]. vm_compute. reflexivity.
Defined.

Lemma taken_is_accounted_witness : exists e a,
  e ∈ second_signature.2 /\ taken_by e = Some a /\
  dealt_with a DecideApprove second_signature.1.1 second_signature.2.
Proof.
  assert (exists e a, e ∈ second_signature.2 /\ taken_by e = Some a) as (e & a & He & Ha).
  { eexists _, _. split; [vm_compute; right; right; left|reflexivity]. }
  exists e, a. split; [exact He|]. split; [exact Ha|].
  eapply (taken_is_accounted (demo_service demo_options None) demo_host "a1" DecideApprove (options_of "carol")
    pending_two second_signature.1.1 second_signature.1.2 second_signature.2 e a); [|exact He|exact Ha|].
  - unfold second_signature. destruct (settle _ _ _ _ _ _) as [[o w] l]. reflexivity.
  - vm_compute. done.
Defined.

(** A refusal without text is not a refusal: an authorizer that answers
    [{ allowed: false, reason: '' }] lets the settlement through, and the tool runs;
    with any other reason, or none, the same call is refused. *)
Theorem empty_reason_refusal_settles :
  let run v := settle (demo_service {| enforceSeparationOfDuties := false; enforceTenantIsolation := false;
                                       requireAuthorizer := true |} (Some v))
                 demo_host "a1" DecideApprove (options_of "mallory") pending_one in
  (run (VerdictRefused (Some EmptyString))).1.1 = Ret (SettledTool (ToolSuccess (VStr "refunded") None)) /\
  count is_runner_call (run (VerdictRefused (Some EmptyString))).2 = 1%nat /\
  count is_runner_call (run (VerdictRefused (Some "no"))).2 = O /\
  count is_runner_call (run (VerdictRefused None)).2 = O.
Proof. vm_compute. auto. Qed.

End Governance.
