(* ===== verification/Runner.v ===== *)
(** * The agent runner (packages/core/src/services/agent-runner.service.ts,
      packages/core/src/interfaces/session.interface.ts)

    [AgentRunner] resolves a registered agent into the inputs of a turn, gives the
    executor its persistence callbacks, and settles approvals by running the
    withheld tool and resuming the turn.  Runs use the default [sync] durability:
    every write is awaited where it happens. *)

From S2P Require Export LocalTool ApprovalService.

#[local] Open Scope string_scope.
#[local] Open Scope list_scope.
#[local] Open Scope Z_scope.
#[local] Open Scope eff_scope.

Module Runner.
Import Audit Approvals ScopeKey Service.

(** ** Data *)

Definition DEFAULT_SESSION_MAX_MESSAGES : Z := 40.

Record SessionRecord : Type := {
  sr_sessionId : string;
  sr_messages : list ModelMessage;
  sr_updatedAt : string;
}.

Record RunContext : Type := {
  run_security : AgentSecurityContext;
  run_data : option obj;
  run_traceId : option string;
  run_parentTraceId : option string;
  run_rootTraceId : option string;
}.

(** The events of the runner, in call order. *)
Inductive event : Type :=
| AgentStart (context : AgentContext) (message : string)
| AgentEnd (result : AgentResult)
| AgentError (e : error)
| SessionRead (key : string)
| SessionSaved (key : string) (r : SessionRecord)
| CheckpointAttached (a : PendingApproval)
| StateSaved (key : string) (c : InFlightCheckpoint)
| ApprovedTool (name : string) (args : obj) (context : AgentContext)
| TurnResumed (history : list ModelMessage) (outcome : ToolExecutionResult)
| Streamed (e : AgentStreamEvent).

(** Conversation history is scoped by tenant as well as session. *)
Definition sessionKey (context : AgentContext) : string :=
  match tenantId (security context) with
  | Some t => if truthy t then scopeKey [PartStr t; PartStr (ctx_sessionId context)] else ctx_sessionId context
  | None => ctx_sessionId context
  end.

Section Runner.
Context {W I T : Type} `{!EqDecision I}.

Definition Ext (A : Type) : Type := W -> outcome error A * W.
Definition Reducer : Type :=
  list ModelMessage -> AgentMessageReductionContext -> Ext Executor.Reduction.
Definition Cascade : Type := Executor.ModelAdapter (W := W) -> Executor.ModelAdapter (W := W).
Notation Layer := (Structured.Layer W).
Notation Spec := (Structured.StructuredOutputSpec W).
Notation ResolvedTool := (Executor.ResolvedTool (W := W)).

(** What [SessionStore.get] returns is a usable record or counts as absent. *)
Record SessionStore : Type := {
  session_get : string -> Ext (option SessionRecord);
  session_set : string -> SessionRecord -> Ext unit;
}.

Record StateStore : Type := {
  state_get : string -> Ext (option InFlightCheckpoint);
  state_set : string -> InFlightCheckpoint -> Z -> Ext unit;
}.

Record ToolProvider : Type := {
  getTools : AgentContext -> string -> Ext (list ResolvedTool);
  provider_invokeApprovedTool : option (string -> obj -> AgentContext -> Ext ToolExecutionResult);
}.

Record AgentConfig : Type := {
  ac_instructions : string;
  ac_tools : list (LocalTool.tool_source (I := I) (T := T));
  ac_model : option ModelConfig;
  ac_cascade : option Cascade;
  ac_limits : option ExecutionLimits;
  ac_toolErrorHandling : option ToolErrorHandling;
  ac_messageReducer : option Reducer;
  ac_output : Layer;
}.

(** A registered agent: its decorator's name and defaults, and [define()]. *)
Record AgentProvider : Type := {
  ag_name : string;
  ag_model : option ModelConfig;
  ag_cascade : option Cascade;
  define : AgentConfig;
}.

Record AgenticModuleOptions : Type := {
  defaultModel : ModelConfig;
  mo_limits : option ExecutionLimits;
  mo_toolErrorHandling : option ToolErrorHandling;
  mo_messageReducer : option Reducer;
  approvalTtlSeconds : option Z;
  session_enabled : option bool;
  session_maxMessages : option Z;
  checkpointTtlSeconds : option Z;
}.

Record RunInput : Type := {
  ri_sessionId : string;
  ri_message : string;
  ri_context : option RunContext;
  ri_limits : option ExecutionLimits;
  ri_toolErrorHandling : option ToolErrorHandling;
  ri_messageReducer : option Reducer;
  ri_cascade : option Cascade;
  ri_history : option bool;
  ri_output : Layer;
  ri_signal : bool;
}.

Record RuntimeInput : Type := {
  rt_sessionId : string;
  rt_message : string;
  rt_tools : list ResolvedTool;
  rt_model : ModelConfig;
  rt_instructions : string;
}.

(** Another runtime, that runs whole turns; a stream's events come with its ending. *)
Record RuntimeAdapter : Type := {
  rt_execute : RuntimeInput -> Ext AgentResult;
  rt_stream : option (RuntimeInput -> W -> outcome error unit * W * list AgentStreamEvent);
}.

Record PreparedRun : Type := {
  pr_config : AgentConfig;
  pr_model : ModelConfig;
  pr_cascade : option Cascade;
  pr_context : AgentContext;
  pr_tools : list ResolvedTool;
  pr_limits : option ExecutionLimits;
  pr_toolErrorHandling : option ToolErrorHandling;
  pr_messageReducer : option Reducer;
  pr_structuredOutput : option Spec;
}.

Record AgentRunner : Type := {
  agentProviders : list AgentProvider;
  runtimeAdapter : option RuntimeAdapter;
  options : AgenticModuleOptions;
  localToolProvider : LocalTool.LocalToolProvider (W := W);
  executor : option (Executor.AgentExecutor (W := W));
  sessionStore : option SessionStore;
  approvalStore : option (ApprovalStore W);
  stateStore : option StateStore;
  notifier : option (Executor.Notification -> W -> W);
}.

(** The host of the runner: those of its parts, the container's resolution of
    tool providers, and the effect of lifecycle notifications, which never fail. *)
Record RunnerHost : Type := {
  executor_host : Executor.Host (W := W);
  tool_host : LocalTool.ProviderHost (W := W) (I := I) (T := T);
  resolveProviderInstance : LocalTool.tool_source (I := I) (T := T) -> option ToolProvider;
  lifecycle : event -> W -> W;
}.

Notation M := (M error event W).

Context (self : AgentRunner) (host : RunnerHost).

Notation aborted := (Executor.caller_aborted (executor_host host)).
Notation now := (Executor.now (executor_host host)).

Definition as_ext {A} (m : M A) : Ext A := fun w => let '(o, w', _) := m w in (o, w').
(** A computation of another component, as a call. *)
Definition call {E A} (m : Prelude.M error E W A) : M A := lift (fun w => let '(o, w', _) := m w in (o, w')).
Definition of_sum {A} (r : error + A) : M A := match r with inl e => throw e | inr a => ret a end.
Definition notify (e : event) : M unit := emit e ;; modify (lifecycle host e).

(** *** Session history *)

Definition historyEnabled (input : RunInput) : bool :=
  coalesce (ri_history input) (coalesce (session_enabled (options self)) true) && is_some (sessionStore self).

(** The record of the session; a read that fails counts as no record. *)
Definition read_session (store : SessionStore) (context : AgentContext) : M (option SessionRecord) :=
  let key := sessionKey context in
  emit (SessionRead key) ;;
  catch (lift (session_get store key)) (fun _ => ret None).

Definition loadRawHistory (context : AgentContext) : M (option (list ModelMessage)) :=
  match sessionStore self with
  | None => ret None
  | Some store =>
      r <- read_session store context ;;
      ret (sr_messages <$> r)
  end.

Definition maxMessages : Z := coalesce (session_maxMessages (options self)) DEFAULT_SESSION_MAX_MESSAGES.

Definition loadHistory (context : AgentContext) : M (list ModelMessage) :=
  match sessionStore self with
  | None => ret []
  | Some store =>
      r <- read_session store context ;;
      ret match r with
          | Some rec => trimHistory (withoutSystemMessages (sr_messages rec)) maxMessages
          | None => []
          end
  end.

Definition saveHistory (context : AgentContext) (messages : list ModelMessage) : M unit :=
  match sessionStore self with
  | None => ret tt
  | Some store =>
      t <- ask now ;;
      let r := {| sr_sessionId := ctx_sessionId context;
                  sr_messages := trimHistory (withoutSystemMessages messages) maxMessages;
                  sr_updatedAt := iso_string t |} in
      emit (SessionSaved (sessionKey context) r) ;;
      lift (session_set store (sessionKey context) r)
  end.

(** *** Checkpoints *)

Definition with_checkpoint (c : ApprovalCheckpoint) (a : PendingApproval) : PendingApproval :=
  {| ap_id := ap_id a; ap_agentName := ap_agentName a; ap_toolName := ap_toolName a; ap_args := ap_args a;
     ap_context := ap_context a; ap_reason := ap_reason a; ap_createdAt := ap_createdAt a;
     ap_expiresAt := ap_expiresAt a; ap_toolCallId := ap_toolCallId a; ap_checkpoint := Some c;
     ap_requestedBy := ap_requestedBy a; ap_requiredApprovals := ap_requiredApprovals a;
     ap_signatures := ap_signatures a |}.

(** Records the suspension point on the approval itself, best effort. *)
Definition saveCheckpoint (approvalId : string) (messages : list ModelMessage)
    (structuredOutput : option StoredStructuredOutput) : M unit :=
  match approvalStore self with
  | None => ret tt
  | Some store =>
      catch
        (pending <- lift (store_get (ApprovalStore := store) approvalId) ;;
         match pending with
         | None => ret tt
         | Some p =>
             let a := with_checkpoint {| ck_version := APPROVAL_CHECKPOINT_VERSION;
                                         ck_messages := withoutSystemMessages messages;
                                         ck_structuredOutput := structuredOutput |} p in
             emit (CheckpointAttached a) ;;
             lift (store_save (ApprovalStore := store) a)
         end)
        (fun _ => ret tt)
  end.

Definition resolveResumeHistory (pending : PendingApproval) : M (list ModelMessage) :=
  match ap_checkpoint pending with
  | Some c =>
      if negb (ck_version c =? APPROVAL_CHECKPOINT_VERSION) then
        throw (AgenticErr (ApprovalCheckpointVersionError (ap_id pending) (ck_version c)
                             APPROVAL_CHECKPOINT_VERSION))
      else ret (ck_messages c)
  | None =>
      history <- loadRawHistory (ap_context pending) ;;
      match history with
      | Some h => ret h
      | None => throw (AgenticErr (ApprovalTranscriptMissingError (default EmptyString (ap_toolCallId pending))))
      end
  end.

Definition saveInFlightCheckpoint (context : AgentContext) (checkpoint : InFlightCheckpoint) : M unit :=
  match stateStore self with
  | None => ret tt
  | Some store =>
      let baseKey := sessionKey context in
      let executionKey := "checkpoint:" +:+ baseKey +:+ ":" +:+ cp_executionId checkpoint in
      let latestKey := "checkpoint:latest:" +:+ baseKey in
      let ttl := coalesce (checkpointTtlSeconds (options self)) DEFAULT_CHECKPOINT_TTL_SECONDS in
      catch
        (emit (StateSaved executionKey checkpoint) ;;
         lift (state_set store executionKey checkpoint ttl) ;;
         emit (StateSaved latestKey checkpoint) ;;
         lift (state_set store latestKey checkpoint ttl))
        (fun _ => ret tt)
  end.

(** *** Agents and tools *)

(** [map.get] over the registered agents: a later registration replaces an earlier one. *)
Definition get_agent (name : string) : option AgentProvider :=
  find_first (fun a => truthy (ag_name a) && bool_decide (ag_name a = name)) (rev (agentProviders self)).

Definition not_registered {A} (name hint : string) : M A :=
  throw (NativeErr "Error" ("Agent " +:+ in_quotes name +:+ " is not registered." +:+ hint)).

(** The tools of the providers, in order, and the sources left to the local provider. *)
Fixpoint provider_tools (sources : list (LocalTool.tool_source (I := I) (T := T))) (context : AgentContext)
    (agentName : string) : M (list ResolvedTool * list (LocalTool.tool_source (I := I) (T := T))) :=
  match sources with
  | [] => ret ([], [])
  | s :: rest =>
      match resolveProviderInstance host s with
      | Some p =>
          resolved <- lift (getTools p context agentName) ;;
          let* (tools, locals) := provider_tools rest context agentName in
          ret (resolved ++ tools, locals)
      | None =>
          let* (tools, locals) := provider_tools rest context agentName in
          ret (tools, s :: locals)
      end
  end.

Definition buildTools (sources : list (LocalTool.tool_source (I := I) (T := T))) (context : AgentContext)
    (agentName : string) : M (list ResolvedTool) :=
  let* (tools, locals) := provider_tools sources context agentName in
  match locals with
  | [] => ret tools
  | _ =>
      built <- call (LocalTool.buildTools (localToolProvider self) (tool_host host) locals context agentName
                       (approvalTtlSeconds (options self))) ;;
      ret (tools ++ built)
  end.

(** The name of a thrown value's class. *)
Definition is_tool_not_found (e : error) : bool :=
  match e with
  | AgenticErr (ApprovalToolNotFoundError _) => true
  | NativeErr n _ => bool_decide (n = "ApprovalToolNotFoundError")
  | _ => false
  end.

(** The providers are asked in order; a provider that does not know the tool is
    passed over, and so is one that cannot invoke approved tools. *)
Fixpoint ask_providers (sources : list (LocalTool.tool_source (I := I) (T := T))) (name : string) (args : obj)
    (context : AgentContext)
    : M (ToolExecutionResult + list (LocalTool.tool_source (I := I) (T := T))) :=
  match sources with
  | [] => ret (inr [])
  | s :: rest =>
      match resolveProviderInstance host s with
      | Some p =>
          match provider_invokeApprovedTool p with
          | Some f =>
              emit (ApprovedTool name args context) ;;
              r <- catch (x <- lift (f name args context) ;; ret (Some x))
                         (fun e => if is_tool_not_found e then ret None else throw e) ;;
              match r with
              | Some x => ret (inl x)
              | None => ask_providers rest name args context
              end
          | None => ask_providers rest name args context
          end
      | None =>
          r <- ask_providers rest name args context ;;
          ret match r with inl x => inl x | inr locals => inr (s :: locals) end
      end
  end.

Definition invokeApprovedToolFromConfig (sources : list (LocalTool.tool_source (I := I) (T := T))) (name : string)
    (args : obj) (context : AgentContext) (agentName : string) : M ToolExecutionResult :=
  r <- ask_providers sources name args context ;;
  match r with
  | inl x => ret x
  | inr [] => throw (AgenticErr (ApprovalToolNotFoundError name))
  | inr locals =>
      emit (ApprovedTool name args context) ;;
      call (LocalTool.invokeApprovedTool (localToolProvider self) (tool_host host) locals name args context agentName)
  end.

Definition resolve_spec (layers : list (option Layer)) : error + option Spec :=
  Structured.resolveStructuredOutput (Executor.regex (executor_host host)) layers.

Definition resumedStructuredOutput (stored : option StoredStructuredOutput) (config : AgentConfig)
    : error + option Spec :=
  match stored with
  | None => resolve_spec [Some (ac_output config)]
  | Some _ =>
      let agentSpec := match resolve_spec [Some (ac_output config)] with inr s => s | inl _ => None end in
      inr (Structured.restoreStructuredOutput stored agentSpec)
  end.

Definition available : bool :=
  match executor self with Some e => Executor.isAvailable e | None => false end.

(** *** Settling *)

Definition callbacks_of (context : AgentContext) (with_history : bool) : Executor.Callbacks (W := W) :=
  {| Executor.onTranscript := if with_history then Some (fun ms => as_ext (saveHistory context ms)) else None;
     Executor.onSuspend := Some (fun id ms extras => as_ext (saveCheckpoint id ms extras));
     Executor.onCheckpoint := Some (fun c => as_ext (saveInFlightCheckpoint context c)) |}.

(** The settlement of one claimed approval: the withheld tool, then the turn. *)
Definition settleApproval (pending : PendingApproval) (decision : ApprovalDecision) (signal : bool)
    : M Settlement :=
  ab <- ask aborted ;;
  if signal && ab then throw (AgenticErr (ExecutionCancelledError None))
  else
    match get_agent (ap_agentName pending) with
    | None => not_registered (ap_agentName pending) " It may have been renamed or removed since this approval was created."
    | Some agent =>
        let config := define agent in
        let resumes := truthy_opt (ap_toolCallId pending) && available in
        structuredOutput <- (if resumes then
                               of_sum (resumedStructuredOutput (ap_checkpoint pending ≫= ck_structuredOutput) config)
                             else ret None) ;;
        result <- match decision with
                  | DecideApprove =>
                      invokeApprovedToolFromConfig (ac_tools config) (ap_toolName pending) (ap_args pending)
                        (ap_context pending) (ap_agentName pending)
                  | DecideReject reason => ret (ToolDenied (coalesce reason (ap_reason pending)) None)
                  end ;;
        match resumes, executor self, ap_toolCallId pending with
        | true, Some ex, Some toolCallId =>
            history <- resolveResumeHistory pending ;;
            tools <- buildTools (ac_tools config) (ap_context pending) (ap_agentName pending) ;;
            emit (TurnResumed history result) ;;
            r <- call (Executor.resume ex (executor_host host)
                   {| Executor.rs_input :=
                        {| Executor.in_sessionId := ctx_sessionId (ap_context pending);
                           Executor.in_model := coalesce (orelse (ac_model config) (ag_model agent))
                                                  (defaultModel (options self));
                           Executor.in_cascade := orelse (ac_cascade config) (ag_cascade agent);
                           Executor.in_tools := tools;
                           Executor.in_agentName := Some (ap_agentName pending);
                           Executor.in_traceId := Some (ctx_traceId (ap_context pending));
                           Executor.in_parentTraceId := None; Executor.in_rootTraceId := None;
                           Executor.in_signal := signal;
                           Executor.in_observerNotifier := notifier self;
                           Executor.in_messageReducer :=
                             orelse (ac_messageReducer config) (mo_messageReducer (options self));
                           Executor.in_structuredOutput := structuredOutput;
                           Executor.in_instructions := Some (ac_instructions config);
                           Executor.in_limits := orelse (ac_limits config) (mo_limits (options self));
                           Executor.in_toolErrorHandling :=
                             orelse (ac_toolErrorHandling config) (mo_toolErrorHandling (options self));
                           Executor.in_callbacks :=
                             callbacks_of (ap_context pending) (is_some (sessionStore self)) |};
                      Executor.rs_history := history;
                      Executor.rs_toolCallId := toolCallId;
                      Executor.rs_toolName := ap_toolName pending;
                      Executor.rs_args := ap_args pending;
                      Executor.rs_outcome := result |}) ;;
            ret (SettledTurn r)
        | _, _, _ => ret (SettledTool result)
        end
    end.

(** *** Running a turn *)

Definition no_security : AgentSecurityContext :=
  {| userId := None; tenantId := None; roles := None; permissions := None |}.

Definition deadline_of (limits : option ExecutionLimits) (t : Z) : option Z :=
  (fun ms => t + ms) <$> (limits ≫= timeoutMs).

Definition prepare (agentName : string) (input : RunInput) : M PreparedRun :=
  match get_agent agentName with
  | None => not_registered agentName " Add it to AgenticModule.forFeature({ agents: [...] })."
  | Some agent =>
      let config := define agent in
      let limits := orelse (orelse (ri_limits input) (ac_limits config)) (mo_limits (options self)) in
      t <- ask now ;;
      traceId <- match ri_context input ≫= run_traceId with
                 | Some id => ret id
                 | None => lift (Executor.randomUUID (executor_host host))
                 end ;;
      let parent := ri_context input ≫= run_parentTraceId in
      let context :=
        {| security := match ri_context input with Some c => run_security c | None => no_security end;
           ctx_sessionId := ri_sessionId input; ctx_traceId := traceId; ctx_parentTraceId := parent;
           ctx_rootTraceId := orelse (ri_context input ≫= run_rootTraceId)
                                (if truthy_opt parent then None else Some traceId);
           ctx_data := ri_context input ≫= run_data; ctx_signal := ri_signal input;
           deadline := deadline_of limits t |} in
      tools <- buildTools (ac_tools config) context agentName ;;
      structuredOutput <- of_sum (resolve_spec [Some (ac_output config); Some (ri_output input)]) ;;
      ret {| pr_config := config;
             pr_model := coalesce (orelse (ac_model config) (ag_model agent)) (defaultModel (options self));
             pr_cascade := orelse (orelse (ri_cascade input) (ac_cascade config)) (ag_cascade agent);
             pr_context := context; pr_tools := tools; pr_limits := limits;
             pr_toolErrorHandling := orelse (orelse (ri_toolErrorHandling input) (ac_toolErrorHandling config))
                                       (mo_toolErrorHandling (options self));
             pr_messageReducer := orelse (orelse (ri_messageReducer input) (ac_messageReducer config))
                                    (mo_messageReducer (options self));
             pr_structuredOutput := structuredOutput |}
  end.

Definition executor_input (agentName : string) (input : RunInput) (p : PreparedRun) (with_history : bool)
    : Executor.ExecutorInput (W := W) :=
  {| Executor.in_sessionId := ri_sessionId input; Executor.in_model := pr_model p;
     Executor.in_cascade := pr_cascade p; Executor.in_tools := pr_tools p;
     Executor.in_agentName := Some agentName; Executor.in_traceId := Some (ctx_traceId (pr_context p));
     Executor.in_parentTraceId := ctx_parentTraceId (pr_context p);
     Executor.in_rootTraceId := ctx_rootTraceId (pr_context p); Executor.in_signal := ri_signal input;
     Executor.in_observerNotifier := notifier self; Executor.in_messageReducer := pr_messageReducer p;
     Executor.in_structuredOutput := pr_structuredOutput p;
     Executor.in_instructions := Some (ac_instructions (pr_config p)); Executor.in_limits := pr_limits p;
     Executor.in_toolErrorHandling := pr_toolErrorHandling p;
     Executor.in_callbacks := callbacks_of (pr_context p) with_history |}.

Definition runtime_input (input : RunInput) (p : PreparedRun) : RuntimeInput :=
  {| rt_sessionId := ri_sessionId input; rt_message := ri_message input; rt_tools := pr_tools p;
     rt_model := pr_model p; rt_instructions := ac_instructions (pr_config p) |}.

Definition requireRuntimeAdapter : M RuntimeAdapter :=
  match runtimeAdapter self with
  | None => throw (AgenticErr RuntimeNotConfiguredError)
  | Some a => ret a
  end.

(** A runtime adapter cannot be asked for structured output. *)
Definition requireNoOutput (agentName : string) (p : PreparedRun) : M unit :=
  when (is_some (pr_structuredOutput p)) (throw (AgenticErr (StructuredOutputNotSupportedError agentName))).

(** The execution input of a turn, with the history read when it is enabled. *)
Definition execution_input (agentName : string) (input : RunInput) (p : PreparedRun)
    : M (Executor.AgentExecutionInput (W := W)) :=
  let with_history := historyEnabled input in
  history <- (if with_history then h <- loadHistory (pr_context p) ;; ret (Some h) else ret None) ;;
  ret {| Executor.ex_input := executor_input agentName input p with_history;
         Executor.ex_message := ri_message input; Executor.ex_history := history |}.

(** The turn itself, on the built-in runtime or handed to a runtime adapter. *)
Definition run_turn (agentName : string) (input : RunInput) (p : PreparedRun) : M AgentResult :=
  match available, executor self with
  | true, Some ex =>
      ex_in <- execution_input agentName input p ;;
      call (Executor.execute ex (executor_host host) ex_in)
  | _, _ =>
      requireNoOutput agentName p ;;
      a <- requireRuntimeAdapter ;;
      lift (rt_execute a (runtime_input input p))
  end.

Definition with_duration (d : Z) (r : AgentResult) : AgentResult :=
  {| res_sessionId := res_sessionId r; res_output := res_output r; res_toolCalls := res_toolCalls r;
     res_usage := res_usage r; res_durationMs := Some d; res_structured := res_structured r |}.

Definition run (agentName : string) (input : RunInput) : M AgentResult :=
  prepared <- prepare agentName input ;;
  startAt <- ask now ;;
  notify (AgentStart (pr_context prepared) (ri_message input)) ;;
  catch
    (result <- run_turn agentName input prepared ;;
     endAt <- ask now ;;
     notify (AgentEnd result) ;;
     ret (with_duration (endAt - startAt) result))
    (fun e => notify (AgentError e) ;; throw e).

(** *** Streaming a turn *)

(** A computation whose yielded events are passed on to the consumer as they come. *)
Definition call_stream {E} (yielded : E -> option AgentStreamEvent) (m : Prelude.M error E W unit)
    : M (list AgentStreamEvent) :=
  fun w => let '(o, w', l) := m w in
           let es := filter_map yielded l in
           (match o with Ret _ => Ret es | Throw e => Throw e | Diverge => Diverge end, w', map Streamed es).

Definition executor_yield (e : Executor.event) : option AgentStreamEvent :=
  match e with Executor.Yield x => Some x | _ => None end.

(** What the stream said last about the answer. *)
Fixpoint final_answer (es : list AgentStreamEvent) (output : string) (u : option ModelUsage) (s : option value)
    : string * option ModelUsage * option value :=
  match es with
  | [] => (output, u, s)
  | EvFinalAnswer _ o u' s' :: rest => final_answer rest o u' s'
  | _ :: rest => final_answer rest output u s
  end.

(** A record of another runtime, as the result of a tool. *)
Definition adapter_result (r : RecordedResult) : RecordedResult :=
  match r with
  | RValue v => RResult (ToolSuccess v None)
  | _ => r
  end.

Definition stream_record (r : ToolCallRecord) : M unit :=
  id <- lift (Executor.randomUUID (executor_host host)) ;;
  let callId := "call_" +:+ slice id 0 8 in
  let result := adapter_result (rec_result r) in
  emit (Streamed (EvToolStart callId (rec_toolName r) (rec_args r))) ;;
  emit (Streamed (EvActionCall callId (rec_toolName r) (rec_args r))) ;;
  emit (Streamed (EvToolResult callId (rec_toolName r) result)) ;;
  emit (Streamed (EvActionObservation callId (rec_toolName r) result)).

Fixpoint stream_records (rs : list ToolCallRecord) : M unit :=
  match rs with
  | [] => ret tt
  | r :: rest => stream_record r ;; stream_records rest
  end.

(** Passes on the events of an adapter that streams, and makes up those of one that does not. *)
Definition stream_adapter (a : RuntimeAdapter) (i : RuntimeInput) : M unit :=
  match rt_stream a with
  | Some f => fun w => let '(o, w', es) := f i w in (o, w', map Streamed es)
  | None =>
      res <- lift (rt_execute a i) ;;
      stream_records (res_toolCalls res) ;;
      emit (Streamed (EvToken (res_output res))) ;;
      emit (Streamed (EvFinalAnswer (res_sessionId res) (res_output res) (res_usage res) None)) ;;
      emit (Streamed (EvComplete (res_sessionId res) (res_output res)))
  end.

(** What observers are told of a streamed turn. *)
Definition streamed_result (sessionId output : string) (u : option ModelUsage) (s : option value) : AgentResult :=
  {| res_sessionId := sessionId; res_output := output; res_toolCalls := []; res_usage := u;
     res_durationMs := None; res_structured := s |}.

Definition stream_turn (agentName : string) (input : RunInput) (p : PreparedRun) : M AgentResult :=
  match available, executor self with
  | true, Some ex =>
      ex_in <- execution_input agentName input p ;;
      es <- call_stream executor_yield (Executor.stream ex (executor_host host) ex_in) ;;
      let '(finalOutput, finalUsage, finalStructured) := final_answer es EmptyString None None in
      ret (streamed_result (ri_sessionId input) finalOutput finalUsage finalStructured)
  | _, _ =>
      requireNoOutput agentName p ;;
      a <- requireRuntimeAdapter ;;
      stream_adapter a (runtime_input input p) ;;
      ret (streamed_result (ri_sessionId input) EmptyString None None)
  end.

(** The consumer reads to the end of the stream. *)
Definition runStream (agentName : string) (input : RunInput) : M unit :=
  prepared <- prepare agentName input ;;
  notify (AgentStart (pr_context prepared) (ri_message input)) ;;
  catch
    (result <- stream_turn agentName input prepared ;;
     notify (AgentEnd result))
    (fun e => notify (AgentError e) ;; throw e).

(** *** Recovery *)

Record RecoverOptions : Type := {
  ro_signal : bool;
  ro_limits : option ExecutionLimits;
  ro_context : option RunContext;
}.

Definition recovery_context (sessionId traceId : string) (o : RecoverOptions) (d : option Z) : AgentContext :=
  {| security := match ro_context o with Some c => run_security c | None => no_security end;
     ctx_sessionId := sessionId; ctx_traceId := traceId; ctx_parentTraceId := None; ctx_rootTraceId := None;
     ctx_data := ro_context o ≫= run_data; ctx_signal := ro_signal o; deadline := d |}.

Definition resumeCheckpoint (agentName : string) (checkpoint : InFlightCheckpoint) (o : RecoverOptions)
    : M AgentResult :=
  match get_agent agentName with
  | None => not_registered agentName EmptyString
  | Some agent =>
      match available, executor self with
      | true, Some ex =>
          let config := define agent in
          let limits := orelse (orelse (ro_limits o) (ac_limits config)) (mo_limits (options self)) in
          t <- ask now ;;
          traceId <- lift (Executor.randomUUID (executor_host host)) ;;
          let context := recovery_context (cp_sessionId checkpoint) traceId o (deadline_of limits t) in
          tools <- buildTools (ac_tools config) context agentName ;;
          structuredOutput <- of_sum (resumedStructuredOutput (cp_structuredOutput checkpoint) config) ;;
          call (Executor.resumeCheckpoint ex (executor_host host)
                  {| Executor.rk_input :=
                       {| Executor.in_sessionId := cp_sessionId checkpoint;
                          Executor.in_model := coalesce (orelse (ac_model config) (ag_model agent))
                                                 (defaultModel (options self));
                          Executor.in_cascade := orelse (ac_cascade config) (ag_cascade agent);
                          Executor.in_tools := tools; Executor.in_agentName := Some agentName;
                          Executor.in_traceId := Some traceId; Executor.in_parentTraceId := None;
                          Executor.in_rootTraceId := None; Executor.in_signal := ro_signal o;
                          Executor.in_observerNotifier := notifier self;
                          Executor.in_messageReducer :=
                            orelse (ac_messageReducer config) (mo_messageReducer (options self));
                          Executor.in_structuredOutput := structuredOutput;
                          Executor.in_instructions := Some (ac_instructions config);
                          Executor.in_limits := limits;
                          Executor.in_toolErrorHandling :=
                            orelse (ac_toolErrorHandling config) (mo_toolErrorHandling (options self));
                          Executor.in_callbacks := callbacks_of context (is_some (sessionStore self)) |};
                     Executor.rk_checkpoint := checkpoint |})
      | _, _ => throw (AgenticErr RuntimeNotConfiguredError)
      end
  end.

Definition recoverLatestCheckpoint (agentName sessionId : string) (o : RecoverOptions) : M AgentResult :=
  match stateStore self with
  | None => throw (AgenticErr (CheckpointNotFoundError ("latest:" +:+ sessionId +:+ " (no StateStore configured)")))
  | Some store =>
      let latestKey := "checkpoint:latest:" +:+ sessionKey (recovery_context sessionId "recovery" o None) in
      checkpoint <- lift (state_get store latestKey) ;;
      match checkpoint with
      | None => throw (AgenticErr (CheckpointNotFoundError latestKey))
      | Some c => resumeCheckpoint agentName c o
      end
  end.

End Runner.
End Runner.
