(* ===== verification/RunnerPersistence.v ===== *)
(** * What the runner keeps between turns

    Histories are kept apart by tenant and come back as they were saved, a
    suspended turn can be resumed from its approval alone, and what can still fail
    once an approved tool has run. Below it: a runner at work ([RunnerDemo]), queued
    writes ([AsyncWrites]) and streamed turns ([RunnerStream]). *)

From S2P Require Export Runner.
From S2P Require Export ExecutorStream.

#[local] Open Scope string_scope.
#[local] Open Scope list_scope.
#[local] Open Scope Z_scope.
#[local] Open Scope eff_scope.

Module Persistence.
Import Audit Approvals ScopeKey Service Runner.

(** ** Session keys *)

(** Histories of different tenants never meet: for contexts that carry a tenant,
    two sessions share a storage key only if tenant and session are both the same,
    whatever delimiters the identifiers contain. *)
Theorem tenant_histories_disjoint (c1 c2 : AgentContext) :
  truthy_opt (tenantId (security c1)) = true -> truthy_opt (tenantId (security c2)) = true ->
  sessionKey c1 = sessionKey c2 ->
  tenantId (security c1) = tenantId (security c2) /\ ctx_sessionId c1 = ctx_sessionId c2.
Proof.
  unfold sessionKey, truthy_opt. destruct (tenantId (security c1)) as [t1|], (tenantId (security c2)) as [t2|]; try done.
  intros -> ->. intros H. apply (f_equal (fun s => chars s)) in H. rewrite !scopeKey_chars in H.
  apply (f_equal (fun l => List.tl l)) in H. cbn [List.tl] in H.
  apply parts_cancel in H; [|by repeat constructor..]. by simplify_eq.
Qed.

Definition context_of (tenant : option string) (session : string) : AgentContext :=
  {| security := {| userId := None; tenantId := tenant; roles := None; permissions := None |};
     ctx_sessionId := session; ctx_traceId := "t"; ctx_parentTraceId := None; ctx_rootTraceId := None;
     ctx_data := None; ctx_signal := false; deadline := None |}.

Lemma tenant_histories_disjoint_witness :
  sessionKey (context_of (Some "acme") "s1") = sessionKey (context_of (Some "acme") "s1") /\
  tenantId (security (context_of (Some "acme") "s1")) = Some "acme".
Proof.
  split; [reflexivity|].
  exact (proj1 (tenant_histories_disjoint (context_of (Some "acme") "s1") (context_of (Some "acme") "s1")
    eq_refl eq_refl eq_refl)).
Defined.

(** Without a tenant the session id is the key itself, so a caller without a tenant
    who may choose session ids can name any tenant's history. *)
Lemma sessionKey_collides (tenant session : string) :
  truthy tenant = true ->
  sessionKey (context_of None (scopeKey [PartStr tenant; PartStr session])) =
  sessionKey (context_of (Some tenant) session).
Proof. intros H. unfold sessionKey. simpl. by rewrite H. Qed.

(** ** Serialized transcripts *)

Lemma snapshot_role m : role (snapshot_message m) = role m.
Proof. by destruct m as [| |c [cs|]|]. Qed.
Lemma snapshot_opens m : opensCleanly (snapshot_message m) = opensCleanly m.
Proof. by destruct m as [| |c [[|]|]|]. Qed.

Lemma withoutSystem_id ms : Forall (fun m => role m <> RSystem) ms -> withoutSystemMessages ms = ms.
Proof.
  unfold withoutSystemMessages. induction 1 as [|m ms Hm _ IH]; simpl; [done|].
  rewrite bool_decide_eq_false_2 by done. simpl. by rewrite IH.
Qed.

Lemma withoutSystem_none ms : Forall (fun m => role m <> RSystem) (withoutSystemMessages ms).
Proof.
  unfold withoutSystemMessages. apply Forall_forall. intros m Hm. apply list_elem_of_In, filter_In in Hm as [_ Hm].
  apply negb_true_iff in Hm. by apply bool_decide_eq_false in Hm.
Qed.

Lemma trimHistory_map f ms n :
  (forall m, opensCleanly (f m) = opensCleanly m) -> trimHistory (map f ms) n = map f (trimHistory ms n).
Proof.
  intros Hf. unfold trimHistory. destruct (n <=? 0); [done|]. rewrite length_map.
  assert (forall l, drop_while (fun m => negb (opensCleanly m)) (map f l) =
                    map f (drop_while (fun m => negb (opensCleanly m)) l)) as Hd.
  { induction l as [|m l IH]; simpl; [done|]. rewrite Hf. by destruct (negb _). }
  destruct (n <? _); [|apply Hd]. by rewrite skipn_map, Hd.
Qed.

(** What a read returns of a saved transcript is what was saved, up to JSON. *)
Lemma reload ms n :
  trimHistory (withoutSystemMessages (map snapshot_message (trimHistory (withoutSystemMessages ms) n))) n =
  map snapshot_message (trimHistory (withoutSystemMessages ms) n).
Proof.
  rewrite withoutSystem_id.
  - rewrite (trimHistory_map _ _ _ snapshot_opens). by rewrite trimHistory_idem.
  - destruct (trimHistory_suffix (withoutSystemMessages ms) n) as [pre Hpre].
    pose proof (withoutSystem_none ms) as Hn. rewrite Hpre in Hn. apply Forall_app in Hn as [_ Hn].
    apply Forall_forall. intros m Hm. apply list_elem_of_fmap in Hm as (m' & -> & Hm').
    rewrite snapshot_role. by apply (proj1 (Forall_forall _ _) Hn) in Hm'.
Qed.

Section Rules.
Context {W I T : Type} `{!EqDecision I}.
Context (self : @AgentRunner W I T) (host : @RunnerHost W I T).

Notation M := (M error event W).

(** History survives the round trip: what a turn saves is what the next turn of
    the session loads, serialized once.  It is the most recent part of the
    transcript without system messages, within the bound, and as long as the
    transcript kept the tool protocol so does it.  The store must return, under a
    key, the messages that were set there. *)
Theorem history_roundtrip store context messages w w1 l1 :
  sessionStore self = Some store ->
  (forall k r w w', session_set store k r w = (Ret tt, w') -> exists r' w'',
     session_get store k w' = (Ret (Some r'), w'') /\ sr_messages r' = map snapshot_message (sr_messages r)) ->
  saveHistory self host context messages w = (Ret tt, w1, l1) ->
  exists kept w2,
    loadHistory self context w1 = (Ret (map snapshot_message kept), w2, [SessionRead (sessionKey context)]) /\
    (exists dropped, withoutSystemMessages messages = dropped ++ kept) /\
    (0 <= maxMessages self -> Z.of_nat (length kept) <= maxMessages self) /\
    (complete messages -> complete kept).
Proof.
  intros Hs Hlaw Hrun. set (kept := trimHistory (withoutSystemMessages messages) (maxMessages self)).
  assert (exists r, session_set store (sessionKey context) r w = (Ret tt, w1) /\ sr_messages r = kept) as (r & Hset & Hr).
  { unfold saveHistory in Hrun. rewrite Hs in Hrun. unfold bind, ask, emit, lift in Hrun.
    destruct (session_set _ _ _ w) as [o w'] eqn:Hset. destruct o as [[]|e|]; try done. injection Hrun as <- <-.
    eexists. by split; [exact Hset|]. }
  destruct (Hlaw _ _ _ _ Hset) as (r' & w2 & Hget & Hr'). exists kept, w2. split; [|split; [|split]].
  - unfold loadHistory, read_session. rewrite Hs. unfold bind, emit, catch, lift, ret. rewrite Hget, Hr', Hr.
    simpl. unfold kept. by rewrite reload.
  - apply trimHistory_suffix.
  - apply trimHistory_length.
  - intros Hc. apply withoutSystem_complete in Hc. unfold kept.
    destruct (trimHistory_suffix (withoutSystemMessages messages) (maxMessages self)) as [pre Hpre].
    pose proof (trimHistory_opens (withoutSystemMessages messages) (maxMessages self)) as Hop.
    destruct (trimHistory _ _) as [|m rest]; [constructor|]. eapply complete_suffix; [|done]. by rewrite <- Hpre.
Qed.

(** A suspended turn is resumable from its approval alone: once its checkpoint has
    been attached, the record the store holds resumes with the suspended
    transcript, without system messages and serialized, whatever has become of the
    session's history, which is not even read.  The approval store keeps to its
    interface and its writes succeed. *)
Theorem suspension_is_resumable (st : ApprovalStore W) `{law : !LawfulApprovalStore st} id messages so p w w1 l1 :
  approvalStore self = Some st ->
  (forall w, exists w', store_get (ApprovalStore := st) id w = (Ret (@view W st law w !! id), w')) ->
  (forall a w, exists w', store_save (ApprovalStore := st) a w = (Ret tt, w')) ->
  @view W st law w !! id = Some p -> ap_id p = id ->
  saveCheckpoint self id messages so w = (Ret tt, w1, l1) ->
  exists q, @view W st law w1 !! id = Some q /\ ap_signatures q = ap_signatures p /\ ap_toolName q = ap_toolName p /\
    forall w2, resolveResumeHistory self q w2 =
      (Ret (map snapshot_message (withoutSystemMessages messages)), w2, []).
Proof.
  intros Hst Hget Hsave Hp Hid Hrun. unfold saveCheckpoint in Hrun. rewrite Hst in Hrun.
  unfold bind, catch, emit, lift, ret in Hrun. destruct (Hget w) as [w' Hg]. rewrite Hg, Hp in Hrun.
  destruct (law_get _ _ _ _ Hg) as [Hv _]. simpl in Hrun.
  set (a := with_checkpoint _ p) in Hrun. destruct (Hsave a w') as [w2 Hsv]. rewrite Hsv in Hrun.
  injection Hrun as <- _. pose proof (law_save _ _ _ _ Hsv) as Hl. simpl in Hl.
  exists (snapshot a). rewrite Hl. split; [unfold a; simpl; rewrite Hid; apply lookup_insert_eq|].
  split; [done|]. split; [done|]. intros w3. unfold resolveResumeHistory, a. simpl. done.
Qed.

(** *** Settling *)

Lemma invoke_emits sources name args context agentName w r w1 l1 :
  invokeApprovedToolFromConfig self host sources name args context agentName w = (Ret r, w1, l1) ->
  ApprovedTool name args context ∈ l1.
Proof.
  intros Hrun. enough (wp (invokeApprovedToolFromConfig self host sources name args context agentName : M _) w
    (fun o _ l => forall r, o = Ret r -> ApprovedTool name args context ∈ l)) as Hwp
    by by apply (wp_run _ _ _ _ _ _ Hwp Hrun r eq_refl).
  clear Hrun. unfold invokeApprovedToolFromConfig. wp_step.
  eapply wp_mono with (P := fun o _ l => forall x, o = Ret (inl x) -> ApprovedTool name args context ∈ l).
  - revert w. induction sources as [|s rest IH]; intros w; simpl; [by wp_step|].
    destruct (resolveProviderInstance host s) as [p|].
    + destruct (provider_invokeApprovedTool p) as [f|]; [|apply IH].
      wp_step. apply wp_emit. cbn [wp_cont]. wp_step. apply run_wp. intros o w2 l _.
      destruct o as [[x|]|e|]; cbn [wp_cont]; [| |done|done].
      * wp_step. intros x' _. by left.
      * eapply wp_mono; [apply IH|]. intros o w3 l' _ x _. by left.
    + wp_step. eapply wp_mono; [apply IH|]. intros o w2 l Hl. destruct o as [[x|locals]|e|]; cbn [wp_cont]; [| |done|done].
      * wp_step. intros x' _. rewrite app_nil_r. by eapply Hl.
      * by wp_step.
  - intros o w2 l Hl. destruct o as [[x|[|s locals]]|e|]; cbn [wp_cont]; [| | |done|done].
    + wp_step. intros r' _. rewrite app_nil_r. by eapply Hl.
    + by wp_step.
    + wp_step. apply wp_emit. cbn [wp_cont]. apply run_wp. intros o w3 l' _ r' _.
      apply elem_of_app. right. by left.
Qed.

(** Some failures come after the side effect: an approval whose checkpoint another
    release wrote is only refused once its tool has run, although the settlement
    means to check what it can before the tool; the approval is consumed by then. *)
Theorem late_version_check pending signal agent s c r w w1 l1 :
  signal && Executor.caller_aborted (executor_host host) w = false ->
  get_agent self (ap_agentName pending) = Some agent ->
  truthy_opt (ap_toolCallId pending) = true -> available self = true ->
  ap_checkpoint pending = Some c -> ck_version c <> APPROVAL_CHECKPOINT_VERSION ->
  resumedStructuredOutput host (ck_structuredOutput c) (define agent) = inr s ->
  invokeApprovedToolFromConfig self host (ac_tools (define agent)) (ap_toolName pending) (ap_args pending)
    (ap_context pending) (ap_agentName pending) w = (Ret r, w1, l1) ->
  exists l, settleApproval self host pending DecideApprove signal w =
    (Throw (AgenticErr (ApprovalCheckpointVersionError (ap_id pending) (ck_version c) APPROVAL_CHECKPOINT_VERSION)), w1, l) /\
    ApprovedTool (ap_toolName pending) (ap_args pending) (ap_context pending) ∈ l.
Proof.
  intros Hab Hag Hid Hav Hc Hv Hs Hrun. exists l1. split; [|by eapply invoke_emits].
  unfold settleApproval. unfold bind at 1, ask. rewrite Hab, Hag, Hid, Hav, Hc. cbn [andb mbind option_bind].
  rewrite Hs. unfold of_sum. unfold bind at 1. unfold ret at 1. unfold bind at 1. rewrite Hrun.
  unfold available in Hav. destruct (executor self) as [ex|]; [|done].
  unfold truthy_opt in Hid. destruct (ap_toolCallId pending) as [tc|]; [|done].
  unfold resolveResumeHistory. rewrite Hc. apply Z.eqb_neq in Hv. rewrite Hv. cbn [negb].
  unfold bind, throw. by rewrite app_nil_r.
Qed.

(** A rejection never runs the tool. *)
Lemma rejection_runs_nothing pending reason signal w :
  wp (settleApproval self host pending (DecideReject reason) signal : M _) w (fun _ _ l =>
    Forall (fun e => match e with ApprovedTool _ _ _ => False | _ => True end) l).
Proof.
  unfold settleApproval. wp_step. wp_step. destruct (signal && _); [wp_step; constructor|].
  destruct (get_agent self _) as [agent|]; [|unfold not_registered; wp_step; constructor].
  cbv zeta. wp_step.
  eapply wp_mono with (P := fun _ _ l => l = []).
  { destruct (truthy_opt _ && _); [|by wp_step]. unfold of_sum. by destruct (resumedStructuredOutput _ _ _); wp_step. }
  intros o w2 l ->. destruct o as [so|e|]; cbn [wp_cont]; [|constructor..]. wp_steps.
  destruct (truthy_opt _ && _); [|wp_step; constructor].
  destruct (executor self) as [ex|]; [|wp_step; constructor].
  destruct (ap_toolCallId pending) as [tc|]; [|wp_step; constructor].
  wp_step. eapply wp_mono with (P := fun _ _ l => Forall (fun e => match e with ApprovedTool _ _ _ => False | _ => True end) l).
  { unfold resolveResumeHistory. destruct (ap_checkpoint pending) as [c|].
    - destruct (negb _); wp_step; constructor.
    - wp_step. unfold loadRawHistory. destruct (sessionStore self) as [ss|]; [|wp_steps; constructor].
      unfold read_session. wp_steps. destruct o as [r|e|]; cbn [wp_cont]; wp_steps;
        repeat (case_goal; wp_steps); by repeat constructor. }
  intros o w3 l1 H1. destruct o as [h|e|]; cbn [wp_cont]; [|done|done].
  wp_step. eapply wp_mono with (P := fun _ _ l => l = []).
  { unfold buildTools. wp_step. eapply wp_mono with (P := fun _ _ l => l = []).
    - generalize (ac_tools (define agent)). intros src. revert w3. induction src as [|s src IH]; intros w3; simpl; [by wp_step|].
      destruct (resolveProviderInstance host s) as [p|].
      + wp_steps. destruct o as [x|e|]; cbn [wp_cont]; [|done|done]. wp_step. eapply wp_mono; [apply IH|].
        intros o w5 l ->. destruct o as [[? ?]|e|]; cbn [wp_cont]; [by wp_step|done|done].
      + wp_step. eapply wp_mono; [apply IH|]. intros o w5 l ->. destruct o as [[? ?]|e|]; cbn [wp_cont]; [by wp_step|done|done].
    - intros o w4 l ->. destruct o as [[ts [|s ls]]|e|]; cbn [wp_cont]; [by wp_step| |done|done].
      unfold call. wp_steps. by destruct o. }
  intros o w4 l ->. destruct o as [ts|e|]; cbn [wp_cont]; [|by rewrite app_nil_r..].
  wp_steps. unfold call. wp_steps. destruct o as [x|e|]; cbn [wp_cont]; wp_steps.
  all: apply Forall_app; split; [done|]; by repeat constructor.
Qed.
End Rules.
End Persistence.

(** * A runner at work

    The in-memory session store
    (packages/core/src/stores/in-memory/in-memory-session.store.ts) and a small
    runner on in-memory stores, to which the theorems of [Persistence] apply. *)

#[local] Open Scope string_scope.
#[local] Open Scope list_scope.
#[local] Open Scope Z_scope.
#[local] Open Scope eff_scope.

Module InMemorySession.
Import Approvals Runner.

Notation state := (gmap string SessionRecord) (only parsing).

(** A record is kept as JSON and parsed when it is read. *)
Definition deserialize (r : SessionRecord) : SessionRecord :=
  {| sr_sessionId := sr_sessionId r; sr_messages := map snapshot_message (sr_messages r);
     sr_updatedAt := sr_updatedAt r |}.
Definition get (key : string) (m : state) : option SessionRecord := deserialize <$> m !! key.
Definition set (key : string) (r : SessionRecord) (m : state) : state := <[key := r]> m.
Definition delete_ (key : string) (m : state) : state := delete key m.
End InMemorySession.

Module RunnerDemo.
Import Audit Approvals ScopeKey Service Runner Persistence.

Definition world : Type := gmap string PendingApproval * gmap string SessionRecord.

Definition approvals : ApprovalStore world := {|
  store_save := fun a w => (Ret tt, (InMemory.save a w.1, w.2));
  store_get := fun id w => (Ret (InMemory.get id w.1), w);
  store_delete := fun id w => (Ret tt, (InMemory.delete_ id w.1, w.2));
  store_claim := fun id w => let '(r, m) := InMemory.claim id w.1 in (Ret r, (m, w.2));
  store_addSignature := None;
|}.

#[export] Instance approvals_lawful : LawfulApprovalStore approvals.
Proof.
  refine {| view := fun w : world => contents w.1 |}.
  - intros id w o w' [= <- <-]. split; [done|]. intros r [= <-]. by rewrite contents_lookup.
  - intros id w o w'. simpl. unfold InMemory.claim.
    destruct (w.1 !! id) as [raw|] eqn:Hm; intros [= <- <-]; simpl; rewrite contents_lookup, Hm; simpl.
    + split; [done|]. apply contents_delete.
    + split; [done|]. symmetry. apply delete_id. by rewrite contents_lookup, Hm.
  - done.
  - intros a w o w' [= <- <-]. simpl. unfold InMemory.save. by rewrite contents_insert, snapshot_idem.
Defined.

Definition sessions : @SessionStore world := {|
  session_get := fun k w => (Ret (InMemorySession.get k w.2), w);
  session_set := fun k r w => (Ret tt, (w.1, InMemorySession.set k r w.2));
|}.

Definition model : ModelConfig := {| provider := None; model_name := "m"; model_options := [] |}.

(** A model that always answers, and a provider that runs approved tools. *)
Definition adapter : @Executor.ModelAdapter world := {|
  Executor.supportsStructuredOutput := false;
  Executor.adapter_generate := fun _ w =>
    (Ret {| resp_content := "done"; resp_toolCalls := None; resp_usage := None; resp_finishReason := None;
            resp_refusal := None; resp_extra := [] |}, w);
  Executor.adapter_stream := None;
|}.

Definition tools_provider : @ToolProvider world := {|
  getTools := fun _ _ w => (Ret [], w);
  provider_invokeApprovedTool := Some (fun _ _ _ w => (Ret (ToolSuccess (VStr "refunded") None), w));
|}.

Definition no_layer : Structured.Layer world :=
  {| Structured.l_outputSchema := None; Structured.l_structuredOutput := None |}.

Definition agent : @AgentProvider world unit unit := {|
  ag_name := "agent"; ag_model := None; ag_cascade := None;
  define := {| ac_instructions := "help"; ac_tools := [LocalTool.FromInstance tt]; ac_model := None;
               ac_cascade := None; ac_limits := None; ac_toolErrorHandling := None;
               ac_messageReducer := None; ac_output := no_layer |};
|}.

Definition runner : @AgentRunner world unit unit := {|
  agentProviders := [agent]; runtimeAdapter := None;
  options := {| defaultModel := model; mo_limits := None; mo_toolErrorHandling := None; mo_messageReducer := None;
                approvalTtlSeconds := None; session_enabled := None; session_maxMessages := Some 3;
                checkpointTtlSeconds := None |};
  localToolProvider := {| LocalTool.policyInstances := []; LocalTool.approvalStore := approvals;
                          LocalTool.audit := None; LocalTool.idempotencyStore := None;
                          LocalTool.defaultPolicies := None |};
  executor := Some {| Executor.modelAdapter := Some adapter; Executor.withResilience := fun _ a => a |};
  sessionStore := Some sessions; approvalStore := Some approvals; stateStore := None; notifier := None;
|}.

Definition host : @RunnerHost world unit unit := {|
  executor_host := {| Executor.caller_aborted := fun _ => false; Executor.timer_fired := fun _ _ _ => false;
                      Executor.now := fun _ => 0; Executor.randomUUID := fun w => (Ret "u", w);
                      Executor.regex := fun _ => None; Executor.parse_message := fun s => s |};
  tool_host := {| LocalTool.ph_aborted := fun _ => false; LocalTool.ph_now := fun _ => 0;
                  LocalTool.ph_randomUUID := fun w => (Ret "a", w); LocalTool.ph_string := fun _ => EmptyString;
                  LocalTool.moduleRef_get_tools := fun _ => None; LocalTool.construct := fun _ => None;
                  LocalTool.moduleRef_get_policies := None; LocalTool.moduleRef_get_policy := fun _ => None;
                  LocalTool.discover := fun _ => None;
                  LocalTool.call_method := fun _ _ _ w => (Ret VNull, w);
                  LocalTool.warned := fun _ => []; LocalTool.set_warned := fun _ w => w |};
  resolveProviderInstance := fun _ => Some tools_provider;
  lifecycle := fun _ w => w;
|}.

Definition empty : world := (∅, ∅).
Definition saved := saveHistory runner host demo_context demo_history empty.

Lemma history_roundtrip_witness : exists kept,
  (loadHistory runner demo_context saved.1.2).1.1 = Ret (map snapshot_message kept) /\ complete kept /\
  Z.of_nat (length kept) <= 3.
Proof.
  edestruct (history_roundtrip runner host sessions demo_context demo_history empty saved.1.2 saved.2)
    as (kept & w2 & Hl & _ & Hn & Hc).
  - reflexivity.
  - intros k r w w' [= <-]. exists (InMemorySession.deserialize r). eexists. split; [|reflexivity].
    simpl. unfold InMemorySession.get, InMemorySession.set. by rewrite lookup_insert_eq.
  - reflexivity.
  - exists kept. rewrite Hl. split; [reflexivity|]. split; [apply Hc, demo_history_complete|]. by apply Hn.
Defined.

Definition withheld : world := (InMemory.save (demo_approval None) ∅, ∅).
Definition suspended := saveCheckpoint runner "a1" demo_history None withheld.

Lemma suspension_is_resumable_witness : exists q,
  contents suspended.1.2.1 !! "a1" = Some q /\
  (resolveResumeHistory runner q empty).1.1 = Ret (map snapshot_message (withoutSystemMessages demo_history)).
Proof.
  edestruct (suspension_is_resumable runner approvals (law := approvals_lawful) "a1" demo_history None
    (snapshot (demo_approval None)) withheld suspended.1.2 suspended.2) as (q & Hq & _ & _ & Hr).
  - reflexivity.
  - intros w. exists w. simpl. by rewrite contents_lookup.
  - intros a w. by eexists.
  - simpl. unfold InMemory.save. rewrite contents_insert. by rewrite lookup_insert_eq, snapshot_idem.
  - reflexivity.
  - unfold suspended, saveCheckpoint. simpl. unfold bind, catch, lift, emit. simpl. 
    unfold InMemory.get, InMemory.save. simpl. by rewrite lookup_insert_eq.
  - exists q. split; [exact Hq|]. by rewrite Hr.
Defined.

Definition other_release : PendingApproval :=
  with_checkpoint {| ck_version := 2; ck_messages := demo_history; ck_structuredOutput := None |} (demo_approval None).

Lemma late_version_check_witness : exists l,
  settleApproval runner host other_release DecideApprove false empty =
    (Throw (AgenticErr (ApprovalCheckpointVersionError "a1" 2 1)), empty, l) /\
  ApprovedTool "refund" (ap_args other_release) demo_context ∈ l.
Proof.
  eapply (late_version_check runner host other_release false agent None
    {| ck_version := 2; ck_messages := demo_history; ck_structuredOutput := None |}
    (ToolSuccess (VStr "refunded") None) empty empty [ApprovedTool "refund" (ap_args other_release) demo_context]);
    try reflexivity. done.
Defined.

End RunnerDemo.

(** ** Queued writes of [async] turns

    A turn with [async] durability opens a write queue of its own behind the writes its
    session has pending; [pendingWrites] keeps the last of them for each session key, and
    a turn that loads history waits for it first.  The steps are the calls of the turns
    and what the queues do meanwhile. *)

Module AsyncWrites.

Inductive progress : Type := Waiting | Running | Done.

#[export] Instance progress_eq : EqDecision progress.
Proof. solve_decision. Defined.

(** A queued write: its session key, the promise it is queued behind, how far it is. *)
Record write : Type := { w_key : string; w_after : option nat; w_progress : progress }.

(** A load keeps the promise it awaits, and how many writes were queued when it began. *)
Record load : Type := { l_key : string; l_after : option nat; l_queued : nat }.

Record writes : Type := {
  queued : list write;
  queues : list (string * option nat);
  pendingWrites : gmap string nat;
  loads : list load;
}.

Definition initial : writes := {| queued := []; queues := []; pendingWrites := ∅; loads := [] |}.

Inductive op : Type :=
| OpenWriteQueue (key : string)
| Persist (q : nat)
| Start (w : nat)
| Settle (w : nat)
| Forget (w : nat)
| BeginLoad (key : string)
| EndLoad (l : nat).

Definition done (s : writes) (w : nat) : bool :=
  match queued s !! w with Some x => bool_decide (w_progress x = Done) | None => false end.

Definition settled_after (s : writes) (after : option nat) : bool :=
  match after with Some w => done s w | None => true end.

Definition set_progress (s : writes) (w : nat) (x : write) (p : progress) : writes := {|
  queued := <[w := {| w_key := w_key x; w_after := w_after x; w_progress := p |}]> (queued s);
  queues := queues s; pendingWrites := pendingWrites s; loads := loads s |}.

(** One step, when it can happen. *)
Definition step (s : writes) (o : op) : option writes :=
  match o with
  | OpenWriteQueue key =>
      Some {| queued := queued s; queues := queues s ++ [(key, pendingWrites s !! key)];
              pendingWrites := pendingWrites s; loads := loads s |}
  | Persist q =>
      match queues s !! q with
      | Some (key, tail) =>
          let w := length (queued s) in
          Some {| queued := queued s ++ [{| w_key := key; w_after := tail; w_progress := Waiting |}];
                  queues := <[q := (key, Some w)]> (queues s);
                  pendingWrites := <[key := w]> (pendingWrites s); loads := loads s |}
      | None => None
      end
  | Start w =>
      match queued s !! w with
      | Some x => if bool_decide (w_progress x = Waiting) && settled_after s (w_after x) then Some (set_progress s w x Running) else None
      | None => None
      end
  | Settle w =>
      match queued s !! w with
      | Some x => if bool_decide (w_progress x = Running) then Some (set_progress s w x Done) else None
      | None => None
      end
  | Forget w =>
      match queued s !! w with
      | Some x =>
          if bool_decide (w_progress x = Done) then
            Some (if bool_decide (pendingWrites s !! w_key x = Some w)
                  then {| queued := queued s; queues := queues s; pendingWrites := delete (w_key x) (pendingWrites s); loads := loads s |}
                  else s)
          else None
      | None => None
      end
  | BeginLoad key =>
      Some {| queued := queued s; queues := queues s; pendingWrites := pendingWrites s;
              loads := loads s ++ [{| l_key := key; l_after := pendingWrites s !! key; l_queued := length (queued s) |}] |}
  | EndLoad l =>
      match loads s !! l with Some x => if settled_after s (l_after x) then Some s else None | None => None end
  end.

Fixpoint run (s : writes) (ops : list op) : option writes :=
  match ops with [] => Some s | o :: rest => match step s o with Some s' => run s' rest | None => None end end.

(** Turns of one session follow each other: no queue is written to after a later turn of
    its session opened one. *)
Definition latest (s : writes) (q : nat) : Prop :=
  forall q' x y, (q < q')%nat -> queues s !! q = Some x -> queues s !! q' = Some y -> x.1 <> y.1.

Inductive in_sequence : writes -> list op -> writes -> Prop :=
| sequence_none s : in_sequence s [] s
| sequence_more s o s1 rest s2 : (forall q, o = Persist q -> latest s q) -> step s o = Some s1 ->
    in_sequence s1 rest s2 -> in_sequence s (o :: rest) s2.

(** Every write of a key before number [n] is done, or comes no later than [after]. *)
Definition covered (s : writes) (key : string) (n : nat) (after : option nat) : Prop :=
  forall w x, (w < n)%nat -> queued s !! w = Some x -> w_key x = key ->
    w_progress x = Done \/ exists p y, after = Some p /\ (w <= p)%nat /\ queued s !! p = Some y /\ w_key y = key.

Record inv (s : writes) : Prop := {
  inv_order : forall v w x y, (v < w)%nat -> queued s !! v = Some x -> queued s !! w = Some y -> w_key x = w_key y ->
    w_progress y <> Waiting -> w_progress x = Done;
  inv_after : forall w y, queued s !! w = Some y -> covered s (w_key y) w (w_after y);
  inv_pending : forall key, covered s key (length (queued s)) (pendingWrites s !! key);
  inv_queue : forall q key tail, queues s !! q = Some (key, tail) -> latest s q -> covered s key (length (queued s)) tail;
  inv_load : forall l x, loads s !! l = Some x -> (l_queued x <= length (queued s))%nat /\ covered s (l_key x) (l_queued x) (l_after x);
}.

Lemma inv_initial : inv initial.
Proof. split; by intros; try intros ?; intros. Qed.

(** Once what covers them is done, the writes are. *)
Lemma covered_done s key n after w x : inv s -> covered s key n after -> settled_after s after = true ->
  (w < n)%nat -> queued s !! w = Some x -> w_key x = key -> w_progress x = Done.
Proof.
  intros Hi Hc Ha Hw Hx Hk. destruct (Hc w x Hw Hx Hk) as [H|(p & y & -> & Hp & Hy & Hky)]; [done|].
  simpl in Ha. unfold done in Ha. rewrite Hy in Ha. apply bool_decide_eq_true in Ha.
  destruct (decide (w = p)) as [->|Hne]; [congruence|]. eapply (inv_order s Hi w p); [lia|done..| |]; congruence.
Qed.

(** [t'] is [t] after steps: no write is lost, changed or undone. *)
Definition grows (t t' : writes) : Prop :=
  (length (queued t) <= length (queued t'))%nat /\
  (forall w x', (w < length (queued t))%nat -> queued t' !! w = Some x' ->
     exists x, queued t !! w = Some x /\ w_key x' = w_key x /\ w_after x' = w_after x /\ (w_progress x = Done -> w_progress x' = Done)) /\
  (forall w x, queued t !! w = Some x -> exists x', queued t' !! w = Some x' /\ w_key x' = w_key x).

Lemma covered_grows s s' key n after : grows s s' -> (n <= length (queued s))%nat -> covered s key n after -> covered s' key n after.
Proof.
  intros (_ & H1 & H2) Hn Hc w x' Hw Hx' Hk. destruct (H1 w x' ltac:(lia) Hx') as (x & Hx & Hkx & _ & Hd).
  destruct (Hc w x Hw Hx ltac:(congruence)) as [H|(p & y & -> & Hp & Hy & Hky)]; [left; auto|right].
  destruct (H2 p y Hy) as (y' & Hy' & Hky'). exists p, y'. split_and!; [done|done|done|congruence].
Qed.

Lemma grows_refl s s' : queued s' = queued s -> grows s s'.
Proof. intros H. unfold grows. rewrite H. split_and!; [done|intros w x' _ Hx; eauto|eauto]. Qed.

Lemma grows_progress s w x p : queued s !! w = Some x -> (w_progress x = Done -> p = Done) -> grows s (set_progress s w x p).
Proof.
  intros Hx Hp. unfold grows. simpl. rewrite length_insert. assert (w < length (queued s))%nat by (by eapply lookup_lt_Some).
  split_and!; [done|intros v y' Hv Hy'|intros v y Hy]; destruct (decide (w = v)) as [->|Hne].
  - rewrite list_lookup_insert_eq in Hy' by done. injection Hy' as <-. exists x. by split_and!.
  - rewrite list_lookup_insert_ne in Hy' by done. eauto.
  - rewrite list_lookup_insert_eq by done. eexists. split; [done|]. simpl. congruence.
  - rewrite list_lookup_insert_ne by done. eauto.
Qed.

Lemma grows_more s s' x : queued s' = queued s ++ [x] -> grows s s'.
Proof.
  intros H. unfold grows. rewrite H, length_app. split_and!; [lia|intros w y Hw|intros w y Hy].
  - rewrite lookup_app_l by done. eauto.
  - exists y. split; [by apply lookup_app_l_Some|done].
Qed.

Lemma latest_keys s s' q : queues s' = queues s -> latest s' q <-> latest s q.
Proof. intros H. unfold latest. by rewrite H. Qed.

(** A change of progress keeps everything but the order. *)
Lemma inv_progress s w x p : inv s -> queued s !! w = Some x -> (w_progress x = Done -> p = Done) ->
  (forall v y, (v < w)%nat -> queued s !! v = Some y -> w_key y = w_key x -> w_progress y = Done) ->
  (w_progress x = Waiting \/ p = Done) -> inv (set_progress s w x p).
Proof.
  intros Hi Hx Hp Hbefore Hwas. pose proof (grows_progress s w x p Hx Hp) as Hg.
  assert (length (queued (set_progress s w x p)) = length (queued s)) as Hlen by (simpl; apply length_insert).
  assert (w < length (queued s))%nat as Hlt by (by eapply lookup_lt_Some). split.
  - intros a b y z Hab Hy Hz Hk Hw. simpl in Hy, Hz. destruct (decide (b = w)) as [->|Hbw].
    + rewrite list_lookup_insert_eq in Hz by done. injection Hz as <-. rewrite list_lookup_insert_ne in Hy by lia. simpl in Hk. by eapply Hbefore.
    + rewrite list_lookup_insert_ne in Hz by done. destruct (decide (a = w)) as [->|Haw].
      * rewrite list_lookup_insert_eq in Hy by done. injection Hy as <-. simpl in *.
        assert (w_progress x = Done) as Hd by (by eapply (inv_order s Hi w b)). destruct Hwas; [congruence|done].
      * rewrite list_lookup_insert_ne in Hy by done. by eapply (inv_order s Hi a b).
  - intros b y Hy. assert (b < length (queued s))%nat by (rewrite <- Hlen; by eapply lookup_lt_Some).
    destruct Hg as (Hg1 & Hg2 & Hg3). destruct (Hg2 b y ltac:(done) Hy) as (z & Hz & -> & -> & _).
    apply (covered_grows s); [done|lia|]. by apply (inv_after s Hi).
  - intros key. rewrite Hlen. apply (covered_grows s); [done|done|]. apply (inv_pending s Hi).
  - intros q key tail Hq Hl. rewrite Hlen. apply (covered_grows s); [done|done|]. by apply (inv_queue s Hi q).
  - intros l y Hl. rewrite Hlen. destruct (inv_load s Hi l y Hl) as [H1 H2]. split; [done|]. by apply (covered_grows s).
Qed.

Lemma inv_started_write s w s' : inv s -> step s (Start w) = Some s' -> inv s'.
Proof.
  intros Hi H. simpl in H. destruct (queued s !! w) as [x|] eqn:Hx; [|done].
  destruct (bool_decide _ && _) eqn:Hb; [|done]. injection H as <-. apply andb_true_iff in Hb as [Hw Ha].
  apply bool_decide_eq_true in Hw. apply inv_progress; [done|done|congruence| |by left].
  intros v y Hv Hy Hk. eapply covered_done; [done|by apply (inv_after s Hi w x)|done|done|done|done].
Qed.

Lemma inv_settled_write s w s' : inv s -> step s (Settle w) = Some s' -> inv s'.
Proof.
  intros Hi H. simpl in H. destruct (queued s !! w) as [x|] eqn:Hx; [|done].
  destruct (bool_decide _) eqn:Hb; [|done]. injection H as <-. apply bool_decide_eq_true in Hb.
  apply inv_progress; [done|done|done| |by right]. intros v y Hv Hy Hk. eapply (inv_order s Hi v w); [done..|congruence].
Qed.

Lemma inv_persist s q s' : inv s -> latest s q -> step s (Persist q) = Some s' -> inv s'.
Proof.
  intros Hi Hlat H. simpl in H. destruct (queues s !! q) as [[key tail]|] eqn:Hq; [|done]. injection H as <-.
  set (new := {| w_key := key; w_after := tail; w_progress := Waiting |}).
  set (s' := {| queued := _; queues := _; pendingWrites := _; loads := _ |}).
  assert (grows s s') as Hg by (by eapply grows_more).
  assert (q < length (queues s))%nat as Hql by (by eapply lookup_lt_Some).
  assert (length (queued s') = S (length (queued s))) as Hlen by (simpl; rewrite length_app; simpl; lia).
  assert (covered s' key (S (length (queued s))) (Some (length (queued s)))) as Hnew.
  { intros w x Hw _ _. right. exists (length (queued s)), new. split_and!; [done|lia| |done]. simpl. by rewrite lookup_app_r, Nat.sub_diag. }
  assert (forall k a, k <> key -> covered s k (length (queued s)) a -> covered s' k (S (length (queued s))) a) as Hother.
  { intros k a Hk Hc w x Hw Hx Hkx. destruct (decide (w = length (queued s))) as [->|Hne].
    - simpl in Hx. rewrite lookup_app_r, Nat.sub_diag in Hx by done. injection Hx as <-. by destruct Hk.
    - apply (covered_grows s s' k _ _ Hg (le_n _) Hc w x); [lia|done|done]. }
  split.
  - intros v w x y Hvw Hx Hy Hk Hp. simpl in Hx, Hy. destruct (decide (w < length (queued s))%nat) as [Hw|Hw].
    + rewrite lookup_app_l in Hx, Hy by lia. by eapply (inv_order s Hi v w).
    + assert (w = length (queued s)) as -> by (apply lookup_lt_Some in Hy; rewrite length_app in Hy; simpl in Hy; lia).
      rewrite lookup_app_r, Nat.sub_diag in Hy by done. injection Hy as <-. done.
  - intros w y Hy. simpl in Hy. destruct (decide (w < length (queued s))%nat) as [Hw|Hw].
    + rewrite lookup_app_l in Hy by lia. apply (covered_grows s); [done|lia|by apply (inv_after s Hi)].
    + assert (w = length (queued s)) as -> by (apply lookup_lt_Some in Hy; rewrite length_app in Hy; simpl in Hy; lia).
      rewrite lookup_app_r, Nat.sub_diag in Hy by done. injection Hy as <-. simpl.
      apply (covered_grows s); [done|done|]. by apply (inv_queue s Hi q).
  - intros k. rewrite Hlen. simpl. destruct (decide (k = key)) as [->|Hk].
    + by rewrite lookup_insert_eq.
    + rewrite lookup_insert_ne by done. apply Hother; [done|]. apply (inv_pending s Hi).
  - intros q' k t Hq' Hl. rewrite Hlen. simpl in Hq'. destruct (decide (q' = q)) as [->|Hne].
    + rewrite list_lookup_insert_eq in Hq' by done. by injection Hq' as <- <-.
    + rewrite list_lookup_insert_ne in Hq' by done. destruct (decide (k = key)) as [->|Hk].
      * exfalso. destruct (decide (q < q')%nat) as [Hlt|Hge]; [by eapply (Hlat q')|].
        eapply (Hl q (key, t) (key, _)); [lia|simpl; by rewrite list_lookup_insert_ne|simpl; by rewrite list_lookup_insert_eq|done].
      * apply Hother; [done|]. apply (inv_queue s Hi q'); [done|]. intros q2 x y Hq2 Hx Hy. rewrite Hq' in Hx. injection Hx as <-.
        destruct (decide (q2 = q)) as [->|Hn2].
        -- rewrite Hq in Hy. by injection Hy as <-.
        -- apply (Hl q2 (k, t) y Hq2); simpl; by rewrite list_lookup_insert_ne.
  - intros l x Hl. rewrite Hlen. destruct (inv_load s Hi l x Hl) as [H1 H2]. split; [lia|]. by apply (covered_grows s).
Qed.

Lemma inv_open s key s' : inv s -> step s (OpenWriteQueue key) = Some s' -> inv s'.
Proof.
  intros Hi [= <-]. destruct Hi as [H1 H2 H3 H4 H5]. split; simpl; try done.
  intros q k t Hq Hl. destruct (decide (q < length (queues s))%nat) as [Hlt|Hge].
  - rewrite lookup_app_l in Hq by done. apply (H4 q k t Hq). intros q' x y Hq' Hx Hy. apply (Hl q' x y Hq'); simpl; by apply lookup_app_l_Some.
  - assert (q = length (queues s)) as -> by (apply lookup_lt_Some in Hq; rewrite length_app in Hq; simpl in Hq; lia).
    rewrite lookup_app_r, Nat.sub_diag in Hq by done. injection Hq as <- <-. apply H3.
Qed.

Lemma inv_begin s key s' : inv s -> step s (BeginLoad key) = Some s' -> inv s'.
Proof.
  intros Hi [= <-]. destruct Hi as [H1 H2 H3 H4 H5]. split; simpl; try done.
  intros l x Hl. destruct (decide (l < length (loads s))%nat) as [Hlt|Hge].
  - rewrite lookup_app_l in Hl by done. by apply (H5 l).
  - assert (l = length (loads s)) as -> by (apply lookup_lt_Some in Hl; rewrite length_app in Hl; simpl in Hl; lia).
    rewrite lookup_app_r, Nat.sub_diag in Hl by done. injection Hl as <-. split; [done|apply H3].
Qed.

Lemma inv_forget s w s' : inv s -> step s (Forget w) = Some s' -> inv s'.
Proof.
  intros Hi H. simpl in H. destruct (queued s !! w) as [x|] eqn:Hx; [|done]. destruct (bool_decide _) eqn:Hd; [|done].
  apply bool_decide_eq_true in Hd. injection H as <-. destruct (bool_decide _) eqn:Hp; [|done]. apply bool_decide_eq_true in Hp.
  split; simpl; try apply Hi. intros k. destruct (decide (k = w_key x)) as [->|Hk].
  - rewrite lookup_delete_eq. intros v y Hv Hy Hky. left. pose proof (inv_pending s Hi (w_key x)) as Hc. rewrite Hp in Hc.
    eapply covered_done; [done|exact Hc|simpl; unfold done; rewrite Hx; by apply bool_decide_eq_true|done..].
  - rewrite lookup_delete_ne by done. apply (inv_pending s Hi).
Qed.

Lemma inv_step s o s' : inv s -> (forall q, o = Persist q -> latest s q) -> step s o = Some s' -> inv s'.
Proof.
  intros Hi Hq H. destruct o as [k|q|w|w|w|k|l].
  - by eapply inv_open. - eapply inv_persist; [done|by apply Hq|done]. - by eapply inv_started_write. - by eapply inv_settled_write.
  - by eapply inv_forget. - by eapply inv_begin.
  - simpl in H. destruct (loads s !! l) as [x|]; [|done]. destruct (settled_after _ _); [|done]. by injection H as <-.
Qed.

(** C35. When the turns of a session follow each other, its queued writes are done one at a
    time and in the order they were queued, across turns; and a turn that loads history
    goes on only when every write queued for the session before it asked is done. *)
Theorem loads_follow_queued_writes ops s : in_sequence initial ops s ->
  (forall v w x y, (v < w)%nat -> queued s !! v = Some x -> queued s !! w = Some y -> w_key x = w_key y ->
     w_progress y <> Waiting -> w_progress x = Done) /\
  (forall l x s', loads s !! l = Some x -> step s (EndLoad l) = Some s' ->
     forall w y, (w < l_queued x)%nat -> queued s !! w = Some y -> w_key y = l_key x -> w_progress y = Done).
Proof.
  intros Hs. assert (inv s) as Hi.
  { remember initial as s0 eqn:H0. assert (inv s0) as Hi by (subst; apply inv_initial). clear H0.
    induction Hs as [|s o s1 rest s2 Hq Ho _ IH]; [done|]. apply IH. by eapply inv_step. }
  split; [apply (inv_order s Hi)|]. intros l x s' Hl He w y Hw Hy Hk. simpl in He. rewrite Hl in He.
  destruct (settled_after s (l_after x)) eqn:Ha; [|done].
  eapply covered_done; [done|by apply (inv_load s Hi l x)|done|done|done|done].
Qed.

(** Two turns of a session that follow each other, and a load. *)
Definition two_turns : list op :=
  [OpenWriteQueue "s"; Persist 0; Persist 0; OpenWriteQueue "s"; Persist 1; BeginLoad "s"; Start 0; Settle 0; Forget 0;
   Start 1; Settle 1; Start 2; Settle 2; Forget 2; EndLoad 0].

Fixpoint in_sequence_b (s : writes) (ops : list op) : bool :=
  match ops with
  | [] => true
  | o :: rest =>
      (match o with
       | Persist q => forallb (fun q' => match queues s !! q, queues s !! q' with
                                         | Some x, Some y => negb (bool_decide (x.1 = y.1)) || bool_decide (q' <= q)%nat
                                         | _, _ => true end) (seq 0 (length (queues s)))
       | _ => true
       end) && match step s o with Some s' => in_sequence_b s' rest | None => false end
  end.

Lemma in_sequence_run s ops : in_sequence_b s ops = true -> exists s', run s ops = Some s' /\ in_sequence s ops s'.
Proof.
  revert s. induction ops as [|o ops IH]; intros s; simpl; [exists s; by split; [|constructor]|].
  intros [H1 H2]%andb_true_iff. destruct (step s o) as [s1|] eqn:Hs; [|done]. destruct (IH s1 H2) as (s' & Hr & Hi).
  exists s'. split; [done|]. econstructor; [|done|done]. intros q -> q' x y Hq Hx Hy Hxy. rewrite forallb_forall in H1.
  assert (In q' (seq 0 (length (queues s)))) as Hin by (apply in_seq; apply lookup_lt_Some in Hy; lia).
  specialize (H1 q' Hin). rewrite Hx, Hy in H1. rewrite (bool_decide_true _ Hxy), (bool_decide_false (q' <= q)%nat) in H1 by lia. done.
Qed.

Lemma loads_follow_queued_writes_witness :
  exists s, run initial two_turns = Some s /\ length (queued s) = 3%nat /\
    forall w y, (w < 3)%nat -> queued s !! w = Some y -> w_key y = "s" -> w_progress y = Done.
Proof.
  destruct (in_sequence_run initial two_turns ltac:(by vm_compute)) as (s & Hr & Hi). exists s. split; [exact Hr|].
  pose proof (loads_follow_queued_writes two_turns s Hi) as [_ H]. vm_compute in Hr. injection Hr as <-. split; [done|].
  intros w y Hw Hy Hk. exact (H 0%nat {| l_key := "s"; l_after := Some 2%nat; l_queued := 3 |} _ eq_refl eq_refl w y Hw Hy Hk).
Defined.

(** Turns of one session that overlap each queue behind what was pending when they
    began: the write of the second may run first, and a load then waits for that write
    only. *)
Example overlapping_turns_write_out_of_order :
  match run initial [OpenWriteQueue "s"; OpenWriteQueue "s"; Persist 0; Persist 1; BeginLoad "s"; Start 1; Settle 1; EndLoad 0] with
  | Some s => map w_progress (queued s) = [Waiting; Done]
  | None => False
  end.
Proof. by vm_compute. Qed.

End AsyncWrites.

(** * Streamed turns of the runner

    [runStream] against [run]: a streamed turn that needs no approval leaves the
    world where the run turn leaves it and streams the answer the run returns; what
    it tells its observers; and the events made up for a runtime that does not
    stream. *)

#[local] Open Scope string_scope.
#[local] Open Scope list_scope.
#[local] Open Scope Z_scope.
#[local] Open Scope eff_scope.

Module RunnerStream.
Import Audit Approvals ScopeKey Service Runner.

(** ** What was streamed *)

Definition streamed (l : list event) : list AgentStreamEvent :=
  filter_map (fun e => match e with Streamed x => Some x | _ => None end) l.

Definition needs_approval (l : list event) : Prop :=
  exists id tool approvalId reason, EvApprovalRequired id tool approvalId reason ∈ streamed l.

(** The stream ends with the answer and the completion of [r]. *)
Definition answers (r : AgentResult) (l : list event) : Prop :=
  exists pre, streamed l =
    pre ++ [EvFinalAnswer (res_sessionId r) (res_output r) (res_usage r) (res_structured r);
            EvComplete (res_sessionId r) (res_output r)].

(** How a streamed turn compares with the run turn. *)
Definition stream_matches (o1 : outcome error AgentResult) (o2 : outcome error unit) (l2 : list event) : Prop :=
  match o1, o2 with
  | Ret r, Ret _ => answers r l2
  | Throw e, Throw e' => e = e'
  | Diverge, Diverge => True
  | _, _ => False
  end.

Lemma streamed_app l1 l2 : streamed (l1 ++ l2) = streamed l1 ++ streamed l2.
Proof. unfold streamed. induction l1 as [|e l1 IH]; simpl; [done|]. rewrite IH. by destruct e. Qed.

Lemma streamed_map es : streamed (map Streamed es) = es.
Proof. unfold streamed. induction es as [|e es IH]; simpl; [done|]. by rewrite IH. Qed.

Lemma final_answer_app es1 es2 o u s :
  final_answer (es1 ++ es2) o u s =
  let '(o', u', s') := final_answer es1 o u s in final_answer es2 o' u' s'.
Proof. revert o u s. induction es1 as [|e es1 IH]; intros o u s; simpl; [done|]. destruct e; apply IH. Qed.

Section Rules.
Context {W I T : Type} `{!EqDecision I}.
Context (self : @AgentRunner W I T) (host : @RunnerHost W I T).

Notation M := (M error event W).

(** The adapter the executor resolves, under a cascade if there is one, delivers by a
    native stream, if it has one, what it answers at once. *)
Definition streams_consistently (ex : @Executor.AgentExecutor W) (cascade : option Cascade) : Prop :=
  forall notifier w,
    wp (Executor.resolveEffectiveAdapter ex cascade notifier : Prelude.M error Executor.event W _) w (fun o _ _ =>
      match o with Ret a => Stream.streams_what_it_generates a | _ => True end).

Lemma execution_input_cascade agentName input p w i w1 l :
  execution_input self host agentName input p w = (Ret i, w1, l) ->
  Executor.in_cascade (Executor.ex_input i) = pr_cascade p.
Proof.
  unfold execution_input. cbv zeta. intros H.
  apply bind_inv in H as [(h & w2 & l1 & l2 & _ & H & _)|[(e & _ & H)|[_ H]]]; [|done..].
  by injection H as <- _ _.
Qed.

Lemma execution_approval l :
  Stream.approval l -> exists id tool approvalId reason,
    EvApprovalRequired id tool approvalId reason ∈ filter_map executor_yield l.
Proof.
  intros (e & He & Ha). induction l as [|x l IH]; [by apply elem_of_nil in He|].
  apply elem_of_cons in He as [<-|He].
  - destruct e as [| | | | | | | | |[]]; try done. simpl. do 4 eexists. left.
  - destruct (IH He) as (i & t & a & r & Hx). exists i, t, a, r. simpl. destruct (executor_yield x); [by right|done].
Qed.

Lemma execution_closes r l :
  Stream.closes r l -> exists pre, filter_map executor_yield l =
    pre ++ [EvFinalAnswer (res_sessionId r) (res_output r) (res_usage r) (res_structured r);
            EvComplete (res_sessionId r) (res_output r)].
Proof.
  intros (pre & ->). exists (filter_map executor_yield pre).
  induction pre as [|e pre IH]; simpl; [done|]. rewrite IH. by destruct (executor_yield e).
Qed.

Lemma notify_passive e w :
  (forall w, lifecycle host e w = w) -> (notify host e : M _) w = (Ret tt, w, [e]).
Proof. intros H. unfold notify, bind, emit, modify. by rewrite H. Qed.

(** The two turns, before observers hear of them: the result made up from the
    stream has the answer, usage and value of the run's. *)
Definition turn_matches (sessionId : string) (o1 o2 : outcome error AgentResult) (l2 : list event) : Prop :=
  match o1, o2 with
  | Ret r, Ret r' =>
      answers r l2 /\ r' = streamed_result sessionId (res_output r) (res_usage r) (res_structured r)
  | Throw e, Throw e' => e = e'
  | Diverge, Diverge => True
  | _, _ => False
  end.

Lemma turns_agree ex agentName input p w :
  executor self = Some ex -> Executor.isAvailable ex = true -> streams_consistently ex (pr_cascade p) ->
  let '(o1, w1, _) := run_turn self host agentName input p w in
  let '(o2, w2, l2) := stream_turn self host agentName input p w in
  needs_approval l2 \/ (w1 = w2 /\ turn_matches (ri_sessionId input) o1 o2 l2).
Proof.
  intros Hex Hav Hns. unfold run_turn, stream_turn, available. rewrite Hex, Hav. unfold bind.
  destruct (execution_input self host agentName input p w) as [[[i|e|] w2] l2] eqn:Hi; [|by right..].
  apply execution_input_cascade in Hi. rewrite <- Hi in Hns. unfold call, call_stream, lift.
  pose proof (Stream.entries_agree ex (executor_host host) i (Hns _) w2) as Hag.
  destruct (Executor.execute ex (executor_host host) i w2) as [[o3 w3] l3].
  destruct (Executor.stream ex (executor_host host) i w2) as [[o4 w4] l4].
  destruct Hag as [Hap|(<- & _ & Ho)].
  - apply execution_approval in Hap as (id & tool & aid & reason & Hin). clear -Hin.
    destruct o4 as [[]|e'|]; simpl; [destruct (final_answer _ _ _ _) as [[? ?] ?]; simpl|..]; destruct o3;
      left; exists id, tool, aid, reason; rewrite ?streamed_app, ?streamed_map, ?elem_of_app; auto.
  - destruct o3 as [r|e|], o4 as [[]|e'|]; simpl in Ho; try contradiction; cbn [fst snd];
      [|right; by subst|by right].
    apply execution_closes in Ho as [pre Hpre]. rewrite Hpre, final_answer_app.
    destruct (final_answer pre _ _ _) as [[? ?] ?]. simpl. right. split; [done|]. split; [|done].
    exists (streamed l2 ++ pre). by rewrite app_nil_r, streamed_app, streamed_map, app_assoc.
Qed.

Lemma elem_of_streamed x l : x ∈ streamed l <-> Streamed x ∈ l.
Proof.
  induction l as [|e l IH]; [by rewrite !elem_of_nil|].
  change (e :: l) with ([e] ++ l) at 1. rewrite streamed_app, elem_of_app, elem_of_cons, IH.
  unfold streamed at 1. destruct e; simpl; rewrite ?elem_of_nil, ?list_elem_of_singleton; split;
    (intros [H|H]; [try (by right); simplify_eq; by left|by right]).
Qed.

Lemma needs_approval_within l l' : needs_approval l -> (forall x, x ∈ l -> x ∈ l') -> needs_approval l'.
Proof.
  intros (i & t & a & r & H%elem_of_streamed) Hl. exists i, t, a, r. by apply elem_of_streamed, Hl.
Qed.

Lemma answers_around r l1 l2 e : streamed [e] = [] -> answers r l2 -> answers r (l1 ++ l2 ++ [e]).
Proof.
  intros He [pre H]. exists (streamed l1 ++ pre). by rewrite !streamed_app, He, app_nil_r, H, app_assoc.
Qed.

(** C32. A turn is the same turn whether it is run or streamed, by the built-in runtime
    with model adapters, streaming natively or not, whose stream delivers what
    [generate] answers, and with observers that leave the world as it is: the streamed
    turn either announces that an approval is required, or leaves session history,
    checkpoints and everything else as the run turn does, fails with the same error,
    and streams last the answer that [run] returns.  (Of a turn that announces an
    approval nothing is claimed: there the two do differ.) *)
Theorem runStream_agrees_with_run ex agentName input w :
  executor self = Some ex -> Executor.isAvailable ex = true ->
  (forall p w1 l1, prepare self host agentName input w = (Ret p, w1, l1) -> streams_consistently ex (pr_cascade p)) ->
  (forall e w, lifecycle host e w = w) ->
  let '(o1, w1, _) := run self host agentName input w in
  let '(o2, w2, l2) := runStream self host agentName input w in
  needs_approval l2 \/ (w1 = w2 /\ stream_matches o1 o2 l2).
Proof.
  intros Hex Hav Hns Hlc. assert (forall e w, (notify host e : M _) w = (Ret tt, w, [e])) as Hnp by (intros; by apply notify_passive).
  unfold run, runStream, bind, catch, ask.
  destruct (prepare self host agentName input w) as [[[p|e|] w1] l1]; [|by right..].
  specialize (Hns p w1 l1 eq_refl). rewrite !Hnp. pose proof (turns_agree ex agentName input p w1 Hex Hav Hns) as Ht.
  destruct (run_turn self host agentName input p w1) as [[o2 w2] l2].
  destruct (stream_turn self host agentName input p w1) as [[o3 w3] l3].
  destruct Ht as [Hap|[<- Ho]].
  - destruct o2; rewrite ?Hnp; (destruct o3; rewrite ?Hnp); left; apply (needs_approval_within _ _ Hap); intros x Hx; rewrite !elem_of_app; auto.
  - destruct o2 as [r|e|], o3 as [r'|e'|]; simpl in Ho; try contradiction; rewrite ?Hnp; right.
    + split; [done|]. destruct Ho as [Ho _]. change (answers r (l1 ++ [AgentStart (pr_context p) (ri_message input)] ++ l3 ++ [AgentEnd r'])).
      rewrite (app_assoc l1). by apply answers_around.
    + split; [done|]. by subst.
    + by split.
Qed.

(** The events made up for a runtime that does not stream: four per tool call, then
    the answer; its structured value is not passed on. *)
Lemma stream_adapter_made_up a i w r w1 :
  rt_stream a = None -> rt_execute a i w = (Ret r, w1) -> res_toolCalls r = [] ->
  (stream_adapter host a i : M _) w =
    (Ret tt, w1, map Streamed [EvToken (res_output r);
                               EvFinalAnswer (res_sessionId r) (res_output r) (res_usage r) None;
                               EvComplete (res_sessionId r) (res_output r)]).
Proof.
  intros Hs He Ht. unfold stream_adapter. rewrite Hs. unfold bind, lift, emit, ret. rewrite He, Ht. done.
Qed.

(** Observers of a turn streamed by another runtime are told of an empty answer,
    whatever was streamed. *)
Theorem adapter_stream_reports_nothing a agentName input p w r w1 l :
  available self = false -> runtimeAdapter self = Some a ->
  stream_turn self host agentName input p w = (Ret r, w1, l) ->
  r = streamed_result (ri_sessionId input) EmptyString None None.
Proof.
  intros Hav Ha. unfold stream_turn. rewrite Hav. unfold requireNoOutput, requireRuntimeAdapter, when, bind.
  rewrite Ha. destruct (is_some _); [done|]. simpl.
  destruct (stream_adapter host a _ w) as [[[u|e|] w2] l2]; simpl; [|done..]. by intros [= <- _ _].
Qed.

End Rules.

(** ** A concrete turn *)

Definition input : @RunInput RunnerDemo.world := {|
  ri_sessionId := "s1"; ri_message := "hello"; ri_context := None; ri_limits := None;
  ri_toolErrorHandling := None; ri_messageReducer := None; ri_cascade := None; ri_history := None;
  ri_output := RunnerDemo.no_layer; ri_signal := false;
|}.

(** Its agent has no tools, so nothing can be withheld. *)
Definition runner : @AgentRunner RunnerDemo.world unit unit := RunnerDemo.runner.

Lemma demo_needs_no_approval :
  ~ needs_approval (runStream runner RunnerDemo.host "agent" input RunnerDemo.empty).2.
Proof.
  intros (i & t & a & r & H). revert H. vm_compute. intros H. repeat (apply elem_of_cons in H as [H|H]; [done|]).
  by apply elem_of_nil in H.
Qed.

Lemma runStream_agrees_with_run_witness :
  let o1 := run runner RunnerDemo.host "agent" input RunnerDemo.empty in
  let o2 := runStream runner RunnerDemo.host "agent" input RunnerDemo.empty in
  o1.1.2 = o2.1.2 /\
  streamed o2.2 = [EvToken "done"; EvFinalAnswer "s1" "done" (Some no_usage) None; EvComplete "s1" "done"].
Proof.
  cbv zeta.
  pose proof (runStream_agrees_with_run runner RunnerDemo.host
      {| Executor.modelAdapter := Some RunnerDemo.adapter; Executor.withResilience := fun _ a => a |}
      "agent" input RunnerDemo.empty eq_refl eq_refl) as Hag.
  assert (forall p w1 l1, prepare runner RunnerDemo.host "agent" input RunnerDemo.empty = (Ret p, w1, l1) ->
    pr_cascade p = None) as Hp by (intros p w1 l1 H; by injection H as <- _ _).
  split; [|by vm_compute]. pose proof demo_needs_no_approval as Hno.
  destruct (run runner RunnerDemo.host "agent" input RunnerDemo.empty) as [[o1 w1] l1].
  destruct (runStream runner RunnerDemo.host "agent" input RunnerDemo.empty) as [[o2 w2] l2].
  destruct Hag as [Hn|[Hw _]]; [intros p ? ? H; rewrite (Hp _ _ _ H); intros notifier w st rq w' [=]|done|by destruct Hno|exact Hw].
Defined.

End RunnerStream.
