(* ===== verification/Orchestration.v ===== *)
(** * The data of the orchestration package (packages/orchestration/src)

    The interfaces and the error classes the delegator and the runners share.
    [CapabilityNarrowing] and the entries of [context.data] are objects the code
    spreads and reads through unchecked casts, so they are objects here, with one
    accessor for each field the code reads. *)

From S2P Require Export Runner.

#[local] Open Scope string_scope.
#[local] Open Scope list_scope.
#[local] Open Scope Z_scope.

Module Orchestration.

(** ** Errors (errors.ts) *)

Inductive orchestration_error : Type :=
| MaxDelegationDepthExceededError (currentDepth maxDepth : Z) (agentName : string)
| CapabilityDeniedError (toolName reason : string)
| CapabilityEscalationError (requestedCapabilities parentCapabilities : list string) (type : string)
| RefinementBudgetExceededError (budgetType : string) (current limit : Z)
| RefinementLoopAlreadyRunningError (sessionId agentName : string)
| MissingFeedbackProviderError (message : string)
| RefinementCheckpointNotFoundError (checkpointKey : string)
| RefinementCheckpointVersionError (version supportedVersion : Z)
| RefinementCheckpointConflictError (checkpointKey : string) (attemptedSequence currentSequence : Z)
| SopPhaseExecutionError (phaseName agentName cause : string)
| SopGuardFailedError (phaseName agentName : string)
| SopMaxTransitionsExceededError (phasesVisited limit : Z).

(** [this.constructor.name] *)
Definition orchestration_name (e : orchestration_error) : string :=
  match e with
  | MaxDelegationDepthExceededError _ _ _ => "MaxDelegationDepthExceededError"
  | CapabilityDeniedError _ _ => "CapabilityDeniedError"
  | CapabilityEscalationError _ _ _ => "CapabilityEscalationError"
  | RefinementBudgetExceededError _ _ _ => "RefinementBudgetExceededError"
  | RefinementLoopAlreadyRunningError _ _ => "RefinementLoopAlreadyRunningError"
  | MissingFeedbackProviderError _ => "MissingFeedbackProviderError"
  | RefinementCheckpointNotFoundError _ => "RefinementCheckpointNotFoundError"
  | RefinementCheckpointVersionError _ _ => "RefinementCheckpointVersionError"
  | RefinementCheckpointConflictError _ _ _ => "RefinementCheckpointConflictError"
  | SopPhaseExecutionError _ _ _ => "SopPhaseExecutionError"
  | SopGuardFailedError _ _ => "SopGuardFailedError"
  | SopMaxTransitionsExceededError _ _ => "SopMaxTransitionsExceededError"
  end.

Definition orchestration_message (e : orchestration_error) : string :=
  match e with
  | MaxDelegationDepthExceededError d m n =>
      "Max delegation depth exceeded: Delegation to sub-agent " +:+ in_quotes n +:+ " reached depth " +:+
      Z_to_string d +:+ " (max allowed: " +:+ Z_to_string m +:+ ")."
  | CapabilityDeniedError t r => "Capability denied for tool " +:+ in_quotes t +:+ ": " +:+ r
  | CapabilityEscalationError req held t =>
      "Capability escalation forbidden: Sub-agent requested " +:+ t +:+ " [" +:+ join ", " req +:+ "] " +:+
      "which are not held by parent context [" +:+ join ", " held +:+ "]."
  | RefinementBudgetExceededError t c l =>
      "Refinement loop budget exceeded: " +:+ t +:+ " consumption (" +:+ Z_to_string c +:+
      ") exceeded limit (" +:+ Z_to_string l +:+ ")."
  | RefinementLoopAlreadyRunningError s n =>
      "Refinement loop for session " +:+ in_quotes s +:+ " and agent " +:+ in_quotes n +:+
      " is currently locked and active in another process."
  | MissingFeedbackProviderError m => m
  | RefinementCheckpointNotFoundError k =>
      "Refinement loop checkpoint not found for key: " +:+ in_quotes k +:+ "."
  | RefinementCheckpointVersionError v s =>
      "Unsupported refinement loop checkpoint schema version: " +:+ Z_to_string v +:+
      " (expected: " +:+ Z_to_string s +:+ ")."
  | RefinementCheckpointConflictError k a c =>
      "Refinement checkpoint conflict for " +:+ in_quotes k +:+ ": Cannot write checkpoint sequence " +:+
      Z_to_string a +:+ " when existing sequence is already " +:+ Z_to_string c +:+ "."
  | SopPhaseExecutionError p n c =>
      "SOP phase " +:+ in_quotes p +:+ " failed: Sub-agent " +:+ in_quotes n +:+
      " exhausted all retries. Cause: " +:+ c
  | SopGuardFailedError p n =>
      "SOP phase " +:+ in_quotes p +:+ " guard check failed for agent " +:+ in_quotes n +:+
      ". Workflow halted — requires human review."
  | SopMaxTransitionsExceededError v l =>
      "SOP workflow exceeded the maximum allowed phase transitions (" +:+ Z_to_string v +:+ " > " +:+
      Z_to_string l +:+ "). Possible cycle detected in phase definitions."
  end.

(** The thrown value. *)
Definition orchestration_throw (e : orchestration_error) : error :=
  NativeErr (orchestration_name e) (orchestration_message e).

(** ** Signals and tasks *)

(** An abort signal: the one the parent context carries, or another. *)
Inductive AbortSignal : Type := CallerSignal | OwnSignal (id : positive).
#[export] Instance signal_eq_dec : EqDecision AbortSignal.
Proof. solve_decision. Defined.

(** [parentContext.signal] *)
Definition context_signal (context : AgentContext) : option AbortSignal :=
  if ctx_signal context then Some CallerSignal else None.

(** [o?.k], with [null] and [undefined] as [None]. *)
Definition prop (o : option obj) (k : string) : option value :=
  match o ≫= (fun fields => obj_get fields k) with
  | Some VUndef | Some VNull | None => None
  | Some v => Some v
  end.

(** [{ ...a, ...b }] *)
Definition spread (a b : obj) : obj := fold_left (fun o kv => obj_set o kv.1 kv.2) b a.

Definition as_obj (v : value) : option obj := match v with VObj fields => Some fields | _ => None end.
Definition as_strings (v : value) : option (list string) :=
  match v with
  | VArr items => Some (filter_map (fun x => match x with VStr s => Some s | _ => None end) items)
  | _ => None
  end.
Definition as_int (v : value) : option Z := match v with VNum n => Some (LocalTool.num_to_Z n) | _ => None end.

Definition strings (l : list string) : value := VArr (map VStr l).
Definition opt_strings (o : option (list string)) : value :=
  match o with Some l => strings l | None => VUndef end.

Notation CapabilityNarrowing := obj.

Definition allowedTools (n : CapabilityNarrowing) : option (list string) :=
  prop (Some n) "allowedTools" ≫= as_strings.
Definition deniedTools (n : CapabilityNarrowing) : option (list string) :=
  prop (Some n) "deniedTools" ≫= as_strings.
Definition allowedPermissions (n : CapabilityNarrowing) : option (list string) :=
  prop (Some n) "allowedPermissions" ≫= as_strings.
Definition allowedRoles (n : CapabilityNarrowing) : option (list string) :=
  prop (Some n) "allowedRoles" ≫= as_strings.

Definition limits_object (n : CapabilityNarrowing) : option obj := prop (Some n) "limits" ≫= as_obj.

Definition limits_value (l : obj) : ExecutionLimits := {|
  maxIterations := prop (Some l) "maxIterations" ≫= as_int;
  maxToolCalls := prop (Some l) "maxToolCalls" ≫= as_int;
  timeoutMs := prop (Some l) "timeoutMs" ≫= as_int;
  maxTotalTokens := prop (Some l) "maxTotalTokens" ≫= as_int;
|}.
Definition limits (n : CapabilityNarrowing) : option ExecutionLimits := limits_value <$> limits_object n.

Record SubAgentTask : Type := {
  task_agentName : string;
  task_message : string;
  narrowing : option CapabilityNarrowing;
  task_data : option obj;
  task_signal : option AbortSignal;
}.

(** ** Results *)

Inductive Status : Type := StatusSuccess | StatusFailed | StatusDenied.
#[export] Instance status_eq_dec : EqDecision Status.
Proof. solve_decision. Defined.

Record TokenCounts : Type := { inputCount : Z; outputCount : Z; totalCount : Z }.

Record SubAgentResult : Type := {
  agentName : string;
  status : Status;
  response : string;
  toolCount : Z;
  result_error : option string;
  score : option num;
  tokens : option TokenCounts;
  durationMs : option Z;
}.

Definition failed_result (name err : string) : SubAgentResult :=
  {| agentName := name; status := StatusFailed; response := ""; toolCount := 0;
     result_error := Some err; score := None; tokens := None; durationMs := None |}.

Definition succeeded (r : SubAgentResult) : bool := bool_decide (status r = StatusSuccess).

(** ** Lemmas *)

Lemma prop_set o k v k' :
  prop (Some (obj_set o k v)) k' =
  if bool_decide (k = k') then (match v with VUndef | VNull => None | _ => Some v end) else prop (Some o) k'.
Proof. unfold prop. simpl. rewrite obj_get_set. case_bool_decide; [|done]. by destruct v. Qed.

Lemma as_strings_strings l : as_strings (strings l) = Some l.
Proof. simpl. f_equal. induction l as [|s l IH]; simpl; [done|]. by rewrite IH. Qed.

Lemma dedupe_elem seen l x : x ∈ LocalTool.dedupe seen l <-> x ∈ l /\ x ∉ seen.
Proof.
  revert seen. induction l as [|y l IH]; intros seen; simpl; [set_solver|].
  case_bool_decide; rewrite !elem_of_cons, IH; [set_solver|].
  destruct (decide (x = y)); set_solver.
Qed.

Lemma unique_elem l x : x ∈ LocalTool.unique l <-> x ∈ l.
Proof. unfold LocalTool.unique. rewrite dedupe_elem. set_solver. Qed.

End Orchestration.
