(* ===== verification/Delegation.v ===== *)
(** * Delegating to a sub-agent (packages/orchestration/src/delegator)

    [SubAgentDelegator.delegate] and the policy that enforces the capabilities it
    passes on, [CapabilityNarrowingPolicy]. *)

From S2P Require Export Orchestration.

#[local] Open Scope string_scope.
#[local] Open Scope list_scope.
#[local] Open Scope Z_scope.
#[local] Open Scope eff_scope.

Module Delegation.
Import ScopeKey LocalTool Runner Orchestration.

(** ** What a context carries *)

(** [(ctx.data?.agentic ?? {})] *)
Definition agentic (ctx : AgentContext) : obj := default [] (prop (ctx_data ctx) "agentic" ≫= as_obj).

Definition delegationDepth (ctx : AgentContext) : Z :=
  default 0 (orelse (prop (Some (agentic ctx)) "delegationDepth" ≫= as_int)
                    (prop (ctx_data ctx) "__delegationDepth" ≫= as_int)).

Definition capabilityNarrowing (ctx : AgentContext) : option CapabilityNarrowing :=
  orelse (prop (Some (agentic ctx)) "capabilityNarrowing" ≫= as_obj)
         (prop (ctx_data ctx) "__capabilityNarrowing" ≫= as_obj).

(** ** The policy *)

Definition denied_reason (toolName : string) : string :=
  "Tool " +:+ in_quotes toolName +:+ " is prohibited by the delegated deniedTools capability blacklist.".
Definition not_allowed_reason (toolName : string) : string :=
  "Tool " +:+ in_quotes toolName +:+ " is not permitted under the delegated allowedTools capability whitelist.".

Definition evaluate (ctx : AgentContext) (toolName : string) : PolicyResult :=
  match capabilityNarrowing ctx with
  | None => PAllow None
  | Some n =>
      if match deniedTools n with Some l => bool_decide (toolName ∈ l) | None => false end
      then PDeny (denied_reason toolName) None
      else if match allowedTools n with Some l => negb (bool_decide (toolName ∈ l)) | None => false end
      then PDeny (not_allowed_reason toolName) None
      else PAllow None
  end.

(** ** Planning a delegation

    What [delegate] computes before it calls the runner: a result, an error or the
    run to start. *)

(** The call of [AgentRunner.run]. *)
Record RunRequest : Type := {
  rq_agent : string;
  rq_sessionId : string;
  rq_message : string;
  rq_limits : option ExecutionLimits;
  rq_signal : option AbortSignal;
  rq_context : RunContext;
}.

Inductive planned : Type :=
| PlanResult (r : SubAgentResult)
| PlanThrow (e : orchestration_error)
| PlanRun (rq : RunRequest).

(** Which of [requested] are not held. *)
Definition not_held (held requested : list string) : list string :=
  List.filter (fun p => negb (bool_decide (p ∈ held))) requested.

(** The narrowed permissions or roles, or the error. *)
Definition narrow_rights (type : string) (held : option (list string)) (allowed : option (list string))
    : orchestration_error + option (list string) :=
  let parentPerms := default [] held in
  match allowed with
  | None => inr held
  | Some l =>
      match not_held parentPerms l with
      | [] => inr (Some (List.filter (fun p => bool_decide (p ∈ l)) parentPerms))
      | invalid => inl (CapabilityEscalationError invalid parentPerms type)
      end
  end.

Definition effectiveAllowedTools (parent task : option CapabilityNarrowing) : option (list string) :=
  let mine := task ≫= allowedTools in
  match parent ≫= allowedTools with
  | None => mine
  | Some theirs =>
      match mine with
      | Some l => Some (List.filter (fun t => bool_decide (t ∈ theirs)) l)
      | None => Some theirs
      end
  end.

Definition effectiveDeniedTools (parent task : option CapabilityNarrowing) : list string :=
  default [] (parent ≫= deniedTools) ++ default [] (task ≫= deniedTools).

Definition effectiveNarrowing (parent task : option CapabilityNarrowing) : option CapabilityNarrowing :=
  match task, parent with
  | None, None => None
  | _, _ =>
      let denied := effectiveDeniedTools parent task in
      Some (obj_set (obj_set (spread (default [] parent) (default [] task))
              "allowedTools" (opt_strings (effectiveAllowedTools parent task)))
              "deniedTools" (match denied with [] => VUndef | _ => strings (unique denied) end))
  end.

Definition opt_obj (o : option obj) : value := match o with Some fields => VObj fields | None => VUndef end.

Definition childData (parentContext : AgentContext) (task : SubAgentTask) (currentDepth : Z) : obj :=
  obj_set (spread (default [] (ctx_data parentContext)) (default [] (task_data task))) "agentic"
    (VObj (obj_set (obj_set (agentic parentContext)
             "capabilityNarrowing" (opt_obj (effectiveNarrowing (capabilityNarrowing parentContext) (narrowing task))))
             "delegationDepth" (VNum (num_of_Z currentDepth)))).

Definition iteration_part (iteration : option Z) : scope_part :=
  match iteration with Some n => PartNum (num_of_Z n) | None => PartUndef end.

Definition subSessionId (parentContext : AgentContext) (agentName : string) (iteration : option Z) : string :=
  scopeKey [PartStr (ctx_sessionId parentContext); PartStr agentName; iteration_part iteration].

Definition activeSignal (parentContext : AgentContext) (task : SubAgentTask) (signal : option AbortSignal)
    : option AbortSignal := orelse (orelse (task_signal task) signal) (context_signal parentContext).

Definition child_run (parentContext : AgentContext) (task : SubAgentTask) (iteration : option Z)
    (signal : option AbortSignal) (permissions' roles' : option (list string)) (currentDepth : Z) : RunRequest := {|
  rq_agent := task_agentName task;
  rq_sessionId := subSessionId parentContext (task_agentName task) iteration;
  rq_message := task_message task;
  rq_limits := narrowing task ≫= limits;
  rq_signal := activeSignal parentContext task signal;
  rq_context := {|
    run_security := {| userId := userId (security parentContext); tenantId := tenantId (security parentContext);
                       roles := roles'; permissions := permissions' |};
    run_data := Some (childData parentContext task currentDepth);
    run_traceId := None;
    run_parentTraceId := Some (ctx_traceId parentContext);
    run_rootTraceId := Some (default (ctx_traceId parentContext) (ctx_rootTraceId parentContext));
  |};
|}.

Definition plan (maxDelegationDepth : Z) (aborted : AbortSignal -> bool) (parentContext : AgentContext)
    (task : SubAgentTask) (iteration : option Z) (signal : option AbortSignal) : planned :=
  if match activeSignal parentContext task signal with Some s => aborted s | None => false end
  then PlanResult (failed_result (task_agentName task) "Sub-agent run was aborted")
  else
    let currentDepth := delegationDepth parentContext + 1 in
    if maxDelegationDepth <? currentDepth
    then PlanThrow (MaxDelegationDepthExceededError currentDepth maxDelegationDepth (task_agentName task))
    else
      match narrow_rights "permissions" (permissions (security parentContext)) (narrowing task ≫= allowedPermissions) with
      | inl e => PlanThrow e
      | inr permissions' =>
          match narrow_rights "roles" (roles (security parentContext)) (narrowing task ≫= allowedRoles) with
          | inl e => PlanThrow e
          | inr roles' => PlanRun (child_run parentContext task iteration signal permissions' roles' currentDepth)
          end
      end.

(** What the runner returned: its result, and the score some runners add. *)
Record RunOutcome : Type := { run_result : AgentResult; run_score : option num }.

Definition token_counts (u : ModelUsage) : TokenCounts := {|
  inputCount := default 0 (inputTokens u);
  outputCount := default 0 (outputTokens u);
  totalCount := default 0 (totalTokens u);
|}.

Definition delegated_result (task : SubAgentTask) (r : RunOutcome + error) (duration : Z) : SubAgentResult :=
  match r with
  | inl o =>
      {| agentName := task_agentName task; status := StatusSuccess; response := res_output (run_result o);
         toolCount := Z.of_nat (length (res_toolCalls (run_result o))); result_error := None;
         score := run_score o; tokens := token_counts <$> res_usage (run_result o); durationMs := Some duration |}
  | inr e =>
      {| agentName := task_agentName task; status := StatusFailed; response := ""; toolCount := 0;
         result_error := Some (if truthy (error_text e) then error_text e else "Sub-agent execution error");
         score := None; tokens := None; durationMs := Some duration |}
  end.

Section Delegate.
Context {W E : Type} (inject : RunRequest -> E).

Record DelegationHost : Type := {
  signal_aborted : AbortSignal -> W -> bool;
  clock : W -> Z;
  runner_run : RunRequest -> W -> outcome error RunOutcome * W;
}.

Context (host : DelegationHost) (maxDelegationDepth : Z).
Notation M := (M error E W).

Definition delegate (parentContext : AgentContext) (task : SubAgentTask) (iteration : option Z)
    (signal : option AbortSignal) : M SubAgentResult :=
  todo <- ask (fun w => plan maxDelegationDepth (fun s => signal_aborted host s w) parentContext task iteration signal) ;;
  match todo with
  | PlanResult r => ret r
  | PlanThrow e => throw (orchestration_throw e)
  | PlanRun rq =>
      startTime <- ask (clock host) ;;
      emit (inject rq) ;;
      r <- tried (lift (runner_run host rq)) ;;
      now <- ask (clock host) ;;
      ret (delegated_result task r (now - startTime))
  end.
End Delegate.
Arguments DelegationHost : clear implicits.

(** [options?.maxDelegationDepth ?? 3] *)
Definition DEFAULT_MAX_DELEGATION_DEPTH : Z := 3.

(** ** The context of the sub-agent

    What [AgentRunner.run] makes of the request (Runner.v). *)

Definition run_input {W} (rq : RunRequest) (layer : Structured.Layer W) : RunInput (W := W) := {|
  ri_sessionId := rq_sessionId rq; ri_message := rq_message rq; ri_context := Some (rq_context rq);
  ri_limits := rq_limits rq; ri_toolErrorHandling := None; ri_messageReducer := None; ri_cascade := None;
  ri_history := None; ri_output := layer; ri_signal := is_some (rq_signal rq);
|}.

Definition child_context (rq : RunRequest) (traceId : string) (dl : option Z) : AgentContext := {|
  security := run_security (rq_context rq);
  ctx_sessionId := rq_sessionId rq;
  ctx_traceId := traceId;
  ctx_parentTraceId := run_parentTraceId (rq_context rq);
  ctx_rootTraceId := orelse (run_rootTraceId (rq_context rq))
                       (if truthy_opt (run_parentTraceId (rq_context rq)) then None else Some traceId);
  ctx_data := run_data (rq_context rq);
  ctx_signal := is_some (rq_signal rq);
  deadline := dl;
|}.

(** The runner prepares the turn of a delegated request in such a context. *)
Lemma prepared_context {W I T} `{!EqDecision I} (self : AgentRunner (W := W) (I := I) (T := T))
    (host : RunnerHost (W := W) (I := I) (T := T)) rq layer w :
  run_traceId (rq_context rq) = None ->
  wp (prepare self host (rq_agent rq) (run_input rq layer)) w (fun o _ _ =>
    match o with Ret p => exists tid dl, pr_context p = child_context rq tid dl | _ => True end).
Proof.
  intros Hid. unfold prepare. destruct (get_agent self (rq_agent rq)) as [agent|]; [|done].
  do 2 wp_step. simpl. rewrite Hid. do 2 wp_step. destruct o as [tid|e|]; [|done..]. simpl.
  wp_step. eapply run_wp. intros o w1 l1 _. destruct o as [tools|e|]; [|done..]. simpl.
  wp_step. eapply run_wp. intros o2 w2 l2 _. destruct o2 as [so|e|]; [|done..]. simpl.
  wp_step. simpl. by do 2 eexists.
Qed.

(** ** Capabilities only shrink *)

Definition permits (ctx : AgentContext) (toolName : string) : Prop := evaluate ctx toolName = PAllow None.

(** What a narrowing by itself lets a tool do. *)
Definition lists_permit (n : option CapabilityNarrowing) (toolName : string) : Prop :=
  (forall l, n ≫= deniedTools = Some l -> toolName ∉ l) /\ (forall l, n ≫= allowedTools = Some l -> toolName ∈ l).

Lemma permits_lists ctx t : permits ctx t <-> lists_permit (capabilityNarrowing ctx) t.
Proof.
  unfold permits, evaluate, lists_permit. destruct (capabilityNarrowing ctx) as [n|]; simpl; [|by split].
  destruct (deniedTools n) as [d|], (allowedTools n) as [a|]; simpl; repeat case_bool_decide; naive_solver.
Qed.

Lemma as_strings_opt (o : option (list string)) :
  (match opt_strings o with VUndef | VNull => None | _ => Some (opt_strings o) end) ≫= as_strings = o.
Proof. destruct o as [l|]; [apply as_strings_strings|done]. Qed.

Lemma effective_allowed parent task n :
  effectiveNarrowing parent task = Some n -> allowedTools n = effectiveAllowedTools parent task.
Proof.
  unfold effectiveNarrowing, allowedTools. intros H.
  assert (n = obj_set (obj_set (spread (default [] parent) (default [] task))
              "allowedTools" (opt_strings (effectiveAllowedTools parent task)))
              "deniedTools" (match effectiveDeniedTools parent task with [] => VUndef | _ => strings (unique (effectiveDeniedTools parent task)) end)) as ->.
  { by destruct task, parent; simplify_eq. }
  rewrite !prop_set. simpl. apply as_strings_opt.
Qed.

Lemma effective_denied parent task n :
  effectiveNarrowing parent task = Some n ->
  deniedTools n = match effectiveDeniedTools parent task with [] => None | _ => Some (unique (effectiveDeniedTools parent task)) end.
Proof.
  unfold effectiveNarrowing, deniedTools. intros H.
  assert (exists o, n = obj_set o
              "deniedTools" (match effectiveDeniedTools parent task with [] => VUndef | _ => strings (unique (effectiveDeniedTools parent task)) end)) as [o ->].
  { by destruct task, parent; simplify_eq; eexists. }
  rewrite prop_set. rewrite bool_decide_true by done. destruct (effectiveDeniedTools parent task); [done|].
  apply as_strings_strings.
Qed.

Lemma denied_permit parent task t :
  (forall l, (match effectiveDeniedTools parent task with [] => None | _ => Some (unique (effectiveDeniedTools parent task)) end) = Some l -> t ∉ l) <->
  (forall l, parent ≫= deniedTools = Some l -> t ∉ l) /\ (forall l, task ≫= deniedTools = Some l -> t ∉ l).
Proof.
  assert (t ∉ effectiveDeniedTools parent task <->
    (forall l, parent ≫= deniedTools = Some l -> t ∉ l) /\ (forall l, task ≫= deniedTools = Some l -> t ∉ l)) as <-.
  { unfold effectiveDeniedTools. destruct (parent ≫= deniedTools), (task ≫= deniedTools); set_solver. }
  destruct (effectiveDeniedTools parent task) as [|x l] eqn:Hd; [set_solver|]. rewrite <- Hd.
  split; [intros H; specialize (H _ eq_refl)|intros H l' [= <-]]; by rewrite unique_elem in *.
Qed.

Lemma allowed_permit parent task t :
  (forall l, effectiveAllowedTools parent task = Some l -> t ∈ l) <->
  (forall l, parent ≫= allowedTools = Some l -> t ∈ l) /\ (forall l, task ≫= allowedTools = Some l -> t ∈ l).
Proof.
  unfold effectiveAllowedTools. destruct (parent ≫= allowedTools) as [p|], (task ≫= allowedTools) as [m|]; try naive_solver.
  assert (forall x, x ∈ List.filter (fun t => bool_decide (t ∈ p)) m <-> x ∈ m /\ x ∈ p) as Hf.
  { intros x. rewrite list_elem_of_In, List.filter_In, <- list_elem_of_In, bool_decide_eq_true. done. }
  split; [intros H; specialize (H _ eq_refl); rewrite Hf in H; naive_solver|].
  intros [H1 H2] l [= <-]. rewrite Hf. naive_solver.
Qed.

(** The narrowing passed on permits what both narrowings permit. *)
Lemma effective_permits parent task n t :
  effectiveNarrowing parent task = Some n ->
  lists_permit (Some n) t <-> lists_permit parent t /\ lists_permit task t.
Proof.
  intros Hn. unfold lists_permit at 1. simpl.
  rewrite (effective_allowed _ _ _ Hn), (effective_denied _ _ _ Hn), denied_permit, allowed_permit.
  unfold lists_permit. tauto.
Qed.

Lemma child_narrowing parentContext task it sig ps rs depth tid dl :
  capabilityNarrowing (child_context (child_run parentContext task it sig ps rs depth) tid dl) =
  orelse (effectiveNarrowing (capabilityNarrowing parentContext) (narrowing task))
    (prop (Some (childData parentContext task depth)) "__capabilityNarrowing" ≫= as_obj).
Proof.
  unfold capabilityNarrowing at 1. f_equal. unfold agentic at 1. simpl. unfold childData at 1.
  rewrite prop_set, bool_decide_true by done. simpl. rewrite !prop_set. simpl.
  by destruct (effectiveNarrowing _ _).
Qed.

Lemma child_depth parentContext task it sig ps rs depth tid dl :
  delegationDepth (child_context (child_run parentContext task it sig ps rs depth) tid dl) = depth.
Proof.
  unfold delegationDepth, agentic. simpl. unfold childData.
  rewrite prop_set, bool_decide_true by done. simpl. rewrite !prop_set. simpl. lia.
Qed.

Lemma narrowed_rights type held allowed r p :
  narrow_rights type held allowed = inr r -> p ∈ default [] r ->
  p ∈ default [] held /\ (forall l, allowed = Some l -> p ∈ l).
Proof.
  unfold narrow_rights. destruct allowed as [l|]; [|by intros [= <-]].
  destruct (not_held (default [] held) l); [|done]. intros [= <-]. simpl.
  rewrite list_elem_of_In, List.filter_In, <- list_elem_of_In, bool_decide_eq_true. naive_solver.
Qed.

(** A request that was planned, with the conditions that let it be. *)
Lemma plan_run maxDepth aborted parentContext task it sig rq :
  plan maxDepth aborted parentContext task it sig = PlanRun rq ->
  exists ps rs, rq = child_run parentContext task it sig ps rs (delegationDepth parentContext + 1) /\
    delegationDepth parentContext + 1 <= maxDepth /\
    narrow_rights "permissions" (permissions (security parentContext)) (narrowing task ≫= allowedPermissions) = inr ps /\
    narrow_rights "roles" (roles (security parentContext)) (narrowing task ≫= allowedRoles) = inr rs /\
    (forall s, activeSignal parentContext task sig = Some s -> aborted s = false).
Proof.
  unfold plan. destruct (activeSignal parentContext task sig) as [s|]; [destruct (aborted s) eqn:Ha; [done|]|];
    destruct (Z.ltb_spec maxDepth (delegationDepth parentContext + 1)); try done;
    destruct (narrow_rights "permissions" _ _) as [|ps]; try done;
    destruct (narrow_rights "roles" _ _) as [|rs]; try done; intros [= <-]; exists ps, rs; split_and!; naive_solver.
Qed.

(** A sub-agent never has more than its parent: its tenant and user are the
    parent's, every permission and role it holds the parent holds and the task allows,
    every tool the narrowing policy lets it call it lets the parent call, and the
    task's own lists too - and exactly those tools when there is any narrowing - its
    depth is one more than the parent's and within the limit, and its trace belongs to
    the parent's root trace. *)
Lemma delegation_only_narrows maxDepth aborted parentContext task it sig rq traceId dl
    (Hplan : plan maxDepth aborted parentContext task it sig = PlanRun rq) :
  let child := child_context rq traceId dl in
  tenantId (security child) = tenantId (security parentContext) /\
  userId (security child) = userId (security parentContext) /\
  (forall p, p ∈ default [] (permissions (security child)) ->
     p ∈ default [] (permissions (security parentContext)) /\
     (forall l, narrowing task ≫= allowedPermissions = Some l -> p ∈ l)) /\
  (forall r, r ∈ default [] (roles (security child)) ->
     r ∈ default [] (roles (security parentContext)) /\
     (forall l, narrowing task ≫= allowedRoles = Some l -> r ∈ l)) /\
  (forall t, permits child t -> permits parentContext t /\ lists_permit (narrowing task) t) /\
  (is_some (capabilityNarrowing parentContext) || is_some (narrowing task) = true ->
     forall t, permits parentContext t -> lists_permit (narrowing task) t -> permits child t) /\
  delegationDepth child = delegationDepth parentContext + 1 /\ delegationDepth child <= maxDepth /\
  ctx_rootTraceId child = Some (default (ctx_traceId parentContext) (ctx_rootTraceId parentContext)).
Proof.
  apply plan_run in Hplan as (ps & rs & -> & Hdepth & Hps & Hrs & _). intros child. unfold child.
  rewrite child_depth. split_and!; try done.
  - intros p. by apply narrowed_rights with "permissions".
  - intros r. by apply narrowed_rights with "roles".
  - intros t. rewrite !permits_lists, child_narrowing.
    destruct (effectiveNarrowing _ _) as [n|] eqn:Hn; simpl; [by apply effective_permits|].
    intros _. by destruct (narrowing task), (capabilityNarrowing parentContext).
  - intros Hany t. rewrite !permits_lists, child_narrowing.
    destruct (effectiveNarrowing _ _) as [n|] eqn:Hn; simpl.
    + intros. by eapply effective_permits.
    + by destruct (narrowing task), (capabilityNarrowing parentContext).
Qed.

(** ** Chains of delegation *)

(** [delegates maxDepth parent child]: the context of a sub-agent started for some
    task of a run in the context [parent]. *)
Inductive delegates (maxDepth : Z) (parent : AgentContext) : AgentContext -> Prop :=
| Delegates aborted task it sig rq traceId dl :
    plan maxDepth aborted parent task it sig = PlanRun rq ->
    delegates maxDepth parent (child_context rq traceId dl).

Inductive descends (maxDepth : Z) (root : AgentContext) : nat -> AgentContext -> Prop :=
| DescendsRoot : descends maxDepth root 0 root
| DescendsStep n c c' : descends maxDepth root n c -> delegates maxDepth c c' -> descends maxDepth root (S n) c'.

(** C5. Through any chain of delegations, with any tasks and data: a descendant keeps
    the tenant of the root, holds only permissions and roles of the root, may call only
    tools the root may call, and the chain is no longer than the levels the depth limit
    leaves. *)
Theorem descendants_are_contained maxDepth root n child (Hd : descends maxDepth root n child) :
  tenantId (security child) = tenantId (security root) /\
  default [] (permissions (security child)) ⊆ default [] (permissions (security root)) /\
  default [] (roles (security child)) ⊆ default [] (roles (security root)) /\
  (forall t, permits child t -> permits root t) /\
  (Z.of_nat n <= Z.max 0 (maxDepth - delegationDepth root)).
Proof.
  assert (delegationDepth child = delegationDepth root + Z.of_nat n /\
          (n = O \/ delegationDepth child <= maxDepth)) as [Hdep Hmax].
  { destruct Hd as [|n c c' Hd Hs]; [lia|]. revert c' Hs.
    induction Hd as [|n c c1 Hd IH Hs1]; intros c' [ab task it sig rq tid dl Hp];
      destruct (delegation_only_narrows _ _ _ _ _ _ _ tid dl Hp) as (_ & _ & _ & _ & _ & _ & Hc & Hm & _); [lia|].
    destruct (IH _ Hs1). lia. }
  cut (tenantId (security child) = tenantId (security root) /\
    default [] (permissions (security child)) ⊆ default [] (permissions (security root)) /\
    default [] (roles (security child)) ⊆ default [] (roles (security root)) /\
    (forall t, permits child t -> permits root t)).
  { intros (? & ? & ? & ?). split_and!; [done..|]. destruct Hmax; lia. }
  clear Hdep Hmax. induction Hd as [|n c c1 Hd IH Hs]; [done|].
  destruct Hs as [ab task it sig rq tid dl Hp], IH as (Ht & Hps & Hrs & Hto).
  destruct (delegation_only_narrows _ _ _ _ _ _ _ tid dl Hp) as (Ht' & _ & Hps' & Hrs' & Hto' & _).
  split_and!; [by rewrite Ht'|intros p Hp'%Hps'; set_solver|intros p Hp'%Hrs'; set_solver|naive_solver].
Qed.

(** ** What a delegation does *)

Lemma not_held_nil held l : not_held held l = [] <-> l ⊆ held.
Proof.
  unfold not_held. induction l as [|x l IH]; simpl; [split; [intros _; apply list_subseteq_nil|done]|].
  case_bool_decide; simpl; [rewrite IH; set_solver|]. split; [done|]. set_solver.
Qed.

Lemma rights_refused type held allowed e :
  narrow_rights type held allowed = inl e ->
  exists l, allowed = Some l /\ ~ l ⊆ default [] held /\
    e = CapabilityEscalationError (not_held (default [] held) l) (default [] held) type.
Proof.
  unfold narrow_rights. destruct allowed as [l|]; [|done].
  destruct (not_held (default [] held) l) eqn:Hn; [done|]. intros [= <-]. exists l.
  split_and!; [done| |by rewrite Hn]. rewrite <- not_held_nil. by rewrite Hn.
Qed.

Lemma rights_granted type held l r : narrow_rights type held (Some l) = inr r -> l ⊆ default [] held.
Proof. unfold narrow_rights. destruct (not_held _ _) eqn:H; [|done]. by apply not_held_nil in H. Qed.

(** Rights asked for that the parent does not hold. *)
Definition asks_too_much (parentContext : AgentContext) (task : SubAgentTask) : Prop :=
  (exists l, narrowing task ≫= allowedPermissions = Some l /\ ~ l ⊆ default [] (permissions (security parentContext))) \/
  (exists l, narrowing task ≫= allowedRoles = Some l /\ ~ l ⊆ default [] (roles (security parentContext))).

Section DelegateSpec.
Context {W E : Type} (inject : RunRequest -> E) (host : DelegationHost W) (maxDepth : Z).

(** A delegation either starts exactly one run or none. It throws only before
    anything started, in the world it found, and only for the depth limit or rights the
    parent lacks; a task that asks for such rights, or would exceed the depth, never
    starts a run. Once the run is started nothing is thrown: the result is the runner's
    answer, or a failure with the text of its error. *)
Theorem delegation_starts_once_or_refuses parentContext task it sig w :
  wp (delegate inject host maxDepth parentContext task it sig) w (fun o w' l =>
    (l = [] /\ w' = w \/ exists rq, l = [inject rq] /\ rq_agent rq = task_agentName task) /\
    (l <> [] -> delegationDepth parentContext < maxDepth /\ ~ asks_too_much parentContext task) /\
    match o with
    | Throw e => l = [] /\ (maxDepth <= delegationDepth parentContext \/ asks_too_much parentContext task)
    | Ret r => agentName r = task_agentName task /\
        (l = [] -> status r = StatusFailed) /\
        (status r = StatusSuccess -> exists rq out, l = [inject rq] /\
           (runner_run host rq w).1 = Ret out /\ response r = res_output (run_result out))
    | Diverge => exists rq, l = [inject rq] /\ (runner_run host rq w).1 = Diverge
    end).
Proof.
  unfold delegate. do 2 wp_step.
  destruct (plan _ _ _ _ _ _) as [r|e|rq] eqn:Hp.
  - wp_step. unfold plan in Hp.
    assert (r = failed_result (task_agentName task) "Sub-agent run was aborted") as ->.
    { destruct (match activeSignal _ _ _ with Some _ => _ | None => _ end); [by simplify_eq|].
      destruct (maxDepth <? _); [done|]. destruct (narrow_rights "permissions" _ _); [done|].
      by destruct (narrow_rights "roles" _ _). }
    split_and!; [by left|done|done|done|done].
  - wp_step. split_and!; [by left|done|done|]. unfold plan in Hp.
    destruct (match activeSignal _ _ _ with Some _ => _ | None => _ end); [done|].
    destruct (Z.ltb_spec maxDepth (delegationDepth parentContext + 1)); [left; lia|right].
    destruct (narrow_rights "permissions" _ _) as [e1|ps] eqn:H1.
    + apply rights_refused in H1 as (l & Hl & Hn & _). left. by exists l.
    + destruct (narrow_rights "roles" _ _) as [e2|rs] eqn:H2; [|done].
      apply rights_refused in H2 as (l & Hl & Hn & _). right. by exists l.
  - apply plan_run in Hp as (ps & rs & Hrq & Hdepth & Hps & Hrs & _).
    assert (rq_agent rq = task_agentName task) as Hag by by rewrite Hrq.
    assert (~ asks_too_much parentContext task) as Hask.
    { intros [(l & Hl & Hn)|(l & Hl & Hn)].
      - rewrite Hl in Hps. by apply rights_granted in Hps.
      - rewrite Hl in Hrs. by apply rights_granted in Hrs. }
    do 2 wp_step. do 2 wp_step. do 3 wp_step.
    destruct o as [out|e|]; simpl.
    + do 3 wp_step. split_and!; [right; by exists rq|intros _; split; [lia|done]|done|done|].
      intros _. exists rq, out. by rewrite Hext.
    + do 3 wp_step. split_and!; [right; by exists rq|intros _; split; [lia|done]|done|done|done].
    + split_and!; [right; by exists rq|intros _; split; [lia|done]|]. exists rq. by rewrite Hext.
Qed.
End DelegateSpec.

(** What a caller sees of a delegation: at most one run, of the planned request. *)
Lemma delegate_wp {W E} (inject : RunRequest -> E) (host : DelegationHost W) maxDepth ctx task it sig w :
  wp (delegate inject host maxDepth ctx task it sig) w (fun o _ l =>
    (l = [] \/ exists ps rs, l = [inject (child_run ctx task it sig ps rs (delegationDepth ctx + 1))]) /\
    match o with Ret r => agentName r = task_agentName task /\ (status r = StatusSuccess -> l <> []) | _ => True end).
Proof.
  unfold delegate. do 2 wp_step. destruct (plan _ _ _ _ _ _) as [r|e|rq] eqn:Hp.
  - wp_step. split; [by left|]. unfold plan in Hp.
    destruct (match activeSignal _ _ _ with Some _ => _ | None => _ end); [by simplify_eq|].
    destruct (maxDepth <? _); [done|]. destruct (narrow_rights "permissions" _ _); [done|].
    by destruct (narrow_rights "roles" _ _).
  - wp_step. split; [by left|done].
  - apply plan_run in Hp as (ps & rs & Hrq & _). do 2 wp_step. do 2 wp_step. do 3 wp_step.
    destruct o as [out|e|]; simpl; [do 3 wp_step|do 3 wp_step|]; (split; [right; exists ps, rs; by rewrite Hrq|done]).
Qed.

(** ** Sessions of sub-agents *)

Definition countable_iteration (it : option Z) : Prop :=
  match it with Some n => 0 < n < 10 ^ 21 | None => True end.

Lemma iteration_part_inj i j : iteration_part i = iteration_part j -> i = j.
Proof. destruct i, j; simpl; by intros; simplify_eq. Qed.

(** The session a sub-agent works in is its own: two delegations share a session
    only when the parent's session, the agent and the iteration are the same, so an
    iteration of a refinement loop never reads the history of another, nor of the
    parent. *)
Theorem sub_sessions_are_distinct c c' agent agent' it it'
    (Hi : countable_iteration it) (Hi' : countable_iteration it')
    (Heq : subSessionId c agent it = subSessionId c' agent' it') :
  ctx_sessionId c = ctx_sessionId c' /\ agent = agent' /\ it = it'.
Proof.
  assert (forall s a i, countable_iteration i -> Forall textual [PartStr s; PartStr a; iteration_part i]) as Hf.
  { intros s a [n|] Hn; repeat constructor. by exists n. }
  apply scope_inj in Heq; [|by apply Hf..].
  injection Heq as H1 H2 H3. by apply iteration_part_inj in H3.
Qed.

(** ** A concrete chain *)

Module Demo.

Definition root : AgentContext := {|
  security := {| userId := Some "u"; tenantId := Some "acme"; roles := Some ["editor"];
                 permissions := Some ["read"; "write"] |};
  ctx_sessionId := "s"; ctx_traceId := "t0"; ctx_parentTraceId := None; ctx_rootTraceId := None;
  ctx_data := None; ctx_signal := false; deadline := None |}.

Definition research : SubAgentTask := {|
  task_agentName := "researcher"; task_message := "look it up";
  narrowing := Some [("allowedTools", strings ["search"; "fetch"]); ("allowedPermissions", strings ["read"])];
  task_data := None; task_signal := None |}.

Definition fetch_only : SubAgentTask := {|
  task_agentName := "fetcher"; task_message := "fetch it";
  narrowing := Some [("allowedTools", strings ["fetch"; "shell"]); ("deniedTools", strings ["search"])];
  task_data := Some [("agentic", VNull)]; task_signal := None |}.

Definition start (ctx : AgentContext) (task : SubAgentTask) : AgentContext :=
  match plan 3 (fun _ => false) ctx task None None with
  | PlanRun rq => child_context rq "t" None
  | _ => ctx
  end.

Definition researcher : AgentContext := start root research.
Definition fetcher : AgentContext := start researcher fetch_only.

(** A tool the parent lacks stays out of reach, whatever the task lists. *)
Example shell_is_refused : evaluate fetcher "shell" = PDeny (not_allowed_reason "shell") None.
Proof. vm_compute. reflexivity. Qed.
Example fetch_is_allowed : evaluate fetcher "fetch" = PAllow None.
Proof. vm_compute. reflexivity. Qed.

(** Asking for more than the parent holds. *)
Example escalation_is_refused :
  plan 3 (fun _ => false) researcher
    {| task_agentName := "x"; task_message := ""; narrowing := Some [("allowedPermissions", strings ["write"])];
       task_data := None; task_signal := None |} None None =
  PlanThrow (CapabilityEscalationError ["write"] ["read"] "permissions").
Proof. vm_compute. reflexivity. Qed.

Lemma start_delegates ctx task rq :
  plan 3 (fun _ => false) ctx task None None = PlanRun rq -> delegates 3 ctx (start ctx task).
Proof. intros H. unfold start. rewrite H. by eapply Delegates. Qed.

Lemma fetcher_descends : descends 3 root 2 fetcher.
Proof.
  eapply DescendsStep; [eapply DescendsStep; [apply DescendsRoot|]|];
    (eapply start_delegates; vm_compute; reflexivity).
Qed.

End Demo.

Lemma descendants_are_contained_witness :
  tenantId (security Demo.fetcher) = Some "acme" /\ (Z.of_nat 2 <= Z.max 0 (3 - delegationDepth Demo.root)).
Proof.
  destruct (descendants_are_contained 3 Demo.root 2 Demo.fetcher Demo.fetcher_descends) as (H & _ & _ & _ & Hn).
  split; [exact H|exact Hn].
Defined.

Lemma sub_sessions_are_distinct_witness :
  ctx_sessionId Demo.root = ctx_sessionId Demo.root /\ "a" = "a" /\ Some 1 = Some 1.
Proof.
  apply (sub_sessions_are_distinct Demo.root Demo.root "a" "a" (Some 1) (Some 1)).
  - split; reflexivity.
  - split; reflexivity.
  - reflexivity.
Defined.

End Delegation.
