(* ===== verification/Consensus.v ===== *)
(** * Agreement of scores (packages/orchestration/src/runners)

    The variance-based consensus score of debate.runner.ts and
    parallel-subagent.runner.ts.  A mean of scores is not a decimal in general, so
    these computations are over rationals with NaN and the infinities; as
    everywhere, the rounding of doubles is not modelled. *)

From S2P Require Export Num.

#[local] Open Scope Z_scope.

Module Consensus.

(** ** Rationals as JavaScript numbers *)

Inductive ratio : Type :=
| RQ (q : Q)
| RNaN
| RInf (neg : bool).

Definition of_num (n : num) : ratio :=
  match n with NDec m e => RQ (dec_Q m e) | NNaN => RNaN | NInf b => RInf b end.

Definition ratio_opp (a : ratio) : ratio :=
  match a with RQ q => RQ (- q) | RNaN => RNaN | RInf b => RInf (negb b) end.

Definition ratio_add (a b : ratio) : ratio :=
  match a, b with
  | RQ x, RQ y => RQ (x + y)
  | RNaN, _ | _, RNaN => RNaN
  | RInf x, RInf y => if Bool.eqb x y then RInf x else RNaN
  | RInf x, _ | _, RInf x => RInf x
  end.

Definition ratio_sub (a b : ratio) : ratio := ratio_add a (ratio_opp b).

(** [a ** 2] *)
Definition ratio_square (a : ratio) : ratio :=
  match a with RQ q => RQ (q * q) | RNaN => RNaN | RInf _ => RInf false end.

(** [a / q] for a positive finite [q]. *)
Definition ratio_over (a : ratio) (q : Q) : ratio :=
  match a with RQ x => RQ (x / q) | _ => a end.

(** [a <= b] and [a > b]. *)
Definition ratio_le (a b : ratio) : bool :=
  match a, b with
  | RQ x, RQ y => Qle_bool x y
  | RNaN, _ | _, RNaN => false
  | RInf true, _ | _, RInf false => true
  | _, _ => false
  end.

(** [Math.max(a, b)] and [Math.min(a, b)] *)
Definition ratio_max (a b : ratio) : ratio :=
  match a, b with RNaN, _ | _, RNaN => RNaN | _, _ => if ratio_le a b then b else a end.
Definition ratio_min (a b : ratio) : ratio :=
  match a, b with RNaN, _ | _, RNaN => RNaN | _, _ => if ratio_le a b then a else b end.

(** [Math.max(0, Math.min(1, a))] *)
Definition clamp (a : ratio) : ratio := ratio_max (RQ 0) (ratio_min (RQ 1) a).

(** [a.toFixed(f)] for a nonnegative rational. *)
Definition ratio_to_fixed (f : Z) (a : ratio) : string :=
  match a with
  | RQ q => to_fixed f (NDec ((2 * Qnum q * 10 ^ f + QDen q) / (2 * QDen q)) (- f))
  | RNaN => num_to_string NNaN
  | RInf b => num_to_string (NInf b)
  end.

(** ** The score *)

Definition length_Q {A} (l : list A) : Q := inject_Z (Z.of_nat (length l)).

Definition mean (scores : list ratio) : ratio :=
  ratio_over (fold_left ratio_add scores (RQ 0)) (length_Q scores).

Definition variance (scores : list ratio) : ratio :=
  let m := mean scores in
  ratio_over (fold_left (fun acc s => ratio_add acc (ratio_square (ratio_sub s m))) scores (RQ 0)) (length_Q scores).

(** [Math.max(0, Math.min(1, 1 - variance / 0.25))] *)
Definition convergence (scores : list ratio) : ratio :=
  clamp (ratio_sub (RQ 1) (ratio_over (variance scores) (1 # 4))).

(** ** What it measures *)

#[local] Open Scope Q_scope.

Fixpoint Qsum (l : list Q) : Q := match l with [] => 0 | x :: l' => x + Qsum l' end.

Lemma fold_Qsum l a : exists q, fold_left ratio_add (map RQ l) (RQ a) = RQ q /\ q == a + Qsum l.
Proof.
  revert a. induction l as [|x l IH]; intros a; simpl; [exists a; split; [done|ring]|].
  destruct (IH (a + x)) as (q & -> & Hq). exists q. split; [done|]. rewrite Hq. ring.
Qed.

Definition deviation (m s : Q) : Q := (s - m) * (s - m).

Lemma fold_deviation m l a :
  exists q, fold_left (fun acc s => ratio_add acc (ratio_square (ratio_sub s (RQ m)))) (map RQ l) (RQ a) = RQ q /\
    q == a + Qsum (map (deviation m) l).
Proof.
  revert a. induction l as [|x l IH]; intros a; simpl; [exists a; split; [done|ring]|].
  destruct (IH (a + (x + - m) * (x + - m))) as (q & -> & Hq). exists q. split; [done|]. rewrite Hq.
  unfold deviation. ring.
Qed.

Lemma square_nonneg (x : Q) : 0 <= x * x.
Proof. destruct x as [n d]. unfold Qle, Qmult. cbn. nia. Qed.

Lemma deviation_nonneg m s : 0 <= deviation m s.
Proof. apply square_nonneg. Qed.

Lemma Qsum_nonneg l : Forall (fun x => 0 <= x) l -> 0 <= Qsum l.
Proof. induction 1; simpl; lra. Qed.

Lemma Qsum_deviation_nonneg m l : 0 <= Qsum (map (deviation m) l).
Proof. apply Qsum_nonneg, Forall_map, Forall_true. intros x. apply deviation_nonneg. Qed.

Lemma Qsum_deviation_zero m l : Qsum (map (deviation m) l) == 0 <-> Forall (fun s => s == m) l.
Proof.
  induction l as [|x l IH]; simpl; [by split; [constructor|]|].
  pose proof (deviation_nonneg m x). pose proof (Qsum_deviation_nonneg m l).
  rewrite Forall_cons, <- IH. unfold deviation in *. split.
  - intros H1. assert ((x - m) * (x - m) == 0) as Hx by lra. split; [|lra].
    apply Qmult_integral in Hx. destruct Hx; lra.
  - intros [Hx Hl]. rewrite Hx, Hl. ring.
Qed.

Lemma length_Q_cons {A} (x : A) l : length_Q (x :: l) == 1 + length_Q l.
Proof. unfold length_Q. cbn [length]. rewrite Nat2Z.inj_succ, <- Z.add_1_l, inject_Z_plus. reflexivity. Qed.

Lemma length_Q_pos {A} (l : list A) : l <> [] -> 0 < length_Q l.
Proof. destruct l; [done|]. intros _. unfold length_Q. change 0 with (inject_Z 0). rewrite <- Zlt_Qlt. simpl. lia. Qed.

(** The sum of squared deviations is that of the squares less the mean's. *)
Lemma deviation_expand m l :
  Qsum (map (deviation m) l) == Qsum (map (fun s => s * s) l) - (2 * m * Qsum l) + length_Q l * (m * m).
Proof.
  induction l as [|x l IH]; simpl; [unfold length_Q; simpl; ring|].
  rewrite IH, length_Q_cons. unfold deviation. ring.
Qed.

Lemma squares_below l : Forall (fun s => 0 <= s <= 1) l -> Qsum (map (fun s => s * s) l) <= Qsum l.
Proof. induction 1 as [|x l Hx _ IH]; simpl; [lra|]. nra. Qed.

(** Scores between 0 and 1 deviate by a quarter at most. *)
Lemma deviation_bound m l :
  Forall (fun s => 0 <= s <= 1) l -> length_Q l * m == Qsum l ->
  Qsum (map (deviation m) l) <= length_Q l * (1 # 4).
Proof.
  intros Hl Hm. rewrite deviation_expand, <- Hm. pose proof (squares_below l Hl) as Hs. rewrite <- Hm in Hs.
  assert (0 <= length_Q l) as Hn by (unfold length_Q; change 0 with (inject_Z 0); rewrite <- Zle_Qle; lia).
  assert (0 <= length_Q l * ((m - (1 # 2)) * (m - (1 # 2)))) as Hsq by (apply Qmult_le_0_compat; [done|apply square_nonneg]).
  assert (length_Q l * ((m - (1 # 2)) * (m - (1 # 2))) ==
          length_Q l * (m * m) - length_Q l * m + length_Q l * (1 # 4)) as He by ring.
  assert (length_Q l * m * m == length_Q l * (m * m)) as Ha by ring.
  assert (2 * m * (length_Q l * m) == 2 * (length_Q l * (m * m))) as Hb by ring. rewrite Hb. lra.
Qed.

Lemma clamp_inside q : 0 <= q <= 1 -> exists q', clamp (RQ q) = RQ q' /\ q' == q.
Proof.
  intros [H0 H1]. unfold clamp, ratio_min, ratio_max, ratio_le.
  destruct (Qle_bool 1 q) eqn:Hq; [apply Qle_bool_iff in Hq|].
  - change (Qle_bool 0 1) with true. cbn. exists 1. split; [done|]. lra.
  - assert (Qle_bool 0 q = true) as -> by by apply Qle_bool_iff. by exists q.
Qed.

(** For scores between 0 and 1 the consensus score is 1 less four times their
    variance, and the clamp never acts: it lies between 0 and 1, and it is 1 exactly
    when all the scores agree. *)
Theorem convergence_measures_agreement (scores : list Q)
    (Hne : scores <> []) (Hin : Forall (fun s => 0 <= s <= 1) scores) :
  exists m v q, length_Q scores * m == Qsum scores /\
    length_Q scores * v == Qsum (map (deviation m) scores) /\
    convergence (map RQ scores) = RQ q /\ q == 1 - 4 * v /\ 0 <= q <= 1 /\
    (q == 1 <-> Forall (fun s => s == m) scores).
Proof.
  pose proof (length_Q_pos scores Hne) as Hn.
  assert (length_Q (map RQ scores) = length_Q scores) as Hlen by (unfold length_Q; by rewrite length_map).
  destruct (fold_Qsum scores 0) as (s & Hs & Hs'). unfold convergence, variance, mean. rewrite Hs, Hlen. simpl.
  set (m := s / length_Q scores). destruct (fold_deviation m scores 0) as (d & -> & Hd). simpl.
  set (v := d / length_Q scores).
  assert (length_Q scores * m == Qsum scores) as Hm.
  { unfold m. rewrite Hs'. field. lra. }
  assert (length_Q scores * v == Qsum (map (deviation m) scores)) as Hv.
  { unfold v. rewrite Hd. field. lra. }
  pose proof (deviation_bound m scores Hin Hm) as Hb. pose proof (Qsum_deviation_nonneg m scores) as Hp.
  rewrite <- Hv in Hb, Hp.
  assert (v <= 1 # 4) as Hv1 by by apply (Qmult_le_l _ _ (length_Q scores)).
  assert (0 <= v) as Hv0 by (apply (Qmult_le_l _ _ (length_Q scores)); [done|lra]).
  assert (v / (1 # 4) == 4 * v) as H4 by field.
  destruct (clamp_inside (1 + - (v / (1 # 4)))) as (q & Hq & Hq'); [lra|].
  exists m, v, q. rewrite H4 in Hq'. split_and!; try done; [lra..|].
  rewrite <- Qsum_deviation_zero, <- Hv. split; intros H.
  - assert (v == 0) as -> by lra. ring.
  - apply Qmult_integral in H as [H|H]; lra.
Qed.

Lemma convergence_measures_agreement_witness :
  exists q, convergence (map RQ [1 # 2; 1; 1 # 2]) = RQ q /\ 0 <= q <= 1.
Proof.
  destruct (convergence_measures_agreement [1 # 2; 1; 1 # 2]) as (m & v & q & _ & _ & Hq & _ & Hb & _).
  - discriminate.
  - repeat constructor; discriminate.
  - exists q. split; [exact Hq|exact Hb].
Defined.

End Consensus.
