(* ===== verification/Parallel.v ===== *)
(** * Running sub-agents in parallel (packages/orchestration/src/runners/parallel-subagent.runner.ts)

    One task with its retries, timeout and fallback is a [proc]: what it does
    between two awaits is a step, and each await is a delegation whose answer the
    environment decides.  The same process runs alone (the fallback chain) or
    interleaved with others (the fan-out and the race: FanOut.v). *)

From S2P Require Export Delegation Consensus.

#[local] Open Scope string_scope.
#[local] Open Scope list_scope.
#[local] Open Scope Z_scope.
#[local] Open Scope eff_scope.

Module Parallel.
Import Orchestration Delegation Consensus.

(** ** Options and results *)

Inductive AggregationStrategy : Type := AllSettled | FirstSuccess | BestOf | ConsensusMerge | FallbackChain.
#[export] Instance strategy_eq_dec : EqDecision AggregationStrategy.
Proof. solve_decision. Defined.

(** The evaluator returns one of the result objects it was given, which the code
    looks up by identity: here its index; [None] is anything else, or a throw. *)
Record ParallelRunnerOptions : Type := {
  aggregationStrategy : AggregationStrategy;
  par_timeoutMs : Z;
  retriesPerSubAgent : Z;
  maxConcurrency : option Z;
  par_signal : option AbortSignal;
  fallbackAgentName : option string;
  customMergerFn : option (list SubAgentResult -> outcome error string);
  evaluatorFn : option (list SubAgentResult -> option nat);
  consensusThreshold : num;
}.

Record ParallelRunResult : Type := {
  combinedResponse : string;
  results : list SubAgentResult;
  successCount : Z;
  failedCount : Z;
  selectedAgent : option string;
  consensusScore : option ratio;
}.

(** The [options] of the constructor, absent ones defaulted. *)
Definition mk_options (strategy : option AggregationStrategy) (timeout retries concurrency : option Z)
    (sig : option AbortSignal) (fallback : option string)
    (merger : option (list SubAgentResult -> outcome error string))
    (evaluator : option (list SubAgentResult -> option nat)) (threshold : option num)
    : ParallelRunnerOptions := {|
  aggregationStrategy := default AllSettled strategy;
  par_timeoutMs := default 30000 timeout;
  retriesPerSubAgent := default 1 retries;
  maxConcurrency := concurrency;
  par_signal := sig;
  fallbackAgentName := fallback;
  customMergerFn := merger;
  evaluatorFn := evaluator;
  consensusThreshold := default (NDec 7 (-1)) threshold;
|}.

Definition aborted_result (name : string) : SubAgentResult := failed_result name "Execution was aborted".

(** ** One task *)

Inductive proc : Type :=
| Done (r : SubAgentResult)
| Sense (s : option AbortSignal) (k : bool -> proc)
| Delegate (task : SubAgentTask) (s : option AbortSignal) (k : SubAgentResult -> proc).

Definition with_agent (name : string) (t : SubAgentTask) : SubAgentTask := {|
  task_agentName := name; task_message := task_message t; narrowing := narrowing t;
  task_data := task_data t; task_signal := task_signal t;
|}.

Definition rename (name : string) (r : SubAgentResult) : SubAgentResult := {|
  agentName := name; status := status r; response := response r; toolCount := toolCount r;
  result_error := result_error r; score := score r; tokens := tokens r; durationMs := durationMs r;
|}.

Definition fallback_name (name fallback : string) : string := name +:+ " (fallback: " +:+ fallback +:+ ")".

Section Task.
Context (options : ParallelRunnerOptions).

Definition maxAttempts : Z := retriesPerSubAgent options + 1.

(** After the attempts: the fallback agent, or the last result. *)
Definition after_attempts (task : SubAgentTask) (activeSignal : option AbortSignal)
    (lastResult : option SubAgentResult) : proc :=
  Sense activeSignal (fun aborted =>
    match fallbackAgentName options with
    | Some fallback =>
        if negb aborted && truthy fallback && negb (bool_decide (fallback = task_agentName task))
        then Delegate (with_agent fallback task) activeSignal (fun r =>
               Done (rename (fallback_name (task_agentName task) fallback) r))
        else Done (default (failed_result (task_agentName task) "Sub-agent failed all execution attempts") lastResult)
    | None => Done (default (failed_result (task_agentName task) "Sub-agent failed all execution attempts") lastResult)
    end).

Fixpoint attempts_loop (left : nat) (task : SubAgentTask) (activeSignal : option AbortSignal)
    (lastResult : option SubAgentResult) : proc :=
  match left with
  | O => after_attempts task activeSignal lastResult
  | S left' =>
      Sense activeSignal (fun aborted =>
        if aborted then Done (aborted_result (task_agentName task))
        else Delegate task activeSignal (fun r =>
          if succeeded r then Done r
          else Sense activeSignal (fun aborted' =>
            if aborted' then Done r else attempts_loop left' task activeSignal (Some r))))
  end.

Definition executeWithRetry (task : SubAgentTask) (externalSignal : option AbortSignal) : proc :=
  let activeSignal := orelse (task_signal task) externalSignal in
  Sense activeSignal (fun aborted =>
    if aborted then Done (aborted_result (task_agentName task))
    else attempts_loop (Z.to_nat maxAttempts) task activeSignal None).

(** ** The await of a delegation

    [delegateWithTimeout] calls [delegate] and waits for whichever comes first: its
    answer, the timer, or the signal when there is one. *)

Inductive answer : Type :=
| Answered (r : RunOutcome + error) (duration : Z)
| TimerFired
| SignalFired.

Definition timed_out (task : SubAgentTask) : SubAgentResult :=
  failed_result (task_agentName task)
    ("Sub-agent " +:+ task_agentName task +:+ " timed out after " +:+ Z_to_string (par_timeoutMs options) +:+ "ms").

(** What the await gives: [inr] is a rejection. *)
Definition settle (task : SubAgentTask) (p : planned) (a : answer) : SubAgentResult + error :=
  match p with
  | PlanResult r => inl r
  | PlanThrow e => inr (orchestration_throw e)
  | PlanRun _ =>
      inl match a with
          | Answered r d => delegated_result task r d
          | TimerFired => timed_out task
          | SignalFired => aborted_result (task_agentName task)
          end
  end.

(** ** Aggregation *)

Definition score_or_zero (r : SubAgentResult) : num := default (num_of_Z 0) (score r).

(** [successful.reduce((best, r) => (r.score ?? 0) > (best.score ?? 0) ? r : best)] *)
Definition better (best r : SubAgentResult) : SubAgentResult :=
  if num_ltb (score_or_zero best) (score_or_zero r) then r else best.
Definition best_of (first : SubAgentResult) (rest : list SubAgentResult) : SubAgentResult :=
  fold_left better rest first.

Definition no_success : string := "No sub-agents completed successfully.".
Definition blank_line : string := nl +:+ nl.

Definition aggregateBestOf (rs : list SubAgentResult) (ok failed : Z) : ParallelRunResult :=
  match List.filter succeeded rs with
  | [] => {| combinedResponse := no_success; results := rs; successCount := ok; failedCount := failed;
             selectedAgent := None; consensusScore := None |}
  | first :: rest =>
      let evaluated :=
        match evaluatorFn options with
        | Some f => match f (first :: rest) with Some i => (first :: rest) !! i | None => None end
        | None => None
        end in
      let selected := default (best_of first rest) evaluated in
      {| combinedResponse := response selected; results := rs; successCount := ok; failedCount := failed;
         selectedAgent := Some (agentName selected); consensusScore := None |}
  end.

Definition summary (r : SubAgentResult) : string :=
  "### [SubAgent: " +:+ agentName r +:+
  match score r with Some s => " (Score: " +:+ num_to_string s +:+ ")" | None => "" end +:+
  "]" +:+ nl +:+ response r.

(** The convergence of the scores that are given, when there are two. *)
Definition score_of_results (successful : list SubAgentResult) : option ratio :=
  match filter_map score successful with
  | (_ :: _ :: _) as scores => Some (convergence (map of_num scores))
  | _ => None
  end.

Definition aggregateConsensus (rs : list SubAgentResult) (ok failed : Z) : ParallelRunResult :=
  match List.filter succeeded rs with
  | [] => {| combinedResponse := no_success; results := rs; successCount := ok; failedCount := failed;
             selectedAgent := None; consensusScore := Some (RQ 0) |}
  | first :: rest =>
      let consensus := score_of_results (first :: rest) in
      let threshold := consensusThreshold options in
      let agentSummaries := join blank_line (map summary (first :: rest)) in
      match consensus with
      | Some c =>
          if ratio_le (of_num threshold) c
          then {| combinedResponse :=
                    "**Consensus Reached** (Score: " +:+ ratio_to_fixed 2 c +:+ ", Threshold: " +:+
                    num_to_string threshold +:+ ")" +:+ blank_line +:+ agentSummaries;
                  results := rs; successCount := ok; failedCount := failed;
                  selectedAgent := Some (agentName (best_of first rest)); consensusScore := Some c |}
          else {| combinedResponse := agentSummaries; results := rs; successCount := ok; failedCount := failed;
                  selectedAgent := None; consensusScore := Some c |}
      | None => {| combinedResponse := agentSummaries; results := rs; successCount := ok; failedCount := failed;
                   selectedAgent := None; consensusScore := None |}
      end
  end.

(** The text of a failure; an absent error prints as [undefined]. *)
Definition error_or_undefined (r : SubAgentResult) : string := default "undefined" (result_error r).

Definition settled_summary (r : SubAgentResult) : string :=
  if succeeded r then "### [SubAgent: " +:+ agentName r +:+ " - SUCCESS]" +:+ nl +:+ response r
  else "### [SubAgent: " +:+ agentName r +:+ " - FAILED]" +:+ nl +:+ "Error: " +:+ error_or_undefined r.

Definition aggregateAllSettled (rs : list SubAgentResult) (ok failed : Z) : ParallelRunResult :=
  {| combinedResponse := join blank_line (map settled_summary rs); results := rs; successCount := ok;
     failedCount := failed; selectedAgent := None; consensusScore := None |}.

Definition aggregate (rs : list SubAgentResult) (ok failed : Z) : outcome error ParallelRunResult :=
  match customMergerFn options with
  | Some f =>
      match f rs with
      | Ret text => Ret {| combinedResponse := text; results := rs; successCount := ok; failedCount := failed;
                           selectedAgent := None; consensusScore := None |}
      | Throw e => Throw e
      | Diverge => Diverge
      end
  | None =>
      Ret match aggregationStrategy options with
          | BestOf => aggregateBestOf rs ok failed
          | ConsensusMerge => aggregateConsensus rs ok failed
          | _ => aggregateAllSettled rs ok failed
          end
  end.

(** The end of [fanOut]. *)
Definition finish (rs : list SubAgentResult) : outcome error ParallelRunResult :=
  let ok := Z.of_nat (count succeeded rs) in
  aggregate rs ok (Z.of_nat (length rs) - ok).

(** ** Alone, in order *)

Section Sequential.
Context {W E : Type} (inject : RunRequest -> E).

Record RaceHost : Type := {
  race_aborted : AbortSignal -> W -> bool;
  race_answer : RunRequest -> Z -> option AbortSignal -> W -> answer * W;
}.
Context (host : RaceHost) (parentContext : AgentContext).
Notation M := (M error E W).

Definition is_aborted (s : option AbortSignal) (w : W) : bool :=
  match s with Some s => race_aborted host s w | None => false end.

(** The delegator the runner builds has the default depth limit. *)
Definition planning (ab : AbortSignal -> bool) (task : SubAgentTask) (s : option AbortSignal) : planned :=
  plan DEFAULT_MAX_DELEGATION_DEPTH ab parentContext task None s.

Definition delegateWithTimeout (task : SubAgentTask) (activeSignal : option AbortSignal) : M SubAgentResult :=
  todo <- ask (fun w => planning (fun s => race_aborted host s w) task activeSignal) ;;
  a <- match todo with
       | PlanRun rq =>
           emit (inject rq) ;;
           lift (fun w => let '(a, w') := race_answer host rq (par_timeoutMs options) activeSignal w in (Ret a, w'))
       | _ => ret TimerFired
       end ;;
  match settle task todo a with inl r => ret r | inr e => throw e end.

Fixpoint exec (p : proc) : M SubAgentResult :=
  match p with
  | Done r => ret r
  | Sense s k => aborted <- ask (is_aborted s) ;; exec (k aborted)
  | Delegate task s k => r <- delegateWithTimeout task s ;; exec (k r)
  end.

Fixpoint cascade_loop (tasks : list SubAgentTask) (allResults : list SubAgentResult) : M (list SubAgentResult) :=
  match tasks with
  | [] => ret allResults
  | task :: rest =>
      aborted <- ask (is_aborted (par_signal options)) ;;
      if aborted then ret (allResults ++ map (fun t => aborted_result (task_agentName t)) (task :: rest))
      else
        result <- exec (executeWithRetry task (par_signal options)) ;;
        if succeeded result then ret (allResults ++ [result])
        else cascade_loop rest (allResults ++ [result])
  end.

Definition cascade_summary (r : SubAgentResult) : string :=
  "[" +:+ agentName r +:+ " Error: " +:+ error_or_undefined r +:+ "]".

Definition cascade_result (allResults : list SubAgentResult) : ParallelRunResult :=
  let lastSuccess := find_first succeeded allResults in
  let ok := if is_some lastSuccess then 1 else 0 in
  {| combinedResponse := match lastSuccess with
                         | Some r => response r
                         | None => join nl (map cascade_summary allResults)
                         end;
     results := allResults; successCount := ok; failedCount := Z.of_nat (length allResults) - ok;
     selectedAgent := agentName <$> lastSuccess; consensusScore := None |}.

Definition cascade (tasks : list SubAgentTask) : M ParallelRunResult :=
  rs <- cascade_loop tasks [] ;; ret (cascade_result rs).

(** What [run] answers without running anything. *)
Definition empty_run : ParallelRunResult :=
  {| combinedResponse := ""; results := []; successCount := 0; failedCount := 0;
     selectedAgent := None; consensusScore := None |}.

Definition aborted_run (tasks : list SubAgentTask) : ParallelRunResult :=
  {| combinedResponse := "Execution was aborted";
     results := map (fun t => aborted_result (task_agentName t)) tasks; successCount := 0;
     failedCount := Z.of_nat (length tasks); selectedAgent := None; consensusScore := None |}.

(** [run]: the race and the fan-out interleave their tasks, so they are arguments
    here. *)
Definition run (raceFirstSuccess fanOut : list SubAgentTask -> M ParallelRunResult)
    (tasks : list SubAgentTask) : M ParallelRunResult :=
  match tasks with
  | [] => ret empty_run
  | _ =>
      aborted <- ask (is_aborted (par_signal options)) ;;
      if aborted then ret (aborted_run tasks)
      else
        match aggregationStrategy options with
        | FirstSuccess => raceFirstSuccess tasks
        | FallbackChain => cascade tasks
        | _ => fanOut tasks
        end
  end.
End Sequential.
End Task.
Arguments RaceHost : clear implicits.

(** ** What a task may do

    [conducts P Q n p]: [p] delegates at most [n] times, each time as [Q] says, and
    ends in a result of which [P] holds, whatever the signals and the answers are. *)
Inductive conducts (P : SubAgentResult -> Prop) (Q : SubAgentTask -> option AbortSignal -> Prop)
    : nat -> proc -> Prop :=
| ConductsDone n r : P r -> conducts P Q n (Done r)
| ConductsSense n s k : (forall b, conducts P Q n (k b)) -> conducts P Q n (Sense s k)
| ConductsDelegate n t s k :
    Q t s -> (forall r, agentName r = task_agentName t -> conducts P Q n (k r)) ->
    conducts P Q (S n) (Delegate t s k).

Section TaskSpec.
Context (options : ParallelRunnerOptions).

(** The results a task may end in. *)
Definition owned (task : SubAgentTask) (r : SubAgentResult) : Prop :=
  agentName r = task_agentName task \/
  exists f, fallbackAgentName options = Some f /\ agentName r = fallback_name (task_agentName task) f.

(** The delegations made for it. *)
Definition on_behalf (task : SubAgentTask) (ext : option AbortSignal) (t : SubAgentTask) (s : option AbortSignal) : Prop :=
  s = orelse (task_signal task) ext /\
  (t = task \/ exists f, fallbackAgentName options = Some f /\ f <> task_agentName task /\ t = with_agent f task).

Definition delegation_budget : nat :=
  Z.to_nat (maxAttempts options) + (if truthy_opt (fallbackAgentName options) then 1 else 0).

Lemma attempts_conduct task ext left last :
  (forall r, last = Some r -> owned task r) ->
  conducts (owned task) (on_behalf task ext) (left + (if truthy_opt (fallbackAgentName options) then 1 else 0))
    (attempts_loop options left task (orelse (task_signal task) ext) last).
Proof.
  revert last. induction left as [|left IH]; intros last Hlast; simpl.
  - constructor. intros b.
    assert (owned task (default (failed_result (task_agentName task) "Sub-agent failed all execution attempts") last)) as Hd.
    { destruct last as [r|]; [by apply Hlast|by left]. }
    destruct (fallbackAgentName options) as [f|] eqn:Hf; [|by constructor].
    destruct (negb b && truthy f && negb (bool_decide (f = task_agentName task))) eqn:Hc; [|by constructor].
    apply andb_prop in Hc as [[_ Ht]%andb_prop Hne%negb_true_iff%bool_decide_eq_false]. simpl. rewrite Ht.
    constructor; [split; [done|right; by exists f]|]. intros r Hr. constructor. right. exists f. by rewrite Hf.
  - constructor. intros []; [constructor; by left|]. constructor; [split; [done|by left]|].
    intros r Hr. destruct (succeeded r); [constructor; by left|]. constructor.
    intros []; [constructor; by left|]. apply IH. intros r' [= <-]. by left.
Qed.

Lemma retry_conducts task ext :
  conducts (owned task) (on_behalf task ext) delegation_budget (executeWithRetry options task ext).
Proof.
  constructor. intros []; [constructor; by left|]. by apply attempts_conduct.
Qed.

Lemma planned_name ab parentContext task it s r :
  plan DEFAULT_MAX_DELEGATION_DEPTH ab parentContext task it s = PlanResult r -> agentName r = task_agentName task.
Proof.
  unfold plan. destruct (match activeSignal _ _ _ with Some _ => _ | None => _ end); [by intros [= <-]|].
  destruct (_ <? _); [done|]. destruct (narrow_rights "permissions" _ _); [done|].
  by destruct (narrow_rights "roles" _ _).
Qed.

Lemma settled_name parentContext ab task s a r :
  settle options task (planning parentContext ab task s) a = inl r -> agentName r = task_agentName task.
Proof.
  unfold settle, planning. destruct (plan _ _ _ _ _ _) as [r'|e|rq] eqn:Hp; [|done|].
  - intros [= <-]. by eapply planned_name.
  - intros [= <-]. by destruct a as [[]| |].
Qed.

(** ** Running a task alone *)

Section SequentialSpec.
Context {W E : Type} (inject : RunRequest -> E) (host : RaceHost W) (parentContext : AgentContext).

Lemma timed_delegate_wp task s w :
  wp (delegateWithTimeout options inject host parentContext task s) w (fun o _ l =>
    (length l <= 1)%nat /\ match o with Ret r => agentName r = task_agentName task | Throw _ => True | Diverge => False end).
Proof.
  unfold delegateWithTimeout. do 2 wp_step.
  destruct (planning _ _ _ _) as [r|e|rq] eqn:Hp.
  - do 2 wp_step. simpl. wp_step. split; [simpl; lia|]. unfold planning in Hp. by eapply planned_name.
  - do 2 wp_step. simpl. wp_step. split; [simpl; lia|done].
  - do 3 wp_step. wp_step.
    assert (exists a, o = Ret a) as [a ->] by (destruct (race_answer _ _ _ _ _); simplify_eq; by eexists). simpl.
    wp_step. split; [simpl; lia|]. by destruct a as [[]| |].
Qed.

Lemma exec_conducts P Q n p w :
  conducts P Q n p ->
  wp (exec options inject host parentContext p) w (fun o _ l =>
    (length l <= n)%nat /\ match o with Ret r => P r | Throw _ => True | Diverge => False end).
Proof.
  intros H. revert w. induction H as [n r Hr|n s k _ IH|n t s k _ _ IH]; intros w; simpl.
  - wp_step. split; [simpl; lia|done].
  - do 2 wp_step. apply IH.
  - wp_step. eapply wp_mono; [apply timed_delegate_wp|]. intros o w1 l1 [Hl Ho].
    destruct o as [r|e|]; [|split; [lia|done]|done]. simpl.
    eapply wp_mono; [by apply IH|]. intros o w2 l2 [Hl2 Ho2]. rewrite length_app. split; [lia|done].
Qed.

Lemma aborted_owned tasks : Forall2 owned tasks (map (fun t => aborted_result (task_agentName t)) tasks).
Proof. induction tasks as [|t ts IH]; simpl; constructor; [by left|done]. Qed.

(** The results of a chain: one for each task from the first, in order. *)
Lemma chain_loop_wp tasks acc w :
  Forall (fun r => succeeded r = false) acc ->
  wp (cascade_loop options inject host parentContext tasks acc) w (fun o _ l =>
    (length l <= length tasks * delegation_budget)%nat /\
    match o with
    | Ret rs => exists new, rs = acc ++ new /\ Forall2 owned (take (length new) tasks) new /\
        (forall i r, rs !! i = Some r -> succeeded r = true -> S i = length rs) /\
        (Forall (fun r => succeeded r = false) rs -> length new = length tasks)
    | Throw _ => True
    | Diverge => False
    end).
Proof.
  revert acc w. induction tasks as [|task rest IH]; intros acc w Hacc; cbn [cascade_loop length Nat.mul].
  - wp_step. split; [simpl; lia|]. exists []. rewrite app_nil_r. split_and!; [done|constructor| |done].
    intros i r Hi Hs. rewrite Forall_lookup in Hacc. apply Hacc in Hi. congruence.
  - do 2 wp_step. destruct (is_aborted _ _ _).
    + wp_step. split; [simpl; lia|]. set (new := map (fun t => aborted_result (task_agentName t)) (task :: rest)).
      assert (Forall (fun r => succeeded r = false) (acc ++ new)) as Hall.
      { apply Forall_app. split; [done|]. unfold new. apply Forall_map, Forall_true. done. }
      exists new. change (aborted_result (task_agentName task) :: map (fun t => aborted_result (task_agentName t)) rest) with new.
      split_and!; [done| | |by unfold new; rewrite length_map].
      * unfold new. rewrite length_map, firstn_all. apply aborted_owned.
      * intros i r Hi Hs. rewrite Forall_lookup in Hall. apply Hall in Hi. congruence.
    + wp_step. eapply wp_mono; [by eapply exec_conducts, retry_conducts|]. intros o w1 l1 [Hl Ho].
      destruct o as [r|e|]; [|split; [lia|done]|done]. simpl. destruct (succeeded r) eqn:Hr.
      * wp_step. split; [rewrite app_nil_r; lia|]. exists [r]. split_and!; [done|by constructor| |].
        -- intros i x Hi Hx. destruct (decide (i < length acc)%nat) as [Hlt|Hge].
           ++ rewrite lookup_app_l in Hi by done. rewrite Forall_lookup in Hacc. apply Hacc in Hi. congruence.
           ++ apply lookup_lt_Some in Hi. rewrite length_app in *. simpl in *. lia.
        -- rewrite Forall_app, Forall_singleton. intros [_ H]. congruence.
      * eapply wp_mono; [apply IH; apply Forall_app; split; [done|by constructor]|].
        intros o w2 l2 [Hl2 Ho2]. rewrite length_app. split; [lia|]. destruct o as [rs|e|]; [|done..].
        destruct Ho2 as (new & -> & Hown & Hlast & Hnone). exists (r :: new). rewrite <- app_assoc in *.
        split_and!; [done|by constructor|done|]. intros H. simpl. by rewrite Hnone.
Qed.
End SequentialSpec.
End TaskSpec.

Lemma find_first_last {A} (p : A -> bool) l :
  (forall i x, l !! i = Some x -> p x = true -> S i = length l) ->
  match find_first p l with
  | Some x => last l = Some x /\ p x = true
  | None => Forall (fun x => p x = false) l
  end.
Proof.
  intros H. destruct (find_first p l) as [x|] eqn:Hf; [|by apply find_first_None].
  apply find_first_Some in Hf as [Hx Hp]. split; [|done].
  apply list_elem_of_lookup in Hx as [i Hi]. specialize (H i x Hi Hp).
  rewrite last_lookup. by replace (pred (length l)) with i by lia.
Qed.

(** A fallback chain delegates at most [budget] times for each task, and its
    results are those of the tasks from the first, in order, one for each. It stops at
    its first success, which is its last result, the agent it selects and the response
    it gives; without one there is a result for every task. *)
Theorem chain_stops_at_first_success {W E} (inject : RunRequest -> E) (host : RaceHost W) options ctx tasks w :
  wp (cascade options inject host ctx tasks) w (fun o _ l =>
    (length l <= length tasks * delegation_budget options)%nat /\
    match o with
    | Ret res =>
        Forall2 (owned options) (take (length (results res)) tasks) (results res) /\
        successCount res + failedCount res = Z.of_nat (length (results res)) /\
        match selectedAgent res with
        | Some name => exists r, last (results res) = Some r /\ succeeded r = true /\ agentName r = name /\
            combinedResponse res = response r /\ successCount res = 1 /\
            forall i r', results res !! i = Some r' -> succeeded r' = true -> S i = length (results res)
        | None => length (results res) = length tasks /\ successCount res = 0 /\
            Forall (fun r => succeeded r = false) (results res)
        end
    | Throw _ => True
    | Diverge => False
    end).
Proof.
  unfold cascade. wp_step. eapply wp_mono; [by apply chain_loop_wp|]. intros o w1 l1 [Hl Ho].
  destruct o as [rs|e|]; [|split; [lia|done]|done]. simpl. wp_step. rewrite app_nil_r. split; [lia|].
  destruct Ho as (new & -> & Hown & Hlast & Hnone). simpl in *. split; [done|]. split; [lia|].
  pose proof (find_first_last succeeded new Hlast) as Hf. destruct (find_first succeeded new) as [r|]; simpl.
  - exists r. destruct Hf. split_and!; done.
  - split_and!; [by apply Hnone|done|done].
Qed.

(** ** The best result *)

(** The highest score, and of several the earliest. *)
Definition is_best (rs : list SubAgentResult) (b : SubAgentResult) : Prop :=
  exists i, rs !! i = Some b /\
    (forall j r, rs !! j = Some r -> num_le (score_or_zero r) (score_or_zero b) = true) /\
    (forall j r, rs !! j = Some r -> (j < i)%nat -> num_le (score_or_zero b) (score_or_zero r) = false).

Definition is_scored (r : SubAgentResult) : Prop := score_or_zero r <> NNaN.

Lemma best_of_snoc first rest r : best_of first (rest ++ [r]) = better (best_of first rest) r.
Proof. unfold best_of. by rewrite fold_left_app. Qed.

Lemma best_of_best first rest :
  Forall is_scored (first :: rest) -> is_best (first :: rest) (best_of first rest).
Proof.
  induction rest as [|r rest IH] using rev_ind; intros Hs.
  - apply Forall_cons in Hs as [Hs _]. exists O. split_and!; [done| |lia].
    intros [|j] x; simpl; [|done]. intros [= <-]. by apply num_le_refl.
  - rewrite app_comm_cons in Hs |- *. apply Forall_app in Hs as [Hs Hr]. apply Forall_cons in Hr as [Hr _].
    destruct (IH Hs) as (i & Hi & Hmax & Hearly). rewrite best_of_snoc. unfold better, num_ltb.
    assert (is_scored (best_of first rest)) as Hb by (rewrite Forall_lookup in Hs; by eapply Hs).
    pose proof (num_le_total _ _ Hb Hr) as Htot. pose proof (lookup_lt_Some _ _ _ Hi) as Hlt.
    destruct (num_le (score_or_zero r) (score_or_zero (best_of first rest))) eqn:Hle.
    + rewrite andb_false_r. exists i. split_and!; [by rewrite lookup_app_l| |].
      * intros j x Hj. apply lookup_app_Some in Hj as [Hj|[_ Hj]]; [by eapply Hmax|].
        apply list_lookup_singleton_Some in Hj as [_ <-]. done.
      * intros j x Hj Hji. rewrite lookup_app_l in Hj by lia. by eapply Hearly.
    + destruct Htot as [Ht|Ht]; [|congruence]. rewrite Ht. cbn [andb negb]. exists (length (first :: rest)). split_and!.
      * rewrite lookup_app_r by done. by rewrite Nat.sub_diag.
      * intros j x Hj. apply lookup_app_Some in Hj as [Hj|[_ Hj]].
        -- eapply num_le_trans; [by eapply Hmax|done].
        -- apply list_lookup_singleton_Some in Hj as [_ <-]. by apply num_le_refl.
      * intros j x Hj Hji. rewrite lookup_app_l in Hj by lia. apply Hmax in Hj.
        destruct (num_le (score_or_zero r) (score_or_zero x)) eqn:Hx; [|done].
        by rewrite (num_le_trans _ _ _ Hx Hj) in Hle.
Qed.

End Parallel.
