(* ===== verification/FanOut.v ===== *)
(** * Interleaved sub-agents (packages/orchestration/src/runners/parallel-subagent.runner.ts)

    The fan-out: workers that claim the next task, await its delegations and store
    its result under the task's index, interleaved in any order, with signals that
    may abort at any point.  The race: what the first success does to the others. *)

From S2P Require Export Parallel.

#[local] Open Scope string_scope.
#[local] Open Scope list_scope.
#[local] Open Scope Z_scope.

Module FanOut.
Import Orchestration Delegation Consensus Parallel.

(** ** The pool *)

Inductive worker : Type :=
| Ready
| Waiting (idx : nat) (task : SubAgentTask) (p : planned) (k : SubAgentResult -> proc)
| Settled (idx : nat) (r : SubAgentResult)
| Finished
| Crashed (idx : nat) (e : error).

(** [workers] are the loops [runWorker], of which a limited fan-out has as many as its
    limit.  A worker awaits one delegation at a time, but one that timed out is not
    cancelled: it may still be running while its worker tries again, so the number of
    workers is no bound on the sub-agents at work.  [stored] is the array the workers
    write at their index, [rejected] the first rejection, with which [Promise.all]
    rejects. *)
Record pool : Type := {
  activeIndex : nat;
  workers : list worker;
  stored : gmap nat SubAgentResult;
  rejected : option error;
  aborts : AbortSignal -> bool;
}.

(** The steps: a worker takes the next index, its await settles, its result is
    stored, a signal aborts. *)
Inductive action : Type :=
| Claim (i : nat)
| Settle (i : nat) (a : answer)
| Store (i : nat)
| Abort (s : AbortSignal).

Definition worker_action (x : action) : bool := match x with Abort _ => false | _ => true end.

Section Pool.
Context (options : ParallelRunnerOptions) (parentContext : AgentContext) (tasks : list SubAgentTask).
Notation sig := (par_signal options).

(** The code up to the next await. *)
Fixpoint advance (ab : AbortSignal -> bool) (idx : nat) (p : proc) : worker :=
  match p with
  | Done r => Settled idx r
  | Sense s k => advance ab idx (k (match s with Some s => ab s | None => false end))
  | Delegate task s k => Waiting idx task (planning parentContext ab task s) k
  end.

(** [const idx = activeIndex++; if (idx >= tasks.length) break; ...] *)
Definition begin_task (ab : AbortSignal -> bool) (idx : nat) : worker :=
  match tasks !! idx with
  | Some task => advance ab idx (executeWithRetry options task sig)
  | None => Finished
  end.

Definition put (i : nat) (w : worker) (p : pool) : pool := {|
  activeIndex := activeIndex p; workers := <[i := w]> (workers p); stored := stored p;
  rejected := rejected p; aborts := aborts p |}.

Definition act (x : action) (p : pool) : option pool :=
  match x with
  | Claim i =>
      match workers p !! i with
      | Some Ready =>
          Some {| activeIndex := S (activeIndex p); workers := <[i := begin_task (aborts p) (activeIndex p)]> (workers p);
                  stored := stored p; rejected := rejected p; aborts := aborts p |}
      | _ => None
      end
  | Settle i a =>
      match workers p !! i with
      | Some (Waiting idx task pl k) =>
          match settle options task pl a with
          | inl r => Some (put i (advance (aborts p) idx (k r)) p)
          | inr e => Some {| activeIndex := activeIndex p; workers := <[i := Crashed idx e]> (workers p);
                             stored := stored p; rejected := orelse (rejected p) (Some e); aborts := aborts p |}
          end
      | _ => None
      end
  | Store i =>
      match workers p !! i with
      | Some (Settled idx r) =>
          Some {| activeIndex := activeIndex p; workers := <[i := Ready]> (workers p);
                  stored := <[idx := r]> (stored p); rejected := rejected p; aborts := aborts p |}
      | _ => None
      end
  | Abort s => Some {| activeIndex := activeIndex p; workers := workers p; stored := stored p; rejected := rejected p;
                       aborts := fun s' => bool_decide (s' = s) || aborts p s' |}
  end.

(** [maxConcurrency && maxConcurrency > 0 && maxConcurrency < tasks.length] *)
Definition limit : option nat :=
  match maxConcurrency options with
  | Some m => if (0 <? m) && (m <? Z.of_nat (length tasks)) then Some (Z.to_nat m) else None
  | None => None
  end.

(** The workers of a limited fan-out start ready; without a limit every task is
    begun at once. *)
Definition fan_start (ab : AbortSignal -> bool) : pool :=
  match limit with
  | Some m => {| activeIndex := 0; workers := repeat Ready m; stored := ∅; rejected := None; aborts := ab |}
  | None => {| activeIndex := length tasks; workers := map (begin_task ab) (seq 0 (length tasks)); stored := ∅;
               rejected := None; aborts := ab |}
  end.

Definition is_finished (w : worker) : bool := match w with Finished => true | _ => false end.

(** The results, in the order of their indices; holes are skipped. *)
Definition collected (p : pool) : list SubAgentResult := filter_map (fun i => stored p !! i) (seq 0 (length tasks)).

(** How the fan-out settled, if it has. *)
Definition fan_out_outcome (p : pool) : option (outcome error ParallelRunResult) :=
  match rejected p with
  | Some e => Some (Throw e)
  | None => if forallb is_finished (workers p) then Some (finish options (collected p)) else None
  end.

Fixpoint acts (xs : list action) (p : pool) : option pool :=
  match xs with [] => Some p | x :: xs' => act x p ≫= acts xs' end.

(** ** What every interleaving keeps *)

Definition held (w : worker) : list nat :=
  match w with Waiting i _ _ _ | Settled i _ | Crashed i _ => [i] | Ready | Finished => [] end.

Definition all_held (ws : list worker) : list nat := concat (map held ws).

(** What a worker still costs: an upper bound of the steps it can take with the task
    it holds. *)
Inductive costs : worker -> nat -> Prop :=
| CostReady : costs Ready 1
| CostWaiting idx task t pl k n :
    tasks !! idx = Some task -> (exists ab s, pl = planning parentContext ab t s) ->
    (forall r, agentName r = task_agentName t -> conducts (owned options task) (on_behalf options task sig) n (k r)) ->
    costs (Waiting idx t pl k) (n + 3)
| CostSettled idx task r : tasks !! idx = Some task -> owned options task r -> costs (Settled idx r) 2
| CostFinished : costs Finished 0
| CostCrashed idx e : costs (Crashed idx e) 0.

Definition unclaimed (p : pool) : nat := length tasks - activeIndex p.

(** The steps of a task at most. *)
Definition task_steps : nat := delegation_budget options + 3.

Record inv (width steps : nat) (p : pool) : Prop := {
  inv_held : all_held (workers p) ++ elements (dom (stored p)) ≡ₚ seq 0 (activeIndex p `min` length tasks);
  inv_costs : exists cs, Forall2 costs (workers p) cs /\ (sum_list cs + unclaimed p * task_steps <= steps)%nat;
  inv_stored : forall i r, stored p !! i = Some r -> exists task, tasks !! i = Some task /\ owned options task r;
  inv_width : length (workers p) = width;
  inv_finished : Finished ∈ workers p -> (length tasks <= activeIndex p)%nat;
  inv_rejected : rejected p = None -> forall idx e, Crashed idx e ∉ workers p;
}.

Lemma split_at {A} (l : list A) i x :
  l !! i = Some x -> exists l1 l2, l = l1 ++ x :: l2 /\ forall y, <[i := y]> l = l1 ++ y :: l2.
Proof.
  revert i. induction l as [|z l IH]; intros [|i]; try done.
  - intros [= ->]. by exists [], l.
  - intros H. destruct (IH i H) as (l1 & l2 & -> & Hy). exists (z :: l1), l2. split; [done|].
    intros y. simpl. by rewrite Hy.
Qed.

Lemma all_held_app l1 l2 : all_held (l1 ++ l2) = all_held l1 ++ all_held l2.
Proof. unfold all_held. by rewrite map_app, concat_app. Qed.

Lemma all_held_middle l1 w l2 : all_held (l1 ++ w :: l2) ≡ₚ held w ++ all_held (l1 ++ l2).
Proof. rewrite !all_held_app. unfold all_held at 2. simpl. fold (all_held l2). solve_Permutation. Qed.

Lemma sum_list_app l1 l2 : sum_list (l1 ++ l2) = (sum_list l1 + sum_list l2)%nat.
Proof. induction l1 as [|x l1 IH]; simpl; lia. Qed.

(** Replacing a worker by a cheaper one. *)
Lemma costs_replace l1 w l2 cs :
  Forall2 costs (l1 ++ w :: l2) cs ->
  exists c, costs w c /\ (forall w' c', costs w' c' ->
    exists cs', Forall2 costs (l1 ++ w' :: l2) cs' /\ (sum_list cs' + c = sum_list cs + c')%nat).
Proof.
  intros H. apply Forall2_app_inv_l in H as (c1 & c2 & H1 & H2 & ->).
  apply Forall2_cons_inv_l in H2 as (c & c2' & Hc & H2 & ->). exists c. split; [done|].
  intros w' c' Hw'. exists (c1 ++ c' :: c2'). split; [apply Forall2_app; [done|by constructor]|].
  rewrite !sum_list_app. simpl. lia.
Qed.

(** The worker a process leaves after its synchronous part. *)
Lemma advance_costs ab idx task p n :
  tasks !! idx = Some task -> conducts (owned options task) (on_behalf options task sig) n p ->
  exists c, costs (advance ab idx p) c /\ (c <= n + 2)%nat /\ held (advance ab idx p) = [idx].
Proof.
  intros Ht H. induction H as [n r Hr|n s k _ IH|n t s k Hq Hk _]; simpl; [|apply IH|].
  - exists 2%nat. split_and!; [by econstructor|lia|done].
  - exists (n + 3)%nat. split_and!; [econstructor; [done|by do 2 eexists|done]|lia|done].
Qed.

Lemma advance_alive ab idx p : advance ab idx p <> Finished /\ forall i e, advance ab idx p <> Crashed i e.
Proof. induction p as [r|s k IH|t s k IH]; simpl; [done|apply IH|done]. Qed.

Lemma begin_costs ab idx :
  exists c, costs (begin_task ab idx) c /\
    match tasks !! idx with
    | Some _ => (c + 1 <= task_steps)%nat /\ held (begin_task ab idx) = [idx] /\ begin_task ab idx <> Finished
    | None => c = 0%nat /\ begin_task ab idx = Finished
    end /\ forall i e, begin_task ab idx <> Crashed i e.
Proof.
  unfold begin_task. destruct (tasks !! idx) as [task|] eqn:Ht; [|exists 0%nat; split_and!; [constructor|done..]].
  destruct (advance_costs ab idx task _ _ Ht (retry_conducts options task sig)) as (c & Hc & Hle & Hh).
  exists c. pose proof (advance_alive ab idx (executeWithRetry options task sig)) as [Hf Hcr].
  split_and!; [done|unfold task_steps; lia|done|done|done].
Qed.

Lemma elem_replace {A} (x y z : A) l1 l2 : x ∈ l1 ++ y :: l2 -> x = y \/ x ∈ l1 ++ z :: l2.
Proof. set_solver. Qed.

(** One worker changes: what has to be shown of its new state. *)
Lemma inv_replace width steps p p' i w w' :
  inv width steps p -> workers p !! i = Some w -> workers p' = <[i := w']> (workers p) ->
  (forall c, costs w c -> exists c', costs w' c' /\ (S (c' + unclaimed p' * task_steps) <= c + unclaimed p * task_steps)%nat) ->
  (forall rest, held w ++ rest ++ elements (dom (stored p)) ≡ₚ seq 0 (activeIndex p `min` length tasks) ->
     held w' ++ rest ++ elements (dom (stored p')) ≡ₚ seq 0 (activeIndex p' `min` length tasks)) ->
  (forall c, costs w c -> forall i r, stored p' !! i = Some r -> stored p !! i = Some r \/
     exists task, tasks !! i = Some task /\ owned options task r) ->
  (w' = Finished -> (length tasks <= activeIndex p')%nat) -> (activeIndex p <= activeIndex p')%nat ->
  (rejected p' = None -> rejected p = None /\ forall idx e, w' <> Crashed idx e) ->
  exists steps', inv width steps' p' /\ (S steps' <= steps)%nat.
Proof.
  intros [Hheld (cs & Hcs & Hsum) Hst Hw Hfin Hrej] Hi Hws' Hcost Hh Hs' Hf Hle Hr.
  apply split_at in Hi as (l1 & l2 & Hws & Hins). rewrite Hins in Hws'. rewrite Hws in *.
  destruct (costs_replace _ _ _ _ Hcs) as (c & Hc & Hrep). destruct (Hcost c Hc) as (c' & Hc' & Hdec).
  destruct (Hrep _ _ Hc') as (cs' & Hcs' & Hsum').
  exists (sum_list cs' + unclaimed p' * task_steps)%nat. split; [|lia]. split; rewrite ?Hws'.
  - rewrite all_held_middle, <- app_assoc in Hheld |- *. by apply Hh.
  - by exists cs'.
  - intros j r Hj. destruct (Hs' c Hc j r Hj) as [H|H]; [by eapply Hst|done].
  - by rewrite length_app in *.
  - intros [Hx|Hx]%(elem_replace _ _ w); [by apply Hf|]. specialize (Hfin Hx). lia.
  - intros Hn idx e. destruct (Hr Hn) as [Hn' Hnc].
    intros [Hx|Hx]%(elem_replace _ _ w); [by apply (Hnc idx e)|by apply (Hrej Hn' idx e)].
Qed.

Lemma inv_claim i width steps p p' :
  inv width steps p -> act (Claim i) p = Some p' -> exists steps', inv width steps' p' /\ (S steps' <= steps)%nat.
Proof.
  intros Hinv. simpl. destruct (workers p !! i) as [[| | | |]|] eqn:Hi; try done. intros [= <-].
  destruct (begin_costs (aborts p) (activeIndex p)) as (c' & Hc' & Hb & Hncr).
  eapply inv_replace; [exact Hinv|exact Hi|done|..]; cbn [put activeIndex workers stored rejected aborts held]; [| |by left| |lia|done].
  - intros c Hc. inversion Hc; subst c. exists c'. split; [done|]. unfold unclaimed. cbn [activeIndex].
    destruct (tasks !! activeIndex p) eqn:Ht.
    + destruct Hb as [Hb _]. apply lookup_lt_Some in Ht.
      replace (length tasks - activeIndex p)%nat with (S (length tasks - S (activeIndex p))) by lia. simpl. lia.
    + destruct Hb as [-> _]. apply lookup_ge_None in Ht.
      replace (length tasks - S (activeIndex p))%nat with 0%nat by lia. lia.
  - intros rest Hrest. destruct (tasks !! activeIndex p) eqn:Ht.
    + destruct Hb as (_ & -> & _). apply lookup_lt_Some in Ht.
      rewrite Nat.min_l in Hrest by lia. rewrite Nat.min_l, seq_S by lia.
      cbn [held app Nat.add] in *. rewrite Hrest. apply Permutation_cons_append.
    + destruct Hb as (_ & ->). apply lookup_ge_None in Ht. cbn [held app] in *. rewrite Hrest.
      rewrite !Nat.min_r by lia. done.
  - intros Hx. destruct (tasks !! activeIndex p) eqn:Ht; [by destruct Hb as (_ & _ & Hb)|].
    apply lookup_ge_None in Ht. lia.
Qed.

Lemma inv_settle i a width steps p p' :
  inv width steps p -> act (Settle i a) p = Some p' -> exists steps', inv width steps' p' /\ (S steps' <= steps)%nat.
Proof.
  intros Hinv. simpl. destruct (workers p !! i) as [[|idx t pl k| | |]|] eqn:Hi; try done.
  destruct (settle options t pl a) as [r|e] eqn:Hse; intros [= <-].
  - pose proof (advance_alive (aborts p) idx (k r)) as [Hnf Hnc].
    assert (forall c, costs (Waiting idx t pl k) c -> exists c', costs (advance (aborts p) idx (k r)) c' /\
      (S c' <= c)%nat /\ held (advance (aborts p) idx (k r)) = [idx]) as Hadv.
    { intros c Hc. inversion Hc as [|? task ? ? ? n Ht (ab & s & ->) Hk| | |]; subst.
      destruct (advance_costs (aborts p) idx task _ _ Ht (Hk r (settled_name _ _ _ _ _ _ _ Hse))) as (c' & ? & ? & ?).
      exists c'. split_and!; [done|lia|done]. }
    assert (exists c, costs (Waiting idx t pl k) c) as [c0 Hc0].
    { destruct Hinv as [_ (cs & Hcs & _) _ _ _ _]. eapply Forall2_lookup_l in Hcs as (c & _ & Hc); [|done]. by exists c. }
    eapply inv_replace; [exact Hinv|exact Hi|done|..]; cbn [put activeIndex workers stored rejected aborts held]; [| |by left|done|lia|done].
    + intros c Hc. destruct (Hadv c Hc) as (c' & ? & ? & _). exists c'. split; [done|]. unfold unclaimed. simpl. lia.
    + intros rest. by destruct (Hadv c0 Hc0) as (_ & _ & _ & ->).
  - eapply inv_replace; [exact Hinv|exact Hi|done|..]; cbn [put activeIndex workers stored rejected aborts held]; [|done|by left|done|lia|by destruct (rejected p)].
    intros c Hc. exists 0%nat. split; [constructor|]. inversion Hc; subst. unfold unclaimed. simpl. lia.
Qed.

Lemma inv_store i width steps p p' :
  inv width steps p -> act (Store i) p = Some p' -> exists steps', inv width steps' p' /\ (S steps' <= steps)%nat.
Proof.
  intros Hinv. simpl. destruct (workers p !! i) as [[| |idx r| |]|] eqn:Hi; try done. intros [= <-].
  eapply inv_replace; [exact Hinv|exact Hi|done|..]; cbn [put activeIndex workers stored rejected aborts held]; [| | |done|lia|done].
  - intros c Hc. inversion Hc; subst. exists 1%nat. split; [constructor|]. unfold unclaimed. simpl. lia.
  - intros rest Hrest.
    assert (idx ∉ dom (stored p)) as Hni.
    { intros Hin%elem_of_elements. pose proof (NoDup_seq 0 (activeIndex p `min` length tasks)) as Hnd.
      rewrite <- Hrest in Hnd. apply NoDup_cons in Hnd as [Hnd _]. apply Hnd, elem_of_app. by right. }
    rewrite dom_insert_L, elements_union_singleton by done. rewrite <- Hrest. simpl. solve_Permutation.
  - intros c Hc i' r' Hi'. apply lookup_insert_Some in Hi' as [[-> ->]|[_ Hi']]; [right|by left].
    inversion Hc as [| |? task ? Ht Hown| |]; subst. by exists task.
Qed.

Lemma inv_act x width steps p p' :
  inv width steps p -> act x p = Some p' ->
  exists steps', inv width steps' p' /\ (steps' + (if worker_action x then 1 else 0) <= steps)%nat.
Proof.
  intros Hinv Hact. destruct x as [i|i a|i|s]; simpl.
  - destruct (inv_claim i width steps p p' Hinv Hact) as (st & ? & ?). exists st. split; [done|lia].
  - destruct (inv_settle i a width steps p p' Hinv Hact) as (st & ? & ?). exists st. split; [done|lia].
  - destruct (inv_store i width steps p p' Hinv Hact) as (st & ? & ?). exists st. split; [done|lia].
  - simplify_eq/=. exists steps. split; [|lia]. by destruct Hinv.
Qed.

(** ** The start, and every state from there *)

Definition width : nat := match limit with Some m => m | None => length tasks end.

(** The steps of all the workers at most. *)
Definition total_steps : nat := length tasks * task_steps + width.

Lemma held_ready m : all_held (repeat Ready m) = [].
Proof. induction m as [|m IH]; [done|exact IH]. Qed.

Lemma costs_ready m : Forall2 costs (repeat Ready m) (repeat 1%nat m) /\ sum_list (repeat 1%nat m) = m.
Proof. induction m as [|m [IH1 IH2]]; simpl; [done|]. split; [by repeat constructor|lia]. Qed.

(** Every task begun at once. *)
Lemma begun_costs ab k n :
  (k + n <= length tasks)%nat ->
  all_held (map (begin_task ab) (seq k n)) = seq k n /\
  (exists cs, Forall2 costs (map (begin_task ab) (seq k n)) cs /\ (sum_list cs <= n * task_steps)%nat) /\
  Forall (fun w => w <> Finished /\ forall i e, w <> Crashed i e) (map (begin_task ab) (seq k n)).
Proof.
  revert k. induction n as [|n IH]; intros k Hk; [split_and!; [done|by exists []|constructor]|].
  destruct (IH (S k) ltac:(lia)) as (Hh & (cs & Hcs & Hs) & Hf). destruct (begin_costs ab k) as (c & Hc & Hb & Hnc).
  destruct (tasks !! k) eqn:Ht; [|apply lookup_ge_None in Ht; lia]. destruct Hb as (Hle & Hh' & Hnf).
  cbn [seq map]. split_and!.
  - change (all_held (?w :: ?l)) with (held w ++ all_held l). by rewrite Hh', Hh.
  - exists (c :: cs). split; [by constructor|]. simpl. lia.
  - by constructor.
Qed.

Lemma inv_start ab : inv width total_steps (fan_start ab).
Proof.
  unfold width, total_steps, width, fan_start. destruct limit as [m|]; split; cbn [activeIndex workers stored rejected].
  - by rewrite held_ready.
  - exists (repeat 1%nat m). destruct (costs_ready m) as [H1 H2]. split; [done|]. unfold unclaimed. simpl. lia.
  - done.
  - apply repeat_length.
  - intros H. apply list_elem_of_In, repeat_spec in H. done.
  - intros _ idx e H. apply list_elem_of_In, repeat_spec in H. done.
  - rewrite Nat.min_id. destruct (begun_costs ab 0 (length tasks) ltac:(lia)) as (-> & _ & _).
    by rewrite dom_empty_L, elements_empty, app_nil_r.
  - destruct (begun_costs ab 0 (length tasks) ltac:(lia)) as (_ & (cs & Hcs & Hs) & _).
    exists cs. split; [done|]. unfold unclaimed. simpl. lia.
  - done.
  - by rewrite length_map, length_seq.
  - done.
  - intros _ idx e H. destruct (begun_costs ab 0 (length tasks) ltac:(lia)) as (_ & _ & Hf).
    rewrite Forall_forall in Hf. by apply (proj2 (Hf _ H) idx e).
Qed.

Lemma inv_acts xs steps p p' :
  inv width steps p -> acts xs p = Some p' ->
  exists steps', inv width steps' p' /\ (steps' + count worker_action xs <= steps)%nat.
Proof.
  revert steps p. induction xs as [|x xs IH]; intros steps p Hinv; simpl.
  - intros [= <-]. exists steps. split; [done|]. rewrite count_nil. lia.
  - destruct (act x p) as [p1|] eqn:Hx; [|done]. simpl. intros Hxs.
    destruct (inv_act x _ _ _ _ Hinv Hx) as (s1 & Hinv1 & Hs1).
    destruct (IH _ _ Hinv1 Hxs) as (s2 & Hinv2 & Hs2). exists s2. split; [done|]. rewrite count_cons. lia.
Qed.

Lemma reached ab xs p : acts xs (fan_start ab) = Some p ->
  exists steps', inv width steps' p /\ (steps' + count worker_action xs <= total_steps)%nat.
Proof. apply inv_acts, inv_start. Qed.

(** ** The results *)

Lemma filter_map_indices (f : nat -> option SubAgentResult) ts k :
  (forall j t, ts !! j = Some t -> exists r, f (k + j)%nat = Some r /\ owned options t r) ->
  Forall2 (owned options) ts (filter_map f (seq k (length ts))).
Proof.
  revert k. induction ts as [|t ts IH]; intros k H; simpl; [constructor|].
  destruct (H 0%nat t eq_refl) as (r & Hr & Ho). rewrite Nat.add_0_r in Hr. rewrite Hr. constructor; [done|].
  apply IH. intros j t' Hj. destruct (H (S j) t' Hj) as (r' & Hr' & Ho'). exists r'. by rewrite Nat.add_succ_r in Hr'.
Qed.

Lemma finished_holds_nothing ws : forallb is_finished ws = true -> all_held ws = [] /\ Forall (eq Finished) ws.
Proof.
  induction ws as [|w ws IH]; simpl; [done|]. intros [Hw Hws]%andb_prop. destruct (IH Hws) as [Hh Hf].
  destruct w; try done. split; [exact Hh|by constructor].
Qed.

Lemma collected_all steps p :
  inv width steps p -> width <> 0%nat -> forallb is_finished (workers p) = true ->
  Forall2 (owned options) tasks (collected p).
Proof.
  intros [Hheld _ Hst Hw Hfin _] Hne Hall. apply finished_holds_nothing in Hall as [Hh Hf]. rewrite Hh in Hheld.
  assert (length tasks <= activeIndex p)%nat as Hn.
  { apply Hfin. destruct (workers p) as [|w ws]; [simpl in Hw; lia|]. apply Forall_cons in Hf as [<- _]. constructor. }
  rewrite Nat.min_r in Hheld by lia. apply filter_map_indices. intros j t Ht. simpl.
  assert (j ∈ dom (stored p)) as Hj.
  { apply elem_of_elements. change ([] ++ elements (dom (stored p))) with (elements (dom (stored p))) in Hheld.
    rewrite Hheld. apply elem_of_seq. apply lookup_lt_Some in Ht. lia. }
  apply elem_of_dom in Hj as [r Hr]. exists r. split; [done|]. destruct (Hst j r Hr) as (t' & Ht' & Ho). by simplify_eq.
Qed.

Lemma finish_results rs res : finish options rs = Ret res ->
  results res = rs /\ successCount res + failedCount res = Z.of_nat (length rs) /\
  successCount res = Z.of_nat (count succeeded rs).
Proof.
  unfold finish, aggregate. destruct (customMergerFn options) as [f|].
  - destruct (f rs); try done. intros [= <-]. simpl. split_and!; [done|lia|done].
  - intros [= <-]. destruct (aggregationStrategy options);
      unfold aggregateAllSettled, aggregateBestOf, aggregateConsensus; simpl; repeat case_goal; simpl; split_and!; done || lia.
Qed.

Lemma width_zero : width = 0%nat -> tasks = [].
Proof.
  unfold width, limit. destruct (maxConcurrency options) as [m|]; [|by destruct tasks].
  destruct (Z.ltb_spec 0 m), (Z.ltb_spec m (Z.of_nat (length tasks))); simpl; try (by destruct tasks); lia.
Qed.

(** C10. Whatever the order in which workers run, awaits settle and signals abort: no
    two workers of a fan-out are ever on the same task, a task whose result is stored is
    never taken again, and when the fan-out resolves, its results are those of its
    tasks, one for each, in the order of the tasks, and its counts of successes and
    failures are theirs. *)
Theorem fan_out_keeps_task_order ab xs p (Hreach : acts xs (fan_start ab) = Some p) :
  NoDup (all_held (workers p) ++ elements (dom (stored p))) /\
  forall res, fan_out_outcome p = Some (Ret res) ->
    Forall2 (owned options) tasks (results res) /\
    successCount res = Z.of_nat (count succeeded (results res)) /\
    successCount res + failedCount res = Z.of_nat (length tasks).
Proof.
  destruct (reached _ _ _ Hreach) as (steps & Hinv & _). pose proof Hinv as [Hheld _ _ Hw _ _].
  split.
  - rewrite Hheld. apply NoDup_seq.
  - intros res. unfold fan_out_outcome. destruct (rejected p); [done|].
    destruct (forallb is_finished (workers p)) eqn:Hall; [|done]. intros [= Hres].
    apply finish_results in Hres as (-> & Hc & Hs).
    assert (Forall2 (owned options) tasks (collected p)) as Hown.
    { destruct (decide (width = 0%nat)) as [H0|H0]; [|by eapply collected_all].
      unfold collected. by rewrite (width_zero H0). }
    split_and!; [done|done|]. by rewrite Hc, <- (Forall2_length _ _ _ Hown).
Qed.

(** A fan-out always settles: from any state it has reached, while it has neither
    resolved nor rejected some worker can take its next step, whatever the answer it
    gets, and all the workers together take no more than [total_steps] steps - a
    bounded number of delegations for each task. *)
Theorem fan_out_settles ab xs p (Hreach : acts xs (fan_start ab) = Some p) :
  (count worker_action xs <= total_steps)%nat /\
  (fan_out_outcome p = None ->
   exists i, (exists p', act (Claim i) p = Some p') \/ (exists p', act (Store i) p = Some p') \/
     (forall a, exists p', act (Settle i a) p = Some p')).
Proof.
  destruct (reached _ _ _ Hreach) as (steps & [_ _ _ _ _ Hrej] & Hle). split; [lia|].
  unfold fan_out_outcome. destruct (rejected p); [done|]. specialize (Hrej eq_refl).
  destruct (forallb is_finished (workers p)) eqn:Hall; [done|]. intros _.
  assert (exists i w, workers p !! i = Some w /\ is_finished w = false) as (i & w & Hi & Hw).
  { clear Hrej. induction (workers p) as [|w ws IH]; [done|]. simpl in Hall.
    destruct (is_finished w) eqn:Hw; [|by exists 0%nat, w]. destruct (IH Hall) as (i & w' & ? & ?). by exists (S i), w'. }
  exists i. simpl. rewrite Hi. destruct w as [|idx t pl k|idx r| |idx e]; [left; eauto| |right; left; eauto|done|].
  - right; right. intros a. destruct (settle options t pl a); eauto.
  - exfalso. apply (Hrej idx e). by eapply list_elem_of_lookup_2.
Qed.

(** ** Aborting *)

(** With [s] aborted the process ends without another delegation. *)
Definition stops (s : AbortSignal) (p : proc) : Prop :=
  forall ab idx, ab s = true -> exists r, advance ab idx p = Settled idx r.

(** The process looks at [s] between any two delegations. *)
Inductive heeds (s : AbortSignal) : proc -> Prop :=
| HeedsDone r : heeds s (Done r)
| HeedsSense s' k : (forall b, heeds s (k b)) -> heeds s (Sense s' k)
| HeedsDelegate t s' k : (forall r, heeds s (k r) /\ stops s (k r)) -> heeds s (Delegate t s' k).

Lemma stops_done s r : stops s (Done r).
Proof. intros ab idx _. by exists r. Qed.

Lemma stops_sense s k : (forall ab idx, ab s = true -> exists r, advance ab idx (k true) = Settled idx r) -> stops s (Sense (Some s) k).
Proof. intros H ab idx Hab. simpl. rewrite Hab. by apply H. Qed.

Lemma loop_heeds left task s last : heeds s (attempts_loop options left task (Some s) last).
Proof.
  revert last. induction left as [|left IH]; intros last; simpl; constructor; intros b.
  - destruct (fallbackAgentName options) as [f|]; [|constructor].
    destruct (negb b && _ && _); [|constructor]. constructor. intros r. split; [constructor|apply stops_done].
  - destruct b; [constructor|]. constructor. intros r. destruct (succeeded r); [split; [constructor|apply stops_done]|].
    split; [constructor; intros []; [constructor|apply IH]|]. apply stops_sense. intros ab idx _. by exists r.
Qed.

Lemma retry_heeds task s :
  sig = Some s -> task_signal task = None ->
  heeds s (executeWithRetry options task sig) /\ stops s (executeWithRetry options task sig).
Proof.
  intros Hs Ht. unfold executeWithRetry. rewrite Hs, Ht. simpl. split.
  - constructor. intros []; [constructor|apply loop_heeds].
  - apply stops_sense. intros ab idx _. simpl. by eexists.
Qed.

Definition heeding (s : AbortSignal) (w : worker) : Prop :=
  match w with Waiting _ _ _ k => forall r, heeds s (k r) /\ stops s (k r) | _ => True end.

Lemma advance_heeding s ab idx p : heeds s p -> heeding s (advance ab idx p).
Proof. induction 1; simpl; auto. Qed.

Lemma begin_heeding s ab idx :
  sig = Some s -> Forall (fun t => task_signal t = None) tasks ->
  heeding s (begin_task ab idx) /\ (ab s = true -> forall i t pl k, begin_task ab idx <> Waiting i t pl k).
Proof.
  intros Hs Hts. unfold begin_task. destruct (tasks !! idx) as [t|] eqn:Ht; [|done].
  rewrite Forall_lookup in Hts. destruct (retry_heeds t s Hs (Hts _ _ Ht)) as [H1 H2].
  split; [by apply advance_heeding|]. intros Hab i t' pl k. by destruct (H2 ab idx Hab) as [r ->].
Qed.

Lemma act_heeding s x p p' :
  sig = Some s -> Forall (fun t => task_signal t = None) tasks ->
  Forall (heeding s) (workers p) -> act x p = Some p' -> Forall (heeding s) (workers p').
Proof.
  intros Hs Hts Hp. destruct x as [i|i a|i|s']; simpl; [| | |by intros [= <-]];
    destruct (workers p !! i) as [[|idx t pl k|idx r| |]|] eqn:Hi; try done.
  - intros [= <-]. apply Forall_insert; [done|]. by apply begin_heeding.
  - rewrite Forall_lookup in Hp. pose proof (Hp _ _ Hi) as Hk. rewrite <- Forall_lookup in Hp.
    destruct (settle options t pl a) as [r|e]; intros [= <-]; simpl; apply Forall_insert; try done.
    apply advance_heeding, Hk.
  - intros [= <-]. by apply Forall_insert.
Qed.

Lemma start_heeding s ab :
  sig = Some s -> Forall (fun t => task_signal t = None) tasks -> Forall (heeding s) (workers (fan_start ab)).
Proof.
  intros Hs Hts. unfold fan_start. destruct limit as [m|]; simpl.
  - by apply Forall_forall; intros w Hw%list_elem_of_In%repeat_spec; subst.
  - apply Forall_forall. intros w Hw%list_elem_of_In%in_map_iff. destruct Hw as (i & <- & _). by apply begin_heeding.
Qed.

(** Once the signal of a fan-out or a race is aborted nothing new is delegated: a
    worker that awaits a delegation after a step awaited the same one before it. So
    when a race has its winner, no other task without a signal of its own starts
    another attempt, its fallback agent included. *)
Theorem abort_stops_delegations s ab xs p x p' i t pl k
    (Hs : sig = Some s) (Hts : Forall (fun t => task_signal t = None) tasks)
    (Hreach : acts xs (fan_start ab) = Some p) (Hab : aborts p s = true) (Hstep : act x p = Some p')
    (Hw : exists idx, workers p' !! i = Some (Waiting idx t pl k)) :
  exists idx, workers p !! i = Some (Waiting idx t pl k).
Proof.
  assert (Forall (heeding s) (workers p)) as Hp.
  { revert Hreach. generalize (start_heeding s ab Hs Hts). generalize (fan_start ab). clear -Hs Hts.
    induction xs as [|x xs IH]; intros p0 H0; simpl; [by intros [= <-]|].
    destruct (act x p0) as [p1|] eqn:Hx; [|done]. simpl. apply IH. by eapply act_heeding. }
  destruct Hw as [idx Hw]. exists idx. destruct x as [j|j a|j|s']; simpl in Hstep; [| | |by simplify_eq];
    destruct (workers p !! j) as [[|idx' t' pl' k'|idx' r| |]|] eqn:Hj; try done.
  - simplify_eq/=. apply list_lookup_insert_Some in Hw as [(_ & Hw & _)|[_ Hw]]; [|done].
    by destruct (begin_heeding s (aborts p) (activeIndex p) Hs Hts) as [_ H]; apply H in Hw.
  - destruct (settle options t' pl' a) as [r|e]; simplify_eq/=;
      apply list_lookup_insert_Some in Hw as [(_ & Hw & _)|[_ Hw]]; try done.
    rewrite Forall_lookup in Hp. destruct (Hp _ _ Hj r) as [_ Hst].
    destruct (Hst (aborts p) idx' Hab) as [r' Hr']. congruence.
  - simplify_eq/=. by apply list_lookup_insert_Some in Hw as [(_ & Hw & _)|[_ Hw]].
Qed.

End Pool.
(** ** The race *)

Inductive settlement : Type := Fulfilled (r : SubAgentResult) | Refused (e : error).

(** The variables of [raceFirstSuccess]; [resolution] is what the promise it awaits
    resolved to, and the first resolution counts. *)
Record race : Type := {
  winner : option SubAgentResult;
  settledCount : nat;
  failures : list SubAgentResult;
  resolution : option SubAgentResult;
  raceAborted : bool;
}.

Definition race_start : race :=
  {| winner := None; settledCount := 0; failures := []; resolution := None; raceAborted := false |}.

Definition all_failed : SubAgentResult := failed_result "unknown" "All sub-agents failed".

Definition on_settled (n : nat) (st : race) (x : settlement) : race :=
  let settled := S (settledCount st) in
  match x with
  | Fulfilled r =>
      if raceAborted st && is_some (winner st)
      then {| winner := winner st; settledCount := settled; failures := failures st;
              resolution := resolution st; raceAborted := raceAborted st |}
      else if succeeded r && negb (is_some (winner st))
      then {| winner := Some r; settledCount := settled; failures := failures st;
              resolution := orelse (resolution st) (Some r); raceAborted := true |}
      else {| winner := winner st; settledCount := settled; failures := failures st ++ [r];
              resolution := if bool_decide (settled = n) && negb (is_some (winner st))
                            then orelse (resolution st) (last (failures st ++ [r])) else resolution st;
              raceAborted := raceAborted st |}
  | Refused e =>
      {| winner := winner st; settledCount := settled; failures := failures st;
         resolution := if bool_decide (settled = n) && negb (is_some (winner st))
                       then orelse (resolution st) (Some all_failed) else resolution st;
         raceAborted := raceAborted st |}
  end.

Definition race_result (w : SubAgentResult) : ParallelRunResult :=
  {| combinedResponse := if succeeded w then response w else "Error: " +:+ error_or_undefined w;
     results := [w]; successCount := if succeeded w then 1 else 0; failedCount := if succeeded w then 0 else 1;
     selectedAgent := if succeeded w then Some (agentName w) else None; consensusScore := None |}.

Definition won (x : settlement) : bool := match x with Fulfilled r => succeeded r | Refused _ => false end.
Definition answer_of (x : settlement) : SubAgentResult := match x with Fulfilled r => r | Refused _ => all_failed end.

(** What the race has resolved to after the settlements [l], of [n] tasks. *)
Definition race_answer_spec (n : nat) (l : list settlement) : option SubAgentResult :=
  match find_first won l with
  | Some x => Some (answer_of x)
  | None => if bool_decide (length l = n) then answer_of <$> last l else None
  end.

Lemma find_first_app {A} (p : A -> bool) l1 l2 :
  find_first p (l1 ++ l2) = match find_first p l1 with Some x => Some x | None => find_first p l2 end.
Proof. induction l1 as [|x l1 IH]; simpl; [done|]. by destruct (p x). Qed.

Lemma race_inv n l :
  (length l <= n)%nat ->
  let st := fold_left (on_settled n) l race_start in
  settledCount st = length l /\ resolution st = race_answer_spec n l /\
  winner st = answer_of <$> find_first won l /\ raceAborted st = is_some (winner st).
Proof.
  induction l as [|x l IH] using rev_ind; [intros Hl st|rewrite length_app; intros Hl]; simpl in *.
  - split_and!; try done. unfold race_answer_spec. simpl. by case_bool_decide.
  - destruct IH as (Hc & Hr & Hw & Ha); [lia|]. rewrite fold_left_app. simpl.
    set (st := fold_left (on_settled n) l race_start) in *. unfold race_answer_spec in *.
    rewrite find_first_app, last_snoc, length_app. cbn [length find_first].
    assert (bool_decide (length l = n) = false) as Hlt by (apply bool_decide_eq_false; lia). rewrite Hlt in Hr.
    unfold on_settled. rewrite Ha, Hw. rewrite Hc. replace (length l + 1)%nat with (S (length l)) by lia.
    destruct (find_first won l) as [y|]; simpl in *.
    + destruct x as [r|e]; simpl; split_and!; rewrite ?andb_false_r; try done.
    + destruct x as [r|e]; simpl; [destruct (succeeded r) eqn:Hsu; simpl|]; rewrite ?Hr, ?last_snoc, ?andb_true_r;
        split_and!; try done; try (by case_bool_decide).
Qed.

(** A race resolves to the first success among its settlements in the order they
    happen, and to nothing before it; without any success it resolves exactly when the
    last task settles, to that task's failure (or the generic one when it was
    rejected). The others are aborted exactly when there is a winner, and one result is
    returned. *)
Theorem race_resolves_to_first_success n l (Hl : (length l <= n)%nat) (Hn : (0 < n)%nat) :
  let st := fold_left (on_settled n) l race_start in
  resolution st = race_answer_spec n l /\
  raceAborted st = existsb won l /\
  (length l = n -> is_some (resolution st) = true) /\
  (forall x, find_first won l = Some x -> selectedAgent (race_result (answer_of x)) = Some (agentName (answer_of x))).
Proof.
  destruct (race_inv n l Hl) as (_ & Hr & Hw & Ha). intros st. fold st in Hr, Hw, Ha. split_and!; [done| | |].
  - rewrite Ha, Hw. clear. induction l as [|x l IH]; simpl; [done|]. by destruct (won x).
  - intros He. rewrite Hr. unfold race_answer_spec. destruct (find_first won l); [done|].
    rewrite bool_decide_true by done. destruct l as [|x l] using rev_ind; [simpl in He; lia|]. by rewrite last_snoc.
  - intros x [_ Hx]%find_first_Some. destruct x as [r|e]; [|done]. simpl in *. by rewrite Hx.
Qed.

(** ** Concrete runs *)

Module Demo.

Definition ctx : AgentContext := {|
  security := {| userId := None; tenantId := Some "acme"; roles := None; permissions := None |};
  ctx_sessionId := "s"; ctx_traceId := "t"; ctx_parentTraceId := None; ctx_rootTraceId := None;
  ctx_data := None; ctx_signal := false; deadline := None |}.

Definition task (name : string) : SubAgentTask :=
  {| task_agentName := name; task_message := "go"; narrowing := None; task_data := None; task_signal := None |}.

Definition three : list SubAgentTask := [task "a"; task "b"; task "c"].

Definition race_signal : AbortSignal := OwnSignal 1.

Definition options : ParallelRunnerOptions :=
  mk_options None None (Some 0) (Some 2) (Some race_signal) None None None None.

Definition ok (text : string) : answer :=
  Answered (inl {| run_result := {| res_sessionId := ""; res_output := text; res_toolCalls := []; res_usage := None;
                                    res_durationMs := None; res_structured := None |}; run_score := None |}) 5.

Definition quiet (s : AbortSignal) : bool := false.

Definition state_after (xs : list action) : pool :=
  default (fan_start options ctx three quiet) (acts options ctx three xs (fan_start options ctx three quiet)).

(** The second worker answers first; its worker takes the third task. *)
Definition schedule : list action :=
  [Claim 0; Claim 1; Settle 1 (ok "B"); Store 1; Claim 1; Settle 1 TimerFired; Store 1; Settle 0 (ok "A"); Store 0;
   Claim 0; Claim 1].

Definition final : pool := state_after schedule.
Definition midway : pool := state_after [Claim 0; Claim 1; Abort race_signal].
Definition later : pool := state_after [Claim 0; Claim 1; Abort race_signal; Settle 0 TimerFired].

Lemma schedule_runs : acts options ctx three schedule (fan_start options ctx three quiet) = Some final.
Proof. vm_compute. reflexivity. Qed.

Example ordered :
  match fan_out_outcome options three final with
  | Some (Ret res) => map response (results res) = ["A"; "B"; ""] /\ successCount res = 2 /\ failedCount res = 1
  | _ => False
  end.
Proof. vm_compute. split_and!; reflexivity. Qed.

(** A delegation that timed out is retried while nothing has told it to stop. *)
Example timed_out_delegation_is_retried :
  let opts := mk_options None None (Some 1) (Some 2) (Some race_signal) None None None None in
  match acts opts ctx three [Claim 0; Settle 0 TimerFired] (fan_start opts ctx three quiet) with
  | Some p => match workers p !! 0%nat with
              | Some (Waiting idx t _ _) => idx = 0%nat /\ t = task "a" /\ aborts p race_signal = false
              | _ => False
              end
  | None => False
  end.
Proof. vm_compute. split_and!; reflexivity. Qed.

Definition failed (name : string) : SubAgentResult := failed_result name "boom".
Definition succeeded_with (name : string) : SubAgentResult :=
  {| agentName := name; status := StatusSuccess; response := name; toolCount := 0; result_error := None; score := None;
     tokens := None; durationMs := None |}.

End Demo.

Lemma fan_out_keeps_task_order_witness :
  NoDup (all_held (workers Demo.final) ++ elements (dom (stored Demo.final))) /\
  match fan_out_outcome Demo.options Demo.three Demo.final with
  | Some (Ret res) => Forall2 (owned Demo.options) Demo.three (results res)
  | _ => False
  end.
Proof.
  destruct (fan_out_keeps_task_order Demo.options Demo.ctx Demo.three Demo.quiet Demo.schedule Demo.final Demo.schedule_runs)
    as (H1 & H2). split; [exact H1|].
  destruct (fan_out_outcome Demo.options Demo.three Demo.final) as [[res|e|]|] eqn:Hout; [|by vm_compute in Hout..].
  exact (proj1 (H2 res eq_refl)).
Defined.

Lemma fan_out_settles_witness :
  (count worker_action Demo.schedule <= total_steps Demo.options Demo.three)%nat.
Proof.
  destruct (fan_out_settles Demo.options Demo.ctx Demo.three Demo.quiet Demo.schedule Demo.final Demo.schedule_runs)
    as (H & _). exact H.
Defined.

Lemma abort_stops_delegations_witness :
  exists idx t pl k, workers Demo.midway !! 1%nat = Some (Waiting idx t pl k).
Proof.
  assert (exists idx t pl k, workers Demo.later !! 1%nat = Some (Waiting idx t pl k)) as (idx & t & pl & k & Hw).
  { vm_compute. do 4 eexists. reflexivity. }
  destruct (abort_stops_delegations Demo.options Demo.ctx Demo.three Demo.race_signal Demo.quiet
    [Claim 0; Claim 1; Abort Demo.race_signal] Demo.midway (Settle 0 TimerFired) Demo.later 1%nat t pl k) as [idx' Hi].
  - reflexivity.
  - repeat constructor.
  - vm_compute. reflexivity.
  - vm_compute. reflexivity.
  - vm_compute. reflexivity.
  - exists idx. exact Hw.
  - exists idx', t, pl, k. exact Hi.
Defined.

Lemma race_resolves_to_first_success_witness :
  resolution (fold_left (on_settled 3)
    [Fulfilled (Demo.failed "a"); Fulfilled (Demo.succeeded_with "b"); Fulfilled (Demo.failed "c")] race_start) =
  Some (Demo.succeeded_with "b").
Proof.
  destruct (race_resolves_to_first_success 3
    [Fulfilled (Demo.failed "a"); Fulfilled (Demo.succeeded_with "b"); Fulfilled (Demo.failed "c")]) as (H & _).
  - simpl. lia.
  - lia.
  - etransitivity; [exact H|]. reflexivity.
Defined.

End FanOut.
