(* ===== verification/Sop.v ===== *)
(** * Standard operating procedures (packages/orchestration/src/runners/sop.runner.ts)

    A workflow of phases run in order, each with retries and a guard, a checkpoint
    after every phase, and resumption from one. *)

From S2P Require Export Parallel.

#[local] Open Scope string_scope.
#[local] Open Scope list_scope.
#[local] Open Scope Z_scope.
#[local] Open Scope eff_scope.

Module Sop.
Import ScopeKey Orchestration Delegation Parallel.

Definition MAX_PHASES_VISITED : Z := 256.

Record SopPhaseResult : Type := { phaseName : string; phase_result : SubAgentResult; phase_durationMs : Z }.

Record SopContext : Type := { phaseHistory : list SopPhaseResult; lastOutput : option string; sop_data : option obj }.

Record SopPhase : Type := {
  phase_name : string;
  phase_agentName : string;
  buildMessage : SopContext -> outcome error string;
  phase_narrowing : option CapabilityNarrowing;
  guard : option (SubAgentResult -> outcome error bool);
}.

Record SopWorkflowCheckpoint : Type := {
  cp_version : Z;
  cp_sessionId : string;
  cp_tenantId : option string;
  completedPhases : list SopPhaseResult;
  cp_lastOutput : option string;
  cp_data : option obj;
  savedAt : string;
}.

Inductive TerminationReason : Type := ReasonCompleted | ReasonGuardFailed | ReasonAborted.
#[export] Instance reason_eq_dec : EqDecision TerminationReason.
Proof. solve_decision. Defined.

Record SopRunResult : Type := {
  phases : list SopPhaseResult;
  finalOutput : string;
  requiresHumanReview : bool;
  terminationReason : TerminationReason;
  run_error : option string;
}.

Inductive event : Type :=
| PhaseDelegated (rq : RunRequest)
| CheckpointRead (key : string)
| CheckpointSaved (key : string) (c : SopWorkflowCheckpoint) (ttl : Z).

Section Sop.
Context {W : Type}.

Record CheckpointStore : Type := {
  store_get : string -> W -> outcome error (option SopWorkflowCheckpoint) * W;
  store_set : string -> SopWorkflowCheckpoint -> Z -> W -> outcome error unit * W;
}.

Record SopOptions : Type := {
  sop_timeoutMs : Z;
  retriesPerPhase : Z;
  sop_signal : option AbortSignal;
  sop_store : option CheckpointStore;
  sop_ttlSeconds : Z;
}.

(** The [options] of the constructor, absent ones defaulted. *)
Definition mk_options (timeout retries : option Z) (signal : option AbortSignal) (store : option CheckpointStore)
    (ttl : option Z) : SopOptions := {|
  sop_timeoutMs := default 30000 timeout; retriesPerPhase := default 1 retries; sop_signal := signal;
  sop_store := store; sop_ttlSeconds := default 86400 ttl |}.

Notation M := (M error event W).
Context (options : SopOptions) (host : RaceHost W) (clock : W -> Z) (parentContext : AgentContext).

Definition aborted : M bool := ask (is_aborted host (sop_signal options)).
Definition of_outcome {A} (o : outcome error A) : M A := lift (fun w => (o, w)).

Definition checkpointKey : string :=
  "agentic:sop:checkpoint:" +:+
  scopeKey [opt_part (tenantId (security parentContext)); PartStr (ctx_sessionId parentContext)].

Definition getCheckpoint : M (option SopWorkflowCheckpoint) :=
  match sop_store options with
  | None => ret None
  | Some store => emit (CheckpointRead checkpointKey) ;; lift (store_get store checkpointKey)
  end.

(** ** One phase *)

Definition phase_timed_out (name : string) : SubAgentResult :=
  failed_result name
    ("Phase sub-agent " +:+ in_quotes name +:+ " timed out after " +:+ Z_to_string (sop_timeoutMs options) +:+ "ms").

(** What the await of [executeWithTimeout] gives. *)
Definition phase_settle (task : SubAgentTask) (p : planned) (a : answer) : SubAgentResult + error :=
  match p with
  | PlanResult r => inl r
  | PlanThrow e => inr (orchestration_throw e)
  | PlanRun _ =>
      inl match a with
          | Answered r d => delegated_result task r d
          | TimerFired => phase_timed_out (task_agentName task)
          | SignalFired => aborted_result (task_agentName task)
          end
  end.

Definition executeWithTimeout (task : SubAgentTask) : M SubAgentResult :=
  todo <- ask (fun w => planning parentContext (fun s => race_aborted host s w) task (sop_signal options)) ;;
  a <- match todo with
       | PlanRun rq =>
           emit (PhaseDelegated rq) ;;
           lift (fun w => let '(a, w') := race_answer host rq (sop_timeoutMs options) (sop_signal options) w in (Ret a, w'))
       | _ => ret TimerFired
       end ;;
  match phase_settle task todo a with inl r => ret r | inr e => throw e end.

Record PhaseOutcome : Type := {
  success : bool;
  lastResult : SubAgentResult;
  guardFailed : bool;
  wasAborted : bool;
}.

Definition phase_task (phase : SopPhase) (message : string) : SubAgentTask := {|
  task_agentName := phase_agentName phase; task_message := message; narrowing := phase_narrowing phase;
  task_data := None; task_signal := sop_signal options |}.

Definition maxPhaseAttempts : Z := retriesPerPhase options + 1.

Definition exhausted (phase : SopPhase) : SubAgentResult :=
  failed_result (phase_agentName phase)
    ("Phase " +:+ in_quotes (phase_name phase) +:+ " failed after " +:+ Z_to_string maxPhaseAttempts +:+ " attempt(s)").

(** [lastResult.error === 'Execution was aborted'] *)
Definition says_aborted (r : SubAgentResult) : bool := bool_decide (result_error r = Some "Execution was aborted").

Fixpoint phase_attempts (left : nat) (phase : SopPhase) (ctx : SopContext) (last : option SubAgentResult)
    (failedGuard : bool) : M PhaseOutcome :=
  match left with
  | O => ret {| success := false; lastResult := default (exhausted phase) last; guardFailed := failedGuard;
                wasAborted := false |}
  | S left' =>
      a <- aborted ;;
      if a then ret {| success := false; lastResult := aborted_result (phase_agentName phase); guardFailed := false;
                       wasAborted := true |}
      else
        message <- of_outcome (buildMessage phase ctx) ;;
        result <- executeWithTimeout (phase_task phase message) ;;
        a' <- aborted ;;
        if a' || says_aborted result
        then ret {| success := false; lastResult := result; guardFailed := false; wasAborted := true |}
        else if succeeded result then
          match guard phase with
          | Some g =>
              passed <- of_outcome (g result) ;;
              if passed then ret {| success := true; lastResult := result; guardFailed := false; wasAborted := false |}
              else phase_attempts left' phase ctx (Some result) true
          | None => ret {| success := true; lastResult := result; guardFailed := false; wasAborted := false |}
          end
        else phase_attempts left' phase ctx (Some result) failedGuard
  end.

Definition executePhaseWithGuardRetries (phase : SopPhase) (ctx : SopContext) : M PhaseOutcome :=
  phase_attempts (Z.to_nat maxPhaseAttempts) phase ctx None false.

(** ** The workflow *)

Definition buildResult (ps : list SopPhaseResult) (reason : TerminationReason) (review : bool) : SopRunResult := {|
  phases := ps;
  finalOutput := match last ps with Some p => response (phase_result p) | None => "" end;
  requiresHumanReview := review; terminationReason := reason; run_error := None |}.

Definition checkpoint_of (completed : list SopPhaseResult) (output : option string) (data : option obj) (now : Z)
    : SopWorkflowCheckpoint := {|
  cp_version := 1; cp_sessionId := ctx_sessionId parentContext; cp_tenantId := tenantId (security parentContext);
  completedPhases := completed; cp_lastOutput := output; cp_data := data; savedAt := iso_string now |}.

Definition savePhaseCheckpoint (completed : list SopPhaseResult) (output : option string) (data : option obj) : M unit :=
  match sop_store options with
  | None => ret tt
  | Some store =>
      now <- ask clock ;;
      let c := checkpoint_of completed output data now in
      emit (CheckpointSaved checkpointKey c (sop_ttlSeconds options)) ;;
      lift (store_set store checkpointKey c (sop_ttlSeconds options))
  end.

Fixpoint phases_loop (todo : list SopPhase) (completed : list SopPhaseResult) (ctx : SopContext) : M SopRunResult :=
  match todo with
  | [] => ret (buildResult completed ReasonCompleted false)
  | phase :: rest =>
      let phasesVisited := Z.of_nat (length completed) + 1 in
      if MAX_PHASES_VISITED <? phasesVisited
      then throw (orchestration_throw (SopMaxTransitionsExceededError phasesVisited MAX_PHASES_VISITED))
      else
        a <- aborted ;;
        if a then ret (buildResult completed ReasonAborted false)
        else
          phaseStart <- ask clock ;;
          o <- executePhaseWithGuardRetries phase ctx ;;
          now <- ask clock ;;
          let result := {| phaseName := phase_name phase; phase_result := lastResult o;
                           phase_durationMs := now - phaseStart |} in
          if wasAborted o then ret (buildResult completed ReasonAborted false)
          else if negb (success o) then
            if guardFailed o then
              ret {| phases := completed ++ [result]; finalOutput := response (lastResult o);
                     requiresHumanReview := true; terminationReason := ReasonGuardFailed;
                     run_error := Some (orchestration_message (SopGuardFailedError (phase_name phase) (phase_agentName phase))) |}
            else throw (orchestration_throw (SopPhaseExecutionError (phase_name phase) (phase_agentName phase)
                                               (default "Unknown execution error" (result_error (lastResult o)))))
          else
            let completed' := completed ++ [result] in
            let output := Some (response (lastResult o)) in
            savePhaseCheckpoint completed' output (sop_data ctx) ;;
            phases_loop rest completed'
              {| phaseHistory := completed'; lastOutput := output; sop_data := sop_data ctx |}
  end.

Definition nothing_to_do : SopRunResult := {|
  phases := []; finalOutput := ""; requiresHumanReview := false; terminationReason := ReasonCompleted; run_error := None |}.

Definition executePhases (todo : list SopPhase) (completed : list SopPhaseResult) (startOutput : option string)
    (data : obj) : M SopRunResult :=
  match todo, completed with
  | [], [] => ret nothing_to_do
  | _, _ =>
      a <- aborted ;;
      if a then ret {| phases := completed; finalOutput := default "" startOutput; requiresHumanReview := false;
                       terminationReason := ReasonAborted; run_error := None |}
      else phases_loop todo completed {| phaseHistory := completed; lastOutput := startOutput; sop_data := Some data |}
  end.

Definition run (ps : list SopPhase) (initialData : option obj) : M SopRunResult :=
  executePhases ps [] None (default [] initialData).

Definition remaining (ps : list SopPhase) (completed : list SopPhaseResult) : list SopPhase :=
  List.filter (fun p => negb (bool_decide (phase_name p ∈ map phaseName completed))) ps.

Definition resume (ps : list SopPhase) (checkpoint : option SopWorkflowCheckpoint) : M SopRunResult :=
  active <- match checkpoint with Some c => ret (Some c) | None => getCheckpoint end ;;
  match active with
  | None => run ps None
  | Some c => executePhases (remaining ps (completedPhases c)) (completedPhases c) (cp_lastOutput c) (default [] (cp_data c))
  end.

(** ** One phase, specified *)

(** A result with which the workflow advances. *)
Definition passed (phase : SopPhase) (r : SubAgentResult) : Prop :=
  succeeded r = true /\ match guard phase with Some g => g r = Ret true | None => True end.

Definition delegates_phase (e : event) : bool := match e with PhaseDelegated _ => true | _ => false end.
Definition saved (l : list event) : list SopWorkflowCheckpoint :=
  filter_map (fun e => match e with CheckpointSaved _ c _ => Some c | _ => None end) l.

Lemma sop_saved_app l1 l2 : saved (l1 ++ l2) = saved l1 ++ saved l2.
Proof. apply filter_map_app. Qed.

Lemma saved_delegations l : Forall (fun e => delegates_phase e = true) l -> saved l = [].
Proof. induction 1 as [|e l He _ IH]; [done|]. by destruct e. Qed.

Lemma count_delegations l : Forall (fun e => delegates_phase e = true) l -> count delegates_phase l = length l.
Proof. induction 1 as [|e l He _ IH]; [done|]. by rewrite count_cons, He, IH. Qed.

Lemma phase_execute_wp task w :
  wp (executeWithTimeout task) w (fun _ _ l => (length l <= 1)%nat /\ Forall (fun e => delegates_phase e = true) l).
Proof.
  unfold executeWithTimeout. do 2 wp_step. destruct (planning _ _ _ _) as [r|e|rq] eqn:Hp; simpl.
  - do 2 wp_step. wp_step. split; [simpl; lia|done].
  - do 2 wp_step. wp_step. split; [simpl; lia|done].
  - do 3 wp_step. wp_step.
    assert (exists a, o = Ret a) as [a ->] by (destruct (race_answer _ _ _ _ _); simplify_eq; by eexists). simpl.
    wp_step. simpl. split; [lia|by repeat constructor].
Qed.

Lemma of_outcome_wp {A} (r : outcome error A) w (Q : outcome error A -> W -> list event -> Prop) :
  Q r w [] -> wp (of_outcome r) w Q.
Proof. intros H. unfold of_outcome. wp_step. by simplify_eq. Qed.

Lemma attempts_wp left phase ctx last fg w :
  wp (phase_attempts left phase ctx last fg) w (fun o _ l =>
    (length l <= left)%nat /\ Forall (fun e => delegates_phase e = true) l /\
    match o with
    | Ret po => success po = true -> passed phase (lastResult po) /\ wasAborted po = false
    | _ => True
    end).
Proof.
  revert last fg w. induction left as [|left IH]; intros last fg w; simpl; [by wp_step|]. unfold aborted at 1.
  do 2 wp_step. destruct (is_aborted _ _ _); [wp_step; simpl; split_and!; [lia|done|done]|].
  wp_step. apply of_outcome_wp. destruct (buildMessage phase ctx) as [msg|e|]; [|simpl; split_and!; [lia|done|done]..]. simpl.
  wp_step. eapply wp_mono; [apply phase_execute_wp|]. intros o w1 l1 [Hl1 Hf1].
  destruct o as [r|e|]; [|simpl; split_and!; [lia|done|done]..]. simpl. unfold aborted. do 2 wp_step.
  destruct (is_aborted _ _ _ || says_aborted r); [wp_step; rewrite app_nil_r; split_and!; [lia|done|done]|].
  assert (forall last' fg', wp (phase_attempts left phase ctx last' fg') w1 (fun o' _ l' =>
    (length (l1 ++ l') <= S left)%nat /\ Forall (fun e => delegates_phase e = true) (l1 ++ l') /\
    match o' with Ret po => success po = true -> passed phase (lastResult po) /\ wasAborted po = false | _ => True end)) as Hrest.
  { intros last' fg'. eapply wp_mono; [apply IH|]. intros o w2 l2 (Hl2 & Hf2 & Ho).
    rewrite length_app, Forall_app. split_and!; [lia|done|done|done]. }
  destruct (succeeded r) eqn:Hr; [|apply Hrest].
  destruct (guard phase) as [g|] eqn:Hg.
  - wp_step. apply of_outcome_wp. destruct (g r) as [[]|e|] eqn:Hgr; simpl;
      [|apply Hrest|rewrite app_nil_r; split_and!; [lia|done|done]..].
    wp_step. rewrite app_nil_r. split_and!; [lia|done|]. intros _. split; [|done]. split; [done|]. by rewrite Hg.
  - wp_step. rewrite app_nil_r. split_and!; [lia|done|]. intros _. split; [|done]. split; [done|]. by rewrite Hg.
Qed.

Lemma sop_save_wp completed output data w :
  wp (savePhaseCheckpoint completed output data) w (fun _ _ l =>
    count delegates_phase l = 0%nat /\
    Forall (fun c => exists now, c = checkpoint_of completed output data now) (saved l) /\
    (sop_store options <> None -> length (saved l) = 1%nat)).
Proof.
  unfold savePhaseCheckpoint. destruct (sop_store options) as [store|]; [|by wp_step; split_and!].
  do 2 wp_step. do 2 wp_step. wp_step. simpl. split_and!; [done| |done]. repeat constructor. by eexists.
Qed.

(** ** The workflow, specified *)

(** A phase and the result with which it was completed. *)
Definition ran (phase : SopPhase) (p : SopPhaseResult) : Prop :=
  phaseName p = phase_name phase /\ passed phase (phase_result p).

(** A checkpoint saved after the first [j] of [new]. *)
Definition checkpoints (completed new : list SopPhaseResult) (data : option obj) (c : SopWorkflowCheckpoint) : Prop :=
  exists j p, (j < length new)%nat /\ new !! j = Some p /\ completedPhases c = completed ++ take (S j) new /\
    cp_lastOutput c = Some (response (phase_result p)) /\ cp_data c = data.

(** How a run that returned ended. *)
Definition ends (todo : list SopPhase) (completed new : list SopPhaseResult) (res : SopRunResult) : Prop :=
  requiresHumanReview res = bool_decide (terminationReason res = ReasonGuardFailed) /\
  match terminationReason res with
  | ReasonCompleted => phases res = completed ++ new /\ length new = length todo
  | ReasonAborted => phases res = completed ++ new
  | ReasonGuardFailed => exists phase p, todo !! length new = Some phase /\ phaseName p = phase_name phase /\
      phases res = completed ++ new ++ [p]
  end.

Definition loop_post (todo : list SopPhase) (completed : list SopPhaseResult) (data : option obj)
    (o : outcome error SopRunResult) (l : list event) : Prop :=
  exists new, Forall2 ran (take (length new) todo) new /\ (length new <= length todo)%nat /\
    Forall (checkpoints completed new data) (saved l) /\
    (sop_store options <> None -> length (saved l) = length new) /\
    (count delegates_phase l <= length todo * Z.to_nat maxPhaseAttempts)%nat /\
    (new <> [] -> Z.of_nat (length completed + length new) <= MAX_PHASES_VISITED) /\
    match o with Ret res => ends todo completed new res | _ => True end.

Lemma loop_stops todo completed data o l :
  Forall (fun e => delegates_phase e = true) l -> (length l <= length todo * Z.to_nat maxPhaseAttempts)%nat ->
  match o with Ret res => ends todo completed [] res | _ => True end -> loop_post todo completed data o l.
Proof.
  intros Hl Hlen Ho. exists []. rewrite saved_delegations, count_delegations by done.
  split_and!; try done; simpl; lia.
Qed.

Lemma checkpoints_cons completed p new data c :
  checkpoints (completed ++ [p]) new data c -> checkpoints completed (p :: new) data c.
Proof.
  intros (j & q & Hj & Hq & Hc & Ho & Hd). exists (S j), q. split_and!; [simpl; lia|done| |done|done].
  rewrite Hc. by rewrite <- app_assoc.
Qed.

Lemma ends_cons phase rest completed p new res :
  ends rest (completed ++ [p]) new res -> ends (phase :: rest) completed (p :: new) res.
Proof.
  intros [Hr He]. split; [done|]. destruct (terminationReason res).
  - destruct He as [-> Hl]. rewrite <- app_assoc. split; [done|]. simpl. by rewrite Hl.
  - destruct He as (ph & q & H1 & H2 & ->). exists ph, q. by rewrite <- !app_assoc.
  - rewrite He. by rewrite <- app_assoc.
Qed.

(** A phase that was completed and checkpointed, before the rest. *)
Lemma loop_advances phase rest completed p data o l1 l2 l3 :
  ran phase p -> Forall (fun e => delegates_phase e = true) l1 -> (length l1 <= Z.to_nat maxPhaseAttempts)%nat ->
  Z.of_nat (length completed) + 1 <= MAX_PHASES_VISITED ->
  count delegates_phase l2 = 0%nat ->
  Forall (fun c => exists now, c = checkpoint_of (completed ++ [p]) (Some (response (phase_result p))) data now) (saved l2) ->
  (sop_store options <> None -> length (saved l2) = 1%nat) ->
  loop_post rest (completed ++ [p]) data o l3 -> loop_post (phase :: rest) completed data o (l1 ++ l2 ++ l3).
Proof.
  intros Hp Hl1 Hlen Hmax Hc2 Hs2 Hn2 (new & Hnew & Hle & Hcp & Hns & Hcd & Hm & Ho). exists (p :: new).
  rewrite !sop_saved_app, (saved_delegations l1), !count_app, (count_delegations l1), Hc2 by done. simpl.
  split_and!; [by constructor|lia| | |lia| |].
  - apply Forall_app. split; [|eapply Forall_impl; [exact Hcp|]; intros c; apply checkpoints_cons].
    eapply Forall_impl; [exact Hs2|]. intros c (now & ->). exists 0%nat, p. split_and!; [simpl; lia|done..].
  - intros Hst. rewrite length_app, Hn2, Hns by done. lia.
  - intros _. destruct new as [|q new]; [simpl; lia|]. specialize (Hm ltac:(done)). rewrite length_app in Hm. simpl in *. lia.
  - destruct o; [by apply ends_cons|done..].
Qed.

Lemma loop_wp todo completed ctx w :
  wp (phases_loop todo completed ctx) w (fun o _ l => loop_post todo completed (sop_data ctx) o l).
Proof.
  revert completed ctx w. induction todo as [|phase rest IH]; intros completed ctx w; cbn [phases_loop].
  - wp_step. apply loop_stops; [constructor|simpl; lia|]. split; [done|]. simpl. by rewrite app_nil_r.
  - destruct (Z.ltb_spec MAX_PHASES_VISITED (Z.of_nat (length completed) + 1)) as [|Hmax].
    { wp_step. apply loop_stops; [constructor|simpl; lia|done]. }
    unfold aborted. do 2 wp_step. destruct (is_aborted _ _ _).
    { wp_step. apply loop_stops; [constructor|simpl; lia|]. split; [done|]. simpl. by rewrite app_nil_r. }
    do 2 wp_step. wp_step. eapply wp_mono; [apply attempts_wp|]. intros o w1 l1 (Hl1 & Hf1 & Ho).
    assert ((length l1 <= length (phase :: rest) * Z.to_nat maxPhaseAttempts)%nat) as Hlen by (simpl; lia).
    destruct o as [po|e|]; [|by apply loop_stops..]. simpl. do 2 wp_step. simpl.
    destruct (wasAborted po).
    { wp_step. rewrite app_nil_r. apply loop_stops; [done..|]. split; [done|]. simpl. by rewrite app_nil_r. }
    destruct (success po) eqn:Hs; simpl.
    + wp_step. eapply wp_mono; [apply sop_save_wp|]. intros o w2 l2 (Hc2 & Hs2 & Hn2).
      assert (ran phase {| phaseName := phase_name phase; phase_result := lastResult po;
                           phase_durationMs := clock w1 - clock w |}) as Hran by (split; [done|by apply Ho]).
      destruct o as [[]|e|]; simpl.
      * eapply wp_mono; [apply IH|]. intros o w3 l3 H3. by eapply loop_advances.
      * rewrite <- (app_nil_r l2). eapply loop_advances; try done. apply loop_stops; [constructor|simpl; lia|done].
      * rewrite <- (app_nil_r l2). eapply loop_advances; try done. apply loop_stops; [constructor|simpl; lia|done].
    + destruct (guardFailed po); wp_step; rewrite app_nil_r; apply loop_stops; try done.
      split; [done|]. simpl. exists phase. eexists. split_and!; [done| |reflexivity]. done.
Qed.

(** ** Resumption *)

Lemma filter_none {A} (p : A -> bool) l : Forall (fun x => p x = false) l -> List.filter p l = [].
Proof. induction 1 as [|x l Hx _ IH]; simpl; [done|]. by rewrite Hx. Qed.

Lemma filter_all {A} (p : A -> bool) l : Forall (fun x => p x = true) l -> List.filter p l = l.
Proof. induction 1 as [|x l Hx _ IH]; simpl; [done|]. by rewrite Hx, IH. Qed.

Lemma ran_names ps rs : Forall2 ran ps rs -> map phaseName rs = map phase_name ps.
Proof. induction 1 as [|p r ps rs [Hr _] _ IH]; simpl; [done|]. by rewrite Hr, IH. Qed.

(** With distinct names, what is left after the first [j] phases is the rest. *)
Lemma remaining_drop ps j completed :
  NoDup (map phase_name ps) -> Forall2 ran (take j ps) completed -> remaining ps completed = drop j ps.
Proof.
  intros Hnd Hran. apply ran_names in Hran. unfold remaining. rewrite Hran.
  rewrite <- (take_drop j ps) in Hnd |- * at 1. rewrite map_app in Hnd. apply NoDup_app in Hnd as (_ & Hdis & _).
  rewrite List.filter_app, filter_none, filter_all; [done| |].
  - apply Forall_forall. intros x Hx. apply negb_true_iff, bool_decide_eq_false. intros Hin.
    apply (Hdis _ Hin). by apply list_elem_of_fmap_2.
  - apply Forall_forall. intros x Hx. apply negb_false_iff, bool_decide_eq_true. by apply list_elem_of_fmap_2.
Qed.

Lemma run_wp_post ps data w :
  wp (run ps data) w (fun o _ l => loop_post ps [] (Some (default [] data)) o l).
Proof.
  unfold run, executePhases. destruct ps as [|p ps].
  - wp_step. apply loop_stops; [constructor|simpl; lia|done].
  - unfold aborted. do 2 wp_step. destruct (is_aborted _ _ _).
    + wp_step. apply loop_stops; [constructor|simpl; lia|done].
    + eapply wp_mono; [apply loop_wp|]. done.
Qed.

Lemma saved_elem key c ttl l : CheckpointSaved key c ttl ∈ l -> c ∈ saved l.
Proof. intros H. apply elem_of_filter_map. by exists (CheckpointSaved key c ttl). Qed.

(** What resuming a checkpoint does. *)
Definition resumed (ps : list SopPhase) (j : nat) (c : SopWorkflowCheckpoint) (data : obj) : M SopRunResult :=
  a <- aborted ;;
  if a then ret {| phases := completedPhases c; finalOutput := default "" (cp_lastOutput c); requiresHumanReview := false;
                   terminationReason := ReasonAborted; run_error := None |}
  else phases_loop (drop j ps) (completedPhases c)
         {| phaseHistory := completedPhases c; lastOutput := cp_lastOutput c; sop_data := Some data |}.

Lemma resumed_wp ps j c data w :
  wp (resumed ps j c data) w (fun o _ l => loop_post (drop j ps) (completedPhases c) (Some data) o l).
Proof.
  unfold resumed, aborted. do 2 wp_step. destruct (is_aborted _ _ _).
  - wp_step. apply loop_stops; [constructor|simpl; lia|]. split; [done|]. simpl. by rewrite app_nil_r.
  - eapply wp_mono; [apply loop_wp|]. done.
Qed.

Lemma resume_is_resumed ps j c data w :
  NoDup (map phase_name ps) -> Forall2 ran (take j ps) (completedPhases c) -> completedPhases c <> [] ->
  cp_data c = Some data -> resume ps (Some c) w = resumed ps j c data w.
Proof.
  intros Hnd Hran Hne Hdata. unfold resume. rewrite bind_ret_l. rewrite (remaining_drop ps j) by done. rewrite Hdata.
  unfold executePhases, resumed. destruct (drop j ps), (completedPhases c); done.
Qed.

End Sop.
Arguments CheckpointStore : clear implicits.
Arguments SopOptions : clear implicits.

Section Theorems.
Context {W : Type} (options : SopOptions W) (host : RaceHost W) (clock : W -> Z) (parentContext : AgentContext).

(** A workflow advances only on phases that passed: its completed phases are the
    first of those defined, in order, each with a successful result its guard let
    through; at most 256 are completed, and each is delegated at most as often as its
    retries allow. A checkpoint is saved after each of them and for nothing else,
    holding exactly the phases completed so far. A workflow reports completion only
    with every phase done, asks for human review exactly when a guard halted it, and
    then ends with the phase that was halted. *)
Theorem workflow_advances_on_passed_phases (ps : list SopPhase) (data : option obj) (w : W) :
  wp (run options host clock parentContext ps data) w (fun o _ l =>
    exists completed,
      Forall2 ran (take (length completed) ps) completed /\ (length completed <= length ps)%nat /\
      Z.of_nat (length completed) <= MAX_PHASES_VISITED /\
      (count delegates_phase l <= length ps * Z.to_nat (maxPhaseAttempts options))%nat /\
      (sop_store options <> None -> length (saved l) = length completed) /\
      Forall (fun c => exists j p, (j < length completed)%nat /\ completed !! j = Some p /\
                completedPhases c = take (S j) completed /\
                cp_lastOutput c = Some (response (phase_result p))) (saved l) /\
      match o with
      | Ret res =>
          requiresHumanReview res = bool_decide (terminationReason res = ReasonGuardFailed) /\
          match terminationReason res with
          | ReasonCompleted => phases res = completed /\ length completed = length ps
          | ReasonAborted => phases res = completed
          | ReasonGuardFailed => exists phase p, ps !! length completed = Some phase /\ phaseName p = phase_name phase /\
              phases res = completed ++ [p]
          end
      | _ => True
      end).
Proof.
  eapply wp_mono; [apply run_wp_post|]. intros o w' l (new & Hran & Hle & Hcp & Hn & Hc & Hm & Ho).
  exists new. split_and!; try done.
  - destruct new as [|p new]; [done|]. by apply Hm.
  - eapply Forall_impl; [exact Hcp|]. intros c (j & p & Hj & Hp & Hcc & Hout & _). by exists j, p.
Qed.

(** C17. Resuming continues where the workflow stopped: from any checkpoint a workflow
    with distinct phase names saved, in any later world, [resume] is the loop over the
    phases after the checkpoint, with the context the interrupted workflow had there;
    no completed phase runs again, and its result begins with the results of the
    checkpoint, unchanged, followed by those of the remaining phases in order. *)
Theorem resume_runs_only_the_rest (ps : list SopPhase) (data : option obj) (w : W) o w' l key c ttl
    (Hnames : NoDup (map phase_name ps))
    (Hrun : run options host clock parentContext ps data w = (o, w', l))
    (Hsaved : CheckpointSaved key c ttl ∈ l) :
  exists j, (0 < j <= length ps)%nat /\ Forall2 ran (take j ps) (completedPhases c) /\
    forall later,
      resume options host clock parentContext ps (Some c) later =
      resumed options host clock parentContext ps j c (default [] data) later /\
      wp (resume options host clock parentContext ps (Some c)) later (fun o2 _ _ =>
        match o2 with
        | Ret res => exists new suffix, Forall2 ran (take (length new) (drop j ps)) new /\
            phases res = completedPhases c ++ new ++ suffix /\
            (terminationReason res <> ReasonGuardFailed -> suffix = [])
        | _ => True
        end).
Proof.
  pose proof (wp_run _ _ _ _ _ _ (run_wp_post options host clock parentContext ps data w) Hrun)
    as (new & Hran & Hle & Hcp & _).
  rewrite Forall_forall in Hcp. destruct (Hcp c (saved_elem _ _ _ _ Hsaved)) as (j & p & Hj & Hp & Hcc & Hout & Hdata).
  simpl in Hcc. exists (S j). assert (Forall2 ran (take (S j) ps) (completedPhases c)) as Hran'.
  { rewrite Hcc. apply (Forall2_take _ _ _ (S j)) in Hran. by rewrite take_take, Nat.min_l in Hran by lia. }
  split_and!; [lia|lia|done|]. intros later.
  assert (completedPhases c <> []) as Hne by (rewrite Hcc; by destruct new).
  assert (resume options host clock parentContext ps (Some c) later =
          resumed options host clock parentContext ps (S j) c (default [] data) later) as Heq by by apply resume_is_resumed.
  split; [done|]. unfold wp. rewrite Heq.
  eapply wp_mono; [apply resumed_wp|]. intros o2 w2 l2 (new2 & Hran2 & _ & _ & _ & _ & _ & Ho2).
  destruct o2 as [res|e|]; [|done..]. exists new2. destruct Ho2 as [_ Hend]. destruct (terminationReason res).
  - destruct Hend as [-> _]. exists []. by rewrite app_nil_r.
  - destruct Hend as (ph & q & _ & _ & ->). by exists [q].
  - exists []. by rewrite Hend, app_nil_r.
Qed.

End Theorems.

(** ** Concrete workflows *)

Module Demo.

Definition ctx : AgentContext := {|
  security := {| userId := None; tenantId := Some "acme"; roles := None; permissions := None |};
  ctx_sessionId := "s"; ctx_traceId := "t"; ctx_parentTraceId := None; ctx_rootTraceId := None;
  ctx_data := None; ctx_signal := false; deadline := None |}.

Definition says (text : string) : answer :=
  Answered (inl {| run_result := {| res_sessionId := ""; res_output := text; res_toolCalls := []; res_usage := None;
                                    res_durationMs := None; res_structured := None |}; run_score := None |}) 5.

(** The world is the answers still to come. *)
Definition host : RaceHost (list answer) := {|
  race_aborted := fun _ _ => false;
  race_answer := fun _ _ _ w => match w with a :: w' => (a, w') | [] => (TimerFired, []) end |}.

Definition store : CheckpointStore (list answer) := {|
  store_get := fun _ w => (Ret None, w); store_set := fun _ _ _ w => (Ret tt, w) |}.

Definition options : SopOptions (list answer) := mk_options None None None (Some store) None.

Definition phase (name : string) (g : option (SubAgentResult -> outcome error bool)) : SopPhase := {|
  phase_name := name; phase_agentName := name;
  buildMessage := fun c => Ret ("after " +:+ default "nothing" (lastOutput c));
  phase_narrowing := None; guard := g |}.

Definition two : list SopPhase := [phase "design" None; phase "build" None].
Definition clock (w : list answer) : Z := 0.

Definition first_run := run options host clock ctx two None [says "plan"; says "code"].
Definition first_events : list event := let '(_, _, l) := first_run in l.
Definition after_design : SopWorkflowCheckpoint :=
  match saved first_events with c :: _ => c | [] => checkpoint_of ctx [] None None 0 end.

(** A guard that refused once is reported although the last attempt failed by itself. *)
Example guard_blamed_for_a_timeout :
  match run options host clock ctx [phase "build" (Some (fun _ => Ret false))] None [says "bad"; TimerFired] with
  | (Ret res, _, _) => terminationReason res = ReasonGuardFailed /\ finalOutput res = ""
  | _ => False
  end.
Proof. vm_compute. split; reflexivity. Qed.

(** Two phases with one name: resuming after the first skips the second. *)
Example duplicate_name_is_skipped :
  remaining [phase "review" None; phase "build" None; phase "review" None] (completedPhases after_design) =
    [phase "review" None; phase "build" None; phase "review" None] /\
  map phase_name (remaining [phase "design" None; phase "build" None; phase "design" None]
                    (completedPhases after_design)) = ["build"].
Proof. vm_compute. split; reflexivity. Qed.

End Demo.

Lemma resume_runs_only_the_rest_witness :
  exists j, (0 < j <= 2)%nat /\ Forall2 ran (take j Demo.two) (completedPhases Demo.after_design).
Proof.
  destruct (resume_runs_only_the_rest Demo.options Demo.host Demo.clock Demo.ctx Demo.two None
    [Demo.says "plan"; Demo.says "code"] (Demo.first_run).1.1 (Demo.first_run).1.2 Demo.first_events
    (checkpointKey Demo.ctx) Demo.after_design 86400) as (j & Hj & Hr & _).
  - apply (bool_decide_unpack _). vm_compute. exact I.
  - vm_compute. reflexivity.
  - vm_compute. right. left.
  - exists j. split; [exact Hj|exact Hr].
Defined.

End Sop.
