(* ===== verification/Refinement.v ===== *)
(** * Refinement loops (packages/orchestration/src/runners/refinement-loop.runner.ts)

    A sub-agent run again and again on feedback until its answer satisfies, within
    iterations and budgets, under a lock, with a checkpoint after every round. *)

From S2P Require Export Delegation Num.

#[local] Open Scope string_scope.
#[local] Open Scope list_scope.
#[local] Open Scope Z_scope.
#[local] Open Scope eff_scope.

Module Refinement.
Import ScopeKey Orchestration Delegation.

(** ** Data *)

Inductive FeedbackSource : Type := FromProvider | FromEvaluator | FromDefault.
#[export] Instance feedback_eq_dec : EqDecision FeedbackSource.
Proof. solve_decision. Defined.

Record RefinementLoopCheckpoint : Type := {
  cp_version : Z;
  checkpointSequence : Z;
  parentSessionId : string;
  cp_tenantId : option string;
  cp_agentName : string;
  cp_iteration : Z;
  cp_maxIterations : Z;
  cp_history : list SubAgentResult;
  cp_totalTokens : Z;
  cp_totalDurationMs : Z;
  currentMessage : string;
  feedbackSource : FeedbackSource;
  savedAt : string;
}.

(** What the satisfaction function answers: a boolean, a structured result, or
    anything else, which the code ignores. *)
Inductive Evaluation : Type :=
| EvalBoolean (b : bool)
| EvalResult (satisfied : bool) (score : option num) (feedback : option string)
| EvalOther.

Inductive Termination : Type := TermSatisfied | TermMaxIterations | TermBudgetExceeded | TermAborted | TermError.
#[export] Instance termination_eq_dec : EqDecision Termination.
Proof. solve_decision. Defined.

Record RefinementLoopResult : Type := {
  finalResponse : string;
  iterations : Z;
  satisfied : bool;
  history : list SubAgentResult;
  terminationReason : Termination;
  totalTokens : Z;
  totalDurationMs : Z;
}.

Inductive event : Type :=
| Delegated (rq : RunRequest)
| LockTaken (key id : string) (ttl : Z)
| LockReleased (key : string)
| CheckpointSaved (key : string) (c : RefinementLoopCheckpoint) (ttl : Z)
| CheckpointDeleted (key : string)
| Judged (iteration : Z) (result : SubAgentResult) (verdict : Evaluation)
| SignalRead (aborted : bool).

(** The two budgets; zero counts as none. *)
Record Budget : Type := { maxTotalTokensBudget : option Z; maxTotalTimeMs : option Z }.

Definition nonzero (o : option Z) : option Z := match o with Some 0 => None | _ => o end.

Section Refinement.
Context {W : Type}.

(** The part of [StateStore] the loop uses; [setIfNotExists] is optional. *)
Record LoopStore : Type := {
  get_lock : string -> W -> outcome error (option string) * W;
  set_lock : string -> string -> Z -> W -> outcome error unit * W;
  setIfNotExists : option (string -> string -> Z -> W -> outcome error bool * W);
  delete_key : string -> W -> outcome error unit * W;
  get_checkpoint : string -> W -> outcome error (option RefinementLoopCheckpoint) * W;
  set_checkpoint : string -> RefinementLoopCheckpoint -> Z -> W -> outcome error unit * W;
}.

Record RefinementLoopOptions : Type := {
  maxIterations : Z;
  qualityThreshold : num;
  loop_signal : option AbortSignal;
  satisfactionFn : option (SubAgentResult -> Z -> W -> outcome error Evaluation * W);
  budget : option Budget;
  loop_store : option LoopStore;
  checkpointTtlSeconds : Z;
  errorCheckpointTtlSeconds : Z;
  lockTtlSeconds : Z;
}.

(** The [options] of the constructor, absent ones defaulted. *)
Definition mk_options (maxIter : option Z) (threshold : option num) (signal : option AbortSignal)
    (evaluator : option (SubAgentResult -> Z -> W -> outcome error Evaluation * W)) (b : option Budget)
    (store : option LoopStore) (ttl errorTtl lockTtl : option Z) : RefinementLoopOptions := {|
  maxIterations := default 3 maxIter;
  qualityThreshold := default (NDec 85 (-2)) threshold;
  loop_signal := signal;
  satisfactionFn := evaluator;
  budget := b;
  loop_store := store;
  checkpointTtlSeconds := default 86400 ttl;
  errorCheckpointTtlSeconds := default 3600 errorTtl;
  lockTtlSeconds := default 60 lockTtl;
|}.

Definition FeedbackProvider : Type := SubAgentResult -> Z -> W -> outcome error string * W.

Notation M := (M error event W).
Context (options : RefinementLoopOptions) (host : DelegationHost W) (random_id : W -> string * W)
  (parentContext : AgentContext).

Definition scoped (prefix agent : string) : string :=
  prefix +:+ scopeKey [opt_part (tenantId (security parentContext)); PartStr (ctx_sessionId parentContext); PartStr agent].
Definition checkpointKey (agent : string) : string := scoped "agentic:refinement:checkpoint:" agent.
Definition lockKey (agent : string) : string := scoped "agentic:refinement:lock:" agent.

(** ** The lock *)

Definition already_running {A} (agent : string) : M A :=
  throw (orchestration_throw (RefinementLoopAlreadyRunningError (ctx_sessionId parentContext) agent)).

Definition acquireLock (agent : string) : M (option string) :=
  match loop_store options with
  | None => ret None
  | Some store =>
      lockId <- lift (fun w => let '(id, w') := random_id w in (Ret id, w')) ;;
      match setIfNotExists store with
      | Some claim =>
          acquired <- lift (claim (lockKey agent) lockId (lockTtlSeconds options)) ;;
          if acquired : bool
          then emit (LockTaken (lockKey agent) lockId (lockTtlSeconds options)) ;; ret (Some lockId)
          else already_running agent
      | None =>
          existing <- lift (get_lock store (lockKey agent)) ;;
          if truthy_opt existing then already_running agent
          else
            lift (set_lock store (lockKey agent) lockId (lockTtlSeconds options)) ;;
            emit (LockTaken (lockKey agent) lockId (lockTtlSeconds options)) ;; ret (Some lockId)
      end
  end.

(** A failure to release is ignored. *)
Definition releaseLock (agent : string) (lockId : option string) : M unit :=
  match loop_store options with
  | Some store =>
      if truthy_opt lockId then
        catch (current <- lift (get_lock store (lockKey agent)) ;;
               if bool_decide (current = lockId)
               then emit (LockReleased (lockKey agent)) ;; lift (delete_key store (lockKey agent))
               else ret tt)
              (fun _ => ret tt)
      else ret tt
  | None => ret tt
  end.

(** ** Checkpoints *)

(** The variables of the loop. *)
Record LoopState : Type := {
  st_iteration : Z;
  st_history : list SubAgentResult;
  st_message : string;
  st_tokens : Z;
  st_duration : Z;
  st_sequence : Z;
}.

Definition checkpoint_of (agent : string) (st : LoopState) (source : FeedbackSource) (now : Z) : RefinementLoopCheckpoint := {|
  cp_version := 1; checkpointSequence := st_sequence st; parentSessionId := ctx_sessionId parentContext;
  cp_tenantId := tenantId (security parentContext); cp_agentName := agent; cp_iteration := st_iteration st;
  cp_maxIterations := maxIterations options; cp_history := st_history st; cp_totalTokens := st_tokens st;
  cp_totalDurationMs := st_duration st; currentMessage := st_message st; feedbackSource := source;
  savedAt := iso_string now |}.

Definition saveCheckpoint (agent : string) (st : LoopState) (source : FeedbackSource) (ttl : Z) : M unit :=
  match loop_store options with
  | None => ret tt
  | Some store =>
      existing <- lift (get_checkpoint store (checkpointKey agent)) ;;
      match existing with
      | Some e =>
          if st_sequence st <=? checkpointSequence e
          then throw (orchestration_throw
                 (RefinementCheckpointConflictError (checkpointKey agent) (st_sequence st) (checkpointSequence e)))
          else ret tt
      | None => ret tt
      end ;;
      now <- ask (clock host) ;;
      let c := checkpoint_of agent st source now in
      emit (CheckpointSaved (checkpointKey agent) c ttl) ;;
      lift (set_checkpoint store (checkpointKey agent) c ttl)
  end.

Definition getCheckpoint (agent : string) : M (option RefinementLoopCheckpoint) :=
  match loop_store options with
  | None => ret None
  | Some store => lift (get_checkpoint store (checkpointKey agent))
  end.

(** ** A round *)

Definition token_budget : option Z := nonzero (budget options ≫= maxTotalTokensBudget).
Definition time_budget : option Z := nonzero (budget options ≫= maxTotalTimeMs).

Definition over_budget (st : LoopState) : bool :=
  match token_budget with Some b => b <=? st_tokens st | None => false end ||
  match time_budget with Some b => b <=? st_duration st | None => false end.

(** [{ ...roundLimits, [key]: roundLimits?.[key] ? Math.min(...) : remaining }] *)
Definition bounded_limit (key : string) (remaining : Z) (roundLimits : option obj) : option obj :=
  let own := nonzero (prop roundLimits key ≫= as_int) in
  Some (obj_set (default [] roundLimits) key
          (VNum (num_of_Z (match own with Some l => Z.min l remaining | None => remaining end)))).

Definition round_limits (task : SubAgentTask) (st : LoopState) : option obj :=
  let own := narrowing task ≫= limits_object in
  let tokens := match token_budget with
                | Some b => bounded_limit "maxTotalTokens" (Z.max 0 (b - st_tokens st)) own
                | None => own
                end in
  match time_budget with
  | Some b => bounded_limit "timeoutMs" (Z.max 0 (b - st_duration st)) tokens
  | None => tokens
  end.

Definition round_task (task : SubAgentTask) (st : LoopState) : SubAgentTask := {|
  task_agentName := task_agentName task;
  task_message := st_message st;
  narrowing := Some (obj_set (default [] (narrowing task)) "limits" (opt_obj (round_limits task st)));
  task_data := task_data task;
  task_signal := task_signal task;
|}.

Definition with_score (s : option num) (r : SubAgentResult) : SubAgentResult := {|
  agentName := agentName r; status := status r; response := response r; toolCount := toolCount r;
  result_error := result_error r; score := orelse s (score r); tokens := tokens r; durationMs := durationMs r |}.

(** The verdict on a successful result: whether it satisfies, the result with the
    score the evaluator wrote into it, and the feedback it gave. *)
Definition evaluate_result (result : SubAgentResult) (iteration : Z) : M (bool * SubAgentResult * option string) :=
  match satisfactionFn options with
  | Some f =>
      e <- lift (f result iteration) ;;
      emit (Judged iteration result e) ;;
      ret match e with
          | EvalBoolean b => (b, result, None)
          | EvalResult b s fb => (b, with_score s result, if negb b && truthy_opt fb then fb else None)
          | EvalOther => (false, result, None)
          end
  | None =>
      ret match score result with
          | Some s => (num_le (qualityThreshold options) s, result, None)
          | None => (true, result, None)
          end
  end.

Definition percent (n : num) : string := to_fixed 1 (num_mul n (num_of_Z 100)) +:+ "%".

Definition default_feedback (result : SubAgentResult) (iteration : Z) : string :=
  let scoreInfo := match score result with
                   | Some s => " (Score: " +:+ percent s +:+ " / Threshold: " +:+ percent (qualityThreshold options) +:+ ")"
                   | None => ""
                   end in
  let prevSnippet := if 300 <? str_length (response result) then slice_to (response result) 300 +:+ "..."
                     else response result in
  let quotes := dq +:+ dq +:+ dq in
  "Refinement Feedback (Iteration " +:+ Z_to_string iteration +:+ "/" +:+ Z_to_string (maxIterations options) +:+ "):" +:+ nl +:+
  "Your previous output did not meet the required quality criteria" +:+ scoreInfo +:+ "." +:+ nl +:+
  "Please revise and improve the response by addressing:" +:+ nl +:+
  "1. Accuracy, completeness, and adherence to domain standards." +:+ nl +:+
  "2. Structural clarity and actionable details." +:+ nl +:+ nl +:+
  "Previous output to improve:" +:+ nl +:+
  quotes +:+ nl +:+ prevSnippet +:+ nl +:+ quotes.

Definition next_message (provider : option FeedbackProvider) (nextFeedback : option string) (result : SubAgentResult)
    (iteration : Z) : M (string * FeedbackSource) :=
  match nextFeedback, provider with
  | Some fb, _ => ret (fb, FromEvaluator)
  | None, Some f => m <- lift (f result iteration) ;; ret (m, FromProvider)
  | None, None => ret (default_feedback result iteration, FromDefault)
  end.

(** ** The loop *)

Definition finish (st : LoopState) (ok : bool) (reason : Termination) : RefinementLoopResult := {|
  finalResponse := match find_first succeeded (rev (st_history st)) with
                   | Some r => response r
                   | None => match last (st_history st) with Some r => default "" (result_error r) | None => "" end
                   end;
  iterations := Z.of_nat (length (st_history st)); satisfied := ok; history := st_history st;
  terminationReason := reason; totalTokens := st_tokens st; totalDurationMs := st_duration st |}.

(** The state after a round's result. *)
Definition accounted (st : LoopState) (iteration : Z) (result : SubAgentResult) : LoopState := {|
  st_iteration := iteration; st_history := st_history st ++ [result]; st_message := st_message st;
  st_tokens := st_tokens st + default 0 (totalCount <$> tokens result);
  st_duration := st_duration st + default 0 (durationMs result); st_sequence := st_sequence st |}.

(** The evaluator's score, written into the result that is in the history already. *)
Definition rescored (st : LoopState) (result : SubAgentResult) : LoopState := {|
  st_iteration := st_iteration st; st_history := removelast (st_history st) ++ [result]; st_message := st_message st;
  st_tokens := st_tokens st; st_duration := st_duration st; st_sequence := st_sequence st |}.

Definition sequenced (st : LoopState) (message : string) : LoopState := {|
  st_iteration := st_iteration st; st_history := st_history st; st_message := message;
  st_tokens := st_tokens st; st_duration := st_duration st; st_sequence := st_sequence st + 1 |}.

Definition loop_active_signal (task : SubAgentTask) : option AbortSignal :=
  orelse (orelse (task_signal task) (loop_signal options)) (context_signal parentContext).

Definition delete_checkpoint (agent : string) : M unit :=
  match loop_store options with
  | None => ret tt
  | Some store => emit (CheckpointDeleted (checkpointKey agent)) ;; lift (delete_key store (checkpointKey agent))
  end.

Definition loop_aborted (task : SubAgentTask) : M bool :=
  match loop_active_signal task with
  | None => ret false
  | Some s => a <- ask (signal_aborted host s) ;; emit (SignalRead a) ;; ret a
  end.

(** [left] iterations remain. *)
Fixpoint refine (left : nat) (task : SubAgentTask) (provider : option FeedbackProvider) (st : LoopState)
    : M RefinementLoopResult :=
  match left with
  | O => ret (finish st false TermMaxIterations)
  | S left' =>
      a <- loop_aborted task ;;
      if a then ret (finish st false TermAborted)
      else if over_budget st then ret (finish st false TermBudgetExceeded)
      else
        let iteration := st_iteration st + 1 in
        result <- delegate Delegated host DEFAULT_MAX_DELEGATION_DEPTH parentContext (round_task task st) (Some iteration)
                    (loop_active_signal task) ;;
        let st1 := accounted st iteration result in
        if negb (succeeded result) then
          let st2 := sequenced st1 (st_message st1) in
          saveCheckpoint (task_agentName task) st2 FromDefault (errorCheckpointTtlSeconds options) ;;
          ret (finish st2 false TermError)
        else
          let* (ok, result', nextFeedback) := evaluate_result result iteration in
          let st2 := rescored st1 result' in
          if ok : bool then
            delete_checkpoint (task_agentName task) ;;
            ret (finish st2 true TermSatisfied)
          else if over_budget st2 then ret (finish st2 false TermBudgetExceeded)
          else
            match left' with
            | O => ret (finish st2 false TermMaxIterations)
            | S _ =>
                let* (message, source) := next_message provider nextFeedback result' iteration in
                let st3 := sequenced st2 message in
                saveCheckpoint (task_agentName task) st3 source (checkpointTtlSeconds options) ;;
                refine left' task provider st3
            end
  end.

Definition execute (task : SubAgentTask) (provider : option FeedbackProvider) (st : LoopState) : M RefinementLoopResult :=
  refine (Z.to_nat (maxIterations options - st_iteration st)) task provider st.

Definition start_state (task : SubAgentTask) : LoopState := {|
  st_iteration := 0; st_history := []; st_message := task_message task; st_tokens := 0; st_duration := 0; st_sequence := 0 |}.

(** [try { return await body } finally { await releaseLock(...) }] *)
Definition with_lock (agent : string) (lockId : option string) (body : M RefinementLoopResult) : M RefinementLoopResult :=
  r <- tried body ;;
  releaseLock agent lockId ;;
  match r with inl a => ret a | inr e => throw e end.

Definition run (task : SubAgentTask) (provider : option FeedbackProvider) : M RefinementLoopResult :=
  lockId <- acquireLock (task_agentName task) ;;
  with_lock (task_agentName task) lockId (execute task provider (start_state task)).

(** The task of a resumed loop: the agent and the message, nothing else. *)
Definition resumed_task (c : RefinementLoopCheckpoint) : SubAgentTask := {|
  task_agentName := cp_agentName c; task_message := currentMessage c; narrowing := None; task_data := None;
  task_signal := None |}.

Definition resumed_state (c : RefinementLoopCheckpoint) : LoopState := {|
  st_iteration := cp_iteration c; st_history := cp_history c; st_message := currentMessage c;
  st_tokens := cp_totalTokens c; st_duration := cp_totalDurationMs c; st_sequence := checkpointSequence c |}.

Definition provider_needed : string :=
  "Refinement loop checkpoint for session " +:+ in_quotes (ctx_sessionId parentContext) +:+
  " was created with a custom feedbackProviderFn. " +:+
  "You must provide a feedbackProviderFn when resuming this loop.".

Definition resume (c : RefinementLoopCheckpoint) (provider : option FeedbackProvider) : M RefinementLoopResult :=
  if negb (cp_version c =? 1)
  then throw (orchestration_throw (RefinementCheckpointVersionError (cp_version c) 1))
  else if bool_decide (feedbackSource c = FromProvider) && negb (is_some provider)
  then throw (orchestration_throw (MissingFeedbackProviderError provider_needed))
  else
    lockId <- acquireLock (cp_agentName c) ;;
    with_lock (cp_agentName c) lockId (execute (resumed_task c) provider (resumed_state c)).

(** ** What the parts of a round do *)

Definition delegations (l : list event) : list RunRequest :=
  filter_map (fun e => match e with Delegated rq => Some rq | _ => None end) l.
Definition saved (l : list event) : list RefinementLoopCheckpoint :=
  filter_map (fun e => match e with CheckpointSaved _ c _ => Some c | _ => None end) l.

Definition judgments (l : list event) : list (Z * SubAgentResult * Evaluation) :=
  filter_map (fun e => match e with Judged it r v => Some (it, r, v) | _ => None end) l.

Lemma delegations_app l1 l2 : delegations (l1 ++ l2) = delegations l1 ++ delegations l2.
Proof. apply filter_map_app. Qed.
Lemma saved_app l1 l2 : saved (l1 ++ l2) = saved l1 ++ saved l2.
Proof. apply filter_map_app. Qed.

Lemma judgments_app l1 l2 : judgments (l1 ++ l2) = judgments l1 ++ judgments l2.
Proof. apply filter_map_app. Qed.

Lemma save_wp agent st source ttl w :
  wp (saveCheckpoint agent st source ttl) w (fun o _ l =>
    (delegations l = [] /\ judgments l = []) /\
    (saved l = [] /\ (loop_store options = None \/ match o with Ret _ => False | _ => True end) \/
     loop_store options <> None /\ exists now, saved l = [checkpoint_of agent st source now])).
Proof.
  unfold saveCheckpoint. destruct (loop_store options) as [store|]; [|wp_step; split; [done|]; left; split; [done|by left]].
  do 2 wp_step. destruct o as [existing|e|]; simpl; [|split; [done|]; left; split; [done|by right]..].
  assert (forall w1, wp (now <- ask (clock host) ;;
    let c := checkpoint_of agent st source now in
    emit (CheckpointSaved (checkpointKey agent) c ttl) ;; lift (set_checkpoint store (checkpointKey agent) c ttl)) w1
    (fun (o : outcome error unit) _ l => (delegations l = [] /\ judgments l = []) /\
      (saved l = [] /\ (Some store = None \/ match o with Ret _ => False | _ => True end) \/
       Some store <> None /\ exists now, saved l = [checkpoint_of agent st source now]))) as Hset.
  { intros w1. do 2 wp_step. do 2 wp_step. wp_step. simpl. split; [done|]. right. split; [done|]. by eexists. }
  destruct existing as [c|]; [|wp_step; wp_step; apply Hset].
  destruct (st_sequence st <=? checkpointSequence c).
  - do 2 wp_step. split; [done|]. left. split; [done|by right].
  - do 2 wp_step. apply Hset.
Qed.

(** Steps that neither delegate, judge nor save. *)
Definition silent (l : list event) : Prop := delegations l = [] /\ saved l = [] /\ judgments l = [].

(** What an evaluation says of a result. *)
Definition answer (e : Evaluation) : bool :=
  match e with EvalBoolean b => b | EvalResult b _ _ => b | EvalOther => false end.
Definition scored (e : Evaluation) (r : SubAgentResult) : SubAgentResult :=
  match e with EvalResult _ s _ => with_score s r | _ => r end.

(** Without an evaluator a result satisfies unless it has a score below the threshold. *)
Definition meets_threshold (r : SubAgentResult) : bool :=
  match score r with Some s => num_le (qualityThreshold options) s | None => true end.

(** The round at position [j] from where [l] starts, iteration [it] of the loop, ended in
    the result [r] that was judged [ok]: by the evaluator's own answer to the result of
    that iteration, or by the threshold. *)
Definition verdict (l : list event) (j : nat) (it : Z) (r : SubAgentResult) (ok : bool) : Prop :=
  match satisfactionFn options with
  | Some _ => exists r0 e, judgments l !! j = Some (it, r0, e) /\ r = scored e r0 /\ ok = answer e
  | None => ok = meets_threshold r
  end.

(** The events of one round hold its verdict and no other. *)
Definition judged_once (l : list event) (it : Z) (result r : SubAgentResult) (ok : bool) : Prop :=
  match satisfactionFn options with
  | Some _ => exists e, judgments l = [(it, result, e)] /\ r = scored e result /\ ok = answer e
  | None => judgments l = [] /\ r = result /\ ok = meets_threshold r
  end.

Lemma judged_verdict l1 l2 it result r ok : judged_once l1 it result r ok -> verdict (l1 ++ l2) 0 it r ok.
Proof.
  unfold judged_once, verdict. destruct (satisfactionFn options); [|by intros (_ & _ & ?)].
  intros (e & He & Hr & Hok). exists result, e. by rewrite judgments_app, He.
Qed.

Lemma verdict_later l1 l2 it result r ok j it' r' ok' :
  judged_once l1 it result r ok -> verdict l2 j it' r' ok' -> verdict (l1 ++ l2) (S j) it' r' ok'.
Proof.
  unfold judged_once, verdict. destruct (satisfactionFn options); [|done].
  intros (e & He & _) (r0 & e' & H). exists r0, e'. by rewrite judgments_app, He.
Qed.

(** An evaluation only changes the score of a result. *)
Lemma judged_same l it result r ok :
  judged_once l it result r ok ->
  succeeded r = succeeded result /\ response r = response result /\ tokens r = tokens result /\ durationMs r = durationMs result.
Proof.
  unfold judged_once. destruct (satisfactionFn options); [|by intros (_ & -> & _)].
  intros ([b|b s f|] & _ & -> & _); done.
Qed.

Lemma evaluate_wp result it w :
  wp (evaluate_result result it) w (fun o _ l => (delegations l = [] /\ saved l = []) /\
    match o with Ret (ok, r, _) => judged_once l it result r ok | _ => True end).
Proof.
  unfold evaluate_result, judged_once, meets_threshold. destruct (satisfactionFn options) as [f|].
  - do 2 wp_step. destruct o as [e|e|]; simpl; [|done..]. do 3 wp_step. split; [done|].
    by destruct e as [b|b s fb|]; eexists.
  - wp_step. split; [done|]. by destruct (score result) eqn:Hs; simpl; rewrite Hs.
Qed.

Lemma next_silent provider fb result it w : wp (next_message provider fb result it) w (fun _ _ l => silent l).
Proof.
  unfold next_message. destruct fb; [by wp_step|]. destruct provider; [|by wp_step].
  do 2 wp_step. destruct o; simpl; [by wp_step|done..].
Qed.

Lemma delete_silent agent w : wp (delete_checkpoint agent) w (fun _ _ l => silent l).
Proof.
  unfold delete_checkpoint. destruct (loop_store options); [|by wp_step]. do 2 wp_step. by wp_step.
Qed.

(** ** What a loop does *)

(** The [k]-th delegation is the next iteration of the agent, in its own session. *)
Definition numbered (agent : string) (it : Z) (rqs : list RunRequest) : Prop :=
  forall k rq, rqs !! k = Some rq -> rq_agent rq = agent /\
    rq_sessionId rq = subSessionId parentContext agent (Some (it + Z.of_nat k + 1)).

(** The [k]-th checkpoint is the next in sequence and in iteration. *)
Definition sequential (st : LoopState) (cs : list RefinementLoopCheckpoint) : Prop :=
  forall k c, cs !! k = Some c ->
    checkpointSequence c = st_sequence st + Z.of_nat k + 1 /\ cp_iteration c = st_iteration st + Z.of_nat k + 1 /\
    length (cp_history c) = (length (st_history st) + k + 1)%nat.

(** What the rounds used. *)
Definition spent (rs : list SubAgentResult) : Z := foldr Z.add 0 (map (fun r => default 0 (totalCount <$> tokens r)) rs).
Definition lasted (rs : list SubAgentResult) : Z := foldr Z.add 0 (map (fun r => default 0 (durationMs r)) rs).

(** Of [n] rounds, the one at position [j]: it satisfied exactly when the loop ended on
    it as satisfied, and failed exactly when the loop ended on it in error. *)
Definition round_accounted (l : list event) (reason : Termination) (n j : nat) (it : Z) (r : SubAgentResult) : Prop :=
  if succeeded r
  then exists ok, verdict l j it r ok /\ (ok = true <-> reason = TermSatisfied /\ S j = n)
  else reason = TermError /\ S j = n.

(** How a loop that returned ended, after the rounds [rs] since [st], of [left] at most. *)
Definition ended (left : nat) (st : LoopState) (l : list event) (res : RefinementLoopResult) : Prop :=
  exists rs, history res = st_history st ++ rs /\ (length rs <= left)%nat /\
    iterations res = Z.of_nat (length (history res)) /\
    satisfied res = bool_decide (terminationReason res = TermSatisfied) /\
    totalTokens res = st_tokens st + spent rs /\ totalDurationMs res = st_duration st + lasted rs /\
    (forall j r, rs !! j = Some r ->
       round_accounted l (terminationReason res) (length rs) j (st_iteration st + Z.of_nat j + 1) r) /\
    match terminationReason res with
    | TermSatisfied => exists r, last rs = Some r /\ succeeded r = true /\ finalResponse res = response r
    | TermError => exists r, last rs = Some r /\ succeeded r = false
    | TermMaxIterations => length rs = left
    | TermBudgetExceeded => (exists b, token_budget = Some b /\ b <= totalTokens res) \/
                            (exists b, time_budget = Some b /\ b <= totalDurationMs res)
    | TermAborted => SignalRead true ∈ l
    end.

Definition refine_post (left : nat) (agent : string) (st : LoopState) (o : outcome error RefinementLoopResult)
    (l : list event) : Prop :=
  (length (delegations l) <= left)%nat /\ numbered agent (st_iteration st) (delegations l) /\
  sequential st (saved l) /\ (loop_store options = None -> saved l = []) /\
  match o with Ret res => ended left st l res | _ => True end.

Lemma over_budget_spec st ok reason : over_budget st = true ->
  (exists b, token_budget = Some b /\ b <= totalTokens (finish st ok reason)) \/
  (exists b, time_budget = Some b /\ b <= totalDurationMs (finish st ok reason)).
Proof.
  unfold over_budget. intros [H|H]%orb_prop.
  - left. destruct token_budget as [b|]; [|done]. exists b. split; [done|]. by apply Z.leb_le.
  - right. destruct time_budget as [b|]; [|done]. exists b. split; [done|]. by apply Z.leb_le.
Qed.

(** A loop that ends at once. *)
Lemma refine_stops left agent st o l :
  delegations l = [] -> saved l = [] -> match o with Ret res => ended left st l res | _ => True end ->
  refine_post left agent st o l.
Proof. intros Hd Hs Ho. unfold refine_post. rewrite Hd, Hs. split_and!; [simpl; lia|done|done|done|done]. Qed.

Lemma ended_now left st reason l :
  reason <> TermSatisfied -> reason <> TermError -> (reason = TermMaxIterations -> left = 0%nat) ->
  (reason = TermBudgetExceeded -> over_budget st = true) -> (reason = TermAborted -> SignalRead true ∈ l) ->
  ended left st l (finish st false reason).
Proof.
  intros H1 H2 H3 H4 H5. exists []. simpl. unfold spent, lasted. simpl.
  split_and!; [by rewrite app_nil_r|lia|done| |lia|lia|done|].
  - by rewrite bool_decide_false by done.
  - destruct reason; try done; [by rewrite H3| |by apply H5]. by apply (over_budget_spec st false TermBudgetExceeded), H4.
Qed.

(** The first round, with what follows it. *)
Lemma refine_first left agent st l1 o l2 :
  (length (delegations l1) <= 1)%nat -> numbered agent (st_iteration st) (delegations l1) -> saved l1 = [] ->
  delegations l2 = [] -> sequential st (saved l2) -> (loop_store options = None -> saved l2 = []) ->
  match o with Ret res => ended (S left) st (l1 ++ l2) res | _ => True end ->
  refine_post (S left) agent st o (l1 ++ l2).
Proof.
  intros Hl Hn Hs1 Hd Hs Hnone Ho. unfold refine_post. rewrite delegations_app, saved_app, Hd, Hs1, app_nil_r.
  split_and!; [lia|done..].
Qed.

(** The state after a whole round. *)
Definition round_after (st : LoopState) (result result' : SubAgentResult) : LoopState :=
  rescored (accounted st (st_iteration st + 1) result) result'.

Lemma round_history st result result' : st_history (round_after st result result') = st_history st ++ [result'].
Proof. simpl. by rewrite removelast_last. Qed.

(** [st'] has one round more than [st], with the result [r]. *)
Definition one_more (st st' : LoopState) (r : SubAgentResult) : Prop :=
  st_iteration st' = st_iteration st + 1 /\ st_history st' = st_history st ++ [r] /\
  st_tokens st' = st_tokens st + default 0 (totalCount <$> tokens r) /\
  st_duration st' = st_duration st + default 0 (durationMs r).

Lemma ended_one left st st' ok reason r l :
  one_more st st' r -> ok = bool_decide (reason = TermSatisfied) ->
  (if succeeded r then verdict l 0 (st_iteration st + 1) r ok else reason = TermError) ->
  match reason with
  | TermSatisfied => succeeded r = true
  | TermError => succeeded r = false
  | TermMaxIterations => left = 0%nat
  | TermBudgetExceeded => over_budget st' = true
  | TermAborted => False
  end -> ended (S left) st l (finish st' ok reason).
Proof.
  intros (_ & Hh & Htk & Hdu) Hok Hv Hr. exists [r]. simpl. rewrite Hh, Htk, Hdu. unfold spent, lasted. simpl.
  split_and!; [done|lia|done|done|lia|lia| |].
  - intros [|j] r'; [|done]. intros [= <-]. unfold round_accounted. rewrite Z.add_0_r.
    destruct (succeeded r); [|by split]. exists ok. split; [done|]. rewrite Hok, bool_decide_eq_true. naive_solver.
  - destruct reason; [| |rewrite <- Htk, <- Hdu; by apply (over_budget_spec st' ok TermBudgetExceeded)|done|by exists r].
    + exists r. split_and!; [done|done|]. rewrite rev_app_distr. simpl. by rewrite Hr.
    + by rewrite Hr.
Qed.

Lemma sequential_save st st' cs agent source now :
  st_sequence st' = st_sequence st + 1 -> st_iteration st' = st_iteration st + 1 ->
  length (st_history st') = S (length (st_history st)) ->
  cs = [] \/ cs = [checkpoint_of agent st' source now] -> sequential st cs.
Proof.
  intros Hs Hi Hl [->| ->]; [done|]. intros [|k] c; [|done]. intros [= <-]. simpl. rewrite Hs, Hi, Hl. lia.
Qed.

(** A round that is followed by others. *)
Lemma refine_more left agent st st' rqs cs o l1 l2 result r :
  st_sequence st' = st_sequence st + 1 -> one_more st st' r ->
  succeeded r = true -> judged_once l1 (st_iteration st + 1) result r false ->
  delegations l1 = rqs -> (length rqs <= 1)%nat -> numbered agent (st_iteration st) rqs ->
  (length rqs = 1%nat \/ delegations l2 = []) ->
  saved l1 = cs -> (cs = [] /\ loop_store options = None \/
    loop_store options <> None /\ exists source now, cs = [checkpoint_of agent st' source now]) ->
  refine_post left agent st' o l2 -> refine_post (S left) agent st o (l1 ++ l2).
Proof.
  intros Hseq (Hit & Hh & Htk & Hdu) Hsu Hj Hd Hlen Hnum Hor Hs Hcs (Hl2 & Hn2 & Hs2 & Hnone & Ho).
  unfold refine_post. rewrite delegations_app, saved_app, Hd, Hs, length_app. split_and!.
  - lia.
  - destruct Hor as [H1|H2]; [|by rewrite H2, app_nil_r]. destruct rqs as [|rq [|]]; try done.
    intros [|k] rq'; simpl; [intros [= <-]; by apply (Hnum 0%nat)|]. intros Hk. destruct (Hn2 k rq' Hk) as [Ha Hid].
    split; [done|]. rewrite Hid, Hit. do 2 f_equal. lia.
  - destruct Hcs as [[-> Hst]|(_ & source & now & ->)]; [by rewrite Hnone|].
    intros [|k] c; simpl; [intros [= <-]|intros Hk].
    + simpl. rewrite Hseq, Hit, Hh, length_app. simpl. lia.
    + destruct (Hs2 k c Hk) as (H1 & H2 & H3). rewrite H1, H2, H3, Hseq, Hit, Hh, length_app. simpl. lia.
  - intros Hst. rewrite Hnone by done. destruct Hcs as [[-> _]|[Hne _]]; [done|congruence].
  - destruct o as [res|e|]; [|done..]. destruct Ho as (rs & Hrs & Hle & Hi & Hsat & Ht & Hu & Hall & Hend). exists (r :: rs).
    rewrite Hh, <- app_assoc in Hrs. unfold spent, lasted in *. simpl. split_and!; [done|lia|done|done|lia|lia| |].
    + intros [|j] r'; simpl.
      * intros [= <-]. unfold round_accounted. rewrite Hsu, Z.add_0_r. exists false. split; [by eapply judged_verdict|].
        split; [done|]. intros [Hreason Hn]. rewrite Hreason in Hend. destruct rs; [|done]. by destruct Hend as (? & ? & _).
      * intros Hj'. specialize (Hall j r' Hj'). unfold round_accounted in *. rewrite Hit in Hall.
        replace (st_iteration st + Z.of_nat (S j) + 1) with (st_iteration st + 1 + Z.of_nat j + 1) by lia.
        destruct (succeeded r'); [|naive_solver]. destruct Hall as (ok & Hv & Hok). exists ok.
        split; [by eapply verdict_later|]. rewrite Hok. naive_solver.
    + destruct (terminationReason res); try done.
      * destruct Hend as (x & Hx & ?). exists x. rewrite last_cons, Hx. done.
      * by rewrite Hend.
      * apply elem_of_app. by right.
      * destruct Hend as (x & Hx & ?). exists x. rewrite last_cons, Hx. done.
Qed.

(** Saving after a round. *)
Lemma save_round agent st st' r source ttl w :
  st_sequence st' = st_sequence st + 1 -> one_more st st' r ->
  wp (saveCheckpoint agent st' source ttl) w (fun o _ l =>
    (delegations l = [] /\ judgments l = []) /\ sequential st (saved l) /\ (loop_store options = None -> saved l = []) /\
    match o with
    | Ret _ => saved l = [] /\ loop_store options = None \/
               loop_store options <> None /\ exists source now, saved l = [checkpoint_of agent st' source now]
    | _ => True
    end).
Proof.
  intros Hs (Hi & Hh & _). eapply wp_mono; [apply save_wp|]. intros o w' l [Hd Hc].
  assert (exists now, saved l = [] \/ saved l = [checkpoint_of agent st' source now]) as (now & Hcs).
  { destruct Hc as [[Hc _]|(_ & now & Hc)]; [exists 0; by left|exists now; by right]. }
  split_and!; [apply Hd|apply Hd| | |].
  - eapply sequential_save; [done|done| |exact Hcs]. by rewrite Hh, length_app, Nat.add_1_r.
  - intros Hst. by destruct Hc as [[Hc _]|[Hn _]].
  - destruct o as [[]|e|]; [|done..]. destruct Hc as [[H4 [Hst|[]]]|(Hst & n & H4)]; [by left|right].
    split; [done|]. by exists source, n.
Qed.

(** What the first events of a round are. *)
Definition one_delegation (agent : string) (st : LoopState) (l1 : list event) : Prop :=
  (length (delegations l1) <= 1)%nat /\ numbered agent (st_iteration st) (delegations l1) /\ saved l1 = [].

Lemma delegated_once task st w :
  wp (delegate Delegated host DEFAULT_MAX_DELEGATION_DEPTH parentContext (round_task task st) (Some (st_iteration st + 1))
        (loop_active_signal task)) w (fun o _ l => (one_delegation (task_agentName task) st l /\ judgments l = []) /\
    match o with Ret r => succeeded r = true -> length (delegations l) = 1%nat | _ => True end).
Proof.
  eapply wp_mono; [apply delegate_wp|]. intros o w1 l [Hl Ho].
  split; [|destruct o as [r|e|]; [|done..]; destruct Ho as [_ Hne]; intros Hs%bool_decide_eq_true;
           destruct Hl as [->|(ps & rs & ->)]; [by destruct (Hne Hs)|done]].
  destruct Hl as [->|(ps & rs & ->)]; unfold one_delegation; simpl; (split_and!; [lia| |done|done]); [done|].
  intros [|k] rq; [|done]. intros [= <-]. simpl. by rewrite Z.add_0_r.
Qed.

(** The look at the signal before a round. *)
Lemma aborted_wp task w :
  wp (loop_aborted task) w (fun o _ l => silent l /\ exists a, o = Ret a /\ (a = true -> SignalRead true ∈ l)).
Proof.
  unfold loop_aborted. destruct (loop_active_signal task) as [sg|]; [|wp_step; split; [done|by exists false]].
  do 2 wp_step. do 3 wp_step. split; [done|]. eexists. split; [done|]. intros ->. by left.
Qed.

(** A round whose sub-agent failed. *)
Lemma failed_round left task st result l1 w :
  one_delegation (task_agentName task) st l1 -> succeeded result = false ->
  let st2 := sequenced (accounted st (st_iteration st + 1) result) (st_message st) in
  wp (saveCheckpoint (task_agentName task) st2 FromDefault (errorCheckpointTtlSeconds options) ;; ret (finish st2 false TermError)) w
    (fun o _ l => refine_post (S left) (task_agentName task) st o (l1 ++ l)).
Proof.
  intros (Hd1 & Hn1 & Hs1) Hsu st2. assert (one_more st st2 result) as Hmore by done. wp_step.
  eapply wp_mono; [by apply (save_round _ st _ result)|].
  intros o w2 l2 ([Hd2 _] & Hq2 & Hnone & _).
  destruct o as [[]|e|]; cbn [wp_cont]; [wp_step; rewrite app_nil_r|..]; apply refine_first; try done.
  eapply ended_one; [done|done| |done]. by rewrite Hsu.
Qed.

Lemma round_one_more st result r l ok :
  judged_once l (st_iteration st + 1) result r ok -> one_more st (round_after st result r) r.
Proof.
  intros (_ & _ & Ht & Hd)%judged_same. split_and!; [done|apply round_history|simpl; by rewrite Ht|simpl; by rewrite Hd].
Qed.

(** A round that did not satisfy, and the loop after it. *)
Lemma unsatisfied_round left task provider st result result' fb l1 w :
  one_delegation (task_agentName task) st l1 -> length (delegations l1) = 1%nat ->
  succeeded result' = true -> judged_once l1 (st_iteration st + 1) result result' false ->
  (forall st w, wp (refine left task provider st) w (fun o _ l => refine_post left (task_agentName task) st o l)) ->
  let st2 := round_after st result result' in
  wp (let* (message, source) := next_message provider fb result' (st_iteration st + 1) in
      let st3 := sequenced st2 message in
      saveCheckpoint (task_agentName task) st3 source (checkpointTtlSeconds options) ;;
      refine left task provider st3) w
    (fun o _ l => refine_post (S left) (task_agentName task) st o (l1 ++ l)).
Proof.
  intros (Hd1 & Hn1 & Hs1) Hone Hsu Hj IH st2.
  wp_step. eapply wp_mono; [apply next_silent|]. intros o w3 l3 (Hd3 & Hs3 & Hj3).
  destruct o as [[message source]|e|]; cbn [wp_cont]; [|apply refine_first; rewrite ?Hd3, ?Hs3; done..].
  assert (one_more st (sequenced st2 message) result') as Hnext by (by eapply round_one_more in Hj).
  wp_step. eapply wp_mono; [by apply (save_round _ st _ result')|]. intros o w4 l4 ([Hd4 Hj4] & Hq4 & Hnone4 & Ho).
  destruct o as [[]|e|]; cbn [wp_cont];
    [|apply refine_first; rewrite ?delegations_app, ?saved_app, ?Hd3, ?Hd4, ?Hs3; done..].
  eapply wp_mono; [apply IH|]. intros o w5 l5 H5. rewrite !app_assoc.
  eapply (refine_more _ _ st (sequenced st2 message) (delegations l1) (saved l4) _ _ _ result result');
    rewrite ?delegations_app, ?saved_app, ?Hd3, ?Hd4, ?Hs1, ?Hs3, ?app_nil_r; try done; [|by left].
  unfold judged_once in *. by rewrite !judgments_app, Hj3, Hj4, !app_nil_r.
Qed.

Lemma refine_wp left task provider st w :
  wp (refine left task provider st) w (fun o _ l => refine_post left (task_agentName task) st o l).
Proof.
  revert st w. induction left as [|left IH]; intros st w; cbn [refine].
  { wp_step. apply refine_stops; [done|done|]. by apply ended_now. }
  wp_step. eapply wp_mono; [apply aborted_wp|]. intros o w0 l0 [(Hd0 & Hs0 & Hj0) (a & -> & Ha)]. cbn [wp_cont].
  destruct a.
  { wp_step. rewrite app_nil_r. apply refine_stops; [done|done|]. apply ended_now; try done. intros _. by apply Ha. }
  destruct (over_budget st) eqn:Hob. { wp_step. rewrite app_nil_r. apply refine_stops; [done|done|]. by apply ended_now. }
  wp_step. eapply wp_mono; [apply delegated_once|]. intros o w1 l1' [[Hdel Hj1] Hone]. set (l1 := l0 ++ l1').
  assert (one_delegation (task_agentName task) st l1) as Hdel1.
  { unfold one_delegation, l1. by rewrite delegations_app, saved_app, Hd0, Hs0. }
  assert (judgments l1 = [] /\ delegations l1 = delegations l1') as [Hj Hdeq].
  { unfold l1. by rewrite judgments_app, delegations_app, Hj0, Hj1, Hd0. }
  pose proof Hdel1 as (Hd1 & Hn1 & Hs1).
  destruct o as [result|e|]; cbn [wp_cont]; [|fold l1; rewrite <- (app_nil_r l1); by apply refine_first..].
  eapply wp_mono with (P := fun o _ l => refine_post (S left) (task_agentName task) st o (l1 ++ l));
    [|intros o w' l H; unfold l1 in H; by rewrite <- app_assoc in H].
  rewrite <- Hdeq in Hone. clearbody l1. clear l0 l1' Hd0 Hs0 Hj0 Ha Hdel Hj1 Hdeq.
  destruct (succeeded result) eqn:Hsu; cbn [negb]; [|by apply (failed_round left task st result l1)].
  wp_step. eapply wp_mono; [apply evaluate_wp|]. intros o w2 l2 [[Hd2 Hs2] Hr].
  destruct o as [[[ok result'] fb]|e|]; cbn [wp_cont]; [|apply refine_first; rewrite ?Hd2, ?Hs2; done..].
  change (rescored (accounted st (st_iteration st + 1) result) result') with (round_after st result result').
  assert (judged_once (l1 ++ l2) (st_iteration st + 1) result result' ok) as Hjd
    by (unfold judged_once in *; by rewrite judgments_app, Hj).
  assert (succeeded result' = true) as Hsu' by (by destruct (judged_same _ _ _ _ _ Hr) as (-> & _)).
  pose proof (round_one_more st result result' _ _ Hjd) as Hmore.
  assert (forall l3 reason, ok = bool_decide (reason = TermSatisfied) -> delegations l3 = [] -> saved l3 = [] ->
    match reason with TermSatisfied => True | TermMaxIterations => left = 0%nat
    | TermBudgetExceeded => over_budget (round_after st result result') = true | _ => False end ->
    refine_post (S left) (task_agentName task) st (Ret (finish (round_after st result result') ok reason)) (l1 ++ l2 ++ l3)) as Hfin.
  { intros l3 reason Hok Hd3 Hs3 Hre. apply refine_first; rewrite ?delegations_app, ?saved_app, ?Hd2, ?Hs2, ?Hd3, ?Hs3; try done.
    eapply ended_one; [exact Hmore|exact Hok| |destruct reason; try done]. rewrite Hsu'.
    rewrite app_assoc. by eapply judged_verdict. }
  destruct ok.
  { wp_step. eapply wp_mono; [apply delete_silent|]. intros o w3 l3 (Hd3 & Hs3 & _).
    destruct o as [[]|e|]; cbn [wp_cont]; [wp_step; rewrite app_nil_r; by apply Hfin|..];
      (apply refine_first; rewrite ?delegations_app, ?saved_app, ?Hd2, ?Hs2, ?Hd3, ?Hs3; done). }
  destruct (over_budget (round_after st result result')) eqn:Hob'; [wp_step; by apply Hfin|].
  destruct left as [|left']; [wp_step; by apply Hfin|].
  eapply wp_mono; [apply (unsatisfied_round _ _ _ st result result' fb (l1 ++ l2)); [| |done|done|exact IH]|].
  - unfold one_delegation. by rewrite delegations_app, saved_app, Hd2, Hs2, !app_nil_r.
  - rewrite delegations_app, Hd2, app_nil_r. by apply Hone.
  - intros o w3 l3 H. rewrite app_assoc. exact H.
Qed.

(** ** Under the lock *)

(** With a store, what was delegated was delegated under the lock. *)
Definition locked (agent : string) (l : list event) : Prop :=
  loop_store options <> None -> delegations l <> [] ->
  exists id rest, l = LockTaken (lockKey agent) id (lockTtlSeconds options) :: rest.

Lemma acquire_wp agent w :
  wp (acquireLock agent) w (fun o _ l => silent l /\
    match o with
    | Ret _ => loop_store options = None /\ l = [] \/ exists id, l = [LockTaken (lockKey agent) id (lockTtlSeconds options)]
    | _ => True
    end).
Proof.
  unfold acquireLock, already_running. destruct (loop_store options) as [store|]; [|wp_step; split; [done|by left]].
  do 2 wp_step. assert (exists id, o = Ret id) as [id ->] by (destruct (random_id w); simplify_eq; by eexists). simpl.
  destruct (setIfNotExists store) as [claim|].
  - do 2 wp_step. destruct o as [[]|e|]; cbn [wp_cont]; [| |done..].
    + do 2 wp_step. wp_step. split; [done|]. right. by exists id.
    + by wp_step.
  - do 2 wp_step. destruct o as [existing|e|]; cbn [wp_cont]; [|done..].
    destruct (truthy_opt existing); [by wp_step|].
    do 2 wp_step. destruct o as [[]|e|]; cbn [wp_cont]; [|done..].
    do 2 wp_step. wp_step. split; [done|]. right. by exists id.
Qed.

Lemma release_wp agent id w : wp (releaseLock agent id) w (fun _ _ l => silent l).
Proof.
  unfold releaseLock. destruct (loop_store options) as [store|]; [|by wp_step]. destruct (truthy_opt id); [|by wp_step].
  wp_step. do 2 wp_step. destruct o as [current|e|]; cbn [wp_cont]; [|by wp_step|done].
  destruct (bool_decide (current = id)); [|by wp_step].
  do 2 wp_step. wp_step. by destruct o; [|wp_step|].
Qed.

Lemma refine_post_more left agent st o l1 l2 l3 :
  silent l1 -> silent l3 -> refine_post left agent st o l2 -> refine_post left agent st o (l1 ++ l2 ++ l3).
Proof.
  intros (Hd1 & Hs1 & Hj1) (Hd3 & Hs3 & Hj3) (H1 & H2 & H3 & H4 & Ho). unfold refine_post.
  rewrite !delegations_app, !saved_app, Hd1, Hs1, Hd3, Hs3, !app_nil_r. split_and!; try done.
  destruct o as [res|e|]; [|done..]. destruct Ho as (rs & R1 & R2 & R3 & R4 & R5 & R6 & R7 & R8). exists rs.
  split_and!; try done.
  - intros j r Hj. specialize (R7 j r Hj). revert R7. unfold round_accounted. destruct (succeeded r); [|done].
    intros (ok & Hv & Hok). exists ok. split; [|done]. revert Hv. unfold verdict.
    by rewrite !judgments_app, Hj1, Hj3, app_nil_r.
  - destruct (terminationReason res); try done. set_solver.
Qed.

Lemma locked_refine_wp agent task provider st w :
  task_agentName task = agent ->
  wp (lockId <- acquireLock agent ;; with_lock agent lockId (execute task provider st)) w (fun o _ l =>
    refine_post (Z.to_nat (maxIterations options - st_iteration st)) agent st o l /\ locked agent l).
Proof.
  intros Hag. wp_step. eapply wp_mono; [apply acquire_wp|]. intros o w1 l1 [Hsil Hlock].
  destruct o as [id|e|]; cbn [wp_cont];
    [|destruct Hsil as (Hd & Hs & _); split; [by apply refine_stops|by intros _ Hne]..].
  assert (forall l, locked agent (l1 ++ l)) as Hlk.
  { intros l Hst _. destruct Hlock as [[Hn _]|(i & ->)]; [done|]. by exists i, l. }
  unfold with_lock. do 2 wp_step. eapply wp_mono; [apply refine_wp|]. intros o w2 l2 Hr. rewrite Hag in Hr.
  assert (forall o' l3, (match o' with Ret res => o = Ret res | _ => True end) -> silent l3 ->
    refine_post (Z.to_nat (maxIterations options - st_iteration st)) agent st o' (l1 ++ l2 ++ l3)) as Hend.
  { intros o' l3 Ho Hl3. apply refine_post_more; [done|done|]. destruct Hr as (H1 & H2 & H3 & H4 & H5).
    split_and!; try done. destruct o' as [res|e|]; [|done..]. by rewrite Ho in H5. }
  destruct o as [res|e|]; cbn [wp_cont].
  - wp_step. eapply wp_mono; [apply release_wp|]. intros o w3 l3 Hl3. destruct o as [[]|e|]; cbn [wp_cont].
    + wp_step. rewrite app_nil_r. split; [by apply Hend|apply Hlk].
    + split; [by apply Hend|apply Hlk].
    + split; [by apply Hend|apply Hlk].
  - wp_step. eapply wp_mono; [apply release_wp|]. intros o w3 l3 Hl3. destruct o as [[]|e'|]; cbn [wp_cont].
    + wp_step. rewrite app_nil_r. split; [by apply Hend|apply Hlk].
    + split; [by apply Hend|apply Hlk].
    + split; [by apply Hend|apply Hlk].
  - split; [|apply Hlk]. rewrite <- (app_nil_r l2). by apply Hend.
Qed.

(** ** Tokens *)

(** A run that returns has used no more tokens than it was allowed: what the limits
    of an execution mean. *)
Definition keeps_token_limit : Prop :=
  forall rq w out lim l, (runner_run host rq w).1 = Ret out -> rq_limits rq = Some lim ->
    maxTotalTokens lim = Some l -> default 0 (totalCount <$> (token_counts <$> res_usage (run_result out))) <= l.

Lemma bounded_limit_other key key' remaining o :
  key <> key' -> prop (bounded_limit key remaining o) key' = prop (Some (default [] o)) key'.
Proof. intros Hne. unfold bounded_limit. rewrite prop_set. by rewrite bool_decide_false. Qed.

Lemma prop_default o k : prop (Some (default [] o)) k = prop o k.
Proof. by destruct o. Qed.

(** The token limit of a round is at most what the budget leaves. *)
Lemma round_token_limit task st b :
  token_budget = Some b ->
  exists lim l, narrowing (round_task task st) ≫= limits = Some lim /\ maxTotalTokens lim = Some l /\
    l <= Z.max 0 (b - st_tokens st).
Proof.
  intros Hb. unfold round_limits, round_task. simpl.
  assert (exists o l, round_limits task st = Some o /\ prop (Some o) "maxTotalTokens" ≫= as_int = Some l /\
    l <= Z.max 0 (b - st_tokens st)) as (o & l & Ho & Hl & Hle).
  { unfold round_limits. rewrite Hb. set (own := narrowing task ≫= limits_object).
    set (tk := bounded_limit "maxTotalTokens" (Z.max 0 (b - st_tokens st)) own).
    assert (exists l, prop tk "maxTotalTokens" ≫= as_int = Some l /\ l <= Z.max 0 (b - st_tokens st)) as (l & Hl & Hle).
    { unfold tk, bounded_limit. rewrite prop_set, bool_decide_true by done. simpl.
      eexists. split; [done|]. destruct (nonzero _); lia. }
    destruct time_budget as [t|].
    - eexists _, l. split_and!; [done| |done].
      change (Some (obj_set (default [] tk) "timeoutMs" ?v)) with (bounded_limit "timeoutMs" (Z.max 0 (t - st_duration st)) tk).
      rewrite bounded_limit_other by done. by rewrite prop_default.
    - by exists (obj_set (default [] own) "maxTotalTokens"
        (VNum (num_of_Z (match nonzero (prop own "maxTotalTokens" ≫= as_int) with
                         | Some l => Z.min l (Z.max 0 (b - st_tokens st)) | None => Z.max 0 (b - st_tokens st) end)))), l. }
  unfold limits, limits_object. rewrite prop_set, bool_decide_true by done. rewrite Ho. simpl.
  do 2 eexists. split_and!; [done|exact Hl|done].
Qed.

Lemma delegate_tokens task st w b :
  keeps_token_limit -> token_budget = Some b -> st_tokens st < b ->
  wp (delegate Delegated host DEFAULT_MAX_DELEGATION_DEPTH parentContext (round_task task st) (Some (st_iteration st + 1))
        (loop_active_signal task)) w (fun o _ _ =>
    match o with Ret r => st_tokens st + default 0 (totalCount <$> tokens r) <= b | _ => True end).
Proof.
  intros Hk Hb Hlt. unfold delegate. do 2 wp_step.
  destruct (plan _ _ _ _ _ _) as [r|e|rq] eqn:Hp; [wp_step|by wp_step|].
  - assert (tokens r = None) as ->; [|simpl; lia]. unfold plan in Hp.
    destruct (match activeSignal _ _ _ with Some _ => _ | None => _ end); [by simplify_eq|].
    destruct (_ <? _); [done|]. destruct (narrow_rights "permissions" _ _); [done|].
    by destruct (narrow_rights "roles" _ _).
  - apply plan_run in Hp as (ps & rs & -> & _). do 2 wp_step. do 2 wp_step. do 3 wp_step.
    destruct o as [out|e|]; simpl; [do 3 wp_step|do 3 wp_step; simpl; lia|done].
    destruct (round_token_limit task st b Hb) as (lim & l & Hlim & Hl & Hle).
    pose proof (Hk _ w out lim l ltac:(by rewrite Hext) Hlim Hl). simpl. lia.
Qed.

Lemma refine_tokens left task provider st w b :
  keeps_token_limit -> token_budget = Some b -> st_tokens st <= b ->
  wp (refine left task provider st) w (fun o _ _ => match o with Ret res => totalTokens res <= b | _ => True end).
Proof.
  intros Hk Hb. revert st w. induction left as [|left IH]; intros st w Hle; cbn [refine]; [by wp_step|].
  wp_step. eapply wp_mono; [apply aborted_wp|]. intros o w0 l0 [_ (a & -> & _)]. cbn [wp_cont]. destruct a; [by wp_step|].
  destruct (over_budget st) eqn:Hob; [by wp_step|].
  assert (st_tokens st < b) as Hlt.
  { unfold over_budget in Hob. rewrite Hb in Hob. apply orb_false_iff in Hob as [H _]. by apply Z.leb_gt in H. }
  wp_step. eapply wp_mono; [by eapply delegate_tokens|]. intros o w1 l1 Ho.
  destruct o as [result|e|]; cbn [wp_cont]; [|done..].
  assert (forall A (m : M A) (k : A -> M RefinementLoopResult) w',
    (forall a w'', wp (k a) w'' (fun o _ _ => match o with Ret res => totalTokens res <= b | _ => True end)) ->
    wp (bind m k) w' (fun o _ _ => match o with Ret res => totalTokens res <= b | _ => True end)) as Hbind.
  { intros A m k w' Hk'. wp_step. apply run_wp. intros o w2 l2 _. destruct o as [a|e|]; cbn [wp_cont]; [apply Hk'|done..]. }
  destruct (succeeded result); cbn [negb]; [|apply Hbind; intros _ w2; by wp_step].
  apply Hbind. intros [[ok result'] fb] w2. destruct ok; [apply Hbind; intros _ w3; by wp_step|].
  destruct (over_budget (rescored (accounted st (st_iteration st + 1) result) result')); [by wp_step|]. destruct left as [|left']; [by wp_step|].
  apply Hbind. intros [message source] w3. apply Hbind. intros _ w4. by apply IH.
Qed.

End Refinement.
Arguments LoopStore : clear implicits.
Arguments RefinementLoopOptions : clear implicits.
Arguments FeedbackProvider : clear implicits.

Section Theorems.
Context {W : Type} (options : RefinementLoopOptions W) (host : DelegationHost W) (random_id : W -> string * W)
  (parentContext : AgentContext).

(** C24. A refinement loop is bounded and accounted for: it delegates at most
    [maxIterations] times, the k-th time to the loop's agent in the session of
    iteration k, and with a store only after it took the lock. Its checkpoints count
    up from 1 with the iterations, each with the history so far. What it returns has
    one history entry for each round, and the tokens and the time of them. Every
    successful round was judged, by the evaluator's answer to the result of that round or
    else by the quality threshold, and the loop ended as satisfied exactly on the round
    that was judged so; it ended in error exactly on a failed round, for the budget only
    when one is used up, for the iterations only when all have run, and as aborted only
    when it found the signal aborted. *)
Theorem refinement_is_bounded (task : SubAgentTask) (provider : option (FeedbackProvider W)) (w : W) :
  wp (run options host random_id parentContext task provider) w (fun o _ l =>
    (length (delegations l) <= Z.to_nat (maxIterations options))%nat /\
    (forall k rq, delegations l !! k = Some rq -> rq_agent rq = task_agentName task /\
       rq_sessionId rq = subSessionId parentContext (task_agentName task) (Some (Z.of_nat k + 1))) /\
    (loop_store options <> None -> delegations l <> [] ->
       exists id rest, l = LockTaken (lockKey parentContext (task_agentName task)) id (lockTtlSeconds options) :: rest) /\
    (forall k c, saved l !! k = Some c -> checkpointSequence c = Z.of_nat k + 1 /\ cp_iteration c = Z.of_nat k + 1 /\
       length (cp_history c) = S k) /\
    match o with
    | Ret res =>
        (length (history res) <= Z.to_nat (maxIterations options))%nat /\
        iterations res = Z.of_nat (length (history res)) /\
        satisfied res = bool_decide (terminationReason res = TermSatisfied) /\
        totalTokens res = spent (history res) /\ totalDurationMs res = lasted (history res) /\
        (forall j r, history res !! j = Some r ->
           round_accounted options l (terminationReason res) (length (history res)) j (Z.of_nat j + 1) r) /\
        match terminationReason res with
        | TermSatisfied => exists r, last (history res) = Some r /\ succeeded r = true /\ finalResponse res = response r
        | TermError => exists r, last (history res) = Some r /\ succeeded r = false
        | TermMaxIterations => length (history res) = Z.to_nat (maxIterations options)
        | TermBudgetExceeded => (exists b, token_budget options = Some b /\ b <= totalTokens res) \/
                                (exists b, time_budget options = Some b /\ b <= totalDurationMs res)
        | TermAborted => SignalRead true ∈ l
        end
    | _ => True
    end).
Proof.
  unfold run. eapply wp_mono; [by apply locked_refine_wp|]. intros o w' l [(Hd & Hn & Hs & _ & Ho) Hl].
  rewrite Z.sub_0_r in *. split_and!; [done| |done| |].
  - intros k rq Hk. destruct (Hn k rq Hk) as [H1 H2]. split; [done|exact H2].
  - intros k c Hk. destruct (Hs k c Hk) as (H1 & H2 & H3). simpl in *. lia.
  - destruct o as [res|e|]; [|done..]. destruct Ho as (rs & Hrs & Hle & Hi & Hsat & Ht & Hu & Hall & Hend).
    simpl in Hrs, Ht, Hu. subst rs. split_and!; try done; by apply Hall.
Qed.

(** A resumed loop goes on where the checkpoint stopped: only for a checkpoint of
    the supported version, and of a loop with a feedback provider only with one;
    otherwise it throws before the lock is even asked for. It keeps the history of the
    checkpoint, numbers its iterations and sequences after it, and runs no more rounds
    than were left. *)
Theorem resume_continues_the_loop (c : RefinementLoopCheckpoint) (provider : option (FeedbackProvider W)) (w : W) :
  let left := Z.to_nat (maxIterations options - cp_iteration c) in
  (cp_version c <> 1 \/ feedbackSource c = FromProvider /\ provider = None ->
     exists e, resume options host random_id parentContext c provider w = (Throw (orchestration_throw e), w, [])) /\
  wp (resume options host random_id parentContext c provider) w (fun o _ l =>
    (length (delegations l) <= left)%nat /\
    (forall k rq, delegations l !! k = Some rq ->
       rq_sessionId rq = subSessionId parentContext (cp_agentName c) (Some (cp_iteration c + Z.of_nat k + 1))) /\
    (forall k c', saved l !! k = Some c' -> checkpointSequence c' = checkpointSequence c + Z.of_nat k + 1 /\
       cp_iteration c' = cp_iteration c + Z.of_nat k + 1) /\
    match o with
    | Ret res => take (length (cp_history c)) (history res) = cp_history c /\
        (length (history res) <= length (cp_history c) + left)%nat
    | _ => True
    end).
Proof.
  intros left. split.
  - unfold resume. intros [H|[H1 H2]].
    + destruct (Z.eqb_spec (cp_version c) 1); [done|]. simpl. by eexists.
    + destruct (Z.eqb_spec (cp_version c) 1); simpl; [|by eexists]. rewrite H2, bool_decide_true by done. simpl. by eexists.
  - unfold resume.
    destruct (negb (cp_version c =? 1)); [wp_step; split_and!; [simpl; lia|done..]|].
    destruct (bool_decide _ && _); [wp_step; split_and!; [simpl; lia|done..]|].
    eapply wp_mono; [by apply locked_refine_wp|]. intros o w' l [(Hd & Hn & Hs & _ & Ho) _]. split_and!; [done| | |].
    + intros k rq Hk. by destruct (Hn k rq Hk).
    + intros k c' Hk. destruct (Hs k c' Hk) as (H1 & H2 & _). done.
    + destruct o as [res|e|]; [|done..]. destruct Ho as (rs & Hrs & Hle & _). simpl in *. rewrite Hrs.
      split; [apply take_app_length|]. rewrite length_app. unfold left. lia.
Qed.

(** The token budget holds: if a run that returns has kept its token limit, a loop
    that starts within its budget never uses more than it, whatever limits the task
    asks for itself - each round is given no more than what is left. *)
Theorem token_budget_holds (task : SubAgentTask) (provider : option (FeedbackProvider W)) st w b
    (Hkeeps : keeps_token_limit host) (Hbudget : token_budget options = Some b) (Hstart : st_tokens st <= b) :
  wp (execute options host parentContext task provider st) w (fun o _ _ =>
    match o with Ret res => totalTokens res <= b | _ => True end).
Proof. by apply refine_tokens. Qed.

End Theorems.

(** ** Concrete loops *)

Module Demo.

Definition ctx : AgentContext := {|
  security := {| userId := None; tenantId := Some "acme"; roles := None; permissions := None |};
  ctx_sessionId := "s"; ctx_traceId := "t"; ctx_parentTraceId := None; ctx_rootTraceId := None;
  ctx_data := None; ctx_signal := false; deadline := None |}.

(** The world: the store's two keys of one loop, and the answers to come, each with
    the tokens it used. *)
Record world : Type := { w_lock : option string; w_checkpoint : option RefinementLoopCheckpoint; w_answers : list (option (string * Z)) }.

Definition answer_of (a : option (string * Z)) : outcome error RunOutcome :=
  match a with
  | Some (text, used) =>
      Ret {| run_result := {| res_sessionId := ""; res_output := text; res_toolCalls := [];
                              res_usage := Some {| Types.inputTokens := None; Types.outputTokens := None; Types.totalTokens := Some used |};
                              res_durationMs := None; res_structured := None |}; run_score := None |}
  | None => Throw (NativeErr "Error" "boom")
  end.

Definition answers_run (rq : RunRequest) (w : world) : outcome error RunOutcome * world :=
  match w_answers w with
  | a :: rest => (answer_of a, {| w_lock := w_lock w; w_checkpoint := w_checkpoint w; w_answers := rest |})
  | [] => (Throw (NativeErr "Error" "no answer"), w)
  end.

Definition host : DelegationHost world :=
  {| signal_aborted := fun _ _ => false; clock := fun _ => 0; runner_run := answers_run |}.

Definition store : LoopStore world := {|
  get_lock := fun _ w => (Ret (w_lock w), w);
  set_lock := fun _ id _ w => (Ret tt, {| w_lock := Some id; w_checkpoint := w_checkpoint w; w_answers := w_answers w |});
  setIfNotExists := Some (fun _ id _ w =>
    match w_lock w with
    | Some _ => (Ret false, w)
    | None => (Ret true, {| w_lock := Some id; w_checkpoint := w_checkpoint w; w_answers := w_answers w |})
    end);
  delete_key := fun k w =>
    (Ret tt, if starts_with "agentic:refinement:lock:" k
             then {| w_lock := None; w_checkpoint := w_checkpoint w; w_answers := w_answers w |}
             else {| w_lock := w_lock w; w_checkpoint := None; w_answers := w_answers w |});
  get_checkpoint := fun _ w => (Ret (w_checkpoint w), w);
  set_checkpoint := fun _ c _ w => (Ret tt, {| w_lock := w_lock w; w_checkpoint := Some c; w_answers := w_answers w |});
|}.

(** Only the answer "good" satisfies. *)
Definition options (b : option Budget) : RefinementLoopOptions world :=
  mk_options None None None (Some (fun r _ w => (Ret (EvalBoolean (bool_decide (response r = "good"))), w))) b
    (Some store) None None None.

Definition id (w : world) : string * world := ("abc", w).

Definition task : SubAgentTask := {|
  task_agentName := "writer"; task_message := "write"; narrowing := Some [("deniedTools", strings ["shell"])];
  task_data := None; task_signal := None |}.

Definition start (answers : list (option (string * Z))) : world :=
  {| w_lock := None; w_checkpoint := None; w_answers := answers |}.

Definition go (answers : list (option (string * Z))) := run (options None) host id ctx task None (start answers).

(** A second round satisfies. *)
Example second_round_satisfies :
  match go [Some ("draft", 10); Some ("good", 20)] with
  | (Ret res, w, _) => satisfied res = true /\ iterations res = 2 /\ totalTokens res = 30 /\ finalResponse res = "good" /\
      w_lock w = None /\ w_checkpoint w = None
  | _ => False
  end.
Proof. vm_compute. split_and!; reflexivity. Qed.

(** A failed loop leaves its checkpoint, and the next run of the same loop is refused
    when it saves its own first one. *)
Definition after_failure : world := (go [None]).1.2.

Example leftover_checkpoint_blocks_a_new_run :
  (run (options None) host id ctx task None
     {| w_lock := w_lock after_failure; w_checkpoint := w_checkpoint after_failure; w_answers := [Some ("draft", 10)] |}).1.1 =
  Throw (orchestration_throw (RefinementCheckpointConflictError (checkpointKey ctx "writer") 1 1)).
Proof. vm_compute. reflexivity. Qed.

(** The narrowing of a task is gone when its loop is resumed. *)
Definition narrowing_of (l : list event) : list (option CapabilityNarrowing) :=
  map (fun rq => capabilityNarrowing (child_context rq "" None)) (delegations l).

Definition denies_shell (n : option CapabilityNarrowing) : bool :=
  bool_decide (n ≫= deniedTools = Some ["shell"]).

Example resume_drops_narrowing :
  let '(_, w, l) := go [None] in
  map denies_shell (narrowing_of l) = [true] /\
  match w_checkpoint w with
  | Some c => let '(_, _, l2) := resume (options None) host id ctx c None (start [Some ("good", 1)]) in
              map denies_shell (narrowing_of l2) = [false]
  | None => False
  end.
Proof. vm_compute. split; reflexivity. Qed.

(** A host whose runs use no tokens keeps every limit there is. *)
Definition quiet_host : DelegationHost world := {|
  signal_aborted := fun _ _ => false; clock := fun _ => 0;
  runner_run := fun rq w =>
    match rq_limits rq ≫= maxTotalTokens with
    | Some l => ((if 5 <=? l then answer_of (Some ("draft", 5)) else Throw (NativeErr "Error" "limit")), w)
    | None => (answer_of (Some ("draft", 5)), w)
    end |}.

Lemma quiet_keeps : keeps_token_limit quiet_host.
Proof.
  intros rq w out lim l Hr Hlim Hl. simpl in Hr. rewrite Hlim in Hr. simpl in Hr. rewrite Hl in Hr.
  destruct (Z.leb_spec 5 l); simpl in Hr; [|done]. injection Hr as <-. simpl. lia.
Qed.

Definition twelve : Budget := {| maxTotalTokensBudget := Some 12; maxTotalTimeMs := None |}.

End Demo.

Lemma token_budget_holds_witness :
  wp (execute (Demo.options (Some Demo.twelve)) Demo.quiet_host Demo.ctx Demo.task None (start_state Demo.task)) (Demo.start [])
    (fun o _ _ => match o with Ret res => totalTokens res <= 12 | _ => True end).
Proof.
  apply (token_budget_holds (Demo.options (Some Demo.twelve)) Demo.quiet_host Demo.ctx Demo.task None (start_state Demo.task)
    (Demo.start []) 12).
  - exact Demo.quiet_keeps.
  - reflexivity.
  - discriminate.
Defined.

End Refinement.
