(* ===== verification/Debate.v ===== *)
(** * Consensus debates (packages/orchestration/src/runners/debate.runner.ts)

    Rounds of debaters run in parallel, each round shown the arguments of the one
    before, until their scores converge.  The debate is proved against what a
    parallel runner promises, the class [FanOutRunner]; one instance runs the tasks
    in order, and FanOut.v proves the same promise for every interleaving. *)

From Stdlib Require Import Ascii.
From S2P Require Export FanOut Sanitizer.

#[local] Open Scope string_scope.
#[local] Open Scope list_scope.
#[local] Open Scope Z_scope.
#[local] Open Scope eff_scope.

Module Debate.
Import ScopeKey Orchestration Delegation Consensus Parallel.

(** ** The interface of the parallel runner *)

Section Interface.
Context (W E : Type).

(** One result for each task, in order, whatever happened. *)
Class FanOutRunner : Type := {
  fan_out : ParallelRunnerOptions -> AgentContext -> list SubAgentTask -> M error E W ParallelRunResult;
  fan_out_owned : forall options ctx tasks w,
    aggregationStrategy options = ConsensusMerge ->
    wp (fan_out options ctx tasks) w (fun o _ _ =>
      match o with Ret res => Forall2 (owned options) tasks (results res) | _ => True end);
}.
End Interface.
Arguments fan_out {W E _} _ _ _.

Section InOrder.
Context {W E : Type} (inject : RunRequest -> E) (host : RaceHost W).

Fixpoint each_in_order (options : ParallelRunnerOptions) (ctx : AgentContext) (tasks : list SubAgentTask)
    : M error E W (list SubAgentResult) :=
  match tasks with
  | [] => ret []
  | task :: rest =>
      r <- exec options inject host ctx (executeWithRetry options task (par_signal options)) ;;
      rs <- each_in_order options ctx rest ;;
      ret (r :: rs)
  end.

(** The fan-out in one of its orders: each task to its end before the next. *)
Definition fan_out_in_order (options : ParallelRunnerOptions) (ctx : AgentContext) (tasks : list SubAgentTask)
    : M error E W ParallelRunResult :=
  rs <- each_in_order options ctx tasks ;; lift (fun w => (finish options rs, w)).

Definition run_in_order (options : ParallelRunnerOptions) (ctx : AgentContext) (tasks : list SubAgentTask)
    : M error E W ParallelRunResult :=
  Parallel.run options inject host ctx (fan_out_in_order options ctx) (fan_out_in_order options ctx) tasks.

Lemma each_in_order_wp options ctx tasks w :
  wp (each_in_order options ctx tasks) w (fun o _ _ =>
    match o with Ret rs => Forall2 (owned options) tasks rs | _ => True end).
Proof.
  revert w. induction tasks as [|task rest IH]; intros w; cbn [each_in_order]; [by wp_step|].
  wp_step. eapply wp_mono; [by eapply exec_conducts, retry_conducts|]. intros o w1 l1 [_ Ho].
  destruct o as [r|e|]; cbn [wp_cont]; [|done..].
  wp_step. eapply wp_mono; [apply IH|]. intros o w2 l2 Ho2. destruct o as [rs|e|]; cbn [wp_cont]; [|done..].
  wp_step. by constructor.
Qed.

Lemma run_in_order_owned options ctx tasks w :
  aggregationStrategy options = ConsensusMerge ->
  wp (run_in_order options ctx tasks) w (fun o _ _ =>
    match o with Ret res => Forall2 (owned options) tasks (results res) | _ => True end).
Proof.
  intros Hst. unfold run_in_order, Parallel.run. destruct tasks as [|t ts]; [by wp_step|].
  do 2 wp_step. destruct (is_aborted _ _ _).
  { wp_step. change (Forall2 (owned options) (t :: ts) (map (fun t => aborted_result (task_agentName t)) (t :: ts))).
    apply aborted_owned. }
  rewrite Hst. unfold fan_out_in_order. wp_step. eapply wp_mono; [apply each_in_order_wp|]. intros o w1 l1 Ho.
  destruct o as [rs|e|]; cbn [wp_cont]; [|done..]. wp_step. destruct o as [res|e|]; [|done..].
  injection Hext as Hf _. apply FanOut.finish_results in Hf as (-> & _). done.
Qed.

#[global] Instance in_order_runner : FanOutRunner W E :=
  {| fan_out := run_in_order; fan_out_owned := run_in_order_owned |}.
End InOrder.

(** ** Data *)

Record DebaterConfig : Type := { debater_agentName : string; debater_narrowing : option CapabilityNarrowing }.

Record DebateRound : Type := { roundNumber : Z; round_results : list SubAgentResult; round_score : ratio }.

Record DebateOptions : Type := {
  maxRounds : Z;
  debate_threshold : num;
  debate_timeoutMs : Z;
  retriesPerDebater : Z;
  debate_concurrency : option Z;
  debate_signal : option AbortSignal;
  transcriptFormatterFn : option (DebateRound -> outcome error string);
}.

(** The [options] of the constructor, absent ones defaulted. *)
Definition mk_options (rounds : option Z) (threshold : option num) (timeout retries concurrency : option Z)
    (signal : option AbortSignal) (formatter : option (DebateRound -> outcome error string)) : DebateOptions := {|
  maxRounds := default 3 rounds; debate_threshold := default (NDec 7 (-1)) threshold;
  debate_timeoutMs := default 30000 timeout; retriesPerDebater := default 1 retries;
  debate_concurrency := concurrency; debate_signal := signal; transcriptFormatterFn := formatter |}.

Inductive DebateTermination : Type := DebateConsensus | DebateMaxRounds | DebateAborted.
#[export] Instance debate_termination_eq_dec : EqDecision DebateTermination.
Proof. solve_decision. Defined.

Record DebateRunResult : Type := {
  finalResponse : string;
  winner : string;
  rounds : list DebateRound;
  debate_score : option ratio;
  requiresHumanReview : bool;
  terminationReason : DebateTermination;
}.

(** ** Scores and transcripts *)

(** A missing score counts as 0.5. *)
Definition bounded_score (r : SubAgentResult) : ratio :=
  match score r with Some s => clamp (of_num s) | None => RQ (1 # 2) end.

Definition calculateConsensusScore (rs : list SubAgentResult) : ratio :=
  match List.filter succeeded rs with
  | [] => RQ 0
  | [r] => match score r with Some s => of_num s | None => RQ 1 end
  | successful => convergence (map bounded_score successful)
  end.

Definition unknown_result : SubAgentResult := {|
  agentName := "unknown"; status := StatusFailed; response := ""; toolCount := 0; result_error := None; score := None;
  tokens := None; durationMs := None |}.

Definition pickWinner (rs : list SubAgentResult) : SubAgentResult :=
  match List.filter succeeded rs with
  | [] => default unknown_result (head rs)
  | first :: rest => best_of first rest
  end.

(** A closing tag of the transcript at the front of a text, whatever its case: its
    name as written and what follows. *)
Definition closing_tag (l : list ascii) : option (list ascii * list ascii) :=
  match Sanitizer.strip_ci (chars "</") l with
  | None => None
  | Some r =>
      match Sanitizer.strip_ci (chars "debater>") r with
      | Some r' => Some (take 7 r, r')
      | None =>
          match Sanitizer.strip_ci (chars "debate_round>") r with
          | Some r' => Some (take 12 r, r')
          | None => None
          end
      end
  end.

Fixpoint escape_closing (fuel : nat) (l : list ascii) : list ascii :=
  match fuel, l with
  | S fuel', c :: l' =>
      match closing_tag l with
      | Some (name, rest) => chars "&lt;/" ++ name ++ chars "&gt;" ++ escape_closing fuel' rest
      | None => c :: escape_closing fuel' l'
      end
  | _, _ => l
  end.

Definition sanitizeDebateContent (text : string) : string :=
  let opened := Sanitizer.replace_all (Sanitizer.literal "<!--") "&lt;!--" text in
  let closed := Sanitizer.replace_all (Sanitizer.literal "-->") "--&gt;" opened in
  of_chars (escape_closing (String.length closed) (chars closed)).

Definition argument (r : SubAgentResult) : string :=
  "<debater name=" +:+ in_quotes (agentName r) +:+
  match score r with Some s => " confidence=" +:+ in_quotes (to_fixed 2 s) | None => "" end +:+
  ">" +:+ nl +:+ sanitizeDebateContent (response r) +:+ nl +:+ "</debater>".

Definition default_transcript (r : DebateRound) : string :=
  "<debate_round number=" +:+ in_quotes (Z_to_string (roundNumber r)) +:+ ">" +:+ nl +:+
  join blank_line (map argument (List.filter succeeded (round_results r))) +:+ nl +:+ "</debate_round>".

Section Debate.
Context {W E : Type} `{!FanOutRunner W E} (options : DebateOptions) (debate_aborted : AbortSignal -> W -> bool)
  (parentContext : AgentContext).
Notation M := (M error E W).

Definition aborted : M bool :=
  ask (fun w => match debate_signal options with Some s => debate_aborted s w | None => false end).

Definition buildTranscript (round : DebateRound) : outcome error string :=
  match transcriptFormatterFn options with Some f => f round | None => Ret (default_transcript round) end.

Definition abortedResult (rs : list DebateRound) : DebateRunResult := {|
  finalResponse := ""; winner := ""; rounds := rs; debate_score := None; requiresHumanReview := false;
  terminationReason := DebateAborted |}.

Definition debater_task (message : string) (d : DebaterConfig) : SubAgentTask := {|
  task_agentName := debater_agentName d; task_message := message; narrowing := debater_narrowing d; task_data := None;
  task_signal := debate_signal options |}.

Definition round_options : ParallelRunnerOptions :=
  Parallel.mk_options (Some ConsensusMerge) (Some (debate_timeoutMs options)) (Some (retriesPerDebater options))
    (debate_concurrency options) (debate_signal options) None None None (Some (debate_threshold options)).

Definition concluded (rs : list DebateRound) (round : DebateRound) (review : bool) (reason : DebateTermination) : DebateRunResult :=
  let w := pickWinner (round_results round) in {|
  finalResponse := response w; winner := agentName w; rounds := rs; debate_score := Some (round_score round);
  requiresHumanReview := review; terminationReason := reason |}.

(** After the last round. *)
Definition no_consensus (rs : list DebateRound) : M DebateRunResult :=
  match last rs with
  | Some lastRound => ret (concluded rs lastRound true DebateMaxRounds)
  | None => throw (NativeErr "TypeError" "Cannot read properties of undefined (reading 'results')")
  end.

Fixpoint debate_loop (left : nat) (number : Z) (debaters : list DebaterConfig) (initialMessage message : string)
    (done : list DebateRound) : M DebateRunResult :=
  match left with
  | O => no_consensus done
  | S left' =>
      a <- aborted ;;
      if a then ret (abortedResult done)
      else
        fanOutResult <- fan_out round_options parentContext (map (debater_task message) debaters) ;;
        let round := {| roundNumber := number; round_results := results fanOutResult;
                        round_score := calculateConsensusScore (results fanOutResult) |} in
        let done' := done ++ [round] in
        if ratio_le (of_num (debate_threshold options)) (round_score round)
        then ret (concluded done' round false DebateConsensus)
        else
          message' <- (if number <? maxRounds options
                       then transcript <- lift (fun w => (buildTranscript round, w)) ;;
                            ret (transcript +:+ blank_line +:+ initialMessage)
                       else ret message) ;;
          debate_loop left' (number + 1) debaters initialMessage message' done'
  end.

Definition nobody : DebateRunResult := {|
  finalResponse := ""; winner := ""; rounds := []; debate_score := None; requiresHumanReview := false;
  terminationReason := DebateConsensus |}.

Definition run (debaters : list DebaterConfig) (initialMessage : string) : M DebateRunResult :=
  match debaters with
  | [] => ret nobody
  | _ =>
      a <- aborted ;;
      if a then ret (abortedResult [])
      else debate_loop (Z.to_nat (maxRounds options)) 1 debaters initialMessage initialMessage []
  end.

(** ** What a debate does *)

(** Rounds numbered from [n], each with one result for each debater in order; only the
    last may have converged. *)
Definition round_of (debaters : list DebaterConfig) (r : DebateRound) : Prop :=
  map agentName (round_results r) = map debater_agentName debaters /\
  round_score r = calculateConsensusScore (round_results r).

Definition converged (r : DebateRound) : bool := ratio_le (of_num (debate_threshold options)) (round_score r).

Definition held (debaters : list DebaterConfig) (rs : list DebateRound) : Prop :=
  Forall (round_of debaters) rs /\ (forall k r, rs !! k = Some r -> roundNumber r = Z.of_nat k + 1).

Definition debate_post (debaters : list DebaterConfig) (o : outcome error DebateRunResult) : Prop :=
  match o with
  | Ret res =>
      held debaters (rounds res) /\ (length (rounds res) <= Z.to_nat (maxRounds options))%nat /\
      requiresHumanReview res = bool_decide (terminationReason res = DebateMaxRounds) /\
      match terminationReason res with
      | DebateConsensus => exists before r, rounds res = before ++ [r] /\ Forall (fun r => converged r = false) before /\
          converged r = true /\ debate_score res = Some (round_score r) /\
          winner res = agentName (pickWinner (round_results r)) /\ finalResponse res = response (pickWinner (round_results r))
      | DebateMaxRounds => length (rounds res) = Z.to_nat (maxRounds options) /\
          Forall (fun r => converged r = false) (rounds res)
      | DebateAborted => Forall (fun r => converged r = false) (rounds res)
      end
  | _ => True
  end.

Lemma owned_names tasks rs message :
  Forall2 (owned round_options) (map (debater_task message) tasks) rs ->
  map agentName rs = map debater_agentName tasks.
Proof.
  revert rs. induction tasks as [|d ds IH]; intros rs; simpl; intros H; inversion H as [|? r ? rs' Ho Hr]; subst; [done|].
  simpl. rewrite (IH rs' Hr). f_equal. destruct Ho as [Ho|(f & Hf & _)]; [done|by simpl in Hf].
Qed.

Lemma held_snoc debaters rs r :
  held debaters rs -> round_of debaters r -> roundNumber r = Z.of_nat (length rs) + 1 -> held debaters (rs ++ [r]).
Proof.
  intros [Hf Hn] Hr Hnum. split; [apply Forall_app; split; [done|by constructor]|].
  intros k x Hk. apply lookup_app_Some in Hk as [Hk|[Hge Hk]]; [by apply Hn|].
  apply list_lookup_singleton_Some in Hk as [Hk <-]. rewrite Hnum. lia.
Qed.

Lemma debate_loop_wp left number debaters initial message rs w :
  held debaters rs -> Forall (fun r => converged r = false) rs ->
  (length rs + left)%nat = Z.to_nat (maxRounds options) -> number = Z.of_nat (length rs) + 1 ->
  wp (debate_loop left number debaters initial message rs) w (fun o _ _ => debate_post debaters o).
Proof.
  revert number message rs w. induction left as [|left IH]; intros number message rs w Hheld Hnc Hlen Hnum; cbn [debate_loop].
  - unfold no_consensus. destruct (last rs) as [r|] eqn:Hl; [|by wp_step]. wp_step. unfold debate_post, concluded.
    cbn [rounds requiresHumanReview terminationReason]. split_and!; [exact Hheld|lia|done|lia|done].
  - unfold aborted. do 2 wp_step. destruct (match debate_signal options with Some _ => _ | None => _ end).
    { wp_step. unfold debate_post, abortedResult. cbn [rounds requiresHumanReview terminationReason].
      split_and!; [exact Hheld|lia|done|done]. }
    wp_step. eapply wp_mono; [by apply fan_out_owned|]. intros o w1 l1 Ho. destruct o as [res|e|]; cbn [wp_cont]; [|done..].
    set (round := {| roundNumber := number; round_results := results res;
                     round_score := calculateConsensusScore (results res) |}).
    assert (held debaters (rs ++ [round])) as Hheld'.
    { apply held_snoc; [done| |done]. split; [|done]. by eapply owned_names. }
    change (ratio_le (of_num (debate_threshold options)) (round_score round)) with (converged round).
    destruct (converged round) eqn:Hc.
    { wp_step. unfold debate_post, concluded. cbn [rounds requiresHumanReview terminationReason].
      split_and!; [exact Hheld'|rewrite length_app; simpl; lia|done|].
      exists rs, round. by split_and!. }
    assert (Forall (fun r => converged r = false) (rs ++ [round])) as Hnc' by (apply Forall_app; split; [done|by constructor]).
    wp_step. apply run_wp. intros o w2 l2 _. destruct o as [message'|e|]; cbn [wp_cont]; [|done..].
    apply IH; [done|done|rewrite length_app; simpl; lia|rewrite length_app; simpl; lia].
Qed.

End Debate.

(** A debate reports its rounds truthfully: they are numbered from 1, no more than
    [maxRounds], each with one result for each debater in order. It ends by consensus
    exactly with the first round whose score reaches the threshold, won by the best
    successful answer of that round; it asks for human review exactly when every
    allowed round was held and none converged. *)
Theorem debate_ends_at_first_consensus {W E} `{!FanOutRunner W E} (options : DebateOptions)
    (debate_aborted : AbortSignal -> W -> bool) (ctx : AgentContext) (debaters : list DebaterConfig) (message : string) (w : W) :
  wp (run options debate_aborted ctx debaters message) w (fun o _ _ =>
    match o with
    | Ret res =>
        Forall (round_of debaters) (rounds res) /\
        (forall k r, rounds res !! k = Some r -> roundNumber r = Z.of_nat k + 1) /\
        (length (rounds res) <= Z.to_nat (maxRounds options))%nat /\
        requiresHumanReview res = bool_decide (terminationReason res = DebateMaxRounds) /\
        match terminationReason res with
        | DebateConsensus => debaters = [] /\ rounds res = [] \/
            exists before r, rounds res = before ++ [r] /\
              Forall (fun r => ratio_le (of_num (debate_threshold options)) (round_score r) = false) before /\
              ratio_le (of_num (debate_threshold options)) (round_score r) = true /\
              winner res = agentName (pickWinner (round_results r)) /\
              finalResponse res = response (pickWinner (round_results r))
        | DebateMaxRounds => length (rounds res) = Z.to_nat (maxRounds options) /\
            Forall (fun r => ratio_le (of_num (debate_threshold options)) (round_score r) = false) (rounds res)
        | DebateAborted => Forall (fun r => ratio_le (of_num (debate_threshold options)) (round_score r) = false) (rounds res)
        end
    | _ => True
    end).
Proof.
  unfold run. destruct debaters as [|d ds].
  { wp_step. simpl. split_and!; [constructor|done|lia|done|by left]. }
  unfold aborted. do 2 wp_step. destruct (match debate_signal options with Some _ => _ | None => _ end).
  { wp_step. simpl. split_and!; [constructor|done|lia|done|constructor]. }
  eapply wp_mono; [by apply debate_loop_wp; [split; [constructor|done]|constructor|done|done]|].
  intros o w' l Ho. destruct o as [res|e|]; [|done..].
  destruct Ho as ([Hf Hn] & Hle & Hrev & Hend). split_and!; [done..|].
  destruct (terminationReason res); [right|done|done].
  destruct Hend as (before & r & H1 & H2 & H3 & _ & H4 & H5). by exists before, r.
Qed.

(** The winner of a round with successes is one of the best. *)
Lemma winner_is_best rs first rest :
  List.filter succeeded rs = first :: rest -> Forall is_scored (first :: rest) -> is_best (first :: rest) (pickWinner rs).
Proof. intros Hf Hs. unfold pickWinner. rewrite Hf. by apply best_of_best. Qed.

(** ** Arguments cannot close their tags *)

Section Escaping.
Notation strip_ci := Sanitizer.strip_ci.
Notation lower := Sanitizer.lower.

Definition nowhere (l : list ascii) : Prop := forall pre post, l = pre ++ post -> closing_tag post = None.

Definition lt_char : ascii := "<"%char.
Definition amp_char : ascii := "&"%char.

Lemma lower_lt c : lower c = lt_char -> c = lt_char.
Proof. destruct c as [[] [] [] [] [] [] [] []]; vm_compute; congruence. Qed.

Lemma not_lt_no_tag c l : c <> lt_char -> closing_tag (c :: l) = None.
Proof.
  intros Hc. unfold closing_tag. change (chars "</") with [lt_char; "/"%char]. cbn [Sanitizer.strip_ci].
  rewrite bool_decide_false; [done|]. intros He. apply Hc, lower_lt. by rewrite <- He.
Qed.

Lemma nowhere_cons c l : closing_tag (c :: l) = None -> nowhere l -> nowhere (c :: l).
Proof. intros Hc Hl [|x pre] post; simpl; intros H; simplify_eq; [done|]. by eapply Hl. Qed.

Lemma nowhere_app l1 l2 : Forall (fun c => c <> lt_char) l1 -> nowhere l2 -> nowhere (l1 ++ l2).
Proof. induction 1 as [|c l1 Hc _ IH]; intros H; simpl; [done|]. apply nowhere_cons; [by apply not_lt_no_tag|by apply IH]. Qed.

Lemma strip_prefix_chars p l r : strip_ci p l = Some r -> Forall2 (fun a b => lower a = lower b) p (take (length p) l).
Proof.
  revert l. induction p as [|c p IH]; intros [|d l]; simpl; intros H; try constructor; try done.
  - by case_bool_decide.
  - case_bool_decide; [by apply IH|done].
Qed.

(** A tag's name has no angle bracket. *)
Lemma matched_name p l r : strip_ci p l = Some r -> Forall (fun c => lower c <> lt_char) p ->
  Forall (fun c => c <> lt_char) (take (length p) l).
Proof.
  intros H%strip_prefix_chars Hp. revert Hp. induction H as [|a b p' l' Hab _ IH]; intros Hp; constructor.
  - intros ->. apply Forall_cons in Hp as [Hp _]. by apply Hp.
  - apply IH. by apply Forall_cons in Hp as [_ Hp].
Qed.

Definition plain (p : list ascii) : Prop := Forall (fun c => lower c <> lower amp_char) p.

Lemma strip_escaped p fuel l r :
  plain p -> (length l <= fuel)%nat -> strip_ci p (escape_closing fuel l) = Some r ->
  exists fuel' r', (length r' <= fuel')%nat /\ r = escape_closing fuel' r' /\ strip_ci p l = Some r'.
Proof.
  intros Hp. revert fuel l. induction Hp as [|c p Hc Hp IH]; intros fuel l Hl; cbn [Sanitizer.strip_ci].
  - intros [= <-]. by exists fuel, l.
  - destruct l as [|d l]; [by destruct fuel|]. destruct fuel as [|fuel]; [simpl in Hl; lia|].
    cbn [escape_closing]. destruct (closing_tag (d :: l)) as [[name rest]|] eqn:Ht.
    + cbn. by rewrite bool_decide_false.
    + case_bool_decide; [|done]. apply IH. simpl in Hl. lia.
Qed.

Lemma escaped_tag fuel d l :
  (length (d :: l) <= fuel)%nat -> closing_tag (d :: l) = None -> closing_tag (escape_closing fuel (d :: l)) = None.
Proof.
  intros Hl Hn. destruct (closing_tag (escape_closing fuel (d :: l))) as [x|] eqn:H; [|done]. exfalso.
  assert (plain (chars "</") /\ plain (chars "debater>") /\ plain (chars "debate_round>")) as (P1 & P2 & P3).
  { split_and!; apply (bool_decide_unpack _); vm_compute; exact I. }
  unfold closing_tag in H, Hn.
  destruct (strip_ci (chars "</") (escape_closing fuel (d :: l))) as [r|] eqn:H1; [|done].
  destruct (strip_escaped _ _ _ _ P1 Hl H1) as (f1 & r1 & Hl1 & -> & Hr1). rewrite Hr1 in Hn.
  destruct (strip_ci (chars "debater>") (escape_closing f1 r1)) as [r2|] eqn:H2.
  - destruct (strip_escaped _ _ _ _ P2 Hl1 H2) as (f2 & r2' & _ & _ & Hr2). by rewrite Hr2 in Hn.
  - destruct (strip_ci (chars "debate_round>") (escape_closing f1 r1)) as [r3|] eqn:H3; [|done].
    destruct (strip_escaped _ _ _ _ P3 Hl1 H3) as (f3 & r3' & _ & _ & Hr3). rewrite Hr3 in Hn.
    by destruct (strip_ci (chars "debater>") r1).
Qed.

Lemma strip_length p l r : strip_ci p l = Some r -> (length r + length p)%nat = length l.
Proof.
  revert l. induction p as [|c p IH]; intros [|d l]; simpl; intros H; simplify_eq; try done; try lia.
  case_bool_decide; [|done]. apply IH in H. lia.
Qed.

Lemma closing_tag_parts l name rest : closing_tag l = Some (name, rest) ->
  Forall (fun c => c <> lt_char) name /\ (length rest < length l)%nat.
Proof.
  unfold closing_tag. destruct (strip_ci (chars "</") l) as [r|] eqn:H1; [|done].
  apply strip_length in H1. simpl in H1.
  destruct (strip_ci (chars "debater>") r) as [r2|] eqn:H2.
  - intros [= <- <-]. split; [|apply strip_length in H2; simpl in H2; lia].
    apply matched_name in H2; [|apply (bool_decide_unpack _); vm_compute; exact I].
    change (length (chars "debater>")) with 8%nat in H2. apply (Forall_take _ 7) in H2. by rewrite take_take in H2.
  - destruct (strip_ci (chars "debate_round>") r) as [r3|] eqn:H3; [|done]. intros [= <- <-].
    split; [|apply strip_length in H3; simpl in H3; lia].
    apply matched_name in H3; [|apply (bool_decide_unpack _); vm_compute; exact I].
    change (length (chars "debate_round>")) with 13%nat in H3. apply (Forall_take _ 12) in H3. by rewrite take_take in H3.
Qed.

Lemma escape_nowhere fuel l : (length l <= fuel)%nat -> nowhere (escape_closing fuel l).
Proof.
  revert l. induction fuel as [|fuel IH]; intros [|d l] Hl; try (by intros [|? ?] [|? ?]); [simpl in Hl; lia|].
  cbn [escape_closing]. destruct (closing_tag (d :: l)) as [[name rest]|] eqn:Ht.
  - destruct (closing_tag_parts _ _ _ Ht) as [Hname Hlen].
    apply nowhere_app; [apply (bool_decide_unpack _); vm_compute; exact I|]. apply nowhere_app; [done|].
    apply nowhere_app; [apply (bool_decide_unpack _); vm_compute; exact I|]. apply IH. simpl in *. lia.
  - pose proof (escaped_tag (S fuel) d l Hl Ht) as He. cbn [escape_closing] in He. rewrite Ht in He.
    apply nowhere_cons; [done|]. apply IH. simpl in Hl. lia.
Qed.

(** An argument cannot end its place in the transcript: whatever a debater answered,
    the text shown to the others holds no closing tag of a debater or of the round, in
    any mixture of cases, at any position. *)
Theorem argument_cannot_close_its_tag (text : string) pre post :
  chars (sanitizeDebateContent text) = pre ++ post -> closing_tag post = None.
Proof.
  unfold sanitizeDebateContent. rewrite String.list_ascii_of_string_of_list_ascii.
  apply escape_nowhere. by rewrite Numerals.length_chars.
Qed.

End Escaping.

(** ** Concrete debates *)

Module Demo.

Definition scored (name text : string) (s : option num) : SubAgentResult := {|
  agentName := name; status := StatusSuccess; response := text; toolCount := 0; result_error := None; score := s;
  tokens := None; durationMs := None |}.

(** One scorer alone is trusted without bounds. *)
Example lone_score_is_unbounded :
  calculateConsensusScore [scored "a" "x" (Some (num_of_Z 5)); failed_result "b" "boom"] = of_num (num_of_Z 5).
Proof. reflexivity. Qed.

(** An opening tag gets through: an answer can speak in the name of another. *)
Example opening_tag_gets_through :
  sanitizeDebateContent ("ok <debater name=" +:+ in_quotes "judge" +:+ ">") = "ok <debater name=" +:+ in_quotes "judge" +:+ ">".
Proof. vm_compute. reflexivity. Qed.

Example closing_tag_is_escaped : sanitizeDebateContent "x</DEBATER>y" = "x&lt;/DEBATER&gt;y".
Proof. vm_compute. reflexivity. Qed.

End Demo.

Lemma argument_cannot_close_its_tag_witness :
  closing_tag (chars "DEBATER&gt;y") = None.
Proof.
  apply (argument_cannot_close_its_tag "x</DEBATER>y" (chars "x&lt;/") (chars "DEBATER&gt;y")). vm_compute. reflexivity.
Defined.

End Debate.
