(* ===== verification/Retrieval.v ===== *)
(** * Retrieval: the data and the arithmetic it shares

    packages/rag/src/interfaces/{document,vector-store,strategy}.interface.ts and
    packages/rag/src/utils/*.ts.  Scores and vectors are rationals; the functions
    of [Math] that are not rational ([sqrt], [log]) are parameters, so what is
    proved holds whatever they return.  Options for which a divisor is zero are
    outside the model: JavaScript would go on with an infinity or NaN. *)

From Stdlib Require Import Ascii.
From S2P Require Export Consensus Collections Types Sanitizer.

#[local] Open Scope string_scope.
#[local] Open Scope list_scope.
#[local] Open Scope Z_scope.

Module Retrieval.
Import Consensus.

(** ** Documents *)

Record DocumentChunk : Type := {
  chunk_id : string;
  parentId : string;
  chunk_content : string;
  embedding : option (list Q);
  chunk_metadata : obj;
  chunk_provenance : option Provenance;
}.

Record Document : Type := {
  doc_id : string;
  title : string;
  rawContent : string;
  chunks : list DocumentChunk;
  doc_metadata : obj;
  timestamp : option Z;
}.

Record ScoredDocumentChunk : Type := { sc_chunk : DocumentChunk; sc_score : Q }.

(** The context handed from one strategy to the next. *)
Record RAGContext : Type := {
  query : string;
  expandedQueries : option (list string);
  rag_chunks : option (list DocumentChunk);
  rag_scores : option (list (string * Q));
  hydratedParentContext : option string;
  compressedContext : option string;
  relationalFacts : option (list string);
  graphContext : option string;
  rag_filter : option obj;
  rag_metadata : option obj;
}.

(** [{ ...chunk, content, metadata }] and the like. *)
Definition with_content (text : string) (md : obj) (c : DocumentChunk) : DocumentChunk :=
  {| chunk_id := chunk_id c; parentId := parentId c; chunk_content := text; embedding := embedding c;
     chunk_metadata := md; chunk_provenance := chunk_provenance c |}.
Definition with_embedding (e : list Q) (c : DocumentChunk) : DocumentChunk :=
  {| chunk_id := chunk_id c; parentId := parentId c; chunk_content := chunk_content c; embedding := Some e;
     chunk_metadata := chunk_metadata c; chunk_provenance := chunk_provenance c |}.
Definition with_provenance (p : Provenance) (c : DocumentChunk) : DocumentChunk :=
  {| chunk_id := chunk_id c; parentId := parentId c; chunk_content := chunk_content c; embedding := embedding c;
     chunk_metadata := chunk_metadata c; chunk_provenance := Some p |}.
Definition with_chunks (cs : list DocumentChunk) (x : RAGContext) : RAGContext :=
  {| query := query x; expandedQueries := expandedQueries x; rag_chunks := Some cs; rag_scores := rag_scores x;
     hydratedParentContext := hydratedParentContext x; compressedContext := compressedContext x;
     relationalFacts := relationalFacts x; graphContext := graphContext x; rag_filter := rag_filter x;
     rag_metadata := rag_metadata x |}.
Definition with_scores (sc : list (string * Q)) (x : RAGContext) : RAGContext :=
  {| query := query x; expandedQueries := expandedQueries x; rag_chunks := rag_chunks x; rag_scores := Some sc;
     hydratedParentContext := hydratedParentContext x; compressedContext := compressedContext x;
     relationalFacts := relationalFacts x; graphContext := graphContext x; rag_filter := rag_filter x;
     rag_metadata := rag_metadata x |}.
Definition with_hydrated (t : string) (x : RAGContext) : RAGContext :=
  {| query := query x; expandedQueries := expandedQueries x; rag_chunks := rag_chunks x; rag_scores := rag_scores x;
     hydratedParentContext := Some t; compressedContext := compressedContext x;
     relationalFacts := relationalFacts x; graphContext := graphContext x; rag_filter := rag_filter x;
     rag_metadata := rag_metadata x |}.
Definition with_compressed (t : string) (x : RAGContext) : RAGContext :=
  {| query := query x; expandedQueries := expandedQueries x; rag_chunks := rag_chunks x; rag_scores := rag_scores x;
     hydratedParentContext := hydratedParentContext x; compressedContext := Some t;
     relationalFacts := relationalFacts x; graphContext := graphContext x; rag_filter := rag_filter x;
     rag_metadata := rag_metadata x |}.
Definition with_expanded (qs : list string) (x : RAGContext) : RAGContext :=
  {| query := query x; expandedQueries := Some qs; rag_chunks := rag_chunks x; rag_scores := rag_scores x;
     hydratedParentContext := hydratedParentContext x; compressedContext := compressedContext x;
     relationalFacts := relationalFacts x; graphContext := graphContext x; rag_filter := rag_filter x;
     rag_metadata := rag_metadata x |}.
Definition with_graph_context (t : string) (x : RAGContext) : RAGContext :=
  {| query := query x; expandedQueries := expandedQueries x; rag_chunks := rag_chunks x; rag_scores := rag_scores x;
     hydratedParentContext := hydratedParentContext x; compressedContext := compressedContext x;
     relationalFacts := relationalFacts x; graphContext := Some t; rag_filter := rag_filter x;
     rag_metadata := rag_metadata x |}.
Definition with_facts (fs : list string) (x : RAGContext) : RAGContext :=
  {| query := query x; expandedQueries := expandedQueries x; rag_chunks := rag_chunks x; rag_scores := rag_scores x;
     hydratedParentContext := hydratedParentContext x; compressedContext := compressedContext x;
     relationalFacts := Some fs; graphContext := graphContext x; rag_filter := rag_filter x;
     rag_metadata := rag_metadata x |}.

(** [metadata[key] as string]: a missing or null entry is [None]; the cast is taken
    at its word. *)
Definition meta_string (md : obj) (key : string) : option string :=
  match obj_get md key with Some (VStr s) => Some s | _ => None end.

(** ** Text *)

(** [s.toLowerCase()] on ASCII. *)
Definition to_lower (s : string) : string := of_chars (map Sanitizer.lower (chars s)).

Fixpoint split_from (l cur : list ascii) (in_gap : bool) : list string :=
  match l with
  | [] => [of_chars (rev cur)]
  | c :: l' =>
      if is_space c then
        if in_gap then split_from l' cur true else of_chars (rev cur) :: split_from l' [] true
      else split_from l' (c :: cur) false
  end.

(** [s.split(/\s+/)] *)
Definition split_spaces (s : string) : list string := split_from (chars s) [] false.

(** [l.slice(0, n)] *)
Definition slice_front {A} (l : list A) (n : Z) : list A :=
  if 0 <=? n then take (Z.to_nat n) l else take (length l - Z.to_nat (- n)) l.

Lemma slice_front_prefix {A} (l : list A) n : exists rest, l = slice_front l n ++ rest.
Proof. unfold slice_front. case_match; eexists; symmetry; apply take_drop. Qed.

Lemma filter_sublist {A} (p : A -> bool) l : List.filter p l `sublist_of` l.
Proof. induction l as [|x l IH]; simpl; [done|]. destruct (p x); by constructor. Qed.

Lemma slice_front_sublist {A} (l : list A) n : slice_front l n `sublist_of` l.
Proof. destruct (slice_front_prefix l n) as [rest H]. rewrite H at 2. by apply sublist_inserts_r. Qed.

Lemma slice_front_length {A} (l : list A) n : 0 <= n -> Z.of_nat (length (slice_front l n)) <= n.
Proof. intros H. unfold slice_front. rewrite (proj2 (Z.leb_le _ _)) by done. rewrite length_take. lia. Qed.

(** ** Numbers *)

#[local] Open Scope Q_scope.

Definition Q_ltb (a b : Q) : bool := negb (Qle_bool b a).

Lemma Q_ltb_lt a b : Q_ltb a b = true <-> a < b.
Proof. unfold Q_ltb. rewrite negb_true_iff, <- not_true_iff_false, Qle_bool_iff. split; [apply Qnot_le_lt|apply Qlt_not_le]. Qed.

Lemma Q_ltb_ge a b : Q_ltb a b = false <-> b <= a.
Proof. unfold Q_ltb. by rewrite negb_false_iff, Qle_bool_iff. Qed.

Definition Q_of_nat (n : nat) : Q := inject_Z (Z.of_nat n).
Definition Q_max (a b : Q) : Q := if Qle_bool a b then b else a.
Definition Q_min (a b : Q) : Q := if Qle_bool a b then a else b.

Lemma Qsum_app l1 l2 : Qsum (l1 ++ l2) == Qsum l1 + Qsum l2.
Proof. induction l1 as [|x l1 IH]; simpl; [lra|]. rewrite IH. lra. Qed.

(** ** Cosine similarity (cosine-similarity.ts) *)

(** The loop: dot product and squared norms. *)
Fixpoint dot_norms (a b : list Q) (dot normA normB : Q) : Q * Q * Q :=
  match a, b with
  | x :: a', y :: b' => dot_norms a' b' (dot + x * y) (normA + x * x) (normB + y * y)
  | _, _ => (dot, normA, normB)
  end.

Definition cosineSimilarity (sqrt : Q -> Q) (a b : list Q) : Q :=
  if negb (length a =? length b)%nat || (length a =? 0)%nat then 0
  else
    let '(dotProduct, normA, normB) := dot_norms a b 0 0 0 in
    let denominator := sqrt normA * sqrt normB in
    if Q_ltb 0 denominator then dotProduct / denominator else 0.

(** ** Reciprocal rank fusion (rrf-fusion.ts) *)

Fixpoint fuse_list (weight k : Q) (i : nat) (l : list string) (scores : list (string * Q)) : list (string * Q) :=
  match l with
  | [] => scores
  | id :: l' =>
      let contribution := weight / (k + Q_of_nat i + 1) in
      fuse_list weight k (S i) l' (js_set scores id (default 0 (js_get scores id) + contribution))
  end.

Fixpoint fuse_lists (weights : option (list Q)) (k : Q) (listIndex : nat) (ls : list (list string))
    (scores : list (string * Q)) : list (string * Q) :=
  match ls with
  | [] => scores
  | l :: ls' =>
      let weight := coalesce (weights ≫= (fun ws => ws !! listIndex)) 1 in
      fuse_lists weights k (S listIndex) ls' (fuse_list weight k 0 l scores)
  end.

Definition reciprocalRankFusion (rankedLists : list (list string)) (k : option Q) (weights : option (list Q))
    : list (string * Q) :=
  fuse_lists weights (coalesce k 60) 0 rankedLists [].

(** *** What fusion computes *)

(** The contributions of one list to an id, by rank. *)
Fixpoint contributions (weight k : Q) (i : nat) (l : list string) (id : string) : list Q :=
  match l with
  | [] => []
  | x :: l' =>
      (if bool_decide (x = id) then [weight / (k + Q_of_nat i + 1)] else []) ++ contributions weight k (S i) l' id
  end.

Fixpoint all_contributions (weights : option (list Q)) (k : Q) (m : nat) (ls : list (list string)) (id : string)
    : list Q :=
  match ls with
  | [] => []
  | l :: ls' =>
      contributions (coalesce (weights ≫= (fun ws => ws !! m)) 1) k 0 l id ++ all_contributions weights k (S m) ls' id
  end.

Definition score_of (scores : list (string * Q)) (id : string) : Q := default 0 (js_get scores id).

Lemma fuse_list_score weight k i l scores id :
  score_of (fuse_list weight k i l scores) id == score_of scores id + Qsum (contributions weight k i l id).
Proof.
  revert i scores. induction l as [|x l IH]; intros i scores; simpl; [lra|].
  rewrite IH, Qsum_app. unfold score_of. rewrite js_get_set. case_bool_decide; subst; simpl; lra.
Qed.

Lemma fuse_lists_score weights k m ls scores id :
  score_of (fuse_lists weights k m ls scores) id == score_of scores id + Qsum (all_contributions weights k m ls id).
Proof.
  revert m scores. induction ls as [|l ls IH]; intros m scores; simpl; [lra|].
  rewrite IH, fuse_list_score, Qsum_app. lra.
Qed.

Lemma fuse_list_keys weight k i l scores id :
  id ∈ (fuse_list weight k i l scores).*1 <-> id ∈ scores.*1 \/ id ∈ l.
Proof.
  revert i scores. induction l as [|x l IH]; intros i scores; simpl; [set_solver|].
  rewrite IH. change (js_set ?m ?a ?b).*1 with (js_keys (js_set m a b)). rewrite js_set_keys.
  unfold js_has, js_keys. destruct (js_get scores x) as [q|] eqn:Hx; simpl; [|set_solver].
  apply js_get_elem, (list_elem_of_fmap_2 fst) in Hx. set_solver.
Qed.

Lemma fuse_lists_keys weights k m ls scores id :
  id ∈ (fuse_lists weights k m ls scores).*1 <-> id ∈ scores.*1 \/ exists l, l ∈ ls /\ id ∈ l.
Proof.
  revert m scores. induction ls as [|l ls IH]; intros m scores; simpl; [set_solver|].
  rewrite IH, fuse_list_keys. set_solver.
Qed.

Lemma fuse_list_wf weight k i l scores : unique_keys scores -> unique_keys (fuse_list weight k i l scores).
Proof. revert i scores. induction l as [|x l IH]; intros i scores H; simpl; auto. Qed.
Lemma fuse_lists_wf weights k m ls scores : unique_keys scores -> unique_keys (fuse_lists weights k m ls scores).
Proof. revert m scores. induction ls as [|l ls IH]; intros m scores H; simpl; auto using fuse_list_wf. Qed.

(** Fusion computes its formula: the fused scores are of the ids that some list
    ranks, each once, and the score of an id is the sum, over its occurrences at
    rank r (from 1) in list m, of [weight m / (k + r)]. *)
Theorem fusion_is_its_formula rankedLists k weights id :
  let fused := reciprocalRankFusion rankedLists k weights in
  NoDup fused.*1 /\
  (id ∈ fused.*1 <-> exists l, l ∈ rankedLists /\ id ∈ l) /\
  score_of fused id == Qsum (all_contributions weights (coalesce k 60) 0 rankedLists id).
Proof.
  cbv zeta. unfold reciprocalRankFusion. split; [apply fuse_lists_wf; auto|]. split.
  - rewrite fuse_lists_keys. set_solver.
  - rewrite fuse_lists_score. unfold score_of at 1. simpl. lra.
Qed.

End Retrieval.
