(* ===== verification/HybridStore.v ===== *)
(** * The hybrid vector store (packages/rag/src/stores/hybrid-vector.store.ts)

    Chunks with an inverted index for BM25 that is kept up to date as chunks come,
    are replaced and go, dense vectors from an embedding provider, and a search
    that fuses both rankings under a metadata filter.

    A chunk is a value here: what a caller does to a chunk object after handing it
    over is not followed, except that [addChunks] returns the chunks with the
    embeddings it attached. *)

From S2P Require Export Retrieval Schema.

#[local] Open Scope string_scope.
#[local] Open Scope list_scope.
#[local] Open Scope Z_scope.
#[local] Open Scope eff_scope.

Module HybridStore.
Import Consensus Retrieval.

Inductive FusionMethod : Type := Weighted | Rrf.

Inductive event : Type :=
| EmbedDocuments (texts : list string)
| EmbedQuery (text : string).

Record StoreState : Type := {
  chunksMap : list (string * DocumentChunk);
  chunkTermFreqs : list (string * list (string * Z));
  docFreq : list (string * Z);
  totalTokenCount : Z;
}.

Definition empty_store : StoreState :=
  {| chunksMap := []; chunkTermFreqs := []; docFreq := []; totalTokenCount := 0 |}.

Section Store.
Context {W : Type}.

(** interfaces/embedding.interface.ts *)
Record EmbeddingProvider : Type := {
  provider_name : string;
  embedQuery : string -> W -> outcome error (list Q) * W;
  embedDocuments : list string -> W -> outcome error (list (list Q)) * W;
}.

Record HybridVectorStoreOptions : Type := {
  opt_embeddingProvider : option EmbeddingProvider;
  opt_vectorWeight : option Q;
  opt_fusionMethod : option FusionMethod;
  opt_rrfK : option Q;
  opt_stopWords : option (list string);
  opt_bm25K1 : option Q;
  opt_bm25B : option Q;
  opt_embeddingBatchSize : option num;
}.

Record HybridVectorStore : Type := {
  embeddingProvider : option EmbeddingProvider;
  vectorWeight : Q;
  fusionMethod : FusionMethod;
  rrfK : Q;
  stopWordsSet : option (list string);
  bm25K1 : Q;
  bm25B : Q;
  embeddingBatchSize : nat;
}.

(** [Number.isSafeInteger(n) && n > 0] *)
Definition safe_positive (n : num) : option nat :=
  match num_to_Z n with
  | Some z => if (0 <? z) && (z <? 2 ^ 53) then Some (Z.to_nat z) else None
  | None => None
  end.

Definition mk_store (o : HybridVectorStoreOptions) : error + HybridVectorStore :=
  let batchSize := default (num_of_Z 100) (opt_embeddingBatchSize o) in
  match safe_positive batchSize with
  | None => inl (NativeErr "RangeError"
                   ("HybridVectorStore: embeddingBatchSize must be a positive integer, got " +:+
                    num_to_string batchSize))
  | Some n => inr {| embeddingProvider := opt_embeddingProvider o;
                     vectorWeight := default (1 # 2)%Q (opt_vectorWeight o);
                     fusionMethod := default Weighted (opt_fusionMethod o);
                     rrfK := default 60%Q (opt_rrfK o);
                     stopWordsSet := map to_lower <$> opt_stopWords o;
                     bm25K1 := default (6 # 5)%Q (opt_bm25K1 o);
                     bm25B := default (3 # 4)%Q (opt_bm25B o);
                     embeddingBatchSize := n |}
  end.

Notation M := (M error event W).

Context (self : HybridVectorStore) (ln sqrt : Q -> Q).

(** ** The index *)

Definition tokenize (text : string) : list string :=
  List.filter (fun t => truthy t && negb (bool_decide (t ∈ default [] (stopWordsSet self))))
    (split_spaces (to_lower text)).

Definition bump (m : list (string * Z)) (t : string) : list (string * Z) :=
  js_set m t (default 0 (js_get m t) + 1).

Definition term_freq (tokens : list string) : list (string * Z) := fold_left bump tokens [].

(** One step of the loop of [removeFromCorpusStats]. *)
Definition drop_term (st : Z * list (string * Z)) (entry : string * Z) : Z * list (string * Z) :=
  let '(total, df) := st in
  let '(term, count) := entry in
  (total - count,
   match js_get df term with
   | None => df
   | Some n => if n <=? 1 then js_delete df term else js_set df term (n - 1)
   end).

Definition removeFromCorpusStats (chunkId : string) (s : StoreState) : StoreState :=
  match js_get (chunkTermFreqs s) chunkId with
  | None => s
  | Some termFreq =>
      let '(total, df) := fold_left drop_term termFreq (totalTokenCount s, docFreq s) in
      {| chunksMap := chunksMap s; chunkTermFreqs := js_delete (chunkTermFreqs s) chunkId;
         docFreq := df; totalTokenCount := total |}
  end.

Definition addToCorpusStats (chunk : DocumentChunk) (s : StoreState) : StoreState :=
  let tokens := tokenize (chunk_content chunk) in
  let termFreq := term_freq tokens in
  {| chunksMap := chunksMap s;
     chunkTermFreqs := js_set (chunkTermFreqs s) (chunk_id chunk) termFreq;
     docFreq := fold_left bump (js_keys termFreq) (docFreq s);
     totalTokenCount := totalTokenCount s + Z.of_nat (length tokens) |}.

Definition set_chunk (chunk : DocumentChunk) (s : StoreState) : StoreState :=
  {| chunksMap := js_set (chunksMap s) (chunk_id chunk) chunk; chunkTermFreqs := chunkTermFreqs s;
     docFreq := docFreq s; totalTokenCount := totalTokenCount s |}.

(** The body of the last loop of [addChunks]: an upsert. *)
Definition index_chunk (s : StoreState) (chunk : DocumentChunk) : StoreState :=
  let s1 := if js_has (chunksMap s) (chunk_id chunk) then removeFromCorpusStats (chunk_id chunk) s else s in
  addToCorpusStats chunk (set_chunk chunk s1).

Definition deleteChunk (chunkId : string) (s : StoreState) : bool * StoreState :=
  let s1 := removeFromCorpusStats chunkId s in
  (js_has (chunksMap s1) chunkId,
   {| chunksMap := js_delete (chunksMap s1) chunkId; chunkTermFreqs := chunkTermFreqs s1;
      docFreq := docFreq s1; totalTokenCount := totalTokenCount s1 |}).

Definition clear (s : StoreState) : StoreState := empty_store.

(** ** Ingestion *)

Definition misaligned (p : EmbeddingProvider) (got wanted : nat) : error :=
  NativeErr "Error"
    ("HybridVectorStore: embedding provider " +:+ in_quotes (provider_name p) +:+ " returned " +:+
     Z_to_string (Z.of_nat got) +:+ " embedding(s) for a batch of " +:+ Z_to_string (Z.of_nat wanted) +:+
     " chunk(s). A misaligned response would silently attach wrong or undefined embeddings.").

Definition embed_batch (p : EmbeddingProvider) (batch : list DocumentChunk) : M (list DocumentChunk) :=
  let texts := map chunk_content batch in
  emit (EmbedDocuments texts) ;;
  embeddings <- lift (embedDocuments p texts) ;;
  if negb (length embeddings =? length batch)%nat then throw (misaligned p (length embeddings) (length batch))
  else ret (zip_with with_embedding embeddings batch).

(** The batching loop; the chunks left bound its iterations. *)
Fixpoint embed_batches (p : EmbeddingProvider) (fuel : nat) (l : list DocumentChunk) : M (list DocumentChunk) :=
  match l, fuel with
  | [], _ => ret []
  | _, O => diverge
  | _, S fuel' =>
      embedded <- embed_batch p (take (embeddingBatchSize self) l) ;;
      rest <- embed_batches p fuel' (drop (embeddingBatchSize self) l) ;;
      ret (embedded ++ rest)
  end.

(** The chunks with the embeddings attached to those that had none. *)
Fixpoint attach (chunks embedded : list DocumentChunk) : list DocumentChunk :=
  match chunks with
  | [] => []
  | c :: cs =>
      if is_some (embedding c) then c :: attach cs embedded
      else match embedded with
           | e :: es => e :: attach cs es
           | [] => c :: attach cs []
           end
  end.

Definition needs_embedding (c : DocumentChunk) : bool := negb (is_some (embedding c)).

Definition embed_missing (chunks : list DocumentChunk) : M (list DocumentChunk) :=
  match embeddingProvider self with
  | None => ret chunks
  | Some p =>
      let missing := List.filter needs_embedding chunks in
      embedded <- embed_batches p (length missing) missing ;;
      ret (attach chunks embedded)
  end.

Definition addChunks (chunks : list DocumentChunk) (s : StoreState) : M (list DocumentChunk * StoreState) :=
  match chunks with
  | [] => ret ([], s)
  | _ =>
      embedded <- embed_missing chunks ;;
      ret (embedded, fold_left index_chunk embedded s)
  end.

(** ** Search *)

#[local] Open Scope Q_scope.

Definition Q_len {A} (l : list A) : Q := Q_of_nat (length l).

Definition avgDocLength (s : StoreState) : Q :=
  match chunksMap s with
  | [] => 0
  | _ => inject_Z (totalTokenCount s) / Q_len (chunksMap s)
  end.

Definition idf (s : StoreState) (term : string) : Q :=
  let n := Q_len (chunksMap s) in
  let df := inject_Z (default 0%Z (js_get (docFreq s) term)) in
  ln ((n - df + (1 # 2)) / (df + (1 # 2)) + 1).

Definition totalTermCount (termFreq : list (string * Z)) : Z := foldr Z.add 0%Z (js_values termFreq).

(** The addend of one query term, given its frequency, its idf and the lengths. *)
Definition bm25_term (f docLength : Z) (avgDl term_idf : Q) : Q :=
  let numerator := inject_Z f * (bm25K1 self + 1) in
  let denominator := inject_Z f + bm25K1 self * (1 - bm25B self + bm25B self * (inject_Z docLength / avgDl)) in
  term_idf * (numerator / denominator).

Fixpoint bm25_sum (s : StoreState) (termFreq : list (string * Z)) (docLength : Z) (avgDl : Q) (terms : list string)
    (score : Q) : Q :=
  match terms with
  | [] => score
  | term :: rest =>
      let f := default 0%Z (js_get termFreq term) in
      bm25_sum s termFreq docLength avgDl rest
        (if (f =? 0)%Z then score else score + bm25_term f docLength avgDl (idf s term))
  end.

Definition bm25Score (s : StoreState) (chunkId : string) (queryTermCounts : list (string * Z)) : Q :=
  match js_get (chunkTermFreqs s) chunkId with
  | None => 0
  | Some termFreq =>
      let avgDl := if Qeq_bool (avgDocLength s) 0 then 1 else avgDocLength s in
      bm25_sum s termFreq (totalTermCount termFreq) avgDl (js_keys queryTermCounts) 0
  end.

Record RawScore : Type := { raw_chunk : DocumentChunk; raw_bm25 : Q; raw_vector : Q }.

Definition matches_filter (filter : option obj) (c : DocumentChunk) : bool :=
  match filter with
  | None => true
  | Some f => forallb (fun e => Schema.strict_equal (default VUndef (obj_get (chunk_metadata c) e.1)) e.2) f
  end.

Definition raw_score (s : StoreState) (counts : list (string * Z)) (queryVector : option (list Q))
    (c : DocumentChunk) : RawScore :=
  {| raw_chunk := c; raw_bm25 := bm25Score s (chunk_id c) counts;
     raw_vector := match queryVector, embedding c with
                   | Some q, Some e => cosineSimilarity sqrt q e
                   | _, _ => 0
                   end |}.

(** [(a, b) => f(b) - f(a)] *)
Definition descending {A} (f : A -> Q) (x y : A) : bool := Qle_bool (f y) (f x).

Definition max_of (l : list Q) : Q := foldr Q_max (1 # 10000) l.

Definition weigh (bmWeight : Q) (raws : list RawScore) : list ScoredDocumentChunk :=
  let maxBm := max_of (map raw_bm25 raws) in
  let maxVec := max_of (map raw_vector raws) in
  map (fun r => {| sc_chunk := raw_chunk r;
                   sc_score := bmWeight * (raw_bm25 r / maxBm) + vectorWeight self * (raw_vector r / maxVec) |}) raws.

Definition ranked (f : RawScore -> Q) (raws : list RawScore) : list string :=
  map (fun r => chunk_id (raw_chunk r)) (stable_sort (descending f) (List.filter (fun r => Q_ltb 0 (f r)) raws)).

Definition fuseByRrf (bmWeight : Q) (raws : list RawScore) : list ScoredDocumentChunk :=
  let chunksById := js_of_entries (map (fun r => (chunk_id (raw_chunk r), raw_chunk r)) raws) in
  let fused := reciprocalRankFusion [ranked raw_bm25 raws; ranked raw_vector raws] (Some (rrfK self))
                 (Some [bmWeight; vectorWeight self]) in
  filter_map (fun e => (fun c => {| sc_chunk := c; sc_score := e.2 |}) <$> js_get chunksById e.1) fused.

(** What follows the embedding of the query. *)
Definition rank_chunks (s : StoreState) (query : string) (limit : Z) (filter : option obj)
    (queryVector : option (list Q)) : list ScoredDocumentChunk :=
  let counts := term_freq (tokenize query) in
  let bmWeight := 1 - vectorWeight self in
  let chunksToSearch := List.filter (matches_filter filter) (js_values (chunksMap s)) in
  match chunksToSearch with
  | [] => []
  | _ =>
      let raws := map (raw_score s counts queryVector) chunksToSearch in
      let scored := match fusionMethod self with Rrf => fuseByRrf bmWeight raws | Weighted => weigh bmWeight raws end in
      slice_front (List.filter (fun x => Q_ltb 0 (sc_score x)) (stable_sort (descending sc_score) scored)) limit
  end.

Definition searchHybridScored (s : StoreState) (query : string) (limit : Z) (filter : option obj)
    : M (list ScoredDocumentChunk) :=
  match chunksMap s with
  | [] => ret []
  | _ =>
      queryVector <- match embeddingProvider self with
                     | Some p => emit (EmbedQuery query) ;; v <- lift (embedQuery p query) ;; ret (Some v)
                     | None => ret None
                     end ;;
      ret (rank_chunks s query limit filter queryVector)
  end.

Definition searchHybrid (s : StoreState) (query : string) (limit : Z) (filter : option obj) : M (list DocumentChunk) :=
  scored <- searchHybridScored s query limit filter ;;
  ret (map sc_chunk scored).

End Store.
End HybridStore.
