(* ===== verification/HybridSearch.v ===== *)
(** * The index of the hybrid vector store

    Document frequencies, term frequencies and the token count are those of the
    stored chunks after any sequence of upserts, deletions and clears, so a search
    scores as if the statistics were computed afresh from the corpus.
    Below it, what a search returns and how ingestion embeds. *)

From S2P Require Export HybridStore.

#[local] Open Scope string_scope.
#[local] Open Scope list_scope.
#[local] Open Scope Z_scope.

Module HybridIndex.
Import Consensus Retrieval HybridStore.

(** ** Counting *)

(** A count as a map stores it: zero is no entry. *)
Definition stored (n : nat) : option Z := match n with O => None | _ => Some (Z.of_nat n) end.

Lemma default_stored n : default 0 (stored n) = Z.of_nat n.
Proof. by destruct n. Qed.

Lemma stored_succ n : Some (default 0 (stored n) + 1) = stored (S n).
Proof. rewrite default_stored. unfold stored. f_equal. lia. Qed.

Lemma count_perm {A} (p : A -> bool) l1 l2 : l1 ≡ₚ l2 -> count p l1 = count p l2.
Proof. induction 1; rewrite ?count_cons; lia. Qed.

Lemma count_ext {A} (p q : A -> bool) l : (forall x, p x = q x) -> count p l = count q l.
Proof. intros H. induction l as [|x l IH]; [done|]. by rewrite !count_cons, H, IH. Qed.

Lemma count_unique {A} `{!EqDecision A} (x : A) l :
  NoDup l -> count (fun y => bool_decide (y = x)) l = if bool_decide (x ∈ l) then 1%nat else 0%nat.
Proof.
  induction 1 as [|y l Hy _ IH]; [done|]. rewrite count_cons, IH.
  repeat case_bool_decide; set_solver.
Qed.

Definition sum_Z (l : list Z) : Z := foldr Z.add 0 l.

Lemma sum_Z_perm l1 l2 : l1 ≡ₚ l2 -> sum_Z l1 = sum_Z l2.
Proof. unfold sum_Z. induction 1; simpl; lia. Qed.

Lemma bump_get m t t' :
  js_get (bump m t) t' = if bool_decide (t = t') then Some (default 0 (js_get m t) + 1) else js_get m t'.
Proof. unfold bump. apply js_get_set. Qed.

Lemma bump_unique m t : unique_keys m -> unique_keys (bump m t).
Proof. apply unique_keys_set. Qed.

Lemma bump_all_unique l m : unique_keys m -> unique_keys (fold_left bump l m).
Proof. revert m. induction l; simpl; auto using bump_unique. Qed.

Lemma bump_all_get l (m : list (string * Z)) t n :
  js_get m t = stored n ->
  js_get (fold_left bump l m) t = stored (count (fun x => bool_decide (x = t)) l + n).
Proof.
  revert m n. induction l as [|x l IH]; intros m n Hm; [done|]. simpl. rewrite count_cons.
  case_bool_decide as Hx.
  - subst. rewrite (IH _ (S n)); [f_equal; lia|]. rewrite bump_get, bool_decide_eq_true_2 by done.
    by rewrite Hm, stored_succ.
  - rewrite (IH _ n); [done|]. by rewrite bump_get, bool_decide_eq_false_2.
Qed.

Lemma bump_sum m t : unique_keys m -> sum_Z (js_values (bump m t)) = sum_Z (js_values m) + 1.
Proof.
  intros _. unfold bump. rewrite (sum_Z_perm _ _ (js_set_values m t _)). destruct (js_get m t) as [n|] eqn:Hn.
  - rewrite (sum_Z_perm _ _ (js_delete_values m t n Hn)). simpl. lia.
  - rewrite js_delete_absent by done. simpl. lia.
Qed.

(** *** Term frequencies *)

Definition occurrences (t : string) (tokens : list string) : nat := count (fun x => bool_decide (x = t)) tokens.

Lemma term_freq_unique tokens : unique_keys (term_freq tokens).
Proof. by apply bump_all_unique. Qed.

Lemma term_freq_get tokens t : js_get (term_freq tokens) t = stored (occurrences t tokens).
Proof. unfold term_freq. rewrite (bump_all_get _ _ _ 0) by done. by rewrite Nat.add_0_r. Qed.

Lemma term_freq_total tokens : sum_Z (js_values (term_freq tokens)) = Z.of_nat (length tokens).
Proof.
  unfold term_freq. assert (forall m, unique_keys m ->
    sum_Z (js_values (fold_left bump tokens m)) = sum_Z (js_values m) + Z.of_nat (length tokens)) as H.
  { induction tokens as [|t l IH]; intros m Hm; simpl; [lia|].
    rewrite IH by by apply bump_unique. rewrite bump_sum by done. lia. }
  rewrite H by done. done.
Qed.

Lemma occurrences_elem t tokens : (0 < occurrences t tokens)%nat <-> t ∈ tokens.
Proof.
  unfold occurrences. induction tokens as [|x l IH]; [simpl; rewrite count_nil; split; [lia|by intros ?%elem_of_nil]|].
  rewrite count_cons, elem_of_cons, <- IH. case_bool_decide; subst; split; try lia; auto; intros [->|]; auto; done || lia.
Qed.

Lemma term_freq_keys tokens t : t ∈ js_keys (term_freq tokens) <-> t ∈ tokens.
Proof.
  rewrite <- (occurrences_elem t tokens). unfold js_keys. pose proof (js_get_None (term_freq tokens) t) as H.
  rewrite term_freq_get in H. destruct (occurrences t tokens) as [|n]; simpl in H.
  - split; [intros Hin; by destruct (proj1 H eq_refl Hin)|lia].
  - split; [lia|]. intros _. destruct (decide (t ∈ (term_freq tokens).*1)) as [|Hn]; [done|].
    by apply (proj2 H) in Hn.
Qed.

(** *** Dropping the terms of a chunk *)

Definition decrement (o : option Z) : option Z :=
  match o with Some n => if n <=? 1 then None else Some (n - 1) | None => None end.

Lemma decrement_stored n : decrement (stored (S n)) = stored n.
Proof.
  destruct n as [|n]; [done|]. unfold stored, decrement.
  rewrite (proj2 (Z.leb_gt _ _)) by lia. f_equal. lia.
Qed.

Lemma drop_term_spec total df term n :
  unique_keys df ->
  let '(total', df') := drop_term (total, df) (term, n) in
  total' = total - n /\ unique_keys df' /\
  forall t, js_get df' t = if bool_decide (term = t) then decrement (js_get df t) else js_get df t.
Proof.
  intros Hu. simpl. destruct (js_get df term) as [k|] eqn:Hk; simpl.
  - destruct (k <=? 1) eqn:Hle; (split; [done|]; split; [auto|]); intros t.
    + rewrite js_get_delete by done. case_bool_decide; [|done]. subst. by rewrite Hk; simpl; rewrite Hle.
    + rewrite js_get_set. case_bool_decide; [|done]. subst. by rewrite Hk; simpl; rewrite Hle.
  - split_and!; [done|done|]. intros t. case_bool_decide; [|done]. subst. by rewrite Hk.
Qed.

Lemma drop_terms_spec tf total df :
  unique_keys df -> unique_keys tf ->
  let '(total', df') := fold_left drop_term tf (total, df) in
  total' = total - sum_Z (js_values tf) /\ unique_keys df' /\
  forall t, js_get df' t = if bool_decide (t ∈ js_keys tf) then decrement (js_get df t) else js_get df t.
Proof.
  revert total df. induction tf as [|[term n] tf IH]; intros total df Hu Htf; cbn [fold_left].
  - split_and!; [simpl; lia|done|]. intros t. by rewrite bool_decide_eq_false_2 by apply not_elem_of_nil.
  - apply NoDup_cons in Htf as [Hn Htf]. pose proof (drop_term_spec total df term n Hu) as Hd.
    destruct (drop_term (total, df) (term, n)) as [total1 df1]. destruct Hd as (-> & Hu1 & Hg1).
    specialize (IH (total - n) df1 Hu1 Htf). destruct (fold_left drop_term tf (total - n, df1)) as [total2 df2].
    destruct IH as (-> & Hu2 & Hg2). split_and!.
    1: { change (js_values ((term, n) :: tf)) with (n :: js_values tf). simpl. lia. }
    1: done.
    intros t. rewrite Hg2, Hg1. unfold js_keys in *. cbn [fmap list_fmap fst] in *.
    destruct (decide (term = t)) as [->|Hne].
    + rewrite (bool_decide_eq_false_2 (t ∈ tf.*1)) by done. rewrite !bool_decide_eq_true_2 by (done || set_solver). done.
    + rewrite (bool_decide_eq_false_2 (term = t)) by done. repeat case_bool_decide; set_solver.
Qed.

(** ** The invariant *)

Section Invariant.
Context {W : Type} (self : @HybridVectorStore W) (ln sqrt : Q -> Q).

Definition tokens_of (c : DocumentChunk) : list string := tokenize self (chunk_content c).
Definition mentions (t : string) (c : DocumentChunk) : bool := bool_decide (t ∈ tokens_of c).
Definition token_count (docs : list DocumentChunk) : Z := sum_Z (map (fun c => Z.of_nat (length (tokens_of c))) docs).

(** The corpus statistics are those of [docs]. *)
Record counts_ok (docs : list DocumentChunk) (s : StoreState) : Prop := {
  ok_df_keys : unique_keys (docFreq s);
  ok_df : forall t, js_get (docFreq s) t = stored (count (mentions t) docs);
  ok_total : totalTokenCount s = token_count docs;
}.

(** Every chunk has the frequencies of its terms, and nothing else has any. *)
Definition terms_ok (m : list (string * DocumentChunk)) (s : StoreState) : Prop :=
  forall id, js_get (chunkTermFreqs s) id = (fun c => term_freq (tokens_of c)) <$> js_get m id.

Record store_ok (s : StoreState) : Prop := {
  ok_chunks : unique_keys (chunksMap s);
  ok_ids : forall id c, js_get (chunksMap s) id = Some c -> chunk_id c = id;
  ok_freqs : unique_keys (chunkTermFreqs s);
  ok_terms : terms_ok (chunksMap s) s;
  ok_counts : counts_ok (js_values (chunksMap s)) s;
}.

Lemma counts_perm docs docs' s : docs ≡ₚ docs' -> counts_ok docs s -> counts_ok docs' s.
Proof.
  intros Hp [Hu Hd Ht]. split; [done| |].
  - intros t. by rewrite <- (count_perm _ _ _ Hp).
  - rewrite Ht. unfold token_count. by apply sum_Z_perm, Permutation_map.
Qed.

(** A set of chunks with the same index. *)
Lemma counts_chunks docs s s' :
  docFreq s' = docFreq s -> totalTokenCount s' = totalTokenCount s -> counts_ok docs s -> counts_ok docs s'.
Proof. intros H1 H2 [? ? ?]. split; by rewrite ?H1, ?H2. Qed.

Lemma mentions_count t c : mentions t c = (0 <? occurrences t (tokens_of c))%nat.
Proof.
  unfold mentions. apply eq_true_iff_eq. rewrite bool_decide_eq_true, Nat.ltb_lt. symmetry. apply occurrences_elem.
Qed.

Lemma remove_absent s id : js_get (chunkTermFreqs s) id = None -> removeFromCorpusStats id s = s.
Proof. intros H. unfold removeFromCorpusStats. by rewrite H. Qed.

Lemma remove_present s m docs id c :
  unique_keys m -> unique_keys (chunkTermFreqs s) -> terms_ok m s -> js_get m id = Some c -> counts_ok (c :: docs) s ->
  let s' := removeFromCorpusStats id s in
  chunksMap s' = chunksMap s /\ unique_keys (chunkTermFreqs s') /\ terms_ok (js_delete m id) s' /\ counts_ok docs s'.
Proof.
  intros Hm Hf Ht Hc [Hu Hd Htot]. cbv zeta. unfold removeFromCorpusStats.
  pose proof (Ht id) as Hid. rewrite Hc in Hid. cbn [fmap option_fmap option_map] in Hid. rewrite Hid.
  pose proof (drop_terms_spec _ (totalTokenCount s) _ Hu (term_freq_unique (tokens_of c))) as Hs.
  destruct (fold_left drop_term _ _) as [total df]. destruct Hs as (-> & Hu' & Hg). split_and!; simpl; auto.
  - intros id'. cbn. rewrite !js_get_delete by done. case_bool_decide; [done|]. apply Ht.
  - split; [done| |].
    + intros t. cbn. rewrite Hg, Hd, count_cons.
      change (mentions t c) with (bool_decide (t ∈ tokens_of c)).
      rewrite (bool_decide_ext (t ∈ js_keys _) (t ∈ tokens_of c)) by apply term_freq_keys.
      case_bool_decide; [apply decrement_stored|done].
    + cbn. rewrite Htot, term_freq_total. unfold token_count. simpl. lia.
Qed.

Lemma add_spec s m docs c :
  unique_keys (chunkTermFreqs s) -> terms_ok m s -> counts_ok docs s ->
  let s' := addToCorpusStats self c s in
  chunksMap s' = chunksMap s /\ unique_keys (chunkTermFreqs s') /\ terms_ok (js_set m (chunk_id c) c) s' /\
  counts_ok (c :: docs) s'.
Proof.
  intros Hf Ht [Hu Hd Htot]. cbv zeta. split_and!; [done|simpl; auto| |].
  - intros id. simpl. rewrite !js_get_set. case_bool_decide; [done|apply Ht].
  - split; simpl.
    + by apply bump_all_unique.
    + intros t. rewrite (bump_all_get _ _ _ (count (mentions t) docs)) by done. f_equal. rewrite count_cons. f_equal.
      unfold js_keys. rewrite count_unique by apply term_freq_unique. unfold mentions.
      by rewrite (bool_decide_ext _ (t ∈ tokens_of c)) by apply term_freq_keys.
    + rewrite Htot. unfold token_count. simpl. unfold tokens_of. lia.
Qed.

Lemma empty_store_ok : store_ok empty_store.
Proof. by repeat split. Qed.

Lemma index_chunk_ok s c : store_ok s -> store_ok (index_chunk self s c).
Proof.
  intros [Hc Hi Hf Ht Hn]. unfold index_chunk. set (id := chunk_id c).
  set (s1 := if js_has (chunksMap s) id then removeFromCorpusStats id s else s).
  assert (chunksMap s1 = chunksMap s /\ unique_keys (chunkTermFreqs s1) /\
    terms_ok (js_delete (chunksMap s) id) s1 /\ counts_ok (js_values (js_delete (chunksMap s) id)) s1) as (H1 & H2 & H3 & H4).
  { unfold s1, js_has. destruct (js_get (chunksMap s) id) as [old|] eqn:Hold; simpl.
    - apply (remove_present s (chunksMap s) _ id old); auto.
      eapply counts_perm; [by apply js_delete_values|done].
    - rewrite js_delete_absent by done. by split_and!. }
  destruct (add_spec (set_chunk c s1) (js_delete (chunksMap s) id) (js_values (js_delete (chunksMap s) id)) c)
    as (H5 & H6 & H7 & H8); [done|done|by apply (counts_chunks _ s1)|].
  split.
  - rewrite H5. simpl. rewrite H1. auto.
  - intros id' c'. rewrite H5. simpl. rewrite H1, js_get_set. case_bool_decide; [by intros [= <-]|apply Hi].
  - done.
  - rewrite H5. simpl. intros id'. rewrite H7, H1, !js_get_set, js_get_delete by done.
    fold id. by repeat case_bool_decide.
  - rewrite H5. simpl. rewrite H1. eapply counts_perm; [symmetry; apply js_set_values|done].
Qed.

Lemma deleteChunk_ok s id : store_ok s -> store_ok (deleteChunk id s).2.
Proof.
  intros [Hc Hi Hf Ht Hn]. unfold deleteChunk. simpl.
  assert (chunksMap (removeFromCorpusStats id s) = chunksMap s /\
    unique_keys (chunkTermFreqs (removeFromCorpusStats id s)) /\
    terms_ok (js_delete (chunksMap s) id) (removeFromCorpusStats id s) /\
    counts_ok (js_values (js_delete (chunksMap s) id)) (removeFromCorpusStats id s)) as (H1 & H2 & H3 & H4).
  { destruct (js_get (chunksMap s) id) as [old|] eqn:Hold.
    - apply (remove_present s (chunksMap s) _ id old); auto.
      eapply counts_perm; [by apply js_delete_values|done].
    - rewrite remove_absent by by rewrite Ht, Hold. rewrite js_delete_absent by done. by split_and!. }
  split; simpl.
  - rewrite H1. auto.
  - intros id' c'. rewrite H1, js_get_delete by done. case_bool_decide; [done|apply Hi].
  - done.
  - rewrite H1. apply H3.
  - rewrite H1. eapply counts_chunks; [..|exact H4]; done.
Qed.

(** The operations on the index: ingesting a list of chunks, deleting, clearing. *)
Inductive store_op : Type :=
| OpIngest (chunks : list DocumentChunk)
| OpDelete (id : string)
| OpClear.

Definition apply_op (s : StoreState) (o : store_op) : StoreState :=
  match o with
  | OpIngest cs => fold_left (index_chunk self) cs s
  | OpDelete id => (deleteChunk id s).2
  | OpClear => clear s
  end.

Lemma ingest_ok cs s : store_ok s -> store_ok (fold_left (index_chunk self) cs s).
Proof. revert s. induction cs as [|c cs IH]; intros s H; simpl; [done|]. by apply IH, index_chunk_ok. Qed.

Lemma reachable_ok ops : store_ok (fold_left apply_op ops empty_store).
Proof.
  assert (forall s, store_ok s -> store_ok (fold_left apply_op ops s)) as H; [|by apply H, empty_store_ok].
  induction ops as [|o ops IH]; intros s Hs; simpl; [done|]. apply IH.
  destruct o; simpl; [by apply ingest_ok|by apply deleteChunk_ok|apply empty_store_ok].
Qed.

(** ** Scores from the corpus *)

#[local] Open Scope Q_scope.

(** BM25 computed from the documents alone. *)
Definition corpus_avg (docs : list DocumentChunk) : Q :=
  match docs with [] => 0 | _ => inject_Z (token_count docs) / Q_len docs end.

Definition corpus_idf (docs : list DocumentChunk) (t : string) : Q :=
  let n := Q_len docs in
  let df := Q_of_nat (count (mentions t) docs) in
  ln ((n - df + (1 # 2)) / (df + (1 # 2)) + 1).

Fixpoint corpus_sum (docs : list DocumentChunk) (c : DocumentChunk) (avgDl : Q) (terms : list string) (score : Q) : Q :=
  match terms with
  | [] => score
  | t :: rest =>
      let f := occurrences t (tokens_of c) in
      corpus_sum docs c avgDl rest
        (if (f =? 0)%nat then score
         else score + bm25_term self (Z.of_nat f) (Z.of_nat (length (tokens_of c))) avgDl (corpus_idf docs t))
  end.

Definition corpus_score (docs : list DocumentChunk) (c : DocumentChunk) (terms : list string) : Q :=
  corpus_sum docs c (if Qeq_bool (corpus_avg docs) 0 then 1 else corpus_avg docs) terms 0.

Lemma avg_is_corpus s : store_ok s -> avgDocLength s = corpus_avg (js_values (chunksMap s)).
Proof.
  intros [_ _ _ _ [_ _ Ht]]. unfold avgDocLength, corpus_avg, Q_len. rewrite Ht.
  destruct (chunksMap s) as [|[k v] m]; [done|]. unfold js_values. simpl. by rewrite length_fmap.
Qed.

Lemma idf_is_corpus s t : store_ok s -> idf ln s t = corpus_idf (js_values (chunksMap s)) t.
Proof.
  intros [_ _ _ _ [_ Hd _]]. unfold idf, corpus_idf, Q_len, Q_of_nat. rewrite Hd, default_stored.
  unfold js_values. by rewrite length_fmap.
Qed.

(** C15. The index never drifts: whatever chunks were ingested, replaced, deleted or
    cleared before, every stored chunk is scored by the incrementally kept
    statistics exactly as by BM25 computed afresh from the stored documents, and an
    id that is not stored scores zero. *)
Theorem index_matches_corpus ops id terms :
  let s := fold_left apply_op ops empty_store in
  let docs := js_values (chunksMap s) in
  bm25Score self ln s id terms =
    match js_get (chunksMap s) id with
    | Some c => corpus_score docs c (js_keys terms)
    | None => 0
    end.
Proof.
  cbv zeta. set (s := fold_left apply_op ops empty_store). pose proof (reachable_ok ops) as Hok. fold s in Hok.
  unfold bm25Score. rewrite (ok_terms s Hok). destruct (js_get (chunksMap s) id) as [c|]; [|done]. simpl.
  unfold corpus_score. rewrite (avg_is_corpus s Hok).
  assert (totalTermCount (term_freq (tokens_of c)) = Z.of_nat (length (tokens_of c))) as -> by apply term_freq_total.
  generalize (if Qeq_bool (corpus_avg (js_values (chunksMap s))) 0 then 1 else corpus_avg (js_values (chunksMap s))).
  intros avg. generalize 0. induction (js_keys terms) as [|t l IH]; intros score; simpl; [done|].
  rewrite term_freq_get, default_stored, IH, (idf_is_corpus s t Hok). f_equal.
  destruct (occurrences t (tokens_of c)); done.
Qed.

End Invariant.
End HybridIndex.

(** * What a search of the hybrid store returns, and how ingestion embeds

    Results are stored chunks under the filter, each once, best first; ingestion
    asks the embedding provider in bounded batches, in order, and never indexes
    after a misaligned answer. *)

#[local] Open Scope string_scope.
#[local] Open Scope list_scope.
#[local] Open Scope Z_scope.
#[local] Open Scope eff_scope.

Module HybridSearch.
Import Consensus Retrieval HybridStore HybridIndex.

(** ** Lists *)

Lemma descending_ordered {A} (f : A -> Q) l : ordered (descending f) (stable_sort (descending f) l).
Proof.
  apply (stable_sort_ordered _ (fun _ => True)); [| |by apply Forall_true]; unfold descending.
  - intros x y _ _. rewrite !Qle_bool_iff. destruct (Qlt_le_dec (f y) (f x)); [left|right]; [by apply Qlt_le_weak|done].
  - intros x y z _ _ _. rewrite !Qle_bool_iff. intros H1 H2. eapply Qle_trans; eauto.
Qed.

Lemma js_of_entries_get {K V} `{!EqDecision K} (es : list (K * V)) m k v :
  js_get (fold_left (fun m e => js_set m e.1 e.2) es m) k = Some v -> (k, v) ∈ es \/ js_get m k = Some v.
Proof.
  revert m. induction es as [|[k' v'] es IH]; intros m; simpl; [auto|].
  intros H. apply IH in H as [H|H]; [left; by right|]. rewrite js_get_set in H.
  case_bool_decide; [|by right]. left. injection H as <-. subst. left.
Qed.

Lemma filter_map_NoDup {A B C} (f : A -> option B) (g : A -> C) (h : B -> C) l :
  (forall x y, f x = Some y -> h y = g x) -> NoDup (map g l) -> NoDup (map h (filter_map f l)).
Proof.
  intros Hf. induction l as [|x l IH]; simpl; [done|]. intros [Hx Hl]%NoDup_cons.
  destruct (f x) as [y|] eqn:Hy; [|by apply IH]. simpl. apply NoDup_cons. split; [|by apply IH].
  rewrite (Hf x y Hy). intros (z & Hz & Hin)%list_elem_of_fmap. apply elem_of_filter_map in Hin as (x' & Hx' & Hfx).
  apply Hx. rewrite Hz, (Hf x' z Hfx). by apply list_elem_of_fmap_2.
Qed.

Section Search.
Context {W : Type} (self : @HybridVectorStore W) (ln sqrt : Q -> Q).

Notation M := (M error event W).

Definition sc_id (x : ScoredDocumentChunk) : string := chunk_id (sc_chunk x).

(** *** Where results come from *)

Lemma weigh_chunks bmWeight raws : map sc_chunk (weigh self bmWeight raws) = map raw_chunk raws.
Proof. unfold weigh. by rewrite map_map. Qed.

Lemma fuse_chunks bmWeight raws x : x ∈ fuseByRrf self bmWeight raws -> sc_chunk x ∈ map raw_chunk raws.
Proof.
  unfold fuseByRrf. intros ([id q] & _ & Hx)%elem_of_filter_map. simpl in Hx.
  destruct (js_get (js_of_entries _) id) as [c|] eqn:Hc; [|done]. injection Hx as <-. simpl.
  apply js_of_entries_get in Hc as [Hc|Hc]; [|done]. apply list_elem_of_fmap in Hc as (r & [= _ ->] & Hr).
  by apply list_elem_of_fmap_2.
Qed.

Lemma fuse_ids bmWeight raws : NoDup (map sc_id (fuseByRrf self bmWeight raws)).
Proof.
  unfold fuseByRrf. apply filter_map_NoDup with (g := fst).
  - intros [id q] y. simpl. destruct (js_get (js_of_entries _) id) as [c|] eqn:Hc; [|done]. intros [= <-]. unfold sc_id. simpl.
    apply js_of_entries_get in Hc as [Hc|Hc]; [|done]. by apply list_elem_of_fmap in Hc as (r & [= -> ->] & Hr).
  - apply fuse_lists_wf. auto.
Qed.

Lemma stored_ids s : store_ok self s -> map chunk_id (js_values (chunksMap s)) = (chunksMap s).*1.
Proof.
  intros [Hu Hi _ _ _]. unfold js_values. assert (forall k c, (k, c) ∈ chunksMap s -> chunk_id c = k) as H.
  { intros k c Hin. by apply Hi, elem_js_get. }
  clear -H. induction (chunksMap s) as [|[k c] m IH]; [done|]. simpl. rewrite (H k c) by left. f_equal.
  apply IH. intros k' c' Hin. apply H. by right.
Qed.

(** The chunks a search considers. *)
Lemma candidates_stored s filter c :
  store_ok self s -> c ∈ List.filter (matches_filter filter) (js_values (chunksMap s)) ->
  js_get (chunksMap s) (chunk_id c) = Some c /\ matches_filter filter c = true.
Proof.
  intros [Hu Hi _ _ _] Hin. apply list_elem_of_In, filter_In in Hin as [Hin Hf]. split; [|done].
  apply list_elem_of_In, list_elem_of_fmap in Hin as ([k c'] & -> & Hin). simpl.
  assert (js_get (chunksMap s) k = Some c') as Hk by by apply elem_js_get.
  by rewrite (Hi k c' Hk).
Qed.

Lemma rank_chunks_spec s query limit filter v x :
  store_ok self s -> x ∈ rank_chunks self ln sqrt s query limit filter v ->
  js_get (chunksMap s) (sc_id x) = Some (sc_chunk x) /\ matches_filter filter (sc_chunk x) = true /\ (0 < sc_score x)%Q.
Proof.
  intros Hok. unfold rank_chunks. set (cands := List.filter (matches_filter filter) (js_values (chunksMap s))).
  destruct cands as [|c0 cs] eqn:Hcands; [by intros ?%elem_of_nil|]. rewrite <- Hcands. clear c0 cs Hcands.
  set (raws := map _ cands). intros Hin. eapply elem_of_sublist in Hin; [|apply slice_front_sublist].
  apply list_elem_of_In, filter_In in Hin as [Hin Hpos]. apply Q_ltb_lt in Hpos.
  apply list_elem_of_In in Hin. rewrite stable_sort_permutation in Hin.
  assert (sc_chunk x ∈ map raw_chunk raws) as Hc.
  { destruct (fusionMethod self); [|by eapply fuse_chunks].
    rewrite <- (weigh_chunks (1 - vectorWeight self)%Q). by apply list_elem_of_fmap_2. }
  unfold raws in Hc. rewrite map_map in Hc. simpl in Hc. rewrite map_id in Hc.
  destruct (candidates_stored s filter (sc_chunk x) Hok Hc) as [H1 H2]. by split_and!.
Qed.

Lemma rank_chunks_ids s query limit filter v :
  store_ok self s -> NoDup (map sc_id (rank_chunks self ln sqrt s query limit filter v)).
Proof.
  intros Hok. unfold rank_chunks. set (cands := List.filter (matches_filter filter) (js_values (chunksMap s))).
  destruct cands as [|c0 cs] eqn:Hcands; [apply NoDup_nil_2|]. rewrite <- Hcands. clear c0 cs Hcands.
  eapply sublist_NoDup; [|eapply fmap_sublist, slice_front_sublist].
  eapply sublist_NoDup; [|eapply fmap_sublist, filter_sublist].
  rewrite stable_sort_permutation. destruct (fusionMethod self); [|apply fuse_ids].
  change (sc_id <$> ?l) with (map (fun x => chunk_id (sc_chunk x)) l). rewrite <- map_map, weigh_chunks, !map_map. simpl.
  eapply sublist_NoDup; [|eapply fmap_sublist, filter_sublist]. change (chunk_id <$> ?l) with (map chunk_id l).
  rewrite stored_ids by done. apply Hok.
Qed.

Lemma rank_chunks_shape s query limit filter v :
  ordered (descending sc_score) (rank_chunks self ln sqrt s query limit filter v) /\
  (0 <= limit -> Z.of_nat (length (rank_chunks self ln sqrt s query limit filter v)) <= limit).
Proof.
  unfold rank_chunks. destruct (List.filter _ _) as [|c cs]; [by split|]. split.
  - eapply ordered_sublist; [apply slice_front_sublist|]. eapply ordered_sublist; [apply filter_sublist|].
    apply descending_ordered.
  - apply slice_front_length.
Qed.

(** C23. A search stays within its filter: whatever the embedding provider answers
    and however the rankings are fused, every result is a chunk the store holds
    whose metadata has each of the filter's values, with a positive score; no chunk
    comes twice, scores do not rise along the list, and there are at most [limit]
    results.  The store may have any history of operations. *)
Theorem search_stays_within_filter ops query limit filter w res w1 l :
  let s := fold_left (apply_op self) ops empty_store in
  searchHybridScored self ln sqrt s query limit filter w = (Ret res, w1, l) ->
  (forall x, x ∈ res ->
     js_get (chunksMap s) (sc_id x) = Some (sc_chunk x) /\ matches_filter filter (sc_chunk x) = true /\
     (0 < sc_score x)%Q) /\
  NoDup (map sc_id res) /\ ordered (descending sc_score) res /\
  (0 <= limit -> Z.of_nat (length res) <= limit).
Proof.
  cbv zeta. set (s := fold_left _ ops _). pose proof (reachable_ok self ops) as Hok. fold s in Hok.
  unfold searchHybridScored. destruct (chunksMap s) as [|e m] eqn:Hm.
  { intros [= <- _ _]. split_and!; [by intros ? ?%elem_of_nil|apply NoDup_nil_2|done|simpl; lia]. }
  rewrite <- Hm. clear e m Hm. intros Hrun.
  apply bind_inv in Hrun as [(v & w2 & l1 & l2 & _ & Hr & _)|[(? & _ & ?)|[_ ?]]]; [|done..].
  injection Hr as <- _ _. split; [|split; [by apply rank_chunks_ids|apply rank_chunks_shape]].
  intros x. by apply rank_chunks_spec.
Qed.

(** ** Ingestion *)

Definition requests (l : list event) : list (list string) :=
  filter_map (fun e => match e with EmbedDocuments texts => Some texts | _ => None end) l.

(** A batch within the size the provider takes. *)
Definition fits (b : list string) : Prop := b <> [] /\ (length b <= embeddingBatchSize self)%nat.

(** [c'] is [c], embedded if it was not. *)
Definition embedded_from (c c' : DocumentChunk) : Prop :=
  if is_some (embedding c) then c' = c else exists e, c' = with_embedding e c.

Definition batches_asked (texts : list string) (o : outcome error (list DocumentChunk)) (l : list DocumentChunk)
    (ev : list event) : Prop :=
  Forall fits (requests ev) /\
  match o with
  | Ret es => concat (requests ev) = texts /\ Forall2 (fun c c' => exists e, c' = with_embedding e c) l es
  | Throw _ => exists rest, texts = concat (requests ev) ++ rest
  | Diverge => False
  end.

Lemma requests_app l1 l2 : requests (l1 ++ l2) = requests l1 ++ requests l2.
Proof. apply filter_map_app. Qed.

Lemma zip_embeddings es l :
  length es = length l -> Forall2 (fun c c' => exists e, c' = with_embedding e c) l (zip_with with_embedding es l).
Proof.
  revert l. induction es as [|e es IH]; intros [|c l]; simpl; try done. intros [= H].
  constructor; [by exists e|by apply IH].
Qed.

Lemma embed_batch_wp p batch w :
  batch <> [] -> (length batch <= embeddingBatchSize self)%nat -> (forall texts w, (embedDocuments p texts w).1 <> Diverge) ->
  wp (embed_batch p batch : M _) w (fun o _ ev => batches_asked (map chunk_content batch) o batch ev).
Proof.
  intros Hne Hlen Hp. unfold embed_batch. do 3 wp_step. apply wp_lift. intros o w1 Ho. assert (Forall fits [map chunk_content batch]) as Hf.
  { constructor; [|constructor]. split; [by destruct batch|by rewrite length_map]. }
  destruct o as [es|e|]; cbn [wp_cont].
  - destruct (length es =? length batch)%nat eqn:Hl; cbn [negb].
    + apply Nat.eqb_eq in Hl. wp_step. split; [done|]. split; [apply app_nil_r|by apply zip_embeddings].
    + wp_step. split; [done|]. exists []. simpl. by rewrite !app_nil_r.
  - split; [done|]. exists []. simpl. by rewrite !app_nil_r.
  - specialize (Hp (map chunk_content batch) w). rewrite Ho in Hp. by destruct Hp.
Qed.

Lemma embed_batches_wp p fuel l w :
  (0 < embeddingBatchSize self)%nat -> (length l <= fuel)%nat ->
  (forall texts w, (embedDocuments p texts w).1 <> Diverge) ->
  wp (embed_batches self p fuel l : M _) w (fun o _ ev => batches_asked (map chunk_content l) o l ev).
Proof.
  intros Hsz Hfuel Hp. revert l w Hfuel. induction fuel as [|fuel IH]; intros [|c l] w Hfuel; simpl in Hfuel; try lia;
    cbn [embed_batches]; try (wp_step; by repeat split).
  set (n := embeddingBatchSize self) in *. wp_step. eapply wp_mono; [apply embed_batch_wp; [|rewrite length_take; lia|done]|].
  { by destruct n; [lia|]. }
  intros o w1 ev [Hf Ho]. destruct o as [es|e|]; cbn [wp_cont]; [| |done].
  2: { split; [done|]. destruct Ho as [rest Ho]. exists (rest ++ map chunk_content (drop n (c :: l))).
       rewrite app_assoc, <- Ho, <- map_app. by rewrite take_drop. }
  destruct Ho as [Hc Hes]. wp_step. eapply wp_mono; [apply IH; rewrite length_drop; simpl; lia|].
  intros o w2 ev2 [Hf2 Ho2].
  assert (map chunk_content (c :: l) = concat (requests ev) ++ map chunk_content (drop n (c :: l))) as Hsplit.
  { rewrite Hc, <- map_app. by rewrite take_drop. }
  destruct o as [rs|e|]; cbn [wp_cont]; [| |done].
  - wp_step. unfold batches_asked. rewrite app_nil_r, requests_app, Forall_app, concat_app. split; [done|].
    destruct Ho2 as [Hc2 Hrs]. split; [by rewrite Hsplit, Hc2|].
    rewrite <- (take_drop n (c :: l)). by apply Forall2_app.
  - unfold batches_asked. rewrite requests_app, Forall_app, concat_app. split; [done|].
    destruct Ho2 as [rest Ho2]. exists rest. by rewrite Hsplit, Ho2, app_assoc.
Qed.

Lemma attach_spec chunks es :
  Forall2 (fun c c' => exists e, c' = with_embedding e c) (List.filter needs_embedding chunks) es ->
  Forall2 embedded_from chunks (attach chunks es).
Proof.
  revert es. induction chunks as [|c cs IH]; intros es H; simpl in *; [constructor|].
  unfold needs_embedding at 1 in H. destruct (is_some (embedding c)) eqn:Hc; simpl in H.
  - constructor; [unfold embedded_from; by rewrite Hc|by apply IH].
  - inversion H as [|? c' ? es' Hc' Hes]; subst. constructor; [unfold embedded_from; by rewrite Hc|by apply IH].
Qed.

(** Ingestion embeds in bounded batches and indexes all or nothing: the provider
    is asked for the contents of the chunks without a vector, in order, each once,
    in nonempty batches of at most the configured size; a successful ingestion
    returns every chunk with a vector and otherwise unchanged and indexes exactly
    those; a provider that fails or answers with the wrong number of vectors makes
    ingestion throw, and it always ends when the provider does. *)
Theorem ingestion_embeds_in_batches p chunks s w :
  embeddingProvider self = Some p -> (0 < embeddingBatchSize self)%nat ->
  (forall texts w, (embedDocuments p texts w).1 <> Diverge) ->
  let texts := map chunk_content (List.filter needs_embedding chunks) in
  wp (addChunks self chunks s : M _) w (fun o _ ev =>
    Forall fits (requests ev) /\
    match o with
    | Ret (cs, s') =>
        concat (requests ev) = texts /\ Forall2 embedded_from chunks cs /\
        Forall (fun c => is_some (embedding c) = true) cs /\ s' = fold_left (index_chunk self) cs s
    | Throw _ => exists rest, texts = concat (requests ev) ++ rest
    | Diverge => False
    end).
Proof.
  intros Hp Hsz Hdiv. cbv zeta. destruct chunks as [|c0 cs0]; [cbn [addChunks]; wp_step; by repeat split|].
  unfold addChunks. set (chunks := c0 :: cs0). wp_step. unfold embed_missing. rewrite Hp. wp_step.
  eapply wp_mono; [by apply embed_batches_wp|]. intros o w1 ev [Hf Ho].
  destruct o as [es|e|]; cbn [wp_cont]; [|done..]. destruct Ho as [Hc Hes].
  repeat (wp_step; cbn [wp_cont]). rewrite !app_nil_r. apply attach_spec in Hes. split; [done|]. split_and!; [done|done| |done].
  apply Forall_forall. intros c' Hin. apply list_elem_of_lookup_1 in Hin as [i Hi].
  destruct (Forall2_lookup_r _ _ _ _ _ Hes Hi) as (c & _ & Hfrom). unfold embedded_from in Hfrom.
  destruct (is_some (embedding c)) eqn:He; [by subst|by destruct Hfrom as [e ->]].
Qed.

End Search.

(** ** A concrete store *)

(** A provider of one-dimensional vectors that counts its requests. *)
Definition demo_provider : @EmbeddingProvider nat := {|
  provider_name := "demo";
  embedQuery := fun _ w => (Ret [1%Q], S w);
  embedDocuments := fun texts w => (Ret (map (fun t => [inject_Z (str_length t)]) texts), S w);
|}.

Definition demo_store (p : option (@EmbeddingProvider nat)) (n : nat) : @HybridVectorStore nat := {|
  embeddingProvider := p; vectorWeight := 1 # 2; fusionMethod := Weighted; rrfK := 60; stopWordsSet := Some ["the"];
  bm25K1 := 6 # 5; bm25B := 3 # 4; embeddingBatchSize := n |}.

Definition demo_chunk (id tenant text : string) : DocumentChunk := {|
  chunk_id := id; parentId := "d"; chunk_content := text; embedding := None;
  chunk_metadata := [("tenant", VStr tenant)]; chunk_provenance := None |}.

Definition demo_chunks : list DocumentChunk :=
  [demo_chunk "a1" "acme" "the refund policy"; demo_chunk "a2" "acme" "shipping"; demo_chunk "b1" "other" "refund refund"].

Definition demo_filter : option obj := Some [("tenant", VStr "acme")].

Lemma search_stays_within_filter_witness :
  let self := demo_store None 2 in
  let s := fold_left (apply_op self) [OpIngest demo_chunks] empty_store in
  exists res, (searchHybridScored self id id s "Refund" 5 demo_filter 0%nat).1.1 = Ret res /\
    map sc_id res = ["a1"] /\ Forall (fun x => matches_filter demo_filter (sc_chunk x) = true) res.
Proof.
  cbv zeta. destruct (searchHybridScored (demo_store None 2) id id
    (fold_left (apply_op (demo_store None 2)) [OpIngest demo_chunks] empty_store) "Refund" 5 demo_filter 0%nat)
    as [[[res|e|] w] l] eqn:Hrun; [|by vm_compute in Hrun..].
  exists res. split; [done|]. split; [vm_compute in Hrun; by injection Hrun as <- _ _|].
  apply Forall_forall. intros x Hx.
  by apply (search_stays_within_filter (demo_store None 2) id id [OpIngest demo_chunks] _ _ _ _ _ _ _ Hrun).
Defined.

Lemma ingestion_embeds_in_batches_witness :
  let self := demo_store (Some demo_provider) 2 in
  exists cs s ev, addChunks self demo_chunks empty_store 0%nat = (Ret (cs, s), 2%nat, ev) /\
    requests ev = [["the refund policy"; "shipping"]; ["refund refund"]] /\
    Forall (fun c => is_some (embedding c) = true) cs.
Proof.
  cbv zeta. pose proof (ingestion_embeds_in_batches (demo_store (Some demo_provider) 2) demo_provider demo_chunks
    empty_store 0%nat eq_refl ltac:(simpl; lia) ltac:(done)) as H. cbv zeta in H. unfold wp in H.
  destruct (addChunks (demo_store (Some demo_provider) 2) demo_chunks empty_store 0%nat) as [[[[cs s]|e|] w] ev] eqn:Hrun;
    [|by vm_compute in Hrun..].
  exists cs, s, ev. destruct H as (_ & _ & _ & Hcs & _). vm_compute in Hrun. injection Hrun as <- <- <- <-.
  split; [done|]. split; [done|exact Hcs].
Defined.

End HybridSearch.
