(* ===== verification/KnowledgeGraph.v ===== *)
(** * Knowledge graphs (packages/rag/src/graph/in-memory-graph.provider.ts,
      packages/rag/src/interfaces/graph.interface.ts)

    The in-memory provider: nodes by id, a list of edges, keyword search and the
    breadth-first neighbourhood of an entity, shown to be exactly its ball. *)

From S2P Require Export Retrieval.

#[local] Open Scope string_scope.
#[local] Open Scope list_scope.
#[local] Open Scope Z_scope.

Module KnowledgeGraph.
Import Retrieval.

Record KnowledgeGraphNode : Type := { node_id : string; label : string; properties : option obj }.
Record KnowledgeGraphEdge : Type := { sourceId : string; targetId : string; relation : string; weight : option Q }.
Record SubGraph : Type := { sub_nodes : list KnowledgeGraphNode; sub_edges : list KnowledgeGraphEdge }.

Record Graph : Type := { nodes : list (string * KnowledgeGraphNode); edges : list KnowledgeGraphEdge }.

Definition empty_graph : Graph := {| nodes := []; edges := [] |}.

Definition addNode (n : KnowledgeGraphNode) (g : Graph) : Graph :=
  {| nodes := js_set (nodes g) (node_id n) n; edges := edges g |}.
Definition addEdge (e : KnowledgeGraphEdge) (g : Graph) : Graph :=
  {| nodes := nodes g; edges := edges g ++ [e] |}.

Definition matches_keyword (keyword : string) (n : KnowledgeGraphNode) : bool :=
  includes keyword (to_lower (node_id n)) || includes keyword (to_lower (label n)) ||
  match properties n with Some o => includes keyword (to_lower (json (VObj o))) | None => false end.

Definition searchNodes (keyword : string) (g : Graph) : list KnowledgeGraphNode :=
  if str_is_empty (trim keyword) then []
  else List.filter (matches_keyword (to_lower keyword)) (js_values (nodes g)).

(** ** The neighbourhood of an entity *)

Definition touches (id : string) (e : KnowledgeGraphEdge) : bool :=
  bool_decide (sourceId e = id) || bool_decide (targetId e = id).

Definition connectedEdges (es : list KnowledgeGraphEdge) (id : string) : list KnowledgeGraphEdge :=
  List.filter (touches id) es.

Definition edgeKey (e : KnowledgeGraphEdge) : string :=
  sourceId e +:+ "->" +:+ relation e +:+ "->" +:+ targetId e.

(** The other end of an edge, seen from [id]. *)
Definition neighborId (id : string) (e : KnowledgeGraphEdge) : string :=
  if bool_decide (sourceId e = id) then targetId e else sourceId e.

Record Bfs : Type := {
  queue : list (string * Z);
  visitedNodes : list string;
  matchedEdgesMap : list (string * KnowledgeGraphEdge);
}.

(** The loop over the edges of the entity taken from the queue. *)
Definition follow (id : string) (currentDepth : Z) (st : Bfs) (e : KnowledgeGraphEdge) : Bfs :=
  let next := neighborId id e in
  {| queue := if bool_decide (next ∈ visitedNodes st) then queue st else queue st ++ [(next, currentDepth + 1)];
     visitedNodes := visitedNodes st;
     matchedEdgesMap := js_set (matchedEdgesMap st) (edgeKey e) e |}.

(** One iteration of the loop on the queue. *)
Definition visit (es : list KnowledgeGraphEdge) (depth : Z) (id : string) (currentDepth : Z) (st : Bfs) : Bfs :=
  if (depth <? currentDepth) || bool_decide (id ∈ visitedNodes st) then st
  else fold_left (follow id currentDepth) (connectedEdges es id)
         {| queue := queue st; visitedNodes := visitedNodes st ++ [id]; matchedEdgesMap := matchedEdgesMap st |}.

Fixpoint bfs (es : list KnowledgeGraphEdge) (depth : Z) (fuel : nat) (st : Bfs) : option Bfs :=
  match queue st, fuel with
  | [], _ => Some st
  | _, O => None
  | (id, d) :: q, S fuel' =>
      bfs es depth fuel'
        (visit es depth id d {| queue := q; visitedNodes := visitedNodes st; matchedEdgesMap := matchedEdgesMap st |})
  end.

Definition degree (es : list KnowledgeGraphEdge) (id : string) : nat := length (connectedEdges es id).

(** The entities a traversal can meet. *)
Definition vertices (es : list KnowledgeGraphEdge) (root : string) : list string :=
  fold_left set_add (root :: map sourceId es ++ map targetId es) [].

(** Each entity adds at most its edges to the queue, once. *)
Definition work (es : list KnowledgeGraphEdge) (vs : list string) : nat := foldr Nat.add O (map (degree es) vs).

Definition querySubGraph (g : Graph) (entityId : string) (depth : Z) : option SubGraph :=
  st ← bfs (edges g) depth (S (work (edges g) (vertices (edges g) entityId)))
         {| queue := [(entityId, 0)]; visitedNodes := []; matchedEdgesMap := [] |};
  Some {| sub_nodes := filter_map (js_get (nodes g)) (visitedNodes st);
          sub_edges := js_values (matchedEdgesMap st) |}.

(** ** Termination *)

(** The entities still to be met. *)
Definition unvisited (vs visited : list string) : list string := List.filter (fun v => negb (bool_decide (v ∈ visited))) vs.

Lemma root_vertex es root : root ∈ vertices es root.
Proof. unfold vertices. rewrite fold_set_add. right. left. Qed.

Lemma neighbor_vertex es root id e : e ∈ connectedEdges es id -> neighborId id e ∈ vertices es root.
Proof.
  intros Hin. apply list_elem_of_In, filter_In in Hin as [Hin _]. apply list_elem_of_In in Hin.
  unfold vertices. rewrite fold_set_add, elem_of_cons, elem_of_app. right. right. unfold neighborId.
  case_bool_decide; [right|left]; by apply list_elem_of_fmap_2.
Qed.

Lemma work_perm es l1 l2 : l1 ≡ₚ l2 -> work es l1 = work es l2.
Proof. unfold work. induction 1; simpl; lia. Qed.

Lemma unvisited_take vs visited id :
  NoDup vs -> id ∈ vs -> id ∉ visited -> unvisited vs visited ≡ₚ id :: unvisited vs (visited ++ [id]).
Proof.
  unfold unvisited. induction 1 as [|v vs Hv Hnd IH]; [by intros ?%elem_of_nil|]. intros Hin Hid. simpl.
  apply elem_of_cons in Hin as [<-|Hin].
  - rewrite (bool_decide_eq_false_2 (id ∈ visited)) by done. rewrite (bool_decide_eq_true_2 (id ∈ visited ++ [id])) by set_solver.
    simpl. f_equiv. apply Permutation_refl'. apply List.filter_ext_in. intros x Hx%list_elem_of_In. f_equal.
    apply bool_decide_ext. assert (x <> id) by (by intros ->). set_solver.
  - assert (v <> id) by (by intros ->). rewrite (bool_decide_ext (v ∈ visited ++ [id]) (v ∈ visited)) by set_solver.
    case_bool_decide; simpl; [by apply IH|]. rewrite IH by done. apply perm_swap.
Qed.

Lemma follow_visited id d st es : visitedNodes (fold_left (follow id d) es st) = visitedNodes st.
Proof. revert st. induction es as [|e es IH]; intros st; simpl; [done|]. by rewrite IH. Qed.

(** The entries added to the queue by the edges of an entity. *)
Definition additions (id : string) (d : Z) (visited : list string) (es : list KnowledgeGraphEdge) : list (string * Z) :=
  filter_map (fun e => let n := neighborId id e in if bool_decide (n ∈ visited) then None else Some (n, d + 1)) es.

Lemma follow_queue id d st es :
  queue (fold_left (follow id d) es st) = queue st ++ additions id d (visitedNodes st) es.
Proof.
  revert st. induction es as [|e es IH]; intros st; simpl; [by rewrite app_nil_r|].
  rewrite IH. simpl. unfold additions. simpl. case_bool_decide; simpl; [done|]. by rewrite <- app_assoc.
Qed.

Lemma filter_map_length {A B} (f : A -> option B) l : (length (filter_map f l) <= length l)%nat.
Proof. induction l as [|x l IH]; simpl; [done|]. destruct (f x); simpl; lia. Qed.

Lemma additions_vertices es root id d visited : Forall (fun x => x.1 ∈ vertices es root) (additions id d visited (connectedEdges es id)).
Proof.
  apply Forall_forall. intros [v k] Hin. apply elem_of_filter_map in Hin as (e & He & Hx). simpl in *.
  case_bool_decide; [done|]. injection Hx as <- <-. by apply neighbor_vertex.
Qed.

Lemma bfs_ends es root depth fuel st :
  Forall (fun x => x.1 ∈ vertices es root) (queue st) ->
  (length (queue st) + work es (unvisited (vertices es root) (visitedNodes st)) <= fuel)%nat ->
  exists st', bfs es depth fuel st = Some st'.
Proof.
  revert st. induction fuel as [|fuel IH]; intros st Hq Hf; destruct st as [q visited m]; simpl in *;
    (destruct q as [|[id d] q]; [by eexists|]); [simpl in Hf; lia|].
  apply Forall_cons in Hq as [Hid Hq]. simpl in Hid. apply IH; unfold visit; simpl; destruct (_ || _) eqn:Hskip; simpl; try done.
  - rewrite follow_queue. simpl. apply Forall_app. split; [done|apply additions_vertices].
  - simpl in Hf. lia.
  - rewrite follow_visited, follow_queue. simpl. apply orb_false_iff in Hskip as [_ Hv%bool_decide_eq_false].
    assert (NoDup (vertices es root)) as Hnd by (apply fold_set_add_NoDup, NoDup_nil_2).
    rewrite (work_perm _ _ _ (unvisited_take (vertices es root) visited id Hnd Hid Hv)) in Hf. simpl in Hf.
    rewrite length_app. pose proof (filter_map_length
      (fun e => let n := neighborId id e in if bool_decide (n ∈ visited ++ [id]) then None else Some (n, d + 1))
      (connectedEdges es id)) as Ha. unfold additions. unfold work, degree in *. simpl in Hf. lia.
Qed.

(** ** The ball *)

(** Relations may be followed in both directions. *)
Definition adjacent (es : list KnowledgeGraphEdge) (a b : string) : Prop :=
  exists e, e ∈ es /\ ((sourceId e = a /\ targetId e = b) \/ (targetId e = a /\ sourceId e = b)).

Inductive walk (es : list KnowledgeGraphEdge) (root : string) : nat -> string -> Prop :=
| walk_here : walk es root O root
| walk_on n a b : walk es root n a -> adjacent es a b -> walk es root (S n) b.

Lemma elem_of_connected es id e : e ∈ connectedEdges es id <-> e ∈ es /\ touches id e = true.
Proof. unfold connectedEdges. rewrite !list_elem_of_In. apply filter_In. Qed.

Lemma adjacent_neighbor es id u : adjacent es id u <-> exists e, e ∈ connectedEdges es id /\ neighborId id e = u.
Proof.
  setoid_rewrite elem_of_connected. unfold touches, neighborId. split.
  - intros (e & He & H). exists e. rewrite orb_true_iff, !bool_decide_eq_true. case_bool_decide; naive_solver.
  - intros (e & [He Ht] & <-). exists e. rewrite orb_true_iff, !bool_decide_eq_true in Ht. case_bool_decide; naive_solver.
Qed.

Section Ball.
Context (es : list KnowledgeGraphEdge) (depth : Z) (root : string).

(** The state of the traversal, with the depth [vs] at which each entity was met. *)
Record ball_inv (vs : list (string * Z)) (st : Bfs) : Prop := {
  inv_visited : visitedNodes st = vs.*1;
  inv_met : forall v d, (v, d) ∈ vs -> 0 <= d <= depth /\ walk es root (Z.to_nat d) v;
  inv_queued : forall v d, (v, d) ∈ queue st -> 0 <= d /\ walk es root (Z.to_nat d) v;
  inv_sorted : ordered (fun x y => x.2 <=? y.2) (queue st);
  inv_behind : forall x y, x ∈ vs -> y ∈ queue st -> x.2 <= y.2;
  inv_span : forall x y, x ∈ queue st -> y ∈ queue st -> y.2 <= x.2 + 1;
  inv_root : depth < 0 \/ (root, 0) ∈ vs \/ (root, 0) ∈ queue st;
  inv_next : forall v d u, (v, d) ∈ vs -> adjacent es v u ->
    depth < d + 1 \/ exists k, k <= d + 1 /\ ((u, k) ∈ vs \/ (u, k) ∈ queue st);
}.

Lemma ball_start : ball_inv [] {| queue := [(root, 0)]; visitedNodes := []; matchedEdgesMap := [] |}.
Proof.
  split; simpl.
  - done.
  - by intros v d ?%elem_of_nil.
  - intros v d [= -> ->]%list_elem_of_singleton. split; [lia|constructor].
  - by repeat constructor.
  - by intros x y ?%elem_of_nil.
  - intros x y ->%list_elem_of_singleton ->%list_elem_of_singleton. simpl. lia.
  - right. right. left.
  - by intros v d u ?%elem_of_nil.
Qed.

Lemma sorted_head x q y : ordered (fun a b : string * Z => a.2 <=? b.2) (x :: q) -> y ∈ x :: q -> x.2 <= y.2.
Proof.
  intros [Hx _] [->|Hy]%elem_of_cons; [done|]. apply Z.leb_le. by apply (proj1 (Forall_forall _ _) Hx).
Qed.

(** An entry that is dropped: it is too deep or its entity has been met. *)
Lemma ball_skip vs id d q visited m :
  ball_inv vs {| queue := (id, d) :: q; visitedNodes := visited; matchedEdgesMap := m |} ->
  depth < d \/ id ∈ visited ->
  ball_inv vs {| queue := q; visitedNodes := visited; matchedEdgesMap := m |}.
Proof.
  intros [Hv Hm Hq Hs Hb Hsp Hr Hn] Hskip. simpl in *.
  assert (depth < d \/ exists k, (id, k) ∈ vs /\ k <= d) as Hdrop.
  { destruct Hskip as [|Hin]; [by left|right]. rewrite Hv in Hin. apply list_elem_of_fmap in Hin as ([v k] & -> & Hin).
    exists k. split; [done|]. apply (Hb (v, k) (v, d)); [done|left]. }
  split; simpl; try done.
  - intros v k Hin. apply Hq. by right.
  - apply Hs.
  - intros x y Hx Hy. apply Hb; [done|by right].
  - intros x y Hx Hy. apply Hsp; by right.
  - destruct Hr as [Hr|[Hr|[[= -> <-]|Hr]%elem_of_cons]]; [by left|by right; left| |by right; right].
    destruct Hdrop as [|(k & Hk & Hle)]; [by left|right; left]. destruct (Hm _ _ Hk) as [Hk' _].
    by replace 0 with k by lia.
  - intros v dv u Hin Hadj. destruct (Hn v dv u Hin Hadj) as [Hd|(k & Hk & Hu)]; [by left|].
    destruct Hu as [Hu|[[= -> ->]|Hu]%elem_of_cons]; [right; eauto| |right; eauto].
    destruct Hdrop as [|(k' & Hk' & Hle)]; [left; lia|]. right. exists k'. split; [lia|by left].
Qed.

(** An entity met for the first time. *)
Lemma ball_meet vs id d q visited m m' :
  ball_inv vs {| queue := (id, d) :: q; visitedNodes := visited; matchedEdgesMap := m |} ->
  d <= depth -> id ∉ visited ->
  ball_inv (vs ++ [(id, d)])
    {| queue := q ++ additions id d (visited ++ [id]) (connectedEdges es id); visitedNodes := visited ++ [id];
       matchedEdgesMap := m' |}.
Proof.
  intros [Hv Hm Hq Hs Hb Hsp Hr Hn] Hd Hid. simpl in *.
  assert (forall x, x ∈ additions id d (visited ++ [id]) (connectedEdges es id) ->
    x.2 = d + 1 /\ adjacent es id x.1) as Hadd.
  { intros [v k] Hin. apply elem_of_filter_map in Hin as (e & He & Hx). simpl in *.
    case_bool_decide; [done|]. injection Hx as <- <-. split; [done|]. apply adjacent_neighbor. eauto. }
  destruct (Hq id d) as [Hd0 Hw]; [left|].
  assert (forall y, y ∈ q -> d <= y.2 <= d + 1) as Hqd.
  { intros y Hy. split; [apply (sorted_head (id, d) q y); [done|by right]|]. apply (Hsp (id, d)); [left|by right]. }
  assert (forall x, x ∈ vs -> x.2 <= d) as Hvd by (intros x Hx; apply (Hb x (id, d)); [done|left]).
  split; simpl.
  - rewrite fmap_app, Hv. done.
  - intros v k [Hin|[= -> ->]%list_elem_of_singleton]%elem_of_app; [by apply Hm|done].
  - intros v k [Hin|Hin]%elem_of_app; [apply Hq; by right|]. destruct (Hadd _ Hin) as [Hk Hadj]. simpl in *. subst k.
    split; [lia|]. replace (Z.to_nat (d + 1)) with (S (Z.to_nat d)) by lia. by econstructor.
  - apply ordered_app. split; [apply Hs|]. split.
    + clear -Hadd. induction (additions _ _ _ _) as [|x l IH]; [done|]. split; [|apply IH; intros y Hy; apply Hadd; by right].
      apply Forall_forall. intros y Hy. apply Z.leb_le. destruct (Hadd x ltac:(left)), (Hadd y ltac:(by right)). lia.
    + apply Forall_forall. intros x Hx. apply Forall_forall. intros y Hy. apply Z.leb_le.
      destruct (Hadd y Hy), (Hqd x Hx). lia.
  - intros x y [Hx|Hx%list_elem_of_singleton]%elem_of_app [Hy|Hy]%elem_of_app; try subst x; simpl.
    + destruct (Hqd y Hy). specialize (Hvd x Hx). lia.
    + destruct (Hadd y Hy). specialize (Hvd x Hx). lia.
    + by destruct (Hqd y Hy).
    + destruct (Hadd y Hy). lia.
  - assert (forall y, y ∈ q ++ additions id d (visited ++ [id]) (connectedEdges es id) -> d <= y.2 <= d + 1) as Hall.
    { intros y [Hy|Hy]%elem_of_app; [by apply Hqd|]. destruct (Hadd y Hy). lia. }
    intros x y Hx%Hall Hy%Hall. lia.
  - right. destruct Hr as [Hr|[Hr|[[= -> <-]|Hr]%elem_of_cons]]; [lia|left; set_solver|left; set_solver|right; set_solver].
  - intros v dv u [Hin|[= -> ->]%list_elem_of_singleton]%elem_of_app Hadj.
    + destruct (Hn v dv u Hin Hadj) as [|(k & Hk & Hu)]; [by left|right; exists k; split; [done|]].
      destruct Hu as [Hu|[[= -> ->]|Hu]%elem_of_cons]; [left|left|right]; set_solver.
    + right. destruct (decide (u ∈ visited ++ [id])) as [Hu|Hu].
      * apply elem_of_app in Hu as [Hu|Hu%list_elem_of_singleton]; [|subst u; exists d; split; [lia|left; set_solver]].
        rewrite Hv in Hu. apply list_elem_of_fmap in Hu as ([u' k] & -> & Hu). exists k.
        split; [specialize (Hvd _ Hu); simpl in Hvd; lia|left; set_solver].
      * exists (d + 1). split; [done|right]. apply elem_of_app. right. apply elem_of_filter_map.
        apply adjacent_neighbor in Hadj as (e & He & <-). exists e. split; [done|]. simpl.
        by rewrite bool_decide_eq_false_2.
Qed.

Lemma ball_bfs fuel vs st st' :
  ball_inv vs st -> bfs es depth fuel st = Some st' -> exists vs', ball_inv vs' st' /\ queue st' = [].
Proof.
  revert vs st. induction fuel as [|fuel IH]; intros vs [q visited m] Hinv; simpl; (destruct q as [|[id d] q];
    [intros [= <-]; by exists vs|]); [done|].
  unfold visit. simpl. destruct ((depth <? d) || bool_decide (id ∈ visited)) eqn:Hskip.
  - apply (IH vs). eapply ball_skip; [exact Hinv|]. apply orb_true_iff in Hskip as [H%Z.ltb_lt|H%bool_decide_eq_true]; auto.
  - apply orb_false_iff in Hskip as [H1%Z.ltb_ge H2%bool_decide_eq_false].
    pose proof (ball_meet vs id d q visited m
      (matchedEdgesMap (fold_left (follow id d) (connectedEdges es id)
        {| queue := q; visitedNodes := visited ++ [id]; matchedEdgesMap := m |})) Hinv H1 H2) as Hm.
    intros Hb. eapply (IH (vs ++ [(id, d)])); [|exact Hb]. revert Hm.
    rewrite <- (follow_queue id d {| queue := q; visitedNodes := visited ++ [id]; matchedEdgesMap := m |}).
    rewrite <- (follow_visited id d {| queue := q; visitedNodes := visited ++ [id]; matchedEdgesMap := m |} (connectedEdges es id)) at 2.
    by destruct (fold_left _ _ _).
Qed.

(** When the queue is empty the entities met are those of the ball. *)
Lemma ball_final vs st v :
  ball_inv vs st -> queue st = [] ->
  (v ∈ visitedNodes st <-> exists n, Z.of_nat n <= depth /\ walk es root n v).
Proof.
  intros [Hv Hm Hq Hs Hb Hsp Hr Hn] Hnil. rewrite Hv. split.
  - intros Hin. apply list_elem_of_fmap in Hin as ([v' d] & -> & Hin). destruct (Hm _ _ Hin) as [Hd Hw].
    exists (Z.to_nat d). simpl. split; [lia|done].
  - intros (n & Hn' & Hw). enough (exists d, (v, d) ∈ vs /\ d <= Z.of_nat n) as (d & Hin & _)
      by exact (list_elem_of_fmap_2 fst _ _ Hin).
    induction Hw as [|n a b Hw IH Hadj].
    + rewrite Hnil in Hr. destruct Hr as [|[Hr|?%elem_of_nil]]; [lia| |done]. exists 0. by split; [|lia].
    + destruct IH as (d & Hin & Hd); [lia|]. destruct (Hn _ _ _ Hin Hadj) as [|(k & Hk & [Hu|Hu])]; [lia| |].
      * exists k. split; [done|lia].
      * rewrite Hnil in Hu. by apply elem_of_nil in Hu.
Qed.

End Ball.

(** *** The edges reported *)

Record edges_inv (es : list KnowledgeGraphEdge) (st : Bfs) : Prop := {
  inv_stored : forall k e, js_get (matchedEdgesMap st) k = Some e ->
    e ∈ es /\ edgeKey e = k /\ exists v, v ∈ visitedNodes st /\ touches v e = true;
  inv_all : forall v e, v ∈ visitedNodes st -> e ∈ es -> touches v e = true ->
    is_Some (js_get (matchedEdgesMap st) (edgeKey e));
}.

Lemma follow_edges id d l st k :
  js_get (matchedEdgesMap (fold_left (follow id d) l st)) k =
    match last (List.filter (fun e => bool_decide (edgeKey e = k)) l) with
    | Some e => Some e
    | None => js_get (matchedEdgesMap st) k
    end.
Proof.
  revert st. induction l as [|e l IH]; intros st; simpl; [done|]. rewrite IH. simpl. rewrite js_get_set.
  case_bool_decide; [|by destruct (last _)]. rewrite last_cons. by destruct (last _).
Qed.

Lemma edges_visit es depth id d st :
  edges_inv es st -> edges_inv es (visit es depth id d st).
Proof.
  intros [Hs Ha]. unfold visit. destruct (_ || _); [done|]. split.
  - intros k e. rewrite follow_edges, follow_visited. simpl.
    destruct (last _) as [e'|] eqn:Hl.
    + intros [= <-]. apply last_Some_elem_of, list_elem_of_In, filter_In in Hl as [Hin Hk%bool_decide_eq_true].
      apply list_elem_of_In, elem_of_connected in Hin as [Hin Ht]. split_and!; [done|done|]. exists id. set_solver.
    + intros H. destruct (Hs _ _ H) as (? & ? & v & Hv & Ht). split_and!; [done|done|]. exists v. set_solver.
  - intros v e. rewrite follow_edges, follow_visited. simpl. intros Hv He Ht.
    destruct (last _) as [e'|] eqn:Hl; [by eexists|]. apply elem_of_app in Hv as [Hv|Hv%list_elem_of_singleton]; [by eapply Ha|]. subst v.
    exfalso. apply last_None in Hl. assert (e ∈ List.filter (fun x => bool_decide (edgeKey x = edgeKey e)) (connectedEdges es id)) as Hin.
    { apply list_elem_of_In, filter_In. split; [by apply list_elem_of_In, elem_of_connected|by apply bool_decide_eq_true_2]. }
    rewrite Hl in Hin. by apply elem_of_nil in Hin.
Qed.

Lemma edges_bfs es depth fuel st st' : edges_inv es st -> bfs es depth fuel st = Some st' -> edges_inv es st'.
Proof.
  revert st. induction fuel as [|fuel IH]; intros [q visited m] Hinv; simpl; (destruct q as [|[id d] q];
    [by intros [= <-]|]); [done|]. intros H. eapply IH; [|exact H]. apply edges_visit. destruct Hinv as [Hs Ha]. by split.
Qed.

(** The edges reported are indexed by distinct keys. *)
Lemma bfs_unique es depth fuel st st' :
  unique_keys (matchedEdgesMap st) -> bfs es depth fuel st = Some st' -> unique_keys (matchedEdgesMap st').
Proof.
  assert (forall id d l st, unique_keys (matchedEdgesMap st) ->
    unique_keys (matchedEdgesMap (fold_left (follow id d) l st))) as Hf.
  { intros id d l. induction l as [|e l IH]; intros s H; simpl; [done|]. apply IH. simpl. auto. }
  revert st. induction fuel as [|fuel IH]; intros [q visited m] Hu; simpl; (destruct q as [|[id d] q];
    [by intros [= <-]|]); [done|]. intros H. eapply IH; [|exact H]. unfold visit. destruct (_ || _); [done|]. by apply Hf.
Qed.

(** An edge at an entity of the ball. *)
Definition at_ball (g : Graph) (entityId : string) (depth : Z) (e : KnowledgeGraphEdge) : Prop :=
  e ∈ edges g /\ exists v k, touches v e = true /\ Z.of_nat k <= depth /\ walk (edges g) entityId k v.

(** C33. A neighbourhood query always ends, and reports exactly the known nodes within
    [depth] relation hops of the entity, whatever the direction of the relations and
    whatever cycles there are.  The edges it reports are edges at entities of the ball,
    one for each text [source->relation->target] among them; so an edge that shares its
    text with no other edge is reported exactly when it is at the ball. *)
Theorem subgraph_is_ball g entityId depth :
  exists r, querySubGraph g entityId depth = Some r /\
    (forall n, n ∈ sub_nodes r <->
       exists id k, js_get (nodes g) id = Some n /\ Z.of_nat k <= depth /\ walk (edges g) entityId k id) /\
    (forall e, e ∈ sub_edges r -> at_ball g entityId depth e) /\
    (forall k, k ∈ map edgeKey (sub_edges r) <-> exists e, at_ball g entityId depth e /\ edgeKey e = k) /\
    NoDup (map edgeKey (sub_edges r)) /\
    (forall e, (forall e', e' ∈ edges g -> edgeKey e' = edgeKey e -> e' = e) ->
       e ∈ sub_edges r <-> at_ball g entityId depth e).
Proof.
  unfold querySubGraph. set (st0 := {| queue := [(entityId, 0)]; visitedNodes := []; matchedEdgesMap := [] |}).
  destruct (bfs_ends (edges g) entityId depth (S (work (edges g) (vertices (edges g) entityId))) st0) as [st Hst].
  { constructor; [apply root_vertex|constructor]. }
  { simpl. apply le_n_S. apply Nat.eq_le_incl, work_perm. unfold unvisited. rewrite (forallb_filter_id); [done|].
    by apply forallb_forall. }
  destruct (ball_bfs _ _ _ _ _ _ _ (ball_start (edges g) depth entityId) Hst) as (vs & Hinv & Hq).
  assert (edges_inv (edges g) st) as [Hs Ha].
  { eapply edges_bfs; [|exact Hst]. split; [done|]. intros v e Hv. by apply elem_of_nil in Hv. }
  assert (unique_keys (matchedEdgesMap st)) as Huk by (eapply bfs_unique; [|exact Hst]; apply unique_keys_nil). fold st0. rewrite Hst. simpl.
  eexists. split; [done|]. simpl.
  assert (forall e, e ∈ js_values (matchedEdgesMap st) -> at_ball g entityId depth e) as Hin_ball.
  { intros e Hin. apply list_elem_of_fmap in Hin as ([k e'] & -> & Hin). simpl.
    destruct (Hs k e' (elem_js_get _ _ _ Huk Hin)) as (He & _ & v & Hv & Ht). split; [done|].
    apply (ball_final _ _ _ _ _ _ Hinv Hq) in Hv as (n & Hn & Hw). eauto. }
  assert (forall e, at_ball g entityId depth e ->
    exists e', e' ∈ js_values (matchedEdgesMap st) /\ edgeKey e' = edgeKey e) as Hrep.
  { intros e (He & v & k & Ht & Hk & Hw). destruct (Ha v e) as [e' He']; [|done|done|].
    { apply (ball_final _ _ _ _ _ _ Hinv Hq). eauto. }
    exists e'. split; [|by destruct (Hs _ _ He') as (_ & ? & _)].
    apply js_get_elem, (list_elem_of_fmap_2 snd) in He'. done. }
  split_and!.
  - intros n. rewrite elem_of_filter_map. split.
    + intros (id & Hid & Hn). apply (ball_final _ _ _ _ _ _ Hinv Hq) in Hid as (k & Hk & Hw). eauto.
    + intros (id & k & Hn & Hk & Hw). exists id. split; [|done]. apply (ball_final _ _ _ _ _ _ Hinv Hq). eauto.
  - exact Hin_ball.
  - intros k. rewrite list_elem_of_fmap. split.
    + intros (e & -> & He). eauto.
    + intros (e & He & <-). destruct (Hrep e He) as (e' & ? & ?). eauto.
  - assert (map edgeKey (js_values (matchedEdgesMap st)) = map fst (matchedEdgesMap st)) as ->; [|exact Huk].
    unfold js_values. rewrite map_map. apply map_ext_in. intros [k e] Hin%list_elem_of_In. simpl.
    by destruct (Hs k e (elem_js_get _ _ _ Huk Hin)) as (_ & ? & _).
  - intros e Halone. split; [apply Hin_ball|]. intros He. destruct (Hrep e He) as (e' & Hin & Hk).
    destruct (Hin_ball e' Hin) as [He' _]. by rewrite <- (Halone e' He' Hk).
Qed.

(** Two edges whose texts agree are one in the answer, whether their ends and relation
    differ or only their weight: the other is lost. *)
Definition twin (source relation_ target : string) (w : option Q) : KnowledgeGraphEdge :=
  {| sourceId := source; targetId := target; relation := relation_; weight := w |}.

Example edges_with_one_text_are_merged :
  let g es := {| nodes := []; edges := es |} in
  let one := twin "A" "r->B" "C" None in let other := twin "A" "r" "B->C" None in
  let light := twin "A" "r" "B" (Some (1 # 2)%Q) in let heavy := twin "A" "r" "B" (Some 1%Q) in
  sub_edges <$> querySubGraph (g [one; other]) "A" 2 = Some [other] /\
  sub_edges <$> querySubGraph (g [light; heavy]) "A" 2 = Some [heavy].
Proof. by vm_compute. Qed.

End KnowledgeGraph.
