(* ===== verification/RagStrategies.v ===== *)
(** * Post-retrieval strategies (packages/rag/src/strategies)

    Maximal marginal relevance, reranking, parent-child hydration, contextual
    compression and the U-shaped context, each as the function of the context its
    [process] is. Below it, the strategies that assemble text. *)

From Stdlib Require Import Ascii.
From S2P Require Export Retrieval UCurve.

#[local] Open Scope string_scope.
#[local] Open Scope list_scope.
#[local] Open Scope Z_scope.
#[local] Open Scope eff_scope.

Module RagStrategies.
Import Consensus Retrieval.

Definition range_error (message : string) : error := NativeErr "RangeError" message.

(** ** Maximal marginal relevance (mmr.strategy.ts) *)

Module Mmr.

Record MmrStrategy : Type := { topK : nat; lambda : Q }.

Definition mk_mmr (topK_option lambda_option : option num) : error + MmrStrategy :=
  let k := default (num_of_Z 5) topK_option in
  match num_to_Z k with
  | Some z =>
      if z <? 0 then inl (range_error ("MmrStrategy: topK must be a non-negative integer, got " +:+ num_to_string k))
      else
        let l := default (NDec 5 (-1)) lambda_option in
        match num_Q l with
        | Some q =>
            if Q_ltb q 0 || Q_ltb 1 q then
              inl (range_error ("MmrStrategy: lambda must be a finite number in [0, 1], got " +:+ num_to_string l))
            else inr {| topK := Z.to_nat z; lambda := q |}
        | None => inl (range_error ("MmrStrategy: lambda must be a finite number in [0, 1], got " +:+ num_to_string l))
        end
  | None => inl (range_error ("MmrStrategy: topK must be a non-negative integer, got " +:+ num_to_string k))
  end.

Section Mmr.
Context (sqrt : Q -> Q) (self : MmrStrategy) (relevance : DocumentChunk -> Q).

(** The similarity to the selected chunks; [None] is -Infinity. *)
Fixpoint maxSimToSelected (e : list Q) (selected : list DocumentChunk) (acc : option Q) : option Q :=
  match selected with
  | [] => acc
  | s :: rest =>
      maxSimToSelected e rest
        (match embedding s with
         | None => acc
         | Some v => let sim := cosineSimilarity sqrt e v in
                     match acc with Some m => if Q_ltb m sim then Some sim else acc | None => Some sim end
         end)
  end.

Definition mmrScore (selected : list DocumentChunk) (candidate : DocumentChunk) : Q :=
  let maxSim := match embedding candidate with Some e => maxSimToSelected e selected None | None => None end in
  lambda self * relevance candidate - (1 - lambda self) * default 0%Q maxSim.

(** The loop over the remaining candidates: the first of the best. *)
Fixpoint best_of (selected remaining : list DocumentChunk) (i bestIndex : nat) (bestScore : option Q) : nat :=
  match remaining with
  | [] => bestIndex
  | c :: rest =>
      let score := mmrScore selected c in
      if match bestScore with Some b => Q_ltb b score | None => true end
      then best_of selected rest (S i) i (Some score)
      else best_of selected rest (S i) bestIndex bestScore
  end.

(** The selection loop; [n] picks are left. *)
Fixpoint select (n : nat) (remaining selected : list DocumentChunk) : list DocumentChunk :=
  match n, remaining with
  | O, _ | _, [] => selected
  | S n', _ =>
      let bestIndex := best_of selected remaining 0 0 None in
      match remaining !! bestIndex with
      | Some c => select n' (delete bestIndex remaining) (selected ++ [c])
      | None => selected
      end
  end.
End Mmr.

Definition process (sqrt : Q -> Q) (self : MmrStrategy) (context : RAGContext) : RAGContext :=
  match default [] (rag_chunks context) with
  | [] => context
  | cs =>
      if negb (existsb (fun c => is_some (embedding c)) cs) then with_chunks (take (topK self) cs) context
      else
        let relevance c := score_of (default [] (rag_scores context)) (chunk_id c) in
        with_chunks (select sqrt self relevance (topK self) cs []) context
  end.

(** *** The greedy choice *)

Section Greedy.
Context (sqrt : Q -> Q) (self : MmrStrategy) (relevance : DocumentChunk -> Q).
Notation mmrScore := (mmrScore sqrt self relevance).

Lemma best_of_spec selected remaining i best score :
  let r := best_of sqrt self relevance selected remaining i best score in
  (r = best /\ (forall q, score = Some q -> Forall (fun c => mmrScore selected c <= q)%Q remaining) /\
     (score = None -> remaining = [])) \/
  (exists k c, r = (i + k)%nat /\ remaining !! k = Some c /\
     Forall (fun c' => mmrScore selected c' <= mmrScore selected c)%Q remaining /\
     (forall q, score = Some q -> q <= mmrScore selected c)%Q).
Proof.
  revert i best score. induction remaining as [|c rest IH]; intros i best score; cbv zeta; simpl.
  { left. by repeat split. }
  destruct (match score with Some b => Q_ltb b (mmrScore selected c) | None => true end) eqn:Hb.
  - right. specialize (IH (S i) i (Some (mmrScore selected c))). cbv zeta in IH.
    assert (forall q, score = Some q -> q <= mmrScore selected c)%Q as Hq.
    { intros q ->. apply Qlt_le_weak. by apply Q_ltb_lt. }
    destruct IH as [(-> & Hall & _)|(k & c' & -> & Hk & Hall & Hge)].
    + exists O, c. split_and!; [lia|done| |done]. constructor; [lra|by apply Hall].
    + specialize (Hge _ eq_refl). exists (S k), c'. split_and!; [lia|done| |].
      * constructor; [done|done].
      * intros q Hs. specialize (Hq q Hs). lra.
  - destruct score as [q|]; [|done]. apply Q_ltb_ge in Hb. specialize (IH (S i) best (Some q)). cbv zeta in IH.
    destruct IH as [(-> & Hall & _)|(k & c' & -> & Hk & Hall & Hge)].
    + left. split; [done|]. split; [|done]. intros q' [= <-]. constructor; [done|by apply Hall].
    + right. specialize (Hge _ eq_refl). exists (S k), c'. split_and!; [lia|done| |by intros q' [= <-]].
      constructor; [lra|done].
Qed.

Lemma best_of_first selected c rest :
  exists x, (c :: rest) !! best_of sqrt self relevance selected (c :: rest) 0 0 None = Some x /\
    Forall (fun c' => mmrScore selected c' <= mmrScore selected x)%Q (c :: rest).
Proof.
  destruct (best_of_spec selected (c :: rest) 0 0 None) as [(_ & _ & H)|(k & x & -> & Hk & Hall & _)]; [by specialize (H eq_refl)|].
  by exists x.
Qed.

(** A pick scores at least as much as what was left, given the picks before it. *)
Fixpoint greedy (before picks rest : list DocumentChunk) : Prop :=
  match picks with
  | [] => True
  | c :: picks' => Forall (fun c' => mmrScore before c' <= mmrScore before c)%Q (picks' ++ rest) /\
                   greedy (before ++ [c]) picks' rest
  end.

Lemma select_spec n remaining selected :
  exists picks rest, select sqrt self relevance n remaining selected = selected ++ picks /\
    remaining ≡ₚ picks ++ rest /\ length picks = Nat.min n (length remaining) /\ greedy selected picks rest.
Proof.
  revert remaining selected. induction n as [|n IH]; intros remaining selected; simpl.
  { exists [], remaining. by rewrite app_nil_r. }
  destruct remaining as [|c0 rem]; [exists [], []; by rewrite app_nil_r|].
  destruct (best_of_first selected c0 rem) as (x & Hx & Hall). rewrite Hx.
  set (i := best_of _ _ _ _ _ _ _ _) in *. set (remaining := c0 :: rem) in *.
  destruct (IH (delete i remaining) (selected ++ [x])) as (picks & rest & -> & Hp & Hl & Hg).
  pose proof (delete_Permutation _ _ _ Hx) as Hd. exists (x :: picks), rest. split_and!.
  - by rewrite <- app_assoc.
  - by rewrite Hd, Hp.
  - simpl. rewrite Hl, (length_delete _ i) by by eexists. unfold remaining. simpl. lia.
  - simpl. split; [|done]. rewrite <- Hp. rewrite Hd in Hall. by apply Forall_cons in Hall as [_ Hall].
Qed.
End Greedy.

(** Maximal marginal relevance selects greedily and loses nothing else: from
    chunks of which some has a vector it picks [min topK n] of them, each a chunk of
    the context taken once, and each pick has the best marginal relevance among the
    chunks not yet picked, given the picks before it. *)
Theorem mmr_picks_greedily sqrt self context cs :
  rag_chunks context = Some cs -> existsb (fun c => is_some (embedding c)) cs = true ->
  let relevance c := score_of (default [] (rag_scores context)) (chunk_id c) in
  exists picks rest,
    rag_chunks (process sqrt self context) = Some picks /\ cs ≡ₚ picks ++ rest /\
    length picks = Nat.min (topK self) (length cs) /\ greedy sqrt self relevance [] picks rest.
Proof.
  intros Hcs He. cbv zeta. unfold process. rewrite Hcs. change (default [] (Some cs)) with cs. destruct cs as [|c cs]; [done|]. rewrite He.
  cbn [negb]. destruct (select_spec sqrt self (fun c => score_of (default [] (rag_scores context)) (chunk_id c))
    (topK self) (c :: cs) []) as (picks & rest & Hs & Hp & Hl & Hg).
  exists picks, rest. split_and!; [|done..]. simpl. by rewrite Hs.
Qed.

Definition demo_vector (id : string) (e : list Q) : DocumentChunk := {|
  chunk_id := id; parentId := "d"; chunk_content := id; embedding := Some e; chunk_metadata := [];
  chunk_provenance := None |}.

(** A duplicate of the best chunk is passed over for a less relevant chunk. *)
Definition demo_context : RAGContext := {|
  query := "q"; expandedQueries := None;
  rag_chunks := Some [demo_vector "a" [1; 0]%Q; demo_vector "twin" [1; 0]%Q; demo_vector "b" [0; 1]%Q];
  rag_scores := Some [("a", 1%Q); ("twin", 9 # 10); ("b", 1 # 2)];
  hydratedParentContext := None; compressedContext := None; relationalFacts := None; graphContext := None;
  rag_filter := None; rag_metadata := None |}.

Lemma mmr_picks_greedily_witness :
  let self := {| topK := 2; lambda := 1 # 2 |} in
  exists picks rest, rag_chunks (process id self demo_context) = Some picks /\
    map chunk_id picks = ["a"; "b"] /\
    greedy id self (fun c => score_of (default [] (rag_scores demo_context)) (chunk_id c)) [] picks rest.
Proof.
  cbv zeta. destruct (mmr_picks_greedily id {| topK := 2; lambda := 1 # 2 |} demo_context
    [demo_vector "a" [1; 0]%Q; demo_vector "twin" [1; 0]%Q; demo_vector "b" [0; 1]%Q] eq_refl eq_refl)
    as (picks & rest & Hp & _ & _ & Hg).
  exists picks, rest. split; [done|]. split; [|done]. vm_compute in Hp. by injection Hp as <-.
Defined.
End Mmr.

(** ** Parent-child hydration (parent-child-hydration.strategy.ts) *)

Module Hydration.
Section Hydration.
Context {W : Type}.

Record ParentChildHydrationStrategy : Type := {
  parentStore : option (string -> W -> outcome error (option DocumentChunk) * W);
  replaceChunkContent : bool;
}.

Definition mk_hydration (store : option (string -> W -> outcome error (option DocumentChunk) * W))
    (replace : option bool) : ParentChildHydrationStrategy :=
  {| parentStore := store; replaceChunkContent := default true replace |}.

(** A parent looked up, by its id. *)
Inductive event : Type := ParentLookup (parentId : string).

Notation M := (M error event W).
Context (self : ParentChildHydrationStrategy).

Definition stored_text (c : DocumentChunk) : M (option string) :=
  match parentStore self with
  | Some get =>
      if truthy (parentId c) then
        emit (ParentLookup (parentId c)) ;;
        p <- lift (get (parentId c)) ;;
        ret (chunk_content <$> p)
      else ret None
  | None => ret None
  end.

Definition fallback_text (c : DocumentChunk) : string :=
  coalesce (meta_string (chunk_metadata c) "parentText") (chunk_content c).

Definition parent_text (c : DocumentChunk) : M string :=
  t <- stored_text c ;;
  ret match t with Some s => if truthy s then s else fallback_text c | None => fallback_text c end.

Definition parent_key (c : DocumentChunk) : string := if truthy (parentId c) then parentId c else chunk_id c.

Definition hydrate (c : DocumentChunk) (text : string) : DocumentChunk :=
  with_content (if replaceChunkContent self then text else chunk_content c)
    (obj_set (obj_set (chunk_metadata c) "originalChildContent" (VStr (chunk_content c))) "parentHydrated" (VBool true)) c.

Fixpoint hydrate_all (cs : list DocumentChunk) (parents : list (string * string))
    : M (list DocumentChunk * list (string * string)) :=
  match cs with
  | [] => ret ([], parents)
  | c :: rest =>
      text <- parent_text c ;;
      let* (updated, parents') := hydrate_all rest (js_set parents (parent_key c) text) in
      ret (hydrate c text :: updated, parents')
  end.

Definition process (context : RAGContext) : M RAGContext :=
  match rag_chunks context with
  | None | Some [] => ret context
  | Some cs =>
      let* (updated, parents) := hydrate_all cs [] in
      ret (with_hydrated (join (nl +:+ "---" +:+ nl) (js_values parents)) (with_chunks updated context))
  end.

(** Without a parent store, chunks of one parent that carry no parent text leave
    only the last of them in the hydrated context. *)
Lemma hydrate_all_overwrites p text cs :
  parentStore self = None -> truthy p = true ->
  Forall (fun c => parentId c = p /\ meta_string (chunk_metadata c) "parentText" = None) cs ->
  forall w, exists updated, hydrate_all cs [(p, text)] w =
    (Ret (updated, [(p, default text (chunk_content <$> last cs))]), w, []).
Proof.
  intros Hs Hp. revert text. induction cs as [|c cs IH]; intros text Hall w; simpl; [by eexists|].
  apply Forall_cons in Hall as [[Hpc Hm] Hall]. unfold parent_text, stored_text, fallback_text, parent_key. rewrite Hs, Hpc, Hp, Hm.
  destruct (IH (chunk_content c) Hall w) as [updated Hu]. unfold bind, ret in *. simpl.
  rewrite bool_decide_eq_true_2 by done. rewrite Hu. eexists. rewrite last_cons. by destruct (last cs).
Qed.

Theorem hydration_keeps_last_child context p cs c w :
  parentStore self = None -> rag_chunks context = Some (cs ++ [c]) -> truthy p = true ->
  Forall (fun c => parentId c = p /\ meta_string (chunk_metadata c) "parentText" = None) (cs ++ [c]) ->
  exists r, process context w = (Ret r, w, []) /\ hydratedParentContext r = Some (chunk_content c).
Proof.
  intros Hs Hc Hp Hall. unfold process. rewrite Hc. destruct (cs ++ [c]) as [|c0 rest] eqn:Hcs; [by destruct cs|].
  apply Forall_cons in Hall as [[Hpc Hm] Hall]. simpl hydrate_all.
  unfold parent_text, stored_text, fallback_text, parent_key. rewrite Hs, Hpc, Hp, Hm.
  destruct (hydrate_all_overwrites p (chunk_content c0) rest Hs Hp Hall w) as [updated Hu].
  unfold bind, ret in *. simpl. rewrite Hu. eexists. split; [done|]. simpl. f_equal.
  pose proof (last_snoc c cs) as Hl. rewrite Hcs, last_cons in Hl. destruct (last rest); simpl; congruence.
Qed.
End Hydration.
End Hydration.

(** ** Reranking (reranker.strategy.ts) *)

Module Reranker.

Inductive FailureMode : Type := Fallback | ThrowError.

Inductive event : Type :=
| Rerank (query : string) (chunks : list DocumentChunk)
| RerankFailure (e : error).

Section Reranker.
Context {W : Type}.

Record RerankerStrategy : Type := {
  topK : Z;
  rerankFn : option (string -> list DocumentChunk -> W -> outcome error (list Q) * W);
  minScore : option Q;
  onRerankFailureMode : FailureMode;
  onRerankFailure : option (error -> W -> outcome error unit * W);
}.

Definition mk_reranker (k : option Z) (f : option (string -> list DocumentChunk -> W -> outcome error (list Q) * W))
    (m : option num) (mode : option FailureMode) (report : option (error -> W -> outcome error unit * W))
    : error + RerankerStrategy :=
  let mk q := inr {| topK := default 5 k; rerankFn := f; minScore := q;
                     onRerankFailureMode := default Fallback mode; onRerankFailure := report |} in
  match m with
  | None => mk None
  | Some n => match num_Q n with
              | Some q => mk (Some q)
              | None => inl (range_error ("RerankerStrategy: minScore must be a finite number, got " +:+ num_to_string n))
              end
  end.

Notation M := (M error event W).
Context (self : RerankerStrategy).

Record Scored : Type := { s_chunk : DocumentChunk; relevanceScore : Q }.

(** [customScores[index] ?? (scoresMap.get(chunk.id) || 0)] for each chunk. *)
Fixpoint custom_scored (cs : list DocumentChunk) (customScores : list Q) (scores : list (string * Q))
    : list Scored * list (string * Q) :=
  match cs with
  | [] => ([], scores)
  | c :: rest =>
      let score := match customScores with q :: _ => q | [] => score_of scores (chunk_id c) end in
      let '(l, scores') := custom_scored rest (List.tl customScores) (js_set scores (chunk_id c) score) in
      ({| s_chunk := c; relevanceScore := score |} :: l, scores')
  end.

Definition query_tokens (q : string) : list string :=
  List.filter (fun t => 2 <? str_length t) (split_spaces (to_lower q)).

Definition term_score (q : string) (c : DocumentChunk) : Q :=
  let tokens := split_spaces (to_lower (chunk_content c)) in
  let matchCount := count (fun t => bool_decide (t ∈ query_tokens q)) tokens in
  (Q_of_nat matchCount / Q_of_nat (Nat.max (length tokens) 1))%Q.

Fixpoint term_scored (q : string) (cs : list DocumentChunk) (scores : list (string * Q))
    : list Scored * list (string * Q) :=
  match cs with
  | [] => ([], scores)
  | c :: rest =>
      let finalScore := (term_score q c * default 1 (js_get scores (chunk_id c)))%Q in
      let '(l, scores') := term_scored q rest (js_set scores (chunk_id c) finalScore) in
      ({| s_chunk := c; relevanceScore := finalScore |} :: l, scores')
  end.

(** The report of a failure never replaces the failure. *)
Definition report (e : error) : M unit :=
  match onRerankFailure self with
  | None => ret tt
  | Some f => emit (RerankFailure e) ;; catch (lift (f e)) (fun _ => ret tt)
  end.

Definition scored_chunks (q : string) (cs : list DocumentChunk) (scores : list (string * Q))
    : M (list Scored * list (string * Q)) :=
  match rerankFn self with
  | None => ret (term_scored q cs scores)
  | Some f =>
      emit (Rerank q cs) ;;
      r <- tried (lift (f q cs)) ;;
      match r with
      | inl customScores => ret (custom_scored cs customScores scores)
      | inr e =>
          report e ;;
          match onRerankFailureMode self with
          | ThrowError => throw e
          | Fallback => ret (term_scored q cs scores)
          end
      end
  end.

Definition process (context : RAGContext) : M RAGContext :=
  match rag_chunks context with
  | None | Some [] => ret context
  | Some cs =>
      let* (scored, scores) := scored_chunks (query context) cs (js_of_entries (default [] (rag_scores context))) in
      let sorted := stable_sort (fun a b => Qle_bool (relevanceScore b) (relevanceScore a)) scored in
      let kept := match minScore self with
                  | Some m => List.filter (fun x => Qle_bool m (relevanceScore x)) sorted
                  | None => sorted
                  end in
      ret (with_scores scores (with_chunks (map s_chunk (slice_front kept (topK self))) context))
  end.

Lemma term_scored_chunks q cs scores : map s_chunk (term_scored q cs scores).1 = cs.
Proof.
  revert scores. induction cs as [|c cs IH]; intros scores; simpl; [done|].
  specialize (IH (js_set scores (chunk_id c) (term_score q c * default 1 (js_get scores (chunk_id c)))%Q)).
  destruct (term_scored q cs _) as [l sc]. simpl in *. by rewrite IH.
Qed.

Lemma custom_scored_chunks cs custom scores : map s_chunk (custom_scored cs custom scores).1 = cs.
Proof.
  revert custom scores. induction cs as [|c cs IH]; intros custom scores; simpl; [done|].
  specialize (IH (List.tl custom) (js_set scores (chunk_id c)
    match custom with q :: _ => q | [] => score_of scores (chunk_id c) end)).
  destruct (custom_scored cs _ _) as [l sc]. simpl in *. by rewrite IH.
Qed.

(** A reranker that fails makes the strategy throw the reranker's own error, or fall
    back to term overlap, as configured, whatever reporting the failure does. *)
Theorem rerank_failure_modes f e q cs scores w w1 :
  rerankFn self = Some f -> f q cs w = (Throw e, w1) ->
  (forall g x, onRerankFailure self = Some g -> (g e x).1 <> Diverge) ->
  wp (scored_chunks q cs scores) w (fun o _ _ =>
    o = match onRerankFailureMode self with
        | ThrowError => Throw e
        | Fallback => Ret (term_scored q cs scores)
        end).
Proof.
  intros Hf Hr Hg. unfold scored_chunks. rewrite Hf. do 4 wp_step. apply wp_lift. intros o w2 Ho. rewrite Hr in Ho.
  injection Ho as <- <-. cbn [wp_cont]. wp_step.
  eapply wp_mono with (P := fun o _ _ => o = Ret tt).
  - unfold report. destruct (onRerankFailure self) as [g|] eqn:Hgs; [|by wp_step]. do 3 wp_step. apply wp_lift.
    intros o w3 Ho. specialize (Hg g w1 eq_refl). rewrite Ho in Hg. destruct o as [[]|e'|]; simpl in *; [done| |done].
    by wp_step.
  - intros o w3 l ->. cbn [wp_cont]. by destruct (onRerankFailureMode self); wp_step.
Qed.
End Reranker.
End Reranker.

End RagStrategies.

(** * Strategies that assemble text (packages/rag/src/strategies)

    Contextual compression, the U-shaped context and hierarchical rollup: what they
    put in front of the model. *)

#[local] Open Scope string_scope.
#[local] Open Scope list_scope.
#[local] Open Scope Z_scope.
#[local] Open Scope eff_scope.

Module RagText.
Import Consensus UCurve Retrieval RagStrategies.

(** [PromptInjectionSanitizer.wrapWithBoundary('retrieved_chunk', text)]; the tag is valid. *)
Definition chunk_boundary (text : string) : string :=
  match Sanitizer.wrapWithBoundary "retrieved_chunk" text None with inl s => s | inr _ => EmptyString end.

Lemma chunk_boundary_wraps text :
  Sanitizer.wrapWithBoundary "retrieved_chunk" text None = inl (chunk_boundary text).
Proof. done. Qed.

(** ** Contextual compression (contextual-compression.strategy.ts) *)

Module Compression.
Section Compression.
Context {W : Type}.

Record ContextualCompressionStrategy : Type := {
  maxCharacters : Z;
  filterIrrelevantSentences : bool;
  compressFn : option (string -> string -> W -> outcome error string * W);
}.

Definition mk_compression (n : option Z) (f : option bool)
    (c : option (string -> string -> W -> outcome error string * W)) : ContextualCompressionStrategy :=
  {| maxCharacters := default 2000 n; filterIrrelevantSentences := default true f; compressFn := c |}.

Inductive event : Type := Compress (query text : string).

Notation M := (M error event W).
Context (self : ContextualCompressionStrategy).

Definition ends_sentence (c : ascii) : bool :=
  bool_decide (c = "."%char) || bool_decide (c = "!"%char) || bool_decide (c = "?"%char) ||
  bool_decide (c = "010"%char).

(** [split(/(?<=[.!?\n])\s+/)]: at white space that follows the end of a sentence. *)
Fixpoint split_sentences (l cur : list ascii) (after_end in_gap : bool) : list string :=
  match l with
  | [] => [of_chars (rev cur)]
  | c :: l' =>
      if is_space c && in_gap then split_sentences l' cur false true
      else if is_space c && after_end then of_chars (rev cur) :: split_sentences l' [] false true
      else split_sentences l' (c :: cur) (ends_sentence c) false
  end.

Definition sentences (text : string) : list string := split_sentences (chars text) [] false false.

Definition relevant (tokens : list string) (line : string) : bool :=
  starts_with "#" line || starts_with "--" line ||
  existsb (fun t => includes t (to_lower line)) tokens.

Definition filterRelevantSentences (rawText query : string) : string :=
  if negb (filterIrrelevantSentences self) || str_is_empty query then rawText
  else
    let queryTokens := List.filter (fun t => 2 <? str_length t) (split_spaces (to_lower query)) in
    match queryTokens with
    | [] => rawText
    | _ => match List.filter (relevant queryTokens) (sentences rawText) with
           | [] => rawText
           | relevantLines => join nl relevantLines
           end
    end.

(** [lastIndexOf] of the end of a sentence; -1 when there is none. *)
Fixpoint last_end (l : list ascii) (i found : Z) : Z :=
  match l with
  | [] => found
  | c :: l' => last_end l' (i + 1) (if ends_sentence c then i else found)
  end.

Definition sentence_marker : string := nl +:+ "[...Context Truncated...]".
Definition word_marker : string := "... [...Context Truncated...]".

(** [text.slice(0, n)] *)
Definition slice_text (s : string) (n : Z) : string := of_chars (slice_front (chars s) n).

Definition truncate (text : string) : string :=
  if str_length text <=? maxCharacters self then text
  else
    let truncated := slice_text text (maxCharacters self) in
    let lastSentenceEnd := last_end (chars truncated) 0 (-1) in
    if maxCharacters self <? 2 * lastSentenceEnd then slice_text truncated (lastSentenceEnd + 1) +:+ sentence_marker
    else truncated +:+ word_marker.

Definition compressAndWrap (rawText query : string) : string :=
  chunk_boundary (truncate (filterRelevantSentences rawText query)).

Definition separator : string := nl +:+ "---" +:+ nl.

Definition process (context : RAGContext) : M RAGContext :=
  let hydrated := default EmptyString (trim <$> hydratedParentContext context) in
  let chunks := default [] (rag_chunks context) in
  match compressFn self with
  | Some f =>
      let rawContext := if truthy hydrated then hydrated else join separator (map chunk_content chunks) in
      if str_is_empty (trim rawContext) then ret context
      else
        emit (Compress (query context) rawContext) ;;
        customCompressed <- lift (f (query context) rawContext) ;;
        ret (with_compressed (chunk_boundary customCompressed) context)
  | None =>
      if truthy hydrated then ret (with_compressed (compressAndWrap hydrated (query context)) context)
      else match chunks with
           | [] => ret context
           | _ => ret (with_compressed (join separator (map (fun c => compressAndWrap (chunk_content c) (query context)) chunks)) context)
           end
  end.

Lemma last_end_bound l i found : found < i -> last_end l i found < i + Z.of_nat (length l).
Proof.
  revert i found. induction l as [|c l IH]; intros i found H; simpl; [lia|].
  destruct (ends_sentence c); [specialize (IH (i + 1) i)|specialize (IH (i + 1) found)]; lia.
Qed.

(** A source is cut to the limit, plus the marker that says so. *)
Theorem truncate_bound text :
  0 <= maxCharacters self -> str_length (truncate text) <= maxCharacters self + str_length word_marker.
Proof.
  intros H. unfold truncate. destruct (str_length text <=? maxCharacters self) eqn:Hl.
  { apply Z.leb_le in Hl. unfold str_length at 2. simpl. lia. }
  assert (forall s n, 0 <= n -> str_length (slice_text s n) <= n) as Hs.
  { intros s n Hn. unfold slice_text. rewrite length_of_chars. by apply slice_front_length. }
  pose proof (Hs text _ H) as Ht. set (truncated := slice_text text (maxCharacters self)) in *. cbv zeta.
  assert (str_length sentence_marker <= str_length word_marker) as Hm by (by vm_compute).
  pose proof (last_end_bound (chars truncated) 0 (-1) ltac:(lia)) as Hle. rewrite <- str_length_chars in Hle.
  destruct (maxCharacters self <? 2 * last_end (chars truncated) 0 (-1)) eqn:Hc; rewrite str_length_app; [|lia].
  apply Z.ltb_lt in Hc. specialize (Hs truncated (last_end (chars truncated) 0 (-1) + 1) ltac:(lia)). lia.
Qed.
End Compression.

(** The limit is exceeded as soon as it bites. *)
Lemma truncate_exceeds_limit :
  let self : @ContextualCompressionStrategy unit := mk_compression (Some 4) None None in
  str_length (truncate self "abcdefgh") = 4 + str_length word_marker.
Proof. vm_compute. done. Qed.
End Compression.

(** ** The U-shaped context (u-shaped-context.strategy.ts) *)

Module UShape.

Record UShapedContextStrategy : Type := {
  placementStrategy : Placement;
  maxChunks : option nat;
  header : option string;
  footer : option string;
  chunkSeparator : string;
}.

Definition mk_ushape (p : option Placement) (n : option num) (h f sep : option string) : error + UShapedContextStrategy :=
  let mk m := {| placementStrategy := default PrimacyFirst p; maxChunks := m; header := h; footer := f;
                 chunkSeparator := default (nl +:+ nl +:+ "---" +:+ nl +:+ nl) sep |} in
  match n with
  | None => inr (mk None)
  | Some NNaN => inl (range_error "UShapedContextStrategy: maxChunks must be a positive integer, got NaN")
  | Some k =>
      if num_le k (num_of_Z 0) then
        inl (range_error ("UShapedContextStrategy: maxChunks must be a positive integer, got " +:+ num_to_string k))
      else inr (mk (Z.to_nat <$> num_to_Z (num_floor k)))
  end.

(** [UShapedContextStrategy.reorder] of ranked items; the loop is that of
    utils/u-curve-context.formatter.ts. *)
Definition reorder {T} (rankedItems : list T) (strategy : Placement) : list (option T) :=
  match rankedItems with
  | [] | [_] => map Some rankedItems
  | _ => fill rankedItems (match strategy with PrimacyFirst => true | RecencyFirst => false end)
           0 (length rankedItems - 1) (replicate (length rankedItems) None)
  end.

Lemma reorder_is {T} (items : list T) strategy :
  let b := match strategy with PrimacyFirst => true | RecencyFirst => false end in
  reorder items strategy = map Some (every_other b items ++ rev (every_other (negb b) items)).
Proof.
  destruct items as [|x [|y items]]; [by destruct strategy|by destruct strategy|].
  cbv zeta. unfold reorder. set (l := x :: y :: items). set (b := match strategy with PrimacyFirst => true | _ => false end).
  pose proof (fill_spec l b [] []) as Hf. simpl app in Hf. rewrite !app_nil_r in Hf. exact Hf.
Qed.

Section UShape.
Context (self : UShapedContextStrategy).

Definition sorted_chunks (context : RAGContext) (cs : list DocumentChunk) : list DocumentChunk :=
  match default [] (rag_scores context) with
  | [] => cs
  | scores => stable_sort (fun a b => Qle_bool (score_of scores (chunk_id b)) (score_of scores (chunk_id a))) cs
  end.

Definition bounded_chunks (cs : list DocumentChunk) : list DocumentChunk :=
  match maxChunks self with
  | Some (S n) => if (S n <? length cs)%nat then take (S n) cs else cs
  | _ => cs
  end.

Definition chunk_title (idx : nat) (c : DocumentChunk) : string :=
  let rawTitle := match obj_get (chunk_metadata c) "title" with
                  | None | Some VUndef | Some VNull => obj_get (chunk_metadata c) "section"
                  | v => v
                  end in
  match rawTitle with
  | Some (VStr s) => if truthy (trim s) then trim s else "Chunk " +:+ Z_to_string (Z.of_nat idx + 1)
  | _ => "Chunk " +:+ Z_to_string (Z.of_nat idx + 1)
  end.

(** Label and content are both untrusted, so both are inside the boundary. *)
Definition format_chunk (idx : nat) (c : DocumentChunk) : string :=
  chunk_boundary ("[Reference: " +:+ chunk_title idx c +:+ "]" +:+ nl +:+ chunk_content c).

Definition truthy_part (o : option string) : list string :=
  match o with Some s => if truthy s then [s] else [] | None => [] end.

Definition assemble (ordered : list DocumentChunk) : string :=
  join (nl +:+ nl)
    (truthy_part (header self) ++ [join (chunkSeparator self) (imap format_chunk ordered)] ++ truthy_part (footer self)).

Definition placement_name (p : Placement) : string :=
  match p with PrimacyFirst => "primacy_first" | RecencyFirst => "recency_first" end.

Definition process (context : RAGContext) : RAGContext :=
  match default [] (rag_chunks context) with
  | [] => context
  | cs =>
      let uOrderedChunks := omap id (reorder (bounded_chunks (sorted_chunks context cs)) (placementStrategy self)) in
      let md := obj_set (obj_set (obj_set (default [] (rag_metadata context)) "uShapeApplied" (VBool true))
                  "uShapeStrategy" (VStr (placement_name (placementStrategy self))))
                  "chunkCount" (VNum (num_of_Z (Z.of_nat (length uOrderedChunks)))) in
      let x := with_compressed (assemble uOrderedChunks) (with_chunks uOrderedChunks context) in
      {| query := query x; expandedQueries := expandedQueries x; rag_chunks := rag_chunks x; rag_scores := rag_scores x;
         hydratedParentContext := hydratedParentContext x; compressedContext := compressedContext x;
         relationalFacts := relationalFacts x; graphContext := graphContext x; rag_filter := rag_filter x;
         rag_metadata := Some md |}
  end.

Lemma omap_Some {A} (l : list A) : omap id (map Some l) = l.
Proof. induction l as [|x l IH]; [done|]. cbn. f_equal. exact IH. Qed.

(** The context keeps the best [maxChunks] chunks, each once, best at the edges. *)
Theorem ushape_keeps_the_best context cs :
  rag_chunks context = Some cs -> cs <> [] ->
  exists front back,
    rag_chunks (process context) = Some (front ++ back) /\
    front ++ rev back ≡ₚ bounded_chunks (sorted_chunks context cs) /\
    front `sublist_of` bounded_chunks (sorted_chunks context cs) /\
    rev back `sublist_of` bounded_chunks (sorted_chunks context cs).
Proof.
  intros Hcs Hne. unfold process. rewrite Hcs. change (default [] (Some cs)) with cs.
  destruct cs as [|c cs]; [done|]. set (l := bounded_chunks _).
  set (b := match placementStrategy self with PrimacyFirst => true | RecencyFirst => false end).
  exists (every_other b l), (rev (every_other (negb b) l)). split_and!.
  - cbn [rag_chunks with_compressed with_chunks]. f_equal. rewrite (reorder_is l (placementStrategy self)). apply omap_Some.
  - rewrite rev_involutive. apply every_other_permutation.
  - apply every_other_sublist.
  - rewrite rev_involutive. apply every_other_sublist.
Qed.
End UShape.
End UShape.

End RagText.
