(* ===== verification/RagPipeline.v ===== *)
(** * The knowledge base and the retrieval pipeline
      (packages/rag/src/engines/{knowledge-base,rag-pipeline}.ts)

    Ingestion, retrieval with provenance, and the pipeline that runs strategies
    before and after it.  What the pipeline needs of a vector store is the class
    [FilteringStore]; the hybrid store is an instance. *)

From S2P Require Export HybridSearch.

#[local] Open Scope string_scope.
#[local] Open Scope list_scope.
#[local] Open Scope Z_scope.
#[local] Open Scope eff_scope.

Module RagPipeline.
Import Consensus Retrieval HybridStore HybridIndex HybridSearch.

Inductive event : Type :=
| Split (d : Document)
| Indexed (chunks : list DocumentChunk)
| Searched (query : string) (limit : Z) (filter : option obj)
| Found (query : string) (results : list ScoredDocumentChunk)
| Strategy (name : string) (context : RAGContext).

Section Pipeline.
Context {W : Type}.

Definition Ext (A : Type) : Type := W -> outcome error A * W.

(** interfaces/vector-store.interface.ts; [addChunks] answers the chunks as it left
    them, with the embeddings it attached. *)
Record VectorStoreAdapter : Type := {
  addChunks : option (list DocumentChunk -> Ext (list DocumentChunk));
  searchChunks : string -> Z -> option obj -> Ext (list DocumentChunk);
  searchChunksScored : option (string -> Z -> option obj -> Ext (list ScoredDocumentChunk));
}.

Definition DocumentSplitter : Type := Document -> Ext (list DocumentChunk).

(** ** The knowledge base *)

Record KnowledgeBase : Type := { splitter : DocumentSplitter; vectorStore : VectorStoreAdapter }.

(** The documents known so far, by id. *)
Definition Documents : Type := list (string * Document).

Record DocumentInput : Type := {
  in_id : option string;
  in_title : string;
  in_rawContent : string;
  in_metadata : option obj;
  in_timestamp : option Z;
}.

Notation M := (M error event W).

Context (randomUUID : Ext string) (now : W -> Z).

Definition with_doc_chunks (cs : list DocumentChunk) (d : Document) : Document :=
  {| doc_id := doc_id d; title := title d; rawContent := rawContent d; chunks := cs;
     doc_metadata := doc_metadata d; timestamp := timestamp d |}.

Definition mk_document (docId : string) (t : Z) (d : DocumentInput) : Document :=
  {| doc_id := docId; title := in_title d; rawContent := in_rawContent d; chunks := [];
     doc_metadata := default [] (in_metadata d); timestamp := Some (default t (in_timestamp d)) |}.

(** The document is known before it is indexed, so the documents come back also when
    indexing throws. *)
Definition ingestDocument (kb : KnowledgeBase) (docs : Documents) (d : DocumentInput) : M (Documents * (error + Document)) :=
  docId <- (if truthy_opt (in_id d) then ret (default EmptyString (in_id d)) else lift randomUUID) ;;
  t <- ask now ;;
  let fullDoc := mk_document docId t d in
  emit (Split fullDoc) ;;
  cs <- lift (splitter kb fullDoc) ;;
  let known := js_set docs docId (with_doc_chunks cs fullDoc) in
  match addChunks (vectorStore kb) with
  | None => ret (known, inr (with_doc_chunks cs fullDoc))
  | Some add =>
      emit (Indexed cs) ;;
      r <- tried (lift (add cs)) ;;
      match r with
      | inl cs' => ret (js_set docs docId (with_doc_chunks cs' fullDoc), inr (with_doc_chunks cs' fullDoc))
      | inr e => ret (known, inl e)
      end
  end.

Definition getDocument (docs : Documents) (documentId : string) : option Document := js_get docs documentId.

(** Retrieval is a trust boundary: the label is the framework's, not the store's. *)
Definition tagExternal (c : DocumentChunk) : DocumentChunk :=
  with_provenance {| prov_source := SrcExternal; prov_origin := Some (parentId c) |} c.

Definition tag_scored (x : ScoredDocumentChunk) : ScoredDocumentChunk :=
  {| sc_chunk := tagExternal (sc_chunk x); sc_score := sc_score x |}.

(** Scores made up from ranks, for a store that gives none. *)
Definition rank_scored (rank : nat) (c : DocumentChunk) : ScoredDocumentChunk :=
  {| sc_chunk := tagExternal c; sc_score := (1 / (Q_of_nat rank + 1))%Q |}.

Definition queryChunks (kb : KnowledgeBase) (query : string) (limit : Z) (filter : option obj) : M (list DocumentChunk) :=
  emit (Searched query limit filter) ;;
  cs <- lift (searchChunks (vectorStore kb) query limit filter) ;;
  ret (map tagExternal cs).

Definition queryChunksScored (kb : KnowledgeBase) (query : string) (limit : Z) (filter : option obj)
    : M (list ScoredDocumentChunk) :=
  emit (Searched query limit filter) ;;
  match searchChunksScored (vectorStore kb) with
  | Some search =>
      scored <- lift (search query limit filter) ;;
      ret (map tag_scored scored)
  | None =>
      cs <- lift (searchChunks (vectorStore kb) query limit filter) ;;
      ret (imap rank_scored cs)
  end.

(** ** The pipeline *)

Record RAGStrategy : Type := {
  strategy_name : string;
  pre_retrieval : bool;
  process : RAGContext -> Ext RAGContext;
}.

Record RAGPipeline : Type := {
  knowledgeBase : KnowledgeBase;
  preRetrievalStrategies : list RAGStrategy;
  postRetrievalStrategies : list RAGStrategy;
}.

Definition addStrategy (p : RAGPipeline) (s : RAGStrategy) : RAGPipeline :=
  if pre_retrieval s then
    {| knowledgeBase := knowledgeBase p; preRetrievalStrategies := preRetrievalStrategies p ++ [s];
       postRetrievalStrategies := postRetrievalStrategies p |}
  else
    {| knowledgeBase := knowledgeBase p; preRetrievalStrategies := preRetrievalStrategies p;
       postRetrievalStrategies := postRetrievalStrategies p ++ [s] |}.

Definition mk_pipeline (kb : KnowledgeBase) (strategies : option (list RAGStrategy)) : RAGPipeline :=
  fold_left addStrategy (default [] strategies)
    {| knowledgeBase := kb; preRetrievalStrategies := []; postRetrievalStrategies := [] |}.

Fixpoint run_strategies (ss : list RAGStrategy) (ctx : RAGContext) : M RAGContext :=
  match ss with
  | [] => ret ctx
  | s :: rest =>
      emit (Strategy (strategy_name s) ctx) ;;
      ctx' <- lift (process s ctx) ;;
      run_strategies rest ctx'
  end.

Definition Hits : Type := list (string * DocumentChunk) * list (string * Q).

(** A chunk matched by more than one query variant keeps its best score. *)
Definition add_hit (h : Hits) (x : ScoredDocumentChunk) : Hits :=
  let id := chunk_id (sc_chunk x) in
  (js_set h.1 id (sc_chunk x),
   match js_get h.2 id with
   | Some existing => if Q_ltb existing (sc_score x) then js_set h.2 id (sc_score x) else h.2
   | None => js_set h.2 id (sc_score x)
   end).

Fixpoint retrieve (kb : KnowledgeBase) (queries : list string) (topK : Z) (filter : option obj) (h : Hits) : M Hits :=
  match queries with
  | [] => ret h
  | q :: rest =>
      if str_is_empty (trim q) then retrieve kb rest topK filter h
      else
        scored <- queryChunksScored kb q topK filter ;;
        emit (Found q scored) ;;
        retrieve kb rest topK filter (fold_left add_hit scored h)
  end.

(** The context that the post-retrieval strategies start from. *)
Definition retrieve_context (p : RAGPipeline) (initialQuery : string) (topK : Z) (filter : option obj) : M RAGContext :=
  ctx <- run_strategies (preRetrievalStrategies p)
           {| query := initialQuery; expandedQueries := None; rag_chunks := Some []; rag_scores := None;
              hydratedParentContext := None; compressedContext := None; relationalFacts := None; graphContext := None;
              rag_filter := filter; rag_metadata := None |} ;;
  let queryList := query ctx :: default [] (expandedQueries ctx) in
  hits <- retrieve (knowledgeBase p) queryList topK (rag_filter ctx) ([], []) ;;
  ret (with_scores hits.2 (with_chunks (js_values hits.1) ctx)).

Definition executePipeline (p : RAGPipeline) (initialQuery : string) (topK : Z) (filter : option obj) : M RAGContext :=
  ctx <- retrieve_context p initialQuery topK filter ;;
  run_strategies (postRetrievalStrategies p) ctx.

(** ** What retrieval needs of a store *)

Class FilteringStore (a : VectorStoreAdapter) : Type := {
  store_inv : W -> Prop;
  search_filters : forall q n f w o w1, store_inv w -> searchChunks a q n f w = (o, w1) ->
    store_inv w1 /\ forall cs, o = Ret cs -> Forall (fun c => matches_filter f c = true) cs;
  scored_filters : forall search q n f w o w1,
    searchChunksScored a = Some search -> store_inv w -> search q n f w = (o, w1) ->
    store_inv w1 /\ forall xs, o = Ret xs -> Forall (fun x => matches_filter f (sc_chunk x) = true) xs;
}.

(** A chunk as retrieval lets it through. *)
Definition admitted (f : option obj) (c : DocumentChunk) : Prop :=
  matches_filter f c = true /\
  chunk_provenance c = Some {| prov_source := SrcExternal; prov_origin := Some (parentId c) |}.

Lemma tag_admitted f c : matches_filter f c = true -> admitted f (tagExternal c).
Proof. by split. Qed.

Lemma imap_rank_chunks cs k : map sc_chunk (imap (fun i => rank_scored (k + i)) cs) = map tagExternal cs.
Proof.
  revert k. induction cs as [|c cs IH]; intros k; [done|]. rewrite imap_cons. simpl. f_equal.
  rewrite <- (IH (S k)). f_equal. apply imap_ext. intros i x _. unfold compose. f_equal. lia.
Qed.

Section Contained.
Context (kb : KnowledgeBase) `{!FilteringStore (vectorStore kb)}.

Lemma query_admitted q n f w :
  store_inv w -> wp (queryChunksScored kb q n f : M _) w (fun o w1 l =>
    store_inv w1 /\ l = [Searched q n f] /\
    match o with Ret xs => Forall (fun x => admitted f (sc_chunk x)) xs | _ => True end).
Proof.
  intros Hw. unfold queryChunksScored. do 2 wp_step. destruct (searchChunksScored (vectorStore kb)) as [search|] eqn:Hs.
  - wp_step. apply wp_lift. intros o w1 Ho. destruct (scored_filters _ _ _ _ _ _ _ Hs Hw Ho) as [Hw1 Hx].
    destruct o as [xs|e|]; cbn [wp_cont]; [|done..]. wp_step. split_and!; [done..|].
    apply Forall_map. eapply Forall_impl; [by apply Hx|]. intros x. apply tag_admitted.
  - wp_step. apply wp_lift. intros o w1 Ho. destruct (search_filters _ _ _ _ _ _ Hw Ho) as [Hw1 Hx].
    destruct o as [cs|e|]; cbn [wp_cont]; [|done..]. wp_step. split_and!; [done..|].
    apply Forall_map with (f := sc_chunk). pose proof (imap_rank_chunks cs 0) as Hi. simpl in Hi.
    change (imap (fun i => rank_scored i) cs) with (imap rank_scored cs) in Hi. rewrite Hi.
    apply Forall_map. eapply Forall_impl; [by apply Hx|]. intros x. apply tag_admitted.
Qed.

(** *** What the hits add up to *)

(** The hits hold every result, under its id, with its best score. *)
Record hits_ok (res : list ScoredDocumentChunk) (h : Hits) : Prop := {
  hits_keys : unique_keys h.1;
  hits_chunk : forall id c, js_get h.1 id = Some c -> c ∈ map sc_chunk res /\ chunk_id c = id;
  hits_all : forall x, x ∈ res -> is_Some (js_get h.1 (sc_id x)) /\ is_Some (js_get h.2 (sc_id x));
  hits_best : forall id s, js_get h.2 id = Some s ->
    (exists x, x ∈ res /\ sc_id x = id /\ sc_score x = s) /\
    forall x, x ∈ res -> sc_id x = id -> (sc_score x <= s)%Q;
}.

Lemma add_hit_ok res h x : hits_ok res h -> hits_ok (res ++ [x]) (add_hit h x).
Proof.
  intros [Hk Hc Ha Hb]. destruct h as [chunks scores]. unfold add_hit. simpl in *. fold (sc_id x).
  split; simpl.
  - auto.
  - intros id c. rewrite js_get_set, map_app. case_bool_decide as Hid.
    + intros [= <-]. split; [set_solver|done].
    + intros H. destruct (Hc _ _ H). set_solver.
  - intros y [Hy|Hy%list_elem_of_singleton]%elem_of_app; [|subst y].
    + destruct (Ha y Hy) as [H1 H2]. split; [rewrite js_get_set; by case_bool_decide|].
      destruct (js_get scores (sc_id x)); [destruct (Q_ltb _ _)|]; rewrite ?js_get_set; try case_bool_decide; eauto.
    + rewrite js_get_set, bool_decide_eq_true_2 by done. split; [eauto|].
      destruct (js_get scores (sc_id x)) as [q|] eqn:Hq; [destruct (Q_ltb q _)|];
        rewrite ?js_get_set, ?bool_decide_eq_true_2 by done; eauto.
  - assert (forall id s, js_get scores id = Some s -> (sc_id x = id -> (sc_score x <= s)%Q) ->
      (exists y, y ∈ res ++ [x] /\ sc_id y = id /\ sc_score y = s) /\
      forall y, y ∈ res ++ [x] -> sc_id y = id -> (sc_score y <= s)%Q) as Hold.
    { intros id s H Hle. destruct (Hb id s H) as [(y & Hy & Hyi & Hys) Hmax]. split; [exists y; set_solver|].
      intros z [Hz|Hz%list_elem_of_singleton]%elem_of_app Hzi; [by apply Hmax|subst z; by apply Hle]. }
    assert (forall id s, sc_id x = id -> sc_score x = s -> (forall y, y ∈ res -> sc_id y = id -> (sc_score y <= s)%Q) ->
      (exists y, y ∈ res ++ [x] /\ sc_id y = id /\ sc_score y = s) /\
      forall y, y ∈ res ++ [x] -> sc_id y = id -> (sc_score y <= s)%Q) as Hnew.
    { intros id s H1 H2 H3. split; [exists x; set_solver|].
      intros z [Hz|Hz%list_elem_of_singleton]%elem_of_app Hzi; [by apply H3|]. subst. apply Qle_refl. }
    intros id s. destruct (js_get scores (sc_id x)) as [q|] eqn:Hq; [destruct (Q_ltb q (sc_score x)) eqn:Hlt|].
    + rewrite js_get_set. case_bool_decide as Hid; [|intros H; apply Hold; [done|by intros]].
      intros [= <-]. apply Hnew; [done|done|]. intros y Hy Hyi. destruct (Hb _ _ Hq) as [_ Hmax].
      apply Q_ltb_lt in Hlt. eapply Qle_trans; [apply Hmax; [done|congruence]|by apply Qlt_le_weak].
    + intros H. apply Hold; [done|]. intros <-. rewrite Hq in H. injection H as <-. by apply Q_ltb_ge.
    + rewrite js_get_set. case_bool_decide as Hid; [|intros H; apply Hold; [done|by intros]].
      intros [= <-]. apply Hnew; [done|done|]. intros y Hy Hyi. exfalso.
      destruct (Ha y Hy) as [_ [q Hs]]. rewrite Hyi, <- Hid in Hs. congruence.
Qed.

Lemma add_hits_ok res xs h : hits_ok res h -> hits_ok (res ++ xs) (fold_left add_hit xs h).
Proof.
  revert res h. induction xs as [|x xs IH]; intros res h H; simpl; [by rewrite app_nil_r|].
  replace (res ++ x :: xs) with ((res ++ [x]) ++ xs) by by rewrite <- app_assoc. by apply IH, add_hit_ok.
Qed.

(** The results of the searches, in order. *)
Definition found (l : list event) : list ScoredDocumentChunk :=
  concat (filter_map (fun e => match e with Found _ xs => Some xs | _ => None end) l).

Lemma found_app l1 l2 : found (l1 ++ l2) = found l1 ++ found l2.
Proof. unfold found. by rewrite filter_map_app, concat_app. Qed.

Lemma retrieve_spec queries topK f res h w :
  store_inv w -> hits_ok res h -> Forall (fun x => admitted f (sc_chunk x)) res ->
  wp (retrieve kb queries topK f h : M _) w (fun o _ l =>
    match o with
    | Ret h' => hits_ok (res ++ found l) h' /\ Forall (fun x => admitted f (sc_chunk x)) (res ++ found l)
    | _ => True
    end).
Proof.
  revert res h w. induction queries as [|q qs IH]; intros res h w Hw Hh Hf; cbn [retrieve].
  { wp_step. unfold found. simpl. by rewrite app_nil_r. }
  destruct (str_is_empty (trim q)); [by apply IH|]. wp_step. eapply wp_mono; [by apply query_admitted|].
  intros o w1 l (Hw1 & -> & Hx). destruct o as [xs|e|]; cbn [wp_cont]; [|done..]. do 2 wp_step.
  eapply wp_mono; [apply (IH (res ++ xs)); [done|by apply add_hits_ok|by apply Forall_app]|].
  intros o w2 l2 Ho. destruct o as [h'|e|]; [|done..]. unfold found in *. simpl. rewrite <- app_assoc in Ho. exact Ho.
Qed.

(** Strategies that leave the filter, and what the store relies on, alone. *)
Definition respects_filter (s : RAGStrategy) : Prop :=
  forall ctx w o w1, store_inv w -> process s ctx w = (o, w1) ->
    store_inv w1 /\ forall ctx', o = Ret ctx' -> rag_filter ctx' = rag_filter ctx.

Lemma strategies_keep_filter ss ctx w :
  Forall respects_filter ss -> store_inv w ->
  wp (run_strategies ss ctx : M _) w (fun o w1 l =>
    store_inv w1 /\ found l = [] /\ match o with Ret ctx' => rag_filter ctx' = rag_filter ctx | _ => True end).
Proof.
  intros Hs. revert ctx w. induction Hs as [|s ss Hs _ IH]; intros ctx w Hw; cbn [run_strategies]; [by wp_step|].
  do 3 wp_step. apply wp_lift. intros o w1 Ho. destruct (Hs _ _ _ _ Hw Ho) as [Hw1 Hf].
  destruct o as [ctx'|e|]; cbn [wp_cont]; [|done..]. eapply wp_mono; [by apply IH|].
  intros o w2 l (Hw2 & Hl & Ho2). split_and!; [done|unfold found in *; simpl; exact Hl|]. destruct o; [|done..]. by rewrite Ho2, Hf.
Qed.

(** C6. Retrieval is contained: behind a store that honours metadata filters, and
    pre-retrieval strategies that leave the filter alone, every chunk the pipeline
    hands to its post-retrieval strategies matches the caller's filter and is
    labelled external with its parent as origin, whatever label the store gave it;
    no chunk comes twice, every result of every query variant is there, and its
    score is the best that any variant found for it. *)
Theorem retrieval_is_contained p initialQuery topK filter w ctx w1 l :
  knowledgeBase p = kb -> Forall respects_filter (preRetrievalStrategies p) -> store_inv w ->
  retrieve_context p initialQuery topK filter w = (Ret ctx, w1, l) ->
  exists cs scores,
    rag_chunks ctx = Some cs /\ rag_scores ctx = Some scores /\
    Forall (admitted filter) cs /\ NoDup (map chunk_id cs) /\
    (forall x, x ∈ found l -> sc_id x ∈ map chunk_id cs) /\
    forall c, c ∈ cs -> exists x, x ∈ found l /\ sc_id x = chunk_id c /\ js_get scores (chunk_id c) = Some (sc_score x) /\
      forall y, y ∈ found l -> sc_id y = chunk_id c -> (sc_score y <= sc_score x)%Q.
Proof.
  intros Hkb Hss Hw Hrun. enough (wp (retrieve_context p initialQuery topK filter : M _) w (fun o _ l =>
    match o with
    | Ret ctx => exists h, hits_ok (found l) h /\ Forall (fun x => admitted filter (sc_chunk x)) (found l) /\
        rag_chunks ctx = Some (js_values h.1) /\ rag_scores ctx = Some h.2
    | _ => True
    end)) as Hwp.
  { apply (wp_run _ _ _ _ _ _ Hwp) in Hrun as (h & [Hk Hc Ha Hb] & Hf & H1 & H2). exists (js_values h.1), h.2.
    assert (map chunk_id (js_values h.1) = h.1.*1) as Hids.
    { clear -Hk Hc. unfold js_values. assert (forall k c, (k, c) ∈ h.1 -> chunk_id c = k) as H.
      { intros k c Hin. by apply Hc, elem_js_get. }
      clear Hk Hc. induction h.1 as [|[k c] m IH]; [done|]. simpl. rewrite (H k c) by left. f_equal.
      apply IH. intros k' c' Hin. apply H. by right. }
    assert (forall c, c ∈ js_values h.1 -> js_get h.1 (chunk_id c) = Some c) as Hget.
    { intros c Hin. apply list_elem_of_fmap in Hin as ([k c'] & -> & Hin). simpl.
      assert (js_get h.1 k = Some c') as Hg by by apply elem_js_get. by destruct (Hc _ _ Hg) as [_ ->]. }
    split_and!; [done|done| | | |].
    - apply Forall_forall. intros c Hin%Hget. destruct (Hc _ _ Hin) as [Hin' _].
      apply list_elem_of_fmap in Hin' as (x & -> & Hx). by apply (proj1 (Forall_forall _ _) Hf).
    - rewrite Hids. apply Hk.
    - intros x Hx. rewrite Hids. destruct (Ha x Hx) as [[c Hcx] _]. by apply js_get_elem, (list_elem_of_fmap_2 fst) in Hcx.
    - intros c Hin%Hget. destruct (Hc _ _ Hin) as [Hin' _]. apply list_elem_of_fmap in Hin' as (x & Hcx & Hx).
      destruct (Ha x Hx) as [_ [s Hs]]. unfold sc_id in Hs at 1. rewrite <- Hcx in Hs.
      destruct (Hb _ _ Hs) as [(y & Hy & Hyi & Hys) Hmax]. exists y. subst s. split_and!; [done|done|done|].
      intros z Hz Hzi. by apply Hmax. }
  unfold retrieve_context. wp_step. eapply wp_mono; [by apply strategies_keep_filter|].
  intros o w2 l2 (Hw2 & Hl2 & Hfl). destruct o as [ctx'|e|]; cbn [wp_cont]; [|done..]. simpl in Hfl. wp_step.
  rewrite Hkb, Hfl. eapply wp_mono; [apply (retrieve_spec _ topK filter [] ([], [])); [done| |constructor]|].
  { split; simpl; [apply unique_keys_nil|done| |done]. by intros x ?%elem_of_nil. }
  intros o w3 l3 Ho. destruct o as [h|e|]; cbn [wp_cont]; [|done..]. wp_step.
  rewrite !app_nil_r, found_app, Hl2. exists h. by destruct Ho.
Qed.

End Contained.
End Pipeline.

(** ** The hybrid store behind the pipeline *)

Section Hybrid.
Context {W : Type} (self : @HybridVectorStore W) (ln sqrt : Q -> Q).

(** The world of the pipeline holds the state of the store. *)
Definition hybrid_adapter : @VectorStoreAdapter (StoreState * W) := {|
  addChunks := Some (fun cs '(s, w) =>
    match HybridStore.addChunks self cs s w with
    | (Ret (cs', s'), w1, _) => (Ret cs', (s', w1))
    | (Throw e, w1, _) => (Throw e, (s, w1))
    | (Diverge, w1, _) => (Diverge, (s, w1))
    end);
  searchChunks := fun q n f '(s, w) => let '(o, w1, _) := searchHybrid self ln sqrt s q n f w in (o, (s, w1));
  searchChunksScored := Some (fun q n f '(s, w) =>
    let '(o, w1, _) := searchHybridScored self ln sqrt s q n f w in (o, (s, w1)));
|}.

Lemma scored_search_filters s q n f w o w1 l :
  store_ok self s -> searchHybridScored self ln sqrt s q n f w = (o, w1, l) ->
  forall xs, o = Ret xs -> Forall (fun x => matches_filter f (sc_chunk x) = true) xs.
Proof.
  intros Hok Hrun xs ->. unfold searchHybridScored in Hrun. destruct (chunksMap s); [by injection Hrun as <- _ _|].
  apply bind_inv in Hrun as [(v & w2 & l1 & l2 & _ & Hr & _)|[(? & _ & ?)|[_ ?]]]; [|done..].
  injection Hr as <- _ _. apply Forall_forall. intros x Hx. by eapply rank_chunks_spec in Hx as (_ & ? & _).
Qed.

#[global] Instance hybrid_filters : FilteringStore hybrid_adapter.
Proof.
  refine {| store_inv := fun sw => store_ok self sw.1 |}.
  - intros q n f [s w] o [s1 w1] Hok. simpl in *. destruct (searchHybrid self ln sqrt s q n f w) as [[o' w'] l] eqn:Hrun.
    intros [= <- <- <-]. split; [done|]. intros cs ->. unfold searchHybrid in Hrun.
    apply bind_inv in Hrun as [(xs & w2 & l1 & l2 & Hs & Hr & _)|[(? & _ & ?)|[_ ?]]]; [|done..].
    injection Hr as <- _ _. apply Forall_map. by eapply scored_search_filters.
  - intros search q n f [s w] o [s1 w1] [= <-] Hok. simpl in *.
    destruct (searchHybridScored self ln sqrt s q n f w) as [[o' w'] l] eqn:Hrun.
    intros [= <- <- <-]. split; [done|]. by eapply scored_search_filters.
Defined.

End Hybrid.

(** ** Two tenants in one store *)

Definition demo_kb : @KnowledgeBase (StoreState * nat) := {|
  splitter := fun d w => (Ret [], w);
  vectorStore := hybrid_adapter (demo_store None 2) id id;
|}.

(** A strategy that searches for a synonym as well. *)
Definition demo_expansion : @RAGStrategy (StoreState * nat) := {|
  strategy_name := "Synonyms"; pre_retrieval := true;
  process := fun ctx w => (Ret (with_expanded ["refund"; "reimbursement"] ctx), w);
|}.

Definition demo_pipeline : @RAGPipeline (StoreState * nat) := mk_pipeline demo_kb (Some [demo_expansion]).

Definition demo_state : StoreState := fold_left (apply_op (demo_store None 2)) [OpIngest demo_chunks] empty_store.

Lemma retrieval_is_contained_witness :
  exists ctx cs, (retrieve_context demo_pipeline "Refund policy" 5 demo_filter (demo_state, 0%nat)).1.1 = Ret ctx /\
    rag_chunks ctx = Some cs /\ map chunk_id cs = ["a1"] /\ Forall (admitted demo_filter) cs.
Proof.
  destruct (retrieve_context demo_pipeline "Refund policy" 5 demo_filter (demo_state, 0%nat))
    as [[[ctx|e|] w] l] eqn:Hrun; [|by vm_compute in Hrun..].
  assert (Forall (respects_filter demo_kb) (preRetrievalStrategies demo_pipeline)) as Hss.
  { constructor; [|constructor]. intros c v o v1 Hv [= <- <-]. split; [done|]. by intros c' [= <-]. }
  assert (store_inv (a := vectorStore demo_kb) (demo_state, 0%nat)) as Hinv.
  { apply (reachable_ok (demo_store None 2) [OpIngest demo_chunks]). }
  destruct (retrieval_is_contained demo_kb demo_pipeline _ _ _ _ _ _ _ eq_refl Hss Hinv Hrun) as (cs & scores & Hcs & _ & Hf & _).
  exists ctx, cs. split; [done|]. split; [done|]. split; [|done].
  vm_compute in Hrun. injection Hrun as <- _ _. vm_compute in Hcs. injection Hcs as <-. reflexivity.
Defined.

End RagPipeline.
