(* ===== verification/Memory.v ===== *)
(** * Memory stores (packages/memory/src)

    The records of an agent's memory and the stores that keep them in the process:
    short-term windows, episodes, scratchpads, semantic search and their composite;
    and the summarizer of a token budget.  The class [SessionScoped] states what the
    clients of a store rely on: what is recalled for a session was saved in it. *)

From Stdlib Require Import Ascii Qround.
From S2P Require Export Retrieval Collections.

#[local] Open Scope string_scope.
#[local] Open Scope list_scope.
#[local] Open Scope Z_scope.
#[local] Open Scope eff_scope.

Module Memory.
Import Consensus Retrieval.

(** ** Interfaces (interfaces/memory.interface.ts) *)

Record MemoryRecord : Type := {
  rec_id : string;
  sessionId : string;
  rec_type : string;
  rec_content : string;
  importance : option num;
  rec_embedding : option (list Q);
  rec_metadata : option obj;
  timestamp : option Z;
  lastAccessedAt : option Z;
}.

Record RecencyDecayOptions : Type := { decayRate : option Q; decayUnitMs : option Q; halfLifeHours : option Q }.
Record TriFactorWeights : Type := { w_recency : option Q; w_importance : option Q; w_relevance : option Q }.

Record MemoryQueryOptions : Type := {
  q_sessionId : option string;
  q_limit : option Z;
  q_type : option string;
  minScoreCutoff : option Q;
  q_weights : option TriFactorWeights;
  q_decayOptions : option RecencyDecayOptions;
  queryEmbedding : option (list Q);
}.

Definition no_options : MemoryQueryOptions := {|
  q_sessionId := None; q_limit := None; q_type := None; minScoreCutoff := None; q_weights := None;
  q_decayOptions := None; queryEmbedding := None |}.

(** The options that name only a session. *)
Definition in_session (s : string) : MemoryQueryOptions := {|
  q_sessionId := Some s; q_limit := None; q_type := None; minScoreCutoff := None; q_weights := None;
  q_decayOptions := None; queryEmbedding := None |}.

(** A store over the world it lives in. *)
Record AgentMemoryStore {W : Type} : Type := {
  store_save : MemoryRecord -> W -> outcome error unit * W;
  store_recall : string -> MemoryQueryOptions -> W -> outcome error (list MemoryRecord) * W;
  store_clear : option (option string -> W -> outcome error unit * W);
}.
Arguments AgentMemoryStore : clear implicits.

(** What is recalled for a (non-empty) session belongs to it. *)
Class SessionScoped {W} (st : AgentMemoryStore W) (I : W -> Prop) : Prop := {
  scoped_save : forall r w, I w -> I (store_save st r w).2;
  scoped_recall : forall q o w, I w ->
    let '(out, w') := store_recall st q o w in
    I w' /\ forall rs, out = Ret rs -> forall s, q_sessionId o = Some s -> truthy s = true ->
      Forall (fun r => sessionId r = s) rs;
}.

(** ** Shared by the stores *)

(** [record.type && record.type !== t] *)
Definition foreign (t : string) (r : MemoryRecord) : bool := truthy (rec_type r) && negb (bool_decide (rec_type r = t)).

(** [{ ...record, type, id: record.id || randomUUID(), timestamp: record.timestamp || new Date() }] *)
Definition stamp (t uuid : string) (now : Z) (r : MemoryRecord) : MemoryRecord := {|
  rec_id := if truthy (rec_id r) then rec_id r else uuid;
  sessionId := sessionId r; rec_type := t; rec_content := rec_content r; importance := importance r;
  rec_embedding := rec_embedding r; rec_metadata := rec_metadata r;
  timestamp := Some (default now (timestamp r)); lastAccessedAt := lastAccessedAt r |}.

(** [r.content.toLowerCase().includes(query.toLowerCase())] *)
Definition matches (query : string) (r : MemoryRecord) : bool := includes (to_lower query) (to_lower (rec_content r)).

(** Records by session, in insertion order. *)
Definition Sessions : Type := list (string * list MemoryRecord).

Definition records_of (s : string) (m : Sessions) : list MemoryRecord := default [] (js_get m s).
Definition all_records (m : Sessions) : list MemoryRecord := concat (js_values m).

(** The session asked for, or all of them. *)
Definition candidates (o : MemoryQueryOptions) (m : Sessions) : list MemoryRecord :=
  match q_sessionId o with
  | Some s => if truthy s then records_of s m else all_records m
  | None => all_records m
  end.

(** [clear(sessionId)] of a map by sessions. *)
Definition clear_sessions {A} (s : option string) (m : list (string * A)) : list (string * A) :=
  match s with Some k => if truthy k then js_delete m k else [] | None => [] end.

(** [l.slice(-n)]: all of [l] when [n] is 0. *)
Definition slice_back {A} (l : list A) (n : Z) : list A :=
  if 0 <? n then drop (length l - Z.to_nat n) l else drop (Z.to_nat (- n)) l.

(** [l.splice(0, l.length - max)] when there are more than [max]. *)
Definition prune {A} (maxMessages : Z) (l : list A) : list A :=
  if maxMessages <? Z.of_nat (length l) then drop (Z.to_nat (Z.of_nat (length l) - maxMessages)) l else l.

(** Every record is kept under its session. *)
Definition filed (m : Sessions) : Prop := unique_keys m /\ forall s rs, js_get m s = Some rs -> Forall (fun r => sessionId r = s) rs.

Lemma filed_nil : filed [].
Proof. split; [apply unique_keys_nil|done]. Qed.

Lemma filed_set m s rs : filed m -> Forall (fun r => sessionId r = s) rs -> filed (js_set m s rs).
Proof.
  intros [Hu Hm] Hrs. split; [by apply unique_keys_set|]. intros s' rs'. rewrite js_get_set.
  case_bool_decide as H; [intros [= <-]; by subst|apply Hm].
Qed.

Lemma filed_records m s : filed m -> Forall (fun r => sessionId r = s) (records_of s m).
Proof. intros [_ Hm]. unfold records_of. destruct (js_get m s) eqn:H; [by apply Hm|constructor]. Qed.

Lemma filed_push m r : filed m -> filed (js_set m (sessionId r) (records_of (sessionId r) m ++ [r])).
Proof. intros H. apply filed_set; [done|]. apply Forall_app. split; [by apply filed_records|by constructor]. Qed.

Lemma filed_clear m s : filed m -> filed (clear_sessions s m).
Proof.
  intros [Hu Hm]. destruct s as [k|]; simpl; [destruct (truthy k)|]; [|apply filed_nil..].
  split; [by apply unique_keys_delete|]. intros s' rs. rewrite js_get_delete by done. case_bool_decide; [done|apply Hm].
Qed.

Lemma filed_candidates m o s :
  filed m -> q_sessionId o = Some s -> truthy s = true -> Forall (fun r => sessionId r = s) (candidates o m).
Proof. intros Hm Hs Ht. unfold candidates. rewrite Hs, Ht. by apply filed_records. Qed.

Lemma Forall_filter {A} (P : A -> Prop) (p : A -> bool) l : Forall P l -> Forall P (List.filter p l).
Proof. rewrite !List.Forall_forall. intros H x Hx%filter_In. apply H, Hx. Qed.

Lemma Forall_slice_front {A} (P : A -> Prop) l n : Forall P l -> Forall P (slice_front l n).
Proof. intros H. destruct (slice_front_prefix l n) as [rest Hl]. rewrite Hl in H. by apply Forall_app in H as [? _]. Qed.

Lemma Forall_slice_back {A} (P : A -> Prop) (l : list A) n : Forall P l -> Forall P (slice_back l n).
Proof. intros H. unfold slice_back. case_match; by apply Forall_drop. Qed.

(** ** Stores that live in the process *)

Section InProcess.
Context {S H : Type}.

(** What [randomUUID()] and [new Date()] answer next. *)
Context (host : H -> string * Z * H).

Definition in_process (save : string -> Z -> MemoryRecord -> S -> S) (recall : string -> MemoryQueryOptions -> S -> list MemoryRecord)
    (clear : option (option string -> S -> S)) : AgentMemoryStore (S * H) := {|
  store_save := fun r w => let '(uuid, now, h) := host w.2 in (Ret tt, (save uuid now r w.1, h));
  store_recall := fun q o w => (Ret (recall q o w.1), w);
  store_clear := (fun f s w => (Ret tt, (f s w.1, w.2))) <$> clear;
|}.

Lemma in_process_scoped save recall clear (I : S -> Prop) :
  (forall uuid now r s, I s -> I (save uuid now r s)) ->
  (forall q o s k, I s -> q_sessionId o = Some k -> truthy k = true -> Forall (fun r => sessionId r = k) (recall q o s)) ->
  SessionScoped (in_process save recall clear) (fun w => I w.1).
Proof.
  intros Hs Hr. split.
  - intros r [s h] Hi. simpl. destruct (host h) as [[uuid now] h']. simpl. by apply Hs.
  - intros q o [s h] Hi. simpl. split; [done|]. intros rs [= <-] k Hk Ht. by apply Hr.
Qed.
End InProcess.

(** *** Episodes (stores/episodic.memory.ts) *)

Module Episodic.
Definition save (uuid : string) (now : Z) (record : MemoryRecord) (episodes : Sessions) : Sessions :=
  if foreign "episodic" record then episodes
  else js_set episodes (sessionId record) (records_of (sessionId record) episodes ++ [stamp "episodic" uuid now record]).

Definition recall (query : string) (o : MemoryQueryOptions) (episodes : Sessions) : list MemoryRecord :=
  slice_front (List.filter (matches query) (candidates o episodes)) (default 50 (q_limit o)).

Definition clear (s : option string) (episodes : Sessions) : Sessions := clear_sessions s episodes.
Definition getTimeline (s : string) (episodes : Sessions) : list MemoryRecord := records_of s episodes.

Definition store {H} (host : H -> string * Z * H) : AgentMemoryStore (Sessions * H) :=
  in_process host save recall (Some clear).

Lemma episode_filed uuid now r m : filed m -> filed (save uuid now r m).
Proof. intros H. unfold save. case_match; [done|]. apply (filed_push m (stamp "episodic" uuid now r) H). Qed.

#[global] Instance episodic_scoped {H} (host : H -> string * Z * H) : SessionScoped (store host) (fun w => filed w.1).
Proof.
  apply in_process_scoped; [intros; by apply episode_filed|]. intros q o s k Hf Hk Ht.
  by apply Forall_slice_front, Forall_filter, filed_candidates.
Qed.
End Episodic.

(** *** Scratchpads (stores/scratchpad.memory.ts) *)

Module Scratchpad.
Definition Tasks : Type := list (string * list (string * MemoryRecord)).

Definition task_key (uuid : string) (record : MemoryRecord) : string :=
  let taskId := default EmptyString (meta_string (default [] (rec_metadata record)) "taskId") in
  if truthy taskId then taskId else if truthy (rec_id record) then rec_id record else uuid.

(** [{ ...record, type: 'scratchpad', timestamp }]: the id is kept as it is. *)
Definition note (now : Z) (record : MemoryRecord) : MemoryRecord :=
  stamp "scratchpad" (rec_id record) now record.

Definition save (uuid : string) (now : Z) (record : MemoryRecord) (tasksMap : Tasks) : Tasks :=
  if foreign "scratchpad" record then tasksMap
  else js_set tasksMap (sessionId record)
         (js_set (default [] (js_get tasksMap (sessionId record))) (task_key uuid record) (note now record)).

Definition recall (query : string) (o : MemoryQueryOptions) (tasksMap : Tasks) : list MemoryRecord :=
  let all := slice_front (List.filter (matches query) (concat (map js_values (js_values tasksMap)))) (default 10 (q_limit o)) in
  match q_sessionId o with
  | Some s =>
      if truthy s then
        match js_get tasksMap s with
        | Some sessionMap => slice_front (List.filter (matches query) (js_values sessionMap)) (default 50 (q_limit o))
        | None => []
        end
      else all
  | None => all
  end.

Definition clear (s : option string) (tasksMap : Tasks) : Tasks := clear_sessions s tasksMap.

Definition getWorkingSet (s : string) (tasksMap : Tasks) : list MemoryRecord :=
  match js_get tasksMap s with Some sessionMap => js_values sessionMap | None => [] end.

Definition store {H} (host : H -> string * Z * H) : AgentMemoryStore (Tasks * H) :=
  in_process host save recall (Some clear).

Definition filed (m : Tasks) : Prop :=
  forall s t, js_get m s = Some t -> Forall (fun r => sessionId r = s) (js_values t).

Lemma values_set (P : MemoryRecord -> Prop) (t : list (string * MemoryRecord)) k r : Forall P (js_values t) -> P r -> Forall P (js_values (js_set t k r)).
Proof.
  intros Ht Hr. rewrite js_set_values. constructor; [done|]. eapply Forall_sublist_of; [|exact Ht].
  unfold js_values. apply fmap_sublist, js_delete_sublist.
Qed.

Lemma task_filed uuid now r m : filed m -> filed (save uuid now r m).
Proof.
  intros H. unfold save. case_match; [done|]. intros s t. rewrite js_get_set. case_bool_decide as Hs; [|apply H].
  subst s. intros [= <-]. apply values_set; [|done]. destruct (js_get m (sessionId r)) eqn:Hg; [by apply H|constructor].
Qed.

#[global] Instance scratchpad_scoped {H} (host : H -> string * Z * H) : SessionScoped (store host) (fun w => filed w.1).
Proof.
  apply in_process_scoped; [intros; by apply task_filed|]. intros q o s k Hf Hk Ht. unfold recall. rewrite Hk, Ht.
  destruct (js_get s k) eqn:Hg; [|constructor]. by apply Forall_slice_front, Forall_filter, (Hf k).
Qed.
End Scratchpad.

(** *** Short-term windows (stores/short-term.memory.ts) *)

Module ShortTerm.
Section ShortTerm.
Context {W H : Type} (host : H -> string * Z * H).

(** What the windows use of a [StateStore]. *)
Record WindowStore : Type := {
  ws_get : string -> W -> outcome error (option (list MemoryRecord)) * W;
  ws_set : string -> list MemoryRecord -> W -> outcome error unit * W;
  ws_delete : string -> W -> outcome error unit * W;
  ws_clear : option (string -> W -> outcome error unit * W);
}.

Record ShortTermMemory : Type := { stateStore : option WindowStore; maxMessages : Z; keyPrefix : string }.

Definition mk_short_term (maxMessages : option Z) (st : option WindowStore) (keyPrefix : option string) : ShortTermMemory :=
  {| stateStore := st; maxMessages := default 20 maxMessages; keyPrefix := default "memory:short_term:" keyPrefix |}.

(** The map kept without a store, the world of the store, and the host. *)
Notation World := (Sessions * W * H)%type.
Notation M := (M error Empty_set World).

Context (self : ShortTermMemory).

Definition getKey (s : string) : string := keyPrefix self +:+ s.

Definition at_store {A} (f : W -> outcome error A * W) : M A :=
  lift (fun w => let '(o, w') := f w.1.2 in (o, (w.1.1, w', w.2))).

Definition next_stamp (record : MemoryRecord) : M MemoryRecord :=
  lift (fun w => let '(uuid, now, h) := host w.2 in (Ret (stamp "short_term" uuid now record), (w.1, h))).

Definition getWindow (s : string) : M (list MemoryRecord) :=
  match stateStore self with
  | Some st => existing <- at_store (ws_get st (getKey s)) ;; ret (default [] existing)
  | None => ask (fun w => records_of s w.1.1)
  end.

Definition setWindow (s : string) (rs : list MemoryRecord) : M unit :=
  match stateStore self with
  | Some st => at_store (ws_set st (getKey s) rs)
  | None => modify (fun w => (js_set w.1.1 s rs, w.1.2, w.2))
  end.

Definition save (record : MemoryRecord) : M unit :=
  if foreign "short_term" record then ret tt
  else
    item <- next_stamp record ;;
    existing <- getWindow (sessionId record) ;;
    setWindow (sessionId record) (prune (maxMessages self) (existing ++ [item])).

Definition recall (query : string) (o : MemoryQueryOptions) : M (list MemoryRecord) :=
  sessionRecords <-
    match q_sessionId o, stateStore self with
    | Some s, st => if truthy s then getWindow s else match st with Some _ => ret [] | None => ask (fun w => all_records w.1.1) end
    | None, Some _ => ret []
    | None, None => ask (fun w => all_records w.1.1)
    end ;;
  ret (slice_back (List.filter (matches query) sessionRecords) (default (maxMessages self) (q_limit o))).

Definition clear (s : option string) : M unit :=
  let everything :=
    match stateStore self with
    | Some st => match ws_clear st with
                 | Some f => at_store (f (keyPrefix self))
                 | None => modify (fun w => ([], w.1.2, w.2))
                 end
    | None => modify (fun w => ([], w.1.2, w.2))
    end in
  match s with
  | Some k =>
      if truthy k then
        match stateStore self with
        | Some st => at_store (ws_delete st (getKey k))
        | None => modify (fun w => (js_delete w.1.1 k, w.1.2, w.2))
        end
      else everything
  | None => everything
  end.
End ShortTerm.
Arguments WindowStore : clear implicits.
Arguments ShortTermMemory : clear implicits.

(** *** A window holds the latest records *)

(** The contents of a window store, as its answers show them. *)
Class LawfulWindowStore {W} (st : WindowStore W) (contents : W -> string -> list MemoryRecord) : Prop := {
  get_contents : forall k w, let '(o, w') := ws_get st k w in
    (forall k', contents w' k' = contents w k') /\ (forall r, o = Ret r -> default [] r = contents w k);
  set_contents : forall k v w, let '(o, w') := ws_set st k v w in
    (o = Ret tt -> forall k', contents w' k' = if bool_decide (k = k') then v else contents w k') /\
    (o <> Ret tt -> forall k', contents w' k' = contents w k');
}.

(** The last [n]. *)
Definition latest {A} (n : Z) (l : list A) : list A := drop (length l - Z.to_nat n) l.

Lemma prune_latest {A} n (l : list A) : 0 <= n -> prune n l = latest n l.
Proof.
  intros Hn. unfold prune, latest. case_match eqn:Hl.
  - f_equal. apply Z.ltb_lt in Hl. lia.
  - apply Z.ltb_ge in Hl. by replace (length l - Z.to_nat n)%nat with O by lia.
Qed.

Lemma latest_latest {A} n (l l' : list A) : latest n (latest n l ++ l') = latest n (l ++ l').
Proof.
  unfold latest. rewrite !drop_app, drop_drop, !length_app, !length_drop. f_equal; f_equal; lia.
Qed.

Lemma latest_length {A} n (l : list A) : 0 <= n -> Z.of_nat (length (latest n l)) <= n.
Proof. intros Hn. unfold latest. rewrite length_drop. lia. Qed.

Lemma latest_short {A} n (l : list A) : Z.of_nat (length l) <= n -> latest n l = l.
Proof. intros Hle. unfold latest. by replace (length l - Z.to_nat n)%nat with O by lia. Qed.

Section Window.
Context {W H : Type} (host : H -> string * Z * H) (self : ShortTermMemory W) (contents : W -> string -> list MemoryRecord).
Context (Hlaw : forall st, stateStore self = Some st -> LawfulWindowStore st contents).
Context (Hmax : 0 <= maxMessages self).
Notation World := (Sessions * W * H)%type.

(** The window of a session. *)
Definition window (s : string) (w : World) : list MemoryRecord :=
  match stateStore self with Some _ => contents w.1.2 (getKey self s) | None => records_of s w.1.1 end.

Lemma getKey_inj s s' : getKey self s = getKey self s' -> s = s'.
Proof.
  unfold getKey. intros E%(f_equal (fun x => chars x)). rewrite !chars_app in E. by apply app_inv_head, chars_inj in E.
Qed.

Lemma getWindow_wp s w Q :
  (forall o w', (forall s', window s' w' = window s' w) -> (forall rs, o = Ret rs -> rs = window s w) -> Q o w' []) ->
  wp (getWindow self s) w Q.
Proof using Hlaw.
  intros HQ. unfold getWindow, window in *. destruct (stateStore self) as [st|].
  - wp_step. pose proof (get_contents (LawfulWindowStore := Hlaw st eq_refl) (getKey self s) w.1.2) as Hg.
    unfold at_store. wp_step. destruct (ws_get st _ _) as [ans w1]. injection Hext as <- <-. destruct Hg as [Hk Hr].
    destruct ans as [r|e|]; cbn [wp_cont]; [wp_step|..]; apply HQ; try done; try (by intros; apply Hk).
    intros rs [= <-]. by apply Hr.
  - wp_step. apply HQ; [done|]. by intros rs [= <-].
Qed.

Lemma setWindow_wp s v w Q :
  (forall o w', (o = Ret tt -> forall s', window s' w' = if bool_decide (s = s') then v else window s' w) ->
     (o <> Ret tt -> forall s', window s' w' = window s' w) -> Q o w' []) ->
  wp (setWindow self s v) w Q.
Proof using Hlaw.
  intros HQ. unfold setWindow, window in *. destruct (stateStore self) as [st|].
  - pose proof (set_contents (LawfulWindowStore := Hlaw st eq_refl) (getKey self s) v w.1.2) as Hg.
    unfold at_store. wp_step. destruct (ws_set st _ _ _) as [ans w1]. injection Hext as <- <-. destruct Hg as [Hk Hr].
    apply HQ; simpl; [|auto]. intros -> s'. rewrite Hk by done. rewrite (bool_decide_ext (getKey self s = getKey self s') (s = s')); [done|].
    split; [apply getKey_inj|congruence].
  - wp_step. apply HQ; [|done]. intros _ s'. unfold records_of. simpl. rewrite js_get_set. by case_bool_decide.
Qed.

(** What a record becomes when it is stored: its type, and an id and a time where it had none. *)
Definition stamped (r i : MemoryRecord) : Prop := exists uuid now, i = stamp "short_term" uuid now r.

Definition appended (items : list MemoryRecord) (s : string) : list MemoryRecord :=
  List.filter (fun i => bool_decide (sessionId i = s)) items.

Lemma window_save_wp record w Q :
  (forall o w', (o = Ret tt -> if foreign "short_term" record then forall s, window s w' = window s w
                  else exists i, stamped record i /\ forall s, window s w' =
                    if bool_decide (sessionId record = s) then latest (maxMessages self) (window s w ++ [i]) else window s w) ->
     (o <> Ret tt -> forall s, window s w' = window s w) -> Q o w' []) ->
  wp (save host self record) w Q.
Proof using Hlaw Hmax.
  intros HQ. unfold save. destruct (foreign _ _); [wp_step; by apply HQ|].
  wp_step. unfold next_stamp. wp_step. destruct (host w.2) as [[uuid now] h]. injection Hext as <- <-. cbn [wp_cont].
  set (i := stamp _ _ _ _). set (w1 := (w.1, h)). assert (forall s, window s w1 = window s w) as Hw1 by done.
  wp_step. apply getWindow_wp. intros o2 w2 Hw2 Hr2. destruct o2 as [existing|e|]; cbn [wp_cont];
    [|apply HQ; [done|intros _ s; by rewrite Hw2]..].
  apply setWindow_wp. intros o3 w3 Hset Hkeep. rewrite (Hr2 existing eq_refl) in *. apply HQ.
  - intros ->. exists i. split; [by exists uuid, now|]. intros s. rewrite Hset by done. case_bool_decide as Hs; [|by rewrite Hw2].
    subst s. by rewrite prune_latest, Hw1.
  - intros Hne s. by rewrite Hkeep, Hw2.
Qed.

Fixpoint save_each (rs : list MemoryRecord) : M error Empty_set World unit :=
  match rs with [] => ret tt | r :: rest => save host self r ;; save_each rest end.

(** A short-term window slides.  However many records are saved, for whatever
    sessions and in whatever order, in the map of the store or in a state store that
    returns what was last set: once all saves returned, the window of every session
    is what it held and what was saved for it, in order, cut to the last
    [maxMessages]; other types of records are not in it, and a window never holds more. *)
Theorem windows_slide rs w :
  (forall s, Z.of_nat (length (window s w)) <= maxMessages self) ->
  wp (save_each rs) w (fun o w' _ => o = Ret tt ->
    exists items, Forall2 stamped (List.filter (fun r => negb (foreign "short_term" r)) rs) items /\
      forall s, window s w' = latest (maxMessages self) (window s w ++ appended items s) /\
                Z.of_nat (length (window s w')) <= maxMessages self).
Proof using Hlaw Hmax.
  revert w. induction rs as [|r rs IH]; intros w Hw; cbn [save_each List.filter].
  { wp_step. intros _. exists []. split; [done|]. intros s. unfold appended. simpl. by rewrite app_nil_r, latest_short. }
  wp_step. apply window_save_wp. intros o1 w1 Hok _. destruct o1 as [[]|e|]; cbn [wp_cont]; [|done..].
  specialize (Hok eq_refl). destruct (foreign "short_term" r); cbn [negb].
  - eapply wp_mono; [apply IH; intros s; by rewrite Hok|]. intros o w' l Hrest ->.
    destruct (Hrest eq_refl) as (items & Hst & Hall). exists items. split; [done|]. intros s. rewrite <- Hok. apply Hall.
  - destruct Hok as (i & Hi & Hwin). eapply wp_mono; [apply IH|].
    + intros s. rewrite Hwin. case_bool_decide; [by apply latest_length|done].
    + intros o w' l Hrest ->. destruct (Hrest eq_refl) as (items & Hst & Hall). exists (i :: items).
      split; [by constructor|]. intros s. destruct (Hall s) as [Hs Hlen]. split; [|done]. rewrite Hs, Hwin.
      assert (sessionId i = sessionId r) as Hsid by (by destruct Hi as (? & ? & ->)).
      unfold appended. cbn [List.filter]. rewrite Hsid. case_bool_decide; [|done]. by rewrite latest_latest, <- app_assoc.
Qed.

(** Every window holds records of its session. *)
Definition windows_filed (w : World) : Prop := forall s, Forall (fun r => sessionId r = s) (window s w).

Lemma recall_wp query o s w Q :
  q_sessionId o = Some s -> truthy s = true ->
  (forall out w', (forall s', window s' w' = window s' w) ->
     (forall rs, out = Ret rs ->
        rs = slice_back (List.filter (matches query) (window s w)) (default (maxMessages self) (q_limit o))) -> Q out w' []) ->
  wp (recall self query o) w Q.
Proof using Hlaw.
  intros Hs Ht HQ. unfold recall. rewrite Hs, Ht. wp_step. apply getWindow_wp. intros out w' Hw Hr.
  destruct out as [rs|e|]; cbn [wp_cont]; [wp_step|..]; apply HQ; try done. intros rs' [= <-]. by rewrite (Hr rs eq_refl).
Qed.

End Window.

(** The windows as a store of memory records. *)
Definition store {W H} (host : H -> string * Z * H) (self : ShortTermMemory W) : AgentMemoryStore (Sessions * W * H) := {|
  store_save := fun r w => (save host self r w).1;
  store_recall := fun q o w => (recall self q o w).1;
  store_clear := Some (fun s w => (clear self s w).1);
|}.

Lemma windows_scoped {W H} (host : H -> string * Z * H) (self : ShortTermMemory W) contents :
  (forall st, stateStore self = Some st -> LawfulWindowStore st contents) -> 0 <= maxMessages self ->
  SessionScoped (store host self) (windows_filed self contents).
Proof.
  intros Hlaw Hmax. split.
  - intros r w Hw. simpl. assert (wp (save host self r) w (fun _ w' _ => windows_filed self contents w')) as Hwp.
    { eapply window_save_wp; [done|done|]. intros o w' Hok Hkeep s. destruct o as [[]|e|]; [|by rewrite Hkeep..].
      specialize (Hok eq_refl). destruct (foreign _ _); [by rewrite Hok|]. destruct Hok as (i & (u & t & ->) & ->).
      case_bool_decide; [|done]. apply Forall_drop, Forall_app. split; [done|]. by constructor. }
    unfold wp in Hwp. by destruct (save host self r w) as [[o w'] l].
  - intros q o w Hw. simpl. destruct (recall self q o w) as [[out w'] l] eqn:Hrun. simpl. split.
    + destruct (q_sessionId o) as [s|] eqn:Hs; [destruct (truthy s) eqn:Ht|].
      { assert (wp (recall self q o) w (fun _ w' _ => windows_filed self contents w')) as Hwp.
        { eapply recall_wp; [done..|]. intros out' w1 Hw1 _ s'. by rewrite Hw1. }
        unfold wp in Hwp. by rewrite Hrun in Hwp. }
      all: unfold recall in Hrun; rewrite Hs, ?Ht in Hrun; destruct (stateStore self); by injection Hrun as <- <- <-.
    + intros rs -> s Hs Ht.
      assert (wp (recall self q o) w (fun out _ _ => forall rs, out = Ret rs -> Forall (fun r => sessionId r = s) rs)) as Hwp.
      { eapply recall_wp; [done..|]. intros out' w1 _ Hr rs' E. rewrite (Hr rs' E). by apply Forall_slice_back, Forall_filter. }
      unfold wp in Hwp. rewrite Hrun in Hwp. by apply Hwp.
Qed.

(** A state store that keeps what it is given. *)
Definition plain_store : WindowStore Sessions := {|
  ws_get := fun k m => (Ret (js_get m k), m);
  ws_set := fun k v m => (Ret tt, js_set m k v);
  ws_delete := fun k m => (Ret tt, js_delete m k);
  ws_clear := Some (fun _ m => (Ret tt, [])) |}.

#[global] Instance plain_lawful : LawfulWindowStore plain_store (fun m k => records_of k m).
Proof.
  split; simpl; [intros k w; split; [done|by intros r [= <-]]|]. intros k v w. split; [|done]. intros _ k'.
  unfold records_of. rewrite js_get_set. by case_bool_decide.
Qed.
End ShortTerm.

(** *** Semantic search (stores/semantic.memory.ts) *)

Module Semantic.

Record SemanticMatch : Type := { match_record : MemoryRecord; match_score : Q }.

Record SemanticStoreProvider {W : Type} : Type := {
  sp_save : MemoryRecord -> W -> outcome error unit * W;
  sp_search : string -> Z -> W -> outcome error (list SemanticMatch) * W;
}.
Arguments SemanticStoreProvider : clear implicits.

(** [BasicSemanticStore] *)
Definition basic_save (record : MemoryRecord) (records : list MemoryRecord) : list MemoryRecord := records ++ [record].

Definition score_tokens (query : string) (record : MemoryRecord) : SemanticMatch :=
  let queryTokens := split_spaces (to_lower query) in
  let tokens := split_spaces (to_lower (rec_content record)) in
  let matchCount := count (fun t => bool_decide (t ∈ queryTokens)) tokens in
  {| match_record := record; match_score := (Q_of_nat matchCount / Q_of_nat (Nat.max (length tokens) 1))%Q |}.

(** Descending by score. *)
Definition by_score (a b : SemanticMatch) : bool := Qle_bool (match_score b) (match_score a).

Definition basic_search (query : string) (limit : Z) (records : list MemoryRecord) : list SemanticMatch :=
  slice_front (List.filter (fun s => Q_ltb 0 (match_score s)) (stable_sort by_score (map (score_tokens query) records))) limit.

Definition basic_store : SemanticStoreProvider (list MemoryRecord) := {|
  sp_save := fun r records => (Ret tt, basic_save r records);
  sp_search := fun q limit records => (Ret (basic_search q limit records), records) |}.

Section Semantic.
Context {W H : Type} (host : H -> string * Z * H) (provider : SemanticStoreProvider W).

Definition save (record : MemoryRecord) (w : W * H) : outcome error unit * (W * H) :=
  if foreign "semantic" record then (Ret tt, w)
  else
    let '(uuid, now, h) := host w.2 in
    let '(o, w') := sp_save provider (stamp "semantic" uuid now record) w.1 in (o, (w', h)).

(** The matches that belong to the session, when one is named. *)
Definition of_session (o : MemoryQueryOptions) (records : list MemoryRecord) : list MemoryRecord :=
  match q_sessionId o with
  | Some k => if truthy k then List.filter (fun r => bool_decide (sessionId r = k)) records else records
  | None => records
  end.

Definition recall (query : string) (o : MemoryQueryOptions) (w : W * H) : outcome error (list MemoryRecord) * (W * H) :=
  let '(out, w') := sp_search provider query (default 10 (q_limit o)) w.1 in
  (match out with
   | Ret found => Ret (of_session o (map match_record found))
   | Throw e => Throw e
   | Diverge => Diverge
   end, (w', w.2)).

Definition store : AgentMemoryStore (W * H) := {| store_save := save; store_recall := recall; store_clear := None |}.

#[global] Instance semantic_scoped : SessionScoped store (fun _ => True).
Proof.
  split; [done|]. intros q o w _. simpl. unfold recall. destruct (sp_search _ _ _ _) as [out w']. split; [done|].
  intros rs Hrs k Hk Ht. destruct out as [found|e|]; [|done..]. injection Hrs as <-. unfold of_session. rewrite Hk, Ht.
  apply List.Forall_forall. intros r [_ Hr]%filter_In. by apply bool_decide_eq_true in Hr.
Qed.
End Semantic.
End Semantic.

(** *** Several stores as one (stores/composite.memory.ts) *)

Module Composite.
Section Composite.
Context {W : Type}.
Notation M := (M error Empty_set W).

Fixpoint save_all (stores : list (AgentMemoryStore W)) (record : MemoryRecord) : M unit :=
  match stores with
  | [] => ret tt
  | st :: rest => lift (store_save st record) ;; save_all rest record
  end.

Fixpoint recall_all (stores : list (AgentMemoryStore W)) (query : string) (o : MemoryQueryOptions)
    (results : list MemoryRecord) : M (list MemoryRecord) :=
  match stores with
  | [] => ret results
  | st :: rest => records <- lift (store_recall st query o) ;; recall_all rest query o (results ++ records)
  end.

(** One record for each id: the last, in the place of the first. *)
Definition unique (results : list MemoryRecord) : list MemoryRecord :=
  js_values (fold_left (fun m r => js_set m (rec_id r) r) results []).

Definition recall (stores : list (AgentMemoryStore W)) (query : string) (o : MemoryQueryOptions) : M (list MemoryRecord) :=
  results <- recall_all stores query o [] ;;
  ret (slice_front (unique results) (default 20 (q_limit o))).

Fixpoint clear_all (stores : list (AgentMemoryStore W)) (s : option string) : M unit :=
  match stores with
  | [] => ret tt
  | st :: rest =>
      match store_clear st with Some f => lift (f s) | None => ret tt end ;;
      clear_all rest s
  end.

Definition run {A} (m : M A) (w : W) : outcome error A * W := (m w).1.

Definition store (stores : list (AgentMemoryStore W)) : AgentMemoryStore W := {|
  store_save := fun r => run (save_all stores r);
  store_recall := fun q o => run (recall stores q o);
  store_clear := Some (fun s => run (clear_all stores s));
|}.

Lemma recall_all_scoped stores q o I w results :
  Forall (fun st => SessionScoped st I) stores -> I w ->
  wp (recall_all stores q o results) w (fun out w' _ => I w' /\ forall rs, out = Ret rs ->
    forall s, q_sessionId o = Some s -> truthy s = true ->
      Forall (fun r => sessionId r = s) results -> Forall (fun r => sessionId r = s) rs).
Proof.
  intros Hst. revert w results. induction Hst as [|st stores Hsc Hst IH]; intros w results Hw; cbn [recall_all].
  { wp_step. split; [done|]. by intros rs [= <-]. }
  wp_step. wp_step. pose proof (scoped_recall q o w Hw) as Hr. destruct (store_recall st q o w) as [ans w1].
  injection Hext as <- <-. destruct Hr as [Hw1 Hr]. destruct ans as [records|e|]; cbn [wp_cont]; [|done..].
  eapply wp_mono; [by apply IH|]. intros out2 w2 l (Hw2 & Hall). split; [done|]. intros rs E s Hs Ht Hres.
  apply (Hall rs E s Hs Ht), Forall_app. split; [done|]. by apply Hr.
Qed.

Lemma unique_spec results :
  NoDup (map rec_id (unique results)) /\ (forall r, r ∈ unique results -> r ∈ results) /\
  (forall r, r ∈ results -> rec_id r ∈ map rec_id (unique results)).
Proof.
  unfold unique. assert (forall m : list (string * MemoryRecord), Forall (fun e => rec_id e.2 = e.1) m -> unique_keys m ->
    let m' := fold_left (fun m r => js_set m (rec_id r) r) results m in
    Forall (fun e => rec_id e.2 = e.1) m' /\ unique_keys m' /\ (forall e, e ∈ m' -> e ∈ m \/ e.2 ∈ results) /\
    (forall k, k ∈ js_keys m \/ k ∈ map rec_id results -> k ∈ js_keys m')) as Hfold.
  { induction results as [|r rest IH]; intros m Hm Hu; cbn [fold_left].
    { split_and!; [done|done|by left|]. by intros k [?|?%elem_of_nil]. }
    destruct (IH (js_set m (rec_id r) r)) as (H1 & H2 & H3 & H4).
    { rewrite js_set_perm. constructor; [done|]. eapply Forall_sublist_of; [apply js_delete_sublist|done]. }
    { by apply unique_keys_set. }
    split_and!; [done|done| |].
    - intros e He. destruct (H3 e He) as [Hin|Hin]; [|right; by right]. rewrite js_set_perm in Hin.
      apply elem_of_cons in Hin as [->|Hin]; [right; by left|left]. eapply elem_of_sublist; [exact Hin|apply js_delete_sublist].
    - intros k Hk. apply H4. rewrite js_set_keys. cbn [map] in Hk.
      destruct Hk as [Hk|[->|Hk]%elem_of_cons]; [left..|by right].
      + case_match; [done|]. apply elem_of_app. by left.
      + case_match eqn:Hh; [|apply elem_of_app; right; by left].
        unfold js_has in Hh. destruct (js_get m (rec_id r)) eqn:Hg; [|done].
        apply js_get_elem in Hg. apply list_elem_of_fmap. eexists (_, _). split; [|done]. done. }
  destruct (Hfold [] ltac:(constructor) unique_keys_nil) as (H1 & H2 & H3 & H4).
  set (m := fold_left _ _ _) in *. assert (map rec_id (js_values m) = js_keys m) as Hmap.
  { clearbody m. clear -H1. unfold js_values, js_keys. induction H1 as [|e m He _ IH]; [done|]. cbn. by rewrite He, <- IH. }
  rewrite Hmap. split_and!; [done| |].
  - intros r Hr. unfold js_values in Hr. apply list_elem_of_fmap in Hr as (e & -> & He).
    destruct (H3 e He) as [Hn|Hn]; [by apply elem_of_nil in Hn|done].
  - intros r Hr. apply H4. right. apply list_elem_of_fmap. by exists r.
Qed.

(** A composite is as scoped as its stores. *)
Lemma composite_scoped stores I : Forall (fun st => SessionScoped st I) stores -> SessionScoped (store stores) I.
Proof.
  intros Hst. split.
  - intros r w Hw. simpl. unfold run. assert (wp (save_all stores r) w (fun _ w' _ => I w')) as Hwp.
    { revert w Hw. induction Hst as [|st stores Hsc Hst IH]; intros w Hw; cbn [save_all]; [by wp_step|].
      wp_step. wp_step. pose proof (scoped_save r w Hw) as Hs. destruct (store_save st r w) as [ans w1].
      injection Hext as <- <-. destruct ans; cbn [wp_cont]; [by apply IH|done..]. }
    unfold wp in Hwp. by destruct (save_all stores r w) as [[o w'] l].
  - intros q o w Hw. simpl. unfold run.
    assert (wp (recall stores q o) w (fun out w' _ => I w' /\ forall rs, out = Ret rs ->
      forall s, q_sessionId o = Some s -> truthy s = true -> Forall (fun r => sessionId r = s) rs)) as Hwp.
    { unfold recall. wp_step. eapply wp_mono; [by apply recall_all_scoped|]. intros ans w1 l [Hw1 Hr].
      destruct ans as [results|e|]; cbn [wp_cont]; [|done..]. wp_step. split; [done|]. intros rs [= <-] s Hs Ht.
      apply Forall_slice_front, List.Forall_forall. intros r Hin%list_elem_of_In. specialize (Hr _ eq_refl s Hs Ht ltac:(constructor)).
      rewrite Forall_forall in Hr. apply Hr, unique_spec, Hin. }
    unfold wp in Hwp. by destruct (recall stores q o w) as [[out w'] l].
Qed.

End Composite.
End Composite.

(** ** The summarizer (utils/token-budget-summarizer.ts) *)

Module Summarizer.

Record TokenBudgetSummarizer : Type := { maxTokenBudget : Q; charsPerToken : Q }.

Definition mk_summarizer (budget chars_per_token : option Q) : TokenBudgetSummarizer :=
  {| maxTokenBudget := default (inject_Z 4000) budget; charsPerToken := default (inject_Z 4) chars_per_token |}.

Section Summarizer.
Context (self : TokenBudgetSummarizer).

(** [Math.ceil(text.length / this.charsPerToken)] *)
Definition estimateTokens (text : string) : Z := Qceiling (inject_Z (str_length text) / charsPerToken self).

Definition total_tokens (records : list MemoryRecord) : Z :=
  fold_left (fun sum r => sum + estimateTokens (rec_content r)) records 0.

Definition summary_content (toSummarize : list MemoryRecord) : string :=
  "[Summary of " +:+ Z_to_string (Z.of_nat (length toSummarize)) +:+ " previous interactions: " +:+
  Js.join " | " (map rec_content toSummarize) +:+ "]".

Definition summary_record (now : Z) (session : string) (content : string) : MemoryRecord := {|
  rec_id := "summary_" +:+ Z_to_string now; sessionId := session; rec_type := "short_term"; rec_content := content;
  importance := None; rec_embedding := None; rec_metadata := None; timestamp := Some now; lastAccessedAt := None |}.

Definition summarizeRecords (now : Z) (records : list MemoryRecord) : list MemoryRecord :=
  if Qle_bool (inject_Z (total_tokens records)) (maxTokenBudget self) || (length records <=? 2)%nat then records
  else
    let n := (length records - 2)%nat in
    match records with
    | [] => records
    | r0 :: _ => summary_record now (sessionId r0) (summary_content (take n records)) :: drop n records
    end.

(** *** What a summary is worth *)

Definition text_length (records : list MemoryRecord) : Z := fold_right (fun r n => str_length (rec_content r) + n) 0 records.

Lemma text_length_app l1 l2 : text_length (l1 ++ l2) = text_length l1 + text_length l2.
Proof. induction l1 as [|r l1 IH]; simpl; [done|]. rewrite IH. lia. Qed.

Lemma join_length (sep : string) (l : list string) : fold_right (fun s n => str_length s + n) 0 l <= str_length (Js.join sep l).
Proof.
  unfold Js.join. induction l as [|s [|s' l] IH]; [done|simpl; lia|].
  change (String.concat sep (s :: s' :: l)) with (s +:+ sep +:+ String.concat sep (s' :: l)).
  rewrite !str_length_app. cbn [fold_right] in *. pose proof (Zle_0_nat (String.length sep)). unfold str_length in *. lia.
Qed.

(** A summary saves nothing.  Over its budget the summarizer replaces all but the
    last two records by one, of the session of the first, whose text holds all of
    theirs: the text that results is longer than the text it was given, whatever the
    budget; within it, or with two records or fewer, the history is handed back as it is. *)
Theorem summary_saves_nothing now records :
  summarizeRecords now records = records \/
  (inject_Z (total_tokens records) > maxTokenBudget self)%Q /\
  exists summary older a b,
    records = older ++ [a; b] /\ summarizeRecords now records = [summary; a; b] /\
    hd_error (map sessionId records) = Some (sessionId summary) /\
    text_length records < text_length (summarizeRecords now records).
Proof.
  unfold summarizeRecords. destruct (Qle_bool _ _) eqn:Hb; [by left|]. destruct (length records <=? 2)%nat eqn:Hl; [by left|].
  apply Nat.leb_gt in Hl. right. split; [by apply Q_ltb_lt; unfold Q_ltb; rewrite Hb|]. cbn [orb].
  destruct records as [|r0 rest] eqn:Hrec; [simpl in Hl; lia|]. assert (hd_error (map sessionId records) = Some (sessionId r0)) as Hhd by (by subst).
  rewrite <- Hrec in *. clear rest Hrec Hb. set (n := (length records - 2)%nat).
  assert (length (drop n records) = 2%nat) as Hdrop by (rewrite length_drop; lia).
  destruct (drop n records) as [|a [|b [|]]] eqn:Hd; simpl in Hdrop; [lia|lia| |lia].
  exists (summary_record now (sessionId r0) (summary_content (take n records))), (take n records), a, b.
  split_and!; [by rewrite <- Hd, take_drop|done|done|]. rewrite <- (take_drop n records) at 1. rewrite Hd, text_length_app.
  cbn [text_length fold_right rec_content summary_record]. unfold summary_content. rewrite !str_length_app.
  pose proof (join_length " | " (map rec_content (take n records))) as Hj.
  assert (forall l, fold_right (fun s n => str_length s + n) 0 (map rec_content l) = text_length l) as Hmap.
  { induction l as [|r l IH]; simpl; [done|]. by rewrite IH. }
  rewrite Hmap in Hj. unfold str_length in *. simpl (Z.of_nat (String.length "[Summary of ")). lia.
Qed.
End Summarizer.
End Summarizer.

(** ** At work *)

Definition entry (id session kind text : string) : MemoryRecord := {|
  rec_id := id; sessionId := session; rec_type := kind; rec_content := text; importance := None; rec_embedding := None;
  rec_metadata := None; timestamp := None; lastAccessedAt := None |}.

(** Ids and times count up. *)
Definition demo_host (n : nat) : string * Z * nat := ("id-" +:+ Z_to_string (Z.of_nat n), Z.of_nat n, S n).

Definition demo_windows : ShortTerm.ShortTermMemory Sessions :=
  ShortTerm.mk_short_term (Some 2) (Some ShortTerm.plain_store) None.

Definition demo_saves : list MemoryRecord :=
  [entry EmptyString "s" EmptyString "one"; entry "b" "t" "short_term" "two"; entry "c" "s" "episodic" "three";
   entry "d" "s" EmptyString "four"; entry "e" "s" EmptyString "five"].

Lemma windows_slide_witness :
  let run := ShortTerm.save_each demo_host demo_windows demo_saves (([], []), 0%nat) in
  run.1.1 = Ret tt /\
  (exists items, length items = 4%nat /\
    ShortTerm.window demo_windows (fun m k => records_of k m) "s" run.1.2 = ShortTerm.latest 2 (ShortTerm.appended items "s")) /\
  map rec_content (ShortTerm.window demo_windows (fun m k => records_of k m) "s" run.1.2) = ["four"; "five"].
Proof.
  split; [by vm_compute|]. split; [|by vm_compute].
  pose proof (ShortTerm.windows_slide demo_host demo_windows (fun m k => records_of k m)
    ltac:(intros st [= <-]; apply ShortTerm.plain_lawful) ltac:(simpl; lia) demo_saves (([], []), 0%nat) ltac:(simpl; lia)) as Hw.
  unfold wp in Hw. destruct (ShortTerm.save_each _ _ _ _) as [[o w'] l] eqn:Hrun.
  assert (o = Ret tt) as Ho by (by vm_compute in Hrun; injection Hrun as <- _ _).
  destruct (Hw Ho) as (items & Hst & Hall). exists items. split; [by apply Forall2_length in Hst; rewrite <- Hst|].
  apply (Hall "s").
Defined.

(** [limit: 0] asks for everything. *)
Example limit_zero_recalls_all :
  let o := {| q_sessionId := Some "s"; q_limit := Some 0; q_type := None; minScoreCutoff := None; q_weights := None;
              q_decayOptions := None; queryEmbedding := None |} in
  (ShortTerm.recall (H := nat) {| ShortTerm.stateStore := None; ShortTerm.maxMessages := 2; ShortTerm.keyPrefix := EmptyString |}
     EmptyString o (([("s", [entry "a" "s" EmptyString "one"; entry "b" "s" EmptyString "two"])], tt), 0%nat)).1.1 =
  Ret [entry "a" "s" EmptyString "one"; entry "b" "s" EmptyString "two"].
Proof. reflexivity. Qed.

(** The best matches of all sessions are cut to the limit before a session is chosen. *)
Example other_sessions_use_up_the_limit :
  let records := [entry "a" "mine" "semantic" "refund policy today"; entry "b" "theirs" "semantic" "refund policy"] in
  let o := {| q_sessionId := Some "mine"; q_limit := Some 1; q_type := None; minScoreCutoff := None; q_weights := None;
              q_decayOptions := None; queryEmbedding := None |} in
  (Semantic.recall Semantic.basic_store "refund policy" o (records, tt)).1 = Ret [].
Proof. reflexivity. Qed.

(** Two saves to one state store that read before either writes: the first is lost. *)
Example interleaved_saves_lose_one :
  let read := default [] (js_get ([] : Sessions) "k") in
  let first := js_set [] "k" (prune 20 (read ++ [entry "a" "s" "short_term" "one"])) in
  records_of "k" (js_set first "k" (prune 20 (read ++ [entry "b" "s" "short_term" "two"]))) = [entry "b" "s" "short_term" "two"].
Proof. reflexivity. Qed.

End Memory.
