(* ===== verification/MemoryScoring.v ===== *)
(** * Scoring memories (packages/memory/src/scoring/stanford-memory-scorer.ts,
      packages/memory/src/stores/generative.memory.ts)

    The ranking of memories by recency, importance and relevance, and the store that
    recalls by it.  [Math.exp], [Math.pow], [Math.sqrt] and [Math.LN2] are parameters
    over rationals; an importance may be NaN, as a custom extractor may answer. *)

From Stdlib Require Import Ascii Qround.
From S2P Require Export Memory.

#[local] Open Scope string_scope.
#[local] Open Scope list_scope.
#[local] Open Scope Z_scope.
#[local] Open Scope eff_scope.

Module MemoryScoring.
Import Consensus Retrieval Memory.

(** [Math.min(1.0, Math.max(0.0, a))], on decimals and on rationals *)
Definition clamp01 (a : num) : num := num_min (num_of_Z 1) (num_max (num_of_Z 0) a).
Definition unit_Q (q : Q) : Q := Q_min 1 (Q_max 0 q).

Definition ratio_lt (a b : ratio) : bool :=
  match a, b with RNaN, _ | _, RNaN => false | _, _ => negb (ratio_le b a) end.

(** [a / b] for a finite [b] that is not zero, [q * a] for a finite [q]. *)
Definition ratio_div (a : ratio) (b : Q) : ratio :=
  match a with RQ x => RQ (x / b) | RNaN => RNaN | RInf n => RInf (xorb n (Q_ltb b 0)) end.
Definition ratio_scale (q : Q) (a : ratio) : ratio :=
  match a with
  | RQ x => RQ (q * x)
  | RNaN => RNaN
  | RInf n => if Qeq_bool q 0 then RNaN else RInf (xorb n (Q_ltb q 0))
  end.

(** [Math.round(a * 10 ** digits) / 10 ** digits] *)
Definition round_Q (scale : positive) (q : Q) : Q := Qfloor (q * inject_Z (Zpos scale) + (1 # 2)) # scale.
Definition ratio_round (scale : positive) (a : ratio) : ratio :=
  match a with RQ q => RQ (round_Q scale q) | _ => a end.

(** A scored candidate. *)
Record ScoredMemoryRecord {A : Type} : Type := {
  scored_record : A;
  score : ratio;
  recencyScore : ratio;
  importanceScore : ratio;
  relevanceScore : ratio;
}.
Arguments ScoredMemoryRecord : clear implicits.

Record StanfordScorerOptions : Type := {
  sc_weights : option TriFactorWeights;
  sc_decayOptions : option RecencyDecayOptions;
  sc_now : option Z;
  sc_minScoreCutoff : option Q;
  sc_queryEmbedding : option (list Q);
  sc_importanceExtractor : option (MemoryRecord -> num);
  sc_normalizePool : option bool;
}.

Section Scorer.
Context (exp : Q -> Q) (pow : Q -> Q -> Q) (sqrt : Q -> Q) (ln2 : Q).

Definition record_time (record : MemoryRecord) (now : Z) : Z :=
  match timestamp record with Some t => t | None => default now (lastAccessedAt record) end.

Definition elapsedMs (record : MemoryRecord) (now : Z) : Q := inject_Z (Z.max 0 (now - record_time record now)).

Definition computeRecency (record : MemoryRecord) (now : Z) (options : option RecencyDecayOptions) : Q :=
  let half_life := default 0%Q (options ≫= halfLifeHours) in
  if Q_ltb 0 half_life then
    let halfLifeMs := (half_life * inject_Z 3600 * inject_Z 1000)%Q in
    let lambda := (ln2 / halfLifeMs)%Q in
    unit_Q (exp (- lambda * elapsedMs record now))
  else
    let rate := default (995 # 1000)%Q (options ≫= decayRate) in
    let unit_ms := default (inject_Z 3600000) (options ≫= decayUnitMs) in
    if Qle_bool unit_ms 0 || Qle_bool rate 0 then 1%Q
    else unit_Q (pow rate (elapsedMs record now / unit_ms)).

(** The importance of the record, else the one of its metadata. *)
Definition rawImportance (record : MemoryRecord) : option num :=
  match importance record with
  | Some r => Some r
  | None => match obj_get (default [] (rec_metadata record)) "importance" with
            | Some (VNum n) => Some n
            | _ => None
            end
  end.

(** [raw / 10.0] is exact on decimals. *)
Definition tenth (raw : num) : num := num_mul raw (NDec 1 (-1)).

Definition computeImportance (record : MemoryRecord) (customExtractor : option (MemoryRecord -> num)) : num :=
  match customExtractor with
  | Some extract => clamp01 (extract record)
  | None =>
      match rawImportance record with
      | None | Some NNaN => NDec 5 (-1)
      | Some raw =>
          if num_ltb (num_of_Z 1) raw && num_le raw (num_of_Z 10) then tenth raw else clamp01 raw
      end
  end.

Fixpoint cosine_sums (a b : list Q) (dot magA magB : Q) : Q * Q * Q :=
  match a, b with
  | x :: a', y :: b' => cosine_sums a' b' (dot + x * y)%Q (magA + x * x)%Q (magB + y * y)%Q
  | _, _ => (dot, magA, magB)
  end.

(** For vectors of one length. *)
Definition cosineSimilarity (a b : list Q) : Q :=
  let '(dot, magA, magB) := cosine_sums a b 0%Q 0%Q 0%Q in
  let mag := (sqrt magA * sqrt magB)%Q in
  if Qeq_bool mag 0 then 0%Q else (dot / mag)%Q.

(** The characters of the class in [tokenize]. *)
Definition separator (c : ascii) : bool :=
  is_space c || bool_decide (c ∈ chars (",.;:!?()[]{}'`/\#*+-_" +:+ dq)).

Fixpoint split_class (l cur : list ascii) (in_gap : bool) : list string :=
  match l with
  | [] => [of_chars (rev cur)]
  | c :: l' =>
      if separator c then
        if in_gap then split_class l' cur true else of_chars (rev cur) :: split_class l' [] true
      else split_class l' (c :: cur) false
  end.

Definition tokenize (text : string) : list string :=
  List.filter (fun t => 1 <? str_length t) (split_class (chars text) [] false).

Definition computeRelevance (record : MemoryRecord) (query : string) (queryEmbedding : option (list Q)) : Q :=
  let by_text :=
    let qLower := trim (to_lower query) in
    let cLower := trim (to_lower (rec_content record)) in
    if str_is_empty qLower || str_is_empty cLower then 0%Q
    else if includes qLower cLower then (95 # 100)%Q
    else
      let queryTokens := tokenize qLower in
      let contentTokens := tokenize cLower in
      match queryTokens, contentTokens with
      | [], _ | _, [] => 0%Q
      | _, _ =>
          let hits := count (fun t => bool_decide (t ∈ contentTokens)) queryTokens in
          unit_Q (round_Q 100 (Q_of_nat hits / Q_of_nat (length queryTokens)))
      end in
  match queryEmbedding, rec_embedding record with
  | Some q, Some e =>
      if (0 <? length q)%nat && (length e =? length q)%nat then unit_Q (cosineSimilarity e q) else by_text
  | _, _ => by_text
  end.

(** *** Ranking *)

Section Rank.
Context {A : Type} (rec : A -> MemoryRecord).

Record raw_scores : Type := { raw_record : A; rawR : ratio; rawI : ratio; rawS : ratio }.

Definition raw (query : string) (now : Z) (o : StanfordScorerOptions) (m : A) : raw_scores := {|
  raw_record := m;
  rawR := RQ (computeRecency (rec m) now (sc_decayOptions o));
  rawI := of_num (computeImportance (rec m) (sc_importanceExtractor o));
  rawS := RQ (computeRelevance (rec m) query (sc_queryEmbedding o)) |}.

(** The least and the greatest of a pool, from plus and minus infinity. *)
Definition pool_min (l : list ratio) : ratio := fold_left (fun m x => if ratio_lt x m then x else m) l (RInf false).
Definition pool_max (l : list ratio) : ratio := fold_left (fun m x => if ratio_lt m x then x else m) l (RInf true).

(** [normalize && max > min ? (x - min) / (max - min) : x]; the scores of a pool are finite. *)
Definition normalized (normalize : bool) (lo hi x : ratio) : ratio :=
  if normalize && ratio_lt lo hi then
    match ratio_sub hi lo with RQ d => ratio_div (ratio_sub x lo) d | _ => RNaN end
  else x.

Definition weight (o : StanfordScorerOptions) (f : TriFactorWeights -> option Q) (d : Q) : Q :=
  default d (sc_weights o ≫= f).

Definition rankCandidates (candidates : list A) (query : string) (now : Z) (o : StanfordScorerOptions)
    : list (ScoredMemoryRecord A) :=
  let rawScores := map (raw query (default now (sc_now o)) o) candidates in
  let normalize := default true (sc_normalizePool o) in
  let norm f := normalized normalize (pool_min (map f rawScores)) (pool_max (map f rawScores)) in
  let wR := weight o w_recency (3 # 10) in
  let wI := weight o w_importance (3 # 10) in
  let wS := weight o w_relevance (4 # 10) in
  let totalWeight := if Q_ltb 0 (wR + wI + wS) then (wR + wI + wS)%Q else 1%Q in
  let score_item item :=
    let normR := norm rawR (rawR item) in
    let normI := norm rawI (rawI item) in
    let normS := norm rawS (rawS item) in
    let finalScore := ratio_add (ratio_add (ratio_scale (wR / totalWeight) normR) (ratio_scale (wI / totalWeight) normI))
                                (ratio_scale (wS / totalWeight) normS) in
    {| scored_record := raw_record item; score := ratio_round 1000 finalScore;
       recencyScore := ratio_round 1000 normR; importanceScore := ratio_round 1000 normI;
       relevanceScore := ratio_round 1000 normS |} in
  let cutoff := default 0%Q (sc_minScoreCutoff o) in
  stable_sort (fun a b => ratio_le (score b) (score a))
    (List.filter (fun s => ratio_le (RQ cutoff) (score s)) (map score_item rawScores)).
End Rank.
End Scorer.

(** ** Bounds of the scores *)

#[local] Open Scope Q_scope.

Definition in_unit (q : Q) : Prop := 0 <= q /\ q <= 1.
Definition unit_ratio (a : ratio) : Prop := exists q, a = RQ q /\ in_unit q.
Definition unit_or_nan (a : ratio) : Prop := a = RNaN \/ unit_ratio a.

Lemma Qle_bool_false a b : Qle_bool a b = false -> b < a.
Proof. intros H. apply Q_ltb_lt. unfold Q_ltb. by rewrite H. Qed.

Lemma unit_Q_in q : in_unit (unit_Q q).
Proof.
  unfold in_unit, unit_Q, Q_min, Q_max. destruct (Qle_bool 0 q) eqn:H0.
  - destruct (Qle_bool 1 q) eqn:H1; [lra|]. apply Qle_bool_iff in H0. apply Qle_bool_false in H1. lra.
  - simpl. lra.
Qed.

Lemma of_num_Q a q : num_Q a = Some q -> of_num a = RQ q.
Proof. destruct a; try done. by intros [= <-]. Qed.

Lemma unit_num a q : num_Q a = Some q -> in_unit q -> unit_or_nan (of_num a).
Proof. intros Ha Hq. right. exists q. by rewrite (of_num_Q a q Ha). Qed.

Lemma clamp01_unit a : unit_or_nan (of_num (clamp01 a)).
Proof.
  assert (dec_Q 0 0 == 0 /\ dec_Q 1 0 == 1) as [E0 E1] by (split; apply dec_Q_int).
  destruct a as [m e| |[]]; [|by left|..].
  - unfold clamp01. destruct (num_max_Q (num_of_Z 0) (NDec m e) _ _ eq_refl eq_refl) as (x & Hx & Ex).
    destruct (num_min_Q (num_of_Z 1) _ _ _ eq_refl Hx) as (y & Hy & Ey). eapply unit_num; [exact Hy|].
    assert (0 <= x) by (rewrite Ex, <- E0; apply Q.le_max_l).
    split; rewrite Ey; [apply Q.min_glb; lra|]. eapply Qle_trans; [apply Q.le_min_l|rewrite E1; lra].
  - eapply unit_num; [reflexivity|]. split; rewrite E0; lra.
  - eapply unit_num; [reflexivity|]. split; rewrite E1; lra.
Qed.

Lemma round_Q_unit scale q : in_unit q -> in_unit (round_Q scale q).
Proof.
  intros [H0 H1]. unfold in_unit, round_Q. set (k := inject_Z (Z.pos scale)). assert (0 < k) as Hk by done.
  assert (0 <= q * k) as Ha by (apply Qmult_le_0_compat; [done|lra]).
  assert (q * k <= k) as Hb by (rewrite <- (Qmult_1_l k) at 2; apply Qmult_le_compat_r; [done|lra]).
  assert ((0 <= Qfloor (q * k + (1 # 2)))%Z) as Hf0.
  { apply (Qfloor_resp_le 0). lra. }
  assert ((Qfloor (q * k + (1 # 2)) <= Z.pos scale)%Z) as Hf1.
  { assert (inject_Z (Qfloor (q * k + (1 # 2))) < inject_Z (Z.pos scale + 1)) as Hlt.
    { rewrite inject_Z_plus. pose proof (Qfloor_le (q * k + (1 # 2))). change (inject_Z 1) with 1. fold k. lra. }
    rewrite <- Zlt_Qlt in Hlt. lia. }
  unfold Qle. cbn [Qnum Qden]. change (Qnum 0) with 0%Z. change (Qnum 1) with 1%Z. lia.
Qed.

Lemma ratio_round_unit scale a : unit_or_nan a -> unit_or_nan (ratio_round scale a).
Proof. intros [->|(q & -> & Hq)]; [by left|right]. eexists. split; [done|]. by apply round_Q_unit. Qed.

Lemma tenth_unit raw q : num_Q raw = Some q -> 1 < q -> q <= 10 -> unit_or_nan (of_num (tenth raw)).
Proof.
  intros Hq H1 H2. assert (dec_Q 1 (-1) == 1 # 10) as E by (unfold dec_Q; reflexivity).
  destruct (num_mul_finite raw (NDec 1 (-1)) q (dec_Q 1 (-1)) Hq eq_refl) as (r & Hr & Er).
  { rewrite E. pose proof double_limit_big. lra. }
  eapply unit_num; [exact Hr|]. unfold in_unit. rewrite Er, E. split; lra.
Qed.

Lemma importance_unit record extract : unit_or_nan (of_num (computeImportance record extract)).
Proof.
  unfold computeImportance. destruct extract as [f|]; [apply clamp01_unit|].
  assert (unit_or_nan (of_num (NDec 5 (-1)))) as Hhalf by (eapply unit_num; [reflexivity|]; split; vm_compute; congruence).
  destruct (rawImportance record) as [raw|]; [|done]. destruct raw as [m e| |n]; [|done|].
  - destruct (_ && _) eqn:Hs; [|apply clamp01_unit]. apply andb_true_iff in Hs as [H1 H2].
    assert (dec_Q 10 0 == 10 /\ dec_Q 1 0 == 1) as [E10 E1] by (split; apply dec_Q_int).
    apply (num_le_finite (NDec m e) (num_of_Z 10) _ _ eq_refl eq_refl) in H2. apply andb_true_iff in H1 as [_ H1].
    apply negb_true_iff in H1. eapply tenth_unit; [reflexivity| |lra].
    rewrite <- E1. apply Qnot_le_lt. intros H. by rewrite (proj2 (num_le_finite (NDec m e) (num_of_Z 1) _ _ eq_refl eq_refl) H) in H1.
  - destruct n; apply clamp01_unit.
Qed.

Lemma pool_min_le l acc : acc = RInf false \/ (exists a, acc = RQ a) ->
  let r := fold_left (fun m x => if ratio_lt x m then x else m) l acc in
  forall x, acc = RQ x \/ RQ x ∈ l -> Forall unit_or_nan l -> exists lo, r = RQ lo /\ lo <= x.
Proof.
  revert acc. induction l as [|y l IH]; intros acc Hacc r x Hx Hl; subst r; cbn [fold_left].
  { destruct Hx as [->|Hx%elem_of_nil]; [|done]. eexists. split; [done|lra]. }
  apply Forall_cons in Hl as [Hy Hl]. destruct (ratio_lt y acc) eqn:Hlt.
  - destruct Hy as [->|(q & -> & Hq)]; [done|]. destruct Hx as [->|[[= ->]|Hx]%elem_of_cons].
    + cbn in Hlt. apply negb_true_iff, Qle_bool_false in Hlt.
      destruct (IH (RQ q) ltac:(eauto) q (or_introl eq_refl) Hl) as (lo & -> & Hlo). eexists. split; [done|lra].
    + apply IH; eauto.
    + apply IH; eauto.
  - destruct Hx as [->|[E|Hx]%elem_of_cons]; [apply IH; eauto| |apply IH; eauto]. subst y.
    destruct Hacc as [->|[a ->]]; [done|]. cbn in Hlt. apply negb_false_iff, Qle_bool_iff in Hlt.
    destruct (IH (RQ a) ltac:(eauto) a (or_introl eq_refl) Hl) as (lo & -> & Hlo). eexists. split; [done|lra].
Qed.

Lemma pool_max_ge l acc : acc = RInf true \/ (exists a, acc = RQ a) ->
  let r := fold_left (fun m x => if ratio_lt m x then x else m) l acc in
  forall x, acc = RQ x \/ RQ x ∈ l -> Forall unit_or_nan l -> exists hi, r = RQ hi /\ x <= hi.
Proof.
  revert acc. induction l as [|y l IH]; intros acc Hacc r x Hx Hl; subst r; cbn [fold_left].
  { destruct Hx as [->|Hx%elem_of_nil]; [|done]. eexists. split; [done|lra]. }
  apply Forall_cons in Hl as [Hy Hl]. destruct (ratio_lt acc y) eqn:Hlt.
  - destruct Hy as [->|(q & -> & Hq)]; [by destruct acc as [|  |[]]|]. destruct Hx as [->|[[= ->]|Hx]%elem_of_cons].
    + cbn in Hlt. apply negb_true_iff, Qle_bool_false in Hlt.
      destruct (IH (RQ q) ltac:(eauto) q (or_introl eq_refl) Hl) as (hi & -> & Hhi). eexists. split; [done|lra].
    + apply IH; eauto.
    + apply IH; eauto.
  - destruct Hx as [->|[E|Hx]%elem_of_cons]; [apply IH; eauto| |apply IH; eauto]. subst y.
    destruct Hacc as [->|[a ->]]; [done|]. cbn in Hlt. apply negb_false_iff, Qle_bool_iff in Hlt.
    destruct (IH (RQ a) ltac:(eauto) a (or_introl eq_refl) Hl) as (hi & -> & Hhi). eexists. split; [done|lra].
Qed.

Lemma normalized_unit normalize l x :
  Forall unit_or_nan l -> x ∈ l -> unit_or_nan (normalized normalize (pool_min l) (pool_max l) x).
Proof.
  intros Hl Hx. assert (unit_or_nan x) as Hux by (rewrite Forall_forall in Hl; auto). unfold normalized.
  destruct (normalize && _) eqn:Hn; [|done]. apply andb_true_iff in Hn as [_ Hlt].
  destruct Hux as [->|(q & -> & Hq)]; [left; by destruct (ratio_sub _ _)|].
  destruct (pool_min_le l (RInf false) ltac:(by left) q (or_intror Hx) Hl) as (lo & Hlo & Hle).
  destruct (pool_max_ge l (RInf true) ltac:(by left) q (or_intror Hx) Hl) as (hi & Hhi & Hge).
  fold (pool_min l) in Hlo. fold (pool_max l) in Hhi. rewrite Hlo, Hhi in *. cbn in Hlt |- *.
  apply negb_true_iff, Qle_bool_false in Hlt. right. eexists. split; [done|].
  split; [apply Qle_shift_div_l; lra|apply Qle_shift_div_r; lra].
Qed.

Lemma weighted_unit w1 w2 w3 x y z :
  0 <= w1 -> 0 <= w2 -> 0 <= w3 -> in_unit x -> in_unit y -> in_unit z ->
  let total := if Q_ltb 0 (w1 + w2 + w3) then w1 + w2 + w3 else 1 in
  in_unit (w1 / total * x + w2 / total * y + w3 / total * z).
Proof.
  intros H1 H2 H3 [? ?] [? ?] [? ?] total. assert (0 < total /\ w1 + w2 + w3 <= total) as [Ht Hsum].
  { subst total. destruct (Q_ltb 0 _) eqn:E; [apply Q_ltb_lt in E; lra|apply Q_ltb_ge in E; lra]. }
  assert (w1 / total * x + w2 / total * y + w3 / total * z == (w1 * x + w2 * y + w3 * z) / total) as E by (field; lra).
  split; rewrite E; [apply Qle_shift_div_l|apply Qle_shift_div_r]; nra.
Qed.

Lemma combined_unit w1 w2 w3 a b c :
  0 <= w1 -> 0 <= w2 -> 0 <= w3 -> unit_or_nan a -> unit_or_nan b -> unit_or_nan c ->
  let total := if Q_ltb 0 (w1 + w2 + w3) then w1 + w2 + w3 else 1 in
  unit_or_nan (ratio_add (ratio_add (ratio_scale (w1 / total) a) (ratio_scale (w2 / total) b)) (ratio_scale (w3 / total) c)).
Proof.
  intros H1 H2 H3 Ha Hb Hc total.
  destruct Ha as [->|(x & -> & Hx)]; [by left|]. destruct Hb as [->|(y & -> & Hy)]; [by left|].
  destruct Hc as [->|(z & -> & Hz)]; [by left|]. right. eexists. split; [done|]. by apply weighted_unit.
Qed.

Lemma recency_unit exp pow ln2 record now options : in_unit (computeRecency exp pow ln2 record now options).
Proof.
  unfold computeRecency. destruct (Q_ltb _ _); [apply unit_Q_in|]. destruct (_ || _); [split; lra|apply unit_Q_in].
Qed.

Lemma relevance_unit sqrt record query e : in_unit (computeRelevance sqrt record query e).
Proof.
  unfold computeRelevance. set (by_text := if _ || _ then _ else _). assert (in_unit by_text) as Ht.
  { subst by_text. destruct (_ || _); [split; lra|]. destruct (includes _ _); [split; lra|].
    destruct (tokenize _); [split; lra|]. destruct (tokenize _); [split; lra|]. apply unit_Q_in. }
  destruct e as [q|]; [|done]. destruct (rec_embedding record) as [v|]; [|done]. destruct (_ && _); [apply unit_Q_in|done].
Qed.

Section Ranking.
Context (exp : Q -> Q) (pow : Q -> Q -> Q) (sqrt : Q -> Q) (ln2 : Q) {A : Type} (rec : A -> MemoryRecord).
Notation rankCandidates := (rankCandidates exp pow sqrt ln2 rec).

(** The weights that are given are not negative. *)
Definition nonneg_weights (o : StanfordScorerOptions) : Prop :=
  0 <= weight o w_recency (3 # 10) /\ 0 <= weight o w_importance (3 # 10) /\ 0 <= weight o w_relevance (4 # 10).

Lemma rank_elem candidates query now o s :
  s ∈ rankCandidates candidates query now o ->
  scored_record s ∈ candidates /\ ratio_le (RQ (default 0 (sc_minScoreCutoff o))) (score s) = true /\
  (nonneg_weights o -> unit_or_nan (score s) /\ unit_or_nan (recencyScore s) /\ unit_or_nan (importanceScore s) /\
                       unit_or_nan (relevanceScore s)).
Proof.
  intros Hs. unfold MemoryScoring.rankCandidates in Hs. rewrite stable_sort_permutation in Hs.
  apply list_elem_of_In, filter_In in Hs as [Hs Hcut]. split; [|split; [done|]]; apply in_map_iff in Hs as (item & <- & Hin).
  - apply in_map_iff in Hin as (m & <- & Hm). simpl. by apply list_elem_of_In.
  - intros (H1 & H2 & H3). set (raws := map _ candidates) in *.
    assert (Forall (fun r => unit_or_nan (rawR r) /\ unit_or_nan (rawI r) /\ unit_or_nan (rawS r)) raws) as Hraw.
    { apply List.Forall_forall. intros r (m & <- & Hm)%in_map_iff. unfold raw. cbn [rawR rawI rawS]. split_and!; [|apply importance_unit|].
      - right. eexists. split; [done|apply recency_unit].
      - right. eexists. split; [done|apply relevance_unit]. }
    assert (forall f : raw_scores -> ratio, (forall r, r ∈ raws -> unit_or_nan (f r)) ->
      unit_or_nan (normalized (default true (sc_normalizePool o)) (pool_min (map f raws)) (pool_max (map f raws)) (f item))) as Hnorm.
    { intros f Hf. apply normalized_unit.
      - apply List.Forall_forall. intros x (r & <- & Hr)%in_map_iff. by apply Hf, list_elem_of_In.
      - by apply list_elem_of_fmap_2, list_elem_of_In. }
    rewrite Forall_forall in Hraw.
    assert (forall r, r ∈ raws -> unit_or_nan (rawR r)) as HR by (intros; by apply Hraw).
    assert (forall r, r ∈ raws -> unit_or_nan (rawI r)) as HI by (intros; by apply Hraw).
    assert (forall r, r ∈ raws -> unit_or_nan (rawS r)) as HS by (intros; by apply Hraw).
    cbn [score recencyScore importanceScore relevanceScore]. split_and!; apply ratio_round_unit; try by apply Hnorm.
    apply combined_unit; try done; by apply Hnorm.
Qed.

Definition scored_at (q : Q) (s : ScoredMemoryRecord A) : bool :=
  match score s with RQ x => Qeq_bool x q | _ => false end.

(** Every recalled memory is scored within [0, 1].  With weights that are not
    negative, whatever the exponentials answer and whatever a custom extractor rates:
    every memory of the ranking is a candidate; its score and the three components of
    it are numbers between 0 and 1 (a component can be NaN only with the score, which
    excludes the memory); its score reaches the cutoff; and the ranking is in
    descending order, candidates of equal score in the order they came. *)
Theorem ranking_in_unit candidates query now o :
  nonneg_weights o ->
  let ranking := rankCandidates candidates query now o in
  Forall (fun s => scored_record s ∈ candidates /\ unit_ratio (score s) /\
                   ratio_le (RQ (default 0 (sc_minScoreCutoff o))) (score s) = true /\
                   unit_or_nan (recencyScore s) /\ unit_or_nan (importanceScore s) /\ unit_or_nan (relevanceScore s)) ranking /\
  ordered (fun a b => ratio_le (score b) (score a)) ranking /\
  (length ranking <= length candidates)%nat /\
  forall q, map scored_record (List.filter (scored_at q) ranking) `sublist_of` candidates.
Proof.
  intros Hw ranking.
  assert (forall s, s ∈ ranking -> unit_ratio (score s)) as Hunit.
  { intros s Hs. destruct (rank_elem _ _ _ _ _ Hs) as (_ & Hcut & Hu). destruct (Hu Hw) as ([E|E] & _); [|done].
    by rewrite E in Hcut. }
  split_and!.
  - apply Forall_forall. intros s Hs. destruct (rank_elem _ _ _ _ _ Hs) as (? & ? & Hu). destruct (Hu Hw) as (_ & ? & ? & ?). split_and!; auto.
  - unfold ranking, MemoryScoring.rankCandidates in *.
    apply (stable_sort_ordered (fun a b => ratio_le (score b) (score a)) (fun s => unit_ratio (score s))).
    + intros x y (p & -> & _) (q & -> & _). cbn. destruct (Qle_bool q p) eqn:E; [by left|right].
      apply Qle_bool_false in E. apply Qle_bool_iff. lra.
    + intros x y z (p & -> & _) (q & -> & _) (r & -> & _). cbn. rewrite !Qle_bool_iff. lra.
    + apply Forall_forall. intros s Hs. apply Hunit. by rewrite stable_sort_permutation.
  - unfold ranking, MemoryScoring.rankCandidates. rewrite stable_sort_length. etrans; [apply filter_length_le|]. by rewrite !length_map.
  - intros q. unfold ranking, MemoryScoring.rankCandidates. rewrite stable_sort_stable.
    + etrans; [apply fmap_sublist; etrans; [apply filter_sublist|apply filter_sublist]|].
      rewrite <- list_fmap_compose, <- list_fmap_compose. simpl. by rewrite list_fmap_id.
    + intros x y. unfold scored_at. destruct (score x) as [a| |], (score y) as [b| |]; try done. intros Ha%Qeq_bool_iff Hb%Qeq_bool_iff.
      cbn. apply Qle_bool_iff. lra.
Qed.
End Ranking.

(** ** The generative store (stores/generative.memory.ts) *)

#[local] Open Scope Z_scope.

(** A stored record is an object that recalls share with the store and update in
    place: it carries its identity. *)
Definition Item : Type := nat * MemoryRecord.

Record Generative : Type := { gen_records : list (string * list Item); gen_next : nat }.

Definition empty_store : Generative := {| gen_records := []; gen_next := O |}.

Inductive gen_event : Type := Embedded (text : string).

Section Generative.
Context (exp : Q -> Q) (pow : Q -> Q -> Q) (sqrt : Q -> Q) (ln2 : Q).
Context {W : Type} (newId : W -> string * W) (clock : W -> Z * W).

Record GenerativeMemoryOptions : Type := {
  defaultWeights : option TriFactorWeights;
  defaultDecayOptions : option RecencyDecayOptions;
  importanceExtractor : option (MemoryRecord -> num);
  embedFn : option (string -> W -> outcome error (list Q) * W);
}.

Notation World := (Generative * W)%type.
Notation M := (M error gen_event World).
Context (self : GenerativeMemoryOptions).

Definition host {A} (f : W -> A * W) : M A := lift (fun w => let '(a, w') := f w.2 in (Ret a, (w.1, w'))).

(** [embedFn(text)], when there is one and a text; a failure leaves no embedding. *)
Definition try_embed (text : string) (have : option (list Q)) : M (option (list Q)) :=
  match have, embedFn self with
  | None, Some f =>
      if truthy text then
        emit (Embedded text) ;;
        r <- tried (lift (fun w => let '(o, w') := f text w.2 in (o, (w.1, w')))) ;;
        ret match r with inl e => Some e | inr _ => None end
      else ret None
  | _, _ => ret have
  end.

Definition items_of (s : string) (g : Generative) : list Item := default [] (js_get (gen_records g) s).

Definition push_item (r : MemoryRecord) (g : Generative) : Generative := {|
  gen_records := js_set (gen_records g) (sessionId r) (items_of (sessionId r) g ++ [(gen_next g, r)]);
  gen_next := S (gen_next g) |}.

Definition save (record : MemoryRecord) : M unit :=
  embedding <- try_embed (rec_content record) (rec_embedding record) ;;
  id <- (if truthy (rec_id record) then ret (rec_id record) else host newId) ;;
  created <- match timestamp record with Some t => ret t | None => host clock end ;;
  accessed <- host clock ;;
  let item := {|
    rec_id := id; sessionId := sessionId record;
    rec_type := if truthy (rec_type record) then rec_type record else "generative";
    rec_content := rec_content record;
    importance := Some (computeImportance record (importanceExtractor self));
    rec_embedding := embedding; rec_metadata := rec_metadata record; timestamp := Some created;
    lastAccessedAt := Some accessed |} in
  modify (fun w => (push_item item w.1, w.2)).

Definition all_items (g : Generative) : list Item := concat (js_values (gen_records g)).

Definition gen_candidates (o : MemoryQueryOptions) (g : Generative) : list Item :=
  let pool := match q_sessionId o with
              | Some s => if truthy s then items_of s g else all_items g
              | None => all_items g
              end in
  match q_type o with
  | Some t => if truthy t then List.filter (fun i => bool_decide (rec_type i.2 = t)) pool else pool
  | None => pool
  end.

Definition scorer_options (o : MemoryQueryOptions) (e : option (list Q)) : StanfordScorerOptions := {|
  sc_weights := match q_weights o with Some w => Some w | None => defaultWeights self end;
  sc_decayOptions := match q_decayOptions o with Some d => Some d | None => defaultDecayOptions self end;
  sc_now := None; sc_minScoreCutoff := minScoreCutoff o; sc_queryEmbedding := e;
  sc_importanceExtractor := importanceExtractor self; sc_normalizePool := None |}.

Definition accessed_at (now : Z) (r : MemoryRecord) : MemoryRecord := {|
  rec_id := rec_id r; sessionId := sessionId r; rec_type := rec_type r; rec_content := rec_content r;
  importance := importance r; rec_embedding := rec_embedding r; rec_metadata := rec_metadata r;
  timestamp := timestamp r; lastAccessedAt := Some now |}.

(** The objects with these identities are updated wherever they are held. *)
Definition touch (ids : list nat) (now : Z) (i : Item) : Item :=
  if bool_decide (i.1 ∈ ids) then (i.1, accessed_at now i.2) else i.

Definition touch_all (ids : list nat) (now : Z) (g : Generative) : Generative := {|
  gen_records := map (fun e => (e.1, map (touch ids now) e.2)) (gen_records g); gen_next := gen_next g |}.

Definition touch_scored (ids : list nat) (now : Z) (s : ScoredMemoryRecord Item) : ScoredMemoryRecord Item := {|
  scored_record := touch ids now (scored_record s); score := score s; recencyScore := recencyScore s;
  importanceScore := importanceScore s; relevanceScore := relevanceScore s |}.

Definition recallScored (query : string) (o : MemoryQueryOptions) : M (list (ScoredMemoryRecord Item)) :=
  g <- ask fst ;;
  match gen_candidates o g with
  | [] => ret []
  | pool =>
      e <- try_embed query (queryEmbedding o) ;;
      rank_time <- host clock ;;
      let scored := rankCandidates exp pow sqrt ln2 snd pool query rank_time (scorer_options o e) in
      now <- host clock ;;
      let topScored := slice_front scored (default 10 (q_limit o)) in
      let ids := map (fun s => (scored_record s).1) topScored in
      modify (fun w => (touch_all ids now w.1, w.2)) ;;
      ret (map (touch_scored ids now) topScored)
  end.

Definition recall (query : string) (o : MemoryQueryOptions) : M (list MemoryRecord) :=
  scored <- recallScored query o ;;
  ret (map (fun s => (scored_record s).2) scored).

Definition getAll (s : option string) : M (list MemoryRecord) :=
  g <- ask fst ;;
  ret (map snd (match s with Some k => if truthy k then items_of k g else all_items g | None => all_items g end)).

Definition clear (s : option string) : M unit :=
  modify (fun w => ({| gen_records := clear_sessions s (gen_records w.1); gen_next := gen_next w.1 |}, w.2)).

(** *** What a recall changes *)

Lemma concat_perm {B} (l l' : list (list B)) : l ≡ₚ l' -> concat l ≡ₚ concat l'.
Proof.
  induction 1 as [|x l l' _ IH|x y l|l l' l'' _ IH1 _ IH2]; simpl; [done|by rewrite IH| |by rewrite IH1].
  by rewrite !app_assoc, (Permutation_app_comm x y).
Qed.

(** Sessions hold their own records, which are distinct objects with a time and an
    importance. *)
Record gen_ok (g : Generative) : Prop := {
  ok_keys : unique_keys (gen_records g);
  ok_session : forall s l, js_get (gen_records g) s = Some l -> Forall (fun i => sessionId i.2 = s) l;
  ok_ids : NoDup (map fst (all_items g)) /\ Forall (fun i => i.1 < gen_next g)%nat (all_items g);
  ok_items : Forall (fun i => is_some (timestamp i.2) = true /\ exists a, importance i.2 = Some a /\ unit_or_nan (of_num a)) (all_items g);
}.

Lemma all_items_elem g i : i ∈ all_items g <-> exists s l, (s, l) ∈ gen_records g /\ i ∈ l.
Proof.
  unfold all_items, js_values. rewrite list_elem_of_In, in_concat. split.
  - intros (l & Hl & Hi). apply list_elem_of_In, list_elem_of_fmap in Hl as ([s l'] & -> & Hin). exists s, l'. split; [done|by apply list_elem_of_In].
  - intros (s & l & Hin & Hi). exists l. split; [|by apply list_elem_of_In]. apply list_elem_of_In, list_elem_of_fmap. by exists (s, l).
Qed.

Lemma push_all_items r g : unique_keys (gen_records g) -> all_items (push_item r g) ≡ₚ (gen_next g, r) :: all_items g.
Proof.
  intros Hu. unfold all_items, push_item, items_of. cbn [gen_records].
  rewrite (concat_perm _ _ (js_set_values (gen_records g) (sessionId r) _)). simpl.
  destruct (js_get (gen_records g) (sessionId r)) as [old|] eqn:Hg; simpl.
  - rewrite (concat_perm _ _ (js_delete_values _ _ _ Hg)). simpl. rewrite <- app_assoc. simpl. by rewrite <- Permutation_middle.
  - by rewrite js_delete_absent.
Qed.

Lemma push_ok r g :
  is_some (timestamp r) = true -> (exists a, importance r = Some a /\ unit_or_nan (of_num a)) -> gen_ok g -> gen_ok (push_item r g).
Proof.
  intros Ht Ha [Hu Hs [Hnd Hlt] Hi]. pose proof (push_all_items r g Hu) as Hp. split.
  - by apply unique_keys_set.
  - intros s l. unfold push_item. cbn [gen_records]. rewrite js_get_set. case_bool_decide as E; [|apply Hs]. intros [= <-]. subst s.
    apply Forall_app. split; [|by constructor]. unfold items_of. destruct (js_get _ _) eqn:Hg; [by apply Hs|constructor].
  - rewrite Hp. split; cbn [map fst gen_next push_item].
    + constructor; [|done]. intros (i & E & Hin)%list_elem_of_fmap. rewrite Forall_forall in Hlt. specialize (Hlt i Hin). lia.
    + constructor; [simpl; lia|]. eapply Forall_impl; [exact Hlt|]. simpl. lia.
  - rewrite Hp. by constructor.
Qed.

Lemma touch_all_items ids now g : all_items (touch_all ids now g) = map (touch ids now) (all_items g).
Proof.
  unfold all_items, touch_all, js_values. cbn [gen_records]. induction (gen_records g) as [|e m IH]; [done|].
  cbn. rewrite map_app. by rewrite <- IH.
Qed.

Lemma touch_id ids now i : (touch ids now i).1 = i.1.
Proof. unfold touch. by case_match. Qed.

Lemma js_get_map {B C} (f : B -> C) (m : list (string * B)) k :
  js_get (map (fun e => (e.1, f e.2)) m) k = f <$> js_get m k.
Proof. induction m as [|[k' v] m IH]; simpl; [done|]. by case_bool_decide. Qed.

Lemma touch_ok ids now g : gen_ok g -> gen_ok (touch_all ids now g).
Proof.
  intros [Hu Hs [Hnd Hlt] Hi]. split.
  - unfold unique_keys, touch_all. cbn [gen_records]. rewrite <- list_fmap_compose. exact Hu.
  - intros s l. unfold touch_all. cbn [gen_records]. rewrite js_get_map. intros (l0 & Hl & ->)%fmap_Some.
    apply Forall_fmap. eapply Forall_impl; [by apply (Hs s)|]. intros i. simpl. unfold touch. by case_match.
  - rewrite touch_all_items. split; [|apply Forall_fmap; eapply Forall_impl; [exact Hlt|]; intros i; simpl; by rewrite touch_id].
    rewrite map_map. by rewrite (map_ext _ fst (fun i => touch_id ids now i)).
  - rewrite touch_all_items. apply Forall_fmap. eapply Forall_impl; [exact Hi|]. intros i. simpl. unfold touch. by case_match.
Qed.

Lemma try_embed_wp text have w (Q : outcome error (option (list Q)) -> World -> list gen_event -> Prop) :
  (forall out w' l, w'.1 = w.1 -> (forall e, out <> Throw e) -> (length l <= 1)%nat -> Q out w' l) ->
  wp (try_embed text have) w Q.
Proof.
  intros HQ. assert (forall v w', w'.1 = w.1 -> Q (Ret v) w' []) as Hret by (intros; apply HQ; simpl; [done|done|lia]).
  unfold try_embed. destruct have; [wp_step; by apply Hret|]. destruct (embedFn self) as [f|]; [|wp_step; by apply Hret].
  destruct (truthy text); [|wp_step; by apply Hret]. wp_step. wp_step. cbn [wp_cont]. wp_step. wp_step. wp_step.
  destruct (f text w.2) as [ans w1]. injection Hext as <- <-. destruct ans; [wp_step|wp_step|]; apply HQ; simpl; auto.
Qed.

Lemma host_wp {B} (f : W -> B * W) w (Q : outcome error B -> World -> list gen_event -> Prop) :
  (forall b w', w'.1 = w.1 -> Q (Ret b) w' []) -> wp (host f) w Q.
Proof.
  intros HQ. unfold host. wp_step. destruct (f w.2) as [b w1]. injection Hext as <- <-. by apply HQ.
Qed.

(** A saved record joins its session as an object of its own, rated and dated. *)
Lemma save_ok record w :
  gen_ok w.1 ->
  wp (save record) w (fun o w' l => gen_ok w'.1 /\ (length l <= 1)%nat /\ (forall e, o <> Throw e) /\
    (o = Ret tt -> exists item, all_items w'.1 ≡ₚ (gen_next w.1, item) :: all_items w.1 /\ sessionId item = sessionId record /\
       rec_content item = rec_content record)).
Proof.
  intros Hok. unfold save. wp_step. apply try_embed_wp. intros e w1 l1 Hw1 Hne Hl1.
  destruct e as [e|e|]; cbn [wp_cont]; [|by destruct (Hne e)|by rewrite Hw1; split_and!].
  wp_step. assert (forall (Q : outcome error string -> World -> list gen_event -> Prop),
    (forall b w', w'.1 = w1.1 -> Q (Ret b) w' []) -> wp (if truthy (rec_id record) then ret (rec_id record) else host newId) w1 Q) as Hid.
  { intros Q' HQ'. destruct (truthy (rec_id record)); [wp_step; by apply HQ'|by apply host_wp]. }
  apply Hid. intros id w2 Hw2. cbn [wp_cont]. wp_step.
  assert (forall (Q : outcome error Z -> World -> list gen_event -> Prop),
    (forall b w', w'.1 = w2.1 -> Q (Ret b) w' []) -> wp (match timestamp record with Some t => ret t | None => host clock end) w2 Q) as Ht.
  { intros Q' HQ'. destruct (timestamp record); [wp_step; by apply HQ'|by apply host_wp]. }
  apply Ht. intros t w3 Hw3. cbn [wp_cont]. wp_step. apply host_wp. intros a w4 Hw4. cbn [wp_cont]. wp_step.
  rewrite Hw4, Hw3, Hw2, Hw1, !app_nil_r. set (item := Build_MemoryRecord _ _ _ _ _ _ _ _ _). split_and!; [|by rewrite ?length_app; simpl; lia|done|].
  - apply push_ok; [done| |done]. eexists. split; [done|apply importance_unit].
  - intros _. exists item. split_and!; [apply push_all_items, Hok|done|done].
Qed.

Definition unmarked (i : Item) : Item := (i.1, accessed_at 0 i.2).

Lemma gen_candidates_in o g i : gen_ok g -> i ∈ gen_candidates o g ->
  i ∈ all_items g /\ (forall s, q_sessionId o = Some s -> truthy s = true -> sessionId i.2 = s) /\
  (forall t, q_type o = Some t -> truthy t = true -> rec_type i.2 = t).
Proof.
  intros Hok. unfold gen_candidates. set (pool := match q_sessionId o with Some s => _ | None => _ end).
  assert (i ∈ pool -> i ∈ all_items g /\ forall s, q_sessionId o = Some s -> truthy s = true -> sessionId i.2 = s) as Hpool.
  { assert (forall s, i ∈ items_of s g -> i ∈ all_items g /\ sessionId i.2 = s) as Hof.
    { intros s Hi. unfold items_of in Hi. destruct (js_get (gen_records g) s) as [l|] eqn:Hg; [|by apply elem_of_nil in Hi]. split.
      - apply all_items_elem. exists s, l. split; [by apply js_get_elem|done].
      - pose proof (ok_session g Hok s l Hg) as Hl. rewrite Forall_forall in Hl. by apply Hl. }
    subst pool. destruct (q_sessionId o) as [s|]; [|done]. destruct (truthy s) eqn:Ht; [|intros Hi; split; [done|intros ? [= <-]; congruence]].
    intros Hi. destruct (Hof s Hi). split; [done|]. by intros s' [= <-]. }
  intros Hi. destruct (q_type o) as [t|]; [|destruct (Hpool Hi); by split_and!].
  destruct (truthy t) eqn:Ht.
  - apply list_elem_of_In, filter_In in Hi as [Hi Htype]. apply bool_decide_eq_true in Htype. apply list_elem_of_In in Hi.
    destruct (Hpool Hi). split_and!; [done|done|]. by intros t' [= <-].
  - destruct (Hpool Hi). split_and!; [done|done|]. intros t' [= <-]. congruence.
Qed.

(** The state after a recall that marked the objects [ids]. *)
Definition marked (g g' : Generative) (ids : list nat) : Prop := exists now, g' = touch_all ids now g.

Lemma touch_unmarked ids now i : unmarked (touch ids now i) = unmarked i.
Proof. unfold touch. by case_match. Qed.

Lemma touch_recency ids now i now' d :
  is_some (timestamp i.2) = true ->
  computeRecency exp pow ln2 (touch ids now i).2 now' d = computeRecency exp pow ln2 i.2 now' d.
Proof.
  intros Ht. unfold touch. case_match; [|done]. unfold computeRecency, elapsedMs, record_time. simpl. by destruct (timestamp i.2).
Qed.

Lemma touch_nothing now g : touch_all [] now g = g.
Proof.
  destruct g as [m n]. unfold touch_all. f_equal. cbn [gen_records]. induction m as [|[s l] m IH]; [done|]. cbn [map fst snd].
  rewrite IH. f_equal. f_equal. induction l as [|i l IHl]; [done|]. cbn [map]. rewrite IHl. done.
Qed.

Lemma marked_nothing g : marked g g [].
Proof. exists 0. by rewrite touch_nothing. Qed.

Lemma marked_effect g g' ids :
  gen_ok g -> marked g g' ids ->
  gen_ok g' /\ map unmarked (all_items g') = map unmarked (all_items g) /\
  (forall i now d, i ∈ all_items g' -> exists i0, i0 ∈ all_items g /\ i0.1 = i.1 /\
     computeRecency exp pow ln2 i.2 now d = computeRecency exp pow ln2 i0.2 now d) /\
  (forall i, i ∈ all_items g -> i.1 ∉ ids -> i ∈ all_items g').
Proof.
  intros Hok [now ->]. pose proof (ok_items g Hok) as Hitems. rewrite Forall_forall in Hitems. split_and!.
  - by apply touch_ok.
  - rewrite touch_all_items, map_map. apply map_ext. intros i. apply touch_unmarked.
  - intros i now' d. rewrite touch_all_items. intros (i0 & -> & Hi0)%list_elem_of_fmap. exists i0.
    split_and!; [done|by rewrite touch_id|]. by apply touch_recency, Hitems.
  - intros i Hi Hn. rewrite touch_all_items. apply list_elem_of_fmap. exists i. split; [|done]. unfold touch.
    by rewrite bool_decide_false.
Qed.

Lemma recallScored_wp query o w (Q : outcome error (list (ScoredMemoryRecord Item)) -> World -> list gen_event -> Prop) :
  (forall out w' l, (length l <= 1)%nat -> (forall e, out <> Throw e) ->
     (match out with
      | Ret top => exists now e ids, ids = map (fun s => (scored_record s).1) top /\ w'.1 = touch_all ids now w.1 /\
          exists top0, top = map (touch_scored ids now) top0 /\
            (top0 = [] \/ exists at_time, top0 = slice_front (rankCandidates exp pow sqrt ln2 snd (gen_candidates o w.1) query at_time (scorer_options o e)) (default 10 (q_limit o)))
      | _ => w'.1 = w.1
      end) -> Q out w' l) ->
  wp (recallScored query o) w Q.
Proof.
  intros HQ. unfold recallScored. wp_step. wp_step. destruct (gen_candidates o w.1) as [|i0 pool] eqn:Hpool.
  { wp_step. apply HQ; [simpl; lia|done|]. exists 0, None, []. split_and!; [done|by rewrite touch_nothing|].
    exists []. by split; [|left]. }
  rewrite <- Hpool in *. wp_step. apply try_embed_wp. intros e w1 l1 Hw1 Hne Hl1.
  destruct e as [e|e|]; cbn [wp_cont]; [|by destruct (Hne e)|by apply HQ].
  wp_step. apply host_wp. intros t w2 Hw2. cbn [wp_cont]. cbv zeta. wp_step. apply host_wp. intros now w3 Hw3. cbn [wp_cont].
  wp_step. wp_step. wp_step. apply HQ; [rewrite !length_app; simpl; lia|done|]. set (top0 := slice_front _ _).
  exists now, e, (map (fun s => (scored_record s).1) top0). split_and!.
  - rewrite map_map. apply map_ext. intros s. unfold touch_scored. simpl. by rewrite touch_id.
  - by rewrite Hw3, Hw2, Hw1.
  - exists top0. split; [done|right]. by exists t.
Qed.

(** Recalling only marks.  A recall never fails, whatever the embedding function
    does, asks it for at most one embedding, and returns at most [limit] records, all
    of the session and of the type asked for and all objects of the store; what it
    changes is when the returned records were last accessed and nothing else of them,
    and nothing of the other records.  As recency counts from a record's timestamp, a
    recall never makes a memory more recent. *)
Theorem recall_only_marks query o w :
  gen_ok w.1 ->
  wp (recall query o) w (fun out w' l =>
    gen_ok w'.1 /\ (length l <= 1)%nat /\ (forall e, out <> Throw e) /\
    map unmarked (all_items w'.1) = map unmarked (all_items w.1) /\
    (forall i now d, i ∈ all_items w'.1 -> exists i0, i0 ∈ all_items w.1 /\ i0.1 = i.1 /\
       computeRecency exp pow ln2 i.2 now d = computeRecency exp pow ln2 i0.2 now d) /\
    forall rs, out = Ret rs -> exists items, rs = map snd items /\
      (0 <= default 10 (q_limit o) -> Z.of_nat (length rs) <= default 10 (q_limit o)) /\
      Forall (fun i => i ∈ all_items w'.1 /\ (forall s, q_sessionId o = Some s -> truthy s = true -> sessionId i.2 = s) /\
                       (forall t, q_type o = Some t -> truthy t = true -> rec_type i.2 = t)) items /\
      (forall i, i ∈ all_items w.1 -> i.1 ∉ map fst items -> i ∈ all_items w'.1)).
Proof.
  intros Hok. unfold recall. wp_step. apply recallScored_wp. intros out w' l Hl Hne Hout.
  destruct out as [top|e|]; cbn [wp_cont]; [|by destruct (Hne e)|].
  2: { destruct (marked_effect w.1 w.1 [] Hok (marked_nothing _)) as (H1 & H2 & H3 & _). rewrite Hout. by split_and!. }
  destruct Hout as (now & e & ids & Hids & Hw' & top0 & Htop & Htop0). wp_step. rewrite app_nil_r.
  destruct (marked_effect w.1 w'.1 ids Hok ltac:(by exists now)) as (H1 & H2 & H3 & H4).
  split_and!; [done|done|done|done|done|]. intros rs [= <-]. exists (map scored_record top).
  assert (forall s, s ∈ top0 -> scored_record s ∈ gen_candidates o w.1) as Hin.
  { intros s Hs. destruct Htop0 as [->|(t & ->)]; [by apply elem_of_nil in Hs|]. eapply elem_of_sublist in Hs; [|apply slice_front_sublist].
    by eapply rank_elem. }
  split_and!.
  - by rewrite map_map.
  - intros Hlim. rewrite length_map, Htop, length_map. destruct Htop0 as [->|(t & ->)]; [done|by apply slice_front_length].
  - apply Forall_fmap. apply Forall_forall. intros s. rewrite Htop. intros (s0 & -> & Hs0)%list_elem_of_fmap. simpl.
    destruct (gen_candidates_in o w.1 (scored_record s0) Hok (Hin _ Hs0)) as (Ha & Hs & Ht). split_and!.
    + rewrite Hw', touch_all_items. by apply list_elem_of_fmap_2.
    + intros k Hk Hkt. rewrite <- (Hs k Hk Hkt). unfold touch. by case_match.
    + intros k Hk Hkt. rewrite <- (Ht k Hk Hkt). unfold touch. by case_match.
  - intros i Hi Hni. apply H4; [done|]. rewrite Hids. by rewrite map_map in Hni.
Qed.

(** The store as a store of memory records. *)
Definition store : AgentMemoryStore World := {|
  store_save := fun r w => (save r w).1;
  store_recall := fun q o w => (recall q o w).1;
  store_clear := Some (fun s w => (clear s w).1);
|}.

#[global] Instance generative_scoped : SessionScoped store (fun w => gen_ok w.1).
Proof.
  split.
  - intros r w Hw. pose proof (save_ok r w Hw) as Hs. unfold wp in Hs. simpl. destruct (save r w) as [[o w'] l]. apply Hs.
  - intros q o w Hw. simpl.
    assert (wp (recall q o) w (fun out w' _ => gen_ok w'.1 /\ forall rs, out = Ret rs ->
      forall s, q_sessionId o = Some s -> truthy s = true -> Forall (fun r => sessionId r = s) rs)) as Hr.
    { unfold recall. wp_step. apply recallScored_wp. intros out w' l Hl Hne Hout.
      destruct out as [top|e|]; cbn [wp_cont]; [|by destruct (Hne e)|by rewrite Hout].
      destruct Hout as (now & e & ids & _ & Hw1 & top0 & -> & Htop0). wp_step. split; [rewrite Hw1; by apply touch_ok|].
      intros rs [= <-] s Hs Ht. apply Forall_fmap, Forall_forall. intros s1 (s0 & -> & Hs0)%list_elem_of_fmap. simpl.
      destruct Htop0 as [->|(t & ->)]; [by apply elem_of_nil in Hs0|]. eapply elem_of_sublist in Hs0; [|apply slice_front_sublist].
      apply rank_elem in Hs0 as (Hc & _). destruct (gen_candidates_in o w.1 _ Hw Hc) as (_ & Hsid & _).
      rewrite <- (Hsid s Hs Ht). unfold touch. by case_match. }
    unfold wp in Hr. by destruct (recall q o w) as [[out w'] l].
Qed.
End Generative.

(** ** At work *)

(** A power that halves with every unit, for any rate. *)
Definition demo_pow (rate x : Q) : Q := if Qle_bool 1 rate then 1%Q else Qpower (1 # 2) (Qfloor x).
Definition demo_tick (n : Z) : Z * Z := (n, n + 3600000).
Definition demo_id (n : Z) : string * Z := ("id-" +:+ Z_to_string n, n).

Definition rated (id session text : string) (r : Z) (t : Z) : MemoryRecord := {|
  rec_id := id; sessionId := session; rec_type := EmptyString; rec_content := text; importance := Some (num_of_Z r);
  rec_embedding := None; rec_metadata := None; timestamp := Some t; lastAccessedAt := None |}.

Definition demo_memories : list MemoryRecord :=
  [rated "a" "s" "the deploy failed on friday" 8 0; rated "b" "s" "lunch was late" 2 3600000;
   rated "c" "t" "the deploy failed again" 9 7200000].

Definition demo_scorer : StanfordScorerOptions := {|
  sc_weights := None; sc_decayOptions := None; sc_now := None; sc_minScoreCutoff := Some (1 # 10)%Q;
  sc_queryEmbedding := None; sc_importanceExtractor := None; sc_normalizePool := None |}.

Notation demo_rank := (rankCandidates (fun q => q) demo_pow (fun q => q) (7 # 10) (fun r : MemoryRecord => r)).

Lemma ranking_in_unit_witness :
  let ranking := demo_rank demo_memories "deploy" 7200000 demo_scorer in
  Forall (fun s => unit_ratio (score s)) ranking /\ map (fun s => rec_id (scored_record s)) ranking = ["c"; "a"; "b"].
Proof.
  assert (nonneg_weights demo_scorer) as Hw by (repeat split; by vm_compute).
  pose proof (ranking_in_unit (fun q => q) demo_pow (fun q => q) (7 # 10) (fun r : MemoryRecord => r)
    demo_memories "deploy" 7200000 demo_scorer Hw) as [Hr _].
  split; [|by vm_compute]. revert Hr. generalize (demo_rank demo_memories "deploy" 7200000 demo_scorer). intros l Hl.
  eapply Forall_impl; [exact Hl|]. by intros s (_ & Hs & _).
Defined.

Definition plain_options : @GenerativeMemoryOptions Z := {|
  defaultWeights := None; defaultDecayOptions := None; importanceExtractor := None; embedFn := None |}.

(** The store after two saves. *)
Definition demo_store : Generative * Z :=
  let run r w := (save demo_id demo_tick plain_options r w).1.2 in
  run (rated "b" "s" "lunch was late" 2 5) (run (rated "a" "s" "the deploy failed" 8 0) (empty_store, 10)).

Lemma demo_store_ok : gen_ok demo_store.1.
Proof.
  assert (gen_ok empty_store) as H0.
  { split; [apply unique_keys_nil|done|by split; constructor|constructor]. }
  assert (forall r w, gen_ok w.1 -> gen_ok (save demo_id demo_tick plain_options r w).1.2.1) as Hsave.
  { intros r w Hw. pose proof (save_ok demo_id demo_tick plain_options r w Hw) as H. unfold wp in H.
    destruct (save _ _ _ r w) as [[o w'] l]. apply H. }
  unfold demo_store. cbv zeta. by apply Hsave, Hsave.
Qed.

Lemma recall_only_marks_witness :
  wp (recall (fun q => q) demo_pow (fun q => q) (7 # 10) demo_tick plain_options "deploy" (in_session "s")) demo_store
    (fun out w' l => map unmarked (all_items w'.1) = map unmarked (all_items demo_store.1)) /\
  (recall (fun q => q) demo_pow (fun q => q) (7 # 10) demo_tick plain_options "deploy" (in_session "s") demo_store).1.1 =
    Ret (map (fun i => accessed_at 10800010 i.2) (all_items demo_store.1)).
Proof.
  split; [|by vm_compute].
  eapply wp_mono; [apply (recall_only_marks (fun q => q) demo_pow (fun q => q) (7 # 10) demo_tick plain_options "deploy"
    (in_session "s") demo_store demo_store_ok)|]. by intros out w' l (_ & _ & _ & H & _).
Defined.

(** On a scale of ten, a memory rated one counts as much as one rated ten, and more
    than one rated nine. *)
Example one_of_ten_is_the_most :
  let at_rating n := computeImportance (rated "a" "s" "x" n 0) None in
  (at_rating 1, at_rating 9, at_rating 10) = (num_of_Z 1, NDec 9 (-1), num_of_Z 1).
Proof. reflexivity. Qed.

End MemoryScoring.
