(* ===== verification/Procedural.v ===== *)
(** * Procedural memory (packages/memory/src/stores/procedural.memory.ts)

    Playbooks: stored by id, matched against a task by triggers, name and description,
    and formatted as instructions. *)

From Stdlib Require Import Qround.
From S2P Require Export MemoryScoring.

#[local] Open Scope string_scope.
#[local] Open Scope list_scope.
#[local] Open Scope Z_scope.

Module Procedural.
Import Consensus Retrieval Memory.

(** ** Data (interfaces/procedural.interface.ts) *)

Record ProceduralStep : Type := {
  stepNumber : Z;
  title : string;
  step_description : string;
  toolName : option string;
  argsTemplate : option obj;
  validationCondition : option string;
  onFailure : option string;
  timeoutMs : option num;
}.

Record ProceduralPlaybook : Type := {
  pb_id : string;
  pb_name : string;
  pb_description : string;
  triggers : list string;
  prerequisites : option (list string);
  steps : list ProceduralStep;
  pb_metadata : option obj;
  version : option string;
  createdAt : option Z;
  updatedAt : option Z;
}.

Record ScoredPlaybook : Type := { playbook : ProceduralPlaybook; matchScore : Q; matchedTriggers : list string }.

Record PlaybookMatchOptions : Type := {
  m_limit : option Z;
  minMatchScore : option Q;
  availablePrerequisites : option (list string);
  prerequisitesFilter : option (list string);
}.

(** A playbook as a JavaScript object, as it stands in the metadata of a record. *)
Definition opt_field {A} (k : string) (f : A -> value) (o : option A) : obj :=
  match o with Some a => [(k, f a)] | None => [] end.

Definition step_value (s : ProceduralStep) : value :=
  VObj ([("stepNumber", VNum (num_of_Z (stepNumber s))); ("title", VStr (title s));
         ("description", VStr (step_description s))] ++
        opt_field "toolName" VStr (toolName s) ++ opt_field "argsTemplate" VObj (argsTemplate s) ++
        opt_field "validationCondition" VStr (validationCondition s) ++ opt_field "onFailure" VStr (onFailure s) ++
        opt_field "timeoutMs" VNum (timeoutMs s)).

Definition playbook_value (p : ProceduralPlaybook) : value :=
  VObj ([("id", VStr (pb_id p)); ("name", VStr (pb_name p)); ("description", VStr (pb_description p));
         ("triggers", VArr (map VStr (triggers p)))] ++
        opt_field "prerequisites" (fun l => VArr (map VStr l)) (prerequisites p) ++
        [("steps", VArr (map step_value (steps p)))] ++
        opt_field "metadata" VObj (pb_metadata p) ++ opt_field "version" VStr (version p) ++
        opt_field "createdAt" (fun t => VDate (Some t)) (createdAt p) ++
        opt_field "updatedAt" (fun t => VDate (Some t)) (updatedAt p)).

(** Reading it back: the casts of the code, on objects of the declared types. *)
Definition get_str (o : obj) (k : string) : option string := match obj_get o k with Some (VStr s) => Some s | _ => None end.
Definition get_num (o : obj) (k : string) : option num := match obj_get o k with Some (VNum n) => Some n | _ => None end.
Definition get_obj (o : obj) (k : string) : option obj := match obj_get o k with Some (VObj x) => Some x | _ => None end.
Definition get_date (o : obj) (k : string) : option Z := match obj_get o k with Some (VDate t) => t | _ => None end.
Definition str_items (vs : list value) : list string := Js.filter_map (fun v => match v with VStr s => Some s | _ => None end) vs.
Definition get_strs (o : obj) (k : string) : option (list string) :=
  match obj_get o k with Some (VArr vs) => Some (str_items vs) | _ => None end.

Definition step_of (v : value) : option ProceduralStep :=
  match v with
  | VObj o => Some {|
      stepNumber := match get_num o "stepNumber" with Some n => default 0 (num_to_Z n) | None => 0 end; title := default EmptyString (get_str o "title");
      step_description := default EmptyString (get_str o "description"); toolName := get_str o "toolName";
      argsTemplate := get_obj o "argsTemplate"; validationCondition := get_str o "validationCondition";
      onFailure := get_str o "onFailure"; timeoutMs := get_num o "timeoutMs" |}
  | _ => None
  end.

Definition playbook_of (v : value) : option ProceduralPlaybook :=
  match v with
  | VObj o => Some {|
      pb_id := default EmptyString (get_str o "id"); pb_name := default EmptyString (get_str o "name");
      pb_description := default EmptyString (get_str o "description"); triggers := default [] (get_strs o "triggers");
      prerequisites := get_strs o "prerequisites";
      steps := match obj_get o "steps" with Some (VArr vs) => Js.filter_map step_of vs | _ => [] end;
      pb_metadata := get_obj o "metadata"; version := get_str o "version"; createdAt := get_date o "createdAt";
      updatedAt := get_date o "updatedAt" |}
  | _ => None
  end.

Lemma filter_map_all {A B} (f : A -> option B) (g : B -> A) l : (forall b, f (g b) = Some b) -> Js.filter_map f (map g l) = l.
Proof. intros H. induction l as [|b l IH]; simpl; [done|]. by rewrite H, IH. Qed.

Lemma obj_get_app o1 o2 k : obj_get (o1 ++ o2) k = match obj_get o1 k with Some v => Some v | None => obj_get o2 k end.
Proof. induction o1 as [|[k' v] o1 IH]; simpl; [done|]. by destruct (bool_decide _). Qed.

Lemma obj_get_opt {A} k (f : A -> value) o k' : obj_get (opt_field k f o) k' = if bool_decide (k = k') then f <$> o else None.
Proof. destruct o; simpl; by destruct (bool_decide _). Qed.

(** Reading the fields of an object whose keys are literals. *)
Ltac read_fields :=
  rewrite ?obj_get_app, ?obj_get_opt; cbn [obj_get];
  repeat match goal with
  | |- context [bool_decide (?a = ?b)] =>
      let r := eval vm_compute in (bool_decide (a = b)) in change (bool_decide (a = b)) with r; cbv beta iota
  end.

Lemma step_round_trip s : step_of (step_value s) = Some s.
Proof.
  destruct s as [n t d tn a v f ms]. unfold step_value, step_of, get_str, get_num, get_obj. read_fields.
  assert (num_to_Z (num_of_Z n) = Some n) as Hn by (unfold num_to_Z, num_of_Z; simpl; f_equal; lia).
  cbn [stepNumber toolName argsTemplate validationCondition onFailure timeoutMs]. rewrite Hn. by destruct tn, a, v, f, ms.
Qed.

Lemma playbook_round_trip p : playbook_of (playbook_value p) = Some p.
Proof.
  destruct p as [i n d t pr st m v c u]. unfold playbook_value, playbook_of, get_str, get_obj, get_date, get_strs. read_fields.
  cbn [triggers steps prerequisites pb_metadata version createdAt updatedAt]. unfold str_items.
  rewrite !filter_map_all by (first [done | apply step_round_trip]).
  destruct pr; cbn [fmap option_fmap option_map]; rewrite ?filter_map_all by done; by destruct m, v, c, u.
Qed.

(** ** The store *)

Definition Playbooks : Type := list (string * ProceduralPlaybook).

Definition mk_store (initialPlaybooks : option (list ProceduralPlaybook)) : Playbooks :=
  fold_left (fun m pb => js_set m (pb_id pb) pb) (default [] initialPlaybooks) [].

Definition stored (uuid : string) (created updated : Z) (p : ProceduralPlaybook) : ProceduralPlaybook := {|
  pb_id := if truthy (pb_id p) then pb_id p else uuid; pb_name := pb_name p; pb_description := pb_description p;
  triggers := triggers p; prerequisites := prerequisites p; steps := steps p; pb_metadata := pb_metadata p;
  version := version p; createdAt := Some (default created (createdAt p)); updatedAt := Some updated |}.

(** [updatedAt] is read before [createdAt]. *)
Definition savePlaybook (uuid : string) (updated created : Z) (p : ProceduralPlaybook) (m : Playbooks) : Playbooks :=
  let item := stored uuid created updated p in js_set m (pb_id item) item.

Definition getPlaybook (id : string) (m : Playbooks) : option ProceduralPlaybook := js_get m id.
Definition deletePlaybook (id : string) (m : Playbooks) : bool * Playbooks := (js_has m id, js_delete m id).
Definition listPlaybooks (m : Playbooks) : list ProceduralPlaybook := js_values m.

(** *** Matching *)

(** The scores and the triggers of one trigger, one query. *)
Definition match_trigger (q : string) (acc : Q * list string) (trigger : string) : Q * list string :=
  if bool_decide (trigger = q) then (Q_max acc.1 1, acc.2 ++ [trigger])
  else if includes q trigger || includes trigger q then (Q_max acc.1 (85 # 100), acc.2 ++ [trigger])
  else acc.

Definition match_query (p : ProceduralPlaybook) (acc : Q * list string) (q : string) : Q * list string :=
  let acc1 := fold_left (match_trigger q) (map to_lower (triggers p)) acc in
  let s2 := if includes q (to_lower (pb_name p)) then Q_max acc1.1 (75 # 100) else acc1.1 in
  let s3 := if includes q (to_lower (pb_description p)) then Q_max s2 (50 # 100) else s2 in
  (s3, acc1.2).

Definition callerPrereqs (o : PlaybookMatchOptions) : option (list string) :=
  match availablePrerequisites o with Some l => Some l | None => prerequisitesFilter o end.

Definition isSatisfied (o : PlaybookMatchOptions) (p : ProceduralPlaybook) : bool :=
  match callerPrereqs o, prerequisites p with
  | Some have, Some needed => forallb (fun r => bool_decide (r ∈ have)) needed
  | _, _ => true
  end.

Definition queryList (query : list string) : list string := List.filter truthy (map (fun q => trim (to_lower q)) query).

Definition match_playbook (queries : list string) (minScore : Q) (o : PlaybookMatchOptions) (p : ProceduralPlaybook)
    : option ScoredPlaybook :=
  if isSatisfied o p then
    let '(maxScore, found) := fold_left (match_query p) queries (0%Q, []) in
    if Qle_bool minScore maxScore then
      Some {| playbook := p; matchScore := MemoryScoring.round_Q 100 maxScore; matchedTriggers := set_of found |}
    else None
  else None.

(** Descending by score. *)
Definition by_match (a b : ScoredPlaybook) : bool := Qle_bool (matchScore b) (matchScore a).

Definition matchPlaybooks (query : list string) (o : PlaybookMatchOptions) (m : Playbooks) : list ScoredPlaybook :=
  match queryList query with
  | [] => []
  | queries =>
      let scoredList := Js.filter_map (match_playbook queries (default (1 # 10)%Q (minMatchScore o)) o) (js_values m) in
      slice_front (stable_sort by_match scoredList) (default 5 (m_limit o))
  end.

(** *** Instructions *)

Definition by_number (a b : ProceduralStep) : bool := stepNumber a <=? stepNumber b.

(** A backquote. *)
Definition bq : string := "`".

Definition step_lines (s : ProceduralStep) : list string :=
  let toolPart := if truthy_opt (toolName s) then " [Tool: " +:+ bq +:+ default EmptyString (toolName s) +:+ bq +:+ "]" else EmptyString in
  [Z_to_string (stepNumber s) +:+ ". **" +:+ title s +:+ "**" +:+ toolPart; "   - " +:+ step_description s] ++
  (if truthy_opt (validationCondition s)
   then ["   - *Validation Criteria:* " +:+ default EmptyString (validationCondition s)] else []) ++
  (if truthy_opt (onFailure s) then ["   - *On Failure:* " +:+ bq +:+ default EmptyString (onFailure s) +:+ bq] else []).

Definition header_lines (p : ProceduralPlaybook) : list string :=
  ["### Standard Operating Procedure: " +:+ pb_name p +:+
     (if truthy_opt (version p) then " (v" +:+ default EmptyString (version p) +:+ ")" else EmptyString);
   "**Goal:** " +:+ pb_description p] ++
  match prerequisites p with
  | Some (r :: rs) => ["**Prerequisites:** " +:+ Js.join ", " (r :: rs)]
  | _ => []
  end ++
  [nl +:+ "**Execution Steps:**"].

Definition formatPlaybookInstructions (p : ProceduralPlaybook) : string :=
  Js.join nl (header_lines p ++ concat (map step_lines (stable_sort by_number (steps p)))).

(** *** As a store of memory records *)

Definition record_triggers (r : MemoryRecord) : list string :=
  default [rec_content r] (get_strs (default [] (rec_metadata r)) "triggers").

(** A flat record as a procedure of one step. *)
Definition flat_playbook (r : MemoryRecord) : ProceduralPlaybook := {|
  pb_id := rec_id r;
  pb_name := default ("Procedure " +:+ rec_id r) (get_str (default [] (rec_metadata r)) "name");
  pb_description := rec_content r; triggers := record_triggers r; prerequisites := None;
  steps := [{| stepNumber := 1; title := "Execute Action"; step_description := rec_content r; toolName := None;
               argsTemplate := None; validationCondition := None; onFailure := None; timeoutMs := None |}];
  pb_metadata := None; version := None; createdAt := timestamp r; updatedAt := None |}.

Definition record_playbook (r : MemoryRecord) : ProceduralPlaybook :=
  default (flat_playbook r) (obj_get (default [] (rec_metadata r)) "playbook" ≫= playbook_of).

Definition save (uuid : string) (now : Z) (record : MemoryRecord) (m : Playbooks) : Playbooks :=
  savePlaybook uuid now now (record_playbook record) m.

Definition recalled_record (o : MemoryQueryOptions) (s : ScoredPlaybook) : MemoryRecord := {|
  rec_id := pb_id (playbook s); sessionId := default "global_procedural" (q_sessionId o); rec_type := "procedural";
  rec_content := formatPlaybookInstructions (playbook s); importance := None; rec_embedding := None;
  rec_metadata := Some [("playbook", playbook_value (playbook s));
                        ("matchScore", VNum (mk_num (Qfloor (matchScore s * 100)) (-2)));
                        ("matchedTriggers", VArr (map VStr (matchedTriggers s)))];
  timestamp := match updatedAt (playbook s) with Some t => Some t | None => createdAt (playbook s) end;
  lastAccessedAt := None |}.

Definition recall (query : string) (o : MemoryQueryOptions) (m : Playbooks) : list MemoryRecord :=
  map (recalled_record o) (matchPlaybooks [query] {|
    m_limit := q_limit o; minMatchScore := minScoreCutoff o; availablePrerequisites := None; prerequisitesFilter := None |} m).

(** The session is not looked at. *)
Definition clear (s : option string) (m : Playbooks) : Playbooks := [].

Definition store {H} (host : H -> string * Z * H) : AgentMemoryStore (Playbooks * H) := in_process host save recall (Some clear).

(** ** What a match promises *)

(** The scores there are. *)
Definition grade (q : Q) : Prop := q = 0%Q \/ q = 1%Q \/ q = (85 # 100)%Q \/ q = (75 # 100)%Q \/ q = (50 # 100)%Q.

Lemma grade_max a b : grade a -> grade b -> grade (Q_max a b).
Proof. unfold Q_max. by case_match. Qed.

Lemma grade_rounds q : grade q -> (MemoryScoring.round_Q 100 q == q)%Q /\ (0 <= q <= 1)%Q.
Proof. intros [->|[->|[->|[->| ->]]]]; by vm_compute. Qed.

(** A trigger that matched: one of the playbook's, which holds or is held by a query. *)
Definition triggered (p : ProceduralPlaybook) (queries : list string) (t : string) : Prop :=
  t ∈ map to_lower (triggers p) /\ exists q, q ∈ queries /\ (t = q \/ includes q t || includes t q = true).

Lemma Q_max_ge a b : (a <= Q_max a b)%Q /\ (b <= Q_max a b)%Q.
Proof.
  unfold Q_max. destruct (Qle_bool a b) eqn:H; [apply Qle_bool_iff in H; lra|]. apply MemoryScoring.Qle_bool_false in H. lra.
Qed.

Record match_ok (p : ProceduralPlaybook) (queries : list string) (acc : Q * list string) : Prop := {
  match_grade : grade acc.1;
  match_found : Forall (triggered p queries) acc.2;
}.

Lemma match_triggers_ok p queries q ts acc :
  q ∈ queries -> (forall t, t ∈ ts -> t ∈ map to_lower (triggers p)) -> match_ok p queries acc ->
  let acc' := fold_left (match_trigger q) ts acc in
  match_ok p queries acc' /\ (acc.1 <= acc'.1)%Q /\ (q ∈ ts -> (1 <= acc'.1)%Q).
Proof.
  intros Hq. revert acc. induction ts as [|t ts IH]; intros acc Hts Hacc; cbn [fold_left].
  { split_and!; [done|lra|by intros ?%elem_of_nil]. }
  assert (match_ok p queries (match_trigger q acc t) /\ (acc.1 <= (match_trigger q acc t).1)%Q /\
          (t = q -> (1 <= (match_trigger q acc t).1)%Q)) as (Hok & Hle & Heq).
  { destruct Hacc as [Hg Hf]. unfold match_trigger. case_bool_decide as Htq; [|destruct (_ || _) eqn:Hi].
    - split_and!; [split; simpl|apply Q_max_ge|intros _; apply Q_max_ge].
      + apply grade_max; [done|by right; left].
      + apply Forall_app. split; [done|]. constructor; [|done]. split; [by apply Hts; left|]. exists q. split; [done|by left].
    - split_and!; [split; simpl|apply Q_max_ge|done].
      + apply grade_max; [done|by right; right; left].
      + apply Forall_app. split; [done|]. constructor; [|done]. split; [by apply Hts; left|]. exists q. split; [done|by right].
    - split_and!; [by split|lra|done]. }
  destruct (IH (match_trigger q acc t) ltac:(intros; apply Hts; by right) Hok) as (H1 & H2 & H3).
  split_and!; [done|lra|]. intros [->|Hin]%elem_of_cons; [specialize (Heq eq_refl); lra|by apply H3].
Qed.

Lemma match_query_ok p queries q acc :
  q ∈ queries -> match_ok p queries acc ->
  match_ok p queries (match_query p acc q) /\ (acc.1 <= (match_query p acc q).1)%Q /\
  (q ∈ map to_lower (triggers p) -> (1 <= (match_query p acc q).1)%Q).
Proof.
  intros Hq Hacc. destruct (match_triggers_ok p queries q _ acc Hq (fun t H => H) Hacc) as ([Hg Hf] & Hle & H1).
  unfold match_query. set (acc1 := fold_left _ _ _) in *. cbv zeta.
  assert (forall s : Q, grade s -> forall b g, grade g -> let s' := if b : bool then Q_max s g else s in grade s' /\ (s <= s')%Q) as Hstep.
  { intros s Hs [] g Hgg; split; [by apply grade_max|apply Q_max_ge|done|lra]. }
  destruct (Hstep acc1.1 Hg (includes q (to_lower (pb_name p))) (75 # 100)%Q ltac:(by do 3 right; left)) as [Hg2 Hl2].
  destruct (Hstep _ Hg2 (includes q (to_lower (pb_description p))) (50 # 100)%Q ltac:(by do 4 right)) as [Hg3 Hl3].
  split_and!; [by split|simpl in *; lra|]. intros Hin. specialize (H1 Hin). simpl in *. lra.
Qed.

Lemma match_queries_ok p queries qs acc :
  (forall q, q ∈ qs -> q ∈ queries) -> match_ok p queries acc ->
  let acc' := fold_left (match_query p) qs acc in
  match_ok p queries acc' /\ (acc.1 <= acc'.1)%Q /\
  ((exists q, q ∈ qs /\ q ∈ map to_lower (triggers p)) -> (1 <= acc'.1)%Q).
Proof.
  revert acc. induction qs as [|q qs IH]; intros acc Hqs Hacc; cbn [fold_left].
  { split_and!; [done|lra|by intros (q & ?%elem_of_nil & _)]. }
  destruct (match_query_ok p queries q acc (Hqs q ltac:(by left)) Hacc) as (H1 & H2 & H3).
  destruct (IH _ ltac:(intros; apply Hqs; by right) H1) as (H4 & H5 & H6). split_and!; [done|lra|].
  intros (q' & [->|Hin]%elem_of_cons & Ht); [specialize (H3 Ht); lra|apply H6; eauto].
Qed.

Lemma match_playbook_spec queries minScore o p s :
  match_playbook queries minScore o p = Some s ->
  playbook s = p /\ isSatisfied o p = true /\ (0 <= matchScore s <= 1)%Q /\ (minScore <= matchScore s)%Q /\
  NoDup (matchedTriggers s) /\ Forall (triggered p queries) (matchedTriggers s) /\
  ((exists q, q ∈ queries /\ q ∈ map to_lower (triggers p)) -> (matchScore s == 1)%Q).
Proof.
  unfold match_playbook. destruct (isSatisfied o p); [|done].
  destruct (match_queries_ok p queries queries (0%Q, []) (fun q H => H)) as ([Hg Hf] & _ & H1); [by split; [left|constructor]|].
  destruct (fold_left _ _ _) as [maxScore found]. cbn [fst snd] in *. destruct (Qle_bool minScore maxScore) eqn:Hmin; [|done].
  intros [= <-]. cbn [playbook matchScore matchedTriggers]. destruct (grade_rounds _ Hg) as [Hr Hu]. apply Qle_bool_iff in Hmin.
  split_and!; try done; try (rewrite Hr; lra); [apply set_of_NoDup|..].
  - apply Forall_forall. intros x Hx. apply (proj1 (elem_of_set_of _ _)) in Hx. rewrite Forall_forall in Hf. by apply Hf.
  - intros He. specialize (H1 He). rewrite Hr. lra.
Qed.

Lemma by_match_total x y : by_match x y = true \/ by_match y x = true.
Proof.
  unfold by_match. destruct (Qle_bool (matchScore y) (matchScore x)) eqn:H; [by left|right].
  apply MemoryScoring.Qle_bool_false in H. apply Qle_bool_iff. lra.
Qed.

(** A playbook is offered only to callers that may run it.  Whatever is asked,
    every playbook that is matched is a stored one; when the caller names the
    prerequisites it has, they include all of the playbook's; its score is within
    [0, 1] and reaches the minimum; its triggers are distinct, and each of them holds
    or is held by a word asked for.  The best come first, no more than the limit, and
    when a permitted playbook has a trigger that is asked for exactly, the first one
    offered has the full score. *)
Theorem matches_are_permitted query o m :
  let found := matchPlaybooks query o m in
  Forall (fun s => playbook s ∈ js_values m /\
    (forall have needed, callerPrereqs o = Some have -> prerequisites (playbook s) = Some needed -> forall r, r ∈ needed -> r ∈ have) /\
    (0 <= matchScore s <= 1)%Q /\ (default (1 # 10) (minMatchScore o) <= matchScore s)%Q /\
    NoDup (matchedTriggers s) /\ Forall (triggered (playbook s) (queryList query)) (matchedTriggers s)) found /\
  ordered by_match found /\
  (0 <= default 5 (m_limit o) -> Z.of_nat (length found) <= default 5 (m_limit o)) /\
  (forall p q, p ∈ js_values m -> isSatisfied o p = true -> q ∈ queryList query -> q ∈ map to_lower (triggers p) ->
     (default (1 # 10) (minMatchScore o) <= 1)%Q -> 1 <= default 5 (m_limit o) ->
     exists s, hd_error found = Some s /\ (matchScore s == 1)%Q).
Proof.
  intros found. unfold found, matchPlaybooks. destruct (queryList query) as [|q0 qs] eqn:Hq.
  { split_and!; [done|done|simpl; lia|]. by intros p q _ _ ?%elem_of_nil. }
  rewrite <- Hq. clear q0 qs Hq. set (scored := Js.filter_map _ _). set (sorted := stable_sort by_match scored).
  assert (forall s, s ∈ sorted <-> exists p, p ∈ js_values m /\
    match_playbook (queryList query) (default (1 # 10)%Q (minMatchScore o)) o p = Some s) as Hin.
  { intros s. unfold sorted. rewrite stable_sort_permutation. apply elem_of_filter_map. }
  assert (ordered by_match sorted) as Hord.
  { apply (stable_sort_ordered by_match (fun _ => True)); [intros; apply by_match_total| |by apply Forall_forall].
    intros x y z _ _ _. unfold by_match. rewrite !Qle_bool_iff. lra. }
  split_and!.
  - apply Forall_forall. intros s Hs. eapply elem_of_sublist in Hs; [|apply slice_front_sublist].
    apply Hin in Hs as (p & Hp & Hm). destruct (match_playbook_spec _ _ _ _ _ Hm) as (-> & Hsat & Hu & Hmin & Hnd & Ht & _).
    split_and!; try done; try apply Hu. intros have needed Hh Hn r Hr. unfold isSatisfied in Hsat. rewrite Hh, Hn in Hsat.
    rewrite forallb_forall in Hsat. apply list_elem_of_In, Hsat in Hr. by apply bool_decide_eq_true in Hr.
  - eapply ordered_sublist; [apply slice_front_sublist|done].
  - apply slice_front_length.
  - intros p q Hp Hsat Hq Ht Hmin Hlim.
    assert (exists s, match_playbook (queryList query) (default (1 # 10)%Q (minMatchScore o)) o p = Some s) as [s Hs].
    { unfold match_playbook. rewrite Hsat.
      destruct (match_queries_ok p (queryList query) (queryList query) (0%Q, []) (fun q H => H)) as (_ & _ & H1);
        [by split; [left|constructor]|]. destruct (fold_left _ _ _) as [maxScore l]. specialize (H1 ltac:(by exists q)). cbn [fst] in H1.
      rewrite (proj2 (Qle_bool_iff _ _)) by lra. by eexists. }
    destruct (match_playbook_spec _ _ _ _ _ Hs) as (_ & _ & _ & _ & _ & _ & Hone). specialize (Hone ltac:(by exists q)).
    assert (s ∈ sorted) as Hsin by (apply Hin; by exists p).
    destruct sorted as [|s0 rest] eqn:Esort; [by apply elem_of_nil in Hsin|]. exists s0. split.
    + unfold slice_front. rewrite (proj2 (Z.leb_le _ _)) by lia. by destruct (Z.to_nat (default 5 (m_limit o))) eqn:E; [lia|].
    + destruct (proj1 (Hin s0) ltac:(by left)) as (p0 & _ & Hm0). destruct (match_playbook_spec _ _ _ _ _ Hm0) as (_ & _ & Hu0 & _).
      apply elem_of_cons in Hsin as [->|Hsin]; [done|]. destruct Hord as [Hfirst _]. rewrite Forall_forall in Hfirst.
      specialize (Hfirst s Hsin). unfold by_match in Hfirst. apply Qle_bool_iff in Hfirst. lra.
Qed.

(** Saving a record that was recalled stores the playbook it came from. *)
Lemma recalled_record_restores o s uuid now m :
  pb_id (playbook s) <> EmptyString ->
  js_get (save uuid now (recalled_record o s) m) (pb_id (playbook s)) = Some (stored uuid now now (playbook s)).
Proof.
  intros Hid. unfold save, savePlaybook. assert (record_playbook (recalled_record o s) = playbook s) as ->.
  { change (default (flat_playbook (recalled_record o s)) (playbook_of (playbook_value (playbook s))) = playbook s).
    by rewrite playbook_round_trip. }
  rewrite js_get_set. assert (pb_id (stored uuid now now (playbook s)) = pb_id (playbook s)) as E.
  { unfold stored. simpl. by destruct (pb_id (playbook s)). }
  by rewrite E, bool_decide_true.
Qed.

(** The steps of the instructions are the playbook's, in the order of their numbers. *)
Lemma instructions_in_order p :
  exists sorted, sorted ≡ₚ steps p /\ ordered by_number sorted /\
    formatPlaybookInstructions p = Js.join nl (header_lines p ++ concat (map step_lines sorted)).
Proof.
  exists (stable_sort by_number (steps p)). split_and!; [apply stable_sort_permutation| |done].
  apply (stable_sort_ordered by_number (fun _ => True)); [| |by apply Forall_forall]; unfold by_number; intros; lia.
Qed.

(** ** At work *)

Definition playbook_named (id trigger : string) (needs : option (list string)) : ProceduralPlaybook := {|
  pb_id := id; pb_name := "Procedure"; pb_description := "What to do"; triggers := [trigger]; prerequisites := needs;
  steps := []; pb_metadata := None; version := None; createdAt := None; updatedAt := None |}.

Definition demo_playbooks : Playbooks :=
  mk_store (Some [playbook_named "p1" "Refund a customer" (Some ["finance"]); playbook_named "p2" "refund" None;
                  playbook_named "p3" EmptyString None]).

Definition asks (have : option (list string)) : PlaybookMatchOptions :=
  {| m_limit := None; minMatchScore := None; availablePrerequisites := have; prerequisitesFilter := None |}.

(** Without the prerequisite the first playbook is left out; one with an empty trigger
    matches everything. *)
Example matches_at_work :
  map (fun s => (pb_id (playbook s), matchScore s)) (matchPlaybooks ["Refund"] (asks (Some ["support"])) demo_playbooks) =
    [("p2", (100 # 100)%Q); ("p3", (85 # 100)%Q)].
Proof. reflexivity. Qed.

(** As a memory store it asks for no prerequisites, and clears every session at once. *)
Example recall_asks_no_prerequisites :
  map rec_id (recall "refund" (in_session "s") demo_playbooks) = ["p2"; "p1"; "p3"] /\ clear (Some "s") demo_playbooks = [].
Proof. split; reflexivity. Qed.

End Procedural.
