(* ===== verification/Experience.v ===== *)
(** * Learning from experience (packages/memory/src/experience)

    What a failed trajectory teaches (the section Reflection) and how lessons are
    stored per tenant, in a memory store (any that keeps the law [SessionScoped]) and
    in a bounded cache, and how they come back as guidance. *)

From Stdlib Require Import Ascii.
From S2P Require Export MemoryScoring.

#[local] Open Scope string_scope.
#[local] Open Scope list_scope.
#[local] Open Scope Z_scope.
#[local] Open Scope eff_scope.

Module Experience.
Import Consensus Retrieval Memory MemoryScoring.

(** ** Data (interfaces/experience.interface.ts) *)

Record TrajectoryStep : Type := {
  stepIndex : Z;
  toolName : option string;
  step_args : option obj;
  result : value;
  step_error : option string;
  step_timestamp : option Z;
}.

Record AgentTrajectory : Type := {
  tr_sessionId : string;
  tr_tenantId : option string;
  tr_agentName : string;
  goal : string;
  tr_steps : list TrajectoryStep;
  tr_success : bool;
}.

Record ReflectionResult : Type := {
  success : bool;
  critique : option string;
  lessonsLearned : list string;
  suggestedPromptAdjustment : option string;
  rr_importance : option num;
}.

Record ExperienceRecord : Type := {
  er_id : string;
  tenantId : option string;
  agentName : string;
  taskTrigger : string;
  pattern : string;
  lesson : string;
  er_score : option num;
  er_importance : option num;
  er_timestamp : option Z;
}.

(** ** Reflection (reflection.engine.ts) *)

Record ReflectionSeverityWeights : Type := {
  securityAndAuth : num;
  financialAndLedger : num;
  toolingAndEnvironment : num;
  rateLimitsAndTimeouts : num;
  generalFailure : num;
  successTrajectory : num;
}.

(** The weights, each as configured or by default. *)
Definition severity_weights (security financial tooling limits general ok : option num) : ReflectionSeverityWeights := {|
  securityAndAuth := default (NDec 95 (-2)) security; financialAndLedger := default (NDec 9 (-1)) financial;
  toolingAndEnvironment := default (NDec 7 (-1)) tooling; rateLimitsAndTimeouts := default (NDec 6 (-1)) limits;
  generalFailure := default (NDec 5 (-1)) general; successTrajectory := default (NDec 3 (-1)) ok |}.

Record ReflectionEngine : Type := {
  engine_weights : ReflectionSeverityWeights;
  customClassifier : option (TrajectoryStep -> string -> option num);
}.

Definition ellipsis : string := of_chars ["226"; "128"; "166"]%char.

Definition truncate (text : string) (max : nat) : string :=
  if (max <? String.length text)%nat then slice_to text (max - 1) +:+ ellipsis else text.

Definition MAX_ERROR_DETAIL_LENGTH : nat := 500.

Definition failed (s : TrajectoryStep) : bool :=
  truthy_opt (step_error s) ||
  match result s with VObj o => match obj_get o "success" with Some (VBool false) => true | _ => false end | _ => false end.

(** [error ?? reason ?? message ?? JSON.stringify(result)] *)
Definition errDetail (s : TrajectoryStep) : string :=
  let text k := match result s with VObj o => meta_string o k | _ => None end in
  match step_error s with
  | Some e => e
  | None => match text "reason" with
            | Some r => r
            | None => default (json (result s)) (text "message")
            end
  end.

Definition tool_of (s : TrajectoryStep) : string := default "unknown_tool" (toolName s).

Definition critiqueStr (s : TrajectoryStep) : string :=
  "Tool " +:+ in_quotes (tool_of s) +:+ " failed on step " +:+ Z_to_string (stepIndex s) +:+ ": " +:+
  truncate (errDetail s) MAX_ERROR_DETAIL_LENGTH.

(** The failures that are told apart. *)
Inductive category : Type := Tooling | Security | Financial | Limits | General.

Definition mentions (words : list string) (text : string) : bool := existsb (fun w => includes w text) words.

Definition classify (errLower : string) : category :=
  if includes "npm" errLower && includes "pnpm" errLower then Tooling
  else if mentions ["permission"; "role"; "finance_officer"; "unauthorized"; "forbidden"] errLower then Security
  else if mentions ["transfer"; "ledger"; "payment"; "balance"] errLower then Financial
  else if mentions ["rate"; "limit"; "timeout"; "throttle"] errLower then Limits
  else General.

Definition lesson_for (c : category) (toolName : string) : string :=
  match c with
  | Tooling => "Use " +:+ in_quotes "pnpm" +:+ " package manager instead of " +:+ in_quotes "npm" +:+ " for this project."
  | Security => "Verify required authorization role (e.g. finance_officer) before invoking " +:+ in_quotes toolName +:+ "."
  | Financial => "Validate account balance and transaction idempotency before calling " +:+ in_quotes toolName +:+ "."
  | Limits => "Throttle tool calls or wait before retrying " +:+ in_quotes toolName +:+ "."
  | General => "Verify input parameters and precondition checks for tool " +:+ in_quotes toolName +:+ " before retrying."
  end.

Section Reflection.
Context (self : ReflectionEngine).

Definition category_weight (c : category) : option num :=
  match c with
  | Tooling => Some (toolingAndEnvironment (engine_weights self))
  | Security => Some (securityAndAuth (engine_weights self))
  | Financial => Some (financialAndLedger (engine_weights self))
  | Limits => Some (rateLimitsAndTimeouts (engine_weights self))
  | General => None
  end.

(** A classifier's rating counts unless it is NaN. *)
Definition custom_importance (s : TrajectoryStep) (maxImportance : num) : num :=
  match customClassifier self with
  | Some f => match f s (errDetail s) with
              | None | Some NNaN => maxImportance
              | Some customScore => num_max maxImportance (clamp01 customScore)
              end
  | None => maxImportance
  end.

Definition raise_importance (maxImportance : num) (s : TrajectoryStep) : num :=
  let custom := custom_importance s maxImportance in
  match category_weight (classify (to_lower (errDetail s))) with Some w => num_max custom w | None => custom end.

Definition step_lesson (s : TrajectoryStep) : string := lesson_for (classify (to_lower (errDetail s))) (tool_of s).

Definition critiqueTrajectory (t : AgentTrajectory) : ReflectionResult :=
  let failedSteps := List.filter failed (tr_steps t) in
  if (length failedSteps =? 0)%nat && tr_success t then
    {| success := true; critique := Some "Execution completed cleanly without errors."; lessonsLearned := [];
       suggestedPromptAdjustment := None; rr_importance := Some (successTrajectory (engine_weights self)) |}
  else
    let lessons := map step_lesson failedSteps in
    {| success := false; critique := Some (Js.join " | " (map critiqueStr failedSteps)); lessonsLearned := lessons;
       suggestedPromptAdjustment :=
         match lessons with [] => None | _ => Some ("[Experience Guidance]: " +:+ Js.join " " lessons) end;
       rr_importance := Some (fold_left raise_importance failedSteps (generalFailure (engine_weights self))) |}.
End Reflection.

(** ** The learner (experience-learner.ts) *)

Definition GLOBAL_SCOPE : string := "global_experience".
Definition nul : string := String "000"%char EmptyString.

(** The tenant a record is kept for. *)
Definition scope_of (tenant : option string) : string := default GLOBAL_SCOPE tenant.
Definition fallbackKey (tenant : option string) (trigger : string) : string := scope_of tenant +:+ nul +:+ to_lower trigger.

(** The cache: buckets by key, the least recently written first. *)
Record Fallback : Type := { fallbackStore : list (string * list ExperienceRecord); fallbackSize : nat }.
Definition no_lessons : Fallback := {| fallbackStore := []; fallbackSize := O |}.

(** [while (this.fallbackSize > max)]: every round takes one record away. *)
Fixpoint evict (max fuel : nat) (st : Fallback) : Fallback :=
  match fuel with
  | O => st
  | S fuel' =>
      if (max <? fallbackSize st)%nat then
        match fallbackStore st with
        | [] => st
        | (oldestKey, oldest) :: rest =>
            let oldest' := tail oldest in
            evict max fuel' {|
              fallbackStore := match oldest' with [] => js_delete (fallbackStore st) oldestKey | _ => (oldestKey, oldest') :: rest end;
              fallbackSize := fallbackSize st - 1 |}
        end
      else st
  end.

Definition cacheFallback (max : nat) (item : ExperienceRecord) (st : Fallback) : Fallback :=
  if (max =? 0)%nat then st
  else
    let key := fallbackKey (tenantId item) (taskTrigger item) in
    let bucket := default [] (js_get (fallbackStore st) key) ++ [item] in
    evict max (S (fallbackSize st)) {|
      fallbackStore := js_set (js_delete (fallbackStore st) key) key bucket;
      fallbackSize := S (fallbackSize st) |}.

(** *** Guidance *)

Definition MAX_GUIDANCE_LINE_LENGTH : nat := 300.

Definition control (c : ascii) : bool := let n := nat_of_ascii c in ((n <=? 31) || (n =? 127))%nat.

(** Each run of characters of a class as one space. *)
Fixpoint squeeze (p : ascii -> bool) (in_run : bool) (l : list ascii) : list ascii :=
  match l with
  | [] => []
  | c :: l' => if p c then (if in_run then [] else [" "%char]) ++ squeeze p true l' else c :: squeeze p false l'
  end.

Definition toGuidanceLine (lesson : string) : string :=
  let flat := trim (of_chars (squeeze is_space false (squeeze control false (chars lesson)))) in
  truncate flat MAX_GUIDANCE_LINE_LENGTH.

Definition guidance (lessons : list string) : string :=
  match List.filter (fun line => 0 <? str_length line) (map toGuidanceLine lessons) with
  | [] => EmptyString
  | lines => nl +:+ "[Historical Trajectory Guidance & Learned Rules]:" +:+ nl +:+
             Js.join nl (map (fun l => "- " +:+ l) lines) +:+ nl
  end.

Section Learner.
Context {W : Type} (newId : W -> string * W) (clock : W -> Z * W).

Record ExperienceLearner : Type := {
  memoryStore : option (AgentMemoryStore W);
  reflectionEngine : ReflectionEngine;
  maxFallbackRecords : nat;
}.

Definition mk_learner (st : option (AgentMemoryStore W)) (engine : ReflectionEngine) (max : option num) : error + ExperienceLearner :=
  let n := default (num_of_Z 1000) max in
  match num_to_Z n with
  | Some z => if 0 <=? z then inr {| memoryStore := st; reflectionEngine := engine; maxFallbackRecords := Z.to_nat z |}
              else inl (NativeErr "Error" ("maxFallbackRecords must be a non-negative integer, received " +:+ num_to_string n +:+ "."))
  | None => inl (NativeErr "Error" ("maxFallbackRecords must be a non-negative integer, received " +:+ num_to_string n +:+ "."))
  end.

Notation World := (Fallback * W)%type.
Notation M := (M error Empty_set World).
Context (self : ExperienceLearner).

Definition host {A} (f : W -> A * W) : M A := lift (fun w => let '(a, w') := f w.2 in (Ret a, (w.1, w'))).
Definition at_memory {A} (f : W -> outcome error A * W) : M A :=
  lift (fun w => let '(o, w') := f w.2 in (o, (w.1, w'))).

(** The memory a lesson is saved as. *)
Definition lesson_memory (item : ExperienceRecord) : MemoryRecord := {|
  rec_id := er_id item; sessionId := scope_of (tenantId item); rec_type := "episodic";
  rec_content := "[Learned Lesson for " +:+ taskTrigger item +:+ "]: " +:+ lesson item;
  importance := er_importance item; rec_embedding := None;
  rec_metadata := Some [("agentName", VStr (agentName item)); ("taskTrigger", VStr (taskTrigger item));
                        ("pattern", VStr (pattern item)); ("lesson", VStr (lesson item));
                        ("importance", match er_importance item with Some n => VNum n | None => VUndef end)];
  timestamp := None; lastAccessedAt := None |}.

Definition completed (id : string) (t : Z) (r : ExperienceRecord) : ExperienceRecord := {|
  er_id := id; tenantId := tenantId r; agentName := agentName r; taskTrigger := taskTrigger r; pattern := pattern r;
  lesson := lesson r; er_score := er_score r; er_importance := Some (default (NDec 5 (-1)) (er_importance r));
  er_timestamp := Some t |}.

Definition recordLesson (record : ExperienceRecord) : M unit :=
  id <- (if truthy (er_id record) then ret (er_id record) else host newId) ;;
  t <- match er_timestamp record with Some t => ret t | None => host clock end ;;
  let item := completed id t record in
  match memoryStore self with Some st => at_memory (store_save st (lesson_memory item)) | None => ret tt end ;;
  modify (fun w => (cacheFallback (maxFallbackRecords self) item w.1, w.2)).

Definition learned (t : AgentTrajectory) (r : ReflectionResult) (id : string) (time : Z) (l : string) : ExperienceRecord := {|
  er_id := id; tenantId := Some (default (tr_sessionId t) (tr_tenantId t)); agentName := tr_agentName t;
  taskTrigger := goal t; pattern := default "Execution Failure" (critique r); lesson := l; er_score := None;
  er_importance := Some (default (NDec 5 (-1)) (rr_importance r)); er_timestamp := Some time |}.

Fixpoint record_all (t : AgentTrajectory) (r : ReflectionResult) (lessons : list string) : M unit :=
  match lessons with
  | [] => ret tt
  | l :: rest =>
      id <- host newId ;;
      time <- host clock ;;
      recordLesson (learned t r id time l) ;;
      record_all t r rest
  end.

Definition critique_and_record (t : AgentTrajectory) : M ReflectionResult :=
  let reflection := critiqueTrajectory (reflectionEngine self) t in
  when (negb (success reflection)) (record_all t reflection (lessonsLearned reflection)) ;;
  ret reflection.

Definition recordBestPractice (trigger bestPractice : string) (agent tenant : option string) (rating : option num) : M unit :=
  id <- host newId ;;
  time <- host clock ;;
  recordLesson {|
    er_id := id; tenantId := tenant; agentName := default "governed-agent" agent; taskTrigger := trigger;
    pattern := "Successful Execution Pattern"; lesson := bestPractice; er_score := None;
    er_importance := Some (default (NDec 65 (-2)) rating); er_timestamp := Some time |}.

(** A memory as a lesson. *)
Definition memory_lesson (trigger : string) (r : MemoryRecord) : ExperienceRecord :=
  let md := default [] (rec_metadata r) in {|
    er_id := rec_id r; tenantId := Some (sessionId r); agentName := default "unknown" (meta_string md "agentName");
    taskTrigger := default trigger (meta_string md "taskTrigger");
    pattern := default "Historical Pattern" (meta_string md "pattern");
    lesson := default (rec_content r) (meta_string md "lesson"); er_score := None;
    er_importance := Some (match importance r with
                           | Some i => i
                           | None => match obj_get md "importance" with Some (VNum n) => n | _ => NDec 5 (-1) end
                           end);
    er_timestamp := timestamp r |}.

Definition recallLessons (trigger : string) (tenant : option string) : M (list ExperienceRecord) :=
  fallbackRecords <- ask (fun w => default [] (js_get (fallbackStore w.1) (fallbackKey tenant trigger))) ;;
  match memoryStore self with
  | Some st =>
      recalled <- at_memory (store_recall st trigger (in_session (scope_of tenant))) ;;
      ret match map (memory_lesson trigger) recalled with [] => fallbackRecords | memoryRecords => memoryRecords end
  | None => ret fallbackRecords
  end.

Definition buildGuidancePrompt (trigger : string) (tenant : option string) : M string :=
  experiences <- recallLessons trigger tenant ;;
  ret (guidance (map lesson experiences)).
End Learner.

(** ** Reflection teaches nothing the tool said *)

(** A lesson never quotes an error.  A trajectory is a success exactly when no step
    failed and it says so itself, and then teaches nothing; otherwise every lesson is
    one of five sentences that names at most the tool of a failed step, one lesson for
    each failed step in their order: what an error says chooses the sentence and
    nothing else.  The text of an error stays in the critique, in 499 characters and an
    ellipsis at most. *)
Theorem lessons_quote_no_errors self t :
  let r := critiqueTrajectory self t in
  (success r = true <-> tr_success t = true /\ Forall (fun s => failed s = false) (tr_steps t)) /\
  (success r = true -> lessonsLearned r = []) /\
  (success r = false ->
     Forall2 (fun s l => exists c, l = lesson_for c (tool_of s)) (List.filter failed (tr_steps t)) (lessonsLearned r)) /\
  Forall (fun s => str_length (truncate (errDetail s) MAX_ERROR_DETAIL_LENGTH) <= 502) (tr_steps t).
Proof.
  cbv zeta. unfold critiqueTrajectory. assert ((length (List.filter failed (tr_steps t)) =? 0)%nat = true <->
    Forall (fun s => failed s = false) (tr_steps t)) as Hnone.
  { rewrite Nat.eqb_eq. induction (tr_steps t) as [|s l IH]; simpl; [by split|]. rewrite Forall_cons.
    destruct (failed s) eqn:Hs; simpl; [split; [lia|intros [? _]; done]|]. rewrite IH. tauto. }
  assert (Forall (fun s => str_length (truncate (errDetail s) MAX_ERROR_DETAIL_LENGTH) <= 502) (tr_steps t)) as Hlen.
  { apply Forall_forall. intros s _. unfold truncate, MAX_ERROR_DETAIL_LENGTH. destruct (_ <? _)%nat eqn:Hl.
    - rewrite str_length_app. unfold slice_to. rewrite length_of_chars, length_take. change (str_length ellipsis) with 3. lia.
    - apply Nat.ltb_ge in Hl. unfold str_length. lia. }
  destruct ((length _ =? 0)%nat && tr_success t) eqn:Hs; cbn [success lessonsLearned].
  - apply andb_true_iff in Hs as [H1 H2]. split_and!; [|done|done|done]. split; [|done]. intros _. split; [done|by apply Hnone].
  - split_and!; [|done| |done].
    + split; [done|]. intros [Ht Hf]. apply Hnone in Hf. by rewrite Hf, Ht in Hs.
    + intros _. clear. induction (List.filter failed (tr_steps t)) as [|s l IH]; simpl; constructor; [by eexists|done].
Qed.

(** ** The cache *)

Definition total (m : list (string * list ExperienceRecord)) : nat := list_sum (map (fun e => length e.2) m).

(** Buckets are not empty, hold the records of their key, and add up. *)
Record cache_wf (st : Fallback) : Prop := {
  wf_keys : unique_keys (fallbackStore st);
  wf_size : fallbackSize st = total (fallbackStore st);
  wf_buckets : Forall (fun e => e.2 <> [] /\ Forall (fun r => fallbackKey (tenantId r) (taskTrigger r) = e.1) e.2) (fallbackStore st);
}.

Lemma no_lessons_wf : cache_wf no_lessons.
Proof. split; [apply unique_keys_nil|done|constructor]. Qed.

Lemma total_perm m m' : m ≡ₚ m' -> total m = total m'.
Proof. intros H. unfold total. induction H; simpl; lia. Qed.

Definition bucket (st : Fallback) (key : string) : list ExperienceRecord := default [] (js_get (fallbackStore st) key).

Lemma bucket_filed st key : cache_wf st -> Forall (fun r => fallbackKey (tenantId r) (taskTrigger r) = key) (bucket st key).
Proof.
  intros [_ _ Hb]. unfold bucket. destruct (js_get _ _) as [b|] eqn:Hg; [|constructor].
  apply js_get_elem in Hg. rewrite Forall_forall in Hb. apply (Hb _ Hg).
Qed.

(** A record added under its key. *)
Definition pushed (item : ExperienceRecord) (st : Fallback) : Fallback :=
  let key := fallbackKey (tenantId item) (taskTrigger item) in {|
    fallbackStore := js_set (js_delete (fallbackStore st) key) key (bucket st key ++ [item]);
    fallbackSize := S (fallbackSize st) |}.

Lemma pushed_wf item st : cache_wf st -> cache_wf (pushed item st).
Proof.
  intros Hwf. pose proof (bucket_filed st (fallbackKey (tenantId item) (taskTrigger item)) Hwf) as Hold.
  destruct Hwf as [Hu Hs Hb]. unfold pushed. set (key := fallbackKey _ _) in *. split; cbn [fallbackStore fallbackSize].
  - by apply unique_keys_set, unique_keys_delete.
  - rewrite (total_perm _ _ (js_set_perm _ _ _)), Hs. rewrite js_delete_absent.
    2: { rewrite js_get_delete by done. by rewrite bool_decide_true. }
    unfold bucket. destruct (js_get _ key) as [b|] eqn:Hg.
    + rewrite (total_perm _ _ (js_delete_perm _ _ _ Hg)). unfold total. simpl. rewrite length_app. simpl. lia.
    + rewrite js_delete_absent by done. unfold total. simpl. lia.
  - rewrite js_set_perm, js_delete_absent by (rewrite js_get_delete by done; by rewrite bool_decide_true).
    constructor; cbn [fst snd]; [|by eapply Forall_sublist_of; [apply js_delete_sublist|]].
    split; [by destruct (bucket _ _)|]. apply Forall_app. split; [done|by constructor].
Qed.

Lemma pushed_bucket item st k :
  cache_wf st -> bucket (pushed item st) k =
    if bool_decide (fallbackKey (tenantId item) (taskTrigger item) = k) then bucket st k ++ [item] else bucket st k.
Proof.
  intros [Hu _ _]. unfold bucket, pushed. cbn [fallbackStore]. rewrite js_get_set. case_bool_decide as H; [by subst|].
  rewrite js_get_delete by done. by rewrite bool_decide_false.
Qed.

(** One round of eviction takes the oldest record of the first bucket. *)
Definition evict_one (st : Fallback) : Fallback :=
  match fallbackStore st with
  | [] => st
  | (oldestKey, oldest) :: rest => {|
      fallbackStore := match tail oldest with [] => js_delete (fallbackStore st) oldestKey | l => (oldestKey, l) :: rest end;
      fallbackSize := fallbackSize st - 1 |}
  end.

Lemma evict_one_wf st : cache_wf st -> cache_wf (evict_one st) /\ fallbackSize (evict_one st) = (fallbackSize st - 1)%nat /\
  forall k, bucket (evict_one st) k = bucket st k \/ hd_error (js_keys (fallbackStore st)) = Some k /\ bucket (evict_one st) k = tail (bucket st k).
Proof.
  intros [Hu Hs Hb]. unfold evict_one, bucket. destruct st as [m n]. cbn [fallbackStore fallbackSize] in *.
  destruct m as [|[k0 old] rest].
  { split_and!; [by split|cbn in *; lia|by left]. }
  apply Forall_cons in Hb as [[Hne Hold] Hrest]. cbn [fst snd] in *. destruct old as [|r old]; [done|]. cbn [tail].
  pose proof Hu as Hu0. unfold unique_keys in Hu0. cbn in Hu0. apply NoDup_cons in Hu0 as [Hk0 Hur].
  apply Forall_cons in Hold as [_ Hold]. unfold total in Hs. cbn in Hs. split_and!; [split|done|]; cbn [fallbackStore fallbackSize].
  - destruct old; [|done]. cbn. by rewrite bool_decide_true.
  - destruct old; cbn; [rewrite bool_decide_true by done|]; unfold total; cbn in *; lia.
  - destruct old; cbn; [by rewrite bool_decide_true|]. constructor; [|done]. by split.
  - intros k. destruct (decide (k0 = k)) as [<-|Hne'].
    + right. split; [done|]. destruct old; cbn; rewrite !bool_decide_true by done; [|done].
      rewrite (proj2 (js_get_None rest k0)); done.
    + left. destruct old; cbn; [rewrite (bool_decide_true (k0 = k0)) by done|]; by rewrite ?(bool_decide_false (k0 = k)) by done.
Qed.

Lemma evict_stops max fuel st : (fallbackSize st <= max)%nat -> evict max fuel st = st.
Proof. intros H. destruct fuel; [done|]. cbn [evict]. by rewrite (proj2 (Nat.ltb_ge _ _)). Qed.

Lemma evict_step max fuel st : (max < fallbackSize st)%nat -> evict max (S fuel) st =
  match fallbackStore st with [] => st | _ => evict max fuel (evict_one st) end.
Proof.
  intros H. cbn [evict]. rewrite (proj2 (Nat.ltb_lt _ _)) by done. unfold evict_one. destruct (fallbackStore st) as [|[k old] rest] eqn:E; [done|].
  destruct (tail old); done.
Qed.

(** Caching keeps the cache well formed and within its bound; a bucket keeps its latest
    records, and the new one is there. *)
Lemma cacheFallback_wf max item st :
  cache_wf st -> (fallbackSize st <= max)%nat ->
  let st' := cacheFallback max item st in
  cache_wf st' /\ (fallbackSize st' <= max)%nat /\
  (forall k, exists n, bucket st' k =
     drop n (if bool_decide ((0 < max)%nat /\ fallbackKey (tenantId item) (taskTrigger item) = k) then bucket st k ++ [item] else bucket st k)) /\
  ((0 < max)%nat -> item ∈ bucket st' (fallbackKey (tenantId item) (taskTrigger item))).
Proof.
  intros Hwf Hsize. cbv zeta. unfold cacheFallback. destruct (max =? 0)%nat eqn:Hm.
  { apply Nat.eqb_eq in Hm. split_and!; [done|done| |lia]. intros k. exists O. by rewrite bool_decide_false by lia. }
  apply Nat.eqb_neq in Hm. change (Build_Fallback _ _) with (pushed item st). set (key := fallbackKey _ _).
  assert (forall k, bool_decide ((0 < max)%nat /\ key = k) = bool_decide (key = k)) as Hb by (intros k; apply bool_decide_ext; split; [tauto|intros; split; [lia|done]]).
  pose proof (pushed_wf item st Hwf) as Hp. destruct (decide (S (fallbackSize st) <= max)%nat) as [Hfit|Hfull].
  - rewrite evict_stops by done. split_and!; [done|done| |].
    + intros k. exists O. rewrite Hb, pushed_bucket by done. done.
    + intros _. rewrite pushed_bucket, bool_decide_true by done. apply elem_of_app. right. by left.
  - rewrite evict_step by (cbn; lia).
    destruct (evict_one_wf (pushed item st) Hp) as (Hwf1 & Hsize1 & Hbuckets).
    assert (evict max (fallbackSize st) (evict_one (pushed item st)) = evict_one (pushed item st)) as ->.
    { apply evict_stops. rewrite Hsize1. cbn. lia. }
    assert (fallbackStore (pushed item st) <> []) as Hnil.
    { intros E. pose proof (wf_size _ Hp) as Hsz. rewrite E in Hsz. cbn in Hsz. lia. }
    destruct (fallbackStore (pushed item st)) as [|e m] eqn:Em; [done|]. rewrite <- Em in *.
    split_and!; [done|rewrite Hsize1; cbn; lia| |].
    + intros k. rewrite Hb. specialize (Hbuckets k). rewrite pushed_bucket in Hbuckets by done.
      destruct Hbuckets as [->|[_ ->]]; [by exists O|exists 1%nat]. by destruct (if bool_decide _ then _ else _).
    + intros _. specialize (Hbuckets key). rewrite pushed_bucket, bool_decide_true in Hbuckets by done.
      destruct Hbuckets as [->|[Hhd ->]]; [apply elem_of_app; right; by left|].
      destruct (bucket st key) as [|r b] eqn:Eb; [|apply elem_of_app; right; by left]. exfalso.
      assert (js_delete (fallbackStore st) key = []) as Hempty.
      { unfold pushed in Hhd. cbn [fallbackStore] in Hhd. fold key in Hhd. rewrite js_set_keys in Hhd.
        unfold js_has in Hhd. rewrite js_get_delete, bool_decide_true in Hhd by (done || apply Hwf). cbn [is_some] in Hhd.
        destruct (js_delete _ key) as [|[k0 v0] d] eqn:Ed; [done|]. injection Hhd as ->.
        assert (js_get (js_delete (fallbackStore st) key) key = None) as Hn by (rewrite js_get_delete, bool_decide_true by (done || apply Hwf); done).
        rewrite Ed in Hn. cbn in Hn. by rewrite bool_decide_true in Hn. }
      pose proof (wf_size _ Hp) as Hsz. unfold pushed in Hsz. cbn [fallbackStore fallbackSize] in Hsz. fold key in Hsz.
      rewrite Hempty, Eb in Hsz. cbn in Hsz. lia.
Qed.

(** ** Tenants *)

(** No NUL, which separates scope and trigger in a key. *)
Definition clean (s : string) : Prop := "000"%char ∉ chars s.

Lemma split_at_char (c : ascii) l1 r1 l2 r2 : c ∉ l1 -> c ∉ l2 -> l1 ++ c :: r1 = l2 ++ c :: r2 -> l1 = l2 /\ r1 = r2.
Proof.
  revert l2. induction l1 as [|x l1 IH]; intros [|y l2] H1 H2 E; simpl in E; simplify_eq; [done|set_solver|set_solver|].
  apply not_elem_of_cons in H1 as [_ H1], H2 as [_ H2]. destruct (IH l2 H1 H2) as [-> ->]; [congruence|done].
Qed.

Lemma fallbackKey_scope t1 k1 t2 k2 :
  clean (scope_of t1) -> clean (scope_of t2) -> fallbackKey t1 k1 = fallbackKey t2 k2 ->
  scope_of t1 = scope_of t2 /\ to_lower k1 = to_lower k2.
Proof.
  intros H1 H2 E%(f_equal (fun s => chars s)). unfold fallbackKey in E. rewrite !chars_app in E.
  apply split_at_char in E as [Es Ek]; [|done|done]. split; by apply chars_inj.
Qed.

Section Isolation.
Context {W : Type} (newId : W -> string * W) (clock : W -> Z * W) (self : @ExperienceLearner W) (I : W -> Prop).
Context (Hid : forall w, I w -> I (newId w).2) (Hclock : forall w, I w -> I (clock w).2).
Context (Hscoped : forall st, memoryStore self = Some st -> SessionScoped st I).
Notation World := (Fallback * W)%type.
Notation M := (M error Empty_set World).

Record learner_ok (w : World) : Prop := {
  lo_wf : cache_wf w.1;
  lo_size : (fallbackSize w.1 <= maxFallbackRecords self)%nat;
  lo_clean : forall k, Forall (fun r => clean (scope_of (tenantId r))) (bucket w.1 k);
  lo_world : I w.2;
}.

Lemma learner_start w : I w -> learner_ok (no_lessons, w).
Proof. intros Hw. split; [apply no_lessons_wf|simpl; lia|constructor|done]. Qed.

Lemma learner_world (w : World) w2 : learner_ok w -> I w2 -> learner_ok (w.1, w2).
Proof. intros [? ? ? ?] ?. by split. Qed.

Lemma learner_host_wp {A} (f : W -> A * W) w (Q : outcome error A -> World -> list Empty_set -> Prop) :
  (forall x, I x -> I (f x).2) -> learner_ok w -> (forall a w', learner_ok w' -> w'.1 = w.1 -> Q (Ret a) w' []) -> wp (host f) w Q.
Proof.
  intros Hf Hw HQ. unfold host. wp_step. pose proof (Hf w.2 (lo_world w Hw)) as Hi. destruct (f w.2) as [a x].
  injection Hext as <- <-. apply HQ; [by apply learner_world|done].
Qed.

Lemma recordLesson_ok r w :
  clean (scope_of (tenantId r)) -> learner_ok w -> wp (recordLesson newId clock self r) w (fun _ w' _ => learner_ok w').
Proof using Hid Hclock Hscoped.
  intros Hc Hw. unfold recordLesson. wp_step.
  assert (forall (Q : outcome error string -> World -> list Empty_set -> Prop),
    (forall a w', learner_ok w' -> w'.1 = w.1 -> Q (Ret a) w' []) -> wp (if truthy (er_id r) then ret (er_id r) else host newId) w Q) as H1.
  { intros Q HQ. destruct (truthy (er_id r)); [wp_step; by apply HQ|by apply learner_host_wp]. }
  apply H1. clear H1. intros id w1 Hw1 _. cbn [wp_cont]. wp_step.
  assert (forall (Q : outcome error Z -> World -> list Empty_set -> Prop),
    (forall a w', learner_ok w' -> w'.1 = w1.1 -> Q (Ret a) w' []) -> wp (match er_timestamp r with Some t => ret t | None => host clock end) w1 Q) as H1.
  { intros Q HQ. destruct (er_timestamp r); [wp_step; by apply HQ|by apply learner_host_wp]. }
  apply H1. clear H1. intros t w2 Hw2 _. cbn [wp_cont]. cbv zeta. set (item := completed id t r). wp_step.
  assert (forall w', learner_ok w' -> learner_ok (cacheFallback (maxFallbackRecords self) item w'.1, w'.2)) as Hcache.
  { intros w' Hw'. destruct (cacheFallback_wf (maxFallbackRecords self) item w'.1 (lo_wf w' Hw') (lo_size w' Hw')) as (Ha & Hb & Hk & _).
    split; [done|done| |apply Hw']. intros k. cbn [fst]. destruct (Hk k) as [n ->]. apply Forall_drop.
    case_bool_decide; [apply Forall_app; split; [apply Hw'|by constructor]|apply Hw']. }
  destruct (memoryStore self) as [st|] eqn:Hst.
  - unfold at_memory. wp_step. pose proof (scoped_save (SessionScoped := Hscoped st eq_refl) (lesson_memory item) w2.2 (lo_world w2 Hw2)) as Hs.
    destruct (store_save st _ _) as [ans x]. injection Hext as <- <-. pose proof (learner_world w2 x Hw2 Hs) as Hw3.
    destruct ans; cbn [wp_cont]; [wp_step; by apply (Hcache (w2.1, x))|done..].
  - wp_step. cbn [wp_cont]. wp_step. by apply Hcache.
Qed.

(** What can be asked of a learner. *)
Inductive call : Type :=
| Recorded (r : ExperienceRecord)
| Practised (trigger bestPractice : string) (agent tenant : option string) (rating : option num)
| Critiqued (t : AgentTrajectory).

Definition call_scope (c : call) : string :=
  match c with
  | Recorded r => scope_of (tenantId r)
  | Practised _ _ _ tenant _ => scope_of tenant
  | Critiqued t => default (tr_sessionId t) (tr_tenantId t)
  end.

Definition do_call (c : call) : M unit :=
  match c with
  | Recorded r => recordLesson newId clock self r
  | Practised trigger practice agent tenant rating => recordBestPractice newId clock self trigger practice agent tenant rating
  | Critiqued t => critique_and_record newId clock self t ;; ret tt
  end.

(** One call after the other, whether or not they fail. *)
Fixpoint play (calls : list call) : M unit :=
  match calls with [] => ret tt | c :: rest => tried (do_call c) ;; play rest end.

Lemma record_all_ok t r lessons w :
  clean (call_scope (Critiqued t)) -> learner_ok w -> wp (record_all newId clock self t r lessons) w (fun _ w' _ => learner_ok w').
Proof using Hid Hclock Hscoped.
  intros Hc. revert w. induction lessons as [|l rest IH]; intros w Hw; cbn [record_all]; [by wp_step|].
  wp_step. apply learner_host_wp; [done|done|]. intros id w1 Hw1 _. cbn [wp_cont]. wp_step. apply learner_host_wp; [done|done|].
  intros time w2 Hw2 _. cbn [wp_cont]. wp_step. eapply wp_mono; [by apply recordLesson_ok|].
  intros o w3 l3 Hw3. destruct o; cbn [wp_cont]; [by apply IH|done..].
Qed.

Lemma do_call_ok c w : clean (call_scope c) -> learner_ok w -> wp (do_call c) w (fun _ w' _ => learner_ok w').
Proof using Hid Hclock Hscoped.
  intros Hc Hw. destruct c as [r|trigger practice agent tenant rating|t]; cbn [do_call].
  - by apply recordLesson_ok.
  - unfold recordBestPractice. wp_step. apply learner_host_wp; [done|done|]. intros id w1 Hw1 _. cbn [wp_cont]. wp_step.
    apply learner_host_wp; [done|done|]. intros time w2 Hw2 _. cbn [wp_cont]. eapply wp_mono; [by apply recordLesson_ok|]. done.
  - wp_step. unfold critique_and_record. wp_step. unfold when. destruct (negb _).
    + eapply wp_mono; [by apply record_all_ok|]. intros o w1 l Hw1. destruct o; cbn [wp_cont]; [|done..]. wp_step. cbn [wp_cont]. by wp_step.
    + wp_step. cbn [wp_cont]. wp_step. cbn [wp_cont]. by wp_step.
Qed.

Lemma play_ok calls w :
  Forall (fun c => clean (call_scope c)) calls -> learner_ok w -> wp (play calls) w (fun o w' _ => learner_ok w').
Proof using Hid Hclock Hscoped.
  intros Hc. revert w. induction Hc as [|c calls Hc1 Hc IH]; intros w Hw; cbn [play]; [by wp_step|].
  wp_step. wp_step. eapply wp_mono; [by apply do_call_ok|]. intros o w1 l Hw1. destruct o; cbn; [by apply IH..|done].
Qed.

(** Lessons stay with their tenant.  Whatever was recorded, practised or critiqued
    before, in any order and whether or not it failed, on top of any memory store that
    recalls for a session only what was saved in it: the lessons recalled for a tenant
    (or for the global scope) were all recorded for it, from the store as from the
    cache, and the cache holds no more than its bound.  A tenant here is not the empty
    string and has no NUL in it. *)
Theorem lessons_stay_with_their_tenant calls trigger tenant w :
  Forall (fun c => clean (call_scope c)) calls -> clean (scope_of tenant) -> truthy (scope_of tenant) = true -> I w ->
  wp (play calls ;; recallLessons self trigger tenant) (no_lessons, w) (fun o w' _ =>
    (fallbackSize w'.1 <= maxFallbackRecords self)%nat /\
    forall ls, o = Ret ls -> Forall (fun l => scope_of (tenantId l) = scope_of tenant) ls).
Proof using Hid Hclock Hscoped.
  intros Hcalls Hclean Htruthy Hw. wp_step. eapply wp_mono; [apply play_ok; [done|by apply learner_start]|].
  intros o w1 l1 Hw1. destruct o; cbn [wp_cont]; [|split; [apply Hw1|done]..].
  assert (Forall (fun l => scope_of (tenantId l) = scope_of tenant) (bucket w1.1 (fallbackKey tenant trigger))) as Hbucket.
  { pose proof (bucket_filed w1.1 (fallbackKey tenant trigger) (lo_wf w1 Hw1)) as Hf.
    pose proof (lo_clean w1 Hw1 (fallbackKey tenant trigger)) as Hcl. rewrite Forall_forall in *. intros r Hr.
    by apply (fallbackKey_scope _ (taskTrigger r) _ trigger (Hcl r Hr) Hclean), Hf. }
  unfold recallLessons. wp_step. wp_step. cbn [wp_cont]. destruct (memoryStore self) as [st|] eqn:Hst.
  - wp_step. unfold at_memory. wp_step.
    pose proof (scoped_recall (SessionScoped := Hscoped st eq_refl) trigger (in_session (scope_of tenant)) w1.2 (lo_world w1 Hw1)) as Hr.
    destruct (store_recall st _ _ _) as [ans x]. injection Hext as <- <-. destruct Hr as [_ Hr].
    destruct ans as [rs|e|]; cbn [wp_cont]; [|split; [apply Hw1|done]..]. wp_step. split; [apply Hw1|]. intros ls [= <-].
    specialize (Hr rs eq_refl (scope_of tenant) eq_refl Htruthy).
    assert (Forall (fun l => scope_of (tenantId l) = scope_of tenant) (map (memory_lesson trigger) rs)) as Hm by (by apply Forall_fmap).
    by destruct (map _ rs).
  - wp_step. split; [apply Hw1|]. by intros ls [= <-].
Qed.
End Isolation.

(** ** Guidance *)

Lemma squeeze_elem p b l x : x ∈ squeeze p b l -> x = " "%char \/ x ∈ l /\ p x = false.
Proof.
  revert b. induction l as [|c l IH]; intros b; cbn [squeeze]; [by intros ?%elem_of_nil|]. destruct (p c) eqn:Hc.
  - intros [Hx|Hx]%elem_of_app; [destruct b; set_solver|]. destruct (IH _ Hx) as [?|[? ?]]; [by left|right; split; [by right|done]].
  - intros [->|Hx]%elem_of_cons; [right; by split; [left|]|]. destruct (IH _ Hx) as [?|[? ?]]; [by left|right; split; [by right|done]].
Qed.

Lemma drop_while_elem {A} (p : A -> bool) l x : x ∈ drop_while p l -> x ∈ l.
Proof. induction l as [|y l IH]; simpl; [done|]. destruct (p y); [intros; right; auto|done]. Qed.

Lemma trim_elem s x : x ∈ chars (trim s) -> x ∈ chars s.
Proof.
  unfold trim. rewrite chars_of_chars, !list_elem_of_In, <- in_rev. intros Hx%list_elem_of_In%drop_while_elem%list_elem_of_In.
  apply in_rev in Hx. by apply list_elem_of_In, drop_while_elem, list_elem_of_In in Hx.
Qed.

Lemma guidance_line_plain lesson x : x ∈ chars (toGuidanceLine lesson) -> control x = false.
Proof.
  assert (forall y, y ∈ chars (trim (of_chars (squeeze is_space false (squeeze control false (chars lesson))))) -> control y = false) as Hflat.
  { intros y Hy%trim_elem. rewrite chars_of_chars in Hy. apply squeeze_elem in Hy as [->|[Hy _]]; [done|].
    apply squeeze_elem in Hy as [->|[_ ?]]; done. }
  unfold toGuidanceLine, truncate. destruct (_ <? _)%nat; [|apply Hflat]. rewrite chars_app. intros [Hx|Hx]%elem_of_app.
  - unfold slice_to in Hx. rewrite chars_of_chars in Hx. apply Hflat. eapply elem_of_sublist; [exact Hx|]. apply sublist_take.
  - cbn in Hx. set_solver.
Qed.

Lemma guidance_line_short lesson : str_length (toGuidanceLine lesson) <= 302.
Proof.
  unfold toGuidanceLine. set (flat := trim _). unfold truncate, MAX_GUIDANCE_LINE_LENGTH. destruct (_ <? _)%nat eqn:Hl.
  - rewrite str_length_app. unfold slice_to. rewrite length_of_chars, length_take. change (str_length ellipsis) with 3. lia.
  - apply Nat.ltb_ge in Hl. unfold str_length. lia.
Qed.

(** A lesson cannot break out of the guidance.  Whatever text was stored as a
    lesson, the guidance is empty or the heading and a list of at most as many lines as
    there are lessons; a line is not empty, holds no control character (so no line
    break), and is at most 299 characters and an ellipsis long. *)
Theorem guidance_keeps_its_lines lessons :
  guidance lessons = EmptyString \/
  exists lines, guidance lessons =
      nl +:+ "[Historical Trajectory Guidance & Learned Rules]:" +:+ nl +:+ Js.join nl (map (fun l => "- " +:+ l) lines) +:+ nl /\
    (0 < length lines <= length lessons)%nat /\
    Forall (fun l => 0 < str_length l <= 302 /\ Forall (fun c => control c = false) (chars l)) lines.
Proof.
  unfold guidance. set (lines := List.filter _ _).
  assert (Forall (fun l => 0 < str_length l <= 302 /\ Forall (fun c => control c = false) (chars l)) lines) as Hl.
  { apply List.Forall_forall. intros l [(x & <- & _)%in_map_iff Hpos]%filter_In. apply Z.ltb_lt in Hpos. split.
    - split; [done|apply guidance_line_short].
    - apply Forall_forall. apply guidance_line_plain. }
  assert (length lines <= length lessons)%nat as Hn by (etrans; [apply filter_length_le|by rewrite length_map]).
  destruct lines as [|l0 rest]; [by left|right]. exists (l0 :: rest). split_and!; [done|simpl; lia|done|done].
Qed.

(** ** A lesson comes back *)

Lemma includes_within q a b : includes q (a +:+ q +:+ b) = true.
Proof.
  unfold includes. assert (exists n, String.index 0 q (a +:+ q +:+ b) = Some n) as [n ->]; [|done].
  induction a as [|c a [n IH]].
  - exists O. assert (String.prefix q (q +:+ b) = true) as Hp.
    { induction q as [|c q IHq]; simpl; [by destruct b|]. destruct (Ascii.ascii_dec c c); [done|congruence]. }
    change (EmptyString +:+ q +:+ b) with (q +:+ b). destruct (q +:+ b) as [|c s] eqn:E; [by destruct q|].
    cbn [String.index]. by rewrite Hp.
  - change (String c a +:+ q +:+ b) with (String c (a +:+ q +:+ b)). cbn [String.index].
    destruct (String.prefix q _); [by exists O|]. rewrite IH. by exists (S n).
Qed.

Lemma to_lower_app a b : to_lower (a +:+ b) = to_lower a +:+ to_lower b.
Proof. unfold to_lower. rewrite chars_app, map_app. apply chars_inj. by rewrite chars_of_chars, chars_app, !chars_of_chars. Qed.

Section RoundTrip.
Context {H : Type} (host_of : H -> string * Z * H).
Notation W := (Sessions * H)%type.
Context (newId : W -> string * W) (clock : W -> Z * W) (engine : ReflectionEngine) (max : nat).
Context (Hid : forall w, (newId w).2.1 = w.1) (Hclock : forall w, (clock w).2.1 = w.1).
Notation self := {| memoryStore := Some (Episodic.store host_of); reflectionEngine := engine; maxFallbackRecords := max |}.

Lemma host_keeps {A} (f : W -> A * W) (w : Fallback * W) (Q : outcome error A -> Fallback * W -> list Empty_set -> Prop) :
  (forall x, (f x).2.1 = x.1) -> (forall a w', w'.2.1 = w.2.1 -> Q (Ret a) w' []) -> wp (host f) w Q.
Proof.
  intros Hf HQ. unfold host. wp_step. pose proof (Hf w.2) as E. destruct (f w.2) as [a x]. injection Hext as <- <-. by apply HQ.
Qed.

(** After recording, the episodes of the tenant end with the lesson. *)
Lemma recordLesson_episode r w (Q : outcome error unit -> Fallback * W -> list Empty_set -> Prop) :
  (forall w' id t uuid now,
     w'.2.1 = Episodic.save uuid now (lesson_memory (completed id t r)) w.2.1 -> Q (Ret tt) w' []) ->
  wp (recordLesson newId clock self r) w Q.
Proof using Hid Hclock.
  intros HQ. unfold recordLesson. wp_step.
  assert (forall (Q' : outcome error string -> Fallback * W -> list Empty_set -> Prop),
    (forall a w', w'.2.1 = w.2.1 -> Q' (Ret a) w' []) -> wp (if truthy (er_id r) then ret (er_id r) else host newId) w Q') as H1.
  { intros Q' HQ'. destruct (truthy (er_id r)); [wp_step; by apply HQ'|by apply host_keeps]. }
  apply H1. clear H1. intros id w1 Hw1. cbn [wp_cont]. wp_step.
  assert (forall (Q' : outcome error Z -> Fallback * W -> list Empty_set -> Prop),
    (forall a w', w'.2.1 = w1.2.1 -> Q' (Ret a) w' []) -> wp (match er_timestamp r with Some t => ret t | None => host clock end) w1 Q') as H1.
  { intros Q' HQ'. destruct (er_timestamp r); [wp_step; by apply HQ'|by apply host_keeps]. }
  apply H1. clear H1. intros t w2 Hw2. cbn [wp_cont memoryStore]. cbv zeta. wp_step. unfold at_memory. wp_step.
  cbn [store_save Episodic.store in_process] in Hext. destruct (host_of w2.2.2) as [[uuid now] h]. injection Hext as <- <-.
  cbn [wp_cont]. wp_step. apply (HQ _ id t uuid now). cbn [fst snd]. by rewrite Hw2, Hw1.
Qed.

(** What was learned comes back.  A lesson recorded by a learner over episodic
    memory, for a tenant with fewer than fifty episodes, is among the lessons recalled
    for the same trigger and tenant, with its text, its agent and its pattern; and
    nothing but the tenant's own is recalled with it. *)
Theorem lesson_comes_back r w :
  filed w.2.1 -> truthy (scope_of (tenantId r)) = true -> (length (records_of (scope_of (tenantId r)) w.2.1) < 50)%nat ->
  wp (recordLesson newId clock self r ;; recallLessons self (taskTrigger r) (tenantId r)) w (fun o w' _ =>
    exists ls, o = Ret ls /\
      (exists l, l ∈ ls /\ lesson l = lesson r /\ agentName l = agentName r /\ pattern l = pattern r /\ taskTrigger l = taskTrigger r) /\
      Forall (fun l => tenantId l = Some (scope_of (tenantId r))) ls).
Proof using Hid Hclock.
  intros Hf Ht Hlen. wp_step. apply recordLesson_episode. intros w1 id t uuid now Hw1. cbn [wp_cont].
  set (item := completed id t r) in *. set (s := scope_of (tenantId r)) in *. set (i := stamp "episodic" uuid now (lesson_memory item)).
  assert (records_of s w1.2.1 = records_of s w.2.1 ++ [i]) as Hrec.
  { rewrite Hw1. unfold Episodic.save. assert (foreign "episodic" (lesson_memory item) = false) as -> by done.
    unfold records_of at 1. rewrite js_get_set. by rewrite bool_decide_true. }
  unfold recallLessons. wp_step. wp_step. cbn [wp_cont memoryStore]. wp_step. unfold at_memory. wp_step.
  cbn [store_recall Episodic.store in_process] in Hext. injection Hext as <- <-. cbn [wp_cont]. wp_step.
  set (found := Episodic.recall _ _ _).
  assert (matches (taskTrigger r) i = true) as Hm.
  { unfold matches, i. cbn [rec_content stamp lesson_memory]. rewrite !to_lower_app. apply (includes_within _ _ (to_lower "]: " +:+ to_lower (lesson item))). }
  assert (i ∈ found) as Hin.
  { unfold found, Episodic.recall, candidates. cbn [in_session q_sessionId q_limit default]. fold s. rewrite Ht, Hrec, List.filter_app.
    cbn [List.filter]. rewrite Hm. unfold slice_front. change (0 <=? 50) with true. rewrite take_ge.
    - apply elem_of_app. right. by left.
    - rewrite length_app. simpl. pose proof (filter_length_le (matches (taskTrigger r)) (records_of s w.2.1)). lia. }
  assert (Forall (fun x => sessionId x = s) found) as Hsess.
  { unfold found, Episodic.recall. apply Forall_slice_front, Forall_filter, filed_candidates; [|done|done].
    rewrite Hw1. by apply Episodic.episode_filed. }
  destruct (map (memory_lesson (taskTrigger r)) found) as [|l0 ls0] eqn:Hls.
  { destruct found; [by apply elem_of_nil in Hin|done]. }
  exists (map (memory_lesson (taskTrigger r)) found). split; [by rewrite Hls|]. split.
  - exists (memory_lesson (taskTrigger r) i). split; [by apply list_elem_of_fmap_2|done].
  - apply Forall_fmap. eapply Forall_impl; [exact Hsess|]. intros x Hx. simpl. by rewrite Hx.
Qed.
End RoundTrip.

(** ** At work *)

Definition demo_engine : ReflectionEngine :=
  {| engine_weights := severity_weights None None None None None None; customClassifier := None |}.

Definition episodic_learner (max : nat) : @ExperienceLearner (Sessions * nat) :=
  {| memoryStore := Some (Episodic.store demo_host); reflectionEngine := demo_engine; maxFallbackRecords := max |}.

Definition next_id (w : Sessions * nat) : string * (Sessions * nat) := ("lesson-" +:+ Z_to_string (Z.of_nat w.2), (w.1, S w.2)).
Definition next_time (w : Sessions * nat) : Z * (Sessions * nat) := (Z.of_nat w.2, w).

Definition note_for (tenant : option string) (trigger text : string) : ExperienceRecord := {|
  er_id := EmptyString; tenantId := tenant; agentName := "agent"; taskTrigger := trigger; pattern := "p"; lesson := text;
  er_score := None; er_importance := None; er_timestamp := None |}.

Definition demo_calls : list call :=
  [Recorded (note_for (Some "acme") "deploy" "freeze on fridays"); Recorded (note_for (Some "other") "deploy" "never mind");
   Practised "deploy" "use the checklist" None (Some "acme") None;
   Critiqued {| tr_sessionId := "s-1"; tr_tenantId := Some "acme"; tr_agentName := "agent"; goal := "deploy";
                tr_steps := [{| stepIndex := 1; toolName := Some "ship"; step_args := None; result := VUndef;
                                step_error := Some "Rate limit hit"; step_timestamp := None |}]; tr_success := false |}].

Definition recalled_for (tenant : option string) : outcome error (list ExperienceRecord) :=
  ((play next_id next_time (episodic_learner 10) demo_calls ;; recallLessons (episodic_learner 10) "deploy" tenant)
     (no_lessons, ([], 0%nat))).1.1.

Lemma lessons_stay_with_their_tenant_witness :
  wp (play next_id next_time (episodic_learner 10) demo_calls ;; recallLessons (episodic_learner 10) "deploy" (Some "acme"))
    (no_lessons, ([], 0%nat))
    (fun o _ _ => forall ls, o = Ret ls -> Forall (fun l => scope_of (tenantId l) = "acme") ls) /\
  (fun o => match o with Ret ls => map lesson ls | _ => [] end) (recalled_for (Some "acme")) =
    ["freeze on fridays"; "use the checklist"; lesson_for Limits "ship"].
Proof.
  split; [|by vm_compute].
  eapply wp_mono; [apply (lessons_stay_with_their_tenant next_id next_time (episodic_learner 10) (fun w => filed w.1))|].
  - done.
  - done.
  - intros st [= <-]. apply Episodic.episodic_scoped.
  - repeat constructor; apply (bool_decide_unpack _); by vm_compute.
  - apply (bool_decide_unpack _). by vm_compute.
  - done.
  - apply filed_nil.
  - by intros o w l [_ Hls].
Defined.

(** For the tenant with the empty name, the episodes of every tenant are recalled. *)
Example empty_tenant_reads_all :
  (fun o => match o with Ret ls => map tenantId ls | _ => [] end) (recalled_for (Some EmptyString)) =
    [Some "acme"; Some "acme"; Some "acme"; Some "other"].
Proof. by vm_compute. Qed.

Lemma lesson_comes_back_witness :
  wp (recordLesson next_id next_time (episodic_learner 10) (note_for (Some "acme") "deploy" "freeze on fridays") ;;
      recallLessons (episodic_learner 10) "deploy" (Some "acme")) (no_lessons, ([], 0%nat))
    (fun o _ _ => exists ls, o = Ret ls /\ exists l, l ∈ ls /\ lesson l = "freeze on fridays") /\
  "freeze on fridays" <> EmptyString.
Proof.
  split; [|done].
  eapply wp_mono; [apply (lesson_comes_back demo_host next_id next_time demo_engine 10 ltac:(done) ltac:(done)
    (note_for (Some "acme") "deploy" "freeze on fridays") (no_lessons, ([], 0%nat)) filed_nil eq_refl ltac:(simpl; lia))|].
  intros o w l (ls & -> & (x & Hx & Hl & _) & _). exists ls. split; [done|]. by exists x.
Defined.

(** The fifty-first lesson of a tenant is not recalled: the first fifty are. *)
Example fifty_first_lesson_is_lost :
  let calls := map (fun n => Recorded (note_for (Some "acme") "deploy" ("lesson " +:+ Z_to_string (Z.of_nat n)))) (seq 1 51) in
  let o := ((play next_id next_time (episodic_learner 1000) calls ;; recallLessons (episodic_learner 1000) "deploy" (Some "acme"))
              (no_lessons, ([], 0%nat))).1.1 in
  (fun o => match o with Ret ls => (length ls, last (map lesson ls)) | _ => (O, None) end) o = (50%nat, Some "lesson 50").
Proof. by vm_compute. Qed.

End Experience.
