(* ===== verification/RagGraph.v ===== *)
(** * Strategies over a knowledge graph
      (packages/rag/src/strategies/{graph-rag,graph-dependency}.strategy.ts)

    Both look up the entities a query names, collect the relations around them and
    raise the scores of the chunks that mention them.  A graph provider is an
    arbitrary function of the world; the in-memory provider is an instance. *)

From Stdlib Require Import Ascii.
From S2P Require Export KnowledgeGraph RagStrategies.

#[local] Open Scope string_scope.
#[local] Open Scope list_scope.
#[local] Open Scope Z_scope.
#[local] Open Scope eff_scope.

Module RagGraph.
Import Consensus Retrieval KnowledgeGraph RagStrategies.

Section Graph.
Context {W : Type}.

Definition Ext (A : Type) : Type := W -> outcome error A * W.

(** What the strategies use of a [KnowledgeGraphProvider]. *)
Record GraphProvider : Type := {
  gp_querySubGraph : string -> Z -> Ext SubGraph;
  gp_searchNodes : option (string -> Ext (list KnowledgeGraphNode));
}.

Inductive event : Type :=
| Queried (entity : string) (depth : Z)
| NodesSearched (keyword : string)
| Extracted (query : string).

Notation M := (M error event W).

Definition query_graph (p : GraphProvider) (entity : string) (depth : Z) : M SubGraph :=
  emit (Queried entity depth) ;; lift (gp_querySubGraph p entity depth).

Definition add_all (s : list string) (xs : list string) : list string := fold_left set_add xs s.

(** The identifiers of a node, as keywords. *)
Definition node_keys (n : KnowledgeGraphNode) : list string := [to_lower (node_id n); to_lower (label n)].

Definition find_node (g : SubGraph) (id : string) : option KnowledgeGraphNode :=
  find_first (fun n => bool_decide (node_id n = id)) (sub_nodes g).

(** [currentScore * boost] for a chunk that is mentioned. *)
Definition boost_chunk (mentioned : DocumentChunk -> bool) (boost : Q) (scores : list (string * Q)) (c : DocumentChunk)
    : list (string * Q) :=
  if mentioned c then js_set scores (chunk_id c) (default 1%Q (js_get scores (chunk_id c)) * boost)%Q else scores.

Definition boost_all (mentioned : DocumentChunk -> bool) (boost : Q) (scores : list (string * Q)) (cs : list DocumentChunk)
    : list (string * Q) :=
  fold_left (boost_chunk mentioned boost) cs scores.

(** The graph's text in front of the hydrated context. *)
Definition in_front (text : string) (hydrated : option string) : string :=
  if truthy_opt hydrated then text +:+ nl +:+ "---" +:+ nl +:+ default EmptyString hydrated else text.

(** ** GraphRAG *)

Record GraphRAGStrategy : Type := {
  gr_graphProvider : GraphProvider;
  gr_maxDepth : Z;
  gr_chunkScoreBoost : Q;
  gr_extractEntitiesFn : option (string -> Ext (list string));
}.

Definition mk_graph_rag (p : GraphProvider) (maxDepth : option Z) (boost : option Q)
    (extract : option (string -> Ext (list string))) : GraphRAGStrategy :=
  {| gr_graphProvider := p; gr_maxDepth := default 2 maxDepth; gr_chunkScoreBoost := default (5 # 4)%Q boost;
     gr_extractEntitiesFn := extract |}.

Definition bare_node (id : string) : KnowledgeGraphNode := {| node_id := id; label := id; properties := None |}.

Definition add_node (m : list (string * KnowledgeGraphNode)) (n : KnowledgeGraphNode) : list (string * KnowledgeGraphNode) :=
  js_set m (node_id n) n.

(** What the strategies collect: facts and the keywords of the entities. *)
Record Collected : Type := { facts : list string; keywords : list string }.

Section GraphRAG.
Context (self : GraphRAGStrategy).

Fixpoint search_tokens (tokens : list string) (m : list (string * KnowledgeGraphNode))
    : M (list (string * KnowledgeGraphNode)) :=
  match tokens with
  | [] => ret m
  | token :: rest =>
      match gp_searchNodes (gr_graphProvider self) with
      | Some search =>
          emit (NodesSearched token) ;;
          found <- lift (search token) ;;
          search_tokens rest (fold_left add_node found m)
      | None => search_tokens rest (add_node m (bare_node token))
      end
  end.

Definition matched_nodes (query : string) : M (list (string * KnowledgeGraphNode)) :=
  match gr_extractEntitiesFn self with
  | Some extract =>
      emit (Extracted query) ;;
      ids <- lift (extract query) ;;
      ret (fold_left add_node (map bare_node ids) [])
  | None => search_tokens (List.filter (fun t => 2 <? str_length t) (map trim (split_spaces query))) []
  end.

Definition rag_label (g : SubGraph) (id : string) : string :=
  match find_node g id with Some n => label n +:+ " (" +:+ node_id n +:+ ")" | None => id end.

Definition rag_fact (g : SubGraph) (e : KnowledgeGraphEdge) : string :=
  "[Entity: " +:+ rag_label g (sourceId e) +:+ "] -(" +:+ relation e +:+ ")-> [Entity: " +:+ rag_label g (targetId e) +:+ "]".

Fixpoint collect (roots : list KnowledgeGraphNode) (acc : Collected) : M Collected :=
  match roots with
  | [] => ret acc
  | root :: rest =>
      let acc1 := {| facts := facts acc; keywords := add_all (keywords acc) (node_keys root) |} in
      r <- tried (query_graph (gr_graphProvider self) (node_id root) (gr_maxDepth self)) ;;
      collect rest
        (match r with
         | inl g => {| facts := add_all (facts acc1) (map (rag_fact g) (sub_edges g));
                       keywords := add_all (keywords acc1) (concat (map node_keys (sub_nodes g))) |}
         | inr _ => acc1
         end)
  end.

Definition mentions_keyword (kws : list string) (c : DocumentChunk) : bool :=
  existsb (fun kw => includes kw (to_lower (chunk_content c))) kws.

Definition graph_rag_process (context : RAGContext) : M RAGContext :=
  if str_is_empty (query context) then ret context
  else
    matched <- matched_nodes (query context) ;;
    match matched with
    | [] => ret context
    | _ =>
        acc <- collect (js_values matched) {| facts := []; keywords := [] |} ;;
        match facts acc with
        | [] => ret context
        | _ =>
            let text := "### Knowledge Graph Relational Facts" +:+ nl +:+ join nl (facts acc) in
            let scores := boost_all (mentions_keyword (keywords acc)) (gr_chunkScoreBoost self)
                            (default [] (rag_scores context)) (default [] (rag_chunks context)) in
            ret (with_hydrated (in_front text (hydratedParentContext context))
                   (with_graph_context text (with_scores scores context)))
        end
    end.
End GraphRAG.

(** ** GraphDependency *)

Record GraphDependencyStrategy : Type := {
  gd_graphProvider : GraphProvider;
  gd_maxDepth : Z;
  gd_dependencyScoreBoost : Q;
  gd_extractSymbolsFn : option (string -> Ext (list string));
}.

Definition mk_graph_dependency (p : GraphProvider) (maxDepth : option Z) (boost : option Q)
    (extract : option (string -> Ext (list string))) : GraphDependencyStrategy :=
  {| gd_graphProvider := p; gd_maxDepth := default 3 maxDepth; gd_dependencyScoreBoost := default (13 # 10)%Q boost;
     gd_extractSymbolsFn := extract |}.

(** *** The symbols of a query *)

Definition in_range (a b : nat) (c : ascii) : bool := (a <=? nat_of_ascii c)%nat && (nat_of_ascii c <=? b)%nat.
(** [[A-Za-z]], [[A-Za-z0-9_]] *)
Definition is_letter (c : ascii) : bool := in_range 65 90 c || in_range 97 122 c.
Definition is_word (c : ascii) : bool := is_letter c || in_range 48 57 c || bool_decide (c = "_"%char).
(** [[A-Za-z0-9_.-]], and with [$] *)
Definition is_package_char (c : ascii) : bool := is_word c || bool_decide (c = "."%char) || bool_decide (c = "-"%char).
Definition is_identifier_char (c : ascii) : bool := is_package_char c || bool_decide (c = "$"%char).
Definition starts_identifier (c : ascii) : bool := is_letter c || bool_decide (c = "_"%char) || bool_decide (c = "$"%char).

Fixpoint run_of (p : ascii -> bool) (l : list ascii) : nat :=
  match l with c :: l' => if p c then S (run_of p l') else O | [] => O end.

(** The length of a match of [RE_SCOPED_PACKAGE] at the front. *)
Definition scoped_length (l : list ascii) : option nat :=
  match l with
  | "@"%char :: l' =>
      let n := run_of is_package_char l' in
      match drop n l' with
      | "/"%char :: l'' => let k := run_of is_package_char l'' in
                           if (0 <? n)%nat && (0 <? k)%nat then Some (2 + n + k)%nat else None
      | _ => None
      end
  | _ => None
  end.

(** [\b] between two positions; [None] is an end of the text. *)
Definition boundary (before after : option ascii) : bool :=
  xorb (match before with Some c => is_word c | None => false end) (match after with Some c => is_word c | None => false end).

(** The longest prefix of length [n] down to 3 that ends at a boundary. *)
Fixpoint longest_identifier (n : nat) (l : list ascii) : option nat :=
  match n with
  | S n' => if (n <? 3)%nat then None
            else if boundary (l !! n') (l !! n) then Some n else longest_identifier n' l
  | O => None
  end.

(** The length of a match of [RE_IDENTIFIERS] at the front, [before] being the character before it. *)
Definition identifier_length (before : option ascii) (l : list ascii) : option nat :=
  match l with
  | c :: l' =>
      if starts_identifier c && boundary before (Some c) then longest_identifier (S (run_of is_identifier_char l')) l
      else None
  | [] => None
  end.

(** [text.match(re)] for a global expression: matches from left to right, not
    overlapping; [skip] characters belong to the last match. *)
Fixpoint match_all (re : option ascii -> list ascii -> option nat) (skip : nat) (before : option ascii) (l : list ascii)
    : list string :=
  match l with
  | [] => []
  | c :: l' =>
      match skip with
      | S k => match_all re k (Some c) l'
      | O => match re before l with
             | Some (S n) => of_chars (take (S n) l) :: match_all re n (Some c) l'
             | _ => match_all re O (Some c) l'
             end
      end
  end.

Definition scoped_packages (query : string) : list string := match_all (fun _ => scoped_length) O None (chars query).
Definition identifiers (query : string) : list string := match_all identifier_length O None (chars query).

Definition STOP_WORDS : list string :=
  ["the"; "and"; "for"; "with"; "from"; "that"; "this"; "what"; "which"; "impact"; "analysis"; "query"; "test"; "code";
   "file"; "import"; "export"; "class"].

Definition stop_word (s : string) : bool := bool_decide (s ∈ STOP_WORDS).

Definition query_symbols (query : string) : list string :=
  add_all (add_all [] (scoped_packages query))
    (List.filter (fun m => negb (starts_with "@" m) && negb (stop_word (to_lower m))) (identifiers query)).

(** A chunk mentions an entity as a whole word, whatever the case. *)
Fixpoint whole_word (e : list ascii) (before : option ascii) (l : list ascii) : bool :=
  (bool_decide (take (length e) l = e) && negb (match before with Some c => is_word c | None => false end) &&
   negb (match l !! length e with Some c => is_word c | None => false end)) ||
  match l with [] => false | c :: l' => whole_word e (Some c) l' end.

Definition mentions_entity (entities : list string) (c : DocumentChunk) : bool :=
  let text := chunk_content c +:+ nl +:+ default EmptyString (meta_string (chunk_metadata c) "filePath") in
  existsb (fun e => whole_word (chars e) None (chars (to_lower text))) entities.

Definition valid_entity (e : string) : bool := (3 <=? str_length e) && negb (stop_word e).

Record Traversal : Type := {
  visitedSymbols : list string;
  seenEdges : list string;
  impactedEntities : list string;
  factLines : list string;
}.

Definition dependency_label (g : SubGraph) (id : string) : string :=
  match find_node g id with Some n => label n +:+ " [" +:+ node_id n +:+ "]" | None => id end.

(** The bullet is three bytes of UTF-8. *)
Definition bullet : string := of_chars ["226"; "128"; "162"]%char.

Definition dependency_fact (g : SubGraph) (e : KnowledgeGraphEdge) : string :=
  bullet +:+ " " +:+ dependency_label g (sourceId e) +:+ " --(" +:+ relation e +:+ ")--> " +:+
  dependency_label g (targetId e).

Definition mark_visited (symbol : string) (st : Traversal) : Traversal :=
  {| visitedSymbols := set_add (visitedSymbols st) symbol; seenEdges := seenEdges st;
     impactedEntities := impactedEntities st; factLines := factLines st |}.

Definition impact (es : list string) (st : Traversal) : Traversal :=
  {| visitedSymbols := visitedSymbols st; seenEdges := seenEdges st;
     impactedEntities := add_all (impactedEntities st) es; factLines := factLines st |}.

Definition see_edge (g : SubGraph) (e : KnowledgeGraphEdge) (st : Traversal) : Traversal :=
  {| visitedSymbols := visitedSymbols st; seenEdges := set_add (seenEdges st) (edgeKey e);
     impactedEntities := impactedEntities st; factLines := set_add (factLines st) (dependency_fact g e) |}.

Section Dependency.
Context (self : GraphDependencyStrategy).

(** The loop over the edges around a symbol; [go] traverses from a neighbour. *)
Fixpoint edges_loop (go : string -> Traversal -> M Traversal) (symbol : string) (g : SubGraph)
    (es : list KnowledgeGraphEdge) (st : Traversal) : M Traversal :=
  match es with
  | [] => ret st
  | e :: rest =>
      if bool_decide (edgeKey e ∈ seenEdges st) then edges_loop go symbol g rest st
      else
        let st1 := see_edge g e st in
        let next := neighborId symbol e in
        st2 <- (if bool_decide (next ∈ visitedSymbols st1) then ret st1 else go next st1) ;;
        edges_loop go symbol g rest st2
  end.

(** [levels] is how many more symbols a path may visit: [maxDepth + 1 - currentDepth]. *)
Fixpoint traverse (levels : nat) (symbol : string) (st : Traversal) : M Traversal :=
  match levels with
  | O => ret st
  | S levels' =>
      if bool_decide (symbol ∈ visitedSymbols st) then ret st
      else
        let st1 := mark_visited symbol st in
        r <- tried (query_graph (gd_graphProvider self) symbol 1) ;;
        match r with
        | inl g => edges_loop (traverse levels') symbol g (sub_edges g) (impact (concat (map node_keys (sub_nodes g))) st1)
        | inr _ => ret st1
        end
  end.

Fixpoint supplement (search : string -> Ext (list KnowledgeGraphNode)) (todo symbols : list string) : M (list string) :=
  match todo with
  | [] => ret symbols
  | s :: rest =>
      emit (NodesSearched s) ;;
      r <- tried (lift (search s)) ;;
      supplement search rest (match r with inl found => add_all symbols (map node_id found) | inr _ => symbols end)
  end.

Definition resolveTargetSymbols (query : string) : M (list string) :=
  match gd_extractSymbolsFn self with
  | Some extract => emit (Extracted query) ;; lift (extract query)
  | None =>
      let symbols := query_symbols query in
      match gp_searchNodes (gd_graphProvider self) with
      | Some search => supplement search symbols symbols
      | None => ret symbols
      end
  end.

Fixpoint traverse_all (symbols : list string) (st : Traversal) : M Traversal :=
  match symbols with
  | [] => ret st
  | s :: rest =>
      st1 <- traverse (Z.to_nat (gd_maxDepth self + 1)) s (impact [to_lower s] st) ;;
      traverse_all rest st1
  end.

Definition start : Traversal := {| visitedSymbols := []; seenEdges := []; impactedEntities := []; factLines := [] |}.

Definition dependency_context (st : Traversal) (context : RAGContext) : RAGContext :=
  let text := "### Codebase Architecture & Dependency Graph Facts" +:+ nl +:+ join nl (factLines st) in
  let scores := boost_all (mentions_entity (List.filter valid_entity (impactedEntities st))) (gd_dependencyScoreBoost self)
                  (default [] (rag_scores context)) (default [] (rag_chunks context)) in
  with_facts (default [] (relationalFacts context) ++ factLines st)
    (with_hydrated (in_front text (hydratedParentContext context))
       (with_graph_context (if truthy_opt (graphContext context) then default EmptyString (graphContext context) +:+ nl +:+ nl +:+ text
                            else text)
          (with_scores scores context))).

Definition graph_dependency_process (context : RAGContext) : M RAGContext :=
  if str_is_empty (trim (query context)) then ret context
  else
    symbols <- resolveTargetSymbols (query context) ;;
    match symbols with
    | [] => ret context
    | _ =>
        st <- traverse_all symbols start ;;
        match factLines st with
        | [] => ret context
        | _ => ret (dependency_context st context)
        end
    end.
End Dependency.

(** ** Each symbol is looked up once *)

Definition queried (l : list event) : list string :=
  filter_map (fun e => match e with Queried s _ => Some s | _ => None end) l.

Lemma queried_app l1 l2 : queried (l1 ++ l2) = queried l1 ++ queried l2.
Proof. apply filter_map_app. Qed.

(** From [st] a traversal looks up symbols it has not visited, each once, visits
    exactly those, and never throws. *)
Definition looks_up_once (st : Traversal) (o : outcome error Traversal) (l : list event) : Prop :=
  NoDup (queried l) /\ (forall x, x ∈ queried l -> x ∉ visitedSymbols st) /\
  match o with
  | Ret st' => visitedSymbols st' = visitedSymbols st ++ queried l
  | Throw _ => False
  | Diverge => True
  end.

Lemma once_stay st st' : visitedSymbols st' = visitedSymbols st -> looks_up_once st (Ret st') [].
Proof. intros H. split_and!; [apply NoDup_nil_2|by intros x ?%elem_of_nil|]. by rewrite app_nil_r. Qed.

Lemma once_after st st1 o l1 l2 :
  looks_up_once st (Ret st1) l1 -> looks_up_once st1 o l2 -> looks_up_once st o (l1 ++ l2).
Proof.
  intros (N1 & D1 & V1) (N2 & D2 & V2). unfold looks_up_once. rewrite queried_app. rewrite V1 in D2. split_and!.
  - apply NoDup_app. split_and!; [done| |done]. set_solver.
  - set_solver.
  - destruct o as [st'|e|]; [|done..]. by rewrite V2, V1, app_assoc.
Qed.

Lemma once_from st st1 o l : visitedSymbols st1 = visitedSymbols st -> looks_up_once st1 o l -> looks_up_once st o l.
Proof. intros H. unfold looks_up_once. by rewrite H. Qed.

Section Once.
Context (self : GraphDependencyStrategy).

Lemma edges_loop_once go symbol g es st w :
  (forall s st w, wp (go s st) w (fun o _ l => looks_up_once st o l)) ->
  wp (edges_loop go symbol g es st) w (fun o _ l => looks_up_once st o l).
Proof.
  intros Hgo. revert st w. induction es as [|e es IH]; intros st w; cbn [edges_loop]; [wp_step; by apply once_stay|].
  destruct (bool_decide _); [apply IH|]. wp_step.
  assert (wp (if bool_decide (neighborId symbol e ∈ visitedSymbols (see_edge g e st)) then ret (see_edge g e st)
    else go (neighborId symbol e) (see_edge g e st)) w (fun o _ l => looks_up_once st o l)) as Hstep.
  { destruct (bool_decide _); [wp_step; by apply once_stay|]. eapply wp_mono; [apply Hgo|].
    intros o w1 l. by apply once_from. }
  eapply wp_mono; [exact Hstep|]. intros o w1 l Ho. destruct o as [st1|e'|]; cbn [wp_cont]; [|done..].
  eapply wp_mono; [apply IH|]. intros o w2 l2. by apply once_after.
Qed.

Lemma traverse_once levels symbol st w :
  wp (traverse self levels symbol st) w (fun o _ l => looks_up_once st o l).
Proof.
  revert symbol st w. induction levels as [|levels IH]; intros symbol st w; cbn [traverse]; [wp_step; by apply once_stay|].
  destruct (bool_decide (symbol ∈ visitedSymbols st)) eqn:Hv; [wp_step; by apply once_stay|].
  apply bool_decide_eq_false in Hv. unfold query_graph. wp_steps.
  assert (forall st', visitedSymbols st' = visitedSymbols st ++ [symbol] -> looks_up_once st (Ret st') [Queried symbol 1]) as Hone.
  { intros st' H. split_and!; [apply NoDup_singleton|intros x Hx; cbn in Hx; set_solver|done]. }
  assert (visitedSymbols (mark_visited symbol st) = visitedSymbols st ++ [symbol]) as Hm.
  { unfold mark_visited, set_add. simpl. by rewrite bool_decide_false. }
  destruct o as [g|e|].
  - cbn [wp_cont]. eapply wp_mono; [apply edges_loop_once, IH|]. intros o w1 l H.
    apply (once_after st (impact (concat (map node_keys (sub_nodes g))) (mark_visited symbol st)) o [Queried symbol 1] l); [|done].
    by apply Hone.
  - cbn [wp_cont]. wp_step. by apply Hone.
  - split_and!; [apply NoDup_singleton|intros x Hx; cbn in Hx; set_solver|done].
Qed.

(** However cyclic the graph, and whatever its provider answers or throws, a
    traversal looks up each symbol at most once, visits exactly the symbols it looked
    up, and does not throw. *)
Theorem traversal_looks_up_once symbols w :
  wp (traverse_all self symbols start) w (fun o _ l => looks_up_once start o l).
Proof.
  generalize start. revert w. induction symbols as [|s symbols IH]; intros w st; cbn [traverse_all]; [wp_step; by apply once_stay|].
  wp_step. eapply wp_mono; [apply traverse_once|]. intros o w1 l H. apply (once_from st) in H; [|done].
  destruct o as [st1|e|]; cbn [wp_cont]; [|done..]. eapply wp_mono; [apply IH|]. intros o w2 l2. by apply once_after.
Qed.
End Once.

(** ** Scores *)

(** A chunk's score is raised once when it is mentioned, and left alone otherwise. *)
Lemma boost_all_once mentioned boost scores cs :
  NoDup (map chunk_id cs) -> forall c, c ∈ cs ->
  js_get (boost_all mentioned boost scores cs) (chunk_id c) =
  if mentioned c then Some (default 1 (js_get scores (chunk_id c)) * boost)%Q else js_get scores (chunk_id c).
Proof.
  unfold boost_all. revert scores. induction cs as [|x cs IH]; intros scores Hnd c Hc; [by apply elem_of_nil in Hc|].
  simpl in Hnd |- *. apply NoDup_cons in Hnd as [Hx Hnd].
  assert (forall scores, chunk_id x ∉ map chunk_id cs ->
    js_get (fold_left (boost_chunk mentioned boost) cs scores) (chunk_id x) = js_get scores (chunk_id x)) as Hkeep.
  { clear. intros scores. revert scores. induction cs as [|y cs IH]; intros scores Hn; [done|]. simpl in Hn |- *.
    rewrite IH by set_solver. unfold boost_chunk. destruct (mentioned y); [|done]. rewrite js_get_set, bool_decide_false; [done|set_solver]. }
  apply elem_of_cons in Hc as [->|Hc].
  - rewrite Hkeep by done. unfold boost_chunk. destruct (mentioned x); [|done]. by rewrite js_get_set, bool_decide_true.
  - rewrite IH by done. assert (chunk_id x <> chunk_id c) as Hne by (intros E; apply Hx; rewrite E; by apply list_elem_of_fmap_2).
    unfold boost_chunk. destruct (mentioned x); [|done]. by rewrite js_get_set, bool_decide_false.
Qed.

End Graph.

(** ** The in-memory graph, and what the depth limit means on it *)

Definition in_memory (g : Graph) : @GraphProvider unit := {|
  gp_querySubGraph := fun e d w => (match querySubGraph g e d with Some s => Ret s | None => Diverge end, w);
  gp_searchNodes := Some (fun k w => (Ret (searchNodes k g), w)) |}.

Definition imports (a b : string) : KnowledgeGraphEdge :=
  {| sourceId := a; targetId := b; relation := "imports"; weight := None |}.

Definition short_path : list KnowledgeGraphEdge :=
  [imports "r" "x"; imports "x" "y"; imports "y" "z"; imports "z" "u"].
Definition long_path : list KnowledgeGraphEdge :=
  [imports "r" "a"; imports "a" "b"; imports "b" "c"; imports "c" "x"].

Definition facts_from (es : list KnowledgeGraphEdge) (maxDepth : Z) : list string :=
  match (traverse_all (mk_graph_dependency (in_memory {| nodes := []; edges := es |}) (Some maxDepth) None None) ["r"] start tt).1.1 with
  | Ret st => factLines st
  | _ => []
  end.

(** The symbol [u] is four imports from [r]; whether its import is found with a depth
    of four depends on the order in which the edges were added, because a symbol
    first met at the end of a long path is not followed again from a short one. *)
Example depth_depends_on_edge_order :
  let fact := dependency_fact {| sub_nodes := []; sub_edges := [] |} (imports "z" "u") in
  fact ∈ facts_from (short_path ++ long_path) 4 /\ fact ∉ facts_from (long_path ++ short_path) 4.
Proof. cbv zeta. split; [by apply (bool_decide_unpack _); vm_compute|by apply (bool_decide_unpack (~ _)); vm_compute]. Qed.

Example demo_symbols :
  query_symbols "What is the impact of @acme/core on UserService?" = ["@acme/core"; "acme"; "core"; "UserService"].
Proof. reflexivity. Qed.

End RagGraph.
