(* ===== verification/ParentChild.v ===== *)
(** * Parent-child splitting (packages/rag/src/splitters/parent-child.splitter.ts)

    A document is cut into parents, each parent into overlapping children that
    carry its text.  Sizes are integers; with a parent size that is not positive the
    loop of the code does not end, which is [None] here. *)

From Stdlib Require Import Ascii.
From S2P Require Export RagStrategies ToolArgs.

#[local] Open Scope string_scope.
#[local] Open Scope list_scope.
#[local] Open Scope Z_scope.

Module ParentChild.
Import Consensus Retrieval RagStrategies.

Record ParentChildSplitter : Type := { parentChunkSize : Z; childChunkSize : Z; childOverlap : Z }.

Definition mk_splitter (p c o : option Z) : ParentChildSplitter :=
  {| parentChunkSize := default 1000 p; childChunkSize := default 200 c; childOverlap := default 50 o |}.

Record ParentChildSplitResult : Type := { parentChunks : list DocumentChunk; childChunks : list DocumentChunk }.

(** [s.slice(a, b)]: negative positions count from the end. *)
Definition slice_between (s : string) (a b : Z) : string :=
  let n := str_length s in
  let at_ i := Z.to_nat (if i <? 0 then Z.max 0 (n + i) else Z.min i n) in
  of_chars (take (at_ b - at_ a) (drop (at_ a) (chars s))).

(** [{ ...metadata, k: v }] *)
Definition spread (md : obj) (fields : obj) : obj := fold_left (fun o f => obj_set o f.1 f.2) fields md.

Section Splitter.
Context (self : ParentChildSplitter) (doc : Document).

Definition parent_id (i : nat) : string := doc_id doc +:+ "_parent_" +:+ Z_to_string (Z.of_nat i).

Definition parent_chunk (i : nat) (content : string) : DocumentChunk := {|
  chunk_id := parent_id i; parentId := doc_id doc; chunk_content := content; embedding := None;
  chunk_metadata := spread (doc_metadata doc) [("isParent", VBool true); ("parentIndex", VNum (num_of_Z (Z.of_nat i)))];
  chunk_provenance := None |}.

Definition child_chunk (parent : DocumentChunk) (i : nat) (content : string) : DocumentChunk := {|
  chunk_id := chunk_id parent +:+ "_child_" +:+ Z_to_string (Z.of_nat i); parentId := chunk_id parent;
  chunk_content := content; embedding := None;
  chunk_metadata := spread (doc_metadata doc) [("isChild", VBool true); ("parentText", VStr (chunk_content parent))];
  chunk_provenance := None |}.

Definition child_step : Z := Z.max 1 (childChunkSize self - childOverlap self).

(** The text of the child that starts at a position. *)
Definition window (content : string) (start : Z) : string :=
  trim (slice_between content start (Z.min (start + childChunkSize self) (str_length content))).

(** The loop over the children of a parent; the characters left bound its iterations. *)
Fixpoint children (parent : DocumentChunk) (fuel : nat) (start : Z) (i : nat) : list DocumentChunk :=
  match fuel with
  | O => []
  | S fuel' =>
      if start <? str_length (chunk_content parent) then
        let text := window (chunk_content parent) start in
        (if str_is_empty text then [] else [child_chunk parent i text]) ++
        children parent fuel' (start + child_step) (S i)
      else []
  end.

Definition children_of (parent : DocumentChunk) : list DocumentChunk :=
  children parent (Z.to_nat (str_length (chunk_content parent))) 0 O.

(** The loop over the parents. *)
Fixpoint parents (raw : string) (fuel : nat) (start : Z) (i : nat) : option (list DocumentChunk) :=
  if start <? str_length raw then
    match fuel with
    | O => None
    | S fuel' =>
        let content := trim (slice_between raw start (Z.min (start + parentChunkSize self) (str_length raw))) in
        cons (parent_chunk i content) <$> parents raw fuel' (start + parentChunkSize self) (S i)
    end
  else Some [].

Definition splitParentChild : option ParentChildSplitResult :=
  let raw := rawContent doc in
  if str_is_empty (trim raw) then Some {| parentChunks := []; childChunks := [] |}
  else
    ps ← parents raw (Z.to_nat (str_length raw)) 0 O;
    Some {| parentChunks := ps; childChunks := concat (map children_of ps) |}.

Definition splitDocument : option (list DocumentChunk) := childChunks <$> splitParentChild.

(** ** What splitting keeps *)

Context (Hparent : 0 < parentChunkSize self).

(** The fuel is enough. *)
Lemma parents_total raw fuel start i :
  0 <= start -> str_length raw - start <= Z.of_nat fuel -> is_Some (parents raw fuel start i).
Proof using Hparent.
  revert start i. induction fuel as [|fuel IH]; intros start i Hs Hf; cbn [parents];
    destruct (Z.ltb_spec start (str_length raw)); eauto; [lia|].
  apply fmap_is_Some, IH; lia.
Qed.

Lemma slice_chars s a b :
  0 <= a -> a <= b -> b <= str_length s ->
  chars (slice_between s a b) = take (Z.to_nat (b - a)) (drop (Z.to_nat a) (chars s)).
Proof.
  intros Ha Hab Hb. unfold slice_between. rewrite chars_of_chars.
  rewrite !(proj2 (Z.ltb_ge _ _)) by lia. rewrite !Z.min_l by lia. by rewrite Z2Nat.inj_sub.
Qed.

(** The raw texts of the parents put together are the rest of the document. *)
Lemma parents_cover raw fuel start i ps :
  0 <= start -> parents raw fuel start i = Some ps ->
  exists slices, concat (map (fun s => chars s) slices) = drop (Z.to_nat start) (chars raw) /\
    map chunk_content ps = map trim slices /\ Forall (fun s => 0 < str_length s <= parentChunkSize self) slices.
Proof using Hparent.
  revert start i ps. induction fuel as [|fuel IH]; intros start i ps Hs; cbn [parents];
    destruct (Z.ltb_spec start (str_length raw)) as [Hlt|Hge]; try done.
  1,3: intros [= <-]; exists []; simpl; rewrite drop_ge; [done|rewrite str_length_chars in Hge; lia].
  intros (ps' & Hps & ->)%fmap_Some. destruct (IH (start + parentChunkSize self) (S i) ps' ltac:(lia) Hps) as (slices & Hc & Hm & Hl).
  set (e := Z.min (start + parentChunkSize self) (str_length raw)) in *.
  assert (start < e <= str_length raw /\ e <= start + parentChunkSize self) as He by (unfold e; lia).
  assert (chars (slice_between raw start e) = take (Z.to_nat (e - start)) (drop (Z.to_nat start) (chars raw))) as Hsl
    by (apply slice_chars; lia).
  exists (slice_between raw start e :: slices). simpl. rewrite Hc, Hm, Hsl. split_and!; [|done|].
  - rewrite <- (take_drop (Z.to_nat (e - start)) (drop (Z.to_nat start) (chars raw))) at 2. f_equal. rewrite drop_drop.
    unfold e. destruct (Z.le_gt_cases (start + parentChunkSize self) (str_length raw)).
    + f_equal. lia.
    + rewrite !drop_ge; [done|rewrite str_length_chars in *; lia..].
  - constructor; [|done]. rewrite str_length_chars, Hsl, length_take, length_drop. rewrite str_length_chars in He. lia.
Qed.

Context (Hchild : 0 < childChunkSize self) (Hoverlap : 0 <= childOverlap self).

(** The child that starts at the [k]-th step, where its text is not blank. *)
Lemma children_at parent fuel start i k :
  0 <= start -> str_length (chunk_content parent) - start <= Z.of_nat fuel ->
  start + Z.of_nat k * child_step < str_length (chunk_content parent) ->
  let text := window (chunk_content parent) (start + Z.of_nat k * child_step) in
  text <> EmptyString -> child_chunk parent (i + k) text ∈ children parent fuel start i.
Proof using Type.
  assert (1 <= child_step) as Hstep by (unfold child_step; lia).
  cbv zeta. revert start i k. induction fuel as [|fuel IH]; intros start i k Hs Hf Hk Ht; cbn [children]; [nia|].
  rewrite (proj2 (Z.ltb_lt _ _)) by nia. rewrite elem_of_app. destruct k as [|k].
  - left. replace (start + Z.of_nat 0 * child_step) with start in * by lia. rewrite Nat.add_0_r.
    destruct (window (chunk_content parent) start); [done|]. by left.
  - right. replace (start + Z.of_nat (S k) * child_step) with (start + child_step + Z.of_nat k * child_step) in * by lia.
    replace (i + S k)%nat with (S i + k)%nat by lia. apply IH; [lia|lia|done|done].
Qed.

Lemma children_from parent fuel start i c :
  c ∈ children parent fuel start i ->
  exists k j, c = child_chunk parent j (window (chunk_content parent) k) /\ window (chunk_content parent) k <> EmptyString.
Proof.
  revert start i. induction fuel as [|fuel IH]; intros start i; cbn [children]; [by intros ?%elem_of_nil|].
  destruct (start <? _); [|by intros ?%elem_of_nil]. rewrite elem_of_app. intros [H|H]; [|by eapply IH].
  destruct (window (chunk_content parent) start) eqn:Hw; [by apply elem_of_nil in H|].
  apply list_elem_of_singleton in H. exists start, i. by rewrite Hw.
Qed.

Lemma trim_length s : str_length (trim s) <= str_length s.
Proof.
  unfold trim. rewrite length_of_chars, str_length_chars, length_rev.
  assert (forall l, (length (drop_while is_space l) <= length l)%nat) as H.
  { induction l as [|c l IH]; simpl; [done|]. destruct (is_space c); simpl; lia. }
  pose proof (H (chars s)). pose proof (H (rev (drop_while is_space (chars s)))) as H2. rewrite length_rev in H2. lia.
Qed.

Lemma slice_length s a b : str_length (slice_between s a b) <= Z.max 0 (b - a) \/ a < 0 \/ b < 0.
Proof.
  destruct (Z.lt_ge_cases a 0); [auto|]. destruct (Z.lt_ge_cases b 0); [auto|]. left.
  unfold slice_between. rewrite length_of_chars, length_take. rewrite !(proj2 (Z.ltb_ge _ _)) by lia. lia.
Qed.

(** Every position of a parent's text is within the reach of a child. *)
Lemma children_cover parent i :
  0 <= i < str_length (chunk_content parent) ->
  exists start, start <= i < start + childChunkSize self /\
    (window (chunk_content parent) start = EmptyString \/
     exists j, child_chunk parent j (window (chunk_content parent) start) ∈ children_of parent).
Proof using Hchild Hoverlap.
  intros Hi. assert (1 <= child_step <= childChunkSize self) as Hstep by (unfold child_step; lia).
  pose proof (Z.div_mod i child_step ltac:(lia)) as Hdm. pose proof (Z.mod_pos_bound i child_step ltac:(lia)) as Hmod.
  assert (0 <= i / child_step) as Hq by (apply Z.div_pos; lia).
  exists (i / child_step * child_step). split; [lia|].
  destruct (decide (window (chunk_content parent) (i / child_step * child_step) = EmptyString)) as [|Hw]; [by left|right].
  pose proof (children_at parent (Z.to_nat (str_length (chunk_content parent))) 0 O (Z.to_nat (i / child_step))) as H.
  cbv zeta in H. rewrite (Z2Nat.id (i / child_step)), !Z.add_0_l in H by done.
  exists (0 + Z.to_nat (i / child_step))%nat. apply H; [lia|lia|lia|done].
Qed.

Lemma window_bound content start : str_length (window content start) <= childChunkSize self \/ start < 0.
Proof using Hchild.
  destruct (Z.lt_ge_cases start 0); [auto|]. left. unfold window. etransitivity; [apply trim_length|].
  destruct (slice_length content start (Z.min (start + childChunkSize self) (str_length content))) as [H1|[H1|H1]]; [lia|lia|].
  unfold str_length in H1. lia.
Qed.
End Splitter.

Lemma parents_are (self : ParentChildSplitter) doc raw fuel start i ps :
  parents self doc raw fuel start i = Some ps ->
  forall p, p ∈ ps -> exists k, p = parent_chunk doc k (chunk_content p).
Proof.
  revert start i ps. induction fuel as [|fuel IH]; intros start i ps; cbn [parents];
    destruct (start <? _); try done.
  1,3: by intros [= <-] p ?%elem_of_nil.
  intros (ps' & Hps & ->)%fmap_Some p [->|Hp]%elem_of_cons; [by eexists|by eapply IH].
Qed.

Lemma children_start (self : ParentChildSplitter) doc parent fuel start i c :
  0 <= start -> c ∈ children self doc parent fuel start i ->
  exists k j, 0 <= k /\ c = child_chunk doc parent j (window self (chunk_content parent) k) /\ chunk_content c <> EmptyString.
Proof.
  revert start i. induction fuel as [|fuel IH]; intros start i Hs; cbn [children]; [by intros ?%elem_of_nil|].
  destruct (start <? _); [|by intros ?%elem_of_nil]. rewrite elem_of_app. intros [H|H].
  - destruct (window self (chunk_content parent) start) eqn:Hw; [by apply elem_of_nil in H|].
    apply list_elem_of_singleton in H. exists start, i. rewrite Hw. split_and!; [done|done|by subst].
  - eapply IH; [|exact H]. unfold child_step. lia.
Qed.

(** Splitting loses no text.  With positive sizes and an overlap that is not
    negative the splitter ends on every document; the parents are the trimmed pieces
    of the document, which put together are the whole of it, each at most a parent's
    size; a child is a piece of one parent, not blank, at most a child's size, and
    carries that parent's id and text; and every character of every parent is within
    a child, unless all that child could hold is blank. *)
Theorem splitting_loses_no_text self doc :
  0 < parentChunkSize self -> 0 < childChunkSize self -> 0 <= childOverlap self ->
  str_is_empty (trim (rawContent doc)) = false ->
  exists r slices, splitParentChild self doc = Some r /\
    concat (map (fun s => chars s) slices) = chars (rawContent doc) /\
    map chunk_content (parentChunks r) = map trim slices /\
    Forall (fun s => 0 < str_length s <= parentChunkSize self) slices /\
    (forall c, c ∈ childChunks r -> exists p, p ∈ parentChunks r /\ parentId c = chunk_id p /\
       meta_string (chunk_metadata c) "parentText" = Some (chunk_content p) /\
       (exists k, chunk_content c = window self (chunk_content p) k) /\
       0 < str_length (chunk_content c) <= childChunkSize self) /\
    (forall p i, p ∈ parentChunks r -> 0 <= i < str_length (chunk_content p) ->
       exists start, start <= i < start + childChunkSize self /\
         (window self (chunk_content p) start = EmptyString \/
          exists c, c ∈ childChunks r /\ parentId c = chunk_id p /\
            chunk_content c = window self (chunk_content p) start)).
Proof.
  intros Hp Hc Ho Hraw. unfold splitParentChild. rewrite Hraw.
  destruct (parents_total self doc Hp (rawContent doc) (Z.to_nat (str_length (rawContent doc))) 0 O) as [ps Hps];
    [lia|unfold str_length; lia|].
  destruct (parents_cover self doc Hp _ _ _ _ _ (Z.le_refl 0) Hps) as (slices & H1 & H2 & H3).
  rewrite Hps. exists {| parentChunks := ps; childChunks := concat (map (children_of self doc) ps) |}, slices.
  split_and!; [done|done|done|done| |]; simpl.
  - intros c Hin. apply list_elem_of_In, in_concat in Hin as (l & Hl & Hin). apply in_map_iff in Hl as (p & <- & Hpin).
    apply list_elem_of_In in Hin, Hpin. unfold children_of in Hin.
    destruct (children_start self doc p _ _ _ _ (Z.le_refl 0) Hin) as (k & j & Hk & -> & Hne). exists p.
    split_and!; [done|done| |by exists k| |].
    + unfold meta_string. simpl. by rewrite obj_get_set, bool_decide_true.
    + simpl in Hne |- *. destruct (window self (chunk_content p) k); [done|]. unfold str_length. simpl. lia.
    + simpl. destruct (window_bound self Hc (chunk_content p) k); lia.
  - intros p i Hin Hi. destruct (children_cover self doc Hc Ho p i Hi) as (start & Hst & [Hw|(j & Hj)]);
      exists start; (split; [done|]); [by left|right].
    exists (child_chunk doc p j (window self (chunk_content p) start)). split_and!; [|done|done].
    apply list_elem_of_In, in_concat. exists (children_of self doc p). split; [|by apply list_elem_of_In].
    apply in_map_iff. exists p. split; [done|by apply list_elem_of_In].
Qed.

Definition demo_document : Document := {|
  doc_id := "d"; title := "Policy"; rawContent := "Refunds take five days. Shipping is free."; chunks := [];
  doc_metadata := [("tenant", VStr "acme")]; timestamp := None |}.

Definition demo_splitter : ParentChildSplitter := {| parentChunkSize := 24; childChunkSize := 10; childOverlap := 4 |}.

Lemma splitting_loses_no_text_witness :
  exists r, splitParentChild demo_splitter demo_document = Some r /\
    map chunk_content (parentChunks r) = ["Refunds take five days."; "Shipping is free."] /\
    map chunk_content (childChunks r) =
      ["Refunds ta"; "s take fiv"; "five days"; "days."; "Shipping i"; "ng is free"; "free."] /\
    forall c, c ∈ childChunks r -> exists p, p ∈ parentChunks r /\ parentId c = chunk_id p.
Proof.
  destruct (splitting_loses_no_text demo_splitter demo_document eq_refl eq_refl ltac:(done) eq_refl)
    as (r & slices & Hr & _ & _ & _ & Hc & _).
  exists r. split; [done|]. vm_compute in Hr. injection Hr as <-. split; [reflexivity|]. split; [reflexivity|].
  intros c Hin. destruct (Hc c Hin) as (p & H1 & H2 & _). by exists p.
Defined.

(** A parent size of zero keeps the loop at its first position. *)
Example zero_parent_size_never_ends fuel :
  parents {| parentChunkSize := 0; childChunkSize := 10; childOverlap := 4 |} demo_document (rawContent demo_document) fuel 0 0 = None.
Proof.
  assert (forall i, parents {| parentChunkSize := 0; childChunkSize := 10; childOverlap := 4 |} demo_document
    (rawContent demo_document) fuel 0 i = None) as H; [|apply H].
  induction fuel as [|fuel IH]; intros i; [done|]. cbn [parents parentChunkSize]. change (0 + 0) with 0. rewrite IH. done.
Qed.

End ParentChild.
