(* ===== verification/EmbeddingCache.v ===== *)
(** * Cached embeddings (packages/rag/src/providers/cached-embedding.provider.ts)

    A provider in front of another that remembers vectors by a digest of namespace,
    operation and text, in memory with eviction of the least recently used, or in a
    store.  One call at a time: the requests in flight that concurrent calls would
    join are not represented. *)

From Stdlib Require Import Ascii.
From S2P Require Export HybridStore.

#[local] Open Scope string_scope.
#[local] Open Scope list_scope.
#[local] Open Scope Z_scope.
#[local] Open Scope eff_scope.

Module EmbeddingCache.
Import Consensus Retrieval HybridStore.

(** The in-memory cache, least recently used first. *)
Definition Cache : Type := list (string * list Q).

Inductive operation : Type := OpQuery | OpDocument.
Definition operation_name (o : operation) : string := match o with OpQuery => "query" | OpDocument => "document" end.

Inductive event : Type :=
| AskedQuery (text : string)
| AskedDocuments (texts : list string)
| StoreRead (key : string)
| StoreWritten (key : string).

Section Cached.
Context {W : Type}.
Notation World := (Cache * W)%type.

(** What the cache uses of a [StateStore]. *)
Record CacheStore : Type := {
  cs_get : string -> W -> outcome error (option (list Q)) * W;
  cs_set : string -> list Q -> option num -> W -> outcome error unit * W;
}.

Record CachedEmbeddingProvider : Type := {
  ce_provider : @EmbeddingProvider W;
  ce_store : option CacheStore;
  ce_maxSize : nat;
  ce_ttlSeconds : option num;
  ce_cacheNamespace : string;
}.

Definition bad_ttl (ttl : option num) : bool :=
  match ttl with Some t => negb (is_finite t) || num_ltb t (num_of_Z 0) | None => false end.

Definition mk_cached (p : @EmbeddingProvider W) (st : option CacheStore) (maxSize ttl : option num) (ns : option string)
    : error + CachedEmbeddingProvider :=
  if bad_ttl ttl then
    inl (NativeErr "RangeError" ("CachedEmbeddingProvider: ttlSeconds must be a finite non-negative number, got " +:+
                                 num_to_string (default NNaN ttl)))
  else
    let n := default (num_of_Z 1000) maxSize in
    let size := default 0 (num_to_Z n) in
    if negb (is_some st) && negb (is_integer n && (0 <? size)) then
      inl (NativeErr "RangeError" ("CachedEmbeddingProvider: maxSize must be a positive integer, got " +:+ num_to_string n))
    else inr {| ce_provider := p; ce_store := st; ce_maxSize := Z.to_nat size; ce_ttlSeconds := ttl;
                ce_cacheNamespace := default "default" ns |}.

Notation M := (M error event World).

(** SHA-256 in hexadecimal. *)
Context (digest : string -> string) (self : CachedEmbeddingProvider).

Definition nul : string := String "000"%char EmptyString.

Definition cacheKey (o : operation) (text : string) : string :=
  digest (ce_cacheNamespace self +:+ nul +:+ operation_name o +:+ nul +:+ text).

(** A call of the wrapped provider or of the store, which act on the rest of the world. *)
Definition outside {A} (f : W -> outcome error A * W) : M A :=
  lift (fun w => let '(o, w') := f w.2 in (o, (w.1, w'))).

Definition set_cache (c : Cache) : M unit := modify (fun w => (c, w.2)).

Definition getFromCache (key : string) : M (option (list Q)) :=
  match ce_store self with
  | Some st => emit (StoreRead key) ;; outside (cs_get st key)
  | None =>
      c <- ask fst ;;
      match js_get c key with
      | Some v => set_cache (js_set (js_delete c key) key v) ;; ret (Some v)
      | None => ret None
      end
  end.

(** Makes room for a new key. *)
Definition evict (key : string) (c : Cache) : Cache :=
  if (ce_maxSize self <=? length c)%nat && negb (js_has c key) then
    match c with
    | [] => c
    | (oldest, _) :: _ => js_delete c oldest
    end
  else c.

Definition putInCache (key : string) (v : list Q) : M unit :=
  match ce_store self with
  | Some st => emit (StoreWritten key) ;; outside (cs_set st key v (ce_ttlSeconds self))
  | None => c <- ask fst ;; set_cache (js_set (evict key c) key v)
  end.

Definition embedQuery (text : string) : M (list Q) :=
  let key := cacheKey OpQuery text in
  cached <- getFromCache key ;;
  match cached with
  | Some v => ret v
  | None =>
      emit (AskedQuery text) ;;
      v <- outside (HybridStore.embedQuery (ce_provider self) text) ;;
      putInCache key v ;;
      ret v
  end.

(** *** A batch of texts *)

(** The texts still to be embedded: their keys, in order, each with its positions. *)
Definition Pending : Type := list (string * list nat).

Definition add_pending (p : Pending) (key : string) (i : nat) : Pending :=
  js_set p key (default [] (js_get p key) ++ [i]).

Fixpoint lookups (keys : list string) (i : nat) (results : list (option (list Q))) (p : Pending)
    : M (list (option (list Q)) * Pending) :=
  match keys with
  | [] => ret (results, p)
  | key :: rest =>
      cached <- getFromCache key ;;
      match cached with
      | Some v => lookups rest (S i) (results ++ [Some v]) p
      | None => lookups rest (S i) (results ++ [None]) (add_pending p key i)
      end
  end.

Definition wrong_count (got wanted : nat) : error :=
  NativeErr "Error" ("CachedEmbeddingProvider: underlying provider returned " +:+ Z_to_string (Z.of_nat got) +:+
                     " embedding(s) for " +:+ Z_to_string (Z.of_nat wanted) +:+ " uncached text(s).").

(** Every key's own chain caches its vector; the first failure is what the call reports. *)
Fixpoint put_all (es : list (string * list Q)) (failure : option error) : M (option error) :=
  match es with
  | [] => ret failure
  | (key, v) :: rest =>
      r <- tried (putInCache key v) ;;
      put_all rest (match failure, r with None, inr e => Some e | _, _ => failure end)
  end.

Definition fill (results : list (option (list Q))) (x : list nat * list Q) : list (option (list Q)) :=
  fold_left (fun r i => <[i := Some x.2]> r) x.1 results.

Definition missing (i : nat) : error :=
  NativeErr "Error" ("CachedEmbeddingProvider: missing embedding at index " +:+ Z_to_string (Z.of_nat i)).

(** The results, or the first position without one. *)
Fixpoint all_results (i : nat) (rs : list (option (list Q))) : error + list (list Q) :=
  match rs with
  | [] => inr []
  | None :: _ => inl (missing i)
  | Some v :: rest => match all_results (S i) rest with inl e => inl e | inr vs => inr (v :: vs) end
  end.

Definition finish (rs : list (option (list Q))) : M (list (list Q)) :=
  match all_results 0 rs with inl e => throw e | inr vs => ret vs end.

(** The text of the first position of a pending key. *)
Definition first_text (texts : list string) (e : string * list nat) : string := nth (hd O e.2) texts EmptyString.

Definition request (texts : list string) (p : Pending) : M (list (list Q)) :=
  let uniqueTexts := map (first_text texts) p in
  emit (AskedDocuments uniqueTexts) ;;
  es <- outside (HybridStore.embedDocuments (ce_provider self) uniqueTexts) ;;
  if (length es =? length uniqueTexts)%nat then ret es else throw (wrong_count (length es) (length uniqueTexts)).

Definition embedDocuments (texts : list string) : M (list (list Q)) :=
  match texts with
  | [] => ret []
  | _ =>
      let* (results, p) := lookups (map (cacheKey OpDocument) texts) 0 [] [] in
      match p with
      | [] => finish results
      | _ =>
          es <- request texts p ;;
          failure <- put_all (zip (js_keys p) es) None ;;
          match failure with
          | Some e => throw e
          | None => finish (fold_left fill (zip (js_values p) es) results)
          end
      end
  end.

(** ** The operations on the cache *)

Lemma refresh_get (c : Cache) key v k :
  unique_keys c -> js_get c key = Some v -> js_get (js_set (js_delete c key) key v) k = js_get c k.
Proof.
  intros Hu Hv. rewrite js_get_set. case_bool_decide as H; [by subst|]. rewrite js_get_delete by done. by case_bool_decide.
Qed.

Lemma refresh_length (c : Cache) key v :
  unique_keys c -> js_get c key = Some v -> length (js_set (js_delete c key) key v) = length c.
Proof.
  intros Hu Hv. rewrite js_set_length. unfold js_has. rewrite js_get_delete, bool_decide_true by done. simpl.
  pose proof (js_delete_perm _ _ _ Hv) as Hp. apply Permutation_length in Hp. simpl in Hp. lia.
Qed.

Lemma evict_get c key k v : unique_keys c -> js_get (evict key c) k = Some v -> js_get c k = Some v.
Proof.
  intros Hu. unfold evict. destruct (_ && _); [|done]. destruct c as [|[k0 v0] c]; [done|].
  rewrite js_get_delete by done. by case_bool_decide.
Qed.

Lemma evict_keys c key : unique_keys c -> unique_keys (evict key c).
Proof. intros Hu. unfold evict. destruct (_ && _); [|done]. destruct c as [|[k0 v0] c]; auto. Qed.

(** The keys that are not cached, with their positions from [i] on. *)
Fixpoint pending (c : Cache) (keys : list string) (i : nat) (p : Pending) : Pending :=
  match keys with
  | [] => p
  | key :: rest => pending c rest (S i) (match js_get c key with Some _ => p | None => add_pending p key i end)
  end.

Lemma pending_ext c c' keys i p : (forall k, js_get c' k = js_get c k) -> pending c' keys i p = pending c keys i p.
Proof. intros H. revert i p. induction keys as [|k keys IH]; intros i p; simpl; [done|]. by rewrite H, IH. Qed.

(** The pending keys hold the positions of the keys not cached, and nothing else. *)
Record pending_ok (c : Cache) (keys : list string) (n : nat) (p : Pending) : Prop := {
  pend_keys : unique_keys p;
  pend_sound : forall k l, js_get p k = Some l -> l <> [] /\ forall i, i ∈ l -> keys !! i = Some k /\ js_get c k = None;
  pend_full : forall i k, (i < n)%nat -> keys !! i = Some k -> js_get c k = None -> exists l, js_get p k = Some l /\ i ∈ l;
}.

Lemma add_pending_ok c keys n p key :
  keys !! n = Some key -> js_get c key = None -> pending_ok c keys n p -> pending_ok c keys (S n) (add_pending p key n).
Proof.
  intros Hkey Hc [Hu Hs Hf]. unfold add_pending. split; [auto| |].
  - intros k l. rewrite js_get_set. case_bool_decide as Hk; [|apply Hs]. subst k. intros [= <-]. split; [by destruct (default _ _)|].
    intros i [Hi|Hi%list_elem_of_singleton]%elem_of_app; [|by subst].
    destruct (js_get p key) as [l|] eqn:Hl; simpl in Hi; [by apply (Hs key l)|by apply elem_of_nil in Hi].
  - intros i k Hi Hk Hn. rewrite js_get_set. case_bool_decide as Hkk.
    + subst k. eexists. split; [done|]. apply elem_of_app. destruct (decide (i = n)) as [->|]; [right; by left|left].
      destruct (Hf i key) as (l & Hl & Hin); [lia|done|done|]. by rewrite Hl.
    + apply Hf; [|done|done]. destruct (decide (i = n)) as [->|]; [congruence|lia].
Qed.

Lemma pending_spec c pre keys p :
  pending_ok c (pre ++ keys) (length pre) p ->
  pending_ok c (pre ++ keys) (length (pre ++ keys)) (pending c keys (length pre) p).
Proof.
  revert pre p. induction keys as [|key keys IH]; intros pre p H; simpl; [by rewrite app_nil_r in *|].
  specialize (IH (pre ++ [key])). rewrite <- app_assoc, length_app in IH. simpl in IH. rewrite Nat.add_comm in IH. simpl in IH.
  apply IH. assert ((pre ++ key :: keys) !! length pre = Some key) as Hk by (by rewrite list_lookup_middle).
  destruct (js_get c key) as [v|] eqn:Hc; [|by apply add_pending_ok]. destruct H as [Hu Hs Hf]. split; [done|done|].
  intros i k Hi Hk' Hn. apply Hf; [|done|done]. destruct (decide (i = length pre)) as [->|]; [congruence|lia].
Qed.

Lemma pending_start c keys : pending_ok c keys O [].
Proof. split; [auto|done|intros; lia]. Qed.

Lemma fill_length rs x : length (fill rs x) = length rs.
Proof. unfold fill. revert rs. induction x.1 as [|i l IH]; intros rs; simpl; [done|]. by rewrite IH, length_insert. Qed.

(** Filling sets the listed positions and leaves the others. *)
Lemma fill_lookup rs x j :
  fill rs x !! j = if bool_decide (j ∈ x.1 /\ (j < length rs)%nat) then Some (Some x.2) else rs !! j.
Proof.
  unfold fill. destruct x as [l v]. cbn [fst snd]. revert rs. induction l as [|i l IH]; intros rs; cbn [fold_left].
  { case_bool_decide as H; [|done]. destruct H as [H%elem_of_nil _]. done. }
  rewrite IH, length_insert. destruct (decide (i = j)) as [->|Hne].
  - destruct (decide (j < length rs)%nat) as [Hj|Hj].
    + rewrite list_lookup_insert_eq by done. repeat case_bool_decide; set_solver.
    + rewrite !lookup_ge_None_2 by (rewrite ?length_insert; lia). repeat case_bool_decide; tauto.
  - rewrite list_lookup_insert_ne by done. repeat case_bool_decide; set_solver.
Qed.

(** Filling all entries gives every position its target. *)
Lemma fill_all (target : nat -> list Q) xs rs j :
  (forall x i, x ∈ xs -> i ∈ x.1 -> x.2 = target i) ->
  (rs !! j = Some (Some (target j)) \/ ((j < length rs)%nat /\ exists x, x ∈ xs /\ j ∈ x.1)) ->
  fold_left fill xs rs !! j = Some (Some (target j)).
Proof.
  revert rs. induction xs as [|x xs IH]; intros rs Ht Hj; cbn [fold_left].
  { destruct Hj as [Hj|(_ & x & Hx%elem_of_nil & _)]; done. }
  apply IH; [intros y i Hy; apply Ht; by right|]. rewrite fill_length, fill_lookup. case_bool_decide as Hc.
  - left. rewrite (Ht x j); [done|left|apply Hc].
  - destruct Hj as [Hj|(Hlt & y & [->|Hy]%elem_of_cons & Hin)]; [by left|tauto|]. right. split; [done|]. by exists y.
Qed.

Lemma all_results_some i vs : all_results i (map Some vs) = inr vs.
Proof. revert i. induction vs as [|v vs IH]; intros i; simpl; [done|]. by rewrite IH. Qed.

Lemma zip_maps {A B C} (f : A -> B) (g : A -> C) l : zip (map f l) (map g l) = map (fun x => (f x, g x)) l.
Proof. induction l; simpl; congruence. Qed.

(** ** Transparency *)

Context (Hmemory : ce_store self = None) (Hsize : (0 < ce_maxSize self)%nat).
Context (Hdigest : forall a b, digest a = digest b -> a = b).
Context (fq fd : string -> list Q).

(** The wrapped provider embeds by functions of the text. *)
Context (Hquery : forall t w, (HybridStore.embedQuery (ce_provider self) t w).1 = Ret (fq t)).
Context (Hdocs : forall ts w, (HybridStore.embedDocuments (ce_provider self) ts w).1 = Ret (map fd ts)).

Lemma cacheKey_inj o1 t1 o2 t2 : cacheKey o1 t1 = cacheKey o2 t2 -> o1 = o2 /\ t1 = t2.
Proof using Hdigest.
  unfold cacheKey. intros H%Hdigest. apply (f_equal (fun s => chars s)) in H. rewrite !chars_app in H.
  apply app_inv_head in H. destruct o1, o2; simpl in H; simplify_eq; split; [done|by apply chars_inj|done|by apply chars_inj].
Qed.

Definition value_of (o : operation) (t : string) : list Q := match o with OpQuery => fq t | OpDocument => fd t end.

(** Every cached vector is the provider's, keys are unique and the bound is kept. *)
Record cache_ok (c : Cache) : Prop := {
  cache_keys : unique_keys c;
  cache_size : (length c <= ce_maxSize self)%nat;
  cache_value : forall o t v, js_get c (cacheKey o t) = Some v -> v = value_of o t;
}.

Lemma refresh_ok c key v : cache_ok c -> js_get c key = Some v -> cache_ok (js_set (js_delete c key) key v).
Proof.
  intros [Hu Hs Hv] Hg. split; [auto|by rewrite refresh_length|]. intros o t v'. rewrite refresh_get by done. apply Hv.
Qed.

Lemma get_wp key c w (Q : outcome error (option (list Q)) -> World -> list event -> Prop) :
  cache_ok c ->
  (forall c', cache_ok c' -> (forall k, js_get c' k = js_get c k) -> Q (Ret (js_get c key)) (c', w) []) ->
  wp (getFromCache key) (c, w) Q.
Proof using Hmemory.
  intros Hc HQ. unfold getFromCache, set_cache. rewrite Hmemory. wp_steps. simpl. destruct (js_get c key) as [v|] eqn:Hg.
  - wp_steps. apply HQ; [by apply refresh_ok|]. intros k. apply refresh_get; [apply Hc|done].
  - wp_steps. by apply HQ.
Qed.

Lemma evict_room c key v :
  unique_keys c -> (length c <= ce_maxSize self)%nat ->
  (length (js_set (evict key c) key v) <= ce_maxSize self)%nat.
Proof using Hsize.
  intros Hu Hl. rewrite js_set_length. unfold evict. destruct (Nat.leb_spec (ce_maxSize self) (length c)); cbn [andb].
  - destruct (js_has c key) eqn:Hh; cbn [negb]; [by rewrite Hh|]. destruct c as [|[k0 v0] c]; simpl in *; [lia|].
    rewrite bool_decide_true by done. destruct (js_has c key); lia.
  - destruct (js_has c key); lia.
Qed.

Lemma put_wp o t c w (Q : outcome error unit -> World -> list event -> Prop) :
  cache_ok c -> (forall c', cache_ok c' -> Q (Ret tt) (c', w) []) ->
  wp (putInCache (cacheKey o t) (value_of o t)) (c, w) Q.
Proof using Hmemory Hsize Hdigest.
  intros [Hu Hs Hv] HQ. unfold putInCache, set_cache. rewrite Hmemory. wp_steps. apply HQ. split.
  - apply unique_keys_set. by apply evict_keys.
  - by apply evict_room.
  - intros o' t' v'. rewrite js_get_set. case_bool_decide as Hk.
    + intros [= <-]. by apply cacheKey_inj in Hk as [-> ->].
    + intros H. by apply Hv, (evict_get c (cacheKey o t)).
Qed.

(** *** A batch *)

Lemma lookups_wp keys i results p c w :
  cache_ok c ->
  wp (lookups keys i results p) (c, w) (fun o w' l =>
    o = Ret (results ++ map (js_get c) keys, pending c keys i p) /\ cache_ok w'.1 /\ w'.2 = w /\ l = []).
Proof using Hmemory.
  revert i results p c. induction keys as [|key keys IH]; intros i results p c Hc; cbn [lookups map pending].
  { wp_step. by rewrite app_nil_r. }
  wp_step. apply get_wp; [done|]. intros c' Hc' Hget. cbn [wp_cont].
  assert (map (js_get c') keys = map (js_get c) keys) as Hmap by (apply map_ext; intros; apply Hget).
  destruct (js_get c key) as [v|]; (eapply wp_mono; [by apply IH|]); intros o w' l (-> & Hw & Hw2 & ->);
    rewrite Hmap, (pending_ext c c') by done; by rewrite <- app_assoc.
Qed.

Lemma put_all_wp (ts : list string) c w :
  cache_ok c ->
  wp (put_all (map (fun t => (cacheKey OpDocument t, fd t)) ts) None) (c, w)
    (fun o w' l => o = Ret None /\ cache_ok w'.1 /\ l = []).
Proof using Hmemory Hsize Hdigest.
  revert c. induction ts as [|t ts IH]; intros c Hc; cbn [put_all map]; [by wp_step|].
  wp_step. wp_step. apply (put_wp OpDocument); [done|]. intros c' Hc'. cbn [wp_cont].
  eapply wp_mono; [by apply IH|]. by intros o w' l (-> & ? & ->).
Qed.

(** What a pending entry stands for: the key and position of its first text. *)
Lemma pending_text c texts p e :
  pending_ok c (map (cacheKey OpDocument) texts) (length texts) p -> e ∈ p ->
  cacheKey OpDocument (first_text texts e) = e.1 /\ first_text texts e ∈ texts /\ js_get c e.1 = None /\
  forall i, i ∈ e.2 -> nth i texts EmptyString = first_text texts e.
Proof using Hdigest.
  intros [Hu Hs _] He. destruct e as [k l]. assert (js_get p k = Some l) as Hk by by apply elem_js_get.
  destruct (Hs k l Hk) as [Hne Hl]. unfold first_text. simpl. destruct l as [|i0 l]; [done|]. simpl.
  assert (forall i, i ∈ i0 :: l -> texts !! i = Some (nth i texts EmptyString) /\
    cacheKey OpDocument (nth i texts EmptyString) = k) as Hnth.
  { intros i Hi. destruct (Hl i Hi) as [Hki _]. rewrite list_lookup_fmap in Hki. apply fmap_Some in Hki as (t & Ht & ->).
    by rewrite (nth_lookup_Some _ _ _ _ Ht). }
  destruct (Hnth i0 ltac:(left)) as [H0 Hk0]. split_and!; [done|by eapply list_elem_of_lookup_2|apply (Hl i0); left|].
  intros i Hi. destruct (Hnth i Hi) as [_ Hki]. rewrite <- Hk0 in Hki. by apply cacheKey_inj in Hki as [_ ->].
Qed.

(** The state of a batch once its keys were looked up. *)
Section Batch.
Context (texts : list string) (c : Cache) (Hc : cache_ok c).
Notation keys := (map (cacheKey OpDocument) texts).

Lemma batch_pending : pending_ok c keys (length texts) (pending c keys 0 []).
Proof.
  pose proof (pending_spec c [] keys [] (pending_start c keys)) as H. cbn [app length] in H. by rewrite length_map in H.
Qed.

Lemma cached_at i t : texts !! i = Some t -> map (js_get c) keys !! i = Some (js_get c (cacheKey OpDocument t)).
Proof. intros Ht. by rewrite map_map, list_lookup_fmap, Ht. Qed.

Lemma pending_at i t :
  texts !! i = Some t -> js_get c (cacheKey OpDocument t) = None ->
  exists l, (cacheKey OpDocument t, l) ∈ pending c keys 0 [] /\ i ∈ l.
Proof.
  intros Ht Hn. destruct batch_pending as [_ _ Hf].
  destruct (Hf i (cacheKey OpDocument t)) as (l & Hl & Hi); [by eapply lookup_lt_Some|by rewrite list_lookup_fmap, Ht|done|].
  exists l. split; [by apply js_get_elem|done].
Qed.

Lemma results_of rs :
  length rs = length texts -> (forall i t, texts !! i = Some t -> rs !! i = Some (Some (fd t))) ->
  rs = map Some (map fd texts).
Proof.
  intros Hl Hrs. apply list_eq_same_length with (n := length texts); [by rewrite !length_map|done|].
  intros i x y Hi Hx Hy. rewrite map_map, list_lookup_fmap in Hy. apply fmap_Some in Hy as (t & Ht & ->).
  rewrite (Hrs i t Ht) in Hx. by injection Hx as <-.
Qed.

Lemma cached_value t v : js_get c (cacheKey OpDocument t) = Some v -> v = fd t.
Proof using Hc. by apply (cache_value c Hc OpDocument t v). Qed.

Lemma nothing_pending : pending c keys 0 [] = [] -> map (js_get c) keys = map Some (map fd texts).
Proof using Hc.
  intros Hp. apply results_of; [by rewrite !length_map|]. intros i t Ht. rewrite (cached_at i t Ht). f_equal.
  destruct (js_get c (cacheKey OpDocument t)) as [v|] eqn:Hv; [by rewrite (cached_value t v)|].
  destruct (pending_at i t Ht Hv) as (l & Hl & _). rewrite Hp in Hl. by apply elem_of_nil in Hl.
Qed.

(** The texts asked for. *)
Notation uniq := (map (first_text texts) (pending c keys 0 [])).

Lemma uniq_keys : map (cacheKey OpDocument) uniq = js_keys (pending c keys 0 []).
Proof using Hdigest.
  rewrite map_map. apply map_ext_in. intros e He%list_elem_of_In. by destruct (pending_text _ _ _ e batch_pending He) as [-> _].
Qed.

Lemma uniq_NoDup : NoDup uniq.
Proof using Hdigest. apply (NoDup_fmap_1 (cacheKey OpDocument)). change (NoDup (map (cacheKey OpDocument) uniq)). rewrite uniq_keys. apply batch_pending. Qed.

Lemma elem_of_uniq t : t ∈ uniq <-> t ∈ texts /\ js_get c (cacheKey OpDocument t) = None.
Proof using Hdigest.
  split.
  - intros (e & -> & He)%list_elem_of_fmap. by destruct (pending_text _ _ _ e batch_pending He) as (-> & ? & ? & _).
  - intros [Hin Hn]. apply list_elem_of_lookup_1 in Hin as [i Hi]. destruct (pending_at i t Hi Hn) as (l & Hl & Hil).
    apply list_elem_of_fmap. exists (cacheKey OpDocument t, l). split; [|done].
    destruct (pending_text _ _ _ _ batch_pending Hl) as (_ & _ & _ & Hnth). rewrite <- (Hnth i Hil).
    by rewrite (nth_lookup_Some _ _ _ _ Hi).
Qed.

Lemma uniq_entries : zip (js_keys (pending c keys 0 [])) (map fd uniq) = map (fun t => (cacheKey OpDocument t, fd t)) uniq.
Proof using Hdigest.
  rewrite <- uniq_keys. rewrite zip_maps. done.
Qed.

Lemma filled_results :
  fold_left fill (zip (js_values (pending c keys 0 [])) (map fd uniq)) (map (js_get c) keys) = map Some (map fd texts).
Proof using Hdigest Hc.
  rewrite map_map. change (js_values ?p) with (map snd p). rewrite zip_maps. apply results_of.
  { generalize (map (fun x => (x.2, fd (first_text texts x))) (pending c keys 0 [])). intros xs.
    replace (length texts) with (length (map (js_get c) keys)) by by rewrite !length_map. generalize (map (js_get c) keys).
    induction xs as [|x xs IH]; intros rs; cbn [fold_left]; [done|]. by rewrite IH, fill_length. }
  intros i t Ht. rewrite <- (nth_lookup_Some _ _ EmptyString _ Ht). apply (fill_all (fun i => fd (nth i texts EmptyString))).
  - intros x j (e & -> & He)%list_elem_of_fmap Hj. simpl in *.
    destruct (pending_text _ _ _ e batch_pending He) as (_ & _ & _ & Hnth). by rewrite (Hnth j Hj).
  - rewrite (cached_at i t Ht), (nth_lookup_Some _ _ EmptyString _ Ht).
    destruct (js_get c (cacheKey OpDocument t)) as [v|] eqn:Hv; [left; by rewrite (cached_value t v)|right].
    split; [rewrite !length_map; by eapply lookup_lt_Some|]. destruct (pending_at i t Ht Hv) as (l & Hl & Hil).
    exists (l, fd (first_text texts (cacheKey OpDocument t, l))). split; [|done].
    apply list_elem_of_fmap. by exists (cacheKey OpDocument t, l).
Qed.
End Batch.

(** The cache is transparent.  In front of a provider that embeds by a function
    of the text, from any state the cache can be in, a batch gets exactly the
    provider's vectors, in the order of its texts, repeated texts included; the
    provider is asked at most once, for the uncached texts, each once; and the cache
    stays within its size and holds only what the provider answered.  The same
    provider's query vectors never pass for document vectors. *)
Theorem cache_is_transparent texts c w :
  cache_ok c ->
  wp (embedDocuments texts : M _) (c, w) (fun o w' l =>
    o = Ret (map fd texts) /\ cache_ok w'.1 /\
    (l = [] \/ exists ts, l = [AskedDocuments ts] /\ NoDup ts /\
       forall t, t ∈ ts <-> t ∈ texts /\ js_get c (cacheKey OpDocument t) = None)).
Proof using Hmemory Hsize Hdigest Hdocs.
  intros Hc. destruct texts as [|t0 ts0] eqn:Htexts; [cbn [embedDocuments]; wp_step; by auto|].
  unfold embedDocuments. rewrite <- Htexts. clear t0 ts0 Htexts.
  wp_step. eapply wp_mono; [by apply lookups_wp|]. intros o w1 l (-> & Hc1 & Hw1 & ->). cbn [wp_cont app].
  pose proof (nothing_pending texts c Hc) as Hnone. pose proof (uniq_NoDup texts c) as Hnd.
  pose proof (elem_of_uniq texts c) as Huniq. pose proof (uniq_entries texts c) as Hent.
  pose proof (filled_results texts c Hc) as Hfill. destruct (pending c _ 0 []) as [|e0 p0] eqn:Hp.
  { rewrite (Hnone eq_refl). unfold finish. rewrite all_results_some. wp_step. auto. }
  rewrite <- Hp in *. clear e0 p0 Hp. set (p := pending c _ 0 []) in *. set (uniq := map (first_text texts) p) in *.
  wp_step. unfold request. fold uniq. wp_step. wp_step. wp_step. unfold outside. wp_step.
  pose proof (Hdocs uniq w1.2) as Hans. destruct (HybridStore.embedDocuments (ce_provider self) uniq w1.2) as [o2 w2].
  simpl in Hans. subst o2. injection Hext as <- <-. cbn [wp_cont]. rewrite length_map, Nat.eqb_refl. wp_step. cbn [wp_cont].
  wp_step. rewrite Hent. eapply wp_mono; [by apply put_all_wp|]. intros o w3 l (-> & Hc3 & ->). cbn [wp_cont app].
  unfold finish. rewrite Hfill, all_results_some. wp_step. split_and!; [done|done|right; eauto].
Qed.

(** A query is answered like the provider would, and leaves the cache as good. *)
Lemma query_is_transparent t c w :
  cache_ok c -> wp (embedQuery t : M _) (c, w) (fun o w' l => o = Ret (fq t) /\ cache_ok w'.1).
Proof using Hmemory Hsize Hdigest Hquery.
  intros Hc. unfold embedQuery. wp_step. apply get_wp; [done|]. intros c' Hc' _. cbn [wp_cont].
  destruct (js_get c (cacheKey OpQuery t)) as [v|] eqn:Hv; [wp_step; split; [by rewrite (cache_value c Hc OpQuery t v)|done]|].
  unfold outside. wp_step. wp_step. wp_step. wp_step. pose proof (Hquery t w) as Hans. simpl in *.
  destruct (HybridStore.embedQuery (ce_provider self) t w) as [o2 w2]. simpl in Hans. subst o2. injection Hext as <- <-.
  cbn [wp_cont]. wp_step. apply (put_wp OpQuery); [done|]. intros c2 Hc2. cbn [wp_cont]. by wp_step.
Qed.

End Cached.

(** ** A small cache *)

Definition demo_embedding : @EmbeddingProvider nat := {|
  provider_name := "demo";
  HybridStore.embedQuery := fun t w => (Ret [inject_Z (str_length t)], S w);
  HybridStore.embedDocuments := fun ts w => (Ret (map (fun t => [inject_Z (str_length t); 1%Q]) ts), S w);
|}.

Definition demo_cached : @CachedEmbeddingProvider nat := {|
  ce_provider := demo_embedding; ce_store := None; ce_maxSize := 2; ce_ttlSeconds := None; ce_cacheNamespace := "default" |}.

Definition demo_batch : list string := ["refund"; "ship"; "refund"; "pay"].

Lemma cache_is_transparent_witness :
  let r := embedDocuments (fun s => s) demo_cached demo_batch ([], 0%nat) in
  wp (embedDocuments (fun s => s) demo_cached demo_batch) ([], 0%nat) (fun o w' _ =>
    o = Ret (map (fun t => [inject_Z (str_length t); 1%Q]) demo_batch) /\ (length w'.1 <= 2)%nat) /\ r.2 = [AskedDocuments ["refund"; "ship"; "pay"]] /\ js_keys r.1.2.1 = map (cacheKey (fun s => s) demo_cached OpDocument) ["ship"; "pay"].
Proof.
  split; [|by vm_compute].
  eapply wp_mono; [apply (cache_is_transparent (fun s => s) demo_cached eq_refl ltac:(simpl; lia) ltac:(done)
    (fun t => [inject_Z (str_length t)]) (fun t => [inject_Z (str_length t); 1%Q]) ltac:(done))|].
  - split; [apply unique_keys_nil|simpl; lia|done].
  - intros o w' l (-> & [_ Hlen _] & _). split; [done|]. simpl in Hlen. lia.
Defined.

End EmbeddingCache.
