(* ===== verification/JevGates.v ===== *)
(** * What the judged gates promise

    A gate never opens on its own: what it allows was judged safe on the call at
    hand, or was let through by the configured fallback.  Failures of Jev count
    against the circuit, cancellations do not. *)

From S2P Require Export Jev.

#[local] Open Scope string_scope.
#[local] Open Scope list_scope.
#[local] Open Scope Z_scope.
#[local] Open Scope eff_scope.

Module JevGates.
Import Breaker LocalTool Jev.

Section Gates.
Context {W : Type} (host : @JevHost W).
Notation World := (Circuit * W)%type.
Notation M := (M error event World).

(** ** What a call says to Jev *)

Definition of_breaker (e : event) : bool := match e with OnBreaker _ => true | _ => false end.

(** The trace without the breaker's own events. *)
Definition spoken (l : list event) : list event := List.filter (fun e => negb (of_breaker e)) l.

Lemma spoken_app l1 l2 : spoken (l1 ++ l2) = spoken l1 ++ spoken l2.
Proof. apply List.filter_app. Qed.

Lemma spoken_breaker e l : spoken (OnBreaker e :: l) = spoken l.
Proof. done. Qed.

Definition breaking (e : event) : Prop := exists b, e = OnBreaker b.

Lemma spoken_breaking l : Forall breaking l -> spoken l = [].
Proof. induction 1 as [|e l [b ->] _ IH]; [done|]. exact IH. Qed.

Lemma keeps_spoken {A} (m : M A) w : keeps (fun _ => True) breaking m -> wp m w (fun _ _ l => spoken l = []).
Proof. intros Hm. eapply wp_mono; [by apply Hm|]. intros o w' l [_ Hl]. by apply spoken_breaking. Qed.

Section Call.
Context (client : @JevClient W) (request : JevRequest) (timeout : num) (signal : bool).

(** How the call ends, given how the client's call ended. *)
Definition validated (r : option (outcome error value)) : outcome error value :=
  match r with
  | Some (Ret v) => match assertAnswered v (jr_questions request) with Some e => Throw e | None => Ret v end
  | Some (Throw e) => Throw e
  | Some Diverge => Diverge
  | None => Throw aborted_error
  end.

(** Jev is asked at most once; without being asked it gives no answer. *)
Definition asked_once (o : outcome error value) (l : list event) : Prop :=
  (spoken l = [] /\ exists e, o = Throw e) \/
  exists r, spoken l = [Asked request timeout; Answered r] /\
    match o with Throw _ => exists e, validated r = Throw e | _ => validated r = o end.

Lemma call_asks w : wp (call host client request timeout signal) w (fun o w' l =>
  asked_once o l /\ Forall (fun e => of_breaker e = false) l).
Proof.
  unfold call, raceAbort, asked_once. do 3 wp_step. destruct (controllerAborted host signal w).
  - repeat (wp_step || cbn [wp_cont]). split; [left; eauto|constructor].
  - repeat wp_step. destruct (systemOne client request timeout w) as [r w2]. injection Hext as <- <-.
    cbn [wp_cont]. repeat wp_step. assert (forall P : Prop, P -> P /\ Forall (fun e => of_breaker e = false)
      [Asked request timeout; Answered r]) as Hquiet by (split; [done|repeat constructor]).
    destruct r as [[v|e|]|]; repeat (wp_step || cbn [wp_cont]); try (apply Hquiet; right; eexists; split; [done|simpl; eauto]; fail).
    destruct (assertAnswered v (jr_questions request)) as [e|] eqn:He; repeat (wp_step || cbn [wp_cont]);
      apply Hquiet; right; eexists; (split; [done|simpl; rewrite He; eauto]).
Qed.

Ltac emits := repeat first [keeps_step | apply transition_emits | apply remaining_emits | apply recordSuccess_emits
  | apply recordFailure_emits | by eexists]; auto; try (intros; by eexists).

Section Breaker.
Context (b : CircuitBreaker).
Notation now := (jh_now host).
Notation listener := (jh_listener host).

Lemma breaking_any e : breaking (OnBreaker e).
Proof. by eexists. Qed.

Lemma admit_quiet w : wp (admit_call OnBreaker now listener b : M unit) w (fun o _ l =>
  spoken l = [] /\ match o with Ret _ => True | Throw _ => True | Diverge => False end).
Proof.
  eapply wp_mono; [apply wp_and; [apply admit_wp; intros t x l _; instantiate (1 := fun o _ _ => o <> Diverge)|
    apply keeps_spoken; unfold admit_call, promoteIfCooledDown, set_probe, get, put; emits]|].
  - cbv zeta. by destruct (admits _).
  - intros o w' l [Ho Hl]. split; [done|]. by destruct o.
Qed.

Lemma success_quiet w : wp (recordSuccess OnBreaker now listener b : M unit) w (fun o _ l =>
  spoken l = [] /\ o = Ret tt).
Proof.
  eapply wp_mono; [apply wp_and; [apply recordSuccess_wp; intros x l; instantiate (1 := fun o _ _ => o = Ret tt); done|
    apply keeps_spoken, recordSuccess_emits, breaking_any]|]. by intros o w' l [-> ->].
Qed.

Lemma failure_quiet reason w : wp (recordFailure OnBreaker now listener b reason : M unit) w (fun o _ l =>
  spoken l = [] /\ o = Ret tt).
Proof.
  eapply wp_mono; [apply wp_and; [apply recordFailure_wp; intros t x l; instantiate (1 := fun o _ _ => o = Ret tt); done|
    apply keeps_spoken, recordFailure_emits, breaking_any]|]. by intros o w' l [-> ->].
Qed.

Lemma state_quiet w : wp (currentState OnBreaker now listener b : M CircuitState) w (fun o _ l =>
  spoken l = [] /\ exists s, o = Ret s).
Proof.
  eapply wp_mono; [apply wp_and; [|apply keeps_spoken; unfold currentState, promoteIfCooledDown, get; emits]|].
  - unfold currentState. wp_step. apply promote_wp. intros t x l _. cbn [wp_cont]. unfold get. repeat wp_step.
    instantiate (1 := fun o _ _ => exists s, o = Ret s). simpl. eauto.
  - by intros o w' l [? ?].
Qed.

Lemma guarded_asks w : wp (guarded_call host client request timeout signal) w (fun o w' l =>
  match o with
  | Ret (inl v) => asked_once (Ret v) l
  | Ret (inr e) => asked_once (Throw e) l /\ cancelledByCaller host signal w' = true
  | Throw e => asked_once (Throw e) l /\ cancelledByCaller host signal w' = false
  | Diverge => asked_once Diverge l
  end).
Proof.
  unfold guarded_call. wp_step. wp_step. eapply wp_mono; [apply call_asks|]. intros o w1 l [Hl _].
  destruct o as [v|e|]; cbn [wp_cont]; [| |done]; repeat (wp_step || cbn [wp_cont]); rewrite ?app_nil_r; [done|].
  destruct (cancelledByCaller host signal w1) eqn:Hc; repeat (wp_step || cbn [wp_cont]); rewrite ?app_nil_r; by rewrite Hc.
Qed.

(** Leaves out of the trace what the breaker says. *)
Ltac quiet :=
  unfold asked_once in *; cbn [app]; rewrite ?spoken_app, ?spoken_breaker, ?spoken_app;
  repeat match goal with H : spoken _ = [] |- _ => rewrite H; clear H end;
  cbn [app]; rewrite ?app_nil_r.

Lemma breaker_asks w : wp (throughBreaker host client request timeout signal b) w (fun o _ l => asked_once o l).
Proof.
  unfold throughBreaker, Breaker.execute. wp_step. wp_step. eapply wp_mono; [apply admit_quiet|].
  intros o w1 l1 [H1 Ho]. destruct o as [[]|e|]; cbn [wp_cont]; [|by left; eauto|done].
  wp_step. wp_step. wp_step. wp_step. eapply wp_mono; [apply guarded_asks|]. intros o w2 l2 H2.
  destruct o as [r|e|]; cbn [wp_cont]; unfold settle_call; [| |by quiet].
  - repeat (wp_step || cbn [wp_cont]). destruct r as [v|e].
    + wp_step. eapply wp_mono; [apply success_quiet|]. intros o w3 l3 [H3 ->]. cbn [wp_cont]. wp_step. by quiet.
    + destruct H2 as [H2 _]. wp_step. eapply wp_mono; [apply state_quiet|]. intros o w3 l3 [H3 [s ->]]. cbn [wp_cont].
      wp_step. destruct (bool_decide (s = HalfOpen)); cbn [when].
      * eapply wp_mono; [apply failure_quiet|]. intros o w4 l4 [H4 ->]. cbn [wp_cont]. wp_step. by quiet.
      * repeat (wp_step || cbn [wp_cont]). by quiet.
  - destruct H2 as [H2 _]. wp_step. eapply wp_mono; [apply failure_quiet|]. intros o w3 l3 [H3 ->]. cbn [wp_cont].
    repeat (wp_step || cbn [wp_cont]). by quiet.
Qed.

End Breaker.

Lemma dispatch_asks o w : wp (dispatch host client request timeout signal o) w (fun o _ l => asked_once o l).
Proof.
  destruct o as [b|]; [apply breaker_asks|]. eapply wp_mono; [apply call_asks|]. by intros o w' l [H _].
Qed.

Lemma failure_asks e w l :
  asked_once (Throw e) l ->
  wp (call_failure host timeout signal e) w (fun o _ l' => exists e', o = Throw e' /\ asked_once (Throw e') (l ++ l')).
Proof.
  intros Hl. assert (forall e', asked_once (Throw e') l) as Hany.
  { intros e'. destruct Hl as [[Hl _]|(r & Hl & Hv)]; [left; eauto|right; eauto]. }
  unfold call_failure. destruct (is_JevCallError e); repeat (wp_step || cbn [wp_cont]); rewrite app_nil_r; eauto.
Qed.
End Call.

Lemma ask_asks client request t b signal w :
  wp (askJev host client request t b signal) w (fun o _ l => asked_once request (default DEFAULT_TIMEOUT_MS t) o l).
Proof.
  unfold askJev. destruct (assertTimeout _ _) as [e|]; [wp_step; left; eauto|]. wp_step.
  eapply wp_mono; [apply dispatch_asks|]. intros r w' l Hr. destruct r as [v|e|]; [done| |done].
  eapply wp_mono; [by apply (failure_asks request)|]. by intros o w2 l2 (e' & -> & H).
Qed.

(** ** Judgments *)

(** Jev was shown [st], asked [q] and answered, usably, with the probability [p]. *)
Definition judged_as (l : list event) (name : string) (q : JevQuestion) (st : value) (p : num) : Prop :=
  exists request t r,
    Asked request t ∈ l /\ Answered (Some (Ret r)) ∈ l /\ jr_state request = st /\ jr_questions request = [(name, q)] /\
    usable r name q = true /\ p = noul_of r name.

(** Functions of the caller's say nothing of the judgment. *)
Definition from_caller (e : event) : Prop := match e with Described _ | Counted _ _ => True | _ => False end.

Lemma judged_callers l1 l l2 name q st p :
  Forall from_caller l1 -> Forall from_caller l2 ->
  judged_as (l1 ++ l ++ l2) name q st p <-> judged_as l name q st p.
Proof.
  intros Hl1 Hl2. unfold judged_as. setoid_rewrite elem_of_app. setoid_rewrite elem_of_app.
  assert (forall l e, Forall from_caller l -> e ∈ l -> from_caller e) as Hin by (intros l' e Hl; by apply Forall_forall).
  split; intros (r & t & v & H1 & H2 & H3); exists r, t, v; split_and!; try (by apply H3 || auto);
    [destruct H1 as [H1|[H1|H1]]|destruct H2 as [H2|[H2|H2]]]; try done; by apply Hin in H1 || apply Hin in H2.
Qed.

Lemma callback_wp {A} (tell : outcome error A -> event) f w (Q : outcome error A -> World -> list event -> Prop) :
  (forall r w', (f w).1 = r -> Q r w' [tell r]) -> wp (callback tell f) w Q.
Proof.
  intros H. unfold callback. repeat wp_step. destruct (f w) as [r w2] eqn:Hf. simplify_eq. cbn [wp_cont]. wp_steps.
  destruct r; [wp_step|wp_step|change (Q Diverge w' [tell Diverge])]; by apply H.
Qed.

Lemma usable_probability r name i c :
  usable r name (NoulQuestion i c) = true -> isProbability (VNum (noul_of r name)) = true.
Proof.
  unfold usable, noul_of. destruct (answer_of r name) as [o|]; [|done]. destruct (field o "type"); try done.
  intros [_ H]%andb_prop. unfold isWellFormed in H. by destruct (field o "noul").
Qed.

Definition asks (l : list event) : list JevRequest :=
  filter_map (fun e => match e with Asked r _ => Some r | _ => None end) l.

Lemma asks_spoken l : asks (spoken l) = asks l.
Proof. induction l as [|e l IH]; [done|]. destruct e; unfold asks, spoken in *; cbn; rewrite ?IH; done. Qed.

Lemma elem_spoken e l : e ∈ spoken l -> e ∈ l.
Proof. unfold spoken. rewrite !list_elem_of_In, List.filter_In. by intros [? _]. Qed.

Lemma ask_noul_judges c name i cr st signal w :
  wp (ask_noul host c name i cr st signal) w (fun o _ l =>
    (length (asks l) <= 1)%nat /\
    match o with
    | Ret p => judged_as l name (NoulQuestion i cr) st p
    | Throw _ => forall st' p, ~ judged_as l name (NoulQuestion i cr) st' p
    | Diverge => Answered (Some Diverge) ∈ l
    end).
Proof.
  unfold ask_noul. wp_step. eapply wp_mono; [apply ask_asks|]. intros o w' l [[Hl [e ->]]|(r & Hl & Hr)].
  { cbn [wp_cont]. rewrite <- asks_spoken, Hl. split; [simpl; lia|]. intros st' p (q & t & v & Hin & _).
    assert (Asked q t ∈ spoken l) as H; [|by rewrite Hl in H; apply elem_of_nil in H].
    unfold spoken. rewrite list_elem_of_In, List.filter_In, <- list_elem_of_In. by split. }
  assert (asks l = [gate_request c name i cr st]) as Ha by by rewrite <- asks_spoken, Hl.
  assert (forall e, e ∈ [Asked (gate_request c name i cr st) (default DEFAULT_TIMEOUT_MS (rj_timeoutMs c)); Answered r] -> e ∈ l)
    as Hin by (intros e; rewrite <- Hl; apply elem_spoken).
  assert (forall v, Answered v ∈ l -> v = r) as Hans.
  { intros v Hv. assert (Answered v ∈ spoken l) as H.
    { unfold spoken. rewrite list_elem_of_In, List.filter_In, <- list_elem_of_In. by split. }
    rewrite Hl in H. set_solver. }
  destruct o as [v|e|]; cbn [wp_cont].
  - wp_step. rewrite app_nil_r, Ha. split; [simpl; lia|].
    destruct r as [[v'|e|]|]; simpl in Hr; try done. destruct (usable v' name _) eqn:Hu; [|done]. injection Hr as <-.
    eexists _, _, v'. split_and!; [apply Hin; left|apply Hin; right; left|done..].
  - rewrite Ha. split; [simpl; lia|]. intros st' p (q & t & v & _ & Hv & _ & _ & Hu & _).
    apply Hans in Hv. subst r. simpl in Hr. rewrite Hu in Hr. by destruct Hr.
  - rewrite Ha. split; [simpl; lia|]. apply Hin. destruct r as [[v'|e|]|]; simpl in Hr; try done; [by destruct (usable _ _ _)|].
    right. left.
Qed.

(** ** The action gate *)

Section ActionGate.
Context (self : @JevActionGatePolicy W).
Notation o := (ag_options self).

(** The question the gate puts about a call. *)
Definition safe_question : JevQuestion :=
  NoulQuestion (VStr (default DEFAULT_QUESTION (ao_question o))) (default DEFAULT_CRITERIA (ao_criteria o)).

(** The approvers of a call that goes to review on the probability [p]: the setting, or
    what the caller's function answered. *)
Definition approvers (l : list event) (p n : num) : Prop :=
  match ao_requiredApprovals o with
  | None => n = num_of_Z 1
  | Some (Fixed k) => n = k
  | Some (ByProbability f) => Counted p (Ret n) ∈ l /\ exists w0, (f p w0).1 = Ret n
  end.

(** What a probability means for the call. *)
Definition follows_judgment (l : list event) (p : num) (r : PolicyResult) : Prop :=
  match r with
  | PAllow _ => num_le (ag_allowAt self) p = true
  | PDeny _ _ => num_le (ag_denyBelow self) p = false
  | PRequireApproval _ ttl n =>
      num_le (ag_denyBelow self) p = true /\ num_le (ag_allowAt self) p = false /\
      ttl = ao_approvalTtlSeconds o /\ approvers l p (default (num_of_Z 1) n)
  end.

(** What is decided without a judgment. *)
Definition follows_fallback (r : PolicyResult) : Prop :=
  match r with
  | PAllow _ => on_error o = OnErrorAllow
  | PDeny _ _ => on_error o = OnErrorDeny
  | PRequireApproval _ ttl n =>
      on_error o = OnErrorReview /\ ttl = ao_approvalTtlSeconds o /\ default (num_of_Z 1) n = unjudged_approvals self
  end.

Lemma review_approvals n : default (num_of_Z 1) (if decide (n = num_of_Z 1) then None else Some n) = n.
Proof. by case_decide. Qed.

Lemma fallback_follows message : follows_fallback (fallback self message).
Proof. unfold fallback. destruct (on_error o) eqn:He; simpl; rewrite ?review_approvals; by rewrite ?He. Qed.

(** The caller's function for the number of approvers ended in [r] on the probability [p],
    which calls for review. *)
Definition counting_ended (l : list event) (p : num) (r : outcome error num) : Prop :=
  num_le (ag_denyBelow self) p = true /\ num_le (ag_allowAt self) p = false /\
  exists f w0, ao_requiredApprovals o = Some (ByProbability f) /\ Counted p r ∈ l /\ (f p w0).1 = r.

Lemma judge_follows tool p w :
  ag_denyBelow self <> NNaN -> is_finite p = true ->
  wp (judge self tool p) w (fun r _ l => Forall from_caller l /\ asks l = [] /\
    match r with
    | Ret d => follows_judgment l p d
    | Throw e => counting_ended l p (Throw e)
    | Diverge => counting_ended l p Diverge
    end).
Proof.
  intros Hd Hp. unfold judge. destruct (num_le (ag_allowAt self) p) eqn:Ha; [by wp_step|].
  unfold num_ltb. destruct (num_le p (ag_denyBelow self) && negb (num_le (ag_denyBelow self) p)) eqn:H1.
  { wp_step. split_and!; [constructor|done|]. apply andb_prop in H1 as [_ H1%negb_true_iff]. exact H1. }
  assert (num_le (ag_denyBelow self) p = true) as H2.
  { destruct (num_le_total (ag_denyBelow self) p Hd) as [H|H]; [by destruct p|done|].
    rewrite H in H1. by destruct (num_le (ag_denyBelow self) p). }
  wp_step. unfold requiredApprovalsAt, approvers, counting_ended. destruct (ao_requiredApprovals o) as [[n|f]|] eqn:Hr.
  - wp_steps. split_and!; [constructor|done|]. simpl. rewrite review_approvals. split_and!; [done..|]. unfold approvers. by rewrite Hr.
  - apply callback_wp. intros r w' Hf. destruct r as [n|e|]; cbn [wp_cont]; [wp_step|..]; cbn [app];
      (split; [apply Forall_cons; split; [exact I|constructor]|split; [done|]]).
    + simpl. rewrite review_approvals. split_and!; [done..|]. unfold approvers. rewrite Hr. split; [by left|by exists w].
    + split_and!; [done..|]. exists f, w. split_and!; [done|by left|done].
    + split_and!; [done..|]. exists f, w. split_and!; [done|by left|done].
  - wp_steps. split_and!; [constructor|done|]. simpl. split_and!; [done..|]. unfold approvers. by rewrite Hr.
Qed.

(** The caller's description of the call ended in [r]. *)
Definition description_ended (ctx : AgentContext) (tool : string) (args : obj) (l : list event) (r : outcome error value) : Prop :=
  exists f w0, ao_describe o = Some f /\ Described r ∈ l /\ (f ctx tool args w0).1 = r.

(** The state of a call that the gate shows to Jev. *)
Definition shows (ctx : AgentContext) (tool : string) (args : obj) (l : list event) (st : value) : Prop :=
  match ao_describe o with
  | Some _ => description_ended ctx tool args l (Ret st)
  | None => st = VObj [("tool", VStr tool); ("arguments", VObj args)]
  end.

Lemma cancel_wp ctx w (Q : outcome error unit -> World -> list event -> Prop) :
  (ctx_signal ctx && jh_aborted host w = false -> Q (Ret tt) w []) ->
  Q (Throw (AgenticErr (ExecutionCancelledError None))) w [] ->
  wp (throwIfCancelled host ctx) w Q.
Proof.
  intros H1 H2. unfold throwIfCancelled. repeat wp_step. destruct (ctx_signal ctx && jh_aborted host w); cbn [when]; wp_step; auto.
Qed.

(** The outcomes of an action gate on a call. *)
Definition gate_outcome (ctx : AgentContext) (tool : string) (args : obj) (r : outcome error PolicyResult) (w : World)
    (l : list event) : Prop :=
  match r with
  | Ret d =>
      (judged_tool (ao_tools o) tool = false /\ d = PAllow None) \/
      (exists st p, shows ctx tool args l st /\ judged_as l "safe" safe_question st p /\ follows_judgment l p d) \/
      ((forall st p, ~ judged_as l "safe" safe_question st p) /\ ctx_signal ctx && jh_aborted host w = false /\
       follows_fallback d)
  | Throw e =>
      e = AgenticErr (ExecutionCancelledError None) \/
      description_ended ctx tool args l (Throw e) \/
      exists st p, judged_as l "safe" safe_question st p /\ counting_ended l p (Throw e)
  | Diverge =>
      Answered (Some Diverge) ∈ l \/ description_ended ctx tool args l Diverge \/
      exists st p, judged_as l "safe" safe_question st p /\ counting_ended l p Diverge
  end.

Lemma state_wp ctx tool args w (Q : outcome error value -> World -> list event -> Prop) :
  (forall st w' l, shows ctx tool args l st -> Forall from_caller l -> asks l = [] -> Q (Ret st) w' l) ->
  (forall r w' l, match r with Ret _ => False | Throw _ | Diverge => True end ->
     description_ended ctx tool args l r -> asks l = [] -> Q r w' l) ->
  wp (call_state self ctx tool args) w Q.
Proof.
  intros H1 H2. unfold call_state, shows, description_ended in *. destruct (ao_describe o) as [f|];
    [|wp_step; by apply H1].
  apply callback_wp. intros r w' Hf. destruct r as [st|e|].
  - apply H1; [|by repeat constructor|done]. exists f, w. split_and!; [done|by left|done].
  - apply H2; [done| |done]. exists f, w. split_and!; [done|by left|done].
  - apply H2; [done| |done]. exists f, w. split_and!; [done|by left|done].
Qed.

Lemma asks_app l1 l2 : asks (l1 ++ l2) = asks l1 ++ asks l2.
Proof. apply filter_map_app. Qed.

(** More events keep what happened. *)
Lemma shows_more ctx tool args l l' st : l ⊆ l' -> shows ctx tool args l st -> shows ctx tool args l' st.
Proof. intros Hl. unfold shows, description_ended. destruct (ao_describe o); [|done]. set_solver. Qed.

Lemma judgment_more l l' p d : l ⊆ l' -> follows_judgment l p d -> follows_judgment l' p d.
Proof.
  intros Hl. unfold follows_judgment, approvers. destruct d; [done..|].
  destruct (ao_requiredApprovals o) as [[]|]; set_solver.
Qed.

Lemma counting_more l l' p r : l ⊆ l' -> counting_ended l p r -> counting_ended l' p r.
Proof. intros Hl. unfold counting_ended. set_solver. Qed.

Lemma gate_wp ctx tool args w :
  ag_denyBelow self <> NNaN ->
  wp (evaluate_call host self ctx tool args) w (fun r w' l =>
    (length (asks l) <= 1)%nat /\ gate_outcome ctx tool args r w' l).
Proof.
  intros Hd. unfold evaluate_call. destruct (judged_tool (ao_tools o) tool) eqn:Ht; cbn [negb].
  2: { wp_step. split; [simpl; lia|]. by left. }
  wp_step. apply cancel_wp; [|split; [simpl; lia|by left]]. intros _. cbn [wp_cont]. wp_step. apply state_wp.
  2: { intros r w1 l Hr Hf Ha. destruct r as [st|e|]; cbn [wp_cont app]; [done|rewrite Ha; split; [simpl; lia|by right; left]..]. }
  intros st w1 l1 Hst Hl1 Ha1. cbn [wp_cont].
  wp_step. wp_step. eapply wp_mono; [apply ask_noul_judges|]. intros r w2 l2 [Hlen Hr].
  assert (forall l st' p, Forall from_caller l ->
    judged_as (l1 ++ l2 ++ l) "safe" safe_question st' p <-> judged_as l2 "safe" safe_question st' p) as Hj
    by (intros; by apply judged_callers).
  destruct r as [p|e|]; cbn [wp_cont].
  - assert (is_finite p = true) as Hp.
    { destruct Hr as (q & t & v & _ & _ & _ & _ & Hu & ->).
      apply usable_probability in Hu. unfold isProbability in Hu. by apply andb_prop in Hu as [[H _]%andb_prop _]. }
    eapply wp_mono; [by apply judge_follows|]. intros r w3 l3 (Hc & Ha3 & Hr3). cbn [app].
    rewrite !asks_app, Ha1, Ha3, app_nil_r. split; [done|]. destruct r as [d|e|]; simpl.
    + right; left. exists st, p. rewrite Hj by done.
      split_and!; [by eapply shows_more; [|exact Hst]; set_solver|done|by eapply judgment_more; [|exact Hr3]; set_solver].
    + right; right. exists st, p. rewrite Hj by done. split; [done|]. eapply counting_more; [|exact Hr3]. set_solver.
    + right; right. exists st, p. rewrite Hj by done. split; [done|]. eapply counting_more; [|exact Hr3]. set_solver.
  - wp_step. apply cancel_wp; [|cbn [wp_cont app]; rewrite app_nil_r, asks_app, Ha1; split; [done|by left]].
    intros Hc. cbn [wp_cont]. wp_step. cbn [app]. rewrite !app_nil_r, asks_app, Ha1. split; [done|]. right; right.
    split_and!; [|done|apply fallback_follows]. intros st' p. rewrite <- (app_nil_r l2), Hj by done. apply Hr.
  - cbn [app]. rewrite asks_app, Ha1. split; [done|]. left. set_solver.
Qed.

End ActionGate.

Lemma mk_gate_thresholds dual options client defaults (self : @JevActionGatePolicy W) :
  mk_action_gate dual options client defaults = inr self ->
  thresholds_ok (ag_denyBelow self) (ag_allowAt self) = true.
Proof.
  unfold mk_action_gate. destruct (resolveJevCall _ _ _ _); [done|]. destruct (thresholds_ok _ _) eqn:Ht; [|done]. cbn [negb].
  intros H. by repeat case_match; simplify_eq.
Qed.


(** ** The output gate *)

Section OutputGate.
Context (self : @JevOutputGatePolicy W).
Notation o := (og_options self).

Definition withhold_question : JevQuestion :=
  NoulQuestion (VStr (default OUTPUT_QUESTION (oo_question o))) (default OUTPUT_CRITERIA (oo_criteria o)).

Definition shows_output (ctx : AgentContext) (tool : string) (output : value) (p : option Provenance) (st : value) : Prop :=
  match oo_describe o with
  | Some f => exists w, (f ctx tool output p w).1 = Ret st
  | None => st = VObj [("tool", VStr tool); ("output", output)]
  end.

(** The three grounds on which an output is let through. *)
Definition let_through (ctx : AgentContext) (tool : string) (output : value) (p : option Provenance) (l : list event) : Prop :=
  judged_tool (oo_tools o) tool = false \/
  (exists st q, shows_output ctx tool output p st /\ judged_as l "withhold" withhold_question st q /\
     num_le (og_denyAt self) q = false) \/
  (oo_onError_allow o = Some true /\ forall st q, ~ judged_as l "withhold" withhold_question st q).

Theorem output_gate_fails_closed ctx tool output p w :
  wp (evaluate_output host self ctx tool output p) w (fun r w' l =>
    match r with Ret (OutAllow _) => let_through ctx tool output p l | _ => True end).
Proof.
  unfold evaluate_output. destruct (judged_tool (oo_tools o) tool) eqn:Ht; cbn [negb]; [|wp_step; by left].
  wp_step. apply cancel_wp; [|done]. intros _. cbn [wp_cont]. wp_step.
  assert (forall Q : outcome error value -> World -> list event -> Prop,
    (forall st w' l, shows_output ctx tool output p st -> Forall from_caller l -> Q (Ret st) w' l) ->
    (forall r w' l, match r with Ret _ => False | _ => True end -> Q r w' l) ->
    wp (output_state self ctx tool output p) w Q) as Hstate.
  { intros Q H1 H2. unfold output_state, shows_output in *. destruct (oo_describe o) as [f|]; [|wp_step; by apply H1].
    apply callback_wp. intros [st|e|] w' Hf; [|by apply H2..]. apply H1; [by exists w|by repeat constructor]. }
  apply Hstate; [|by intros [] w1 l1].
  intros st w1 l1 Hst Hl1. cbn [wp_cont]. wp_step. wp_step. eapply wp_mono; [apply ask_noul_judges|].
  intros r w2 l2 [_ Hr]. destruct r as [q|e|]; cbn [wp_cont]; [| |done].
  - wp_step. unfold judge_output. destruct (num_le (og_denyAt self) q) eqn:Hq; [done|]. right; left. exists st, q.
    split_and!; [done| |done]. by apply judged_callers.
  - wp_step. apply cancel_wp; [|done]. intros _. cbn [wp_cont]. wp_step. unfold output_fallback.
    destruct (oo_onError_allow o) as [[]|] eqn:Ho; simpl; try done. right; right. split; [done|].
    intros st' q. rewrite judged_callers by done. apply Hr.
Qed.
End OutputGate.

(** ** Jev's circuit *)

(** A call through the circuit of Jev is one completion of it: a usable answer
    is a success; a failed, timed out or unusable one is a failure; and a call that
    the caller cancelled leaves a closed circuit as it was, but fails a probe, so that
    a half-open circuit does not stay half-open. *)
Theorem call_counts_once_unless_cancelled client request timeout signal b c x :
  (forall q t w, (systemOne client q t w).2.1 = w.1) -> state c <> Open -> admits c = true ->
  wp (throughBreaker host client request timeout signal b) (c, x) (fun o w' _ =>
    match o with
    | Ret _ => w'.1 = succeeded b (admitted_state c)
    | Throw _ => (cancelledByCaller host signal w' = true /\ state c = Closed /\ w'.1 = c) \/
                 exists t, w'.1 = failed b t (admitted_state c)
    | Diverge => True
    end).
Proof.
  intros Hkeep Hopen Hadm. assert (forall t, promoted b t c = c) as Hp by (intros t; unfold promoted; by destruct (state c)).
  unfold throughBreaker, Breaker.execute. wp_step. wp_step. apply admit_wp. intros t y l _. simpl. rewrite Hp, Hadm. cbn [wp_cont].
  set (a := admitted_state c). wp_step. wp_step. wp_step. wp_step.
  assert (keeps (fun w => w.1 = a) (fun _ => True) (guarded_call host client request timeout signal)) as Hg.
  { unfold guarded_call, call, raceAbort. repeat keeps_step; try done. intros w Hw. specialize (Hkeep request timeout w).
    destruct (systemOne client request timeout w) as [r w2]. simpl in *. congruence. }
  eapply wp_mono; [apply wp_and; [by apply Hg|apply (guarded_asks client request timeout signal)]|].
  intros o w2 l2 [[Hw2 _] Ho]. destruct o as [r|e|]; cbn [wp_cont]; unfold settle_call; [| |done].
  - repeat (wp_step || cbn [wp_cont]). destruct r as [v|e].
    + wp_step. apply recordSuccess_wp. intros z l3. cbn [wp_cont]. wp_step. by rewrite Hw2.
    + destruct Ho as [_ Hc]. wp_step. destruct (state c) eqn:Hst; [|done|].
      * assert (a = c) as Ha by by (unfold a, admitted_state; rewrite Hst). rewrite Ha in Hw2.
        unfold currentState, promoteIfCooledDown, Breaker.get. repeat (wp_step || cbn [wp_cont]). rewrite Hw2, Hst.
        repeat (wp_step || cbn [wp_cont]). rewrite Hw2, Hst. repeat (wp_step || cbn [wp_cont when]). by left.
      * assert (state a = HalfOpen) as Ha by by (unfold a, admitted_state; rewrite Hst).
        unfold currentState. wp_step. apply promote_wp. intros t' z l3 _. rewrite Hw2. unfold promoted. rewrite Ha.
        unfold Breaker.get. repeat (wp_step || cbn [wp_cont]). simpl. rewrite Ha. cbn [when].
        rewrite bool_decide_eq_true_2 by done. cbn [when].
        apply recordFailure_wp. intros t2 z2 l4. cbn [wp_cont]. wp_step. right. by exists t2.
  - wp_step. apply recordFailure_wp. intros t2 z l3. cbn [wp_cont]. repeat (wp_step || cbn [wp_cont]). right. exists t2. by rewrite Hw2.
Qed.

End Gates.

(** ** Rubrics *)

(** The position on a rubric gives a score between 0 and 1. *)
Lemma rubric_score_in_unit top answer :
  1 <= top -> (0 <= verdict_score (verdict top answer) <= 1)%Q.
Proof.
  intros Htop. unfold verdict. simpl. set (n := match field answer "score" with VNum n => n | _ => NNaN end).
  assert (0 < inject_Z top)%Q as Hpos by (unfold Qlt; simpl; lia).
  enough (0 <= default 0 (num_Q (rubric_position top n)) <= inject_Z top)%Q as [H1 H2].
  { split; [apply Qle_shift_div_l|apply Qle_shift_div_r]; try done; lra. }
  assert (0 <= default 0 (num_Q (num_of_Z top)) <= inject_Z top)%Q as Htop'.
  { change (default 0%Q (num_Q (num_of_Z top))) with (dec_Q top 0). rewrite dec_Q_int. lra. }
  unfold rubric_position. destruct n as [m e| |[]]; [|split; [apply Qle_refl|by apply Qlt_le_weak]| |exact Htop'].
  - destruct (num_max_Q (num_of_Z 0) (NDec m e) (dec_Q 0 0) (dec_Q m e) eq_refl eq_refl) as (r & Hr & Hmax).
    destruct (num_min_Q (num_of_Z top) _ (dec_Q top 0) r eq_refl Hr) as (r' & -> & Hmin). simpl.
    rewrite Hmin, Hmax, !dec_Q_int. split; [apply Q.min_glb; [lra|apply Q.le_max_l]|apply Q.le_min_l].
  - assert (rubric_position top (NInf true) = num_of_Z 0) as Hz; [|unfold rubric_position in Hz; rewrite Hz].
    { unfold rubric_position. change (num_max (num_of_Z 0) (NInf true)) with (num_of_Z 0). unfold num_min. simpl.
      rewrite !Z.mul_1_r. by destruct (Z.leb_spec top 0); [lia|]. }
    change (default 0%Q (num_Q (num_of_Z 0))) with (dec_Q 0 0). rewrite dec_Q_int. split; [apply Qle_refl|by apply Qlt_le_weak].
Qed.

(** ** A gate at work *)

(** A client whose judge finds a small refund safe and does not answer about others. *)
Definition demo_client : @JevClient nat := {|
  systemOne := fun r _ w =>
    match jr_state r with
    | VObj [(_, VStr "small"); _] =>
        (Some (Ret (VObj [("answers", VObj [("safe", VObj [("type", VStr "noul"); ("noul", VNum (NDec 95 (-2)))])])])), w)
    | _ => (None, (w.1, S w.2))
    end |}.

Definition demo_options : @JevActionGateOptions nat := {|
  ao_call := {| jo_client := Some demo_client; jo_model := None; jo_timeoutMs := None; jo_circuitBreaker := None |};
  ao_name := None; ao_tools := None; ao_question := None; ao_criteria := None; ao_allowAt := None; ao_denyBelow := None;
  ao_requiredApprovals := None; ao_onErrorRequiredApprovals := Some (num_of_Z 2); ao_approvalTtlSeconds := None;
  ao_describe := None; ao_onError := None |}.

Definition demo_defaults : JevDefaults := {| jd_model := None; jd_timeoutMs := None; jd_circuitBreaker := None |}.

Definition demo_host : @JevHost nat := {|
  jh_aborted := fun _ => false; jh_timed_out := fun w => (0 <? w.2)%nat; jh_now := fun w => (Z.of_nat w, w);
  jh_listener := None |}.

Definition demo_ctx : AgentContext := {|
  security := {| tenantId := None; userId := None; roles := None; permissions := None |};
  ctx_sessionId := "s"; ctx_traceId := "t"; ctx_parentTraceId := None; ctx_rootTraceId := None; ctx_data := None;
  ctx_signal := true; deadline := None |}.

Definition demo_gate : @JevActionGatePolicy nat :=
  match mk_action_gate true demo_options None demo_defaults with
  | inr g => g
  | inl _ => {| ag_options := demo_options; ag_call := {| rj_client := demo_client; rj_model := None; rj_timeoutMs := None;
                rj_circuitBreaker := None |}; ag_allowAt := NNaN; ag_denyBelow := NNaN |}
  end.

(** A call judged safe runs; one that Jev does not answer about in time goes to two
    people and counts against the circuit. *)
Example gate_at_work :
  (match (evaluate_call demo_host demo_gate demo_ctx "small" [] (fresh, 0%nat)).1.1 with
   | Ret (PAllow _) => true | _ => false end) = true /\
  (evaluate_call demo_host demo_gate demo_ctx "large" [] (fresh, 0%nat)).1.1 =
  Ret (PRequireApproval
    "Jev could not judge this call (Jev call failed: timed out after 5000ms), so it was sent to human review." None
    (Some (num_of_Z 2))) /\
  failures (evaluate_call demo_host demo_gate demo_ctx "large" [] (fresh, 0%nat)).1.2.1 = 1.
Proof. by vm_compute. Qed.


Lemma call_counts_once_unless_cancelled_witness :
  exists w l e, throughBreaker demo_host demo_client {| jr_state := VNull; jr_questions := []; jr_model := None |}
      (num_of_Z 5) true (default_breaker "jev") (fresh, 0%nat) = (Throw e, w, l) /\
    exists t, w.1 = failed (default_breaker "jev") t fresh.
Proof.
  pose proof (call_counts_once_unless_cancelled demo_host demo_client
    {| jr_state := VNull; jr_questions := []; jr_model := None |} (num_of_Z 5) true (default_breaker "jev") fresh 0%nat) as H.
  unfold wp in H. destruct (throughBreaker _ _ _ _ _ _ _) as [[[v|e|] w] l] eqn:Hrun; [by vm_compute in Hrun| |by vm_compute in Hrun].
  exists w, l, e. split; [done|]. destruct H as [[Hc _]|H]; [by intros q t [c x]; simpl; repeat case_match|done|done|done|exact H].
Defined.

End JevGates.
