(* ===== verification/Ranking.v ===== *)
(** * Ranked retrieval and its metrics (packages/evaluation/src/metrics/retrieval)

    The ranking of retrieved chunks (ranking.ts), the rank-based metrics
    (ranking.metrics.ts) and the numbers the evaluation package shares.  [Math.pow(2, .)]
    and [Math.log2] are parameters; scores are rationals with NaN and the infinities,
    as a store, a judge or a metric of the user's may return them. *)

From Stdlib Require Import Ascii Qround.
From S2P Require Export Experience.

#[local] Open Scope string_scope.
#[local] Open Scope list_scope.
#[local] Open Scope Z_scope.

Module Ranking.
Import Consensus Retrieval MemoryScoring.

(** ** Numbers *)

Definition finite (a : ratio) : bool := match a with RQ _ => true | _ => false end.

(** [a === b] *)
Definition ratio_eqb (a b : ratio) : bool := ratio_le a b && ratio_le b a.

(** [Number(q.toFixed(4))]: halves away from zero. *)
Definition fixed4_Q (q : Q) : Q := if Q_ltb q 0 then (- round_Q 10000 (- q))%Q else round_Q 10000 q.
Definition fixed4 (a : ratio) : ratio := match a with RQ q => RQ (fixed4_Q q) | _ => a end.

(** [q.toFixed(4)] as text, for [q] that is not negative. *)
Definition text4 (q : Q) : string := ratio_to_fixed 4 (RQ q).

(** [`${a}`] of a number that is not finite. *)
Definition ratio_text (a : ratio) : string :=
  match a with RQ q => text4 q | RNaN => num_to_string NNaN | RInf b => num_to_string (NInf b) end.

Definition of_nat (n : nat) : ratio := RQ (Q_of_nat n).
Definition nat_text (n : nat) : string := Z_to_string (Z.of_nat n).

(** ** Data (interfaces/evaluation.interface.ts, interfaces/retrieval.interface.ts) *)

(** The values of a metric's [details]. *)
Inductive detail : Type :=
| DNum (a : ratio)
| DNull
| DBool (b : bool)
| DStr (s : string)
| DStrs (l : list string)
| DVal (v : value)
| DFailures (l : list (string * string)).

Record MetricResult : Type := {
  metricName : string;
  passed : bool;
  score : ratio;
  reason : option string;
  details : option (list (string * detail));
}.

(** A result that is not passed, scores 0 and says why. *)
Definition failed (name why : string) : MetricResult := {|
  metricName := name; passed := false; score := RQ 0; reason := Some why; details := None |}.

Record RetrievedChunk : Type := {
  chunk_id : string;
  parentId : option string;
  content : string;
  metadata : option obj;
}.

Record RetrievalContext : Type := {
  ctx_query : string;
  chunks : option (list RetrievedChunk);
  scores : option (list (string * ratio));
  hydratedParentContext : option string;
  compressedContext : option string;
  graphContext : option string;
  relationalFacts : option (list string);
}.

Record RetrievalEvalDatasetItem : Type := {
  item_id : string;
  item_query : string;
  relevantIds : list string;
  relevanceGrades : option (list (string * ratio));
  expectedAnswer : option string;
  item_filter : option obj;
}.

Inductive RelevanceMatch : Type := MatchId | MatchParent | MatchBy (f : RetrievedChunk -> string).
Inductive RankBy : Type := ByScores | ByOrder.

(** ** Ranking (ranking.ts) *)

Definition matchIdOf (c : RetrievedChunk) (matchOn : RelevanceMatch) : string :=
  match matchOn with
  | MatchBy f => f c
  | MatchParent => default (chunk_id c) (parentId c)
  | MatchId => chunk_id c
  end.

Definition scoreOf (scores : list (string * ratio)) (c : RetrievedChunk) : ratio :=
  match js_get scores (chunk_id c) with Some (RQ q) => RQ q | _ => RInf true end.

(** A chunk with its position and its score, and [compare(a, b) <= 0] of the sort. *)
Definition Entry : Type := RetrievedChunk * nat * ratio.
Definition entry_le (a b : Entry) : bool :=
  if ratio_eqb a.2 b.2 then (a.1.2 <=? b.1.2)%nat else negb (ratio_lt a.2 b.2).

Definition entries (scores : list (string * ratio)) (cs : list RetrievedChunk) : list Entry :=
  imap (fun i c => (c, i, scoreOf scores c)) cs.

Definition rankedChunks (context : RetrievalContext) (rankBy : RankBy) : list RetrievedChunk :=
  let cs := default [] (chunks context) in
  match rankBy, scores context with
  | ByOrder, _ | _, None | _, Some [] => cs
  | ByScores, Some sc => map (fun e => e.1.1) (stable_sort entry_le (entries sc cs))
  end.

Definition rankedIds (context : RetrievalContext) (matchOn : RelevanceMatch) (rankBy : RankBy) : list string :=
  set_of (map (fun c => matchIdOf c matchOn) (rankedChunks context rankBy)).

(** ** Metrics (ranking.metrics.ts) *)

Record RankingMetricOptions : Type := {
  o_threshold : option num;
  o_matchOn : option RelevanceMatch;
  o_rankBy : option RankBy;
  o_name : option string;
}.

Record Scored : Type := {
  s_score : ratio;
  s_reason : string;
  s_details : list (string * detail);
  s_passScore : option ratio;
}.

(** The scaffolding of the class, around its [score]. *)
Record RankingMetric : Type := {
  name : string;
  threshold : num;
  matchOn : RelevanceMatch;
  rankBy : RankBy;
  score_ranked : list string -> list string -> RetrievalEvalDatasetItem -> Scored;
}.

Definition mk_metric (defaultName : string) (o : RankingMetricOptions)
    (score : list string -> list string -> RetrievalEvalDatasetItem -> Scored) : RankingMetric := {|
  name := default defaultName (o_name o);
  threshold := default (NDec 5 (-1)) (o_threshold o);
  matchOn := default MatchId (o_matchOn o);
  rankBy := default ByScores (o_rankBy o);
  score_ranked := score |}.

Definition unlabeled_reason : string := "The item has no relevantIds, so retrieval quality cannot be measured.".

Definition meets (a : ratio) (threshold : num) : bool := ratio_le (of_num threshold) a.

Definition evaluate (self : RankingMetric) (item : RetrievalEvalDatasetItem) (context : RetrievalContext) : MetricResult :=
  let relevant := set_of (relevantIds item) in
  match relevant with
  | [] => failed (name self) unlabeled_reason
  | _ =>
      let ranked := rankedIds context (matchOn self) (rankBy self) in
      let s := score_ranked self ranked relevant item in
      if negb (finite (s_score s)) then
        failed (name self) ("The score is not a finite number (" +:+ ratio_text (s_score s) +:+ ").")
      else {|
        metricName := name self;
        passed := meets (fixed4 (default (s_score s) (s_passScore s))) (threshold self);
        score := fixed4 (s_score s);
        reason := Some (s_reason s);
        details := Some (s_details s ++ [("retrieved", DNum (of_nat (length ranked))); ("relevant", DNum (of_nat (length relevant)))]) |}
  end.

(** [assertK]: the cutoff, or the error it throws. *)
Definition bad_k (k : num) : error :=
  NativeErr "RangeError" ("k must be a positive integer, received " +:+ num_to_string k +:+ ".").
Definition assertK (k : num) : error + nat :=
  match positive_integer k with Some z => inr (Z.to_nat z) | None => inl (bad_k k) end.

Definition with_k (k : num) (f : nat -> RankingMetric) : error + RankingMetric :=
  match assertK k with inl e => inl e | inr n => inr (f n) end.

Definition is_relevant (relevant : list string) (id : string) : bool := bool_decide (id ∈ relevant).

(** *** Recall, precision, hit rate *)

Definition recall_score (k : nat) (ranked relevant : list string) (_ : RetrievalEvalDatasetItem) : Scored :=
  let found := List.filter (is_relevant relevant) (take k ranked) in {|
    s_score := RQ (Q_of_nat (length found) / Q_of_nat (length relevant));
    s_reason := nat_text (length found) +:+ " of " +:+ nat_text (length relevant) +:+ " relevant ids in the top " +:+ nat_text k;
    s_details := [("k", DNum (of_nat k)); ("found", DStrs found)];
    s_passScore := None |}.

Definition RecallAtKMetric (k : num) (o : RankingMetricOptions) : error + RankingMetric :=
  with_k k (fun n => mk_metric ("Recall@" +:+ num_to_string k) o (recall_score n)).

Definition precision_score (k : nat) (ranked relevant : list string) (_ : RetrievalEvalDatasetItem) : Scored :=
  let hits := length (List.filter (is_relevant relevant) (take k ranked)) in
  let best := (Q_of_nat (Nat.min (length relevant) k) / Q_of_nat k)%Q in {|
    s_score := RQ (Q_of_nat hits / Q_of_nat k);
    s_reason := nat_text hits +:+ " of the top " +:+ nat_text k +:+ " slots are relevant (at most " +:+
                nat_text (Nat.min (length relevant) k) +:+ " can be)";
    s_details := [("k", DNum (of_nat k)); ("hits", DNum (of_nat hits)); ("maxAchievable", DNum (RQ (fixed4_Q best)))];
    s_passScore := Some (RQ (Q_of_nat hits / Q_of_nat k / best)) |}.

Definition PrecisionAtKMetric (k : num) (o : RankingMetricOptions) : error + RankingMetric :=
  with_k k (fun n => mk_metric ("Precision@" +:+ num_to_string k) o (precision_score n)).

Definition hit_score (k : nat) (ranked relevant : list string) (_ : RetrievalEvalDatasetItem) : Scored :=
  let hit := existsb (is_relevant relevant) (take k ranked) in {|
    s_score := RQ (if hit then 1 else 0);
    s_reason := (if hit then "a relevant id is in the top " else "no relevant id in the top ") +:+ nat_text k;
    s_details := [("k", DNum (of_nat k))];
    s_passScore := None |}.

Definition HitRateAtKMetric (k : num) (o : RankingMetricOptions) : error + RankingMetric :=
  with_k k (fun n => mk_metric ("HitRate@" +:+ num_to_string k) o (hit_score n)).

(** *** Reciprocal rank *)

Definition rank_score (k : option nat) (ranked relevant : list string) (_ : RetrievalEvalDatasetItem) : Scored :=
  let considered := match k with Some n => take n ranked | None => ranked end in
  match find_index (is_relevant relevant) considered with
  | None => {| s_score := RQ 0; s_reason := "no relevant id retrieved"; s_details := [("firstRelevantRank", DNull)];
               s_passScore := None |}
  | Some index => {| s_score := RQ (1 / Q_of_nat (S index));
                     s_reason := "first relevant id at rank " +:+ nat_text (S index);
                     s_details := [("firstRelevantRank", DNum (of_nat (S index)))]; s_passScore := None |}
  end.

Definition ReciprocalRankMetric (k : option num) (o : RankingMetricOptions) : error + RankingMetric :=
  match k with
  | None => inr (mk_metric "MRR" o (rank_score None))
  | Some kn => with_k kn (fun n => mk_metric ("MRR@" +:+ num_to_string kn) o (rank_score (Some n)))
  end.

(** *** Discounted cumulative gain *)

Definition MAX_GRADE : Q := 30.

Definition grade (relevant : list string) (item : RetrievalEvalDatasetItem) (id : string) : Q :=
  if is_relevant relevant id then
    match relevanceGrades item ≫= (fun gs => js_get gs id) with
    | Some (RQ explicit) => Q_min MAX_GRADE (Q_max 0 explicit)
    | _ => 1
    end
  else 0.

(** Descending. *)
Definition by_grade (a b : Q) : bool := Qle_bool b a.

Section Gain.
Context (pow2 log2 : Q -> Q).

Definition gain (g : Q) : Q := (pow2 g - 1)%Q.
Definition discount (i : nat) : Q := log2 (Q_of_nat (i + 2)).

(** The fold, from position [i]. *)
Fixpoint dcg_from (i : nat) (sum : Q) (grades : list Q) : Q :=
  match grades with
  | [] => sum
  | g :: gs => dcg_from (S i) (sum + gain g / discount i)%Q gs
  end.

Definition dcgOf (grades : list Q) : Q := dcg_from 0 0 grades.

Definition ndcg_score (k : nat) (ranked relevant : list string) (item : RetrievalEvalDatasetItem) : Scored :=
  let dcg := dcgOf (map (grade relevant item) (take k ranked)) in
  let ideal := dcgOf (take k (stable_sort by_grade (map (grade relevant item) relevant))) in {|
    s_score := RQ (if Q_ltb 0 ideal then dcg / ideal else 0);
    s_reason := "DCG " +:+ text4 dcg +:+ " of an ideal " +:+ text4 ideal +:+ " over the top " +:+ nat_text k;
    s_details := [("k", DNum (of_nat k)); ("dcg", DNum (RQ (fixed4_Q dcg))); ("idealDcg", DNum (RQ (fixed4_Q ideal)))];
    s_passScore := None |}.

Definition NdcgAtKMetric (k : num) (o : RankingMetricOptions) : error + RankingMetric :=
  with_k k (fun n => mk_metric ("nDCG@" +:+ num_to_string k) o (ndcg_score n)).
End Gain.

(** ** The ranking *)

Definition by_relevance (sc : list (string * ratio)) (a b : RetrievedChunk) : bool := ratio_le (scoreOf sc b) (scoreOf sc a).

Lemma scoreOf_cases sc c : scoreOf sc c = RInf true \/ exists q, scoreOf sc c = RQ q.
Proof. unfold scoreOf. destruct (js_get sc (chunk_id c)) as [[q| |b]|]; eauto. Qed.

Lemma entry_le_before sc (c d : RetrievedChunk) i j :
  (i <= j)%nat -> entry_le (c, i, scoreOf sc c) (d, j, scoreOf sc d) = by_relevance sc c d.
Proof.
  intros Hij. unfold entry_le, by_relevance, ratio_eqb, ratio_lt. cbn [fst snd]. rewrite (proj2 (Nat.leb_le _ _) Hij).
  destruct (scoreOf_cases sc c) as [->|(p & ->)], (scoreOf_cases sc d) as [->|(q & ->)]; cbn; try done.
  destruct (Qle_bool p q) eqn:H1, (Qle_bool q p) eqn:H2; try done.
Qed.

Definition entries_from (n : nat) (sc : list (string * ratio)) (cs : list RetrievedChunk) : list Entry :=
  imap (fun i c => (c, (n + i)%nat, scoreOf sc c)) cs.

Lemma insert_entry sc c n (es : list Entry) :
  Forall (fun e => (n <= e.1.2)%nat /\ e.2 = scoreOf sc e.1.1) es ->
  map (fun e => e.1.1) (insert entry_le (c, n, scoreOf sc c) es) = insert (by_relevance sc) c (map (fun e => e.1.1) es).
Proof.
  induction 1 as [|[[d j] s] es [Hj Hs] Hes IH]; [done|]. cbn [fst snd] in *. subst s. cbn [insert map fst].
  rewrite entry_le_before by done. destruct (by_relevance sc c d); [done|]. cbn [map fst]. by rewrite IH.
Qed.

Lemma entries_from_ok n sc cs : Forall (fun e => (n <= e.1.2)%nat /\ e.2 = scoreOf sc e.1.1) (entries_from n sc cs).
Proof. apply Forall_forall. intros e (i & c & -> & _)%elem_of_lookup_imap_1. cbn. split; [lia|done]. Qed.

Lemma entries_from_cons n sc c cs : entries_from n sc (c :: cs) = (c, n, scoreOf sc c) :: entries_from (S n) sc cs.
Proof.
  unfold entries_from. cbn [imap]. f_equal; [by rewrite Nat.add_0_r|]. apply imap_ext. intros i x _. cbn. by rewrite Nat.add_succ_r.
Qed.

Lemma sort_entries n sc cs : map (fun e => e.1.1) (stable_sort entry_le (entries_from n sc cs)) = stable_sort (by_relevance sc) cs.
Proof.
  revert n. induction cs as [|c cs IH]; intros n; [done|]. rewrite entries_from_cons. cbn [stable_sort].
  rewrite insert_entry, IH; [done|]. rewrite stable_sort_permutation. eapply Forall_impl; [apply (entries_from_ok (S n))|].
  intros e [H1 H2]. split; [lia|done].
Qed.

Lemma by_relevance_total sc a b : by_relevance sc a b = true \/ by_relevance sc b a = true.
Proof.
  unfold by_relevance. destruct (scoreOf_cases sc a) as [->|(p & ->)], (scoreOf_cases sc b) as [->|(q & ->)]; cbn; auto.
  destruct (Qlt_le_dec p q) as [H%Qlt_le_weak|H]; [right|left]; by apply Qle_bool_iff.
Qed.

Lemma by_relevance_trans sc a b c : by_relevance sc a b = true -> by_relevance sc b c = true -> by_relevance sc a c = true.
Proof.
  unfold by_relevance. destruct (scoreOf_cases sc a) as [->|(p & ->)], (scoreOf_cases sc b) as [->|(q & ->)],
    (scoreOf_cases sc c) as [->|(r & ->)]; cbn; try done. rewrite !Qle_bool_iff. intros. by eapply Qle_trans.
Qed.

(** Chunks are ranked by relevance: every chunk once per time it was retrieved, best score
    first, those without a usable score last, and among equals in the order they were
    retrieved.  Without scores, or by order, the ranking is the order of retrieval. *)
Theorem ranking_is_by_relevance context rb :
  let ranked := rankedChunks context rb in
  let cs := default [] (chunks context) in
  ranked ≡ₚ cs /\
  (rb = ByOrder \/ default [] (scores context) = [] -> ranked = cs) /\
  (rb = ByScores -> forall sc, scores context = Some sc -> sc <> [] ->
     ordered (by_relevance sc) ranked /\
     forall s, List.filter (fun c => ratio_eqb (scoreOf sc c) s) ranked = List.filter (fun c => ratio_eqb (scoreOf sc c) s) cs).
Proof.
  assert (forall sc, map (fun e => e.1.1) (stable_sort entry_le (entries sc (default [] (chunks context)))) =
    stable_sort (by_relevance sc) (default [] (chunks context))) as Hsort by (intros; apply (sort_entries 0)).
  unfold rankedChunks. cbv zeta. destruct rb; [|by split_and!; auto].
  destruct (scores context) as [[|e sc]|]; [by split_and!; naive_solver| |by split_and!; naive_solver].
  rewrite Hsort. split_and!; [apply stable_sort_permutation|by intros [?|?]|].
  intros _ sc' [= <-] _. split.
  - apply (stable_sort_ordered _ (fun _ => True)); [| |by apply Forall_true].
    + intros. apply by_relevance_total.
    + intros x y z _ _ _. apply by_relevance_trans.
  - intros s. apply stable_sort_stable. intros x y Hx Hy. unfold by_relevance, ratio_eqb in *.
    destruct (scoreOf_cases (e :: sc) x) as [Ex|(p & Ex)], (scoreOf_cases (e :: sc) y) as [Ey|(q & Ey)], s as [r| |[]];
      rewrite ?Ex, ?Ey in *; cbn in *; try done.
    apply andb_true_iff in Hx as [H1 H2], Hy as [H3 H4]. rewrite Qle_bool_iff in *. lra.
Qed.

(** Ids: each once, those of the chunks, at its best rank. *)
Lemma set_of_app {K} `{!EqDecision K} (l1 l2 : list K) : exists l, set_of (l1 ++ l2) = set_of l1 ++ l /\ forall x, x ∈ l -> x ∈ l2 /\ x ∉ l1.
Proof.
  unfold set_of. rewrite fold_left_app. generalize (fold_set_add l1 ([] : list K)). set (s := fold_left set_add l1 []). intros Hs.
  assert (forall s0, (forall x, x ∈ l1 -> x ∈ s0) -> exists l, fold_left set_add l2 s0 = s0 ++ l /\ forall x, x ∈ l -> x ∈ l2 /\ x ∉ l1) as H.
  { clear. induction l2 as [|y l2 IH]; intros s0 Hin; cbn [fold_left]; [exists []; rewrite app_nil_r; split; [done|set_solver]|].
    unfold set_add at 2. case_bool_decide as Hy.
    - destruct (IH s0 Hin) as (l & -> & Hl). exists l. split; [done|]. set_solver.
    - destruct (IH (s0 ++ [y]) ltac:(set_solver)) as (l & -> & Hl). exists (y :: l). rewrite <- app_assoc. split; [done|].
      intros x [->|Hx]%elem_of_cons; [set_solver|]. set_solver. }
  apply H. intros x Hx. apply Hs. by right.
Qed.

(** The ids are those of the chunks, each once, and the place of an id is the number of
    different ids ranked before the first chunk that carries it. *)
Theorem ids_at_their_best_rank context mo rb :
  let ids := rankedIds context mo rb in
  let key c := matchIdOf c mo in
  NoDup ids /\ (forall id, id ∈ ids <-> exists c, c ∈ default [] (chunks context) /\ key c = id) /\
  forall before c after, rankedChunks context rb = before ++ c :: after -> key c ∉ map key before ->
    ids !! length (set_of (map key before)) = Some (key c).
Proof.
  cbv zeta. split_and!; [apply set_of_NoDup| |].
  - intros id. unfold rankedIds. rewrite elem_of_set_of, list_elem_of_fmap.
    destruct (ranking_is_by_relevance context rb) as (Hp & _). setoid_rewrite Hp. naive_solver.
  - intros before c after H Hnew. unfold rankedIds. rewrite H, map_app. cbn [map].
    rewrite cons_middle, app_assoc.
    destruct (set_of_app (map (fun c => matchIdOf c mo) before ++ [matchIdOf c mo]) (map (fun c => matchIdOf c mo) after)) as (l & -> & _).
    unfold set_of at 2. rewrite fold_left_app. cbn [fold_left]. unfold set_add at 1.
    rewrite bool_decide_false by (rewrite fold_set_add; set_solver). rewrite <- app_assoc. by apply list_lookup_middle.
Qed.

(** ** The scores *)

#[local] Open Scope Q_scope.

Lemma Q_of_nat_le m n : (m <= n)%nat <-> Q_of_nat m <= Q_of_nat n.
Proof. unfold Q_of_nat. rewrite <- Zle_Qle. lia. Qed.

Lemma Q_of_nat_nonneg n : 0 <= Q_of_nat n.
Proof. apply (Q_of_nat_le 0). lia. Qed.

Lemma Q_of_nat_pos n : n <> 0%nat -> 0 < Q_of_nat n.
Proof. intros H. apply Qlt_le_trans with 1; [done|]. apply (Q_of_nat_le 1). lia. Qed.

Lemma ratio_unit a b : 0 <= a -> a <= b -> 0 < b -> in_unit (a / b).
Proof.
  intros H0 Hab Hb. split; [apply Qle_shift_div_l; [done|lra]|]. apply Qle_shift_div_r; [done|lra].
Qed.

Lemma share_unit m n : (m <= n)%nat -> in_unit (Q_of_nat m / Q_of_nat n).
Proof.
  intros H. destruct (decide (n = 0)%nat) as [->|Hn].
  - assert (m = 0)%nat as -> by lia. by vm_compute.
  - apply ratio_unit; [apply Q_of_nat_nonneg|by apply Q_of_nat_le|by apply Q_of_nat_pos].
Qed.

Lemma fixed4_unit a : unit_ratio a -> unit_ratio (fixed4 a).
Proof.
  intros (q & -> & Hq). eexists. split; [done|]. unfold fixed4_Q. rewrite (proj2 (Q_ltb_ge q 0)) by apply Hq. by apply round_Q_unit.
Qed.

(** The hits of a ranking. *)
Lemma hits_bound k ranked relevant :
  NoDup ranked -> (length (List.filter (is_relevant relevant) (take k ranked)) <= Nat.min (length relevant) k)%nat.
Proof.
  intros Hnd. set (hits := List.filter _ _).
  assert (hits `sublist_of` take k ranked) as Hs by apply filter_sublist.
  assert (length (take k ranked) <= k)%nat by (rewrite length_take; lia).
  apply sublist_length in Hs as Hl. assert (NoDup hits) as Hh.
  { eapply sublist_NoDup; [|exact Hs]. by eapply sublist_NoDup; [|apply sublist_take]. }
  assert (hits ⊆+ relevant) as Hr%submseteq_length; [|lia].
  apply NoDup_submseteq; [done|]. intros x Hx. unfold hits in Hx. apply list_elem_of_In, filter_In in Hx as [_ Hx].
  by apply bool_decide_eq_true in Hx.
Qed.

(** ** The ideal gain is the best possible *)

(** A weighted sum, from position [i]. *)
Fixpoint weigh (w : nat -> Q) (i : nat) (l : list Q) : Q :=
  match l with [] => 0 | x :: l' => x * w i + weigh w (S i) l' end.

(** With weights that fall, a list whose prefix sums stay below another's (and what is
    carried over) weighs no more. *)
Lemma weigh_le (w : nat -> Q) x y i d :
  (forall j, 0 <= w j /\ w (S j) <= w j) -> Forall (fun g => 0 <= g) y ->
  (forall j, Qsum (take j x) <= d + Qsum (take j y)) -> weigh w i x <= d * w i + weigh w i y.
Proof.
  intros Hw. revert y i d. induction x as [|a x IH]; intros y i d Hy Hp.
  - cbn [weigh]. assert (0 <= d) as Hd by (specialize (Hp 0%nat); rewrite !take_0 in Hp; cbn in Hp; lra).
    assert (0 <= weigh w i y) as H0.
    { clear Hp. revert i. induction Hy as [|b y Hb Hy IH]; intros i; cbn [weigh]; [lra|].
      pose proof (Qmult_le_0_compat _ _ Hb (proj1 (Hw i))). specialize (IH (S i)). lra. }
    pose proof (Qmult_le_0_compat _ _ Hd (proj1 (Hw i))). lra.
  - set (b := default 0 (head y)). set (y' := tail y).
    assert (Forall (fun g => 0 <= g) y') as Hy' by (subst y'; destruct Hy; [constructor|done]).
    assert (forall j, Qsum (take (S j) y) == b + Qsum (take j y')) as Hsum.
    { intros j. subst b y'. destruct y as [|b y]; cbn; [rewrite take_nil; cbn; lra|lra]. }
    assert (weigh w i y == b * w i + weigh w (S i) y') as Ey by (subst b y'; destruct y; cbn; lra).
    assert (0 <= d + b - a) as Hd.
    { specialize (Hp 1%nat). rewrite Hsum, take_0 in Hp. cbn in Hp. rewrite take_0 in Hp. cbn in Hp. lra. }
    specialize (IH y' (S i) (d + b - a) Hy'). cbn [weigh]. rewrite Ey.
    assert (weigh w (S i) x <= (d + b - a) * w (S i) + weigh w (S i) y') as IH1.
    { apply IH. intros j. specialize (Hp (S j)). rewrite Hsum in Hp. cbn in Hp. lra. }
    assert ((d + b - a) * w (S i) <= (d + b - a) * w i) as Hmul.
    { rewrite !(Qmult_comm (d + b - a)). apply Qmult_le_compat_r; [apply Hw|done]. }
    lra.
Qed.

Lemma Qsum_perm l1 l2 : l1 ≡ₚ l2 -> Qsum l1 == Qsum l2.
Proof. induction 1; cbn; lra. Qed.

(** No [j] elements of a list sum to more than its [j] greatest. *)
Lemma greatest_sum (t s : list Q) j :
  ordered by_grade t -> Forall (fun g => 0 <= g) t -> s ⊆+ t -> (length s <= j)%nat -> Qsum s <= Qsum (take j t).
Proof.
  revert s j. induction t as [|g t IH]; intros s j Ho Ht Hs Hl.
  { apply submseteq_nil_r in Hs as ->. by rewrite take_nil. }
  destruct Ho as [Hg Ho]. apply Forall_cons in Ht as [Hg0 Ht]. destruct j as [|j].
  { destruct s; [done|cbn in Hl; lia]. }
  cbn [take Qsum]. apply submseteq_cons_r in Hs as [Hs|(s' & Hp & Hs')].
  - destruct s as [|a s]; [specialize (IH [] j Ho Ht ltac:(apply submseteq_nil_l) ltac:(cbn; lia)); cbn in *; lra|].
    assert (a <= g) as Hag.
    { rewrite Forall_forall in Hg. apply Qle_bool_iff, Hg. eapply elem_of_submseteq; [|exact Hs]. by left. }
    assert (s ⊆+ t) as Hs2 by (etrans; [|exact Hs]; by apply submseteq_cons).
    specialize (IH s j Ho Ht Hs2 ltac:(cbn in Hl; lia)). cbn. lra.
  - assert (Qsum s == g + Qsum s') as ->.
    { clear -Hp. change (g + Qsum s') with (Qsum (g :: s')). by apply Qsum_perm. }
    apply Permutation_length in Hp. cbn in Hp. specialize (IH s' j Ho Ht Hs' ltac:(lia)). lra.
Qed.

Lemma by_grade_sorted l : ordered by_grade (stable_sort by_grade l).
Proof.
  apply (stable_sort_ordered _ (fun _ => True)); [| |by apply Forall_true]; unfold by_grade.
  - intros x y _ _. rewrite !Qle_bool_iff. destruct (Qlt_le_dec x y); [right|left]; lra.
  - intros x y z _ _ _. rewrite !Qle_bool_iff. lra.
Qed.

Lemma ordered_map {A B} (f : A -> B) (leA : A -> A -> bool) (leB : B -> B -> bool) (P : A -> Prop) l :
  (forall x y, P x -> P y -> leA x y = true -> leB (f x) (f y) = true) -> Forall P l -> ordered leA l -> ordered leB (map f l).
Proof.
  intros Hf. induction 1 as [|x l Hx Hl IH]; [done|]. intros [Hxl Ho]. split; [|auto].
  apply Forall_fmap, Forall_forall. intros y Hy. rewrite Forall_forall in Hl, Hxl. apply Hf; auto.
Qed.

Definition in_grades (g : Q) : Prop := 0 <= g /\ g <= MAX_GRADE.

Lemma grade_bounds relevant item id : in_grades (grade relevant item id).
Proof.
  unfold grade, in_grades, MAX_GRADE, Q_min, Q_max. destruct (is_relevant relevant id); [|lra].
  destruct (_ ≫= _) as [[q| |b]|]; [|lra..]. destruct (Qle_bool 0 q) eqn:H0.
  - destruct (Qle_bool 30 q) eqn:H1; [lra|]. apply Qle_bool_iff in H0. apply Qle_bool_false in H1. lra.
  - split; vm_compute; congruence.
Qed.

Section Ndcg.
Context (pow2 log2 : Q -> Q).
Context (Hpow0 : pow2 0 == 1) (Hpow : forall a b, 0 <= a -> a <= b -> b <= MAX_GRADE -> pow2 a <= pow2 b).
Context (Hlog : forall n, (2 <= n)%nat -> 0 < log2 (Q_of_nat n) /\ log2 (Q_of_nat n) <= log2 (Q_of_nat (S n))).

Definition weight (i : nat) : Q := / discount log2 i.

Lemma weight_falls j : 0 <= weight j /\ weight (S j) <= weight j.
Proof using Hlog.
  unfold weight, discount. destruct (Hlog (j + 2) ltac:(lia)) as [H0 H1]. split; [by apply Qlt_le_weak, Qinv_lt_0_compat|].
  change (S j + 2)%nat with (S (j + 2)). destruct (Hlog (S (j + 2)) ltac:(lia)) as [H2 _].
  apply Qle_shift_inv_l; [done|]. rewrite Qmult_comm. apply Qle_shift_div_r; [done|]. lra.
Qed.

Lemma dcg_from_weigh i sum l : dcg_from pow2 log2 i sum l == sum + weigh weight i (map (gain pow2) l).
Proof.
  revert i sum. induction l as [|g l IH]; intros i sum; cbn [dcg_from map weigh]; [lra|]. rewrite IH. unfold weight, Qdiv. lra.
Qed.

Lemma gain_nonneg g : in_grades g -> 0 <= gain pow2 g.
Proof using Hpow Hpow0. intros [H0 H1]. unfold gain. pose proof (Hpow 0 g ltac:(lra) H0 H1). lra. Qed.

Lemma gain_mono a b : in_grades a -> in_grades b -> by_grade a b = true -> by_grade (gain pow2 a) (gain pow2 b) = true.
Proof using Hpow.
  intros Ha Hb. unfold by_grade, gain. rewrite !Qle_bool_iff. intros Hba. pose proof (Hpow b a (proj1 Hb) Hba (proj2 Ha)). lra.
Qed.

Lemma weigh_nonneg i l : Forall (fun g => 0 <= g) l -> 0 <= weigh weight i l.
Proof using Hlog.
  intros H. revert i. induction H as [|g l Hg Hl IH]; intros i; cbn; [lra|].
  pose proof (Qmult_le_0_compat _ _ Hg (proj1 (weight_falls i))). specialize (IH (S i)). lra.
Qed.

Lemma dcg_nonneg l : Forall in_grades l -> 0 <= dcgOf pow2 log2 l.
Proof using Hlog Hpow Hpow0.
  intros H. unfold dcgOf. rewrite dcg_from_weigh. assert (Forall (fun g => 0 <= g) (map (gain pow2) l)) as Hg.
  { apply Forall_fmap. eapply Forall_impl; [exact H|]. intros g. apply gain_nonneg. }
  pose proof (weigh_nonneg 0 _ Hg). lra.
Qed.

(** The irrelevant ids of a ranking gain nothing. *)
Lemma gains_of_hits relevant item l :
  Qsum (map (gain pow2) (map (grade relevant item) l)) ==
  Qsum (map (gain pow2) (map (grade relevant item) (List.filter (is_relevant relevant) l))).
Proof using Hpow0.
  induction l as [|id l IH]; [done|]. cbn [map Qsum List.filter]. destruct (is_relevant relevant id) eqn:Hid.
  - cbn [map Qsum]. rewrite IH. lra.
  - rewrite IH. unfold grade at 1. rewrite Hid. unfold gain at 1. lra.
Qed.

Lemma dcg_within_ideal k relevant item ranked :
  NoDup ranked -> 
  dcgOf pow2 log2 (map (grade relevant item) (take k ranked)) <=
  dcgOf pow2 log2 (take k (stable_sort by_grade (map (grade relevant item) relevant))).
Proof using Hlog Hpow Hpow0.
  intros Hnd. unfold dcgOf. rewrite !dcg_from_weigh. set (T := stable_sort _ _).
  assert (Forall in_grades T) as HT.
  { unfold T. rewrite stable_sort_permutation. apply Forall_fmap, Forall_true. intros. apply grade_bounds. }
  assert (ordered by_grade (map (gain pow2) T)) as Ho.
  { eapply ordered_map; [|exact HT|apply by_grade_sorted]. intros. by apply gain_mono. }
  assert (Forall (fun g => 0 <= g) (map (gain pow2) T)) as Hpos.
  { apply Forall_fmap. eapply Forall_impl; [exact HT|]. intros g. apply gain_nonneg. }
  pose proof (weigh_le weight (map (gain pow2) (map (grade relevant item) (take k ranked))) (map (gain pow2) (take k T)) 0 0 weight_falls) as H.
  cut (weigh weight 0 (map (gain pow2) (map (grade relevant item) (take k ranked))) <=
       0 * weight 0 + weigh weight 0 (map (gain pow2) (take k T))); [lra|].
  apply H; [by rewrite <- List.firstn_map; apply Forall_take|]. intros j.
  rewrite <- (List.firstn_map (gain pow2) k T), !List.firstn_map, !take_take, gains_of_hits, Qplus_0_l, <- (List.firstn_map (gain pow2) _ T).
  apply greatest_sum; [done|done| |].
  - unfold T. rewrite stable_sort_permutation. apply fmap_submseteq, fmap_submseteq, NoDup_submseteq.
    + eapply sublist_NoDup; [|apply filter_sublist]. by eapply sublist_NoDup; [|apply sublist_take].
    + intros x Hx. apply list_elem_of_In, filter_In in Hx as [_ Hx]. by apply bool_decide_eq_true in Hx.
  - rewrite !length_map. etrans; [apply sublist_length, filter_sublist|]. rewrite length_take. lia.
Qed.

(** *** Every score is a share *)

Inductive built_in : RankingMetric -> Prop :=
| IsRecall k o m : RecallAtKMetric k o = inr m -> built_in m
| IsPrecision k o m : PrecisionAtKMetric k o = inr m -> built_in m
| IsHitRate k o m : HitRateAtKMetric k o = inr m -> built_in m
| IsReciprocalRank k o m : ReciprocalRankMetric k o = inr m -> built_in m
| IsNdcg k o m : NdcgAtKMetric pow2 log2 k o = inr m -> built_in m.

Definition sound_score (f : list string -> list string -> RetrievalEvalDatasetItem -> Scored) : Prop :=
  forall ranked relevant item, NoDup ranked -> relevant <> [] ->
    unit_ratio (s_score (f ranked relevant item)) /\ forall p, s_passScore (f ranked relevant item) = Some p -> unit_ratio p.

Lemma recall_sound k : sound_score (recall_score k).
Proof.
  intros ranked relevant item Hnd _. split; [|done]. eexists. split; [done|]. apply share_unit.
  pose proof (hits_bound k ranked relevant Hnd). lia.
Qed.

Lemma assertK_pos k n : assertK k = inr n -> n <> 0%nat.
Proof.
  unfold assertK, positive_integer. destruct (num_to_Z k) as [z|]; [|done]. destruct (1 <=? z)%Z eqn:H; [|done].
  intros [= <-]. apply Z.leb_le in H. lia.
Qed.

Lemma precision_pass h r k :
  k <> 0%nat -> r <> 0%nat -> Q_of_nat h / Q_of_nat k / (Q_of_nat (Nat.min r k) / Q_of_nat k) == Q_of_nat h / Q_of_nat (Nat.min r k).
Proof.
  intros Hk Hr. pose proof (Q_of_nat_pos k Hk) as H1. pose proof (Q_of_nat_pos (Nat.min r k) ltac:(lia)) as H2. field. split; lra.
Qed.

Lemma unit_eq p q : p == q -> in_unit q -> in_unit p.
Proof. unfold in_unit. intros ->. done. Qed.

Lemma precision_sound k : k <> 0%nat -> sound_score (precision_score k).
Proof.
  intros Hk ranked relevant item Hnd Hrel. pose proof (hits_bound k ranked relevant Hnd) as Hb.
  split; [eexists; split; [done|]; apply share_unit; lia|]. intros p [= <-]. eexists. split; [done|].
  eapply unit_eq; [apply precision_pass; [done|]|by apply share_unit]. by destruct relevant.
Qed.

Lemma hit_sound k : sound_score (hit_score k).
Proof. intros ranked relevant item _ _. split; [|done]. eexists. split; [done|]. by destruct (existsb _ _). Qed.

Lemma rank_sound k : sound_score (rank_score k).
Proof.
  intros ranked relevant item _ _. unfold rank_score. destruct (find_index _ _) as [i|]; (split; [|done]); eexists; (split; [done|]); [|done].
  apply (share_unit 1). lia.
Qed.

Lemma ndcg_sound k : sound_score (ndcg_score pow2 log2 k).
Proof using Hlog Hpow Hpow0.
  intros ranked relevant item Hnd _. split; [|done]. eexists. split; [done|]. cbv zeta.
  set (ideal := dcgOf _ _ (take k (stable_sort _ _))). destruct (Q_ltb 0 ideal) eqn:Hi; [|done].
  apply Q_ltb_lt in Hi. apply ratio_unit; [|by apply dcg_within_ideal|done].
  apply dcg_nonneg, Forall_fmap, Forall_true. intros. apply grade_bounds.
Qed.

Lemma built_in_sound m : built_in m -> sound_score (score_ranked m).
Proof using Hlog Hpow Hpow0.
  assert (forall k f m, with_k k f = inr m -> exists n, n <> 0%nat /\ m = f n) as Hk.
  { intros k f m0. unfold with_k. destruct (assertK k) as [|n] eqn:Hn; [done|]. intros [= <-]. exists n. split; [by eapply assertK_pos|done]. }
  destruct 1 as [k o m0 E|k o m0 E|k o m0 E|k o m0 E|k o m0 E].
  - apply Hk in E as (n & Hn & ->). apply recall_sound.
  - apply Hk in E as (n & Hn & ->). by apply precision_sound.
  - apply Hk in E as (n & Hn & ->). apply hit_sound.
  - destruct k as [k|]; [apply Hk in E as (n & Hn & ->)|injection E as <-]; apply rank_sound.
  - apply Hk in E as (n & Hn & ->). apply ndcg_sound.
Qed.

(** Every score of a built-in retrieval metric is a share between 0 and 1, whatever the
    retriever returned: scores that are not numbers, ids retrieved twice, relevant ids
    labelled twice, grades out of range.  An item without relevant ids is not passed and
    scores 0; of any other, the metric is passed when the number it decides on, itself a
    share and rounded as the score is, reaches the threshold. *)
Theorem retrieval_scores_are_shares m item context :
  built_in m ->
  let r := evaluate m item context in
  metricName r = name m /\ unit_ratio (score r) /\
  (relevantIds item = [] -> passed r = false /\ score r = RQ 0) /\
  (relevantIds item <> [] -> exists q, unit_ratio q /\ passed r = meets q (threshold m)).
Proof using Hlog Hpow Hpow0.
  intros Hm. cbv zeta. unfold evaluate. assert (forall l : list string, set_of l = [] <-> l = []) as Hempty.
  { intros l. split; [|by intros ->]. intros E. destruct l as [|x l]; [done|]. assert (x ∈ set_of (x :: l)) as Hx by (apply elem_of_set_of; by left).
    rewrite E in Hx. by apply elem_of_nil in Hx. }
  destruct (set_of (relevantIds item)) as [|id ids] eqn:Hr.
  { apply (proj1 (Hempty _)) in Hr. split_and!; [done|by eexists|done|intros E; by destruct (E Hr)]. }
  destruct (ids_at_their_best_rank context (matchOn m) (rankBy m)) as (Hnd & _).
  destruct (built_in_sound m Hm _ (id :: ids) item Hnd ltac:(done)) as [(q & Hs & Hq) Hp]. rewrite Hs. cbn [finite negb].
  assert (forall a, unit_ratio a -> unit_ratio (fixed4 a)) as Hf by apply fixed4_unit.
  split_and!; [done| | |].
  - apply Hf. by exists q.
  - intros E. rewrite E in Hr. done.
  - intros _. eexists. split; [|done]. apply Hf. destruct (s_passScore _) as [p|] eqn:Ep; [by apply Hp|by exists q].
Qed.
End Ndcg.

(** ** The metrics agree *)

Definition quality (s : Scored) : Q := match s_score s with RQ q => q | _ => 0 end.

Lemma find_index_exists {A} (p : A -> bool) l : existsb p l = is_some (find_index p l).
Proof. induction l as [|x l IH]; [done|]. cbn. destruct (p x); [done|]. cbn. rewrite IH. by destruct (find_index p l). Qed.

Lemma find_index_first {A} (p : A -> bool) l i :
  find_index p l = Some i <-> (exists x, l !! i = Some x /\ p x = true) /\ forall j x, (j < i)%nat -> l !! j = Some x -> p x = false.
Proof.
  revert i. induction l as [|x l IH]; intros i; cbn [find_index].
  { split; [done|]. by intros [(x & Hx & _) _]. }
  destruct (p x) eqn:Hp.
  - split.
    + intros [= <-]. split; [by exists x|]. intros j y Hj. lia.
    + intros [(y & Hy & Hpy) Hno]. destruct i as [|i]; [done|]. specialize (Hno 0%nat x ltac:(lia) eq_refl). congruence.
  - destruct i as [|i].
    + split; [by destruct (find_index p l)|]. intros [(y & [= <-] & Hpy) _]. congruence.
    + assert (S <$> find_index p l = Some (S i) <-> find_index p l = Some i) as ->.
      { destruct (find_index p l) as [n|]; cbn; [|done]. split; by intros [= ->]. }
      rewrite IH. split; intros [(y & Hy & Hpy) Hno]; (split; [by exists y|]).
      * intros [|j] z Hj Hz; [by injection Hz as <-|]. eapply (Hno j); [lia|done].
      * intros j z Hj Hz. eapply (Hno (S j)); [lia|done].
Qed.

Lemma filter_hit {A} (p : A -> bool) l : existsb p l = negb (length (List.filter p l) =? 0)%nat.
Proof. induction l as [|x l IH]; [done|]. cbn. by destruct (p x). Qed.

Lemma share_pos m n : n <> 0%nat -> (0 < Q_of_nat m / Q_of_nat n <-> m <> 0%nat).
Proof.
  intros Hn. pose proof (Q_of_nat_pos n Hn) as H. split.
  - intros Hm ->. assert (Q_of_nat 0 / Q_of_nat n == 0) as E by (unfold Qdiv; change (Q_of_nat 0) with 0; lra). rewrite E in Hm. lra.
  - intros Hm. apply Qlt_shift_div_l; [done|]. rewrite Qmult_0_l. by apply Q_of_nat_pos.
Qed.

Lemma first_hit relevant l i :
  find_index (is_relevant relevant) l = Some i <->
  (exists id, l !! i = Some id /\ id ∈ relevant) /\ forall j id, (j < i)%nat -> l !! j = Some id -> id ∉ relevant.
Proof.
  rewrite find_index_first. unfold is_relevant. setoid_rewrite bool_decide_eq_true. setoid_rewrite bool_decide_eq_false. done.
Qed.

Lemma reciprocal_inj i j : 1 / Q_of_nat (S i) == 1 / Q_of_nat (S j) -> i = j.
Proof.
  intros E. pose proof (Q_of_nat_pos (S i) ltac:(lia)) as Hi. pose proof (Q_of_nat_pos (S j) ltac:(lia)) as Hj.
  assert (Q_of_nat (S i) == Q_of_nat (S j)) as H.
  { transitivity (/ (1 / Q_of_nat (S i))); [field; lra|]. rewrite E. field. lra. }
  pose proof (proj2 (Q_of_nat_le (S i) (S j)) ltac:(lra)). pose proof (proj2 (Q_of_nat_le (S j) (S i)) ltac:(lra)). lia.
Qed.

(** The metrics measure one ranking alike: recall and precision count the same hits, one as
    a share of what is relevant and the other of the slots; all four are above 0 in the same
    cases, exactly when the hit rate is 1; and the reciprocal rank is 1 over the rank of
    the first relevant id among the top [k]. *)
Theorem metrics_agree k ranked relevant item :
  k <> 0%nat -> relevant <> [] ->
  let recall := quality (recall_score k ranked relevant item) in
  let precision := quality (precision_score k ranked relevant item) in
  let hit := quality (hit_score k ranked relevant item) in
  let reciprocal := quality (rank_score (Some k) ranked relevant item) in
  precision * Q_of_nat k == recall * Q_of_nat (length relevant) /\
  (0 < recall <-> hit = 1) /\ (0 < precision <-> hit = 1) /\ (0 < reciprocal <-> hit = 1) /\ (hit = 1 \/ hit = 0) /\
  forall i, reciprocal == 1 / Q_of_nat (S i) <->
    (exists id, take k ranked !! i = Some id /\ id ∈ relevant) /\
    forall j id, (j < i)%nat -> take k ranked !! j = Some id -> id ∉ relevant.
Proof.
  intros Hk Hrel. assert (length relevant <> 0%nat) as Hr by (by destruct relevant). cbv zeta.
  unfold quality, recall_score, precision_score, hit_score. cbn [s_score]. rewrite filter_hit.
  set (hits := length (List.filter _ _)). pose proof (Q_of_nat_pos k Hk) as Hkq. pose proof (Q_of_nat_pos _ Hr) as Hrq.
  assert (existsb (is_relevant relevant) (take k ranked) = true <-> hits <> 0%nat) as Hany.
  { rewrite filter_hit. fold hits. destruct (Nat.eqb_spec hits 0); naive_solver. }
  assert ((if negb (hits =? 0)%nat then 1 else 0) = 1 <-> hits <> 0%nat) as Hhit by (destruct (Nat.eqb_spec hits 0); naive_solver).
  rewrite Hhit, !share_pos by done. split_and!; [field; split; lra|done|done| |by destruct (Nat.eqb_spec hits 0); [right|left]|].
  - unfold rank_score. rewrite <- Hany, find_index_exists. destruct (find_index _ _) as [i|]; cbn [s_score is_some]; [|split; [lra|done]].
    rewrite (share_pos 1 (S i)); [|done]. naive_solver.
  - intros i. unfold rank_score. rewrite <- (first_hit relevant (take k ranked) i). destruct (find_index _ _) as [i'|]; cbn [s_score].
    + split; [|by intros [= ->]]. intros E. f_equal. by apply reciprocal_inj.
    + split; [|done]. intros E. pose proof (proj2 (share_pos 1 (S i) ltac:(lia)) ltac:(lia)) as Hp. change (Q_of_nat 1) with 1 in Hp. lra.
Qed.

(** ** A retrieval *)

Definition demo_chunk (id : string) (parent : option string) : RetrievedChunk := {|
  chunk_id := id; parentId := parent; content := "text of " +:+ id; metadata := None |}.

Definition demo_context : RetrievalContext := {|
  ctx_query := "refunds"; chunks := Some [demo_chunk "a1" (Some "a"); demo_chunk "b1" (Some "b"); demo_chunk "a2" (Some "a");
                                          demo_chunk "c1" None; demo_chunk "b1" (Some "b")];
  scores := Some [("a1", RQ (3 # 10)); ("b1", RQ (9 # 10)); ("a2", RNaN); ("c1", RQ (3 # 10))];
  hydratedParentContext := None; compressedContext := None; graphContext := None; relationalFacts := None |}.

Definition demo_item : RetrievalEvalDatasetItem := {|
  item_id := "q1"; item_query := "refunds"; relevantIds := ["c1"; "a2"; "c1"];
  relevanceGrades := Some [("a2", RQ 3); ("c1", RNaN); ("b1", RQ 3)]; expectedAnswer := None; item_filter := None |}.

Definition plain_options : RankingMetricOptions := {| o_threshold := None; o_matchOn := None; o_rankBy := None; o_name := None |}.

(** Powers and logarithms of whole numbers, rounded down. *)
Definition step_pow2 (g : Q) : Q := inject_Z (2 ^ Qfloor g).
Definition step_log2 (n : Q) : Q := inject_Z (Z.log2 (Qfloor n)).

Lemma step_pow2_mono a b : 0 <= a -> a <= b -> b <= MAX_GRADE -> step_pow2 a <= step_pow2 b.
Proof.
  intros _ Hab _. unfold step_pow2. rewrite <- Zle_Qle. apply Z.pow_le_mono_r; [done|]. by apply Qfloor_resp_le.
Qed.

Lemma step_log2_rises n : (2 <= n)%nat -> 0 < step_log2 (Q_of_nat n) /\ step_log2 (Q_of_nat n) <= step_log2 (Q_of_nat (S n)).
Proof.
  intros Hn. unfold step_log2, Q_of_nat. rewrite !Qfloor_Z. split.
  - change 0 with (inject_Z 0). rewrite <- Zlt_Qlt. apply Z.log2_pos. lia.
  - rewrite <- Zle_Qle. apply Z.log2_le_mono. lia.
Qed.

Example demo_ranking :
  map chunk_id (rankedChunks demo_context ByScores) = ["b1"; "b1"; "a1"; "c1"; "a2"] /\
  rankedIds demo_context MatchId ByScores = ["b1"; "a1"; "c1"; "a2"] /\
  rankedIds demo_context MatchParent ByOrder = ["a"; "b"; "c1"].
Proof. by vm_compute. Qed.

Definition demo_ndcg : RankingMetric := mk_metric "nDCG@3" plain_options (ndcg_score step_pow2 step_log2 3).

Lemma retrieval_scores_are_shares_witness :
  unit_ratio (score (evaluate demo_ndcg demo_item demo_context)) /\
  passed (evaluate demo_ndcg demo_item demo_context) = false /\
  score (evaluate demo_ndcg demo_item demo_context) = RQ (625 # 10000).
Proof.
  split; [|by vm_compute].
  apply (retrieval_scores_are_shares step_pow2 step_log2); [done|by apply step_pow2_mono|by apply step_log2_rises|].
  by eapply (IsNdcg _ _ (num_of_Z 3) plain_options).
Defined.

Lemma metrics_agree_witness :
  quality (rank_score (Some 3%nat) (rankedIds demo_context MatchId ByScores) ["c1"; "a2"] demo_item) == 1 / Q_of_nat 3 /\
  (0 < quality (recall_score 3 (rankedIds demo_context MatchId ByScores) ["c1"; "a2"] demo_item) <->
   quality (hit_score 3 (rankedIds demo_context MatchId ByScores) ["c1"; "a2"] demo_item) = 1).
Proof.
  destruct (metrics_agree 3 (rankedIds demo_context MatchId ByScores) ["c1"; "a2"] demo_item) as (_ & H1 & _ & _ & _ & H2); [done|done|].
  split; [|exact H1]. apply H2. split; [exists "c1"; split; [by vm_compute|by left]|]. intros [|[|j]] id Hj; [| |lia]; intros [= <-]; apply (bool_decide_unpack _); by vm_compute.
Defined.
End Ranking.
