(* ===== verification/RetrievalBenchmark.v ===== *)
(** * Benchmarking retrieval (packages/evaluation/src/runner/retrieval-benchmark.runner.ts,
      packages/evaluation/src/metrics/retrieval/faithfulness.metric.ts)

    The runner over a labelled query set and the metric that judges answers.  The
    retriever, the answer function, the judge and metrics of the user's are arbitrary
    functions of a world, which may throw. *)

From Stdlib Require Import Ascii Qround.
From S2P Require Export Ranking.

#[local] Open Scope string_scope.
#[local] Open Scope list_scope.
#[local] Open Scope Z_scope.
#[local] Open Scope eff_scope.

Module RetrievalBenchmark.
Import Consensus Retrieval MemoryScoring Ranking.

(** What a faithfulness judge sees. *)
Record FaithfulnessJudgeInput : Type := {
  j_query : string;
  j_answer : string;
  j_contexts : list string;
  j_expectedAnswer : option string;
}.

Inductive event : Type :=
| Retrieve (query : string) (topK : num) (filter : option obj)
| Answer (id : string)
| Judge (input : FaithfulnessJudgeInput)
| Measure (metric id : string).

Record RetrievalEvalItemResult : Type := {
  r_item : RetrievalEvalDatasetItem;
  retrievedIds : list string;
  r_answer : option string;
  r_metrics : list MetricResult;
  overallPassed : bool;
  r_score : ratio;
  r_error : option string;
  answerError : option string;
}.

Record RetrievalBenchmarkSummary : Type := {
  totalItems : nat;
  passedItems : nat;
  failedItems : nat;
  passRate : ratio;
  metricAverages : list (string * ratio);
  averageScore : ratio;
  itemResults : list RetrievalEvalItemResult;
}.

Section Benchmark.
Context {W : Type}.
Notation M := (M error event W).

Record RetrievalEvalMetric : Type := {
  m_name : string;
  m_evaluate : RetrievalEvalDatasetItem -> RetrievalContext -> option string -> W -> outcome error MetricResult * W;
}.

(** A rank-based metric answers at once. *)
Definition of_ranking (m : RankingMetric) : RetrievalEvalMetric := {|
  m_name := name m; m_evaluate := fun item context _ w => (Ret (evaluate m item context), w) |}.

(** ** Faithfulness (faithfulness.metric.ts) *)

Record FaithfulnessMetricOptions : Type := {
  f_threshold : option num;
  maxContexts : option num;
  f_rankBy : option RankBy;
  contexts : option (RetrievalContext -> error + list string);
  f_name : option string;
}.

Definition FaithfulnessJudge : Type := FaithfulnessJudgeInput -> W -> outcome error (ratio * string) * W.

(** [l.slice(0, maxContexts)] *)
Definition first_contexts (n : option num) (l : list string) : list string :=
  match n with
  | Some k => match positive_integer k with Some z => take (Z.to_nat z) l | None => l end
  | None => l
  end.

Definition some_text (o : option string) : list string :=
  match o with Some t => if truthy t then [t] else [] | None => [] end.

Definition defaultContexts (o : FaithfulnessMetricOptions) (context : RetrievalContext) : list string :=
  let passages := map content (rankedChunks context (default ByScores (f_rankBy o))) in
  let extra := some_text (hydratedParentContext context) ++ some_text (compressedContext context) ++
               some_text (graphContext context) ++ List.filter truthy (default [] (relationalFacts context)) in
  first_contexts (maxContexts o) passages ++ extra.

Definition no_answer : string :=
  "No answer to judge: configure RetrievalBenchmarkRunner with an `answer` function, or see the item's answerError.".

Definition not_finite : error := NativeErr "RangeError" "the faithfulness judge must return a finite score".

(** [Math.min(1, Math.max(0, a))] *)
Definition unit_clamp (a : ratio) : ratio := ratio_min (RQ 1) (ratio_max (RQ 0) a).

Definition judge_faithfulness (name : string) (threshold : num) (judge : FaithfulnessJudge) (input : FaithfulnessJudgeInput)
    : M MetricResult :=
  emit (Judge input) ;;
  let* (s, why) := lift (judge input) in
  if negb (finite s) then throw not_finite
  else
    let normalized := fixed4 (unit_clamp s) in
    ret {| metricName := name; passed := meets normalized threshold; score := normalized; reason := Some why;
           details := Some [("contexts", DNum (of_nat (length (j_contexts input))))] |}.

Definition faithfulness_evaluate (judge : FaithfulnessJudge) (o : FaithfulnessMetricOptions)
    (item : RetrievalEvalDatasetItem) (context : RetrievalContext) (answer : option string) : M MetricResult :=
  let name := default "Faithfulness" (f_name o) in
  match answer with
  | None => ret (failed name no_answer)
  | Some text =>
      cs <- match contexts o with
            | Some f => match f context with inl e => throw e | inr cs => ret cs end
            | None => ret (defaultContexts o context)
            end ;;
      catch (judge_faithfulness name (default (NDec 7 (-1)) (f_threshold o)) judge
               {| j_query := item_query item; j_answer := text; j_contexts := cs; j_expectedAnswer := expectedAnswer item |})
        (fun e => ret (failed name ("Faithfulness judge failed: " +:+ error_text e)))
  end.

Definition FaithfulnessMetric (judge : FaithfulnessJudge) (o : FaithfulnessMetricOptions) : error + RetrievalEvalMetric :=
  let metric := {| m_name := default "Faithfulness" (f_name o); m_evaluate := fun item context text w => (faithfulness_evaluate judge o item context text w).1 |} in
  match maxContexts o with
  | Some n =>
      match positive_integer n with
      | Some _ => inr metric
      | None => inl (NativeErr "RangeError" ("maxContexts must be a positive integer, received " +:+ num_to_string n +:+ "."))
      end
  | None => inr metric
  end.

(** ** What can be benchmarked *)

(** A retriever may return something that is not an object, rendered by [String]. *)
Definition Retriever : Type := string -> num -> option obj -> W -> outcome error (RetrievalContext + string) * W.

(** Chunks with their scores. *)
Definition ScoredQuery : Type := string -> num -> option obj -> W -> outcome error (list (RetrievedChunk * ratio)) * W.

(** A function, an object with the methods it has, or neither. *)
Inductive RetrievalSource : Type :=
| SourceFunction (f : Retriever)
| SourceObject (executePipeline : option Retriever) (queryChunksScored : option ScoredQuery)
| SourceOther.

Definition scored_context (query : string) (scored : list (RetrievedChunk * ratio)) : RetrievalContext := {|
  ctx_query := query; chunks := Some (map fst scored); scores := Some (js_of_entries (map (fun s => (chunk_id s.1, s.2)) scored));
  hydratedParentContext := None; compressedContext := None; graphContext := None; relationalFacts := None |}.

Definition toRetriever (source : RetrievalSource) : error + Retriever :=
  match source with
  | SourceFunction f => inr f
  | SourceObject (Some pipeline) _ => inr pipeline
  | SourceObject None (Some queryChunksScored) =>
      inr (fun query topK filter w =>
        match queryChunksScored query topK filter w with
        | (Ret scored, w') => (Ret (inl (scored_context query scored)), w')
        | (Throw e, w') => (Throw e, w')
        | (Diverge, w') => (Diverge, w')
        end)
  | _ => inl (NativeErr "TypeError" ("RetrievalBenchmarkRunner needs a Retriever function, an object with executePipeline() " +:+
                "(RAGPipeline), or one with queryChunksScored() (KnowledgeBase)."))
  end.

(** ** The runner *)

Record RetrievalBenchmarkRunnerOptions : Type := {
  bo_metrics : option (list RetrievalEvalMetric);
  bo_topK : option num;
  bo_k : option num;
  bo_matchOn : option RelevanceMatch;
  bo_rankBy : option RankBy;
  bo_answer : option (RetrievalEvalDatasetItem -> RetrievalContext -> W -> outcome error string * W);
}.

Record RetrievalBenchmarkRunner : Type := {
  retrieve : Retriever;
  metrics : list RetrievalEvalMetric;
  topK : num;
  b_matchOn : RelevanceMatch;
  b_rankBy : RankBy;
  answer : option (RetrievalEvalDatasetItem -> RetrievalContext -> W -> outcome error string * W);
}.

Definition assertPositiveInteger (what : string) (v : num) : option error :=
  match positive_integer v with
  | Some _ => None
  | None => Some (NativeErr "RangeError" (what +:+ " must be a positive integer, received " +:+ num_to_string v +:+ "."))
  end.

(** The first name that occurs again. *)
Fixpoint repeated (seen : list string) (ms : list RetrievalEvalMetric) : option string :=
  match ms with
  | [] => None
  | m :: ms' => if bool_decide (m_name m ∈ seen) then Some (m_name m) else repeated (set_add seen (m_name m)) ms'
  end.

Section Construct.
Context (pow2 log2 : Q -> Q).

Definition default_metrics (k : num) (mo : RelevanceMatch) (rb : RankBy) : error + list RetrievalEvalMetric :=
  let shared := {| o_threshold := None; o_matchOn := Some mo; o_rankBy := Some rb; o_name := None |} in
  match RecallAtKMetric k shared, PrecisionAtKMetric k shared, ReciprocalRankMetric (Some k) shared,
        NdcgAtKMetric pow2 log2 k shared with
  | inr a, inr b, inr c, inr d => inr (map of_ranking [a; b; c; d])
  | inl e, _, _, _ | _, inl e, _, _ | _, _, inl e, _ | _, _, _, inl e => inl e
  end.

Definition mk_runner (source : RetrievalSource) (o : RetrievalBenchmarkRunnerOptions) : error + RetrievalBenchmarkRunner :=
  let top := default (num_of_Z 5) (bo_topK o) in
  let k := default top (bo_k o) in
  let mo := default MatchId (bo_matchOn o) in
  let rb := default ByScores (bo_rankBy o) in
  match assertPositiveInteger "topK" top with
  | Some e => inl e
  | None =>
      match assertPositiveInteger "k" k with
      | Some e => inl e
      | None =>
          match toRetriever source with
          | inl e => inl e
          | inr f =>
              match match bo_metrics o with Some ms => inr ms | None => default_metrics k mo rb end with
              | inl e => inl e
              | inr ms =>
                  match repeated [] ms with
                  | Some n => inl (NativeErr "Error" ("Two metrics are named " +:+ in_quotes n +:+
                                    ", so their averages would collide. Give one a distinct name."))
                  | None => inr {| retrieve := f; metrics := ms; topK := top; b_matchOn := mo; b_rankBy := rb;
                                   answer := bo_answer o |}
                  end
              end
          end
      end
  end.
End Construct.

(** The mean of the finite values; another counts as 0. *)
Definition safe (a : ratio) : Q := match a with RQ q => q | _ => 0%Q end.
Definition mean (values : list ratio) : Q :=
  match values with
  | [] => 0%Q
  | _ => (fold_left (fun sum v => sum + safe v) values 0 / Q_of_nat (length values))%Q
  end.

Definition round (q : Q) : ratio := RQ (fixed4_Q q).

Section Run.
Context (self : RetrievalBenchmarkRunner).

Definition retrieve_context (item : RetrievalEvalDatasetItem) : M RetrievalContext :=
  emit (Retrieve (item_query item) (topK self) (item_filter item)) ;;
  found <- lift (retrieve self (item_query item) (topK self) (item_filter item)) ;;
  match found with
  | inl context => ret context
  | inr repr => throw (NativeErr "TypeError" ("the retriever returned " +:+ repr +:+ " instead of a retrieval context"))
  end.

(** The answer, or why there is none. *)
Definition generate (item : RetrievalEvalDatasetItem) (context : RetrievalContext) : M (option string * option string) :=
  match answer self with
  | None => ret (None, None)
  | Some f =>
      text <- tried (emit (Answer (item_id item)) ;; lift (f item context)) ;;
      ret match text with inl t => (Some t, None) | inr e => (None, Some (error_text e)) end
  end.

Definition measure (item : RetrievalEvalDatasetItem) (context : RetrievalContext) (text : option string)
    (metric : RetrievalEvalMetric) : M MetricResult :=
  emit (Measure (m_name metric) (item_id item)) ;;
  result <- tried (lift (m_evaluate metric item context text)) ;;
  ret match result with
      | inl r =>
          if finite (score r) then r
          else failed (m_name metric) ("The metric returned a score that is not a finite number (" +:+ ratio_text (score r) +:+ ").")
      | inr e => failed (m_name metric) ("The metric threw: " +:+ error_text e)
      end.

Fixpoint measure_all (item : RetrievalEvalDatasetItem) (context : RetrievalContext) (text : option string)
    (ms : list RetrievalEvalMetric) : M (list MetricResult) :=
  match ms with
  | [] => ret []
  | m :: ms' =>
      r <- measure item context text m ;;
      rs <- measure_all item context text ms' ;;
      ret (r :: rs)
  end.

Definition evaluateItem (item : RetrievalEvalDatasetItem) : M RetrievalEvalItemResult :=
  found <- tried (retrieve_context item) ;;
  match found with
  | inr err =>
      ret {| r_item := item; retrievedIds := []; r_answer := None;
             r_metrics := map (fun m => failed (m_name m) ("Retrieval failed: " +:+ error_text err)) (metrics self);
             overallPassed := false; r_score := RQ 0; r_error := Some (error_text err); answerError := None |}
  | inl context =>
      let* (text, textError) := generate item context in
      results <- measure_all item context text (metrics self) ;;
      ret {| r_item := item; retrievedIds := rankedIds context (b_matchOn self) (b_rankBy self); r_answer := text;
             r_metrics := results; overallPassed := forallb passed results; r_score := round (mean (map score results));
             r_error := None; answerError := textError |}
  end.

Fixpoint evaluate_all (dataset : list RetrievalEvalDatasetItem) : M (list RetrievalEvalItemResult) :=
  match dataset with
  | [] => ret []
  | item :: dataset' =>
      r <- evaluateItem item ;;
      rs <- evaluate_all dataset' ;;
      ret (r :: rs)
  end.

(** The score an item has under the name of a metric. *)
Definition score_under (n : string) (r : RetrievalEvalItemResult) : ratio :=
  match find_first (fun m => bool_decide (metricName m = n)) (r_metrics r) with Some m => score m | None => RQ 0 end.

Definition averages (rs : list RetrievalEvalItemResult) : list (string * ratio) :=
  fold_left (fun avg m => js_set avg (m_name m) (round (mean (map (score_under (m_name m)) rs)))) (metrics self) [].

Definition summarize (rs : list RetrievalEvalItemResult) : RetrievalBenchmarkSummary :=
  let passed_items := length (List.filter overallPassed rs) in {|
    totalItems := length rs; passedItems := passed_items; failedItems := length rs - passed_items;
    passRate := round (match rs with [] => 0 | _ => Q_of_nat passed_items / Q_of_nat (length rs) end);
    metricAverages := averages rs; averageScore := round (mean (map r_score rs)); itemResults := rs |}.

Definition run (dataset : list RetrievalEvalDatasetItem) : M RetrievalBenchmarkSummary :=
  rs <- evaluate_all dataset ;;
  ret (summarize rs).

(** ** What a run does *)

Definition retrievals (l : list event) : list event := List.filter (fun e => match e with Retrieve _ _ _ => true | _ => false end) l.

Definition retrieval_of (item : RetrievalEvalDatasetItem) : event := Retrieve (item_query item) (topK self) (item_filter item).

(** A metric's result for an item: of its own, or one that is not passed and scores 0. *)
Definition measured (item : RetrievalEvalDatasetItem) (m : RetrievalEvalMetric) (r : MetricResult) : Prop :=
  finite (score r) = true /\
  ((exists context text w w', m_evaluate m item context text w = (Ret r, w')) \/ exists why, r = failed (m_name m) why).

Ltac count_calls :=
  repeat match goal with H : retrievals _ = _ |- _ => unfold retrievals in H end;
  unfold retrievals; cbn [List.filter app map retrieval_of]; rewrite ?List.filter_app; cbn [List.filter]; rewrite ?app_nil_r;
  repeat match goal with H : List.filter _ ?l = _ |- context [List.filter _ ?l] => rewrite H end; done.

Lemma failed_all item why ms : Forall2 (measured item) ms (map (fun m => failed (m_name m) why) ms).
Proof. induction ms as [|m ms IH]; [constructor|]. constructor; [|done]. split; [done|]. right. by exists why. Qed.

Lemma measure_ok item context text m w :
  wp (measure item context text m) w (fun o _ l => l = [Measure (m_name m) (item_id item)] /\ (forall e, o <> Throw e) /\
    forall r, o = Ret r -> measured item m r).
Proof.
  unfold measure. wp_step. wp_step. wp_step. wp_step. wp_step. rename Hext into Hm. destruct o as [r|e|]; cbn [wp_cont].
  - wp_step. split_and!; [done|done|]. intros r0 [= <-]. unfold measured. destruct (finite (score r)) eqn:Hf.
    + split; [done|]. left. by exists context, text, w, w'.
    + split; [done|]. right. by eexists.
  - wp_step. split_and!; [done|done|]. intros r0 [= <-]. split; [done|]. right. by eexists.
  - done.
Qed.

Lemma measure_all_ok item context text ms w :
  wp (measure_all item context text ms) w (fun o _ l => retrievals l = [] /\ (forall e, o <> Throw e) /\
    forall rs, o = Ret rs -> Forall2 (measured item) ms rs).
Proof.
  revert w. induction ms as [|m ms IH]; intros w; cbn [measure_all].
  { wp_step. split_and!; [done|done|]. intros rs [= <-]. constructor. }
  wp_step. eapply wp_mono; [apply measure_ok|]. intros o w1 l1 (-> & Hne & Hr). destruct o as [r|e|]; cbn [wp_cont]; [|by destruct (Hne e)|done].
  wp_step. eapply wp_mono; [apply IH|]. intros o w2 l2 (Hl & Hne2 & Hrs). destruct o as [rs|e|]; cbn [wp_cont].
  - wp_step. split_and!; [count_calls|done|]. intros rs0 [= <-]. constructor; [by apply Hr|by apply Hrs].
  - by destruct (Hne2 e).
  - split_and!; [count_calls|done|done].
Qed.

Lemma generate_ok item context w :
  wp (generate item context) w (fun o _ l => retrievals l = [] /\ forall e, o <> Throw e).
Proof.
  unfold generate. destruct (answer self) as [f|]; [|by wp_step]. wp_step. wp_step. wp_step. wp_step. wp_step.
  destruct o as [t|e|]; cbn [wp_cont]; [by wp_step..|done].
Qed.

(** What is reported of an item, and the calls made for it. *)
Definition reported (item : RetrievalEvalDatasetItem) (r : RetrievalEvalItemResult) : Prop :=
  r_item r = item /\ Forall2 (measured item) (metrics self) (r_metrics r) /\
  match r_error r with
  | Some _ => retrievedIds r = [] /\ overallPassed r = false /\ r_score r = RQ 0 /\
              Forall (fun m => passed m = false /\ score m = RQ 0) (r_metrics r)
  | None => overallPassed r = forallb passed (r_metrics r) /\ r_score r = round (mean (map score (r_metrics r)))
  end.

Lemma evaluateItem_ok item w :
  wp (evaluateItem item) w (fun o _ l => retrievals l = [retrieval_of item] /\ (forall e, o <> Throw e) /\
    forall r, o = Ret r -> reported item r).
Proof.
  unfold evaluateItem. wp_step. wp_step. unfold retrieve_context. wp_step. wp_step. wp_step. wp_step.
  destruct o as [[context|repr]|e|]; cbn [wp_cont].
  - wp_step. wp_step. eapply wp_mono; [apply generate_ok|]. intros o w1 l1 [Hl1 Hne1].
    destruct o as [[text textError]|e|]; cbn [wp_cont]; [|by destruct (Hne1 e)|split; [count_calls|done]].
    wp_step. eapply wp_mono; [apply measure_all_ok|]. intros o w2 l2 (Hl2 & Hne2 & Hrs).
    destruct o as [rs|e|]; cbn [wp_cont]; [|by destruct (Hne2 e)|split; [count_calls|done]].
    wp_step. split_and!; [count_calls|done|]. intros r [= <-]. split_and!; [done|by apply Hrs|done].
  - wp_step. wp_step. split_and!; [done|done|]. intros r [= <-]. split_and!; [done|by apply failed_all|].
    cbn [r_error]. split_and!; [done|done|done|]. apply Forall_fmap, Forall_true. done.
  - wp_step. split_and!; [done|done|]. intros r [= <-]. split_and!; [done|by apply failed_all|].
    cbn [r_error]. split_and!; [done|done|done|]. apply Forall_fmap, Forall_true. done.
  - done.
Qed.

Lemma evaluate_all_ok dataset w :
  wp (evaluate_all dataset) w (fun o _ l => (forall e, o <> Throw e) /\
    forall rs, o = Ret rs -> retrievals l = map retrieval_of dataset /\ Forall2 reported dataset rs).
Proof.
  revert w. induction dataset as [|item dataset IH]; intros w; cbn [evaluate_all].
  { wp_step. split; [done|]. intros rs [= <-]. by repeat constructor. }
  wp_step. eapply wp_mono; [apply evaluateItem_ok|]. intros o w1 l1 (Hl & Hne & Hr).
  destruct o as [r|e|]; cbn [wp_cont]; [|by destruct (Hne e)|done].
  wp_step. eapply wp_mono; [apply IH|]. intros o w2 l2 (Hne2 & Hrs). destruct o as [rs|e|]; cbn [wp_cont]; [|by destruct (Hne2 e)|done].
  wp_step. split; [done|]. intros rs0 [= <-]. destruct (Hrs rs eq_refl) as [Hl2 Hall]. split; [count_calls|].
  constructor; [by apply Hr|done].
Qed.

Lemma round_unit q : in_unit q -> unit_ratio (round q).
Proof. intros Hq. apply (fixed4_unit (RQ q)). by exists q. Qed.

(** A run accounts for its dataset.  It never throws; it asks the retriever exactly once
    per item, in order, with the item's own query and filter; it reports every item, in
    order, with one finite result per metric, each the metric's own or a failure; an item
    whose retrieval failed scores 0 under every metric and is not passed; and the counts
    and the pass rate are those of the items. *)
Theorem run_accounts_for_its_dataset dataset w :
  wp (run dataset) w (fun o _ l => (forall e, o <> Throw e) /\ forall s, o = Ret s ->
    retrievals l = map retrieval_of dataset /\ Forall2 reported dataset (itemResults s) /\
    totalItems s = length dataset /\ passedItems s = length (List.filter overallPassed (itemResults s)) /\
    (passedItems s + failedItems s = totalItems s)%nat /\ unit_ratio (passRate s)).
Proof.
  unfold run. wp_step. eapply wp_mono; [apply evaluate_all_ok|]. intros o w1 l1 [Hne Hrs].
  destruct o as [rs|e|]; cbn [wp_cont]; [|by destruct (Hne e)|done]. wp_step. split; [done|]. intros s [= <-].
  destruct (Hrs rs eq_refl) as [Hl Hall]. pose proof (Forall2_length _ _ _ Hall) as Hlen.
  pose proof (sublist_length _ _ (filter_sublist overallPassed rs)) as Hpass. unfold summarize. cbn [totalItems passedItems failedItems itemResults passRate].
  split_and!; [by rewrite app_nil_r|done|done|done|lia|]. apply round_unit. destruct rs as [|r rs]; [done|]. by apply share_unit.
Qed.

(** ** Averages *)

Lemma safe_sum values a : (fold_left (fun sum v => sum + safe v) values a == a + Qsum (map safe values))%Q.
Proof. revert a. induction values as [|v vs IH]; intros a; cbn [fold_left map Qsum]; [lra|]. rewrite IH. lra. Qed.

Lemma mean_unit values : Forall unit_ratio values -> in_unit (mean values).
Proof.
  intros H. destruct values as [|v vs]; [done|]. unfold mean. set (l := v :: vs) in *. eapply unit_eq; [by rewrite safe_sum, Qplus_0_l|].
  assert (0 <= Qsum (map safe l) /\ Qsum (map safe l) <= Q_of_nat (length l))%Q as [H0 H1].
  { clearbody l. induction H as [|x l (q & -> & Hq0 & Hq1) Hl [IH0 IH1]]; [done|]. cbn [map Qsum safe length].
    assert (Q_of_nat (S (length l)) == 1 + Q_of_nat (length l))%Q as ->
      by (unfold Q_of_nat; rewrite Nat2Z.inj_succ, <- Z.add_1_l; by rewrite inject_Z_plus). split; lra. }
  apply ratio_unit; [done|done|]. by apply Q_of_nat_pos.
Qed.

Lemma repeated_none seen ms : repeated seen ms = None -> NoDup (map m_name ms) /\ Forall (fun m => m_name m ∉ seen) ms.
Proof.
  revert seen. induction ms as [|m ms IH]; intros seen; cbn [repeated]; [by repeat constructor|].
  case_bool_decide as Hm; [done|]. intros H. destruct (IH _ H) as [Hnd Hall]. split.
  - constructor; [|done]. intros (m' & E & Hm')%list_elem_of_fmap. rewrite Forall_forall in Hall. apply (Hall m' Hm').
    rewrite elem_of_set_add, E. by right.
  - constructor; [done|]. eapply Forall_impl; [exact Hall|]. intros m' Hn Hin. apply Hn, elem_of_set_add. by left.
Qed.

(** The score of the result at place [i]. *)
Definition score_at (i : nat) (r : RetrievalEvalItemResult) : ratio := match r_metrics r !! i with Some x => score x | None => RQ 0 end.

Definition names_itself (m : RetrievalEvalMetric) : Prop :=
  forall item context text w r w', m_evaluate m item context text w = (Ret r, w') -> metricName r = m_name m.

Lemma score_under_at item ms rs i m :
  NoDup (map m_name ms) -> Forall names_itself ms -> Forall2 (measured item) ms rs -> ms !! i = Some m ->
  match find_first (fun x => bool_decide (metricName x = m_name m)) rs with Some x => score x | None => RQ 0 end =
  match rs !! i with Some x => score x | None => RQ 0 end.
Proof.
  intros Hnd Hself Hrs. revert i Hnd Hself. induction Hrs as [|m0 r ms rs Hr Hrs IH]; intros i Hnd Hself Hi; [done|].
  apply NoDup_cons in Hnd as [Hm0 Hnd]. apply Forall_cons in Hself as [H0 Hself]. cbn [find_first].
  assert (metricName r = m_name m0) as Hname.
  { destruct Hr as [_ [(context & text & w & w' & E)|(why & ->)]]; [by eapply H0|done]. }
  rewrite Hname. destruct i as [|i]; cbn in Hi |- *.
  - injection Hi as ->. by rewrite bool_decide_true.
  - rewrite bool_decide_false; [by apply IH|]. intros E. apply Hm0. rewrite E. apply list_elem_of_fmap. exists m.
    split; [done|]. by eapply list_elem_of_lookup_2.
Qed.

Lemma averages_get rs avg ms m :
  m ∈ ms -> NoDup (map m_name ms) ->
  js_get (fold_left (fun avg m => js_set avg (m_name m) (round (mean (map (score_under (m_name m)) rs)))) ms avg) (m_name m) =
  Some (round (mean (map (score_under (m_name m)) rs))).
Proof.
  revert avg. induction ms as [|m0 ms IH]; intros avg Hm Hnd; [by apply elem_of_nil in Hm|].
  apply NoDup_cons in Hnd as [Hm0 Hnd]. cbn [fold_left]. apply elem_of_cons in Hm as [->|Hm]; [|by apply IH].
  clear IH. assert (forall avg, js_get (fold_left (fun avg m => js_set avg (m_name m) (round (mean (map (score_under (m_name m)) rs)))) ms avg) (m_name m0) = js_get avg (m_name m0)) as Hkeep.
  { clear avg. induction ms as [|m1 ms IH]; intros avg; [done|]. cbn [fold_left]. cbn [map] in *. apply NoDup_cons in Hnd as [_ Hnd].
    rewrite IH by set_solver. rewrite js_get_set. rewrite bool_decide_false; [done|]. set_solver. }
  rewrite Hkeep, js_get_set. by rewrite bool_decide_true.
Qed.
End Run.

(** The averages of a constructed runner are, under the name of each metric, the rounded
    means of what that metric scored, provided its results carry its name; and they are
    shares when the scores are. *)
Theorem averages_are_means pow2 log2 source o self dataset w :
  mk_runner pow2 log2 source o = inr self -> Forall names_itself (metrics self) ->
  wp (run self dataset) w (fun out _ _ => forall s, out = Ret s -> forall i m, metrics self !! i = Some m ->
    js_get (metricAverages s) (m_name m) = Some (round (mean (map (score_at i) (itemResults s)))) /\
    (Forall (fun r => Forall (fun x => unit_ratio (score x)) (r_metrics r)) (itemResults s) ->
     unit_ratio (round (mean (map (score_at i) (itemResults s)))))).
Proof.
  intros Hmk Hself. assert (NoDup (map m_name (metrics self))) as Hnd.
  { unfold mk_runner in Hmk. destruct (assertPositiveInteger _ _); [done|]. destruct (assertPositiveInteger _ _); [done|].
    destruct (toRetriever source); [done|]. destruct (match bo_metrics o with Some _ => _ | None => _ end) as [|ms]; [done|].
    destruct (repeated [] ms) eqn:Hr; [done|]. injection Hmk as <-. by apply repeated_none in Hr as [? _]. }
  unfold run. wp_step. eapply wp_mono; [apply evaluate_all_ok|]. intros out w1 l1 [_ Hrs].
  destruct out as [rs|e|]; cbn [wp_cont]; [|done..]. wp_step. intros s [= <-] i m Hm. destruct (Hrs rs eq_refl) as [_ Hall].
  cbn [metricAverages itemResults summarize]. split.
  - unfold averages. rewrite averages_get; [|by eapply list_elem_of_lookup_2|done]. do 3 f_equal. apply list_fmap_ext.
    intros j r Hr. apply (Forall2_lookup_r _ _ _ _ _ Hall) in Hr as (item & _ & _ & Hmeasured & _). by eapply score_under_at.
  - intros Hu. apply round_unit, mean_unit, Forall_fmap. eapply Forall_impl; [exact Hu|]. intros r Hr. unfold score_at; cbn.
    destruct (r_metrics r !! i) as [x|] eqn:Hx; [|by eexists]. by eapply Forall_lookup_1 in Hr.
Qed.

(** The metrics of the package carry their own names. *)
Lemma ranking_names m : names_itself (of_ranking m).
Proof.
  intros item context text w r w' [= <- _]. unfold evaluate. destruct (set_of _); [done|]. by destruct (finite _).
Qed.

Lemma default_names pow2 log2 k mo rb ms : default_metrics pow2 log2 k mo rb = inr ms -> Forall names_itself ms.
Proof.
  unfold default_metrics. destruct (RecallAtKMetric _ _); [done|]. destruct (PrecisionAtKMetric _ _); [done|].
  destruct (ReciprocalRankMetric _ _); [done|]. destruct (NdcgAtKMetric _ _ _ _); [done|]. intros [= <-].
  repeat (constructor; [apply ranking_names|]). constructor.
Qed.

(** ** Faithfulness *)

Lemma unit_clamp_finite q : unit_ratio (unit_clamp (RQ q)).
Proof.
  unfold unit_clamp, ratio_max, ratio_min, ratio_le. destruct (Qle_bool 0 q) eqn:H0.
  - apply Qle_bool_iff in H0. destruct (Qle_bool 1 q) eqn:H1; [by eexists|]. apply Qle_bool_false in H1. eexists. split; [done|]. split; lra.
  - by eexists.
Qed.

(** An answer is judged once, on the ranked passages and the context the pipeline added,
    and its score is a share: a judge that fails or answers with no number scores 0.  A
    missing answer is not judged. *)
Theorem faithfulness_is_judged_once judge o item context text w :
  contexts o = None ->
  wp (faithfulness_evaluate judge o item context text) w (fun out _ l =>
    l = match text with
        | None => []
        | Some t => [Judge {| j_query := item_query item; j_answer := t; j_contexts := defaultContexts o context;
                              j_expectedAnswer := expectedAnswer item |}]
        end /\
    (forall e, out <> Throw e) /\
    forall r, out = Ret r -> metricName r = default "Faithfulness" (f_name o) /\ unit_ratio (score r) /\
      (passed r = true -> text <> None /\ meets (score r) (default (NDec 7 (-1)) (f_threshold o)) = true)).
Proof.
  intros Hc. unfold faithfulness_evaluate. rewrite Hc. destruct text as [t|].
  2: { wp_step. split_and!; [done|done|]. intros r [= <-]. split_and!; [done|by eexists|done]. }
  wp_step. wp_step. cbn [wp_cont]. wp_step. unfold judge_faithfulness. wp_step. wp_step. wp_step. wp_step.
  destruct o0 as [[s why]|e|]; cbn [wp_cont]; [|by wp_step; split_and!; [done|done|]; intros r [= <-]; split_and!; [done|by eexists|done]|done].
  destruct (finite s) eqn:Hs; cbn [negb].
  - wp_step. split_and!; [done|done|]. intros r [= <-]. destruct s as [q| |]; [|done..].
    split_and!; [done|apply fixed4_unit, unit_clamp_finite|done].
  - wp_step. wp_step. split_and!; [done|done|]. intros r [= <-]. split_and!; [done|by eexists|done].
Qed.
End Benchmark.

(** ** A benchmark *)

Definition demo_source : RetrievalSource := SourceObject None (Some (fun (query : string) (topK : num) (_ : option obj) (w : unit) =>
  if bool_decide (query = "refunds") then
    (Ret [(demo_chunk "a1" None, RQ (3 # 10)); (demo_chunk "c1" None, RQ (9 # 10)); (demo_chunk "b1" None, RNaN)], w)
  else (Throw (NativeErr "Error" "index offline"), w))).

Definition demo_options (ms : option (list (RetrievalEvalMetric (W:=unit)))) : RetrievalBenchmarkRunnerOptions (W:=unit) := {|
  bo_metrics := ms; bo_topK := Some (num_of_Z 3); bo_k := Some (num_of_Z 2); bo_matchOn := None; bo_rankBy := None;
  bo_answer := Some (fun _ _ w => (Throw (NativeErr "Error" "no model"), w)) |}.

Definition demo_dataset : list RetrievalEvalDatasetItem :=
  [demo_item; {| item_id := "q2"; item_query := "hours"; relevantIds := ["h1"]; relevanceGrades := None; expectedAnswer := None;
                 item_filter := Some [("tenant", VStr "acme")] |}].

Definition summary_of (r : error + RetrievalBenchmarkRunner) : option RetrievalBenchmarkSummary :=
  match r with
  | inr self => match (run self demo_dataset tt).1.1 with Ret s => Some s | _ => None end
  | inl _ => None
  end.

Lemma averages_are_means_witness :
  match mk_runner step_pow2 step_log2 demo_source (demo_options None) with
  | inr self => wp (run self demo_dataset) tt (fun out _ _ => forall s, out = Ret s -> forall m, metrics self !! 0%nat = Some m ->
                  js_get (metricAverages s) (m_name m) = Some (round (mean (map (score_at 0) (itemResults s)))))
  | inl _ => False
  end /\
  (fun s => (metricAverages s, (totalItems s, passedItems s, failedItems s), map r_error (itemResults s))) <$>
    summary_of (mk_runner step_pow2 step_log2 demo_source (demo_options None)) =
  Some ([("Recall@2", RQ (2500 # 10000)); ("Precision@2", RQ (2500 # 10000)); ("MRR@2", RQ (5000 # 10000)); ("nDCG@2", RQ (625 # 10000))],
        (2, 0, 2)%nat, [None; Some "index offline"]).
Proof.
  split; [|by vm_compute]. destruct (mk_runner step_pow2 step_log2 demo_source (demo_options None)) as [e|self] eqn:Hmk; [done|].
  eapply wp_mono; [apply (averages_are_means step_pow2 step_log2 demo_source (demo_options None) self demo_dataset tt Hmk)|].
  - injection Hmk as <-. by apply (default_names step_pow2 step_log2 (num_of_Z 2) MatchId ByScores).
  - intros out w' l H s Hs m Hm. by apply (H s Hs 0%nat m Hm).
Defined.

(** A metric whose results carry another name than its own averages 0, whatever it scores. *)
Definition renamed_metric : @RetrievalEvalMetric unit := {|
  m_name := "Coverage";
  m_evaluate := fun _ _ _ w => (Ret {| metricName := "coverage"; passed := true; score := RQ 1; reason := None; details := None |}, w) |}.

Example renamed_metric_averages_zero :
  (fun s => (metricAverages s, map r_score (itemResults s))) <$>
    summary_of (mk_runner step_pow2 step_log2 demo_source (demo_options (Some [renamed_metric]))) =
  Some ([("Coverage", RQ (0 # 10000))], [RQ (10000 # 10000); RQ 0]).
Proof. by vm_compute. Qed.

(** Without metrics every item that is retrieved passes, with a score of 0. *)
Example no_metrics_pass :
  (fun s => map (fun r => (overallPassed r, r_score r)) (itemResults s)) <$>
    summary_of (mk_runner step_pow2 step_log2 demo_source (demo_options (Some []))) =
  Some [(true, RQ (0 # 10000)); (false, RQ 0)].
Proof. by vm_compute. Qed.
End RetrievalBenchmark.
