(* ===== verification/PairwiseJudge.v ===== *)
(** * Debiased comparison (packages/evaluation/src/judge/pairwise-debiased-judge.ts)

    Two candidates are judged in both orders and the verdicts combined.  The judge is an
    arbitrary function of a world. *)

From Stdlib Require Import Ascii Qround Qabs.
From S2P Require Export Benchmark.

#[local] Open Scope string_scope.
#[local] Open Scope list_scope.
#[local] Open Scope Z_scope.
#[local] Open Scope eff_scope.

Module PairwiseJudge.
Import Consensus Retrieval MemoryScoring Ranking.

Record PairwiseJudgeCandidate : Type := {
  c_id : string;
  c_output : string;
  c_trajectory : option (list ToolCallRecord);
  c_metadata : option obj;
}.

Record PairwiseJudgeInput : Type := {
  p_query : string;
  candidateA : PairwiseJudgeCandidate;
  candidateB : PairwiseJudgeCandidate;
  p_criteria : option string;
  p_groundTruth : option string;
}.

Inductive Place : Type := First | Second | NoPlace.
Inductive Winner : Type := CandidateA | CandidateB | Tie.
#[export] Instance place_eq_dec : EqDecision Place.
Proof. solve_decision. Defined.
#[export] Instance winner_eq_dec : EqDecision Winner.
Proof. solve_decision. Defined.

Record PairwisePassResult : Type := {
  pass_winner : Place;
  scoreFirst : ratio;
  scoreSecond : ratio;
  pass_reasoning : string;
}.

Record PairwiseJudgeResult : Type := {
  winner : Winner;
  debiasedScoreA : Q;
  debiasedScoreB : Q;
  forwardPass : PairwisePassResult;
  reversePass : PairwisePassResult;
  positionBiasDetected : bool;
  confidence : Q;
  reasoning : string;
}.

(** A call of the judge: the candidates in the order they are presented. *)
Inductive event : Type := Judge (query : string) (first second : PairwiseJudgeCandidate).

Definition range_error (what : string) : error := NativeErr "RangeError" what.

Definition normalizeScore (a : ratio) : error + Q :=
  match a with
  | RQ q => inr (Q_min 1 (Q_max 0 q))
  | _ => inl (range_error "Pairwise judge scores must be finite numbers")
  end.

Definition validateTieThreshold (t : ratio) : error + Q :=
  match t with
  | RQ q => if Q_ltb q 0 || Q_ltb 1 q then inl (range_error "tieThreshold must be a finite number between 0 and 1") else inr q
  | _ => inl (range_error "tieThreshold must be a finite number between 0 and 1")
  end.

(** [Math.round(((a + b) / 2) * 10000) / 10000] *)
Definition debiased (a b : Q) : Q := round_Q 10000 ((a + b) / 2).

Definition forwardWinner (p : PairwisePassResult) : Winner :=
  match pass_winner p with First => CandidateA | Second => CandidateB | NoPlace => Tie end.
Definition reverseWinner (p : PairwisePassResult) : Winner :=
  match pass_winner p with First => CandidateB | Second => CandidateA | NoPlace => Tie end.

Definition bias (forward reverse : PairwisePassResult) : bool :=
  bool_decide (pass_winner forward = First /\ pass_winner reverse = First) ||
  bool_decide (pass_winner forward = Second /\ pass_winner reverse = Second).

Definition confidence_of (forward reverse : PairwisePassResult) : Q :=
  let f := forwardWinner forward in
  let r := reverseWinner reverse in
  if bool_decide (f = r) && negb (bool_decide (f = Tie)) then 1
  else if bias forward reverse then (60 # 100)
  else if bool_decide (f = Tie) || bool_decide (r = Tie) then (75 # 100)
  else (90 # 100).

Definition final_winner (tieThreshold a b : Q) : Winner :=
  let scoreDiff := (a - b)%Q in
  if Qle_bool (Qabs scoreDiff) tieThreshold then Tie else if Q_ltb 0 scoreDiff then CandidateA else CandidateB.

Definition winner_name (w : Winner) : string :=
  match w with CandidateA => "CANDIDATE_A" | CandidateB => "CANDIDATE_B" | Tie => "TIE" end.

Section Judge.
Context {W : Type}.
Notation M := (M error event W).

Definition PairwiseJudgeFn : Type :=
  string -> PairwiseJudgeCandidate -> PairwiseJudgeCandidate -> option string -> option string -> W ->
  outcome error PairwisePassResult * W.

(** [reverse_settles_first]: of two failing calls the one that fails first is thrown;
    [show] renders a score. *)
Record PairwiseDebiasedJudge : Type := {
  judgeFn : PairwiseJudgeFn;
  tieThreshold : Q;
  reverse_settles_first : W -> bool;
  show : Q -> string;
}.

(** The constructor validates the threshold. *)
Definition mk_judge (f : PairwiseJudgeFn) (tie : option ratio) (settles : W -> bool) (print : Q -> string)
    : error + PairwiseDebiasedJudge :=
  match validateTieThreshold (default (RQ (5 # 100)) tie) with
  | inl e => inl e
  | inr t => inr {| judgeFn := f; tieThreshold := t; reverse_settles_first := settles; show := print |}
  end.

Section Evaluate.
Context (self : PairwiseDebiasedJudge).

Definition reasoning_of (w : Winner) (a b aF aR bF bR : Q) (forward reverse : PairwisePassResult) : string :=
  Js.join nl
    ["Debiased Pairwise Verdict: " +:+ winner_name w;
     "Candidate A Score: " +:+ show self a +:+ " (Forward: " +:+ show self aF +:+ ", Reverse: " +:+ show self aR +:+ ")";
     "Candidate B Score: " +:+ show self b +:+ " (Forward: " +:+ show self bF +:+ ", Reverse: " +:+ show self bR +:+ ")";
     if bias forward reverse then
       "⚠️ Position Bias Detected: The evaluator demonstrated primacy preference toward the first presented candidate."
     else "✓ Position Consistency: Evaluator scores were consistent across swapped positions.";
     "Forward Reasoning: " +:+ pass_reasoning forward;
     "Reverse Reasoning: " +:+ pass_reasoning reverse].

(** What is concluded from the two passes. *)
Definition combine (forward reverse : PairwisePassResult) : error + PairwiseJudgeResult :=
  match normalizeScore (scoreFirst forward), normalizeScore (scoreSecond forward),
        normalizeScore (scoreFirst reverse), normalizeScore (scoreSecond reverse) with
  | inr aF, inr bF, inr bR, inr aR =>
      let a := debiased aF aR in
      let b := debiased bF bR in
      let w := final_winner (tieThreshold self) a b in
      inr {| winner := w; debiasedScoreA := a; debiasedScoreB := b; forwardPass := forward; reversePass := reverse;
             positionBiasDetected := bias forward reverse; confidence := confidence_of forward reverse;
             reasoning := reasoning_of w a b aF aR bF bR forward reverse |}
  | inl e, _, _, _ | _, inl e, _, _ | _, _, inl e, _ | _, _, _, inl e => inl e
  end.

(** [Promise.all]: both calls are made; the first failure is thrown. *)
Definition both (input : PairwiseJudgeInput) : M (PairwisePassResult * PairwisePassResult) :=
  let judge x y := lift (judgeFn self (p_query input) x y (p_criteria input) (p_groundTruth input)) in
  emit (Judge (p_query input) (candidateA input) (candidateB input)) ;;
  forward <- tried (judge (candidateA input) (candidateB input)) ;;
  emit (Judge (p_query input) (candidateB input) (candidateA input)) ;;
  reverse <- tried (judge (candidateB input) (candidateA input)) ;;
  reverse_first <- ask (reverse_settles_first self) ;;
  match forward, reverse with
  | inl f, inl r => ret (f, r)
  | inr e, inl _ => throw e
  | inl _, inr e => throw e
  | inr e1, inr e2 => throw (if reverse_first : bool then e2 else e1)
  end.

Definition evaluate (input : PairwiseJudgeInput) : M PairwiseJudgeResult :=
  let* (forward, reverse) := both input in
  match combine forward reverse with inl e => throw e | inr r => ret r end.
End Evaluate.

(** [runPairwiseDebiasedJudge] *)
Definition runPairwiseDebiasedJudge (input : PairwiseJudgeInput) (f : PairwiseJudgeFn) (tie : option ratio)
    (settles : W -> bool) (print : Q -> string) : M PairwiseJudgeResult :=
  match mk_judge f tie settles print with inl e => throw e | inr self => evaluate self input end.
End Judge.

(** ** The verdict does not depend on the order of the candidates *)

Definition mirrored (w : Winner) : Winner := match w with CandidateA => CandidateB | CandidateB => CandidateA | Tie => Tie end.
Definition swap (input : PairwiseJudgeInput) : PairwiseJudgeInput := {|
  p_query := p_query input; candidateA := candidateB input; candidateB := candidateA input;
  p_criteria := p_criteria input; p_groundTruth := p_groundTruth input |}.

#[local] Open Scope Q_scope.

Lemma round_Q_proper n p q : p == q -> round_Q n p = round_Q n q.
Proof. intros E. unfold round_Q. f_equal. apply Qfloor_comp. by rewrite E. Qed.

Lemma debiased_comm a b : debiased a b = debiased b a.
Proof. apply round_Q_proper. field. Qed.

Lemma final_winner_spec t a b :
  0 <= t ->
  (final_winner t a b = CandidateA <-> t < a - b) /\ (final_winner t a b = CandidateB <-> t < b - a) /\
  (final_winner t a b = Tie <-> - t <= a - b /\ a - b <= t).
Proof.
  intros Ht. unfold final_winner. destruct (Qle_bool (Qabs (a - b)) t) eqn:H.
  - apply Qle_bool_iff, Qabs_Qle_condition in H. destruct H. split_and!; split; try done; lra.
  - apply Qle_bool_false in H. destruct (Q_ltb 0 (a - b)) eqn:H1; [apply Q_ltb_lt in H1|apply Q_ltb_ge in H1].
    + rewrite Qabs_pos in H by lra. split_and!; split; try done; lra.
    + rewrite Qabs_neg in H by lra. split_and!; split; try done; lra.
Qed.

Lemma final_winner_mirror t a b : 0 <= t -> final_winner t b a = mirrored (final_winner t a b).
Proof.
  intros Ht. pose proof (final_winner_spec t a b Ht) as (H1 & H2 & H3). pose proof (final_winner_spec t b a Ht) as (H4 & H5 & H6).
  destruct (final_winner t a b); cbn [mirrored].
  - by apply H5, H1.
  - by apply H4, H2.
  - apply H6. destruct (proj1 H3 eq_refl). lra.
Qed.

(** A verdict and its mirror image. *)
Definition mirrors (r r' : PairwiseJudgeResult) : Prop :=
  winner r' = mirrored (winner r) /\ debiasedScoreA r' = debiasedScoreB r /\ debiasedScoreB r' = debiasedScoreA r /\
  positionBiasDetected r' = positionBiasDetected r /\ confidence r' = confidence r /\
  forwardPass r' = reversePass r /\ reversePass r' = forwardPass r.

Lemma bias_comm f r : bias r f = bias f r.
Proof. unfold bias. by destruct (pass_winner f), (pass_winner r). Qed.

Lemma confidence_comm f r : confidence_of r f = confidence_of f r.
Proof. unfold confidence_of. rewrite bias_comm. unfold forwardWinner, reverseWinner. by destruct (pass_winner f), (pass_winner r). Qed.

Section Theorems.
Context {W : Type} (self : PairwiseDebiasedJudge (W:=W)).
Context (Htie : 0 <= tieThreshold self).

Lemma combine_mirror forward reverse :
  match combine self forward reverse with
  | inr r => exists r', combine self reverse forward = inr r' /\ mirrors r r'
  | inl _ => exists e, combine self reverse forward = inl e
  end.
Proof using Htie.
  unfold combine. destruct (normalizeScore (scoreFirst forward)) as [e1|aF], (normalizeScore (scoreSecond forward)) as [e2|bF],
    (normalizeScore (scoreFirst reverse)) as [e3|bR], (normalizeScore (scoreSecond reverse)) as [e4|aR]; try (by eexists).
  eexists. split; [done|]. unfold mirrors. cbn. rewrite bias_comm, confidence_comm, (debiased_comm bR bF), (debiased_comm aR aF).
  split_and!; try done. by apply final_winner_mirror.
Qed.

(** A judge that is a function of what it is shown. *)
Definition pure (f : string -> PairwiseJudgeCandidate -> PairwiseJudgeCandidate -> option string -> option string ->
  outcome error PairwisePassResult) : PairwiseJudgeFn (W:=W) := fun q x y c g w => (f q x y c g, w).

(** The verdict does not depend on which candidate is given first: with the candidates
    exchanged, the judge that answers the same questions the same way finds the mirror
    image, with the same bias and confidence, and fails when it failed. *)
Theorem verdict_is_symmetric f input w :
  judgeFn self = pure f ->
  match (evaluate self input w).1.1 with
  | Ret r => exists r', (evaluate self (swap input) w).1.1 = Ret r' /\ mirrors r r'
  | Throw _ => exists e, (evaluate self (swap input) w).1.1 = Throw e
  | Diverge => (evaluate self (swap input) w).1.1 = Diverge
  end.
Proof using Htie.
  intros Hf. unfold evaluate, both. rewrite Hf. destruct input as [q a b c g]. unfold swap. cbn [p_query candidateA candidateB p_criteria p_groundTruth].
  unfold bind, tried, lift, emit, pure, ask. 
  destruct (f q a b c g) as [fw|e1|], (f q b a c g) as [rv|e2|]; cbn; eauto.
  pose proof (combine_mirror fw rv) as Hm. destruct (combine self fw rv) as [e|r].
  - destruct Hm as [e' ->]. cbn. eauto.
  - destruct Hm as (r' & -> & Hr). cbn. eauto.
Qed.

Lemma both_ok input w :
  wp (both self input) w (fun o _ l => (forall p, o = Ret p ->
    l = [Judge (p_query input) (candidateA input) (candidateB input); Judge (p_query input) (candidateB input) (candidateA input)] /\
    exists w1 w2 w3 w4, judgeFn self (p_query input) (candidateA input) (candidateB input) (p_criteria input) (p_groundTruth input) w1 = (Ret p.1, w2) /\
      judgeFn self (p_query input) (candidateB input) (candidateA input) (p_criteria input) (p_groundTruth input) w3 = (Ret p.2, w4)) /\
    (o <> Diverge -> l = [Judge (p_query input) (candidateA input) (candidateB input); Judge (p_query input) (candidateB input) (candidateA input)])).
Proof.
  unfold both. cbv zeta. do 5 wp_step. rename Hext into Hf. destruct o as [f|e|]; cbn [wp_cont]; [| |done].
  - do 5 wp_step. rename Hext into Hr. destruct o as [r|e|]; cbn [wp_cont]; [| |done].
    + do 3 wp_step. split; [|done]. intros p [= <-]. split; [done|]. by eauto 10.
    + do 3 wp_step. done.
  - do 5 wp_step. destruct o as [r|e1|]; cbn [wp_cont]; [| |done]; do 3 wp_step; done.
Qed.

Lemma normalized_confidence_unit a q : normalizeScore a = inr q -> in_unit q.
Proof. destruct a; [|done..]. intros [= <-]. apply unit_Q_in. Qed.

Lemma debiased_unit a b : in_unit a -> in_unit b -> in_unit (debiased a b).
Proof.
  intros [H0 H1] [H2 H3]. apply round_Q_unit. split; [apply Qle_shift_div_l; [done|lra]|apply Qle_shift_div_r; [done|lra]].
Qed.

(** Both orders are judged, once each, whatever the judge answers; the combined scores are
    shares; a candidate wins exactly when its score exceeds the other's by more than the
    threshold, whatever the passes called the winner; and the confidence is 1 when the
    passes name one candidate, 0.6 when they name one place, and 0.75 otherwise. *)
Theorem verdict_is_by_scores input w :
  wp (evaluate self input) w (fun o _ l =>
    (o <> Diverge -> l = [Judge (p_query input) (candidateA input) (candidateB input);
                          Judge (p_query input) (candidateB input) (candidateA input)]) /\
    forall r, o = Ret r ->
      in_unit (debiasedScoreA r) /\ in_unit (debiasedScoreB r) /\
      (winner r = CandidateA <-> tieThreshold self < debiasedScoreA r - debiasedScoreB r) /\
      (winner r = CandidateB <-> tieThreshold self < debiasedScoreB r - debiasedScoreA r) /\
      confidence r = if bool_decide (forwardWinner (forwardPass r) = reverseWinner (reversePass r) /\ pass_winner (forwardPass r) <> NoPlace)
                     then 1 else if positionBiasDetected r then 60 # 100 else 75 # 100).
Proof using Htie.
  unfold evaluate. wp_step. eapply wp_mono; [apply both_ok|]. intros o w1 l [Hp Hl]. destruct o as [[f r]|e|]; cbn [wp_cont]; [|split; [intros _; by apply Hl|done]|split; [done|done]].
  destruct (Hp _ eq_refl) as [-> _]. destruct (combine self f r) as [e|v] eqn:Hc.
  { wp_step. by split. }
  wp_step. split; [done|]. intros r0 [= <-]. unfold combine in Hc.
  destruct (normalizeScore (scoreFirst f)) as [e1|aF] eqn:E1, (normalizeScore (scoreSecond f)) as [e2|bF] eqn:E2,
    (normalizeScore (scoreFirst r)) as [e3|bR] eqn:E3, (normalizeScore (scoreSecond r)) as [e4|aR] eqn:E4; try done.
  apply normalized_confidence_unit in E1, E2, E3, E4. injection Hc as <-.
  cbn [winner debiasedScoreA debiasedScoreB positionBiasDetected confidence forwardPass reversePass].
  pose proof (final_winner_spec (tieThreshold self) (debiased aF aR) (debiased bF bR) Htie) as (H1 & H2 & _).
  split_and!; try done; try by apply debiased_unit.
  unfold confidence_of, bias, forwardWinner, reverseWinner. by destruct (pass_winner f), (pass_winner r).
Qed.

(** A judge that only looks at positions decides nothing: whatever it gives to the first
    place and to the second, the candidates tie with equal scores, and when it names a
    place the bias is detected. *)
Theorem positional_judge_ties p q place why input w :
  judgeFn self = pure (fun _ _ _ _ _ => Ret {| pass_winner := place; scoreFirst := RQ p; scoreSecond := RQ q; pass_reasoning := why |}) ->
  exists r, (evaluate self input w).1.1 = Ret r /\ winner r = Tie /\ debiasedScoreA r = debiasedScoreB r /\
    (positionBiasDetected r = true <-> place <> NoPlace) /\
    confidence r = if bool_decide (place = NoPlace) then 75 # 100 else 60 # 100.
Proof using Htie.
  intros Hf. unfold evaluate, both. rewrite Hf. unfold bind, tried, lift, emit, pure, ask. cbn.
  eexists. split; [done|]. cbn [winner debiasedScoreA debiasedScoreB positionBiasDetected confidence].
  set (x := Q_min 1 (Q_max 0 p)). set (y := Q_min 1 (Q_max 0 q)). rewrite (debiased_comm y x).
  pose proof (final_winner_spec (tieThreshold self) (debiased x y) (debiased x y) Htie) as (_ & _ & H3).
  split_and!; [apply H3; lra|done|by destruct place|by destruct place].
Qed.
End Theorems.

(** ** Verdicts *)

Definition candidate (name : string) : PairwiseJudgeCandidate := {| c_id := name; c_output := "out of " +:+ name; c_trajectory := None; c_metadata := None |}.
Definition demo_input : PairwiseJudgeInput := {|
  p_query := "which is better"; candidateA := candidate "a"; candidateB := candidate "b"; p_criteria := None; p_groundTruth := None |}.

Definition demo_judge (f : string -> PairwiseJudgeCandidate -> PairwiseJudgeCandidate -> option string -> option string ->
  outcome error PairwisePassResult) : PairwiseDebiasedJudge (W:=unit) := {|
  judgeFn := pure f; tieThreshold := 5 # 100; reverse_settles_first := fun _ => false; show := text4 |}.

(** Prefers the second place, and candidate a a little. *)
Definition recency (q : string) (x y : PairwiseJudgeCandidate) (_ _ : option string) : outcome error PairwisePassResult :=
  Ret {| pass_winner := Second; scoreFirst := RQ (if bool_decide (c_id x = "a") then 6 # 10 else 3 # 10);
         scoreSecond := RQ (if bool_decide (c_id y = "a") then 9 # 10 else 8 # 10); pass_reasoning := EmptyString |}.

Lemma verdict_is_symmetric_witness :
  exists r r', (evaluate (demo_judge recency) demo_input tt).1.1 = Ret r /\
    (evaluate (demo_judge recency) (swap demo_input) tt).1.1 = Ret r' /\ mirrors r r' /\ winner r = CandidateA.
Proof.
  pose proof (verdict_is_symmetric (demo_judge recency) ltac:(done) recency demo_input tt eq_refl) as H.
  assert (match (evaluate (demo_judge recency) demo_input tt).1.1 with Ret x => winner x = CandidateA | _ => False end) as Hw by by vm_compute.
  destruct (evaluate (demo_judge recency) demo_input tt).1.1 as [r|e|]; [|done..].
  destruct H as (r' & H1 & H2). by exists r, r'.
Defined.

Lemma verdict_is_by_scores_witness :
  wp (evaluate (demo_judge recency) demo_input) tt (fun o _ l => length l = 2%nat \/ o = Diverge).
Proof.
  eapply wp_mono; [by apply verdict_is_by_scores|]. intros o w l [Hl _]. destruct o; [left; by rewrite Hl..|by right].
Defined.

Lemma positional_judge_ties_witness :
  exists r, (evaluate (demo_judge (fun _ _ _ _ _ => Ret {| pass_winner := First; scoreFirst := RQ 1; scoreSecond := RQ (2 # 10); pass_reasoning := EmptyString |}))
    demo_input tt).1.1 = Ret r /\ winner r = Tie.
Proof.
  destruct (positional_judge_ties (demo_judge (fun _ _ _ _ _ => Ret {| pass_winner := First; scoreFirst := RQ 1; scoreSecond := RQ (2 # 10); pass_reasoning := EmptyString |}))
    ltac:(done) 1 (2 # 10) First EmptyString demo_input tt eq_refl) as (r & H1 & H2 & _). by exists r.
Defined.

(** The passes may agree on one candidate and the scores on the other: the verdict then
    goes by the scores, with full confidence. *)
Definition contrary (q : string) (x y : PairwiseJudgeCandidate) (_ _ : option string) : outcome error PairwisePassResult :=
  Ret {| pass_winner := if bool_decide (c_id x = "a") then First else Second; scoreFirst := RQ (if bool_decide (c_id x = "a") then 2 # 10 else 9 # 10);
         scoreSecond := RQ (if bool_decide (c_id y = "a") then 2 # 10 else 9 # 10); pass_reasoning := EmptyString |}.

Example confident_against_its_passes :
  match (evaluate (demo_judge contrary) demo_input tt).1.1 with
  | Ret r => forwardWinner (forwardPass r) = CandidateA /\ reverseWinner (reversePass r) = CandidateA /\
             winner r = CandidateB /\ confidence r = 1
  | _ => False
  end.
Proof. by vm_compute. Qed.

(** A preference for the second place is reported as one for the first. *)
Example recency_reported_as_primacy :
  match (evaluate (demo_judge recency) demo_input tt).1.1 with
  | Ret r => positionBiasDetected r = true /\ pass_winner (forwardPass r) = Second /\
             includes "primacy preference toward the first presented candidate" (reasoning r) = true
  | _ => False
  end.
Proof. by vm_compute. Qed.
End PairwiseJudge.
