(* ===== verification/OpenAiMappers.v ===== *)
(** * Messages of the OpenAI adapter (packages/model-openai/src/mappers.ts)

    The conversion of messages, tools and tool calls between the framework and the
    Chat Completions wire format, and the merging of streamed tool-call fragments.
    The types of the SDK that the mappers read and build are written as the fields
    they use. *)

From Stdlib Require Import Ascii.
From S2P Require Export Types Collections JsonText.

#[local] Open Scope string_scope.
#[local] Open Scope list_scope.
#[local] Open Scope Z_scope.

Module OpenAiMappers.

(** ** The wire format *)

(** A message param; [tool_calls] of an assistant message are function calls with
    their id, their name and the JSON text of their arguments. *)
Record FunctionCallParam : Type := { fc_id : string; fc_name : string; fc_arguments : string }.

Inductive MessageParam : Type :=
| SystemParam (content : string)
| UserParam (content : string)
| AssistantParam (content : option string) (tool_calls : option (list FunctionCallParam))
| ToolParam (tool_call_id content : string).

(** A tool call of a completion: a function call, whose id and arguments a compatible
    server may leave out, or a custom call. *)
Inductive MessageToolCall : Type :=
| FunctionToolCall (id : option string) (name : string) (arguments : option string)
| CustomToolCall.

Record CompletionUsage : Type := { prompt_tokens : Z; completion_tokens : Z; total_tokens : Z }.

(** A fragment of a streamed tool call. *)
Record FunctionDelta : Type := { delta_name : option string; delta_arguments : option string }.
Record ToolCallDelta : Type := {
  delta_index : option Z;
  delta_id : option string;
  delta_function : option FunctionDelta;
}.

(** ** Tools *)

Definition param_type_name (t : ParamType) : string :=
  match t with
  | PString => "string" | PNumber => "number" | PBoolean => "boolean" | PObject => "object" | PArray => "array"
  end.

Definition toJsonSchemaProperty (type : ParamType) (description : option string) : obj :=
  let base := match description with Some d => if truthy d then [("description", VStr d)] else [] | None => [] end in
  match type with
  | PArray => base ++ [("type", VStr "array"); ("items", VObj [])]
  | _ => base ++ [("type", VStr (param_type_name type))]
  end.

(** [properties[name] = v]: assigning to [__proto__] sets the prototype, which is no
    property of the text sent. *)
Definition assign (o : obj) (name : string) (v : value) : obj :=
  if bool_decide (name = "__proto__") then o else obj_set o name v.

Definition add_param (acc : obj * list string) (param : ToolParamSchema) : obj * list string :=
  (assign acc.1 (param_name param) (VObj (toJsonSchemaProperty (param_type param) (param_description param))),
   if param_required param then acc.2 ++ [param_name param] else acc.2).

Definition toOpenAiTool (tool : ModelToolSchema) : value :=
  let '(properties, required) := fold_left add_param (schema_parameters tool) ([], []) in
  VObj [("type", VStr "function");
        ("function", VObj [
           ("name", VStr (schema_name tool));
           ("description", VStr (schema_description tool));
           ("parameters", VObj ([("type", VStr "object"); ("properties", VObj properties)] ++
              match required with [] => [] | _ => [("required", VArr (map VStr required))] end))])].

Definition toOpenAiTools (tools : list ModelToolSchema) : list value := map toOpenAiTool tools.

(** ** Messages *)

Definition toFunctionCall (call : ModelToolCall) : FunctionCallParam :=
  {| fc_id := call_id call; fc_name := call_name call; fc_arguments := json (VObj (call_args call)) |}.

Definition toOpenAiMessage (message : ModelMessage) : MessageParam :=
  match message with
  | SystemMsg content => SystemParam content
  | UserMsg content => UserParam content
  | AssistantMsg content calls =>
      AssistantParam (if truthy content then Some content else None)
        match calls with
        | Some ((_ :: _) as cs) => Some (map toFunctionCall cs)
        | _ => None
        end
  | ToolMsg toolCallId _ content _ => ToolParam toolCallId content
  end.

Definition toOpenAiMessages (messages : list ModelMessage) : list MessageParam := map toOpenAiMessage messages.

(** ** Tool calls *)

Definition parseArguments (raw : option string) : obj :=
  match raw with
  | None => []
  | Some r =>
      if str_is_empty r || str_is_empty (trim r) then []
      else match json_parse r with Some (VObj fs) => fs | _ => [] end
  end.

Definition generated_id (index : Z) : string := "tool_call_" +:+ Z_to_string index.

Definition function_call (call : MessageToolCall) : option (option string * string * option string) :=
  match call with FunctionToolCall id name args => Some (id, name, args) | CustomToolCall => None end.

Definition toModelToolCalls (toolCalls : option (list MessageToolCall)) : list ModelToolCall :=
  match toolCalls with
  | None => []
  | Some calls =>
      imap (fun index '(id, name, args) =>
              {| call_id := default (generated_id (Z.of_nat index)) id; call_name := name; call_args := parseArguments args |})
           (filter_map function_call calls)
  end.

Definition toModelUsage (usage : option CompletionUsage) : option ModelUsage :=
  match usage with
  | None => None
  | Some u => Some {| inputTokens := Some (prompt_tokens u); outputTokens := Some (completion_tokens u);
                      totalTokens := Some (total_tokens u) |}
  end.

Definition toModelFinishReason (reason : option string) : ModelFinishReason :=
  match reason with
  | Some r =>
      if bool_decide (r = "stop") then FinishStop
      else if bool_decide (r = "tool_calls") || bool_decide (r = "function_call") then FinishToolCalls
      else if bool_decide (r = "length") then FinishLength
      else if bool_decide (r = "content_filter") then FinishContentFilter
      else FinishUnknown
  | None => FinishUnknown
  end.

(** ** Streamed tool calls *)

Record Accumulated : Type := { acc_id : option string; acc_name : string; acc_arguments : string }.

Definition no_call : Accumulated := {| acc_id := None; acc_name := EmptyString; acc_arguments := EmptyString |}.

(** The accumulator: its calls by index, in the order their index was first met. *)
Definition ToolCallAccumulator : Type := list (Z * Accumulated).

Definition merge (existing : Accumulated) (delta : ToolCallDelta) : Accumulated := {|
  acc_id := orelse (delta_id delta) (acc_id existing);
  acc_name := default (acc_name existing) (delta_function delta ≫= delta_name);
  acc_arguments := acc_arguments existing +:+ default EmptyString (delta_function delta ≫= delta_arguments);
|}.

Definition add_delta (byIndex : ToolCallAccumulator) (p : nat * ToolCallDelta) : ToolCallAccumulator :=
  let '(position, delta) := p in
  let index := default (Z.of_nat position) (delta_index delta) in
  js_set byIndex index (merge (default no_call (js_get byIndex index)) delta).

Definition add (byIndex : ToolCallAccumulator) (deltas : option (list ToolCallDelta)) : ToolCallAccumulator :=
  match deltas with
  | None => byIndex
  | Some ds => fold_left add_delta (imap pair ds) byIndex
  end.

Definition by_index (a b : Z * Accumulated) : bool := a.1 <=? b.1.

Definition accumulatedToolCalls (byIndex : ToolCallAccumulator) : list ModelToolCall :=
  map (fun '(index, call) =>
         {| call_id := default (generated_id index) (acc_id call); call_name := acc_name call;
            call_args := parseArguments (Some (acc_arguments call)) |})
      (List.filter (fun e => truthy (acc_name e.2)) (stable_sort by_index byIndex)).

Definition size (byIndex : ToolCallAccumulator) : nat := length byIndex.

(** ** Arguments are sent and read back *)

Lemma drop_while_all {A} (p : A -> bool) l : drop_while p l = [] -> forall x, x ∈ l -> p x = true.
Proof.
  induction l as [|y l IH]; simpl; [by intros _ x ?%elem_of_nil|]. destruct (p y) eqn:Hy; [|done].
  intros Hd x [->|Hx]%elem_of_cons; [done|by apply IH].
Qed.

(** A text with a character that is no space is not blank. *)
Lemma trim_visible s c : c ∈ chars s -> is_space c = false -> str_is_empty (trim s) = false.
Proof.
  intros Hin Hc. destruct (str_is_empty (trim s)) eqn:He; [|done]. exfalso.
  assert (chars (trim s) = []) as Ht by (destruct (trim s); done). unfold trim in Ht. rewrite chars_of_chars in Ht.
  apply (f_equal (@rev ascii)) in Ht. rewrite rev_involutive in Ht. pose proof (drop_while_all _ _ Ht) as Hall.
  assert (forall l, c ∈ l -> c ∈ drop_while is_space l) as Hkeep.
  { induction l as [|y l IH]; [done|]. intros [->|Hl]%elem_of_cons; simpl; [rewrite Hc; by left|].
    destruct (is_space y); [by apply IH|by right]. }
  specialize (Hall c). rewrite list_elem_of_In, <- in_rev, <- list_elem_of_In in Hall. rewrite Hall in Hc; [done|by apply Hkeep].
Qed.

Definition serial_args (call : ModelToolCall) : Prop := JsonText.serial (VObj (call_args call)).

Lemma parse_sent_arguments args : JsonText.serial (VObj args) -> parseArguments (Some (json (VObj args))) = args.
Proof.
  intros Hs. unfold parseArguments.
  assert ("{"%char ∈ chars (json (VObj args))) as Hin.
  { change (chars (json (VObj args))) with (JsonText.text (VObj args)). apply andb_True in Hs as [_ Hs].
    rewrite JsonText.text_obj by done. by left. }
  rewrite (trim_visible _ _ Hin) by done. destruct (str_is_empty (json (VObj args))) eqn:He.
  - destruct (json (VObj args)); [by apply elem_of_nil in Hin|done].
  - simpl. by rewrite JsonText.parse_stringify.
Qed.

(** The function call of a completion that spells a call param. *)
Definition echoed (p : FunctionCallParam) : MessageToolCall :=
  FunctionToolCall (Some (fc_id p)) (fc_name p) (Some (fc_arguments p)).

Lemma imap_ignoring {A B} (g : A -> B) l : imap (fun _ x => g x) l = map g l.
Proof. induction l as [|x l IH]; [done|]. simpl. f_equal. exact IH. Qed.

Lemma toModelToolCalls_known calls : toModelToolCalls (Some (map echoed calls)) =
  map (fun p => {| call_id := fc_id p; call_name := fc_name p; call_args := parseArguments (Some (fc_arguments p)) |}) calls.
Proof.
  unfold toModelToolCalls. assert (filter_map function_call (map echoed calls) =
    map (fun p => (Some (fc_id p), fc_name p, Some (fc_arguments p))) calls) as -> by (induction calls; simpl; congruence).
  change (map ?f calls) with (f <$> calls). rewrite imap_fmap. exact (imap_ignoring (fun p =>
    {| call_id := fc_id p; call_name := fc_name p; call_args := parseArguments (Some (fc_arguments p)) |}) calls).
Qed.

(** What a message param says, read with the mapper of tool calls. *)
Definition fromParam (p : MessageParam) : ModelMessage :=
  match p with
  | SystemParam content => SystemMsg content
  | UserParam content => UserMsg content
  | AssistantParam content calls =>
      AssistantMsg (default EmptyString content)
        match calls with Some cs => Some (toModelToolCalls (Some (map echoed cs))) | None => None end
  | ToolParam id content => ToolMsg id EmptyString content None
  end.

(** What the wire format does not carry: the name and the provenance of a tool result,
    and the difference between no tool calls and an empty list. *)
Definition on_the_wire (m : ModelMessage) : ModelMessage :=
  match m with
  | AssistantMsg content (Some []) => AssistantMsg content None
  | ToolMsg id _ content _ => ToolMsg id EmptyString content None
  | _ => m
  end.

Lemma sent_back call : serial_args call ->
  {| call_id := fc_id (toFunctionCall call); call_name := fc_name (toFunctionCall call);
     call_args := parseArguments (Some (fc_arguments (toFunctionCall call))) |} = call.
Proof.
  intros Hs. unfold toFunctionCall. cbn [fc_id fc_name fc_arguments].
  rewrite parse_sent_arguments by done. by destruct call.
Qed.

(** C27. What the model is sent of a conversation.  When the arguments of its tool calls
    are such that their JSON text keeps them ([serial_args]), each message is sent in
    its place, with its role, its content, its tool calls, whose arguments are read
    back from their text as they were, and a tool result with the id of its call.  The
    wire format carries no more: the name of a result's tool and its provenance are not
    sent, and no tool calls is the same as an empty list of them ([on_the_wire]). *)
Theorem conversation_is_sent_whole messages :
  Forall (fun m => Forall serial_args (tool_calls m)) messages ->
  map fromParam (toOpenAiMessages messages) = map on_the_wire messages.
Proof.
  intros Hm. unfold toOpenAiMessages. rewrite map_map. induction Hm as [|m messages Hm _ IH]; [done|]. simpl. f_equal; [|exact IH].
  destruct m as [c|c|c calls|id n c p]; try done.
  cbn [toOpenAiMessage fromParam on_the_wire tool_calls] in *.
  assert (default EmptyString (if truthy c then Some c else None) = c) as -> by (by destruct c).
  destruct calls as [[|x calls]|]; [done| |done]. do 2 f_equal. rewrite toModelToolCalls_known, map_map.
  clear IH. induction Hm as [|y cs Hc _ IH]; [done|]. rewrite map_cons, sent_back by done. f_equal. exact IH.
Qed.

(** ** Fragments *)

(** A fragment at its index, and the fragments of one chunk at theirs. *)
Definition place (p : nat * ToolCallDelta) : Z * ToolCallDelta :=
  (default (Z.of_nat p.1) (delta_index p.2), p.2).

Definition placed (deltas : option (list ToolCallDelta)) : list (Z * ToolCallDelta) :=
  match deltas with Some ds => map place (imap pair ds) | None => [] end.

Definition fragments (chunks : list (option (list ToolCallDelta))) : list (Z * ToolCallDelta) := mjoin (map placed chunks).

(** The fragments of one call, in the order they came. *)
Definition of_call (i : Z) (frs : list (Z * ToolCallDelta)) : list ToolCallDelta :=
  filter_map (fun f => if bool_decide (f.1 = i) then Some f.2 else None) frs.

Lemma of_call_cons i j d frs : of_call i ((j, d) :: frs) = if bool_decide (j = i) then d :: of_call i frs else of_call i frs.
Proof. unfold of_call. simpl. by case_bool_decide. Qed.

Definition put (byIndex : ToolCallAccumulator) (f : Z * ToolCallDelta) : ToolCallAccumulator :=
  js_set byIndex f.1 (merge (default no_call (js_get byIndex f.1)) f.2).

Lemma add_placed byIndex deltas : add byIndex deltas = fold_left put (placed deltas) byIndex.
Proof.
  destruct deltas as [ds|]; [|done]. simpl. generalize (imap pair ds) as ps. intros ps. revert byIndex.
  induction ps as [|[i d] ps IH]; intros byIndex; [done|]. simpl. apply IH.
Qed.

Lemma add_fragments chunks byIndex : fold_left add chunks byIndex = fold_left put (fragments chunks) byIndex.
Proof.
  revert byIndex. induction chunks as [|c chunks IH]; intros byIndex; [done|].
  unfold fragments. simpl. by rewrite fold_left_app, <- add_placed, IH.
Qed.

Lemma put_unique frs byIndex : unique_keys byIndex -> unique_keys (fold_left put frs byIndex).
Proof. revert byIndex. induction frs as [|f frs IH]; intros byIndex H; [done|]. apply IH. by apply unique_keys_set. Qed.

(** A call is merged from its own fragments only. *)
Lemma get_merged frs byIndex i :
  js_get (fold_left put frs byIndex) i =
  match of_call i frs with
  | [] => js_get byIndex i
  | ds => Some (fold_left merge ds (default no_call (js_get byIndex i)))
  end.
Proof.
  revert byIndex. induction frs as [|[j d] frs IH]; intros byIndex; [done|]. cbn [fold_left]. rewrite IH.
  unfold put. cbn [fst snd]. rewrite js_get_set, of_call_cons. case_bool_decide as Hj; [subst j|done]. by destruct (of_call i frs).
Qed.

(** Entries in the order of their index, no index twice, are determined by what is
    stored under each index. *)
Lemma by_index_total (x y : Z * Accumulated) : True -> True -> by_index x y = true \/ by_index y x = true.
Proof. unfold by_index. lia. Qed.

Lemma by_index_trans (x y z : Z * Accumulated) : True -> True -> True -> by_index x y = true -> by_index y z = true -> by_index x z = true.
Proof. unfold by_index. lia. Qed.

Lemma ordered_unique (l1 l2 : ToolCallAccumulator) :
  ordered by_index l1 -> ordered by_index l2 -> NoDup l1.*1 -> l1 ≡ₚ l2 -> l1 = l2.
Proof.
  revert l2. induction l1 as [|x l1 IH]; intros l2 H1 H2 Hd Hp; [by apply Permutation_nil_l in Hp|].
  destruct l2 as [|y l2]; [by symmetry in Hp; apply Permutation_nil_l in Hp|].
  destruct H1 as [Hx H1], H2 as [Hy H2]. apply NoDup_cons in Hd as [Hn Hd].
  assert (x = y) as <-; [|f_equal; apply IH; [done..|by apply Permutation_cons_inv in Hp]].
  assert (y ∈ x :: l1) as [->|Hyl]%elem_of_cons by (rewrite Hp; left); [done|].
  assert (x ∈ y :: l2) as [->|Hxl]%elem_of_cons by (rewrite <- Hp; left); [done|].
  rewrite Forall_forall in Hx, Hy. specialize (Hx y Hyl). specialize (Hy x Hxl). unfold by_index in Hx, Hy.
  destruct Hn. assert (x.1 = y.1) as -> by lia. by apply list_elem_of_fmap_2.
Qed.

Lemma same_entries (m1 m2 : ToolCallAccumulator) : unique_keys m1 -> unique_keys m2 ->
  (forall i, js_get m1 i = js_get m2 i) -> m1 ≡ₚ m2.
Proof.
  intros H1 H2 Hg. apply NoDup_Permutation; [by eapply NoDup_fmap_1..|].
  intros [i a]. split; intros H.
  - apply js_get_elem. rewrite <- Hg. by apply elem_js_get.
  - apply js_get_elem. rewrite Hg. by apply elem_js_get.
Qed.

Lemma sorted_entries (m : ToolCallAccumulator) : ordered by_index (stable_sort by_index m).
Proof. apply (stable_sort_ordered by_index (fun _ => True) by_index_total by_index_trans). by apply Forall_true. Qed.

Lemma sort_determined (m1 l2 : ToolCallAccumulator) : unique_keys m1 -> unique_keys l2 -> ordered by_index l2 ->
  (forall i, js_get m1 i = js_get l2 i) -> stable_sort by_index m1 = l2.
Proof.
  intros H1 H2 Ho Hg. apply ordered_unique; [apply sorted_entries|done| |].
  - assert (stable_sort by_index m1 ≡ₚ m1) as Hp by apply stable_sort_permutation. by rewrite Hp.
  - rewrite stable_sort_permutation. by apply same_entries.
Qed.

(** C29. Fragments of different calls may come in any order: what counts is the order of
    the fragments of each call. *)
Theorem fragments_interleave chunks1 chunks2 :
  (forall i, of_call i (fragments chunks1) = of_call i (fragments chunks2)) ->
  accumulatedToolCalls (fold_left add chunks1 []) = accumulatedToolCalls (fold_left add chunks2 []).
Proof.
  intros Hf. unfold accumulatedToolCalls. do 2 f_equal. rewrite !add_fragments.
  assert (unique_keys ([] : ToolCallAccumulator)) as H0 by constructor.
  apply sort_determined; [by apply put_unique| |apply sorted_entries|].
  - unfold unique_keys. rewrite stable_sort_permutation. by apply put_unique.
  - intros i. transitivity (js_get (fold_left put (fragments chunks2) []) i); [by rewrite !get_merged, Hf|].
    set (m := fold_left put _ _). assert (unique_keys m) as Hm by by apply put_unique.
    assert (unique_keys (stable_sort by_index m)) as Hs by (unfold unique_keys; by rewrite stable_sort_permutation).
    destruct (js_get m i) as [a|] eqn:Ha.
    + symmetry. apply elem_js_get; [done|]. rewrite stable_sort_permutation. by apply js_get_elem.
    + symmetry. apply js_get_None. rewrite stable_sort_permutation. by apply js_get_None.
Qed.

(** *** Calls cut into fragments *)

(** The fragments of one function call: the first has the id and the name, the texts
    of the arguments add up. *)
Record cut (p : FunctionCallParam) (ds : list ToolCallDelta) : Prop := {
  cut_starts : exists d rest, ds = d :: rest /\ delta_id d = Some (fc_id p) /\
    (delta_function d ≫= delta_name) = Some (fc_name p) /\
    Forall (fun d => delta_id d = None /\ (delta_function d ≫= delta_name) = None) rest;
  cut_arguments : fold_left (fun a d => a +:+ default EmptyString (delta_function d ≫= delta_arguments)) ds EmptyString = fc_arguments p;
}.

Lemma merge_rest ds a : Forall (fun d => delta_id d = None /\ (delta_function d ≫= delta_name) = None) ds ->
  fold_left merge ds a = {| acc_id := acc_id a; acc_name := acc_name a;
    acc_arguments := fold_left (fun a d => a +:+ default EmptyString (delta_function d ≫= delta_arguments)) ds (acc_arguments a) |}.
Proof.
  intros H. revert a. induction H as [|d ds [Hi Hn] _ IH]; intros a; simpl; [by destruct a|].
  rewrite IH. unfold merge. simpl. by rewrite Hi, Hn.
Qed.

Definition whole (p : FunctionCallParam) : Accumulated :=
  {| acc_id := Some (fc_id p); acc_name := fc_name p; acc_arguments := fc_arguments p |}.

Lemma merge_cut p ds : cut p ds -> fold_left merge ds no_call = whole p.
Proof.
  intros [(d & rest & -> & Hi & Hn & Hr) Ha]. simpl in *. rewrite merge_rest by done. unfold merge, whole. simpl.
  rewrite Hi, Hn. simpl. by rewrite <- Ha.
Qed.

(** A completion's calls, cut into fragments that come in any order across the calls,
    are the calls the completion has. *)
Definition delivers (calls : list FunctionCallParam) (chunks : list (option (list ToolCallDelta))) : Prop :=
  (forall n p, calls !! n = Some p -> cut p (of_call (Z.of_nat n) (fragments chunks))) /\
  (forall i, (i < 0 \/ Z.of_nat (length calls) <= i) -> of_call i (fragments chunks) = []).

Definition entries_from (n : nat) (calls : list FunctionCallParam) : ToolCallAccumulator :=
  imap (fun k p => (Z.of_nat (n + k), whole p)) calls.

Lemma entries_cons n p calls : entries_from n (p :: calls) = (Z.of_nat n, whole p) :: entries_from (S n) calls.
Proof.
  unfold entries_from. simpl. rewrite Nat.add_0_r. f_equal. apply imap_ext. intros k q _. simpl. do 2 f_equal. lia.
Qed.

Lemma entries_above n calls : Forall (fun e => Z.of_nat n <= e.1) (entries_from n calls).
Proof.
  revert n. induction calls as [|p calls IH]; intros n; [constructor|]. rewrite entries_cons. constructor; [simpl; lia|].
  eapply Forall_impl; [apply IH|]. simpl. lia.
Qed.

Lemma entries_ordered n calls : ordered by_index (entries_from n calls) /\ unique_keys (entries_from n calls).
Proof.
  revert n. induction calls as [|p calls IH]; intros n; [split; [done|constructor]|]. rewrite entries_cons.
  pose proof (entries_above (S n) calls) as Ha. destruct (IH (S n)) as [Ho Hu]. split.
  - split; [|done]. eapply Forall_impl; [exact Ha|]. unfold by_index. simpl. lia.
  - apply NoDup_cons. split; [|done]. intros (e & He & Hin)%list_elem_of_fmap.
    rewrite Forall_forall in Ha. specialize (Ha _ Hin). simpl in *. lia.
Qed.

Lemma entries_get n calls i : js_get (entries_from n calls) i =
  if bool_decide (Z.of_nat n <= i) then whole <$> calls !! (Z.to_nat i - n)%nat else None.
Proof.
  revert n. induction calls as [|p calls IH]; intros n; [by case_bool_decide|]. rewrite entries_cons. simpl. rewrite IH.
  case_bool_decide as Hi.
  - subst i. rewrite bool_decide_true by lia. by rewrite Nat2Z.id, Nat.sub_diag.
  - destruct (decide (Z.of_nat n <= i)).
    + rewrite !bool_decide_true by lia. by replace (Z.to_nat i - n)%nat with (S (Z.to_nat i - S n)) by lia.
    + by rewrite !bool_decide_false by lia.
Qed.

Theorem fragments_assemble calls chunks : delivers calls chunks -> Forall (fun p => fc_name p <> EmptyString) calls ->
  accumulatedToolCalls (fold_left add chunks []) = toModelToolCalls (Some (map echoed calls)).
Proof.
  intros [Hin Hout] Hn. rewrite toModelToolCalls_known. unfold accumulatedToolCalls.
  destruct (entries_ordered 0 calls) as [Ho Hu].
  assert (stable_sort by_index (fold_left add chunks []) = entries_from 0 calls) as ->.
  { apply sort_determined; [rewrite add_fragments; apply put_unique; constructor|done|done|].
    intros i. rewrite add_fragments, get_merged, entries_get. simpl. rewrite Nat.sub_0_r. case_bool_decide as Hi.
    - destruct (calls !! Z.to_nat i) as [p|] eqn:Hp.
      + specialize (Hin _ _ Hp). rewrite Z2Nat.id in Hin by done. simpl. rewrite <- (merge_cut _ _ Hin).
        by destruct Hin as [(d & r & -> & _) _].
      + apply lookup_ge_None in Hp. rewrite Hout by lia. done.
    - rewrite Hout by lia. done. }
  clear - Hn. generalize 0%nat as n. induction Hn as [|p calls Hp _ IH]; intros n; [done|]. rewrite entries_cons. simpl.
  unfold truthy at 1. destruct (str_is_empty (fc_name p)) eqn:He; [by destruct (fc_name p)|]. simpl. f_equal. exact (IH (S n)).
Qed.

(** ** Witnesses *)

Definition a_call : ModelToolCall := {|
  call_id := "call_1"; call_name := "transfer";
  call_args := [("to", VStr "it's"); ("amount", VNum (NDec (-1250) 0)); ("tags", VArr [VStr "a"; VNull; VNum (NDec 5 (-1))])] |}.

Definition a_conversation : list ModelMessage :=
  [SystemMsg "Be brief"; UserMsg "Pay"; AssistantMsg EmptyString (Some [a_call]);
   ToolMsg "call_1" "transfer" "ok" (Some (tool_provenance "transfer"))].

Lemma conversation_is_sent_whole_witness :
  map fromParam (toOpenAiMessages a_conversation) = map on_the_wire a_conversation.
Proof. apply conversation_is_sent_whole. repeat (apply Forall_cons; split || apply Forall_nil; try exact I). all: by vm_compute. Defined.

Definition piece (i : Z) (id name : option string) (args : string) : ToolCallDelta :=
  {| delta_index := Some i; delta_id := id; delta_function := Some {| delta_name := name; delta_arguments := Some args |} |}.

(** Two calls whose argument fragments come mixed. *)
Definition mixed : list (option (list ToolCallDelta)) :=
  [Some [piece 1 (Some "b") (Some "search") "{"; piece 0 (Some "a") (Some "add") "[1"];
   None; Some [piece 0 None None "]"]; Some [piece 1 None None "}"]].

Definition in_turn : list (option (list ToolCallDelta)) :=
  [Some [piece 0 (Some "a") (Some "add") "[1"; piece 0 None None "]"];
   Some [piece 1 (Some "b") (Some "search") "{"; piece 1 None None "}"]].

Definition two_calls : list FunctionCallParam :=
  [{| fc_id := "a"; fc_name := "add"; fc_arguments := "[1]" |}; {| fc_id := "b"; fc_name := "search"; fc_arguments := "{}" |}].

Lemma fragments_interleave_witness :
  accumulatedToolCalls (fold_left add mixed []) = accumulatedToolCalls (fold_left add in_turn []).
Proof.
  apply fragments_interleave. intros i. unfold mixed, in_turn, fragments, of_call. simpl.
  destruct (decide (1 = i)) as [<-|]; [done|]. destruct (decide (0 = i)) as [<-|]; [done|].
  by rewrite !bool_decide_false.
Defined.

Lemma mixed_delivers : delivers two_calls mixed.
Proof.
  split.
  - intros [|[|n]] p; [| |done]; intros [= <-]; (split; [|done]); eexists _, _; (split; [done|]);
      split_and!; try done; repeat constructor.
  - simpl. intros i Hi. unfold mixed, fragments, of_call. simpl. by rewrite !bool_decide_false by lia.
Qed.

Lemma fragments_assemble_witness :
  accumulatedToolCalls (fold_left add mixed []) = toModelToolCalls (Some (map echoed two_calls)).
Proof. apply fragments_assemble; [apply mixed_delivers|by repeat constructor]. Defined.

(** A custom call is skipped before the calls without an id are numbered. *)
Example custom_calls_are_not_counted :
  map call_id (toModelToolCalls (Some [CustomToolCall; FunctionToolCall None "f" None])) = ["tool_call_0"].
Proof. reflexivity. Qed.

(** Arguments that are no object are replaced by none at all. *)
Example unusable_arguments_are_dropped :
  (parseArguments (Some "[1]"), parseArguments (Some "{bad"), parseArguments (Some "  "), parseArguments None) = ([], [], [], []).
Proof. reflexivity. Qed.

End OpenAiMappers.
