(* ===== verification/OpenAiSchema.v ===== *)
(** * Schemas of structured answers (packages/model-openai/src/openai-model.adapter.ts)

    The provider takes only an object at the root of an answer's schema: any other
    schema is sent as the [value] property of one, its references re-pointed, and the
    answer is unwrapped again. *)

From Stdlib Require Import Ascii.
From stdpp Require Import pretty.
From S2P Require Export OpenAiMappers Schema SchemaSound.

#[local] Open Scope string_scope.
#[local] Open Scope list_scope.
#[local] Open Scope Z_scope.

Module OpenAiSchema.

Import Numerals OpenAiMappers Schema SchemaTotal.

(** [o[k] !== undefined] *)
Definition field (o : obj) (k : string) : option value :=
  match obj_get o k with Some VUndef => None | r => r end.

(** The entries of a value that is an object and no array. *)
Definition record_entries (v : value) : option obj :=
  match v with
  | VObj fs => Some fs
  | VDate _ | VMap _ | VSet _ => Some []
  | _ => None
  end.

Definition needsWrapping (schema : obj) : bool :=
  negb (match obj_get schema "type" with Some (VStr t) => bool_decide (t = "object") | _ => false end).

Definition DATA_KEYWORDS : list string := ["const"; "enum"; "default"; "examples"].
Definition SCHEMA_MAPS : list string := ["properties"; "patternProperties"; "$defs"; "definitions"; "dependentSchemas"].
Definition SUBSCHEMA_KEYWORDS : list string :=
  ["items"; "prefixItems"; "anyOf"; "oneOf"; "allOf"; "not"; "additionalProperties"; "contains"; "if"; "then"; "else"].

(** ** Rewriting references *)

Section Rewrite.
Context (map_ref : string -> string).

Fixpoint rewriteRefs (node : value) : value :=
  match node with
  | VArr items => VArr (map rewriteRefs items)
  | VObj entries =>
      VObj ((fix go (entries : obj) (out : obj) : obj :=
               match entries with
               | [] => out
               | (key, v) :: rest =>
                   go rest (assign out key
                     match v with
                     | VStr ref => if bool_decide (key = "$ref") then VStr (map_ref ref) else v
                     | VObj subs =>
                         if bool_decide (key ∈ DATA_KEYWORDS) then v
                         else if bool_decide (key ∈ SCHEMA_MAPS) then VObj (map (fun f => (f.1, rewriteRefs f.2)) subs)
                         else rewriteRefs v
                     | VDate _ | VMap _ | VSet _ =>
                         if bool_decide (key ∈ DATA_KEYWORDS) then v else VObj []
                     | _ => if bool_decide (key ∈ DATA_KEYWORDS) then v else rewriteRefs v
                     end)
               end) entries [])
  | VDate _ | VMap _ | VSet _ => VObj []
  | _ => node
  end.

End Rewrite.

(** The references [rewriteRefs] passes through its map, in order. *)
Fixpoint passed_refs (node : value) : list string :=
  match node with
  | VArr items => concat (map passed_refs items)
  | VObj entries =>
      concat (map (fun e : string * value =>
        let '(key, v) := e in
        match v with
        | VStr ref => if bool_decide (key = "$ref") then [ref] else []
        | VObj subs =>
            if bool_decide (key ∈ DATA_KEYWORDS) then []
            else if bool_decide (key ∈ SCHEMA_MAPS) then concat (map (fun f => passed_refs f.2) subs)
            else passed_refs v
        | _ => if bool_decide (key ∈ DATA_KEYWORDS) then [] else passed_refs v
        end) entries)
  | _ => []
  end.

(** [uniqueKey]: the loop ends within one more step than there are keys. *)
Fixpoint try_keys (base : string) (keys : list string) (fuel : nat) (n : Z) (key : string) : option string :=
  if bool_decide (key ∈ keys) then
    match fuel with
    | O => None
    | S fuel' => try_keys base keys fuel' (n + 1) (base +:+ "_" +:+ Z_to_string n)
    end
  else Some key.

Definition taken_keys (taken : option value) : list string := obj_keys (default [] (taken ≫= record_entries)).

Definition uniqueKey (base : string) (taken : option value) : string :=
  default base (try_keys base (taken_keys taken) (length (taken_keys taken)) 2 base).

(** ** Wrapping *)

(** A reference into the original root; those below [$defs] and [definitions] keep
    their place. *)
Definition moves (ref : string) : bool :=
  (bool_decide (ref = "#") || starts_with "#/" ref) &&
  negb (starts_with "#/$defs/" ref || starts_with "#/definitions/" ref).

Definition slice1 (s : string) : string := of_chars (drop 1 (chars s)).

Definition moveRef (rootKey : string) (ref : string) : string :=
  if moves ref then "#/$defs/" +:+ rootKey +:+ slice1 ref else ref.

Definition optional (k : string) (v : option value) : obj := match v with Some x => [(k, x)] | None => [] end.

Definition wrapper (v : value) (defs legacyDefs : option value) : obj :=
  [("type", VStr "object"); ("properties", VObj [("value", v)]); ("required", VArr [VStr "value"]);
   ("additionalProperties", VBool false)] ++ optional "$defs" defs ++ optional "definitions" legacyDefs.

(** [{ $defs, definitions, ...inner }] *)
Definition inner_of (schema : obj) : obj :=
  List.filter (fun f => negb (bool_decide (f.1 = "$defs") || bool_decide (f.1 = "definitions"))) schema.

Definition refs_of (v : option value) : list string := match v with Some x => passed_refs x | None => [] end.

Definition wrapSchema (schema : obj) : obj :=
  let defs := field schema "$defs" in
  let definitions := field schema "definitions" in
  let inner := inner_of schema in
  let rootKey := uniqueKey "wrapped_root" defs in
  let moved := existsb moves (passed_refs (VObj inner) ++ refs_of defs ++ refs_of definitions) in
  let rewritten := rewriteRefs (moveRef rootKey) in
  if moved then
    wrapper (VObj [("$ref", VStr ("#/$defs/" +:+ rootKey))])
      (Some (VObj (obj_set (default [] ((rewritten <$> defs) ≫= record_entries)) rootKey (rewritten (VObj inner)))))
      (rewritten <$> definitions)
  else wrapper (VObj inner) defs definitions.

(** ** Strict mode *)

Definition types_include_object (fs : obj) : bool :=
  match obj_get fs "type" with
  | Some (VArr ts) => existsb (fun t => match t with VStr s => bool_decide (s = "object") | _ => false end) ts
  | Some (VStr s) => bool_decide (s = "object")
  | _ => false
  end.

Definition required_names (fs : obj) : list string :=
  match obj_get fs "required" with
  | Some (VArr rs) => filter_map (fun r => match r with VStr s => Some s | _ => None end) rs
  | _ => []
  end.

Definition record_field (fs : obj) (k : string) : option obj := obj_get fs k ≫= record_entries.

(** An object schema is closed and requires all of its properties. *)
Definition closed_object (fs : obj) : bool :=
  if types_include_object fs || is_some (record_field fs "properties") then
    (match obj_get fs "additionalProperties" with Some (VBool false) => true | _ => false end) &&
    forallb (fun k => bool_decide (k ∈ required_names fs)) (obj_keys (default [] (record_field fs "properties")))
  else true.

Fixpoint isStrictCompatible (node : value) : bool :=
  match node with
  | VArr items => forallb isStrictCompatible items
  | VObj fs =>
      closed_object fs &&
      forallb (fun f =>
        match f with
        | (key, x) =>
            (if bool_decide (key ∈ SCHEMA_MAPS) then
               match x with VObj subs => forallb (fun s => isStrictCompatible s.2) subs | _ => true end
             else true) &&
            (if bool_decide (key ∈ SUBSCHEMA_KEYWORDS) then isStrictCompatible x else true)
        end) fs
  | _ => true
  end.

(** ** Unwrapping *)

Definition unwrapStructuredContent (format : option ModelOutputFormat) (content : string) (native : bool) : string :=
  match format with
  | Some f =>
      if native && needsWrapping (format_schema f) && truthy content then
        match json_parse content with
        | Some (VObj fs) => match obj_get fs "value" with Some v => json v | None => content end
        | _ => content
        end
      else content
  | None => content
  end.

(** ** The answer is unwrapped *)

(** What [wrapSchema] asks the model for is taken out again, as the text the value
    prints as. *)
Theorem answer_is_unwrapped f v : needsWrapping (format_schema f) -> JsonText.serial v ->
  unwrapStructuredContent (Some f) (json (VObj [("value", v)])) true = json v.
Proof.
  intros Hw Hv. unfold unwrapStructuredContent. apply Is_true_eq_true in Hw. rewrite Hw.
  destruct (truthy _) eqn:Ht.
  - rewrite JsonText.parse_stringify; [done|]. simpl. by rewrite andb_true_r.
  - exfalso. unfold truthy in Ht. apply negb_false_iff in Ht. destruct (json (VObj [("value", v)])) eqn:Hj; [|done].
    assert (JsonText.text (VObj [("value", v)]) = []) as Htext by (unfold JsonText.text; by rewrite Hj).
    rewrite JsonText.text_obj in Htext; [done|]. simpl. by rewrite andb_true_r.
Qed.

(** ** References survive the wrapping *)

(** JSON trees: the keys of an object are distinct, none is [__proto__]. *)
Fixpoint plain (v : value) : bool :=
  match v with
  | VArr l => forallb plain l
  | VObj fs => bool_decide (NoDup fs.*1) && bool_decide ("__proto__" ∉ fs.*1) && forallb (fun f => plain f.2) fs
  | VDate _ | VMap _ | VSet _ => false
  | _ => true
  end.

(** The tree without the texts of its references. *)
Fixpoint erase (v : value) : value :=
  match v with
  | VArr l => VArr (map erase l)
  | VObj fs => VObj (map (fun f => (f.1, match f.2 with
                                         | VStr _ => if bool_decide (f.1 = "$ref") then VStr EmptyString else f.2
                                         | _ => erase f.2
                                         end)) fs)
  | _ => v
  end.

Definition erase_entry (k : string) (x : value) : value :=
  match x with VStr _ => if bool_decide (k = "$ref") then VStr EmptyString else x | _ => erase x end.

Lemma erase_object fs : erase (VObj fs) = VObj (map (fun f => (f.1, erase_entry f.1 f.2)) fs).
Proof. done. Qed.

Lemma value_size_ind (P : value -> Prop) : (forall v, (forall w, (vsize w < vsize v)%nat -> P w) -> P v) -> forall v, P v.
Proof. intros H v. induction v as [v IH] using (induction_ltof1 value vsize). apply H. intros w Hw. by apply IH. Qed.

(** The rewriting of one entry. *)
Definition rewrite_entry (map_ref : string -> string) (key : string) (v : value) : value :=
  match v with
  | VStr ref => if bool_decide (key = "$ref") then VStr (map_ref ref) else v
  | VObj subs =>
      if bool_decide (key ∈ DATA_KEYWORDS) then v
      else if bool_decide (key ∈ SCHEMA_MAPS) then VObj (map (fun f => (f.1, rewriteRefs map_ref f.2)) subs)
      else rewriteRefs map_ref v
  | VDate _ | VMap _ | VSet _ => if bool_decide (key ∈ DATA_KEYWORDS) then v else VObj []
  | _ => if bool_decide (key ∈ DATA_KEYWORDS) then v else rewriteRefs map_ref v
  end.

Lemma rewrite_object_fold map_ref fs : rewriteRefs map_ref (VObj fs) =
  VObj (fold_left (fun out e => assign out e.1 (rewrite_entry map_ref e.1 e.2)) fs []).
Proof.
  simpl. f_equal.
  match goal with |- ?g fs [] = fold_left ?h fs [] => assert (forall fs out, g fs out = fold_left h fs out) as Hg; [|apply Hg] end.
  clear fs. intros fs. induction fs as [|[k v] fs IH]; intros out; [done|]. cbn [fold_left]. rewrite <- IH. done.
Qed.

Lemma rewrite_object map_ref fs : NoDup fs.*1 -> "__proto__" ∉ fs.*1 ->
  rewriteRefs map_ref (VObj fs) = VObj (map (fun e => (e.1, rewrite_entry map_ref e.1 e.2)) fs).
Proof.
  intros Hd Hp. rewrite rewrite_object_fold. f_equal. assert (NoDup (([] : obj).*1 ++ fs.*1)) as Hn by done. clear Hd. revert Hn.
  assert (forall out : obj, NoDup (out.*1 ++ fs.*1) ->
    fold_left (fun out e => assign out e.1 (rewrite_entry map_ref e.1 e.2)) fs out =
    out ++ map (fun e => (e.1, rewrite_entry map_ref e.1 e.2)) fs) as Hall; [|apply Hall].
  induction fs as [|[k v] fs IH]; intros out Hn; simpl; [by rewrite app_nil_r|].
  simpl in Hp. apply not_elem_of_cons in Hp as [Hk Hp]. unfold assign at 2. rewrite bool_decide_false by congruence.
  rewrite JsonText.obj_set_new; [rewrite IH|].
  - by rewrite <- app_assoc.
  - done.
  - rewrite fmap_app, <- app_assoc. exact Hn.
  - apply NoDup_app in Hn as (_ & Hn & _). intros Hin. apply (Hn _ Hin). by left.
Qed.

Lemma plain_object fs : plain (VObj fs) -> NoDup fs.*1 /\ "__proto__" ∉ fs.*1 /\ Forall (fun f => plain f.2) fs.
Proof.
  simpl. intros [[Hd%bool_decide_unpack Hp%bool_decide_unpack]%andb_True Hf]%andb_True. split_and!; [done|done|].
  clear Hd Hp. induction fs as [|f fs IH]; [constructor|]. simpl in Hf. apply andb_True in Hf as [? ?]. constructor; auto.
Qed.

Lemma map_ext_elem {A B} (f g : A -> B) l : Forall (fun x => f x = g x) l -> map f l = map g l.
Proof. induction 1; simpl; congruence. Qed.

Lemma erase_entry_rewrite map_ref k x : erase (rewriteRefs map_ref x) = erase x ->
  erase_entry k (rewriteRefs map_ref x) = erase_entry k x.
Proof. intros H. by destruct x. Qed.

(** Rewriting touches nothing but references. *)
Lemma erase_rewrite map_ref v : plain v -> erase (rewriteRefs map_ref v) = erase v.
Proof.
  induction v as [v IH] using value_size_ind; intros Hp. destruct v as [| | | | |l|fs| | | |]; try done.
  - simpl. f_equal. rewrite map_map. apply map_ext_elem. apply Forall_forall. intros x Hx. apply IH; [by apply vsize_item|].
    simpl in Hp. apply forallb_True in Hp. rewrite Forall_forall in Hp. by apply Hp.
  - pose proof (plain_object fs Hp) as (Hd & Hn & Hf). rewrite rewrite_object, !erase_object by done. f_equal.
    rewrite map_map. apply map_ext_elem. apply Forall_forall. intros [k v] Hin. cbn [fst snd]. f_equal.
    rewrite Forall_forall in Hf. specialize (Hf _ Hin). cbn [snd] in Hf.
    pose proof (vsize_field fs k v Hin) as Hsize.
    assert (erase_entry k (rewriteRefs map_ref v) = erase_entry k v) as Hv by (apply erase_entry_rewrite; by apply IH).
    destruct v as [| | | |ref|l|subs| | | |]; unfold rewrite_entry; repeat case_bool_decide; try done.
    + simpl. by rewrite !bool_decide_true.
    + unfold erase_entry. rewrite !erase_object. f_equal. rewrite map_map. apply map_ext_elem. apply Forall_forall.
      intros [k' x] Hx. cbn [fst snd]. f_equal. apply erase_entry_rewrite. pose proof (vsize_field subs k' x Hx).
      pose proof (plain_object subs Hf) as (_ & _ & Hps). rewrite Forall_forall in Hps. apply IH; [lia|]. by apply (Hps (k', x)).
Qed.

(** *** Following a pointer *)

Lemma erase_no_string x : (forall s, x <> VStr s) -> forall k s, erase_entry k x <> VStr s.
Proof. intros Hx k s. destruct x; try done. by edestruct Hx. Qed.

Lemma erase_entry_tree x k : (forall s, x <> VStr s) -> erase_entry k x = erase x.
Proof. intros Hx. destruct x; try done. by destruct (Hx s). Qed.

Lemma get_erased fs fs' k x : erase (VObj fs) = erase (VObj fs') -> obj_get fs k = Some x ->
  exists y, obj_get fs' k = Some y /\ erase_entry k x = erase_entry k y.
Proof.
  rewrite !erase_object. intros [= He]. revert fs' He. induction fs as [|[k1 v1] fs IH]; intros [|[k2 v2] fs'] He; try done.
  simpl in He. injection He as <- Hv He. simpl. case_bool_decide as Hk; [|by apply IH]. intros [= <-]. subst. by exists v2.
Qed.

Lemma item_erased l l' seg n x : map erase l = map erase l' ->
  find_first (fun _ => true) (filter_map (fun p => if bool_decide (Z_to_string (Z.of_nat p.1) = seg) then Some p.2 else None)
    (combine (seq n (length l)) l)) = Some x ->
  exists y, find_first (fun _ => true) (filter_map (fun p => if bool_decide (Z_to_string (Z.of_nat p.1) = seg) then Some p.2 else None)
    (combine (seq n (length l')) l')) = Some y /\ erase x = erase y.
Proof.
  revert l' n. induction l as [|v l IH]; intros [|v' l'] n He; try done. simpl in He. injection He as Hv He. simpl.
  case_bool_decide; [|by apply IH]. simpl. intros [= <-]. by exists v'.
Qed.

Lemma child_erased a b seg x : erase a = erase b -> child_of a seg = Some x -> (forall s, x <> VStr s) ->
  exists y, child_of b seg = Some y /\ erase x = erase y.
Proof.
  intros He Hc Hx. destruct a as [| | | | |l|fs| | | |]; try done; destruct b as [| | | | |l'|fs'| | | |]; try done.
  - injection He as He. by apply (item_erased l l' seg 0).
  - destruct (get_erased fs fs' seg x He Hc) as (y & Hy & Heq). exists y. split; [done|].
    pose proof (erase_no_string x Hx seg) as Hn. rewrite <- (erase_entry_tree x seg Hx), Heq. rewrite Heq in Hn.
    apply erase_entry_tree. intros t ->. simpl in Hn. by case_bool_decide; eapply Hn.
Qed.

Lemma follow_erased segs a b n : erase a = erase b -> follow a segs = Some n -> is_node n ->
  exists n', follow b segs = Some n' /\ erase n = erase n'.
Proof.
  revert a b. induction segs as [|raw segs IH]; intros a b He Hf Hn; simpl in *.
  - injection Hf as ->. by exists b.
  - destruct (child_of a (pointer_segment raw)) as [x|] eqn:Hc; [|done].
    assert (forall s, x <> VStr s) as Hx. { intros s ->. destruct segs; simpl in Hf; [by injection Hf as <-|done]. }
    destruct (child_erased a b _ x He Hc Hx) as (y & -> & Hxy). by apply (IH x y).
Qed.

Lemma erased_node n n' : erase n = erase n' -> is_node n -> is_node n'.
Proof. by destruct n, n'. Qed.

(** *** Pointers as text *)

Definition plain_segment (l : list ascii) : Prop := Forall (fun c => c <> "/"%char /\ c <> "%"%char /\ c <> "~"%char) l.

Lemma split_segment a b cur : plain_segment a -> split_on "/" (a ++ "/"%char :: b) cur = (rev cur ++ a) :: split_on "/" b [].
Proof.
  intros Ha. revert cur. induction Ha as [|c a (Hc & _) _ IH]; intros cur; simpl; [by rewrite app_nil_r|].
  rewrite bool_decide_false by done. rewrite IH. simpl. by rewrite <- app_assoc.
Qed.

Lemma split_last a cur : plain_segment a -> split_on "/" a cur = [rev cur ++ a].
Proof.
  intros Ha. revert cur. induction Ha as [|c a (Hc & _) _ IH]; intros cur; simpl; [by rewrite app_nil_r|].
  rewrite bool_decide_false by done. rewrite IH. simpl. by rewrite <- app_assoc.
Qed.

Lemma percent_plain l : plain_segment l -> percent_decode l = l.
Proof.
  induction 1 as [|c l (_ & Hc & _) _ IH]; [done|].
  assert (percent_decode (c :: l) = c :: percent_decode l) as -> by (by JsonText.bits c). by rewrite IH.
Qed.

Lemma tilde_plain d x l : plain_segment l -> unescape_tilde d x l = l.
Proof.
  induction 1 as [|c l (_ & _ & Hc) _ IH]; [done|].
  assert (unescape_tilde d x (c :: l) = c :: unescape_tilde d x l) as -> by (by JsonText.bits c). by rewrite IH.
Qed.

Lemma plain_pointer s : plain_segment (chars s) -> pointer_segment (chars s) = s.
Proof.
  intros H. unfold pointer_segment. rewrite percent_plain by done. rewrite (tilde_plain "1") by done.
  rewrite tilde_plain by done. apply String.string_of_list_ascii_of_string.
Qed.

(** *** The key of the moved root *)

Lemma numeric_plain l : Forall (fun c => JsonText.numeric c = true) l -> plain_segment l.
Proof. intros H. eapply Forall_impl; [exact H|]. intros c Hc. by JsonText.bits c. Qed.

Lemma try_keys_shape (P : string -> Prop) base keys fuel n key k : P key -> (forall n, P (base +:+ "_" +:+ Z_to_string n)) ->
  try_keys base keys fuel n key = Some k -> P k /\ k ∉ keys.
Proof.
  intros Hk Hn. revert n key Hk. induction fuel as [|fuel IH]; intros n key Hk; simpl; case_bool_decide; try done.
  - by intros [= <-].
  - by apply IH.
  - by intros [= <-].
Qed.

Lemma try_keys_exhausted base keys fuel n key : try_keys base keys fuel n key = None ->
  key ∈ keys /\ forall i, n <= i < n + Z.of_nat fuel -> base +:+ "_" +:+ Z_to_string i ∈ keys.
Proof.
  revert n key. induction fuel as [|fuel IH]; intros n key; simpl; case_bool_decide as Hk; try done.
  - intros _. split; [done|lia].
  - intros [Hin Hrest]%IH. split; [done|]. intros i Hi. destruct (decide (i = n)) as [->|]; [done|]. apply Hrest. lia.
Qed.

(** The search for a key ends with one that is not taken (an object has far fewer
    keys than numbers print as distinct integers). *)
Lemma unique_key_found base keys : Z.of_nat (length keys) < 10 ^ 20 -> try_keys base keys (length keys) 2 base <> None.
Proof.
  intros Hlen [Hbase Hall]%try_keys_exhausted.
  set (names := base :: map (fun i => base +:+ "_" +:+ Z_to_string (Z.of_nat i)) (seq 2 (length keys))).
  assert (NoDup names) as Hnd.
  { assert (forall t, base <> base +:+ "_" +:+ t) as Hne.
    { intros t H. apply (f_equal (fun s => chars s)) in H. rewrite chars_app in H. simpl in H. apply (f_equal length) in H.
      rewrite length_app in H. simpl in H. lia. }
    apply NoDup_cons. split; [by intros (i & Hi & _)%list_elem_of_fmap; apply Hne in Hi|].
    apply NoDup_fmap_2_strong; [|apply NoDup_seq]. intros i j Hi Hj H. rewrite elem_of_seq in Hi, Hj.
    apply (f_equal (fun s => chars s)) in H. rewrite !chars_app in H. do 2 apply app_inv_head in H. apply chars_inj in H.
    unfold Z_to_string in H. rewrite !counting_text in H by lia. apply (f_equal (fun s => JsonText.read_digits 0 (chars s))) in H.
    rewrite !JsonText.digits_read in H by lia. lia. }
  assert (names ⊆ keys) as Hsub.
  { intros x [->|(i & -> & Hi)%list_elem_of_fmap]%elem_of_cons; [done|]. rewrite elem_of_seq in Hi. apply Hall. lia. }
  pose proof (submseteq_length _ _ (NoDup_submseteq _ _ Hnd Hsub)) as Hle. unfold names in Hle. simpl in Hle.
  rewrite length_map, length_seq in Hle. lia.
Qed.

Lemma uniqueKey_spec taken : Z.of_nat (length (taken_keys taken)) < 10 ^ 20 ->
  uniqueKey "wrapped_root" taken ∉ taken_keys taken /\ plain_segment (chars (uniqueKey "wrapped_root" taken)).
Proof.
  intros Hlen. unfold uniqueKey. pose proof (unique_key_found "wrapped_root" _ Hlen) as Hf.
  destruct (try_keys _ _ _ _ _) as [k|] eqn:Hk; [|done]. simpl.
  apply (try_keys_shape (fun s => plain_segment (chars s))) in Hk as [Hp Hn]; [done| |].
  - repeat (constructor; [by split_and!|]). constructor.
  - intros n. rewrite !chars_app. apply Forall_app. split; [repeat (constructor; [by split_and!|]); constructor|].
    apply Forall_app. split; [repeat (constructor; [by split_and!|]); constructor|]. apply numeric_plain, JsonText.numeral_numeric.
Qed.

(** *** Where references point after the wrapping *)

Definition all_refs (schema : obj) : list string :=
  passed_refs (VObj (inner_of schema)) ++ refs_of (field schema "$defs") ++ refs_of (field schema "definitions").

Definition moved (schema : obj) : bool := existsb moves (all_refs schema).

Definition root_key (schema : obj) : string := uniqueKey "wrapped_root" (field schema "$defs").

(** The text a reference of the schema has in the wrapped schema. *)
Definition sent_ref (schema : obj) (ref : string) : string :=
  if moved schema then moveRef (root_key schema) ref else ref.

(** What a reference stands for inside the wrapped value: [#] is the schema without
    the definitions, which move up. *)
Definition meant (schema : obj) (ref : string) (n : value) : value :=
  if bool_decide (ref = "#") then VObj (inner_of schema) else n.

(** A reference to the definitions as a whole, or one that spells their name with
    escapes; these are not recognized as references to the definitions. *)
Definition hides_definitions (ref : string) : bool :=
  moves ref &&
  match split_on "/" (drop 2 (chars ref)) [] with
  | raw :: _ => bool_decide (pointer_segment raw ∈ ["$defs"; "definitions"])
  | [] => false
  end.

(** The schemas the theorem is about: a JSON tree whose [$defs], if any, is an object
    (with fewer keys than distinct integers can be told apart by their text). *)
Record wrappable (schema : obj) : Prop := {
  schema_plain : plain (VObj schema);
  defs_object : forall d, field schema "$defs" = Some d -> exists ds, d = VObj ds;
  defs_size : Z.of_nat (length (taken_keys (field schema "$defs"))) < 10 ^ 20;
}.

Definition node_at (root : value) (segs : list (list ascii)) : option value :=
  match follow root segs with Some n => if is_node n then Some n else None | None => None end.

(** The segments of a pointer's text after [#]. *)
Definition tail_segments (t : string) : list (list ascii) :=
  match chars t with [] => [] | _ :: p => split_on "/" p [] end.

Lemma wrapper_defs v d l : obj_get (wrapper v (Some d) l) "$defs" = Some d.
Proof. done. Qed.

Lemma wrapper_definitions v d l : obj_get (wrapper v d l) "definitions" = l.
Proof. by destruct d, l. Qed.

Lemma plain_defs : plain_segment (chars "$defs").
Proof. repeat (constructor; [by split_and!|]). constructor. Qed.

Lemma resolve_below root K t : plain_segment (chars K) -> (t = EmptyString \/ exists p, t = String "/" p) ->
  resolveRef root ("#/$defs/" +:+ K +:+ t) =
  match child_of root "$defs" ≫= fun d => child_of d K with Some r => node_at r (tail_segments t) | None => None end.
Proof.
  intros HK Ht. unfold resolveRef. rewrite bool_decide_false by done.
  change (starts_with "#/" ("#/$defs/" +:+ K +:+ t)) with true. cbv iota.
  assert (drop 2 (chars ("#/$defs/" +:+ K +:+ t)) = chars "$defs" ++ "/"%char :: chars (K +:+ t)) as -> by done.
  rewrite split_segment by apply plain_defs. rewrite chars_app.
  assert (split_on "/" (chars K ++ chars t) [] = chars K :: tail_segments t) as ->.
  { destruct Ht as [->|[p ->]]; [rewrite app_nil_r; by rewrite split_last|]. simpl. by rewrite split_segment. }
  cbn [follow rev app]. rewrite plain_pointer by apply plain_defs. destruct (child_of root "$defs") as [d|]; [|done]. simpl.
  rewrite plain_pointer by done. by destruct (child_of d K).
Qed.

Lemma node_erased a b segs n : erase a = erase b -> node_at a segs = Some n -> exists n', node_at b segs = Some n' /\ erase n = erase n'.
Proof.
  intros He. unfold node_at. destruct (follow a segs) as [x|] eqn:Hf; [|done]. destruct (is_node x) eqn:Hx; [|done]. intros [= <-].
  destruct (follow_erased segs a b x He Hf ltac:(by rewrite Hx)) as (y & -> & Hxy). exists y. split; [|done].
  pose proof (erased_node x y Hxy ltac:(by rewrite Hx)) as Hy. by apply Is_true_true in Hy as ->.
Qed.

Lemma get_other (fs : obj) p k : (forall v, p (k, v) = true) -> obj_get (List.filter p fs) k = obj_get fs k.
Proof.
  intros Hk. induction fs as [|[k' v] fs IH]; [done|]. simpl. destruct (decide (k' = k)) as [->|He].
  - rewrite Hk. simpl. by rewrite !bool_decide_true.
  - rewrite (bool_decide_false (k' = k)) by done. destruct (p (k', v)); simpl; [by rewrite bool_decide_false|done].
Qed.

Lemma get_inner schema k : k <> "$defs" -> k <> "definitions" -> obj_get (inner_of schema) k = obj_get schema k.
Proof. intros H1 H2. apply get_other. intros v. simpl. by rewrite !bool_decide_false. Qed.

Lemma moved_text ref : moves ref -> ref = "#" \/ exists p, ref = String "#" (String "/" p).
Proof.
  unfold moves. intros [H _]%andb_True. apply orb_True in H as [H%bool_decide_unpack|H]; [by left|right].
  apply Is_true_eq_true, String.prefix_correct in H. destruct ref as [|c [|c' ref]]; [done|done|]. simpl in H.
  injection H as -> -> _. by exists ref.
Qed.

Lemma slice1_hash p : slice1 (String "#" p) = p.
Proof. unfold slice1. simpl. rewrite drop_0. apply String.string_of_list_ascii_of_string. Qed.

Lemma plain_filter p fs : plain (VObj fs) -> plain (VObj (List.filter p fs)).
Proof.
  intros (Hd & Hp & Hf)%plain_object. simpl. assert (List.filter p fs `sublist_of` fs) as Hs.
  { clear. induction fs as [|f fs IH]; simpl; [constructor|]. destruct (p f); by constructor. }
  apply andb_True; split; [apply andb_True; split; apply bool_decide_pack|].
  - eapply sublist_NoDup; [exact Hd|]. by apply fmap_sublist.
  - intros Hin. apply Hp. eapply elem_of_sublist; [exact Hin|]. by apply fmap_sublist.
  - apply forallb_True. by eapply Forall_sublist_of.
Qed.

Lemma rewrite_entries map_ref ds : plain (VObj ds) ->
  exists ds', rewriteRefs map_ref (VObj ds) = VObj ds' /\ ds'.*1 = ds.*1 /\ erase (VObj ds') = erase (VObj ds).
Proof.
  intros Hp. pose proof (plain_object ds Hp) as (Hd & Hn & _). pose proof (erase_rewrite map_ref (VObj ds) Hp) as He.
  rewrite rewrite_object in * by done. eexists. split; [reflexivity|]. split; [|done].
  clear. induction ds as [|f ds IH]; [done|]. simpl. by f_equal.
Qed.

Lemma field_get schema k d : field schema k = Some d -> obj_get schema k = Some d.
Proof. unfold field. destruct (obj_get schema k) as [[]|]; naive_solver. Qed.

Lemma plain_get schema k d : plain (VObj schema) -> obj_get schema k = Some d -> plain d.
Proof. intros (_ & _ & Hf)%plain_object Hg. rewrite Forall_forall in Hf. by apply (Hf (k, d)), obj_get_elem. Qed.

Lemma resolve_pointer root p : resolveRef root (String "#" (String "/" p)) = node_at root (split_on "/" (chars p) []).
Proof.
  unfold resolveRef. rewrite bool_decide_false by done. assert (starts_with "#/" (String "#" (String "/" p)) = true) as -> by (by destruct p).
  simpl drop. by rewrite drop_0.
Qed.

(** A reference that moves is found below the key the root moved to. *)
Lemma moved_resolves schema ref n : wrappable schema -> moved schema -> moves ref -> hides_definitions ref = false ->
  resolveRef (VObj schema) ref = Some n ->
  exists n', resolveRef (VObj (wrapSchema schema)) (moveRef (root_key schema) ref) = Some n' /\
  erase n' = erase (meant schema ref n).
Proof.
  intros [Hp Hd Hs] Hm Hr Hh Hres. unfold moveRef. rewrite (Is_true_eq_true _ Hr).
  destruct (uniqueKey_spec _ Hs) as [Hfresh HK]. fold (root_key schema) in *.
  unfold wrapSchema. fold (all_refs schema) (moved schema) (root_key schema). rewrite (Is_true_eq_true _ Hm).
  set (R := rewriteRefs (moveRef (root_key schema)) (VObj (inner_of schema))).
  assert (erase R = erase (VObj (inner_of schema))) as HR by (apply erase_rewrite; by apply plain_filter).
  pose proof (moved_text ref Hr) as Ht.
  rewrite resolve_below; [|done|destruct Ht as [->|[p ->]]; [by left|right; rewrite slice1_hash; by exists p]].
  cbn [child_of]. rewrite wrapper_defs. cbn [mbind option_bind child_of]. rewrite obj_get_set, bool_decide_true by done.
  destruct Ht as [->|[p ->]].
  - exists R. split; [|done]. unfold R. by rewrite rewrite_object_fold.
  - rewrite slice1_hash. unfold meant. rewrite bool_decide_false by done. rewrite resolve_pointer in Hres.
    unfold hides_definitions in Hh. rewrite (Is_true_eq_true _ Hr) in Hh. simpl in Hh. rewrite drop_0 in Hh.
    unfold tail_segments. simpl. destruct (split_on "/" (chars p) []) as [|raw segs] eqn:Hsplit; [by apply split_on_nonempty in Hsplit|].
    apply bool_decide_eq_false in Hh.
    assert (node_at (VObj (inner_of schema)) (raw :: segs) = Some n) as Hn.
    { rewrite <- Hres. unfold node_at. cbn [follow child_of]. by rewrite get_inner by set_solver. }
    destruct (node_erased _ R _ _ (eq_sym HR) Hn) as (n' & Hn' & He). by exists n'.
Qed.

Lemma starts_split p s : starts_with p s -> exists t, s = p +:+ t.
Proof.
  revert s. induction p as [|c p IH]; intros s H; [by exists s|]. destruct s as [|c' s]; [done|].
  unfold starts_with in H. simpl in H. destruct (ascii_dec c c') as [<-|]; [|done]. destruct (IH s H) as [t ->]. by exists t.
Qed.

(** A resolved reference that does not move goes through the definitions. *)
Lemma unmoved_text root ref n : resolveRef root ref = Some n -> ~ moves ref ->
  exists k p, (k = "$defs" \/ k = "definitions") /\ ref = "#/" +:+ k +:+ "/" +:+ p.
Proof.
  unfold resolveRef, moves. intros Hr Hm. case_bool_decide; [subst; by destruct Hm|]. simpl in Hm.
  destruct (starts_with "#/" ref); [|done]. destruct (starts_with "#/$defs/" ref) eqn:H1; simpl in Hm.
  - destruct (starts_split "#/$defs/" ref) as [t ->]; [by rewrite H1|]. exists "$defs", t. split; [by left|done].
  - destruct (starts_with "#/definitions/" ref) eqn:H2; [|by destruct Hm].
    destruct (starts_split "#/definitions/" ref) as [t ->]; [by rewrite H2|]. exists "definitions", t. split; [by right|done].
Qed.

Lemma definitions_segment k : k = "$defs" \/ k = "definitions" -> plain_segment (chars k).
Proof. intros [-> | ->]; repeat (constructor; [by split_and!|]); constructor. Qed.

(** A pointer into a property of an object, below that property. *)
Lemma resolve_in fs k p : k = "$defs" \/ k = "definitions" ->
  resolveRef (VObj fs) ("#/" +:+ k +:+ "/" +:+ p) =
  obj_get fs k ≫= fun d => node_at d (split_on "/" (chars p) []).
Proof.
  intros Hk. pose proof (definitions_segment k Hk) as Hp.
  change ("#/" +:+ k +:+ "/" +:+ p) with (String "#" (String "/" (k +:+ "/" +:+ p))). rewrite resolve_pointer.
  rewrite chars_app. change (chars ("/" +:+ p)) with ("/"%char :: chars p). rewrite split_segment by done.
  unfold node_at. cbn [rev app follow child_of]. rewrite plain_pointer by done. by destruct (obj_get fs k).
Qed.

(** Adding a key leaves the pointers that do not start with it. *)
Lemma node_set o k v raw segs : pointer_segment raw <> k -> node_at (VObj (obj_set o k v)) (raw :: segs) = node_at (VObj o) (raw :: segs).
Proof. intros H. unfold node_at. cbn [follow child_of]. by rewrite obj_get_set, bool_decide_false by congruence. Qed.

Lemma node_key fs raw segs n : node_at (VObj fs) (raw :: segs) = Some n -> pointer_segment raw ∈ fs.*1.
Proof.
  unfold node_at. cbn [follow child_of]. destruct (obj_get fs _) as [v|] eqn:Hg; [|done]. intros _.
  apply obj_get_elem in Hg. by apply (list_elem_of_fmap_2 fst _ _ Hg).
Qed.

(** A reference through the definitions is found where they moved. *)
Lemma unmoved_resolves schema ref n : wrappable schema -> resolveRef (VObj schema) ref = Some n -> ~ moves ref ->
  exists n', resolveRef (VObj (wrapSchema schema)) ref = Some n' /\ erase n' = erase n.
Proof.
  intros [Hp Hd Hs] Hr Hm. destruct (unmoved_text _ _ _ Hr Hm) as (k & p & Hk & ->). rewrite resolve_in in Hr |- * by done.
  destruct (obj_get schema k) as [d|] eqn:Hg; [|done]. simpl in Hr.
  destruct (split_on "/" (chars p) []) as [|raw segs] eqn:Hsplit; [by apply split_on_nonempty in Hsplit|].
  assert (field schema k = Some d) as Hf by (unfold field; rewrite Hg; by destruct d).
  pose proof (plain_get schema k d Hp Hg) as Hpd. unfold wrapSchema. fold (all_refs schema) (moved schema) (root_key schema).
  destruct (moved schema).
  - destruct Hk as [-> | ->].
    + destruct (Hd d Hf) as [ds ->]. rewrite wrapper_defs, Hf. cbn [fmap option_fmap option_map].
      destruct (rewrite_entries (moveRef (root_key schema)) ds Hpd) as (ds' & -> & Hkeys & He). cbn [mbind option_bind record_entries default].
      destruct (node_erased (VObj ds) (VObj ds') _ _ (eq_sym He) Hr) as (n' & Hn' & Hen). exists n'. split; [|done].
      simpl. rewrite node_set; [done|]. intros Heq. pose proof (node_key _ _ _ _ Hr) as Hin.
      destruct (uniqueKey_spec _ Hs) as [Hfresh _]. fold (root_key schema) in Hfresh. apply Hfresh. unfold taken_keys.
      rewrite <- Heq, Hf. exact Hin.
    + rewrite wrapper_definitions, Hf. simpl. pose proof (erase_rewrite (moveRef (root_key schema)) d Hpd) as He.
      destruct (node_erased d _ _ _ (eq_sym He) Hr) as (n' & Hn' & Hen). by exists n'.
  - exists n. split; [|done]. destruct Hk as [-> | ->]; rewrite ?Hf, ?wrapper_defs, ?wrapper_definitions; done.
Qed.


(** ** Wrapping does not change whether strict mode takes the schema *)

Definition entry_strict (key : string) (x : value) : bool :=
  (if bool_decide (key ∈ SCHEMA_MAPS) then
     match x with VObj subs => forallb (fun s => isStrictCompatible s.2) subs | _ => true end
   else true) &&
  (if bool_decide (key ∈ SUBSCHEMA_KEYWORDS) then isStrictCompatible x else true).

Lemma strict_object fs : isStrictCompatible (VObj fs) = closed_object fs && forallb (fun f => entry_strict f.1 f.2) fs.
Proof. simpl. f_equal. induction fs as [|[k v] fs IH]; [done|]. simpl. by rewrite IH. Qed.

Lemma get_erase fs k : obj_get (map (fun f => (f.1, erase_entry f.1 f.2)) fs) k = erase_entry k <$> obj_get fs k.
Proof. induction fs as [|[k' v] fs IH]; [done|]. simpl. case_bool_decide as Hk; [by subst|done]. Qed.

Lemma strings_erased l : map erase (List.filter (fun v => match v with VStr _ => true | _ => false end) l) =
  List.filter (fun v => match v with VStr _ => true | _ => false end) (map erase l).
Proof. induction l as [|v l IH]; [done|]. simpl. destruct v; simpl; by rewrite ?IH. Qed.

Lemma types_erased fs : types_include_object (map (fun f => (f.1, erase_entry f.1 f.2)) fs) = types_include_object fs.
Proof.
  unfold types_include_object. rewrite get_erase. destruct (obj_get fs "type") as [[]|]; try done. simpl.
  induction items as [|v l IH]; [done|]. simpl. rewrite IH. by destruct v.
Qed.

Lemma required_erased fs : required_names (map (fun f => (f.1, erase_entry f.1 f.2)) fs) = required_names fs.
Proof.
  unfold required_names. rewrite get_erase. destruct (obj_get fs "required") as [[]|]; try done. simpl.
  induction items as [|v l IH]; [done|]. simpl. destruct v; simpl; by rewrite ?IH.
Qed.

Lemma closed_erased fs : closed_object (map (fun f => (f.1, erase_entry f.1 f.2)) fs) = closed_object fs.
Proof.
  unfold closed_object, record_field. rewrite types_erased, required_erased, !get_erase.
  assert ((erase_entry "additionalProperties" <$> obj_get fs "additionalProperties") = Some (VBool false) <->
    obj_get fs "additionalProperties" = Some (VBool false)) as Ha.
  { destruct (obj_get fs "additionalProperties") as [[]|]; naive_solver. }
  assert (obj_keys (default [] ((erase_entry "properties" <$> obj_get fs "properties") ≫= record_entries)) =
    obj_keys (default [] (obj_get fs "properties" ≫= record_entries))) as ->.
  { destruct (obj_get fs "properties") as [[]|]; try done. simpl. unfold obj_keys. by rewrite map_map. }
  assert (is_some ((erase_entry "properties" <$> obj_get fs "properties") ≫= record_entries) =
    is_some (obj_get fs "properties" ≫= record_entries)) as ->.
  { by destruct (obj_get fs "properties") as [[]|]. }
  assert (match erase_entry "additionalProperties" <$> obj_get fs "additionalProperties" with Some (VBool false) => true | _ => false end =
    match obj_get fs "additionalProperties" with Some (VBool false) => true | _ => false end) as ->; [|done].
  by destruct (obj_get fs "additionalProperties") as [[]|].
Qed.

Lemma forallb_ext_elem {A} (f g : A -> bool) l : Forall (fun x => f x = g x) l -> forallb f l = forallb g l.
Proof. induction 1; simpl; congruence. Qed.

Lemma forallb_of_map {A B} (f : A -> B) (p : B -> bool) l : forallb p (map f l) = forallb (fun x => p (f x)) l.
Proof. induction l as [|x l IH]; [done|]. simpl. by rewrite IH. Qed.

Lemma strict_entry_erased k x : isStrictCompatible (erase x) = isStrictCompatible x ->
  isStrictCompatible (erase_entry k x) = isStrictCompatible x.
Proof. intros H. destruct x; try done. simpl. by case_bool_decide. Qed.

Lemma strict_erased v : isStrictCompatible (erase v) = isStrictCompatible v.
Proof.
  induction v as [v IH] using value_size_ind. destruct v as [| | | | |l|fs| | | |]; try done.
  - simpl. rewrite forallb_of_map. apply forallb_ext_elem, Forall_forall. intros x Hx. by apply IH, vsize_item.
  - rewrite erase_object, !strict_object, closed_erased, forallb_of_map. f_equal. apply forallb_ext_elem, Forall_forall.
    intros [k x] Hx. pose proof (vsize_field fs k x Hx) as Hs. cbn [fst snd]. unfold entry_strict.
    rewrite strict_entry_erased by (by apply IH). f_equal. case_bool_decide; [|done].
    destruct x as [| | | |t| |subs| | | |]; try done; [simpl; by case_bool_decide|].
    unfold erase_entry. rewrite erase_object, forallb_of_map. apply forallb_ext_elem, Forall_forall. intros [k' y] Hy.
    cbn [fst snd]. apply strict_entry_erased, IH. pose proof (vsize_field subs k' y Hy). lia.
Qed.

Lemma strict_up_to_refs a b : erase a = erase b -> isStrictCompatible a = isStrictCompatible b.
Proof. intros H. by rewrite <- strict_erased, H, strict_erased. Qed.

(** The definitions of a schema, as a map of schemas. *)
Definition defs_strict (d : option value) : bool :=
  match d with Some (VObj ds) => forallb (fun s => isStrictCompatible s.2) ds | _ => true end.

Lemma strict_wrapper v d l : isStrictCompatible (VObj (wrapper v d l)) = isStrictCompatible v && defs_strict d && defs_strict l.
Proof.
  assert (forall o k, k ∈ ["$defs"; "definitions"] -> forallb (fun f => entry_strict f.1 f.2) (optional k o) = defs_strict o) as Ho.
  { intros o k Hk. destruct o as [x|]; [|done]. simpl. unfold entry_strict.
    rewrite bool_decide_true by (unfold SCHEMA_MAPS; set_solver).
    rewrite bool_decide_false by (unfold SUBSCHEMA_KEYWORDS; set_solver). by rewrite !andb_true_r. }
  rewrite strict_object. unfold wrapper at 2. rewrite !forallb_app, !Ho by set_solver.
  assert (closed_object (wrapper v d l) = true) as -> by done.
  cbn [forallb fst snd]. unfold entry_strict. simpl. by rewrite !andb_true_r, andb_assoc.
Qed.

Definition without (k : string) (fs : obj) : obj := List.filter (fun f => negb (bool_decide (f.1 = k))) fs.

Lemma inner_without schema : inner_of schema = without "definitions" (without "$defs" schema).
Proof.
  unfold inner_of, without. induction schema as [|[k v] fs IH]; [done|]. simpl.
  destruct (bool_decide (k = "$defs")); simpl; [done|]. by destruct (bool_decide (k = "definitions")); simpl; rewrite IH.
Qed.

Lemma without_absent k fs : k ∉ fs.*1 -> without k fs = fs.
Proof.
  unfold without. induction fs as [|[k' v] fs IH]; [done|]. simpl. intros [Hk Hf]%not_elem_of_cons.
  rewrite bool_decide_false by congruence. simpl. by rewrite IH.
Qed.

Lemma forallb_without (p : string * value -> bool) k fs : NoDup fs.*1 ->
  forallb p fs = forallb p (without k fs) && (match obj_get fs k with Some v => p (k, v) | None => true end).
Proof.
  induction fs as [|[k' v] fs IH]; [done|]. simpl. intros [Hk Hd]%NoDup_cons. destruct (decide (k' = k)) as [->|Hne].
  - rewrite !bool_decide_true by done. simpl. fold (without k fs). rewrite without_absent by done. apply andb_comm.
  - rewrite !bool_decide_false by done. simpl. fold (without k fs). by rewrite IH, andb_assoc.
Qed.

Lemma plain_without k fs : plain (VObj fs) -> plain (VObj (without k fs)).
Proof. apply plain_filter. Qed.

Lemma closed_inner schema : closed_object (inner_of schema) = closed_object schema.
Proof. unfold closed_object, types_include_object, required_names, record_field. by rewrite !get_inner. Qed.

Lemma defs_entry schema k : k ∈ ["$defs"; "definitions"] ->
  (match obj_get schema k with Some v => entry_strict k v | None => true end) = defs_strict (field schema k).
Proof.
  intros Hk. assert (forall v, entry_strict k v = match v with VObj subs => forallb (fun s => isStrictCompatible s.2) subs | _ => true end) as He.
  { intros v. unfold entry_strict. rewrite bool_decide_true by (unfold SCHEMA_MAPS; set_solver).
    rewrite bool_decide_false by (unfold SUBSCHEMA_KEYWORDS; set_solver). apply andb_true_r. }
  unfold field. destruct (obj_get schema k) as [v|]; [|done]. rewrite He. by destruct v.
Qed.

Lemma strict_split schema : plain (VObj schema) ->
  isStrictCompatible (VObj schema) =
  isStrictCompatible (VObj (inner_of schema)) && defs_strict (field schema "$defs") && defs_strict (field schema "definitions").
Proof.
  intros Hp. pose proof (plain_object _ Hp) as (Hd & _). pose proof (plain_object _ (plain_without "$defs" _ Hp)) as (Hd' & _).
  rewrite !strict_object, closed_inner, inner_without.
  rewrite (forallb_without _ "$defs" schema), (forallb_without _ "definitions" (without "$defs" schema)) by done.
  assert (obj_get (without "$defs" schema) "definitions" = obj_get schema "definitions") as -> by (by apply get_other).
  cbn [fst snd]. rewrite !defs_entry by set_solver. destruct (closed_object schema); simpl; [|done].
  rewrite <- !andb_assoc. f_equal. apply andb_comm.
Qed.

Lemma defs_rewritten map_ref d : (forall x, d = Some x -> plain x) -> defs_strict (rewriteRefs map_ref <$> d) = defs_strict d.
Proof.
  intros Hp. destruct d as [x|]; [|done]. specialize (Hp x eq_refl). simpl. destruct x as [| | | | |l|ds| | | |]; try done.
  destruct (rewrite_entries map_ref ds Hp) as (ds' & -> & _ & He). simpl. rewrite !erase_object in He. injection He as He.
  clear Hp. revert ds He. induction ds' as [|[k v] ds' IH]; intros [|[k2 v2] ds] He; try done. simpl in *.
  injection He as <- Hv He. rewrite (IH ds He). f_equal.
  by rewrite <- (strict_entry_erased k v), Hv, strict_entry_erased by apply strict_erased.
Qed.

(** A schema is sent in strict mode, wrapped or not, exactly when its own objects all
    are closed and require every property. *)
Theorem wrapping_keeps_strictness schema : wrappable schema ->
  isStrictCompatible (VObj (wrapSchema schema)) = isStrictCompatible (VObj schema).
Proof.
  intros [Hp Hd Hs]. rewrite (strict_split _ Hp). unfold wrapSchema. fold (all_refs schema) (moved schema) (root_key schema).
  destruct (moved schema); [|apply strict_wrapper]. rewrite strict_wrapper.
  assert (forall k x, field schema k = Some x -> plain x) as Hf by (intros k x Hx; by apply (plain_get schema k), field_get).
  rewrite (defs_rewritten _ (field schema "definitions")) by (intros x Hx; by apply (Hf "definitions")). f_equal.
  assert (isStrictCompatible (rewriteRefs (moveRef (root_key schema)) (VObj (inner_of schema))) = isStrictCompatible (VObj (inner_of schema))) as HR.
  { apply strict_up_to_refs, erase_rewrite. by apply plain_filter. }
  assert (isStrictCompatible (VObj [("$ref", VStr ("#/$defs/" +:+ root_key schema))]) = true) as -> by done. rewrite andb_true_l.
  pose proof (defs_rewritten (moveRef (root_key schema)) (field schema "$defs") ltac:(intros x Hx; by apply (Hf "$defs"))) as Hdr.
  destruct (uniqueKey_spec _ Hs) as [Hfresh _]. fold (root_key schema) in Hfresh.
  rewrite <- HR, <- Hdr. destruct (field schema "$defs") as [d|] eqn:Hdf; [|cbn; by rewrite !andb_true_r].
  destruct (Hd d eq_refl) as [ds ->]. destruct (rewrite_entries (moveRef (root_key schema)) ds (Hf _ _ Hdf)) as (ds' & Hds & Hkeys & _).
  cbn [fmap option_fmap option_map]. rewrite Hds. cbn [mbind option_bind record_entries default].
  rewrite JsonText.obj_set_new; [|intros Hin; apply Hfresh; change (root_key schema ∈ ds.*1); by rewrite <- Hkeys].
  unfold defs_strict. rewrite forallb_app. cbn [forallb snd]. rewrite andb_true_r. apply andb_comm.
Qed.

(** ** Witnesses and boundary cases *)

(** A list of trees, whose items are trees again. *)
Definition tree_schema : obj :=
  [("type", VStr "array"); ("items", VObj [("$ref", VStr "#")]);
   ("contains", VObj [("$ref", VStr "#/$defs/wrapped_root")]);
   ("$defs", VObj [("wrapped_root", VObj [("type", VStr "string")])])].

Definition tree_format : ModelOutputFormat :=
  {| format_name := "tree"; format_schema := tree_schema; format_description := None; format_strict := true |}.

Lemma tree_wrappable : wrappable tree_schema.
Proof. split; [done| |done]. intros d [= <-]. by eexists. Qed.

Example tree_wrapped : wrapSchema tree_schema =
  [("type", VStr "object"); ("properties", VObj [("value", VObj [("$ref", VStr "#/$defs/wrapped_root_2")])]);
   ("required", VArr [VStr "value"]); ("additionalProperties", VBool false);
   ("$defs", VObj [("wrapped_root", VObj [("type", VStr "string")]);
                   ("wrapped_root_2", VObj [("type", VStr "array"); ("items", VObj [("$ref", VStr "#/$defs/wrapped_root_2")]);
                                            ("contains", VObj [("$ref", VStr "#/$defs/wrapped_root")])])])].
Proof. by vm_compute. Qed.

Lemma answer_is_unwrapped_witness :
  unwrapStructuredContent (Some tree_format) (json (VObj [("value", VArr [VArr []; VStr "leaf"])])) true = json (VArr [VArr []; VStr "leaf"]).
Proof. apply answer_is_unwrapped; by vm_compute. Defined.


Lemma wrapping_keeps_strictness_witness :
  isStrictCompatible (VObj (wrapSchema tree_schema)) = isStrictCompatible (VObj tree_schema).
Proof. apply wrapping_keeps_strictness. apply tree_wrappable. Defined.

(** A definition that is named like a keyword of data is not rewritten: its reference
    to the root then means the wrapper. *)
Definition keyword_named : obj :=
  [("type", VStr "array"); ("items", VObj [("$ref", VStr "#")]);
   ("$defs", VObj [("default", VObj [("type", VStr "array"); ("items", VObj [("$ref", VStr "#")])])])].

Example definition_named_default_keeps_its_reference :
  resolveRef (VObj (wrapSchema keyword_named)) "#/$defs/default" =
  Some (VObj [("type", VStr "array"); ("items", VObj [("$ref", VStr "#")])]).
Proof. by vm_compute. Qed.

(** A pointer to a definition that is written with escapes no longer resolves. *)
Definition escaped_pointer : obj :=
  [("type", VStr "array"); ("items", VObj [("$ref", VStr "#/%24defs/leaf")]); ("$defs", VObj [("leaf", VObj [("type", VStr "string")])])].

Example escaped_definition_is_lost :
  resolveRef (VObj escaped_pointer) "#/%24defs/leaf" = Some (VObj [("type", VStr "string")]) /\
  resolveRef (VObj (wrapSchema escaped_pointer)) (sent_ref escaped_pointer "#/%24defs/leaf") = None.
Proof. by vm_compute. Qed.

End OpenAiSchema.
