(* ===== verification/OpenAiAdapter.v ===== *)
(** * The OpenAI adapter (packages/model-openai/src/openai-model.adapter.ts, errors.ts)

    The parameters of a request, a complete answer and a streamed one, and the one
    error type failures become.  The client of the SDK is an arbitrary function of a
    world: it answers a request with a completion, with a sequence of chunks that may
    break off, or with a failure. *)

From Stdlib Require Import Ascii.
From S2P Require Export OpenAiSchema Structured.

#[local] Open Scope string_scope.
#[local] Open Scope list_scope.
#[local] Open Scope Z_scope.

Module OpenAiAdapter.

Import Numerals OpenAiMappers OpenAiSchema.

(** ** Errors (errors.ts) *)

(** What the classification reads of a thrown value that is not an [OpenAiModelError]:
    the classes of the SDK it is an instance of, its [name], the fields of an API
    error, and its message (or its text, when it is no [Error]). *)
Record ApiFailure : Type := { api_status : option Z; api_code : option string }.

Record Foreign : Type := {
  is_user_abort : bool;
  foreign_name : option string;
  is_connection_timeout : bool;
  api_error : option ApiFailure;
  foreign_text : string;
}.

Record OpenAiModelError : Type := {
  oe_message : string;
  oe_status : option Z;
  oe_code : option string;
  oe_cause : option Foreign;
}.

Inductive Thrown : Type := OwnError (e : OpenAiModelError) | ForeignError (f : Foreign).

Definition isAbortError (f : Foreign) : bool := bool_decide (foreign_name f = Some "AbortError").

Definition request_for (model : string) : string := "OpenAI request for model " +:+ in_quotes model.

Definition error_from (error : Thrown) (model : string) : OpenAiModelError :=
  match error with
  | OwnError e => e
  | ForeignError f =>
      if is_user_abort f || isAbortError f then
        {| oe_message := request_for model +:+ " was aborted."; oe_status := None; oe_code := Some "aborted"; oe_cause := Some f |}
      else if is_connection_timeout f then
        {| oe_message := request_for model +:+ " timed out."; oe_status := None; oe_code := Some "timeout"; oe_cause := Some f |}
      else match api_error f with
      | Some a =>
          {| oe_message := request_for model +:+ " failed" +:+
               match api_status a with
               | Some s => if s =? 0 then EmptyString else " with status " +:+ Z_to_string s
               | None => EmptyString
               end +:+ ": " +:+ foreign_text f;
             oe_status := api_status a; oe_code := api_code a; oe_cause := Some f |}
      | None =>
          {| oe_message := request_for model +:+ " failed: " +:+ foreign_text f;
             oe_status := None; oe_code := None; oe_cause := Some f |}
      end
  end.

(** ** Options *)

Inductive StructuredMode : Type := Native | Prompt.

Record OpenAiModelAdapterOptions : Type := {
  apiKey : option string;
  baseUrl : option string;
  headers : option obj;
  timeoutMs : option num;
  maxRetries : option num;
  temperature : option num;
  topP : option num;
  maxTokens : option num;
  maxCompletionTokens : option num;
  includeStreamUsage : option bool;
  extraBody : option obj;
  structuredOutput : option StructuredMode;
  clientOptions : option obj;
}.

Definition supportsStructuredOutput (o : OpenAiModelAdapterOptions) : bool :=
  match default Native (structuredOutput o) with Native => true | Prompt => false end.

(** [{ ...a, ...b }] *)
Definition spread (a b : obj) : obj := fold_left (fun o f => obj_set o f.1 f.2) b a.

Definition createClient (o : OpenAiModelAdapterOptions) : obj :=
  spread (optional "apiKey" (VStr <$> apiKey o) ++ optional "baseURL" (VStr <$> baseUrl o) ++
          optional "defaultHeaders" (VObj <$> headers o) ++ optional "timeout" (VNum <$> timeoutMs o) ++
          [("maxRetries", VNum (default (num_of_Z 2) (maxRetries o)))])
         (default [] (clientOptions o)).

(** ** Requests *)

Definition call_value (c : FunctionCallParam) : value :=
  VObj [("id", VStr (fc_id c)); ("type", VStr "function");
        ("function", VObj [("name", VStr (fc_name c)); ("arguments", VStr (fc_arguments c))])].

Definition message_value (m : MessageParam) : value :=
  VObj match m with
  | SystemParam c => [("role", VStr "system"); ("content", VStr c)]
  | UserParam c => [("role", VStr "user"); ("content", VStr c)]
  | AssistantParam c calls =>
      [("role", VStr "assistant"); ("content", match c with Some t => VStr t | None => VNull end)] ++
      optional "tool_calls" ((fun cs => VArr (map call_value cs)) <$> calls)
  | ToolParam id c => [("role", VStr "tool"); ("tool_call_id", VStr id); ("content", VStr c)]
  end.

Definition response_format (f : ModelOutputFormat) : value :=
  let schema := if needsWrapping (format_schema f) then wrapSchema (format_schema f) else format_schema f in
  VObj [("type", VStr "json_schema");
        ("json_schema", VObj ([("name", VStr (format_name f)); ("schema", VObj schema);
           ("strict", VBool (format_strict f && isStrictCompatible (VObj schema)))] ++
           optional "description" (VStr <$> format_description f)))].

Definition token_cap (o : OpenAiModelAdapterOptions) : obj :=
  match maxCompletionTokens o with
  | Some n => [("max_completion_tokens", VNum n)]
  | None => optional "max_tokens" (VNum <$> maxTokens o)
  end.

Definition body_fields (o : OpenAiModelAdapterOptions) (request : ModelRequest) : obj :=
  let tools := toOpenAiTools (req_tools request) in
  let format := if supportsStructuredOutput o then req_outputFormat request else None in
  [("model", VStr (model_name (req_model request)));
   ("messages", VArr (map message_value (toOpenAiMessages (req_messages request))))] ++
  match tools with [] => [] | _ => [("tools", VArr tools)] end ++
  optional "response_format" (response_format <$> format) ++
  optional "temperature" (VNum <$> temperature o) ++
  optional "top_p" (VNum <$> topP o) ++
  token_cap o.

Definition buildBaseParams (o : OpenAiModelAdapterOptions) (request : ModelRequest) : obj :=
  spread (default [] (extraBody o)) (body_fields o request).

Definition generate_params (o : OpenAiModelAdapterOptions) (request : ModelRequest) : obj :=
  spread (buildBaseParams o request) [("stream", VBool false)].

Definition stream_params (o : OpenAiModelAdapterOptions) (request : ModelRequest) : obj :=
  spread (buildBaseParams o request)
    (("stream", VBool true) ::
     (if default true (includeStreamUsage o) then [("stream_options", VObj [("include_usage", VBool true)])] else [])).

(** ** Answers *)

Record CompletionMessage : Type := {
  cm_content : option string;
  cm_refusal : option string;
  cm_tool_calls : option (list MessageToolCall);
}.
Record CompletionChoice : Type := { cc_message : option CompletionMessage; cc_finish_reason : option string }.
Record Completion : Type := { choices : list CompletionChoice; completion_usage : option CompletionUsage }.

Record ChunkDelta : Type := {
  cd_content : option string;
  cd_refusal : option string;
  cd_tool_calls : option (list ToolCallDelta);
}.
Record ChunkChoice : Type := { ck_delta : option ChunkDelta; ck_finish_reason : option string }.
Record Chunk : Type := { ck_choices : list ChunkChoice; ck_usage : option CompletionUsage }.

(** [...(refusal ? { refusal } : {})] *)
Definition said (s : option string) : option string := if truthy_opt s then s else None.

Definition to_response (o : OpenAiModelAdapterOptions) (request : ModelRequest) (completion : Completion) : ModelResponse :=
  let choice := head (choices completion) in
  let message := choice ≫= cc_message in
  {| resp_content := unwrapStructuredContent (req_outputFormat request)
       (default EmptyString (message ≫= cm_content)) (supportsStructuredOutput o);
     resp_toolCalls := Some (toModelToolCalls (message ≫= cm_tool_calls));
     resp_usage := toModelUsage (completion_usage completion);
     resp_finishReason := Some (toModelFinishReason (choice ≫= cc_finish_reason));
     resp_refusal := said (message ≫= cm_refusal);
     resp_extra := [] |}.

(** The state of a stream. *)
Record StreamState : Type := {
  st_content : string;
  st_refusal : string;
  st_finishReason : option string;
  st_usage : option ModelUsage;
  st_calls : ToolCallAccumulator;
}.

Definition stream_start : StreamState :=
  {| st_content := EmptyString; st_refusal := EmptyString; st_finishReason := None; st_usage := None; st_calls := [] |}.

(** One chunk: the next state, and the text yielded. *)
Definition on_chunk (st : StreamState) (chunk : Chunk) : StreamState * list ModelStreamChunk :=
  let usage := match ck_usage chunk with Some u => toModelUsage (Some u) | None => st_usage st end in
  match head (ck_choices chunk) with
  | None =>
      ({| st_content := st_content st; st_refusal := st_refusal st; st_finishReason := st_finishReason st;
          st_usage := usage; st_calls := st_calls st |}, [])
  | Some choice =>
      let text := default EmptyString (ck_delta choice ≫= cd_content) in
      let refused := default EmptyString (ck_delta choice ≫= cd_refusal) in
      ({| st_content := st_content st +:+ text;
          st_refusal := st_refusal st +:+ refused;
          st_finishReason := if truthy_opt (ck_finish_reason choice) then ck_finish_reason choice else st_finishReason st;
          st_usage := usage;
          st_calls := add (st_calls st) (ck_delta choice ≫= cd_tool_calls) |},
       if truthy text then [TokenChunk text] else [])
  end.

Fixpoint on_chunks (st : StreamState) (chunks : list Chunk) : StreamState * list ModelStreamChunk :=
  match chunks with
  | [] => (st, [])
  | c :: rest =>
      let '(st1, out1) := on_chunk st c in
      let '(st2, out2) := on_chunks st1 rest in
      (st2, out1 ++ out2)
  end.

Definition stream_response (o : OpenAiModelAdapterOptions) (request : ModelRequest) (st : StreamState) : ModelResponse :=
  let toolCalls := accumulatedToolCalls (st_calls st) in
  {| resp_content := unwrapStructuredContent (req_outputFormat request) (st_content st) (supportsStructuredOutput o);
     resp_toolCalls := Some toolCalls;
     resp_usage := st_usage st;
     resp_finishReason := Some (toModelFinishReason
       (match st_finishReason st with
        | Some r => Some r
        | None => Some (match toolCalls with [] => "stop" | _ => "tool_calls" end)
        end));
     resp_refusal := if truthy (st_refusal st) then Some (st_refusal st) else None;
     resp_extra := [] |}.

Section Client.
Context {W : Type}.

(** The SDK client: it creates a completion, or opens a stream of chunks that may
    break off with a failure. *)
Record Client : Type := {
  create : obj -> W -> (Completion + Thrown) * W;
  open_stream : obj -> W -> ((list Chunk * option Thrown) + Thrown) * W;
}.

Context (client : Client) (o : OpenAiModelAdapterOptions).

Definition generate (request : ModelRequest) (w : W) : (ModelResponse + OpenAiModelError) * W :=
  match create client (generate_params o request) w with
  | (inl completion, w') => (inl (to_response o request completion), w')
  | (inr err, w') => (inr (error_from err (model_name (req_model request))), w')
  end.

(** What a consumer that reads to the end is yielded, and how the stream ends. *)
Definition stream (request : ModelRequest) (w : W) : list ModelStreamChunk * option OpenAiModelError * W :=
  match open_stream client (stream_params o request) w with
  | (inr err, w') => ([], Some (error_from err (model_name (req_model request))), w')
  | (inl (chunks, failure), w') =>
      let '(st, out) := on_chunks stream_start chunks in
      match failure with
      | Some err => (out, Some (error_from err (model_name (req_model request))), w')
      | None => (out ++ [ResponseChunk (stream_response o request st)], None, w')
      end
  end.

End Client.

(** ** The request is sent *)

Lemma get_spread a b k : NoDup b.*1 -> obj_get (spread a b) k = match obj_get b k with Some v => Some v | None => obj_get a k end.
Proof.
  unfold spread. revert a. induction b as [|[k' v] b IH]; intros a Hd; [done|]. simpl in *. apply NoDup_cons in Hd as [Hn Hd].
  rewrite IH, obj_get_set by done. case_bool_decide as Hk; [subst|by destruct (obj_get b k)].
  destruct (obj_get b k) as [x|] eqn:Hg; [|done]. destruct Hn. apply SchemaTotal.obj_get_elem in Hg. by apply (list_elem_of_fmap_2 fst _ _ Hg).
Qed.

(** The keys of the fields of a request, in the order they are written. *)
Definition body_keys : list string :=
  ["model"; "messages"; "tools"; "response_format"; "temperature"; "top_p"; "max_completion_tokens"; "max_tokens"].

Lemma optional_keys k v : (optional k v).*1 `sublist_of` [k].
Proof. destruct v; simpl; repeat constructor. Qed.

Lemma cap_keys o : (token_cap o).*1 `sublist_of` ["max_completion_tokens"; "max_tokens"].
Proof. unfold token_cap. destruct (maxCompletionTokens o); [repeat constructor|]. simpl. constructor. apply optional_keys. Qed.

Lemma body_fields_keys o request : (body_fields o request).*1 `sublist_of` body_keys.
Proof.
  unfold body_fields, body_keys. rewrite !fmap_app.
  change (["model"; "messages"; "tools"; "response_format"; "temperature"; "top_p"; "max_completion_tokens"; "max_tokens"])
    with (["model"; "messages"] ++ ["tools"] ++ ["response_format"] ++ ["temperature"] ++ ["top_p"] ++ ["max_completion_tokens"; "max_tokens"]).
  repeat apply sublist_app; try apply optional_keys; [done| |apply cap_keys]. destruct (toOpenAiTools _); simpl; repeat constructor.
Qed.

Ltac distinct := refine (bool_decide_unpack _ _); by vm_compute.

Lemma body_fields_unique o request : NoDup (body_fields o request).*1.
Proof. eapply sublist_NoDup; [|apply body_fields_keys]. unfold body_keys. distinct. Qed.

Lemma not_stream o request k : k ∈ ["stream"; "stream_options"] -> obj_get (body_fields o request) k = None.
Proof.
  intros Hk. destruct (obj_get (body_fields o request) k) as [v|] eqn:Hg; [|done]. exfalso. apply SchemaTotal.obj_get_elem in Hg.
  apply (list_elem_of_fmap_2 fst) in Hg. eapply elem_of_sublist in Hg; [|apply body_fields_keys]. unfold body_keys in Hg. simpl in Hg. set_solver.
Qed.

Definition same_field (k : string) (a b : obj) : Prop := obj_get a k = obj_get b k.

(** Whatever extra fields are configured, the model, the conversation, the declared
    tools and the kind of request are those of the request; the cap for reasoning
    models replaces the classic one. *)
Theorem request_is_sent o request :
  obj_get (generate_params o request) "model" = Some (VStr (model_name (req_model request))) /\
  obj_get (generate_params o request) "messages" = Some (VArr (map message_value (toOpenAiMessages (req_messages request)))) /\
  obj_get (generate_params o request) "stream" = Some (VBool false) /\
  obj_get (stream_params o request) "stream" = Some (VBool true) /\
  (req_tools request <> [] -> obj_get (generate_params o request) "tools" = Some (VArr (toOpenAiTools (req_tools request)))) /\
  (forall n, maxCompletionTokens o = Some n ->
    obj_get (generate_params o request) "max_completion_tokens" = Some (VNum n) /\
    same_field "max_tokens" (generate_params o request) (default [] (extraBody o))) /\
  (forall k, k <> "stream" -> k <> "stream_options" -> same_field k (stream_params o request) (generate_params o request)).
Proof.
  assert (forall k, k <> "stream" -> obj_get (generate_params o request) k =
    match obj_get (body_fields o request) k with Some v => Some v | None => obj_get (default [] (extraBody o)) k end) as Hgen.
  { intros k Hk. unfold generate_params, buildBaseParams. rewrite !get_spread; [|apply body_fields_unique|by apply NoDup_singleton].
    simpl. by rewrite bool_decide_false. }
  split_and!; rewrite ?Hgen by done; try done.
  - unfold generate_params. by rewrite get_spread by apply NoDup_singleton.
  - unfold stream_params. rewrite get_spread; [done|]. destruct (default true _); distinct.
  - intros Ht. rewrite ?Hgen by done. unfold body_fields. destruct (req_tools request); [done|reflexivity].
  - intros n Hn. unfold same_field. rewrite !Hgen by done. unfold body_fields, token_cap. rewrite Hn.
    destruct (toOpenAiTools _), (response_format <$> _), (temperature o), (topP o); done.
  - intros k H1 H2. unfold same_field. rewrite Hgen by done. unfold stream_params, buildBaseParams. rewrite !get_spread;
      [|apply body_fields_unique|destruct (default true _); distinct].
    simpl. rewrite bool_decide_false by done. destruct (default true _); simpl; [by rewrite bool_decide_false|done].
Qed.

(** ** A streamed answer is the answer *)

Definition chunk_delta (c : Chunk) : option ChunkDelta := head (ck_choices c) ≫= ck_delta.

(** The pieces of a text in the chunks, joined. *)
Definition joined (f : ChunkDelta -> option string) (chunks : list Chunk) : string :=
  fold_left (fun a c => a +:+ default EmptyString (chunk_delta c ≫= f)) chunks EmptyString.

Definition last_finish (chunks : list Chunk) : option string :=
  fold_left (fun r c => let fr := head (ck_choices c) ≫= ck_finish_reason in if truthy_opt fr then fr else r) chunks None.

Definition last_usage (chunks : list Chunk) : option CompletionUsage :=
  fold_left (fun u c => match ck_usage c with Some u' => Some u' | None => u end) chunks None.

Definition call_deltas (chunks : list Chunk) : list (option (list ToolCallDelta)) := map (fun c => chunk_delta c ≫= cd_tool_calls) chunks.

Definition tokens (out : list ModelStreamChunk) : string :=
  fold_left (fun a c => match c with TokenChunk t => a +:+ t | ResponseChunk _ => a end) out EmptyString.

(** The chunks of a completion: its texts in pieces, its calls cut into fragments. *)
Record spells (chunks : list Chunk) (completion : Completion) : Prop := {
  spells_choice : exists m calls r, choices completion = [{| cc_message := Some m; cc_finish_reason := Some r |}] /\
    joined cd_content chunks = default EmptyString (cm_content m) /\
    joined cd_refusal chunks = default EmptyString (cm_refusal m) /\
    cm_tool_calls m = Some (map echoed calls) /\
    Forall (fun p => fc_name p <> EmptyString) calls /\ delivers calls (call_deltas chunks) /\
    last_finish chunks = Some r;
  spells_usage : last_usage chunks = completion_usage completion;
}.

Lemma append_nil (s : string) : s +:+ EmptyString = s.
Proof. apply append_nil_r. Qed.

Lemma fold_append {A} (g : A -> string) l a :
  fold_left (fun a c => a +:+ g c) l a = a +:+ fold_left (fun a c => a +:+ g c) l EmptyString.
Proof.
  revert a. induction l as [|c l IH]; intros a; cbn [fold_left]; [by rewrite append_nil|].
  rewrite IH, (IH (EmptyString +:+ g c)). by rewrite !append_assoc.
Qed.

Lemma joined_cons f c chunks : joined f (c :: chunks) = default EmptyString (chunk_delta c ≫= f) +:+ joined f chunks.
Proof. unfold joined. cbn [fold_left]. by rewrite fold_append. Qed.

Lemma on_chunk_state st c : (on_chunk st c).1 =
  {| st_content := st_content st +:+ default EmptyString (chunk_delta c ≫= cd_content);
     st_refusal := st_refusal st +:+ default EmptyString (chunk_delta c ≫= cd_refusal);
     st_finishReason := (let fr := head (ck_choices c) ≫= ck_finish_reason in if truthy_opt fr then fr else st_finishReason st);
     st_usage := match ck_usage c with Some u => toModelUsage (Some u) | None => st_usage st end;
     st_calls := add (st_calls st) (chunk_delta c ≫= cd_tool_calls) |}.
Proof.
  unfold on_chunk, chunk_delta. destruct (head (ck_choices c)) as [ch|]; [done|]. simpl. by rewrite !append_nil.
Qed.

Lemma on_chunks_state chunks st : (on_chunks st chunks).1 =
  {| st_content := st_content st +:+ joined cd_content chunks;
     st_refusal := st_refusal st +:+ joined cd_refusal chunks;
     st_finishReason := fold_left (fun r c => let fr := head (ck_choices c) ≫= ck_finish_reason in if truthy_opt fr then fr else r) chunks (st_finishReason st);
     st_usage := fold_left (fun u c => match ck_usage c with Some u' => toModelUsage (Some u') | None => u end) chunks (st_usage st);
     st_calls := fold_left add (call_deltas chunks) (st_calls st) |}.
Proof.
  revert st. induction chunks as [|c chunks IH]; intros st.
  - simpl. rewrite !append_nil. by destruct st.
  - cbn [on_chunks]. destruct (on_chunk st c) as [st1 out1] eqn:Hc. destruct (on_chunks st1 chunks) as [st2 out2] eqn:Hcs.
    cbn [fst]. assert (st2 = (on_chunks st1 chunks).1) as -> by (by rewrite Hcs). rewrite IH.
    assert (st1 = (on_chunk st c).1) as -> by (by rewrite Hc). rewrite on_chunk_state. cbn [st_content st_refusal st_finishReason st_usage st_calls].
    by rewrite !joined_cons, !append_assoc.
Qed.

Lemma usage_folded chunks u : fold_left (fun u c => match ck_usage c with Some u' => toModelUsage (Some u') | None => u end) chunks (toModelUsage u) =
  toModelUsage (fold_left (fun u c => match ck_usage c with Some u' => Some u' | None => u end) chunks u).
Proof. revert u. induction chunks as [|c chunks IH]; intros u; [done|]. simpl. destruct (ck_usage c); [exact (IH (Some _))|apply IH]. Qed.

Definition token_text (c : ModelStreamChunk) : string := match c with TokenChunk t => t | ResponseChunk _ => EmptyString end.

Lemma tokens_texts out : tokens out = fold_left (fun a c => a +:+ token_text c) out EmptyString.
Proof.
  unfold tokens. generalize EmptyString as a. induction out as [|c out IH]; intros a; [done|]. cbn [fold_left]. rewrite IH.
  f_equal. destruct c; simpl; [done|by rewrite append_nil].
Qed.

Lemma tokens_app a b : tokens (a ++ b) = tokens a +:+ tokens b.
Proof. by rewrite !tokens_texts, fold_left_app, fold_append. Qed.

(** What was yielded while the chunks came is the text they carried. *)
Lemma tokens_joined chunks st : tokens (on_chunks st chunks).2 = joined cd_content chunks.
Proof.
  revert st. induction chunks as [|c chunks IH]; intros st; [done|]. cbn [on_chunks].
  destruct (on_chunk st c) as [st1 out1] eqn:Hc. destruct (on_chunks st1 chunks) as [st2 out2] eqn:Hcs. cbn [snd].
  specialize (IH st1). rewrite Hcs in IH. cbn [snd] in IH. rewrite tokens_app, IH.
  rewrite joined_cons. f_equal.
  assert (out1 = (on_chunk st c).2) as -> by (by rewrite Hc). unfold on_chunk, chunk_delta.
  destruct (head (ck_choices c)) as [ch|]; [|done]. simpl. destruct (default EmptyString _); done.
Qed.

(** C16. Streamed or not, a completion gives one answer: the chunks that spell it end in
    the response the completion itself has, after tokens that join to its text. *)
Theorem openai_stream_agrees_with_generate {W} (client : Client (W := W)) o request w chunks completion w1 w2 :
  create client (generate_params o request) w = (inl completion, w1) ->
  open_stream client (stream_params o request) w = (inl (chunks, None), w2) ->
  spells chunks completion ->
  exists out response,
    stream client o request w = (out ++ [ResponseChunk response], None, w2) /\
    generate client o request w = (inl response, w1) /\
    tokens out = joined cd_content chunks.
Proof.
  intros Hc Hs [(m & calls & r & Hch & Ht & Hrf & Htc & Hn & Hd & Hf) Hu]. unfold stream, generate. rewrite Hc, Hs.
  destruct (on_chunks stream_start chunks) as [st out] eqn:Hon. exists out, (to_response o request completion).
  pose proof (on_chunks_state chunks stream_start) as Hst. pose proof (tokens_joined chunks stream_start) as Htok.
  rewrite Hon in Hst, Htok. cbn [fst snd] in Hst, Htok. split_and!; [|done|done].
  assert (stream_response o request st = to_response o request completion) as ->; [|done]. subst st.
  unfold stream_response, to_response. rewrite Hch. cbn [st_content st_refusal st_finishReason st_usage st_calls stream_start].
  simpl (head _). cbn [mbind option_bind cc_message cc_finish_reason]. rewrite Htc, <- (fragments_assemble calls (call_deltas chunks)) by done.
  pose proof (usage_folded chunks None) as Hus. change (toModelUsage None) with (@None ModelUsage) in Hus. rewrite Hus.
  unfold last_usage in Hu. unfold last_finish in Hf. rewrite Hu, Hf.
  f_equal; rewrite ?Ht, ?Hrf.
  - done.
  - unfold said. destruct (cm_refusal m) as [[]|]; done.
Qed.

(** ** From the model to the caller *)

(** A model that answers the wrapped schema it was sent with a value gets the value
    to the caller: what the adapter returns is parsed by the runtime as the value
    itself, ready for the schema of the request. *)
Theorem wrapped_answer_reaches_caller {W} (client : Client (W := W)) o request f v completion m r w w1 (parse_message : string -> string) :
  supportsStructuredOutput o -> req_outputFormat request = Some f -> needsWrapping (format_schema f) -> JsonText.serial v ->
  create client (generate_params o request) w = (inl completion, w1) ->
  choices completion = [{| cc_message := Some m; cc_finish_reason := r |}] -> cm_content m = Some (json (VObj [("value", v)])) ->
  exists response, generate client o request w = (inl response, w1) /\
  Structured.parseJsonAnswer parse_message (resp_content response) = inl v.
Proof.
  intros Ho Hf Hw Hv Hc Hch Hm. unfold generate. rewrite Hc. eexists. split; [reflexivity|].
  unfold to_response. rewrite Hch, Hf. simpl (head _). cbn [mbind option_bind cc_message resp_content]. rewrite Hm.
  cbn [default from_option id]. rewrite (Is_true_eq_true _ Ho), answer_is_unwrapped by done.
  unfold Structured.parseJsonAnswer, Structured.candidates. rewrite JsonText.text_tight by done. cbn [app Structured.first_parse].
  rewrite JsonText.parse_stringify by done.
  assert (truthy (json v) = true) as ->; [|done].
  unfold truthy. destruct (JsonText.text_head v Hv) as (c & l & Ht & _). unfold JsonText.text in Ht. by destruct (json v).
Qed.

(** ** Witnesses *)

Definition plain_options : OpenAiModelAdapterOptions := {|
  apiKey := None; baseUrl := None; headers := None; timeoutMs := None; maxRetries := None; temperature := Some (NDec 2 (-1));
  topP := None; maxTokens := Some (num_of_Z 100); maxCompletionTokens := Some (num_of_Z 200); includeStreamUsage := None;
  extraBody := Some [("model", VStr "other"); ("max_tokens", VNum (num_of_Z 7)); ("seed", VNum (num_of_Z 1))];
  structuredOutput := None; clientOptions := None |}.

Definition tree_request : ModelRequest := {|
  req_model := {| provider := Some "openai"; model_name := "gpt"; model_options := [] |};
  req_messages := a_conversation; req_tools := []; req_outputFormat := Some tree_format;
  req_metadata := {| meta_sessionId := "s"; meta_traceId := "t"; meta_executionId := "e"; meta_iteration := 1 |} |}.

Definition a_usage : CompletionUsage := {| prompt_tokens := 10; completion_tokens := 5; total_tokens := 15 |}.

Definition answered (content : string) (calls : option (list MessageToolCall)) : Completion := {|
  choices := [{| cc_message := Some {| cm_content := Some content; cm_refusal := None; cm_tool_calls := calls |};
                 cc_finish_reason := Some "tool_calls" |}];
  completion_usage := Some a_usage |}.

Definition text_chunk (t : string) (calls : option (list ToolCallDelta)) (finish : option string) : Chunk := {|
  ck_choices := [{| ck_delta := Some {| cd_content := Some t; cd_refusal := None; cd_tool_calls := calls |}; ck_finish_reason := finish |}];
  ck_usage := None |}.

(** The two calls of [mixed], with the text in two pieces and the usage at the end. *)
Definition a_stream : list Chunk :=
  [text_chunk "Look" (nth 0 mixed None) None; text_chunk "ing" None None;
   text_chunk EmptyString (nth 2 mixed None) None; text_chunk EmptyString (nth 3 mixed None) (Some "tool_calls");
   {| ck_choices := []; ck_usage := Some a_usage |}].

Definition a_client : Client (W := Z) := {|
  create := fun _ w => (inl (answered "Looking" (Some (map echoed two_calls))), w + 1);
  open_stream := fun _ w => (inl (a_stream, None), w + 1) |}.

Lemma a_stream_spells : spells a_stream (answered "Looking" (Some (map echoed two_calls))).
Proof.
  split; [|done]. eexists _, two_calls, "tool_calls". split_and!; try reflexivity; [by repeat constructor|].
  destruct mixed_delivers as [H1 H2].
  assert (fragments (call_deltas a_stream) = fragments mixed) as Hf by done. split; rewrite Hf; [exact H1|exact H2].
Qed.

Lemma openai_stream_agrees_with_generate_witness :
  exists out response,
    stream a_client plain_options tree_request 0 = (out ++ [ResponseChunk response], None, 1) /\
    generate a_client plain_options tree_request 0 = (inl response, 1) /\
    tokens out = joined cd_content a_stream.
Proof. eapply openai_stream_agrees_with_generate; [reflexivity|reflexivity|apply a_stream_spells]. Defined.

Definition tree_client : Client (W := Z) := {|
  create := fun _ w => (inl (answered (json (VObj [("value", VArr [VArr []])])) None), w);
  open_stream := fun _ w => (inl ([], None), w) |}.

Lemma wrapped_answer_reaches_caller_witness :
  exists response, generate tree_client plain_options tree_request 0 = (inl response, 0) /\
  Structured.parseJsonAnswer (fun t => t) (resp_content response) = inl (VArr [VArr []]).
Proof. eapply (wrapped_answer_reaches_caller tree_client plain_options tree_request tree_format (VArr [VArr []])); try reflexivity; exact I. Defined.

Lemma request_is_sent_witness :
  req_tools tree_request = [] /\
  obj_get (generate_params plain_options tree_request) "model" = Some (VStr "gpt") /\
  obj_get (generate_params plain_options tree_request) "max_tokens" = Some (VNum (num_of_Z 7)).
Proof.
  destruct (request_is_sent plain_options tree_request) as (Hm & _ & _ & _ & _ & Hc & _).
  split_and!; [done|exact Hm|]. destruct (Hc _ eq_refl) as [_ Hs]. exact Hs.
Defined.

(** A cancelled request is reported as aborted even when the SDK also counts it as an
    API error. *)
Example abort_comes_first :
  oe_code (error_from (ForeignError {| is_user_abort := true; foreign_name := Some "APIUserAbortError"; is_connection_timeout := false;
    api_error := Some {| api_status := Some 499; api_code := Some "closed" |}; foreign_text := "Request was aborted." |}) "gpt") = Some "aborted".
Proof. reflexivity. Qed.

(** Without fragments for a call's name the streamed call is dropped, while a complete
    answer keeps a call without a name. *)
Example nameless_calls_differ :
  accumulatedToolCalls (add [] (Some [piece 0 (Some "a") None "{}"])) = [] /\
  toModelToolCalls (Some [FunctionToolCall (Some "a") EmptyString (Some "{}")]) = [{| call_id := "a"; call_name := EmptyString; call_args := [] |}].
Proof. done. Qed.

End OpenAiAdapter.
