(* ===== verification/McpClient.v ===== *)
(** * Types and errors of the MCP client (packages/mcp/src/interfaces, packages/mcp/src/errors)

    The JSON-RPC messages and the errors, then the messaging of the client
    (client/mcp-client.ts): requests in flight as a state machine. *)

From S2P Require Export Types.
From S2P Require Export Collections.

#[local] Open Scope string_scope.
#[local] Open Scope list_scope.
#[local] Open Scope Z_scope.

Module McpTypes.

Definition LATEST_MCP_PROTOCOL_VERSION : string := "2024-11-05".

(** ** JSON-RPC (interfaces/mcp.interface.ts) *)

Inductive RpcId : Type := IdNumber (n : Z) | IdString (s : string).

Record JsonRpcError : Type := { rpc_code : Z; rpc_message : string; rpc_data : value }.

(** A message as it is received: the fields the client reads of a response, a request
    or a notification.  An id that is absent, [undefined] or [null] is [None]. *)
Record JsonRpcMessage : Type := {
  msg_id : option RpcId;
  msg_method : option string;
  msg_result : value;
  msg_error : option JsonRpcError;
}.

(** A message the client sends. *)
Inductive Outgoing : Type :=
| OutRequest (id : Z) (method : string) (params : value)
| OutNotification (method : string) (params : value).

(** ** Tools and results *)

Record JsonSchemaProperty : Type := { prop_type : option string; prop_description : option string }.

Record ToolInputSchema : Type := {
  schema_properties : option (list (string * JsonSchemaProperty));
  schema_required : option (list string);
}.

Record McpToolSchema : Type := {
  tool_name : string;
  tool_description : option string;
  tool_inputSchema : option ToolInputSchema;
}.

(** A content block: text, or a block of another type with its fields. *)
Inductive McpContentBlock : Type :=
| TextBlock (text : string)
| OtherBlock (type : string) (fields : obj).

Definition block_type (b : McpContentBlock) : string := match b with TextBlock _ => "text" | OtherBlock t _ => t end.

Record CallToolResult : Type := { result_content : list McpContentBlock; result_isError : bool }.

(** ** Errors (errors/mcp.errors.ts)

    [TransportFailure] is an error of a transport that is passed on as it is. *)
Inductive McpError : Type :=
| McpConnectionError (serverName reason : string)
| McpTimeoutError (serverName method : string) (timeoutMs : Z)
| McpProtocolError (serverName : string) (code : Z) (rpcMessage : string) (data : value)
| McpToolExecutionError (serverName toolName errorDetail : string)
| McpValidationError (serverName toolName paramName expectedType : string) (actualValue : value)
| McpToolNotFoundError (serverName toolName : string)
| McpCancelledError (serverName method : string)
| TransportFailure (message : string).

Definition mcp_message (e : McpError) : string :=
  match e with
  | McpConnectionError s r => "Failed to connect to MCP server " +:+ in_quotes s +:+ ": " +:+ r
  | McpTimeoutError s m t => "MCP request " +:+ in_quotes m +:+ " to server " +:+ in_quotes s +:+ " timed out after " +:+ Z_to_string t +:+ "ms."
  | McpProtocolError s c m _ => "MCP server " +:+ in_quotes s +:+ " returned protocol error " +:+ Z_to_string c +:+ ": " +:+ m
  | McpToolExecutionError s t d => "Execution of MCP tool " +:+ in_quotes t +:+ " on server " +:+ in_quotes s +:+ " failed: " +:+ d
  | McpValidationError s t p x v =>
      "Validation error for MCP tool " +:+ in_quotes t +:+ " on server " +:+ in_quotes s +:+ ": Parameter " +:+ in_quotes p +:+
      " expects " +:+ x +:+ ", received " +:+ typeof v +:+ " (" +:+ json v +:+ ")."
  | McpToolNotFoundError s t => "Tool " +:+ in_quotes t +:+ " was not found on MCP server " +:+ in_quotes s +:+ "."
  | McpCancelledError s m => "MCP request " +:+ in_quotes m +:+ " to server " +:+ in_quotes s +:+ " was cancelled."
  | TransportFailure m => m
  end.

End McpTypes.

(** * The MCP client's messaging (packages/mcp/src/client/mcp-client.ts)

    Requests and their answers over a transport.  The client is a state machine: a call
    of [request] sends a message and arms a timer and, with a signal, a listener; what
    happens next (an answer, a timeout, an abort, a failed send, an error or the end of
    the transport) comes as an event, in any order. *)

#[local] Open Scope string_scope.
#[local] Open Scope list_scope.
#[local] Open Scope Z_scope.

Module McpClient.

Import McpTypes.

(** What the callbacks of a request close over. *)
Record Request : Type := { rq_id : Z; rq_method : string; rq_signal : option positive }.

Definition Settlement : Type := value + McpError.

(** The client, with the runtime objects its requests use: live timers, listeners on
    signals, sends that may still fail, promises, and the signals that have fired. *)
Record Client : Type := {
  nextRequestId : Z;
  pendingRequests : list Request;
  isConnected : bool;
  isInitialized : bool;
  cachedTools : list McpToolSchema;
  timers : list Request;
  listeners : list Request;
  sending : list Request;
  promises : list (Z * option Settlement);
  aborted : list positive;
}.

#[export] Instance request_eq_dec : EqDecision Request.
Proof. solve_decision. Defined.

Inductive Event : Type :=
| Call (method : string) (params : value) (signal : option positive)
| TimerFires (id : Z)
| SignalAborts (signal : positive)
| SendFails (id : Z) (err : McpError)
| Receives (message : JsonRpcMessage)
| TransportErrors (err : McpError)
| TransportCloses
| CloseCalled.

(** What a step does besides changing the state: a message sent, a call refused before
    it became a request, a listener of tool changes called. *)
Inductive Effect : Type :=
| Sends (m : Outgoing)
| RefusesCall (err : McpError)
| NotifiesToolsChanged.

Section Client.
Context (serverName : string) (timeoutMs : Z).

Definition initial : Client := {|
  nextRequestId := 1; pendingRequests := []; isConnected := false; isInitialized := false; cachedTools := [];
  timers := []; listeners := []; sending := []; promises := []; aborted := [] |}.

Definition drop_id (id : Z) (l : list Request) : list Request := List.filter (fun r => negb (rq_id r =? id)) l.

Definition find_id (id : Z) (l : list Request) : option Request := find_first (fun r => rq_id r =? id) l.

(** A promise settles once: later calls of its functions do nothing. *)
Definition settle (id : Z) (s : Settlement) (ps : list (Z * option Settlement)) : list (Z * option Settlement) :=
  map (fun p => if p.1 =? id then (p.1, orelse p.2 (Some s)) else p) ps.

Definition set_pending (c : Client) (l : list Request) : Client := {|
  nextRequestId := nextRequestId c; pendingRequests := l; isConnected := isConnected c; isInitialized := isInitialized c;
  cachedTools := cachedTools c; timers := timers c; listeners := listeners c; sending := sending c;
  promises := promises c; aborted := aborted c |}.

Definition pendingRequests_delete (id : Z) (c : Client) : Client := set_pending c (drop_id id (pendingRequests c)).

Definition clearTimeout (id : Z) (c : Client) : Client := {|
  nextRequestId := nextRequestId c; pendingRequests := pendingRequests c; isConnected := isConnected c;
  isInitialized := isInitialized c; cachedTools := cachedTools c; timers := drop_id id (timers c);
  listeners := listeners c; sending := sending c; promises := promises c; aborted := aborted c |}.

Definition removeEventListener (id : Z) (c : Client) : Client := {|
  nextRequestId := nextRequestId c; pendingRequests := pendingRequests c; isConnected := isConnected c;
  isInitialized := isInitialized c; cachedTools := cachedTools c; timers := timers c;
  listeners := drop_id id (listeners c); sending := sending c; promises := promises c; aborted := aborted c |}.

Definition settle_promise (id : Z) (s : Settlement) (c : Client) : Client := {|
  nextRequestId := nextRequestId c; pendingRequests := pendingRequests c; isConnected := isConnected c;
  isInitialized := isInitialized c; cachedTools := cachedTools c; timers := timers c; listeners := listeners c;
  sending := sending c; promises := settle id s (promises c); aborted := aborted c |}.

Definition set_connection (connected initialized : bool) (c : Client) : Client := {|
  nextRequestId := nextRequestId c; pendingRequests := pendingRequests c; isConnected := connected;
  isInitialized := initialized; cachedTools := cachedTools c; timers := timers c; listeners := listeners c;
  sending := sending c; promises := promises c; aborted := aborted c |}.

Definition set_tools (tools : list McpToolSchema) (c : Client) : Client := {|
  nextRequestId := nextRequestId c; pendingRequests := pendingRequests c; isConnected := isConnected c;
  isInitialized := isInitialized c; cachedTools := tools; timers := timers c; listeners := listeners c;
  sending := sending c; promises := promises c; aborted := aborted c |}.

(** The [resolve] and [reject] kept for a pending request. *)
Definition settle_pending (r : Request) (s : Settlement) (c : Client) : Client :=
  settle_promise (rq_id r) s (removeEventListener (rq_id r) (clearTimeout (rq_id r) c)).

(** [request]: refused at once on an aborted signal, otherwise a new id, a timer, a
    listener when there is a signal, an entry in the map, and the message sent. *)
Definition request (method : string) (params : value) (signal : option positive) (c : Client) : Client * list Effect :=
  if match signal with Some s => bool_decide (s ∈ aborted c) | None => false end
  then (c, [RefusesCall (McpCancelledError serverName method)])
  else
    let r := {| rq_id := nextRequestId c; rq_method := method; rq_signal := signal |} in
    ({| nextRequestId := nextRequestId c + 1;
        pendingRequests := pendingRequests c ++ [r];
        isConnected := isConnected c; isInitialized := isInitialized c; cachedTools := cachedTools c;
        timers := timers c ++ [r];
        listeners := listeners c ++ (if is_some signal then [r] else []);
        sending := sending c ++ [r];
        promises := promises c ++ [(rq_id r, None)];
        aborted := aborted c |},
     [Sends (OutRequest (rq_id r) method params)]).

(** The timer's callback. *)
Definition on_timeout (r : Request) (c : Client) : Client :=
  settle_promise (rq_id r) (inr (McpTimeoutError serverName (rq_method r) timeoutMs))
    (removeEventListener (rq_id r) (pendingRequests_delete (rq_id r) (clearTimeout (rq_id r) c))).

Definition timer_fires (id : Z) (c : Client) : Client :=
  match find_id id (timers c) with Some r => on_timeout r c | None => c end.

Definition cancelled (id : Z) : Outgoing :=
  OutNotification "notifications/cancelled" (VObj [("requestId", VNum (num_of_Z id)); ("reason", VStr "user_cancelled")]).

(** [abortHandler]; the listener is registered for one call. *)
Definition abortHandler (r : Request) (p : Client * list Effect) : Client * list Effect :=
  let '(c, out) := p in
  (settle_promise (rq_id r) (inr (McpCancelledError serverName (rq_method r)))
     (clearTimeout (rq_id r) (pendingRequests_delete (rq_id r) (removeEventListener (rq_id r) c))),
   out ++ [Sends (cancelled (rq_id r))]).

Definition listens_to (s : positive) (r : Request) : bool := bool_decide (rq_signal r = Some s).

(** A signal aborts once: its listeners are called in the order they were added. *)
Definition signal_aborts (s : positive) (c : Client) : Client * list Effect :=
  if bool_decide (s ∈ aborted c) then (c, [])
  else
    let called := List.filter (listens_to s) (listeners c) in
    fold_left (fun p r => abortHandler r p) called
      ({| nextRequestId := nextRequestId c; pendingRequests := pendingRequests c; isConnected := isConnected c;
          isInitialized := isInitialized c; cachedTools := cachedTools c; timers := timers c; listeners := listeners c;
          sending := sending c; promises := promises c; aborted := s :: aborted c |}, []).

(** The [catch] of the send of a request. *)
Definition send_fails (id : Z) (err : McpError) (c : Client) : Client :=
  match find_id id (sending c) with
  | Some r =>
      settle_promise (rq_id r) (inr err)
        (removeEventListener (rq_id r) (clearTimeout (rq_id r) (pendingRequests_delete (rq_id r)
          {| nextRequestId := nextRequestId c; pendingRequests := pendingRequests c; isConnected := isConnected c;
             isInitialized := isInitialized c; cachedTools := cachedTools c; timers := timers c; listeners := listeners c;
             sending := drop_id id (sending c); promises := promises c; aborted := aborted c |})))
  | None => c
  end.

Definition handleMessage (m : JsonRpcMessage) (c : Client) : Client * list Effect :=
  match msg_id m with
  | Some (IdNumber id) =>
      match find_id id (pendingRequests c) with
      | None => (c, [])
      | Some pending =>
          (settle_pending pending
             (match msg_error m with
              | Some e => inr (McpProtocolError serverName (rpc_code e) (rpc_message e) (rpc_data e))
              | None => inl (msg_result m)
              end) (pendingRequests_delete id c), [])
      end
  | Some (IdString _) => (c, [])
  | None =>
      match msg_method m with
      | Some method =>
          if bool_decide (method = "notifications/tools/list_changed")
          then (set_tools [] c, [NotifiesToolsChanged]) else (c, [])
      | None => (c, [])
      end
  end.

(** The loop that rejects all pending requests, and the map cleared. *)
Definition reject_all (err : McpError) (c : Client) : Client :=
  set_pending (fold_left (fun c r => settle_pending r (inr err) c) (pendingRequests c) c) [].

Definition handleTransportError (err : McpError) (c : Client) : Client := reject_all err c.

Definition handleTransportClose (c : Client) : Client :=
  reject_all (McpConnectionError serverName "Transport closed unexpectedly") (set_connection false false c).

(** [close], up to the close of the transport. *)
Definition close (c : Client) : Client :=
  reject_all (McpConnectionError serverName "Connection closed while request was in-flight") (set_connection false false c).

Definition step (c : Client) (e : Event) : Client * list Effect :=
  match e with
  | Call method params signal => request method params signal c
  | TimerFires id => (timer_fires id c, [])
  | SignalAborts s => signal_aborts s c
  | SendFails id err => (send_fails id err c, [])
  | Receives m => handleMessage m c
  | TransportErrors err => (handleTransportError err c, [])
  | TransportCloses => (handleTransportClose c, [])
  | CloseCalled => (close c, [])
  end.

Definition run (c : Client) (es : list Event) : Client := fold_left (fun c e => (step c e).1) es c.

(** ** Settling a request *)

(** What every path that settles a request does: no entry, timer or listener is left,
    and the promise is settled. *)
Definition finish (c : Client) (f : Z * Settlement) : Client := {|
  nextRequestId := nextRequestId c; pendingRequests := drop_id f.1 (pendingRequests c); isConnected := isConnected c;
  isInitialized := isInitialized c; cachedTools := cachedTools c; timers := drop_id f.1 (timers c);
  listeners := drop_id f.1 (listeners c); sending := sending c; promises := settle f.1 f.2 (promises c); aborted := aborted c |}.

Definition finish_all (l : list (Z * Settlement)) (c : Client) : Client := fold_left finish l c.

Definition mark (s : positive) (c : Client) : Client := {|
  nextRequestId := nextRequestId c; pendingRequests := pendingRequests c; isConnected := isConnected c;
  isInitialized := isInitialized c; cachedTools := cachedTools c; timers := timers c; listeners := listeners c;
  sending := sending c; promises := promises c; aborted := s :: aborted c |}.

Definition set_sending (l : list Request) (c : Client) : Client := {|
  nextRequestId := nextRequestId c; pendingRequests := pendingRequests c; isConnected := isConnected c;
  isInitialized := isInitialized c; cachedTools := cachedTools c; timers := timers c; listeners := listeners c;
  sending := l; promises := promises c; aborted := aborted c |}.

Definition has_signal (r : Request) : bool := is_some (rq_signal r).

Definition ids (l : list Request) : list Z := rq_id <$> l.

(** The state of the promise of a request: [Some None] is open. *)
Definition promise (c : Client) (id : Z) : option (option Settlement) := js_get (promises c) id.

Definition is_open (c : Client) (id : Z) : Prop := promise c id = Some None.

(** What holds between two steps: the requests in flight are those with an open
    promise, each has its timer, and its listener when it has a signal, and none has a
    signal that fired. *)
Record inv (c : Client) : Prop := {
  inv_timers : timers c = pendingRequests c;
  inv_listeners : listeners c = List.filter has_signal (pendingRequests c);
  inv_ids : NoDup (ids (pendingRequests c));
  inv_open : forall id, is_open c id <-> id ∈ ids (pendingRequests c);
  inv_next : Forall (fun p => p.1 < nextRequestId c) (promises c);
  inv_promises : unique_keys (promises c);
  inv_aborted : Forall (fun r => forall s, rq_signal r = Some s -> s ∉ aborted c) (pendingRequests c);
}.

Lemma drop_filter id p l : drop_id id (List.filter p l) = List.filter p (drop_id id l).
Proof.
  unfold drop_id. induction l as [|r l IH]; [done|]. simpl.
  destruct (p r) eqn:Hp, (rq_id r =? id) eqn:Hi; simpl; rewrite ?Hp, ?Hi; simpl; by rewrite ?IH.
Qed.

Lemma drop_ids id k l : k ∈ ids (drop_id id l) <-> k ∈ ids l /\ k <> id.
Proof.
  unfold ids, drop_id. induction l as [|r l IH]; simpl; [set_solver|].
  destruct (Z.eqb_spec (rq_id r) id); simpl; rewrite ?elem_of_cons, IH, ?elem_of_cons; naive_solver congruence.
Qed.

Lemma drop_sublist id l : drop_id id l `sublist_of` l.
Proof. unfold drop_id. induction l as [|r l IH]; simpl; [constructor|]. destruct (negb _); by constructor. Qed.

Lemma get_settle id s ps k : js_get (settle id s ps) k =
  if bool_decide (k = id) then (fun o => orelse o (Some s)) <$> js_get ps k else js_get ps k.
Proof.
  unfold settle. induction ps as [|[k' o] ps IH]; simpl; [by case_bool_decide|].
  destruct (Z.eqb_spec k' id); simpl; rewrite IH; repeat case_bool_decide; subst; congruence || done.
Qed.

Lemma settle_keys id s ps : (settle id s ps).*1 = ps.*1.
Proof.
  induction ps as [|[k o] ps IH]; [done|]. rewrite fmap_cons, <- IH. unfold settle. simpl. by destruct (k =? id).
Qed.

Lemma finish_promise c f k : promise (finish c f) k =
  if bool_decide (k = f.1) then (fun o => orelse o (Some f.2)) <$> promise c k else promise c k.
Proof. apply get_settle. Qed.

Lemma finish_inv c f : inv c -> inv (finish c f).
Proof.
  intros [Ht Hl Hi Ho Hn Hp Ha]. destruct f as [id s]. split; simpl.
  - by rewrite Ht.
  - by rewrite Hl, drop_filter.
  - eapply sublist_NoDup; [exact Hi|]. apply fmap_sublist, drop_sublist.
  - intros k. unfold is_open. rewrite finish_promise, drop_ids, <- Ho. cbn [fst snd]. unfold is_open.
    case_bool_decide as Hk; [|naive_solver]. destruct (promise c k) as [[o|]|]; naive_solver.
  - rewrite Forall_forall in Hn |- *. intros p Hin. apply (list_elem_of_fmap_2 fst) in Hin. fold (settle id s) in Hin.
    rewrite settle_keys in Hin. apply list_elem_of_fmap in Hin as (q & -> & Hq). by apply Hn.
  - unfold unique_keys. by rewrite settle_keys.
  - eapply Forall_sublist_of; [apply drop_sublist|done].
Qed.

Lemma finish_all_inv l c : inv c -> inv (finish_all l c).
Proof. unfold finish_all. revert c. induction l as [|f l IH]; intros c H; [done|]. apply IH. by apply finish_inv. Qed.

Lemma finish_all_aborted l c : aborted (finish_all l c) = aborted c.
Proof. unfold finish_all. revert c. induction l as [|f l IH]; intros c; [done|]. simpl. by rewrite IH. Qed.

Lemma finish_all_ids l c k : k ∈ ids (pendingRequests (finish_all l c)) <-> k ∈ ids (pendingRequests c) /\ k ∉ l.*1.
Proof.
  unfold finish_all. revert c. induction l as [|f l IH]; intros c; [set_solver|]. cbn [fold_left]. rewrite IH. simpl.
  rewrite drop_ids, not_elem_of_cons. naive_solver.
Qed.

Lemma finish_all_sublist l c : pendingRequests (finish_all l c) `sublist_of` pendingRequests c.
Proof.
  unfold finish_all. revert c. induction l as [|f l IH]; intros c; [done|]. cbn [fold_left]. rewrite IH. apply drop_sublist.
Qed.

(** The settlement of an open promise is the first one given for its id. *)
Lemma finish_all_promise l c k : promise (finish_all l c) k =
  (fun o => orelse o (js_get l k)) <$> promise c k.
Proof.
  unfold finish_all. revert c. induction l as [|[id s] l IH]; intros c; cbn [fold_left].
  - destruct (promise c k) as [[o|]|]; done.
  - rewrite IH, finish_promise. simpl. rewrite (bool_decide_ext (id = k) (k = id)) by done.
    case_bool_decide; destruct (promise c k) as [[o|]|]; done.
Qed.

(** ** Every path settles that way *)

Definition rejections (err : McpError) (l : list Request) : list (Z * Settlement) := map (fun r => (rq_id r, inr err)) l.

Lemma rejections_ids err l : (rejections err l).*1 = ids l.
Proof. induction l as [|r l IH]; [done|]. simpl. f_equal. exact IH. Qed.

Lemma reject_loop err l c : set_pending (fold_left (fun c r => settle_pending r (inr err) c) l c) [] =
  set_pending (finish_all (rejections err l) c) [].
Proof.
  assert (forall l c c', set_pending c [] = set_pending c' [] ->
    set_pending (fold_left (fun c r => settle_pending r (inr err) c) l c) [] = set_pending (finish_all (rejections err l) c') []) as H; [|by apply H].
  clear. induction l as [|r l IH]; intros c c' H; [done|]. apply IH. destruct c, c'. unfold set_pending in H. simpl in H. by injection H as -> -> -> -> -> -> -> -> ->.
Qed.

Lemma reject_all_finish err c : reject_all err c = finish_all (rejections err (pendingRequests c)) c.
Proof.
  unfold reject_all. rewrite reject_loop. set (c' := finish_all _ c).
  assert (pendingRequests c' = []) as Hp; [|destruct c'; simpl in *; by rewrite Hp].
  destruct (pendingRequests c') as [|r l] eqn:Hl; [done|]. exfalso.
  assert (rq_id r ∈ ids (pendingRequests c')) as Hin by (rewrite Hl; by left). unfold c' in Hin.
  rewrite finish_all_ids, rejections_ids in Hin. by destruct Hin.
Qed.

Lemma abort_loop called c out : fold_left (fun p r => abortHandler r p) called (c, out) =
  (finish_all (map (fun r => (rq_id r, inr (McpCancelledError serverName (rq_method r)))) called) c,
   out ++ map (fun r => Sends (cancelled (rq_id r))) called).
Proof.
  revert c out. induction called as [|r called IH]; intros c out; [by rewrite app_nil_r|]. cbn [fold_left].
  change (abortHandler r (c, out)) with (finish c (rq_id r, inr (McpCancelledError serverName (rq_method r))), out ++ [Sends (cancelled (rq_id r))]).
  rewrite IH. simpl. by rewrite <- app_assoc.
Qed.

Definition cancellations (l : list Request) : list (Z * Settlement) :=
  map (fun r => (rq_id r, inr (McpCancelledError serverName (rq_method r)))) l.

Lemma signal_aborts_finish s c : s ∉ aborted c ->
  signal_aborts s c = (finish_all (cancellations (List.filter (listens_to s) (listeners c))) (mark s c),
                       map (fun r => Sends (cancelled (rq_id r))) (List.filter (listens_to s) (listeners c))).
Proof. intros Hs. unfold signal_aborts. rewrite bool_decide_false by done. exact (abort_loop _ (mark s c) []). Qed.

Lemma finish_mark s l c : finish_all l (mark s c) = mark s (finish_all l c).
Proof. unfold finish_all. revert c. induction l as [|f l IH]; intros c; [done|]. simpl. apply (IH (finish c f)). Qed.

(** What settles a request at a step, if anything does. *)
Definition settles (c : Client) (e : Event) : list (Z * Settlement) :=
  match e with
  | Call _ _ _ => []
  | TimerFires id => match find_id id (timers c) with Some r => [(rq_id r, inr (McpTimeoutError serverName (rq_method r) timeoutMs))] | None => [] end
  | SignalAborts s => if bool_decide (s ∈ aborted c) then [] else cancellations (List.filter (listens_to s) (listeners c))
  | SendFails id err => match find_id id (sending c) with Some r => [(rq_id r, inr err)] | None => [] end
  | Receives m =>
      match msg_id m with
      | Some (IdNumber id) =>
          match find_id id (pendingRequests c) with
          | Some r => [(rq_id r, match msg_error m with
                                 | Some e => inr (McpProtocolError serverName (rpc_code e) (rpc_message e) (rpc_data e))
                                 | None => inl (msg_result m)
                                 end)]
          | None => []
          end
      | _ => []
      end
  | TransportErrors err => rejections err (pendingRequests c)
  | TransportCloses => rejections (McpConnectionError serverName "Transport closed unexpectedly") (pendingRequests c)
  | CloseCalled => rejections (McpConnectionError serverName "Connection closed while request was in-flight") (pendingRequests c)
  end.

Lemma find_id_Some id l r : find_id id l = Some r -> rq_id r = id /\ r ∈ l.
Proof. unfold find_id. intros [Hin Hr]%find_first_Some. by apply Z.eqb_eq in Hr. Qed.

(** What else a step changes: the flags, the cache, the sends and the fired signals. *)
Definition prepared (c : Client) (e : Event) : Client :=
  match e with
  | Call method params signal => (request method params signal c).1
  | SignalAborts s => if bool_decide (s ∈ aborted c) then c else mark s c
  | SendFails id _ => if is_some (find_id id (sending c)) then set_sending (drop_id id (sending c)) c else c
  | Receives m => match msg_id m with None => (handleMessage m c).1 | _ => c end
  | TransportCloses | CloseCalled => set_connection false false c
  | _ => c
  end.

Lemma step_finishes c e : (step c e).1 = finish_all (settles c e) (prepared c e).
Proof.
  destruct e as [method params signal|id|s|id err|m|err| |]; simpl.
  - done.
  - unfold timer_fires. by destruct (find_id id (timers c)).
  - unfold signal_aborts. destruct (bool_decide (s ∈ aborted c)); [done|]. by rewrite abort_loop.
  - unfold send_fails. by destruct (find_id id (sending c)).
  - unfold handleMessage. destruct (msg_id m) as [[id|t]|]; [|done|done].
    destruct (find_id id (pendingRequests c)) as [r|] eqn:Hf; [|done]. apply find_id_Some in Hf as [<- _]. done.
  - apply reject_all_finish.
  - apply (reject_all_finish _ (set_connection false false c)).
  - apply (reject_all_finish _ (set_connection false false c)).
Qed.

(** ** The invariant *)

Lemma initial_inv : inv initial.
Proof. split; simpl; try constructor; try done. intros H. by apply elem_of_nil in H. Qed.

Lemma request_inv method params signal c : inv c -> inv (request method params signal c).1.
Proof.
  intros [Ht Hl Hi Ho Hn Hp Ha]. unfold request. destruct (match signal with Some s => _ | None => _ end) eqn:Hab; [by split|]. simpl.
  assert (js_get (promises c) (nextRequestId c) = None) as Hfresh.
  { apply js_get_None. intros (p & Hp1 & Hin)%list_elem_of_fmap. rewrite Forall_forall in Hn. specialize (Hn p Hin). lia. }
  assert (nextRequestId c ∉ ids (pendingRequests c)) as Hnew by (intros Hin; apply Ho in Hin; unfold is_open, promise in Hin; congruence).
  assert (forall k, js_get (promises c ++ [(nextRequestId c, None)]) k =
    if bool_decide (k = nextRequestId c) then Some None else js_get (promises c) k) as Hget.
  { intros k. clear - Hfresh. induction (promises c) as [|[k' o] ps IH]; simpl in *.
    - rewrite (bool_decide_ext (nextRequestId c = k) (k = nextRequestId c)) by done. by case_bool_decide.
    - destruct (decide (k' = nextRequestId c)) as [->|Hne]; [by rewrite bool_decide_true in Hfresh|].
      rewrite bool_decide_false in Hfresh by done. rewrite IH by done. repeat case_bool_decide; congruence. }
  split; simpl.
  - by rewrite Ht.
  - rewrite Hl, List.filter_app. simpl. unfold has_signal at 3. simpl. by destruct signal.
  - unfold ids. rewrite fmap_app. apply NoDup_app. split; [done|]. split; [|by apply NoDup_singleton].
    intros x Hx. simpl. rewrite list_elem_of_singleton. intros ->. done.
  - intros k. unfold is_open, promise. simpl. rewrite Hget. unfold ids. rewrite fmap_app, elem_of_app. simpl. rewrite list_elem_of_singleton.
    case_bool_decide; [naive_solver|]. specialize (Ho k). unfold is_open, promise, ids in Ho. naive_solver.
  - apply Forall_app. split; [|constructor; [simpl; lia|constructor]]. eapply Forall_impl; [exact Hn|]. simpl. lia.
  - unfold unique_keys. rewrite fmap_app. apply NoDup_app. split; [done|]. split; [|by apply NoDup_singleton].
    intros x Hx. simpl. rewrite list_elem_of_singleton. intros ->. by apply js_get_None in Hfresh.
  - apply Forall_app. split; [done|]. constructor; [|constructor]. simpl. intros s ->. by apply bool_decide_eq_false in Hab.
Qed.

(** Filtering the listeners of a signal out of the pending requests leaves none with it. *)
Lemma aborted_inv s c : inv c -> inv (finish_all (cancellations (List.filter (listens_to s) (listeners c))) (mark s c)).
Proof.
  intros Hinv. rewrite finish_mark. set (l := cancellations _). pose proof (finish_all_inv l c Hinv) as [Ht Hl Hi Ho Hn Hp Ha].
  split; try done. simpl. rewrite Forall_forall in Ha |- *. intros r Hr s' Hs'.
  rewrite not_elem_of_cons. split; [|by apply (Ha r)]. intros ->. 
  assert (rq_id r ∈ ids (pendingRequests (finish_all l c))) as Hid by (by apply list_elem_of_fmap_2).
  rewrite finish_all_ids in Hid. destruct Hid as [_ Hout]. apply Hout.
  assert (l.*1 = ids (List.filter (listens_to s) (listeners c))) as ->.
  { unfold l, cancellations, ids. generalize (List.filter (listens_to s) (listeners c)) as k. intros k.
    induction k as [|x k IH]; [done|]. simpl. f_equal. exact IH. }
  apply list_elem_of_fmap_2. rewrite list_elem_of_In, filter_In, <- list_elem_of_In. split; [|by apply bool_decide_eq_true].
  destruct Hinv as [_ Hl0 _ _ _ _ _]. rewrite Hl0, list_elem_of_In, filter_In, <- list_elem_of_In.
  split; [by eapply elem_of_sublist; [|apply finish_all_sublist]|]. unfold has_signal. by rewrite Hs'.
Qed.

Lemma step_inv c e : inv c -> inv (step c e).1.
Proof.
  intros Hinv. rewrite step_finishes. destruct e as [method params signal|id|s|id err|m|err| |]; simpl;
    try (apply finish_all_inv; done).
  - by apply request_inv.
  - case_bool_decide; [done|]. by apply aborted_inv.
  - apply finish_all_inv. destruct (find_id id (sending c)); simpl; [|done]. destruct Hinv; by split.
  - apply finish_all_inv. destruct (msg_id m) eqn:Hid; [done|]. unfold handleMessage. rewrite Hid.
    destruct (msg_method m); [|done]. case_bool_decide; [|done]. destruct Hinv; by split.
  - apply finish_all_inv. destruct Hinv; by split.
  - apply finish_all_inv. destruct Hinv; by split.
Qed.

Lemma run_inv es c : inv c -> inv (run c es).
Proof. unfold run. revert c. induction es as [|e es IH]; intros c H; [done|]. apply IH. by apply step_inv. Qed.

(** ** What the client promises *)

Definition settled (c : Client) (id : Z) : Prop := exists o, promise c id = Some (Some o).

(** In every reachable state a request in flight has its entry and its timer, and a
    request that is settled has left no entry, timer or listener behind; nothing
    listens to a signal that has fired. *)
Theorem requests_leak_nothing es id : let c := run initial es in
  (is_open c id -> id ∈ ids (pendingRequests c) /\ id ∈ ids (timers c)) /\
  (settled c id -> id ∉ ids (pendingRequests c) /\ id ∉ ids (timers c) /\ id ∉ ids (listeners c)) /\
  (forall r s, r ∈ listeners c -> rq_signal r = Some s -> s ∉ aborted c /\ is_open c (rq_id r)).
Proof.
  intros c. pose proof (run_inv es initial initial_inv) as [Ht Hl Hi Ho Hn Hp Ha]. fold c in Ht, Hl, Hi, Ho, Hn, Hp, Ha.
  assert (forall r, r ∈ listeners c -> r ∈ pendingRequests c) as Hsub.
  { intros r. rewrite Hl, list_elem_of_In, filter_In, <- list_elem_of_In. by intros []. }
  split_and!.
  - intros H%Ho. by rewrite Ht.
  - intros [o Hs]. assert (id ∉ ids (pendingRequests c)) as Hnot by (intros H%Ho; unfold is_open in H; congruence).
    rewrite Ht. split_and!; [done|done|]. intros (r & -> & Hr)%list_elem_of_fmap. apply Hnot. by apply list_elem_of_fmap_2, Hsub.
  - intros r s Hr Hs. rewrite Forall_forall in Ha. split; [by apply (Ha r); [apply Hsub|]|]. apply Ho. by apply list_elem_of_fmap_2, Hsub.
Qed.

Lemma step_promise c e id : promise (step c e).1 id = (fun o => orelse o (js_get (settles c e) id)) <$> promise (prepared c e) id.
Proof. by rewrite step_finishes, finish_all_promise. Qed.

Lemma prepared_promise c e id o : promise c id = Some o -> promise (prepared c e) id = Some o.
Proof.
  intros H. destruct e as [method params signal|id'|s|id' err|m|err| |]; simpl; try done.
  - unfold request. destruct (match signal with Some s => _ | None => _ end); [done|]. unfold promise in *. simpl.
    clear - H. induction (promises c) as [|[k x] ps IH]; [done|]. simpl in *. by case_bool_decide; [|apply IH].
  - by case_bool_decide.
  - by destruct (find_id id' (sending c)).
  - destruct (msg_id m) eqn:Hid; [done|]. unfold handleMessage. rewrite Hid. destruct (msg_method m); [|done]. by case_bool_decide.
Qed.

(** A promise that is settled stays as it is. *)
Lemma settled_stays c es id o : promise c id = Some (Some o) -> promise (run c es) id = Some (Some o).
Proof.
  unfold run. revert c. induction es as [|e es IH]; intros c H; [done|]. apply IH. rewrite step_promise. by rewrite (prepared_promise _ _ _ _ H).
Qed.

Lemma open_or_settled c es id : is_open c id -> is_open (run c es) id \/ settled (run c es) id.
Proof.
  unfold run. revert c. induction es as [|e es IH]; intros c H; [by left|]. simpl.
  assert (promise (step c e).1 id = Some (js_get (settles c e) id)) as Hs.
  { rewrite step_promise. by rewrite (prepared_promise _ _ _ _ H). }
  destruct (js_get (settles c e) id) as [o|]; [right; exists o; exact (settled_stays _ es _ _ Hs)|by apply IH].
Qed.

Lemma find_id_elem id l : id ∈ ids l -> exists r, find_id id l = Some r /\ rq_id r = id.
Proof.
  intros (r & -> & Hr)%list_elem_of_fmap. destruct (find_id (rq_id r) l) as [r'|] eqn:Hf.
  - exists r'. split; [done|]. by apply find_id_Some in Hf as [? _].
  - exfalso. unfold find_id in Hf. rewrite find_first_None, Forall_forall in Hf. specialize (Hf r Hr). by rewrite Z.eqb_refl in Hf.
Qed.

(** C20. Every request is settled: whatever else happens before and after, once its timer
    has fired (which a timer does unless it is cleared, and it is only cleared when
    the request settles) its promise has an outcome, and keeps it. *)
Theorem every_request_settles before between after id : is_open (run initial before) id ->
  settled (run initial (before ++ between ++ [TimerFires id] ++ after)) id.
Proof.
  intros Hopen. unfold run. rewrite !fold_left_app. fold (run initial before). set (c := run initial before) in *.
  fold (run c between). pose proof (run_inv between c (run_inv before initial initial_inv)) as [Ht _ _ Ho _ _ _].
  destruct (open_or_settled c between id Hopen) as [H|[o H]].
  - destruct (find_id_elem id (timers (run c between))) as (r & Hr & Hid); [by rewrite Ht; apply Ho|].
    exists (inr (McpTimeoutError serverName (rq_method r) timeoutMs)). apply (settled_stays _ after). cbn [fold_left]. rewrite step_promise, (prepared_promise _ _ _ _ H). simpl.
    rewrite Hr. simpl. by rewrite Hid, bool_decide_true.
  - exists o. apply (settled_stays _ after). by apply (settled_stays _ [TimerFires id]).
Qed.

(** What a message settles a request as. *)
Definition carried (m : JsonRpcMessage) : Settlement :=
  match msg_error m with
  | Some e => inr (McpProtocolError serverName (rpc_code e) (rpc_message e) (rpc_data e))
  | None => inl (msg_result m)
  end.

(** What is meant to settle a request, and as what: an answer is a message with its
    number that names no method. *)
Definition caused_by (c : Client) (e : Event) (r : Request) (o : Settlement) : Prop :=
  match e with
  | Call _ _ _ => False
  | TimerFires id => id = rq_id r /\ o = inr (McpTimeoutError serverName (rq_method r) timeoutMs)
  | SignalAborts s => rq_signal r = Some s /\ o = inr (McpCancelledError serverName (rq_method r))
  | SendFails id err => id = rq_id r /\ o = inr err
  | Receives m =>
      msg_id m = Some (IdNumber (rq_id r)) /\ msg_method m = None /\ o = carried m
  | TransportErrors err => o = inr err
  | TransportCloses | CloseCalled => exists reason, o = inr (McpConnectionError serverName reason)
  end.

(** A request of the server that happens to have the number of the client's own is
    taken for its answer. *)
Definition mistaken (e : Event) (r : Request) (o : Settlement) : Prop :=
  exists m, e = Receives m /\ msg_id m = Some (IdNumber (rq_id r)) /\ is_Some (msg_method m) /\ o = carried m.

Lemma get_mapped (f : Request -> Settlement) l id o : js_get (map (fun r => (rq_id r, f r)) l) id = Some o ->
  exists r, r ∈ l /\ rq_id r = id /\ o = f r.
Proof. intros (r & [= -> ->] & Hr)%js_get_elem%list_elem_of_fmap. by exists r. Qed.

(** C13. A request is settled by its own answer, timer, signal or failed send, or by an
    error or the end of the transport, and as that event says; no step settles the
    request of another.  The one exception: the client does not tell a request of the
    server from an answer, so one with the same number settles the client's request
    ([server_request_settles_a_client_request]). *)
Theorem answers_reach_their_request es e id o : is_open (run initial es) id ->
  promise (step (run initial es) e).1 id = Some (Some o) ->
  exists r, r ∈ pendingRequests (run initial es) /\ rq_id r = id /\
    (caused_by (run initial es) e r o \/ mistaken e r o).
Proof.
  intros Hopen. set (c := run initial es) in *. pose proof (run_inv es initial initial_inv) as [Ht Hl Hi Ho _ _ _]. fold c in Ht, Hl, Hi, Ho.
  rewrite step_promise, (prepared_promise _ _ _ _ Hopen). cbn [fmap option_fmap option_map orelse]. intros [= Hs].
  assert (forall r l, find_id id l = Some r -> r ∈ l) as Hfind by (intros r l H; by apply find_id_Some in H as []).
  destruct e as [method params signal|id'|s|id' err|m|err| |]; simpl in Hs; [done|..].
  - destruct (find_id id' (timers c)) as [r|] eqn:Hf; [|done]. simpl in Hs. case_bool_decide as Hid; [|done].
    injection Hs as <-. apply find_id_Some in Hf as [Hr1 Hr2]. exists r. rewrite <- Ht. split_and!; [done|done|left]. by rewrite <- Hr1.
  - case_bool_decide; [done|]. apply get_mapped in Hs as (r & Hr & Hid & ->).
    rewrite list_elem_of_In, filter_In, <- list_elem_of_In in Hr. destruct Hr as [Hr Hsig]. apply bool_decide_eq_true in Hsig.
    rewrite Hl, list_elem_of_In, filter_In, <- list_elem_of_In in Hr. destruct Hr as [Hr _]. exists r. split_and!; [done|done|by left].
  - destruct (find_id id' (sending c)) as [r0|] eqn:Hf; [|done]. simpl in Hs. case_bool_decide as Hid; [|done]. injection Hs as <-.
    apply find_id_Some in Hf as [Hr1 _]. destruct (find_id_elem id (pendingRequests c)) as (r & Hr & Hrid); [by apply Ho|].
    exists r. split_and!; [by apply Hfind|done|left; split; [congruence|done]].
  - destruct (msg_id m) as [[id'|t]|] eqn:Hm; [|done|done]. destruct (find_id id' (pendingRequests c)) as [r|] eqn:Hf; [|done].
    simpl in Hs. case_bool_decide as Hid; [|done]. injection Hs as <-. apply find_id_Some in Hf as [Hr1 Hr2]. exists r.
    split_and!; [done|done|]. destruct (msg_method m) eqn:Hmm; [right|left].
    + exists m. rewrite Hmm, Hr1. split_and!; [done|done|by eexists|done].
    + simpl. by rewrite Hr1.
  - apply get_mapped in Hs as (r & Hr & Hid & ->). exists r. split_and!; [done|done|by left].
  - apply get_mapped in Hs as (r & Hr & Hid & ->). exists r. split_and!; [done|done|left; by eexists].
  - apply get_mapped in Hs as (r & Hr & Hid & ->). exists r. split_and!; [done|done|left; by eexists].
Qed.

(** A signal that fires cancels the requests made with it, and only them: the server
    is told once for each, in order, and later calls with it are refused. *)
Theorem abort_cancels_its_requests es s : let c := run initial es in s ∉ aborted c ->
  (step c (SignalAborts s)).2 = map (fun r => Sends (cancelled (rq_id r))) (List.filter (listens_to s) (pendingRequests c)) /\
  (forall r, r ∈ pendingRequests c ->
    promise (step c (SignalAborts s)).1 (rq_id r) =
    Some (if listens_to s r then Some (inr (McpCancelledError serverName (rq_method r))) else None)) /\
  (forall method params, step (step c (SignalAborts s)).1 (Call method params (Some s)) =
    ((step c (SignalAborts s)).1, [RefusesCall (McpCancelledError serverName method)])).
Proof.
  intros c Hs. pose proof (run_inv es initial initial_inv) as [Ht Hl Hi Ho _ _ _]. fold c in Ht, Hl, Hi, Ho.
  assert (List.filter (listens_to s) (listeners c) = List.filter (listens_to s) (pendingRequests c)) as Hcalled.
  { rewrite Hl. clear. induction (pendingRequests c) as [|r l IH]; [done|]. simpl.
    assert (listens_to s r = true -> has_signal r = true) as Hsig by (intros H%bool_decide_eq_true; unfold has_signal; by rewrite H).
    destruct (has_signal r); simpl; [by destruct (listens_to s r); rewrite IH|]. destruct (listens_to s r); [by specialize (Hsig eq_refl)|done]. }
  split_and!.
  - simpl. rewrite signal_aborts_finish by done. by rewrite Hcalled.
  - intros r Hr. rewrite step_promise. assert (is_open c (rq_id r)) as Hopen by (apply Ho; by apply list_elem_of_fmap_2).
    rewrite (prepared_promise _ _ _ _ Hopen). cbn [fmap option_fmap option_map orelse]. f_equal.
    cbn [settles]. rewrite bool_decide_false, Hcalled by done. clear - Hr Hi.
    assert (forall l, r ∈ l -> NoDup (ids l) -> js_get (cancellations (List.filter (listens_to s) l)) (rq_id r) =
      if listens_to s r then Some (inr (McpCancelledError serverName (rq_method r))) else None) as H; [|by apply H].
    induction l as [|x l IH]; [by intros ?%elem_of_nil|]. intros [->|Hin]%elem_of_cons; simpl; intros [Hx Hd]%NoDup_cons.
    + destruct (listens_to s x) eqn:Hlx; simpl; [by rewrite bool_decide_true|].
      apply js_get_None. intros (p & Hp & (y & -> & Hy)%list_elem_of_fmap)%list_elem_of_fmap. simpl in Hp.
      rewrite list_elem_of_In, filter_In, <- list_elem_of_In in Hy. destruct Hy as [Hy _]. apply Hx. rewrite Hp. by apply list_elem_of_fmap_2.
    + assert (rq_id x <> rq_id r) as Hne by (intros Heq; apply Hx; rewrite Heq; by apply list_elem_of_fmap_2).
      destruct (listens_to s x); simpl; [rewrite bool_decide_false by done|]; by apply IH.
  - intros method params. simpl. unfold request. assert (bool_decide (s ∈ aborted (signal_aborts s c).1) = true) as ->; [|done].
    apply bool_decide_eq_true. rewrite signal_aborts_finish by done. simpl. rewrite finish_mark. by left.
Qed.

End Client.

(** ** Witnesses and boundary cases *)

Definition ask (signal : option positive) : Event := Call "tools/call" VNull signal.

Definition answer (id : Z) (v : value) : Event :=
  Receives {| msg_id := Some (IdNumber id); msg_method := None; msg_result := v; msg_error := None |}.

Lemma every_request_settles_witness :
  settled (run "s" 30000 initial ([ask None; ask (Some 1%positive)] ++ [SignalAborts 1%positive] ++ [TimerFires 1] ++ [])) 1.
Proof. apply every_request_settles. by vm_compute. Defined.

Lemma answers_reach_their_request_witness :
  exists r, r ∈ pendingRequests (run "s" 30000 initial [ask None; ask None]) /\ rq_id r = 2 /\
  caused_by "s" 30000 (run "s" 30000 initial [ask None; ask None]) (answer 2 VNull) r (inl VNull).
Proof.
  destruct (answers_reach_their_request "s" 30000 [ask None; ask None] (answer 2 VNull) 2 (inl VNull)) as (r & Hr & Hid & [H|H]);
    [by vm_compute..| |].
  - exists r. split; [exact Hr|]. split; [exact Hid|exact H].
  - exfalso. destruct H as (m & [= <-] & _ & [x Hx] & _). discriminate Hx.
Defined.

Lemma abort_cancels_its_requests_witness :
  (step "s" 30000 (run "s" 30000 initial [ask (Some 1%positive); ask None; ask (Some 1%positive)]) (SignalAborts 1%positive)).2 =
  [Sends (cancelled 1); Sends (cancelled 3)].
Proof.
  destruct (abort_cancels_its_requests "s" 30000 [ask (Some 1%positive); ask None; ask (Some 1%positive)] 1%positive) as [H _];
    [by apply not_elem_of_nil|exact H].
Defined.

(** A request of the server is taken for an answer: its id settles the client's own
    request of that number, with no result. *)
Example server_request_settles_a_client_request :
  promise (run "s" 30000 initial
    [ask None; Receives {| msg_id := Some (IdNumber 1); msg_method := Some "ping"; msg_result := VUndef; msg_error := None |}]) 1 =
  Some (Some (inl VUndef)).
Proof. by vm_compute. Qed.

(** An answer after the timeout changes nothing. *)
Example late_answer_is_ignored :
  promise (run "s" 30000 initial [ask None; TimerFires 1; answer 1 VNull]) 1 = Some (Some (inr (McpTimeoutError "s" "tools/call" 30000))).
Proof. by vm_compute. Qed.

End McpClient.
