(* ===== verification/McpTransport.v ===== *)
(** * Transports of the MCP client (packages/mcp/src/transports)

    The framing of messages on the output of a process (one line each) and on a stream
    of server-sent events (one block each), and the state the two transports keep
    between what they are called with and what the runtime reports.  Spawning, writing
    and HTTP are effects. *)

From Stdlib Require Import Ascii.
From S2P Require Export McpClient JsonText Schema SchemaSound.

#[local] Open Scope string_scope.
#[local] Open Scope list_scope.
#[local] Open Scope Z_scope.

Module McpTransport.

Import McpTypes Schema SchemaTotal JsonText.

(** [pieces.pop()] *)
Definition popped {A} (l : list (list A)) : list (list A) * list A := (removelast l, List.last l []).

(** ** Lines (stdio.transport.ts) *)

(** What is parsed of a line; a line that is no JSON is ignored. *)
Definition parse_line (line : list ascii) : option value :=
  let trimmed := trim (of_chars line) in
  if truthy trimmed then json_parse trimmed else None.

(** [handleStdoutData]: the buffer kept, and the messages given to the handler. *)
Definition handleStdoutData (messageBuffer : list ascii) (chunk : list ascii) : list ascii * list value :=
  let '(lines, rest) := popped (split_on newline (messageBuffer ++ chunk) []) in
  (rest, filter_map parse_line lines).

(** What a framing does with chunks that come one after the other. *)
Fixpoint feed {B M} (f : B -> list ascii -> B * list M) (buffer : B) (chunks : list (list ascii)) : B * list M :=
  match chunks with
  | [] => (buffer, [])
  | c :: rest =>
      let '(b1, out1) := f buffer c in
      let '(b2, out2) := feed f b1 rest in
      (b2, out1 ++ out2)
  end.

(** ** Events (sse.transport.ts) *)

(** [s.split('\n\n')] *)
Fixpoint split_blocks (l cur : list ascii) : list (list ascii) :=
  match l with
  | [] => [rev cur]
  | c :: l' =>
      if bool_decide (c = newline) then
        match l' with
        | d :: l'' => if bool_decide (d = newline) then rev cur :: split_blocks l'' [] else split_blocks l' (c :: cur)
        | [] => split_blocks l' (c :: cur)
        end
      else split_blocks l' (c :: cur)
  end.

Inductive SseEvent : Type := SseEndpoint (url : string) | SseMessage (v : value).

Definition slice_from (n : nat) (l : list ascii) : string := trim (of_chars (drop n l)).

(** The fields of a block, read line by line. *)
Definition read_line (acc : string * string) (line : list ascii) : string * string :=
  let '(eventType, data) := acc in
  if starts_with "event:" (of_chars line) then (slice_from 6 line, data)
  else if starts_with "data:" (of_chars line) then (eventType, data +:+ slice_from 5 line)
  else (eventType, data).

Section Sse.
Context (resolve_url : string -> option string).

(** [handleSseEvent]; [resolve_url] is [new URL(data, baseUrl).toString()], which may
    throw. *)
Definition handleSseEvent (eventBlock : list ascii) : option SseEvent :=
  let '(eventType, data) := fold_left read_line (split_on newline eventBlock []) ("message", EmptyString) in
  if bool_decide (eventType = "endpoint") then Some (SseEndpoint (default data (resolve_url data)))
  else if truthy data then SseMessage <$> json_parse data else None.

Definition handleSseData (sseBuffer : list ascii) (chunk : list ascii) : list ascii * list SseEvent :=
  let '(events, rest) := popped (split_blocks (sseBuffer ++ chunk) []) in
  (rest, filter_map handleSseEvent events).

End Sse.

(** ** The state of the process transport *)

(** [running]: there is a process; [killed]: it was sent a signal. *)
Record StdioTransport : Type := { running : bool; killed : bool; messageBuffer : list ascii; stdio_closing : bool }.

Definition stdio_start : StdioTransport := {| running := false; killed := false; messageBuffer := []; stdio_closing := false |}.

(** What the transport is called with, and what the runtime reports. *)
Inductive StdioEvent : Type :=
| StdioConnect (spawned : option string)
| StdioData (chunk : list ascii)
| StdioProcessError (message : string)
| StdioExit
| StdioClose.

(** What reaches the client's handlers. *)
Inductive Report : Type := Delivers (v : value) | ReportsError (e : McpError) | ReportsClose | ConnectFails (e : McpError).

Definition stdio_step (serverName command : string) (t : StdioTransport) (e : StdioEvent) : StdioTransport * list Report :=
  match e with
  | StdioConnect spawned =>
      if running t then (t, [])
      else match spawned with
      | Some failure =>
          (t, [ConnectFails (McpConnectionError serverName ("Failed to spawn process " +:+ in_quotes command +:+ ": " +:+ failure))])
      | None => ({| running := true; killed := false; messageBuffer := messageBuffer t; stdio_closing := stdio_closing t |}, [])
      end
  | StdioData chunk =>
      let '(b, out) := handleStdoutData (messageBuffer t) chunk in
      ({| running := running t; killed := killed t; messageBuffer := b; stdio_closing := stdio_closing t |}, map Delivers out)
  | StdioProcessError message =>
      (t, if stdio_closing t then [] else [ReportsError (McpConnectionError serverName ("Process error: " +:+ message))])
  | StdioExit =>
      ({| running := false; killed := false; messageBuffer := messageBuffer t; stdio_closing := stdio_closing t |},
       if stdio_closing t then [] else [ReportsClose])
  | StdioClose => ({| running := running t; killed := running t; messageBuffer := messageBuffer t; stdio_closing := true |}, [])
  end.

(** [send], up to the write; a message is a line of JSON. *)
Definition stdio_send (serverName : string) (t : StdioTransport) (message : value) : McpError + string :=
  if running t && negb (killed t) then inr (json message +:+ nl)
  else inl (McpConnectionError serverName "Cannot send message: stdio process is not running or connected.").

(** [processEnv]: the four variables of the parent's environment, then the configured ones. *)
Definition inherited : list string := ["PATH"; "HOME"; "USER"; "NODE_ENV"].

Definition processEnv (parent : obj) (configured : obj) : obj :=
  fold_left (fun o f => obj_set o f.1 f.2) configured
    (map (fun k => (k, default VUndef (obj_get parent k))) inherited).

(** ** The state of the event-stream transport *)

Record SseTransport : Type := { requested : bool; postEndpointUrl : option string; sse_closing : bool; sseBuffer : list ascii }.

Definition sse_start : SseTransport := {| requested := false; postEndpointUrl := None; sse_closing := false; sseBuffer := [] |}.

(** A connection opens a stream with a buffer of its own; [connect] is done once the
    response's headers are there. *)
Inductive SseInput : Type := SseConnect | SseHeaders (status : Z) (status_message : string) | SseData (chunk : list ascii)
| SseRequestError (message : string) | SseEnd | SseClose.

Inductive SseReport : Type := SseDelivers (v : value) | SseReportsError (e : McpError) | SseReportsClose | SseConnected.

Definition on_event (p : SseTransport * list SseReport) (e : SseEvent) : SseTransport * list SseReport :=
  let '(t, out) := p in
  match e with
  | SseEndpoint url =>
      ({| requested := requested t; postEndpointUrl := Some url; sse_closing := sse_closing t; sseBuffer := sseBuffer t |}, out)
  | SseMessage v => (t, out ++ [SseDelivers v])
  end.

Definition sse_step (serverName : string) (resolve_url : string -> option string) (t : SseTransport) (i : SseInput)
    : SseTransport * list SseReport :=
  match i with
  | SseConnect =>
      if requested t then (t, [SseConnected])
      else ({| requested := true; postEndpointUrl := postEndpointUrl t; sse_closing := sse_closing t; sseBuffer := [] |}, [])
  | SseHeaders status message =>
      if negb (status =? 0) && ((status <? 200) || (300 <=? status)) then
        (t, [SseReportsError (McpConnectionError serverName
               ("SSE connection rejected with status code " +:+ Z_to_string status +:+ " " +:+ message))])
      else (t, [SseConnected])
  | SseData chunk =>
      let '(b, events) := handleSseData resolve_url (sseBuffer t) chunk in
      fold_left on_event events
        ({| requested := requested t; postEndpointUrl := postEndpointUrl t; sse_closing := sse_closing t; sseBuffer := b |}, [])
  | SseRequestError message => (t, [SseReportsError (McpConnectionError serverName ("SSE request failed: " +:+ message))])
  | SseEnd => (t, if sse_closing t then [] else [SseReportsClose])
  | SseClose => ({| requested := false; postEndpointUrl := postEndpointUrl t; sse_closing := true; sseBuffer := sseBuffer t |}, [])
  end.

(** [send], up to the POST: where the message goes and its text. *)
Definition sse_send (serverName : string) (t : SseTransport) (message : value) : McpError + (string * string) :=
  match postEndpointUrl t with
  | Some url => inr (url, json message)
  | None => inl (McpConnectionError serverName "Cannot send message: SSE endpoint has not been established yet.")
  end.

(** ** Framing does not depend on the chunks *)

Lemma split_on_grow sep a b cur :
  split_on sep (a ++ b) cur = removelast (split_on sep a cur) ++ split_on sep b (rev (List.last (split_on sep a cur) [])).
Proof.
  revert cur. induction a as [|c a IH]; intros cur; simpl; [by rewrite rev_involutive|].
  case_bool_decide; [|apply IH]. rewrite IH. by destruct (split_on sep a []) eqn:Hs; [apply split_on_nonempty in Hs|].
Qed.

Definition lacks (sep : ascii) (l : list ascii) : Prop := Forall (fun c => c <> sep) l.

Lemma split_on_lacking sep p b cur : lacks sep p -> split_on sep (p ++ b) cur = split_on sep b (rev p ++ cur).
Proof.
  intros Hp. revert cur. induction Hp as [|c p Hc _ IH]; intros cur; [done|]. simpl. rewrite bool_decide_false by done.
  rewrite IH. by rewrite <- app_assoc.
Qed.

Lemma last_lacks sep l cur : lacks sep cur -> lacks sep (List.last (split_on sep l cur) []).
Proof.
  revert cur. induction l as [|c l IH]; intros cur Hc; simpl; [by apply Forall_rev|]. case_bool_decide as Hs.
  - pose proof (IH [] (Forall_nil_2 _)) as H. by destruct (split_on sep l []) eqn:Hl; [apply split_on_nonempty in Hl|].
  - apply IH. by constructor.
Qed.

Lemma last_app_ne {A} (l1 l2 : list A) d : l2 <> [] -> List.last (l1 ++ l2) d = List.last l2 d.
Proof.
  intros H. induction l1 as [|x l1 IH]; [done|]. simpl. rewrite IH. destruct (l1 ++ l2) eqn:He; [|done].
  apply app_eq_nil in He as [_ ->]. done.
Qed.

Lemma filter_map_removelast {A B} (f : A -> option B) (l1 l2 : list A) : l2 <> [] ->
  filter_map f (removelast (l1 ++ l2)) = filter_map f l1 ++ filter_map f (removelast l2).
Proof. intros H. by rewrite removelast_app, filter_map_app. Qed.

(** What is kept of a buffer is less than a line. *)
Lemma kept_is_partial b chunk : lacks newline (handleStdoutData b chunk).1.
Proof. unfold handleStdoutData. simpl. apply last_lacks. constructor. Qed.

Lemma stdout_grow b c1 c2 : lacks newline b ->
  handleStdoutData b (c1 ++ c2) =
  (let '(b1, out1) := handleStdoutData b c1 in let '(b2, out2) := handleStdoutData b1 c2 in (b2, out1 ++ out2)).
Proof.
  intros Hb. unfold handleStdoutData, popped. rewrite app_assoc, split_on_grow.
  set (pieces := split_on newline (b ++ c1) []).
  rewrite split_on_lacking by (apply last_lacks; constructor). rewrite app_nil_r.
  assert (split_on newline c2 (rev (List.last pieces [])) <> []) as Hne by apply split_on_nonempty. f_equal.
  - by rewrite last_app_ne.
  - by rewrite filter_map_removelast.
Qed.

Section Feed.
Context {B M : Type} (f : B -> list ascii -> B * list M) (P : B -> Prop).
Context (Hkeep : forall b c, P b -> P (f b c).1) (Hnil : forall b, P b -> f b [] = (b, [])).
Context (Hgrow : forall b c1 c2, P b ->
  f b (c1 ++ c2) = (let '(b1, out1) := f b c1 in let '(b2, out2) := f b1 c2 in (b2, out1 ++ out2))).

(** Chunks are worth their text. *)
Lemma feed_joined chunks b : P b -> feed f b chunks = f b (concat chunks).
Proof using All.
  revert b. induction chunks as [|c chunks IH]; intros b Hb; simpl; [by rewrite Hnil|].
  rewrite Hgrow by done. pose proof (Hkeep b c Hb) as H1. destruct (f b c) as [b1 out1]. by rewrite IH.
Qed.
End Feed.

Lemma stdout_joined chunks b : lacks newline b -> feed handleStdoutData b chunks = handleStdoutData b (concat chunks).
Proof.
  apply feed_joined.
  - intros b' c _. apply kept_is_partial.
  - intros b' H. unfold handleStdoutData, popped. rewrite split_on_lacking by done. simpl. by rewrite app_nil_r, rev_involutive.
  - intros b' c1 c2. apply stdout_grow.
Qed.

(** A message as a server writes it. *)
Definition line_of (v : value) : list ascii := text v ++ [newline].

Lemma parse_line_text v : serial v -> parse_line (text v) = Some v.
Proof.
  intros Hv. unfold parse_line, text. rewrite String.string_of_list_ascii_of_string, text_tight, parse_stringify by done.
  assert (truthy (json v) = true) as ->; [|done]. destruct (text_head v Hv) as (c & l & Ht & _).
  unfold text in Ht. unfold truthy. by destruct (json v).
Qed.

Lemma split_line v rest : serial v -> split_on newline (line_of v ++ rest) [] = text v :: split_on newline rest [].
Proof.
  intros Hv. unfold line_of. rewrite <- app_assoc, split_on_lacking by (by apply text_line). rewrite app_nil_r.
  cbn [app split_on]. by rewrite bool_decide_true, rev_involutive.
Qed.

Lemma handle_lines vs : forallb serial vs -> handleStdoutData [] (concat (map line_of vs)) = ([], vs).
Proof.
  induction vs as [|v vs IH]; [done|]. intros [Hv Hvs]%andb_True. specialize (IH Hvs).
  unfold handleStdoutData, popped in *. rewrite app_nil_l in *. simpl map. simpl concat. rewrite split_line by done.
  pose proof (split_on_nonempty newline (concat (map line_of vs)) []) as Hne.
  destruct (split_on newline (concat (map line_of vs)) []) as [|x l] eqn:Hs; [done|].
  injection IH as Hlast Hout. change (removelast (text v :: x :: l)) with (text v :: removelast (x :: l)).
  change (List.last (text v :: x :: l) []) with (List.last (x :: l) (@nil ascii)). cbn [filter_map]. rewrite parse_line_text by done.
  unfold removelast in Hout |- *. simpl in Hlast |- *. by rewrite Hout, Hlast.
Qed.

(** C21. What a server writes line by line is received message by message, however the
    runtime cuts the text into chunks, and nothing is left in the buffer. *)
Theorem stdout_messages_arrive vs chunks : forallb serial vs -> concat chunks = concat (map line_of vs) ->
  feed handleStdoutData [] chunks = ([], vs).
Proof. intros Hv Hc. rewrite stdout_joined by constructor. rewrite Hc. by apply handle_lines. Qed.

(** *** Blocks *)

(** Text kept of a block that has no end yet (in reverse). *)
Inductive open_block : list ascii -> Prop :=
| open_nil : open_block []
| open_char c cur : open_block cur -> c <> newline -> open_block (c :: cur)
| open_line d cur : open_block cur -> d <> newline -> open_block (d :: newline :: cur).

Lemma blocks_char c x cur : c <> newline -> split_blocks (c :: x) cur = split_blocks x (c :: cur).
Proof. intros H. simpl. by rewrite bool_decide_false. Qed.

Lemma blocks_line d x cur : d <> newline -> split_blocks (newline :: d :: x) cur = split_blocks x (d :: newline :: cur).
Proof. intros H. simpl. by rewrite (bool_decide_false (d = newline)). Qed.

Lemma blocks_end x cur : split_blocks (newline :: newline :: x) cur = rev cur :: split_blocks x [].
Proof. done. Qed.

Lemma blocks_open cur x : open_block cur -> split_blocks (rev cur ++ x) [] = split_blocks x cur.
Proof.
  intros H. revert x. induction H as [|c cur H IH Hc|d cur H IH Hd]; intros x; [done| |]; simpl rev; rewrite <- ?app_assoc; cbn [app].
  - by rewrite IH, blocks_char.
  - by rewrite IH, blocks_line.
Qed.

Lemma blocks_nonempty l cur : split_blocks l cur <> [].
Proof.
  remember (length l) as n eqn:Hn. assert (length l <= n)%nat as Hle by lia. clear Hn. revert l cur Hle.
  induction n as [|n IH]; intros [|c l] cur Hle; simpl in *; try done; try lia.
  case_bool_decide; [|apply IH; lia]. destruct l as [|d l]; [done|]. case_bool_decide; [done|]. apply IH. simpl in *. lia.
Qed.

Lemma blocks_grow n a b cur : (length a <= n)%nat -> open_block cur ->
  split_blocks (a ++ b) cur = removelast (split_blocks a cur) ++ split_blocks (List.last (split_blocks a cur) [] ++ b) [].
Proof.
  revert a cur. induction n as [|n IH]; intros a cur Hle Hcur; (destruct a as [|c a]; [simpl; by rewrite blocks_open|]); simpl in Hle; [lia|].
  destruct (decide (c = newline)) as [->|Hc].
  - destruct a as [|d a].
    + cbn [app]. change (split_blocks [newline] cur) with [rev (newline :: cur)]. cbn [removelast List.last app rev].
      rewrite <- app_assoc. by rewrite blocks_open.
    + destruct (decide (d = newline)) as [->|Hd].
      * cbn [app]. rewrite !blocks_end. rewrite (IH a []) by (simpl in Hle; lia || constructor).
        destruct (split_blocks a []) eqn:Hs; [by apply blocks_nonempty in Hs|]. done.
      * cbn [app]. rewrite !blocks_line by done. apply IH; [simpl in Hle; lia|by constructor].
  - cbn [app]. rewrite !blocks_char by done. apply IH; [lia|by constructor].
Qed.

Definition partial_block (b : list ascii) : Prop := split_blocks b [] = [b].

Lemma last_partial l : partial_block (List.last (split_blocks l []) []).
Proof.
  unfold partial_block. pose proof (blocks_grow (length l) l [] [] ltac:(lia) open_nil) as H. rewrite !app_nil_r in H.
  rewrite (app_removelast_last (l := split_blocks l []) []) in H at 1 by apply blocks_nonempty. by apply app_inv_head in H.
Qed.

Lemma sse_joined resolve_url chunks b : partial_block b ->
  feed (handleSseData resolve_url) b chunks = handleSseData resolve_url b (concat chunks).
Proof.
  apply feed_joined.
  - intros b' c _. unfold handleSseData. simpl. apply last_partial.
  - intros b' H. unfold handleSseData, popped. rewrite app_nil_r, H. done.
  - intros b' c1 c2 _. unfold handleSseData, popped. rewrite app_assoc, (blocks_grow (length (b' ++ c1))) by (lia || constructor).
    set (pieces := split_blocks (b' ++ c1) []).
    pose proof (blocks_nonempty (List.last pieces [] ++ c2) []) as Hne. f_equal.
    + by rewrite last_app_ne.
    + by rewrite filter_map_removelast.
Qed.

(** An event as a server writes it. *)
Definition frame_text (e : SseEvent) : list ascii :=
  match e with
  | SseMessage v => chars "data: " ++ text v ++ [newline; newline]
  | SseEndpoint url => chars "event: endpoint" ++ newline :: chars "data: " ++ chars url ++ [newline; newline]
  end.

(** Messages are JSON values, an endpoint is one line without space around it. *)
Definition well_framed (resolve_url : string -> option string) (e : SseEvent) : Prop :=
  match e with
  | SseMessage v => serial v
  | SseEndpoint url => lacks newline (chars url) /\ trim url = url /\ resolve_url url = Some url
  end.

Lemma blocks_lacking p rest cur : lacks newline p -> split_blocks (p ++ newline :: newline :: rest) cur = (rev cur ++ p) :: split_blocks rest [].
Proof.
  intros Hp. revert cur. induction Hp as [|c p Hc _ IH]; intros cur; [by rewrite app_nil_r|]. cbn [app].
  rewrite blocks_char, IH by done. simpl. by rewrite <- app_assoc.
Qed.

Lemma blocks_two_lines p d q rest : lacks newline p -> d <> newline -> lacks newline q ->
  split_blocks (p ++ newline :: d :: q ++ newline :: newline :: rest) [] = (p ++ newline :: d :: q) :: split_blocks rest [].
Proof.
  intros Hp Hd Hq. assert (forall cur, split_blocks (p ++ newline :: d :: q ++ newline :: newline :: rest) cur =
    (rev cur ++ p ++ newline :: d :: q) :: split_blocks rest []) as H; [|apply H].
  induction Hp as [|c p Hc _ IH]; intros cur; cbn [app].
  - rewrite blocks_line, blocks_lacking by done. simpl. by rewrite <- !app_assoc.
  - rewrite blocks_char, IH by done. simpl. by rewrite <- app_assoc.
Qed.

Lemma trim_space s : trim (String " " s) = trim s.
Proof. done. Qed.

Lemma data_line s : slice_from 5 (chars "data: " ++ chars s) = trim s.
Proof. unfold slice_from. change (drop 5 (chars "data: " ++ chars s)) with (" "%char :: chars s). simpl of_chars. by rewrite String.string_of_list_ascii_of_string. Qed.

Lemma read_data t d s : read_line (t, d) (chars "data: " ++ chars s) = (t, d +:+ trim s).
Proof. unfold read_line. simpl (starts_with _ _). by rewrite data_line. Qed.

Lemma lacks_data l : lacks newline l -> lacks newline (chars "data: " ++ l).
Proof. intros H. apply Forall_app. split; [by repeat constructor|done]. Qed.

Lemma event_of_frame resolve_url e rest : well_framed resolve_url e ->
  exists block, split_blocks (frame_text e ++ rest) [] = block :: split_blocks rest [] /\ handleSseEvent resolve_url block = Some e.
Proof.
  intros He. destruct e as [url|v]; simpl in He.
  - destruct He as (Hl & Ht & Hr). exists (chars "event: endpoint" ++ newline :: chars "data: " ++ chars url). split.
    + unfold frame_text. rewrite <- !app_assoc, <- app_comm_cons, <- !app_assoc.
      apply (blocks_two_lines (chars "event: endpoint") "d" (chars "ata: " ++ chars url) rest); [by repeat constructor|done|].
      apply Forall_app. split; [by repeat constructor|done].
    + unfold handleSseEvent. rewrite split_on_lacking by (by repeat constructor). rewrite app_nil_r.
      cbn [split_on]. rewrite bool_decide_true, rev_involutive by done.
      rewrite <- (app_nil_r (chars "data: " ++ chars url)), split_on_lacking by (by apply lacks_data).
      rewrite app_nil_r. cbn [split_on]. rewrite rev_involutive. cbn [fold_left].
      change (read_line ("message", EmptyString) (chars "event: endpoint")) with ("endpoint", EmptyString).
      rewrite read_data, Ht. change (EmptyString +:+ url) with url. rewrite bool_decide_true by done. by rewrite Hr.
  - exists (chars "data: " ++ text v). split.
    + unfold frame_text. rewrite <- !app_assoc. cbn [app]. rewrite (app_assoc (chars "data: ")).
      apply (blocks_lacking (chars "data: " ++ text v) rest []). by apply lacks_data, text_line.
    + unfold handleSseEvent. rewrite <- (app_nil_r (chars "data: " ++ text v)), split_on_lacking by (by apply lacks_data, text_line).
      rewrite app_nil_r. cbn [split_on]. rewrite rev_involutive. cbn [fold_left]. unfold text. rewrite read_data, text_tight by done.
      rewrite bool_decide_false by done. change (EmptyString +:+ json v) with (json v). rewrite parse_stringify by done.
      assert (truthy (json v) = true) as ->; [|done]. destruct (text_head v He) as (c & l & Hh & _).
      unfold text in Hh. unfold truthy. by destruct (json v).
Qed.

(** The events of a stream arrive in order, however the text is cut into chunks. *)
Theorem stream_events_arrive resolve_url es chunks : Forall (well_framed resolve_url) es ->
  concat chunks = concat (map frame_text es) -> feed (handleSseData resolve_url) [] chunks = ([], es).
Proof.
  intros He Hc. rewrite sse_joined by done. rewrite Hc. clear Hc.
  assert (popped (split_blocks (concat (map frame_text es)) []) = (removelast (split_blocks (concat (map frame_text es)) []), []) /\
    filter_map (handleSseEvent resolve_url) (removelast (split_blocks (concat (map frame_text es)) [])) = es) as [H1 H2].
  { induction He as [|e es He _ [IH1 IH2]]; [done|]. simpl map. simpl concat.
    destruct (event_of_frame resolve_url e (concat (map frame_text es)) He) as (block & -> & Hb).
    pose proof (blocks_nonempty (concat (map frame_text es)) []) as Hne.
    destruct (split_blocks (concat (map frame_text es)) []) as [|x l] eqn:Hs; [done|].
    injection IH1 as Hlast. split.
    - unfold popped. f_equal. exact Hlast.
    - change (removelast (block :: x :: l)) with (block :: removelast (x :: l)). cbn [filter_map]. by rewrite Hb, IH2. }
  unfold handleSseData. rewrite app_nil_l, H1. by rewrite H2.
Qed.

(** ** The process *)

Definition stdio_run (serverName command : string) (t : StdioTransport) (es : list StdioEvent) : StdioTransport * list Report :=
  fold_left (fun p e => let '(t', out) := stdio_step serverName command p.1 e in (t', p.2 ++ out)) es (t, []).

Lemma spread_keys configured o k :
  k ∈ obj_keys (fold_left (fun o f => obj_set o f.1 f.2) configured o) -> k ∈ obj_keys o \/ k ∈ obj_keys configured.
Proof.
  assert (forall o k' v x, x ∈ obj_keys (obj_set o k' v) -> x = k' \/ x ∈ obj_keys o) as Hset.
  { clear. intros o k' v x. unfold obj_keys. induction o as [|[k0 v0] o IH]; simpl; [set_solver|]. case_bool_decide; simpl; [set_solver|].
    rewrite !elem_of_cons. naive_solver. }
  revert o. induction configured as [|[k' v] conf IH]; intros o; cbn [fold_left]; [by left|].
  intros [[->|H]%Hset|H]%IH; [right; by left|by left|right; by right].
Qed.

(** The child sees four variables of the parent's environment and what is configured
    for it; nothing else of the environment is passed on. *)
Theorem environment_is_narrow parent configured k : k ∈ obj_keys (processEnv parent configured) ->
  k ∈ inherited \/ k ∈ obj_keys configured.
Proof.
  intros [H|H]%spread_keys; [left|by right]. unfold obj_keys in H. rewrite map_map in H. exact H.
Qed.

Lemma closing_stays serverName command es t out : stdio_closing t = true ->
  stdio_closing (fold_left (fun p e => let '(t', o) := stdio_step serverName command p.1 e in (t', p.2 ++ o)) es (t, out)).1 = true.
Proof.
  revert t out. induction es as [|e es IH]; intros t out H; [done|]. cbn [fold_left fst snd].
  destruct (stdio_step serverName command t e) as [t' o] eqn:Hs. apply IH.
  destruct e as [[f|]|c|m| |]; simpl in Hs; try (by simplify_eq); destruct (running t); simplify_eq; simpl; try done;
    by destruct (handleStdoutData (messageBuffer t) c); simplify_eq.
Qed.

(** After [close] the end of the process and its errors are no longer reported, also
    those of a process that is started again afterwards. *)
Theorem closed_process_is_silent serverName command t es r :
  r ∈ (stdio_run serverName command (stdio_step serverName command t StdioClose).1 es).2 ->
  match r with ReportsError _ | ReportsClose => False | _ => True end.
Proof.
  unfold stdio_run. assert (forall es t out, stdio_closing t = true ->
    Forall (fun r => match r with ReportsError _ | ReportsClose => False | _ => True end) out ->
    Forall (fun r => match r with ReportsError _ | ReportsClose => False | _ => True end)
      (fold_left (fun p e => let '(t', o) := stdio_step serverName command p.1 e in (t', p.2 ++ o)) es (t, out)).2) as H.
  { clear. induction es as [|e es IH]; intros t out Ht Ho; [done|]. cbn [fold_left fst snd].
    destruct (stdio_step serverName command t e) as [t' o] eqn:Hs. apply IH.
    - pose proof (closing_stays serverName command [e] t [] Ht) as Hc. cbn [fold_left fst snd] in Hc. by rewrite Hs in Hc.
    - apply Forall_app. split; [done|]. destruct e as [[f|]|c|m| |]; simpl in Hs; rewrite ?Ht in Hs.
      1,2: by destruct (running t); simplify_eq; repeat constructor.
      + destruct (handleStdoutData (messageBuffer t) c) as [b vs]. simplify_eq. apply Forall_map. by apply Forall_true.
      + by simplify_eq.
      + by simplify_eq.
      + by simplify_eq. }
  intros Hr. specialize (H es (stdio_step serverName command t StdioClose).1 [] eq_refl (Forall_nil_2 _)).
  rewrite Forall_forall in H. by apply H.
Qed.

(** ** Witnesses and boundary cases *)

Definition two_messages : list value :=
  [VObj [("jsonrpc", VStr "2.0"); ("id", VNum (num_of_Z 1)); ("result", VObj [("text", VStr ("two" +:+ nl +:+ "lines"))])];
   VObj [("jsonrpc", VStr "2.0"); ("method", VStr "notifications/tools/list_changed")]].

(** The text in three chunks, cut inside the messages. *)
Definition cut_text (l : list ascii) : list (list ascii) := [take 11 l; take 70 (drop 11 l); drop 70 (drop 11 l)].

Lemma stdout_messages_arrive_witness :
  feed handleStdoutData [] (cut_text (concat (map line_of two_messages))) = ([], two_messages).
Proof. apply stdout_messages_arrive; [by vm_compute|]. unfold cut_text. cbn [concat]. by rewrite app_nil_r, !take_drop. Defined.

Definition a_stream : list SseEvent := SseEndpoint "/messages?session=1" :: map SseMessage two_messages.

Lemma stream_events_arrive_witness :
  feed (handleSseData Some) [] (cut_text (concat (map frame_text a_stream))) = ([], a_stream).
Proof.
  apply stream_events_arrive; [|unfold cut_text; cbn [concat]; by rewrite app_nil_r, !take_drop].
  repeat constructor; by vm_compute.
Defined.

Lemma environment_is_narrow_witness :
  obj_keys (processEnv [("PATH", VStr "/bin"); ("API_KEY", VStr "secret")] [("TOKEN", VStr "t")]) = inherited ++ ["TOKEN"] /\
  ("TOKEN" ∈ inherited \/ "TOKEN" ∈ obj_keys [("TOKEN", VStr "t")]).
Proof. split; [by vm_compute|]. apply (environment_is_narrow [("PATH", VStr "/bin"); ("API_KEY", VStr "secret")]). apply bool_decide_unpack with (dec := decide _). by vm_compute. Defined.

Lemma closed_process_is_silent_witness :
  match Delivers VNull with ReportsError _ | ReportsClose => False | _ => True end.
Proof.
  apply (closed_process_is_silent "s" "npx" stdio_start [StdioConnect None; StdioData (chars "null" ++ [newline]); StdioExit]).
  vm_compute. by left.
Defined.

(** A restarted process that exits is not reported, so requests sent to it wait for
    their timeout; and its first line is read after what its predecessor left. *)
Example restarted_process_is_not_watched :
  (stdio_run "s" "npx" stdio_start [StdioConnect None; StdioClose; StdioExit; StdioConnect None; StdioExit]).2 = [] /\
  (stdio_run "s" "npx" stdio_start [StdioConnect None; StdioData (chars "{"); StdioExit; StdioConnect None; StdioData (chars "null" ++ [newline])]).2 =
  [ReportsClose].
Proof. by vm_compute. Qed.

(** The stream is connected before the endpoint is announced, and a message sent then
    is refused. *)
Example connected_without_endpoint :
  let t := (sse_step "s" Some (sse_step "s" Some sse_start SseConnect).1 (SseHeaders 200 "OK")) in
  t.2 = [SseConnected] /\ sse_send "s" t.1 VNull = inl (McpConnectionError "s" "Cannot send message: SSE endpoint has not been established yet.").
Proof. done. Qed.

(** After the server ended the stream, connecting again does nothing. *)
Example ended_stream_is_not_reopened :
  let t := fold_left (fun t i => (sse_step "s" Some t i).1) [SseConnect; SseHeaders 200 "OK"; SseEnd] sse_start in
  sse_step "s" Some t SseConnect = (t, [SseConnected]).
Proof. done. Qed.

(** Blocks that are separated by carriage returns too are never complete. *)
Example crlf_is_not_framed :
  (handleSseData Some [] (chars "data: 1" ++ ["013"%char; newline; "013"%char; newline])).2 = [].
Proof. by vm_compute. Qed.

End McpTransport.
