(* ===== verification/McpTools.v ===== *)
(** * Remote tools (packages/mcp/src/utils/schema-converter.ts,
      packages/mcp/src/client/mcp-client.ts, packages/mcp/src/provider,
      packages/mcp/src/mcp.service.ts)

    The handshake and the calls of the MCP client, the conversion of a server's tool
    schemas, the check of arguments before a call, and the provider that puts policies
    in front of the tools of a server.  The messaging of McpClient.v is behind [rpc]:
    an arbitrary function of the session and the world, as between a request and its
    answer notifications may come and the connection may end. *)

From S2P Require Export McpClient ToolArgs LocalTool Executor Collections.

#[local] Open Scope string_scope.
#[local] Open Scope list_scope.
#[local] Open Scope Z_scope.
#[local] Open Scope eff_scope.

Module McpTools.

Import McpTypes.

(** ** Schemas (utils/schema-converter.ts) *)

Definition framework_type (rawType : string) : ParamType :=
  if bool_decide (rawType = "number") || bool_decide (rawType = "integer") then PNumber
  else if bool_decide (rawType = "boolean") then PBoolean
  else if bool_decide (rawType = "object") then PObject
  else if bool_decide (rawType = "array") then PArray
  else PString.

Definition raw_type (prop : JsonSchemaProperty) : string := default "string" (prop_type prop).

Definition to_param (required : list string) (p : string * JsonSchemaProperty) : ToolParamSchema := {|
  param_name := p.1; param_description := prop_description p.2; param_type := framework_type (raw_type p.2);
  param_required := bool_decide (p.1 ∈ required) |}.

Definition mcpSchemaToToolParams (inputSchema : option ToolInputSchema) : list ToolParamSchema :=
  match inputSchema ≫= schema_properties with
  | None => []
  | Some props => map (to_param (default [] (inputSchema ≫= schema_required))) props
  end.

(** What every object inherits: reading such a key of a plain object yields it. *)
Definition PROTOTYPE : list string :=
  ["constructor"; "toString"; "toLocaleString"; "valueOf"; "hasOwnProperty"; "isPrototypeOf"; "propertyIsEnumerable";
   "__defineGetter__"; "__defineSetter__"; "__lookupGetter__"; "__lookupSetter__"].

(** [args[k]] *)
Definition read (args : obj) (k : string) : value :=
  match obj_get args k with
  | Some v => v
  | None => if bool_decide (k ∈ PROTOTYPE) then VFun else if bool_decide (k = "__proto__") then VObj [] else VUndef
  end.

Definition nullish (v : value) : bool := match v with VUndef | VNull => true | _ => false end.

Definition is_number (v : value) : bool := match v with VNum NNaN => false | VNum _ => true | _ => false end.

(** The case of the switch for a type: the name of what was expected when a value does
    not fit. *)
Definition misfit (expectedType : string) (v : value) : option string :=
  if bool_decide (expectedType = "string") then match v with VStr _ => None | _ => Some "string" end
  else if bool_decide (expectedType = "number") || bool_decide (expectedType = "integer") then
    if is_number v then None else Some "number"
  else if bool_decide (expectedType = "boolean") then match v with VBool _ => None | _ => Some "boolean" end
  else if bool_decide (expectedType = "array") then match v with VArr _ => None | _ => Some "array" end
  else if bool_decide (expectedType = "object") then if ToolArgs.is_plain_object v then None else Some "object"
  else None.

Definition missing (serverName toolName : string) (args : obj) (req : string) : option McpError :=
  if nullish (read args req)
  then Some (McpValidationError serverName toolName req "defined (required parameter missing)" (read args req))
  else None.

Definition mistyped (serverName toolName : string) (args : obj) (p : string * JsonSchemaProperty) : option McpError :=
  let v := read args p.1 in
  if nullish v then None
  else match misfit (raw_type p.2) v with
  | Some expected => Some (McpValidationError serverName toolName p.1 expected v)
  | None => None
  end.

(** The first error of a loop. *)
Fixpoint first_error {A} (f : A -> option McpError) (l : list A) : option McpError :=
  match l with
  | [] => None
  | x :: l' => match f x with Some e => Some e | None => first_error f l' end
  end.

(** What it throws, if anything. *)
Definition validateGorillaPreConditions (serverName toolName : string) (schema : option ToolInputSchema) (args : obj) : option McpError :=
  match schema ≫= schema_properties with
  | None => None
  | Some props =>
      match first_error (missing serverName toolName args) (default [] (schema ≫= schema_required)) with
      | Some e => Some e
      | None => first_error (mistyped serverName toolName args) props
      end
  end.

(** ** The session (client/mcp-client.ts)

    The requests of the protocol with the types of their results. *)
Inductive Method : Type -> Type :=
| Initialize : Method value
| ToolsList : Method (option (list McpToolSchema))
| ToolsCall (name : string) (args : obj) (signal : bool) : Method CallToolResult
| Ping : Method unit.

Definition method_name {A} (m : Method A) : string :=
  match m with Initialize => "initialize" | ToolsList => "tools/list" | ToolsCall _ _ _ => "tools/call" | Ping => "ping" end.

Record Session : Type := {
  s_connected : bool;
  s_initialized : bool;
  s_tools : list McpToolSchema;
  s_serverInfo : option value;
}.

(** What goes over the transport. *)
Inductive Wire : Type := WConnect | WRequest (method : string) | WNotify (method : string).

Section Session.
Context {W : Type} (serverName : string).
Notation World := (Session * W)%type.
Context (rpc : forall A, Method A -> World -> outcome McpError A * World)
        (transport_connect : World -> outcome McpError unit * World)
        (transport_notify : string -> World -> outcome McpError unit * World).
Notation C := (M McpError Wire World).

Definition set_connected (w : World) : World :=
  ({| s_connected := true; s_initialized := s_initialized w.1; s_tools := s_tools w.1; s_serverInfo := s_serverInfo w.1 |}, w.2).
Definition set_initialized (w : World) : World :=
  ({| s_connected := s_connected w.1; s_initialized := true; s_tools := s_tools w.1; s_serverInfo := s_serverInfo w.1 |}, w.2).
Definition set_serverInfo (v : value) (w : World) : World :=
  ({| s_connected := s_connected w.1; s_initialized := s_initialized w.1; s_tools := s_tools w.1; s_serverInfo := Some v |}, w.2).
Definition set_tools (tools : list McpToolSchema) (w : World) : World :=
  ({| s_connected := s_connected w.1; s_initialized := s_initialized w.1; s_tools := tools; s_serverInfo := s_serverInfo w.1 |}, w.2).

Definition request {A} (m : Method A) : C A := emit (WRequest (method_name m)) ;; lift (rpc A m).

Definition notify (method : string) : C unit := emit (WNotify method) ;; lift (transport_notify method).

Definition connect : C unit :=
  done_ <- ask (fun w : World => s_connected w.1 && s_initialized w.1) ;;
  if done_ then ret tt
  else
    emit WConnect ;; lift transport_connect ;;
    modify set_connected ;;
    info <- request Initialize ;;
    modify (set_serverInfo info) ;;
    notify "notifications/initialized" ;;
    modify set_initialized.

Definition ensure_connected : C unit :=
  ready <- ask (fun w : World => s_initialized w.1) ;;
  if ready : bool then ret tt else connect.

Definition listTools (forceRefresh : bool) : C (list McpToolSchema) :=
  ensure_connected ;;
  cached <- ask (fun w : World => s_tools w.1) ;;
  if negb (bool_decide (length cached = 0%nat)) && negb forceRefresh then ret cached
  else
    res <- request ToolsList ;;
    modify (set_tools (default [] res)) ;;
    ask (fun w : World => s_tools w.1).

Definition block_text (b : McpContentBlock) : string :=
  match b with TextBlock t => t | OtherBlock ty _ => "[" +:+ ty +:+ " block]" end.

Definition error_text_of (content : list McpContentBlock) : string :=
  let text := Js.join nl (map block_text content) in
  if truthy text then text else "Tool execution reported error".

Definition callTool (name : string) (args : obj) (signal : bool) : C CallToolResult :=
  ensure_connected ;;
  result <- request (ToolsCall name args signal) ;;
  if result_isError result then throw (McpToolExecutionError serverName name (error_text_of (result_content result)))
  else ret result.

Definition ping : C unit := ensure_connected ;; request Ping.

(** ** The provider (provider/mcp-tool.provider.ts) *)

Definition Ext (A : Type) : Type := World -> outcome error A * World.

(** A policy; the ones without [evaluate] are passed over. *)
Definition Policy : Type := option (AgentContext -> string -> obj -> Ext LocalTool.PolicyResult).

(** The checks and the call of one execution, as they happen. *)
Inductive Step : Type := Evaluated (i : nat) (d : LocalTool.PolicyResult) | Called (name : string) (args : obj).

Notation P := (M error Step World).

Context (now : World -> Z) (random : World -> string * World).

Definition mcp_error (e : McpError) : error :=
  NativeErr match e with
            | McpConnectionError _ _ => "McpConnectionError" | McpTimeoutError _ _ _ => "McpTimeoutError"
            | McpProtocolError _ _ _ _ => "McpProtocolError" | McpToolExecutionError _ _ _ => "McpToolExecutionError"
            | McpValidationError _ _ _ _ _ => "McpValidationError" | McpToolNotFoundError _ _ => "McpToolNotFoundError"
            | McpCancelledError _ _ => "McpCancelledError" | TransportFailure _ => "Error"
            end (mcp_message e).

(** An operation of the client, whose messages are not the provider's steps. *)
Definition on_client {A} (m : C A) : Ext A := fun w =>
  match m w with
  | (Ret a, w', _) => (Ret a, w')
  | (Throw e, w', _) => (Throw (mcp_error e), w')
  | (Diverge, w', _) => (Diverge, w')
  end.

Definition texts (content : list McpContentBlock) : list string :=
  Js.filter_map (fun b => match b with TextBlock t => Some t | OtherBlock _ _ => None end) content.

Definition block_value (b : McpContentBlock) : value :=
  match b with
  | TextBlock t => VObj [("type", VStr "text"); ("text", VStr t)]
  | OtherBlock ty fields => VObj (("type", VStr ty) :: fields)
  end.

Definition output_data (content : list McpContentBlock) : value :=
  match texts content with
  | [t] => VStr t
  | [] => VArr (map block_value content)
  | ts => VStr (Js.join (nl +:+ nl) ts)
  end.

Definition denied (reason : string) : ToolExecutionResult := ToolDenied reason None.

(** [(execErr as Error).message || ...] *)
Definition failure_reason (e : error) : string :=
  let m := error_text e in if truthy m then m else "MCP tool execution failed".

(** The call of the tool with what becomes of its result. *)
Definition dispatch (name : string) (args : obj) (context : AgentContext) : P ToolExecutionResult :=
  emit (Called name args) ;;
  catch (result <- lift (on_client (callTool name args (ctx_signal context))) ;;
         ret (ToolSuccess (output_data (result_content result)) None))
        (fun e => ret (denied (failure_reason e))).

(** The loop over the policies: the refusal of the first that does not allow. *)
Fixpoint evaluate_policies (context : AgentContext) (name : string) (args : obj) (i : nat) (policies : list Policy)
    : P (option ToolExecutionResult) :=
  match policies with
  | [] => ret None
  | None :: rest => evaluate_policies context name args (S i) rest
  | Some evaluate :: rest =>
      d <- lift (evaluate context name args) ;;
      emit (Evaluated i d) ;;
      match d with
      | LocalTool.PDeny reason _ => ret (Some (denied reason))
      | LocalTool.PRequireApproval reason _ _ =>
          t <- ask now ;;
          r <- lift (fun w => let '(s, w') := random w in (Ret s, w')) ;;
          ret (Some (ToolPending reason ("mcp_appr_" +:+ Z_to_string t +:+ "_" +:+ r) None None None))
      | LocalTool.PAllow _ => evaluate_policies context name args (S i) rest
      end
  end.

Definition execute (policies : list Policy) (tool : McpToolSchema) (context : AgentContext) (args : obj) : P ToolExecutionResult :=
  match validateGorillaPreConditions serverName (tool_name tool) (tool_inputSchema tool) args with
  | Some e => ret (denied ("Pre-validation failed: " +:+ mcp_message e))
  | None =>
      refusal <- evaluate_policies context (tool_name tool) args 0 policies ;;
      match refusal with
      | Some r => ret r
      | None => dispatch (tool_name tool) args context
      end
  end.

Definition as_ext {A} (m : P A) : Ext A := fun w => let '(o, w', _) := m w in (o, w').

Definition buildResolvedTool (policies : list Policy) (context : AgentContext) (tool : McpToolSchema)
    : Executor.ResolvedTool (W := World) := {|
  Executor.tool_name := tool_name tool;
  Executor.tool_description := default ("Remote tool " +:+ in_quotes (tool_name tool) +:+ " on MCP server " +:+ in_quotes serverName)
                                       (tool_description tool);
  Executor.tool_parameters := mcpSchemaToToolParams (tool_inputSchema tool);
  Executor.tool_execute := fun args _ => as_ext (execute policies tool context args);
  Executor.tool_sanitizeErrorMessage := None |}.

Definition getTools (policies : list Policy) (context : AgentContext) : Ext (list (Executor.ResolvedTool (W := World))) :=
  fun w => match on_client (listTools false) w with
           | (Ret tools, w') => (Ret (map (buildResolvedTool policies context) tools), w')
           | (Throw e, w') => (Throw e, w')
           | (Diverge, w') => (Diverge, w')
           end.

Definition invokeApprovedTool (toolName : string) (args : obj) (context : AgentContext) : P ToolExecutionResult :=
  tools <- lift (on_client (listTools false)) ;;
  match find_first (fun t => bool_decide (tool_name t = toolName)) tools with
  | None => throw (AgenticErr (ApprovalToolNotFoundError toolName))
  | Some tool => dispatch (tool_name tool) args context
  end.

End Session.

(** ** The servers (mcp.service.ts)

    Of a server's configuration the service uses the name, the transport and the
    timeout; [server_policies] is declared, too. *)
Section Service.
Context {W : Type}.

Record McpServerConfig : Type := {
  server_name : string;
  server_timeoutMs : option Z;
  server_policies : option (list (Policy (W := W)));
}.

Record Provider : Type := { provider_server : string; provider_timeoutMs : Z; provider_policies : list (Policy (W := W)) }.

Definition provider_of (server : McpServerConfig) : Provider := {|
  provider_server := server_name server; provider_timeoutMs := default 30000 (server_timeoutMs server); provider_policies := [] |}.

Definition initializeServers (servers : list McpServerConfig) : list (string * Provider) :=
  fold_left (fun m server => js_set m (server_name server) (provider_of server)) servers [].

Definition getProvider (providers : list (string * Provider)) (serverName : string) : McpError + Provider :=
  match js_get providers serverName with
  | Some p => inr p
  | None => inl (McpToolNotFoundError serverName "*")
  end.

(** Every server is connected, whatever becomes of the others. *)
Definition onModuleInit (connect_of : string -> W -> outcome McpError unit * W) (providers : list (string * Provider)) (w : W) : W :=
  fold_left (fun w p => (connect_of p.1 w).2) providers w.

Notation tools := (list (Executor.ResolvedTool (W := Session * W))).

(** [Promise.all] over the providers: [getTools_of] tells what becomes of the call of
    each, [order] the order in which the calls settle.  The first rejection is the
    rejection of all. *)
Definition rejection (getTools_of : Provider -> outcome error tools) (providers : list (string * Provider)) (i : nat) : option error :=
  match providers !! i with
  | Some p => match getTools_of p.2 with Throw e => Some e | _ => None end
  | None => None
  end.

Fixpoint gathered (getTools_of : Provider -> outcome error tools) (providers : list (string * Provider)) : outcome error tools :=
  match providers with
  | [] => Ret []
  | (_, p) :: rest =>
      match getTools_of p, gathered getTools_of rest with
      | Ret ts, Ret more => Ret (ts ++ more)
      | _, _ => Diverge
      end
  end.

Definition getAllTools (getTools_of : Provider -> outcome error tools) (order : list nat) (providers : list (string * Provider))
    : outcome error tools :=
  match Js.filter_map (rejection getTools_of providers) order with
  | e :: _ => Throw e
  | [] => gathered getTools_of providers
  end.

End Service.

(** ** Arguments *)

Lemma first_error_None {A} (f : A -> option McpError) l : first_error f l = None <-> forall x, x ∈ l -> f x = None.
Proof.
  induction l as [|x l IH]; simpl; [split; [by intros _ x ?%elem_of_nil|done]|].
  destruct (f x) as [e|] eqn:Hx.
  - split; [done|]. intros H. specialize (H x ltac:(by left)). congruence.
  - rewrite IH. split; [intros H y [->|Hy]%elem_of_cons; auto|intros H y Hy; apply H; by right].
Qed.

(** What a value of a declared type looks like to the check: [integer] is any number,
    and a type it does not know is anything. *)
Definition conforms (raw : string) (v : value) : Prop :=
  (raw = "string" -> exists s, v = VStr s) /\
  (raw = "number" \/ raw = "integer" -> exists n, v = VNum n /\ n <> NNaN) /\
  (raw = "boolean" -> exists b, v = VBool b) /\
  (raw = "array" -> exists l, v = VArr l) /\
  (raw = "object" -> (exists o, v = VObj o) \/ (exists t, v = VDate t) \/ (exists l, v = VMap l) \/ (exists l, v = VSet l)).

Lemma misfit_None raw v : misfit raw v = None <-> conforms raw v.
Proof.
  unfold misfit, conforms. repeat (case_bool_decide; subst; simpl).
  all: split; [intros Hfit; split_and!; intros Hraw; try (by destruct Hraw); try congruence;
                 destruct v as [| | |[]| | | | | | |]; simpl in Hfit; eauto 7; try discriminate
              |intros (Hs & Hn & Hb & Ha & Ho)].
  all: try (destruct (Hs eq_refl) as [? ->]; done).
  all: try (destruct (Hn ltac:(auto)) as (n & -> & Hne); by destruct n).
  all: try (destruct (Hb eq_refl) as [? ->]; done).
  all: try (destruct (Ha eq_refl) as [? ->]; done).
  all: try (destruct (Ho eq_refl) as [[? ->]|[[? ->]|[[? ->]|[? ->]]]]; done).
  all: done.
Qed.

(** A key is given when reading it yields something, if only what every object
    inherits. *)
Definition given (args : obj) (k : string) : Prop := read args k <> VUndef /\ read args k <> VNull.

Lemma nullish_given args k : nullish (read args k) = false <-> given args k.
Proof. unfold given. destruct (read args k); simpl; split; try done; by intros []. Qed.

(** C28. The check of the arguments before a remote call passes exactly when the schema
    lists no properties, or every required parameter is given and every given value of
    a listed property conforms to the type its property declares ([string] where it
    declares none): a string, boolean or array, an object that is not an array, a
    number other than NaN both for [number] and for [integer], so that 1.5 and
    infinity pass for an integer, and anything for a type the check does not know.
    Without listed properties nothing is checked, the required parameters included. *)
Theorem checked_arguments_are_typed serverName toolName schema args :
  validateGorillaPreConditions serverName toolName schema args = None <->
  match schema ≫= schema_properties with
  | None => True
  | Some props =>
      (forall req, req ∈ default [] (schema ≫= schema_required) -> given args req) /\
      (forall k prop, (k, prop) ∈ props -> given args k -> conforms (raw_type prop) (read args k))
  end.
Proof.
  unfold validateGorillaPreConditions. destruct (schema ≫= schema_properties) as [props|]; [|done].
  destruct (first_error (missing _ _ _) _) eqn:Hm.
  - split; [done|]. intros [Hr _]. enough (first_error (missing serverName toolName args) (default [] (schema ≫= schema_required)) = None) by congruence.
    apply first_error_None. intros req Hin. unfold missing. by rewrite (proj2 (nullish_given _ _) (Hr req Hin)).
  - pose proof (proj1 (first_error_None _ _) Hm) as Hm'. rewrite first_error_None. split.
    + intros Hv. split.
      * intros req Hin. apply nullish_given. specialize (Hm' req Hin). unfold missing in Hm'. by destruct (nullish _).
      * intros k prop Hin Hg%nullish_given. specialize (Hv (k, prop) Hin). unfold mistyped in Hv. simpl in Hv.
        rewrite Hg in Hv. apply misfit_None. by destruct (misfit _ _).
    + intros [_ Ht] [k prop] Hin. unfold mistyped. simpl. destruct (nullish _) eqn:Hn; [done|].
      apply nullish_given in Hn. by rewrite (proj2 (misfit_None _ _) (Ht k prop Hin Hn)).
Qed.

Lemma typed_fits raw v : ToolArgs.has_type (framework_type raw) v = true -> misfit raw v = None.
Proof.
  unfold framework_type, misfit. repeat case_bool_decide; subst; simpl; try done; destruct v as [| | |[]| | | | | | |]; done.
Qed.

(** Names that are keys of the schema only, not of every object. *)
Definition ordinary (k : string) : Prop := k ∉ PROTOTYPE /\ k <> "__proto__".

Lemma read_absent args k : ordinary k -> obj_get args k = None -> read args k = VUndef.
Proof. intros [H1 H2] H. unfold read. by rewrite H, !bool_decide_false. Qed.

(** What the runtime's validation of a model's arguments hands on always passes the
    check before the remote call: a tool of a server refuses no call for its arguments
    that the runtime let through. *)
Theorem validated_arguments_pass serverName toolName s props raw :
  let ps := mcpSchemaToToolParams (Some s) in
  schema_properties s = Some props -> NoDup props.*1 -> (forall k, k ∈ props.*1 -> ordinary k) ->
  (forall k, k ∈ default [] (schema_required s) -> k ∈ props.*1) ->
  ToolArgs.valid (ToolArgs.validateToolArgs ps raw) = true ->
  validateGorillaPreConditions serverName toolName (Some s) (ToolArgs.args (ToolArgs.validateToolArgs ps raw)) = None.
Proof.
  intros ps Hp Hnd Hord Hreq Hval. assert (ps = map (to_param (default [] (schema_required s))) props) as Hps by (unfold ps, mcpSchemaToToolParams; simpl; by rewrite Hp).
  destruct (ToolArgs.validate_spec ps raw) as (Hv & Ha & _). rewrite Hval in Hv. symmetry in Hv. rewrite Ha.
  assert (map param_name ps = props.*1) as Hnames.
  { rewrite Hps, map_map. reflexivity. }
  assert (forall k prop, (k, prop) ∈ props -> obj_get (fold_left (ToolArgs.keep (default [] raw)) ps []) k =
    ToolArgs.kept (default [] raw) (to_param (default [] (schema_required s)) (k, prop))) as Hget.
  { intros k prop Hin. apply (ToolArgs.keep_loop_lookup _ ps [] (to_param _ (k, prop))); [by rewrite Hnames| |done].
    rewrite Hps. by apply list_elem_of_fmap_2. }
  assert (forall k prop, (k, prop) ∈ props -> ToolArgs.param_ok (default [] raw) (to_param (default [] (schema_required s)) (k, prop)) = true) as Hok.
  { intros k prop Hin. rewrite forallb_forall in Hv. apply Hv, list_elem_of_In. rewrite Hps. by apply list_elem_of_fmap_2. }
  assert (forall p v, ToolArgs.kept (default [] raw) p = Some v -> ToolArgs.has_type (param_type p) v = true) as Htyped.
  { intros p v. unfold ToolArgs.kept. destruct (ToolArgs.provided_value _ _); [|done]. apply ToolArgs.coerce_value_typed. }
  unfold validateGorillaPreConditions. simpl. rewrite Hp.
  assert (first_error (missing serverName toolName (fold_left (ToolArgs.keep (default [] raw)) ps [])) (default [] (schema_required s)) = None) as ->.
  { apply first_error_None. intros k Hk. destruct (proj1 (list_elem_of_fmap fst props k) (Hreq k Hk)) as ([k' prop] & -> & Hin). simpl in *.
    specialize (Hok _ _ Hin). unfold missing, read. rewrite (Hget _ _ Hin).
    destruct (ToolArgs.kept _ _) as [v|] eqn:Hkept.
    - apply Htyped, ToolArgs.has_type_provided in Hkept as [H1 H2]. by destruct v.
    - exfalso. unfold ToolArgs.kept, ToolArgs.param_ok in *. simpl in *. destruct (ToolArgs.provided_value _ _); [by rewrite Hkept in Hok|].
      by rewrite bool_decide_true in Hok. }
  apply first_error_None. intros [k prop] Hin. unfold mistyped. cbn [fst snd]. pose proof (Hget _ _ Hin) as Hg.
  destruct (ToolArgs.kept _ _) as [v|] eqn:Hkept.
  - unfold read. rewrite Hg. apply Htyped in Hkept. simpl in Hkept. rewrite (typed_fits _ _ Hkept). by destruct (nullish v).
  - rewrite read_absent; [done| |done]. apply Hord. by apply (list_elem_of_fmap_2 fst _ _ Hin).
Qed.

Definition query_schema : ToolInputSchema := {|
  schema_properties := Some [("sql", {| prop_type := Some "string"; prop_description := None |});
                             ("limit", {| prop_type := Some "integer"; prop_description := None |})];
  schema_required := Some ["sql"] |}.

Definition query_args : obj := [("sql", VStr "select 1"); ("limit", VStr "3")].

Lemma validated_arguments_pass_witness :
  ToolArgs.args (ToolArgs.validateToolArgs (mcpSchemaToToolParams (Some query_schema)) (Some query_args)) =
    [("sql", VStr "select 1"); ("limit", VNum (num_of_Z 3))] /\
  validateGorillaPreConditions "db" "query" (Some query_schema) query_args =
    Some (McpValidationError "db" "query" "limit" "number" (VStr "3")) /\
  validateGorillaPreConditions "db" "query" (Some query_schema)
    (ToolArgs.args (ToolArgs.validateToolArgs (mcpSchemaToToolParams (Some query_schema)) (Some query_args))) = None.
Proof.
  split_and!; [by vm_compute..|]. apply (validated_arguments_pass "db" "query" query_schema _ (Some query_args) eq_refl).
  - refine (bool_decide_unpack _ _). by vm_compute.
  - intros k Hk. change (k ∈ ["sql"; "limit"]) in Hk. rewrite !elem_of_cons, elem_of_nil in Hk.
    destruct Hk as [->|[->|[]]]; (split; [|done]); refine (bool_decide_unpack _ _); by vm_compute.
  - intros k Hk. change (k ∈ ["sql"]) in Hk. change (k ∈ ["sql"; "limit"]). rewrite !elem_of_cons, elem_of_nil in *. tauto.
  - by vm_compute.
Defined.

(** A fraction passes for an integer. *)
Example fraction_passes_for_integer :
  validateGorillaPreConditions "db" "query" (Some query_schema) [("sql", VStr "select 1"); ("limit", VNum (NDec 15 (-1)))] = None.
Proof. by vm_compute. Qed.

(** A required parameter is not asked for when the schema lists no properties. *)
Example required_without_properties_is_not_checked :
  validateGorillaPreConditions "db" "query" (Some {| schema_properties := None; schema_required := Some ["sql"] |}) [] = None.
Proof. by vm_compute. Qed.

(** An optional parameter that is named as something every object inherits cannot be
    left out: the inherited function is checked for the parameter's type. *)
Example optional_parameter_cannot_be_left_out :
  let schema := {| schema_properties := Some [("valueOf", {| prop_type := Some "string"; prop_description := None |})];
                   schema_required := None |} in
  validateGorillaPreConditions "db" "query" (Some schema) [] =
    Some (McpValidationError "db" "query" "valueOf" "string" VFun).
Proof. by vm_compute. Qed.

(** ** The session *)

Section SessionLemmas.
Context {W : Type} (serverName : string).
Notation World := (Session * W)%type.
Context (rpc : forall A, Method A -> World -> outcome McpError A * World)
        (transport_connect : World -> outcome McpError unit * World)
        (transport_notify : string -> World -> outcome McpError unit * World).

Definition handshake : list Wire := [WConnect; WRequest "initialize"; WNotify "notifications/initialized"].

Definition opening (w : World) : list Wire := if s_initialized w.1 then [] else handshake.

Definition fails {A} (o : outcome McpError A) : Prop := match o with Ret _ => False | _ => True end.

(** What an operation sends: it fails within the handshake, or does what is left after
    it. *)
Definition after_handshake {A} (w : World) (own : list Wire) (o : outcome McpError A) (sent : list Wire) : Prop :=
  (fails o /\ s_initialized w.1 = false /\ sent `prefix_of` handshake) \/ sent = opening w ++ own.

Lemma connect_wp w : s_initialized w.1 = false ->
  wp (connect rpc transport_connect transport_notify) w
    (fun o w' l => (fails o /\ l `prefix_of` handshake) \/ (o = Ret tt /\ l = handshake /\ s_initialized w'.1 = true)).
Proof.
  intros Hi. unfold connect, request, notify. wp_steps. rewrite Hi, andb_false_r.
  wp_steps; destruct o as [?|?|]; cbn [wp_cont app];
    try (left; split; [done|by eexists]).
  wp_steps; destruct o as [?|?|]; cbn [wp_cont app];
    try (left; split; [done|by eexists]).
  wp_steps; destruct o as [[]|?|]; cbn [wp_cont app];
    try (left; split; [done|by eexists]).
  wp_steps. by right.
Qed.

Lemma ensure_connected_wp {A} w own (k : unit -> M McpError Wire World A) :
  (forall w', (s_initialized w.1 = true -> w' = w) -> s_initialized w'.1 = true -> wp (k tt) w' (fun _ _ l => own l)) ->
  wp (bind (A := unit) (ensure_connected rpc transport_connect transport_notify) k) w
    (fun o _ l => (fails o /\ s_initialized w.1 = false /\ l `prefix_of` handshake) \/ exists rest, own rest /\ l = opening w ++ rest).
Proof.
  intros Hk. unfold ensure_connected, opening. wp_steps. destruct (s_initialized w.1) eqn:Hi.
  - wp_steps. eapply wp_mono; [by apply Hk|]. simpl. intros ? ? l Hl. right. eauto.
  - eapply wp_mono; [by apply connect_wp|]. intros o w' l [[Hf Hl]|(Ho & Hl & Hi')].
    + destruct o; [done|by left..].
    + subst o l. cbn [wp_cont]. eapply wp_mono; [by apply Hk|]. simpl. intros ? ? l Hl. right. eauto.
Qed.

(** A server hears the handshake before anything else: an operation of the client that
    finds no session sends [initialize] and [notifications/initialized] before its own
    request, and nothing after a step of the handshake that failed.  Within a session
    it sends its own request only, and a list of tools that is known needs none. *)
Theorem nothing_before_the_handshake w :
  (forall name args signal, let '(o, _, sent) := callTool serverName rpc transport_connect transport_notify name args signal w in
    after_handshake w [WRequest "tools/call"] o sent) /\
  (let '(o, _, sent) := ping rpc transport_connect transport_notify w in after_handshake w [WRequest "ping"] o sent) /\
  (forall forceRefresh, let '(o, _, sent) := listTools rpc transport_connect transport_notify forceRefresh w in
    after_handshake w [WRequest "tools/list"] o sent \/ (sent = opening w /\ forceRefresh = false)).
Proof.
  split_and!.
  - intros name args signal. change (wp (callTool serverName rpc transport_connect transport_notify name args signal) w
      (fun o _ sent => after_handshake w [WRequest "tools/call"] o sent)).
    unfold callTool. eapply wp_mono; [apply (ensure_connected_wp _ (fun l => l = [WRequest "tools/call"]))|].
    + intros w' _ _. unfold request. wp_steps. destruct o as [r|?|]; cbn [wp_cont]; [|done..].
      destruct (result_isError r); by wp_steps.
    + intros o _ l [H|(? & -> & ->)]; [by left|by right].
  - change (wp (ping rpc transport_connect transport_notify) w (fun o _ sent => after_handshake w [WRequest "ping"] o sent)).
    unfold ping. eapply wp_mono; [apply (ensure_connected_wp _ (fun l => l = [WRequest "ping"]))|].
    + intros w' _ _. unfold request. by wp_steps.
    + intros o _ l [H|(? & -> & ->)]; [by left|by right].
  - intros f. change (wp (listTools rpc transport_connect transport_notify f) w (fun o _ sent =>
      after_handshake w [WRequest "tools/list"] o sent \/ (sent = opening w /\ f = false))).
    unfold listTools. eapply wp_mono; [apply (ensure_connected_wp _ (fun l => l = [WRequest "tools/list"] \/ (l = [] /\ f = false)))|].
    + intros w' _ _. wp_steps. destruct (negb _ && negb f) eqn:Hb.
      * wp_steps. right. split; [done|]. by destruct f; [rewrite andb_false_r in Hb|].
      * unfold request. wp_steps. destruct o as [r|?|]; cbn [wp_cont]; [|by left..]. wp_steps. by left.
    + intros o _ l [H|(? & [-> | [-> ->]] & ->)]; [by do 2 left|by left; right|right]. by rewrite app_nil_r.
Qed.

(** The tools of a session are asked for once: a list that is not empty is handed out
    as long as no notification empties it. *)
Lemma known_tools_need_no_request w : s_initialized w.1 = true -> s_tools w.1 <> [] ->
  listTools rpc transport_connect transport_notify false w = (Ret (s_tools w.1), w, []).
Proof.
  intros Hi Ht. unfold listTools, ensure_connected, bind, ask. rewrite Hi. simpl. rewrite bool_decide_false; [done|].
  by destruct (s_tools w.1).
Qed.

(** ** The provider *)

Context (now : World -> Z) (random : World -> string * World).

(** The places of the policies that have a check. *)
Fixpoint checks (i : nat) (policies : list (Policy (W := W))) : list nat :=
  match policies with
  | [] => []
  | None :: rest => checks (S i) rest
  | Some _ :: rest => i :: checks (S i) rest
  end.

Definition allows (s : Step) : Prop := exists i prov, s = Evaluated i (LocalTool.PAllow prov).

Definition place (s : Step) : nat := match s with Evaluated i _ => i | Called _ _ => 0 end.

Definition is_call (s : Step) : bool := match s with Called _ _ => true | Evaluated _ _ => false end.

Lemma policies_wp context name args policies : forall i w,
  wp (evaluate_policies now random context name args i policies) w (fun o _ l =>
    existsb is_call l = false /\
    (o = Ret None -> Forall allows l /\ map place l = checks i policies) /\
    (forall r, o = Ret (Some r) -> result_success r = false)).
Proof.
  induction policies as [|[evaluate|] rest IH]; intros i w; simpl; [by wp_steps|..]; [|apply IH].
  wp_steps. destruct o as [d|e|]; cbn [wp_cont]; [|by repeat split..]. wp_steps.
  destruct d as [prov|reason prov|reason ttl prov].
  - eapply wp_mono; [apply IH|]. simpl. intros o w2 l (Hc & Hn & Hs). repeat split; try done.
    + constructor; [by eexists _, _|]. by apply Hn.
    + f_equal. by apply Hn.
  - wp_steps. repeat split; [done..|by intros r [= <-]].
  - wp_steps. destruct o as [?|?|]; cbn [wp_cont]; wp_steps; repeat split; try done. by intros r' [= <-].
Qed.

Lemma dispatch_wp name args context w :
  wp (dispatch serverName rpc transport_connect transport_notify name args context) w (fun _ _ l => l = [Called name args]).
Proof.
  unfold dispatch. wp_steps. destruct o as [r|e|]; cbn [wp_cont]; by wp_steps.
Qed.

Lemma no_call l n a : existsb is_call l = false -> Called n a ∈ l -> False.
Proof. intros H Hin. enough (existsb is_call l = true) by congruence. apply existsb_exists. exists (Called n a). split; [by apply list_elem_of_In|done]. Qed.

Lemma invokeApprovedTool_wp name args context w :
  wp (invokeApprovedTool serverName rpc transport_connect transport_notify name args context) w
    (fun o _ steps => steps = [Called name args] \/ steps = [] /\ forall r, o <> Ret r).
Proof.
  unfold invokeApprovedTool. wp_steps. destruct o as [tools|e|]; cbn [wp_cont]; [|by right..].
  destruct (find_first _ tools) as [tool|] eqn:Hf; [|wp_steps; by right].
  eapply wp_mono; [apply dispatch_wp|]. simpl. intros o w2 l ->. left.
  apply find_first_Some in Hf as [_ Hf]. by rewrite bool_decide_eq_true in Hf; subst.
Qed.

(** C8. The two ways a provider calls a remote tool.  A model's call, through the
    [execute] of a tool the provider resolved: the tool is called only after its
    arguments passed the check against the schema of the server and every policy the
    provider was built with that has a check allowed the call, in the order of the
    policies and each of them once; the call is made with the name and the arguments
    that were checked, is the last step, and no result is a success without it.  A call
    that was approved, through [invokeApprovedTool]: neither the schema nor a policy is
    consulted, by design; the only step is one call with the approved name and
    arguments, without which the invocation fails.  (The policies in the configuration
    of a server do not reach the provider: [configured_policy_is_not_enforced].) *)
Theorem remote_call_needs_every_check policies tool context args w :
  (let '(o, _, steps) := execute serverName rpc transport_connect transport_notify now random policies tool context args w in
   (exists name a, Called name a ∈ steps) \/ (exists r, o = Ret r /\ result_success r = true) ->
   validateGorillaPreConditions serverName (tool_name tool) (tool_inputSchema tool) args = None /\
   exists verdicts, steps = verdicts ++ [Called (tool_name tool) args] /\
     Forall allows verdicts /\ map place verdicts = checks 0 policies) /\
  (forall name, let '(o, _, steps) := invokeApprovedTool serverName rpc transport_connect transport_notify name args context w in
   steps = [Called name args] \/ steps = [] /\ forall r, o <> Ret r).
Proof.
  split; [|intros name; apply invokeApprovedTool_wp].
  change (wp (execute serverName rpc transport_connect transport_notify now random policies tool context args) w (fun o _ steps =>
    (exists name a, Called name a ∈ steps) \/ (exists r, o = Ret r /\ result_success r = true) ->
    validateGorillaPreConditions serverName (tool_name tool) (tool_inputSchema tool) args = None /\
    exists verdicts, steps = verdicts ++ [Called (tool_name tool) args] /\
      Forall allows verdicts /\ map place verdicts = checks 0 policies)).
  unfold execute. destruct (validateGorillaPreConditions _ _ _ _) as [e|].
  { wp_steps. intros [(? & ? & []%elem_of_nil)|(r & [= <-] & ?)]; done. }
  wp_step. eapply wp_mono; [apply policies_wp|]. intros o w1 l (Hc & Hn & Hs).
  destruct o as [[r|]|e|]; cbn [wp_cont].
  - wp_steps. rewrite app_nil_r. intros [(? & ? & []%no_call)|(? & [= <-] & Hr)]; [done|]. by rewrite (Hs r) in Hr.
  - eapply wp_mono; [apply dispatch_wp|]. simpl. intros o w2 l2 -> _. destruct (Hn eq_refl). eauto.
  - intros [(? & ? & []%no_call)|(? & ? & _)]; done.
  - intros [(? & ? & []%no_call)|(? & ? & _)]; done.
Qed.

End SessionLemmas.

(** The policies of a server's configuration reach no provider. *)
Lemma configured_policies_are_dropped {W} (servers : list (McpServerConfig (W := W))) name p :
  getProvider (initializeServers servers) name = inr p -> provider_policies p = [].
Proof.
  unfold getProvider, initializeServers.
  assert (forall m, (forall k q, js_get m k = Some q -> provider_policies q = []) ->
    forall k q, js_get (fold_left (fun m server => js_set m (server_name server) (provider_of server)) servers m) k = Some q ->
    provider_policies q = []) as H.
  { induction servers as [|s servers IH]; simpl; [done|]. intros m Hm. apply IH. intros k q.
    rewrite js_get_set. case_bool_decide; [by intros [= <-]|apply Hm]. }
  destruct (js_get _ name) as [q|] eqn:Hq; [|done]. intros [= <-]. by apply (H [] ltac:(done) name).
Qed.

(** ** A server *)

Definition db_query : McpToolSchema := {| tool_name := "query"; tool_description := None; tool_inputSchema := Some query_schema |}.

Definition db_rpc (A : Type) (m : Method A) (w : Session * nat) : outcome McpError A * (Session * nat) :=
  match m with
  | Initialize => (Ret (VObj [("protocolVersion", VStr "2024-11-05")]), w)
  | ToolsList => (Ret (Some [db_query]), w)
  | ToolsCall _ _ _ => (Ret {| result_content := [TextBlock "3 rows"]; result_isError := false |}, (w.1, S w.2))
  | Ping => (Ret tt, w)
  end.

Definition fresh_session : Session := {| s_connected := false; s_initialized := false; s_tools := []; s_serverInfo := None |}.

Definition read_only : Policy (W := nat) := Some (fun _ _ args w =>
  match obj_get args "sql" with
  | Some (VStr sql) => if String.prefix "select" sql then (Ret (LocalTool.PAllow None), w) else (Ret (LocalTool.PDeny "read only" None), w)
  | _ => (Ret (LocalTool.PDeny "no statement" None), w)
  end).

Definition db_caller : AgentContext := {|
  security := {| userId := Some "u"; tenantId := Some "t"; roles := None; permissions := None |};
  ctx_sessionId := "s"; ctx_traceId := "x"; ctx_parentTraceId := None; ctx_rootTraceId := None;
  ctx_data := None; ctx_signal := false; deadline := None |}.

Definition run_query (policies : list Policy) (args : obj) :=
  execute "db" db_rpc (fun w => (Ret tt, w)) (fun _ w => (Ret tt, w)) (fun _ => 0) (fun w => ("abc", w)) policies db_query db_caller args (fresh_session, 0%nat).

Definition select_args : obj := [("sql", VStr "select 1"); ("limit", VNum (num_of_Z 3))].

Lemma remote_call_needs_every_check_witness :
  (let '(o, w, steps) := run_query [None; read_only] select_args in o = Ret (ToolSuccess (VStr "3 rows") None) /\ w.2 = 1%nat) /\
  (let '(o, w, steps) := run_query [None; read_only] [("sql", VStr "drop table")] in
   o = Ret (ToolDenied "read only" None) /\ w.2 = 0%nat) /\
  (exists verdicts, (run_query [None; read_only] select_args).2 = verdicts ++ [Called "query" select_args] /\
     Forall allows verdicts /\ map place verdicts = [1%nat]).
Proof.
  split_and!; [by vm_compute..|].
  destruct (remote_call_needs_every_check "db" db_rpc (fun w => (Ret tt, w)) (fun _ w => (Ret tt, w)) (fun _ => 0) (fun w => ("abc", w))
    [None; read_only] db_query db_caller select_args (fresh_session, 0%nat)) as [H' _]. apply H'.
  right. eexists. split; [by vm_compute|done].
Defined.

(** The policies that a server's configuration lists do not stop a call: the provider
    the service makes has none. *)
Example configured_policy_is_not_enforced :
  let servers := [{| server_name := "db"; server_timeoutMs := None; server_policies := Some [read_only] |}] in
  match getProvider (initializeServers servers) "db" with
  | inr p => (run_query (provider_policies p) [("sql", VStr "drop table")]).1.1 = Ret (ToolSuccess (VStr "3 rows") None)
  | inl _ => False
  end.
Proof. by vm_compute. Qed.

End McpTools.
