(* ===== verification/Regexp.v ===== *)
(** * Regular expressions of ECMAScript

    The expressions the program uses, as syntax, with the backtracking match of the
    language: alternatives are tried in order, repetitions are greedy or lazy, a group
    keeps what it matched last.  A repetition has fuel for every character that is left;
    [repeat_fuel] shows that more would change nothing.  Texts are bytes. *)

From Stdlib Require Import Ascii String.
From S2P Require Export Js.

#[local] Open Scope string_scope.
#[local] Open Scope list_scope.
#[local] Open Scope Z_scope.

Module Regexp.

(** ** Characters *)

Definition between (a b c : ascii) : bool :=
  ((nat_of_ascii a <=? nat_of_ascii c) && (nat_of_ascii c <=? nat_of_ascii b))%nat.
Definition one_of (s : string) (c : ascii) : bool := existsb (Ascii.eqb c) (chars s).
Definition digit : ascii -> bool := between "0" "9".
Definition lower_case : ascii -> bool := between "a" "z".
Definition upper_case : ascii -> bool := between "A" "Z".
Definition alnum (c : ascii) : bool := digit c || lower_case c || upper_case c.
Definition word (c : ascii) : bool := alnum c || Ascii.eqb c "_".

(** The other case of a letter. *)
Definition swap_case (c : ascii) : ascii :=
  if lower_case c then ascii_of_nat (nat_of_ascii c - 32)
  else if upper_case c then ascii_of_nat (nat_of_ascii c + 32) else c.

(** ** Syntax *)

Inductive re : Type :=
| REmpty
| RSet (negated : bool) (p : ascii -> bool)
| RSeq (a b : re)
| RAlt (a b : re)
| RRep (greedy : bool) (min : nat) (max : option nat) (a : re)
| RGroup (n : nat) (a : re)
| RBoundary
| RStart
| RLineStart
| REnd
| RLineEnd
| RAhead (a : re)
| RBehind (p : ascii -> bool).

Definition in_set (negated : bool) (p : ascii -> bool) (c : ascii) : bool := xorb negated (p c).

(** The flag [i]: a set holds a letter in both cases. *)
Fixpoint ignore_case (r : re) : re :=
  match r with
  | RSet negated p => RSet negated (fun c => p c || p (swap_case c))
  | RSeq a b => RSeq (ignore_case a) (ignore_case b)
  | RAlt a b => RAlt (ignore_case a) (ignore_case b)
  | RRep g mn mx a => RRep g mn mx (ignore_case a)
  | RGroup n a => RGroup n (ignore_case a)
  | RAhead a => RAhead (ignore_case a)
  | RBehind p => RBehind (fun c => p c || p (swap_case c))
  | r => r
  end.

Definition char (c : ascii) : re := RSet false (Ascii.eqb c).
Definition set (p : ascii -> bool) : re := RSet false p.
Definition none_of (p : ascii -> bool) : re := RSet true p.
(** [[\s\S]] *)
Definition anything : re := RSet false (fun _ => true).
Definition white : re := RSet false is_space.

Fixpoint seq (l : list re) : re := match l with [] => REmpty | [r] => r | r :: l' => RSeq r (seq l') end.
Fixpoint alt (l : list re) : re := match l with [] => RSet false (fun _ => false) | [r] => r | r :: l' => RAlt r (alt l') end.
Definition text (s : string) : re := seq (map char (chars s)).
Definition star (r : re) : re := RRep true 0 None r.
Definition plus (r : re) : re := RRep true 1 None r.
Definition opt (r : re) : re := RRep true 0 (Some 1%nat) r.
Definition lazy_star (r : re) : re := RRep false 0 None r.
Definition exactly (n : nat) (r : re) : re := RRep true n (Some n) r.
Definition at_least (n : nat) (r : re) : re := RRep true n None r.
Definition from_to (a b : nat) (r : re) : re := RRep true a (Some b) r.

(** ** Matching *)

Notation groups := (list (nat * list ascii)).

(** A position in a text: the character before it and what follows it, with the groups
    matched so far. *)
Record position : Type := { before : option ascii; rest : list ascii; matched : groups }.

Definition cont : Type := position -> option position.

Definition left_ (x : position) : nat := length (rest x).

Definition word_at (c : option ascii) : bool := match c with Some c => word c | None => false end.

(** After a line terminator, or at the start: [^] with the flag [m]. *)
Definition line_start (c : option ascii) : bool :=
  match c with Some c => Ascii.eqb c "010" || Ascii.eqb c "013" | None => true end.

(** Before a line terminator, or at the end: [$] with the flag [m]. *)
Definition line_end (l : list ascii) : bool := line_start (head l).

Definition forget (ns : list nat) (x : position) : position := {|
  before := before x; rest := rest x;
  matched := List.filter (fun g => negb (existsb (Nat.eqb g.1) ns)) (matched x) |}.

(** Back where a lookahead began, with the groups it matched. *)
Definition back_at (from x : position) : position := {| before := before from; rest := rest from; matched := matched x |}.

Definition keep_group (n : nat) (from : position) (x : position) : position := {|
  before := before x; rest := rest x;
  matched := (n, take (left_ from - left_ x) (rest from)) :: matched x |}.

Fixpoint groups_of (r : re) : list nat :=
  match r with
  | RSeq a b | RAlt a b => groups_of a ++ groups_of b
  | RRep _ _ _ a => groups_of a
  | RGroup n a => n :: groups_of a
  | RAhead a => groups_of a
  | _ => []
  end.

(** The repetitions of [again], of which [min] are still required and [max] allowed; one
    that is not required must consume something. *)
Fixpoint repeat_match (again : position -> cont -> option position) (greedy : bool) (fuel min : nat) (max : option nat)
    (x : position) (k : cont) : option position :=
  match max with
  | Some 0%nat => k x
  | _ =>
      let once :=
        match fuel with
        | O => None
        | S fuel' => again x (fun y =>
            if (Nat.eqb min 0) && (Nat.eqb (left_ y) (left_ x)) then None
            else repeat_match again greedy fuel' (Nat.pred min) (Nat.pred <$> max) y k)
        end in
      match min with
      | S _ => once
      | O => if greedy then match once with Some z => Some z | None => k x end
             else match k x with Some z => Some z | None => once end
      end
  end.

Fixpoint match_re (r : re) (x : position) (k : cont) {struct r} : option position :=
  match r with
  | REmpty => k x
  | RSet negated p =>
      match rest x with
      | c :: l => if in_set negated p c then k {| before := Some c; rest := l; matched := matched x |} else None
      | [] => None
      end
  | RSeq a b => match_re a x (fun y => match_re b y k)
  | RAlt a b => match match_re a x k with Some z => Some z | None => match_re b x k end
  | RRep greedy min max a =>
      repeat_match (fun y k => match_re a (forget (groups_of a) y) k) greedy (S (left_ x + min)) min max x k
  | RGroup n a => match_re a x (fun y => k (keep_group n x y))
  | RBoundary => if xorb (word_at (before x)) (word_at (head (rest x))) then k x else None
  | RStart => match before x with None => k x | Some _ => None end
  | RLineStart => if line_start (before x) then k x else None
  | REnd => match rest x with [] => k x | _ => None end
  | RLineEnd => if line_end (rest x) then k x else None
  | RAhead a => match match_re a x Some with Some y => k (back_at x y) | None => None end
  | RBehind p => match before x with Some c => if p c then k x else None | None => None end
  end.

(** A match at a position: how much it takes, and its groups. *)
Definition match_at (r : re) (before : option ascii) (l : list ascii) : option (nat * groups) :=
  match match_re r {| before := before; rest := l; matched := [] |} Some with
  | Some y => Some ((length l - left_ y)%nat, matched y)
  | None => None
  end.

Definition group (gs : groups) (n : nat) : option string :=
  match find_first (fun g => Nat.eqb g.1 n) gs with Some g => Some (of_chars g.2) | None => None end.

(** ** Searching and replacing *)

(** [r.exec(s)] of an expression that is not global, from a position on. *)
Fixpoint search (r : re) (before : option ascii) (l : list ascii) : option groups :=
  match match_at r before l with
  | Some (n, gs) => Some ((0%nat, take n l) :: gs)
  | None => match l with [] => None | c :: l' => search r (Some c) l' end
  end.

Definition exec (r : re) (s : string) : option groups := search r None (chars s).
Definition test (r : re) (s : string) : bool := is_some (exec r s).

(** What a global expression sees of a text: characters outside of every match, and
    matches. *)
Inductive piece : Type := Kept (c : ascii) | Hit (m : list ascii) (gs : groups).

Definition kept_head (l : list ascii) : list piece := match l with [] => [] | c :: _ => [Kept c] end.

Fixpoint scan (r : re) (fuel : nat) (before : option ascii) (l : list ascii) : list piece :=
  match fuel with
  | O => map Kept l
  | S fuel' =>
      let next := match l with [] => [] | c :: l' => Kept c :: scan r fuel' (Some c) l' end in
      match match_at r before l with
      | Some (O, gs) => Hit [] gs :: next
      | Some (n, gs) => Hit (take n l) gs :: scan r fuel' (last (take n l)) (drop n l)
      | None => next
      end
  end.

Definition pieces (r : re) (s : string) : list piece := scan r (S (String.length s)) None (chars s).

Definition piece_text (p : piece) : list ascii := match p with Kept c => [c] | Hit m _ => m end.

(** [s.replace(r, f)] of a global expression. *)
Definition put (f : groups -> string) (p : piece) : list ascii :=
  match p with Kept c => [c] | Hit m gs => chars (f ((0%nat, m) :: gs)) end.

Definition replace_with (r : re) (f : groups -> string) (s : string) : string :=
  of_chars (concat (map (put f) (pieces r s))).

(** [s.split(r)], of an expression without groups: a match that is empty at the start of
    a part splits nothing. *)
Fixpoint split_re (r : re) (before : option ascii) (l cur : list ascii) (skip : nat) : list string :=
  match l with
  | [] => [of_chars (rev cur)]
  | c :: l' =>
      match skip with
      | S skip' => split_re r (Some c) l' cur skip'
      | O =>
          match match_at r before l with
          | Some (n, _) =>
              if (Nat.eqb n 0) && (match cur with [] => true | _ => false end) then split_re r (Some c) l' (c :: cur) 0
              else of_chars (rev cur) :: match n with
                                          | O => split_re r (Some c) l' [c] 0
                                          | S n' => split_re r (Some c) l' [] n'
                                          end
          | None => split_re r (Some c) l' (c :: cur) 0
          end
      end
  end.

Definition split (r : re) (s : string) : list string :=
  if str_is_empty s then if is_some (match_at r None []) then [] else [EmptyString]
  else split_re r None (chars s) [] 0.

(** ** The fuel of a repetition *)

(** [y] is [x] moved over a part of the text. *)
Definition moved (x y : position) (m : list ascii) : Prop :=
  rest x = m ++ rest y /\ before y = match m with [] => before x | _ => last m end.
Definition reached (x y : position) : Prop := exists m, moved x y m.

Lemma reached_refl x y : rest y = rest x -> before y = before x -> reached x y.
Proof. intros H1 H2. exists []. by split. Qed.

Lemma moved_trans x y z m n : moved x y m -> moved y z n -> moved x z (m ++ n).
Proof.
  intros [H1 H2] [H3 H4]. split; [by rewrite H1, H3, app_assoc|]. rewrite H4. destruct n as [|c n].
  - by rewrite app_nil_r, H2.
  - destruct m as [|d m]; [done|]. change (last (c :: n) = last ((d :: m) ++ c :: n)). rewrite last_app.
    by destruct (last (c :: n)) eqn:Hl; [|apply last_None in Hl].
Qed.

Lemma reached_trans x y z : reached x y -> reached y z -> reached x z.
Proof. intros [m Hm] [n Hn]. eexists. by eapply moved_trans. Qed.

Lemma reached_left x y : reached x y -> (left_ y <= left_ x)%nat.
Proof. intros (m & H & _). unfold left_. rewrite H, length_app. lia. Qed.

Lemma reached_same x y : reached x y -> left_ y = left_ x -> rest y = rest x /\ before y = before x.
Proof.
  intros (m & H1 & H2) Hl. unfold left_ in Hl. rewrite H1, length_app in Hl. destruct m; simpl in *; [done|lia].
Qed.

(** A match asks its continuation about positions further on only. *)
Definition local (again : position -> cont -> option position) : Prop :=
  forall x k k', (forall y, reached x y -> k y = k' y) -> again x k = again x k'.

(** More fuel than a repetition has changes nothing. *)
Lemma repeat_fuel again greedy : local again -> forall f1 f2 min max x k k',
  (left_ x + min < f1)%nat -> (left_ x + min < f2)%nat -> (forall y, reached x y -> k y = k' y) ->
  repeat_match again greedy f1 min max x k = repeat_match again greedy f2 min max x k'.
Proof.
  intros Ha. induction f1 as [|f1 IH]; [lia|]. intros [|f2] min max x k k' H1 H2 Hk; [lia|]. simpl.
  assert (k x = k' x) as -> by (by apply Hk, reached_refl).
  assert (forall min' max', (min = 0%nat -> min' = 0%nat) -> (min' <= Nat.pred min)%nat ->
    again x (fun y => if (Nat.eqb min 0) && Nat.eqb (left_ y) (left_ x) then None else repeat_match again greedy f1 min' max' y k) =
    again x (fun y => if (Nat.eqb min 0) && Nat.eqb (left_ y) (left_ x) then None else repeat_match again greedy f2 min' max' y k')) as Honce.
  { intros min' max' Hm0 Hm. apply Ha. intros y Hy. pose proof (reached_left _ _ Hy).
    destruct (Nat.eqb min 0 && Nat.eqb (left_ y) (left_ x)) eqn:He; [done|].
    assert (left_ y + min' < left_ x + min)%nat.
    { destruct min as [|min]; simpl in *; [apply Nat.eqb_neq in He|]; lia. }
    apply IH; [lia..|]. intros z Hz. apply Hk. by eapply reached_trans. }
  rewrite !(Honce (Nat.pred min) _) by lia. done.
Qed.

Lemma local_ext x y : rest y = rest x -> before y = before x -> forall z, reached y z <-> reached x z.
Proof. intros H1 H2 z. unfold reached, moved. by rewrite H1, H2. Qed.

Lemma match_local r : local (match_re r).
Proof.
  induction r as [|neg p|a IHa b IHb|a IHa b IHb|g mn mx a IHa|n a IHa| | | | | |a IHa|p]; intros x k k' Hk; cbn [match_re];
    pose proof (Hk x (reached_refl x x eq_refl eq_refl)) as Hx.
  - done.
  - destruct (rest x) as [|c l] eqn:Hr; [done|]. destruct (in_set neg p c); [|done]. apply Hk. exists [c]. by split.
  - apply IHa. intros y Hy. apply IHb. intros z Hz. apply Hk. by eapply reached_trans.
  - by rewrite (IHa x k k'), (IHb x k k') by done.
  - apply repeat_fuel; [|lia..|done]. intros y j j' Hj. apply IHa. intros z Hz. apply Hj.
    by apply (local_ext y (forget (groups_of a) y)).
  - apply IHa. intros y Hy. apply Hk. destruct Hy as (m & H1 & H2). by exists m.
  - destruct (xorb _ _); [done|done].
  - by destruct (before x).
  - by destruct (line_start (before x)).
  - by destruct (rest x).
  - by destruct (line_end (rest x)).
  - destruct (match_re a x Some) as [y|]; [|done]. by apply Hk, reached_refl.
  - destruct (before x) as [c|]; [|done]. by destruct (p c).
Qed.

(** ** What an expression matches

    The texts an expression stands for, without priorities: [denotes r s t] when a match
    of [r] that starts at [s] may end at [t]. *)

Notation spot := (option ascii * list ascii)%type.
Definition spot_of (x : position) : spot := (before x, rest x).

Inductive iterated (D : spot -> spot -> Prop) : nat -> spot -> spot -> Prop :=
| iterated_none s : iterated D 0 s s
| iterated_more n s t u : D s t -> iterated D n t u -> iterated D (S n) s u.

Inductive denotes : re -> spot -> spot -> Prop :=
| denotes_empty s : denotes REmpty s s
| denotes_set negated p b c l : in_set negated p c = true -> denotes (RSet negated p) (b, c :: l) (Some c, l)
| denotes_seq a b s t u : denotes a s t -> denotes b t u -> denotes (RSeq a b) s u
| denotes_left a b s t : denotes a s t -> denotes (RAlt a b) s t
| denotes_right a b s t : denotes b s t -> denotes (RAlt a b) s t
| denotes_rep g mn mx a n s t : (mn <= n)%nat -> (forall m, mx = Some m -> (n <= m)%nat) ->
    iterated (denotes a) n s t -> denotes (RRep g mn mx a) s t
| denotes_group n a s t : denotes a s t -> denotes (RGroup n a) s t
| denotes_boundary s : xorb (word_at s.1) (word_at (head s.2)) = true -> denotes RBoundary s s
| denotes_start l : denotes RStart (None, l) (None, l)
| denotes_line_start s : line_start s.1 = true -> denotes RLineStart s s
| denotes_end b : denotes REnd (b, []) (b, [])
| denotes_line_end s : line_end s.2 = true -> denotes RLineEnd s s
| denotes_ahead a s t : denotes a s t -> denotes (RAhead a) s s
| denotes_behind p c l : p c = true -> denotes (RBehind p) (Some c, l) (Some c, l).

(** The bounds of every repetition are in order, as the syntax requires. *)
Fixpoint ranged (r : re) : bool :=
  match r with
  | RSeq a b | RAlt a b => ranged a && ranged b
  | RRep _ mn mx a => match mx with Some m => (mn <=? m)%nat | None => true end && ranged a
  | RGroup _ a | RAhead a => ranged a
  | _ => true
  end.

Definition sound (D : spot -> spot -> Prop) (again : position -> cont -> option position) : Prop :=
  forall x k z, again x k = Some z -> exists y, D (spot_of x) (spot_of y) /\ k y = Some z.

Lemma repeat_sound D again greedy : sound D again -> forall fuel min max x k z,
  (forall m, max = Some m -> (min <= m)%nat) -> repeat_match again greedy fuel min max x k = Some z ->
  exists n y, (min <= n)%nat /\ (forall m, max = Some m -> (n <= m)%nat) /\ iterated D n (spot_of x) (spot_of y) /\ k y = Some z.
Proof.
  intros Ha. induction fuel as [|fuel IH]; intros min max x k z Hr H.
  - assert (min = 0%nat /\ k x = Some z) as [-> Hk].
    { simpl in H. destruct max as [[|m]|].
      - specialize (Hr 0%nat eq_refl). split; [lia|done].
      - destruct min; [|done]. destruct greedy; [done|]. by destruct (k x).
      - destruct min; [|done]. destruct greedy; [done|]. by destruct (k x). }
    exists 0%nat, x. split_and!; [done|lia|constructor|done].
  - simpl in H. assert (forall mx, again x (fun y => if (Nat.eqb min 0) && Nat.eqb (left_ y) (left_ x) then None
        else repeat_match again greedy fuel (Nat.pred min) mx y k) = Some z -> mx = (Nat.pred <$> max) -> max <> Some 0%nat ->
        exists n y, (min <= n)%nat /\ (forall m, max = Some m -> (n <= m)%nat) /\ iterated D n (spot_of x) (spot_of y) /\ k y = Some z) as Honce.
    { intros mx Ho -> Hm. apply Ha in Ho as (y & Hd & Hk). destruct (_ && _); [done|].
      apply IH in Hk as (n & y' & H1 & H2 & H3 & H4).
      - exists (S n), y'. split_and!; [lia| |by econstructor|done]. intros m ->. specialize (H2 (Nat.pred m) eq_refl).
        assert (m <> 0%nat) by congruence. lia.
      - intros m Hm'. destruct max as [m'|]; [|done]. simplify_eq/=. specialize (Hr m' eq_refl). lia. }
    assert (k x = Some z -> min = 0%nat -> exists n y, (min <= n)%nat /\ (forall m, max = Some m -> (n <= m)%nat) /\
      iterated D n (spot_of x) (spot_of y) /\ k y = Some z) as Hstop.
    { intros Hk ->. exists 0%nat, x. split_and!; [done|lia|constructor|done]. }
    destruct max as [[|m]|]; [apply Hstop; [done|specialize (Hr 0%nat eq_refl); lia]|..];
      (destruct min; [|by eapply Honce]; destruct greedy;
       [destruct (again x _) eqn:Ho in H; [simplify_eq; by eapply Honce|by apply Hstop]|
        destruct (k x) eqn:Hk in H; [simplify_eq; by apply Hstop|by eapply Honce]]).
Qed.

Lemma match_sound r : ranged r = true -> sound (denotes r) (match_re r).
Proof.
  induction r as [|neg p|a IHa b IHb|a IHa b IHb|g mn mx a IHa|n a IHa| | | | | |a IHa|p]; intros Hr x k z; cbn [match_re ranged] in *;
    rewrite ?andb_true_iff in Hr.
  - intros H. exists x. by split; [constructor|].
  - destruct (rest x) as [|c l] eqn:Hx; [done|]. destruct (in_set neg p c) eqn:Hc; [|done]. intros H. eexists. split; [|done].
    unfold spot_of. rewrite Hx. simpl. by constructor.
  - intros H. apply IHa in H as (y & H1 & H); [|tauto]. apply IHb in H as (y' & H2 & H); [|tauto]. exists y'. split; [|done]. by econstructor.
  - destruct (match_re a x k) as [z'|] eqn:Ha.
    + intros [= <-]. apply IHa in Ha as (y & H1 & H); [|tauto]. exists y. split; [by constructor|done].
    + intros H. apply IHb in H as (y & H1 & H); [|tauto]. exists y. split; [by apply denotes_right|done].
  - intros H. apply (repeat_sound (denotes a)) in H as (n & y & H1 & H2 & H3 & H4).
    + exists y. split; [by econstructor|done].
    + intros y j w Hw. apply IHa in Hw as (v & Hv & Hj); [|tauto]. exists v. by split.
    + intros m ->. destruct Hr as [Hr _]. by apply Nat.leb_le.
  - intros H. apply IHa in H as (y & H1 & H); [|done]. exists (keep_group n x y). split; [by constructor|done].
  - destruct (xorb _ _) eqn:Hb; [|done]. intros H. exists x. by split; [constructor|].
  - destruct x as [[c|] l gs]; simpl; [done|]. intros H. eexists. split; [|done]. constructor.
  - destruct (line_start _) eqn:Hb; [|done]. intros H. exists x. by split; [constructor|].
  - destruct x as [b [|c l] gs]; simpl; [|done]. intros H. eexists. split; [|done]. constructor.
  - destruct (line_end _) eqn:Hb; [|done]. intros H. exists x. by split; [constructor|].
  - destruct (match_re a x Some) as [w|] eqn:E; [|done]. intros H. apply IHa in E as (y & H1 & _); [|done].
    exists (back_at x w). split; [|done]. by apply (denotes_ahead a (spot_of x) (spot_of y)).
  - destruct x as [[c|] l gs]; simpl; [|done]. destruct (p c) eqn:Hc; [|done]. intros H. eexists. split; [|done]. by constructor.
Qed.

(** The groups matched so far do not decide whether there is a match. *)
Definition fails_alike (k k' : cont) : Prop := forall y y', spot_of y = spot_of y' -> k y = None -> k' y' = None.
Definition blind (again : position -> cont -> option position) : Prop :=
  forall x x' k k', spot_of x = spot_of x' -> fails_alike k k' -> again x k = None -> again x' k' = None.

Lemma spot_left x x' : spot_of x = spot_of x' -> left_ x = left_ x'.
Proof. unfold spot_of, left_. by intros [= _ ->]. Qed.

Lemma repeat_blind again greedy : blind again -> forall fuel min max, blind (fun x k => repeat_match again greedy fuel min max x k).
Proof.
  intros Ha. induction fuel as [|fuel IH]; intros min max x x' k k' Hx Hk; simpl.
  - destruct max as [[|m]|]; [by apply Hk|..]; (destruct min; [|done]; destruct greedy; [by apply Hk|]; destruct (k x) eqn:E; [done|];
      intros _; by rewrite (Hk _ _ Hx E)).
  - assert (forall mx, again x (fun y => if (Nat.eqb min 0) && Nat.eqb (left_ y) (left_ x) then None
        else repeat_match again greedy fuel (Nat.pred min) mx y k) = None -> again x' (fun y => if (Nat.eqb min 0) && Nat.eqb (left_ y) (left_ x') then None
        else repeat_match again greedy fuel (Nat.pred min) mx y k') = None) as Honce.
    { intros mx. apply Ha; [done|]. intros y y' Hy. rewrite (spot_left _ _ Hy), (spot_left _ _ Hx). destruct (_ && _); [done|].
      by apply IH. }
    destruct max as [[|m]|]; [by apply Hk|..]; (destruct min; [|apply Honce]; destruct greedy;
      [destruct (again x _) eqn:E; [done|]; rewrite (Honce _ E); by apply Hk
      |destruct (k x) eqn:E; [done|]; rewrite (Hk _ _ Hx E); apply Honce]).
Qed.

Lemma match_blind r : blind (match_re r).
Proof.
  induction r as [|neg p|a IHa b IHb|a IHa b IHb|g mn mx a IHa|n a IHa| | | | | |a IHa|p]; intros x x' k k' Hx Hk; cbn [match_re].
  - by apply Hk.
  - injection Hx as Hb Hr. rewrite Hr. destruct (rest x') as [|c l]; [done|]. destruct (in_set neg p c); [|done]. by apply Hk.
  - apply IHa; [done|]. intros y y' Hy. by apply IHb.
  - destruct (match_re a x k) eqn:E; [done|]. rewrite (IHa _ _ _ _ Hx Hk E). by apply IHb.
  - rewrite (spot_left _ _ Hx). apply repeat_blind; [|done..]. intros y y' j j' Hy. by apply IHa.
  - apply IHa; [done|]. intros y y' Hy. apply Hk. done.
  - injection Hx as Hb Hr. rewrite Hb, Hr. destruct (xorb _ _); [|done]. apply Hk. unfold spot_of. by rewrite Hb, Hr.
  - pose proof Hx as Hx'. injection Hx as Hb Hr. rewrite Hb. destruct (before x'); [done|]. by apply Hk.
  - pose proof Hx as Hx'. injection Hx as Hb Hr. rewrite Hb. destruct (line_start (before x')); [|done]. by apply Hk.
  - pose proof Hx as Hx'. injection Hx as Hb Hr. rewrite Hr. destruct (rest x'); [|done]. by apply Hk.
  - pose proof Hx as Hx'. injection Hx as Hb Hr. rewrite Hr. destruct (line_end (rest x')); [|done]. by apply Hk.
  - destruct (match_re a x Some) as [y|] eqn:E.
    + destruct (match_re a x' Some) as [y'|]; [|done]. by apply Hk.
    + intros _. rewrite (IHa x x' Some Some Hx ltac:(by intros ??) E). done.
  - pose proof Hx as Hx'. injection Hx as Hb Hr. rewrite Hb. destruct (before x') as [c|]; [|done]. destruct (p c); [|done]. by apply Hk.
Qed.

Lemma denotes_moves r s t : denotes r s t -> exists m, s.2 = m ++ t.2 /\ t.1 = match m with [] => s.1 | _ => last m end.
Proof.
  revert s t. assert (forall a, (forall s t, denotes a s t -> exists m, s.2 = m ++ t.2 /\ t.1 = match m with [] => s.1 | _ => last m end) ->
    forall n s t, iterated (denotes a) n s t -> exists m, s.2 = m ++ t.2 /\ t.1 = match m with [] => s.1 | _ => last m end) as Hit.
  { intros a Ha n s t Hi. induction Hi as [s|n s t u H1 H2 IH]; [by exists []|].
    destruct (Ha _ _ H1) as (m1 & H3 & H4), IH as (m2 & H5 & H6). exists (m1 ++ m2).
    pose proof (moved_trans {| before := s.1; rest := s.2; matched := [] |} {| before := t.1; rest := t.2; matched := [] |}
      {| before := u.1; rest := u.2; matched := [] |} m1 m2) as [H7 H8]; [by split..|]. by split. }
  induction r as [|neg p|a IHa b IHb|a IHa b IHb|g mn mx a IHa|n a IHa| | | | | |a IHa|p]; intros s t H; inversion H; subst; try by exists [].
  - by exists [c].
  - match goal with H1 : denotes a _ ?u, H2 : denotes b ?u _ |- _ =>
      destruct (IHa _ _ H1) as (m1 & K3 & K4), (IHb _ _ H2) as (m2 & K5 & K6); exists (m1 ++ m2);
      pose proof (moved_trans {| before := s.1; rest := s.2; matched := [] |} {| before := u.1; rest := u.2; matched := [] |}
        {| before := t.1; rest := t.2; matched := [] |} m1 m2) as [K7 K8]; [by split..|]; by split end.
  - by apply IHa.
  - by apply IHb.
  - by eapply Hit.
  - by apply IHa.
Qed.

Definition complete (D : spot -> spot -> Prop) (again : position -> cont -> option position) : Prop :=
  forall x k y, fails_alike k k -> again x k = None -> D (spot_of x) (spot_of y) -> k y = None.

Definition at_spot (s : spot) : position := {| before := s.1; rest := s.2; matched := [] |}.

Lemma spot_at s : spot_of (at_spot s) = s.
Proof. by destruct s. Qed.

Lemma iterated_0 D s t : iterated D 0 s t -> s = t.
Proof. by inversion 1. Qed.

Lemma iterated_S D n s u : iterated D (S n) s u -> exists t, D s t /\ iterated D n t u.
Proof. inversion 1; eauto. Qed.

Lemma repeat_complete D again greedy : complete D again -> blind again ->
  (forall s t, D s t -> exists m, s.2 = m ++ t.2 /\ t.1 = match m with [] => s.1 | _ => last m end) ->
  forall n fuel min max x k y, fails_alike k k -> (left_ x + min < fuel)%nat -> repeat_match again greedy fuel min max x k = None ->
  iterated D n (spot_of x) (spot_of y) -> (min <= n)%nat -> (forall m, max = Some m -> (n <= m)%nat) -> k y = None.
Proof.
  intros Hc Hb Hmv. induction n as [|n IH]; intros fuel min max x k y Hk Hf H Hi Hmin Hmax; (destruct fuel as [|fuel]; [lia|]); simpl in H.
  - apply iterated_0 in Hi as Hxy. assert (min = 0%nat) as -> by lia. apply (Hk x); [done|].
    destruct max as [[|m]|]; [done|..]; (destruct greedy; [by destruct (again _ _)|by destruct (k x)]).
  - apply iterated_S in Hi as (t & Hd & Hi'). rewrite <- (spot_at t) in Hd, Hi'.
    assert (forall mx, mx = (Nat.pred <$> max) -> again x (fun y => if (Nat.eqb min 0) && Nat.eqb (left_ y) (left_ x) then None
        else repeat_match again greedy fuel (Nat.pred min) mx y k) = None -> k y = None) as Honce.
    { intros mx -> Ho. assert (forall m, Nat.pred <$> max = Some m -> (n <= m)%nat) as Hmax'.
      { intros m Hm. destruct max as [m'|]; [|done]. simplify_eq/=. specialize (Hmax m' eq_refl). lia. }
      destruct (Hmv _ _ Hd) as (m & Hr & Hbf). destruct (Nat.eqb min 0 && Nat.eqb (left_ (at_spot t)) (left_ x)) eqn:He.
      - apply andb_true_iff in He as [H0 Hl]. apply Nat.eqb_eq in H0, Hl. subst min.
        assert (spot_of (at_spot t) = spot_of x) as Hs.
        { simpl in Hr, Hbf. unfold left_ in Hl. rewrite Hr, length_app in Hl. destruct m; [|simpl in Hl; lia].
          unfold spot_of. simpl. by rewrite Hbf, Hr. }
        rewrite Hs in Hi'. apply (IH (S fuel) 0%nat max x k y); [done|done|exact H|done|lia|].
        intros m' ->. specialize (Hmax m' eq_refl). lia.
      - apply (Hc x _ (at_spot t)) in Ho; [|intros z z' Hz; rewrite (spot_left _ _ Hz); destruct (Nat.eqb min 0 && Nat.eqb (left_ z') (left_ x)); [done|];
          exact (repeat_blind again greedy Hb fuel _ _ z z' k k Hz Hk)|done].
        cbv beta in Ho. rewrite He in Ho. apply (IH fuel (Nat.pred min) (Nat.pred <$> max) (at_spot t) k y); [done| |done|done|lia|done].
        assert (left_ (at_spot t) <= left_ x)%nat by (unfold left_; simpl in Hr |- *; rewrite Hr, length_app; lia).
        destruct min; simpl in *; [apply Nat.eqb_neq in He|]; lia. }
    assert (max <> Some 0%nat) as Hne by (intros ->; specialize (Hmax 0%nat eq_refl); lia).
    destruct max as [[|m]|]; [done|..]; (destruct min; [|by eapply Honce]; destruct greedy;
      [destruct (again x _) eqn:E in H; [done|by eapply Honce]|destruct (k x) eqn:E in H; [done|by eapply Honce]]).
Qed.

Lemma match_complete r : complete (denotes r) (match_re r).
Proof.
  induction r as [|neg p|a IHa b IHb|a IHa b IHb|g mn mx a IHa|n a IHa| | | | | |a IHa|p]; intros x k y Hk; cbn [match_re]; intros H Hd;
    inversion Hd; subst; unfold spot_of in *.
  - apply (Hk x); [unfold spot_of; congruence|done].
  - match goal with E : _ = rest x |- _ => rewrite <- E in H end.
    match goal with E : in_set _ _ _ = true |- _ => rewrite E in H end. eapply Hk; [|exact H]. unfold spot_of. simpl. congruence.
  - match goal with H1 : denotes a _ ?u |- _ => apply (IHa x _ (at_spot u)) in H; [|intros z z' Hz; by apply match_blind|by rewrite spot_at] ;
      apply (IHb (at_spot u) k y) in H; [done|done|by rewrite spot_at] end.
  - destruct (match_re a x k) eqn:E; [done|]. by eapply IHa.
  - destruct (match_re a x k) eqn:E; [done|]. by eapply IHb.
  - eapply (repeat_complete (denotes a)); [| | |exact Hk| |exact H|done..].
    + intros z j w Hj Hz Hdz. apply (IHa (forget (groups_of a) z) j w); done.
    + intros z z' j j' Hz Hj. apply match_blind; [|done]. exact Hz.
    + intros s t. apply denotes_moves.
    + lia.
  - apply (IHa x _ y) in H; [|intros z z' Hz; by apply Hk|done]. eapply Hk; [|exact H]. done.
  - match goal with E : xorb _ _ = true |- _ => simpl in E; rewrite E in H end. apply (Hk x); [unfold spot_of; congruence|done].
  - match goal with E : None = before x |- _ => rewrite <- E in H end. eapply Hk; [|exact H]. unfold spot_of. congruence.
  - match goal with E : line_start _ = true |- _ => simpl in E; rewrite E in H end. apply (Hk x); [unfold spot_of; congruence|done].
  - match goal with E : [] = rest x |- _ => rewrite <- E in H end. eapply Hk; [|exact H]. unfold spot_of. congruence.
  - match goal with E : line_end _ = true |- _ => simpl in E; rewrite E in H end. apply (Hk x); [unfold spot_of; congruence|done].
  - destruct (match_re a x Some) as [w|] eqn:E.
    + apply (Hk (back_at x w)); [unfold spot_of; simpl; congruence|done].
    + match goal with H1 : denotes a _ ?t |- _ => exfalso; apply (IHa x Some (at_spot t)) in E; [done|by intros ??|by rewrite spot_at] end.
  - match goal with E : Some _ = before x |- _ => rewrite <- E in H end. match goal with E : p _ = true |- _ => rewrite E in H end.
    eapply Hk; [|exact H]. unfold spot_of. congruence.
Qed.

(** The backtracking match finds a match exactly where the expression denotes one. *)
Theorem match_is_denotation r before l : ranged r = true ->
  is_some (match_at r before l) = true <-> exists t, denotes r (before, l) t.
Proof.
  intros Hr. unfold match_at. destruct (match_re r _ Some) as [y|] eqn:E; split.
  - intros _. apply match_sound in E as (y' & Hd & _); [|done]. by eexists.
  - done.
  - done.
  - intros [t Ht]. rewrite <- (spot_at t) in Ht. apply (match_complete r _ Some (at_spot t)) in E; [done|by intros ??|done].
Qed.

(** ** What a replacement sees *)

Definition texts (ps : list piece) : list ascii := concat (map piece_text ps).

Definition char_before (b : option ascii) (l : list ascii) : option ascii := match l with [] => b | _ => last l end.

Lemma char_before_app b l1 l2 : char_before b (l1 ++ l2) = char_before (char_before b l1) l2.
Proof.
  destruct l2 as [|c l2]; [by rewrite app_nil_r|]. destruct l1 as [|d l1]; [done|].
  change (last ((d :: l1) ++ c :: l2) = last (c :: l2)). rewrite last_app. by destruct (last (c :: l2)) eqn:H; [|apply last_None in H].
Qed.

Lemma scan_texts r fuel before l : texts (scan r fuel before l) = l.
Proof.
  unfold texts. revert before l. induction fuel as [|fuel IH]; intros before l; simpl.
  - induction l as [|c l IHl]; simpl; [done|by rewrite IHl].
  - destruct (match_at r before l) as [[[|n] gs]|]; [|simpl; by rewrite IH, take_drop|]; (destruct l as [|c l]; simpl; [done|by rewrite IH]).
Qed.

(** The pieces of a text are its characters, in order. *)
Lemma pieces_texts r s : texts (pieces r s) = chars s.
Proof. apply scan_texts. Qed.

(** What no match takes starts none, unless an empty match was found there. *)
Definition outside (r : re) (before : option ascii) (p1 : list piece) (c : ascii) (p2 : list piece) : Prop :=
  match_at r (char_before before (texts p1)) (c :: texts p2) = None \/ exists gs p, p1 = p ++ [Hit [] gs].

Lemma scan_outside r fuel : forall before l p1 c p2, (length l < fuel)%nat ->
  scan r fuel before l = p1 ++ Kept c :: p2 -> outside r before p1 c p2.
Proof.
  induction fuel as [|fuel IH]; intros before l p1 c p2 Hf H; [lia|]. pose proof (scan_texts r (S fuel) before l) as Ht.
  simpl in H, Ht. assert (forall p1, match l with [] => [] | c :: l' => Kept c :: scan r fuel (Some c) l' end = p1 ++ Kept c :: p2 ->
    (p1 = [] /\ l = c :: texts p2) \/ exists d p1', p1 = Kept d :: p1' /\ outside r (Some d) p1' c p2) as Hnext.
  { intros q Hq. destruct l as [|d l]; [by destruct q|]. destruct q as [|x q]; [injection Hq as -> Hq|injection Hq as <- Hq].
    - left. split; [done|]. by rewrite <- Hq, scan_texts.
    - right. exists d, q. split; [done|]. simpl in Hf. apply (IH _ l); [lia|done]. }
  assert (forall d p1', outside r (Some d) p1' c p2 -> outside r before (Kept d :: p1') c p2) as Hcons.
  { intros d q [H1|(gs & p & ->)]; [left|right; by exists gs, (Kept d :: p)]. change (texts (Kept d :: q)) with ([d] ++ texts q). by rewrite char_before_app. }
  destruct (match_at r before l) as [[[|n] gs]|] eqn:E.
  - destruct p1 as [|x p1]; [done|]. injection H as <- H. destruct (Hnext _ H) as [[-> _]|(d & q & -> & Ho)].
    + right. by exists gs, [].
    + destruct (Hcons d q Ho) as [H1|(gs' & p & ->)]; [left; exact H1|right]. by exists gs', (Hit [] gs :: p).
  - destruct p1 as [|x p1]; [done|]. injection H as <- H. destruct l as [|d l].
    { exfalso. unfold match_at in E. destruct (match_re _ _ _) as [y|]; [|done]. injection E. simpl. lia. }
    apply IH in H; [|simpl in *; rewrite length_drop; lia].
    destruct H as [H|(gs' & p & ->)]; [left|right; by exists gs', (Hit (take (S n) (d :: l)) gs :: p)].
    change (texts (Hit (take (S n) (d :: l)) gs :: p1)) with (take (S n) (d :: l) ++ texts p1). rewrite char_before_app. exact H.
  - destruct (Hnext _ H) as [[-> Hl]|(d & q & -> & Ho)]; [|by apply Hcons]. left. simpl. by rewrite <- Hl.
Qed.

(** A replacement leaves no match behind: a character it keeps starts no match in the
    text it was in. *)
Lemma replacement_is_exhaustive r s p1 c p2 : pieces r s = p1 ++ Kept c :: p2 -> outside r None p1 c p2.
Proof. apply scan_outside. pose proof (str_length_chars s) as H. unfold str_length in H. lia. Qed.

Lemma match_is_denotation_witness :
  is_some (match_at (seq [RBoundary; text "sk-"; at_least 2 (set alnum)]) (Some " "%char) (chars "sk-ab c")) = true /\
  is_some (match_at (seq [RBoundary; text "sk-"; at_least 2 (set alnum)]) (Some "a"%char) (chars "sk-ab c")) = false /\
  exists t, denotes (seq [RBoundary; text "sk-"; at_least 2 (set alnum)]) (Some " "%char, chars "sk-ab c") t.
Proof.
  split_and!; [by vm_compute..|]. apply (match_is_denotation (seq [RBoundary; text "sk-"; at_least 2 (set alnum)]) (Some " "%char) (chars "sk-ab c") eq_refl).
  by vm_compute.
Defined.

End Regexp.
