(* ===== verification/ErrorRedaction.v ===== *)
(** * What observers see of an error (observers/error-redaction.ts)

    The copy of an error that leaves the process: which fields it keeps, how they are
    masked and how long they may be.  Errors are objects with identity, as causes may be
    shared and cyclic; reading a field may throw.  The built-in expressions are those of
    the file. Below it, the observers ([Observers]). *)

From Stdlib Require Import Ascii String.
From S2P Require Export Num Regexp Schema.
From S2P Require Export Types.

#[local] Open Scope string_scope.
#[local] Open Scope list_scope.
#[local] Open Scope Z_scope.

Module ErrorRedaction.

(** ** The expressions *)

Import Regexp.

Record Pattern : Type := { pattern : re; replace : string -> (nat -> string) -> string }.

(** [(mask) => mask] *)
Definition by_mask (r : re) : Pattern := {| pattern := r; replace := fun mask _ => mask |}.

Definition key_sep : re := opt (set (one_of "_-")).

(** [SENSITIVE_KEYS] *)
Definition joined (a b : string) : re := seq [text a; key_sep; text b].
Definition SENSITIVE_KEYS : re := alt
  [seq [opt (text "x-"); joined "api" "key"]; joined "access" "key"; joined "secret" "key"; joined "private" "key";
   joined "access" "token"; joined "refresh" "token"; joined "id" "token"; joined "auth" "token"; joined "client" "secret";
   joined "session" "id"; seq [opt (text "proxy-"); text "authorization"]; text "password"; text "passwd"; text "pwd";
   text "secret"; text "token"; text "sig"].

Definition quotes : string := String dq_char "'".
Definition dq_re : re := char dq_char.
Definition sq_re : re := char "'".
Definition backslash : re := char "\".
Definition line_ends : string := String "013"%char nl.

(** [\s*[:=]\s*] *)
Definition separator : re := seq [star white; set (one_of ":="); star white].

Definition cookie_pattern : Pattern := {|
  pattern := ignore_case (seq [RBoundary; RGroup 1 (seq [opt (text "set-"); text "cookie"]);
                               RGroup 2 (seq [opt (set (one_of quotes)); separator]); plus (none_of (one_of line_ends))]);
  replace := fun mask g => g 1%nat +:+ g 2%nat +:+ mask |}.

Definition key_value_pattern : Pattern := {|
  pattern := ignore_case (seq [RBoundary;
    RGroup 1 (seq [star (seq [plus (set alnum); set (one_of "_.-")]); SENSITIVE_KEYS]);
    RGroup 2 (seq [opt backslash; opt (set (one_of quotes)); separator]);
    alt [seq [RGroup 3 (seq [opt backslash; dq_re]);
              lazy_star (alt [seq [backslash; none_of (one_of line_ends)]; none_of (one_of (String dq_char "\"))]);
              alt [seq [opt backslash; dq_re]; REnd]];
         seq [RGroup 4 sq_re; star (none_of (one_of "'")); alt [sq_re; REnd]];
         seq [opt (seq [alt [text "bearer"; text "basic"; text "token"]; plus white]);
              plus (none_of (fun c => is_space c || one_of (quotes +:+ "\,;&}]") c))]]]);
  replace := fun mask g =>
    let quote := if truthy (g 3%nat) then g 3%nat else g 4%nat in
    g 1%nat +:+ g 2%nat +:+ quote +:+ mask +:+ quote |}.

Definition bearer_pattern : Pattern := {|
  pattern := ignore_case (seq [RBoundary; RGroup 1 (alt [text "Bearer"; text "Basic"]); RGroup 2 (plus white);
                               at_least 8 (set (fun c => alnum c || one_of "-._~+/" c)); star (char "=")]);
  replace := fun mask g => g 1%nat +:+ g 2%nat +:+ mask |}.

Definition url_pattern : Pattern := {|
  pattern := ignore_case (seq [RBoundary;
    RGroup 1 (seq [set lower_case; star (set (fun c => lower_case c || digit c || one_of "+.-" c)); text "://"]);
    plus (none_of (fun c => is_space c || one_of ":/@" c)); text ":"; star (none_of is_space); text "@"]);
  replace := fun mask g => g 1%nat +:+ mask +:+ "@" |}.

Definition base64url (c : ascii) : bool := alnum c || one_of "_-" c.

Definition openai_pattern : Pattern := by_mask (seq [RBoundary; text "sk-"; at_least 8 (set base64url)]).

Definition github_pattern : Pattern := by_mask (seq [RBoundary;
  alt [seq [text "gh"; set (one_of "pousr"); text "_"; at_least 20 (set alnum)];
       seq [text "github_pat_"; at_least 20 (set (fun c => alnum c || one_of "_" c))]]]).

Definition aws_pattern : Pattern := by_mask (seq [RBoundary; alt [text "AKIA"; text "ASIA"];
  exactly 16 (set (fun c => digit c || upper_case c)); RBoundary]).

Definition google_pattern : Pattern := by_mask (seq [RBoundary; text "AIza"; at_least 30 (set base64url)]).

Definition slack_pattern : Pattern := by_mask (seq [RBoundary; text "xox"; set (one_of "abposr"); text "-";
  at_least 10 (set (fun c => alnum c || one_of "-" c))]).

Definition jwt_pattern : Pattern := by_mask (seq [RBoundary; text "eyJ"; at_least 8 (set base64url); text ".";
  at_least 8 (set base64url); text "."; plus (set base64url)]).

Definition pem_line (word : string) : re :=
  seq [text ("-----" +:+ word); star (set (fun c => upper_case c || digit c || one_of " _-" c)); text "PRIVATE KEY-----"].
Definition pem_pattern : Pattern := by_mask (seq [pem_line "BEGIN"; lazy_star anything; alt [pem_line "END"; REnd]]).

Definition BUILT_IN_PATTERNS : list Pattern :=
  [cookie_pattern; key_value_pattern; bearer_pattern; url_pattern; openai_pattern; github_pattern; aws_pattern;
   google_pattern; slack_pattern; jwt_pattern; pem_pattern].

(** ** Options *)

Definition DEFAULT_MAX_MESSAGE_LENGTH : Z := 500.
Definition DEFAULT_MAX_CAUSE_DEPTH : Z := 3.
Definition DEFAULT_MASK : string := "[REDACTED]".
Definition MAX_NAME_LENGTH : nat := 100.
Definition MAX_CODE_LENGTH : nat := 100.
Definition MAX_STACK_FRAMES : nat := 50.
Definition MAX_FRAME_LENGTH : nat := 300.
Definition SCAN_WINDOW_FACTOR : nat := 4.

(** [patterns] holds the syntax of the expressions that are added. *)
Record ErrorRedactorOptions : Type := {
  o_maxMessageLength : option num;
  o_maxCauseDepth : option num;
  o_patterns : option (list re);
  o_mask : option string;
}.

Record Redactor : Type := { maxMessageLength : nat; maxCauseDepth : nat; patterns : list Pattern; mask : string }.

Definition non_negative_integer (name : string) (n : num) : string + nat :=
  match num_to_Z n with
  | Some z => if 0 <=? z then inr (Z.to_nat z)
              else inl (name +:+ " must be a non-negative integer, received " +:+ num_to_string n +:+ ".")
  | None => inl (name +:+ " must be a non-negative integer, received " +:+ num_to_string n +:+ ".")
  end.

Definition createErrorRedactor (o : ErrorRedactorOptions) : string + Redactor :=
  match non_negative_integer "maxMessageLength" (default (num_of_Z DEFAULT_MAX_MESSAGE_LENGTH) (o_maxMessageLength o)) with
  | inl e => inl e
  | inr m =>
      match non_negative_integer "maxCauseDepth" (default (num_of_Z DEFAULT_MAX_CAUSE_DEPTH) (o_maxCauseDepth o)) with
      | inl e => inl e
      | inr d => inr {| maxMessageLength := m; maxCauseDepth := d;
                        patterns := BUILT_IN_PATTERNS ++ map by_mask (default [] (o_patterns o));
                        mask := default DEFAULT_MASK (o_mask o) |}
      end
  end.

(** ** Texts *)

Section Redactor.
Context (self : Redactor).

Definition group_text (gs : list (nat * list ascii)) (n : nat) : string := default EmptyString (group gs n).

Definition mask_one (out : string) (p : Pattern) : string :=
  replace_with (pattern p) (fun gs => replace p (mask self) (group_text gs)) out.

Definition maskText (s : string) : string := fold_left mask_one (patterns self) s.

Definition TRUNCATED : string := "…[truncated]".
Definition ELLIPSIS : string := "…".

Definition capped (s : string) (limit : nat) : string :=
  if (limit <? String.length s)%nat then slice_to s limit +:+ TRUNCATED else s.

(** [s.lastIndexOf(c, from)] of a character. *)
Fixpoint last_index (c : ascii) (l : list ascii) (i from : nat) (found : option nat) : option nat :=
  match l with
  | [] => found
  | d :: l' => if (from <? i)%nat then found else last_index c l' (S i) from (if Ascii.eqb c d then Some i else found)
  end.

Definition lastIndexOf (c : ascii) (s : string) (from : nat) : Z :=
  match last_index c (chars s) 0 from None with Some i => Z.of_nat i | None => -1 end.

Definition window : nat := Nat.max (maxMessageLength self) 1 * SCAN_WINDOW_FACTOR.

(** Where a long text is cut: before the last white space of the window. *)
Definition cut_at (s : string) : nat :=
  Z.to_nat (Z.max (Z.max (Z.max (lastIndexOf " " s window) (lastIndexOf "010" s window)) (lastIndexOf "009" s window)) 0).

Definition redactMessage (s : string) : string :=
  if (String.length s <=? window)%nat then capped (maskText s) (maxMessageLength self)
  else
    let masked := maskText (slice_to s (cut_at s)) in
    if (maxMessageLength self <? String.length masked)%nat then capped masked (maxMessageLength self)
    else masked +:+ TRUNCATED.

(** [masked.slice(-n)] *)
Definition slice_end (s : string) (n : nat) : string := of_chars (drop (length (chars s) - n) (chars s)).

Definition frame (line : string) : string :=
  let masked := maskText line in
  if (MAX_FRAME_LENGTH <? String.length masked)%nat then ELLIPSIS +:+ slice_end masked MAX_FRAME_LENGTH else masked.

End Redactor.

(** ** Stack frames *)

Definition frame_re : re := seq [RStart; plus white; text "at"; white].

Definition lines (s : string) : list string := map (fun l => of_chars l) (Schema.split_on "010"%char (chars s) []).

(** [s.indexOf(sub)] *)
Definition indexOf (sub s : string) : option nat := String.index 0 sub s.

Definition has_newline (s : string) : bool := includes nl s.

Definition stack_body (stack : string) (rawMessage : option string) : option string :=
  match rawMessage with
  | Some m =>
      if truthy m then
        match indexOf m stack with
        | None => None
        | Some at_ => if has_newline (slice_to stack at_) then None
                      else Some (of_chars (drop (at_ + String.length m) (chars stack)))
        end
      else Some (match indexOf nl stack with None => EmptyString | Some i => of_chars (drop i (chars stack)) end)
  | None => Some (match indexOf nl stack with None => EmptyString | Some i => of_chars (drop i (chars stack)) end)
  end.

Definition stackFrames (stack : string) (rawMessage : option string) : list string :=
  match stack_body stack rawMessage with
  | None => []
  | Some body => take MAX_STACK_FRAMES (List.filter (test frame_re) (lines body))
  end.

(** ** Errors *)

(** A thrown value; [Opaque] is a function, a symbol or a big integer with its text. *)
Inductive thrown : Type :=
| TUndef | TNull | TBool (b : bool) | TNum (n : num) | TStr (s : string) | TOpaque (text : string) | TObj (l : positive).

(** The fields of objects as reading them gives them; [None] when reading throws. *)
Definition heap : Type := positive -> string -> option thrown.

(** [String(v)] of a value that is no object. *)
Definition string_of (v : thrown) : string :=
  match v with
  | TUndef => "undefined" | TNull => "null" | TBool true => "true" | TBool false => "false"
  | TNum n => num_to_string n | TStr s => s | TOpaque s => s | TObj _ => EmptyString
  end.

Definition read (h : heap) (l : positive) (key : string) : thrown := default TUndef (h l key).

Inductive code : Type := CodeNum (n : num) | CodeStr (s : string).

Inductive RedactedError : Type := mk_redacted {
  r_name : string;
  r_message : string;
  r_status : option num;
  r_statusCode : option num;
  r_code : option code;
  r_stack : option string;
  r_cause : option RedactedError;
}.

Definition plain (name message : string) : RedactedError := mk_redacted name message None None None None None.

Definition finite_number (v : thrown) : option num := match v with TNum n => if is_finite n then Some n else None | _ => None end.

Section RedactOne.
Context (self : Redactor) (h : heap).

Definition name_of (l : positive) : string :=
  match read h l "name" with
  | TStr s => if truthy s then capped (maskText self s) MAX_NAME_LENGTH else "Error"
  | _ => "Error"
  end.

Definition raw_message (l : positive) : option string := match read h l "message" with TStr s => Some s | _ => None end.

Definition message_of (l : positive) : string :=
  match raw_message l with Some s => redactMessage self s | None => EmptyString end.

Definition code_of (l : positive) : option code :=
  match read h l "code" with
  | TNum n => if is_finite n then Some (CodeNum n) else None
  | TStr s => Some (CodeStr (capped (maskText self s) MAX_CODE_LENGTH))
  | _ => None
  end.

Definition frames_of (l : positive) : list string :=
  match read h l "stack" with TStr s => map (frame self) (stackFrames s (raw_message l)) | _ => [] end.

Definition header (name message : string) : string := name +:+ (if truthy message then ": " +:+ message else EmptyString).

Definition stack_of (l : positive) : string := join nl (header (name_of l) (message_of l) :: frames_of l).

(** The cause that is followed: one that is there and was not met before. *)
Definition followed (seen : list positive) (l : positive) : option thrown :=
  match read h l "cause" with
  | TUndef | TNull => None
  | TObj c => if bool_decide (c ∈ seen) then None else Some (TObj c)
  | v => Some v
  end.

(** [left] is how many links may still be followed: [maxCauseDepth - depth]. *)
Fixpoint redactOne (left : nat) (error : thrown) (seen : list positive) : RedactedError :=
  match error with
  | TObj l =>
      let seen := l :: seen in
      mk_redacted (name_of l) (message_of l) (finite_number (read h l "status")) (finite_number (read h l "statusCode"))
        (code_of l) (Some (stack_of l))
        (match left, followed seen l with
         | S left', Some c => Some (redactOne left' c seen)
         | _, _ => None
         end)
  | v => plain "Error" (redactMessage self (string_of v))
  end.

Definition redact (error : thrown) : RedactedError := redactOne (maxCauseDepth self) error [].

End RedactOne.

Definition defaultErrorRedactor : Redactor := {|
  maxMessageLength := 500; maxCauseDepth := 3; patterns := BUILT_IN_PATTERNS; mask := DEFAULT_MASK |}.

Definition redactText (self : Redactor) (text : string) : string := redactMessage self text.

(** ** Lengths *)

Notation len := String.length.

Lemma len_chars s : len s = length (chars s).
Proof. pose proof (str_length_chars s). unfold str_length in *. lia. Qed.

Lemma len_app a b : len (a +:+ b) = (len a + len b)%nat.
Proof. rewrite !len_chars, chars_app, length_app. done. Qed.

Lemma len_of_chars l : len (of_chars l) = length l.
Proof. by rewrite len_chars, chars_of_chars. Qed.

Definition mark : nat := len TRUNCATED.

Lemma capped_len s n : (len (capped s n) <= n + mark)%nat.
Proof.
  unfold capped. destruct (n <? len s)%nat eqn:H; [|apply Nat.ltb_ge in H; lia].
  rewrite len_app. unfold slice_to. rewrite len_of_chars, length_take. fold mark. lia.
Qed.

Lemma redactMessage_len self s : (len (redactMessage self s) <= maxMessageLength self + mark)%nat.
Proof.
  unfold redactMessage. destruct (_ <=? _)%nat; [apply capped_len|]. destruct (_ <? _)%nat eqn:H; [apply capped_len|].
  apply Nat.ltb_ge in H. rewrite len_app. fold mark. lia.
Qed.

Lemma frame_len self line : (len (frame self line) <= MAX_FRAME_LENGTH + len ELLIPSIS)%nat.
Proof.
  unfold frame. destruct (_ <? _)%nat eqn:H; [|apply Nat.ltb_ge in H; lia].
  rewrite len_app. unfold slice_end. rewrite len_of_chars, length_drop. lia.
Qed.

Lemma join_len l : (len (join nl l) <= list_sum (map (fun s => S (len s)) l))%nat.
Proof.
  unfold join. induction l as [|x l IH]; [simpl; lia|]. destruct l as [|y l]; [simpl; lia|].
  change (String.concat nl (x :: y :: l)) with (x +:+ nl +:+ String.concat nl (y :: l)). rewrite !len_app.
  change (len nl) with 1%nat. simpl map at 1. simpl list_sum at 1. simpl in IH |- *. lia.
Qed.

Lemma list_sum_le l n : Forall (fun x => (x <= n)%nat) l -> (list_sum l <= length l * n)%nat.
Proof. induction 1; simpl; lia. Qed.

(** ** What leaves the process *)

Section Contained.
Context (self : Redactor).

(** A text that was masked before it was cut. *)
Definition masked_text (limit : nat) (t : string) : Prop :=
  exists raw, t = capped (maskText self raw) limit \/
              (t = maskText self raw +:+ TRUNCATED /\ (len (maskText self raw) <= limit)%nat).

(** One error of the chain of causes. *)
Record masked_node (e : RedactedError) : Prop := {
  name_masked : r_name e = "Error" \/ masked_text MAX_NAME_LENGTH (r_name e);
  message_masked : r_message e = EmptyString \/ masked_text (maxMessageLength self) (r_message e);
  code_masked : forall s, r_code e = Some (CodeStr s) -> masked_text MAX_CODE_LENGTH s;
  stack_masked : forall s, r_stack e = Some s -> exists lines,
    s = join nl (header (r_name e) (r_message e) :: map (frame self) lines) /\ (length lines <= MAX_STACK_FRAMES)%nat;
}.

Fixpoint contained (links : nat) (e : RedactedError) : Prop :=
  masked_node e /\
  match r_cause e with
  | None => True
  | Some c => match links with S n => contained n c | O => False end
  end.

Lemma redactMessage_masked s : masked_text (maxMessageLength self) (redactMessage self s).
Proof.
  unfold redactMessage. destruct (_ <=? _)%nat; [eexists; by left|]. destruct (_ <? _)%nat eqn:H; eexists; [by left|right].
  split; [done|]. by apply Nat.ltb_ge in H.
Qed.

Lemma frames_few stack m : (length (stackFrames stack m) <= MAX_STACK_FRAMES)%nat.
Proof. unfold stackFrames. destruct (stack_body stack m); [rewrite length_take; lia|simpl; lia]. Qed.

Lemma node_masked h l st sc c : masked_node (mk_redacted (name_of self h l) (message_of self h l) st sc (code_of self h l) (Some (stack_of self h l)) c).
Proof.
  split; simpl.
  - unfold name_of. destruct (read h l "name"); try by left. destruct (truthy s); [right|by left]. eexists. by left.
  - unfold message_of. destruct (raw_message h l); [right; apply redactMessage_masked|by left].
  - unfold code_of. intros s. destruct (read h l "code"); try done; [by destruct (is_finite n)|]. intros [= <-]. eexists. by left.
  - intros s [= <-]. unfold stack_of, frames_of. destruct (read h l "stack") as [| | | |stack| |];
      try by (exists []; split; [done|simpl; lia]).
    eexists. split; [done|apply frames_few].
Qed.

Lemma plain_masked v : masked_node (plain "Error" (redactMessage self v)).
Proof. split; cbn; [by left|right; apply redactMessage_masked|done|done]. Qed.

Lemma redactOne_contained h n : forall error seen, contained n (redactOne self h n error seen).
Proof.
  induction n as [|n IH]; intros error seen; destruct error; cbn [redactOne contained plain r_cause];
    (split; [first [apply plain_masked|apply node_masked]|try done]).
  destruct (followed h (l :: seen) l); [apply IH|done].
Qed.

(** Whatever is thrown, and however its causes are linked, observers get a chain of at
    most [maxCauseDepth] causes in which every text was masked before it was cut to its
    length, and the stack is a header made of the redacted name and message over at most
    fifty masked frames. *)
Theorem nothing_unmasked_leaves h error : contained (maxCauseDepth self) (redact self h error).
Proof. apply redactOne_contained. Qed.

(** ** Its size *)

Definition code_len (c : option code) : nat := match c with Some (CodeStr s) => len s | _ => 0 end.

Fixpoint size (e : RedactedError) : nat :=
  len (r_name e) + len (r_message e) + code_len (r_code e) + len (default EmptyString (r_stack e)) +
  match r_cause e with Some c => size c | None => 0 end.

Definition name_bound : nat := MAX_NAME_LENGTH + mark.
Definition message_bound : nat := maxMessageLength self + mark.
Definition frame_bound : nat := S (MAX_FRAME_LENGTH + len ELLIPSIS).
Definition node_bound : nat :=
  name_bound + message_bound + (MAX_CODE_LENGTH + mark) + (S (name_bound + (2 + message_bound)) + MAX_STACK_FRAMES * frame_bound).

Lemma masked_len limit t : masked_text limit t -> (len t <= limit + mark)%nat.
Proof. intros (raw & [-> | [-> H]]); [apply capped_len|]. rewrite len_app. fold mark. lia. Qed.

Lemma node_size e : masked_node e ->
  (len (r_name e) + len (r_message e) + code_len (r_code e) + len (default EmptyString (r_stack e)) <= node_bound)%nat.
Proof.
  intros [Hn Hm Hc Hs].
  assert (len (r_name e) <= name_bound)%nat as H1.
  { destruct Hn as [->|Hn]; [by apply Nat.leb_le|by apply masked_len in Hn]. }
  assert (len (r_message e) <= message_bound)%nat as H2.
  { destruct Hm as [->|Hm]; [apply Nat.le_0_l|by apply masked_len in Hm]. }
  assert (code_len (r_code e) <= MAX_CODE_LENGTH + mark)%nat as H3.
  { destruct (r_code e) as [[?|s]|]; [apply Nat.le_0_l| |apply Nat.le_0_l]. apply masked_len. by apply Hc. }
  assert (len (default EmptyString (r_stack e)) <= S (name_bound + (2 + message_bound)) + MAX_STACK_FRAMES * frame_bound)%nat as H4.
  { destruct (r_stack e) as [s|]; [|apply Nat.le_0_l]. destruct (Hs s eq_refl) as (lines & -> & Hl). cbn [default].
    etransitivity; [apply join_len|]. cbn [map]. change (list_sum (?a :: ?l)) with (a + list_sum l)%nat.
    assert (len (header (r_name e) (r_message e)) <= name_bound + (2 + message_bound))%nat.
    { unfold header. rewrite len_app. destruct (truthy (r_message e)); [rewrite len_app; change (len ": ") with 2%nat|change (len EmptyString) with 0%nat]; lia. }
    assert (list_sum (map (fun s => S (len s)) (map (frame self) lines)) <= length lines * frame_bound)%nat.
    { rewrite map_map. etransitivity; [apply (list_sum_le _ frame_bound)|by rewrite length_map].
      apply Forall_forall. intros x (line & -> & _)%list_elem_of_fmap. pose proof (frame_len self line). unfold frame_bound. lia. }
    assert (length lines * frame_bound <= MAX_STACK_FRAMES * frame_bound)%nat by (apply Nat.mul_le_mono_r; lia). lia. }
  unfold node_bound. lia.
Qed.

(** C40. However much an error holds, and even when its causes form a cycle, what observers
    get of it is bounded by the options alone. *)
Theorem redacted_error_is_bounded h error : (size (redact self h error) <= S (maxCauseDepth self) * node_bound)%nat.
Proof.
  assert (forall n e, contained n e -> (size e <= S n * node_bound)%nat) as H.
  { induction n as [|n IH]; intros e [Hn Hc]; pose proof (node_size e Hn); destruct e as [? ? ? ? ? ? [c|]]; cbn [r_cause r_name r_message r_code r_stack size] in *; try done; try lia.
    apply IH in Hc. lia. }
  apply H, redactOne_contained.
Qed.

End Contained.

(** ** Long messages *)

Lemma last_index_spec c l : forall i from found j, last_index c l i from found = Some j ->
  found = Some j \/ ((i <= j <= from)%nat /\ l !! (j - i)%nat = Some c).
Proof.
  induction l as [|d l IH]; intros i from found j; simpl; [by left|].
  destruct (from <? i)%nat eqn:H; [by left|]. apply Nat.ltb_ge in H. intros Hj. apply IH in Hj.
  destruct (Ascii.eqb c d) eqn:Hc.
  - apply Ascii.eqb_eq in Hc. subst d. destruct Hj as [[= ->]|[H1 H2]]; right.
    + split; [lia|]. by rewrite Nat.sub_diag.
    + split; [lia|]. by replace (j - i)%nat with (S (j - S i)) by lia.
  - destruct Hj as [->|[H1 H2]]; [by left|right]. split; [lia|]. by replace (j - i)%nat with (S (j - S i)) by lia.
Qed.

Lemma lastIndexOf_spec c s from : lastIndexOf c s from = -1 \/
  exists j, lastIndexOf c s from = Z.of_nat j /\ (j <= from)%nat /\ chars s !! j = Some c.
Proof.
  unfold lastIndexOf. destruct (last_index c (chars s) 0 from None) as [j|] eqn:H; [right|by left].
  apply last_index_spec in H as [H|[H1 H2]]; [done|]. rewrite Nat.sub_0_r in H2. exists j. split_and!; [done|lia|done].
Qed.

Definition cut_char (c : ascii) : Prop := c = " "%char \/ c = "010"%char \/ c = "009"%char.

Lemma cut_spec self s : cut_at self s = 0%nat \/
  ((cut_at self s <= window self)%nat /\ exists c, chars s !! cut_at self s = Some c /\ cut_char c).
Proof.
  unfold cut_at.
  destruct (lastIndexOf_spec " " s (window self)) as [-> |(a & -> & Ha & Hca)], (lastIndexOf_spec "010" s (window self)) as [-> |(b & -> & Hb & Hcb)],
    (lastIndexOf_spec "009" s (window self)) as [-> |(d & -> & Hd & Hcd)];
    repeat match goal with |- context [Z.max ?x ?y] => destruct (Z.max_spec x y) as [[? ->]|[? ->]]; try lia end;
    rewrite ?Nat2Z.id; first [by left|right; split; [lia|eexists; split; [done|unfold cut_char; tauto]]].
Qed.

(** Of a message longer than the window only a part of at most the window is scanned,
    and the part ends where a word ends: before a white space character, or it is
    empty.  What follows it has no influence, so a token that the cut would split is
    dropped whole. *)
Theorem long_message_is_cut_between_words self s : (window self < len s)%nat ->
  let scanned := slice_to s (cut_at self s) in
  (len scanned <= window self)%nat /\
  (scanned = EmptyString \/ exists c rest, chars s = chars scanned ++ c :: rest /\ cut_char c) /\
  (forall s', (window self < len s')%nat -> slice_to s' (cut_at self s') = scanned -> redactMessage self s' = redactMessage self s).
Proof.
  intros Hl scanned. split_and!.
  - unfold scanned, slice_to. rewrite len_of_chars, length_take. destruct (cut_spec self s) as [->|[H _]]; lia.
  - unfold scanned, slice_to. destruct (cut_spec self s) as [->|(H & c & Hc & Hw)]; [by left|right].
    exists c, (drop (S (cut_at self s)) (chars s)). split; [|done]. rewrite chars_of_chars.
    rewrite <- (take_drop_middle (chars s) (cut_at self s) c Hc) at 1. done.
  - intros s' Hl' Heq. unfold redactMessage. rewrite !(proj2 (Nat.leb_gt _ _)) by done. by rewrite Heq.
Qed.

(** ** Concrete errors *)

(** A failed request whose cause is itself. *)
Definition failed_request : heap := fun l key =>
  if bool_decide (key = "name") then Some (TStr "ApiError")
  else if bool_decide (key = "message") then Some (TStr "401: key sk-abcdefghijkl rejected")
  else if bool_decide (key = "status") then Some (TNum (num_of_Z 401))
  else if bool_decide (key = "code") then None
  else if bool_decide (key = "stack") then
    Some (TStr (join nl ["ApiError: 401: key sk-abcdefghijkl rejected"; "    at call (/srv/api.js?token=s3cret:1:2)"; "not a frame"]))
  else if bool_decide (key = "cause") then Some (TObj (Pos.succ l))
  else if bool_decide (key = "headers") then Some (TStr "Authorization: Bearer abcdefgh") else Some TUndef.

Definition one_link : Redactor := {| maxMessageLength := 500; maxCauseDepth := 1; patterns := BUILT_IN_PATTERNS; mask := DEFAULT_MASK |}.

Definition redacted_request (cause : option RedactedError) : RedactedError :=
  mk_redacted "ApiError" "401: key [REDACTED] rejected" (Some (num_of_Z 401)) None None
    (Some (join nl ["ApiError: 401: key [REDACTED] rejected"; "    at call (/srv/api.js?token=[REDACTED]"])) cause.

Example causes_are_followed_so_far :
  redact one_link failed_request (TObj 1) = redacted_request (Some (redacted_request None)).
Proof. by vm_compute. Qed.

Example credentials_are_masked :
  redactMessage defaultErrorRedactor "401, Authorization: Bearer abc123 sent; db postgres://app:p@ss/w0rd@db:5432 max_tokens=5 DB_PASSWORD='a b'" =
  "401, Authorization: [REDACTED] sent; db postgres://[REDACTED]@db:5432 max_tokens=5 DB_PASSWORD='[REDACTED]'".
Proof. by vm_compute. Qed.

(** The value of a quoted password is masked to the first quote in it, escaped or not:
    what follows an escaped quote is let out. *)
Example escaped_quote_lets_password_out :
  redactMessage defaultErrorRedactor (of_chars (chars "{" ++ chars (in_quotes "password") ++ chars ":" ++
    chars (dq +:+ "hunter\" +:+ dq +:+ "2-secret" +:+ dq) ++ chars "}")) =
  "{" +:+ in_quotes "password" +:+ ":" +:+ in_quotes "[REDACTED]" +:+ "2-secret" +:+ dq +:+ "}".
Proof. by vm_compute. Qed.

Lemma long_message_is_cut_between_words_witness :
  let self := {| maxMessageLength := 4; maxCauseDepth := 0; patterns := BUILT_IN_PATTERNS; mask := DEFAULT_MASK |} in
  redactMessage self "login ok sk-abcdefghijklmno" = "logi" +:+ TRUNCATED /\
  exists c rest, chars "login ok sk-abcdefghijklmno" = chars "login ok" ++ c :: rest /\ cut_char c.
Proof.
  intros self. split; [by vm_compute|].
  destruct (long_message_is_cut_between_words self "login ok sk-abcdefghijklmno") as (_ & [H|H] & _);
    [apply Nat.ltb_lt; by vm_compute|by vm_compute in H|exact H].
Defined.

End ErrorRedaction.

(** * Observers (observers/observer-notifier.ts, observers/in-memory.observer.ts)

    The notifier redacts what an event holds of an error and hands the event to every
    observer, waits for them no longer than it is told to, and lets none of them fail the
    turn.  An observer is what it does to the world when its hook is called, with when
    and how its call ends. *)

#[local] Open Scope string_scope.
#[local] Open Scope list_scope.
#[local] Open Scope Z_scope.

Module Observers.
Import ErrorRedaction.

(** ** Events (interfaces/observer.interface.ts)

    Of an event the notifier reads what may hold the text of an error; the other fields
    are [fields].  A tool call of a result is its fields and its result. *)

Inductive observed : Type := Raw (e : thrown) | Redacted (e : RedactedError).

Inductive ObserverEvent (Err : Type) : Type :=
| AgentStart (fields : obj)
| AgentEnd (fields : obj) (toolCalls : option (list (obj * value)))
| ModelRequested (fields : obj)
| ModelResponded (fields : obj)
| ModelRetry (fields : obj) (error : Err)
| CircuitStateChange (fields : obj) (reason : string)
| ToolCalled (fields : obj)
| ToolResulted (fields : obj) (result : value)
| AgentError (fields : obj) (error : Err).
Arguments AgentStart {Err}. Arguments AgentEnd {Err}. Arguments ModelRequested {Err}. Arguments ModelResponded {Err}.
Arguments ModelRetry {Err}. Arguments CircuitStateChange {Err}. Arguments ToolCalled {Err}. Arguments ToolResulted {Err}.
Arguments AgentError {Err}.

Inductive Hook : Type :=
| onAgentStart | onAgentEnd | onModelRequest | onModelResponse | onModelRetry | onCircuitStateChange | onToolCall
| onToolResult | onError.

#[export] Instance Hook_eq : EqDecision Hook.
Proof. solve_decision. Defined.

Definition hook_of {Err} (e : ObserverEvent Err) : Hook :=
  match e with
  | AgentStart _ => onAgentStart | AgentEnd _ _ => onAgentEnd | ModelRequested _ => onModelRequest
  | ModelResponded _ => onModelResponse | ModelRetry _ _ => onModelRetry | CircuitStateChange _ _ => onCircuitStateChange
  | ToolCalled _ => onToolCall | ToolResulted _ _ => onToolResult | AgentError _ _ => onError
  end.

(** How the call of a hook ends: after a time, or never. *)
Inductive ending : Type := Ends (after : Z) (failed : bool) | NeverEnds.

Section Notifier.
Context {W : Type}.

Definition AgentObserver : Type := Hook -> option (ObserverEvent observed -> W -> ending * W).

(** ** Redactors

    What a redactor is given, an error or the error made of a text; and what it does
    with it. *)
Inductive redactable : Type := GivenError (e : thrown) | ErrorOfText (text : string).
Inductive redaction : Type := RThrows | RNoObject | RObject (e : RedactedError).

Record ErrorRedactor : Type := {
  redactError : redactable -> redaction;
  redactTextWith : option (string -> option string);
}.

Inductive ErrorRedactionOption : Type := NoRedaction | RedactWith (r : ErrorRedactor) | NoFunction (shown : string).

Definition createdRedactor (self : Redactor) (h : heap) : ErrorRedactor := {|
  redactError := fun x => match x with
                          | GivenError e => RObject (redact self h e)
                          | ErrorOfText t => RObject (plain "Error" (redactMessage self t))
                          end;
  redactTextWith := Some (fun t => Some (redactText self t)) |}.

(** ** The notifier *)

Record ObserverNotifierOptions : Type := {
  o_samplingRate : option num;
  o_timeoutMs : option num;
  o_errorRedaction : option ErrorRedactionOption;
}.

Record ObserverNotifier : Type := {
  observers : list AgentObserver;
  isSampled : bool;
  timeoutMs : option num;
  redactor : option ErrorRedactor;
}.

Definition rate_of (o : ObserverNotifierOptions) : num :=
  num_max (num_of_Z 0) (num_min (num_of_Z 1) (default (num_of_Z 1) (o_samplingRate o))).

(** The constructor; [random] is what [Math.random()] gives, and the observers that are
    absent were left out. *)
Definition mk_notifier (default_redactor : ErrorRedactor) (random : num) (obs : list AgentObserver) (o : ObserverNotifierOptions)
    : string + ObserverNotifier :=
  let sampled := num_le (num_of_Z 1) (rate_of o) || num_ltb random (rate_of o) in
  let bad_timeout := match o_timeoutMs o with Some t => negb (num_le (num_of_Z 0) t && is_finite t) | None => false end in
  if bad_timeout then
    inl ("Observer timeoutMs must be a non-negative finite number, received " +:+
         num_to_string (default NNaN (o_timeoutMs o)) +:+ ".")
  else
    match default (RedactWith default_redactor) (o_errorRedaction o) with
    | NoFunction shown => inl ("Observer errorRedaction must be an ErrorRedactor function or 'none', received " +:+ shown +:+ ".")
    | NoRedaction => inr {| observers := obs; isSampled := sampled; timeoutMs := o_timeoutMs o; redactor := None |}
    | RedactWith r => inr {| observers := obs; isSampled := sampled; timeoutMs := o_timeoutMs o; redactor := Some r |}
    end.

Section Notify.
Context (self : ObserverNotifier).

Definition isEnabled : bool := negb (bool_decide (length (observers self) = 0%nat)) && isSampled self.

Definition hasHook (hook : Hook) : bool := existsb (fun o : AgentObserver => is_some (o hook)) (observers self).

Definition REDACTION_FAILED : string := "[error redaction failed]".
Definition failed_redaction : RedactedError := plain "Error" REDACTION_FAILED.

(** [redact] *)
Definition redact_error (e : thrown) : observed :=
  match redactor self with
  | Some r => Redacted (match redactError r (GivenError e) with RObject x => x | _ => failed_redaction end)
  | None => Raw e
  end.

(** [redactText]; [None] is a redactor that throws. *)
Definition redact_text (text : string) : string :=
  match redactor self with
  | None => text
  | Some r =>
      match redactTextWith r with
      | Some f => default REDACTION_FAILED (f text)
      | None => match redactError r (ErrorOfText text) with RObject x => r_message x | _ => REDACTION_FAILED end
      end
  end.

Definition redactToolFailure (result : value) : value :=
  match redactor self, result with
  | Some _, VObj failure =>
      match obj_get failure "status", obj_get failure "error" with
      | Some (VStr status), Some (VStr error) =>
          if bool_decide (status = "error") then VObj (obj_set failure "error" (VStr (redact_text error))) else result
      | _, _ => result
      end
  | _, _ => result
  end.

(** The event that is dispatched. *)
Definition prepared (e : ObserverEvent thrown) : ObserverEvent observed :=
  match e with
  | AgentStart fields => AgentStart fields
  | ModelRequested fields => ModelRequested fields
  | ModelResponded fields => ModelResponded fields
  | ToolCalled fields => ToolCalled fields
  | AgentEnd fields toolCalls => AgentEnd fields (map (fun call => (call.1, redactToolFailure call.2)) <$> toolCalls)
  | ModelRetry fields error => ModelRetry fields (redact_error error)
  | CircuitStateChange fields reason => CircuitStateChange fields (redact_text reason)
  | ToolResulted fields result => ToolResulted fields (redactToolFailure result)
  | AgentError fields error => AgentError fields (redact_error error)
  end.

(** The observers are called in order; what one of them throws is swallowed. *)
Fixpoint start (i : nat) (obs : list AgentObserver) (e : ObserverEvent observed) (w : W) : list (nat * ending) * W :=
  match obs with
  | [] => ([], w)
  | o :: rest =>
      match o (hook_of e) with
      | None => start (S i) rest e w
      | Some f =>
          let '(r, w1) := f e w in
          let '(rs, w2) := start (S i) rest e w1 in
          ((i, r) :: rs, w2)
      end
  end.

(** When all calls have ended; [None] is never. *)
Fixpoint all_settled (rs : list (nat * ending)) : option Z :=
  match rs with
  | [] => Some 0
  | (_, Ends t _) :: rest => Z.max t <$> all_settled rest
  | (_, NeverEnds) :: _ => None
  end.

(** How long the caller waits; [timer] is the delay a timer has for a number of
    milliseconds. *)
Definition waits (timer : num -> Z) (rs : list (nat * ending)) : option Z :=
  match timeoutMs self with
  | None => all_settled rs
  | Some t => if num_le t (num_of_Z 0) then Some 0
              else Some (match all_settled rs with Some d => Z.min d (timer t) | None => timer t end)
  end.

(** A notification: who was given which event, how long the caller waits, and the world
    after the calls began. *)
Record notified : Type := { delivered : list (nat * ObserverEvent observed); wait : option Z; world : W }.

Definition nothing (w : W) : notified := {| delivered := []; wait := Some 0; world := w |}.

Definition dispatch (timer : num -> Z) (e : ObserverEvent observed) (w : W) : notified :=
  let '(rs, w') := start 0 (observers self) e w in
  {| delivered := map (fun r => (r.1, e)) rs; wait := waits timer rs; world := w' |}.

(** The events that hold an error are prepared only when someone listens. *)
Definition holds_error {Err} (e : ObserverEvent Err) : bool :=
  match e with
  | AgentEnd _ _ | ModelRetry _ _ | CircuitStateChange _ _ | ToolResulted _ _ | AgentError _ _ => true
  | _ => false
  end.

(** [notifyAgentStart], [notifyAgentEnd] and the other hooks. *)
Definition notify (timer : num -> Z) (e : ObserverEvent thrown) (w : W) : notified :=
  if negb isEnabled || (holds_error e && negb (hasHook (hook_of e))) then nothing w
  else dispatch timer (prepared e) w.

(** ** What observers are given *)

Definition listeners_from (i : nat) (obs : list AgentObserver) (hook : Hook) : list nat :=
  Js.filter_map (fun p => if is_some ((p.2 : AgentObserver) hook) then Some p.1 else None) (imap (fun j o => ((i + j)%nat, o)) obs).

Lemma start_delivers e : forall obs i w, (start i obs e w).1.*1 = listeners_from i obs (hook_of e).
Proof.
  induction obs as [|o obs IH]; intros i w; simpl; [done|]. unfold listeners_from. simpl. rewrite Nat.add_0_r.
  assert (imap ((λ j o, ((i + j)%nat, o)) ∘ S) obs = imap (fun j o => ((S i + j)%nat, o)) obs) as ->.
  { apply imap_ext. intros j x _. simpl. by rewrite Nat.add_succ_r. }
  fold (listeners_from (S i) obs (hook_of e)). destruct (o (hook_of e)) as [f|]; simpl; [|apply IH].
  destruct (f e w) as [r w1]. specialize (IH (S i) w1). destruct (start (S i) obs e w1) as [rs w2]. cbn. f_equal. exact IH.
Qed.

Lemma prepared_hook e : hook_of (prepared e) = hook_of e.
Proof. by destruct e. Qed.

(** Observers cannot disturb the turn: whatever they do and whether or not they fail, an
    event goes to every observer that listens to it, once and in order, when the turn is
    observed; and with a timeout the caller waits no longer than that. *)
Theorem observers_are_isolated timer e w :
  let n := notify timer e w in
  (delivered n).*1 = (if isEnabled then listeners_from 0 (observers self) (hook_of e) else []) /\
  (forall t, timeoutMs self = Some t -> 0 <= timer t -> exists d, wait n = Some d /\ d <= timer t) /\
  (timeoutMs self = None -> isEnabled = true -> holds_error e = false ->
   wait n = all_settled (start 0 (observers self) (prepared e) w).1).
Proof.
  intros n. unfold n, notify. destruct isEnabled eqn:He; simpl.
  - destruct (holds_error e && negb (hasHook (hook_of e))) eqn:Hh; simpl.
    + apply andb_true_iff in Hh as [Hh Hl]. apply negb_true_iff in Hl. split_and!; [|intros t _ Ht; by exists 0|by rewrite Hh].
      unfold hasHook in Hl. unfold listeners_from. generalize 0%nat. induction (observers self) as [|o obs IH]; intros i; [done|].
      simpl in Hl. apply orb_false_iff in Hl as [Ho Hl]. simpl. rewrite Ho. specialize (IH Hl (S i)). simpl in IH |- *.
      erewrite imap_ext; [exact IH|]. intros j x _. simpl. by rewrite Nat.add_succ_r.
    + unfold dispatch. pose proof (start_delivers (prepared e) (observers self) 0 w) as Hd. rewrite prepared_hook in Hd.
      destruct (start 0 (observers self) (prepared e) w) as [rs w'] eqn:Hs. simpl in *. split_and!; [rewrite <- Hd, <- list_fmap_compose; done| |].
      * intros t Ht Htt. unfold waits. rewrite Ht. destruct (num_le t _); [by exists 0|]. eexists. split; [done|].
        destruct (all_settled rs); lia.
      * intros Ht _ _. unfold waits. by rewrite Ht.
  - split_and!; [done|intros t _ Ht; by exists 0|done].
Qed.

End Notify.

(** An error text that was masked: by the redactor, or replaced. *)
Definition safe_text (r : Redactor) (t : string) : Prop :=
  t = REDACTION_FAILED \/ masked_text r (maxMessageLength r) t.

Definition safe_error (r : Redactor) (e : observed) : Prop :=
  match e with Raw _ => False | Redacted x => contained r (maxCauseDepth r) x end.

Definition safe_result (r : Redactor) (v : value) : Prop :=
  forall failure error, v = VObj failure -> obj_get failure "status" = Some (VStr "error") ->
    obj_get failure "error" = Some (VStr error) -> safe_text r error.

Definition safe_event (r : Redactor) (e : ObserverEvent observed) : Prop :=
  match e with
  | AgentEnd _ calls => forall call, call ∈ default [] calls -> safe_result r call.2
  | ModelRetry _ error | AgentError _ error => safe_error r error
  | CircuitStateChange _ reason => safe_text r reason
  | ToolResulted _ result => safe_result r result
  | _ => True
  end.

Lemma created_text self r h t : redactor self = Some (createdRedactor r h) -> safe_text r (redact_text self t).
Proof. intros Hr. unfold redact_text. rewrite Hr. right. apply redactMessage_masked. Qed.

Lemma created_failure self r h v : redactor self = Some (createdRedactor r h) -> safe_result r (redactToolFailure self v).
Proof.
  intros Hr failure error Hv Hs He. unfold redactToolFailure in Hv. rewrite Hr in Hv.
  destruct v as [| | | | | |o| | | |]; try done.
  destruct (obj_get o "status") as [[| | |s| | | | | | |]|] eqn:E1; try (simplify_eq; congruence).
  destruct (obj_get o "error") as [[| | |x| | | | | | |]|] eqn:E2; try (simplify_eq; congruence).
  case_bool_decide; [|simplify_eq; congruence]. injection Hv as <-. rewrite obj_get_set, bool_decide_true in He by done.
  injection He as <-. by eapply created_text.
Qed.

(** C25. No error reaches an observer as it was thrown: behind a redactor made by
    [createErrorRedactor], the default one among them, every event that is dispatched
    holds errors only as bounded chains of masked copies, and the text of failed tool
    calls and circuit reasons only masked. *)
Theorem observed_errors_are_masked self r h timer e w :
  redactor self = Some (createdRedactor r h) -> Forall (fun d => safe_event r d.2) (delivered (notify self timer e w)).
Proof.
  intros Hr. unfold notify. destruct (_ || _); [constructor|]. unfold dispatch.
  destruct (start 0 (observers self) (prepared self e) w) as [rs w']. simpl. apply Forall_forall.
  intros d (x & -> & _)%list_elem_of_fmap. simpl.
  destruct e as [f|f calls|f|f|f t|f reason|f|f v|f t]; simpl; try done.
  - intros call Hc. destruct calls as [cs|]; simpl in Hc; [|by apply elem_of_nil in Hc].
    apply list_elem_of_fmap in Hc as (c & -> & _). simpl. by eapply created_failure.
  - unfold redact_error. rewrite Hr. apply redactOne_contained.
  - by eapply created_text.
  - by eapply created_failure.
  - unfold redact_error. rewrite Hr. apply redactOne_contained.
Qed.

End Notifier.

(** ** The in-memory observer (observers/in-memory.observer.ts)

    An array for each hook it has, and one for all events. *)
Module InMemory.

Section InMemory.
Context {E : Type}.

Record InMemoryAgentObserver : Type := { maxEvents : num; arrays : Hook -> list E; allEvents : list (Hook * E) }.

Definition mk_observer (max : option num) : InMemoryAgentObserver :=
  {| maxEvents := default (num_of_Z 1000) max; arrays := fun _ => []; allEvents := [] |}.

Definition pushEvent {A} (max : num) (arr : list A) (item : A) : list A :=
  if num_ltb max (num_of_Z (Z.of_nat (length (arr ++ [item])))) then tail (arr ++ [item]) else arr ++ [item].

(** The hooks it does not have. *)
Definition has (hook : Hook) : bool := match hook with onModelRetry | onCircuitStateChange => false | _ => true end.

Definition on (self : InMemoryAgentObserver) (p : Hook * E) : InMemoryAgentObserver :=
  if has p.1 then
    {| maxEvents := maxEvents self;
       arrays := fun h => if bool_decide (h = p.1) then pushEvent (maxEvents self) (arrays self h) p.2 else arrays self h;
       allEvents := pushEvent (maxEvents self) (allEvents self) p |}
  else self.

Definition clear (self : InMemoryAgentObserver) : InMemoryAgentObserver :=
  {| maxEvents := maxEvents self; arrays := fun _ => []; allEvents := [] |}.

Definition lastn {A} (n : nat) (l : list A) : list A := drop (length l - n) l.

Lemma push_last {A} (n : nat) (l : list A) x : pushEvent (num_of_Z (Z.of_nat n)) (lastn n l) x = lastn n (l ++ [x]).
Proof.
  unfold pushEvent, lastn. rewrite !length_app, length_drop. simpl.
  assert (forall a b, num_ltb (num_of_Z a) (num_of_Z b) = (a <? b)) as Hlt.
  { intros a b. unfold num_ltb, num_le, num_of_Z. simpl. rewrite !Z.mul_1_r. destruct (Z.ltb_spec a b), (Z.leb_spec a b), (Z.leb_spec b a); simpl; lia. }
  rewrite Hlt. destruct (Z.ltb_spec (Z.of_nat n) (Z.of_nat (length l - (length l - n) + 1))).
  - assert (n <= length l)%nat by lia. replace (length l + 1 - n)%nat with (S (length l - n)) by lia.
    rewrite <- (drop_app_le l [x]) by lia. change (tail ?m) with (drop 1 m) || idtac.
    transitivity (drop 1 (drop (length l - n) (l ++ [x]))); [by destruct (drop _ _)|]. rewrite drop_drop. f_equal. lia.
  - replace (length l - n)%nat with 0%nat by lia. by replace (length l + 1 - n)%nat with 0%nat by lia.
Qed.

Definition events_of (h : Hook) (events : list (Hook * E)) : list E :=
  map snd (List.filter (fun p => bool_decide (h = p.1) && has h) events).

Lemma observer_holds n events :
  let self := fold_left on events (mk_observer (Some (num_of_Z (Z.of_nat n)))) in
  maxEvents self = num_of_Z (Z.of_nat n) /\ (forall h, arrays self h = lastn n (events_of h events)) /\
  allEvents self = lastn n (List.filter (fun p => has p.1) events).
Proof.
  induction events as [|p events IH] using rev_ind; [done|]. intros self. unfold self. clear self.
  rewrite fold_left_app, List.filter_app. simpl. set (o := fold_left on events _) in *. destruct IH as (IH0 & IH1 & IH2).
  assert (forall h, events_of h (events ++ [p]) =
    events_of h events ++ (if bool_decide (h = p.1) && has h then [p.2] else [])) as Hev.
  { intros h. unfold events_of. rewrite List.filter_app, map_app. simpl. by destruct (_ && _). }
  unfold on. destruct (has p.1) eqn:Hp; simpl.
  - split_and!; [done| |by rewrite IH0, IH2, push_last]. intros h. rewrite Hev.
    destruct (bool_decide (h = p.1)) eqn:Hh; simpl; [|by rewrite app_nil_r].
    apply bool_decide_eq_true in Hh. subst h. by rewrite Hp, IH0, IH1, push_last.
  - split_and!; [done| |by rewrite app_nil_r]. intros h. rewrite Hev, IH1.
    destruct (bool_decide (h = p.1)) eqn:Hh; simpl; [|by rewrite app_nil_r].
    apply bool_decide_eq_true in Hh. subst h. by rewrite Hp, app_nil_r.
Qed.

(** After any events each array holds the last [maxEvents] of the events of its hook, in
    order, and [allEvents] the last of all. *)
Theorem observer_keeps_the_last n events :
  let self := fold_left on events (mk_observer (Some (num_of_Z (Z.of_nat n)))) in
  (forall h, arrays self h = lastn n (events_of h events)) /\
  allEvents self = lastn n (List.filter (fun p => has p.1) events).
Proof. apply observer_holds. Qed.

End InMemory.
End InMemory.

(** ** A notification *)

Definition broken_hook : AgentObserver (W := nat) := fun hook =>
  match hook with onError => Some (fun _ w => (Ends 5 true, S w)) | _ => None end.
Definition slow_hook : AgentObserver (W := nat) := fun hook =>
  match hook with onError => Some (fun _ w => (NeverEnds, S w)) | _ => None end.
Definition deaf : AgentObserver (W := nat) := fun _ => None.

Definition demo_notifier (r : option ErrorRedactor) : ObserverNotifier (W := nat) := {|
  observers := [broken_hook; deaf; slow_hook]; isSampled := true; timeoutMs := Some (num_of_Z 100); redactor := r |}.

Definition demo_redactor : ErrorRedactor := createdRedactor one_link failed_request.
Definition whole_ms (t : num) : Z := default 1 (num_to_Z t).

Example failing_redactor_gives_a_placeholder :
  (notify (demo_notifier (Some {| redactError := fun _ => RThrows; redactTextWith := None |})) whole_ms (AgentError [] (TObj 1)) 0%nat) =
  {| delivered := [(0%nat, AgentError [] (Redacted failed_redaction)); (2%nat, AgentError [] (Redacted failed_redaction))];
     wait := Some 100; world := 2%nat |}.
Proof. by vm_compute. Qed.

Lemma observed_errors_are_masked_witness :
  length (delivered (notify (demo_notifier (Some demo_redactor)) whole_ms (AgentError [] (TObj 1)) 0%nat)) = 2%nat /\
  Forall (fun d => safe_event one_link d.2) (delivered (notify (demo_notifier (Some demo_redactor)) whole_ms (AgentError [] (TObj 1)) 0%nat)).
Proof.
  split; [by vm_compute|].
  exact (observed_errors_are_masked (demo_notifier (Some demo_redactor)) one_link failed_request whole_ms (AgentError [] (TObj 1)) 0%nat eq_refl).
Defined.

Lemma observers_are_isolated_witness :
  (delivered (notify (demo_notifier (Some demo_redactor)) whole_ms (AgentError [] (TObj 1)) 0%nat)).*1 = [0; 2]%nat /\
  exists d, wait (notify (demo_notifier (Some demo_redactor)) whole_ms (AgentError [] (TObj 1)) 0%nat) = Some d /\ d <= 100.
Proof.
  destruct (observers_are_isolated (demo_notifier (Some demo_redactor)) whole_ms (AgentError [] (TObj 1)) 0%nat) as (H1 & H2 & _).
  split; [exact H1|]. apply (H2 _ eq_refl). by vm_compute.
Defined.

End Observers.
