(* ===== verification/AstSplitter.v ===== *)
(** * The source code splitter (packages/rag/src/splitters/ast-codebase.splitter.ts)

    Source text is cut at its lines into import, interface, type, class, function and
    enum chunks.  The scan over the lines is a loop with one unit of fuel per line;
    [no_declaration_is_lost] shows that it reaches the end. *)

From Stdlib Require Import Ascii String Sorted.
From S2P Require Export Regexp Schema Retrieval.

#[local] Open Scope string_scope.
#[local] Open Scope list_scope.
#[local] Open Scope Z_scope.

Module AstSplitter.
Import Regexp Retrieval.

Inductive AstNodeType : Type := NClass | NInterface | NType | NFunction | NEnum | NImports | NCode.

Definition node_name (t : AstNodeType) : string :=
  match t with
  | NClass => "class" | NInterface => "interface" | NType => "type" | NFunction => "function"
  | NEnum => "enum" | NImports => "imports" | NCode => "code"
  end.

Record AstCodebaseSplitter : Type := { maxChunkSize : Z; minChunkSize : Z; splitClassMethods : bool }.

Definition mk_splitter (max min : option Z) (methods : option bool) : AstCodebaseSplitter := {|
  maxChunkSize := default 1500 max; minChunkSize := default 20 min; splitClassMethods := default true methods |}.

(** ** The expressions *)

Definition ident_char (c : ascii) : bool := alnum c || one_of "_$" c.
Definition ident : re := plus (set ident_char).
Definition gap : re := plus white.
Definition any_gap : re := star white.
Definition optional (w : string) : re := opt (seq [text w; gap]).
Definition exported_re : re := seq [RStart; optional "export"].

Definition RE_INTERFACE : re := seq [exported_re; text "interface"; gap; RGroup 1 ident].
Definition RE_TYPE_ALIAS : re := seq [exported_re; text "type"; gap; RGroup 1 ident; any_gap; text "="].
Definition RE_CLASS : re := seq [exported_re; optional "abstract"; text "class"; gap; RGroup 1 ident].
Definition RE_FUNCTION : re := seq [exported_re; optional "async"; text "function"; any_gap;
  opt (seq [text "*"; any_gap]); opt (RGroup 1 ident); any_gap; text "("].
Definition RE_ARROW_FUNCTION : re := seq [exported_re; alt [text "const"; text "let"; text "var"]; gap; RGroup 1 ident; any_gap;
  text "="; any_gap; optional "async"; alt [seq [text "("; star (none_of (one_of ")")); text ")"]; ident];
  opt (seq [any_gap; text ":"; any_gap; plus (none_of (one_of "="))]); any_gap; text "=>"; any_gap; text "{"].
Definition RE_ENUM : re := seq [exported_re; optional "const"; text "enum"; gap; RGroup 1 ident].

Definition quote_re : re := set (one_of (String dq_char "'")).
Definition quoted (n : nat) : re := seq [quote_re; RGroup n (plus (none_of (one_of (String dq_char "'")))); quote_re].
Definition RE_MODULE_SPECIFIER : re :=
  alt [seq [text "from"; gap; quoted 1]; seq [text "import"; any_gap; opt (text "("); quoted 2; opt (text ")")]].

Definition RESERVED_KEYWORDS : list string :=
  ["class"; "interface"; "type"; "enum"; "export"; "import"; "return"; "if"; "else"; "for"; "while"; "switch"; "case";
   "break"; "const"; "let"; "var"].

Definition matched_name (r : re) (line : string) : option (option string) :=
  match exec r line with Some gs => Some (group gs 1) | None => None end.

(** ** Texts *)

Definition lines (s : string) : list string := map (fun l => of_chars l) (Schema.split_on "010"%char (chars s) []).
Definition ends_with_char (c : ascii) (s : string) : bool := bool_decide (last (chars s) = Some c).
Definition blank (line : string) : bool := str_is_empty (trim line).

(** The braces of a line, added to the count; and whether one was opened. *)
Definition count_braces (line : string) (count : Z) (found : bool) : Z * bool :=
  fold_left (fun '(n, f) c => if Ascii.eqb c "{" then (n + 1, true) else if Ascii.eqb c "}" then (n - 1, f) else (n, f))
    (chars line) (count, found).

(** A chunk before it is numbered. *)
Record Piece : Type := {
  content : string;
  nodeType : AstNodeType;
  identifier : string;
  startLine : nat;
  endLine : nat;
  extraMetadata : obj;
}.

(** ** Imports *)

Record ImportScan : Type := {
  importLines : list string;
  importStartLine : option nat;
  importEndLine : option nat;
  importBraceDepth : Z;
  inImportStatement : bool;
}.

Definition no_imports : ImportScan := {|
  importLines := []; importStartLine := None; importEndLine := None; importBraceDepth := 0; inImportStatement := false |}.

Definition comment_line (trimmed : string) : bool :=
  starts_with "//" trimmed || (starts_with "/*" trimmed && negb (includes "*/" trimmed)).

Definition import_ends (trimmed : string) : bool :=
  ends_with_char ";" trimmed || includes "from '" trimmed || includes ("from " +:+ dq) trimmed.

Definition scan_import (s : ImportScan) (p : nat * string) : ImportScan :=
  let '(i, line) := p in
  let trimmed := trim line in
  if comment_line trimmed then s
  else if starts_with "import " trimmed || starts_with "import(" trimmed || inImportStatement s then
    let depth := (count_braces trimmed (importBraceDepth s) false).1 in
    {| importLines := importLines s ++ [line];
       importStartLine := Some (default (S i) (importStartLine s));
       importEndLine := Some (S i);
       importBraceDepth := depth;
       inImportStatement := negb ((depth <=? 0) && import_ends trimmed) |}
  else s.

Definition scan_imports (ls : list string) : ImportScan := fold_left scan_import (imap pair ls) no_imports.

Definition hit_module (p : piece) : option string :=
  match p with
  | Hit _ gs => match orelse (group gs 1) (group gs 2) with Some m => if truthy m then Some m else None | None => None end
  | Kept _ => None
  end.

Definition extractImportModuleNames (importLines : list string) : list string :=
  set_of (filter_map hit_module (pieces RE_MODULE_SPECIFIER (join nl importLines))).

Section Splitter.
Context (self : AstCodebaseSplitter).

Definition import_pieces (ls : list string) : list Piece :=
  let s := scan_imports ls in
  match importLines s with
  | [] => []
  | il =>
      let importsContent := join nl il in
      if minChunkSize self <=? str_length importsContent then
        [{| content := importsContent; nodeType := NImports; identifier := "imports";
            startLine := default 0%nat (importStartLine s); endLine := default 0%nat (importEndLine s);
            extraMetadata := [("importedModules", VArr (map VStr (extractImportModuleNames il)))] |}]
      else []
  end.

(** ** Blocks and statements *)

(** From line [i] on, as far as the block goes: its lines, those of its body, and the
    index of its last line, or of the end of the text. *)
Fixpoint braced (rest : list string) (i : nat) (first found : bool) (count : Z) (block body : list string)
    : list string * list string * nat :=
  match rest with
  | [] => (block, body, i)
  | line :: rest' =>
      let block := block ++ [line] in
      let '(count, found) := count_braces line count found in
      if found then
        if count =? 0 then (block, body, i)
        else braced rest' (S i) false found count block (if first then body else body ++ [line])
      else braced rest' (S i) false found count block body
  end.

Record Block : Type := { blockContent : string; blockEndLine : nat; nextIdx : nat; bodyLines : list string }.

Definition extractBracedBlock (ls : list string) (startIdx : nat) (leadingLines : list string) : Block :=
  let '(block, body, i) := braced (drop startIdx ls) startIdx true false 0 leadingLines [] in
  {| blockContent := trim (join nl block); blockEndLine := S i; nextIdx := S i; bodyLines := body |}.

Fixpoint statement (rest : list string) (i : nat) (stmt : list string) : list string * nat :=
  match rest with
  | [] => (stmt, i)
  | line :: rest' => if includes ";" line then (stmt ++ [line], i) else statement rest' (S i) (stmt ++ [line])
  end.

Definition extractSemicolonStatement (ls : list string) (startIdx : nat) (leadingLines : list string) : Block :=
  let '(stmt, i) := statement (drop startIdx ls) startIdx leadingLines in
  {| blockContent := trim (join nl stmt); blockEndLine := S i; nextIdx := S i; bodyLines := [] |}.

(** ** Class members *)

(** [s.replace(r, '')] of an expression that starts with [^]. *)
Definition strip (r : re) (s : string) : string :=
  match match_at (seq [RStart; r]) None (chars s) with Some (n, _) => of_chars (drop n (chars s)) | None => s end.

Definition decorator_re : re := seq [text "@"; plus (set word); opt (seq [text "("; star (none_of (one_of ")")); text ")"]); gap].
Definition modifier_re : re := seq [alt (map text ["public"; "private"; "protected"; "static"; "readonly"; "override"; "abstract"; "async"]); gap].
Definition accessor_re : re := seq [alt [text "get"; text "set"]; gap].
Definition member_re : re := seq [RStart; RGroup 1 (alt [text "constructor"; seq [opt (text "#"); ident]])].
Definition static_re : re := seq [RBoundary; text "static"; RBoundary].

Definition cleanLine (trimmed : string) : string :=
  strip accessor_re (strip modifier_re (strip modifier_re (strip decorator_re trimmed))).

Definition memberName (trimmed : string) : option string :=
  match exec member_re (cleanLine trimmed) with Some gs => group gs 1 | None => None end.

Record Member : Type := { m_name : string; m_content : string; m_start : nat; m_end : nat; m_static : bool }.

Definition skipped_member (trimmed : string) : bool :=
  str_is_empty trimmed || starts_with "//" trimmed || starts_with "/*" trimmed || starts_with "*" trimmed.

(** The lines of a method, and how many they are without the last. *)
Fixpoint method_lines (rest : list string) (n : nat) (found : bool) (count : Z) (acc : list string) : list string * nat :=
  match rest with
  | [] => (acc, n)
  | line :: rest' =>
      let '(count, found) := count_braces line count found in
      if found && (count =? 0) then (acc ++ [line], n) else method_lines rest' (S n) found count (acc ++ [line])
  end.

Definition long_enough (s : string) : bool := minChunkSize self <=? str_length s.

Definition property_of (className name trimmed : string) (at_ : nat) (static : bool) : list Member :=
  if long_enough trimmed then
    [{| m_name := name; m_content := "// Property in class " +:+ className +:+ nl +:+ trimmed; m_start := at_; m_end := at_;
        m_static := static |}]
  else [].

Definition method_of (className name content : string) (from to : nat) (static : bool) : list Member :=
  if long_enough content then
    [{| m_name := name; m_content := "// Method in class " +:+ className +:+ nl +:+ content; m_start := from; m_end := to;
        m_static := static |}]
  else [].

Fixpoint members (fuel : nat) (body : list string) (className : string) (bodyStartLine i : nat) : list Member :=
  match fuel with
  | O => []
  | S fuel' =>
      match body !! i with
      | None => []
      | Some line =>
          let trimmed := trim line in
          if skipped_member trimmed then members fuel' body className bodyStartLine (S i)
          else
            match memberName trimmed with
            | None => members fuel' body className bodyStartLine (S i)
            | Some name =>
                if bool_decide (name ∈ RESERVED_KEYWORDS) then members fuel' body className bodyStartLine (S i)
                else
                  let static := test static_re trimmed in
                  if includes ";" trimmed && negb (includes "{" trimmed) then
                    property_of className name trimmed (bodyStartLine + i) static ++
                    members fuel' body className bodyStartLine (S i)
                  else
                    let '(ms, n) := method_lines (drop i body) 0 false 0 [] in
                    method_of className name (trim (join nl ms)) (bodyStartLine + i) (bodyStartLine + (i + n)) static ++
                    members fuel' body className bodyStartLine (S (i + n))
            end
      end
  end.

Definition splitClassMembers (body : list string) (className : string) (bodyStartLine : nat) : list Member :=
  members (length body) body className bodyStartLine 0.

(** ** Declarations *)

Definition is_leading (line : string) : bool :=
  let t := trim line in
  starts_with "@" t || starts_with "/**" t || starts_with "*" t || starts_with "*/" t || starts_with "//" t.

Fixpoint leading (ls : list string) : list string :=
  match ls with line :: ls' => if is_leading line then line :: leading ls' else [] | [] => [] end.

(** A declaration: the index of its first line with what leads it, the index after it,
    and its chunks. *)
Record Declaration : Type := { d_from : nat; d_next : nat; d_pieces : list Piece }.

Definition exported (current : string) : string * value := ("exported", VBool (starts_with "export " current)).

Definition block_declaration (t : AstNodeType) (name : string) (from : nat) (b : Block) (extra : obj) : Declaration := {|
  d_from := from; d_next := nextIdx b;
  d_pieces := [{| content := blockContent b; nodeType := t; identifier := name; startLine := S from; endLine := blockEndLine b;
                  extraMetadata := extra |}] |}.

(** [current.split('{')[0]] *)
Definition before_brace (s : string) : string := of_chars (hd [] (Schema.split_on "{"%char (chars s) [])).

Definition class_signature (lead : list string) (current : string) : string :=
  trim (join nl lead +:+ nl +:+ trim (before_brace current) +:+ " { ... }").

Definition class_declaration (name current : string) (from idx : nat) (lead : list string) (b : Block) : Declaration :=
  if splitClassMethods self && (maxChunkSize self <? str_length (blockContent b)) && negb (bool_decide (bodyLines b = [])) then
    {| d_from := from; d_next := nextIdx b;
       d_pieces :=
         {| content := class_signature lead current; nodeType := NClass; identifier := name; startLine := S from; endLine := S idx;
            extraMetadata := [exported current; ("isClassSignature", VBool true)] |} ::
         map (fun m => {| content := m_content m; nodeType := NFunction; identifier := name +:+ "." +:+ m_name m;
                          startLine := m_start m; endLine := m_end m;
                          extraMetadata := [("parentClass", VStr name); exported current; ("isStatic", VBool (m_static m))] |})
           (splitClassMembers (bodyLines b) name (idx + 2)) |}
  else block_declaration NClass name from b [exported current].

(** What is declared on a line, if anything is. *)
Definition declaration (ls : list string) (from idx : nat) (lead : list string) (current : string) : option Declaration :=
  let block := extractBracedBlock ls idx lead in
  match matched_name RE_INTERFACE current with
  | Some name => Some (block_declaration NInterface (default EmptyString name) from block [exported current])
  | None =>
  match matched_name RE_TYPE_ALIAS current with
  | Some name => Some (block_declaration NType (default EmptyString name) from (extractSemicolonStatement ls idx lead) [exported current])
  | None =>
  match matched_name RE_CLASS current with
  | Some name => Some (class_declaration (default EmptyString name) current from idx lead block)
  | None =>
  match matched_name RE_FUNCTION current with
  | Some name => Some (block_declaration NFunction (default "anonymousFunction" name) from block [exported current])
  | None =>
  match matched_name RE_ARROW_FUNCTION current with
  | Some name => Some (block_declaration NFunction (default EmptyString name) from block [exported current; ("isArrow", VBool true)])
  | None =>
  match matched_name RE_ENUM current with
  | Some name => Some (block_declaration NEnum (default EmptyString name) from block [exported current])
  | None => None
  end end end end end end.

Definition passed_over (line : string) : bool := starts_with "import " (trim line) || blank line.

Fixpoint declarations (fuel : nat) (ls : list string) (idx : nat) : list Declaration :=
  match fuel with
  | O => []
  | S fuel' =>
      match ls !! idx with
      | None => []
      | Some line =>
          if passed_over line then declarations fuel' ls (S idx)
          else
            let lead := leading (drop idx ls) in
            let at_ := (idx + length lead)%nat in
            match ls !! at_ with
            | None => []
            | Some current =>
                match declaration ls idx at_ lead (trim current) with
                | Some d => d :: declarations fuel' ls (d_next d)
                | None => declarations fuel' ls (S at_)
                end
            end
      end
  end.

Definition declared (ls : list string) : list Declaration := declarations (length ls) ls 0.

(** ** The splitter *)

Definition first_truthy (a b : string) : string := if truthy a then a else b.

Definition file_name (document : Document) : string :=
  first_truthy (title document)
    (match obj_get (doc_metadata document) "filePath" with Some (VStr s) => s | _ => "source.ts" end).

Definition obj_spread (a b : obj) : obj := fold_left (fun o kv => obj_set o kv.1 kv.2) b a.

Definition createChunk (document : Document) (docId : string) (n : nat) (p : Piece) : DocumentChunk := {|
  chunk_id := docId +:+ "_ast_" +:+ Z_to_string (Z.of_nat (S n));
  parentId := docId;
  chunk_content := trim (content p);
  embedding := None;
  chunk_metadata :=
    obj_spread (obj_spread (doc_metadata document) (extraMetadata p))
      [("filePath", VStr (file_name document)); ("nodeType", VStr (node_name (nodeType p)));
       ("identifier", VStr (identifier p)); ("startLine", VNum (num_of_Z (Z.of_nat (startLine p))));
       ("endLine", VNum (num_of_Z (Z.of_nat (endLine p))))];
  chunk_provenance := None |}.

Definition split_pieces (rawContent : string) : list Piece :=
  import_pieces (lines rawContent) ++ concat (map d_pieces (declared (lines rawContent))).

(** [now] is [Date.now()]. *)
Definition splitDocument (now : Z) (document : Document) : list DocumentChunk :=
  if blank (rawContent document) then []
  else
    let docId := first_truthy (doc_id document) ("doc_" +:+ Z_to_string now) in
    imap (createChunk document docId) (split_pieces (rawContent document)).

(** ** Line ranges *)

(** Lines [from] to [to], counted from one. *)
Definition line_range (ls : list string) (from to : nat) : list string := take (to - Nat.pred from) (drop (Nat.pred from) ls).

Lemma braced_range rest : forall i first found n block body bs bd j,
  braced rest i first found n block body = (bs, bd, j) -> (i <= j)%nat /\ bs = block ++ take (S j - i) rest.
Proof.
  induction rest as [|line rest IH]; intros i first found n block body bs bd j H; simpl in H.
  - simplify_eq. rewrite take_nil, app_nil_r. split; [lia|done].
  - assert (forall f fd n' body', braced rest (S i) f fd n' (block ++ [line]) body' = (bs, bd, j) ->
      (i <= j)%nat /\ bs = block ++ take (S j - i) (line :: rest)) as Hgo.
    { intros f fd n' body' H'. apply IH in H' as [Hj ->]. split; [lia|].
      replace (S j - i)%nat with (S (S j - S i)) by lia. simpl. by rewrite <- app_assoc. }
    destruct (count_braces line n found) as [n' fd]. destruct fd; [|by eapply Hgo]. destruct (n' =? 0); [|by eapply Hgo].
    simplify_eq. split; [lia|]. by replace (S j - j)%nat with 1%nat by lia.
Qed.

Lemma statement_range rest : forall i stmt st j, statement rest i stmt = (st, j) -> (i <= j)%nat /\ st = stmt ++ take (S j - i) rest.
Proof.
  induction rest as [|line rest IH]; intros i stmt st j H; simpl in H.
  - simplify_eq. rewrite take_nil, app_nil_r. split; [lia|done].
  - destruct (includes ";" line).
    + simplify_eq. split; [lia|]. by replace (S j - j)%nat with 1%nat by lia.
    + apply IH in H as [Hj ->]. split; [lia|]. replace (S j - i)%nat with (S (S j - S i)) by lia. simpl. by rewrite <- app_assoc.
Qed.

Lemma leading_take ls : leading ls = take (length (leading ls)) ls.
Proof. induction ls as [|l ls IH]; simpl; [done|]. destruct (is_leading l); simpl; [by f_equal|done]. Qed.

Lemma leading_leads ls i line : (i < length (leading ls))%nat -> ls !! i = Some line -> is_leading line = true.
Proof.
  revert i. induction ls as [|l ls IH]; intros i Hi H; [done|]. simpl in Hi. destruct (is_leading l) eqn:E; [|simpl in Hi; lia].
  destruct i as [|i]; [by simplify_eq/=|]. simpl in *. eapply IH; [|done]. lia.
Qed.

(** What leads a declaration and its own lines are one range. *)
Lemma range_with_leading ls idx j : let lead := leading (drop idx ls) in (idx + length lead <= j)%nat ->
  lead ++ take (S j - (idx + length lead)) (drop (idx + length lead) ls) = line_range ls (S idx) (S j).
Proof.
  intros lead Hj. unfold line_range. simpl Nat.pred. pose proof (leading_take (drop idx ls) : lead = take (length lead) (drop idx ls)) as Hl.
  rewrite Hl at 1. rewrite <- drop_drop. replace (S j - idx)%nat with (length lead + (S j - (idx + length lead)))%nat by lia.
  apply take_take_drop.
Qed.

(** A chunk that is the lines it says, from the first line of a declaration to its last. *)
Definition whole_range (ls : list string) (d : Declaration) (p : Piece) : Prop :=
  startLine p = S (d_from d) /\ endLine p = d_next d /\ content p = trim (join nl (line_range ls (startLine p) (endLine p))).

Definition is_signature (p : Piece) : Prop := nodeType p = NClass /\ obj_get (extraMetadata p) "isClassSignature" = Some (VBool true).

(** One chunk of the whole declaration, or a signature and the members of a class. *)
Definition faithful (ls : list string) (d : Declaration) : Prop :=
  (exists p, d_pieces d = [p] /\ whole_range ls d p) \/
  (exists p ms, d_pieces d = p :: ms /\ is_signature p /\ startLine p = S (d_from d) /\ (endLine p <= d_next d)%nat).

Lemma block_faithful ls t name idx b extra :
  (exists j, nextIdx b = S j /\ blockEndLine b = S j /\ blockContent b = trim (join nl (line_range ls (S idx) (S j)))) ->
  faithful ls (block_declaration t name idx b extra).
Proof. intros (j & Hn & He & Hc). left. eexists. split; [done|]. unfold whole_range. simpl. by rewrite He, Hn. Qed.

Lemma extract_block ls idx : let lead := leading (drop idx ls) in
  let b := extractBracedBlock ls (idx + length lead) lead in
  exists j, nextIdx b = S j /\ blockEndLine b = S j /\ (idx + length lead <= j)%nat /\ blockContent b = trim (join nl (line_range ls (S idx) (S j))).
Proof.
  intros lead. unfold extractBracedBlock. destruct (braced _ _ _ _ _ _ _) as [[bs bd] j] eqn:H. apply braced_range in H as [Hj ->].
  exists j. split_and!; [done..|]. simpl. do 2 f_equal. by apply range_with_leading.
Qed.

Lemma extract_statement ls idx : let lead := leading (drop idx ls) in
  let b := extractSemicolonStatement ls (idx + length lead) lead in
  exists j, nextIdx b = S j /\ blockEndLine b = S j /\ (idx + length lead <= j)%nat /\ blockContent b = trim (join nl (line_range ls (S idx) (S j))).
Proof.
  intros lead. unfold extractSemicolonStatement. destruct (statement _ _ _) as [st j] eqn:H. apply statement_range in H as [Hj ->].
  exists j. split_and!; [done..|]. simpl. do 2 f_equal. by apply range_with_leading.
Qed.

Lemma declaration_spec ls idx current d : let lead := leading (drop idx ls) in
  declaration ls idx (idx + length lead) lead current = Some d ->
  d_from d = idx /\ (idx + length lead < d_next d)%nat /\ faithful ls d.
Proof.
  intros lead. pose proof (extract_block ls idx) as (j & Hn & He & Hj & Hc). pose proof (extract_statement ls idx) as (j' & Hn' & He' & Hj' & Hc').
  fold lead in Hn, He, Hj, Hc, Hn', He', Hj', Hc'.
  assert (forall t name extra, let d := block_declaration t name idx (extractBracedBlock ls (idx + length lead) lead) extra in
    d_from d = idx /\ (idx + length lead < d_next d)%nat /\ faithful ls d) as Hb.
  { intros t name extra. split_and!; [done|simpl; rewrite Hn; lia|]. apply block_faithful. eauto. }
  unfold declaration. repeat case_match; intros Hsome; simplify_eq; try apply Hb.
  - split_and!; [done|simpl; rewrite Hn'; lia|]. apply block_faithful. eauto.
  - unfold class_declaration. destruct (_ && _); [|apply Hb].
    cbn [d_from d_next d_pieces]. rewrite Hn. split_and!; [done|lia|].
    right. do 2 eexists. split_and!; [done|by split|done|]. simpl. lia.
Qed.

(** ** No declaration is lost *)

Definition DECLARATIONS : list re := [RE_INTERFACE; RE_TYPE_ALIAS; RE_CLASS; RE_FUNCTION; RE_ARROW_FUNCTION; RE_ENUM].

(** A line on which something is declared. *)
Definition declares (line : string) : bool := existsb (fun r => test r (trim line)) DECLARATIONS.

Lemma matched_test r current : is_some (matched_name r current) = test r current.
Proof. unfold matched_name, test. by destruct (exec r current). Qed.

Lemma declaration_none ls from idx lead line : declaration ls from idx lead (trim line) = None -> declares line = false.
Proof.
  unfold declaration, declares. simpl. rewrite <- !matched_test. repeat case_match; try done.
Qed.

Lemma anchored_search r l : forall b, (forall b' l', match_at r (Some b') l' = None) -> search r (Some b) l = None.
Proof. induction l as [|c l IH]; intros b H; simpl; rewrite H; [done|]. by apply IH. Qed.

Lemma anchored : Forall (fun r => forall b l, match_at r (Some b) l = None) DECLARATIONS.
Proof. repeat constructor. Qed.

(** No expression of a declaration matches a text that starts with [p]. *)
Lemma no_declaration_starts p s : Forall (fun r => forall l, match_at r None (chars p ++ l) = None) DECLARATIONS ->
  starts_with p s = true -> Forall (fun r => test r s = false) DECLARATIONS.
Proof.
  intros H Hs. assert (exists l, chars s = chars p ++ l) as [l Hl].
  { unfold starts_with in Hs. clear H. revert s Hs. induction p as [|c p IH]; intros s Hs; [by eexists|].
    destruct s as [|d s]; [done|]. simpl in Hs. destruct (ascii_dec c d) as [->|]; [|done]. destruct (IH s Hs) as [l Hl].
    exists l. simpl. by f_equal. }
  pose proof anchored as Ha. rewrite Forall_forall in H, Ha |- *. intros r Hr. unfold test, exec. rewrite Hl.
  specialize (H r Hr l). destruct (chars p ++ l) as [|c l']; simpl; rewrite H; [done|]. by rewrite (anchored_search r l' c (Ha r Hr)).
Qed.

Lemma declares_false line : Forall (fun r => test r (trim line) = false) DECLARATIONS -> declares line = false.
Proof. intros H. unfold declares. apply not_true_is_false. intros (r & Hr & Ht)%existsb_exists. rewrite Forall_forall in H. apply list_elem_of_In in Hr. rewrite H in Ht; done. Qed.

Lemma passed_declares line : passed_over line = true -> declares line = false.
Proof.
  intros H. apply declares_false. unfold passed_over in H. apply orb_true_iff in H as [H|H].
  - apply (no_declaration_starts "import "); [|done]. repeat constructor.
  - unfold blank in H. destruct (trim line); [|done]. repeat constructor.
Qed.

Lemma leading_declares line : is_leading line = true -> declares line = false.
Proof.
  intros H. apply declares_false. unfold is_leading in H. rewrite !orb_true_iff in H. destruct H as [[[[H|H]|H]|H]|H].
  - apply (no_declaration_starts "@"); [|done]. repeat constructor.
  - apply (no_declaration_starts "/**"); [|done]. repeat constructor.
  - apply (no_declaration_starts "*"); [|done]. repeat constructor.
  - apply (no_declaration_starts "*/"); [|done]. repeat constructor.
  - apply (no_declaration_starts "//"); [|done]. repeat constructor.
Qed.

Lemma declarations_cover ls i line : ls !! i = Some line -> declares line = true ->
  forall fuel idx, (idx <= i)%nat -> (length ls - idx <= fuel)%nat ->
  exists d, d ∈ declarations fuel ls idx /\ (d_from d <= i < d_next d)%nat.
Proof.
  intros Hi Hd. pose proof (lookup_lt_Some _ _ _ Hi) as Hl. induction fuel as [|fuel IH]; intros idx Hidx Hf; [lia|]. simpl.
  destruct (lookup_lt_is_Some_2 ls idx ltac:(lia)) as [here Hhere]. rewrite Hhere.
  assert (forall k l, ls !! k = Some l -> declares l = false -> k <> i) as Hne.
  { intros k l Hk Hn ->. simplify_eq. congruence. }
  destruct (passed_over here) eqn:Hp.
  { pose proof (Hne idx here Hhere (passed_declares here Hp)). apply IH; lia. }
  set (lead := leading (drop idx ls)) in *. assert (idx + length lead <= i)%nat as Hlead.
  { destruct (decide (idx + length lead <= i)%nat) as [|Hn]; [done|]. exfalso. apply (Hne i line); [done| |done]. apply leading_declares.
    apply (leading_leads (drop idx ls) (i - idx)); [fold lead; lia|]. rewrite lookup_drop. replace (idx + (i - idx))%nat with i by lia. done. }
  destruct (lookup_lt_is_Some_2 ls (idx + length lead) ltac:(lia)) as [current Hcur]. rewrite Hcur.
  destruct (declaration ls idx (idx + length lead) lead (trim current)) as [d|] eqn:E.
  - destruct (declaration_spec _ _ _ _ E) as (Hfrom & Hnext & _). fold lead in Hnext. destruct (decide (i < d_next d)%nat).
    + exists d. split; [by left|lia].
    + destruct (IH (d_next d)) as (d' & Hd' & Hr); [lia..|]. exists d'. split; [by right|done].
  - apply declaration_none in E. pose proof (Hne _ _ Hcur E). apply IH; lia.
Qed.

Lemma declarations_from ls fuel : forall idx, Forall (fun d => (idx <= d_from d)%nat /\ (d_from d < d_next d)%nat /\ faithful ls d) (declarations fuel ls idx) /\
  StronglySorted (fun d d' => (d_next d <= d_from d')%nat) (declarations fuel ls idx).
Proof.
  induction fuel as [|fuel IH]; intros idx; simpl; [by split; constructor|]. destruct (ls !! idx) as [here|]; [|by split; constructor].
  assert (forall k, (idx <= k)%nat -> Forall (fun d => (idx <= d_from d)%nat /\ (d_from d < d_next d)%nat /\ faithful ls d) (declarations fuel ls k)) as Hk.
  { intros k Hk. eapply Forall_impl; [exact (proj1 (IH k))|]. simpl. intros d (? & ? & ?). split_and!; [lia|done..]. }
  destruct (passed_over here); [split; [apply Hk; lia|apply IH]|].
  set (lead := leading (drop idx ls)). destruct (ls !! (idx + length lead)%nat) as [current|]; [|by split; constructor].
  destruct (declaration ls idx (idx + length lead) lead (trim current)) as [d|] eqn:E; [|split; [apply Hk; lia|apply IH]].
  destruct (declaration_spec _ _ _ _ E) as (Hfrom & Hnext & Hf). fold lead in Hnext. split.
  - constructor; [split_and!; [lia|lia|done]|]. apply Hk. lia.
  - constructor; [apply IH|]. eapply Forall_impl; [exact (proj1 (IH (d_next d)))|]. simpl. intros d' (? & ? & ?). lia.
Qed.

(** Every line on which something is declared belongs to the range of a declaration: the
    scan reaches the end of the text and drops none. *)
Theorem no_declaration_is_lost ls i line : ls !! i = Some line -> declares line = true ->
  exists d, d ∈ declared ls /\ (d_from d <= i < d_next d)%nat.
Proof. intros Hi Hd. apply (declarations_cover ls i line Hi Hd); lia. Qed.

(** Declarations are found in order, on lines of their own, and a declaration that is one
    chunk is the text of exactly the lines its chunk names; another is the signature of a
    class and its members. *)
Theorem chunks_are_line_ranges ls :
  Forall (faithful ls) (declared ls) /\ StronglySorted (fun d d' => (d_next d <= d_from d')%nat) (declared ls).
Proof.
  unfold declared. destruct (declarations_from ls (length ls) 0) as [H1 H2]. split; [|done]. eapply Forall_impl; [exact H1|]. by intros d (_ & _ & ?).
Qed.

(** ** Members are lines of the body *)

(** Lines [i] to [i + n] of the body, numbered from [start], under a line of comment. *)
Definition body_range (body : list string) (start : nat) (m : Member) : Prop :=
  exists i n title, (i < length body)%nat /\ m_start m = (start + i)%nat /\ m_end m = (start + (i + n))%nat /\
    m_content m = title +:+ nl +:+ trim (join nl (take (S n) (drop i body))).

Lemma method_lines_range rest : forall n fd c acc ms n',
  method_lines rest n fd c acc = (ms, n') -> (n <= n')%nat /\ ms = acc ++ take (S (n' - n)) rest.
Proof.
  induction rest as [|line rest IH]; intros n fd c acc ms n' H; simpl in H.
  - simplify_eq. rewrite take_nil, app_nil_r. split; [lia|done].
  - destruct (count_braces line c fd) as [c' fd']. destruct (fd' && (c' =? 0)).
    + simplify_eq. split; [lia|]. by rewrite Nat.sub_diag.
    + apply IH in H as [Hn ->]. split; [lia|]. replace (n' - n)%nat with (S (n' - S n)) by lia. simpl. by rewrite <- app_assoc.
Qed.

Lemma members_ranges body className start fuel : forall i,
  Forall (fun m => (start + i <= m_start m)%nat /\ body_range body start m) (members fuel body className start i) /\
  StronglySorted (fun m m' => (m_end m < m_start m')%nat) (members fuel body className start i).
Proof.
  induction fuel as [|fuel IH]; intros i; simpl; [by split; constructor|].
  destruct (body !! i) as [line|] eqn:Hi; [|by split; constructor]. pose proof (lookup_lt_Some _ _ _ Hi) as Hl.
  assert (forall k ms, (i < k)%nat -> Forall (fun m => (start + i <= m_start m)%nat /\ body_range body start m /\ (m_end m < start + k)%nat) ms ->
    (length ms <= 1)%nat ->
    Forall (fun m => (start + i <= m_start m)%nat /\ body_range body start m) (ms ++ members fuel body className start k) /\
    StronglySorted (fun m m' => (m_end m < m_start m')%nat) (ms ++ members fuel body className start k)) as Hgo.
  { intros k ms Hk Hms H1. destruct (IH k) as [Hf Hs].
    assert (Forall (fun m => (start + i <= m_start m)%nat /\ body_range body start m) (members fuel body className start k)) as Hf'.
    { eapply Forall_impl; [exact Hf|]. simpl. intros m [? ?]. split; [lia|done]. }
    destruct ms as [|m [|m' ms]]; [by split| |simpl in H1; lia]. apply Forall_cons in Hms as [(Hm1 & Hm2 & Hm3) _]. split.
    - constructor; [done|exact Hf'].
    - constructor; [done|]. eapply Forall_impl; [exact Hf|]. simpl. intros m' [? ?]. lia. }
  assert (Forall (fun m => (start + i <= m_start m)%nat /\ body_range body start m) (members fuel body className start (S i)) /\
    StronglySorted (fun m m' => (m_end m < m_start m')%nat) (members fuel body className start (S i))) as Hskip.
  { apply (Hgo (S i) []); [lia|constructor|simpl; lia]. }
  destruct (skipped_member (trim line)); [done|]. destruct (memberName (trim line)) as [name|]; [|done].
  destruct (bool_decide _); [done|]. destruct (_ && _).
  - apply Hgo; [lia| |unfold property_of; case_match; simpl; lia]. unfold property_of. case_match; [|constructor].
    constructor; [|constructor]. simpl. split_and!; [lia| |lia]. exists i, 0%nat, ("// Property in class " +:+ className). simpl.
    split_and!; [done|done|lia|]. rewrite (drop_S _ _ _ Hi). done.
  - destruct (method_lines _ _ _ _ _) as [ms n] eqn:E. apply method_lines_range in E as [_ ->].
    apply Hgo; [lia| |unfold method_of; case_match; simpl; lia]. unfold method_of. case_match; [|constructor].
    constructor; [|constructor]. simpl. split_and!; [lia| |lia]. exists i, n, ("// Method in class " +:+ className).
    split_and!; [done|done|done|]. by rewrite Nat.sub_0_r.
Qed.

(** The members of a class are in order, on lines of the body of their own, and their
    text is exactly those lines. *)
Lemma members_are_body_ranges body className start :
  Forall (body_range body start) (splitClassMembers body className start) /\
  StronglySorted (fun m m' => (m_end m < m_start m')%nat) (splitClassMembers body className start).
Proof.
  destruct (members_ranges body className start (length body) 0) as [H1 H2]. split; [|done].
  eapply Forall_impl; [exact H1|]. by intros m [_ ?].
Qed.

End Splitter.

(** ** Concrete texts *)

Definition small_chunks : AstCodebaseSplitter := mk_splitter (Some 10) (Some 1) None.
Definition named (ps : list Piece) : list (string * nat * nat) := map (fun p => (identifier p, startLine p, endLine p)) ps.
Definition source (ls : list string) : string := join nl ls.

Definition demo_source : list string :=
  ["import { a,"; "  b } from './x';"; EmptyString; "/** doc */"; "export interface Foo {"; "  a: string;"; "}"; "type T = A |"; " B;";
   "@Dec()"; "export class K extends B {"; "  static run(x: number) {"; "    return x;"; "  }"; "  name = 'n';"; "}";
   "export const f = async (x: T): Promise<void> => {"; "  if (x) { y(); }"; "};"].

Example demo_is_split :
  named (split_pieces small_chunks (source demo_source)) =
  [("imports", 1, 2); ("Foo", 4, 7); ("T", 8, 9); ("K", 10, 11); ("K.run", 12, 14); ("K.name", 15, 15); ("f", 17, 19)]%nat.
Proof. by vm_compute. Qed.

(** Two modifiers are removed: a third becomes the name of the member. *)
Example third_modifier_becomes_the_name :
  named (split_pieces small_chunks (source ["class K {"; "  private static async run() {"; "  }"; "}"])) = [("K", 1, 1); ("K.async", 2, 3)]%nat.
Proof. by vm_compute. Qed.

(** When the brace of a class opens on its second line, that line is taken for a member
    that holds all the others. *)
Example second_header_line_becomes_a_member :
  named (split_pieces small_chunks (source ["class K"; "  extends B {"; "  run() {"; "  }"; "  stop() {"; "  }"; "}"])) =
  [("K", 1, 1); ("K.extends", 2, 7)]%nat.
Proof. by vm_compute. Qed.

(** An import that binds nothing and has no semicolon takes the lines after it. *)
Example bare_import_takes_the_code :
  map (fun p => (content p, startLine p, endLine p)) (split_pieces small_chunks (source ["import './setup'"; "start()"; "class K {"; "}"])) =
  [(source ["import './setup'"; "start()"; "class K {"; "}"], 1, 4); (source ["class K {"; "}"], 3, 4)]%nat.
Proof. by vm_compute. Qed.

(** A brace in a string counts: the declarations after it are inside the chunk. *)
Example brace_in_a_string_keeps_the_block_open :
  named (split_pieces small_chunks (source ["function f() {"; "  g('{');"; "}"; "class K {"; "}"])) = [("f", 1, 6)]%nat.
Proof. by vm_compute. Qed.

Lemma no_declaration_is_lost_witness :
  exists d, d ∈ declared small_chunks demo_source /\ (d_from d <= 10 < d_next d)%nat.
Proof. apply (no_declaration_is_lost small_chunks demo_source 10 "export class K extends B {"); by vm_compute. Defined.

End AstSplitter.
