(* ===== verification/RagStages.v ===== *)
(** * Further stages of retrieval (packages/rag/src)

    The semantic document splitter, query expansion, hierarchical context, late chunking,
    and the scores of the rerank services.  What a service or a model answers is a
    parameter; texts are bytes. *)

From Stdlib Require Import Ascii String.
From S2P Require Export Regexp Schema RagStrategies.

#[local] Open Scope string_scope.
#[local] Open Scope list_scope.
#[local] Open Scope Z_scope.
#[local] Open Scope eff_scope.

Module RagStages.
Import Retrieval.

(** ** The semantic document splitter (splitters/semantic-document.splitter.ts) *)

Module SemanticSplitter.
Import Regexp.

Record SemanticDocumentSplitter : Type := { maxChunkSize : Z; minChunkSize : Z; chunkOverlap : Z }.

Definition mk_semantic_splitter (max min overlap : option Z) : SemanticDocumentSplitter := {|
  maxChunkSize := default 500 max; minChunkSize := default 50 min; chunkOverlap := default 50 overlap |}.

Definition newline_re : re := text nl.
Definition hashes : re := from_to 1 6 (text "#").

Definition SECTION_re : re := alt [RAhead (seq [newline_re; hashes; plus white]); seq [newline_re; plus newline_re]].
Definition HEADER_re : re :=
  seq [RLineStart; hashes; plus white; RGroup 1 (plus (none_of (one_of (String "013"%char nl)))); RLineEnd].
Definition SENTENCE_re : re := seq [RBehind (one_of (".!?" +:+ nl)); plus white].

Section Splitter.
Context (self : SemanticDocumentSplitter).

(** Sentences packed behind what the current chunk holds. *)
Fixpoint pack (sentences : list string) (current : string) : list string :=
  match sentences with
  | [] => if str_is_empty (trim current) then [] else [trim current]
  | sentence :: rest =>
      if (maxChunkSize self <? str_length (current +:+ " " +:+ sentence)) && (minChunkSize self <=? str_length current) then
        let overlapStart := Z.max 0 (str_length current - chunkOverlap self) in
        trim current :: pack rest (of_chars (drop (Z.to_nat overlapStart) (chars current)) +:+ " " +:+ sentence)
      else pack rest (if truthy current then current +:+ " " +:+ sentence else sentence)
  end.

(** The texts of a section. *)
Definition section_texts (section : string) : list string :=
  if str_length section <=? maxChunkSize self then [section] else pack (split SENTENCE_re section) EmptyString.

Definition title_after (section currentSectionTitle : string) : string :=
  match exec HEADER_re section with Some gs => trim (default EmptyString (group gs 1)) | None => currentSectionTitle end.

Fixpoint sections (raws : list string) (currentSectionTitle : string) : list (string * string) :=
  match raws with
  | [] => []
  | raw :: rest =>
      let section := trim raw in
      if str_is_empty section then sections rest currentSectionTitle
      else
        let title := title_after section currentSectionTitle in
        map (fun t => (t, title)) (section_texts section) ++ sections rest title
  end.

(** [uuid i] is what the random identifier of the chunk gives. *)
Definition semantic_chunk (uuid : nat -> string) (document : Document) (i : nat) (p : string * string) : DocumentChunk := {|
  chunk_id := doc_id document +:+ "_chunk_" +:+ Z_to_string (Z.of_nat i) +:+ "_" +:+ slice_to (uuid i) 8;
  parentId := doc_id document;
  chunk_content := p.1;
  embedding := None;
  chunk_metadata := obj_set (obj_set (obj_set (doc_metadata document) "chunkIndex" (VNum (num_of_Z (Z.of_nat i))))
    "documentTitle" (VStr (title document))) "sectionTitle" (VStr p.2);
  chunk_provenance := None |}.

Definition raw_sections (document : Document) : list string := split SECTION_re (rawContent document).

Definition splitDocument (uuid : nat -> string) (document : Document) : list DocumentChunk :=
  if str_is_empty (trim (rawContent document)) then []
  else imap (semantic_chunk uuid document) (sections (raw_sections document) (title document)).

(** *** No sentence is lost *)

Definition infix_of (x t : string) : Prop := exists a b, t = a +:+ x +:+ b.

Lemma infix_refl x : infix_of x x.
Proof.
  exists EmptyString, EmptyString. apply chars_inj. rewrite !chars_app. change (chars x = chars x ++ []). by rewrite List.app_nil_r.
Qed.

Lemma app_string_assoc (a b c : string) : (a +:+ b) +:+ c = a +:+ (b +:+ c).
Proof. apply chars_inj. by rewrite !chars_app, app_assoc. Qed.

Lemma infix_left x a t : infix_of x t -> infix_of x (a +:+ t).
Proof. intros (p & q & ->). exists (a +:+ p), q. by rewrite app_string_assoc. Qed.

Lemma infix_right x t b : infix_of x t -> infix_of x (t +:+ b).
Proof. intros (p & q & ->). exists p, (q +:+ b). by rewrite !app_string_assoc. Qed.

Definition visible (s : string) : Prop := exists c, c ∈ chars s /\ is_space c = false.

Lemma infix_visible x t : infix_of x t -> visible x -> visible t.
Proof. intros (p & q & ->) (c & Hc & Hs). exists c. rewrite !chars_app. split; [set_solver|done]. Qed.

Lemma drop_spaces_nil l : drop_while is_space l = [] -> Forall (fun c => is_space c = true) l.
Proof. induction l as [|c l IH]; simpl; [by constructor|]. destruct (is_space c) eqn:E; [|done]. intros H. constructor; auto. Qed.

Lemma drop_spaces_keep c l : c ∈ l -> is_space c = false -> c ∈ drop_while is_space l.
Proof.
  intros Hc Hs. induction l as [|d l IH]; simpl; [done|]. destruct (is_space d) eqn:E; [|done].
  apply elem_of_cons in Hc as [->|Hc]; [congruence|auto].
Qed.

Lemma visible_trim s : visible s -> str_is_empty (trim s) = false.
Proof.
  intros (c & Hc & Hs). destruct (str_is_empty (trim s)) eqn:E; [|done]. exfalso.
  assert (c ∈ chars (trim s)) as H.
  { unfold trim. rewrite chars_of_chars. apply elem_of_reverse_2 || rewrite <- elem_of_rev_iff || idtac.
    rewrite <- elem_of_list_In || idtac. apply list_elem_of_In, in_rev. rewrite rev_involutive. apply list_elem_of_In.
    apply drop_spaces_keep; [|done]. apply list_elem_of_In. rewrite <- in_rev. apply list_elem_of_In. by apply drop_spaces_keep. }
  destruct (trim s); [|done]. by apply elem_of_nil in H.
Qed.

Lemma pack_keeps x : visible x -> forall sentences current, x ∈ sentences \/ infix_of x current ->
  exists t, trim t ∈ pack sentences current /\ infix_of x t.
Proof.
  intros Hx. induction sentences as [|s rest IH]; intros current H; simpl.
  - destruct H as [H|H]; [by apply elem_of_nil in H|]. exists current. split; [|done].
    rewrite visible_trim; [left|]. by eapply infix_visible.
  - destruct (_ && _).
    + destruct H as [H|H]; [|exists current; split; [left|done]]. apply elem_of_cons in H as [->|H].
      * destruct (IH (of_chars (drop (Z.to_nat (Z.max 0 (str_length current - chunkOverlap self))) (chars current)) +:+ " " +:+ s))
          as (t & Ht & Hi); [right; apply infix_left, infix_left, infix_refl|]. exists t. split; [by right|done].
      * destruct (IH (of_chars (drop (Z.to_nat (Z.max 0 (str_length current - chunkOverlap self))) (chars current)) +:+ " " +:+ s))
          as (t & Ht & Hi); [by left|]. exists t. split; [by right|done].
    + apply IH. destruct H as [H|H]; [apply elem_of_cons in H as [->|H]; [|by left]|]; right.
      * destruct (truthy current); [apply infix_left, infix_left|]; apply infix_refl.
      * destruct current as [|c current]; [|by apply infix_right].
        destruct H as (p & q & H), Hx as (c & Hc & _). exfalso. assert (c ∈ chars EmptyString) as Hn; [rewrite H, !chars_app; set_solver|].
        by apply elem_of_nil in Hn.
Qed.

(** Every sentence of a section is whole in a chunk of the section. *)
Theorem no_sentence_is_lost section sentence :
  (str_length section <= maxChunkSize self -> section_texts section = [section]) /\
  (maxChunkSize self < str_length section -> sentence ∈ split SENTENCE_re section -> visible sentence ->
   exists t, trim t ∈ section_texts section /\ infix_of sentence t).
Proof.
  unfold section_texts. split; intros H.
  - by rewrite (proj2 (Z.leb_le _ _)).
  - rewrite (proj2 (Z.leb_gt _ _)) by done. intros Hs Hv. apply pack_keeps; [done|by left].
Qed.

(** *** Sizes *)

Lemma trim_shorter s : str_length (trim s) <= str_length s.
Proof.
  assert (forall l, (length (drop_while is_space l) <= length l)%nat) as Hd.
  { induction l as [|c l IH]; simpl; [done|]. destruct (is_space c); simpl; lia. }
  unfold trim. rewrite length_of_chars, length_rev, str_length_chars. pose proof (Hd (chars s)) as H1.
  pose proof (Hd (rev (drop_while is_space (chars s)))) as H2. rewrite length_rev in H2. lia.
Qed.

(** What a chunk may hold when its sentences are no longer than [longest]. *)
Definition size_bound (longest : Z) : Z :=
  Z.max (maxChunkSize self) (Z.max (Z.max 0 (chunkOverlap self)) (minChunkSize self) + 1 + longest).

Lemma pack_bounded longest sentences : 0 <= longest -> Forall (fun s => str_length s <= longest) sentences ->
  forall current, str_length current <= size_bound longest ->
  Forall (fun t => str_length t <= size_bound longest) (pack sentences current).
Proof.
  intros H0 Hs. induction Hs as [|s rest Hl Hs IH]; intros current Hc; simpl.
  - case_match; [constructor|]. constructor; [|constructor]. pose proof (trim_shorter current). lia.
  - destruct (_ && _) eqn:E.
    + constructor; [pose proof (trim_shorter current); lia|]. apply IH. rewrite !str_length_app, length_of_chars, length_drop.
      rewrite (str_length_chars current). change (str_length " ") with 1. unfold size_bound in *. lia.
    + apply IH. destruct (truthy current) eqn:Ht; [|unfold size_bound; lia].
      apply andb_false_iff in E as [E|E].
      * apply Z.ltb_ge in E. unfold size_bound. lia.
      * apply Z.leb_gt in E. rewrite !str_length_app. change (str_length " ") with 1. unfold size_bound. lia.
Qed.

(** A chunk is longer than the maximum by no more than a sentence behind an overlap, or
    behind a chunk below the minimum. *)
Theorem chunk_size_is_bounded section longest : 0 <= longest -> Forall (fun s => str_length s <= longest) (split SENTENCE_re section) ->
  Forall (fun t => str_length t <= size_bound longest) (section_texts section).
Proof.
  intros H0 Hs. unfold section_texts. destruct (str_length section <=? maxChunkSize self) eqn:E.
  - apply Z.leb_le in E. constructor; [unfold size_bound; lia|constructor].
  - apply (pack_bounded longest); [done|done|]. change (str_length EmptyString) with 0. unfold size_bound. lia.
Qed.

(** The chunks of a document are numbered in order. *)
Lemma semantic_chunks_numbered uuid document i c : splitDocument uuid document !! i = Some c ->
  obj_get (chunk_metadata c) "chunkIndex" = Some (VNum (num_of_Z (Z.of_nat i))) /\ parentId c = doc_id document.
Proof.
  unfold splitDocument. case_match; [done|]. rewrite list_lookup_imap. intros (p & _ & ->)%fmap_Some.
  simpl. by rewrite !obj_get_set, !bool_decide_false, bool_decide_true by done.
Qed.
End Splitter.

Definition small_sections : SemanticDocumentSplitter := mk_semantic_splitter (Some 20) (Some 5) (Some 4).

Definition guide : Document := {|
  doc_id := "d"; title := "Guide"; rawContent := "Intro." +:+ nl +:+ "# Start here" +:+ nl +:+ "One two three. Four five six. Seven!" +:+ nl +:+ nl +:+ "End.";
  chunks := []; doc_metadata := []; timestamp := None |}.

Example guide_is_split :
  map (fun c => (chunk_id c, chunk_content c, meta_string (chunk_metadata c) "sectionTitle")) (splitDocument small_sections (fun _ => "0123456789") guide) =
  [("d_chunk_0_01234567", "Intro.", Some "Guide"); ("d_chunk_1_01234567", "# Start here" +:+ nl +:+ "One two three.", Some "Start here");
   ("d_chunk_2_01234567", "ree. Four five six.", Some "Start here"); ("d_chunk_3_01234567", "six. Seven!", Some "Start here");
   ("d_chunk_4_01234567", "End.", Some "Start here")].
Proof. vm_compute. reflexivity. Qed.

End SemanticSplitter.

(** ** Query expansion (strategies/query-expansion.strategy.ts) *)

Module QueryExpansion.
Import Regexp.

(** An expression made of a word of the query; [None] is no expression, which throws. *)
Section QueryExpansion.
Context {W : Type} (compile : string -> option re).

Inductive event : Type := AskModel (prompt : string) | AskExpander (query : string).

Record QueryExpansionStrategy : Type := {
  synonymsMap : list (string * list string);
  expandQueryFn : option (string -> W -> outcome error value * W);
  llmProvider : option (string -> W -> outcome error value * W);
  useLLM : bool;
}.

Definition mk_expansion (synonyms : option (list (string * list string)))
    (expand llm : option (string -> W -> outcome error value * W)) (use : option bool) : QueryExpansionStrategy := {|
  synonymsMap := fold_left (fun m e => js_set m (to_lower e.1) e.2) (default [] synonyms) [];
  expandQueryFn := expand; llmProvider := llm; useLLM := default false use |}.

Notation M := (M error event W).
Context (self : QueryExpansionStrategy).

Definition prompt_for (rawQuery : string) : string :=
  "Generate 3 semantically equivalent search queries for: " +:+ in_quotes rawQuery +:+
  ". Output only comma-separated queries without numbering.".

Definition comma_parts (s : string) : list string :=
  List.filter truthy (map (fun q => trim (of_chars q)) (Schema.split_on ","%char (chars s) [])).

Definition add_all (expanded queries : list string) : list string := fold_left set_add queries expanded.

(** What the model adds; nothing when it fails. *)
Definition by_model (rawQuery : string) (expanded : list string) : M (list string) :=
  match useLLM self, llmProvider self with
  | true, Some f =>
      emit (AskModel (prompt_for rawQuery)) ;;
      catch (v <- lift (f (prompt_for rawQuery)) ;;
             ret match v with VStr s => if truthy s then add_all expanded (comma_parts s) else expanded | _ => expanded end)
            (fun _ => ret expanded)
  | _, _ => ret expanded
  end.

Definition usable_query (v : value) : option string :=
  match v with VStr s => if truthy (trim s) then Some (trim s) else None | _ => None end.

Definition by_function (rawQuery : string) (expanded : list string) : M (list string) :=
  match expandQueryFn self with
  | Some f =>
      emit (AskExpander rawQuery) ;;
      v <- lift (f rawQuery) ;;
      ret match v with VArr l => add_all expanded (filter_map usable_query l) | _ => expanded end
  | None => ret expanded
  end.

(** [rawQuery.replace(new RegExp(token, 'gi'), s)]; the synonym holds no [$]. *)
Fixpoint by_synonyms (rawQuery : string) (tokens : list string) (expanded : list string) : error + list string :=
  match tokens with
  | [] => inr expanded
  | token :: rest =>
      match js_get (synonymsMap self) token with
      | None | Some [] => by_synonyms rawQuery rest expanded
      | Some syns =>
          match compile token with
          | None => inl (NativeErr "SyntaxError" ("Invalid regular expression: /" +:+ token +:+ "/gi"))
          | Some r =>
              by_synonyms rawQuery rest
                (add_all expanded (map (fun s => replace_with (ignore_case r) (fun _ => s) rawQuery) syns))
          end
      end
  end.

Definition process (context : RAGContext) : M RAGContext :=
  let rawQuery := query context in
  e1 <- by_model rawQuery [rawQuery] ;;
  e2 <- by_function rawQuery e1 ;;
  match by_synonyms rawQuery (if bool_decide (synonymsMap self = []) then [] else split_spaces (to_lower rawQuery)) e2 with
  | inr e3 => ret (with_expanded e3 context)
  | inl e => throw e
  end.

(** Queries that begin with the raw one, none twice. *)
Definition led_by (rawQuery : string) (l : list string) : Prop := NoDup l /\ head l = Some rawQuery.

Lemma led_add q l qs : led_by q l -> led_by q (add_all l qs).
Proof.
  revert l. unfold add_all. induction qs as [|x qs IH]; intros l [Hn Hh]; [done|]. simpl. apply IH. split; [by apply set_add_NoDup|].
  unfold set_add. case_bool_decide; [done|]. by destruct l.
Qed.

Lemma led_synonyms q tokens : forall l l', led_by q l -> by_synonyms q tokens l = inr l' -> led_by q l'.
Proof.
  induction tokens as [|t tokens IH]; intros l l' Hl H; simpl in H; [by simplify_eq|].
  destruct (js_get _ _) as [[|s syns]|]; [by eapply IH|destruct (compile t); [|done]; eapply IH; [|done]; by apply led_add|by eapply IH].
Qed.

Lemma led_by_model q l w : led_by q l -> wp (by_model q l) w (fun o _ _ => match o with Ret l' => led_by q l' | Throw _ => False | Diverge => True end).
Proof.
  intros Hl. unfold by_model, wp. destruct (useLLM self); [|done]. destruct (llmProvider self) as [f|]; [|done].
  unfold bind, emit, catch, lift, ret. destruct (f (prompt_for q) w) as [[v|e|] w']; simpl; [|done|done].
  destruct v; try done. destruct (truthy s); [by apply led_add|done].
Qed.

Lemma led_by_function q l w : led_by q l -> wp (by_function q l) w (fun o _ _ => match o with Ret l' => led_by q l' | _ => True end).
Proof.
  intros Hl. unfold by_function, wp. destruct (expandQueryFn self) as [f|]; [|done].
  unfold bind, emit, lift, ret. destruct (f q w) as [[v|e|] w']; simpl; [|done|done].
  destruct v; try done. by apply led_add.
Qed.

(** Expansion keeps the query: what comes out begins with it and names no query twice, a
    model that fails changes nothing, and only the expander or a word that is no
    expression can make the stage throw. *)
Theorem expansion_keeps_the_query context w :
  wp (process context) w (fun o _ _ => match o with
    | Ret c => exists l, expandedQueries c = Some l /\ led_by (query context) l /\ rag_chunks c = rag_chunks context
    | Throw _ => expandQueryFn self <> None \/ exists token, js_has (synonymsMap self) token = true /\ compile token = None
    | Diverge => True
    end).
Proof.
  unfold process. assert (led_by (query context) [query context]) as H0 by (split; [by apply NoDup_singleton|done]).
  apply wp_bind. eapply wp_mono; [apply (led_by_model _ _ w H0)|]. intros [e1|e|] w1 ev1 H1; simpl; [|done|done].
  apply wp_bind. assert (wp (by_function (query context) e1) w1 (fun o _ _ => match o with Ret l' => led_by (query context) l' | Throw _ => expandQueryFn self <> None | Diverge => True end)) as H2.
  { pose proof (led_by_function (query context) e1 w1 H1) as H2. revert H2. unfold by_function, wp. destruct (expandQueryFn self) as [f|]; [|done].
    unfold bind, emit, lift, ret. by destruct (f (query context) w1) as [[v|e|] w']. }
  eapply wp_mono; [exact H2|]. intros [e2|e|] w2 ev2 H3; simpl; [|by left|done].
  destruct (by_synonyms _ _ _) as [e|e3] eqn:E.
  - unfold wp, throw. simpl. right. revert E. generalize (if bool_decide (synonymsMap self = []) then [] else split_spaces (to_lower (query context))) as tokens.
    intros tokens. revert e2 H3. induction tokens as [|t tokens IH]; intros e2 H3 E; simpl in E; [done|].
    destruct (js_get (synonymsMap self) t) as [[|s syns]|] eqn:G; [by eapply IH|destruct (compile t) eqn:C|by eapply IH].
    + eapply IH; [|done]. by apply led_add.
    + exists t. unfold js_has. by rewrite G.
  - unfold wp, ret. simpl. exists e3. split_and!; [done|by eapply led_synonyms|done].
Qed.
End QueryExpansion.

(** The syntax of a word without special characters, and of two that have some. *)
Definition demo_compile (token : string) : option re :=
  if bool_decide (token = "c++") then None else if bool_decide (token = "a.b") then Some (seq [text "a"; RSet false (fun _ => true); text "b"])
  else Some (text token).

Definition demo_expansion : QueryExpansionStrategy (W := unit) :=
  mk_expansion (Some [("Car", ["auto"; "vehicle"]); ("c++", ["cpp"])]) None
    (Some (fun _ w => (Throw (NativeErr "Error" "down"), w))) (Some true).

Definition asking (q : string) : RAGContext := {|
  query := q; expandedQueries := None; rag_chunks := None; rag_scores := None; hydratedParentContext := None; compressedContext := None;
  relationalFacts := None; graphContext := None; rag_filter := None; rag_metadata := None |}.

Example synonyms_replace_parts_of_words :
  (process demo_compile demo_expansion (asking "Car carpet") tt).1.1 =
  Ret (with_expanded ["Car carpet"; "auto autopet"; "vehicle vehiclepet"] (asking "Car carpet")).
Proof. by vm_compute. Qed.

(** A word with a synonym that is no regular expression makes the search fail. *)
Example word_that_is_no_expression_throws :
  (process demo_compile demo_expansion (asking "learn C++") tt).1.1 = Throw (NativeErr "SyntaxError" "Invalid regular expression: /c++/gi").
Proof. by vm_compute. Qed.
End QueryExpansion.

(** ** Hierarchical context (strategies/hierarchical-rag.strategy.ts) *)

Module Hierarchical.

Record HierarchicalRAGStrategy : Type := { groupByHeader : bool; rollupSiblings : bool }.
Definition mk_hierarchical (group rollup : option bool) : HierarchicalRAGStrategy := {|
  groupByHeader := default true group; rollupSiblings := default true rollup |}.

(** A section and its chunks; the nodes of the chunks are their ids and contents. *)
Record HierarchicalNode : Type := { node_id : string; node_title : string; node_content : string; children : list (string * string) }.

Definition or_else (a : option string) (b : string) : string := match a with Some s => if truthy s then s else b | None => b end.

Definition section_title (c : DocumentChunk) : string :=
  or_else (meta_string (chunk_metadata c) "documentTitle") (or_else (meta_string (chunk_metadata c) "sectionTitle") "General Context").

Definition meta_num (md : obj) (key : string) : option num := match obj_get md key with Some (VNum n) => Some n | _ => None end.

Definition index_of (c : DocumentChunk) : num :=
  default (num_of_Z 0) (orelse (meta_num (chunk_metadata c) "chunkIndex") (meta_num (chunk_metadata c) "parentIndex")).

Definition by_index (a b : DocumentChunk) : bool := num_order (index_of a) (index_of b).

Definition add_to_group (m : list (string * list DocumentChunk)) (c : DocumentChunk) : list (string * list DocumentChunk) :=
  js_set m (section_title c) (default [] (js_get m (section_title c)) ++ [c]).

Definition sectionGroupMap (cs : list DocumentChunk) : list (string * list DocumentChunk) := fold_left add_to_group cs [].

(** [title.replace(/\s+/g, '_')] *)
Definition node_name (title : string) : string := Regexp.replace_with (Regexp.plus Regexp.white) (fun _ => "_") title.

Section Hierarchical.
Context (self : HierarchicalRAGStrategy).

Definition section_content (sorted : list DocumentChunk) : string :=
  if rollupSiblings self then join nl (map chunk_content sorted)
  else match sorted with c :: _ => chunk_content c | [] => EmptyString end.

(** A group becomes a chunk and a node; groups are never empty. *)
Definition rolled_up (g : string * list DocumentChunk) : option (DocumentChunk * HierarchicalNode) :=
  let sorted := stable_sort by_index g.2 in
  match sorted with
  | [] => None
  | first :: _ =>
      let text := section_content sorted in
      Some (with_content (if groupByHeader self then "## Section: " +:+ g.1 +:+ nl +:+ text else text)
              (obj_set (obj_set (chunk_metadata first) "hierarchicalRollup" (VBool true)) "totalSiblingChunksMerged"
                 (VNum (num_of_Z (Z.of_nat (length sorted))))) first,
            {| node_id := "node_" +:+ node_name g.1; node_title := g.1; node_content := text;
               children := map (fun c => (chunk_id c, chunk_content c)) sorted |})
  end.

(** The context and the tree; none without chunks. *)
Definition process (context : RAGContext) : RAGContext * option (list HierarchicalNode) :=
  match rag_chunks context with
  | None | Some [] => (context, None)
  | Some cs =>
      let out := filter_map rolled_up (sectionGroupMap cs) in
      (with_chunks (map fst out) context, Some (map snd out))
  end.

(** *** Every chunk is in its section *)

Definition in_section (t : string) (cs : list DocumentChunk) : list DocumentChunk :=
  List.filter (fun c => bool_decide (section_title c = t)) cs.

Lemma set_values_of {K V} `{!EqDecision K} (m : list (K * list V)) k x :
  concat (js_values (js_set m k (default [] (js_get m k) ++ [x]))) ≡ₚ concat (js_values m) ++ [x].
Proof.
  induction m as [|[k' l] m IH]; simpl; [done|]. unfold js_values in *. case_bool_decide; simpl.
  - rewrite <- !app_assoc. apply Permutation_app_head, Permutation_app_comm.
  - by rewrite IH, app_assoc.
Qed.

Lemma groups_spec cs : forall m, unique_keys m ->
  (forall t l, js_get m t = Some l -> l <> []) ->
  let m' := fold_left add_to_group cs m in
  unique_keys m' /\ (forall t l, js_get m' t = Some l -> l <> []) /\
  (forall t, default [] (js_get m' t) = default [] (js_get m t) ++ in_section t cs) /\
  concat (js_values m') ≡ₚ concat (js_values m) ++ cs.
Proof.
  induction cs as [|c cs IH]; intros m Hu Hn; simpl.
  - split_and!; [done|done|intros t; by rewrite app_nil_r|by rewrite app_nil_r].
  - destruct (IH (add_to_group m c)) as (H1 & H2 & H3 & H4).
    + by apply unique_keys_set.
    + intros t l. unfold add_to_group. rewrite js_get_set. case_bool_decide; [|apply Hn]. intros [= <-]. by destruct (default [] _).
    + split_and!; [done|done| |].
      * intros t. rewrite H3. unfold add_to_group. rewrite js_get_set. unfold in_section. simpl.
        case_bool_decide; simpl; [subst; by rewrite <- app_assoc|done].
      * rewrite H4. unfold add_to_group. by rewrite set_values_of, <- app_assoc.
Qed.

Lemma roll_all gs : Forall (fun g => g.2 <> []) gs ->
  map snd (filter_map rolled_up gs) =
  map (fun g => {| node_id := "node_" +:+ node_name g.1; node_title := g.1; node_content := section_content (stable_sort by_index g.2);
                   children := map (fun c => (chunk_id c, chunk_content c)) (stable_sort by_index g.2) |}) gs.
Proof.
  induction 1 as [|g gs Hg Hgs IH]; [done|]. simpl. unfold rolled_up at 1.
  destruct (stable_sort by_index g.2) as [|c l] eqn:E; [|simpl; by rewrite IH].
  apply (f_equal length) in E. rewrite stable_sort_length in E. by destruct g.2.
Qed.

(** No chunk is lost: the tree has each title once; the node of a title holds exactly the
    chunks of that title, in the order of their indices; and together the nodes hold the
    chunks that came in. *)
Theorem tree_holds_every_chunk context cs : rag_chunks context = Some cs -> cs <> [] ->
  exists tree, (process context).2 = Some tree /\ NoDup (map node_title tree) /\
    Forall (fun n => children n = map (fun c => (chunk_id c, chunk_content c)) (stable_sort by_index (in_section (node_title n) cs))) tree /\
    concat (map children tree) ≡ₚ map (fun c => (chunk_id c, chunk_content c)) cs /\
    (rollupSiblings self = true -> Forall (fun n => node_content n = join nl (map snd (children n))) tree).
Proof.
  intros Hc Hne. destruct (groups_spec cs [] (NoDup_nil_2) ltac:(done)) as (Hu & Hn & Hg & Hp). fold (sectionGroupMap cs) in *.
  set (gs := sectionGroupMap cs) in *.
  assert (forall g, g ∈ gs -> g.2 = in_section g.1 cs /\ g.2 <> []) as Hin.
  { intros [t l] Hin. apply elem_js_get in Hin; [|done]. split; [|by apply (Hn t)]. specialize (Hg t). rewrite Hin in Hg. exact Hg. }
  assert (Forall (fun g => g.2 <> []) gs) as Hall by (apply Forall_forall; intros g H; by apply Hin).
  eexists. split; [unfold process; rewrite Hc; destruct cs; [done|]; reflexivity|]. fold gs. rewrite roll_all by done.
  split_and!.
  - rewrite map_map. exact Hu.
  - apply Forall_forall. intros n (g & -> & H)%list_elem_of_fmap. simpl. destruct (Hin g H) as [-> _]. done.
  - rewrite map_map. simpl in Hp. rewrite <- Hp. clear. induction gs as [|g gs IH]; simpl; [done|].
    unfold js_values in *. simpl. by rewrite map_app, IH, stable_sort_permutation.
  - intros Hr. apply Forall_forall. intros n (g & -> & H)%list_elem_of_fmap. simpl. unfold section_content. by rewrite Hr, map_map.
Qed.
End Hierarchical.

Definition section_chunk (id title : string) (i : Z) : DocumentChunk := {|
  chunk_id := id; parentId := "d"; chunk_content := id; embedding := None;
  chunk_metadata := [("documentTitle", VStr title); ("sectionTitle", VStr id); ("chunkIndex", VNum (num_of_Z i))]; chunk_provenance := None |}.

Definition demo_sections : RAGContext := with_chunks [section_chunk "b" "Guide" 1; section_chunk "x" "Notes" 0; section_chunk "a" "Guide" 0]
  (QueryExpansion.asking "q").

(** Sections of one document become one node: its title comes before theirs. *)
Example sections_of_a_document_are_one_node :
  map (fun n => (node_id n, node_content n)) (default [] (process (mk_hierarchical None None) demo_sections).2) =
  [("node_Guide", "a" +:+ nl +:+ "b"); ("node_Notes", "x")].
Proof. by vm_compute. Qed.

Lemma tree_holds_every_chunk_witness :
  exists tree, (process (mk_hierarchical None None) demo_sections).2 = Some tree /\
    concat (map children tree) ≡ₚ [("b", "b"); ("x", "x"); ("a", "a")].
Proof.
  destruct (tree_holds_every_chunk (mk_hierarchical None None) demo_sections _ eq_refl) as (tree & H1 & _ & _ & H2 & _); [done|].
  exists tree. by split.
Defined.
End Hierarchical.

(** ** Late chunking (strategies/late-chunking.strategy.ts) *)

Module LateChunking.
Section LateChunking.
Context {W : Type}.

Inductive event : Type := Embed (text : string).

Record LateChunkingStrategy : Type := {
  embeddingProvider : option (string -> W -> outcome error (list Q) * W);
  blendAlpha : Q;
}.

Notation M := (M error event W).
Context (self : LateChunkingStrategy).

Definition blend (v g : list Q) : list Q := zip_with (fun a b => (blendAlpha self * a + (1 - blendAlpha self) * b)%Q) v g.

(** [alpha] as it is written to the metadata. *)
Context (shown_alpha : num).

Definition blended (g : list Q) (c : DocumentChunk) (v : list Q) : DocumentChunk :=
  if bool_decide (length v = length g) then
    with_embedding (blend v g)
      (with_content (chunk_content c)
        (obj_set (obj_set (chunk_metadata c) "lateChunkingApplied" (VBool true)) "blendAlpha" (VNum shown_alpha)) c)
  else c.

Definition embed (f : string -> W -> outcome error (list Q) * W) (text : string) : M (list Q) := emit (Embed text) ;; lift (f text).

(** The vectors of the chunks: all are asked for, whether or not one fails. *)
Fixpoint vectors (f : string -> W -> outcome error (list Q) * W) (cs : list DocumentChunk) : M (list (list Q + error)) :=
  match cs with
  | [] => ret []
  | c :: rest =>
      v <- match embedding c with Some e => ret (inl e) | None => tried (embed f (chunk_content c)) end ;;
      vs <- vectors f rest ;;
      ret (v :: vs)
  end.

(** [Promise.all]: the vectors, or what the first to fail threw. *)
Fixpoint all_of (vs : list (list Q + error)) : list (list Q) + error :=
  match vs with
  | [] => inl []
  | inr e :: _ => inr e
  | inl v :: rest => match all_of rest with inl l => inl (v :: l) | inr e => inr e end
  end.

Definition processChunks (cs : list DocumentChunk) : M (list DocumentChunk) :=
  match cs, embeddingProvider self with
  | [], _ | _, None => ret cs
  | _, Some f =>
      g <- embed f (join " " (map chunk_content cs)) ;;
      vs <- vectors f cs ;;
      match all_of vs with
      | inl l => ret (zip_with (blended g) cs l)
      | inr e => throw e
      end
  end.

Definition process (context : RAGContext) : M RAGContext :=
  match rag_chunks context with
  | None | Some [] => ret context
  | Some cs => enhanced <- processChunks cs ;; ret (with_chunks enhanced context)
  end.

(** What blending keeps of a chunk. *)
Definition same_chunk (c c' : DocumentChunk) : Prop :=
  chunk_id c' = chunk_id c /\ parentId c' = parentId c /\ chunk_content c' = chunk_content c /\ chunk_provenance c' = chunk_provenance c.

(** A chunk blended with the vector of the whole, or left as it was. *)
Definition late (g : list Q) (c c' : DocumentChunk) : Prop :=
  same_chunk c c' /\
  forall v, embedding c = Some v ->
    (length v = length g -> exists v', embedding c' = Some v' /\ length v' = length v /\
       forall i a b, v !! i = Some a -> g !! i = Some b -> v' !! i = Some (blendAlpha self * a + (1 - blendAlpha self) * b)%Q) /\
    (length v <> length g -> c' = c).

Lemma blended_late g c v : (forall e, embedding c = Some e -> v = e) -> late g c (blended g c v).
Proof.
  intros Hv. unfold blended. case_bool_decide as Hl; (split; [done|]); intros e He; specialize (Hv e He) as ->; split; intros H; try done.
  exists (blend e g). simpl. split_and!; [done|unfold blend; rewrite length_zip_with; lia|].
  intros i a b Ha Hb. unfold blend. by rewrite lookup_zip_with, Ha, Hb.
Qed.

Lemma vectors_of f cs w : wp (vectors f cs) w (fun o _ _ => match o with
  | Ret vs => Forall2 (fun c v => forall e, embedding c = Some e -> v = inl e) cs vs
  | Throw _ => False | Diverge => True end).
Proof.
  revert w. induction cs as [|c cs IH]; intros w; simpl; [constructor|]. apply wp_bind.
  assert (forall m : M (list Q + error), (wp m w (fun o _ _ => match o with Ret v => forall e, embedding c = Some e -> v = inl e | Throw _ => False | Diverge => True end)) ->
    wp m w (wp_cont (fun v => vs <- vectors f cs ;; ret (v :: vs)) (fun o _ _ => match o with
      | Ret vs => Forall2 (fun c v => forall e, embedding c = Some e -> v = inl e) (c :: cs) vs | Throw _ => False | Diverge => True end))) as Hm.
  { intros m Hm. eapply wp_mono; [exact Hm|]. intros [v|e|] w1 ev1 Hv; simpl; [|done|done].
    apply wp_bind. eapply wp_mono; [apply IH|]. intros [vs|e|] w2 ev2 Hvs; simpl; [|done|done]. by constructor. }
  apply Hm. destruct (embedding c) as [e|] eqn:E.
  - unfold wp, ret. simpl. by intros e' [= ->].
  - unfold wp, tried, embed, bind, emit, lift. simpl. by destruct (f (chunk_content c) w) as [[v|e|] w'].
Qed.

Lemma all_of_ok vs l : all_of vs = inl l -> vs = map inl l.
Proof.
  revert l. induction vs as [|[v|e] vs IH]; intros l H; simpl in H; [by simplify_eq| |done].
  destruct (all_of vs) as [l'|]; [|done]. simplify_eq. simpl. by rewrite (IH l').
Qed.

Lemma zip_late g cs : forall l, Forall2 (fun c v => forall e, embedding c = Some e -> v = inl e) cs (map inl l : list (list Q + error)) ->
  Forall2 (late g) cs (zip_with (blended g) cs l).
Proof.
  induction cs as [|c cs IH]; intros [|v l] H; inversion H as [|? ? ? ? Hv Hr]; subst; simpl; [constructor|].
  constructor; [|by apply IH]. apply blended_late. intros e He. by injection (Hv e He).
Qed.

(** Late chunking changes vectors only: the chunks come out in order with their ids,
    contents and provenance, and one that has a vector of the right length has each entry
    blended with that of the whole document, [alpha] to [1 - alpha]. *)
Theorem late_chunking_blends_vectors cs f w : embeddingProvider self = Some f ->
  wp (processChunks cs) w (fun o _ _ => match o with
    | Ret cs' => exists g, Forall2 (late g) cs cs'
    | _ => True end).
Proof.
  intros Hf. unfold processChunks. rewrite Hf. destruct cs as [|c cs]; [by exists []|]. set (all := c :: cs).
  apply wp_bind. apply (wp_mono _ _ (fun _ _ _ => True)); [by unfold wp; destruct (embed _ _ _) as [[??]?]|].
  intros [g|e|] w1 ev1 _; simpl; [|done|done].
  apply wp_bind. eapply wp_mono; [apply (vectors_of f all)|]. intros [vs|e|] w2 ev2 Hvs; simpl; [|done|done].
  destruct (all_of vs) as [l|e] eqn:E; [|done]. exists g. apply all_of_ok in E. subst vs. exact (zip_late g all l Hvs).
Qed.
End LateChunking.

Definition pure_embed (s : string) (w : unit) : outcome error (list Q) * unit := (Ret [1; 2]%Q, w).
Definition half : LateChunkingStrategy (W := unit) := {| embeddingProvider := Some pure_embed; blendAlpha := 1 # 2 |}.

Lemma late_chunking_blends_vectors_witness :
  exists cs' g, (processChunks half (NDec 5 (-1)) [RagStrategies.Mmr.demo_vector "a" [3; 4]%Q; RagStrategies.Mmr.demo_vector "b" [1]%Q] tt).1.1 = Ret cs' /\
    Forall2 (late half g) [RagStrategies.Mmr.demo_vector "a" [3; 4]%Q; RagStrategies.Mmr.demo_vector "b" [1]%Q] cs'.
Proof.
  pose proof (late_chunking_blends_vectors half (NDec 5 (-1)) [RagStrategies.Mmr.demo_vector "a" [3; 4]%Q; RagStrategies.Mmr.demo_vector "b" [1]%Q] pure_embed tt eq_refl) as H.
  unfold wp in H. destruct (processChunks half _ _ tt) as [[[cs'|e|] w'] ev] eqn:E; [|by vm_compute in E..].
  destruct H as [g H]. exists cs', g. by split.
Defined.
End LateChunking.

(** ** The scores of a rerank service (providers/rerank-response.util.ts) *)

Module RerankScores.

(** [`${v}`] of parsed JSON. *)
Fixpoint shown (v : value) : string :=
  match v with
  | VUndef => "undefined" | VNull => "null" | VBool true => "true" | VBool false => "false"
  | VNum n => num_to_string n | VStr s => s
  | VArr l => join "," (map (fun x => match x with VUndef | VNull => EmptyString | x => shown x end) l)
  | _ => "[object Object]"
  end.

Definition field_of (v : value) (key : string) : value :=
  match v with VObj o => default VUndef (obj_get o key) | _ => VUndef end.

Definition failure (providerLabel message : string) : error := NativeErr "Error" (providerLabel +:+ ": " +:+ message).

(** An index of the request, as it must be. *)
Definition valid_index (chunkCount : nat) (v : value) : option nat :=
  match v with
  | VNum n => match num_to_Z n with
              | Some z => if (0 <=? z) && (z <? Z.of_nat chunkCount) then Some (Z.to_nat z) else None
              | None => None
              end
  | _ => None
  end.

Definition finite_score (v : value) : option num := match v with VNum n => if is_finite n then Some n else None | _ => None end.

Fixpoint place (chunkCount : nat) (label : string) (results : list value) (scores : list num) (seen : list nat)
    : error + list num * list nat :=
  match results with
  | [] => inr (scores, seen)
  | r :: rest =>
      match valid_index chunkCount (field_of r "index") with
      | None => inl (failure label ("response contains an out-of-range index (" +:+ shown (field_of r "index") +:+ ")"))
      | Some i =>
          match finite_score (field_of r "relevance_score") with
          | None => inl (failure label ("response contains a non-finite relevance score for index " +:+ shown (field_of r "index")))
          | Some score =>
              if bool_decide (i ∈ seen) then
                inl (failure label ("response contains a duplicate index (" +:+ shown (field_of r "index") +:+ ")"))
              else place chunkCount label rest (<[i := score]> scores) (seen ++ [i])
          end
      end
  end.

Definition mapIndexedRerankScores (data : value) (resultsKey : string) (chunkCount : nat) (label : string) : error + list num :=
  match field_of data resultsKey with
  | VArr results =>
      match place chunkCount label results (replicate chunkCount (num_of_Z 0)) [] with
      | inl e => inl e
      | inr (scores, seen) =>
          if negb (bool_decide (length seen = chunkCount)) then
            inl (failure label ("response contains " +:+ Z_to_string (Z.of_nat (length seen)) +:+ " result(s), expected exactly " +:+
                                Z_to_string (Z.of_nat chunkCount)))
          else inr scores
      end
  | _ => inl (failure label ("response is missing a " +:+ in_quotes resultsKey +:+ " array"))
  end.

Definition validateTimeoutMs (timeoutMs : option num) (label : string) : error + num :=
  let resolved := default (num_of_Z 30000) timeoutMs in
  if negb (is_finite resolved) || num_le resolved (num_of_Z 0) then
    inl (NativeErr "RangeError" (label +:+ ": timeoutMs must be a finite positive number, got " +:+ num_to_string resolved))
  else inr resolved.

(** *** A response is an assignment of scores *)

(** Result [r] gives score [q] to chunk [i]. *)
Definition gives (n : nat) (r : value) (i : nat) (q : num) : Prop :=
  valid_index n (field_of r "index") = Some i /\ finite_score (field_of r "relevance_score") = Some q.

(** The results name each chunk once, with a finite score. *)
Definition assignment (n : nat) (results : list value) (scores : list num) : Prop :=
  length scores = n /\ length results = n /\
  exists is_, NoDup is_ /\ Forall2 (fun r i => exists q, gives n r i q /\ scores !! i = Some q) results is_.

Lemma valid_index_lt n v i : valid_index n v = Some i -> (i < n)%nat.
Proof.
  unfold valid_index. destruct v; try done. destruct (num_to_Z n0) as [z|]; [|done]. destruct (_ && _) eqn:E; [|done].
  intros [= <-]. apply andb_true_iff in E as [H1 H2]. apply Z.leb_le in H1. apply Z.ltb_lt in H2. lia.
Qed.

Lemma place_ok n label results : forall scores seen scores' seen',
  place n label results scores seen = inr (scores', seen') -> length scores = n -> NoDup seen ->
  length scores' = n /\ (forall i, i ∈ seen -> scores' !! i = scores !! i) /\
  exists is_, seen' = seen ++ is_ /\ NoDup (seen ++ is_) /\ Forall2 (fun r i => exists q, gives n r i q /\ scores' !! i = Some q) results is_.
Proof.
  induction results as [|r rest IH]; intros scores seen scores' seen' H Hl Hn; simpl in H.
  { simplify_eq. split_and!; [done|done|]. exists []. rewrite app_nil_r. by split_and!. }
  destruct (valid_index n (field_of r "index")) as [i|] eqn:Ei; [|done].
  destruct (finite_score (field_of r "relevance_score")) as [q|] eqn:Eq; [|done]. case_bool_decide as Hs; [done|].
  pose proof (valid_index_lt _ _ _ Ei) as Hi.
  apply IH in H as (Hl' & Hkeep & is_ & -> & Hn' & Hf); [|by rewrite length_insert|by apply NoDup_app; set_solver by eauto using NoDup_singleton].
  split_and!; [done| |].
  - intros k Hk. rewrite Hkeep by set_solver. apply list_lookup_insert_ne. set_solver.
  - exists (i :: is_). rewrite <- app_assoc in Hn' |- *. split_and!; [done|done|]. constructor; [|done].
    exists q. split; [by split|]. rewrite Hkeep by set_solver. apply list_lookup_insert_eq. lia.
Qed.

Lemma place_complete n label results : forall is_ scores seen, length scores = n -> NoDup (seen ++ is_) ->
  Forall2 (fun r i => exists q, gives n r i q) results is_ ->
  exists scores', place n label results scores seen = inr (scores', seen ++ is_).
Proof.
  induction results as [|r rest IH]; intros is_ scores seen Hl Hn Hf; inversion Hf as [|? i ? is' (q & Hi & Hq) Hf']; subst; simpl.
  - exists scores. by rewrite app_nil_r.
  - rewrite Hi, Hq. rewrite bool_decide_eq_false_2.
    + destruct (IH is' (<[i:=q]> scores) (seen ++ [i])) as [scores' H]; [by rewrite length_insert|by rewrite <- app_assoc|done|].
      exists scores'. by rewrite H, <- app_assoc.
    + intros Hin. apply NoDup_app in Hn as (_ & Hd & _). eapply Hd; [done|]. set_solver.
Qed.

(** C31. A response is accepted exactly when it names each chunk once with a finite score, and
    then the scores are in the order of the chunks. *)
Theorem accepted_scores_are_an_assignment data key n label results :
  field_of data key = VArr results ->
  (forall scores, mapIndexedRerankScores data key n label = inr scores -> assignment n results scores) /\
  (forall scores, assignment n results scores -> mapIndexedRerankScores data key n label = inr scores).
Proof.
  intros Hd. assert (forall scores, mapIndexedRerankScores data key n label = inr scores -> assignment n results scores) as Hs.
  { intros scores. unfold mapIndexedRerankScores. rewrite Hd. destruct (place _ _ _ _ _) as [e|[sc seen]] eqn:E; [done|].
    destruct (negb _) eqn:Hlen; [done|]. intros [= <-]. apply negb_false_iff, bool_decide_eq_true in Hlen.
    apply place_ok in E as (Hl & _ & is_ & Hseen & Hn & Hf); [|by rewrite length_replicate|apply NoDup_nil_2].
    simpl in Hseen, Hn. subst seen. split_and!; [done| |by exists is_]. rewrite <- Hlen. by eapply Forall2_length. }
  split; [done|]. intros scores (Hl & Hlen & is_ & Hn & Hf).
  destruct (place_complete n label results is_ (replicate n (num_of_Z 0)) [] (length_replicate _ _) Hn) as [sc Hsc].
  { eapply Forall2_impl; [exact Hf|]. intros r i (q & ? & _). by exists q. }
  assert (mapIndexedRerankScores data key n label = inr sc) as Hm.
  { unfold mapIndexedRerankScores. rewrite Hd, Hsc. simpl. rewrite bool_decide_eq_true_2; [done|]. rewrite <- Hlen. symmetry. by eapply Forall2_length. }
  rewrite Hm. f_equal. destruct (Hs _ Hm) as (Hl' & _ & is' & Hn' & Hf').
  assert (is' = is_) as ->.
  { clear -Hf Hf'. revert is_ is' Hf Hf'. induction results as [|r rest IH]; intros is_ is' Hf Hf'; inversion Hf as [|? i ? js (q & [Hi _] & _)]; subst;
      inversion Hf' as [|? i' ? js' (q' & [Hi' _] & _)]; subst; [done|]. f_equal; [congruence|by apply IH]. }
  assert (is_ ≡ₚ seq 0 n) as Hperm.
  { apply submseteq_length_Permutation; [apply NoDup_submseteq; [done|]|rewrite length_seq, <- Hlen; apply Forall2_length in Hf; lia].
    intros i Hi. apply elem_of_seq. split; [lia|]. apply list_elem_of_lookup in Hi as [k Hk].
    destruct (Forall2_lookup_r _ _ _ _ _ Hf Hk) as (r & _ & q & [Hi _] & _). apply valid_index_lt in Hi. lia. }
  apply list_eq. intros i. destruct (decide (i < n)%nat) as [Hi|Hi]; [|by rewrite !lookup_ge_None_2 by lia].
  assert (i ∈ is_) as Hin by (rewrite Hperm; apply elem_of_seq; lia). apply list_elem_of_lookup in Hin as [k Hk].
  destruct (Forall2_lookup_r _ _ _ _ _ Hf Hk) as (r & Hr & q & [_ Hq] & Hsq).
  destruct (Forall2_lookup_r _ _ _ _ _ Hf' Hk) as (r' & Hr' & q' & [_ Hq'] & Hsq'). simplify_eq. congruence.
Qed.

Definition demo_response : value := VObj [("results", VArr
  [VObj [("index", VNum (num_of_Z 1)); ("relevance_score", VNum (NDec 9 (-1)))];
   VObj [("index", VNum (num_of_Z 0)); ("relevance_score", VNum (NDec 2 (-1)))]])].

Lemma accepted_scores_are_an_assignment_witness :
  mapIndexedRerankScores demo_response "results" 2 "Cohere" = inr [NDec 2 (-1); NDec 9 (-1)] /\
  assignment 2 (match field_of demo_response "results" with VArr l => l | _ => [] end) [NDec 2 (-1); NDec 9 (-1)].
Proof.
  split; [by vm_compute|]. apply (accepted_scores_are_an_assignment demo_response "results" 2 "Cohere" _ eq_refl). by vm_compute.
Defined.
End RerankScores.
End RagStages.
