(* ===== verification/RedisStores.v ===== *)
(** * The Redis stores (packages/core/src/stores/redis, stores/approval-records.ts)

    Approvals, state, sessions and idempotency records as texts under keys of a Redis
    server.  The server is a parameter with the documented laws of its commands; the
    script that signs an approval is modelled as it is written.  A record is the object it
    is in the program; [Date] reading back its own ISO text is a hypothesis. *)

From Stdlib Require Import Ascii String.
From stdpp Require Import gmap.
From S2P Require Export Schema JsonText Approvals.

#[local] Open Scope string_scope.
#[local] Open Scope list_scope.
#[local] Open Scope Z_scope.

Module RedisStores.
Import Numerals JsonText Audit Approvals.

(** ** The server

    What its commands do to what it stores; [SET] takes a lifetime in milliseconds. *)

Class RedisServer (S : Type) : Type := {
  GET : string -> S -> option string;
  SET : string -> string -> option Z -> S -> S;
  DEL : string -> S -> S;
  PTTL : string -> S -> Z;
  KEYS : string -> S -> list string;
}.

(** No character that a pattern of [KEYS] gives a meaning of its own. *)
Definition glob_free (s : string) : bool := forallb (fun c => negb (existsb (Ascii.eqb c) (chars "*?[]^-\"))) (chars s).

Class LawfulRedis {S : Type} (server : RedisServer S) : Prop := {
  get_set : forall k v ttl s, match ttl with Some t => 0 < t | None => True end -> GET k (SET k v ttl s) = Some v;
  get_set_other : forall k k' v ttl s, k <> k' -> GET k' (SET k v ttl s) = GET k' s;
  get_del : forall k s, GET k (DEL k s) = None;
  get_del_other : forall k k' s, k <> k' -> GET k' (DEL k s) = GET k' s;
  keys_prefix : forall p s k, glob_free p = true -> k ∈ KEYS (p +:+ "*") s <-> is_Some (GET k s) /\ starts_with p k = true;
}.

(** ** Texts of approvals (redis-approval.store.ts) *)

Definition tab : ascii := "009"%char.
Definition tab_text : string := String tab EmptyString.

Definition without (k : string) (o : obj) : obj := List.filter (fun f => negb (bool_decide (f.1 = k))) o.

Definition field (o : obj) (k : string) : value := default VUndef (obj_get o k).

(** [signature.actor.userId] *)
Definition signer (signature : value) : value :=
  match signature with
  | VObj s => match field s "actor" with VObj a => field a "userId" | _ => VUndef end
  | _ => VUndef
  end.

Definition signatureLine (signature : value) : string := json (signer signature) +:+ tab_text +:+ json signature.

Definition signatures_of (approval : obj) : list value :=
  match obj_get approval "signatures" with Some (VArr l) => l | _ => [] end.

Definition rest_of (approval : obj) : obj := without "signatures" (without "requiredApprovals" approval).

Definition head_of (approval : obj) : string :=
  match field approval "requiredApprovals" with
  | VUndef => json (VObj (rest_of approval))
  | n => json (VObj (("requiredApprovals", n) :: rest_of approval))
  end.

Definition serialize (approval : obj) : string := join nl (head_of approval :: map signatureLine (signatures_of approval)).

Section Dates.
(** [new Date(v)] as a value. *)
Context (date : value -> option Z).

Definition truthy_field (v : value) : bool :=
  match v with
  | VUndef | VNull => false | VBool b => b | VNum n => negb (bool_decide (n = num_of_Z 0)) && negb (bool_decide (n = NNaN))
  | VStr s => truthy s | _ => true
  end.

Definition reviveSignature (signature : value) : value :=
  match signature with VObj s => VObj (obj_set s "signedAt" (VDate (date (field s "signedAt")))) | v => v end.

Definition reviveApproval (parsed : obj) : obj :=
  let dated := obj_set (obj_set parsed "createdAt" (VDate (date (field parsed "createdAt"))))
                 "expiresAt" (if truthy_field (field parsed "expiresAt") then VDate (date (field parsed "expiresAt")) else VUndef) in
  match obj_get parsed "signatures" with
  | Some (VArr l) => obj_set dated "signatures" (VArr (map reviveSignature l))
  | _ => dated
  end.

(** [line.slice(line.indexOf('\t') + 1)] *)
Fixpoint after (c : ascii) (l : list ascii) : option (list ascii) :=
  match l with [] => None | d :: l' => if Ascii.eqb d c then Some l' else after c l' end.

Definition line_json (line : list ascii) : string := of_chars (default line (after tab line)).

Definition syntax_error : error := NativeErr "SyntaxError" "Unexpected token in JSON".

Fixpoint parse_lines (ls : list (list ascii)) : error + list value :=
  match ls with
  | [] => inr []
  | l :: rest =>
      match json_parse (line_json l) with
      | None => inl syntax_error
      | Some v => match parse_lines rest with inl e => inl e | inr vs => inr (reviveSignature v :: vs) end
      end
  end.

Definition nonempty (l : list ascii) : bool := match l with [] => false | _ => true end.

Definition deserialize (raw : option string) : error + option obj :=
  match raw with
  | None | Some EmptyString => inr None
  | Some raw =>
      match Schema.split_on newline (chars raw) [] with
      | [] => inr None
      | head :: ls =>
          match json_parse (of_chars head) with
          | Some (VObj parsed) =>
              match parse_lines (List.filter nonempty ls) with
              | inl e => inl e
              | inr [] => inr (Some (reviveApproval parsed))
              | inr sigs => inr (Some (obj_set (reviveApproval parsed) "signatures" (VArr sigs)))
              end
          | _ => inl syntax_error
          end
      end
  end.
End Dates.

(** ** The script that signs *)

(** The text before the first [c]. *)
Fixpoint upto (c : ascii) (l : list ascii) : list ascii :=
  match l with [] => [] | d :: l' => if Ascii.eqb d c then [] else d :: upto c l' end.

Definition script_prefix : list ascii := chars ("{" +:+ in_quotes "requiredApprovals" +:+ ":").

Fixpoint leading_digits (l : list ascii) : list ascii :=
  match l with c :: l' => if is_digit c then c :: leading_digits l' else [] | [] => [] end.

(** [tonumber(string.match(head, '^{"requiredApprovals":(%d+)')) or 1] *)
Definition script_required (head : list ascii) : Z :=
  if bool_decide (take (length script_prefix) head = script_prefix) then
    match leading_digits (drop (length script_prefix) head) with [] => 1 | ds => read_digits 0 ds end
  else 1.

(** The lines of signatures, as [gmatch] gives them. *)
Definition script_lines (raw : list ascii) : list (list ascii) := List.filter nonempty (List.tl (Schema.split_on newline raw [])).

Definition signed_by (user line : list ascii) : bool :=
  is_some (after tab line) && bool_decide (upto tab line = user).

Inductive reply : Type := Complete (raw : string) | Duplicate (raw : string) | Pending (raw : string).

Section Server.
Context {S : Type} `{RedisServer S}.

(** [ADD_SIGNATURE_SCRIPT], which the server runs as one step. *)
Definition add_signature_script (key user line : string) (s : S) : option reply * S :=
  match GET key s with
  | None => (None, s)
  | Some raw =>
      let head := upto newline (chars raw) in
      let required := script_required head in
      let lines := script_lines (chars raw) in
      let count := Z.of_nat (length lines) in
      if required <=? count then (Some (Complete raw), DEL key s)
      else if existsb (signed_by (chars user)) lines then (Some (Duplicate raw), s)
      else
        let updated := raw +:+ nl +:+ line in
        if required <=? count + 1 then (Some (Complete updated), DEL key s)
        else (Some (Pending updated), SET key updated (if 0 <? PTTL key s then Some (PTTL key s) else None) s)
  end.

(** [CLAIM_SCRIPT] and [GETDEL]. *)
Definition claim_script (key : string) (s : S) : option string * S :=
  match GET key s with None => (None, s) | Some raw => (Some raw, DEL key s) end.

(** ** The approval store *)

Record RedisApprovalStore : Type := { keyPrefix : string; ttlSeconds : option Z; expiryGraceSeconds : Z }.

Definition mk_store (prefix : option string) (ttl grace : option Z) : RedisApprovalStore := {|
  keyPrefix := default "agentic:approval:" prefix; ttlSeconds := ttl; expiryGraceSeconds := default 300 grace |}.

Context (self : RedisApprovalStore).

Definition getKey (id : string) : string := keyPrefix self +:+ id.

(** [Math.ceil(ms / 1000)] *)
Definition seconds_up (ms : Z) : Z := - ((- ms) / 1000).

(** [expiresAt] is the time of the approval's date. *)
Definition resolveTtlSeconds (expiresAt : option Z) (now : Z) : option Z :=
  match expiresAt with
  | Some t => Some (Z.max (Z.max (seconds_up (t - now) + expiryGraceSeconds self) (expiryGraceSeconds self)) 1)
  | None => ttlSeconds self
  end.

Definition expiry_of (approval : obj) : option Z := match obj_get approval "expiresAt" with Some (VDate (Some t)) => Some t | _ => None end.
Definition id_of (approval : obj) : string := match obj_get approval "id" with Some (VStr id) => id | _ => EmptyString end.

Definition save (approval : obj) (now : Z) (s : S) : S :=
  SET (getKey (id_of approval)) (serialize approval) ((fun t => t * 1000) <$> resolveTtlSeconds (expiry_of approval) now) s.

Definition get (date : value -> option Z) (id : string) (s : S) : error + option obj := deserialize date (GET (getKey id) s).
Definition delete_ (id : string) (s : S) : S := DEL (getKey id) s.

(** [claim] of a client that has [GETDEL] or runs scripts. *)
Definition claim (date : value -> option Z) (id : string) (s : S) : (error + option obj) * S :=
  let '(raw, s') := claim_script (getKey id) s in (deserialize date raw, s').

Inductive signature_result : Type := RPending (a : obj) | RComplete (a : obj) | RDuplicate (a : obj).

Definition read_reply (date : value -> option Z) (make : obj -> signature_result) (raw : string) : error + option signature_result :=
  match deserialize date (Some raw) with
  | inl e => inl e
  | inr (Some a) => inr (Some (make a))
  | inr None => inl (NativeErr "Error" ("Unexpected reply from the addSignature script: " +:+ raw))
  end.

Definition addSignature (date : value -> option Z) (id : string) (signature : value) (s : S)
    : (error + option signature_result) * S :=
  let '(r, s') := add_signature_script (getKey id) (json (signer signature)) (signatureLine signature) s in
  (match r with
   | None => inr None
   | Some (Complete raw) => read_reply date RComplete raw
   | Some (Duplicate raw) => read_reply date RDuplicate raw
   | Some (Pending raw) => read_reply date RPending raw
   end, s').

(** ** Other stores (redis-state.store.ts, redis-session.store.ts, redis-idempotency.store.ts) *)

(** A string is stored as it is, another value as its JSON. *)
Definition encode (v : value) : string := match v with VStr s => s | v => json v end.

(** [None] is [null]. *)
Definition decode (raw : option string) : option value :=
  match raw with
  | None | Some EmptyString => None
  | Some raw => match json_parse raw with Some v => Some v | None => Some (VStr raw) end
  end.

Section State.
Context (prefix : string).

Definition state_key (key : string) : string := prefix +:+ key.

(** A lifetime of zero is none. *)
Definition lifetime (ttlSeconds : option Z) : option Z :=
  match ttlSeconds with Some t => if t =? 0 then None else Some (t * 1000) | None => None end.

Definition state_get (key : string) (s : S) : option value := decode (GET (state_key key) s).
Definition state_set (key : string) (v : value) (ttlSeconds : option Z) (s : S) : S :=
  SET (state_key key) (encode v) (lifetime ttlSeconds) s.
(** [SET … NX]: only a key that is not there. *)
Definition setIfNotExists (key : string) (v : value) (ttlSeconds : option Z) (s : S) : bool * S :=
  match GET (state_key key) s with Some _ => (false, s) | None => (true, state_set key v ttlSeconds s) end.
Definition state_delete (key : string) (s : S) : S := DEL (state_key key) s.
Definition clear (p : option string) (s : S) : S :=
  fold_left (fun s k => DEL k s) (KEYS (prefix +:+ default EmptyString p +:+ "*") s) s.

(** A session has the lifetime of the store, zero included. *)
Definition session_set (ttl : option Z) (sessionId : string) (data : value) (s : S) : S :=
  SET (state_key sessionId) (encode data) ((fun t => t * 1000) <$> ttl) s.
End State.

(** The lifetime of an idempotency record. *)
Definition resolveTtl (ttlSeconds expiresAt : option Z) (now : Z) : option Z :=
  match expiresAt with Some t => Some (Z.max (seconds_up (t - now)) 1) | None => ttlSeconds end.

Definition record_save (prefix : string) (ttl : option Z) (record : obj) (now : Z) (s : S) : S :=
  SET (prefix +:+ match obj_get record "key" with Some (VStr k) => k | _ => EmptyString end) (json (VObj record))
    ((fun t => t * 1000) <$> resolveTtl ttl (expiry_of record) now) s.

(** A text that is no JSON object reads as [null]. *)
Definition record_deserialize (date : value -> option Z) (raw : option string) : option obj :=
  match raw with
  | None | Some EmptyString => None
  | Some raw =>
      match json_parse raw with
      | Some (VObj parsed) =>
          Some (obj_set (obj_set parsed "createdAt" (VDate (date (field parsed "createdAt")))) "expiresAt"
                  (if truthy_field (field parsed "expiresAt") then VDate (date (field parsed "expiresAt")) else VUndef))
      | _ => None
      end
  end.

End Server.

(** ** Texts without separators *)

Definition printable (c : ascii) : Prop := (32 <= nat_of_ascii c)%nat.

Lemma escaped_printable c : Forall printable (escape_char c).
Proof. unfold printable. by bits c; repeat constructor; apply Nat.leb_le. Qed.

Lemma quoted_printable s : Forall printable (chars (json_quote s)).
Proof.
  assert (printable dq_char) by (unfold printable; apply Nat.leb_le; done).
  rewrite quote_chars. constructor; [done|]. apply Forall_app. split; [|by constructor].
  induction (chars s) as [|c l IH]; [constructor|]. simpl. apply Forall_app. split; [apply escaped_printable|done].
Qed.

Lemma literal_printable l : forallb (fun c => 32 <=? nat_of_ascii c)%nat l = true -> Forall printable l.
Proof. intros H. apply Forall_forall. intros c Hc. rewrite forallb_forall in H. apply Nat.leb_le, H. by apply list_elem_of_In. Qed.

Lemma numeric_printable c : numeric c = true -> printable c.
Proof. unfold printable. intros H. apply Nat.leb_le. revert H. by bits c. Qed.

Lemma join_printable l : Forall (fun s => Forall printable (chars s)) l -> Forall printable (chars (join "," l)).
Proof.
  rewrite join_chars. induction 1 as [|x l Hx Hl IH]; [constructor|]. destruct l as [|y l]; [done|]. simpl map in *.
  change (commas (chars x :: chars y :: map (fun s => chars s) l)) with (chars x ++ ","%char :: commas (chars y :: map (fun s => chars s) l)).
  apply Forall_app. split; [done|]. constructor; [apply Nat.leb_le; done|done].
Qed.

(** The text of any value has no control character. *)
Lemma stringify_printable v t : stringify v = Some t -> Forall printable (chars t).
Proof.
  revert t. induction v as [l IH|fs IH|v Harr Hobj] using value_nested_ind; intros t H.
  - simpl in H. injection H as <-. rewrite !chars_app. apply Forall_app. split; [by apply literal_printable|]. apply Forall_app.
    split; [|by apply literal_printable]. apply join_printable, Forall_map. eapply Forall_impl; [exact IH|]. simpl. intros x Hx.
    destruct (stringify x) as [u|]; [by apply Hx|by apply literal_printable].
  - simpl in H. injection H as <-. rewrite !chars_app. apply Forall_app. split; [by apply literal_printable|]. apply Forall_app.
    split; [|by apply literal_printable]. apply join_printable. induction IH as [|[k x] fs Hx Hfs IHfs]; simpl; [constructor|].
    simpl in Hx. destruct (stringify x) as [u|]; [|done]. constructor; [|done]. rewrite !chars_app. apply Forall_app.
    split; [apply quoted_printable|]. apply Forall_app. split; [by apply literal_printable|by apply Hx].
  - destruct v as [| |[]|[m e| |]|s|l|fs|[t'|]| | |]; simplify_eq/=; try (by apply literal_printable); try apply quoted_printable.
    + eapply Forall_impl; [apply num_text_numeric|]. apply numeric_printable.
    + by destruct (Harr l).
    + by destruct (Hobj fs).
Qed.

Lemma json_printable v : Forall printable (chars (json v)).
Proof. unfold json. destruct (stringify v) eqn:E; [by eapply stringify_printable|by apply literal_printable]. Qed.

Definition lacking (c : ascii) (l : list ascii) : Prop := Forall (fun d => d <> c) l.

Lemma printable_lacks c l : (nat_of_ascii c < 32)%nat -> Forall printable l -> lacking c l.
Proof. intros Hc H. eapply Forall_impl; [exact H|]. unfold printable. intros d Hd ->. lia. Qed.

Lemma json_lacks c v : (nat_of_ascii c < 32)%nat -> lacking c (chars (json v)).
Proof. intros Hc. apply printable_lacks; [done|apply json_printable]. Qed.

Lemma split_run sep p b cur : lacking sep p -> Schema.split_on sep (p ++ b) cur = Schema.split_on sep b (rev p ++ cur).
Proof.
  intros Hp. revert cur. induction Hp as [|c p Hc _ IH]; intros cur; [done|]. simpl. rewrite bool_decide_false by done.
  rewrite IH. by rewrite <- app_assoc.
Qed.

Lemma split_all sep p : lacking sep p -> Schema.split_on sep p [] = [p].
Proof. intros Hp. rewrite <- (app_nil_r p) at 1. rewrite split_run by done. simpl. by rewrite app_nil_r, rev_involutive. Qed.

Lemma join_more x y l : chars (join nl (x :: y :: l)) = chars x ++ newline :: chars (join nl (y :: l)).
Proof. change (join nl (x :: y :: l)) with (x +:+ nl +:+ join nl (y :: l)). by rewrite !chars_app. Qed.

(** Lines that are joined come apart again. *)
Lemma split_joined x l : Forall (fun s => lacking newline (chars s)) (x :: l) ->
  Schema.split_on newline (chars (join nl (x :: l))) [] = chars x :: map (fun s => chars s) l.
Proof.
  revert x. induction l as [|y l IH]; intros x H; apply Forall_cons in H as [Hx Hl].
  - by apply split_all.
  - rewrite join_more, split_run by done. simpl. rewrite app_nil_r, rev_involutive. f_equal. exact (IH y Hl).
Qed.

Lemma upto_run c p b : lacking c p -> upto c (p ++ c :: b) = p.
Proof. induction 1 as [|d p Hd _ IH]; simpl; [by rewrite Ascii.eqb_refl|]. apply Ascii.eqb_neq in Hd. by rewrite Hd, IH. Qed.

Lemma upto_all c p : lacking c p -> upto c p = p.
Proof. induction 1 as [|d p Hd _ IH]; simpl; [done|]. apply Ascii.eqb_neq in Hd. by rewrite Hd, IH. Qed.

Lemma after_run c p b : lacking c p -> after c (p ++ c :: b) = Some b.
Proof. induction 1 as [|d p Hd _ IH]; simpl; [by rewrite Ascii.eqb_refl|]. apply Ascii.eqb_neq in Hd. by rewrite Hd, IH. Qed.

Lemma line_chars s : chars (signatureLine s) = chars (json (signer s)) ++ tab :: chars (json s).
Proof. unfold signatureLine. by rewrite !chars_app. Qed.

Lemma json_lacks_tab v : lacking tab (chars (json v)).
Proof. apply json_lacks. apply Nat.ltb_lt. done. Qed.

Lemma json_lacks_newline v : lacking newline (chars (json v)).
Proof. apply json_lacks. apply Nat.ltb_lt. done. Qed.

Lemma line_lacks_newline s : lacking newline (chars (signatureLine s)).
Proof. rewrite line_chars. apply Forall_app. split; [apply json_lacks_newline|]. constructor; [done|apply json_lacks_newline]. Qed.

Lemma head_lacks_newline a : lacking newline (chars (head_of a)).
Proof. unfold head_of. destruct (field a "requiredApprovals"); apply json_lacks_newline. Qed.

Lemma serialized_lines a : Schema.split_on newline (chars (serialize a)) [] =
  chars (head_of a) :: map (fun s => chars (signatureLine s)) (signatures_of a).
Proof.
  unfold serialize. rewrite split_joined, map_map; [done|]. constructor; [apply head_lacks_newline|].
  apply Forall_map, Forall_forall. intros s _. apply line_lacks_newline.
Qed.

Lemma line_nonempty s : nonempty (chars (signatureLine s)) = true.
Proof. rewrite line_chars. by destruct (chars (json (signer s))). Qed.

Lemma filter_lines l : List.filter nonempty (map (fun s => chars (signatureLine s)) l) = map (fun s => chars (signatureLine s)) l.
Proof. induction l as [|s l IH]; simpl; [done|]. by rewrite line_nonempty, IH. Qed.

Lemma serialized_head a : upto newline (chars (serialize a)) = chars (head_of a).
Proof.
  unfold serialize. destruct (map signatureLine (signatures_of a)) as [|y l] eqn:E.
  - apply upto_all, head_lacks_newline.
  - rewrite join_more. apply upto_run, head_lacks_newline.
Qed.

(** ** The rule of signing

    What every store answers to a signature, from how many are required, who has signed
    and who signs. *)

Inductive verdict : Type := AlreadyComplete | AlreadySigned | Completes | Waits.

Definition decide_signature {U} `{EqDecision U} (required : Z) (signed : list U) (user : U) : verdict :=
  if required <=? Z.of_nat (length signed) then AlreadyComplete
  else if bool_decide (user ∈ signed) then AlreadySigned
  else if required <=? Z.of_nat (length signed) + 1 then Completes else Waits.

(** The in-memory store follows it. *)
Lemma in_memory_rule id s u m raw : m !! id = Some raw -> actor_userId (sig_actor s) = Some u ->
  match decide_signature (requiredApprovalsOf raw) (signers raw) (Some u) with
  | AlreadyComplete => InMemory.addSignature id s m = (Some (SigComplete (snapshot raw)), delete id m)
  | AlreadySigned => InMemory.addSignature id s m = (Some (SigDuplicate (snapshot raw)), m)
  | Completes => exists a, InMemory.addSignature id s m = (Some (SigComplete a), delete id m) /\ signers a = signers raw ++ [Some u]
  | Waits => exists a, InMemory.addSignature id s m = (Some (SigPending a), <[id := a]> m) /\ signers a = signers raw ++ [Some u]
  end.
Proof.
  intros Hm Hu. unfold decide_signature, InMemory.addSignature. rewrite Hm, Hu. cbv zeta.
  assert (Z.of_nat (length (signers raw)) = signatureCount (snapshot raw)) as Hc.
  { unfold signers, signatureCount. rewrite length_map. simpl. by destruct (ap_signatures raw). }
  assert (hasSigned (snapshot raw) u = bool_decide (Some u ∈ signers raw)) as Hs.
  { unfold hasSigned, signers. simpl. destruct (ap_signatures raw) as [l|]; simpl.
    - induction l as [|x l IH]; simpl; [done|]. rewrite IH. symmetry. destruct (decide (actor_userId (sig_actor x) = Some u)) as [E|E].
      + rewrite (bool_decide_true (actor_userId (sig_actor x) = Some u)) by done. apply bool_decide_eq_true, elem_of_cons. left. congruence.
      + rewrite (bool_decide_false (actor_userId (sig_actor x) = Some u)) by done. simpl. apply bool_decide_ext. rewrite elem_of_cons. naive_solver.
    - done. }
  rewrite Hc, Hs, snapshot_required. destruct (_ <=? signatureCount (snapshot raw)); [done|]. destruct (bool_decide _); [done|].
  set (v := snapshot (set_signatures _ _)).
  assert (signatureCount v = signatureCount (snapshot raw) + 1) as Hv.
  { unfold v, signatureCount. simpl. rewrite length_app. simpl. destruct (ap_signatures raw); simpl; lia. }
  assert (signers v = signers raw ++ [Some u]) as Hsv.
  { unfold v, signers. simpl. rewrite map_app. simpl. by rewrite Hu. }
  rewrite <- Hv. destruct (_ <=? signatureCount v); by exists v.
Qed.

(** ** The script follows the rule *)

Definition required_of (approval : obj) : Z := match field approval "requiredApprovals" with VNum (NDec n 0) => n | _ => 1 end.

(** No threshold, or one of up to 999; every signer is named. *)
Record signable (approval : obj) : Prop := {
  sa_required : field approval "requiredApprovals" = VUndef \/
    exists n, 0 < n < 1000 /\ field approval "requiredApprovals" = VNum (num_of_Z n);
  sa_signers : Forall (fun s => exists u, signer s = VStr u) (signatures_of approval);
}.

Definition add_signature (approval : obj) (signature : value) : obj :=
  obj_set approval "signatures" (VArr (signatures_of approval ++ [signature])).

Lemma without_set k o v : without k (obj_set o k v) = without k o.
Proof.
  unfold without. induction o as [|[k' v'] o IH]; simpl; [by rewrite bool_decide_true|].
  destruct (decide (k' = k)) as [->|Hk]; [rewrite (bool_decide_true (k = k)) by done; simpl; by rewrite (bool_decide_true (k = k)) by done|].
  rewrite (bool_decide_false (k' = k)) by done. simpl. rewrite (bool_decide_false (k' = k)) by done. simpl. by rewrite IH.
Qed.

Lemma without_set_other k k' o v : k <> k' -> without k' (obj_set o k v) = obj_set (without k' o) k v.
Proof.
  intros Hk. unfold without. induction o as [|[k1 v1] o IH]; simpl; [by rewrite bool_decide_false|].
  destruct (decide (k1 = k)) as [->|H1].
  - rewrite bool_decide_true by done. simpl. rewrite (bool_decide_false (k = k')) by done. simpl. by rewrite bool_decide_true.
  - rewrite bool_decide_false by done. simpl. rewrite IH. destruct (negb _); simpl; [by rewrite bool_decide_false|done].
Qed.

Lemma field_set o k v k' : field (obj_set o k v) k' = if bool_decide (k = k') then v else field o k'.
Proof. unfold field. rewrite obj_get_set. by case_bool_decide. Qed.

Lemma signed_head a s : head_of (add_signature a s) = head_of a.
Proof.
  unfold head_of, rest_of, add_signature. rewrite field_set. simpl.
  by rewrite without_set_other, without_set.
Qed.

Lemma signed_signatures a s : signatures_of (add_signature a s) = signatures_of a ++ [s].
Proof. unfold add_signature, signatures_of at 1. by rewrite obj_get_set. Qed.

Lemma join_snoc x l y : join nl ((x :: l) ++ [y]) = join nl (x :: l) +:+ nl +:+ y.
Proof.
  apply chars_inj. revert x. induction l as [|z l IH]; intros x.
  - change ((x :: []) ++ [y]) with [x; y]. by rewrite join_more, !chars_app.
  - change ((x :: z :: l) ++ [y]) with (x :: z :: (l ++ [y])). rewrite join_more. specialize (IH z).
    change ((z :: l) ++ [y]) with (z :: (l ++ [y])) in IH. rewrite IH, !chars_app, (join_more x z l). by rewrite <- app_assoc.
Qed.

(** A signature is one more line. *)
Lemma serialize_signed a s : serialize (add_signature a s) = serialize a +:+ nl +:+ signatureLine s.
Proof.
  unfold serialize. rewrite signed_head, signed_signatures, map_app. rewrite <- join_snoc. done.
Qed.

Lemma json_str_inj u v : json (VStr u) = json (VStr v) -> u = v.
Proof. intros H. pose proof (parse_stringify (VStr u) I) as Hu. rewrite H, (parse_stringify (VStr v) I) in Hu. by injection Hu. Qed.

Definition signer_name (signature : value) : string := match signer signature with VStr u => u | _ => EmptyString end.

Lemma signed_by_line u s : (exists x, signer s = VStr x) ->
  signed_by (chars (json (VStr u))) (chars (signatureLine s)) = bool_decide (u = signer_name s).
Proof.
  intros [x Hx]. unfold signed_by, signer_name. rewrite line_chars, after_run, upto_run by apply json_lacks_tab. rewrite Hx.
  simpl. apply bool_decide_ext. split; [|by intros ->]. intros H. symmetry. apply json_str_inj. by apply chars_inj.
Qed.

Lemma existsb_signed u l : Forall (fun s => exists x, signer s = VStr x) l ->
  existsb (signed_by (chars (json (VStr u)))) (map (fun s => chars (signatureLine s)) l) = bool_decide (u ∈ map signer_name l).
Proof.
  induction 1 as [|s l Hs Hl IH]; [done|]. cbn [map existsb]. rewrite signed_by_line, IH by done. rewrite <- bool_decide_or.
  apply bool_decide_ext. by rewrite elem_of_cons.
Qed.

(** Thresholds are printed in digits. *)
Lemma small_numbers : forallb (fun n => let t := chars (Z_to_string n) in forallb is_digit t && negb (bool_decide (t = [])) && (read_digits 0 t =? n))
  (map Z.of_nat (seq 1 999)) = true.
Proof. by vm_compute. Qed.

Lemma small_number n : 0 < n < 1000 -> let t := chars (Z_to_string n) in
  forallb is_digit t = true /\ t <> [] /\ read_digits 0 t = n.
Proof.
  intros Hn t. pose proof small_numbers as H. rewrite forallb_forall in H. specialize (H n). fold t in H.
  apply andb_true_iff in H as [H H3]; [|apply in_map_iff; exists (Z.to_nat n); split; [lia|apply in_seq; lia]].
  apply andb_true_iff in H as [H1 H2]. split_and!; [done| |by apply Z.eqb_eq]. by apply negb_true_iff, bool_decide_eq_false in H2.
Qed.

Lemma leading_digits_run d r : forallb is_digit d = true -> match r with c :: _ => is_digit c = false | [] => True end -> leading_digits (d ++ r) = d.
Proof.
  induction d as [|c d IH]; simpl; [by destruct r as [|c r]; simpl; [|intros _ ->]|].
  intros [-> Hd]%andb_true_iff Hr. by rewrite IH.
Qed.

(** The text of an object that does not start with a threshold. *)
Lemma stringify_obj fs : chars (json (VObj fs)) = "{"%char :: chars (join "," (filter_map json_member fs)) ++ ["}"%char].
Proof. unfold json. simpl. rewrite !chars_app. simpl. done. Qed.

Lemma member_more k x fs : filter_map json_member ((k, x) :: fs) =
  match stringify x with
  | Some u => (json_quote k +:+ ":" +:+ u) :: filter_map json_member fs
  | None => filter_map json_member fs
  end.
Proof. cbn [filter_map]. unfold json_member at 1. by destruct (stringify x). Qed.

Lemma members_text m u l : exists r, chars (join "," ((m +:+ ":" +:+ u) :: l)) ++ ["}"%char] = chars m ++ ":"%char :: chars u ++ r /\
  match r with c :: _ => is_digit c = false | [] => True end.
Proof.
  destruct l as [|y l].
  - exists ["}"%char]. split; [|done]. change (join "," [m +:+ ":" +:+ u]) with (m +:+ ":" +:+ u).
    rewrite !chars_app. by rewrite <- !app_assoc.
  - exists (","%char :: chars (join "," (y :: l)) ++ ["}"%char]). split; [|done].
    change (join "," ((m +:+ ":" +:+ u) :: y :: l)) with ((m +:+ ":" +:+ u) +:+ "," +:+ join "," (y :: l)).
    rewrite !chars_app. by rewrite <- !app_assoc.
Qed.

Lemma members_head fs : filter_map json_member fs = [] \/
  exists k r, k ∈ fs.*1 /\ chars (join "," (filter_map json_member fs)) ++ ["}"%char] = chars (json_quote k) ++ r.
Proof.
  induction fs as [|[k x] fs IH]; [by left|]. rewrite member_more. destruct (stringify x) as [u|].
  - right. destruct (members_text (json_quote k) u (filter_map json_member fs)) as (r & Hr & _). exists k. eexists. split; [left|exact Hr].
  - destruct IH as [->|(k' & r & Hk & H)]; [by left|right]. exists k', r. split; [by right|done].
Qed.

Lemma no_threshold_prefix fs : "requiredApprovals" ∉ fs.*1 ->
  take (length script_prefix) (chars (json (VObj fs))) <> script_prefix.
Proof.
  intros Hk H. rewrite stringify_obj in H. destruct (members_head fs) as [E|(k & t & Hin & E)].
  - rewrite E in H. by vm_compute in H.
  - rewrite E in H. assert (exists r, chars (json_quote k) ++ t = chars (json_quote "requiredApprovals") ++ r) as [r Hr].
    { exists (":"%char :: drop (length script_prefix) ("{"%char :: chars (json_quote k) ++ t)).
      pose proof (take_drop (length script_prefix) ("{"%char :: chars (json_quote k) ++ t)) as Htd. rewrite H in Htd.
      assert (script_prefix = "{"%char :: chars (json_quote "requiredApprovals") ++ [":"%char]) as Hp by (by vm_compute).
      rewrite Hp in Htd at 1. rewrite <- app_comm_cons, <- app_assoc in Htd. symmetry. exact (f_equal (@List.tl ascii) Htd). }
    rewrite (quote_chars k), (quote_chars "requiredApprovals") in Hr. apply (f_equal (@List.tl ascii)) in Hr.
    rewrite <- !app_comm_cons, <- !app_assoc in Hr. change (concat (map escape_char (chars k)) ++ [dq_char] ++ t =
      concat (map escape_char (chars "requiredApprovals")) ++ [dq_char] ++ r) in Hr.
    pose proof (parse_string k t) as H1. pose proof (parse_string "requiredApprovals" r) as H2.
    cbn [app] in Hr. rewrite Hr in H1. rewrite H1 in H2. injection H2 as H2.
    rewrite (chars_inj k "requiredApprovals" H2) in Hin. done.
Qed.

Lemma without_keys k o k' : k' ∈ (without k o).*1 -> k' ∈ o.*1 /\ k' <> k.
Proof.
  unfold without. intros (f & -> & Hf)%list_elem_of_fmap. apply list_elem_of_In, filter_In in Hf as [Hin Hf].
  apply negb_true_iff, bool_decide_eq_false in Hf. split; [|done]. apply list_elem_of_fmap. exists f. split; [done|by apply list_elem_of_In].
Qed.

(** The script reads the threshold of the record. *)
Lemma script_reads_threshold a : signable a -> script_required (chars (head_of a)) = required_of a.
Proof.
  intros [[Hr|(n & Hn & Hr)] _]; unfold script_required, required_of, head_of; rewrite Hr.
  - rewrite bool_decide_false; [done|]. apply no_threshold_prefix. intros H. unfold rest_of in H.
    apply without_keys in H as [H _]. by apply without_keys in H as [_ H].
  - rewrite stringify_obj, member_more. change (stringify (VNum (num_of_Z n))) with (Some (Z_to_string n)). cbv iota.
    destruct (members_text (json_quote "requiredApprovals") (Z_to_string n) (filter_map json_member (rest_of a))) as (r & Hjr & Hd).
    rewrite Hjr.
    assert (script_prefix = "{"%char :: chars (json_quote "requiredApprovals") ++ [":"%char]) as Hp by (by vm_compute).
    assert ("{"%char :: chars (json_quote "requiredApprovals") ++ ":"%char :: chars (Z_to_string n) ++ r =
      script_prefix ++ chars (Z_to_string n) ++ r) as -> by (rewrite Hp, <- app_comm_cons, <- app_assoc; done).
    rewrite take_app_length, bool_decide_true, drop_app_length by done.
    destruct (small_number n Hn) as (H1 & H2 & H3). rewrite leading_digits_run by done. by destruct (chars (Z_to_string n)).
Qed.

(** ** The store signs as the memory does *)

(** C12. The Lua script that signs, run on a key that holds an approval as the store
    saves it, decides as the rule of signing does that the in-memory store follows
    ([in_memory_rule]), of the number of approvers required, who has signed and who
    signs: a complete approval is handed out as it is and its key is gone, a second
    signature of one person changes nothing, the last one needed hands out the approval
    with it and removes the key, and one before it is kept.  Every other key stays.
    (For thresholds up to 999 and approvals whose signers are all named, [signable].) *)
Theorem script_follows_the_rule {S} (server : RedisServer S) (Hlaws : LawfulRedis server) key a signature u s :
  GET key s = Some (serialize a) -> signable a -> signer signature = VStr u ->
  let '(r, s') := add_signature_script key (json (signer signature)) (signatureLine signature) s in
  match decide_signature (required_of a) (map signer_name (signatures_of a)) u with
  | AlreadyComplete => r = Some (Complete (serialize a)) /\ GET key s' = None
  | AlreadySigned => r = Some (Duplicate (serialize a)) /\ s' = s
  | Completes => r = Some (Complete (serialize (add_signature a signature))) /\ GET key s' = None
  | Waits => r = Some (Pending (serialize (add_signature a signature))) /\ GET key s' = Some (serialize (add_signature a signature))
  end /\
  forall k, k <> key -> GET k s' = GET k s.
Proof.
  intros Hg Hs Hu. unfold add_signature_script. rewrite Hg, serialized_head, script_reads_threshold by done.
  unfold script_lines. rewrite serialized_lines. simpl List.tl. rewrite filter_lines, length_map, Hu, existsb_signed by apply Hs.
  unfold decide_signature. rewrite length_map, serialize_signed.
  destruct (_ <=? Z.of_nat (length (signatures_of a))).
  { split; [split; [done|apply get_del]|]. intros k Hk. by apply get_del_other. }
  destruct (bool_decide _); [done|]. destruct (_ <=? _ + 1).
  { split; [split; [done|apply get_del]|]. intros k Hk. by apply get_del_other. }
  split; [split; [done|]|].
  - apply get_set. destruct (0 <? PTTL key s) eqn:E; [by apply Z.ltb_lt|done].
  - intros k Hk. by apply get_set_other.
Qed.

(** ** Records read back *)

Lemma stringify_jsonify v : stringify v = jsonify v ≫= stringify.
Proof.
  induction v as [l IH|fs IH|v Harr Hobj] using value_nested_ind.
  - assert (map (fun x => default "null" (stringify x)) l = map (fun x => default "null" (stringify (default VNull (jsonify x)))) l) as H.
    { induction IH as [|x l Hx _ IHl]; [done|]. cbn [map]. rewrite IHl, Hx. f_equal. by destruct (jsonify x). }
    simpl. by rewrite map_map, H.
  - assert (filter_map json_member fs = filter_map json_member (jsonify_obj fs)) as H.
    { unfold jsonify_obj. induction IH as [|[k x] fs Hx _ IHfs]; [done|]. rewrite member_more. cbn [filter_map fst snd] in *. rewrite Hx.
      destruct (jsonify x) as [y|]; [|exact IHfs]. rewrite member_more. simpl. destruct (stringify y); by rewrite IHfs. }
    change (jsonify (VObj fs)) with (Some (VObj (filter_map (fun f => match f with (k, x) => match jsonify x with Some y => Some (k, y) | None => None end end) fs))).
    assert (filter_map (fun f : string * value => match f with (k, x) => match jsonify x with Some y => Some (k, y) | None => None end end) fs = jsonify_obj fs) as ->.
    { clear. unfold jsonify_obj. induction fs as [|[k x] fs IH]; simpl; [done|]. by rewrite IH. }
    simpl. unfold json_member in H. do 4 f_equal. exact H.
  - destruct v as [| |[]|n|s|l|fs|[t'|]| | |]; simpl; try done; [by destruct (is_finite n) eqn:E; simpl; rewrite ?E| |].
    + by destruct (Harr l).
    + by destruct (Hobj fs).
Qed.

(** What a value becomes through its text. *)
Lemma parse_json v w : jsonify v = Some w -> serial w -> json_parse (json v) = Some w.
Proof.
  intros Hj Hw. assert (json v = json w) as -> by (unfold json; by rewrite (stringify_jsonify v), Hj). by apply parse_stringify.
Qed.

Lemma jsonify_object o : jsonify (VObj o) = Some (VObj (jsonify_obj o)).
Proof.
  simpl. do 2 f_equal. unfold jsonify_obj. induction o as [|[k x] o IH]; simpl; [done|]. by rewrite IH.
Qed.

(** Distinct keys, and values whose text is read back. *)
Definition plain_object (o : obj) : Prop :=
  NoDup o.*1 /\ Forall (fun f => match jsonify f.2 with Some y => Is_true (serial y) | None => True end) o.

Lemma jsonify_keys o : (jsonify_obj o).*1 `sublist_of` o.*1.
Proof. unfold jsonify_obj. induction o as [|[k x] o IH]; simpl; [done|]. destruct (jsonify x); simpl; by constructor. Qed.

Lemma plain_serial o : plain_object o -> serial (VObj (jsonify_obj o)).
Proof.
  intros [Hn Hf]. simpl. apply andb_True. split; [apply bool_decide_pack, (sublist_NoDup _ _ Hn), jsonify_keys|].
  unfold jsonify_obj. clear Hn. induction Hf as [|[k x] o Hx Hf IH]; simpl; [done|]. simpl in Hx. destruct (jsonify x); simpl; [|done].
  by apply andb_True.
Qed.

Lemma get_absent o k : k ∉ o.*1 -> obj_get o k = None.
Proof. induction o as [|[k' x] o IH]; simpl; [done|]. intros H. rewrite bool_decide_false by set_solver. apply IH. set_solver. Qed.

Lemma get_jsonify o k : NoDup o.*1 -> obj_get (jsonify_obj o) k = obj_get o k ≫= jsonify.
Proof.
  unfold jsonify_obj. induction o as [|[k' x] o IH]; simpl; [done|]. intros [Hk Hn]%NoDup_cons. specialize (IH Hn).
  case_bool_decide as E.
  - subst. simpl. destruct (jsonify x); simpl; [by rewrite bool_decide_true|]. by rewrite IH, get_absent.
  - destruct (jsonify x); simpl; [by rewrite bool_decide_false|done].
Qed.

Lemma get_without k o k' : obj_get (without k o) k' = if bool_decide (k = k') then None else obj_get o k'.
Proof.
  unfold without. induction o as [|[k1 x] o IH]; simpl; [by case_bool_decide|]. destruct (decide (k1 = k)) as [->|H1].
  - rewrite bool_decide_true by done. simpl. rewrite IH. by case_bool_decide.
  - rewrite bool_decide_false by done. simpl. rewrite IH. destruct (decide (k1 = k')) as [->|H2].
    + rewrite bool_decide_true, (bool_decide_false (k = k')) by done. done.
    + by rewrite (bool_decide_false (k1 = k')) by done.
Qed.

Lemma without_sublist k o : without k o `sublist_of` o.
Proof. unfold without. induction o as [|f o IH]; simpl; [done|]. destruct (negb _); by constructor. Qed.

Lemma plain_sublist o o' : o' `sublist_of` o -> plain_object o -> plain_object o'.
Proof.
  intros Hs [Hn Hf]. split.
  - apply (sublist_NoDup _ _ Hn). clear -Hs. induction Hs; simpl; by constructor.
  - clear Hn. induction Hs as [|f l1 l2 Hs IH|f l1 l2 Hs IH]; [done|..]; apply Forall_cons in Hf as [? ?]; [constructor; auto|auto].
Qed.

(** The object on the first line. *)
Definition head_object (a : obj) : obj :=
  match field a "requiredApprovals" with VUndef => rest_of a | n => ("requiredApprovals", n) :: rest_of a end.

Lemma head_json a : head_of a = json (VObj (head_object a)).
Proof. unfold head_of, head_object. by destruct (field a "requiredApprovals"). Qed.

Lemma rest_keys a k : k ∈ (rest_of a).*1 -> k <> "requiredApprovals".
Proof. unfold rest_of. intros [H _]%without_keys. by apply without_keys in H as [_ ?]. Qed.

Lemma field_in a k v : field a k = v -> v <> VUndef -> (k, v) ∈ a /\ obj_get a k = Some v.
Proof.
  unfold field. intros <- Hv. induction a as [|[k' x] a IH]; simpl in *; [done|]. case_bool_decide; [subst; simpl; by split; [left|]|].
  destruct (IH Hv) as [H1 H2]. split; [by right|done].
Qed.

Lemma head_plain a : plain_object a -> plain_object (head_object a).
Proof.
  intros Ha. assert (plain_object (rest_of a)) as Hr.
  { eapply plain_sublist; [|exact Ha]. unfold rest_of. etrans; apply without_sublist. }
  unfold head_object. destruct (decide (field a "requiredApprovals" = VUndef)) as [->|Hne] || idtac.
  all: pose proof (field_in a "requiredApprovals" _ eq_refl) as Hf; destruct (field a "requiredApprovals") eqn:E; try done;
    destruct (Hf ltac:(done)) as [Hin _]; (split; [simpl; apply NoDup_cons; split; [intros H; by apply rest_keys in H|apply Hr]|
    constructor; [|apply Hr]; destruct Ha as [_ Ha]; rewrite Forall_forall in Ha; exact (Ha _ Hin)]).
Qed.

Lemma head_gets a k : k <> "signatures" -> obj_get (head_object a) k ≫= jsonify = obj_get a k ≫= jsonify.
Proof.
  intros Hk. assert (k <> "requiredApprovals" -> obj_get (rest_of a) k = obj_get a k) as Hr.
  { intros H. unfold rest_of. rewrite !get_without, !bool_decide_false by congruence. done. }
  assert (obj_get (rest_of a) "requiredApprovals" = None) as Hn.
  { unfold rest_of. rewrite !get_without. by rewrite (bool_decide_true ("requiredApprovals" = "requiredApprovals")), bool_decide_false. }
  destruct (decide (k = "requiredApprovals")) as [->|Hne].
  - unfold head_object. destruct (field a "requiredApprovals") eqn:E;
      try (destruct (field_in a "requiredApprovals" _ E ltac:(done)) as [_ Hget]; rewrite Hget; cbn [obj_get]; rewrite bool_decide_true by done; done).
    rewrite Hn. simpl. unfold field in E. destruct (obj_get a "requiredApprovals") as [v|]; simpl in *; [by subst|done].
  - unfold head_object. destruct (field a "requiredApprovals"); simpl; rewrite ?(bool_decide_false ("requiredApprovals" = k)) by done; by rewrite Hr.
Qed.

Definition is_object (v : value) : Prop := exists o, v = VObj o.
Definition wire (v : value) : value := default VNull (jsonify v).

Lemma signatures_serial a : plain_object a -> Forall (fun s => Is_true (serial (wire s))) (signatures_of a).
Proof.
  intros [_ Ha]. unfold signatures_of. destruct (obj_get a "signatures") as [[| | | | |l| | | | |]|] eqn:E; try constructor.
  destruct (field_in a "signatures" (VArr l)) as [Hin _]; [unfold field; by rewrite E|done|].
  rewrite Forall_forall in Ha. specialize (Ha _ Hin). simpl in Ha. rewrite forallb_forall in Ha || idtac.
  clear -Ha. induction l as [|x l IH]; [constructor|]. simpl in Ha. apply andb_True in Ha as [Hx Hl]. constructor; [exact Hx|by apply IH].
Qed.

Lemma parsed_lines date l : Forall (fun s => Is_true (serial (wire s))) l -> Forall is_object l ->
  parse_lines date (map (fun s => chars (signatureLine s)) l) = inr (map (fun s => reviveSignature date (wire s)) l).
Proof.
  intros Hs Ho. revert Hs. induction Ho as [|s l [o ->] Ho IH]; intros Hs; [done|]. apply Forall_cons in Hs as [Hs Hl].
  cbn [map parse_lines]. assert (line_json (chars (signatureLine (VObj o))) = json (VObj o)) as ->.
  { unfold line_json. rewrite line_chars, after_run by apply json_lacks_tab. apply String.string_of_list_ascii_of_string. }
  rewrite (parse_json (VObj o) (wire (VObj o))); [|unfold wire; by rewrite jsonify_object|done].
  by rewrite IH.
Qed.

Lemma iso_truthy t : truthy (iso_string t) = true.
Proof.
  unfold iso_string. destruct (civil_of_days _) as [[y m] d]. by destruct (if (0 <=? y) && (y <=? 9999) then pad 4 y else _).
Qed.

(** C30. An approval that is saved is read back: its dates as dates, its signatures in order,
    and every other field as JSON keeps it, whatever the threshold's place in the text. *)
Theorem saved_approval_reads_back date a t :
  plain_object a -> Forall is_object (signatures_of a) ->
  obj_get a "createdAt" = Some (VDate (Some t)) -> date (VStr (iso_string t)) = Some t ->
  (obj_get a "expiresAt" = None \/
   exists e, obj_get a "expiresAt" = Some (VDate (Some e)) /\ date (VStr (iso_string e)) = Some e) ->
  exists r, deserialize date (Some (serialize a)) = inr (Some r) /\ obj_get r "createdAt" = Some (VDate (Some t)) /\
    expiry_of r = expiry_of a /\ signatures_of r = map (fun s => reviveSignature date (wire s)) (signatures_of a) /\
    (forall k, k ∉ ["createdAt"; "expiresAt"; "signatures"] -> obj_get r k = obj_get a k ≫= jsonify).
Proof.
  intros Ha Ho Hc Hdate He. pose proof (serialized_lines a) as Hl. pose proof (head_plain a Ha) as Hh.
  pose proof (parse_json (VObj (head_object a)) _ (jsonify_object _) (plain_serial _ Hh)) as Hp.
  pose proof (parsed_lines date (signatures_of a) (signatures_serial a Ha) Ho) as Hpl.
  set (parsed := jsonify_obj (head_object a)) in *.
  assert (forall k, k <> "signatures" -> obj_get parsed k = obj_get a k ≫= jsonify) as Hget.
  { intros k Hk. unfold parsed. rewrite get_jsonify by apply Hh. by apply head_gets. }
  assert (obj_get parsed "signatures" = None) as Hnos.
  { unfold parsed. rewrite get_jsonify by apply Hh. assert (obj_get (head_object a) "signatures" = None) as ->; [|done].
    assert (obj_get (rest_of a) "signatures" = None) as Hn by (unfold rest_of; by rewrite get_without, bool_decide_true).
    unfold head_object. destruct (field a "requiredApprovals"); simpl; by rewrite ?bool_decide_false. }
  set (revived := reviveApproval date parsed).
  assert (obj_get revived "signatures" = None /\ obj_get revived "createdAt" = Some (VDate (Some t)) /\ expiry_of revived = expiry_of a /\
    forall k, k ∉ ["createdAt"; "expiresAt"; "signatures"] -> obj_get revived k = obj_get a k ≫= jsonify) as (Hr1 & Hr2 & Hr3 & Hr4).
  { unfold revived, reviveApproval. rewrite Hnos. split_and!.
    - by rewrite !obj_get_set, !bool_decide_false.
    - rewrite !obj_get_set, bool_decide_false, bool_decide_true by done. unfold field. rewrite Hget, Hc by done. simpl. by rewrite Hdate.
    - unfold expiry_of at 1. rewrite obj_get_set, bool_decide_true by done. unfold field. rewrite Hget by done. unfold expiry_of.
      destruct He as [->|(e & -> & He)]; simpl; [done|]. by rewrite iso_truthy, He.
    - intros k Hk. rewrite !obj_get_set, !bool_decide_false by set_solver. apply Hget. set_solver. }
  unfold deserialize. destruct (serialize a) as [|c rest] eqn:Es.
  { exfalso. simpl in Hl. injection Hl as Hl _. rewrite head_json, stringify_obj in Hl. done. }
  rewrite Hl, head_json, String.string_of_list_ascii_of_string, Hp, filter_lines, Hpl.
  destruct (signatures_of a) as [|s sigs] eqn:Esig.
  - simpl. exists revived. split_and!; [done|done|done| |done]. unfold signatures_of. by rewrite Hr1.
  - simpl. eexists. split; [reflexivity|]. fold revived. split_and!.
    + by rewrite obj_get_set, bool_decide_false.
    + unfold expiry_of at 1. rewrite obj_get_set, bool_decide_false by done. exact Hr3.
    + unfold signatures_of. by rewrite obj_get_set, bool_decide_true.
    + intros k Hk. rewrite obj_get_set, bool_decide_false by set_solver. by apply Hr4.
Qed.

(** ** Lifetimes *)

(** The key of an approval outlives its expiry by the grace period, so that an expired
    approval can be told from an unknown one, and by less than a second more. *)
Theorem key_outlives_expiry self t now : 0 <= expiryGraceSeconds self ->
  exists ttl, resolveTtlSeconds self (Some t) now = Some ttl /\ 1 <= ttl /\
    t + expiryGraceSeconds self * 1000 <= now + ttl * 1000 /\
    (now < t -> now + ttl * 1000 < t + expiryGraceSeconds self * 1000 + 1000).
Proof.
  intros Hg. unfold resolveTtlSeconds. eexists. split; [done|]. unfold seconds_up.
  pose proof (Z.mul_div_le (- (t - now)) 1000 ltac:(lia)). pose proof (Z.mul_succ_div_gt (- (t - now)) 1000 ltac:(lia)). lia.
Qed.

(** ** The state store is a map *)

Section StateStore.
Context {S : Type} (server : RedisServer S) (Hlaws : LawfulRedis server) (prefix : string).

Lemma append_inj a b c : a +:+ b = a +:+ c -> b = c.
Proof. induction a as [|x a IH]; simpl; [done|]. intros [= H]. auto. Qed.

Lemma set_lifetime ttl : match ttl with Some t => 0 <= t | None => True end ->
  match lifetime ttl with Some t => 0 < t | None => True end.
Proof. destruct ttl as [t|]; simpl; [|done]. destruct (t =? 0) eqn:E; [done|]. apply Z.eqb_neq in E. lia. Qed.

Lemma decode_json v : serial v -> decode (Some (json v)) = Some v.
Proof.
  intros Hv. pose proof (parse_stringify v Hv) as Hp. unfold decode. destruct (json v); [by vm_compute in Hp|]. by rewrite Hp.
Qed.

Lemma get_fold_del k keys s : GET k (fold_left (fun s k => DEL k s) keys s) = if bool_decide (k ∈ keys) then None else GET k s.
Proof using Hlaws.
  revert s. induction keys as [|k' keys IH]; intros s; simpl; [done|]. rewrite IH. destruct (decide (k = k')) as [->|Hk].
  - rewrite (bool_decide_true (k' ∈ k' :: keys)) by (by left). rewrite get_del. by case_bool_decide.
  - rewrite get_del_other by done. destruct (decide (k ∈ keys)); [by rewrite !bool_decide_true by set_solver|by rewrite !bool_decide_false by set_solver].
Qed.

(** Reading gives what was written last: a value that is not a string as JSON keeps it, a
    string when it is not itself JSON and not empty.  A conditional write writes exactly
    when nothing is there.  Clearing a prefix without special characters removes the keys
    that begin with it and no other. *)
Theorem state_store_is_a_map key v ttl s : match ttl with Some t => 0 <= t | None => True end ->
  (serial v -> (forall x, v <> VStr x) -> state_get prefix key (state_set prefix key v ttl s) = Some v) /\
  (forall x, truthy x = true -> json_parse x = None -> state_get prefix key (state_set prefix key (VStr x) ttl s) = Some (VStr x)) /\
  (forall k, k <> key -> state_get prefix k (state_set prefix key v ttl s) = state_get prefix k s) /\
  ((setIfNotExists prefix key v ttl s).1 = true <-> GET (state_key prefix key) s = None) /\
  (forall p, glob_free (prefix +:+ p) = true -> forall k,
    GET k (clear prefix (Some p) s) = if starts_with (prefix +:+ p) k then None else GET k s).
Proof using Hlaws.
  intros Ht. apply set_lifetime in Ht. unfold state_get, state_set. split_and!.
  - intros Hv Hs. rewrite get_set by done. assert (encode v = json v) as -> by (destruct v; try done; by destruct (Hs s0)). by apply decode_json.
  - intros x Hx Hp. rewrite get_set by done. simpl. destruct x; [done|]. by rewrite Hp.
  - intros k Hk. rewrite get_set_other; [done|]. intros H. by apply append_inj in H as ->.
  - unfold setIfNotExists. by destruct (GET (state_key prefix key) s).
  - intros p Hp k. unfold clear. rewrite get_fold_del. simpl default.
    assert (prefix +:+ p +:+ "*" = (prefix +:+ p) +:+ "*") as -> by (apply chars_inj; by rewrite !chars_app, app_assoc).
    pose proof (keys_prefix (prefix +:+ p) s k Hp) as Hk. destruct (GET k s) as [x|] eqn:E.
    + destruct (starts_with (prefix +:+ p) k) eqn:Es.
      * rewrite bool_decide_true; [done|]. apply Hk. split; [by eexists|done].
      * rewrite bool_decide_false; [done|]. intros H. by apply Hk in H as [_ ?].
    + case_bool_decide; by destruct (starts_with _ k).
Qed.
End StateStore.

(** ** A server *)

Notation demo_db := (gmap string (string * option Z)).

#[export] Instance demo_redis : RedisServer demo_db := {
  GET := fun k s => fst <$> s !! k;
  SET := fun k v ttl s => <[k := (v, ttl)]> s;
  DEL := fun k s => delete k s;
  PTTL := fun k s => match s !! k with Some (_, Some t) => t | Some (_, None) => -1 | None => -2 end;
  KEYS := fun p s => List.filter (starts_with (slice_to p (String.length p - 1))) (map fst (map_to_list s));
}.

#[export] Instance demo_lawful : LawfulRedis demo_redis.
Proof.
  split; simpl.
  - intros k v ttl s _. by rewrite lookup_insert_eq.
  - intros k k' v ttl s H. by rewrite lookup_insert_ne.
  - intros k s. by rewrite lookup_delete_eq.
  - intros k k' s H. by rewrite lookup_delete_ne.
  - intros p s k _. assert (slice_to (p +:+ "*") (String.length (p +:+ "*") - 1) = p) as ->.
    { apply chars_inj. unfold slice_to. rewrite chars_of_chars, chars_app. pose proof (str_length_chars (p +:+ "*")) as H.
      unfold str_length in H. rewrite chars_app, length_app in H. simpl in H.
      replace (String.length (p +:+ "*") - 1)%nat with (length (chars p)) by lia. apply take_app_length. }
    rewrite list_elem_of_In, filter_In, <- list_elem_of_In, list_elem_of_fmap, fmap_is_Some. split.
    + intros [([k' x] & -> & H) Hs]. apply elem_of_map_to_list in H. split; [by eexists|done].
    + intros [[x Hx] Hs]. split; [|done]. exists (k, x). split; [done|]. by apply elem_of_map_to_list.
Qed.

(** A string that is JSON is read back as what it stands for; an empty one as nothing. *)
Example strings_are_read_as_json :
  state_get "state:" "k" (state_set "state:" "k" (VStr "123") None (∅ : demo_db)) = Some (VNum (num_of_Z 123)) /\
  state_get "state:" "k" (state_set "state:" "k" (VStr EmptyString) None (∅ : demo_db)) = None.
Proof. split; by vm_compute. Qed.

Definition signed_by_user (u : string) : value := VObj [("actor", VObj [("userId", VStr u)]); ("signedAt", VDate (Some 0))].

Definition demo_approval : obj :=
  [("id", VStr "a1"); ("createdAt", VDate (Some 86400000)); ("expiresAt", VDate (Some 172800000));
   ("requiredApprovals", VNum (num_of_Z 2)); ("signatures", VArr [signed_by_user "ann"])].

Definition demo_saved : demo_db := <["ap:a1" := (serialize demo_approval, Some 5000)]> ∅.

Lemma demo_signable : signable demo_approval.
Proof. split; [right; by exists 2|]. repeat constructor; by eexists. Qed.

Lemma script_follows_the_rule_witness :
  (add_signature_script "ap:a1" (json (VStr "bob")) (signatureLine (signed_by_user "bob")) demo_saved).1 =
    Some (Complete (serialize (add_signature demo_approval (signed_by_user "bob")))) /\
  (add_signature_script "ap:a1" (json (VStr "ann")) (signatureLine (signed_by_user "ann")) demo_saved) =
    (Some (Duplicate (serialize demo_approval)), demo_saved).
Proof.
  pose proof (script_follows_the_rule demo_redis demo_lawful "ap:a1" demo_approval (signed_by_user "bob") "bob" demo_saved eq_refl demo_signable eq_refl) as H1.
  pose proof (script_follows_the_rule demo_redis demo_lawful "ap:a1" demo_approval (signed_by_user "ann") "ann" demo_saved eq_refl demo_signable eq_refl) as H2.
  change (json (signer (signed_by_user "bob"))) with (json (VStr "bob")) in H1. change (json (signer (signed_by_user "ann"))) with (json (VStr "ann")) in H2.
  split.
  - destruct (add_signature_script "ap:a1" (json (VStr "bob")) _ demo_saved) as [r s']. by destruct H1 as [[H1 _] _].
  - destruct (add_signature_script "ap:a1" (json (VStr "ann")) _ demo_saved) as [r s']. destruct H2 as [[-> ->] _]. done.
Defined.

(** A reader of the dates of the demo. *)
Definition demo_date (v : value) : option Z :=
  match v with
  | VStr s => if bool_decide (s = iso_string 86400000) then Some 86400000
              else if bool_decide (s = iso_string 172800000) then Some 172800000 else None
  | _ => None
  end.

Lemma saved_approval_reads_back_witness :
  exists r, deserialize demo_date (Some (serialize demo_approval)) = inr (Some r) /\
    obj_get r "createdAt" = Some (VDate (Some 86400000)) /\ expiry_of r = Some 172800000 /\ obj_get r "requiredApprovals" = Some (VNum (num_of_Z 2)).
Proof.
  destruct (saved_approval_reads_back demo_date demo_approval 86400000) as (r & H1 & H2 & H3 & _ & H4).
  - split; [by apply (bool_decide_unpack _); vm_compute|]. by repeat constructor.
  - repeat constructor; by eexists.
  - done.
  - by vm_compute.
  - right. exists 172800000. split; [done|by vm_compute].
  - exists r. split_and!; [done|done|by rewrite H3|]. rewrite H4; [by vm_compute|]. apply (bool_decide_unpack _). by vm_compute.
Defined.

Lemma key_outlives_expiry_witness :
  exists ttl, resolveTtlSeconds (mk_store None None None) (Some 10500) 0 = Some ttl /\ 10500 + 300 * 1000 <= ttl * 1000.
Proof.
  destruct (key_outlives_expiry (mk_store None None None) 10500 0) as (ttl & H & _ & H1 & _); [by vm_compute|].
  exists ttl. split; [exact H|]. simpl in H1. lia.
Defined.

Lemma state_store_is_a_map_witness :
  state_get "state:" "k" (state_set "state:" "k" (VArr [VBool true]) (Some 60) (∅ : demo_db)) = Some (VArr [VBool true]).
Proof.
  destruct (state_store_is_a_map demo_redis demo_lawful "state:" "k" (VArr [VBool true]) (Some 60) ∅) as [H _]; [lia|].
  by apply H.
Defined.

End RedisStores.
